(* ===== verification/_CoqProject ===== *)
-Q . S2P
Prelude.v
Floats.v
QlAst.v
QlLexer.v
QlParser.v
QlParserFacts.v
QlLexerFacts.v
QlRoundtrip.v
ByteOrder.v
Json.v
RroTime.v
Geo.v
Query.v
QlLower.v
Utf8.v
Keys.v
KeysFacts.v
Quant.v
QuantFacts.v
Heap.v
Paged.v
AnnStore.v
Ann.v
AnnFacts.v
AnnSearch.v
AnnInsert.v
AnnSpec.v
AnnBytes.v
AnnDiskSpec.v
Text.v
TextFacts.v
Model.v
Kv.v
Pending.v
Rels.v
Store.v
StoreFacts.v
StoreTx.v
StoreSpec.v
Fusion.v
Searches.v
SearchFacts.v
LexFacts.v
SearchSpec.v
PayloadIndex.v
FilterExec.v
QueryExec.v
QueryFacts.v
QuerySpec.v
ListingSpec.v
Strategies.v
Replication.v
ReplicationFacts.v
Cluster.v
ReplicationSpec.v
ReplicationLive.v
Sha256.v
Base64Url.v
Auth.v
Estate.v
EstateSpec.v
EstateReports.v
RrdShape.v
RrdBaseline.v
RrdGates.v
Rrd.v
RrdSpec.v
SqlApply.v
StdRoutines.v
Traits.v
Defaults.v
Connectome.v
Flow.v
FlowSpec.v
Toon.v
ToonFacts.v
GraphLife.v
GraphQl.v
Handler.v
Connectors.v
