(* ===== verification/Prelude.v ===== *)
(** * Reason Ready Objects: a verification library

    The repository is a memory engine for AI agents: a key-value store (an
    "estate") holds documents, their vectors, postings, secondary indexes and
    relations; a query language selects from it; searches rank by vectors, by
    words and by both; a background thread keeps a vector graph in step with
    the store. This library models the deterministic core of that engine,
    definition by definition from the Rust sources, and proves what makes each
    part correct.

    ** The parts and where they are modelled

    Query language ([crates/rro-ql]). Text becomes tokens, tokens a statement,
    a SELECT a typed request.
    - [QlAst]: the statements and expressions of [ast.rs].
    - [QlLexer]: [lexer.rs] on bytes, with spans and errors.
    - [QlParser]: the recursive-descent parser of [parser.rs] over a token
      list with a position, and the caret rendering of [error.rs], whose
      slices can panic (a panic is [None]). Recursion is by fuel;
      [QlParserFacts] shows that the fuel [parse] supplies, a multiple of the
      number of tokens, is never used up.
    - [QlLexerFacts]: spans tile the source, errors point into it, the parser
      always answers, caret rendering.
    - [QlRoundtrip]: a canonical printer (of this library) and the round trips
      through the parser and through the lexer.
    - [QlLower]: [lower.rs] and [parse_query]; the filter of an accepted query
      is equivalent to its condition.

    Core contract ([crates/rro-core]).
    - [Floats]: binary64 and binary32 as [SpecFloat] numbers with their bits.
    - [Json]: [serde_json::Value]; its numbers are a class [SerdeNumber] with
      the laws the documentation of serde_json states, and one instance.
    - [RroTime]: the timestamp and UUID parsers of [time.rs], against a
      reference calendar and printers.
    - [Geo]: points, distances, boxes and Morton codes of [geo.rs]; the
      functions of libm are a class [Libm].
    - [Query]: conditions, filters and requests of [query.rs].
    - [Text], [TextFacts]: [text.rs], from characters to stems and highlights;
      the Unicode tables are a class.
    - [Toon]: the encoding of values for prompts of [toon.rs], its tables,
      lists and quoting, and the choice of a format; [ToonFacts]: it loses
      nothing. The text of a number is a class.
    - [Quant], [QuantFacts]: the dot products of [simd.rs] in their order of
      summation, [Embedding], and the quantizers of [recall/quant.rs].

    The vector graph ([crates/recall]).
    - [Heap]: the priority queue of the standard library as a class with laws.
    - [Paged]: the page cache over the vector file and the tail in memory.
    - [AnnStore]: the four ways a graph holds its vectors; [Ann]: the graph,
      its insertions, removals and searches; [AnnBytes]: both disk layouts.
    - [AnnFacts], [AnnSearch], [AnnInsert]: well-formedness and the
      search of one layer; [AnnSpec]: the graph as a map from ids to vectors;
      [AnnDiskSpec]: reading back what was written.

    The estate ([crates/connxism]).
    - [ByteOrder], [Utf8]: byte-wise key order, big- and little-endian words,
      UTF-8 and its lossy decoding.
    - [Keys], [KeysFacts]: the row keys and encodings of [keys.rs].
    - [Model]: the stored data of [model.rs]; a row holds typed data where
      the code holds its JSON or binary encoding.
    - [Kv]: the storage seam [kv/fjall.rs]: column families as maps of rows,
      batches, merged counters, ordered scans.
    - [Pending]: [pending.rs], the queue between writers and the thread that
      applies vectors to the graph, as a step relation over every
      interleaving. The graph is a class [AnnGraph] with its laws.
    - [Rels]: relations and traversal of [rels.rs].
    - [Store]: the write path of [store.rs] and [txn.rs]: registrations and
      guards, upserts, removals, transactions, payload mutations, quotas. The
      text analyzer is a class. [StoreFacts] has the lemmas on batches and the
      rows of one document, [StoreTx] the transaction invariant, [StoreSpec]
      the promises.
    - [PayloadIndex]: creating and rebuilding a payload index ([estate.rs]).
    - [FilterExec]: [filter.rs], a filter answered by index scans, and
      [count_where].
    - [Fusion]: the sorts and tallies the searches share, BM25 and the two
      fusions of [index.rs]; [Searches]: the readers of [store.rs].
      [SearchFacts], [LexFacts] relate what they scan
      to the documents; [SearchSpec] has the promises.
    - [QueryExec]: [query.rs] whole, with facets, counts and scrolling;
      [QueryFacts], [QuerySpec], [ListingSpec] its promises.
    - [Strategies]: grouping, recommendation, discovery and
      batches of [strategies.rs].

    - [Replication]: the change feed, [replication_batch] and the follower of
      [replica.rs]; [ReplicationFacts] its lemmas. [Cluster]: quorum
      acknowledgement, leases and election of [cluster.rs], the waiter as a
      step relation. [ReplicationSpec]: a leader and its followers as a step
      relation over writes, polls, applications and restarts;
      [ReplicationLive]: catching up.
    - [Estate]: the rest of [estate.rs] that is not input and output: nodes,
      connectors, tags, trends, collections, aliases, declared fields,
      sampling, health; [EstateSpec], [EstateReports] its promises.
    - [GraphLife]: opening an estate, loading or rebuilding its graph,
      persisting it at shutdown and compacting it ([estate.rs]). What the code
      reads of the store at each point is an argument, so that writers may
      run between any two reads, and between the check of a compaction and
      its swap; files are byte strings.

    The node ([crates/rro-engine]).
    - [Sha256], [Base64Url], [Auth]: [auth.rs], tokens signed with
      HMAC-SHA256, roles and namespaces. The JSON codec of claims is a class
      [ClaimsJson] with its round trip as law.
    - [SqlApply]: [sql.rs], a parsed statement applied to an estate.
    - [Traits]: the seams of [rro-core/traits.rs], embedder, recall, reranker
      and classifier, as operations with laws. [Defaults]: the implementations
      of the default engine, [deterministic.rs], [bm25.rs], [identity.rs],
      [heuristic.rs] and [flat.rs], each an instance of its laws; [StdRoutines]:
      the hasher of the standard library the embedder uses, and the decimal
      formatting of numbers.
    - [Flow]: [flow.rs] and [turn.rs], one pass through the engine over any
      components; [FlowSpec] its promises, proved against the seams, and the
      default engine, and an estate behind the flow.
    - [Connectome]: the graph of a pass or of an estate and its DOT text
      ([crates/connectome], [estate_map.rs]).
    - [GraphQl]: [graphql.rs]: lexer, parser, projection, queries and
      mutations of the GraphQL surface.
    - [Handler]: [handler.rs], the node that serves all of it: one definition
      per verb under one dispatch with authorization and roles, transactions
      that wait for a quorum, and the push stream of changes as a step
      relation. The estate lies in the state of the flow's recall and is read
      and written through an [EstateRef] with laws ([EstateRefLaws],
      [WritesThrough]); the recall of an estate is an instance.
    - [Connectors]: [crates/connectors], the sync of a source into an estate
      over any driver ([DriverLaws]), and the line and directory drivers. A
      sync keeps every store it passes through, the registrations an upsert
      commits before its batch included, so that a crash is one of them.

    The Reason Ready daemon ([crates/rrd]) distils a payload into an object.
    - [RrdShape]: [shape.rs], [mode.rs], [registry.rs], [plan.rs]: the shape of
      the metadata, the votes for a mode, the 64-bit ids of slivers, the
      registry and the plan compiled for a shape.
    - [RrdBaseline]: [baseline.rs]: what is normal in each context, with
      growing weights, predictions, drift, snapshots and speculation.
    - [RrdGates]: [gates.rs], [router.rs], [trigger.rs]: what is blocked or
      flagged, the tags of an embedding, when a session fires.
    - [Rrd]: [lib.rs]: [distill_stamped], one definition per critical section;
      [RrdSpec]: callers that interleave at those sections.
    The iteration order of a hash map is the class [HashOrder], the logarithm
    of libm the class [Ln64].

    State is passed explicitly: a store is a function from column families to
    finite maps, an operation returns the new one. Errors are values of
    [result]; a panic of the code is [None] or the error [Panic].

    ** What the theorems show

    - Refinement of the write path: [Refines db m log] says that a store holds
      exactly the rows, counters, document frequencies, shape census and
      change feed of a map [m] of records and a log of changes. Upserts,
      removals, transactions, payload mutations and index maintenance
      preserve it and act on [m] as their names say; failures leave [m]; the
      operations handed to the graph take the old vectors to the new ones.
      Hypotheses: the ids of one batch are distinct and free of NUL bytes, and
      the counters stay within 64 bits ([run_fits]).
    - Interleaving: a search sees its own writes in every reachable state of
      the queue, and the applier drains.
    - The graph: insertions and removals keep it well-formed and act as on a
      map, each node holding the stored form of its vector under every
      quantizer; a search never panics, ends, answers live nodes with their
      scores, and is exact over what is reachable when the beam is wide enough;
      a reopened graph answers as the written one.
    - Searches: over a store that refines [m], each search answers the best
      [k] documents of [m] under the score it promises; max-score pruning
      loses no winner; fusion ranks by its votes. The scores are IEEE single
      precision. Inputs are assumed to be real floats of the format
      ([searchable], [disk_fits]); the pruning theorem assumes that the bound
      of a term is one ([bounds_hold]).
    - Queries: which fail, that every answer is a stored document that meets
      the filter, the scope, the collection and the threshold, once, with its
      payload (but for queries by text alone, [text_only_query_is_bare]);
      facets count exactly; scrolling visits each match once and ends. The
      indexes are assumed to agree with the filter language ([agrees]).
    - Index scans return exactly the matching documents where the index and
      the filter language agree on the values ([agrees]); counting likewise;
      relation scans and traversals are exact.
    - Replication: a follower mirrors the leader, an acknowledged write survives
      a majority election, a quorum waiter for a position above zero misses no
      wakeup, the dense part of an idle leader's documents is caught up with.
      The transport is a function from requests to answers.
    - The catalog: dropping a collection, tags, trends, aliases and declared
      fields act as on plain sets and maps; samples are sub-multisets of the
      documents; the health report is what the estate holds.
    - Tokens: the hash and the MAC are those of the standards, authorization is
      characterised exactly, issued tokens are honoured until they expire.
    - The node: a reader changes nothing, every message takes a store that
      refines a map to one that does, a transaction is answered as it went,
      its quorum counted from the acknowledgements that arrive in time, a
      stream delivers the feed once and in order; a dropped collection wakes
      no stream ([drop_leaves_stream_asleep]).
    - Connectors: however often a sync is cut off between two committed
      writes, the cursor never passes a document that is not stored and on the
      map, and a run that ends well has the whole source; its fuel is the
      number of documents. The source is assumed to stay as it is, its ids to
      be distinct, and the keys of a directory to sort as its paths do;
      [directory_skips_file] shows what happens when they do not.
    - The graph over the life of an estate: it opens with exactly the stored
      vectors; compaction swaps in exactly those of the store it checked, and
      what is missing after the queue is applied was written between the check
      and the swap. That the two checks against racing writes are too weak is
      shown by [persist_mistags] and [swap_forgets].
    - Statements: each does to the documents, the feed, the graph and the
      registries what it means, leaves every other row alone, and is refused
      exactly for an unknown record of an UPDATE or of a DELETE of payload,
      a SELECT or a LIVE.
    - The flow: a blocked query reaches no component, any other goes through
      the stages in order until one fails; an answer is a page of what the
      recall holds, whatever the components, under one turn that is closed
      exactly on success; the default engine never fails.
    - Distillation: the plan cache is invisible under every interleaving of
      callers, and the counters report one compilation per shape; the baseline
      holds what it has seen and learns a uniform context at once; a plan
      moves every field where its role says. A shape is assumed not to collide
      with another in the sliver id, and [colliding_shapes_lose_roles] shows
      what happens when it does.
    - Language: round trips, spans, termination, equivalence of lowering.
    - Encodings: order-preserving and invertible keys, timestamps, UUIDs,
      vectors, Morton codes, graph files.
    - What the code does and does not mean to do: the theorems named after a
      divergence, each a concrete run.

    Fuel appears in the lexer, the parser, the traversal, the greedy descent
    and the beam of the graph; each has a theorem that the supplied amount (a
    multiple of the number of tokens, or the number of documents or nodes)
    suffices; so has the follower's [sync_to_head]. The depth of nested
    prefetch stages is the code's own bound of three. Machine integers are [Z]
    with the wrapping or saturation of the code written out; every NaN is one
    NaN, as no modelled operation looks at its payload; reading a vector does
    not thread the page cache, and [Paged.mv_with_reads] shows that the cache
    never changes what is read.

    ** What is not modelled

    Serialised forms of typed rows; the storage engine under the seam and its
    durability; the directory of estates; threads other than the applier,
    the quorum waiters, the push streams and the callers of the daemon;
    snapshots of an estate; model inference, the TCP and HTTP transports and
    their JSON decoders, and the client crates. *)
From Stdlib Require Export ZArith Lia Bool Ascii String.
From stdpp Require Export base gmap sets list strings sorting.
#[local] Set Default Goal Selector "!".

(** ** Bytes, strings and characters

    A Rust [String], [&str] or [Vec<u8>] is a list of byte values; [str]
    turns a literal into one, [ch] a character literal into its code. *)

Abbreviation bytes := (list Z).

Definition ch (a : ascii) : Z := Z.of_N (N_of_ascii a).

Definition str (s : string) : bytes := map ch (list_ascii_of_string s).

Arguments ch a%_char.
Arguments str s%_string.

Definition is_byte (b : Z) : Prop := (0 <= b < 256)%Z.

(** [u8] classification methods of the Rust standard library. *)
Section ascii_class.
Local Open Scope Z_scope.

Definition is_ascii_digit (c : Z) : bool := (48 <=? c) && (c <=? 57).
Definition is_ascii_uppercase (c : Z) : bool := (65 <=? c) && (c <=? 90).
Definition is_ascii_lowercase (c : Z) : bool := (97 <=? c) && (c <=? 122).
Definition is_ascii_alphabetic (c : Z) : bool :=
  is_ascii_uppercase c || is_ascii_lowercase c.
Definition is_ascii_alphanumeric (c : Z) : bool :=
  is_ascii_alphabetic c || is_ascii_digit c.
(** space, tab, line feed, form feed, carriage return *)
Definition is_ascii_whitespace (c : Z) : bool :=
  (c =? 32) || (c =? 9) || (c =? 10) || (c =? 12) || (c =? 13).
Definition to_ascii_uppercase (c : Z) : Z :=
  if is_ascii_lowercase c then c - 32 else c.
Definition to_ascii_lowercase (c : Z) : Z :=
  if is_ascii_uppercase c then c + 32 else c.
End ascii_class.

(** ** Fallible computations *)

Inductive result (E A : Type) : Type :=
  | Ok (a : A)
  | Err (e : E).
Arguments Ok {E A} a.
Arguments Err {E A} e.

#[export] Instance result_ret E : MRet (result E) := fun A a => Ok a.
#[export] Instance result_bind E : MBind (result E) :=
  fun A B f r => match r with Ok a => f a | Err e => Err e end.
#[export] Instance result_fmap E : FMap (result E) :=
  fun A B f r => match r with Ok a => Ok (f a) | Err e => Err e end.

Definition is_ok {E A} (r : result E A) : bool :=
  match r with Ok _ => true | Err _ => false end.

Lemma bind_ok {E A B} (r : result E A) (f : A -> result E B) b :
  (r ≫= f) = Ok b <-> exists a, r = Ok a /\ f a = Ok b.
Proof.
  destruct r as [a|e]; cbn; split; intros H.
  - eauto.
  - destruct H as (a' & [= <-] & H); done.
  - done.
  - by destruct H as (a' & ? & _).
Qed.

Lemma bind_err {E A B} (r : result E A) (f : A -> result E B) e :
  (r ≫= f) = Err e <-> r = Err e \/ exists a, r = Ok a /\ f a = Err e.
Proof.
  destruct r as [a|e']; cbn; split.
  - eauto.
  - intros [[=]|(a' & [= <-] & H)]; done.
  - intros [= <-]; by left.
  - intros [[= <-]|(a' & [=] & H)]; done.
Qed.

(** Invert every successful bind of the context. *)
Ltac inv_ok :=
  repeat match goal with
    | H : (_ ≫= _) = Ok _ |- _ =>
        let a := fresh "a" in let Ha := fresh "Ha" in
        apply bind_ok in H as (a & Ha & H)
    | H : Ok _ = Ok _ |- _ => injection H as H; try subst
    | H : Err _ = Ok _ |- _ => discriminate H
    | H : Ok _ = Err _ |- _ => discriminate H
    | H : mret _ = Ok _ |- _ => unfold mret, result_ret in H
    end.

(** Split the goal or a hypothesis on the [if] or [match] it is stuck on. *)
Ltac break_match :=
  match goal with
  | |- context [match ?x with _ => _ end] => destruct x eqn:?
  end.
Ltac break_match_in H :=
  match type of H with
  | context [match ?x with _ => _ end] => destruct x eqn:?
  end.

(** ** Bits *)

(** Or-ing a field in above the bits in use adds it. *)
Lemma lor_shiftl_add x b n :
  (0 <= n)%Z -> (0 <= x < 2 ^ n)%Z -> Z.lor x (Z.shiftl b n) = (x + b * 2 ^ n)%Z.
Proof.
  intros Hn Hx. assert (Z.land x (Z.shiftl b n) = 0)%Z as H0.
  { apply Z.bits_inj'. intros k Hk. rewrite Z.land_spec, Z.bits_0.
    destruct (decide (k < n)%Z).
    - rewrite (Z.shiftl_spec b n k), (Z.testbit_neg_r b) by lia. apply andb_false_r.
    - rewrite <- (Z.mod_small x (2 ^ n)), Z.mod_pow2_bits_high by lia. done. }
  rewrite <- Z.lxor_lor, <- Z.add_nocarry_lxor, Z.shiftl_mul_pow2 by done. done.
Qed.

(** ** Loops and slices that can panic

    [None] is a panic: an index out of range, or a slice of the wrong length. *)

Fixpoint fold_opt {A B} (f : A -> B -> option A) (a : A) (l : list B) : option A :=
  match l with
  | [] => Some a
  | b :: l => f a b ≫= fun a => fold_opt f a l
  end.

(** A loop that keeps an invariant over the part already done does not panic
    and ends in the invariant. *)
Lemma fold_opt_ind {A B} (P : list B -> A -> Prop) (f : A -> B -> option A) l a :
  P [] a ->
  (forall done b rest a, l = done ++ b :: rest -> P done a -> exists a', f a b = Some a' /\ P (done ++ [b]) a') ->
  exists a', fold_opt f a l = Some a' /\ P l a'.
Proof.
  intros H0 Hstep. enough (forall l2 l1 a, l = l1 ++ l2 -> P l1 a ->
    exists a', fold_opt f a l2 = Some a' /\ P l a') as Hgen by (by apply (Hgen l [] a)).
  induction l2 as [|b l2 IH]; intros l1 a1 E HP; cbn [fold_opt].
  - rewrite app_nil_r in E. subst. by exists a1.
  - destruct (Hstep l1 b l2 a1 E HP) as (a2 & -> & HP2). cbn.
    apply (IH (l1 ++ [b])); [|done]. by rewrite <- app_assoc.
Qed.

Lemma fold_opt_inv {A B} (P : A -> Prop) (f : A -> B -> option A) l a :
  P a -> (forall a b, b ∈ l -> P a -> exists a', f a b = Some a' /\ P a') ->
  exists a', fold_opt f a l = Some a' /\ P a'.
Proof.
  intros H0 Hstep. apply (fold_opt_ind (fun _ => P)); [done|]. intros d b r a1 -> HP.
  apply Hstep; [|done]. apply elem_of_app. right. by left.
Qed.

(** [&l[a..b]] *)
Definition slice {A} (l : list A) (a b : nat) : option (list A) :=
  if (a <=? b) && (b <=? length l) then Some (take (b - a) (drop a l)) else None.

Lemma slice_some {A} (l : list A) a b :
  a <= b <= length l -> slice l a b = Some (take (b - a) (drop a l)).
Proof. intros H. unfold slice. rewrite !(proj2 (Nat.leb_le _ _)) by lia. done. Qed.

Lemma slice_length {A} (l : list A) a b s : slice l a b = Some s -> length s = b - a.
Proof.
  unfold slice. destruct (_ && _) eqn:E; [|done]. apply andb_true_iff in E as [E1%Nat.leb_le E2%Nat.leb_le].
  intros [= <-]. rewrite length_take, length_drop. lia.
Qed.

(** ** Lists *)

Lemma elem_of_concat {A} (x : A) ls : x ∈ concat ls <-> exists l, x ∈ l /\ l ∈ ls.
Proof.
  rewrite list_elem_of_In, in_concat. split.
  - intros (l & Hl%list_elem_of_In & Hx%list_elem_of_In). eauto.
  - intros (l & Hx & Hl). exists l. by rewrite <- !list_elem_of_In.
Qed.
