(* ===== verification/Floats.v ===== *)
(** * IEEE 754 numbers of the Rust language: [f32] and [f64]

    A float is a [spec_float] of the Standard Library (mantissa and exponent
    over [Z]); precision 53 / exponent 1024 is [f64] and 24 / 128 is [f32].
    This file adds what the engine uses beside the arithmetic: the bit
    patterns ([to_bits], [from_bits]), the correctly rounded decimal parse,
    and the casts to and from integers. *)
From Stdlib Require Import SpecFloat.
From S2P Require Import Prelude.
#[local] Set Default Goal Selector "!".
Local Open Scope Z_scope.

#[export] Instance spec_float_eq_dec : EqDecision spec_float.
Proof. solve_decision. Defined.

(** ** Bit patterns

    [mw] is the number of stored mantissa bits ([prec - 1]) and [ew] the
    number of exponent bits. *)
Section Bits.
Context (prec emax mw ew : Z).

(** The exponent of subnormal numbers. *)
Definition sub_exp : Z := 3 - emax - prec.

(** The bits below the sign: on canonical numbers the biased exponent and
    the stored mantissa are read off [(e - sub_exp) * 2^mw + m]. *)
Definition mag_bits (x : spec_float) : Z :=
  match x with
  | S754_zero _ => 0
  | S754_infinity _ => (2 ^ ew - 1) * 2 ^ mw
  | S754_nan => (2 ^ ew - 1) * 2 ^ mw + 2 ^ (mw - 1)
  | S754_finite _ m e => (e - sub_exp) * 2 ^ mw + Zpos m
  end.

Definition sign_of (x : spec_float) : bool :=
  match x with
  | S754_zero s | S754_infinity s | S754_finite s _ _ => s
  | S754_nan => false
  end.

Definition to_bits (x : spec_float) : Z :=
  (if sign_of x then 2 ^ (mw + ew) else 0) + mag_bits x.

Definition from_bits (b : Z) : spec_float :=
  let s := Z.testbit b (mw + ew) in
  let mag := b mod 2 ^ (mw + ew) in
  let q := mag / 2 ^ mw in
  let r := mag mod 2 ^ mw in
  if q =? 2 ^ ew - 1 then (if r =? 0 then S754_infinity s else S754_nan)
  else if q =? 0 then
    match r with Zpos m => S754_finite s m sub_exp | _ => S754_zero s end
  else
    match r + 2 ^ mw with
    | Zpos m => S754_finite s m (sub_exp + q - 1)
    | _ => S754_zero s
    end.
End Bits.

(** ** [f64] *)
Abbreviation f64 := spec_float.
Definition f64_prec : Z := 53.
Definition f64_emax : Z := 1024.
Definition f64_valid (x : f64) : bool := valid_binary f64_prec f64_emax x.
Definition f64_to_bits : f64 -> Z := to_bits f64_prec f64_emax 52 11.
Definition f64_from_bits : Z -> f64 := from_bits f64_prec f64_emax 52 11.
Definition f64_of_Z (z : Z) : f64 := binary_normalize f64_prec f64_emax z 0 false.
Definition f64_add : f64 -> f64 -> f64 := SFadd f64_prec f64_emax.
Definition f64_sub : f64 -> f64 -> f64 := SFsub f64_prec f64_emax.
Definition f64_mul : f64 -> f64 -> f64 := SFmul f64_prec f64_emax.
Definition f64_div : f64 -> f64 -> f64 := SFdiv f64_prec f64_emax.
Definition f64_zero : f64 := S754_zero false.
Definition f64_neg_infinity : f64 := S754_infinity true.

(** ** [f32] *)
Abbreviation f32 := spec_float.
Definition f32_prec : Z := 24.
Definition f32_emax : Z := 128.
Definition f32_valid (x : f32) : bool := valid_binary f32_prec f32_emax x.
Definition f32_to_bits : f32 -> Z := to_bits f32_prec f32_emax 23 8.
Definition f32_from_bits : Z -> f32 := from_bits f32_prec f32_emax 23 8.
Definition f32_of_Z (z : Z) : f32 := binary_normalize f32_prec f32_emax z 0 false.
Definition f32_add : f32 -> f32 -> f32 := SFadd f32_prec f32_emax.
Definition f32_sub : f32 -> f32 -> f32 := SFsub f32_prec f32_emax.
Definition f32_mul : f32 -> f32 -> f32 := SFmul f32_prec f32_emax.
Definition f32_div : f32 -> f32 -> f32 := SFdiv f32_prec f32_emax.
(** [f32::total_cmp]: the bits as a sign-magnitude integer. *)
Definition f32_key (x : f32) : Z :=
  let mag := mag_bits f32_prec f32_emax 23 8 x in if sign_of x then - 1 - mag else mag.

(** Comparison operators: IEEE, so a NaN compares false with everything and
    the two zeros are equal. *)
Definition feq : spec_float -> spec_float -> bool := SFeqb.
Definition flt : spec_float -> spec_float -> bool := SFltb.
Definition fle : spec_float -> spec_float -> bool := SFleb.
Definition fgt (x y : spec_float) : bool := SFltb y x.
Definition fge (x y : spec_float) : bool := SFleb y x.

Definition is_nan (x : spec_float) : bool :=
  match x with S754_nan => true | _ => false end.
Definition is_finite (x : spec_float) : bool :=
  match x with S754_zero _ | S754_finite _ _ _ => true | _ => false end.

(** ** Decimal text to [f64]

    The value [(-1)^neg * m * 10^e10], rounded to nearest even: a single
    rounding, of an integer or of a quotient of integers. *)
Definition f64_of_decimal (neg : bool) (m : Z) (e10 : Z) : f64 :=
  match m with
  | Zpos p =>
      if 0 <=? e10
      then (if neg then SFopp else id) (f64_of_Z (m * 10 ^ e10))
      else f64_div (S754_finite neg p 0) (S754_finite false (Z.to_pos (10 ^ (- e10))) 0)
  | _ => S754_zero neg
  end.

(** Split off the longest run of ASCII digits. *)
Fixpoint span_digits (s : bytes) : bytes * bytes :=
  match s with
  | c :: s' =>
      if is_ascii_digit c then let '(d, r) := span_digits s' in (c :: d, r)
      else ([], s)
  | [] => ([], [])
  end.

Definition digits_value (d : bytes) : Z :=
  fold_left (fun acc c => acc * 10 + (c - 48)) d 0.

(** [f64::from_str] on the decimal grammar
    [[+-]? (digits [. digits?]? | . digits) ([eE] [+-]? digits)?]; the words
    [inf], [infinity] and [nan] are not reachable from the callers. *)
Definition parse_f64 (s : bytes) : option f64 :=
  let '(neg, s) :=
    match s with
    | 43 :: s' => (false, s')
    | 45 :: s' => (true, s')
    | _ => (false, s)
    end in
  let '(ip, s) := span_digits s in
  let '(fp, s) :=
    match s with
    | 46 :: s' => span_digits s'
    | _ => ([], s)
    end in
  if bool_decide (ip ++ fp = []) then None else
  let m := digits_value (ip ++ fp) in
  let scale := - Z.of_nat (length fp) in
  match s with
  | [] => Some (f64_of_decimal neg m scale)
  | c :: s' =>
      if (c =? 101) || (c =? 69) then
        let '(eneg, s') :=
          match s' with
          | 43 :: t => (false, t)
          | 45 :: t => (true, t)
          | _ => (false, s')
          end in
        let '(ed, rest) := span_digits s' in
        if bool_decide (ed = []) then None
        else if bool_decide (rest = []) then
          Some (f64_of_decimal neg m
                  (scale + (if eneg then - digits_value ed else digits_value ed)))
        else None
      else None
  end.

(** ** Casts *)

(** [n.fract() != 0.0]: an infinity or a NaN has a NaN fraction, which
    differs from zero. *)
Definition fract_nonzero (x : f64) : bool :=
  match x with
  | S754_zero _ => false
  | S754_finite _ m e => if 0 <=? e then false else negb (Zpos m mod 2 ^ (- e) =? 0)
  | _ => true
  end.

(** Truncation toward zero of a finite number. *)
Definition trunc_Z (x : f64) : Z :=
  match x with
  | S754_finite s m e =>
      let v := if 0 <=? e then Zpos m * 2 ^ e else Zpos m / 2 ^ (- e) in
      if s then - v else v
  | _ => 0
  end.

(** [x as u64] / [x as usize]: saturating, NaN is 0. *)
Definition f64_to_u64 (x : f64) : Z :=
  match x with
  | S754_nan => 0
  | S754_infinity s => if s then 0 else 2 ^ 64 - 1
  | _ => Z.max 0 (Z.min (2 ^ 64 - 1) (trunc_Z x))
  end.

(** ** Properties of the bit patterns *)

Lemma digits2_pos_bounds (p : positive) :
  2 ^ (Zpos (digits2_pos p) - 1) <= Zpos p < 2 ^ Zpos (digits2_pos p).
Proof.
  induction p as [p IH|p IH|]; cbn [digits2_pos]; [| |done].
  all: rewrite Pos2Z.inj_succ, Z.sub_1_r, Z.pred_succ.
  all: rewrite Z.pow_succ_r by lia.
  all: replace (2 ^ Zpos (digits2_pos p)) with (2 * 2 ^ (Zpos (digits2_pos p) - 1)) in *
      by (rewrite <- Z.pow_succ_r by lia; f_equal; lia); lia.
Qed.

Section BitsFacts.
Context (prec emax mw ew : Z).
Context (Hmw : 0 < mw) (Hprec : prec = mw + 1) (Hew : 2 <= ew) (Hemax : emax = 2 ^ (ew - 1)).

Local Abbreviation sub := (sub_exp prec emax).

Lemma valid_finite_facts s m e :
  valid_binary prec emax (S754_finite s m e) = true ->
  sub <= e <= emax - prec /\ 0 < Zpos m < 2 ^ (mw + 1) /\ (e = sub \/ 2 ^ mw <= Zpos m).
Proof.
  cbn. unfold bounded, canonical_mantissa, fexp, emin, sub_exp.
  intros [Hc He]%andb_prop. apply Z.eqb_eq in Hc. apply Z.leb_le in He.
  pose proof (digits2_pos_bounds m) as [Hlo Hhi].
  set (d := Zpos (digits2_pos m)) in *.
  assert (d <= mw + 1) by lia.
  pose proof (Z.pow_le_mono_r 2 d (mw + 1) ltac:(lia) ltac:(lia)).
  split; [lia|]. split; [lia|].
  destruct (decide (e = 3 - emax - prec)) as [|Hne]; [by left|right].
  assert (d - 1 = mw) as Hd by lia. rewrite Hd in Hlo. lia.
Qed.

Lemma emax_pow : 2 ^ ew = 2 * emax.
Proof. rewrite Hemax, <- Z.pow_succ_r by lia. f_equal; lia. Qed.

Lemma mag_bits_bounds x :
  valid_binary prec emax x = true -> 0 <= mag_bits prec emax mw ew x < 2 ^ (mw + ew).
Proof.
  pose proof emax_pow as He2. assert (0 < 2 ^ mw) by (apply Z.pow_pos_nonneg; lia).
  assert (0 < emax) by (rewrite Hemax; apply Z.pow_pos_nonneg; lia).
  assert (2 ^ mw = 2 * 2 ^ (mw - 1)) by (rewrite <- Z.pow_succ_r by lia; f_equal; lia).
  rewrite Z.pow_add_r, He2 by lia.
  destruct x as [s|s| |s m e]; intros Hv; unfold mag_bits; rewrite ?He2; try nia.
  apply valid_finite_facts in Hv as (He & Hm & Hn).
  rewrite Z.pow_add_r in Hm by lia. unfold sub_exp in *.
  nia.
Qed.

Lemma from_to_bits x :
  valid_binary prec emax x = true -> is_nan x = false ->
  from_bits prec emax mw ew (to_bits prec emax mw ew x) = x.
Proof.
  intros Hv Hn. pose proof (mag_bits_bounds x Hv) as Hb.
  pose proof emax_pow as He2. assert (0 < 2 ^ mw) by (apply Z.pow_pos_nonneg; lia).
  assert (0 < emax) by (rewrite Hemax; apply Z.pow_pos_nonneg; lia).
  unfold from_bits, to_bits. set (mag := mag_bits prec emax mw ew x) in *.
  assert (Z.testbit ((if sign_of x then 2 ^ (mw + ew) else 0) + mag) (mw + ew) = sign_of x) as ->.
  { rewrite Z.testbit_eqb by lia. destruct (sign_of x).
    - replace (2 ^ (mw + ew) + mag) with (mag + 1 * 2 ^ (mw + ew)) by lia.
      rewrite Z.div_add, Z.div_small by lia. done.
    - rewrite Z.add_0_l, Z.div_small by lia. done. }
  assert (((if sign_of x then 2 ^ (mw + ew) else 0) + mag) mod 2 ^ (mw + ew) = mag) as ->.
  { destruct (sign_of x); [|by rewrite Z.add_0_l, Z.mod_small by lia].
    replace (2 ^ (mw + ew) + mag) with (mag + 1 * 2 ^ (mw + ew)) by lia.
    rewrite Z.mod_add, Z.mod_small by lia. done. }
  subst mag. destruct x as [s|s| |s m e]; [| |done|]; unfold mag_bits; cbn [sign_of].
  - rewrite Z.div_0_l, Z.mod_0_l by lia.
    rewrite (proj2 (Z.eqb_neq _ _)) by lia. done.
  - rewrite Z.div_mul, Z.mod_mul by lia. by rewrite !Z.eqb_refl.
  - apply valid_finite_facts in Hv as (He & Hm & Hc).
    rewrite Z.pow_add_r in Hm by lia.
    destruct (Z_lt_le_dec (Zpos m) (2 ^ mw)) as [Hs|Hs].
    + assert (e = sub) as -> by lia. rewrite Z.sub_diag, Z.mul_0_l, Z.add_0_l.
      rewrite Z.div_small, Z.mod_small by lia.
      rewrite (proj2 (Z.eqb_neq _ _)) by lia. done.
    + replace ((e - sub) * 2 ^ mw + Zpos m)
        with ((Zpos m - 2 ^ mw) + (e - sub + 1) * 2 ^ mw) by lia.
      rewrite Z.div_add, Z.mod_add by lia.
      rewrite Z.div_small, Z.mod_small by lia.
      unfold sub_exp in *.
      rewrite !(proj2 (Z.eqb_neq _ _)) by lia.
      replace (Zpos m - 2 ^ mw + 2 ^ mw) with (Zpos m) by lia.
      f_equal. lia.
Qed.

(** The magnitude bits order the magnitudes. *)
Lemma mag_bits_lt s1 s2 m1 e1 m2 e2 :
  valid_binary prec emax (S754_finite s1 m1 e1) = true ->
  valid_binary prec emax (S754_finite s2 m2 e2) = true ->
  e1 < e2 \/ (e1 = e2 /\ Zpos m1 < Zpos m2) ->
  mag_bits prec emax mw ew (S754_finite s1 m1 e1) < mag_bits prec emax mw ew (S754_finite s2 m2 e2).
Proof.
  intros (He1 & Hm1 & Hc1)%valid_finite_facts (He2 & Hm2 & Hc2)%valid_finite_facts.
  cbn [mag_bits]. rewrite Z.pow_add_r in * by lia.
  assert (0 < 2 ^ mw) by (apply Z.pow_pos_nonneg; lia).
  intros [Hlt|[-> Hlt]]; [|lia]. assert (2 ^ mw <= Zpos m2) by lia. nia.
Qed.

Lemma mag_bits_pos s m e :
  valid_binary prec emax (S754_finite s m e) = true ->
  0 < mag_bits prec emax mw ew (S754_finite s m e) < (2 ^ ew - 1) * 2 ^ mw.
Proof.
  intros (He & Hm & Hc)%valid_finite_facts. cbn [mag_bits].
  pose proof emax_pow. rewrite Z.pow_add_r in * by lia. unfold sub_exp in *. 
  assert (0 < 2 ^ mw) by (apply Z.pow_pos_nonneg; lia). nia.
Qed.
End BitsFacts.

(** ** Small integers are exact *)

Lemma digits2_pos_iter m k :
  Zpos (digits2_pos (Pos.iter xO m k)) = Zpos (digits2_pos m) + Zpos k.
Proof.
  revert m. induction k as [|k IH] using Pos.peano_ind; intros m; [cbn; lia|].
  rewrite Pos.iter_succ. cbn [digits2_pos]. rewrite !Pos2Z.inj_succ, IH. lia.
Qed.

Lemma iter_xO_value m k : Zpos (Pos.iter xO m k) = Zpos m * 2 ^ Zpos k.
Proof.
  induction k as [|k IH] using Pos.peano_ind; [cbn; lia|].
  rewrite Pos.iter_succ, Pos2Z.inj_xO, IH, Pos2Z.inj_succ, Z.pow_succ_r by lia. lia.
Qed.

Lemma digits2_pos_le m k : 0 <= k -> Zpos m < 2 ^ k -> Zpos (digits2_pos m) <= k.
Proof.
  intros Hk Hm. pose proof (digits2_pos_bounds m) as [Hl _].
  destruct (Z_le_gt_dec (Zpos (digits2_pos m)) k) as [|Hgt]; [done|].
  pose proof (Z.pow_le_mono_r 2 k (Zpos (digits2_pos m) - 1) ltac:(lia) ltac:(lia)). lia.
Qed.

Lemma binary_round_aux_exact s m e :
  fexp f64_prec f64_emax (Zpos (digits2_pos m) + e) = e -> e <= f64_emax - f64_prec ->
  binary_round_aux f64_prec f64_emax s (Zpos m) e loc_Exact = S754_finite s m e.
Proof.
  intros Hf He. unfold binary_round_aux, shr_fexp. cbn [Zdigits2 shr_record_of_loc].
  rewrite Hf, Z.sub_diag. cbn [shr shr_m loc_of_shr_record round_nearest_even Zdigits2].
  rewrite Hf, Z.sub_diag. cbn [shr shr_m shr_record_of_loc].
  rewrite (proj2 (Z.leb_le _ _)) by done. done.
Qed.

Lemma f64_of_Z_exact m :
  Zpos m < 2 ^ 53 ->
  exists m' e, f64_of_Z (Zpos m) = S754_finite false m' e /\ e <= 0 /\ Zpos m' = Zpos m * 2 ^ (- e).
Proof.
  intros Hm. pose proof (digits2_pos_le m 53 ltac:(lia) Hm) as Hd.
  unfold f64_of_Z, binary_normalize, binary_round.
  set (d := Zpos (digits2_pos m)) in *.
  assert (Hf : fexp f64_prec f64_emax (d + 0) = d - 53)
    by (unfold fexp, emin, f64_prec, f64_emax; lia).
  rewrite Hf. unfold shl_align.
  destruct (d - 53 - 0) as [|k|k] eqn:Ek; [|lia|].
  - exists m, 0. rewrite binary_round_aux_exact; [split; [done|lia]| |].
    + fold d. unfold fexp, emin, f64_prec, f64_emax in *. lia.
    + unfold f64_prec, f64_emax. lia.
  - exists (Pos.iter xO m k), (d - 53). rewrite binary_round_aux_exact.
    + split; [done|]. split; [lia|]. rewrite iter_xO_value. f_equal. f_equal. lia.
    + rewrite digits2_pos_iter. fold d. unfold fexp, emin, f64_prec, f64_emax in *. lia.
    + unfold f64_prec, f64_emax. lia.
Qed.

(** A whole number below [2^53] survives the cast to [f64] and back. *)
Lemma whole_roundtrip z :
  0 <= z < 2 ^ 53 ->
  flt (f64_of_Z z) f64_zero = false /\ fract_nonzero (f64_of_Z z) = false /\
  f64_to_u64 (f64_of_Z z) = z.
Proof.
  intros Hz. destruct z as [|m|m]; [by vm_compute|..|lia].
  destruct (f64_of_Z_exact m) as (m' & e & -> & He & Hm'); [lia|].
  split; [done|]. unfold fract_nonzero, f64_to_u64, trunc_Z.
  destruct (0 <=? e) eqn:E.
  - assert (e = 0) as -> by lia. rewrite Z.mul_1_r. split; [done|]. cbn in Hm'. lia.
  - rewrite Hm', Z.mod_mul, Z.div_mul by (apply Z.pow_nonzero; lia).
    split; [done|]. lia.
Qed.

(** ** The comparisons as an order on triples *)

(** Where a number that is not a NaN stands: its class, then the exponent and
    the mantissa with their sign. *)
Definition frank (x : spec_float) : Z * Z * Z :=
  match x with
  | S754_infinity s => (if s then -2 else 2, 0, 0)
  | S754_finite s m e => if s then (-1, - e, Zneg m) else (1, e, Zpos m)
  | _ => (0, 0, 0)
  end.
Definition rank_lt (a b : Z * Z * Z) : Prop :=
  a.1.1 < b.1.1 \/ a.1.1 = b.1.1 /\ (a.1.2 < b.1.2 \/ a.1.2 = b.1.2 /\ a.2 < b.2).

Lemma flt_rank x y : flt x y = true <-> is_nan x = false /\ is_nan y = false /\ rank_lt (frank x) (frank y).
Proof.
  unfold flt, SFltb, SFcompare, rank_lt.
  destruct x as [s1|s1| |s1 m1 e1], y as [s2|s2| |s2 m2 e2]; cbn.
  16: destruct s1, s2; cbn; destruct (Z.compare_spec e1 e2); cbn;
    change (Pos.compare_cont Eq m1 m2) with (Pos.compare m1 m2); destruct (Pos.compare_spec m1 m2); cbn.
  all: try destruct s1; try destruct s2; cbn.
  all: split; [intros E; try discriminate E; split_and!; try done; lia|intros (?&?&?); try done; lia].
Qed.

Lemma flt_trans x y z : flt x y = true -> flt y z = true -> flt x z = true.
Proof. rewrite !flt_rank. unfold rank_lt. intros (?&?&?) (?&?&?). split_and!; try done. lia. Qed.
Lemma flt_irrefl x : flt x x = false.
Proof.
  destruct (flt x x) eqn:E; [|done]. apply flt_rank in E as (_ & _ & E). unfold rank_lt in E. lia.
Qed.
(** What is not below infinity is below nothing. *)
Lemma not_flt_infinity x y : flt x (S754_infinity false) = false -> flt x y = false.
Proof. destruct x as [s|[]| |[] m e], y as [s'|[]| |[] m' e']; done. Qed.
