(* ===== verification/QlAst.v ===== *)
(** * The RRQL abstract syntax (crates/rro-ql/src/ast.rs)

    Every Rust enum is an inductive type in a module of its own, so its
    constructors keep their names; every struct is a record. [Value::to_json]
    is in [QlLower], beside the JSON data type it targets. *)
From S2P Require Import Prelude Floats.
#[local] Set Default Goal Selector "!".

(** [f64] values keep their sign and payload here; Rust's [PartialEq] on them
    is [feq]. *)
Module Value.
Inductive Value : Type :=
  | Str (s : bytes)
  | Num (n : f64)
  | Bool (b : bool)
  | Null.
End Value.

Module CmpOp.
Inductive CmpOp : Type := Gt | Gte | Lt | Lte.
End CmpOp.

Module Expr.
Inductive Expr : Type :=
  | Eq (key : bytes) (value : Value.Value)
  | Neq (key : bytes) (value : Value.Value)
  | In (key : bytes) (values : list Value.Value)
  | Cmp (key : bytes) (op : CmpOp.CmpOp) (value : f64)
  | Exists (key : bytes)
  | GeoRadius (key : bytes) (lat lon radius_m : f64)
  | GeoBox (key : bytes) (lat_min lon_min lat_max lon_max : f64)
  | And (a b : Expr)
  | Or (a b : Expr)
  | Not (a : Expr).
End Expr.

Record Select : Type := mkSelect {
  sel_from : option bytes;
  sel_where : option Expr.Expr;
  sel_limit : option Z;
}.

Module FieldType.
Inductive FieldType : Type := String | Int | Float | Bool | Datetime | Uuid.

(** [FieldType::parse]: case-insensitive, with the aliases. *)
Definition parse (s : bytes) : option FieldType :=
  let w := map to_ascii_lowercase s in
  if bool_decide (w = str "string") then Some String
  else if bool_decide (w = str "int" \/ w = str "integer") then Some Int
  else if bool_decide (w = str "float" \/ w = str "number" \/ w = str "decimal") then Some Float
  else if bool_decide (w = str "bool" \/ w = str "boolean") then Some Bool
  else if bool_decide (w = str "datetime") then Some Datetime
  else if bool_decide (w = str "uuid") then Some Uuid
  else None.

Definition as_str (t : FieldType) : bytes :=
  match t with
  | String => str "string"
  | Int => str "int"
  | Float => str "float"
  | Bool => str "bool"
  | Datetime => str "datetime"
  | Uuid => str "uuid"
  end.

Lemma parse_as_str t : parse (as_str t) = Some t.
Proof. by destruct t. Qed.
End FieldType.

Module Define.
Inductive Define : Type :=
  | Index (field : bytes)
  | Alias (alias collection : bytes)
  | Field (field collection : bytes) (ty : FieldType.FieldType).
End Define.

Module Remove.
Inductive Remove : Type :=
  | Alias (alias : bytes)
  | Collection (name : bytes)
  | Field (field collection : bytes).
End Remove.

Record Update : Type := mkUpdate {
  upd_id : bytes;
  upd_set : list (bytes * Value.Value);
  upd_replace : bool;
}.

Record Delete : Type := mkDelete {
  del_id : bytes;
  del_payload_only : bool;
  del_keys : list bytes;
}.

Record Relate : Type := mkRelate {
  rel_from : bytes;
  rel_verb : bytes;
  rel_to : bytes;
}.

Module Direction.
Inductive Direction : Type := Out | In | Both.
End Direction.

Record Traverse : Type := mkTraverse {
  tr_start : list bytes;
  tr_verbs : list bytes;
  tr_dir : Direction.Direction;
  tr_depth : option Z;
  tr_limit : option Z;
}.

Record Live : Type := mkLive { live_since : option Z }.

Module Statement.
Inductive Statement : Type :=
  | Select (s : QlAst.Select)
  | Define (d : Define.Define)
  | Remove (r : Remove.Remove)
  | Update (u : QlAst.Update)
  | Delete (d : QlAst.Delete)
  | Relate (r : QlAst.Relate)
  | Traverse (t : QlAst.Traverse)
  | Live (l : QlAst.Live)
  | Info.

(** [Statement::keyword] *)
Definition keyword (s : Statement) : bytes :=
  match s with
  | Select _ => str "SELECT"
  | Define _ => str "DEFINE"
  | Remove _ => str "REMOVE"
  | Update _ => str "UPDATE"
  | Delete _ => str "DELETE"
  | Relate _ => str "RELATE"
  | Traverse _ => str "TRAVERSE"
  | Live _ => str "LIVE"
  | Info => str "INFO"
  end.

(** [Statement::is_write] *)
Definition is_write (s : Statement) : bool :=
  match s with
  | Define _ | Remove _ | Update _ | Delete _ | Relate _ => true
  | _ => false
  end.
End Statement.
