(* ===== verification/QlLexer.v ===== *)
(** * The RRQL lexer (crates/rro-ql/src/lexer.rs, and error.rs for the caret)

    The source text is a byte list; the loop of [lex] keeps the absolute
    index [i] and the bytes that remain from it, so [&src[i..]] is the list
    itself and [b[i + 1]] its second element. *)
From S2P Require Import Prelude Floats.
#[local] Set Default Goal Selector "!".
Local Open Scope Z_scope.

Module TK.
(** The token vocabulary; [Set] and [Type] are reserved words of Rocq, hence
    their underscore. *)
Inductive TokenKind : Type :=
  | Ident (s : bytes) | Str (s : bytes) | Num (n : f64) | Bool (b : bool) | Null
  | Select | From | Where | Limit | And | Or | Not | In | Is | Exists
  | Inside | Radius | BoxKw | Define | Remove | Index | Alias | Collection
  | Field | Type_ | On | For | Update | Delete | Set_ | Content | Payload
  | Relate | Traverse | Depth | Live | Since | Info
  | ArrowOut | ArrowIn | ArrowBoth
  | Comma | LParen | RParen | Star | Eq | Neq | Lt | Lte | Gt | Gte
  | Eof.

#[global] Instance TokenKind_eq_dec : EqDecision TokenKind.
Proof. solve_decision. Defined.
End TK.
Abbreviation TokenKind := TK.TokenKind.

(** [PartialEq] of the tokens: structural, except that numbers compare as
    IEEE floats. *)
Definition tk_eqb (a b : TokenKind) : bool :=
  match a, b with
  | TK.Num x, TK.Num y => feq x y
  | _, _ => bool_decide (a = b)
  end.

Record Token : Type := mkToken {
  tok_kind : TokenKind;
  tok_span : nat * nat;
}.

(** The messages of the lexer's [format!] calls, with their arguments. *)
Inductive lex_message : Type :=
  | UnterminatedString
  | UnterminatedIdentifier
  | NotANumber (text : bytes)
  | UnexpectedCharacter (c : Z).

Record LexError : Type := mkLexError {
  le_message : lex_message;
  le_span : nat * nat;
}.

(** The keyword table of the bare-word case, on the uppercased word. *)
Definition keywords : list (bytes * TokenKind) := [
  (str "SELECT", TK.Select); (str "FROM", TK.From); (str "WHERE", TK.Where);
  (str "LIMIT", TK.Limit); (str "AND", TK.And); (str "OR", TK.Or);
  (str "NOT", TK.Not); (str "IN", TK.In); (str "IS", TK.Is);
  (str "EXISTS", TK.Exists); (str "INSIDE", TK.Inside); (str "RADIUS", TK.Radius);
  (str "BOX", TK.BoxKw); (str "DEFINE", TK.Define); (str "REMOVE", TK.Remove);
  (str "INDEX", TK.Index); (str "ALIAS", TK.Alias); (str "COLLECTION", TK.Collection);
  (str "FIELD", TK.Field); (str "TYPE", TK.Type_); (str "ON", TK.On);
  (str "FOR", TK.For); (str "UPDATE", TK.Update); (str "DELETE", TK.Delete);
  (str "SET", TK.Set_); (str "CONTENT", TK.Content); (str "PAYLOAD", TK.Payload);
  (str "RELATE", TK.Relate); (str "TRAVERSE", TK.Traverse); (str "DEPTH", TK.Depth);
  (str "LIVE", TK.Live); (str "SINCE", TK.Since); (str "INFO", TK.Info);
  (str "TRUE", TK.Bool true); (str "FALSE", TK.Bool false); (str "NULL", TK.Null) ].

Fixpoint assoc {A B} `{EqDecision A} (k : A) (l : list (A * B)) : option B :=
  match l with
  | [] => None
  | (k', v) :: l => if decide (k = k') then Some v else assoc k l
  end.

Definition word_kind (word : bytes) : TokenKind :=
  match assoc (map to_ascii_uppercase word) keywords with
  | Some k => k
  | None => TK.Ident word
  end.

(** The longest prefix whose bytes satisfy [f]. *)
Fixpoint take_while (f : Z -> bool) (s : bytes) : bytes :=
  match s with
  | c :: s' => if f c then c :: take_while f s' else []
  | [] => []
  end.

(** [char::len_utf8] of the character whose encoding starts with [c], in a
    valid string. *)
Definition utf8_width (c : Z) : nat :=
  if c <? 128 then 1 else if c <? 224 then 2 else if c <? 240 then 3 else 4.

(** The string loop, on the bytes after the opening quote: the contents and
    the number of bytes consumed, closing quote included; [None] when the
    input ends first. A character is copied whole. *)
Fixpoint scan_string (fuel : nat) (quote : Z) (s : bytes) : option (bytes * nat) :=
  match fuel with
  | O => None
  | S fuel =>
      let plain :=
        match s with
        | [] => None
        | c :: _ =>
            if c =? quote then Some ([], 1%nat)
            else
              let w := utf8_width c in
              '(t, n) ← scan_string fuel quote (drop w s);
              Some (take w s ++ t, (w + n)%nat)
        end in
      match s with
      | 92 :: esc :: s' =>
          if (esc =? quote) || (esc =? 92) then
            '(t, n) ← scan_string fuel quote s'; Some (esc :: t, S (S n))
          else plain
      | _ => plain
      end
  end.

(** How many bytes a number token takes: the sign or first digit, digits and
    dots, then an exponent. *)
Definition number_len (s : bytes) : nat :=
  match s with
  | [] => 0
  | _ :: s1 =>
      let a := take_while (fun c => is_ascii_digit c || (c =? ch ".")) s1 in
      let n := S (length a) in
      match drop (length a) s1 with
      | c :: s2 =>
          if (c =? ch "e") || (c =? ch "E") then
            match s2 with
            | c2 :: s3 =>
                if (c2 =? ch "+") || (c2 =? ch "-")
                then (n + 2 + length (take_while is_ascii_digit s3))%nat
                else (n + 1 + length (take_while is_ascii_digit s2))%nat
            | [] => (n + 1)%nat
            end
          else n
      | [] => n
      end
  end.

Definition is_word_byte (c : Z) : bool :=
  is_ascii_alphanumeric c || (c =? ch "_") || (c =? ch ".").

(** What one turn of the loop does at index [i]: move on, push a token and
    move on, or stop with an error. *)
Inductive lex_outcome : Type :=
  | Skip (n : nat)
  | Emit (k : TokenKind) (n : nat)
  | Fail (m : lex_message) (span : nat * nat).

(** [matches!] tables of the operators, longest first. *)
Definition op3 (s : bytes) : option TokenKind :=
  if bool_decide (take 3 s = str "<->") then Some TK.ArrowBoth else None.
Definition op2_arrow (s : bytes) : option TokenKind :=
  if bool_decide (take 2 s = str "->") then Some TK.ArrowOut
  else if bool_decide (take 2 s = str "<-") then Some TK.ArrowIn
  else None.
Definition op2_cmp (s : bytes) : option TokenKind :=
  if bool_decide (take 2 s = str "!=") then Some TK.Neq
  else if bool_decide (take 2 s = str "<=") then Some TK.Lte
  else if bool_decide (take 2 s = str ">=") then Some TK.Gte
  else None.
Definition op1 (c : Z) : option TokenKind :=
  if c =? ch "," then Some TK.Comma
  else if c =? ch "(" then Some TK.LParen
  else if c =? ch ")" then Some TK.RParen
  else if c =? ch "*" then Some TK.Star
  else if c =? ch "=" then Some TK.Eq
  else if c =? ch "<" then Some TK.Lt
  else if c =? ch ">" then Some TK.Gt
  else None.

Definition second_is (f : Z -> bool) (s : bytes) : bool :=
  match s with _ :: d :: _ => f d | _ => false end.

(** [b[i] as char] is the Latin-1 character of that code, which [len_utf8]
    measures as one byte below 128 and two bytes above. *)
Definition latin1_width (c : Z) : nat := if c <? 128 then 1 else 2.

(** One turn of the [while] loop of [lex]; [len] is [b.len()]. *)
Definition lex_step (len i : nat) (s : bytes) : lex_outcome :=
  match s with
  | [] => Skip 0
  | c :: rest =>
      if is_ascii_whitespace c then Skip 1
      else if (c =? ch "-") && second_is (Z.eqb (ch "-")) s then
        Skip (length (take_while (fun x => negb (x =? 10)) s))
      else match op3 s with Some k => Emit k 3 | None =>
      match op2_arrow s with Some k => Emit k 2 | None =>
      match op2_cmp s with Some k => Emit k 2 | None =>
      match op1 c with Some k => Emit k 1 | None =>
      if (c =? 39) || (c =? 34) then
        match scan_string (S (length rest)) c rest with
        | Some (t, n) => Emit (TK.Str t) (S n)
        | None => Fail UnterminatedString (i, len)
        end
      else if c =? 96 then
        let name := take_while (fun x => negb (x =? 96)) rest in
        if (length rest <=? length name)%nat then Fail UnterminatedIdentifier (i, len)
        else Emit (TK.Ident name) (length name + 2)
      else if is_ascii_digit c || ((c =? ch "-") && second_is is_ascii_digit s) then
        let n := number_len s in
        match parse_f64 (take n s) with
        | Some v => Emit (TK.Num v) n
        | None => Fail (NotANumber (take n s)) (i, (i + n)%nat)
        end
      else if is_ascii_alphabetic c || (c =? ch "_") then
        let word := take_while is_word_byte s in
        Emit (word_kind word) (length word)
      else Fail (UnexpectedCharacter c) (i, (i + latin1_width c)%nat)
      end end end end
  end.

(** The loop; every turn that continues consumes at least one byte, so the
    number of remaining bytes bounds the turns. *)
Fixpoint lex_loop (fuel : nat) (len i : nat) (s : bytes) : result LexError (list Token) :=
  match s, fuel with
  | [], _ => Ok [mkToken TK.Eof (len, len)]
  | _, O => Ok []
  | _, S fuel =>
      match lex_step len i s with
      | Skip n => lex_loop fuel len (i + n) (drop n s)
      | Emit k n =>
          ts ← lex_loop fuel len (i + n) (drop n s);
          Ok (mkToken k (i, (i + n)%nat) :: ts)
      | Fail m sp => Err (mkLexError m sp)
      end
  end.

Definition lex (src : bytes) : result LexError (list Token) :=
  lex_loop (length src) (length src) 0 src.

Definition kinds (src : bytes) : option (list TokenKind) :=
  match lex src with Ok ts => Some (map tok_kind ts) | Err _ => None end.
