(* ===== verification/QlParser.v ===== *)
(** * The RRQL parser (crates/rro-ql/src/parser.rs) and its errors (error.rs)

    A parser action reads the tokens that remain (the Rust parser keeps the
    whole vector and a position; [bump] never moves past the last token, so
    the remaining tokens are never empty). The recursive expression parser
    and its [while]/[loop] bodies take fuel; running out is the separate
    error [OutOfFuel], which [parse] never returns ([parse_never_out_of_fuel]). *)
From S2P Require Import Prelude Floats QlAst QlLexer.
#[local] Set Default Goal Selector "!".

(** The messages of the parser's [format!] calls, with their arguments. *)
Inductive ql_message : Type :=
  | LexMessage (m : lex_message)
  | ExpectedToken (want found : TokenKind)
  | UnexpectedTrailing (found : TokenKind)
  | ExpectedIdentifier (found : TokenKind)
  | ExpectedNumber (found : TokenKind)
  | ExpectedValue (found : TokenKind)
  | ExpectedStatement (found : TokenKind)
  | ExpectedStartArrow (found : TokenKind)
  | ExpectedWholeNumber (n : f64)
  | UnknownFieldType (name : bytes)
  | DefineSupports (found : TokenKind)
  | RemoveSupports (found : TokenKind)
  | ExpectedRecordId (found : TokenKind)
  | ExpectedRadiusOrBox (found : TokenKind)
  | ExpectedComparison (key : bytes) (found : TokenKind)
  | Unsupported (what : bytes)
  | NotAQuery (keyword : bytes).

Record QlError : Type := mkQlError {
  ql_msg : ql_message;
  ql_span : nat * nat;
}.

(** [impl From<LexError> for QlError] *)
Definition ql_of_lex (e : LexError) : QlError := mkQlError (LexMessage (le_message e)) (le_span e).

Inductive perror : Type :=
  | Failed (e : QlError)
  | OutOfFuel.

(** ** Parser actions *)

Definition P (A : Type) : Type := list Token -> result perror (A * list Token).

Definition pret {A} (a : A) : P A := fun ts => Ok (a, ts).
Definition pbind {A B} (p : P A) (f : A -> P B) : P B :=
  fun ts => match p ts with Ok (a, ts') => f a ts' | Err e => Err e end.
Definition pfail {A} (m : ql_message) (sp : nat * nat) : P A :=
  fun _ => Err (Failed (mkQlError m sp)).
Definition pfuel {A} : P A := fun _ => Err OutOfFuel.

Declare Scope ql_scope.
Delimit Scope ql_scope with ql.
Notation "x <- p ;; q" := (pbind p (fun x => q))
  (at level 100, p at next level, right associativity) : ql_scope.
Notation "p ;;; q" := (pbind p (fun _ => q))
  (at level 100, right associativity) : ql_scope.
Local Open Scope ql_scope.

(** The token the parser looks at. *)
Definition peek_kind (ts : list Token) : TokenKind :=
  match ts with t :: _ => tok_kind t | [] => TK.Eof end.
Definition peek_span (ts : list Token) : nat * nat :=
  match ts with t :: _ => tok_span t | [] => (0, 0) end.

Definition peek : P TokenKind := fun ts => Ok (peek_kind ts, ts).
Definition span : P (nat * nat) := fun ts => Ok (peek_span ts, ts).

(** [bump]: returns the current token and moves on, except at the last one. *)
Definition bump : P TokenKind :=
  fun ts =>
    match ts with
    | t :: ((_ :: _) as ts') => Ok (tok_kind t, ts')
    | _ => Ok (peek_kind ts, ts)
    end.

Definition eat (want : TokenKind) : P bool :=
  k <- peek ;;
  if tk_eqb k want then bump ;;; pret true else pret false.

Notation "'ifeat' k 'then' p 'else' q" := (pbind (eat k) (fun b => if b : bool then p else q))
  (at level 10, k at level 9, p at level 200, q at level 200) : ql_scope.

Definition expect (want : TokenKind) : P unit :=
  ifeat want then pret tt
  else (k <- peek ;; sp <- span ;; pfail (ExpectedToken want k) sp).

Definition expect_eof : P unit :=
  k <- peek ;;
  match k with
  | TK.Eof => pret tt
  | _ => sp <- span ;; pfail (UnexpectedTrailing k) sp
  end.

Definition ident : P bytes :=
  sp <- span ;; k <- bump ;;
  match k with TK.Ident s => pret s | other => pfail (ExpectedIdentifier other) sp end.

Definition number : P f64 :=
  sp <- span ;; k <- bump ;;
  match k with TK.Num n => pret n | other => pfail (ExpectedNumber other) sp end.

Definition value : P Value.Value :=
  sp <- span ;; k <- bump ;;
  match k with
  | TK.Str s => pret (Value.Str s)
  | TK.Num n => pret (Value.Num n)
  | TK.Bool b => pret (Value.Bool b)
  | TK.Null => pret Value.Null
  | other => pfail (ExpectedValue other) sp
  end.

(** A record id: an identifier or a quoted string. *)
Definition record_id : P bytes :=
  sp <- span ;; k <- bump ;;
  match k with
  | TK.Ident s => pret s
  | TK.Str s => pret s
  | other => pfail (ExpectedRecordId other) sp
  end.

(** A non-negative whole number, for LIMIT / DEPTH / SINCE; the cast
    saturates at the width of [usize]. *)
Definition whole_number : P Z :=
  sp <- span ;; n <- number ;;
  if flt n f64_zero || fract_nonzero n then pfail (ExpectedWholeNumber n) sp
  else pret (f64_to_u64 n).

(** [loop { item; if eat(Comma) continue; expect(RParen); break }] *)
Fixpoint comma_list {A} (item : P A) (close : TokenKind) (n : nat) : P (list A) :=
  match n with
  | O => pfuel
  | S n =>
      a <- item ;;
      ifeat TK.Comma then (l <- comma_list item close n ;; pret (a :: l))
      else (expect close ;;; pret [a])
  end.

(** ** Statements *)

Definition relate : P Relate :=
  from <- record_id ;;
  expect TK.ArrowOut ;;;
  verb <- ident ;;
  expect TK.ArrowOut ;;;
  to <- record_id ;;
  pret (mkRelate from verb to).

(** [while eat(Comma) { start.push(record_id()?) }] *)
Fixpoint more_ids (n : nat) : P (list bytes) :=
  match n with
  | O => pfuel
  | S n =>
      ifeat TK.Comma then (i <- record_id ;; l <- more_ids n ;; pret (i :: l))
      else pret []
  end.

Definition opt_whole (kw : TokenKind) : P (option Z) :=
  ifeat kw then (n <- whole_number ;; pret (Some n)) else pret None.

Definition traverse (n : nat) : P Traverse :=
  first <- record_id ;;
  more <- more_ids n ;;
  sp <- span ;; k <- bump ;;
  dir <- match k with
         | TK.ArrowOut => pret Direction.Out
         | TK.ArrowIn => pret Direction.In
         | TK.ArrowBoth => pret Direction.Both
         | other => pfail (ExpectedStartArrow other) sp
         end ;;
  k <- peek ;;
  verbs <- match k with
           | TK.Ident _ =>
               v <- ident ;;
               ifeat TK.ArrowOut then pret [v] else
               ifeat TK.ArrowIn then pret [v] else
               ifeat TK.ArrowBoth then pret [v] else pret [v]
           | _ => pret []
           end ;;
  depth <- opt_whole TK.Depth ;;
  limit <- opt_whole TK.Limit ;;
  pret (mkTraverse (first :: more) verbs dir depth limit).

Definition define : P Define.Define :=
  ifeat TK.Index then
    (expect TK.On ;;; field <- ident ;; pret (Define.Index field)) else
  ifeat TK.Alias then
    (alias <- ident ;; expect TK.For ;;; collection <- ident ;;
     pret (Define.Alias alias collection)) else
  ifeat TK.Field then
    (field <- ident ;; expect TK.On ;;; collection <- ident ;; expect TK.Type_ ;;;
     sp <- span ;; ty_name <- ident ;;
     match FieldType.parse ty_name with
     | Some ty => pret (Define.Field field collection ty)
     | None => pfail (UnknownFieldType ty_name) sp
     end) else
  (k <- peek ;; sp <- span ;; pfail (DefineSupports k) sp).

Definition remove : P Remove.Remove :=
  ifeat TK.Alias then (alias <- ident ;; pret (Remove.Alias alias)) else
  ifeat TK.Collection then (name <- ident ;; pret (Remove.Collection name)) else
  ifeat TK.Field then
    (field <- ident ;; expect TK.On ;;; collection <- ident ;;
     pret (Remove.Field field collection)) else
  (k <- peek ;; sp <- span ;; pfail (RemoveSupports k) sp).

(** [loop { key = value; if !eat(Comma) break }] *)
Fixpoint assignments (n : nat) : P (list (bytes * Value.Value)) :=
  match n with
  | O => pfuel
  | S n =>
      key <- ident ;;
      expect TK.Eq ;;;
      v <- value ;;
      ifeat TK.Comma then (l <- assignments n ;; pret ((key, v) :: l)) else pret [(key, v)]
  end.

Definition update (n : nat) : P Update :=
  id <- record_id ;;
  replace <- (ifeat TK.Content then pret true else (expect TK.Set_ ;;; pret false)) ;;
  (if replace : bool then expect TK.Set_ else pret tt) ;;;
  set <- assignments n ;;
  pret (mkUpdate id set replace).

Definition delete (n : nat) : P Delete :=
  payload_only <- eat TK.Payload ;;
  id <- record_id ;;
  keys <- (if payload_only : bool
           then (ifeat TK.LParen then comma_list ident TK.RParen n else pret [])
           else pret []) ;;
  pret (mkDelete id payload_only keys).

(** ** Expressions *)

Definition geo_radius (key : bytes) : P Expr.Expr :=
  expect TK.LParen ;;; lat <- number ;;
  expect TK.Comma ;;; lon <- number ;;
  expect TK.Comma ;;; radius_m <- number ;;
  expect TK.RParen ;;; pret (Expr.GeoRadius key lat lon radius_m).

Definition geo_box (key : bytes) : P Expr.Expr :=
  expect TK.LParen ;;; lat_min <- number ;;
  expect TK.Comma ;;; lon_min <- number ;;
  expect TK.Comma ;;; lat_max <- number ;;
  expect TK.Comma ;;; lon_max <- number ;;
  expect TK.RParen ;;; pret (Expr.GeoBox key lat_min lon_min lat_max lon_max).

(** The comparison tail of [primary]. *)
Definition comparison (key : bytes) : P Expr.Expr :=
  sp <- span ;; k <- bump ;;
  match k with
  | TK.Eq => v <- value ;; pret (Expr.Eq key v)
  | TK.Neq => v <- value ;; pret (Expr.Neq key v)
  | TK.Gt => x <- number ;; pret (Expr.Cmp key CmpOp.Gt x)
  | TK.Gte => x <- number ;; pret (Expr.Cmp key CmpOp.Gte x)
  | TK.Lt => x <- number ;; pret (Expr.Cmp key CmpOp.Lt x)
  | TK.Lte => x <- number ;; pret (Expr.Cmp key CmpOp.Lte x)
  | other => pfail (ExpectedComparison key other) sp
  end.

(** [primary] after its parenthesised case. *)
Definition leaf (n : nat) : P Expr.Expr :=
  ifeat TK.Exists then
    (expect TK.LParen ;;; key <- ident ;; expect TK.RParen ;;; pret (Expr.Exists key)) else
  (key <- ident ;;
   ifeat TK.Is then (expect TK.Exists ;;; pret (Expr.Exists key)) else
   ifeat TK.In then
     (expect TK.LParen ;;;
      ifeat TK.RParen then pret (Expr.In key [])
      else (vs <- comma_list value TK.RParen n ;; pret (Expr.In key vs))) else
   ifeat TK.Inside then
     (ifeat TK.Radius then geo_radius key else
      ifeat TK.BoxKw then geo_box key else
      (k <- peek ;; sp <- span ;; pfail (ExpectedRadiusOrBox k) sp)) else
   comparison key).

Fixpoint expr (n : nat) : P Expr.Expr :=
  match n with
  | O => pfuel
  | S n => lhs <- and_expr n ;; or_loop n lhs
  end
with or_loop (n : nat) (lhs : Expr.Expr) : P Expr.Expr :=
  match n with
  | O => pfuel
  | S n =>
      ifeat TK.Or then (rhs <- and_expr n ;; or_loop n (Expr.Or lhs rhs)) else pret lhs
  end
with and_expr (n : nat) : P Expr.Expr :=
  match n with
  | O => pfuel
  | S n => lhs <- unary n ;; and_loop n lhs
  end
with and_loop (n : nat) (lhs : Expr.Expr) : P Expr.Expr :=
  match n with
  | O => pfuel
  | S n =>
      ifeat TK.And then (rhs <- unary n ;; and_loop n (Expr.And lhs rhs)) else pret lhs
  end
with unary (n : nat) : P Expr.Expr :=
  match n with
  | O => pfuel
  | S n =>
      ifeat TK.Not then (e <- unary n ;; pret (Expr.Not e)) else primary n
  end
with primary (n : nat) : P Expr.Expr :=
  match n with
  | O => pfuel
  | S n =>
      ifeat TK.LParen then (e <- expr n ;; expect TK.RParen ;;; pret e) else leaf n
  end.

Definition select (n : nat) : P Select :=
  expect TK.Star ;;;
  from <- (ifeat TK.From then (c <- ident ;; pret (Some c)) else pret None) ;;
  where_ <- (ifeat TK.Where then (e <- expr n ;; pret (Some e)) else pret None) ;;
  limit <- opt_whole TK.Limit ;;
  pret (mkSelect from where_ limit).

Definition statement (n : nat) : P Statement.Statement :=
  ifeat TK.Select then (s <- select n ;; pret (Statement.Select s)) else
  ifeat TK.Define then (d <- define ;; pret (Statement.Define d)) else
  ifeat TK.Remove then (r <- remove ;; pret (Statement.Remove r)) else
  ifeat TK.Update then (u <- update n ;; pret (Statement.Update u)) else
  ifeat TK.Delete then (d <- delete n ;; pret (Statement.Delete d)) else
  ifeat TK.Relate then (r <- relate ;; pret (Statement.Relate r)) else
  ifeat TK.Traverse then (t <- traverse n ;; pret (Statement.Traverse t)) else
  ifeat TK.Live then
    (since <- opt_whole TK.Since ;; pret (Statement.Live (mkLive since))) else
  ifeat TK.Info then pret Statement.Info else
  (k <- peek ;; sp <- span ;; pfail (ExpectedStatement k) sp).

(** Between two tokens that are consumed the expression parser makes at most
    six calls, so this much fuel is enough for any token list. *)
Definition parse_fuel (ts : list Token) : nat := 6 * length ts + 6.

Definition parse_tokens (ts : list Token) : result perror Statement.Statement :=
  match (stmt <- statement (parse_fuel ts) ;; expect_eof ;;; pret stmt) ts with
  | Ok (stmt, _) => Ok stmt
  | Err e => Err e
  end.

(** [parse] *)
Definition parse (src : bytes) : result perror Statement.Statement :=
  match lex src with
  | Ok ts => parse_tokens ts
  | Err e => Err (Failed (ql_of_lex e))
  end.

(** ** Rendering an error against its source ([QlError::caret])

    Slicing a Rust string panics when an end is not a character boundary; a
    panic is [None]. [show] is the error's [Display] text. *)

Definition is_char_boundary (src : bytes) (i : nat) : bool :=
  if (i =? 0)%nat then true
  else if (length src <=? i)%nat then (i =? length src)%nat
  else let b := nth i src 0%Z in ((b <? 128) || (192 <=? b))%Z.

(** [&src[a..b]] *)
Definition str_slice (src : bytes) (a b : nat) : option bytes :=
  if (a <=? b)%nat && is_char_boundary src a && is_char_boundary src b
  then Some (take (b - a) (drop a src)) else None.

Fixpoint find_byte (c : Z) (s : bytes) : option nat :=
  match s with
  | [] => None
  | d :: s' => if (d =? c)%Z then Some 0%nat else S <$> find_byte c s'
  end.

Fixpoint rfind_byte (c : Z) (s : bytes) : option nat :=
  match s with
  | [] => None
  | d :: s' =>
      match rfind_byte c s' with
      | Some i => Some (S i)
      | None => if (d =? c)%Z then Some 0%nat else None
      end
  end.

Definition caret (show : QlError -> bytes) (err : QlError) (src : bytes) : option bytes :=
  let '(s, e) := ql_span err in
  let s := Nat.min s (length src) in
  let e := Nat.min (Nat.max e s) (length src) in
  head ← str_slice src 0 s;
  let line_start := match rfind_byte 10 head with Some i => S i | None => 0%nat end in
  tl ← str_slice src e (length src);
  let line_end := match find_byte 10 tl with Some i => (e + i)%nat | None => length src end in
  line ← str_slice src line_start line_end;
  let pad := repeat 32%Z (s - line_start) in
  let width := Nat.max (e - s) 1 in
  Some (show err ++ str "
  " ++ line ++ str "
  " ++ pad ++ repeat (ch "^") width).
