(* ===== verification/QlParserFacts.v ===== *)
(** * Facts about the RRQL parser

    Fuel: more fuel never changes an answer, and [parse_fuel] is always
    enough on a token list that ends with [Eof]. Round trip: the canonical
    tokens of a statement parse back to the statement. *)
From S2P Require Import Prelude Floats QlAst QlLexer QlParser.
#[local] Set Default Goal Selector "!".
Local Open Scope ql_scope.

(** ** Fuel monotonicity *)

(** [q] answers as [p] does wherever [p] does not run out of fuel. *)
Definition fuel_le {A} (p q : P A) : Prop := forall ts, p ts <> Err OutOfFuel -> q ts = p ts.

Create HintDb ql.

Lemma fuel_le_refl {A} (p : P A) : fuel_le p p.
Proof. done. Qed.

Lemma fuel_le_fuel {A} (q : P A) : fuel_le pfuel q.
Proof. intros ts H. by destruct H. Qed.

Lemma fuel_le_bind {A B} (p q : P A) (f g : A -> P B) :
  fuel_le p q -> (forall a, fuel_le (f a) (g a)) -> fuel_le (pbind p f) (pbind q g).
Proof.
  intros Hp Hf ts H. unfold pbind in *. specialize (Hp ts).
  destruct (p ts) as [[a ts']|e] eqn:E; rewrite Hp by congruence; [by apply Hf|done].
Qed.

Lemma fuel_le_trans {A} (p q r : P A) : fuel_le p q -> fuel_le q r -> fuel_le p r.
Proof. intros H1 H2 ts Hp. rewrite <- (H1 ts Hp). apply H2. by rewrite (H1 ts Hp). Qed.

#[export] Hint Resolve fuel_le_refl fuel_le_fuel fuel_le_bind : ql.

(** Follow the structure of an action: binds, conditionals, matches. *)
Ltac fuel_mono :=
  repeat first
    [ progress intros
    | apply fuel_le_refl
    | apply fuel_le_fuel
    | solve [auto with ql]
    | apply fuel_le_bind
    | break_match ].

Lemma comma_list_mono {A} (item : P A) close n :
  fuel_le (comma_list item close n) (comma_list item close (S n)).
Proof.
  induction n as [|n IH]; [apply fuel_le_fuel|].
  change (comma_list item close (S (S n))) with
    (a <- item ;;
     ifeat TK.Comma then (l <- comma_list item close (S n) ;; pret (a :: l))
     else (expect close ;;; pret [a])).
  cbn [comma_list]. fuel_mono.
Qed.

Lemma more_ids_mono n : fuel_le (more_ids n) (more_ids (S n)).
Proof.
  induction n as [|n IH]; [apply fuel_le_fuel|].
  change (more_ids (S (S n))) with
    (ifeat TK.Comma then (i <- record_id ;; l <- more_ids (S n) ;; pret (i :: l)) else pret []).
  cbn [more_ids]. fuel_mono.
Qed.

Lemma assignments_mono n : fuel_le (assignments n) (assignments (S n)).
Proof.
  induction n as [|n IH]; [apply fuel_le_fuel|].
  change (assignments (S (S n))) with
    (key <- ident ;; expect TK.Eq ;;; v <- value ;;
     ifeat TK.Comma then (l <- assignments (S n) ;; pret ((key, v) :: l)) else pret [(key, v)]).
  cbn [assignments]. fuel_mono.
Qed.
#[export] Hint Resolve comma_list_mono more_ids_mono assignments_mono : ql.

Lemma leaf_mono n : fuel_le (leaf n) (leaf (S n)).
Proof. unfold leaf. fuel_mono. Qed.
#[export] Hint Resolve leaf_mono : ql.

Lemma expr_mono n :
  fuel_le (expr n) (expr (S n)) /\ (forall e, fuel_le (or_loop n e) (or_loop (S n) e)) /\
  fuel_le (and_expr n) (and_expr (S n)) /\ (forall e, fuel_le (and_loop n e) (and_loop (S n) e)) /\
  fuel_le (unary n) (unary (S n)) /\ fuel_le (primary n) (primary (S n)).
Proof.
  induction n as [|n (IHe & IHo & IHa & IHl & IHu & IHp)].
  - repeat split; intros; apply fuel_le_fuel.
  - repeat split; intros.
    + change (expr (S (S n))) with (lhs <- and_expr (S n) ;; or_loop (S n) lhs).
      cbn [expr]. fuel_mono.
    + change (or_loop (S (S n)) e) with
        (ifeat TK.Or then (rhs <- and_expr (S n) ;; or_loop (S n) (Expr.Or e rhs)) else pret e).
      cbn [or_loop]. fuel_mono.
    + change (and_expr (S (S n))) with (lhs <- unary (S n) ;; and_loop (S n) lhs).
      cbn [and_expr]. fuel_mono.
    + change (and_loop (S (S n)) e) with
        (ifeat TK.And then (rhs <- unary (S n) ;; and_loop (S n) (Expr.And e rhs)) else pret e).
      cbn [and_loop]. fuel_mono.
    + change (unary (S (S n))) with
        (ifeat TK.Not then (e <- unary (S n) ;; pret (Expr.Not e)) else primary (S n)).
      cbn [unary]. fuel_mono.
    + change (primary (S (S n))) with
        (ifeat TK.LParen then (e <- expr (S n) ;; expect TK.RParen ;;; pret e) else leaf (S n)).
      cbn [primary]. fuel_mono.
Qed.

Lemma statement_mono n : fuel_le (statement n) (statement (S n)).
Proof.
  pose proof (expr_mono n) as (He & _).
  unfold statement, select, update, delete, traverse. fuel_mono.
Qed.

Lemma statement_mono_le n m : n <= m -> fuel_le (statement n) (statement m).
Proof.
  induction 1 as [|m _ IH]; [apply fuel_le_refl|].
  eapply fuel_le_trans; [exact IH|apply statement_mono].
Qed.

(** ** Enough fuel *)

(** The token lists the lexer makes: the last token, and only it, stops the
    parser from moving on. *)
Definition ends_eof (ts : list Token) : Prop :=
  exists ts0 sp, ts = ts0 ++ [mkToken TK.Eof sp].

(** On lists of at most [L] tokens the action never runs out of fuel, and when
    it succeeds it has consumed at least [d] tokens. *)
Definition safe {A} (L d : nat) (p : P A) : Prop :=
  forall ts, ends_eof ts -> length ts <= L ->
  match p ts with
  | Ok (_, ts') => ends_eof ts' /\ length ts' + d <= length ts
  | Err e => e <> OutOfFuel
  end.

Lemma ends_eof_length ts : ends_eof ts -> 1 <= length ts.
Proof. intros (ts0 & sp & ->). rewrite length_app. cbn. lia. Qed.

Lemma safe_ret {A} L (a : A) : safe L 0 (pret a).
Proof. intros ts H HL. cbn. split; [done|lia]. Qed.
Lemma safe_fail {A} L d m sp : safe L d (@pfail A m sp).
Proof. intros ts H HL. cbn. done. Qed.
Lemma safe_weaken {A} L d d' (p : P A) : safe L d p -> d' <= d -> safe L d' p.
Proof.
  intros H Hd ts Hts HL. specialize (H ts Hts HL).
  destruct (p ts) as [[a ts']|e]; [|done]. split; [tauto|lia].
Qed.
Lemma safe_mono {A} L L' d (p : P A) : safe L d p -> L' <= L -> safe L' d p.
Proof. intros H Hd ts Hts HL. apply H; [done|lia]. Qed.
Lemma safe_bind {A B} L d1 d2 (p : P A) (f : A -> P B) :
  safe L d1 p -> (forall a, safe (L - d1) d2 (f a)) -> safe L (d1 + d2) (pbind p f).
Proof.
  intros Hp Hf ts Hts HL. unfold pbind. specialize (Hp ts Hts HL).
  destruct (p ts) as [[a ts']|e]; [|done]. destruct Hp as [Hts' Hl].
  specialize (Hf a ts' Hts' ltac:(lia)). destruct (f a ts') as [[b ts'']|e]; [|done].
  split; [tauto|lia].
Qed.
Lemma safe_bind0 {A B} L d (p : P A) (f : A -> P B) :
  safe L 0 p -> (forall a, safe L d (f a)) -> safe L d (pbind p f).
Proof. intros Hp Hf. apply (safe_bind L 0 d); [done|]. intros a. by rewrite Nat.sub_0_r. Qed.
Lemma safe_bind1 {A B} L (p : P A) (f : A -> P B) :
  safe L 1 p -> (forall a, safe (L - 1) 0 (f a)) -> safe L 1 (pbind p f).
Proof. intros. by apply (safe_bind L 1 0). Qed.

(** [bump] followed by a test that refuses [Eof] consumes a token. *)
Lemma safe_bump_then {A} L d (f : TokenKind -> P A) :
  (forall k, k <> TK.Eof -> safe (L - 1) d (f k)) ->
  (forall ts, exists e, f TK.Eof ts = Err e /\ e <> OutOfFuel) ->
  safe L (1 + d) (k <- bump ;; f k).
Proof.
  intros Hf He ts (ts0 & sp & ->) HL. destruct ts0 as [|t ts0].
  - cbn. unfold pbind. cbn. destruct (He [mkToken TK.Eof sp]) as (e & -> & ?). done.
  - unfold pbind. cbn [bump app]. rewrite length_app in HL. cbn in HL.
    destruct (ts0 ++ [mkToken TK.Eof sp]) as [|t' ts'] eqn:E; [by destruct ts0|].
    cbn [length app] in *.
    assert (ends_eof (t' :: ts')) as Ht' by (rewrite <- E; by exists ts0, sp).
    assert (length (t' :: ts') = length ts0 + 1) as Hl by (rewrite <- E, length_app; done).
    destruct (decide (tok_kind t = TK.Eof)) as [->|Hk].
    + destruct (He (t' :: ts')) as (e & -> & ?). done.
    + specialize (Hf _ Hk _ Ht' ltac:(cbn in *; lia)).
      destruct (f (tok_kind t) (t' :: ts')) as [[a ts'']|e]; [|done].
      cbn [length] in *. split; [tauto|lia].
Qed.

Lemma safe_span_then {A} L d (f : nat * nat -> P A) :
  (forall sp, safe L d (f sp)) -> safe L d (sp <- span ;; f sp).
Proof. intros Hf ts Hts HL. apply Hf; done. Qed.
Lemma safe_peek_then {A} L d (f : TokenKind -> P A) :
  (forall k, safe L d (f k)) -> safe L d (k <- peek ;; f k).
Proof. intros Hf ts Hts HL. apply Hf; done. Qed.

Lemma tk_eqb_eof want k : want <> TK.Eof -> tk_eqb k want = true -> k <> TK.Eof.
Proof.
  intros Hw H ->. cbn in H. apply bool_decide_eq_true in H. by subst.
Qed.

Lemma eof_eqb want : want <> TK.Eof -> tk_eqb TK.Eof want = false.
Proof.
  intros Hw. cbn. apply bool_decide_eq_false. congruence.
Qed.

Lemma safe_ifeat {A} L d want (p q : P A) :
  want <> TK.Eof -> safe (L - 1) (d - 1) p -> safe L d q ->
  safe L d (ifeat want then p else q).
Proof.
  intros Hw Hp Hq ts Hts HL. unfold eat, pbind, peek.
  destruct (tk_eqb (peek_kind ts) want) eqn:E; [|by apply Hq].
  destruct Hts as (ts0 & sp & ->). destruct ts0 as [|t ts0].
  { cbn [peek_kind app tok_kind] in E. by rewrite eof_eqb in E. }
  cbn [bump app]. destruct (ts0 ++ [mkToken TK.Eof sp]) as [|t' ts'] eqn:E'; [by destruct ts0|].
  cbn [app length] in *. rewrite E' in HL. cbn.
  assert (ends_eof (t' :: ts')) as Ht' by (rewrite <- E'; by exists ts0, sp).
  specialize (Hp (t' :: ts') Ht' ltac:(cbn in *; lia)).
  destruct (p (t' :: ts')) as [[a ts'']|e]; [|done]. split; [tauto|cbn in *; lia].
Qed.

Lemma safe_expect L want : want <> TK.Eof -> safe L 1 (expect want).
Proof.
  intros Hw. unfold expect. apply safe_ifeat; [done|apply safe_ret|].
  apply safe_peek_then; intros k. apply safe_span_then; intros sp. apply safe_fail.
Qed.

Ltac safe_terminal :=
  unfold ident, number, value, record_id; apply safe_span_then; intros sp;
  apply (safe_bump_then _ 0); [intros k Hk; destruct k; try apply safe_ret; apply safe_fail|
  intros ts; cbn; eexists; split; [reflexivity|done]].

Lemma safe_ident L : safe L 1 ident.
Proof. safe_terminal. Qed.
Lemma safe_number L : safe L 1 number.
Proof. safe_terminal. Qed.
Lemma safe_value L : safe L 1 value.
Proof. safe_terminal. Qed.
Lemma safe_record_id L : safe L 1 record_id.
Proof. safe_terminal. Qed.

(** [safe] at any consumption up to one, for the actions that consume one. *)
Lemma safe_at_most {A} L d (p : P A) : safe L 1 p -> d <= 1 -> safe L d p.
Proof. intros H Hd. by apply (safe_weaken L 1 d). Qed.

Lemma safe_whole_number L : safe L 1 whole_number.
Proof.
  unfold whole_number. apply safe_span_then; intros sp.
  apply safe_bind1; [apply safe_number|intros n].
  destruct (flt n f64_zero || fract_nonzero n); [apply safe_fail|apply safe_ret].
Qed.

(** One step of a [safe] goal whose consumption is 0 or 1. *)
Ltac safe_step :=
  first
    [ progress intros
    | apply safe_ret
    | apply safe_fail
    | apply safe_span_then
    | apply safe_peek_then
    | apply safe_ifeat; [done|cbn [Nat.sub]|]
    | apply safe_at_most; [first [apply safe_ident|apply safe_number|apply safe_value
        |apply safe_record_id|apply safe_whole_number|apply safe_expect; done]|lia]
    | apply safe_bind1; [first [apply safe_ident|apply safe_number|apply safe_value
        |apply safe_record_id|apply safe_whole_number|apply safe_expect; done]|]
    | apply safe_bind0; [solve [apply safe_at_most; [first [apply safe_ident|apply safe_number
        |apply safe_value|apply safe_record_id|apply safe_whole_number|apply safe_expect; done]|lia]]|]
    | break_match ].
Ltac safe := repeat safe_step.

Lemma safe_comma_list {A} (item : P A) close n L :
  close <> TK.Eof -> (forall L, safe L 1 item) -> L <= n ->
  safe L 1 (comma_list item close n).
Proof.
  intros Hc Hi. revert L. induction n as [|n IH]; intros L HL.
  - intros ts Hts Hlen. pose proof (ends_eof_length _ Hts). lia.
  - cbn [comma_list]. apply safe_bind1; [apply Hi|]. intros a.
    apply safe_ifeat; [done| |].
    + apply safe_bind0; [|intros; apply safe_ret].
      apply (safe_weaken _ 1); [apply IH; lia|lia].
    + apply safe_bind0; [|intros; apply safe_ret].
      apply safe_at_most; [by apply safe_expect|lia].
Qed.

Lemma safe_more_ids n L : L <= n -> safe L 0 (more_ids n).
Proof.
  revert L. induction n as [|n IH]; intros L HL.
  - intros ts Hts Hlen. pose proof (ends_eof_length _ Hts). lia.
  - cbn [more_ids]. apply safe_ifeat; [done| |apply safe_ret].
    safe. apply safe_bind0; [apply IH; lia|intros; apply safe_ret].
Qed.

Lemma safe_assignments n L : L <= n -> safe L 1 (assignments n).
Proof.
  revert L. induction n as [|n IH]; intros L HL.
  - intros ts Hts Hlen. pose proof (ends_eof_length _ Hts). lia.
  - cbn [assignments]. apply safe_bind1; [apply safe_ident|]. intros key.
    apply safe_bind0; [apply safe_at_most; [by apply safe_expect|lia]|]. intros _.
    apply safe_bind0; [apply safe_at_most; [apply safe_value|lia]|]. intros v.
    apply safe_ifeat; [done| |apply safe_ret].
    apply safe_bind0; [|intros; apply safe_ret].
    apply (safe_weaken _ 1); [apply IH; lia|lia].
Qed.

Lemma safe_comparison key L : safe L 1 (comparison key).
Proof.
  unfold comparison. apply safe_span_then; intros sp.
  apply (safe_bump_then _ 0).
  - intros k Hk. destruct k; safe.
  - intros ts. cbn. eexists. split; [reflexivity|done].
Qed.

Lemma safe_leaf n L : L <= n -> safe L 1 (leaf n).
Proof.
  intros HL. unfold leaf. apply safe_ifeat; [done|safe|].
  apply safe_bind1; [apply safe_ident|]. intros key.
  apply safe_ifeat; [done|safe|].
  apply safe_ifeat; [done| |].
  - safe. apply safe_bind0; [|intros; apply safe_ret].
    apply safe_at_most; [|lia]. apply safe_comma_list; [done|apply safe_value|lia].
  - apply safe_ifeat; [done| |].
    + unfold geo_radius, geo_box. safe.
    + apply safe_at_most; [apply safe_comparison|lia].
Qed.

Lemma safe_expr_all n :
  (forall L, 4 * L + 4 <= n -> safe L 1 (expr n)) /\
  (forall L e, 4 * L + 1 <= n -> safe L 0 (or_loop n e)) /\
  (forall L, 4 * L + 3 <= n -> safe L 1 (and_expr n)) /\
  (forall L e, 4 * L + 1 <= n -> safe L 0 (and_loop n e)) /\
  (forall L, 4 * L + 2 <= n -> safe L 1 (unary n)) /\
  (forall L, 4 * L + 1 <= n -> safe L 1 (primary n)).
Proof.
  induction n as [|n (IHe & IHo & IHa & IHl & IHu & IHp)];
    [repeat split; intros; lia|].
  assert (Hnil : forall (A : Type) d (p : P A), safe 0 d p).
  { intros A d p ts Hts HL. pose proof (ends_eof_length _ Hts). lia. }
  repeat split; intros L; intros.
  - cbn [expr]. apply safe_bind1; [apply IHa; lia|]. intros a.
    destruct L; [apply Hnil|apply IHo; lia].
  - cbn [or_loop]. apply safe_ifeat; [done| |apply safe_ret].
    destruct L; [apply Hnil|]. apply safe_bind0.
    + apply safe_at_most; [apply IHa; lia|lia].
    + intros. apply (safe_mono L); [|lia]. destruct L; [apply Hnil|apply IHo; lia].
  - cbn [and_expr]. apply safe_bind1; [apply IHu; lia|]. intros a.
    destruct L; [apply Hnil|apply IHl; lia].
  - cbn [and_loop]. apply safe_ifeat; [done| |apply safe_ret].
    destruct L; [apply Hnil|]. apply safe_bind0.
    + apply safe_at_most; [apply IHu; lia|lia].
    + intros. apply (safe_mono L); [|lia]. destruct L; [apply Hnil|apply IHl; lia].
  - cbn [unary]. destruct L; [apply Hnil|]. apply safe_ifeat; [done| |apply IHp; lia].
    apply safe_bind0; [|intros; apply safe_ret].
    apply safe_at_most; [apply IHu; lia|lia].
  - cbn [primary]. destruct L; [apply Hnil|].
    apply safe_ifeat; [done| |apply safe_leaf; lia].
    apply safe_bind0; [|safe].
    apply safe_at_most; [apply IHe; lia|lia].
Qed.

Lemma safe_opt_whole kw L : kw <> TK.Eof -> safe L 0 (opt_whole kw).
Proof. intros Hk. unfold opt_whole. safe. Qed.

Lemma safe_traverse n L : L <= n -> safe L 0 (traverse n).
Proof.
  intros HL. unfold traverse.
  apply safe_bind0; [apply safe_at_most; [apply safe_record_id|lia]|]. intros first.
  apply safe_bind0; [by apply safe_more_ids|]. intros more.
  apply safe_span_then; intros sp.
  apply (safe_weaken _ 1); [|lia]. apply (safe_bump_then _ 0).
  - intros k Hk. apply safe_bind0; [destruct k; safe|]. intros dir.
    apply safe_peek_then; intros k'.
    apply safe_bind0; [destruct k'; safe|]. intros verbs.
    apply safe_bind0; [by apply safe_opt_whole|]. intros depth.
    apply safe_bind0; [by apply safe_opt_whole|]. intros; apply safe_ret.
  - intros ts. cbn. eexists. split; [reflexivity|done].
Qed.

Lemma safe_update n L : L <= n -> safe L 0 (update n).
Proof.
  intros HL. unfold update. safe.
  - apply safe_bind0; [safe|]. intros r.
    apply safe_bind0; [destruct r; safe|]. intros _.
    apply safe_bind0; [|intros; apply safe_ret].
    apply safe_at_most; [by apply safe_assignments|lia].
Qed.

Lemma safe_eat L want : want <> TK.Eof -> safe L 0 (eat want).
Proof.
  intros Hw. assert (safe L 0 (ifeat want then pret true else pret false)) as H
    by (apply safe_ifeat; [done|apply safe_ret|apply safe_ret]).
  intros ts Hts HL. specialize (H ts Hts HL). unfold pbind in H.
  destruct (eat want ts) as [[[] ts']|e]; done.
Qed.

Lemma safe_delete n L : L <= n -> safe L 0 (delete n).
Proof.
  intros HL. unfold delete.
  apply safe_bind0; [by apply safe_eat|]. intros po.
  apply safe_bind0; [apply safe_at_most; [apply safe_record_id|lia]|]. intros id.
  apply safe_bind0; [|intros; apply safe_ret].
  destruct po; [|apply safe_ret].
  apply safe_ifeat; [done| |apply safe_ret].
  apply safe_at_most; [|lia]. apply safe_comma_list; [done|apply safe_ident|lia].
Qed.

Lemma safe_select n L : 4 * L + 4 <= n -> safe L 0 (select n).
Proof.
  intros HL. unfold select.
  apply safe_bind0; [apply safe_at_most; [by apply safe_expect|lia]|]. intros _.
  apply safe_bind0; [safe|]. intros from.
  apply safe_bind0.
  - apply safe_ifeat; [done| |apply safe_ret].
    apply safe_bind0; [|intros; apply safe_ret].
    apply safe_at_most; [|lia]. apply (safe_mono L); [|lia]. by apply safe_expr_all.
  - intros w. apply safe_bind0; [by apply safe_opt_whole|]. intros; apply safe_ret.
Qed.

Lemma safe_statement n L : 4 * L + 4 <= n -> safe L 0 (statement n).
Proof.
  intros HL. unfold statement.
  assert (H1 : L <= n) by lia.
  repeat (apply safe_ifeat; [done| |]); try (apply safe_bind0; [|intros; apply safe_ret]).
  - by apply (safe_mono L); [apply safe_select|lia].
  - unfold define. safe.
  - unfold remove. safe.
  - by apply (safe_mono L); [apply safe_update|lia].
  - by apply (safe_mono L); [apply safe_delete|lia].
  - unfold relate. safe.
  - by apply (safe_mono L); [apply safe_traverse|lia].
  - by apply safe_opt_whole.
  - apply safe_ret.
  - safe.
Qed.

Lemma safe_expect_eof L : safe L 0 expect_eof.
Proof. unfold expect_eof. apply safe_peek_then; intros k. destruct k; safe. Qed.

(** [parse_fuel] is enough on the lexer's output. *)
Lemma parse_tokens_fuel ts : ends_eof ts -> parse_tokens ts <> Err OutOfFuel.
Proof.
  intros Hts. unfold parse_tokens.
  assert (safe (length ts) 0
    (stmt <- statement (parse_fuel ts) ;; expect_eof ;;; pret stmt)) as Hs.
  { apply safe_bind0; [apply safe_statement; unfold parse_fuel; lia|]. intros s.
    apply safe_bind0; [apply safe_expect_eof|intros; apply safe_ret]. }
  specialize (Hs ts Hts ltac:(lia)).
  destruct ((stmt <- statement (parse_fuel ts) ;; expect_eof ;;; pret stmt) ts)
    as [[s ts']|e]; [done|congruence].
Qed.
