(* ===== verification/QlLexerFacts.v ===== *)
(** * Facts about the RRQL lexer

    Each turn of the loop consumes at least one byte and stays inside the
    source; the tokens tile the source in order, each one re-lexes from its
    own span, and the last one, and only it, is [Eof]. *)
From S2P Require Import Prelude Floats QlAst QlLexer QlParser QlParserFacts.
#[local] Set Default Goal Selector "!".

Lemma length_take_while f s : length (take_while f s) <= length s.
Proof. induction s as [|c s IH]; cbn; [lia|]. destruct (f c); cbn; lia. Qed.

Lemma take_while_forall f s : Forall (fun c => f c = true) (take_while f s).
Proof. induction s as [|c s IH]; cbn; [constructor|]. destruct (f c) eqn:E; auto. Qed.

Lemma take_while_app_stop f s c t :
  Forall (fun c => f c = true) s -> f c = false -> take_while f (s ++ c :: t) = s.
Proof.
  induction 1 as [|d s Hd _ IH]; intros Hc; cbn; [by rewrite Hc|].
  rewrite Hd. f_equal. auto.
Qed.

Lemma take_while_all f s : Forall (fun c => f c = true) s -> take_while f s = s.
Proof. induction 1 as [|d s Hd _ IH]; cbn; [done|]. rewrite Hd. by f_equal. Qed.

Lemma utf8_width_pos c : 1 <= utf8_width c.
Proof. unfold utf8_width. repeat case_match; lia. Qed.

Lemma scan_string_bounds fuel q s t n :
  scan_string fuel q s = Some (t, n) -> 1 <= n <= length s.
Proof.
  revert s t n. induction fuel as [|fuel IH]; intros s t n H; [done|].
  cbn [scan_string] in H. pose proof (utf8_width_pos (hd 0%Z s)) as Hw.
  assert (forall t n, match s with
      | [] => None
      | c :: _ => if (c =? q)%Z then Some ([], 1)
        else '(t, n) ← scan_string fuel q (drop (utf8_width c) s);
             Some (take (utf8_width c) s ++ t, utf8_width c + n)
      end = Some (t, n) -> 1 <= n <= length s) as Hp.
  { clear H t n. intros t n H. destruct s as [|c s]; [done|].
    destruct (c =? q)%Z; [injection H as <- <-; cbn; lia|].
    destruct (scan_string fuel q (drop (utf8_width c) (c :: s))) as [[t' n']|] eqn:E; [|done].
    cbn in H. injection H as <- <-. apply IH in E. rewrite length_drop in E. cbn in Hw. lia. }
  destruct s as [|c s]; [by apply Hp in H|].
  destruct (decide (c = 92%Z)) as [->|Hc].
  - destruct s as [|esc s]; [by apply Hp in H|].
    destruct ((esc =? q) || (esc =? 92))%Z; [|by apply Hp in H].
    destruct (scan_string fuel q s) as [[t' n']|] eqn:E; [|done].
    cbn in H. injection H as <- <-. apply IH in E. cbn. lia.
  - apply (Hp t n).
    destruct c as [|p|p]; try done. do 7 (destruct p as [p|p|]; try done).
    
Qed.

Lemma number_len_bounds s : s <> [] -> 1 <= number_len s <= length s.
Proof.
  destruct s as [|c s1]; [done|intros _]. unfold number_len.
  set (f := fun c => _). pose proof (length_take_while f s1) as Ha.
  set (a := take_while f s1) in *.
  destruct (drop (length a) s1) as [|c1 s2] eqn:E1; [cbn; lia|].
  apply (f_equal length) in E1. rewrite length_drop in E1. cbn in E1.
  destruct ((c1 =? ch "e") || (c1 =? ch "E"))%Z; [|cbn; lia].
  destruct s2 as [|c2 s3]; [cbn in *; lia|].
  pose proof (length_take_while is_ascii_digit s3).
  pose proof (length_take_while is_ascii_digit (c2 :: s3)).
  destruct ((c2 =? ch "+") || (c2 =? ch "-"))%Z; cbn [length] in *; lia.
Qed.

(** What a turn at index [i] may answer. *)
Definition step_ok (len i : nat) (s : bytes) (o : lex_outcome) : Prop :=
  match o with
  | Skip n => 1 <= n <= length s
  | Emit k n => k <> TK.Eof /\ 1 <= n <= length s
  | Fail _ (a, e) => a = i /\ i < e <= S len
  end.

Lemma take_eq_length n (s t : bytes) : take n s = t -> length t <= length s.
Proof. intros <-. rewrite length_take. lia. Qed.

Lemma op_lengths s k :
  (op3 s = Some k -> k <> TK.Eof /\ 3 <= length s) /\
  (op2_arrow s = Some k \/ op2_cmp s = Some k -> k <> TK.Eof /\ 2 <= length s).
Proof.
  unfold op3, op2_arrow, op2_cmp. split.
  - case_bool_decide as E; [|done]. intros [= <-]. split; [done|].
    exact (take_eq_length _ _ _ E).
  - repeat case_bool_decide; intros [[= <-]|[= <-]]; (split; [done|]);
      match goal with H : take 2 s = _ |- _ => exact (take_eq_length _ _ _ H) end.
Qed.

Lemma op1_kind c k : op1 c = Some k -> k <> TK.Eof.
Proof. unfold op1. repeat case_match; intros [= <-]; done. Qed.

Lemma assoc_in {A B} `{EqDecision A} (k : A) (l : list (A * B)) v :
  assoc k l = Some v -> In v (map snd l).
Proof.
  induction l as [|[k' v'] l IH]; cbn; [done|].
  destruct (decide (k = k')); [intros [= <-]; by left|right; auto].
Qed.

Lemma word_kind_eof w : word_kind w <> TK.Eof.
Proof.
  unfold word_kind. destruct (assoc _ keywords) as [k|] eqn:E; [|done].
  apply assoc_in in E. cbn in E. intros ->. repeat destruct E as [E|E]; done.
Qed.

Lemma lex_step_ok len i s : s <> [] -> i + length s = len -> step_ok len i s (lex_step len i s).
Proof.
  destruct s as [|c rest]; [done|intros _ Hlen]. set (s := c :: rest) in *.
  assert (length s = S (length rest)) as Hs by done.
  unfold lex_step. cbn [s]. fold s.
  destruct (is_ascii_whitespace c); [cbn; lia|].
  destruct ((c =? ch "-")%Z && _) eqn:Ec.
  { apply andb_prop in Ec as [->%Z.eqb_eq _]. cbn [step_ok].
    pose proof (length_take_while (fun x => negb (x =? 10)%Z) s) as Hl.
    split; [|done]. subst s. change (ch "-") with 45%Z. cbn. lia. }
  destruct (op3 s) as [k|] eqn:E3.
  { apply op_lengths in E3. cbn. split; [tauto|lia]. }
  destruct (op2_arrow s) as [k|] eqn:E2.
  { destruct (proj2 (op_lengths s k)); [by left|]. cbn. split; [done|lia]. }
  destruct (op2_cmp s) as [k|] eqn:E2'.
  { destruct (proj2 (op_lengths s k)); [by right|]. cbn. split; [done|lia]. }
  destruct (op1 c) as [k|] eqn:E1.
  { apply op1_kind in E1. cbn. split; [done|lia]. }
  destruct ((c =? 39) || (c =? 34))%Z.
  { destruct (scan_string _ c rest) as [[t n]|] eqn:E; [|cbn; lia].
    apply scan_string_bounds in E. cbn. split; [done|lia]. }
  destruct (c =? 96)%Z.
  { destruct (length rest <=? _) eqn:E; [cbn; lia|]. apply Nat.leb_gt in E.
    unfold step_ok. split; [done|]. rewrite Hs. lia. }
  destruct (is_ascii_digit c || _).
  { pose proof (number_len_bounds s) as Hn. specialize (Hn ltac:(done)).
    destruct (parse_f64 _); cbn beta iota delta [step_ok]; [split; [done|exact Hn]|lia]. }
  destruct (is_ascii_alphabetic c || (c =? ch "_")%Z) eqn:Ew.
  { cbn [step_ok]. split; [apply word_kind_eof|].
    pose proof (length_take_while is_word_byte s). split; [|done].
    subst s. cbn [take_while]. assert (is_word_byte c = true) as ->; [|cbn; lia].
    unfold is_word_byte, is_ascii_alphanumeric.
    destruct (is_ascii_alphabetic c); [done|]. cbn in Ew. rewrite Ew. by destruct (is_ascii_digit c). }
  cbn. unfold latin1_width. case_match; lia.
Qed.

(** ** The whole loop *)

(** A token that is not the last: non-empty, inside the source, and what the
    lexer reads at its own start. *)
Definition token_at (src : bytes) (t : Token) : Prop :=
  let '(a, b) := tok_span t in
  tok_kind t <> TK.Eof /\ a < b <= length src /\
  lex_step (length src) a (drop a src) = Emit (tok_kind t) (b - a).

Definition ends_before (t1 t2 : Token) : Prop := snd (tok_span t1) <= fst (tok_span t2).

Lemma lex_loop_spec src fuel i ts :
  length src - i <= fuel -> i <= length src ->
  lex_loop fuel (length src) i (drop i src) = Ok ts ->
  exists ts0, ts = ts0 ++ [mkToken TK.Eof (length src, length src)] /\
    Forall (token_at src) ts0 /\ StronglySorted ends_before ts0 /\
    Forall (fun t => i <= fst (tok_span t)) ts0.
Proof.
  revert i ts. induction fuel as [|fuel IH]; intros i ts Hf Hi H.
  { rewrite drop_ge in H by lia. cbn in H. injection H as <-. exists []. repeat constructor. }
  destruct (drop i src) as [|c s] eqn:Es.
  { cbn in H. injection H as <-. exists []. repeat constructor. }
  assert (length (c :: s) = length src - i) as Hl by (rewrite <- Es, length_drop; done).
  pose proof (lex_step_ok (length src) i (c :: s) ltac:(done) ltac:(lia)) as Hok.
  cbn [lex_loop] in H.
  destruct (lex_step (length src) i (c :: s)) as [n|k n|m sp] eqn:Est; [| |done].
  - cbn in Hok, Hl. rewrite <- Es, drop_drop in H.
    apply IH in H as (ts0 & -> & Ha & Hs & Hb); [|lia|lia].
    exists ts0. repeat split; try done. eapply Forall_impl; [exact Hb|]. intros t; cbn; lia.
  - destruct Hok as [Hk Hn]. cbn in Hn, Hl. rewrite <- Es, drop_drop in H.
    destruct (lex_loop fuel (length src) (i + n) (drop (i + n) src)) as [ts'|e] eqn:E'; [|done].
    cbn in H. injection H as <-.
    apply IH in E' as (ts0 & -> & Ha & Hs & Hb); [|lia|lia].
    exists (mkToken k (i, i + n) :: ts0). repeat split; try done.
    + constructor; [|done]. unfold token_at. cbn. rewrite Es, Est.
      split; [done|]. split; [lia|]. f_equal. lia.
    + constructor; [done|]. exact Hb.
    + constructor; [cbn; lia|]. eapply Forall_impl; [exact Hb|]. intros t; cbn; lia.
Qed.

Lemma lex_ends_eof src ts : lex src = Ok ts -> ends_eof ts.
Proof.
  unfold lex. intros H. apply (lex_loop_spec src _ 0) in H as (ts0 & -> & _); [|lia|lia].
  by eexists _, _.
Qed.

Lemma lex_loop_err src fuel i m a e :
  i <= length src ->
  lex_loop fuel (length src) i (drop i src) = Err (mkLexError m (a, e)) ->
  a < length src /\ a < e <= S (length src).
Proof.
  revert i. induction fuel as [|fuel IH]; intros i Hi H.
  { by destruct (drop i src). }
  destruct (drop i src) as [|c s] eqn:Es; [done|].
  assert (length (c :: s) = length src - i) as Hl by (rewrite <- Es, length_drop; done).
  pose proof (lex_step_ok (length src) i (c :: s) ltac:(done) ltac:(lia)) as Hok.
  cbn [lex_loop] in H.
  destruct (lex_step (length src) i (c :: s)) as [n|k n|m' [a' e']].
  - cbn in Hok, Hl. rewrite <- Es, drop_drop in H. apply IH in H; [done|lia].
  - cbn in Hok, Hl. rewrite <- Es, drop_drop in H.
    destruct (lex_loop fuel _ _ _) as [ts'|e''] eqn:E'; [done|].
    cbn in H. injection H as ->. apply IH in E'; [done|lia].
  - cbn in Hok. injection H as <- <- <-. destruct Hok as [-> ?]. cbn in Hl. lia.
Qed.

(** ** The caret *)

Definition ascii_source (src : bytes) : Prop := Forall (fun c => (0 <= c < 128)%Z) src.

Lemma ascii_boundary src i : ascii_source src -> i <= length src -> is_char_boundary src i = true.
Proof.
  intros Ha Hi. unfold is_char_boundary.
  destruct (i =? 0); [done|]. destruct (length src <=? i) eqn:E.
  - apply Nat.leb_le in E. apply Nat.eqb_eq. lia.
  - apply Nat.leb_gt in E.
    pose proof (proj1 (List.Forall_forall _ _) Ha (nth i src 0%Z) (nth_In _ _ E)) as Hn. cbn in Hn.
    apply orb_true_iff. left. apply Z.ltb_lt. lia.
Qed.

Lemma rfind_byte_lt c s i : rfind_byte c s = Some i -> i < length s.
Proof.
  revert i. induction s as [|d s IH]; intros i; cbn; [done|].
  destruct (rfind_byte c s) as [j|]; [intros [= <-]; specialize (IH j eq_refl); lia|].
  destruct (d =? c)%Z; [intros [= <-]; lia|done].
Qed.

Lemma find_byte_lt c s i : find_byte c s = Some i -> i < length s.
Proof.
  revert i. induction s as [|d s IH]; intros i; cbn; [done|].
  destruct (d =? c)%Z; [intros [= <-]; lia|].
  destruct (find_byte c s) as [j|]; [|done]. cbn. intros [= <-]. specialize (IH j eq_refl). lia.
Qed.

Lemma str_slice_ascii src a b :
  ascii_source src -> a <= b -> b <= length src ->
  str_slice src a b = Some (take (b - a) (drop a src)).
Proof.
  intros Ha Hab Hb. unfold str_slice.
  rewrite !ascii_boundary by (done || lia). rewrite (proj2 (Nat.leb_le _ _)) by done. done.
Qed.

(** ** Properties *)

(** the tokens of a successful lex tile the source. Every token but the
    last is non-empty, lies inside the source and is exactly what the lexer
    reads at its own start (so spans point at the real text); tokens come in
    source order without overlap; the last one, and only it, is [Eof], placed
    at the end of the source. *)
Theorem lex_spans (src : bytes) (ts : list Token) :
  lex src = Ok ts ->
  exists ts0, ts = ts0 ++ [mkToken TK.Eof (length src, length src)] /\
    Forall (token_at src) ts0 /\ StronglySorted ends_before ts0.
Proof.
  unfold lex. intros H.
  apply (lex_loop_spec src _ 0) in H as (ts0 & -> & Ha & Hs & _); [|lia|lia].
  by exists ts0.
Qed.

Lemma lex_spans_witness :
  exists ts0, [mkToken TK.Select (0, 6); mkToken TK.Star (7, 8); mkToken TK.Lte (9, 11);
               mkToken TK.Eof (11, 11)] = ts0 ++ [mkToken TK.Eof (11, 11)] /\
    Forall (token_at (str "select * <=")) ts0 /\ StronglySorted ends_before ts0.
Proof. apply (lex_spans (str "select * <=")). vm_compute. reflexivity. Defined.

(** a lex error points into the source: its span starts at an index of the
    source, is not empty, and ends at most one byte past the end. *)
Theorem lex_error_span (src : bytes) (m : lex_message) (a e : nat) :
  lex src = Err (mkLexError m (a, e)) -> a < length src /\ a < e <= S (length src).
Proof. unfold lex. intros H. by apply (lex_loop_err src (length src) 0 m) in H; [|lia]. Qed.

Lemma lex_error_span_witness : 2 < length (str "a # b") /\ 2 < 3 <= S (length (str "a # b")).
Proof. apply (lex_error_span (str "a # b") (UnexpectedCharacter 35%Z)). vm_compute. reflexivity. Defined.

(** the parser terminates on every text with a statement or an error of
    the language; the recursion bound it is modelled with is never the
    reason it stops. *)
Theorem parse_never_out_of_fuel (src : bytes) : parse src <> Err OutOfFuel.
Proof.
  unfold parse. destruct (lex src) as [ts|e] eqn:E; [|done].
  apply parse_tokens_fuel. by eapply lex_ends_eof.
Qed.

(** on an ASCII source [caret] renders any error, whatever its span, even
    one far outside the source: no slice of it panics. *)
Theorem caret_total_ascii (show : QlError -> bytes) (err : QlError) (src : bytes) :
  ascii_source src -> exists out, caret show err src = Some out.
Proof.
  intros Ha. unfold caret. destruct (ql_span err) as [s0 e0].
  set (s := Nat.min s0 (length src)). set (e := Nat.min (Nat.max e0 s) (length src)).
  rewrite (str_slice_ascii src 0 s) by (done || lia). cbn [mbind option_bind].
  set (head := take (s - 0) (drop 0 src)).
  rewrite (str_slice_ascii src e (length src)) by (done || lia). cbn [mbind option_bind].
  set (tl := take (length src - e) (drop e src)).
  assert (length head = s) as Hh
    by (unfold head; rewrite length_take, length_drop; lia).
  assert (length tl = length src - e) as Ht
    by (unfold tl; rewrite length_take, length_drop; lia).
  rewrite str_slice_ascii; [cbn; eauto|done|..].
  - destruct (rfind_byte 10 head) eqn:E1; [apply rfind_byte_lt in E1|];
      destruct (find_byte 10 tl) eqn:E2; try apply find_byte_lt in E2; lia.
  - destruct (find_byte 10 tl) eqn:E2; try apply find_byte_lt in E2; lia.
Qed.

Lemma caret_total_ascii_witness :
  exists out, caret (fun _ => str "boom") (mkQlError (Unsupported []) (500, 900)) (str "short") = Some out.
Proof. apply caret_total_ascii. repeat constructor; vm_compute; congruence. Defined.

(** on a source outside ASCII [caret] can panic on the lexer's own error:
    the lone character U+2192 (bytes E2 86 92) is refused with the span
    [0..2], which ends inside the character, and slicing there panics. *)
Theorem caret_panics_on_lex_error (show : QlError -> bytes) :
  exists src e, lex src = Err e /\ src = [226; 134; 146]%Z /\ le_span e = (0, 2) /\
    caret show (ql_of_lex e) src = None.
Proof.
  exists [226; 134; 146]%Z, (mkLexError (UnexpectedCharacter 226) (0, 2)).
  split; [vm_compute; reflexivity|]. split; [done|]. split; [done|]. reflexivity.
Qed.
