(* ===== verification/QlRoundtrip.v ===== *)
(** * Printing and parsing RRQL

    The canonical tokens of a statement, with the fewest parentheses, and the
    proof that the parser reads them back; then the text of those tokens and
    the proof that the lexer reads it back. Together: [parse] inverts the
    printer on every statement of the grammar. *)
From Stdlib Require Import SpecFloat.
From S2P Require Import Prelude Floats QlAst QlLexer QlParser QlParserFacts QlLexerFacts.
#[local] Set Default Goal Selector "!".
Local Open Scope ql_scope.

(** ** Canonical tokens *)

Definition value_kind (v : Value.Value) : TokenKind :=
  match v with
  | Value.Str s => TK.Str s
  | Value.Num n => TK.Num n
  | Value.Bool b => TK.Bool b
  | Value.Null => TK.Null
  end.

Definition cmp_kind (op : CmpOp.CmpOp) : TokenKind :=
  match op with
  | CmpOp.Gt => TK.Gt
  | CmpOp.Gte => TK.Gte
  | CmpOp.Lt => TK.Lt
  | CmpOp.Lte => TK.Lte
  end.

Fixpoint commas (l : list TokenKind) : list TokenKind :=
  match l with
  | [] => []
  | [k] => [k]
  | k :: l => k :: TK.Comma :: commas l
  end.

Definition parens (b : bool) (ks : list TokenKind) : list TokenKind :=
  if b then TK.LParen :: ks ++ [TK.RParen] else ks.

(** The tokens of an expression at precedence level 0 (OR), 1 (AND) or 2. *)
Fixpoint pp (lvl : nat) (e : Expr.Expr) : list TokenKind :=
  match e with
  | Expr.Or a b => parens (0 <? lvl) (pp 0 a ++ TK.Or :: pp 1 b)
  | Expr.And a b => parens (1 <? lvl) (pp 1 a ++ TK.And :: pp 2 b)
  | Expr.Not a => TK.Not :: pp 2 a
  | Expr.Eq k v => [TK.Ident k; TK.Eq; value_kind v]
  | Expr.Neq k v => [TK.Ident k; TK.Neq; value_kind v]
  | Expr.In k vs => TK.Ident k :: TK.In :: TK.LParen :: commas (map value_kind vs) ++ [TK.RParen]
  | Expr.Cmp k op x => [TK.Ident k; cmp_kind op; TK.Num x]
  | Expr.Exists k => [TK.Exists; TK.LParen; TK.Ident k; TK.RParen]
  | Expr.GeoRadius k a b r =>
      [TK.Ident k; TK.Inside; TK.Radius; TK.LParen; TK.Num a; TK.Comma; TK.Num b; TK.Comma;
       TK.Num r; TK.RParen]
  | Expr.GeoBox k a b c d =>
      [TK.Ident k; TK.Inside; TK.BoxKw; TK.LParen; TK.Num a; TK.Comma; TK.Num b; TK.Comma;
       TK.Num c; TK.Comma; TK.Num d; TK.RParen]
  end.

(** ** Actions on kinds

    [parses p ks a ks']: on any tokens of kinds [ks] the action succeeds with
    [a] and leaves tokens of kinds [ks']. *)
Definition parses {A} (p : P A) (ks : list TokenKind) (a : A) (ks' : list TokenKind) : Prop :=
  forall ts, map tok_kind ts = ks -> exists ts', p ts = Ok (a, ts') /\ map tok_kind ts' = ks'.

Lemma parses_ret {A} (a : A) ks : parses (pret a) ks a ks.
Proof. intros ts H. by exists ts. Qed.

Lemma parses_bind {A B} (p : P A) (f : A -> P B) ks a ks' b ks'' :
  parses p ks a ks' -> parses (f a) ks' b ks'' -> parses (pbind p f) ks b ks''.
Proof.
  intros Hp Hf ts Hts. destruct (Hp ts Hts) as (ts' & E & Hts').
  destruct (Hf ts' Hts') as (ts'' & E' & Hts''). exists ts''.
  unfold pbind. by rewrite E, E'.
Qed.

Lemma parses_bump k ks : ks <> [] -> parses bump (k :: ks) k ks.
Proof.
  intros Hks [|t ts] [=]; subst. destruct ts as [|t' ts]; [done|]. by exists (t' :: ts).
Qed.

Lemma parses_span {A} (f : nat * nat -> P A) ks a ks' :
  (forall sp, parses (f sp) ks a ks') -> parses (pbind span f) ks a ks'.
Proof. intros H ts Hts. by apply (H (peek_span ts) ts). Qed.

Lemma parses_peek {A} (f : TokenKind -> P A) k ks a ks' :
  parses (f k) (k :: ks) a ks' -> parses (pbind peek f) (k :: ks) a ks'.
Proof.
  intros H ts Hts. destruct (H ts Hts) as (ts' & E & Hts'). exists ts'.
  destruct ts as [|t ts]; [done|]. cbn in Hts. injection Hts as Hk Hts.
  unfold pbind, peek, peek_kind. by rewrite Hk, E.
Qed.

Lemma parses_eat k want ks :
  ks <> [] ->
  parses (eat want) (k :: ks) (tk_eqb k want) (if tk_eqb k want then ks else k :: ks).
Proof.
  intros Hks. unfold eat. apply parses_peek.
  destruct (tk_eqb k want); [|apply parses_ret].
  eapply parses_bind; [by apply parses_bump|apply parses_ret].
Qed.

Lemma parses_ifeat {A} want (p q : P A) k ks a ks' :
  ks <> [] ->
  (if tk_eqb k want then parses p ks a ks' else parses q (k :: ks) a ks') ->
  parses (ifeat want then p else q) (k :: ks) a ks'.
Proof.
  intros Hks H. eapply parses_bind; [by apply parses_eat|].
  destruct (tk_eqb k want); exact H.
Qed.

(** A look-ahead on the last token. *)
Lemma parses_ifeat_no {A} want (p q : P A) k ks a ks' :
  tk_eqb k want = false -> parses q (k :: ks) a ks' ->
  parses (ifeat want then p else q) (k :: ks) a ks'.
Proof.
  intros Hk H. apply (parses_bind _ _ _ false (k :: ks)); [|exact H].
  unfold eat. apply parses_peek. rewrite Hk. apply parses_ret.
Qed.

Lemma parses_expect want ks :
  ks <> [] -> tk_eqb want want = true -> parses (expect want) (want :: ks) tt ks.
Proof. intros. apply parses_ifeat; [done|]. rewrite H0. apply parses_ret. Qed.

Lemma app_cons_ne {A} (l : list A) x l' : l ++ x :: l' <> [].
Proof. by destruct l. Qed.
Lemma app_ne {A} (l l' : list A) : l' <> [] -> l ++ l' <> [].
Proof. by destruct l. Qed.

Lemma parses_ident s ks : ks <> [] -> parses ident (TK.Ident s :: ks) s ks.
Proof. intros. apply parses_span; intros. eapply parses_bind; [by apply parses_bump|apply parses_ret]. Qed.
Lemma parses_number n ks : ks <> [] -> parses number (TK.Num n :: ks) n ks.
Proof. intros. apply parses_span; intros. eapply parses_bind; [by apply parses_bump|apply parses_ret]. Qed.
Lemma parses_value v ks : ks <> [] -> parses value (value_kind v :: ks) v ks.
Proof.
  intros. apply parses_span; intros. eapply parses_bind; [by apply parses_bump|].
  destruct v; apply parses_ret.
Qed.
Lemma parses_record_id s ks : ks <> [] -> parses record_id (TK.Str s :: ks) s ks.
Proof. intros. apply parses_span; intros. eapply parses_bind; [by apply parses_bump|apply parses_ret]. Qed.

(** Run an action over concrete leading tokens. *)
Ltac ne := first [done | apply app_cons_ne | by apply app_ne].
Ltac pstep :=
  lazymatch goal with
  | |- parses (pret _) _ _ _ => apply parses_ret
  | |- parses (pbind (pbind _ _) _) _ _ _ => fail
  | |- parses (pbind span _) _ _ _ => apply parses_span; intros ?
  | |- parses (pbind peek _) _ _ _ => apply parses_peek
  | |- parses (pbind (eat _) _) _ _ _ =>
      first [ apply parses_ifeat_no; [reflexivity|] | apply parses_ifeat; [ne|cbn [tk_eqb]] ]
  | |- parses (pbind (expect _) _) _ _ _ =>
      eapply parses_bind; [apply parses_expect; [ne|reflexivity]|]
  | |- parses (pbind ident _) _ _ _ => eapply parses_bind; [apply parses_ident; ne|]
  | |- parses (pbind number _) _ _ _ => eapply parses_bind; [apply parses_number; ne|]
  | |- parses (pbind value _) _ _ _ => eapply parses_bind; [apply parses_value; ne|]
  | |- parses (pbind record_id _) _ _ _ => eapply parses_bind; [apply parses_record_id; ne|]
  | |- parses (pbind bump _) _ _ _ => eapply parses_bind; [apply parses_bump; ne|]
  | |- parses (if bool_decide (?a = ?a) then _ else _) _ _ _ =>
      rewrite bool_decide_eq_true_2 by reflexivity
  | |- if bool_decide _ then _ else _ =>
      first [rewrite bool_decide_eq_true_2 by reflexivity
            |rewrite bool_decide_eq_false_2 by congruence]
  end.
Ltac prun := cbv beta; repeat (pstep; cbv beta iota).

Lemma parses_comma_list {A} (item : P A) (kind : A -> TokenKind) n xs ks :
  (forall x ks, ks <> [] -> parses item (kind x :: ks) x ks) ->
  xs <> [] -> length xs <= n -> ks <> [] ->
  parses (comma_list item TK.RParen n) (commas (map kind xs) ++ TK.RParen :: ks) xs ks.
Proof.
  intros Hi. revert n. induction xs as [|x xs IH]; intros n Hne Hn Hks; [done|].
  destruct n as [|n]; [cbn in Hn; lia|]. cbn [comma_list].
  destruct xs as [|y xs].
  - cbn. eapply parses_bind; [by apply Hi|]. prun.
  - change (commas (map kind (x :: y :: xs)))
      with (kind x :: TK.Comma :: commas (map kind (y :: xs))).
    cbn [app]. eapply parses_bind; [by apply Hi|]. prun.
    eapply parses_bind; [apply IH; [done|cbn in *; lia|done]|]. prun.
Qed.

(** ** Expressions *)

(** With enough fuel. *)
Definition parses_ev {A} (p : nat -> P A) ks a ks' : Prop :=
  exists n, forall m, n <= m -> parses (p m) ks a ks'.

Lemma parses_ev_succ {A} (p q : nat -> P A) ks a ks' :
  (forall n, p (S n) = q n) -> parses_ev q ks a ks' -> parses_ev p ks a ks'.
Proof.
  intros H [n Hn]. exists (S n). intros [|m] Hm; [lia|]. rewrite H. apply Hn. lia.
Qed.

Lemma parses_ev_bind {A B} (p : nat -> P A) (f : nat -> A -> P B) ks a ks' b ks'' :
  parses_ev p ks a ks' -> parses_ev (fun n => f n a) ks' b ks'' ->
  parses_ev (fun n => pbind (p n) (f n)) ks b ks''.
Proof.
  intros [n1 H1] [n2 H2]. exists (n1 + n2). intros m Hm.
  eapply parses_bind; [apply H1; lia|apply H2; lia].
Qed.

Lemma parses_ev_const {A} (p : P A) ks a ks' : parses p ks a ks' -> parses_ev (fun _ => p) ks a ks'.
Proof. intros H. by exists 0. Qed.

Lemma parses_ev_ifeat {A} want (p q : nat -> P A) k ks a ks' :
  ks <> [] ->
  (if tk_eqb k want then parses_ev p ks a ks' else parses_ev q (k :: ks) a ks') ->
  parses_ev (fun n => ifeat want then p n else q n) (k :: ks) a ks'.
Proof.
  intros Hks H. destruct (tk_eqb k want) eqn:E; destruct H as [n Hn]; exists n; intros m Hm;
    apply parses_ifeat; try done; rewrite E; by apply Hn.
Qed.

Lemma parses_ev_ifeat_no {A} want (p q : nat -> P A) k ks a ks' :
  tk_eqb k want = false -> parses_ev q (k :: ks) a ks' ->
  parses_ev (fun n => ifeat want then p n else q n) (k :: ks) a ks'.
Proof.
  intros E [n Hn]; exists n; intros m Hm. apply parses_ifeat_no; [done|]. by apply Hn.
Qed.

Definition is_leaf (e : Expr.Expr) : bool :=
  match e with Expr.And _ _ | Expr.Or _ _ | Expr.Not _ => false | _ => true end.

Lemma parses_leaf e ks :
  is_leaf e = true -> ks <> [] -> parses_ev leaf (pp 2 e ++ ks) e ks.
Proof.
  intros He Hks. destruct e as [k v|k v|k vs|k op x|k|k a b r|k a b c d| | |]; try done;
    [exists 0|exists 0|exists (length vs)|exists 0..]; intros m Hm; unfold leaf; cbn [pp app].
  - prun. unfold comparison. prun.
  - prun. unfold comparison. prun.
  - prun. rewrite <- app_assoc. cbn [app].
    destruct vs as [|v vs]; [cbn; prun|].
    assert (exists ks0, commas (map value_kind (v :: vs)) ++ TK.RParen :: ks = value_kind v :: ks0)
      as [ks0 Hks0] by (destruct vs; eexists; reflexivity).
    rewrite Hks0. apply parses_ifeat_no; [by destruct v|]. rewrite <- Hks0.
    eapply parses_bind; [|prun].
    apply parses_comma_list; [apply parses_value|done|done|done].
  - destruct op; cbn [cmp_kind]; prun; unfold comparison; prun.
  - prun.
  - prun. unfold geo_radius. prun.
  - prun. unfold geo_box. prun.
Qed.

(** What may follow an expression at each level. *)
Definition not_head (k : TokenKind) (ks : list TokenKind) : Prop :=
  match ks with k' :: _ => tk_eqb k' k = false | [] => False end.

Lemma not_head_ne k ks : not_head k ks -> ks <> [].
Proof. by destruct ks. Qed.

Definition or_spine (e : Expr.Expr) : Prop := forall ks r ks',
  not_head TK.And ks -> parses_ev (fun n => or_loop n e) ks r ks' ->
  parses_ev expr (pp 0 e ++ ks) r ks'.
Definition and_spine (e : Expr.Expr) : Prop := forall ks r ks',
  ks <> [] -> parses_ev (fun n => and_loop n e) ks r ks' ->
  parses_ev and_expr (pp 1 e ++ ks) r ks'.
Definition un_parses (e : Expr.Expr) : Prop := forall ks,
  ks <> [] -> parses_ev unary (pp 2 e ++ ks) e ks.

Lemma or_loop_stop e ks : not_head TK.Or ks -> parses_ev (fun n => or_loop n e) ks e ks.
Proof.
  destruct ks as [|k ks]; [done|]. intros H. exists 1. intros [|m] Hm; [lia|].
  cbn [or_loop]. apply parses_ifeat_no; [done|apply parses_ret].
Qed.
Lemma and_loop_stop e ks : not_head TK.And ks -> parses_ev (fun n => and_loop n e) ks e ks.
Proof.
  destruct ks as [|k ks]; [done|]. intros H. exists 1. intros [|m] Hm; [lia|].
  cbn [and_loop]. apply parses_ifeat_no; [done|apply parses_ret].
Qed.

Lemma and_parses e ks :
  and_spine e -> not_head TK.And ks -> parses_ev and_expr (pp 1 e ++ ks) e ks.
Proof. intros H Hks. apply H; [by eapply not_head_ne|by apply and_loop_stop]. Qed.

Lemma or_parses e ks :
  or_spine e -> not_head TK.And ks -> not_head TK.Or ks -> parses_ev expr (pp 0 e ++ ks) e ks.
Proof. intros H Ha Ho. apply H; [done|by apply or_loop_stop]. Qed.

(** From a tighter level to a looser one, when the printer adds nothing. *)
Lemma and_spine_of_un e : pp 1 e = pp 2 e -> un_parses e -> and_spine e.
Proof.
  intros Hpp Hu ks r ks' Hks Hl. rewrite Hpp.
  eapply parses_ev_succ; [reflexivity|]. eapply parses_ev_bind; [by apply Hu|done].
Qed.
Lemma or_spine_of_and e : pp 0 e = pp 1 e -> and_spine e -> or_spine e.
Proof.
  intros Hpp Hu ks r ks' Hks Hl. rewrite Hpp.
  eapply parses_ev_succ; [reflexivity|]. eapply parses_ev_bind; [by apply and_parses|done].
Qed.

Lemma unary_of_primary e ks ks' k :
  tk_eqb k TK.Not = false -> parses_ev primary (k :: ks) e ks' -> parses_ev unary (k :: ks) e ks'.
Proof.
  intros Hk H. eapply parses_ev_succ; [reflexivity|]. by apply parses_ev_ifeat_no.
Qed.

(** A compound expression in parentheses. *)
Lemma un_of_parens e : pp 2 e = TK.LParen :: pp 0 e ++ [TK.RParen] -> or_spine e -> un_parses e.
Proof.
  intros Hpp Ho ks Hks. rewrite Hpp. cbn [app]. apply unary_of_primary; [done|].
  eapply parses_ev_succ; [reflexivity|]. apply parses_ev_ifeat; [by apply app_ne|].
  cbn [tk_eqb]. rewrite bool_decide_eq_true_2 by done. rewrite <- app_assoc. cbn [app].
  eapply parses_ev_bind; [by apply or_parses|]. apply parses_ev_const. cbn beta. prun.
Qed.

Lemma expr_levels e : or_spine e /\ and_spine e /\ un_parses e.
Proof.
  induction e as [k v|k v|k vs|k op x|k|k a b r|k a b c d
    |a (IHoa & IHaa & IHua) b (IHob & IHab & IHub)
    |a (IHoa & IHaa & IHua) b (IHob & IHab & IHub)
    |a (IHoa & IHaa & IHua)].
  8:{ assert (and_spine (Expr.And a b)) as Ha.
    { intros ks r ks' Hks Hl. cbn. rewrite <- app_assoc. cbn [app].
      apply IHaa; [done|]. eapply parses_ev_succ; [reflexivity|].
      apply parses_ev_ifeat; [by apply app_ne|].
      cbn [tk_eqb]. rewrite bool_decide_eq_true_2 by done.
      eapply parses_ev_bind; [by apply IHub|exact Hl]. }
    assert (or_spine (Expr.And a b)) as Ho by (by apply or_spine_of_and).
    split; [done|]. split; [done|]. by apply un_of_parens. }
  8:{ assert (or_spine (Expr.Or a b)) as Ho.
    { intros ks r ks' Hks Hl. cbn. rewrite <- app_assoc. cbn [app].
      apply IHoa; [done|]. eapply parses_ev_succ; [reflexivity|].
      apply parses_ev_ifeat; [by apply app_ne; eapply not_head_ne|].
      cbn [tk_eqb]. rewrite bool_decide_eq_true_2 by done.
      eapply parses_ev_bind; [by apply and_parses|exact Hl]. }
    assert (un_parses (Expr.Or a b)) as Hu by (by apply un_of_parens).
    split; [done|]. split; [by apply and_spine_of_un|done]. }
  8:{ assert (un_parses (Expr.Not a)) as Hu.
    { intros ks Hks. cbn [pp app]. eapply parses_ev_succ; [reflexivity|].
      apply parses_ev_ifeat; [by apply app_ne|].
      cbn [tk_eqb]. rewrite bool_decide_eq_true_2 by done.
      eapply parses_ev_bind; [by apply IHua|]. apply parses_ev_const, parses_ret. }
    assert (and_spine (Expr.Not a)) as Ha by (by apply and_spine_of_un).
    split; [by apply or_spine_of_and|done]. }
  all: match goal with |- or_spine ?e /\ _ =>
    assert (un_parses e) as Hu by
      (intros ks Hks; cbn [pp app]; apply unary_of_primary; [reflexivity|];
       eapply parses_ev_succ; [reflexivity|]; apply parses_ev_ifeat_no; [reflexivity|];
       by apply (parses_leaf e));
    assert (and_spine e) as Ha by (by apply and_spine_of_un);
    split; [by apply or_spine_of_and|done] end.
Qed.

Lemma parses_expr e ks :
  not_head TK.And ks -> not_head TK.Or ks -> parses_ev expr (pp 0 e ++ ks) e ks.
Proof. intros. apply or_parses; [apply expr_levels|done|done]. Qed.

(** ** Statements *)

Definition opt_num (kw : TokenKind) (o : option Z) : list TokenKind :=
  match o with Some z => [kw; TK.Num (f64_of_Z z)] | None => [] end.

Fixpoint assign_kinds (l : list (bytes * Value.Value)) : list TokenKind :=
  match l with
  | [] => []
  | [(k, v)] => [TK.Ident k; TK.Eq; value_kind v]
  | (k, v) :: l => TK.Ident k :: TK.Eq :: value_kind v :: TK.Comma :: assign_kinds l
  end.

Definition arrow (d : Direction.Direction) : TokenKind :=
  match d with
  | Direction.Out => TK.ArrowOut
  | Direction.In => TK.ArrowIn
  | Direction.Both => TK.ArrowBoth
  end.

Definition stmt_kinds (s : Statement.Statement) : list TokenKind :=
  match s with
  | Statement.Select s =>
      TK.Select :: TK.Star ::
      match sel_from s with Some c => [TK.From; TK.Ident c] | None => [] end ++
      match sel_where s with Some e => TK.Where :: pp 0 e | None => [] end ++
      opt_num TK.Limit (sel_limit s)
  | Statement.Define (Define.Index f) => [TK.Define; TK.Index; TK.On; TK.Ident f]
  | Statement.Define (Define.Alias a c) => [TK.Define; TK.Alias; TK.Ident a; TK.For; TK.Ident c]
  | Statement.Define (Define.Field f c ty) =>
      [TK.Define; TK.Field; TK.Ident f; TK.On; TK.Ident c; TK.Type_; TK.Ident (FieldType.as_str ty)]
  | Statement.Remove (Remove.Alias a) => [TK.Remove; TK.Alias; TK.Ident a]
  | Statement.Remove (Remove.Collection c) => [TK.Remove; TK.Collection; TK.Ident c]
  | Statement.Remove (Remove.Field f c) => [TK.Remove; TK.Field; TK.Ident f; TK.On; TK.Ident c]
  | Statement.Update u =>
      TK.Update :: TK.Str (upd_id u) ::
      (if upd_replace u then [TK.Content; TK.Set_] else [TK.Set_]) ++ assign_kinds (upd_set u)
  | Statement.Delete d =>
      TK.Delete :: (if del_payload_only d then [TK.Payload] else []) ++ TK.Str (del_id d) ::
      match del_keys d with
      | [] => []
      | ks => TK.LParen :: commas (map TK.Ident ks) ++ [TK.RParen]
      end
  | Statement.Relate r =>
      [TK.Relate; TK.Str (rel_from r); TK.ArrowOut; TK.Ident (rel_verb r); TK.ArrowOut;
       TK.Str (rel_to r)]
  | Statement.Traverse t =>
      TK.Traverse :: commas (map TK.Str (tr_start t)) ++ arrow (tr_dir t) ::
      match tr_verbs t with v :: _ => [TK.Ident v; TK.ArrowOut] | [] => [] end ++
      opt_num TK.Depth (tr_depth t) ++ opt_num TK.Limit (tr_limit t)
  | Statement.Live l => TK.Live :: opt_num TK.Since (live_since l)
  | Statement.Info => [TK.Info]
  end.

(** What the grammar can say: bounds that an [f64] holds exactly, at least
    one assignment and one start id, at most one verb, a key list only for
    [DELETE PAYLOAD]. *)
Definition whole_bound (o : option Z) : Prop :=
  match o with Some z => (0 <= z < 2 ^ 53)%Z | None => True end.

Definition sayable (s : Statement.Statement) : Prop :=
  match s with
  | Statement.Select s => whole_bound (sel_limit s)
  | Statement.Update u => upd_set u <> []
  | Statement.Delete d => del_payload_only d = false -> del_keys d = []
  | Statement.Traverse t =>
      tr_start t <> [] /\ length (tr_verbs t) <= 1 /\ whole_bound (tr_depth t) /\
      whole_bound (tr_limit t)
  | Statement.Live l => whole_bound (live_since l)
  | _ => True
  end.

Definition eof_kinds : list TokenKind := [TK.Eof].

Lemma parses_whole z ks :
  ks <> [] -> (0 <= z < 2 ^ 53)%Z -> parses whole_number (TK.Num (f64_of_Z z) :: ks) z ks.
Proof.
  intros Hks Hz. destruct (whole_roundtrip z Hz) as (H1 & H2 & H3).
  unfold whole_number. prun. rewrite H1, H2. cbn [orb]. rewrite H3. apply parses_ret.
Qed.

Lemma parses_opt_whole kw o k ks :
  tk_eqb kw kw = true -> tk_eqb k kw = false -> whole_bound o ->
  parses (opt_whole kw) (opt_num kw o ++ k :: ks) o (k :: ks).
Proof.
  intros Hkw Hk Ho. unfold opt_whole. destruct o as [z|]; cbn [opt_num app].
  - apply parses_ifeat; [done|]. rewrite Hkw.
    eapply parses_bind; [by apply parses_whole|apply parses_ret].
  - apply parses_ifeat_no; [done|apply parses_ret].
Qed.

Lemma parses_assignments l n ks :
  l <> [] -> length l <= n -> not_head TK.Comma ks ->
  parses (assignments n) (assign_kinds l ++ ks) l ks.
Proof.
  revert n. induction l as [|[k v] l IH]; intros n Hl Hn Hks; [done|].
  pose proof (not_head_ne _ _ Hks) as Hne.
  destruct n as [|n]; [cbn in Hn; lia|]. cbn [assignments].
  destruct l as [|kv l].
  - cbn [assign_kinds app]. prun. destruct ks as [|k' ks]; [done|].
    apply parses_ifeat_no; [done|apply parses_ret].
  - change (assign_kinds ((k, v) :: kv :: l))
      with (TK.Ident k :: TK.Eq :: value_kind v :: TK.Comma :: assign_kinds (kv :: l)).
    cbn [app]. prun.
    eapply parses_bind; [apply IH; [done|cbn in *; lia|done]|]. apply parses_ret.
Qed.

Lemma commas_cons k l : exists ks, commas (k :: l) = k :: ks.
Proof. destruct l; cbn; eauto. Qed.

Definition tail_ids (l : list bytes) (ks : list TokenKind) : list TokenKind :=
  match l with [] => ks | _ => TK.Comma :: commas (map TK.Str l) ++ ks end.

Lemma commas_tail_ids i l ks :
  commas (map TK.Str (i :: l)) ++ ks = TK.Str i :: tail_ids l ks.
Proof. by destruct l. Qed.

Lemma tail_ids_ne l ks : ks <> [] -> tail_ids l ks <> [].
Proof. by destruct l. Qed.

Lemma parses_more_ids l n ks :
  length l < n -> not_head TK.Comma ks -> parses (more_ids n) (tail_ids l ks) l ks.
Proof.
  intros Hn Hks. pose proof (not_head_ne _ _ Hks) as Hne. revert n Hn.
  induction l as [|j l IH]; intros n Hn; (destruct n as [|n]; [lia|]); cbn [more_ids].
  - destruct ks as [|k ks]; [done|]. apply parses_ifeat_no; [done|apply parses_ret].
  - cbn [tail_ids]. rewrite commas_tail_ids. apply parses_ifeat; [done|]. cbn [tk_eqb].
    rewrite bool_decide_eq_true_2 by done.
    eapply parses_bind; [apply parses_record_id; by apply tail_ids_ne|].
    eapply parses_bind; [apply IH; cbn in Hn; lia|apply parses_ret].
Qed.

Lemma parses_select s ks :
  whole_bound (sel_limit s) ->
  parses_ev (fun n => s <- select n ;; pret (Statement.Select s))
    (tail (stmt_kinds (Statement.Select s)) ++ TK.Eof :: ks) (Statement.Select s) (TK.Eof :: ks).
Proof.
  destruct s as [from wh lim]. intros Hl. cbn [stmt_kinds tail sel_from sel_where sel_limit app] in *.
  apply (parses_ev_bind select (fun _ s => pret (Statement.Select s)) _ (mkSelect from wh lim)
    (TK.Eof :: ks)); [|apply parses_ev_const, parses_ret].
  assert (exists k0 ks0, opt_num TK.Limit lim ++ TK.Eof :: ks = k0 :: ks0 /\
    tk_eqb k0 TK.Where = false /\ tk_eqb k0 TK.And = false /\ tk_eqb k0 TK.Or = false /\
    tk_eqb k0 TK.From = false) as (k0 & ks0 & Hk0 & Hw & Ha & Ho & Hfr)
    by (destruct lim; eexists _, _; repeat split).
  assert (parses_ev (fun n => ifeat TK.Where then (e <- expr n ;; pret (Some e)) else pret None)
    (match wh with Some e => TK.Where :: pp 0 e | None => [] end ++ opt_num TK.Limit lim ++ TK.Eof :: ks)
    wh (opt_num TK.Limit lim ++ TK.Eof :: ks)) as Hwh.
  { destruct wh as [e|]; rewrite Hk0.
    - cbn [app]. apply parses_ev_ifeat; [by apply app_ne|]. cbn [tk_eqb].
      rewrite bool_decide_eq_true_2 by done.
      eapply parses_ev_bind; [by apply parses_expr|apply parses_ev_const, parses_ret].
    - cbn [app]. apply parses_ev_ifeat_no; [done|apply parses_ev_const, parses_ret]. }
  destruct Hwh as [n Hn]. exists n. intros m Hm. specialize (Hn m Hm).
  unfold select. rewrite <- !app_assoc.
  eapply parses_bind; [apply parses_expect; [by destruct from, wh, lim|done]|].
  assert (forall k1 ks1, match wh with Some e => TK.Where :: pp 0 e | None => [] end ++
    opt_num TK.Limit lim ++ TK.Eof :: ks = k1 :: ks1 -> tk_eqb k1 TK.From = false) as Hk1.
  { intros k1 ks1 H1. destruct wh; [by injection H1 as <-|]. cbn [app] in H1. congruence. }
  destruct (match wh with Some e => TK.Where :: pp 0 e | None => [] end ++
    opt_num TK.Limit lim ++ TK.Eof :: ks) as [|k1 ks1] eqn:E1; [by destruct wh, lim|].
  eapply (parses_bind _ _ _ from (k1 :: ks1)).
  - destruct from as [c|]; cbn [app]; [prun|].
    apply parses_ifeat_no; [by eapply Hk1|apply parses_ret].
  - eapply parses_bind; [exact Hn|].
    eapply parses_bind; [by apply parses_opt_whole|]. apply parses_ret.
Qed.

(** The statements whose parser takes no fuel. *)
Lemma parses_define d ks :
  parses (d <- define ;; pret (Statement.Define d))
    (tail (stmt_kinds (Statement.Define d)) ++ TK.Eof :: ks) (Statement.Define d) (TK.Eof :: ks).
Proof.
  eapply parses_bind; [|apply parses_ret].
  destruct d as [f|a c|f c ty]; cbn [stmt_kinds tail app]; unfold define; prun.
  rewrite FieldType.parse_as_str. apply parses_ret.
Qed.

Lemma parses_remove r ks :
  parses (r <- remove ;; pret (Statement.Remove r))
    (tail (stmt_kinds (Statement.Remove r)) ++ TK.Eof :: ks) (Statement.Remove r) (TK.Eof :: ks).
Proof.
  eapply parses_bind; [|apply parses_ret].
  destruct r as [a|c|f c]; cbn [stmt_kinds tail app]; unfold remove; prun.
Qed.

Lemma parses_relate r ks :
  parses (r <- relate ;; pret (Statement.Relate r))
    (tail (stmt_kinds (Statement.Relate r)) ++ TK.Eof :: ks) (Statement.Relate r) (TK.Eof :: ks).
Proof.
  eapply parses_bind; [|apply parses_ret].
  destruct r as [f v t]; cbn [stmt_kinds tail app rel_from rel_verb rel_to]; unfold relate; prun.
Qed.

Lemma parses_live l ks :
  whole_bound (live_since l) ->
  parses (since <- opt_whole TK.Since ;; pret (Statement.Live (mkLive since)))
    (tail (stmt_kinds (Statement.Live l)) ++ TK.Eof :: ks) (Statement.Live l) (TK.Eof :: ks).
Proof.
  destruct l as [o]. cbn [live_since stmt_kinds tail]. intros Ho.
  eapply parses_bind; [by apply parses_opt_whole|apply parses_ret].
Qed.

Lemma parses_update u ks :
  upd_set u <> [] ->
  parses_ev (fun n => u <- update n ;; pret (Statement.Update u))
    (tail (stmt_kinds (Statement.Update u)) ++ TK.Eof :: ks) (Statement.Update u) (TK.Eof :: ks).
Proof.
  destruct u as [id l rep]. cbn [upd_set upd_id upd_replace stmt_kinds tail app]. intros Hl.
  exists (length l). intros m Hm. eapply parses_bind; [|apply parses_ret]. unfold update.
  rewrite <- app_assoc.
  eapply parses_bind; [apply parses_record_id; by destruct rep|].
  assert (assign_kinds l ++ TK.Eof :: ks <> []) as Hne by apply app_cons_ne.
  eapply (parses_bind _ _ _ rep (if rep then TK.Set_ :: assign_kinds l ++ TK.Eof :: ks
    else assign_kinds l ++ TK.Eof :: ks)).
  - destruct rep; cbn [app]; prun.
  - eapply (parses_bind _ _ _ tt (assign_kinds l ++ TK.Eof :: ks)).
    + destruct rep; [by apply parses_expect|apply parses_ret].
    + eapply parses_bind; [by apply parses_assignments|apply parses_ret].
Qed.

Lemma parses_delete d ks :
  (del_payload_only d = false -> del_keys d = []) ->
  parses_ev (fun n => d <- delete n ;; pret (Statement.Delete d))
    (tail (stmt_kinds (Statement.Delete d)) ++ TK.Eof :: ks) (Statement.Delete d) (TK.Eof :: ks).
Proof.
  destruct d as [id po l]. cbn [del_payload_only del_keys del_id stmt_kinds tail app]. intros Hl.
  exists (length l). intros m Hm. eapply parses_bind; [|apply parses_ret]. unfold delete.
  rewrite <- app_assoc. cbn [app].
  set (rest := _ ++ TK.Eof :: ks).
  assert (rest <> []) as Hne by apply app_cons_ne.
  eapply (parses_bind _ _ _ po (TK.Str id :: rest)).
  - destruct po; cbn [app].
    + exact (parses_eat TK.Payload TK.Payload (TK.Str id :: rest) ltac:(done)).
    + exact (parses_eat (TK.Str id) TK.Payload rest Hne).
  - eapply parses_bind; [by apply parses_record_id|].
    eapply (parses_bind _ _ _ l (TK.Eof :: ks)); [|apply parses_ret].
    subst rest. destruct po; [|rewrite Hl by done; apply parses_ret].
    destruct l as [|k l]; [cbn [app]; prun|]. cbn [app]. rewrite <- app_assoc. cbn [app].
    destruct (commas_cons (TK.Ident k) (map TK.Ident l)) as [ks0 Hks0].
    apply parses_ifeat; [cbn [map]; by rewrite Hks0|]. cbn [tk_eqb].
    rewrite bool_decide_eq_true_2 by done.
    apply (parses_comma_list ident TK.Ident); [apply parses_ident|done|done|done].
Qed.

Lemma parses_traverse t ks :
  tr_start t <> [] -> length (tr_verbs t) <= 1 ->
  whole_bound (tr_depth t) -> whole_bound (tr_limit t) ->
  parses_ev (fun n => t <- traverse n ;; pret (Statement.Traverse t))
    (tail (stmt_kinds (Statement.Traverse t)) ++ TK.Eof :: ks) (Statement.Traverse t) (TK.Eof :: ks).
Proof.
  destruct t as [start verbs dir depth limit].
  cbn [tr_start tr_verbs tr_dir tr_depth tr_limit stmt_kinds tail]. intros Hst Hv Hd Hl.
  destruct start as [|i start]; [done|].
  exists (S (length start)). intros m Hm. eapply parses_bind; [|apply parses_ret]. unfold traverse.
  rewrite <- app_assoc, commas_tail_ids. cbn [app]. rewrite <- !app_assoc.
  set (tl := opt_num TK.Depth depth ++ opt_num TK.Limit limit ++ TK.Eof :: ks).
  set (vs := match verbs with v :: _ => [TK.Ident v; TK.ArrowOut] | [] => [] end ++ tl).
  assert (tl <> []) as Htl by apply app_ne, app_cons_ne.
  assert (vs <> []) as Hvs by (by apply app_ne).
  eapply parses_bind; [apply parses_record_id; by apply tail_ids_ne|].
  eapply parses_bind; [apply parses_more_ids; [lia|by destruct dir]|].
  apply parses_span; intros sp.
  eapply parses_bind; [by apply parses_bump|].
  eapply (parses_bind _ _ _ dir vs); [destruct dir; apply parses_ret|].
  assert (exists k0 tl0, tl = k0 :: tl0 /\ (forall s, k0 <> TK.Ident s) /\
    tk_eqb k0 TK.ArrowIn = false /\ tk_eqb k0 TK.ArrowOut = false /\ tk_eqb k0 TK.ArrowBoth = false)
    as (k0 & tl0 & Htl0 & Hk0 & _)
    by (subst tl; destruct depth, limit; eexists _, _; repeat split; done).
  assert (exists k1 vs0, vs = k1 :: vs0) as (k1 & vs0 & Hvs0) by (destruct vs; [done|by eexists _, _]).
  rewrite Hvs0. apply parses_peek. rewrite <- Hvs0.
  eapply (parses_bind _ _ _ verbs tl).
  - destruct verbs as [|v [|v' verbs]]; [| |cbn in Hv; lia].
    + subst vs. cbn [app] in *. assert (k1 = k0) as -> by congruence.
      destruct k0; try apply parses_ret. by destruct (Hk0 s).
    + subst vs. cbn [app] in *. injection Hvs0 as <- <-. prun.
  - eapply (parses_bind _ _ _ depth (opt_num TK.Limit limit ++ TK.Eof :: ks)).
    + subst tl. destruct limit; [|by apply parses_opt_whole].
      cbn [opt_num app]. by apply parses_opt_whole.
    + eapply parses_bind; [by apply parses_opt_whole|apply parses_ret].
Qed.

Lemma parses_statement s ks :
  sayable s -> parses_ev statement (stmt_kinds s ++ TK.Eof :: ks) s (TK.Eof :: ks).
Proof.
  intros Hs.
  assert (forall k p, stmt_kinds s = k :: tail (stmt_kinds s) ->
    parses_ev p (tail (stmt_kinds s) ++ TK.Eof :: ks) s (TK.Eof :: ks) ->
    (forall m ks', ks' <> [] -> parses (p m) ks' s (TK.Eof :: ks) ->
      parses (statement m) (k :: ks') s (TK.Eof :: ks)) ->
    parses_ev statement (stmt_kinds s ++ TK.Eof :: ks) s (TK.Eof :: ks)) as Hk.
  { intros k p Hk [n Hn] Hp. rewrite Hk. exists n. intros m Hm. cbn [app].
    apply Hp; [apply app_cons_ne|by apply Hn]. }
  destruct s as [s|d|r|u|d|r|t|l|].
  1:{ eapply (Hk _ _); [reflexivity|by apply parses_select|].
      intros m ks' Hks' H. unfold statement. prun. exact H. }
  1:{ eapply (Hk TK.Define _); [by destruct d|by apply parses_ev_const, parses_define|].
      intros m ks' Hks' H. unfold statement. prun. exact H. }
  1:{ eapply (Hk TK.Remove _); [by destruct r|by apply parses_ev_const, parses_remove|].
      intros m ks' Hks' H. unfold statement. prun. exact H. }
  1:{ eapply (Hk _ _); [reflexivity|by apply parses_update|].
      intros m ks' Hks' H. unfold statement. prun. exact H. }
  1:{ eapply (Hk _ _); [reflexivity|by apply parses_delete|].
      intros m ks' Hks' H. unfold statement. prun. exact H. }
  1:{ eapply (Hk _ _); [reflexivity|by apply parses_ev_const, parses_relate|].
      intros m ks' Hks' H. unfold statement. prun. exact H. }
  1:{ destruct Hs as (H1 & H2 & H3 & H4).
      eapply (Hk _ _); [reflexivity|by apply parses_traverse|].
      intros m ks' Hks' H. unfold statement. prun. exact H. }
  1:{ eapply (Hk _ _); [reflexivity|by apply parses_ev_const, parses_live|].
      intros m ks' Hks' H. unfold statement. prun. exact H. }
  exists 0. intros m _. cbn [stmt_kinds app]. unfold statement. prun.
Qed.

(** ** Text *)

Section Text.
(** [Display] of [f64], which the Rust standard library provides. *)
Context (fmt : f64 -> bytes).

(** Escape the quote and the backslash. *)
Definition escape (s : bytes) : bytes :=
  flat_map (fun c => if (c =? 39)%Z || (c =? 92)%Z then [92%Z; c] else [c]) s.

Definition render_kind (k : TokenKind) : bytes :=
  match k with
  | TK.Ident s => 96%Z :: s ++ [96%Z]
  | TK.Str s => 39%Z :: escape s ++ [39%Z]
  | TK.Num n => fmt n
  | TK.Bool b => if b then str "true" else str "false"
  | TK.Null => str "null"
  | TK.Select => str "SELECT" | TK.From => str "FROM" | TK.Where => str "WHERE"
  | TK.Limit => str "LIMIT" | TK.And => str "AND" | TK.Or => str "OR" | TK.Not => str "NOT"
  | TK.In => str "IN" | TK.Is => str "IS" | TK.Exists => str "EXISTS"
  | TK.Inside => str "INSIDE" | TK.Radius => str "RADIUS" | TK.BoxKw => str "BOX"
  | TK.Define => str "DEFINE" | TK.Remove => str "REMOVE" | TK.Index => str "INDEX"
  | TK.Alias => str "ALIAS" | TK.Collection => str "COLLECTION" | TK.Field => str "FIELD"
  | TK.Type_ => str "TYPE" | TK.On => str "ON" | TK.For => str "FOR"
  | TK.Update => str "UPDATE" | TK.Delete => str "DELETE" | TK.Set_ => str "SET"
  | TK.Content => str "CONTENT" | TK.Payload => str "PAYLOAD" | TK.Relate => str "RELATE"
  | TK.Traverse => str "TRAVERSE" | TK.Depth => str "DEPTH" | TK.Live => str "LIVE"
  | TK.Since => str "SINCE" | TK.Info => str "INFO"
  | TK.ArrowOut => str "->" | TK.ArrowIn => str "<-" | TK.ArrowBoth => str "<->"
  | TK.Comma => str "," | TK.LParen => str "(" | TK.RParen => str ")" | TK.Star => str "*"
  | TK.Eq => str "=" | TK.Neq => str "!=" | TK.Lt => str "<" | TK.Lte => str "<="
  | TK.Gt => str ">" | TK.Gte => str ">="
  | TK.Eof => []
  end.

(** Every token followed by one space. *)
Definition render_kinds (ks : list TokenKind) : bytes :=
  flat_map (fun k => render_kind k ++ [32%Z]) ks.

Definition render (s : Statement.Statement) : bytes := render_kinds (stmt_kinds s).
End Text.

(** The shape of a UTF-8 string as far as the lexer looks: each leading byte
    is followed by the continuation bytes its width announces. *)
Inductive utf8_shaped : bytes -> Prop :=
  | utf8_nil : utf8_shaped []
  | utf8_char c tl s :
      length tl = utf8_width c - 1 -> Forall (fun d => (128 <= d < 192)%Z) tl ->
      utf8_shaped s -> utf8_shaped (c :: tl ++ s).

(** [-?digits(.digits)?], what [Display] prints for a finite number. *)
Definition number_shape (t : bytes) : Prop :=
  exists sign ip fp, t = sign ++ ip ++ fp /\ (sign = [] \/ sign = [45%Z]) /\ ip <> [] /\
    Forall (fun c => is_ascii_digit c = true) ip /\
    (fp = [] \/ exists d, fp = 46%Z :: d /\ Forall (fun c => is_ascii_digit c = true) d).

(** The tokens whose text reads back: an identifier the backticks can hold, a
    UTF-8 string, a number whose [Display] parses back to it. *)
Definition printable (fmt : f64 -> bytes) (k : TokenKind) : Prop :=
  match k with
  | TK.Ident s => ~ In 96%Z s
  | TK.Str s => utf8_shaped s
  | TK.Num n => number_shape (fmt n) /\ parse_f64 (fmt n) = Some n
  | TK.Eof => False
  | _ => True
  end.

Lemma escape_cont tl s :
  Forall (fun d => (128 <= d < 192)%Z) tl -> escape (tl ++ s) = tl ++ escape s.
Proof.
  induction 1 as [|d tl Hd _ IH]; [done|]. cbn [app escape flat_map].
  rewrite !(proj2 (Z.eqb_neq _ _)) by lia. cbn [orb app]. f_equal. exact IH.
Qed.

Lemma scan_plain fuel s :
  (forall c t, s = c :: t -> c <> 92%Z) ->
  scan_string (S fuel) 39 s =
    match s with
    | [] => None
    | c :: _ =>
        if (c =? 39)%Z then Some ([], 1)
        else '(t, n) ← scan_string fuel 39 (drop (utf8_width c) s);
             Some (take (utf8_width c) s ++ t, utf8_width c + n)
    end.
Proof.
  intros H. destruct s as [|c s]; [done|]. specialize (H c s eq_refl).
  destruct c as [|p|p]; try done. do 7 (destruct p as [p|p|]; try done).
Qed.

Lemma scan_escape s rest fuel :
  utf8_shaped s -> length (escape s) < fuel ->
  scan_string fuel 39 (escape s ++ 39%Z :: rest) = Some (s, S (length (escape s))).
Proof.
  intros Hs. revert fuel. induction Hs as [|c tl s Hl Htl Hs IH]; intros fuel Hf.
  { destruct fuel; [lia|]. done. }
  destruct fuel as [|fuel]; [lia|].
  destruct (decide (c = 39%Z \/ c = 92%Z)) as [Hc|Hc].
  - assert (tl = []) as -> by (destruct Hc as [-> | ->]; cbn in Hl; by destruct tl).
    assert (escape (c :: [] ++ s) = 92%Z :: c :: escape s) as E
      by (destruct Hc as [-> | ->]; done).
    rewrite E in *. cbn [app length] in *. 
    destruct Hc as [-> | ->]; cbn; rewrite IH by lia; done.
  - assert (escape (c :: tl ++ s) = c :: tl ++ escape s) as E.
    { cbn [escape flat_map]. rewrite !(proj2 (Z.eqb_neq _ _)) by tauto. cbn [orb app].
      f_equal. by apply escape_cont. }
    rewrite E in *. cbn [app length] in *. rewrite length_app in Hf.
    rewrite scan_plain by (intros ? ? [= <- _]; tauto).
    rewrite (proj2 (Z.eqb_neq _ _)) by tauto.
    pose proof (utf8_width_pos c) as Hw.
    replace (utf8_width c) with (S (length tl)) by lia. cbn [drop take].
    rewrite <- app_assoc, drop_app_length, take_app_length.
    rewrite IH by lia. cbn. do 2 f_equal. rewrite length_app. lia.
Qed.

(** ** The lexer on printed tokens *)

Lemma number_len_shape t rest :
  number_shape t -> number_len (t ++ 32%Z :: rest) = length t /\
  exists c t', t = c :: t' /\ (is_ascii_digit c = true \/
    (c = 45%Z /\ exists d t'', t' = d :: t'' /\ is_ascii_digit d = true)).
Proof.
  intros (sign & ip & fp & -> & Hsign & Hip & Hd & Hfp).
  set (f := fun c => is_ascii_digit c || (c =? ch ".")%Z).
  assert (Hfd : forall l, Forall (fun c => is_ascii_digit c = true) l -> Forall (fun c => f c = true) l).
  { intros l Hl. eapply Forall_impl; [exact Hl|]. intros c Hc. unfold f. by rewrite Hc. }
  assert (Forall (fun c => f c = true) fp) as Hffp.
  { destruct Hfp as [-> |(d & -> & Hdd)]; constructor; auto. }
  assert (forall c t, Forall (fun x => f x = true) t ->
    number_len (c :: t ++ 32%Z :: rest) = S (length t)) as Hn.
  { intros c t Ht. unfold number_len. fold f.
    rewrite take_while_app_stop by done. rewrite drop_app_length. done. }
  destruct ip as [|i ip]; [done|]. apply Forall_cons in Hd as [Hi Hd].
  destruct Hsign as [-> | ->]; cbn [app length].
  - split; [|eauto 10]. apply (Hn i (ip ++ fp)). apply Forall_app; auto.
  - split; [|eexists _, _; split; [done|]; right; eauto].
    apply (Hn 45%Z (i :: ip ++ fp)). constructor; [unfold f; by rewrite Hi|].
    apply Forall_app; auto.
Qed.

Lemma is_ascii_digit_range c : is_ascii_digit c = true -> (48 <= c <= 57)%Z.
Proof. unfold is_ascii_digit. intros [H1 H2]%andb_prop. lia. Qed.

Lemma op1_number c : (48 <= c <= 57)%Z \/ c = 45%Z -> op1 c = None.
Proof.
  intros Hc. unfold op1.
  repeat (case_match; [exfalso; match goal with H : (c =? ch _)%Z = true |- _ =>
    apply Z.eqb_eq in H; vm_compute in H; lia end|]). done.
Qed.

(** Steps through the operator tests when the first byte starts no operator. *)
Lemma lex_step_no_op len i c rest :
  is_ascii_whitespace c = false -> (c = 45 -> exists d t, rest = d :: t /\ is_ascii_digit d = true)%Z ->
  op1 c = None -> (c <> 33)%Z ->
  (c =? 39)%Z = false -> (c =? 34)%Z = false -> (c =? 96)%Z = false ->
  is_ascii_digit c = true \/ c = 45%Z ->
  lex_step len i (c :: rest) =
    let n := number_len (c :: rest) in
    match parse_f64 (take n (c :: rest)) with
    | Some v => Emit (TK.Num v) n
    | None => Fail (NotANumber (take n (c :: rest))) (i, i + n)
    end.
Proof.
  intros Hw H45 H1 H33 H39 H34 H96 Hd.
  assert (op3 (c :: rest) = None) as E3.
  { unfold op3. rewrite bool_decide_eq_false_2; [done|]. intros [= -> _]. done. }
  assert (op2_cmp (c :: rest) = None) as E2.
  { unfold op2_cmp. rewrite !bool_decide_eq_false_2; [done|..]; intros [= -> _]; done. }
  assert (op2_arrow (c :: rest) = None) as E2'.
  { unfold op2_arrow. rewrite !bool_decide_eq_false_2; [done|..].
    - intros [= -> _]. done.
    - intros E. cbn in E. injection E as -> E. destruct (H45 eq_refl) as (d & t & -> & Hdd).
      cbn in E. injection E as ->. done. }
  unfold lex_step. rewrite Hw, E3, E2, E2', H1, H39, H34, H96. cbn [orb].
  assert ((c =? ch "-")%Z && second_is (Z.eqb (ch "-")) (c :: rest) = false) as ->.
  { destruct (c =? ch "-")%Z eqn:E; [|done]. apply Z.eqb_eq in E.
    destruct (H45 E) as (d & t & -> & Hdd). apply is_ascii_digit_range in Hdd.
    change (ch "-") with 45%Z. cbn [second_is andb]. apply Z.eqb_neq. lia. }
  assert (is_ascii_digit c || ((c =? ch "-")%Z && second_is is_ascii_digit (c :: rest)) = true) as ->;
    [|done].
  destruct Hd as [-> | ->]; [done|]. destruct (H45 eq_refl) as (d & t & -> & Hdd).
  change (ch "-") with 45%Z. cbn [second_is]. by rewrite Hdd.
Qed.

Lemma lex_step_render fmt k len i rest :
  printable fmt k ->
  lex_step len i (render_kind fmt k ++ 32%Z :: rest) = Emit k (length (render_kind fmt k)).
Proof.
  intros Hk. destruct k as [s|s|n|b| | | | | | | | | | | | | | | | | | | | | | | |
     | | | | | | | | | | | | | | | | | | | | | | | |]; try reflexivity; try done.
  - cbn [render_kind printable] in *. cbn [app]. rewrite <- app_assoc. cbn [app].
    assert (take_while (fun x => negb (x =? 96)%Z) (s ++ 96%Z :: 32%Z :: rest) = s) as E.
    { apply take_while_app_stop; [|done]. apply List.Forall_forall. intros x Hx.
      destruct (Z.eqb_spec x 96); [by subst|done]. }
    unfold lex_step. cbn -[take_while Nat.leb length]. rewrite E.
    rewrite (proj2 (Nat.leb_gt _ _)) by (rewrite length_app; cbn; lia).
    f_equal. cbn. rewrite length_app. cbn. lia.
  - cbn [render_kind printable] in *. cbn [app]. rewrite <- app_assoc. cbn [app].
    unfold lex_step. cbn -[scan_string length]. rewrite scan_escape; [|done|].
    + f_equal. cbn. rewrite length_app. cbn. lia.
    + rewrite length_app. cbn. lia.
  - cbn [render_kind printable] in *. destruct Hk as [Hsh Hp].
    destruct (number_len_shape _ rest Hsh) as (Hlen & c & t' & Ht & Hc).
    rewrite Ht in *. cbn [app]. 
    assert ((48 <= c <= 57)%Z \/ c = 45%Z) as Hrange.
    { destruct Hc as [Hc|[-> _]]; [left; by apply is_ascii_digit_range|by right]. }
    rewrite lex_step_no_op; [cbn [app] in Hlen| | | | | | | |].
    + rewrite Hlen. cbv zeta.
      change (c :: t' ++ 32%Z :: rest) with ((c :: t') ++ 32%Z :: rest).
      rewrite take_app_length, Hp. done.
    + unfold is_ascii_whitespace. rewrite !(proj2 (Z.eqb_neq _ _)) by lia. done.
    + intros ->. destruct Hc as [Hc|(_ & d & t'' & -> & Hd)]; [done|]. by eexists _, _.
    + by apply op1_number.
    + lia.
    + by rewrite (proj2 (Z.eqb_neq _ _)) by lia.
    + by rewrite (proj2 (Z.eqb_neq _ _)) by lia.
    + by rewrite (proj2 (Z.eqb_neq _ _)) by lia.
    + destruct Hc as [Hc|[-> _]]; auto.
  - destruct b; reflexivity.
Qed.

Lemma lex_loop_render fmt ks fuel len i :
  Forall (printable fmt) ks -> length (render_kinds fmt ks) <= fuel ->
  exists ts, lex_loop fuel len i (render_kinds fmt ks) = Ok ts /\ map tok_kind ts = ks ++ [TK.Eof].
Proof.
  intros Hks. revert fuel i. induction Hks as [|k ks Hk Hks IH]; intros fuel i Hf.
  { destruct fuel; cbn; eexists; done. }
  cbn [render_kinds flat_map] in *. fold (render_kinds fmt ks) in *.
  rewrite <- app_assoc in *. cbn [app] in *. rewrite length_app in Hf. cbn [length] in Hf.
  pose proof (lex_step_render fmt k len i (render_kinds fmt ks) Hk) as Hst.
  destruct (render_kind fmt k) as [|c t] eqn:Er.
  { exfalso. cbn in Hst. discriminate. }
  destruct fuel as [|fuel]; [cbn in Hf; lia|]. cbn [app lex_loop] in *. rewrite Hst.
  cbn [length drop]. rewrite drop_app_length.
  destruct fuel as [|fuel]; [cbn in Hf; lia|].
  assert (forall j r, lex_loop (S fuel) len j (32%Z :: r) = lex_loop fuel len (j + 1) r) as Hsp
    by reflexivity.
  rewrite Hsp. clear Hsp.
  destruct (IH fuel (i + S (length t) + 1)) as (ts & E & Hts); [cbn in Hf; lia|].
  rewrite E. cbn. eexists. split; [done|]. cbn. by f_equal.
Qed.

(** The parser on the canonical tokens of a statement. *)
Lemma parse_tokens_of_kinds (s : Statement.Statement) (ts : list Token) :
  sayable s -> map tok_kind ts = stmt_kinds s ++ [TK.Eof] -> parse_tokens ts = Ok s.
Proof.
  intros Hs Hts.
  assert (ends_eof ts) as Hends.
  { destruct (map_eq_app tok_kind ts _ _ Hts) as (l1 & l2 & -> & _ & H2).
    destruct l2 as [|[k sp] [|]]; try done. cbn in H2. injection H2 as ->. by exists l1, sp. }
  pose proof (parse_tokens_fuel ts Hends) as Hfuel.
  destruct (parses_statement s [] Hs) as [n Hn].
  destruct (Hn (Nat.max n (parse_fuel ts)) ltac:(lia) ts Hts) as (ts' & E & Hts').
  pose proof (statement_mono_le (parse_fuel ts) (Nat.max n (parse_fuel ts)) ltac:(lia) ts) as Hm.
  unfold parse_tokens, pbind in *.
  destruct (statement (parse_fuel ts) ts) as [[s' ts'']|e] eqn:E'.
  - rewrite Hm in E by done. injection E as -> ->. unfold expect_eof, peek, pbind, pret.
    destruct ts' as [|[k sp] ts']; [done|]. cbn in Hts'. injection Hts' as -> _. done.
  - rewrite Hm in E by (intros [=]; congruence). done.
Qed.

(** ** Properties *)

(** the parser inverts the canonical printer on every statement of the
    grammar, whatever the spans of the tokens: [parse(render(ast)) = ast] at
    the level of tokens, precedence and parentheses included. *)
Theorem parse_tokens_canonical (s : Statement.Statement) (ts : list Token) :
  sayable s -> map tok_kind ts = stmt_kinds s ++ [TK.Eof] -> parse_tokens ts = Ok s.
Proof. apply parse_tokens_of_kinds. Qed.

Lemma parse_tokens_canonical_witness :
  sayable (Statement.Live (mkLive (Some 7%Z))) /\
  parse_tokens (map (fun k => mkToken k (0, 0))
    (stmt_kinds (Statement.Live (mkLive (Some 7%Z))) ++ [TK.Eof])) =
  Ok (Statement.Live (mkLive (Some 7%Z))).
Proof.
  split; [cbn; lia|]. apply (parse_tokens_canonical (Statement.Live (mkLive (Some 7%Z)))).
  - cbn. lia.
  - reflexivity.
Defined.

(** C33: lexing and parsing invert the canonical printer on text: a statement
    of the grammar whose identifiers fit in backticks, whose strings are UTF-8
    and whose numbers print back is read back exactly from its own text. *)
Theorem parse_render (fmt : f64 -> bytes) (s : Statement.Statement) :
  sayable s -> Forall (printable fmt) (stmt_kinds s) -> parse (render fmt s) = Ok s.
Proof.
  intros Hs Hp. unfold parse, lex, render.
  destruct (lex_loop_render fmt (stmt_kinds s) (length (render_kinds fmt (stmt_kinds s)))
    (length (render_kinds fmt (stmt_kinds s))) 0 Hp ltac:(lia)) as (ts & -> & Hts).
  by apply parse_tokens_of_kinds.
Qed.

(** A concrete [Display]: the whole numbers of the witness below. *)
Definition fmt_small (n : f64) : bytes :=
  if feq n (f64_of_Z 5) then str "5" else if feq n (f64_of_Z (-2)) then str "-2" else [].

Definition sample_select : Statement.Statement :=
  Statement.Select (mkSelect (Some (str "my docs"))
    (Some (Expr.And
      (Expr.Or (Expr.Eq (str "lang") (Value.Str (str "it's"))) (Expr.Exists (str "AND")))
      (Expr.Not (Expr.Cmp (str "year") CmpOp.Gte (f64_of_Z (-2))))))
    (Some 5%Z)).

Lemma parse_render_witness :
  parse (render fmt_small sample_select) = Ok sample_select.
Proof.
  apply (parse_render fmt_small sample_select).
  - cbn. lia.
  - repeat constructor.
    all: try (vm_compute; intuition discriminate).
    + apply (utf8_char 105%Z [] _); [done|done|].
      apply (utf8_char 116%Z [] _); [done|done|].
      apply (utf8_char 39%Z [] _); [done|done|].
      apply (utf8_char 115%Z [] _); [done|done|]. constructor.
    + exists [45%Z], [50%Z], []. repeat split; auto.
    + exists [], [53%Z], []. repeat split; auto.
Defined.
