(* ===== verification/ByteOrder.v ===== *)
(** * Byte-wise order, and ordered iteration of maps

    Rust compares [String], [&str] and [Vec<u8>] byte by byte, and so does the
    storage engine that orders the keyspaces. A [BTreeMap] or a keyspace is a
    [gmap] here; [btree_iter] is its iteration, in ascending key order. *)
From S2P Require Import Prelude.
#[local] Set Default Goal Selector "!".
Local Open Scope Z_scope.

(** ** The order *)

Fixpoint bcmp (a b : bytes) : comparison :=
  match a, b with
  | [], [] => Eq
  | [], _ :: _ => Lt
  | _ :: _, [] => Gt
  | x :: a, y :: b => match x ?= y with Eq => bcmp a b | c => c end
  end.

Definition ble (a b : bytes) : Prop := bcmp a b <> Gt.
Definition blt (a b : bytes) : Prop := bcmp a b = Lt.

#[export] Instance ble_dec : RelDecision ble.
Proof. intros a b. unfold ble. destruct (bcmp a b); [by left|by left|right; by intros []]. Defined.
#[export] Instance blt_dec : RelDecision blt.
Proof. intros a b. unfold blt. destruct (bcmp a b); [by right|by left|by right]. Defined.

Lemma bcmp_refl a : bcmp a a = Eq.
Proof. induction a as [|x a IH]; cbn; [done|]. by rewrite Z.compare_refl. Qed.

Lemma bcmp_eq a b : bcmp a b = Eq -> a = b.
Proof.
  revert b. induction a as [|x a IH]; intros [|y b]; cbn; try done.
  destruct (x ?= y) eqn:E; try done. apply Z.compare_eq in E as ->. intros H. by rewrite (IH b).
Qed.

Lemma bcmp_antisym a b : bcmp b a = CompOpp (bcmp a b).
Proof.
  revert b. induction a as [|x a IH]; intros [|y b]; cbn; try done.
  rewrite Z.compare_antisym. destruct (x ?= y); cbn; auto.
Qed.

Lemma bcmp_lt_trans a b c : bcmp a b = Lt -> bcmp b c = Lt -> bcmp a c = Lt.
Proof.
  revert b c. induction a as [|x a IH]; intros [|y b] [|z c]; cbn; try done.
  destruct (Z.compare_spec x y), (Z.compare_spec y z); subst; try done; intros H1 H2.
  - rewrite Z.compare_refl. eauto.
  - by rewrite (proj2 (Z.compare_lt_iff _ _)).
  - by rewrite (proj2 (Z.compare_lt_iff _ _)).
  - by rewrite (proj2 (Z.compare_lt_iff x z)) by lia.
Qed.

Lemma ble_lteq a b : ble a b <-> blt a b \/ a = b.
Proof.
  unfold ble, blt. split.
  - destruct (bcmp a b) eqn:E; [right|by left|done]. by apply bcmp_eq.
  - intros [->| ->]; [done|]. by rewrite bcmp_refl.
Qed.

#[export] Instance blt_trans : Transitive blt.
Proof. intros a b c. apply bcmp_lt_trans. Qed.
#[export] Instance blt_irrefl : Irreflexive blt.
Proof. intros a. unfold complement, blt. by rewrite bcmp_refl. Qed.
#[export] Instance ble_preorder : PreOrder ble.
Proof.
  split.
  - intros a. apply ble_lteq. by right.
  - intros a b c [H1| ->]%ble_lteq [H2| ->]%ble_lteq; apply ble_lteq; auto.
    left. by transitivity b.
Qed.
#[export] Instance ble_antisymm : AntiSymm eq ble.
Proof.
  intros a b. rewrite !ble_lteq. intros [H1|H1] [H2|H2]; auto.
  destruct (blt_irrefl a). by transitivity b.
Qed.
#[export] Instance ble_total : Total ble.
Proof.
  intros a b. unfold ble. rewrite (bcmp_antisym a b). destruct (bcmp a b); cbn; auto.
Qed.

Lemma blt_ble a b : blt a b -> ble a b.
Proof. intros H. apply ble_lteq. by left. Qed.
Lemma not_ble a b : ~ ble a b <-> blt b a.
Proof. unfold ble, blt. rewrite (bcmp_antisym a b). destruct (bcmp a b); cbn; intuition done. Qed.

(** ** Order and concatenation *)

Lemma bcmp_app_same p a b : bcmp (p ++ a) (p ++ b) = bcmp a b.
Proof. induction p as [|x p IH]; cbn; [done|]. by rewrite Z.compare_refl. Qed.

(** Two keys of one width decide the order before their tails do. *)
Lemma bcmp_app_len a b x y :
  length a = length b ->
  bcmp (a ++ x) (b ++ y) = match bcmp a b with Eq => bcmp x y | c => c end.
Proof.
  revert b. induction a as [|u a IH]; intros [|v b]; cbn; try done.
  intros [= H]. destruct (u ?= v); [|done|done]. by apply IH.
Qed.

Lemma ble_prefix p x : ble p (p ++ x).
Proof. unfold ble. rewrite <- (app_nil_r p) at 1. rewrite bcmp_app_same. by destruct x. Qed.

(** A key that starts with [p] sorts between [p] and [p ++ infinity]: nothing
    at or above [p] that lies below a key with the prefix lacks it. *)
Lemma prefix_convex p x k : ble p k -> ble k (p ++ x) -> p `prefix_of` k.
Proof.
  revert k. induction p as [|u p IH]; intros k; [intros _ _; apply prefix_nil|].
  unfold ble. destruct k as [|v k]; cbn; [done|].
  rewrite (Z.compare_antisym u v). destruct (Z.compare_spec u v) as [->| |]; cbn; try done.
  intros H1 H2. apply prefix_cons. by apply IH.
Qed.

(** ** Ordered iteration *)

Definition key_le {A} (x y : bytes * A) : Prop := ble x.1 y.1.
#[export] Instance key_le_dec {A} : RelDecision (@key_le A).
Proof. intros x y. unfold key_le. apply _. Defined.
#[export] Instance key_le_trans {A} : Transitive (@key_le A).
Proof. intros x y z. unfold key_le. apply transitivity. Qed.
#[export] Instance key_le_total {A} : Total (@key_le A).
Proof. intros x y. unfold key_le. apply total; apply _. Qed.

Definition btree_iter {A} (m : gmap bytes A) : list (bytes * A) :=
  merge_sort key_le (map_to_list m).

Definition key_lt {A} (x y : bytes * A) : Prop := blt x.1 y.1.
#[export] Instance key_lt_trans {A} : Transitive (@key_lt A).
Proof. intros x y z. unfold key_lt. apply transitivity. Qed.

Lemma btree_iter_perm {A} (m : gmap bytes A) : btree_iter m ≡ₚ map_to_list m.
Proof. apply merge_sort_Permutation. Qed.

Lemma elem_of_btree_iter {A} (m : gmap bytes A) k v : (k, v) ∈ btree_iter m <-> m !! k = Some v.
Proof. rewrite btree_iter_perm. apply elem_of_map_to_list. Qed.

Lemma btree_iter_keys_NoDup {A} (m : gmap bytes A) : NoDup (btree_iter m).*1.
Proof. rewrite btree_iter_perm. apply NoDup_fst_map_to_list. Qed.

Lemma strongly_sorted_strict {A} (l : list (bytes * A)) :
  StronglySorted key_le l -> NoDup l.*1 -> StronglySorted key_lt l.
Proof.
  induction 1 as [|x l Hs IH Hx]; intros Hn; [constructor|]. apply NoDup_cons in Hn as [Hn1 Hn2].
  constructor; [by apply IH|]. apply Forall_forall. intros y Hy.
  rewrite Forall_forall in Hx. specialize (Hx y Hy). unfold key_le, key_lt in *.
  apply ble_lteq in Hx as [|Hx]; [done|]. destruct Hn1. rewrite Hx. by apply list_elem_of_fmap_2.
Qed.

Lemma btree_iter_sorted {A} (m : gmap bytes A) : StronglySorted key_lt (btree_iter m).
Proof.
  apply strongly_sorted_strict; [|apply btree_iter_keys_NoDup].
  apply StronglySorted_merge_sort; apply _.
Qed.

Lemma btree_iter_length {A} (m : gmap bytes A) : length (btree_iter m) = size m.
Proof. rewrite btree_iter_perm. apply length_map_to_list. Qed.

(** A strictly ascending list is determined by its members. *)
Lemma sorted_unique {A} (l1 l2 : list (bytes * A)) :
  StronglySorted key_lt l1 -> StronglySorted key_lt l2 ->
  (forall x, x ∈ l1 <-> x ∈ l2) -> l1 = l2.
Proof.
  intros H1. revert l2. induction H1 as [|x l1 H1 IH Hx]; intros l2 H2 Heq.
  - destruct l2 as [|y l2]; [done|]. exfalso. apply (not_elem_of_nil y), Heq. by left.
  - destruct H2 as [|y l2 H2 Hy]; [exfalso; apply (not_elem_of_nil x), Heq; by left|].
    rewrite Forall_forall in Hx, Hy.
    assert (x = y) as ->.
    { pose proof (proj1 (Heq x) ltac:(by left)) as [->|Hin]%elem_of_cons; [done|].
      pose proof (proj2 (Heq y) ltac:(by left)) as [->|Hin']%elem_of_cons; [done|].
      destruct (blt_irrefl x.1). unfold key_lt in *. by transitivity y.1; eauto. }
    f_equal. apply IH; [done|]. intros z. specialize (Heq z). rewrite !elem_of_cons in Heq.
    assert ((y ∉ l1) /\ (y ∉ l2)) as [Hn1 Hn2].
    { split; intros Hin; destruct (blt_irrefl y.1); [by apply (Hx y)|by apply (Hy y)]. }
    split; intros Hz;
      [destruct (proj1 Heq (or_intror Hz)) as [->|]|destruct (proj2 Heq (or_intror Hz)) as [->|]]; done.
Qed.

Lemma btree_iter_unique {A} (m : gmap bytes A) l :
  StronglySorted key_lt l -> (forall k v, (k, v) ∈ l <-> m !! k = Some v) -> btree_iter m = l.
Proof.
  intros Hs Hl. apply sorted_unique; [apply btree_iter_sorted|done|].
  intros [k v]. by rewrite elem_of_btree_iter, Hl.
Qed.

Lemma btree_iter_fmap {A B} (f : A -> B) (M : gmap bytes A) :
  btree_iter (f <$> M) = map (fun p => (p.1, f p.2)) (btree_iter M).
Proof.
  apply btree_iter_unique.
  - pose proof (btree_iter_sorted M) as Hs. induction Hs as [|x l _ IH Hx]; [constructor|]. cbn. constructor; [done|].
    apply Forall_forall. intros y (z & -> & Hz)%list_elem_of_fmap. rewrite Forall_forall in Hx. by apply (Hx z).
  - intros k v. rewrite list_elem_of_fmap, lookup_fmap, fmap_Some. split.
    + intros ([k' x] & [= -> ->] & Hx%elem_of_btree_iter). eauto.
    + intros (x & Hx & ->). exists (k, x). by rewrite elem_of_btree_iter.
Qed.
