(* ===== verification/Json.v ===== *)
(** * JSON values (serde_json) and metadata maps

    [serde_json] is a third-party crate. Its [Value] is the documented enum;
    its opaque [Number] is the interface [SerdeNumber], with the behaviour its
    documentation promises as [SerdeNumberLaws]. [plain_number] is one
    implementation, used to evaluate the model on concrete inputs. *)
From S2P Require Import Prelude Floats ByteOrder.
From Stdlib Require Import SpecFloat.
#[local] Set Default Goal Selector "!".
#[local] Set Warnings "-register-all".

Class SerdeNumber := {
  number : Type;
  number_eq_dec :: EqDecision number;
  (** [PartialEq], [Number::as_f64], [Number::from_f64], [is_i64() || is_u64()] *)
  number_eqb : number -> number -> bool;
  as_f64 : number -> option f64;
  from_f64 : f64 -> option number;
  num_is_int : number -> bool;
}.

Class SerdeNumberLaws (N : SerdeNumber) : Prop := {
  number_eqb_refl n : number_eqb n n = true;
  number_eqb_sym n m : number_eqb n m = number_eqb m n;
  as_f64_valid n x : as_f64 n = Some x -> f64_valid x = true /\ is_finite x = true;
  from_f64_none x : f64_valid x = true -> from_f64 x = None <-> is_finite x = false;
  as_f64_from_f64 x n : from_f64 x = Some n -> as_f64 n = Some x;
}.

(** ** [serde_json::Value]; an object is a [BTreeMap], its members in key order *)
Section json.
Context `{N : SerdeNumber}.

Inductive Json : Type :=
  | JNull
  | JBool (b : bool)
  | JNum (n : number)
  | JStr (s : bytes)
  | JArr (l : list Json)
  | JObj (m : list (bytes * Json)).

(** [PartialEq] *)
Fixpoint json_eqb (a b : Json) : bool :=
  let fix arr (l1 l2 : list Json) : bool :=
    match l1, l2 with
    | [], [] => true
    | x :: l1, y :: l2 => json_eqb x y && arr l1 l2
    | _, _ => false
    end in
  let fix obj (m1 m2 : list (bytes * Json)) : bool :=
    match m1, m2 with
    | [], [] => true
    | (k1, x) :: m1, (k2, y) :: m2 => bool_decide (k1 = k2) && json_eqb x y && obj m1 m2
    | _, _ => false
    end in
  match a, b with
  | JNull, JNull => true
  | JBool x, JBool y => Bool.eqb x y
  | JNum x, JNum y => number_eqb x y
  | JStr x, JStr y => bool_decide (x = y)
  | JArr x, JArr y => arr x y
  | JObj x, JObj y => obj x y
  | _, _ => false
  end.

Definition json_as_f64 (v : Json) : option f64 :=
  match v with JNum n => as_f64 n | _ => None end.

Definition json_as_str (v : Json) : option bytes :=
  match v with JStr s => Some s | _ => None end.

(** [Value::get] with a string key *)
Definition json_get (k : bytes) (v : Json) : option Json :=
  match v with
  | JObj m => match list_find (fun p => p.1 = k) m with Some (_, (_, x)) => Some x | None => None end
  | _ => None
  end.
End json.
#[global] Arguments Json {N}.

(** [Metadata = BTreeMap<String, serde_json::Value>] *)
Abbreviation Metadata := (gmap bytes Json).

(** An induction principle through the nested lists. *)
Section json_ind.
Context `{N : SerdeNumber} (P : Json -> Prop).
Context (Hnull : P JNull) (Hbool : forall b, P (JBool b)) (Hnum : forall n, P (JNum n))
  (Hstr : forall s, P (JStr s)) (Harr : forall l, Forall P l -> P (JArr l))
  (Hobj : forall m, Forall (fun p => P p.2) m -> P (JObj m)).

Fixpoint json_ind' (v : Json) : P v :=
  match v with
  | JNull => Hnull
  | JBool b => Hbool b
  | JNum n => Hnum n
  | JStr s => Hstr s
  | JArr l =>
      Harr l ((fix go l := match l return Forall P l with
               | [] => Forall_nil_2 P
               | x :: l => Forall_cons_2 P x l (json_ind' x) (go l)
               end) l)
  | JObj m =>
      Hobj m ((fix go m := match m return Forall (fun p => P p.2) m with
               | [] => Forall_nil_2 _
               | (k, x) :: m => Forall_cons_2 (fun p => P p.2) (k, x) m (json_ind' x) (go m)
               end) m)
  end.
End json_ind.

Section json_facts.
Context `{L : SerdeNumberLaws}.

Lemma json_eqb_refl v : json_eqb v v = true.
Proof.
  induction v as [|b|n|s|l IH|m IH] using json_ind'; cbn; try done.
  - by destruct b.
  - apply number_eqb_refl.
  - by rewrite bool_decide_eq_true_2.
  - induction IH as [|x l Hx _ IH]; [done|]. by rewrite Hx.
  - induction IH as [|[k x] m Hx _ IH]; [done|]. cbn in Hx.
    by rewrite bool_decide_eq_true_2, Hx.
Qed.

Lemma json_eqb_sym v w : json_eqb v w = json_eqb w v.
Proof.
  revert w. induction v as [|b|n|s|l IH|m IH] using json_ind'; intros w; destruct w; cbn; try done.
  - by destruct b, b0.
  - apply number_eqb_sym.
  - by apply bool_decide_ext.
  - revert l0. induction IH as [|x l Hx _ IH]; intros [|y l']; try done. by rewrite Hx, IH.
  - revert m0. induction IH as [|[k x] m Hx _ IH]; intros [|[k' y] m']; try done.
    cbn in Hx. rewrite Hx, IH. do 2 f_equal. by apply bool_decide_ext.
Qed.

(** Equality on a string decides to plain equality. *)
Lemma json_eqb_str v s : json_eqb v (JStr s) = true <-> v = JStr s.
Proof.
  destruct v; cbn; split; try done.
  - by intros ->%bool_decide_eq_true.
  - intros [= ->]. by apply bool_decide_eq_true_2.
Qed.
End json_facts.

(** ** One implementation: unsigned, negative and floating numbers *)

Inductive plain_num : Type :=
  | PosInt (n : Z)
  | NegInt (n : Z)
  | Float (x : f64).

#[export] Instance plain_num_eq_dec : EqDecision plain_num.
Proof. solve_decision. Defined.

(** A [Float] holds a finite value; the others are 64-bit integers. *)
Definition plain_num_ok (n : plain_num) : bool :=
  match n with
  | PosInt n => (0 <=? n)%Z && (n <? 2 ^ 64)%Z
  | NegInt n => (- 2 ^ 63 <=? n)%Z && (n <? 0)%Z
  | Float x => is_finite x && f64_valid x
  end.

Definition plain_f64 (n : plain_num) : f64 :=
  match n with PosInt n => f64_of_Z n | NegInt n => f64_of_Z n | Float x => x end.

Definition plain_number_type : Type := { n : plain_num | plain_num_ok n = true }.

#[export] Instance plain_number_type_eq_dec : EqDecision plain_number_type.
Proof.
  intros [n Hn] [m Hm]. destruct (decide (n = m)) as [->|Hne]; [left|right; by intros [=]].
  f_equal. apply (proof_irrel Hn Hm).
Defined.

Definition plain_number : SerdeNumber := {|
  number := plain_number_type;
  number_eqb a b :=
    match `a, `b with
    | PosInt x, PosInt y => (x =? y)%Z
    | NegInt x, NegInt y => (x =? y)%Z
    | Float x, Float y => feq x y
    | _, _ => false
    end;
  as_f64 n :=
    let x := plain_f64 (`n) in
    if is_finite x && f64_valid x then Some x else None;
  from_f64 x :=
    match bool_dec (plain_num_ok (Float x)) true with
    | left H => Some (exist _ (Float x) H)
    | right _ => None
    end;
  num_is_int n := match `n with Float _ => false | _ => true end;
|}.

Lemma feq_refl x : is_nan x = false -> feq x x = true.
Proof.
  destruct x as [s|s| |s m e]; cbn; try done; unfold feq, SFeqb, SFcompare; [by destruct s|].
  intros _. rewrite Z.compare_refl. destruct s; by rewrite Pos.compare_cont_refl.
Qed.

Lemma feq_sym x y : feq x y = feq y x.
Proof.
  unfold feq, SFeqb, SFcompare.
  destruct x as [s|s| |s m e], y as [s'|s'| |s' m' e']; try done;
    try (by destruct s, s'); try (by destruct s); try by destruct s'.
  destruct s, s'; try done; rewrite (Z.compare_antisym e e'); destruct (e ?= e')%Z eqn:E; cbn; try done.
  all: change (Pos.compare_cont Eq ?a ?b) with (Pos.compare a b).
  all: rewrite (Pos.compare_antisym m m'); by destruct (m ?= m')%positive.
Qed.

#[export] Instance plain_number_laws : SerdeNumberLaws plain_number.
Proof.
  split.
  - intros [[n|n|x] H]; cbn in *; [apply Z.eqb_refl|apply Z.eqb_refl|].
    apply feq_refl. apply andb_prop in H as [H _]. by destruct x.
  - intros [[n|n|x] H] [[m|m|y] H']; cbn; first [done|apply Z.eqb_sym|apply feq_sym].
  - intros n x. cbn. destruct (_ && _) eqn:E; [|done]. intros [= <-]. by apply andb_prop in E as [? ?].
  - intros x Hv. cbn [from_f64 plain_number].
    destruct (bool_dec _ _) as [H|H]; pose proof H as H2; cbn in H2; rewrite Hv, andb_true_r in H2;
      destruct (is_finite x); naive_solver.
  - intros x n. cbn. destruct (bool_dec _ _) as [H|H]; [|done]. intros [= <-].
    pose proof H as H2. cbn in H2 |- *. by rewrite H2.
Qed.
