(* ===== verification/RroTime.v ===== *)
(** * Timestamps and UUIDs (crates/rro-core/src/time.rs)

    The parser reads a byte list by index, as the Rust code does. The calendar
    arithmetic is compared with a reference calendar that counts the days of
    years and months one by one. *)
From S2P Require Import Prelude Floats.
#[local] Set Default Goal Selector "!".
Local Open Scope Z_scope.

(** [b.get(i) == Some(&c)] *)
Definition sep (b : bytes) (i : nat) (c : Z) : bool :=
  match b !! i with Some x => x =? c | None => false end.

(** The closure [num]: the decimal number in [b[a..e]]. *)
Definition num (b : bytes) (a e : nat) : option Z :=
  if (length b <? e)%nat then None
  else
    let part := take (e - a) (drop a b) in
    if existsb (fun c => negb (is_ascii_digit c)) part then None else Some (digits_value part).

(** The leading run of digits ([while i < b.len() && b[i].is_ascii_digit()]). *)
Fixpoint digit_run (b : bytes) : bytes :=
  match b with
  | c :: b => if is_ascii_digit c then c :: digit_run b else []
  | [] => []
  end.

(** [format!("{frac:0<3}")[..3]] *)
Definition pad_millis (frac : bytes) : bytes := take 3 (frac ++ repeat (ch "0") (3 - length frac)).

(** The optional fraction from byte 19 on: the milliseconds and the index
    after it. *)
Definition fraction (b : bytes) : option (Z * nat) :=
  if sep b 19 (ch ".") then
    let frac := digit_run (drop 20 b) in
    if bool_decide (frac = []) then None
    else Some (digits_value (pad_millis frac), (20 + length frac)%nat)
  else Some (0, 19%nat).

(** The offset in minutes at index [i], which must end the text. *)
Definition offset (b : bytes) (i : nat) : option Z :=
  match b !! i with
  | None => None
  | Some c =>
      if ((c =? ch "Z") || (c =? ch "z")) && (S i =? length b)%nat then Some 0
      else if (c =? ch "+") || (c =? ch "-") then
        if negb (length b =? i + 6)%nat || negb (sep b (i + 3) (ch ":")) then None
        else
          oh ← num b (i + 1) (i + 3);
          om ← num b (i + 4) (i + 6);
          if (23 <? oh) || (59 <? om) then None
          else
            let total := oh * 60 + om in
            Some (if c =? ch "-" then - total else total)
      else None
  end.

(** Days since 1970-01-01 of a civil date; [/] on [i64] truncates. *)
Definition days_from_civil (y m d : Z) : Z :=
  let y_adj := if m <=? 2 then y - 1 else y in
  let era := Z.quot (if 0 <=? y_adj then y_adj else y_adj - 399) 400 in
  let yoe := y_adj - era * 400 in
  let mp := Z.rem (m + 9) 12 in
  let doy := Z.quot (153 * mp + 2) 5 + d - 1 in
  let doe := yoe * 365 + Z.quot yoe 4 - Z.quot yoe 100 + doy in
  era * 146097 + doe - 719468.

Definition rfc3339_to_epoch_ms (b : bytes) : option Z :=
  if (length b <? 20)%nat then None else
  year ← num b 0 4;
  if negb (sep b 4 (ch "-")) then None else
  month ← num b 5 7;
  if negb (sep b 7 (ch "-")) then None else
  day ← num b 8 10;
  if negb (sep b 10 (ch "T") || sep b 10 (ch "t") || sep b 10 (ch " ")) then None else
  hour ← num b 11 13;
  if negb (sep b 13 (ch ":")) then None else
  minute ← num b 14 16;
  if negb (sep b 16 (ch ":")) then None else
  second ← num b 17 19;
  if negb ((1 <=? month) && (month <=? 12)) || negb ((1 <=? day) && (day <=? 31))
     || (23 <? hour) || (59 <? minute) || (60 <? second) then None else
  '(millis, i) ← fraction b;
  offset_min ← offset b i;
  let days := days_from_civil year month day in
  let secs := days * 86400 + hour * 3600 + minute * 60 + second - offset_min * 60 in
  Some (secs * 1000 + millis).

(** ** UUIDs *)

Definition nibble (c : Z) : option Z :=
  if is_ascii_digit c then Some (c - ch "0")
  else if (ch "a" <=? c) && (c <=? ch "f") then Some (c - ch "a" + 10)
  else if (ch "A" <=? c) && (c <=? ch "F") then Some (c - ch "A" + 10)
  else None.

(** The loop over [b.iter().enumerate()]: [i] is the index, [hi] the pending
    high nibble; the result is what is written to [out] from here on. *)
Fixpoint uuid_loop (i : nat) (hi : option Z) (b : bytes) : option bytes :=
  match b with
  | [] => Some []
  | c :: b =>
      if bool_decide (i = 8 \/ i = 13 \/ i = 18 \/ i = 23)%nat then uuid_loop (S i) hi b
      else
        n ← nibble c;
        match hi with
        | None => uuid_loop (S i) (Some n) b
        | Some h => out ← uuid_loop (S i) None b; Some (Z.lor (Z.shiftl h 4) n :: out)
        end
  end.

Definition parse_uuid_bytes (b : bytes) : option bytes :=
  if negb (length b =? 36)%nat || negb (sep b 8 (ch "-")) || negb (sep b 13 (ch "-"))
     || negb (sep b 18 (ch "-")) || negb (sep b 23 (ch "-")) then None
  else uuid_loop 0 None b.

Example rfc3339_epoch : rfc3339_to_epoch_ms (str "1970-01-02T01:01:01.001Z") = Some 90061001.
Proof. vm_compute. reflexivity. Qed.
Example rfc3339_modern : rfc3339_to_epoch_ms (str "2026-07-16T02:00:00+02:00") = Some 1784160000000.
Proof. vm_compute. reflexivity. Qed.
Example rfc3339_short_offset : rfc3339_to_epoch_ms (str "2026-07-16T00:00:00+2:00") = None.
Proof. vm_compute. reflexivity. Qed.
Example uuid_known :
  (fun u => (u !! 0%nat, u !! 15%nat)) <$> parse_uuid_bytes (str "550E8400-e29b-41d4-a716-446655440000")
  = Some (Some 85, Some 0).
Proof. vm_compute. reflexivity. Qed.

(** ** The reference calendar: proleptic Gregorian, counted day by day *)

Definition leap (y : Z) : bool :=
  (y mod 4 =? 0) && (negb (y mod 100 =? 0) || (y mod 400 =? 0)).

Definition days_in_month (y m : Z) : Z :=
  if m =? 2 then (if leap y then 29 else 28)
  else if (m =? 4) || (m =? 6) || (m =? 9) || (m =? 11) then 30 else 31.

(** Days of the years before year [n], and of the months before [m] of [y]. *)
Fixpoint days_before_year (n : nat) : Z :=
  match n with
  | O => 0
  | S n => days_before_year n + (if leap (Z.of_nat n) then 366 else 365)
  end.
Fixpoint days_before_month (y : Z) (m : nat) : Z :=
  match m with
  | O | S O => 0
  | S m => days_before_month y m + days_in_month y (Z.of_nat m)
  end.

(** Day 719528 of this count is 1970-01-01. *)
Definition epoch_day (y m d : Z) : Z :=
  days_before_year (Z.to_nat y) + days_before_month y (Z.to_nat m) + (d - 1) - 719528.

Lemma days_before_year_closed n :
  days_before_year n =
  365 * Z.of_nat n + (Z.of_nat n + 3) / 4 - (Z.of_nat n + 99) / 100 + (Z.of_nat n + 399) / 400.
Proof.
  induction n as [|n IH]; [done|]. cbn [days_before_year]. rewrite IH, Nat2Z.inj_succ.
  set (y := Z.of_nat n). clearbody y. clear. unfold leap.
  destruct (y mod 4 =? 0) eqn:E4, (y mod 100 =? 0) eqn:E1, (y mod 400 =? 0) eqn:E0;
    cbn [andb orb negb]; Z.div_mod_to_equations; lia.
Qed.

(** Days before month [m] of a year that is not leap. *)
Definition month_table (m : Z) : Z :=
  nth (Z.to_nat (m - 1)) [0; 31; 59; 90; 120; 151; 181; 212; 243; 273; 304; 334] 0.

Lemma month_cases (P : Z -> Prop) m :
  1 <= m <= 12 -> P 1 -> P 2 -> P 3 -> P 4 -> P 5 -> P 6 -> P 7 -> P 8 -> P 9 -> P 10 -> P 11 ->
  P 12 -> P m.
Proof.
  intros Hm. intros. assert (m = 1 \/ m = 2 \/ m = 3 \/ m = 4 \/ m = 5 \/ m = 6 \/ m = 7 \/ m = 8 \/
    m = 9 \/ m = 10 \/ m = 11 \/ m = 12) as Hc by lia.
  by repeat destruct Hc as [->|Hc]; [..|subst m].
Qed.

Lemma days_before_month_table y m :
  1 <= m <= 12 ->
  days_before_month y (Z.to_nat m) = month_table m + (if (3 <=? m) && leap y then 1 else 0).
Proof.
  intros Hm. pattern m. eapply month_cases; [exact Hm|..].
  all: cbv -[leap]; by destruct (leap y).
Qed.

Lemma hinnant_doy m d :
  1 <= m <= 12 ->
  Z.quot (153 * Z.rem (m + 9) 12 + 2) 5 + d - 1 =
  month_table m + d - 1 + (if m <=? 2 then 306 else -59).
Proof. intros Hm. pattern m. eapply month_cases; [exact Hm|..]; vm_compute (Z.quot _ 5); vm_compute (month_table _); cbn [Z.leb Z.compare Pos.compare Pos.compare_cont]; lia. Qed.

(** The 400-year cycle of the algorithm: the days of the [y'] years before. *)
Lemma hinnant_era y' :
  -1 <= y' ->
  let era := Z.quot (if 0 <=? y' then y' else y' - 399) 400 in
  let yoe := y' - era * 400 in
  era * 146097 + (yoe * 365 + Z.quot yoe 4 - Z.quot yoe 100) =
  365 * y' + y' / 4 - y' / 100 + y' / 400.
Proof.
  intros Hy era yoe.
  assert (era = y' / 400) as He.
  { subst era. destruct (0 <=? y') eqn:E.
    - apply Z.quot_div_nonneg; lia.
    - by replace y' with (-1) by lia. }
  assert (0 <= yoe < 400) as Hr by (subst yoe; rewrite He; Z.div_mod_to_equations; lia).
  rewrite !Z.quot_div_nonneg by lia. clearbody era. subst era yoe.
  Z.div_mod_to_equations. lia.
Qed.

Lemma leap_days y :
  (y + 3) / 4 - (y + 99) / 100 + (y + 399) / 400 + (if leap y then 1 else 0) =
  y / 4 - y / 100 + y / 400 + 1.
Proof.
  unfold leap. destruct (y mod 4 =? 0) eqn:E4, (y mod 100 =? 0) eqn:E1, (y mod 400 =? 0) eqn:E0;
    cbn [andb orb negb]; Z.div_mod_to_equations; lia.
Qed.

Lemma common_days y :
  (y + 3) / 4 - (y + 99) / 100 + (y + 399) / 400 = (y - 1) / 4 - (y - 1) / 100 + (y - 1) / 400 + 1.
Proof. Z.div_mod_to_equations. lia. Qed.

Lemma days_from_civil_epoch y m d :
  0 <= y -> 1 <= m <= 12 -> days_from_civil y m d = epoch_day y m d.
Proof.
  intros Hy Hm. unfold epoch_day. rewrite days_before_year_closed, Z2Nat.id by done.
  rewrite days_before_month_table by done. unfold days_from_civil.
  rewrite hinnant_doy by done. pose proof (leap_days y). pose proof (common_days y).
  set (y' := if m <=? 2 then y - 1 else y) in *.
  pose proof (hinnant_era y' ltac:(subst y'; destruct (m <=? 2); lia)) as Hera.
  cbv zeta in *. set (era := Z.quot _ 400) in *. subst y'.
  destruct (m <=? 2) eqn:E2.
  - rewrite (proj2 (Z.leb_gt 3 m)) in * by lia. cbn [andb]. lia.
  - rewrite (proj2 (Z.leb_le 3 m)) in * by lia. cbn [andb]. destruct (leap y); lia.
Qed.

(** ** Numbers *)

Lemma digits_value_bounds_acc d acc :
  forallb is_ascii_digit d = true ->
  acc * 10 ^ Z.of_nat (length d) <= fold_left (fun acc c => acc * 10 + (c - 48)) d acc
    < (acc + 1) * 10 ^ Z.of_nat (length d).
Proof.
  revert acc. induction d as [|c d IH]; intros acc; cbn [forallb fold_left length].
  - intros _. change (10 ^ Z.of_nat 0) with 1. lia.
  - intros [Hc Hd]%andb_prop. specialize (IH (acc * 10 + (c - 48)) Hd).
    unfold is_ascii_digit in Hc. rewrite Nat2Z.inj_succ, Z.pow_succ_r by lia.
    pose proof (Z.pow_pos_nonneg 10 (Z.of_nat (length d)) ltac:(lia) ltac:(lia)). nia.
Qed.

Lemma num_bounds b a e v : num b a e = Some v -> 0 <= v < 10 ^ Z.of_nat (e - a).
Proof.
  unfold num. destruct (length b <? e)%nat eqn:El; [done|].
  destruct (existsb _ _) eqn:Ed; [done|]. intros [= <-].
  set (part := take (e - a) (drop a b)) in *.
  assert (forallb is_ascii_digit part = true) as Hd.
  { apply forallb_forall. intros x Hx. apply not_true_iff_false in Ed.
    destruct (is_ascii_digit x) eqn:E; [done|]. exfalso. apply Ed, existsb_exists.
    exists x. by rewrite E. }
  pose proof (digits_value_bounds_acc part 0 Hd) as Hb. unfold digits_value.
  assert (length part <= e - a)%nat as Hl by (subst part; rewrite length_take; lia).
  pose proof (Z.pow_le_mono_r 10 (Z.of_nat (length part)) (Z.of_nat (e - a)) ltac:(lia) ltac:(lia)).
  lia.
Qed.

Lemma digit_run_digits b : forallb is_ascii_digit (digit_run b) = true.
Proof. induction b as [|c b IH]; cbn; [done|]. destruct (is_ascii_digit c) eqn:E; cbn; by rewrite ?E. Qed.

Lemma fraction_bounds b ms i : fraction b = Some (ms, i) -> 0 <= ms < 1000.
Proof.
  unfold fraction. destruct (sep _ _ _); [|intros [= <- <-]; lia].
  case_bool_decide as Hne; [done|]. intros [= <- _].
  set (frac := digit_run (drop 20 b)) in *. unfold pad_millis.
  set (p := take 3 _).
  assert (forallb is_ascii_digit p = true) as Hd.
  { apply forallb_forall. intros x Hx%list_elem_of_In. subst p.
    apply elem_of_take in Hx as (n & Hx & _). apply list_elem_of_lookup_2 in Hx.
    apply elem_of_app in Hx as [Hx|Hx].
    - pose proof (digit_run_digits (drop 20 b)) as Hf. rewrite forallb_forall in Hf.
      by apply Hf, list_elem_of_In.
    - apply list_elem_of_In, repeat_spec in Hx as ->. done. }
  pose proof (digits_value_bounds_acc p 0 Hd) as Hb. unfold digits_value.
  assert (length p <= 3)%nat by (subst p; rewrite length_take; lia).
  pose proof (Z.pow_le_mono_r 10 (Z.of_nat (length p)) 3 ltac:(lia) ltac:(lia)). lia.
Qed.

Lemma offset_bounds b i o : offset b i = Some o -> -1439 <= o <= 1439.
Proof.
  unfold offset. destruct (b !! i) as [c|]; [|done].
  destruct (_ && _); [intros [= <-]; lia|]. destruct (_ || _); [|done].
  destruct (_ || _); [done|].
  destruct (num b (i + 1) (i + 3)) as [oh|] eqn:Eh; [|done]. cbn [mbind option_bind].
  destruct (num b (i + 4) (i + 6)) as [om|] eqn:Em; [|done]. cbn [mbind option_bind].
  apply num_bounds in Eh, Em. destruct (_ || _) eqn:E; [done|].
  apply orb_false_elim in E as [? ?]. intros [= <-]. destruct (c =? ch "-"); lia.
Qed.

(** Step over a bind, or over a guard, of the parser. *)
Ltac next_num :=
  match goal with |- mbind _ ?x = _ -> _ => destruct x eqn:?; [|done] end; cbn [mbind option_bind].
Ltac next_if := match goal with |- (if ?x then _ else _) = _ -> _ => destruct x eqn:?; [done|] end.

(** What an accepted timestamp is made of. *)
Lemma rfc3339_inv b ms :
  rfc3339_to_epoch_ms b = Some ms ->
  exists y mo d h mi s fr off,
    0 <= y <= 9999 /\ 1 <= mo <= 12 /\ 1 <= d <= 31 /\ 0 <= h <= 23 /\ 0 <= mi <= 59 /\
    0 <= s <= 60 /\ 0 <= fr < 1000 /\ -1439 <= off <= 1439 /\
    ms = (days_from_civil y mo d * 86400 + h * 3600 + mi * 60 + s - off * 60) * 1000 + fr.
Proof.
  unfold rfc3339_to_epoch_ms. destruct (length b <? 20)%nat; [done|].
  next_num. next_if. next_num. next_if. next_num. next_if. next_num. next_if. next_num. next_if.
  next_num. next_if. next_num. destruct p as [fr i]. next_num. intros [= <-].
  repeat match goal with H : num _ _ _ = Some _ |- _ => apply num_bounds in H; cbn in H end.
  match goal with H : fraction _ = _ |- _ => apply fraction_bounds in H end.
  match goal with H : offset _ _ = _ |- _ => apply offset_bounds in H end.
  repeat match goal with H : _ || _ = false |- _ => apply orb_false_elim in H as [? ?] end.
  repeat match goal with H : negb _ = false |- _ => apply negb_false_iff in H end.
  repeat match goal with H : _ && _ = true |- _ => apply andb_prop in H as [? ?] end.
  do 8 eexists. split_and!; [..|reflexivity]; lia.
Qed.

Lemma epoch_day_bounds y m d :
  0 <= y <= 9999 -> 1 <= m <= 12 -> 1 <= d <= 31 -> -719528 <= epoch_day y m d <= 2932896.
Proof.
  intros Hy Hm Hd. unfold epoch_day. rewrite days_before_year_closed, Z2Nat.id by lia.
  rewrite days_before_month_table by done.
  assert (0 <= month_table m <= 334) as Hmt
    by (pattern m; eapply month_cases; [exact Hm|..]; by vm_compute).
  pose proof (leap_days y) as Hl. pose proof (common_days y) as Hc.
  assert (0 <= y / 4 - y / 100 + y / 400 <= 2424) by (Z.div_mod_to_equations; lia).
  destruct (3 <=? m) eqn:E3; cbn [andb].
  - destruct (leap y); lia.
  - assert (month_table m <= 31).
    { assert (m = 1 \/ m = 2) as [-> | ->] by lia; by vm_compute. }
    Z.div_mod_to_equations. lia.
Qed.

(** ** Writing a timestamp *)

Definition dg (x : Z) : Z := 48 + x.
Definition fmt2 (n : Z) : bytes := [dg (n / 10); dg (n mod 10)].
Definition fmt3 (n : Z) : bytes := dg (n / 100) :: fmt2 (n mod 100).
Definition fmt4 (n : Z) : bytes := fmt2 (n / 100) ++ fmt2 (n mod 100).

(** A zone: [None] is [Z], otherwise a sign and hours and minutes. *)
Definition fmt_zone (tz : option (bool * Z * Z)) : bytes :=
  match tz with
  | None => [ch "Z"]
  | Some (neg, oh, om) => (if neg : bool then ch "-" else ch "+") :: fmt2 oh ++ ch ":" :: fmt2 om
  end.
Definition zone_minutes (tz : option (bool * Z * Z)) : Z :=
  match tz with
  | None => 0
  | Some (neg, oh, om) => if neg : bool then - (oh * 60 + om) else oh * 60 + om
  end.

Definition fmt_rfc3339 (y mo d h mi s : Z) (ms : option Z) (tz : option (bool * Z * Z)) : bytes :=
  fmt4 y ++ ch "-" :: fmt2 mo ++ ch "-" :: fmt2 d ++ ch "T" ::
  fmt2 h ++ ch ":" :: fmt2 mi ++ ch ":" :: fmt2 s ++
  match ms with Some m => ch "." :: fmt3 m | None => [] end ++ fmt_zone tz.

Lemma dg_digit x : 0 <= x <= 9 -> is_ascii_digit (dg x) = true.
Proof. unfold is_ascii_digit, dg. lia. Qed.

Lemma two_digits n : 0 <= n <= 99 -> 0 <= n / 10 <= 9 /\ 0 <= n mod 10 <= 9 /\ n / 10 * 10 + n mod 10 = n.
Proof. Z.div_mod_to_equations. lia. Qed.

Lemma fmt2_digits n : 0 <= n <= 99 -> forallb is_ascii_digit (fmt2 n) = true.
Proof. intros (? & ? & _)%two_digits. cbn. by rewrite !dg_digit. Qed.

Lemma fold_fmt2 n acc :
  0 <= n <= 99 -> fold_left (fun acc c => acc * 10 + (c - 48)) (fmt2 n) acc = acc * 100 + n.
Proof. intros (? & ? & ?)%two_digits. cbn [fmt2 fold_left]. unfold dg. lia. Qed.

(** A field of digits read back at its place. *)
Lemma num_field p x q i e :
  i = length p -> e = (i + length x)%nat -> forallb is_ascii_digit x = true ->
  num (p ++ x ++ q) i e = Some (digits_value x).
Proof.
  intros -> -> Hx. unfold num. rewrite !length_app, (proj2 (Nat.ltb_ge _ _)) by lia.
  rewrite drop_app_length, (take_app_length' x q) by lia.
  destruct (existsb _ x) eqn:E; [|done]. apply existsb_exists in E as (c & Hc & Hn).
  rewrite forallb_forall in Hx. by rewrite (Hx c Hc) in Hn.
Qed.

Lemma num_fmt2 p n q i e :
  i = length p -> e = (i + 2)%nat -> 0 <= n <= 99 -> num (p ++ fmt2 n ++ q) i e = Some n.
Proof.
  intros Hi He Hn. rewrite num_field by (done || by apply fmt2_digits).
  unfold digits_value. by rewrite fold_fmt2.
Qed.

Lemma num_fmt4 n q : 0 <= n <= 9999 -> num (fmt4 n ++ q) 0 4 = Some n.
Proof.
  intros Hn. assert (0 <= n / 100 <= 99 /\ 0 <= n mod 100 <= 99 /\ n / 100 * 100 + n mod 100 = n)
    as (H1 & H2 & H3) by (Z.div_mod_to_equations; lia).
  change (fmt4 n ++ q) with ([] ++ fmt4 n ++ q). rewrite num_field; [|done|done|].
  - unfold digits_value, fmt4. rewrite fold_left_app, !fold_fmt2 by done. f_equal. lia.
  - unfold fmt4. by rewrite forallb_app, !fmt2_digits.
Qed.

Lemma sep_at p c q i : i = length p -> sep (p ++ c :: q) i c = true.
Proof. intros ->. unfold sep. rewrite list_lookup_middle by done. apply Z.eqb_refl. Qed.

Lemma fmt_zone_offset p tz i :
  i = length p ->
  match tz with Some (_, oh, om) => 0 <= oh <= 23 /\ 0 <= om <= 59 | None => True end ->
  offset (p ++ fmt_zone tz) i = Some (zone_minutes tz).
Proof.
  intros -> Htz. unfold offset. destruct tz as [[[neg oh] om]|].
  - unfold fmt_zone. rewrite list_lookup_middle by done. destruct Htz as [Hh Hm].
    set (sgn := if neg then ch "-" else ch "+").
    assert ((sgn =? ch "Z") || (sgn =? ch "z") = false) as -> by (by destruct neg).
    assert ((sgn =? ch "+") || (sgn =? ch "-") = true) as -> by (by destruct neg).
    assert (sep (p ++ sgn :: fmt2 oh ++ ch ":" :: fmt2 om) (length p + 3) (ch ":") = true) as ->.
    { change (sgn :: fmt2 oh ++ ch ":" :: fmt2 om) with ((sgn :: fmt2 oh) ++ ch ":" :: fmt2 om).
      rewrite (app_assoc p). apply sep_at. rewrite length_app. done. }
    assert (num (p ++ sgn :: fmt2 oh ++ ch ":" :: fmt2 om) (length p + 1) (length p + 3) = Some oh) as ->.
    { change (sgn :: fmt2 oh ++ ch ":" :: fmt2 om) with ([sgn] ++ fmt2 oh ++ ch ":" :: fmt2 om).
      rewrite (app_assoc p). apply num_fmt2; rewrite ?length_app; cbn [length app fmt2]; lia. }
    assert (num (p ++ sgn :: fmt2 oh ++ ch ":" :: fmt2 om) (length p + 4) (length p + 6) = Some om) as ->.
    { change (sgn :: fmt2 oh ++ ch ":" :: fmt2 om) with ((sgn :: fmt2 oh ++ [ch ":"]) ++ fmt2 om ++ []).
      rewrite (app_assoc p). apply num_fmt2; rewrite ?length_app; cbn [length app fmt2]; lia. }
    cbn [andb]. rewrite length_app. cbn [length fmt2 app]. rewrite (proj2 (Nat.eqb_eq _ _)) by lia.
    cbn [andb orb negb mbind option_bind].
    rewrite (proj2 (Z.ltb_ge _ _)), (proj2 (Z.ltb_ge _ _)) by lia. cbn [orb]. by destruct neg.
  - unfold fmt_zone. rewrite list_lookup_middle by done. rewrite length_app. cbn [length].
    change ((ch "Z" =? ch "Z") || (ch "Z" =? ch "z")) with true. cbn [andb].
    rewrite (proj2 (Nat.eqb_eq _ _)) by lia. done.
Qed.

Definition fraction_text (ms : option Z) : bytes :=
  match ms with Some m => ch "." :: fmt3 m | None => [] end.

(** The fraction, when what follows it does not start with a digit. *)
Lemma fraction_at p ms c q :
  length p = 19%nat -> c <> ch "." -> is_ascii_digit c = false ->
  match ms with Some m => 0 <= m <= 999 | None => True end ->
  fraction (p ++ fraction_text ms ++ c :: q) =
  Some (default 0 ms, (19 + length (fraction_text ms))%nat).
Proof.
  intros Hp Hc Hd Hms. unfold fraction, fraction_text. destruct ms as [m|]; cbn [app].
  - rewrite sep_at by done.
    assert (drop 20 (p ++ ch "." :: fmt3 m ++ c :: q) = fmt3 m ++ c :: q) as ->.
    { rewrite drop_app_ge by lia. by rewrite Hp. }
    assert (0 <= m / 100 <= 9 /\ 0 <= m mod 100 <= 99 /\ m / 100 * 100 + m mod 100 = m)
      as (H1 & H2 & H3) by (Z.div_mod_to_equations; lia).
    pose proof (two_digits (m mod 100) H2) as (H4 & H5 & H6).
    assert (digit_run (fmt3 m ++ c :: q) = fmt3 m) as ->
      by (cbn; by rewrite !dg_digit, Hd by done).
    cbn. unfold dg. do 2 f_equal. lia.
  - unfold sep. rewrite list_lookup_middle by lia. by rewrite (proj2 (Z.eqb_neq _ _)).
Qed.

Lemma fmt_rfc3339_fields y mo d h mi s tl :
  0 <= y <= 9999 -> 0 <= mo <= 99 -> 0 <= d <= 99 -> 0 <= h <= 99 -> 0 <= mi <= 99 -> 0 <= s <= 99 ->
  let b := fmt4 y ++ ch "-" :: fmt2 mo ++ ch "-" :: fmt2 d ++ ch "T" ::
           fmt2 h ++ ch ":" :: fmt2 mi ++ ch ":" :: fmt2 s ++ tl in
  num b 0 4 = Some y /\ num b 5 7 = Some mo /\ num b 8 10 = Some d /\ num b 11 13 = Some h /\
  num b 14 16 = Some mi /\ num b 17 19 = Some s.
Proof.
  intros Hy Hmo Hd Hh Hmi Hs b. split; [by apply num_fmt4|]. subst b.
  set (p1 := fmt4 y ++ [ch "-"]). set (p2 := p1 ++ fmt2 mo ++ [ch "-"]).
  set (p3 := p2 ++ fmt2 d ++ [ch "T"]). set (p4 := p3 ++ fmt2 h ++ [ch ":"]).
  set (p5 := p4 ++ fmt2 mi ++ [ch ":"]).
  split; [exact (num_fmt2 p1 mo _ 5 7 eq_refl eq_refl Hmo)|].
  split; [exact (num_fmt2 p2 d _ 8 10 eq_refl eq_refl Hd)|].
  split; [exact (num_fmt2 p3 h _ 11 13 eq_refl eq_refl Hh)|].
  split; [exact (num_fmt2 p4 mi _ 14 16 eq_refl eq_refl Hmi)|].
  exact (num_fmt2 p5 s tl 17 19 eq_refl eq_refl Hs).
Qed.

Lemma parse_of_fields b y mo d h mi s fr i off :
  (20 <= length b)%nat ->
  num b 0 4 = Some y -> num b 5 7 = Some mo -> num b 8 10 = Some d -> num b 11 13 = Some h ->
  num b 14 16 = Some mi -> num b 17 19 = Some s ->
  sep b 4 (ch "-") = true -> sep b 7 (ch "-") = true -> sep b 10 (ch "T") = true ->
  sep b 13 (ch ":") = true -> sep b 16 (ch ":") = true ->
  1 <= mo <= 12 -> 1 <= d <= 31 -> h <= 23 -> mi <= 59 -> s <= 60 ->
  fraction b = Some (fr, i) -> offset b i = Some off ->
  rfc3339_to_epoch_ms b =
  Some ((days_from_civil y mo d * 86400 + h * 3600 + mi * 60 + s - off * 60) * 1000 + fr).
Proof.
  intros Hl H1 H2 H3 H4 H5 H6 S1 S2 S3 S4 S5 Hmo Hd Hh Hmi Hs Hf Ho. unfold rfc3339_to_epoch_ms.
  rewrite (proj2 (Nat.ltb_ge _ _)) by lia.
  rewrite H1, S1, H2, S2, H3, S3, H4, S4, H5, S5, H6. cbn [negb orb mbind option_bind].
  rewrite !(proj2 (Z.leb_le _ _)), !(proj2 (Z.ltb_ge _ _)) by lia. cbn [negb orb andb].
  rewrite Hf. cbn [mbind option_bind]. by rewrite Ho.
Qed.

Lemma zone_head tz : exists c q, fmt_zone tz = c :: q /\ c <> ch "." /\ is_ascii_digit c = false.
Proof. destruct tz as [[[[] oh] om]|]; cbn; eauto 10. Qed.

(** ** Writing a UUID: [up] chooses the case of the letters *)

Definition hexc (up : bool) (x : Z) : Z :=
  if x <=? 9 then 48 + x else if up then ch "A" + x - 10 else ch "a" + x - 10.
Definition hex2 (up : bool) (x : Z) : bytes := [hexc up (x / 16); hexc up (x mod 16)].
Definition hexes (up : bool) (bs : bytes) : bytes := concat (map (hex2 up) bs).
Definition fmt_uuid (up : bool) (bs : bytes) : bytes :=
  hexes up (take 4 bs) ++ ch "-" :: hexes up (take 2 (drop 4 bs)) ++ ch "-" ::
  hexes up (take 2 (drop 6 bs)) ++ ch "-" :: hexes up (take 2 (drop 8 bs)) ++ ch "-" ::
  hexes up (drop 10 bs).

Lemma nibble_hexc up x : 0 <= x <= 15 -> nibble (hexc up x) = Some x.
Proof.
  intros Hx. unfold nibble, hexc, is_ascii_digit.
  change (ch "0") with 48. change (ch "a") with 97. change (ch "f") with 102.
  change (ch "A") with 65. change (ch "F") with 70.
  destruct (x <=? 9) eqn:E; [|destruct up].
  all: repeat match goal with |- context [if ?c then _ else _] => destruct c eqn:? end; try lia.
  all: f_equal; lia.
Qed.

Lemma nibbles_byte x : 0 <= x < 256 -> Z.lor (Z.shiftl (x / 16) 4) (x mod 16) = x.
Proof.
  intros Hx.
  assert (forallb (fun x => Z.lor (Z.shiftl (x / 16) 4) (x mod 16) =? x) (seqZ 0 256) = true) as H
    by (vm_compute; reflexivity).
  rewrite forallb_forall in H. apply Z.eqb_eq, H, list_elem_of_In, elem_of_seqZ. lia.
Qed.

Definition no_dash (i : nat) : Prop := ~ (i = 8 \/ i = 13 \/ i = 18 \/ i = 23)%nat.

Lemma uuid_loop_byte i up x b :
  no_dash i -> no_dash (S i) -> 0 <= x < 256 ->
  uuid_loop i None (hex2 up x ++ b) = (out ← uuid_loop (S (S i)) None b; Some (x :: out)).
Proof.
  intros H1 H2 Hx. cbn [hex2 app uuid_loop]. rewrite !bool_decide_eq_false_2 by done.
  rewrite !nibble_hexc by (Z.div_mod_to_equations; lia). cbn [mbind option_bind].
  destruct (uuid_loop (S (S i)) None b); [|done]. cbn [mbind option_bind]. do 2 f_equal.
  by apply nibbles_byte.
Qed.

Lemma uuid_loop_hexes i up bs b :
  (forall k, (k < 2 * length bs)%nat -> no_dash (i + k)) -> Forall is_byte bs ->
  uuid_loop i None (hexes up bs ++ b) = (out ← uuid_loop (i + 2 * length bs) None b; Some (bs ++ out)).
Proof.
  revert i. induction bs as [|x bs IH]; intros i Hd Hb.
  - cbn. rewrite Nat.add_0_r. by destruct (uuid_loop i None b).
  - apply Forall_cons in Hb as [Hx Hb]. cbn [hexes map concat]. rewrite <- app_assoc.
    cbn [length] in *.
    pose proof (Hd 0%nat ltac:(lia)) as H0. pose proof (Hd 1%nat ltac:(lia)) as H1.
    rewrite Nat.add_0_r in H0. rewrite Nat.add_1_r in H1.
    rewrite uuid_loop_byte by done. fold (hexes up bs). rewrite IH; [|intros k Hk|done].
    + replace (S (S i) + 2 * length bs)%nat with (i + 2 * S (length bs))%nat by lia.
      by destruct (uuid_loop _ None b).
    + replace (S (S i) + k)%nat with (i + S (S k))%nat by lia. apply Hd. lia.
Qed.

Lemma uuid_loop_dash i b c :
  (i = 8 \/ i = 13 \/ i = 18 \/ i = 23)%nat -> uuid_loop i None (c :: b) = uuid_loop (S i) None b.
Proof. intros H. cbn [uuid_loop]. by rewrite bool_decide_eq_true_2. Qed.

Lemma length_hexes up bs : length (hexes up bs) = (2 * length bs)%nat.
Proof. induction bs as [|x bs IH]; [done|]. cbn [hexes map concat]. rewrite length_app. fold (hexes up bs). rewrite IH. cbn. lia. Qed.

Section Properties.

(** the calendar arithmetic is right: the day number the code computes for
    a date of any year from 0 on is the number of days counted year by year
    and month by month of the proleptic Gregorian calendar. *)
Theorem days_from_civil_correct (y m d : Z) :
  0 <= y -> 1 <= m <= 12 -> days_from_civil y m d = epoch_day y m d.
Proof. apply days_from_civil_epoch. Qed.

Lemma days_from_civil_correct_witness :
  days_from_civil 2024 2 29 = epoch_day 2024 2 29.
Proof. apply (days_from_civil_correct 2024 2 29); lia. Defined.

(** whatever the text, an accepted timestamp lies between the year 0 and
    the year 9999 widened by the largest offset: the 64-bit arithmetic of the
    parser never overflows. *)
Theorem rfc3339_in_range (b : bytes) (ms : Z) :
  rfc3339_to_epoch_ms b = Some ms -> -62167305540000 <= ms <= 253402387140999.
Proof.
  intros (y & mo & d & h & mi & s & fr & off & Hy & Hmo & Hd & Hh & Hmi & Hs & Hfr & Ho & ->)%rfc3339_inv.
  rewrite days_from_civil_epoch by lia. pose proof (epoch_day_bounds y mo d Hy Hmo Hd). lia.
Qed.

Lemma rfc3339_in_range_witness :
  -62167305540000 <= -62167305540000 <= 253402387140999.
Proof.
  apply (rfc3339_in_range (str "0000-01-01T00:00:00+23:59")). vm_compute. reflexivity.
Defined.

(** a timestamp written field by field, with or without milliseconds and
    in any zone, is read back as the instant it names: reference calendar
    day, time of day, minus the offset. *)
Theorem rfc3339_roundtrip (y mo d h mi s : Z) (ms : option Z) (tz : option (bool * Z * Z)) :
  0 <= y <= 9999 -> 1 <= mo <= 12 -> 1 <= d <= 31 ->
  0 <= h <= 23 -> 0 <= mi <= 59 -> 0 <= s <= 60 ->
  match ms with Some m => 0 <= m <= 999 | None => True end ->
  match tz with Some (_, oh, om) => 0 <= oh <= 23 /\ 0 <= om <= 59 | None => True end ->
  rfc3339_to_epoch_ms (fmt_rfc3339 y mo d h mi s ms tz) =
  Some ((epoch_day y mo d * 86400 + h * 3600 + mi * 60 + s - zone_minutes tz * 60) * 1000
        + default 0 ms).
Proof.
  intros Hy Hmo Hd Hh Hmi Hs Hms Htz. rewrite <- days_from_civil_epoch by lia.
  set (pre := fmt4 y ++ ch "-" :: fmt2 mo ++ ch "-" :: fmt2 d ++ ch "T" ::
         fmt2 h ++ ch ":" :: fmt2 mi ++ ch ":" :: fmt2 s).
  assert (fmt_rfc3339 y mo d h mi s ms tz = pre ++ fraction_text ms ++ fmt_zone tz) as E by done.
  destruct (fmt_rfc3339_fields y mo d h mi s (fraction_text ms ++ fmt_zone tz))
    as (F1 & F2 & F3 & F4 & F5 & F6); [lia..|].
  destruct (zone_head tz) as (c & q & Ez & Hc & Hdig).
  eapply (parse_of_fields _ _ _ _ _ _ _ _ (19 + length (fraction_text ms)));
    try eassumption; try reflexivity; try lia.
  - rewrite E, Ez, !length_app. cbn. lia.
  - rewrite E, Ez. by apply fraction_at.
  - rewrite E, app_assoc. apply fmt_zone_offset; [by rewrite length_app|done].
Qed.

Lemma rfc3339_roundtrip_witness :
  rfc3339_to_epoch_ms (fmt_rfc3339 2026 7 16 4 30 0 (Some 250) (Some (false, 2, 30)))
  = Some ((epoch_day 2026 7 16 * 86400 + 4 * 3600 + 30 * 60 + 0 - 150 * 60) * 1000 + 250).
Proof. apply (rfc3339_roundtrip 2026 7 16 4 30 0 (Some 250) (Some (false, 2, 30))); lia. Defined.

(** A position of a group of hex digits is no dash. *)
Ltac nd HL := first [done | rewrite ?HL; intros k Hk;
  match goal with H : forall i n : nat, _ |- _ => eapply H; [|exact Hk]; lia end].

(** a UUID written in the canonical 8-4-4-4-12 form, in either case, is
    read back to its sixteen bytes. *)
Theorem uuid_roundtrip (up : bool) (bs : bytes) :
  length bs = 16%nat -> Forall is_byte bs -> parse_uuid_bytes (fmt_uuid up bs) = Some bs.
Proof.
  intros Hl Hb.
  set (A := take 4 bs). set (B := take 2 (drop 4 bs)). set (C := take 2 (drop 6 bs)).
  set (D := take 2 (drop 8 bs)). set (E := drop 10 bs).
  assert (length A = 4 /\ length B = 2 /\ length C = 2 /\ length D = 2 /\ length E = 6)%nat
    as (LA & LB & LC & LD & LE).
  { subst A B C D E. rewrite ?length_take, !length_drop, Hl. lia. }
  assert (bs = A ++ B ++ C ++ D ++ E) as Hbs.
  { subst A B C D E. do 16 (destruct bs as [|? bs]; [done|]). by destruct bs. }
  assert (Forall is_byte A /\ Forall is_byte B /\ Forall is_byte C /\ Forall is_byte D /\
          Forall is_byte E) as (FA & FB & FC & FD & FE).
  { rewrite Hbs, !Forall_app in Hb. tauto. }
  assert (fmt_uuid up bs = hexes up A ++ ch "-" :: hexes up B ++ ch "-" :: hexes up C ++ ch "-" ::
            hexes up D ++ ch "-" :: hexes up E ++ []) as Ef by (by rewrite app_nil_r).
  assert (parse_uuid_bytes (fmt_uuid up bs) = uuid_loop 0 None (fmt_uuid up bs)) as ->.
  { clear -Hl. do 16 (destruct bs as [|? bs]; [done|]). by destruct bs. }
  assert (forall i n, (i = 0 /\ n = 8 \/ i = 9 /\ n = 4 \/ i = 14 /\ n = 4 \/ i = 19 /\ n = 4 \/
            i = 24 /\ n = 12)%nat -> forall k, (k < n)%nat -> no_dash (i + k)) as Hnd
    by (unfold no_dash; lia).
  rewrite Ef, uuid_loop_hexes by nd LA. rewrite LA.
  rewrite uuid_loop_dash by lia. rewrite uuid_loop_hexes by nd LB. rewrite LB.
  rewrite uuid_loop_dash by lia. rewrite uuid_loop_hexes by nd LC. rewrite LC.
  rewrite uuid_loop_dash by lia. rewrite uuid_loop_hexes by nd LD. rewrite LD.
  rewrite uuid_loop_dash by lia. rewrite uuid_loop_hexes by nd LE.
  cbn [uuid_loop mbind option_bind]. by rewrite app_nil_r, Hbs.
Qed.

Lemma uuid_roundtrip_witness :
  parse_uuid_bytes (fmt_uuid true (seqZ 240 16)) = Some (seqZ 240 16).
Proof.
  apply (uuid_roundtrip true (seqZ 240 16)); [reflexivity|].
  apply Forall_forall. intros x Hx%elem_of_seqZ. unfold is_byte. lia.
Defined.

(** The parser checks the day against 31 only: the 31st of February is read as
    the 3rd of March. *)
Lemma rfc3339_accepts_feb_31 :
  rfc3339_to_epoch_ms (str "2026-02-31T00:00:00Z") = rfc3339_to_epoch_ms (str "2026-03-03T00:00:00Z") /\
  rfc3339_to_epoch_ms (str "2026-02-31T00:00:00Z") <> None.
Proof. split; [by vm_compute|]. by vm_compute. Qed.

End Properties.
