(* ===== verification/Geo.v ===== *)
(** * Geospatial primitives (crates/rro-core/src/geo.rs)

    Coordinates are [f64]. The trigonometric functions of the Rust standard
    library promise no particular rounding; they are the interface [Libm]. *)
From Stdlib Require Import SpecFloat.
From S2P Require Import Prelude Floats Json.
#[local] Set Default Goal Selector "!".
Local Open Scope Z_scope.

Class Libm := {
  f_sin : f64 -> f64;
  f_cos : f64 -> f64;
  f_atan2 : f64 -> f64 -> f64;
  f_powi : f64 -> Z -> f64;
}.

(** A stand-in to evaluate the model on inputs that use no trigonometry. *)
Definition flat_libm : Libm :=
  {| f_sin x := x; f_cos _ := f64_of_Z 1; f_atan2 x _ := x; f_powi x _ := f64_mul x x |}.

(** A decimal literal [m * 10^e]. *)
Definition lit (neg : bool) (m e : Z) : f64 := f64_of_decimal neg m e.

(** [f64::max], [f64::min], [f64::clamp]: a NaN operand of [max] and [min] is
    ignored, and [clamp] returns it. *)
Definition f_max (x y : f64) : f64 :=
  if is_nan x then y else if is_nan y then x else if flt x y then y else x.
Definition f_min (x y : f64) : f64 :=
  if is_nan x then y else if is_nan y then x else if flt y x then y else x.
Definition f_clamp (x lo hi : f64) : f64 := if flt x lo then lo else if fgt x hi then hi else x.

(** [f64::round] then a cast to [u64]: half away from zero. *)
Definition f_round_u64 (x : f64) : Z :=
  match x with
  | S754_finite s m e =>
      let v := if 0 <=? e then Zpos m * 2 ^ e
               else (2 * Zpos m + 2 ^ (- e)) / (2 * 2 ^ (- e)) in
      if s then 0 else Z.min (2 ^ 64 - 1) v
  | S754_infinity s => if s then 0 else 2 ^ 64 - 1
  | _ => 0
  end.

Definition f_sqrt (x : f64) : f64 := SFsqrt f64_prec f64_emax x.
Definition f_to_radians (x : f64) : f64 :=
  f64_mul x (f64_div (lit false 3141592653589793 (-15)) (lit false 180 0)).

Definition EARTH_RADIUS_M : f64 := lit false 63710088 (-1).

Definition haversine_m `{Libm} (lat1 lon1 lat2 lon2 : f64) : f64 :=
  let p1 := f_to_radians lat1 in
  let p2 := f_to_radians lat2 in
  let dp := f_to_radians (f64_sub lat2 lat1) in
  let dl := f_to_radians (f64_sub lon2 lon1) in
  let two := lit false 2 0 in
  let a := f64_add (f_powi (f_sin (f64_div dp two)) 2)
             (f64_mul (f64_mul (f_cos p1) (f_cos p2)) (f_powi (f_sin (f64_div dl two)) 2)) in
  f64_mul (f64_mul two EARTH_RADIUS_M) (f_atan2 (f_sqrt a) (f_sqrt (f64_sub (lit false 1 0) a))).

(** [(lo..=hi).contains(&x)] *)
Definition in_closed (lo hi x : f64) : bool := fle lo x && fle x hi.

Definition point_of `{SerdeNumber} (v : Json) : option (f64 * f64) :=
  lat ← json_get (str "lat") v ≫= json_as_f64;
  lon ← json_get (str "lon") v ≫= json_as_f64;
  if negb (in_closed (lit true 90 0) (lit false 90 0) lat)
     || negb (in_closed (lit true 180 0) (lit false 180 0) lon)
  then None else Some (lat, lon).

(** ** The Morton code *)

Definition GEO_BITS : nat := 26.

Definition quantize (x lo hi : f64) : Z :=
  let max := 2 ^ Z.of_nat GEO_BITS - 1 in
  let t := f_clamp (f64_div (f64_sub x lo) (f64_sub hi lo)) f64_zero (lit false 1 0) in
  f_round_u64 (f64_mul t (f64_of_Z max)).

(** One turn of the loop of [interleave]. *)
Definition interleave_bit (a b out : Z) (i : nat) : Z :=
  let i := Z.of_nat i in
  let out := Z.lor out (Z.shiftl (Z.land (Z.shiftr a i) 1) (2 * i)) in
  Z.lor out (Z.shiftl (Z.land (Z.shiftr b i) 1) (2 * i + 1)).

Definition interleave (a b : Z) : Z := fold_left (interleave_bit a b) (seq 0 GEO_BITS) 0.

Definition morton (lat lon : f64) : Z :=
  interleave (quantize lat (lit true 90 0) (lit false 90 0))
             (quantize lon (lit true 180 0) (lit false 180 0)).

Definition radius_bbox `{Libm} (lat lon radius_m : f64) : (f64 * f64) * (f64 * f64) :=
  let M_PER_DEG_LAT := lit false 111320 0 in
  let dlat := f64_div radius_m M_PER_DEG_LAT in
  let dlon := f64_div radius_m
                (f64_mul M_PER_DEG_LAT (f_max (f_cos (f_to_radians lat)) (lit false 1 (-6)))) in
  ((f_max (f64_sub lat dlat) (lit true 90 0), f_max (f64_sub lon dlon) (lit true 180 0)),
   (f_min (f64_add lat dlat) (lit false 90 0), f_min (f64_add lon dlon) (lit false 180 0))).

Example interleave_small : interleave 5 3 = 27.
Proof. vm_compute. reflexivity. Qed.
Example quantize_corners :
  map (fun x => quantize x (lit true 90 0) (lit false 90 0)) [lit true 90 0; f64_zero; lit false 90 0]
  = [0; 2 ^ 25; 2 ^ 26 - 1].
Proof. vm_compute. reflexivity. Qed.

(** ** The code of the low [n] bits *)

Definition low_code (a b : Z) (n : nat) : Z := fold_left (interleave_bit a b) (seq 0 n) 0.

Definition bit (a : Z) (n : nat) : Z := Z.b2z (Z.testbit a (Z.of_nat n)).

Lemma land_shiftr_bit a i : Z.land (Z.shiftr a (Z.of_nat i)) 1 = bit a i.
Proof.
  rewrite Z.land_ones with (n := 1) by lia. change (2 ^ 1) with 2.
  rewrite <- Z.bit0_mod, Z.shiftr_spec by lia. by rewrite Z.add_0_l.
Qed.

Lemma bit_bounds a n : 0 <= bit a n <= 1.
Proof. unfold bit. destruct (Z.testbit _ _); cbn; lia. Qed.

Lemma interleave_bit_add a b out n :
  0 <= out < 4 ^ Z.of_nat n ->
  interleave_bit a b out n = out + (bit a n + 2 * bit b n) * 4 ^ Z.of_nat n.
Proof.
  intros Ho. unfold interleave_bit. rewrite !land_shiftr_bit. set (k := Z.of_nat n) in *.
  pose proof (bit_bounds a n). pose proof (bit_bounds b n).
  assert (2 ^ (2 * k) = 4 ^ k) as H2 by (rewrite Z.pow_mul_r by lia; done).
  assert (2 ^ (2 * k + 1) = 2 * 4 ^ k) as H3 by (rewrite Z.pow_add_r, H2 by lia; lia).
  rewrite (lor_shiftl_add out) by (rewrite ?H2; lia). rewrite lor_shiftl_add by (rewrite ?H2, ?H3; nia).
  rewrite H2, H3. lia.
Qed.

Lemma low_code_bounds a b n : 0 <= low_code a b n < 4 ^ Z.of_nat n.
Proof.
  induction n as [|n IH]; [by cbn|]. unfold low_code in *. rewrite seq_S, fold_left_app.
  cbn [fold_left Nat.add]. rewrite interleave_bit_add by done.
  pose proof (bit_bounds a n). pose proof (bit_bounds b n).
  rewrite Nat2Z.inj_succ, Z.pow_succ_r by lia. nia.
Qed.

Lemma low_code_S a b n :
  low_code a b (S n) = low_code a b n + (bit a n + 2 * bit b n) * 4 ^ Z.of_nat n.
Proof.
  pose proof (low_code_bounds a b n). unfold low_code in *. rewrite seq_S, fold_left_app.
  by apply interleave_bit_add.
Qed.

Lemma mod_pow_S a n :
  0 <= a -> a mod 2 ^ Z.of_nat (S n) = a mod 2 ^ Z.of_nat n + bit a n * 2 ^ Z.of_nat n.
Proof.
  intros Ha. rewrite Nat2Z.inj_succ, Z.pow_succ_r by lia.
  rewrite (Z.mul_comm 2), Z.rem_mul_r by lia. unfold bit. rewrite Z.testbit_odd, Z.shiftr_div_pow2 by lia.
  rewrite Zmod_odd. destruct (Z.odd _); cbn; lia.
Qed.

Lemma mod_pow_bounds a n : 0 <= a mod 2 ^ Z.of_nat n < 2 ^ Z.of_nat n.
Proof. apply Z.mod_pos_bound, Z.pow_pos_nonneg; lia. Qed.

(** The code compares two points that agree on one axis like the other one. *)
Lemma low_code_lt_a a a' b n :
  0 <= a -> 0 <= a' -> a mod 2 ^ Z.of_nat n < a' mod 2 ^ Z.of_nat n ->
  low_code a b n < low_code a' b n.
Proof.
  intros Ha Ha'. induction n as [|n IH]; [rewrite !Z.mod_1_r; lia|].
  rewrite !mod_pow_S, !low_code_S by done.
  pose proof (low_code_bounds a b n). pose proof (low_code_bounds a' b n).
  pose proof (bit_bounds a n). pose proof (bit_bounds a' n).
  pose proof (mod_pow_bounds a n). pose proof (mod_pow_bounds a' n).
  assert (bit a n = bit a' n \/ bit a n = 0 /\ bit a' n = 1 \/ bit a n = 1 /\ bit a' n = 0)
    as [E|[[E E']|[E E']]] by lia; rewrite E, ?E'; intros Hlt.
  - assert (low_code a b n < low_code a' b n) by (apply IH; lia). lia.
  - nia.
  - lia.
Qed.

Lemma low_code_lt_b a b b' n :
  0 <= b -> 0 <= b' -> b mod 2 ^ Z.of_nat n < b' mod 2 ^ Z.of_nat n ->
  low_code a b n < low_code a b' n.
Proof.
  intros Hb Hb'. induction n as [|n IH]; [rewrite !Z.mod_1_r; lia|].
  rewrite !mod_pow_S, !low_code_S by done.
  pose proof (low_code_bounds a b n). pose proof (low_code_bounds a b' n).
  pose proof (bit_bounds b n). pose proof (bit_bounds b' n).
  pose proof (mod_pow_bounds b n). pose proof (mod_pow_bounds b' n).
  assert (bit b n = bit b' n \/ bit b n = 0 /\ bit b' n = 1 \/ bit b n = 1 /\ bit b' n = 0)
    as [E|[[E E']|[E E']]] by lia; rewrite E, ?E'; intros Hlt.
  - assert (low_code a b n < low_code a b' n) by (apply IH; lia). lia.
  - nia.
  - lia.
Qed.

Lemma interleave_low a b : interleave a b = low_code a b GEO_BITS.
Proof. unfold interleave, low_code. reflexivity. Qed.

Lemma geo_mod a : 0 <= a < 2 ^ 26 -> a mod 2 ^ Z.of_nat GEO_BITS = a.
Proof. intros Ha. change (2 ^ Z.of_nat GEO_BITS) with (2 ^ 26). by apply Z.mod_small. Qed.

Lemma interleave_mono a a' b b' :
  0 <= a <= a' -> a' < 2 ^ 26 -> 0 <= b <= b' -> b' < 2 ^ 26 ->
  interleave a b <= interleave a' b'.
Proof.
  intros Ha Ha' Hb Hb'. rewrite !interleave_low. transitivity (low_code a' b GEO_BITS).
  - destruct (decide (a = a')) as [->|Hne]; [done|]. apply Z.lt_le_incl, low_code_lt_a; [lia..|].
    rewrite !geo_mod; lia.
  - destruct (decide (b = b')) as [->|Hne]; [done|]. apply Z.lt_le_incl, low_code_lt_b; [lia..|].
    rewrite !geo_mod; lia.
Qed.

(** A code of a corner of a box determines the corner. *)
Lemma low_code_inj a b a' b' n :
  0 <= a -> 0 <= a' -> 0 <= b -> 0 <= b' -> low_code a b n = low_code a' b' n ->
  a mod 2 ^ Z.of_nat n = a' mod 2 ^ Z.of_nat n /\ b mod 2 ^ Z.of_nat n = b' mod 2 ^ Z.of_nat n.
Proof.
  intros Ha Ha' Hb Hb'. induction n as [|n IH]; [by rewrite !Z.mod_1_r|].
  rewrite !mod_pow_S, !low_code_S by done.
  pose proof (low_code_bounds a b n). pose proof (low_code_bounds a' b' n).
  pose proof (bit_bounds a n). pose proof (bit_bounds a' n).
  pose proof (bit_bounds b n). pose proof (bit_bounds b' n). intros H7.
  assert (bit a n + 2 * bit b n = bit a' n + 2 * bit b' n) as E by nia.
  assert (bit a n = bit a' n /\ bit b n = bit b' n) as [-> ->] by lia.
  destruct IH as [-> ->]; [nia|done].
Qed.

Section Properties.

(** the Morton code is what the index scan needs: codes fit in 52 bits,
    distinct quantized points have distinct codes, and every point of a box
    has a code between the codes of its two corners, so one range scan visits
    the whole box. *)
Theorem interleave_box (a a' b b' qa qb : Z) :
  0 <= a <= qa -> qa <= a' < 2 ^ 26 -> 0 <= b <= qb -> qb <= b' < 2 ^ 26 ->
  interleave a b <= interleave qa qb <= interleave a' b' /\
  0 <= interleave qa qb < 2 ^ 52 /\
  (forall pa pb, 0 <= pa < 2 ^ 26 -> 0 <= pb < 2 ^ 26 ->
     interleave pa pb = interleave qa qb -> pa = qa /\ pb = qb).
Proof.
  intros Ha Ha' Hb Hb'. split; [split; apply interleave_mono; lia|]. split.
  - rewrite interleave_low. pose proof (low_code_bounds qa qb GEO_BITS) as Hc.
    change (4 ^ Z.of_nat GEO_BITS) with (2 ^ 52) in Hc. done.
  - intros pa pb Hpa Hpb. rewrite !interleave_low. intros H.
    apply low_code_inj in H; [|lia..]. rewrite !geo_mod in H by lia. done.
Qed.

Lemma interleave_box_witness :
  interleave 2 4 <= interleave 3 6 <= interleave 7 6 /\
  0 <= interleave 3 6 < 2 ^ 52 /\
  (forall pa pb, 0 <= pa < 2 ^ 26 -> 0 <= pb < 2 ^ 26 ->
     interleave pa pb = interleave 3 6 -> pa = 3 /\ pb = 6).
Proof. apply (interleave_box 2 7 4 6 3 6); lia. Defined.

End Properties.
