(* ===== verification/Query.v ===== *)
(** * The typed query contract (crates/rro-core/src/query.rs)

    Conditions over metadata, their boolean combination [Filter], and the
    retrieval request [EstateQuery] with its builders. *)
From S2P Require Import Prelude Floats ByteOrder Json RroTime Geo.
#[local] Set Default Goal Selector "!".
#[local] Set Warnings "-register-all".

Module Condition.
Inductive Condition `{SerdeNumber} : Type :=
  | Eq (key : bytes) (value : Json)
  | Any (key : bytes) (values : list Json)
  | Range (key : bytes) (gt gte lt lte : option f64)
  | DateRange (key : bytes) (gt gte lt lte : option bytes)
  | GeoRadius (key : bytes) (lat lon radius_m : f64)
  | GeoBox (key : bytes) (lat_min lon_min lat_max lon_max : f64)
  | Exists (key : bytes).
End Condition.
#[global] Arguments Condition.Condition {_}.

(** [bound.map(|b| test b).unwrap_or(true)] *)
Definition bound {A} (o : option A) (test : A -> bool) : bool :=
  match o with Some b => test b | None => true end.

Section query.
Context `{SerdeNumber} `{Libm}.
Import Condition.

Definition range (key : bytes) (gte lte : option f64) : Condition := Range key None gte None lte.
Definition date_range (key : bytes) (gte lte : option bytes) : Condition :=
  DateRange key None gte None lte.

(** [Condition::key] *)
Definition key (c : Condition) : bytes :=
  match c with
  | Eq key _ | Any key _ | Range key _ _ _ _ | DateRange key _ _ _ _
  | GeoRadius key _ _ _ | GeoBox key _ _ _ _ | Exists key => key
  end.

(** [Condition::matches] *)
Definition cond_matches (c : Condition) (metadata : Metadata) : bool :=
  match c with
  | Eq key value =>
      match metadata !! key with Some v => json_eqb v value | None => false end
  | Any key values =>
      match metadata !! key with Some v => existsb (fun e => json_eqb e v) values | None => false end
  | Range key gt gte lt lte =>
      match metadata !! key ≫= json_as_f64 with
      | Some x =>
          bound gt (fun b => fgt x b) && bound gte (fun b => fge x b)
          && bound lt (fun b => flt x b) && bound lte (fun b => fle x b)
      | None => false
      end
  | DateRange key gt gte lt lte =>
      match (metadata !! key ≫= json_as_str) ≫= rfc3339_to_epoch_ms with
      | Some x =>
          bound (gt ≫= rfc3339_to_epoch_ms) (fun b => (b <? x)%Z)
          && bound (gte ≫= rfc3339_to_epoch_ms) (fun b => (b <=? x)%Z)
          && bound (lt ≫= rfc3339_to_epoch_ms) (fun b => (x <? b)%Z)
          && bound (lte ≫= rfc3339_to_epoch_ms) (fun b => (x <=? b)%Z)
      | None => false
      end
  | GeoRadius key lat lon radius_m =>
      match metadata !! key ≫= point_of with
      | Some (plat, plon) => fle (haversine_m lat lon plat plon) radius_m
      | None => false
      end
  | GeoBox key lat_min lon_min lat_max lon_max =>
      match metadata !! key ≫= point_of with
      | Some (plat, plon) =>
          fge plat lat_min && fle plat lat_max && fge plon lon_min && fle plon lon_max
      | None => false
      end
  | Exists key => match metadata !! key with Some _ => true | None => false end
  end.

Record Filter : Type := mkFilter {
  must : list Condition;
  should : list Condition;
  must_not : list Condition;
}.

(** [Filter::default], [Filter::new] and the builders *)
Definition filter_default : Filter := mkFilter [] [] [].
Definition add_must (f : Filter) (c : Condition) : Filter :=
  mkFilter (must f ++ [c]) (should f) (must_not f).
Definition add_should (f : Filter) (c : Condition) : Filter :=
  mkFilter (must f) (should f ++ [c]) (must_not f).
Definition add_must_not (f : Filter) (c : Condition) : Filter :=
  mkFilter (must f) (should f) (must_not f ++ [c]).

Definition filter_is_empty (f : Filter) : bool :=
  bool_decide (length (must f) = 0 /\ length (should f) = 0 /\ length (must_not f) = 0).

(** [Filter::matches] *)
Definition filter_matches (f : Filter) (metadata : Metadata) : bool :=
  forallb (fun c => cond_matches c metadata) (must f)
  && (bool_decide (length (should f) = 0) || existsb (fun c => cond_matches c metadata) (should f))
  && negb (existsb (fun c => cond_matches c metadata) (must_not f)).

Definition filter_keys (f : Filter) : list bytes := map key (must f ++ should f ++ must_not f).

(** ** The request *)

Record SparseVector : Type := mkSparse { sp_indices : list Z; sp_values : list f32 }.
Record HybridWeights : Type := mkWeights { hw_dense : f32; hw_lexical : f32 }.
Definition weights_default : HybridWeights := mkWeights (f32_of_Z 1) (f32_of_Z 1).
Inductive FusionMode : Type := Rrf | Dbsf.

Inductive EstateQuery : Type := mkEstateQuery {
  q_text : option bytes;
  q_vector : option (list f32);
  q_sparse : option SparseVector;
  q_using : option bytes;
  q_collection : option bytes;
  q_multi : option (list (list f32));
  q_top_k : Z;
  q_filter : Metadata;
  q_dsl : option Filter;
  q_scope : option (list bytes);
  q_score_threshold : option f32;
  q_with_payload : bool;
  q_offset : Z;
  q_with_vectors : bool;
  q_highlight : bool;
  q_prefetch : list (EstateQuery * Z);
  q_fusion : HybridWeights;
  q_fusion_mode : FusionMode;
}.

Definition query_default : EstateQuery :=
  mkEstateQuery None None None None None None 0 ∅ None None None true 0 false false []
    weights_default Rrf.

(** [EstateQuery::effective_filter]: the typed filter, then one equality per
    pair of the legacy map in key order. *)
Definition effective_filter (q : EstateQuery) : Filter :=
  fold_left (fun f '(k, v) => add_must f (Eq k v)) (btree_iter (q_filter q))
    (default filter_default (q_dsl q)).
End query.
#[global] Arguments Filter {_}.
#[global] Arguments EstateQuery {_}.

(** ** Facts the clients of a filter use *)

Section facts.
Context `{SerdeNumber} `{Libm}.

Lemma filter_default_matches m : filter_matches filter_default m = true.
Proof. done. Qed.

Lemma add_must_matches f c m :
  filter_matches (add_must f c) m = filter_matches f m && cond_matches c m.
Proof.
  unfold filter_matches, add_must. cbn [must should must_not]. rewrite forallb_app. cbn.
  rewrite andb_true_r. by destruct (forallb _ _), (cond_matches c m), (_ || _), (negb _).
Qed.

Lemma add_must_not_matches f c m :
  filter_matches (add_must_not f c) m = filter_matches f m && negb (cond_matches c m).
Proof.
  unfold filter_matches, add_must_not. cbn [must should must_not]. rewrite existsb_app. cbn.
  rewrite orb_false_r, negb_orb. by rewrite andb_assoc.
Qed.

Lemma effective_filter_no_legacy q f :
  q_filter q = ∅ -> q_dsl q = Some f -> effective_filter q = f.
Proof. intros H1 H2. unfold effective_filter. by rewrite H1, H2. Qed.

(** The effective filter asks for the typed filter and every legacy pair. *)
Lemma fold_must_matches l f m :
  filter_matches (fold_left (fun f '(k, v) => add_must f (Condition.Eq k v)) l f) m =
  filter_matches f m && forallb (fun '(k, v) => cond_matches (Condition.Eq k v) m) l.
Proof.
  revert f. induction l as [|[k v] l IH]; intros f; cbn [fold_left forallb].
  - by rewrite andb_true_r.
  - by rewrite IH, add_must_matches, andb_assoc.
Qed.
End facts.

Section Properties.
Context `{SerdeNumber} `{Libm}.

(** the effective filter of a request accepts exactly the metadata that
    the typed filter accepts (everything, when there is none) and that carries
    every legacy pair with an equal value. *)
Theorem effective_filter_matches (q : EstateQuery) (m : Metadata) :
  filter_matches (effective_filter q) m = true <->
  (forall f, q_dsl q = Some f -> filter_matches f m = true) /\
  (forall k v, q_filter q !! k = Some v -> exists w, m !! k = Some w /\ json_eqb w v = true).
Proof.
  unfold effective_filter. rewrite fold_must_matches, andb_true_iff, forallb_forall.
  split; intros [H1 H2]; split.
  - intros f Hf. by rewrite Hf in H1.
  - intros k v Hk. apply elem_of_btree_iter, list_elem_of_In in Hk. specialize (H2 _ Hk).
    cbn in H2. destruct (m !! k) as [w|]; [by exists w|done].
  - destruct (q_dsl q) as [f|]; [by apply H1|done].
  - intros [k v] Hk%list_elem_of_In%elem_of_btree_iter. destruct (H2 k v Hk) as (w & Hw & He).
    cbn. by rewrite Hw.
Qed.

End Properties.
