(* ===== verification/QlLower.v ===== *)
(** * Lowering RRQL reads to the typed query
    (crates/rro-ql/src/lower.rs, [Value::to_json] of ast.rs, [parse_query] of
    lib.rs)

    The expression is a tree, the filter it is lowered to is flat. [eval] is
    what an expression means on a metadata map; the theorems say when the
    filter means the same. *)
From S2P Require Import Prelude Floats QlAst QlLexer QlParser ByteOrder Json RroTime Geo Query.
#[local] Set Default Goal Selector "!".

Section lower.
Context `{SerdeNumber} `{Libm}.

(** [Value::to_json] *)
Definition to_json (v : Value.Value) : Json :=
  match v with
  | Value.Str s => JStr s
  | Value.Num n => match from_f64 n with Some n => JNum n | None => JNull end
  | Value.Bool b => JBool b
  | Value.Null => JNull
  end.

Definition DEFAULT_LIMIT : Z := 10.

Inductive Slot : Type := Must | Should | MustNot.

Definition unsupported (what : bytes) : QlError := mkQlError (Unsupported what) (0, 0).

Definition leaf_condition (e : Expr.Expr) : result QlError Condition.Condition :=
  match e with
  | Expr.Eq key value => Ok (Condition.Eq key (to_json value))
  | Expr.Neq _ _ =>
      Err (unsupported (str "`!=` (write `NOT key = value`; Filter expresses inequality as must_not)"))
  | Expr.In key values => Ok (Condition.Any key (map to_json values))
  | Expr.Cmp key op value =>
      let '(gt, gte, lt, lte) :=
        match op with
        | CmpOp.Gt => (Some value, None, None, None)
        | CmpOp.Gte => (None, Some value, None, None)
        | CmpOp.Lt => (None, None, Some value, None)
        | CmpOp.Lte => (None, None, None, Some value)
        end in
      Ok (Condition.Range key gt gte lt lte)
  | Expr.Exists key => Ok (Condition.Exists key)
  | Expr.GeoRadius key lat lon radius_m => Ok (Condition.GeoRadius key lat lon radius_m)
  | Expr.GeoBox key lat_min lon_min lat_max lon_max =>
      Ok (Condition.GeoBox key lat_min lon_min lat_max lon_max)
  | Expr.And _ _ | Expr.Or _ _ | Expr.Not _ =>
      Err (unsupported (str "a compound expression where a condition was expected"))
  end.

(** The last arm of [lower_expr]. *)
Definition lower_leaf (e : Expr.Expr) (f : Filter) (slot : Slot) : result QlError Filter :=
  c ← leaf_condition e;
  Ok match slot with
     | Must => add_must f c
     | Should => add_should f c
     | MustNot => add_must_not f c
     end.

Fixpoint lower_expr (e : Expr.Expr) (f : Filter) (slot : Slot) : result QlError Filter :=
  match e with
  | Expr.And l r =>
      match slot with
      | Must => f ← lower_expr l f Must; lower_expr r f Must
      | _ => Err (unsupported (str "AND nested inside OR or NOT"))
      end
  | Expr.Or l r =>
      match slot with
      | Must =>
          if negb (bool_decide (length (must f) = 0)) || negb (bool_decide (length (must_not f) = 0))
          then Err (unsupported (str "OR combined with other clauses (Filter's `should` is a flat list with no nesting)"))
          else f ← lower_expr l f Should; lower_expr r f Should
      | Should => f ← lower_expr l f Should; lower_expr r f Should
      | MustNot => Err (unsupported (str "OR inside NOT"))
      end
  | Expr.Not inner =>
      match slot with
      | Must =>
          match inner with
          | Expr.And _ _ | Expr.Or _ _ | Expr.Not _ =>
              Err (unsupported (str "NOT applied to a compound expression"))
          | leaf => lower_expr leaf f MustNot
          end
      | _ => Err (unsupported (str "NOT nested inside OR"))
      end
  | leaf => lower_leaf leaf f slot
  end.

Definition lower_select (s : Select) : result QlError EstateQuery :=
  let top_k := default DEFAULT_LIMIT (sel_limit s) in
  let q dsl := mkEstateQuery None None None None (sel_from s) None top_k ∅ dsl None None true 0
                 false false [] weights_default Rrf in
  match sel_where s with
  | Some e => f ← lower_expr e filter_default Must; Ok (q (Some f))
  | None => Ok (q None)
  end.

Definition parse_query (src : bytes) : result perror EstateQuery :=
  match parse src with
  | Ok (Statement.Select s) =>
      match lower_select s with Ok q => Ok q | Err e => Err (Failed e) end
  | Ok other => Err (Failed (mkQlError (NotAQuery (Statement.keyword other)) (0, 0)))
  | Err e => Err e
  end.

(** ** What an expression means *)

Definition cmp_op (op : CmpOp.CmpOp) (x b : f64) : bool :=
  match op with
  | CmpOp.Gt => fgt x b
  | CmpOp.Gte => fge x b
  | CmpOp.Lt => flt x b
  | CmpOp.Lte => fle x b
  end.

Definition field_eq (m : Metadata) (key : bytes) (v : Value.Value) : bool :=
  match m !! key with Some w => json_eqb w (to_json v) | None => false end.

Fixpoint eval (e : Expr.Expr) (m : Metadata) : bool :=
  match e with
  | Expr.Eq key v => field_eq m key v
  | Expr.Neq key v => negb (field_eq m key v)
  | Expr.In key vs => existsb (field_eq m key) vs
  | Expr.Cmp key op b =>
      match m !! key ≫= json_as_f64 with Some x => cmp_op op x b | None => false end
  | Expr.Exists key => bool_decide (is_Some (m !! key))
  | Expr.GeoRadius key lat lon radius_m =>
      match m !! key ≫= point_of with
      | Some (plat, plon) => fle (haversine_m lat lon plat plon) radius_m
      | None => false
      end
  | Expr.GeoBox key lat_min lon_min lat_max lon_max =>
      match m !! key ≫= point_of with
      | Some (plat, plon) =>
          fge plat lat_min && fle plat lat_max && fge plon lon_min && fle plon lon_max
      | None => false
      end
  | Expr.And a b => eval a m && eval b m
  | Expr.Or a b => eval a m || eval b m
  | Expr.Not a => negb (eval a m)
  end.

(** How many disjunctions the conjuncts of an expression hold. *)
Fixpoint or_groups (e : Expr.Expr) : nat :=
  match e with
  | Expr.And a b => or_groups a + or_groups b
  | Expr.Or _ _ => 1
  | _ => 0
  end.
End lower.

(** ** A lowered expression, slot by slot *)

Section facts.
Context `{L : SerdeNumberLaws} `{Libm}.

Lemma leaf_condition_eval e c m : leaf_condition e = Ok c -> cond_matches c m = eval e m.
Proof.
  destruct e as [key v|key v|key vs|key op b|key|key la lo r|key a b c' d| | |]; cbn [leaf_condition];
    try done; try (intros [= <-]; cbn; done).
  - intros [= <-]. cbn. unfold field_eq. destruct (m !! key) as [w|].
    + induction vs as [|v vs IH]; cbn; [done|]. by rewrite IH, json_eqb_sym.
    + by induction vs.
  - destruct op; intros [= <-]; cbn; destruct (m !! key ≫= json_as_f64); cbn;
      by rewrite ?andb_true_r.
  - intros [= <-]. cbn. by destruct (m !! key); [rewrite bool_decide_eq_true_2|].
Qed.

Definition should_part (f : Filter) (m : Metadata) : bool :=
  existsb (fun c => cond_matches c m) (should f).
Definition conj_part (f : Filter) (m : Metadata) : bool :=
  forallb (fun c => cond_matches c m) (must f)
  && negb (existsb (fun c => cond_matches c m) (must_not f)).

Lemma matches_parts f m :
  filter_matches f m =
  conj_part f m && (bool_decide (length (should f) = 0) || should_part f m).
Proof.
  unfold filter_matches, conj_part, should_part.
  by destruct (forallb _ _), (bool_decide _ || _), (negb _).
Qed.

(** In the [should] slot only disjuncts are added, at least one. *)
Definition adds_should (f f' : Filter) (ev : Metadata -> bool) : Prop :=
  must f' = must f /\ must_not f' = must_not f /\ (length (should f) < length (should f'))%nat /\
  forall m, should_part f' m = should_part f m || ev m.

Lemma lower_leaf_should e f f' : lower_leaf e f Should = Ok f' -> adds_should f f' (eval e).
Proof.
  unfold lower_leaf. intros (c & Hc & [= <-])%bind_ok. unfold adds_should. cbn.
  rewrite length_app. cbn. do 2 (split; [done|]). split; [lia|].
  intros m. unfold should_part. cbn. rewrite existsb_app. cbn.
  by rewrite orb_false_r, (leaf_condition_eval e).
Qed.

Lemma lower_should e f f' : lower_expr e f Should = Ok f' -> adds_should f f' (eval e).
Proof.
  revert f f'. induction e as [| | | | | | |l IHl r IHr|l IHl r IHr|a IHa]; intros f f';
    try apply lower_leaf_should; [done| |done].
  cbn [lower_expr]. intros (f1 & (A1 & A2 & A3 & A4)%IHl & (B1 & B2 & B3 & B4)%IHr)%bind_ok.
  unfold adds_should. rewrite B1, B2. do 2 (split; [done|]). split; [lia|].
  intros m. by rewrite B4, A4, <- orb_assoc.
Qed.

(** A leaf in the other slots is one more conjunct. *)
Lemma lower_leaf_must e f f' :
  lower_leaf e f Must = Ok f' ->
  should f' = should f /\ forall m, conj_part f' m = conj_part f m && eval e m.
Proof.
  unfold lower_leaf. intros (c & Hc & [= <-])%bind_ok. split; [done|]. intros m.
  unfold conj_part. cbn. rewrite forallb_app. cbn. rewrite (leaf_condition_eval e), andb_true_r by done.
  by destruct (forallb _ _), (eval e m), (negb _).
Qed.

Lemma lower_leaf_must_not e f f' :
  lower_leaf e f MustNot = Ok f' ->
  should f' = should f /\ forall m, conj_part f' m = conj_part f m && negb (eval e m).
Proof.
  unfold lower_leaf. intros (c & Hc & [= <-])%bind_ok. split; [done|]. intros m.
  unfold conj_part. cbn. rewrite existsb_app. cbn. rewrite (leaf_condition_eval e), orb_false_r by done.
  by rewrite negb_orb, andb_assoc.
Qed.

(** What lowering a conjunct does: without a disjunction it only narrows the
    conjunctive part; with one, on an empty [should], the whole filter is
    narrowed by it. *)
Definition narrows (e : Expr.Expr) (f f' : Filter) : Prop :=
  (or_groups e = 0%nat -> should f' = should f /\ forall m, conj_part f' m = conj_part f m && eval e m) /\
  (or_groups e = 1%nat -> should f = [] ->
     should f' <> [] /\
     forall m, conj_part f' m && should_part f' m = conj_part f m && eval e m).

Lemma lower_must e f f' : lower_expr e f Must = Ok f' -> narrows e f f'.
Proof.
  revert f f'. induction e as [| | | | | | |l IHl r IHr|l IHl r IHr|a IHa]; intros f f';
    try (intros Hl%lower_leaf_must; split; [done|discriminate]).
  - cbn [lower_expr]. intros (f1 & [A0 A1]%IHl & [B0 B1]%IHr)%bind_ok. split; cbn [or_groups eval].
    + intros Hz. destruct A0 as [SA EA]; [lia|]. destruct B0 as [SB EB]; [lia|].
      split; [congruence|]. intros m. by rewrite EB, EA, andb_assoc.
    + intros Hone Hf. assert (or_groups l = 0 /\ or_groups r = 1 \/ or_groups l = 1 /\ or_groups r = 0)%nat
        as [[Hl Hr]|[Hl Hr]] by lia.
      * destruct (A0 Hl) as [SA EA]. destruct (B1 Hr) as [SB EB]; [congruence|].
        split; [done|]. intros m. by rewrite EB, EA, andb_assoc.
      * destruct (A1 Hl Hf) as [SA EA]. destruct (B0 Hr) as [SB EB]. split; [congruence|].
        intros m. unfold should_part. rewrite SB, EB. fold (should_part f1 m).
        rewrite andb_assoc, <- EA. by destruct (conj_part f1 m), (eval r m), (should_part f1 m).
  - cbn [lower_expr]. destruct (negb _ || negb _) eqn:E; [done|].
    apply orb_false_elim in E as [E1%negb_false_iff E2%negb_false_iff].
    apply bool_decide_eq_true, nil_length_inv in E1, E2.
    intros (f1 & (A1 & A2 & A3 & A4)%lower_should & (B1 & B2 & B3 & B4)%lower_should)%bind_ok.
    split; [done|]. intros _ Hf. rewrite Hf in A3. split.
    { intros Hs. rewrite Hs in B3. cbn in B3. lia. }
    intros m. unfold conj_part. rewrite B1, B2, A1, A2, E1, E2. cbn [forallb existsb negb andb].
    rewrite B4, A4. unfold should_part. by rewrite Hf.
  - cbn [lower_expr]. destruct a; try done; intros Hl%lower_leaf_must_not; split; done.
Qed.

Lemma lower_exact e f m :
  lower_expr e filter_default Must = Ok f -> (or_groups e <= 1)%nat -> filter_matches f m = eval e m.
Proof.
  intros [H0 H1]%lower_must Hg. rewrite matches_parts.
  destruct (or_groups e) as [|[|n]] eqn:E; [| |lia].
  - destruct H0 as [Hs Hc]; [done|]. rewrite Hs, Hc. cbn. by rewrite andb_true_r.
  - destruct H1 as [Hs Hc]; [done|done|].
    rewrite bool_decide_eq_false_2 by (by intros ?%nil_length_inv).
    cbn [orb]. rewrite Hc. done.
Qed.
End facts.

Section Properties.

(** C30: a text that [parse_query] accepts is a SELECT, and the request it
    returns asks for that SELECT: its limit (10 by default), its collection,
    and, when the condition holds at most one disjunction among its conjuncts,
    a filter that accepts exactly the metadata the condition is true of. *)
Theorem parse_query_exact `{SerdeNumberLaws} `{Libm} (src : bytes) (q : EstateQuery) :
  parse_query src = Ok q ->
  exists s, parse src = Ok (Statement.Select s) /\
    q_top_k q = default DEFAULT_LIMIT (sel_limit s) /\ q_collection q = sel_from s /\
    (sel_where s = None -> forall m, filter_matches (effective_filter q) m = true) /\
    (forall e, sel_where s = Some e -> (or_groups e <= 1)%nat ->
       forall m, filter_matches (effective_filter q) m = eval e m).
Proof.
  unfold parse_query. destruct (parse src) as [st|err]; [|done].
  destruct st as [s| | | | | | | |]; try done. intros Hq. exists s.
  unfold lower_select in Hq. destruct (sel_where s) as [e|]; cbn [mbind result_bind] in Hq.
  - destruct (lower_expr e filter_default Must) as [f|err] eqn:Hl; [|done].
    injection Hq as <-. do 4 (split; [done|]). intros e' [= <-] Hg m.
    rewrite (effective_filter_no_legacy _ f) by done. by apply lower_exact.
  - injection Hq as <-. do 3 (split; [done|]). split; [|done]. intros _ m.
    unfold effective_filter. cbn [q_filter q_dsl]. by vm_compute.
Qed.

Lemma parse_query_exact_witness :
  let src := str "SELECT * FROM docs WHERE lang = 'en' AND NOT EXISTS(draft) LIMIT 25" in
  exists q s, @parse_query plain_number src = Ok q /\ parse src = Ok (Statement.Select s) /\
    q_top_k q = default DEFAULT_LIMIT (sel_limit s) /\ q_collection q = sel_from s /\
    (sel_where s = None -> forall m, @filter_matches _ flat_libm (effective_filter q) m = true) /\
    (forall e, sel_where s = Some e -> (or_groups e <= 1)%nat ->
       forall m, @filter_matches _ flat_libm (effective_filter q) m = @eval _ flat_libm e m).
Proof.
  intros src.
  assert (is_ok (@parse_query plain_number src) = true) as Hok by (vm_compute; reflexivity).
  destruct (@parse_query plain_number src) as [q|e] eqn:E; [|discriminate Hok].
  exists q. destruct (@parse_query_exact plain_number plain_number_laws flat_libm src q E) as (s & Hs).
  exists s. split; [reflexivity|exact Hs].
Defined.

(** two disjunctions in a conjunction are accepted and answered as one:
    [(a = 'x' OR b = 'x') AND (c = 'x' OR d = 'x')] becomes a filter that
    accepts a record with [a = 'x'] alone, of which the condition is false. *)
Theorem lower_merges_two_disjunctions `{SerdeNumber} `{Libm} :
  exists q s e m,
    parse_query (str "SELECT * WHERE (a = 'x' OR b = 'x') AND (c = 'x' OR d = 'x')") = Ok q /\
    parse (str "SELECT * WHERE (a = 'x' OR b = 'x') AND (c = 'x' OR d = 'x')") = Ok (Statement.Select s) /\
    sel_where s = Some e /\ or_groups e = 2%nat /\
    filter_matches (effective_filter q) m = true /\ eval e m = false.
Proof.
  destruct (parse (str "SELECT * WHERE (a = 'x' OR b = 'x') AND (c = 'x' OR d = 'x')"))
    as [st|err] eqn:E; [|vm_compute in E; discriminate E].
  unfold parse_query. rewrite E. vm_compute in E. injection E as <-.
  do 2 eexists. exists (Expr.And
    (Expr.Or (Expr.Eq (str "a") (Value.Str (str "x"))) (Expr.Eq (str "b") (Value.Str (str "x"))))
    (Expr.Or (Expr.Eq (str "c") (Value.Str (str "x"))) (Expr.Eq (str "d") (Value.Str (str "x"))))).
  exists {[ str "a" := JStr (str "x") ]}.
  split; [reflexivity|]. split; [reflexivity|]. split; [reflexivity|]. split; [reflexivity|].
  split; vm_compute; reflexivity.
Qed.

End Properties.
