(* ===== verification/Utf8.v ===== *)
(** * UTF-8 and fixed-width integers as bytes

    [String::from_utf8_lossy] of the Rust standard library (each maximal
    invalid run of at most three bytes becomes U+FFFD), and the
    [to_be_bytes]/[to_le_bytes] family. *)
From S2P Require Import Prelude ByteOrder.
#[local] Set Default Goal Selector "!".
Local Open Scope Z_scope.

(** ** UTF-8 *)

Inductive utf8_unit : Type :=
  | Valid (n : nat)
  | Invalid (n : nat).

Definition between (lo hi : Z) (c : Z) : bool := (lo <=? c) && (c <=? hi).
Definition cont (s : bytes) (i : nat) : bool :=
  match s !! i with Some c => between 128 191 c | None => false end.
Definition second (s : bytes) (lo hi : Z) : bool :=
  match s !! 1%nat with Some c => between lo hi c | None => false end.

(** The character or the invalid run that starts a non-empty text. *)
Definition utf8_next (s : bytes) : utf8_unit :=
  match s with
  | [] => Invalid 0
  | c :: _ =>
      if c <? 128 then Valid 1
      else if between 194 223 c then (if cont s 1 then Valid 2 else Invalid 1)
      else if between 224 239 c then
        let ok := if c =? 224 then second s 160 191 else if c =? 237 then second s 128 159 else second s 128 191 in
        if ok then (if cont s 2 then Valid 3 else Invalid 2) else Invalid 1
      else if between 240 244 c then
        let ok := if c =? 240 then second s 144 191 else if c =? 244 then second s 128 143 else second s 128 191 in
        if ok then (if cont s 2 then (if cont s 3 then Valid 4 else Invalid 3) else Invalid 2) else Invalid 1
      else Invalid 1
  end.

Fixpoint lossy_loop (fuel : nat) (s : bytes) : bytes :=
  match s, fuel with
  | [], _ | _, O => []
  | _, S fuel =>
      match utf8_next s with
      | Valid n => take n s ++ lossy_loop fuel (drop n s)
      | Invalid n => [239; 191; 189] ++ lossy_loop fuel (drop n s)
      end
  end.
Definition from_utf8_lossy (s : bytes) : bytes := lossy_loop (length s) s.

Fixpoint valid_loop (fuel : nat) (s : bytes) : bool :=
  match s, fuel with
  | [], _ => true
  | _, O => false
  | _, S fuel =>
      match utf8_next s with
      | Valid n => valid_loop fuel (drop n s)
      | Invalid _ => false
      end
  end.
(** What a [String] holds. *)
Definition valid_utf8 (s : bytes) : bool := valid_loop (length s) s.

Lemma lossy_valid_loop n s : valid_loop n s = true -> lossy_loop n s = s.
Proof.
  revert s. induction n as [|n IH]; intros [|c s]; try done. cbn [valid_loop lossy_loop].
  destruct (utf8_next (c :: s)) as [k|k]; [|done]. intros H. by rewrite IH, take_drop.
Qed.

Lemma lossy_valid s : valid_utf8 s = true -> from_utf8_lossy s = s.
Proof. apply lossy_valid_loop. Qed.

(** ** Integers as bytes *)

Definition is_i64 (x : Z) : Prop := - 2 ^ 63 <= x < 2 ^ 63.

Fixpoint le_bytes (n : nat) (x : Z) : bytes :=
  match n with
  | O => []
  | S n => x mod 256 :: le_bytes n (x / 256)
  end.
Fixpoint from_le_bytes (b : bytes) : Z :=
  match b with
  | [] => 0
  | c :: b => c + 256 * from_le_bytes b
  end.
Definition be_bytes (n : nat) (x : Z) : bytes := rev (le_bytes n x).
Definition from_be_bytes (b : bytes) : Z := from_le_bytes (rev b).

Lemma length_le_bytes n x : length (le_bytes n x) = n.
Proof. revert x. induction n as [|n IH]; intros x; cbn; by rewrite ?IH. Qed.
Lemma length_be_bytes n x : length (be_bytes n x) = n.
Proof. unfold be_bytes. by rewrite length_rev, length_le_bytes. Qed.

Lemma le_bytes_range n x : Forall is_byte (le_bytes n x).
Proof.
  revert x. induction n as [|n IH]; intros x; cbn; [constructor|]. constructor; [|apply IH].
  apply Z.mod_pos_bound. lia.
Qed.

Lemma pow256_S n : 256 ^ Z.of_nat (S n) = 256 * 256 ^ Z.of_nat n.
Proof. by rewrite Nat2Z.inj_succ, Z.pow_succ_r by lia. Qed.

Lemma from_le_le_bytes n x : 0 <= x < 256 ^ Z.of_nat n -> from_le_bytes (le_bytes n x) = x.
Proof.
  revert x. induction n as [|n IH]; intros x Hx; [cbn in *; lia|].
  rewrite pow256_S in Hx. cbn [le_bytes from_le_bytes]. rewrite IH; Z.div_mod_to_equations; lia.
Qed.

Lemma from_be_be_bytes n x : 0 <= x < 256 ^ Z.of_nat n -> from_be_bytes (be_bytes n x) = x.
Proof. intros Hx. unfold from_be_bytes, be_bytes. rewrite rev_involutive. by apply from_le_le_bytes. Qed.

(** Big-endian bytes compare like the numbers. *)
Lemma be_bytes_S n x : be_bytes (S n) x = be_bytes n (x / 256) ++ [x mod 256].
Proof. done. Qed.

Lemma bcmp_be_bytes n x y :
  0 <= x < 256 ^ Z.of_nat n -> 0 <= y < 256 ^ Z.of_nat n ->
  bcmp (be_bytes n x) (be_bytes n y) = (x ?= y).
Proof.
  revert x y. induction n as [|n IH]; intros x y Hx Hy.
  - cbn in *. by replace y with x by lia; rewrite Z.compare_refl.
  - rewrite pow256_S in *. rewrite !be_bytes_S, bcmp_app_len by (by rewrite !length_be_bytes).
    rewrite IH by (Z.div_mod_to_equations; lia). cbn [bcmp].
    destruct (Z.compare_spec (x / 256) (y / 256)).
    + destruct (Z.compare_spec (x mod 256) (y mod 256)); symmetry;
        [apply Z.compare_eq_iff|apply Z.compare_lt_iff|apply Z.compare_gt_iff]; Z.div_mod_to_equations; lia.
    + symmetry. apply Z.compare_lt_iff. Z.div_mod_to_equations. lia.
    + symmetry. apply Z.compare_gt_iff. Z.div_mod_to_equations. lia.
Qed.

Lemma be_bytes_inj n x y :
  0 <= x < 256 ^ Z.of_nat n -> 0 <= y < 256 ^ Z.of_nat n -> be_bytes n x = be_bytes n y -> x = y.
Proof.
  intros Hx Hy E. apply Z.compare_eq. rewrite <- (bcmp_be_bytes n) by done. rewrite E. apply bcmp_refl.
Qed.
