(* ===== verification/Keys.v ===== *)
(** * Column families and key encodings (crates/connxism/src/keys.rs)

    Every encoder and decoder of the physical layout. A column family is a
    constructor of [CF]; a key is a byte list. *)
From S2P Require Import Prelude Floats ByteOrder Utf8 Json RroTime Geo.
#[local] Set Default Goal Selector "!".
Local Open Scope Z_scope.

Inductive CF : Type :=
  | CF_META | CF_NODES | CF_CONNS | CF_DOCS | CF_VECS | CF_TERMS | CF_TAGS | CF_TRENDS | CF_RELS
  | CF_FEED | CF_PIDX | CF_SPARSE | CF_NVECS | CF_MVECS | CF_COLL | CF_TDF | CF_GRAPH.

#[export] Instance CF_eq_dec : EqDecision CF.
Proof. solve_decision. Defined.

Definition COLUMN_FAMILIES : list CF :=
  [CF_META; CF_NODES; CF_CONNS; CF_DOCS; CF_VECS; CF_TERMS; CF_TAGS; CF_TRENDS; CF_RELS; CF_FEED;
   CF_PIDX; CF_SPARSE; CF_NVECS; CF_MVECS; CF_COLL; CF_TDF; CF_GRAPH].

Definition MAX_KEY_LEN : Z := 65536.
Definition key_too_long (key : bytes) : bool := MAX_KEY_LEN <? Z.of_nat (length key).

Definition META_DOC_COUNT : bytes := str "doc_count".
Definition META_TOTAL_TOKENS : bytes := str "total_tokens".
Definition META_SHAPES : bytes := str "shapes".
Definition META_FEED_SEQ : bytes := str "feed_seq".
Definition META_PIDX : bytes := str "payload_indexes".
Definition META_LEXSTATS : bytes := str "lexical_stats_v1".
Definition META_COLLECTIONS : bytes := str "collections".
Definition META_ALIASES : bytes := str "aliases".
Definition META_SCHEMA : bytes := str "schema".
Definition META_ESTATE : bytes := str "estate".

(** ** Compound keys *)

Definition SEP : Z := 0.

Definition compound (a b : bytes) : bytes := a ++ SEP :: b.
Definition prefix (a : bytes) : bytes := a ++ [SEP].

Definition tag_key (tag doc_id : bytes) : bytes := compound tag doc_id.
Definition tag_prefix (tag : bytes) : bytes := prefix tag.
Definition term_key (term doc_id : bytes) : bytes := compound term doc_id.
Definition term_prefix (term : bytes) : bytes := prefix term.
Definition coll_key (collection doc_id : bytes) : bytes := compound collection doc_id.
Definition coll_prefix (collection : bytes) : bytes := prefix collection.
Definition nvec_key (space doc_id : bytes) : bytes := compound space doc_id.
Definition nvec_prefix (space : bytes) : bytes := prefix space.

Definition trend_key (metric : bytes) (at_ns : Z) : bytes := metric ++ SEP :: be_bytes 8 at_ns.
Definition trend_prefix (metric : bytes) : bytes := prefix metric.

Definition split_compound (key : bytes) : option (bytes * bytes) :=
  match list_find (fun b => b = SEP) key with
  | Some (pos, _) => Some (take pos key, drop (S pos) key)
  | None => None
  end.

(** Relations: [dir anchor SEP verb SEP other]. *)
Definition REL_OUT : Z := ch "o".
Definition REL_IN : Z := ch "i".
Definition rel_key (dir : Z) (anchor verb other : bytes) : bytes :=
  dir :: anchor ++ SEP :: verb ++ SEP :: other.
Definition rel_prefix (dir : Z) (anchor : bytes) : bytes := dir :: anchor ++ [SEP].
Definition rel_verb_prefix (dir : Z) (anchor verb : bytes) : bytes :=
  dir :: anchor ++ SEP :: verb ++ [SEP].
Definition rel_suffix (key : bytes) (prefix_len : nat) : option (bytes * bytes) :=
  if (length key <? prefix_len)%nat then None
  else
    '(verb, other) ← split_compound (drop prefix_len key);
    Some (from_utf8_lossy verb, from_utf8_lossy other).

(** ** Order-preserving numbers *)

Definition two64 : Z := 2 ^ 64.
Definition sign_bit : Z := Z.shiftl 1 63.

(** [((x as u64) ^ (1 << 63)).to_be_bytes()] *)
Definition encode_i64_sortable (x : Z) : bytes := be_bytes 8 (Z.lxor (x mod two64) sign_bit).

(** [(raw ^ (1 << 63)) as i64], the reading of the index scans. *)
Definition decode_i64_sortable (b : bytes) : Z :=
  let u := Z.lxor (from_be_bytes b) sign_bit in
  if u <? 2 ^ 63 then u else u - two64.

Definition encode_f64_sortable (x : f64) : bytes :=
  let bits := f64_to_bits x in
  let mapped :=
    if negb (Z.land bits sign_bit =? 0) then Z.lxor bits (two64 - 1) else Z.lor bits sign_bit in
  be_bytes 8 mapped.

Definition decode_f64_sortable (b : bytes) : f64 :=
  let mapped := from_be_bytes b in
  let bits :=
    if negb (Z.land mapped sign_bit =? 0) then Z.land mapped (Z.lxor sign_bit (two64 - 1))
    else Z.lxor mapped (two64 - 1) in
  f64_from_bits bits.

(** ** Payload-index keys *)

Definition PIDX_NUM : Z := ch "n".
Definition PIDX_STR : Z := ch "s".
Definition PIDX_BOOL : Z := ch "b".
Definition PIDX_OTHER : Z := ch "o".
Definition PIDX_DT : Z := ch "d".
Definition PIDX_UUID : Z := ch "u".
Definition PIDX_GEO : Z := ch "g".

Section pidx.
Context `{SerdeNumber}.
(** [Value::to_string], the JSON text of serde_json. *)
Variable json_text : Json -> bytes.

Definition encode_pidx_value (value : Json) : bytes :=
  match value with
  | JNum n => PIDX_NUM :: encode_f64_sortable (default f64_zero (as_f64 n))
  | JStr s =>
      match rfc3339_to_epoch_ms s with
      | Some ms => PIDX_DT :: encode_i64_sortable ms
      | None =>
          match parse_uuid_bytes s with
          | Some u => PIDX_UUID :: u
          | None => PIDX_STR :: s
          end
      end
  | JBool b => [PIDX_BOOL; if b then 1 else 0]
  | other =>
      match point_of other with
      | Some (lat, lon) => PIDX_GEO :: be_bytes 8 (morton lat lon)
      | None => PIDX_OTHER :: json_text other
      end
  end.

Definition pidx_key (field : bytes) (value : Json) (doc_id : bytes) : bytes :=
  field ++ SEP :: encode_pidx_value value ++ SEP :: doc_id.
Definition pidx_field_prefix (field : bytes) : bytes := prefix field.
Definition pidx_value_prefix (field : bytes) (value : Json) : bytes :=
  field ++ SEP :: encode_pidx_value value ++ [SEP].
End pidx.

Definition pidx_num_prefix (field : bytes) : bytes := prefix field ++ [PIDX_NUM].
Definition pidx_dt_prefix (field : bytes) : bytes := prefix field ++ [PIDX_DT].
Definition pidx_geo_prefix (field : bytes) : bytes := prefix field ++ [PIDX_GEO].

Definition sparse_key (dim : Z) (doc_id : bytes) : bytes := be_bytes 4 dim ++ SEP :: doc_id.
Definition sparse_prefix (dim : Z) : bytes := be_bytes 4 dim ++ [SEP].

(** ** Vectors *)

Definition f32_le (x : f32) : bytes := le_bytes 4 (f32_to_bits x).
Definition f32_of_le (b : bytes) : f32 := f32_from_bits (from_le_bytes b).

Definition encode_vec (v : list f32) : bytes := concat (map f32_le v).

(** [chunks_exact(4)]: a short tail is dropped. *)
Fixpoint decode_vec (b : bytes) : list f32 :=
  match b with
  | b0 :: b1 :: b2 :: b3 :: b => f32_of_le [b0; b1; b2; b3] :: decode_vec b
  | _ => []
  end.

Definition encode_multi (vectors : list (list f32)) : bytes :=
  let dim := match vectors with v :: _ => length v | [] => 0%nat end in
  le_bytes 4 (Z.of_nat (length vectors)) ++ le_bytes 4 (Z.of_nat dim) ++
  concat (map encode_vec vectors).

(** The inner loop of [decode_multi]: [dim] floats; indexing past the end
    panics, which is [None]. *)
Fixpoint read_floats (dim : nat) (b : bytes) : option (list f32 * bytes) :=
  match dim with
  | O => Some ([], b)
  | S dim =>
      match b with
      | b0 :: b1 :: b2 :: b3 :: b =>
          '(v, b) ← read_floats dim b; Some (f32_of_le [b0; b1; b2; b3] :: v, b)
      | _ => None
      end
  end.
Fixpoint read_vectors (n dim : nat) (b : bytes) : option (list (list f32)) :=
  match n with
  | O => Some []
  | S n =>
      '(v, b) ← read_floats dim b;
      vs ← read_vectors n dim b;
      Some (v :: vs)
  end.

(** [usize] products and sums wrap at 64 bits (release arithmetic). *)
Definition decode_multi (b : bytes) : option (list (list f32)) :=
  if (length b <? 8)%nat then Some []
  else
    let n := from_le_bytes (take 4 b) in
    let dim := from_le_bytes (take 4 (drop 4 b)) in
    if Z.of_nat (length b) <? (8 + n * dim * 4) mod two64 then Some []
    else read_vectors (Z.to_nat n) (Z.to_nat dim) (drop 8 b).
