(* ===== verification/KeysFacts.v ===== *)
(** * The key encodings are injective, ordered and invertible *)
From Stdlib Require Import SpecFloat.
From S2P Require Import Prelude Floats ByteOrder Utf8 Json RroTime Geo Keys.
#[local] Set Default Goal Selector "!".
Local Open Scope Z_scope.

(** ** Compound keys *)

Definition nul_free (s : bytes) : Prop := SEP ∉ s.
#[export] Instance nul_free_dec s : Decision (nul_free s).
Proof. unfold nul_free. apply _. Defined.

Lemma find_sep a b : nul_free a -> list_find (fun c => c = SEP) (a ++ SEP :: b) = Some (length a, SEP).
Proof.
  intros Ha. apply list_find_Some. split_and!; [by rewrite list_lookup_middle|done|].
  intros j y Hj Hl ->. rewrite lookup_app_l in Hj by done. by apply list_elem_of_lookup_2, Ha in Hj.
Qed.

Lemma split_compound_at a b : nul_free a -> split_compound (a ++ SEP :: b) = Some (a, b).
Proof.
  intros Ha. unfold split_compound. rewrite find_sep by done. f_equal. f_equal.
  - by rewrite take_app_length.
  - rewrite drop_app_ge by lia. by replace (S (length a) - length a)%nat with 1%nat by lia.
Qed.

Lemma sep_app_inj a a' b b' :
  nul_free a -> nul_free a' -> a ++ SEP :: b = a' ++ SEP :: b' -> a = a' /\ b = b'.
Proof.
  intros Ha Ha' E. pose proof (split_compound_at a b Ha) as H1.
  rewrite E, split_compound_at in H1 by done. by injection H1.
Qed.

(** A row lies under the prefix of a segment exactly when its first segment
    is that one. *)
Lemma prefix_sep a a' b :
  nul_free a -> nul_free a' -> prefix a `prefix_of` a' ++ SEP :: b <-> a = a'.
Proof.
  intros Ha Ha'. unfold prefix. split.
  - intros [k E]. rewrite <- app_assoc in E. cbn in E. by apply sep_app_inj in E as [? _].
  - intros ->. exists b. by rewrite <- app_assoc.
Qed.

(** ** Relation rows *)

Lemma rel_suffix_key dir anchor verb other :
  nul_free verb -> valid_utf8 verb = true -> valid_utf8 other = true ->
  rel_suffix (rel_key dir anchor verb other) (length (rel_prefix dir anchor)) = Some (verb, other).
Proof.
  intros Hv Uv Uo. unfold rel_suffix, rel_key, rel_prefix. cbn [length].
  rewrite !length_app. cbn [length]. rewrite (proj2 (Nat.ltb_ge _ _)) by lia.
  assert (drop (S (length anchor + 1)) (dir :: anchor ++ SEP :: verb ++ SEP :: other)
          = verb ++ SEP :: other) as ->.
  { cbn [drop]. rewrite drop_app_ge by lia.
    by replace (length anchor + 1 - length anchor)%nat with 1%nat by lia. }
  rewrite split_compound_at by done. cbn. by rewrite !lossy_valid.
Qed.

Lemma rel_prefix_iff dir anchor anchor' verb other :
  nul_free anchor -> nul_free anchor' ->
  rel_prefix dir anchor' `prefix_of` rel_key dir anchor verb other <-> anchor' = anchor.
Proof.
  intros Ha Ha'. unfold rel_prefix, rel_key.
  rewrite <- (prefix_sep anchor' anchor (verb ++ SEP :: other)) by done. unfold prefix. split.
  - by intros ?%prefix_cons_inv_2.
  - apply prefix_cons.
Qed.

Lemma rel_verb_prefix_iff dir anchor anchor' verb verb' other :
  nul_free anchor -> nul_free anchor' -> nul_free verb -> nul_free verb' ->
  rel_verb_prefix dir anchor' verb' `prefix_of` rel_key dir anchor verb other <->
  anchor' = anchor /\ verb' = verb.
Proof.
  intros Ha Ha' Hv Hv'. unfold rel_verb_prefix, rel_key. split.
  - intros [k E]. cbn in E. injection E as E. rewrite <- !app_assoc in E. cbn in E.
    apply sep_app_inj in E as [-> E]; [|done..]. rewrite <- app_assoc in E. cbn in E.
    by apply sep_app_inj in E as [-> _].
  - intros [-> ->]. exists other. cbn. rewrite <- !app_assoc. cbn. by rewrite <- app_assoc.
Qed.

Lemma rel_key_inj dir anchor verb other dir' anchor' verb' other' :
  nul_free anchor -> nul_free anchor' -> nul_free verb -> nul_free verb' ->
  rel_key dir anchor verb other = rel_key dir' anchor' verb' other' ->
  dir = dir' /\ anchor = anchor' /\ verb = verb' /\ other = other'.
Proof.
  intros Ha Ha' Hv Hv'. unfold rel_key. intros [= -> E].
  apply sep_app_inj in E as [-> E]; [|done..]. by apply sep_app_inj in E as [-> ->].
Qed.

(** ** Sign-flipped integers *)

Lemma lxor_sign_low u : 0 <= u < 2 ^ 63 -> Z.lxor u sign_bit = u + 2 ^ 63.
Proof.
  intros Hu. unfold sign_bit. rewrite <- Z.add_nocarry_lxor; [by rewrite Z.shiftl_mul_pow2 by lia|].
  apply Z.bits_inj'. intros k Hk. rewrite Z.land_spec, Z.bits_0.
  rewrite Z.shiftl_spec by lia. destruct (decide (k < 63)).
  - rewrite (Z.testbit_neg_r 1) by lia. apply andb_false_r.
  - rewrite <- (Z.mod_small u (2 ^ 63)), Z.mod_pow2_bits_high by lia. done.
Qed.

Lemma lxor_sign_high u : 2 ^ 63 <= u < 2 ^ 64 -> Z.lxor u sign_bit = u - 2 ^ 63.
Proof.
  intros Hu. replace u with ((u - 2 ^ 63) + 2 ^ 63) at 1 by lia.
  rewrite <- lxor_sign_low by lia. rewrite Z.lxor_assoc, Z.lxor_nilpotent, Z.lxor_0_r. done.
Qed.

Lemma lxor_ones u : 0 <= u < 2 ^ 64 -> Z.lxor u (two64 - 1) = 2 ^ 64 - 1 - u.
Proof.
  intros Hu. change (two64 - 1) with (Z.ones 64).
  assert (Z.land (Z.lxor u (Z.ones 64)) u = 0) as H0.
  { apply Z.bits_inj'. intros k Hk. rewrite Z.land_spec, Z.lxor_spec, Z.bits_0.
    destruct (decide (k < 64)).
    - rewrite Z.ones_spec_low by lia. by destruct (Z.testbit u k).
    - rewrite <- (Z.mod_small u (2 ^ 64)), Z.mod_pow2_bits_high by lia. apply andb_false_r. }
  apply Z.add_nocarry_lxor in H0.
  rewrite (Z.lxor_comm u (Z.ones 64)), Z.lxor_assoc, Z.lxor_nilpotent, Z.lxor_0_r in H0.
  rewrite (Z.lxor_comm u). change (Z.ones 64) with (2 ^ 64 - 1) in H0 at 2. lia.
Qed.

Lemma land_sign u : 0 <= u < 2 ^ 64 -> (Z.land u sign_bit =? 0) = (u <? 2 ^ 63).
Proof.
  intros Hu. change sign_bit with (2 ^ 63).
  assert (Z.land u (2 ^ 63) = if Z.testbit u 63 then 2 ^ 63 else 0) as ->.
  { apply Z.bits_inj'. intros k Hk. rewrite Z.land_spec, Z.pow2_bits_eqb by lia.
    destruct (Z.eqb_spec 63 k) as [<-|Hne].
    - destruct (Z.testbit u 63); [by rewrite Z.pow2_bits_true|by rewrite Z.bits_0].
    - rewrite andb_false_r. destruct (Z.testbit u 63); [|by rewrite Z.bits_0].
      by rewrite Z.pow2_bits_false by lia. }
  rewrite Z.testbit_eqb by lia. destruct (u <? 2 ^ 63) eqn:E.
  - rewrite Z.div_small by lia. done.
  - assert (u / 2 ^ 63 = 1) as -> by (Z.div_mod_to_equations; lia). done.
Qed.

Lemma i64_code x : is_i64 x -> Z.lxor (x mod two64) sign_bit = x + 2 ^ 63.
Proof.
  intros Hx. unfold is_i64, two64 in *. destruct (Z_lt_le_dec x 0).
  - replace (x mod 2 ^ 64) with (x + 2 ^ 64) by (apply Z.mod_unique with (-1); lia).
    rewrite lxor_sign_high by lia. lia.
  - rewrite Z.mod_small by lia. apply lxor_sign_low. lia.
Qed.

Lemma encode_i64_bytes x : is_i64 x -> encode_i64_sortable x = be_bytes 8 (x + 2 ^ 63).
Proof. intros Hx. unfold encode_i64_sortable. by rewrite i64_code. Qed.

Lemma encode_i64_cmp x y :
  is_i64 x -> is_i64 y -> bcmp (encode_i64_sortable x) (encode_i64_sortable y) = (x ?= y).
Proof.
  intros Hx Hy. rewrite !encode_i64_bytes by done. unfold is_i64 in *.
  rewrite bcmp_be_bytes by (change (256 ^ Z.of_nat 8) with (2 ^ 64); lia).
  destruct (Z.compare_spec x y); [apply Z.compare_eq_iff|apply Z.compare_lt_iff|apply Z.compare_gt_iff]; lia.
Qed.

Lemma decode_encode_i64 x : is_i64 x -> decode_i64_sortable (encode_i64_sortable x) = x.
Proof.
  intros Hx. rewrite encode_i64_bytes by done. unfold decode_i64_sortable, is_i64, two64 in *.
  rewrite from_be_be_bytes by (change (256 ^ Z.of_nat 8) with (2 ^ 64); lia).
  destruct (Z_lt_le_dec x 0).
  - rewrite lxor_sign_low by lia. rewrite (proj2 (Z.ltb_ge _ _)) by lia. lia.
  - rewrite lxor_sign_high by lia. rewrite (proj2 (Z.ltb_lt _ _)) by lia. lia.
Qed.

(** ** Floats *)

Definition f64_mag : f64 -> Z := mag_bits f64_prec f64_emax 52 11.

(** The number whose big-endian bytes encode [x]. *)
Definition f64_code (x : f64) : Z :=
  if sign_of x then 2 ^ 63 - 1 - f64_mag x else 2 ^ 63 + f64_mag x.

Lemma f64_mag_bounds x : f64_valid x = true -> 0 <= f64_mag x < 2 ^ 63.
Proof. apply (mag_bits_bounds 53 1024 52 11); lia. Qed.

Lemma f64_bits x : f64_to_bits x = (if sign_of x then 2 ^ 63 else 0) + f64_mag x.
Proof. done. Qed.

Lemma f64_code_bounds x : f64_valid x = true -> 0 <= f64_code x < 2 ^ 64.
Proof. intros Hx%f64_mag_bounds. unfold f64_code. destruct (sign_of x); lia. Qed.

Lemma lor_sign u : 0 <= u < 2 ^ 63 -> Z.lor u sign_bit = u + 2 ^ 63.
Proof. intros Hu. unfold sign_bit. by rewrite lor_shiftl_add by lia. Qed.

Lemma encode_f64_bytes x :
  f64_valid x = true -> encode_f64_sortable x = be_bytes 8 (f64_code x).
Proof.
  intros Hx. pose proof (f64_mag_bounds x Hx). unfold encode_f64_sortable, f64_code. f_equal.
  rewrite f64_bits. destruct (sign_of x).
  - rewrite land_sign, (proj2 (Z.ltb_ge _ _)) by lia. cbn [negb]. rewrite lxor_ones by lia. lia.
  - rewrite land_sign, (proj2 (Z.ltb_lt _ _)) by lia. cbn [negb]. rewrite lor_sign by lia. lia.
Qed.

Lemma mask_low u : 2 ^ 63 <= u < 2 ^ 64 -> Z.land u (Z.lxor sign_bit (two64 - 1)) = u - 2 ^ 63.
Proof.
  intros Hu. change (Z.lxor sign_bit (two64 - 1)) with (Z.ones 63).
  rewrite Z.land_ones by lia. symmetry. apply Z.mod_unique with 1; lia.
Qed.

Lemma f64_from_to_bits x :
  f64_valid x = true -> is_nan x = false -> f64_from_bits (f64_to_bits x) = x.
Proof. apply (from_to_bits 53 1024 52 11); lia. Qed.

Lemma decode_encode_f64 x :
  f64_valid x = true -> is_nan x = false -> decode_f64_sortable (encode_f64_sortable x) = x.
Proof.
  intros Hx Hn. pose proof (f64_mag_bounds x Hx). pose proof (f64_code_bounds x Hx).
  rewrite encode_f64_bytes by done. unfold decode_f64_sortable.
  rewrite from_be_be_bytes by done. rewrite <- (f64_from_to_bits x) at 4 by done.
  rewrite f64_bits. unfold f64_code in *. destruct (sign_of x).
  - rewrite land_sign, (proj2 (Z.ltb_lt _ _)) by lia. cbn [negb]. rewrite lxor_ones by lia.
    f_equal. lia.
  - rewrite land_sign, (proj2 (Z.ltb_ge _ _)) by lia. cbn [negb]. rewrite mask_low by lia.
    f_equal. lia.
Qed.

Lemma f64_mag_pos s m e :
  f64_valid (S754_finite s m e) = true ->
  0 < f64_mag (S754_finite s m e) < f64_mag (S754_infinity false).
Proof. apply (mag_bits_pos 53 1024 52 11); lia. Qed.

Lemma f64_mag_lt s1 s2 m1 e1 m2 e2 :
  f64_valid (S754_finite s1 m1 e1) = true -> f64_valid (S754_finite s2 m2 e2) = true ->
  e1 < e2 \/ (e1 = e2 /\ Zpos m1 < Zpos m2) ->
  f64_mag (S754_finite s1 m1 e1) < f64_mag (S754_finite s2 m2 e2).
Proof. apply (mag_bits_lt 53 1024 52 11); lia. Qed.

(** The comparison of two finite numbers of one sign. *)
Lemma pos_cont_lt m1 m2 : Pos.compare_cont Eq m1 m2 = Lt <-> Zpos m1 < Zpos m2.
Proof. change (Pos.compare_cont Eq m1 m2) with (Pos.compare m1 m2). rewrite Pos.compare_lt_iff. lia. Qed.

(** What [x < y] says of signs and magnitudes. *)
Definition mag_order (x y : f64) : Prop :=
  match sign_of x, sign_of y with
  | true, false => True
  | true, true => f64_mag y < f64_mag x
  | false, false => f64_mag x < f64_mag y
  | false, true => False
  end.

Lemma flt_finite s m e s' m' e' :
  f64_valid (S754_finite s m e) = true -> f64_valid (S754_finite s' m' e') = true ->
  flt (S754_finite s m e) (S754_finite s' m' e') = true ->
  mag_order (S754_finite s m e) (S754_finite s' m' e').
Proof.
  intros Hx Hy. unfold flt, SFltb, mag_order. cbn [SFcompare sign_of].
  destruct s, s'; try done.
  - destruct (Z.compare_spec e e') as [->|He|He]; try done; intros H; apply f64_mag_lt; try done; [|lia].
    destruct (CompOpp (Pos.compare_cont Eq m m')) eqn:E; try done.
    right. split; [done|]. apply pos_cont_lt.
    change (Pos.compare m' m = Lt). rewrite Pos.compare_antisym. exact E.
  - destruct (Z.compare_spec e e') as [->|He|He]; try done; intros H; apply f64_mag_lt; try done; [|lia].
    destruct (Pos.compare_cont Eq m m') eqn:E; try done.
    right. split; [done|]. by apply pos_cont_lt.
Qed.

Lemma flt_mag x y :
  f64_valid x = true -> f64_valid y = true -> flt x y = true -> mag_order x y.
Proof.
  intros Hx Hy. destruct x as [s|s| |s m e], y as [s'|s'| |s' m' e']; try (by apply flt_finite);
    try done; unfold mag_order; cbn [sign_of].
  all: try (destruct s); try (destruct s'); try done.
  all: intros _; first [apply f64_mag_pos in Hx as [Ha Hb]|apply f64_mag_pos in Hy as [Ha Hb]];
    first [exact Ha|exact Hb].
Qed.

Lemma f64_code_lt x y :
  f64_valid x = true -> f64_valid y = true -> flt x y = true -> f64_code x < f64_code y.
Proof.
  intros Hx Hy Hlt. pose proof (f64_mag_bounds x Hx). pose proof (f64_mag_bounds y Hy).
  apply flt_mag in Hlt; [|done..]. unfold mag_order, f64_code in *.
  destruct (sign_of x), (sign_of y); lia.
Qed.

Lemma flt_total x y :
  is_nan x = false -> is_nan y = false -> flt x y = false -> fle y x = true.
Proof.
  unfold flt, fle, SFltb, SFleb. destruct x as [s|s| |s m e], y as [s'|s'| |s' m' e']; try done; intros _ _.
  all: cbn [SFcompare]; try (by destruct s, s'); try (by destruct s); try (by destruct s').
  destruct s, s'; try done; rewrite (Z.compare_antisym e e'); destruct (e ?= e') eqn:E; cbn; try done.
  all: change (Pos.compare_cont Eq ?a ?b) with (Pos.compare a b).
  all: rewrite (Pos.compare_antisym m m'); by destruct (m ?= m')%positive.
Qed.

Lemma encode_f64_cmp x y :
  f64_valid x = true -> f64_valid y = true ->
  bcmp (encode_f64_sortable x) (encode_f64_sortable y) = (f64_code x ?= f64_code y).
Proof.
  intros Hx Hy. rewrite !encode_f64_bytes by done. pose proof (f64_code_bounds x Hx).
  pose proof (f64_code_bounds y Hy).
  by rewrite bcmp_be_bytes by (change (256 ^ Z.of_nat 8) with (2 ^ 64); lia).
Qed.

Lemma encode_f64_order x y :
  f64_valid x = true -> f64_valid y = true -> is_nan x = false -> is_nan y = false ->
  (flt x y = true -> blt (encode_f64_sortable x) (encode_f64_sortable y)) /\
  (ble (encode_f64_sortable x) (encode_f64_sortable y) -> fle x y = true).
Proof.
  intros Hx Hy Nx Ny. unfold blt, ble. rewrite encode_f64_cmp by done. split.
  - intros H. apply Z.compare_lt_iff. by apply f64_code_lt.
  - intros H. destruct (flt y x) eqn:E; [|by apply flt_total].
    apply f64_code_lt in E; [|done..]. rewrite Z.compare_gt_iff in H. lia.
Qed.

(** ** Vectors *)

Lemma f32_bits_range x : f32_valid x = true -> 0 <= f32_to_bits x < 2 ^ 32.
Proof.
  intros Hx. pose proof (mag_bits_bounds 24 128 23 8 ltac:(lia) ltac:(lia) ltac:(lia) ltac:(lia) x Hx).
  unfold f32_to_bits, to_bits. change f32_prec with 24. change f32_emax with 128.
  destruct (sign_of x); lia.
Qed.

Definition f32_ok (x : f32) : Prop := f32_valid x = true /\ is_nan x = false.

Lemma f32_le_roundtrip x : f32_ok x -> f32_of_le (f32_le x) = x.
Proof.
  intros [Hx Hn]. unfold f32_of_le, f32_le. rewrite from_le_le_bytes.
  - apply (from_to_bits 24 128 23 8); done || lia.
  - by apply f32_bits_range.
Qed.

(** A NaN reads back as the NaN. *)
Lemma f32_le_valid x : f32_valid x = true -> f32_of_le (f32_le x) = x.
Proof.
  intros Hx. destruct (is_nan x) eqn:En; [by destruct x|]. by apply f32_le_roundtrip.
Qed.

Lemma f32_le_four x : exists a b c d, f32_le x = [a; b; c; d].
Proof. unfold f32_le. cbn [le_bytes]. eauto. Qed.

Lemma length_encode_vec v : length (encode_vec v) = (4 * length v)%nat.
Proof.
  induction v as [|x v IH]; [done|]. unfold encode_vec in *. cbn [map concat length].
  rewrite length_app, IH. destruct (f32_le_four x) as (a & b & c & d & ->). cbn. lia.
Qed.

Lemma decode_encode_vec v : Forall f32_ok v -> decode_vec (encode_vec v) = v.
Proof.
  induction 1 as [|x v Hx _ IH]; [done|]. unfold encode_vec in *. cbn [map concat].
  pose proof (f32_le_roundtrip x Hx) as Hr.
  destruct (f32_le_four x) as (a & b & c & d & E). rewrite E in *. cbn [app decode_vec].
  by rewrite IH, Hr.
Qed.

Lemma read_floats_encode v b : Forall f32_ok v -> read_floats (length v) (encode_vec v ++ b) = Some (v, b).
Proof.
  induction 1 as [|x v Hx _ IH]; [done|]. unfold encode_vec in *. cbn [map concat length].
  pose proof (f32_le_roundtrip x Hx) as Hr.
  destruct (f32_le_four x) as (a & c & d & e & E). rewrite E in *. cbn [app read_floats].
  rewrite IH. cbn. by rewrite Hr.
Qed.

Lemma read_vectors_encode vs dim :
  Forall (fun v => length v = dim /\ Forall f32_ok v) vs ->
  read_vectors (length vs) dim (concat (map encode_vec vs)) = Some vs.
Proof.
  induction 1 as [|v vs [<- Hv] _ IH]; [done|]. cbn [map concat length read_vectors].
  rewrite read_floats_encode by done. cbn [mbind option_bind]. by rewrite IH.
Qed.

Lemma length_encode_vecs vs dim :
  Forall (fun v => length v = dim /\ Forall f32_ok v) vs ->
  length (concat (map encode_vec vs)) = (4 * (length vs * dim))%nat.
Proof.
  induction 1 as [|v vs [<- Hv] _ IH]; [done|]. cbn [map concat length].
  rewrite length_app, length_encode_vec, IH. lia.
Qed.

Lemma uniform_multi_lengths vs dim :
  Forall (fun v => length v = dim /\ Forall f32_ok v) vs -> vs <> [] ->
  match vs with v :: _ => length v | [] => 0%nat end = dim.
Proof. destruct 1 as [|v vs [Hd _] _]; done. Qed.

(** A blob of eight bytes that claims [2^31] vectors of [2^31] floats. *)
Definition huge_header : bytes := le_bytes 4 (2 ^ 31) ++ le_bytes 4 (2 ^ 31).

Section Properties.

(** the float encoding of the payload index is invertible and keeps the
    order: a smaller number has byte-wise smaller bytes, and bytes in order
    mean numbers in order (only the two zeros are equal numbers with distinct
    bytes). *)
Theorem encode_f64_sortable_ordered (x y : f64) :
  f64_valid x = true -> f64_valid y = true -> is_nan x = false -> is_nan y = false ->
  decode_f64_sortable (encode_f64_sortable x) = x /\
  length (encode_f64_sortable x) = 8%nat /\
  (flt x y = true -> blt (encode_f64_sortable x) (encode_f64_sortable y)) /\
  (ble (encode_f64_sortable x) (encode_f64_sortable y) -> fle x y = true).
Proof.
  intros Hx Hy Nx Ny. split; [by apply decode_encode_f64|]. split.
  - rewrite encode_f64_bytes by done. apply length_be_bytes.
  - by apply encode_f64_order.
Qed.

Lemma encode_f64_sortable_ordered_witness :
  let x := f64_of_Z (-3) in let y := f64_of_decimal false 1 (-3) in
  decode_f64_sortable (encode_f64_sortable x) = x /\
  length (encode_f64_sortable x) = 8%nat /\
  (flt x y = true -> blt (encode_f64_sortable x) (encode_f64_sortable y)) /\
  (ble (encode_f64_sortable x) (encode_f64_sortable y) -> fle x y = true).
Proof.
  intros x y. apply (encode_f64_sortable_ordered x y); vm_compute; reflexivity.
Defined.

(** the timestamp encoding of the payload index is invertible on 64-bit
    integers and compares exactly as they do. *)
Theorem encode_i64_sortable_ordered (x y : Z) :
  is_i64 x -> is_i64 y ->
  decode_i64_sortable (encode_i64_sortable x) = x /\
  length (encode_i64_sortable x) = 8%nat /\
  bcmp (encode_i64_sortable x) (encode_i64_sortable y) = (x ?= y).
Proof.
  intros Hx Hy. split; [by apply decode_encode_i64|]. split.
  - apply length_be_bytes.
  - by apply encode_i64_cmp.
Qed.

Lemma encode_i64_sortable_ordered_witness :
  decode_i64_sortable (encode_i64_sortable (-1)) = -1 /\
  length (encode_i64_sortable (-1)) = 8%nat /\
  bcmp (encode_i64_sortable (-1)) (encode_i64_sortable 1784160000000) = (-1 ?= 1784160000000).
Proof. apply (encode_i64_sortable_ordered (-1) 1784160000000); unfold is_i64; lia. Defined.

(** a row of a relation says what was related: the key splits back into
    verb and other end, and it lies under the prefix of an anchor, and of an
    anchor and a verb, exactly when these are its own. *)
Theorem rel_key_reads_back (dir : Z) (anchor anchor' verb verb' other : bytes) :
  nul_free anchor -> nul_free anchor' -> nul_free verb -> nul_free verb' ->
  valid_utf8 verb = true -> valid_utf8 other = true ->
  rel_suffix (rel_key dir anchor verb other) (length (rel_prefix dir anchor)) = Some (verb, other) /\
  (rel_prefix dir anchor' `prefix_of` rel_key dir anchor verb other <-> anchor' = anchor) /\
  (rel_verb_prefix dir anchor' verb' `prefix_of` rel_key dir anchor verb other <->
     anchor' = anchor /\ verb' = verb).
Proof.
  intros. split_and!; [by apply rel_suffix_key|by apply rel_prefix_iff|by apply rel_verb_prefix_iff].
Qed.

Lemma rel_key_reads_back_witness :
  rel_suffix (rel_key REL_OUT (str "a") (str "cites") (str "b")) (length (rel_prefix REL_OUT (str "a")))
    = Some (str "cites", str "b") /\
  (rel_prefix REL_OUT (str "a2") `prefix_of` rel_key REL_OUT (str "a") (str "cites") (str "b")
     <-> str "a2" = str "a") /\
  (rel_verb_prefix REL_OUT (str "a2") (str "cites") `prefix_of` rel_key REL_OUT (str "a") (str "cites") (str "b")
     <-> str "a2" = str "a" /\ str "cites" = str "cites").
Proof.
  apply (rel_key_reads_back REL_OUT (str "a") (str "a2") (str "cites") (str "cites") (str "b"));
    first [reflexivity|refine (bool_decide_eq_true_1 _ _); vm_compute; reflexivity].
Defined.

(** what [encode_multi] writes, [decode_multi] reads back, for vectors of
    one dimension that fit in memory; [decode_vec] inverts [encode_vec]. *)
Theorem vectors_roundtrip (vs : list (list f32)) (dim : nat) (v : list f32) :
  Forall (fun v => length v = dim /\ Forall f32_ok v) vs ->
  Z.of_nat (length vs) < 2 ^ 32 -> Z.of_nat dim < 2 ^ 32 ->
  8 + 4 * (Z.of_nat (length vs) * Z.of_nat dim) < two64 -> Forall f32_ok v ->
  decode_multi (encode_multi vs) = Some vs /\ decode_vec (encode_vec v) = v.
Proof.
  intros Hvs Hn Hd Hfit Hv. split; [|by apply decode_encode_vec].
  destruct (decide (vs = [])) as [->|Hne]; [by vm_compute|].
  unfold encode_multi, decode_multi. rewrite (uniform_multi_lengths vs dim) by done.
  rewrite !length_app, !length_le_bytes, (length_encode_vecs vs dim) by done.
  rewrite (proj2 (Nat.ltb_ge _ _)) by lia.
  rewrite take_app_length' by (by rewrite length_le_bytes).
  rewrite drop_app_length' by (by rewrite length_le_bytes).
  rewrite take_app_length' by (by rewrite length_le_bytes).
  rewrite !from_le_le_bytes by (change (256 ^ Z.of_nat 4) with (2 ^ 32); lia).
  rewrite Z.mod_small by (unfold two64 in *; lia). rewrite (proj2 (Z.ltb_ge _ _)) by lia.
  rewrite !Nat2Z.id. rewrite app_assoc, drop_app_length' by (by rewrite length_app, !length_le_bytes).
  by apply read_vectors_encode.
Qed.

Lemma vectors_roundtrip_witness :
  decode_multi (encode_multi [[f32_of_Z 1; f32_of_Z (-2)]; [f32_of_Z 3; f32_of_Z 0]]) =
    Some [[f32_of_Z 1; f32_of_Z (-2)]; [f32_of_Z 3; f32_of_Z 0]] /\
  decode_vec (encode_vec [f32_of_Z 7]) = [f32_of_Z 7].
Proof.
  apply (vectors_roundtrip [[f32_of_Z 1; f32_of_Z (-2)]; [f32_of_Z 3; f32_of_Z 0]] 2 [f32_of_Z 7]);
    try (vm_compute; reflexivity); repeat constructor; vm_compute; reflexivity.
Defined.

(** [decode_multi] does not refuse every malformed blob with an empty
    list: a header of eight bytes that claims [2^31] vectors of [2^31] floats
    passes the length check, whose product wraps to zero at 64 bits, and the
    first read indexes past the end, which panics. *)
Theorem decode_multi_panics : decode_multi huge_header = None.
Proof.
  unfold decode_multi.
  change (length huge_header <? 8)%nat with false. cbv iota.
  change (from_le_bytes (take 4 huge_header)) with (2 ^ 31).
  change (from_le_bytes (take 4 (drop 4 huge_header))) with (2 ^ 31).
  change (Z.of_nat (length huge_header) <? (8 + 2 ^ 31 * 2 ^ 31 * 4) mod two64) with false. cbv iota zeta.
  change (drop 8 huge_header) with (@nil Z).
  destruct (Z.to_nat (2 ^ 31)) as [|k] eqn:E; [lia|]. reflexivity.
Qed.

End Properties.

(** [f32::total_cmp] agrees with [<]. *)
Lemma f32_flt_key x y : f32_valid x = true -> f32_valid y = true -> flt x y = true -> f32_key x < f32_key y.
Proof.
  intros Hx Hy (Nx & Ny & Hr)%flt_rank.
  pose proof (mag_bits_bounds 24 128 23 8 ltac:(lia) ltac:(lia) ltac:(lia) ltac:(lia) x Hx) as Bx.
  pose proof (mag_bits_bounds 24 128 23 8 ltac:(lia) ltac:(lia) ltac:(lia) ltac:(lia) y Hy) as By.
  assert (forall s m e, f32_valid (S754_finite s m e) = true ->
    0 < mag_bits 24 128 23 8 (S754_finite s m e) < mag_bits 24 128 23 8 (S754_infinity false)) as Hpos.
  { intros s m e. apply (mag_bits_pos 24 128 23 8); lia. }
  assert (forall s1 s2 m1 e1 m2 e2, f32_valid (S754_finite s1 m1 e1) = true -> f32_valid (S754_finite s2 m2 e2) = true ->
    e1 < e2 \/ (e1 = e2 /\ Zpos m1 < Zpos m2) ->
    mag_bits 24 128 23 8 (S754_finite s1 m1 e1) < mag_bits 24 128 23 8 (S754_finite s2 m2 e2)) as Hlt.
  { intros s1 s2 m1 e1 m2 e2. apply (mag_bits_lt 24 128 23 8); lia. }
  unfold f32_key, rank_lt in *. change f32_prec with 24. change f32_emax with 128.
  destruct x as [s|s| |s m e], y as [s'|s'| |s' m' e']; try discriminate; try destruct s; try destruct s'; cbn [sign_of frank fst snd] in *; try lia.
  all: try (pose proof (Hpos _ _ _ Hx)); try (pose proof (Hpos _ _ _ Hy)).
  all: try (change (mag_bits 24 128 23 8 (S754_zero true)) with 0 in *); try (change (mag_bits 24 128 23 8 (S754_zero false)) with 0 in *).
  all: try (change (mag_bits 24 128 23 8 (S754_infinity true)) with (mag_bits 24 128 23 8 (S754_infinity false)) in *); try lia.
  all: try (change (mag_bits 24 128 23 8 (S754_infinity false)) with (255 * 2 ^ 23) in *; lia).
  - assert (mag_bits 24 128 23 8 (S754_finite true m' e') < mag_bits 24 128 23 8 (S754_finite true m e)); [|lia].
    apply Hlt; [done|done|]. lia.
  - apply Hlt; [done|done|]. lia.
Qed.
