(* ===== verification/Quant.v ===== *)
(** * Vector kernels and quantizers
    (crates/rro-core/src/simd.rs, Embedding of types.rs, crates/recall/src/quant.rs)

    A vector is a list of [f32]; codes and bits are bytes. A panic is [None].
    [Iterator::sum] of floats starts from the negative zero. *)
From Stdlib Require Import SpecFloat.
From S2P Require Import Prelude Floats Json Geo.
#[local] Set Default Goal Selector "!".
Local Open Scope Z_scope.

(** ** Constants and casts of [f32] *)

Definition f32_zero : f32 := S754_zero false.
Definition f32_one : f32 := f32_of_Z 1.
(** [f32::EPSILON] *)
Definition f32_epsilon : f32 := S754_finite false (2 ^ 23) (-46).
Definition f32_sqrt (x : f32) : f32 := SFsqrt f32_prec f32_emax x.
Definition f32_opp (x : f32) : f32 := SFopp x.
Definition f32_sum (l : list f32) : f32 := fold_left f32_add l (S754_zero true).
(** [usize as f32], [u32 as f32], [u8 as f32] *)
Definition f32_of_nat (n : nat) : f32 := f32_of_Z (Z.of_nat n).
(** [x.round().clamp(0.0, 255.0) as u8] *)
Definition f32_round_u8 (x : f32) : Z := Z.min 255 (f_round_u64 x).

(** ** simd.rs *)

(** The four lanes, then the remainder. *)
Fixpoint dot_lanes (a b : list f32) (s0 s1 s2 s3 : f32) : f32 :=
  match a, b with
  | a0 :: a1 :: a2 :: a3 :: a', b0 :: b1 :: b2 :: b3 :: b' =>
      dot_lanes a' b' (f32_add s0 (f32_mul a0 b0)) (f32_add s1 (f32_mul a1 b1))
        (f32_add s2 (f32_mul a2 b2)) (f32_add s3 (f32_mul a3 b3))
  | _, _ =>
      fold_left (fun s '(x, y) => f32_add s (f32_mul x y)) (zip a b)
        (f32_add (f32_add (f32_add s0 s1) s2) s3)
  end.
Definition dot (a b : list f32) : f32 :=
  let n := Nat.min (length a) (length b) in
  dot_lanes (take n a) (take n b) f32_zero f32_zero f32_zero f32_zero.
Definition norm_sq (a : list f32) : f32 := dot a a.

(** ** Embedding *)

Definition emb_dot (a b : list f32) : f32 := if (length a =? length b)%nat then dot a b else f32_zero.
Definition norm (a : list f32) : f32 := f32_sqrt (norm_sq a).
Definition cosine (a b : list f32) : f32 :=
  let denom := f32_mul (norm a) (norm b) in
  if feq denom f32_zero then f32_zero else f32_div (emb_dot a b) denom.
Definition normalized (a : list f32) : list f32 :=
  let n := norm a in
  if feq n f32_zero then a else map (fun x => f32_div x n) a.

(** ** SQ8 *)

Record SqParams : Type := mkSqParams { scale : f32; offset : f32; code_sum : f32 }.

Definition sq_min (v : list f32) : f32 := fold_left f_min v (S754_infinity false).
Definition sq_max (v : list f32) : f32 := fold_left f_max v (S754_infinity true).

Definition sq_code (scale min x : f32) : Z :=
  if fgt scale f32_zero then f32_round_u8 (f32_div (f32_sub x min) scale) else 0.

Definition quantize_into (v : list f32) (codes : bytes) : SqParams * bytes :=
  let min := sq_min v in
  let max := sq_max v in
  match v with
  | [] => (mkSqParams f32_zero f32_zero f32_zero, codes)
  | _ =>
      let range := f32_sub max min in
      let scale := if fgt range f32_epsilon then f32_div range (f32_of_Z 255) else f32_zero in
      let '(code_sum, codes) :=
        fold_left (fun '(code_sum, codes) x =>
                     let code := sq_code scale min x in
                     (f32_add code_sum (f32_of_Z code), codes ++ [code])) v (f32_zero, codes) in
      (mkSqParams scale min code_sum, codes)
  end.

Definition sq_dot_query (codes : bytes) (p : SqParams) (q : list f32) (qsum : f32) : f32 :=
  let acc := fold_left (fun acc '(c, x) => f32_add acc (f32_mul (f32_of_Z c) x)) (zip codes q) f32_zero in
  f32_add (f32_mul (scale p) acc) (f32_mul (offset p) qsum).

(** The integer accumulator is a [u32]. *)
Definition code_dot (a b : bytes) : Z :=
  fold_left (fun acc '(x, y) => (acc + x * y) mod 2 ^ 32) (zip a b) 0.

Definition dot_codes (a : bytes) (pa : SqParams) (b : bytes) (pb : SqParams) : f32 :=
  let acc := f32_of_Z (code_dot a b) in
  let d := f32_of_nat (length a) in
  f32_add (f32_add (f32_add
    (f32_mul (f32_mul (scale pa) (scale pb)) acc)
    (f32_mul (f32_mul (scale pa) (offset pb)) (code_sum pa)))
    (f32_mul (f32_mul (offset pa) (scale pb)) (code_sum pb)))
    (f32_mul (f32_mul d (offset pa)) (offset pb)).

Definition sq_decode (codes : bytes) (p : SqParams) : list f32 :=
  map (fun c => f32_add (f32_mul (f32_of_Z c) (scale p)) (offset p)) codes.

(** ** BQ *)

(** [dim.div_ceil(8)] *)
Definition bq_bytes (dim : nat) : nat := ((dim + 7) / 8)%nat.

Definition bq_set (start : nat) (bits : bytes) (p : nat * f32) : bytes :=
  if fgt p.2 f32_zero
  then alter (fun b => Z.lor b (Z.shiftl 1 (Z.of_nat (p.1 mod 8)))) (start + p.1 / 8)%nat bits
  else bits.

Definition bq_encode_into (v : list f32) (bits : bytes) : bytes :=
  let start := length bits in
  fold_left (bq_set start) (zip (seq 0 (length v)) v) (bits ++ replicate (bq_bytes (length v)) 0).

(** [(bits[i / 8] >> (i % 8)) & 1 == 1] *)
Definition bq_bit (bits : bytes) (i : nat) : option bool :=
  b ← bits !! (i / 8)%nat; Some (Z.land (Z.shiftr b (Z.of_nat (i mod 8))) 1 =? 1).

Definition bq_dot_query (bits : bytes) (q : list f32) : option f32 :=
  fold_opt (fun acc '(i, qi) =>
              set ← bq_bit bits i;
              Some (f32_add acc (if set : bool then qi else f32_opp qi)))
    f32_zero (zip (seq 0 (length q)) q).

(** [u8::count_ones] *)
Definition count_ones (b : Z) : Z :=
  fold_left (fun n i => n + (if Z.testbit b i then 1 else 0)) [0; 1; 2; 3; 4; 5; 6; 7] 0.

Definition bq_hamming (a b : bytes) : Z :=
  fold_left (fun n '(x, y) => n + count_ones (Z.lxor x y)) (zip a b) 0.

Definition bq_dot_codes (a b : bytes) (dim : nat) : f32 :=
  f32_sub (f32_of_nat dim) (f32_mul (f32_of_Z 2) (f32_of_Z (bq_hamming a b))).

Definition bq_decode (bits : bytes) (dim : nat) : option (list f32) :=
  let s := f32_div f32_one (f32_sqrt (f32_of_nat dim)) in
  mapM (fun i => set ← bq_bit bits i; Some (if set : bool then s else f32_opp s)) (seq 0 dim).

(** ** PQ *)

Record PqCodebook : Type := mkPq { pq_m : nat; pq_k : nat; sub_dim : nat; centroids : list f32 }.

Definition l2_sq (a b : list f32) : f32 :=
  f32_sum (map (fun '(x, y) => f32_mul (f32_sub x y) (f32_sub x y)) (zip a b)).

(** The loop that keeps the first strictly smaller distance, shared by the
    assignment step of [kmeans] and by [nearest]. *)
Definition closer (best : nat * f32) (p : nat * f32) : nat * f32 := if flt p.2 best.2 then p else best.
Definition argmin (ds : list f32) : nat :=
  (fold_left closer (zip (seq 0 (length ds)) ds) (0%nat, S754_infinity false)).1.

(** [dst[at .. at + src.len()].copy_from_slice(src)], for a source of [n]. *)
Definition copy_into (n : nat) (dst : list f32) (at_ : nat) (src : list f32) : option (list f32) :=
  if (at_ + n <=? length dst)%nat && (length src =? n)%nat
  then Some (take at_ dst ++ src ++ drop (at_ + n) dst) else None.

Definition centroid_at (cs : list f32) (sub_dim c : nat) : option (list f32) :=
  slice cs (c * sub_dim) ((c + 1) * sub_dim).

Definition assign_point (cs : list f32) (sub_dim k : nat) (p : list f32) : option nat :=
  ds ← mapM (fun c => l2_sq p <$> centroid_at cs sub_dim c) (seq 0 k);
  Some (argmin ds).

(** [sums[c * sub_dim + d] += p[d]] for every [d] *)
Definition add_point (sub_dim : nat) (sums : list f32) (c : nat) (p : list f32) : option (list f32) :=
  fold_opt (fun sums d =>
              x ← p !! d; s ← sums !! (c * sub_dim + d)%nat;
              Some (<[(c * sub_dim + d)%nat := f32_add s x]> sums)) sums (seq 0 sub_dim).

Definition accumulate (sub_dim : nat) (st : list f32 * list nat) (pc : list f32 * nat)
  : option (list f32 * list nat) :=
  n ← st.2 !! pc.2; sums ← add_point sub_dim st.1 pc.2 pc.1;
  Some (sums, <[pc.2 := S n]> st.2).

Definition recenter (sub_dim : nat) (sums : list f32) (counts : list nat) (cs : list f32) (c : nat)
  : option (list f32) :=
  n ← counts !! c;
  if (0 <? n)%nat then
    fold_opt (fun cs d =>
                s ← sums !! (c * sub_dim + d)%nat;
                if (c * sub_dim + d <? length cs)%nat
                then Some (<[(c * sub_dim + d)%nat := f32_div s (f32_of_nat n)]> cs) else None)
      cs (seq 0 sub_dim)
  else Some cs.

Definition lloyd (points : list (list f32)) (sub_dim k : nat) (cs : list f32) : option (list f32) :=
  assign ← mapM (assign_point cs sub_dim k) points;
  '(sums, counts) ← fold_opt (accumulate sub_dim) (replicate (k * sub_dim) f32_zero, replicate k 0%nat)
    (zip points assign);
  fold_opt (recenter sub_dim sums counts) cs (seq 0 k).

Definition kmeans (points : list (list f32)) (sub_dim k iters : nat) : option (list f32) :=
  let n := length points in
  let k := Nat.max (Nat.min k n) 1 in
  cs ← fold_opt (fun cs c =>
         p ← points !! (c * n / k)%nat; copy_into sub_dim cs (c * sub_dim) p)
       (replicate (k * sub_dim) f32_zero) (seq 0 k);
  fold_opt (fun cs _ => lloyd points sub_dim k cs) cs (seq 0 iters).

Definition pq_train (sample : list (list f32)) (dim m iters : nat) : option PqCodebook :=
  if (m =? 0)%nat || negb (dim mod m =? 0)%nat then None
  else
    let sub_dim := (dim / m)%nat in
    let k := Nat.max (Nat.min 256 (length sample)) 1 in
    cs ← fold_opt (fun cs s =>
           subvecs ← mapM (fun v => slice v (s * sub_dim) ((s + 1) * sub_dim)) sample;
           sub ← kmeans subvecs sub_dim k iters;
           copy_into (k * sub_dim) cs (s * k * sub_dim) sub)
         (replicate (m * k * sub_dim) f32_zero) (seq 0 m);
    Some (mkPq m k sub_dim cs).

(** [PqCodebook::centroid] *)
Definition centroid (cb : PqCodebook) (s code : nat) : option (list f32) :=
  let base := ((s * pq_k cb + code) * sub_dim cb)%nat in
  slice (centroids cb) base (base + sub_dim cb).

(** [PqCodebook::nearest]; the last cast is to [u8]. *)
Definition nearest (cb : PqCodebook) (s : nat) (sub : list f32) : option Z :=
  ds ← mapM (fun c => l2_sq sub <$> centroid cb s c) (seq 0 (pq_k cb));
  Some (Z.of_nat (argmin ds) mod 256).

Definition pq_encode_into (v : list f32) (cb : PqCodebook) (codes : bytes) : option bytes :=
  fold_opt (fun codes s =>
              sub ← slice v (s * sub_dim cb) ((s + 1) * sub_dim cb);
              c ← nearest cb s sub;
              Some (codes ++ [c])) codes (seq 0 (pq_m cb)).

Definition code_centroid (cb : PqCodebook) (codes : bytes) (s : nat) : option (list f32) :=
  c ← codes !! s; centroid cb s (Z.to_nat c).

Definition pq_dot_query (codes : bytes) (cb : PqCodebook) (q : list f32) : option f32 :=
  fold_opt (fun acc s =>
              qsub ← slice q (s * sub_dim cb) ((s + 1) * sub_dim cb);
              cent ← code_centroid cb codes s;
              Some (f32_add acc (f32_sum (map (fun '(a, b) => f32_mul a b) (zip qsub cent)))))
    f32_zero (seq 0 (pq_m cb)).

Definition pq_dot_codes (a b : bytes) (cb : PqCodebook) : option f32 :=
  fold_opt (fun acc s =>
              ca ← code_centroid cb a s; cbv ← code_centroid cb b s;
              Some (f32_add acc (f32_sum (map (fun '(x, y) => f32_mul x y) (zip ca cbv)))))
    f32_zero (seq 0 (pq_m cb)).

Definition pq_decode (codes : bytes) (cb : PqCodebook) : option (list f32) :=
  fold_opt (fun out '(s, code) => c ← centroid cb s (Z.to_nat code); Some (out ++ c)) []
    (zip (seq 0 (length codes)) codes).
