(* ===== verification/QuantFacts.v ===== *)
(** * What the quantizers promise

    Codes are bytes, training never fails on the shapes the graph gives it,
    every encoded vector has a code per subspace that names a centroid, and
    the bits of a binary code are the signs of the vector. *)
From Stdlib Require Import SpecFloat.
From S2P Require Import Prelude Floats Json Geo Quant.
#[local] Set Default Goal Selector "!".

(** ** Shared *)

Lemma normalized_length v : length (normalized v) = length v.
Proof. unfold normalized. destruct (feq _ _); [done|]. apply length_map. Qed.

Lemma mapM_some {A B} (f : A -> option B) (g : A -> B) l :
  (forall x, x ∈ l -> f x = Some (g x)) -> mapM f l = Some (map g l).
Proof.
  induction l as [|x l IH]; intros Hl; [done|]. cbn. rewrite (Hl x) by by left. cbn.
  rewrite IH; [done|]. intros y Hy. apply Hl. by right.
Qed.

Lemma mapM_total {A B} (f : A -> option B) l :
  (forall x, x ∈ l -> is_Some (f x)) -> exists ys, mapM f l = Some ys /\ Forall2 (fun x y => f x = Some y) l ys.
Proof.
  intros Hl. assert (is_Some (mapM f l)) as [ys E].
  { apply mapM_is_Some. by rewrite Forall_forall. }
  exists ys. split; [done|]. by apply mapM_Some_1.
Qed.

Lemma slice_total {A} (l : list A) a b : a <= b <= length l -> exists s, slice l a b = Some s /\ length s = b - a.
Proof. intros H. rewrite slice_some by done. eexists. split; [done|]. rewrite length_take, length_drop. lia. Qed.

Lemma fold_opt_total {A B} (f : A -> B -> option A) a l :
  (forall a b, b ∈ l -> is_Some (f a b)) -> is_Some (fold_opt f a l).
Proof.
  intros Hf. destruct (fold_opt_inv (fun _ => True) f l a) as (r & -> & _); [done| |by eexists].
  intros x b Hb _. destruct (Hf x b Hb) as [y ->]. by eexists.
Qed.

Lemma in_seq0 i n : i ∈ seq 0 n -> i < n.
Proof. rewrite elem_of_seq. lia. Qed.

(** Row [i] of [n] rows of width [w]. *)
Lemma row_le i n w : i < n -> i * w + w <= n * w.
Proof. intros H. replace (i * w + w) with ((i + 1) * w) by lia. apply Nat.mul_le_mono_r. lia. Qed.

(** ** The closest of a list of distances *)

(** The fold over the pairs keeps an index whose distance nothing before it
    is below. *)
Definition closest (done : list f32) (b : nat * f32) : Prop :=
  (done !! b.1 = Some b.2 \/ b = (0, S754_infinity false)) /\
  forall i d, done !! i = Some d -> flt d b.2 = false.

Lemma closest_step done b d :
  closest done b -> closest (done ++ [d]) (closer b (length done, d)).
Proof.
  intros [Hb Hmin]. unfold closer. cbn. destruct (flt d b.2) eqn:E; cbn; split; cbn.
  - left. by apply list_lookup_middle.
  - intros i x [Hi|[_ Hi]]%lookup_app_Some.
    + destruct (flt x d) eqn:Ex; [|done]. by rewrite <- (Hmin i x Hi), (flt_trans x d).
    + apply list_lookup_singleton_Some in Hi as [_ <-]. apply flt_irrefl.
  - destruct Hb as [Hb| ->]; [left|by right]. by apply lookup_app_l_Some.
  - intros i x [Hi|[_ Hi]]%lookup_app_Some; [by eapply Hmin|].
    apply list_lookup_singleton_Some in Hi as [_ <-]. done.
Qed.

Lemma closest_fold ds done b :
  closest done b ->
  closest (done ++ ds) (fold_left closer (zip (seq (length done) (length ds)) ds) b).
Proof.
  revert done b. induction ds as [|d ds IH]; intros done b Hb; cbn; [by rewrite app_nil_r|].
  specialize (IH (done ++ [d]) _ (closest_step done b d Hb)).
  rewrite <- app_assoc in IH. rewrite length_app in IH. cbn in IH. by rewrite Nat.add_1_r in IH.
Qed.

Lemma argmin_spec ds :
  ds <> [] -> exists d, ds !! argmin ds = Some d /\ forall i x, ds !! i = Some x -> flt x d = false.
Proof.
  intros Hne. unfold argmin.
  destruct (closest_fold ds [] (0, S754_infinity false)) as [Hb Hmin].
  { split; [by right|]. intros i d Hd. by rewrite lookup_nil in Hd. }
  cbn [length app] in *. destruct (fold_left _ _ _) as [j e]. cbn in *.
  destruct Hb as [Hb|[= -> ->]]; [by exists e|].
  destruct ds as [|d ds]; [done|]. exists d. split; [done|]. intros i x Hi.
  by apply not_flt_infinity, (Hmin i).
Qed.

Lemma argmin_lt ds : ds <> [] -> argmin ds < length ds.
Proof. intros Hne. destruct (argmin_spec ds Hne) as (d & Hd & _). by apply lookup_lt_Some in Hd. Qed.

(** ** Training *)

Lemma centroid_at_total cs sub k c :
  length cs = k * sub -> c < k -> exists v, centroid_at cs sub c = Some v /\ length v = sub.
Proof.
  intros Hl Hc. unfold centroid_at. destruct (slice_total cs (c * sub) ((c + 1) * sub)) as (v & Hv & Hn).
  - pose proof (row_le c k sub Hc). lia.
  - exists v. split; [done|]. lia.
Qed.

Lemma distances_total {A} (f : A -> f32) (g : nat -> option A) k :
  (forall c, c < k -> is_Some (g c)) -> exists ds, mapM (fun c => f <$> g c) (seq 0 k) = Some ds /\ length ds = k.
Proof.
  intros Hg. destruct (mapM_total (fun c => f <$> g c) (seq 0 k)) as (ds & E & H2).
  { intros c Hc%in_seq0. destruct (Hg c Hc) as [v ->]. by eexists. }
  exists ds. split; [done|]. apply Forall2_length in H2. by rewrite <- H2, length_seq.
Qed.

Lemma assign_point_total cs sub k p :
  0 < k -> length cs = k * sub -> exists c, assign_point cs sub k p = Some c /\ c < k.
Proof.
  intros Hk Hl. unfold assign_point. destruct (distances_total (l2_sq p) (centroid_at cs sub) k) as (ds & -> & Hn).
  { intros c Hc. destruct (centroid_at_total cs sub k c Hl Hc) as (v & -> & _). by eexists. }
  cbn. eexists. split; [done|]. rewrite <- Hn. apply argmin_lt. intros ->. cbn in Hn. lia.
Qed.

Lemma add_point_total sub k sums c p :
  c < k -> length sums = k * sub -> length p = sub ->
  exists s, add_point sub sums c p = Some s /\ length s = k * sub.
Proof.
  intros Hc Hs Hp. apply (fold_opt_inv (fun s : list f32 => length s = k * sub)); [done|].
  intros s d Hd%in_seq0 Hl. pose proof (row_le c k sub Hc).
  destruct (lookup_lt_is_Some_2 p d) as [x ->]; [lia|].
  destruct (lookup_lt_is_Some_2 s (c * sub + d)) as [y ->]; [lia|]. cbn. eexists. split; [done|].
  by rewrite length_insert.
Qed.

Lemma recenter_total sub k sums counts cs c :
  c < k -> length sums = k * sub -> length counts = k -> length cs = k * sub ->
  exists s, recenter sub sums counts cs c = Some s /\ length s = k * sub.
Proof.
  intros Hc Hs Hn Hl. unfold recenter. destruct (lookup_lt_is_Some_2 counts c) as [n ->]; [lia|]. cbn [mbind option_bind].
  destruct (0 <? n); [|by exists cs].
  apply (fold_opt_inv (fun s : list f32 => length s = k * sub)); [done|].
  intros s d Hd%in_seq0 Hls. pose proof (row_le c k sub Hc). assert (c * sub + d < length s) as Hb by lia.
  destruct (lookup_lt_is_Some_2 sums (c * sub + d)) as [y ->]; [lia|]. apply Nat.ltb_lt in Hb.
  unfold mbind, option_bind. cbv beta iota. rewrite Hb. eexists. split; [done|]. by rewrite length_insert.
Qed.

Lemma lloyd_total points sub k cs :
  0 < k -> Forall (fun p => length p = sub) points -> length cs = k * sub ->
  exists s, lloyd points sub k cs = Some s /\ length s = k * sub.
Proof.
  intros Hk Hp Hl. unfold lloyd.
  destruct (mapM_total (assign_point cs sub k) points) as (assign & -> & H2).
  { intros p _. destruct (assign_point_total cs sub k p Hk Hl) as (c & -> & _). by eexists. }
  cbn.
  destruct (fold_opt_inv (fun st : list f32 * list nat => length st.1 = k * sub /\ length st.2 = k)
    (accumulate sub) (zip points assign) (replicate (k * sub) f32_zero, replicate k 0)) as ([sums counts] & -> & Hs & Hn).
  - split; apply length_replicate.
  - intros [sums counts] [p c] Hin [Hs Hn]. cbn in *. unfold accumulate. cbn.
    pose proof (elem_of_zip_l _ _ _ _ Hin) as Hpin. rewrite Forall_forall in Hp.
    assert (c < k) as Hc.
    { apply list_elem_of_lookup in Hin as [i Hi]. apply lookup_zip_with_Some in Hi as (p' & c' & [= <- <-] & Hip & Hic).
      eapply (Forall2_lookup_lr _ _ _ _ _ _ H2 Hip) in Hic as Ha.
      destruct (assign_point_total cs sub k p Hk Hl) as (c2 & Ha2 & Hc2). congruence. }
    destruct (lookup_lt_is_Some_2 counts c) as [n ->]; [lia|]. cbn.
    destruct (add_point_total sub k sums c p Hc Hs (Hp p Hpin)) as (s & -> & Hls). cbn. eexists. split; [done|]. cbn.
    by rewrite length_insert.
  - cbn in *. apply (fold_opt_inv (fun s : list f32 => length s = k * sub)); [done|].
    intros s c Hc%in_seq0 Hls. by apply recenter_total.
Qed.

Lemma copy_into_total n dst at_ src :
  at_ + n <= length dst -> length src = n -> exists d, copy_into n dst at_ src = Some d /\ length d = length dst.
Proof.
  intros Hd Hs. unfold copy_into. rewrite (proj2 (Nat.leb_le _ _)), (proj2 (Nat.eqb_eq _ _)) by done. cbn.
  eexists. split; [done|]. rewrite !length_app, length_take, length_drop. lia.
Qed.

Lemma kmeans_total points sub k iters :
  points <> [] -> 0 < k <= length points -> Forall (fun p => length p = sub) points ->
  exists cs, kmeans points sub k iters = Some cs /\ length cs = k * sub.
Proof.
  intros Hne Hk Hp. unfold kmeans.
  replace (Nat.max (Nat.min k (length points)) 1) with k by lia.
  destruct (fold_opt_inv (fun s : list f32 => length s = k * sub)
    (fun cs c => p ← points !! (c * length points / k); copy_into sub cs (c * sub) p)
    (seq 0 k) (replicate (k * sub) f32_zero)) as (cs & -> & Hl).
  - by rewrite length_replicate.
  - intros cs c Hc%in_seq0 Hl.
    destruct (lookup_lt_is_Some_2 points (c * length points / k)) as [p Hpt].
    { apply Nat.Div0.div_lt_upper_bound. apply Nat.mul_lt_mono_pos_r; lia. }
    rewrite Hpt. cbn. rewrite Forall_lookup in Hp. pose proof (Hp _ _ Hpt). pose proof (row_le c k sub Hc).
    destruct (copy_into_total sub cs (c * sub) p) as (d & -> & Hd); [lia|done|]. exists d. split; [done|]. lia.
  - cbn. apply (fold_opt_inv (fun s : list f32 => length s = k * sub)); [done|].
    intros s _ _ Hls. apply lloyd_total; [lia|done|done].
Qed.

(** The codebook has [m] subspaces of at most 256 centroids. *)
Record cb_wf (dim : nat) (cb : PqCodebook) : Prop := {
  cbw_k : 0 < pq_k cb <= 256;
  cbw_dim : pq_m cb * sub_dim cb = dim;
  cbw_len : length (centroids cb) = pq_m cb * pq_k cb * sub_dim cb;
}.

Lemma pq_train_total sample dim m iters :
  sample <> [] -> Forall (fun v => length v = dim) sample -> 0 < m -> dim mod m = 0 ->
  exists cb, pq_train sample dim m iters = Some cb /\ cb_wf dim cb /\ pq_m cb = m.
Proof.
  intros Hne Hs Hm Hd. unfold pq_train. rewrite (proj2 (Nat.eqb_neq _ _)), (proj2 (Nat.eqb_eq _ _)) by lia. cbn [orb negb].
  set (sub := dim / m). set (k := Nat.max (Nat.min 256 (length sample)) 1).
  assert (0 < length sample) by (destruct sample; [done|cbn; lia]).
  assert (m * sub = dim) as Hms by (pose proof (Nat.div_mod_eq dim m); lia).
  destruct (fold_opt_inv (fun cs : list f32 => length cs = m * k * sub)
    (fun cs s => subvecs ← mapM (fun v => slice v (s * sub) ((s + 1) * sub)) sample;
                 part ← kmeans subvecs sub k iters; copy_into (k * sub) cs (s * k * sub) part)
    (seq 0 m) (replicate (m * k * sub) f32_zero)) as (cs & -> & Hl).
  - apply length_replicate.
  - intros cs s Hsm%in_seq0 Hl. pose proof (row_le s m sub Hsm).
    destruct (mapM_total (fun v => slice v (s * sub) ((s + 1) * sub)) sample) as (subs & -> & H2).
    { intros v Hv. rewrite Forall_forall in Hs. pose proof (Hs v Hv).
      destruct (slice_total v (s * sub) ((s + 1) * sub)) as (x & -> & _); [lia|]. by eexists. }
    cbn [mbind option_bind]. pose proof (Forall2_length _ _ _ H2) as Hlen.
    destruct (kmeans_total subs sub k iters) as (part & -> & Hp).
    + intros ->. cbn in Hlen. lia.
    + lia.
    + apply Forall_lookup. intros i x Hx. destruct (lookup_lt_is_Some_2 sample i) as [v Hv].
      { rewrite Hlen. by eapply lookup_lt_Some. }
      pose proof (Forall2_lookup_lr _ _ _ _ _ _ H2 Hv Hx) as Hsl. apply slice_length in Hsl. lia.
    + cbn [mbind option_bind]. destruct (copy_into_total (k * sub) cs (s * k * sub) part) as (d & -> & Hdl); [|done|].
      * rewrite Hl, <- !Nat.mul_assoc. by apply row_le.
      * exists d. split; [done|]. by rewrite Hdl.
  - cbn [mbind option_bind]. eexists. split; [done|]. split; [|done]. split; cbn; lia.
Qed.

(** ** Encoding *)

Lemma row_fits s m k sub c : s < m -> c < k -> (s * k + c) * sub + sub <= m * k * sub.
Proof.
  intros Hs Hc. pose proof (row_le s m k Hs). apply row_le. lia.
Qed.

Lemma centroid_total dim cb s c :
  cb_wf dim cb -> s < pq_m cb -> c < pq_k cb ->
  exists v, centroid cb s c = Some v /\ length v = sub_dim cb.
Proof.
  intros Hw Hs Hc. unfold centroid. pose proof (row_fits s (pq_m cb) (pq_k cb) (sub_dim cb) c Hs Hc).
  edestruct (slice_total (centroids cb)) as (v & -> & Hv); [|exists v; split; [done|]; lia].
  rewrite (cbw_len dim cb Hw). lia.
Qed.

(** The distances of a subvector to the centroids of its subspace. *)
Definition sub_distances (cb : PqCodebook) (s : nat) (sub : list f32) : option (list f32) :=
  mapM (fun c => l2_sq sub <$> centroid cb s c) (seq 0 (pq_k cb)).

Lemma nearest_total dim cb s sub :
  cb_wf dim cb -> s < pq_m cb ->
  exists ds code d, sub_distances cb s sub = Some ds /\ length ds = pq_k cb /\ code < pq_k cb /\
    nearest cb s sub = Some (Z.of_nat code) /\ ds !! code = Some d /\
    forall c x, ds !! c = Some x -> flt x d = false.
Proof.
  intros Hw Hs. pose proof (cbw_k dim cb Hw). unfold nearest, sub_distances.
  destruct (distances_total (l2_sq sub) (centroid cb s) (pq_k cb)) as (ds & E & Hn).
  { intros c Hc. destruct (centroid_total dim cb s c Hw Hs Hc) as (v & -> & _). by eexists. }
  rewrite E. cbn [mbind option_bind]. assert (ds <> []) as Hne by (intros ->; cbn in Hn; lia).
  destruct (argmin_spec ds Hne) as (d & Hd & Hmin). pose proof (argmin_lt ds Hne).
  exists ds, (argmin ds), d. split_and!; [done|done|lia| |done|done].
  rewrite Z.mod_small by lia. done.
Qed.

(** The codes of a vector: one per subspace. *)
Definition codes_of (cb : PqCodebook) (v : list f32) (s : nat) (code : Z) : Prop :=
  exists sub ds d, slice v (s * sub_dim cb) ((s + 1) * sub_dim cb) = Some sub /\
    sub_distances cb s sub = Some ds /\ (0 <= code < Z.of_nat (pq_k cb))%Z /\
    ds !! Z.to_nat code = Some d /\ forall c x, ds !! c = Some x -> flt x d = false.

Lemma pq_encode_total dim cb v codes :
  cb_wf dim cb -> length v = dim ->
  exists out, pq_encode_into v cb codes = Some (codes ++ out) /\ length out = pq_m cb /\
    forall s code, out !! s = Some code -> codes_of cb v s code.
Proof.
  intros Hw Hv. unfold pq_encode_into.
  destruct (fold_opt_ind (fun ds o => exists out, o = codes ++ out /\ length out = length ds /\
      forall s code, out !! s = Some code -> codes_of cb v s code)
    (fun codes s => sub ← slice v (s * sub_dim cb) ((s + 1) * sub_dim cb);
                    c ← nearest cb s sub; Some (codes ++ [c])) (seq 0 (pq_m cb)) codes)
    as (o & -> & out & -> & Hl & Hc).
  - exists []. split_and!; [by rewrite app_nil_r|done|]. intros s code Hs. by rewrite lookup_nil in Hs.
  - intros ds s rest o E (out & -> & Hl & Hc).
    assert (s < pq_m cb /\ s = length ds) as [Hs Hsd].
    { pose proof (f_equal length E) as El. rewrite length_seq, length_app in El. cbn in El.
      assert (seq 0 (pq_m cb) !! length ds = Some s) as Hlk by (rewrite E; by apply list_lookup_middle).
      apply lookup_seq in Hlk. lia. }
    pose proof (row_le s (pq_m cb) (sub_dim cb) Hs) as Hrow. rewrite (cbw_dim dim cb Hw) in Hrow.
    destruct (slice_total v (s * sub_dim cb) ((s + 1) * sub_dim cb)) as (sub & Hsl & _); [lia|].
    destruct (nearest_total dim cb s sub Hw Hs) as (dd & code & d & Hsd2 & Hn & Hlt & Hnear & Hd & Hmin).
    rewrite Hsl. cbn [mbind option_bind]. rewrite Hnear. cbn [mbind option_bind].
    eexists. split; [done|]. exists (out ++ [Z.of_nat code]). rewrite <- app_assoc. split_and!; [done| |].
    + rewrite !length_app. cbn. lia.
    + intros s' c' [Hi|[Hge Hi]]%lookup_app_Some; [by apply Hc|].
      apply list_lookup_singleton_Some in Hi as [Hz <-]. replace s' with s by lia.
      exists sub, dd, d. rewrite Nat2Z.id. split_and!; try done; lia.
  - exists out. rewrite Hl, length_seq. done.
Qed.

(** A code that names a centroid in every subspace decodes. *)
Definition codes_wf (cb : PqCodebook) (codes : bytes) : Prop :=
  length codes = pq_m cb /\ Forall (fun c => (0 <= c < Z.of_nat (pq_k cb))%Z) codes.

Lemma codes_of_wf cb v out :
  length out = pq_m cb -> (forall s code, out !! s = Some code -> codes_of cb v s code) -> codes_wf cb out.
Proof.
  intros Hl Hc. split; [done|]. apply Forall_lookup. intros s c Hs.
  by destruct (Hc s c Hs) as (sub & ds & d & _ & _ & Hr & _).
Qed.

Lemma code_centroid_total dim cb codes s :
  cb_wf dim cb -> codes_wf cb codes -> s < pq_m cb ->
  exists v, code_centroid cb codes s = Some v /\ length v = sub_dim cb.
Proof.
  intros Hw [Hl Hc] Hs. unfold code_centroid. destruct (lookup_lt_is_Some_2 codes s) as [c Hcs]; [lia|].
  rewrite Hcs. cbn [mbind option_bind]. rewrite Forall_lookup in Hc. pose proof (Hc s c Hcs).
  apply (centroid_total dim); [done|done|lia].
Qed.

Lemma pq_dot_query_total dim cb codes q :
  cb_wf dim cb -> codes_wf cb codes -> length q = dim -> is_Some (pq_dot_query codes cb q).
Proof.
  intros Hw Hc Hq. unfold pq_dot_query. apply fold_opt_total. intros acc s Hs%in_seq0. pose proof (row_le s _ (sub_dim cb) Hs) as Hrow.
  rewrite (cbw_dim dim cb Hw) in Hrow.
  destruct (slice_total q (s * sub_dim cb) ((s + 1) * sub_dim cb)) as (sub & -> & _); [lia|].
  destruct (code_centroid_total dim cb codes s Hw Hc Hs) as (v & Hv & _).
  cbn [mbind option_bind]. rewrite Hv. by eexists.
Qed.

Lemma pq_dot_codes_total dim cb a b :
  cb_wf dim cb -> codes_wf cb a -> codes_wf cb b -> is_Some (pq_dot_codes a b cb).
Proof.
  intros Hw Ha Hb. unfold pq_dot_codes. apply fold_opt_total. intros acc s Hs%in_seq0.
  destruct (code_centroid_total dim cb a s Hw Ha Hs) as (v & Hv & _).
  destruct (code_centroid_total dim cb b s Hw Hb Hs) as (w & Hw' & _).
  rewrite Hv, Hw'. by eexists.
Qed.

Lemma pq_decode_total dim cb codes :
  cb_wf dim cb -> codes_wf cb codes -> exists v, pq_decode codes cb = Some v /\ length v = dim.
Proof.
  intros Hw [Hl Hc]. unfold pq_decode.
  destruct (fold_opt_ind (fun ds (o : list f32) => length o = length ds * sub_dim cb)
    (fun out '(s, code) => c ← centroid cb s (Z.to_nat code); Some (out ++ c))
    (zip (seq 0 (length codes)) codes) []) as (v & -> & Hv); [done| |].
  - intros ds [s c] rest o E Ho.
    assert (zip (seq 0 (length codes)) codes !! length ds = Some (s, c)) as Hlk by (rewrite E; by apply list_lookup_middle).
    apply lookup_zip_with_Some in Hlk as (s' & c' & [= <- <-] & Hs & Hcc). apply lookup_seq in Hs.
    rewrite Forall_lookup in Hc. pose proof (Hc _ _ Hcc).
    destruct (centroid_total dim cb s (Z.to_nat c) Hw) as (v & Hv & Hlv); [lia|lia|].
    rewrite Hv. cbn [mbind option_bind]. eexists. split; [done|]. rewrite !length_app, Ho, Hlv. cbn. lia.
  - exists v. split; [done|]. rewrite Hv, length_zip_with, length_seq, Nat.min_id, Hl. apply (cbw_dim dim cb Hw).
Qed.

(** ** Binary codes *)

Local Open Scope Z_scope.

(** The bits of [bs], in order, are [f]. *)
Definition bits_are (f : nat -> bool) (bs : bytes) : Prop :=
  forall j b, bs !! j = Some b ->
  0 <= b /\ forall t : nat, Z.testbit b (Z.of_nat t) = (t <? 8)%nat && f (8 * j + t)%nat.

Lemma bits_are_zero n : bits_are (fun _ => false) (replicate n 0).
Proof.
  intros j b [-> _]%lookup_replicate. split; [done|]. intros t. by rewrite Z.bits_0, andb_false_r.
Qed.

Lemma bits_are_set f bs i :
  bits_are f bs ->
  bits_are (fun k => f k || (k =? i)%nat) (alter (fun b => Z.lor b (Z.shiftl 1 (Z.of_nat (i mod 8)))) (i / 8)%nat bs).
Proof.
  intros Hb j b Hj. pose proof (Nat.div_mod_eq i 8). pose proof (Nat.mod_upper_bound i 8 ltac:(lia)).
  set (q := (i / 8)%nat) in *. set (r := (i mod 8)%nat) in *.
  destruct (decide (j = q)) as [->|Hne].
  - rewrite list_lookup_alter_eq in Hj. destruct (bs !! q) as [b0|] eqn:E; [|done]. injection Hj as <-.
    destruct (Hb q b0 E) as [Hnn Ht]. split.
    { apply Z.lor_nonneg. split; [done|]. apply Z.shiftl_nonneg. lia. }
    intros t. rewrite Z.lor_spec, Ht, Z.shiftl_spec by lia.
    assert (Z.testbit 1 (Z.of_nat t - Z.of_nat r) = (t =? r)%nat) as ->.
    { destruct (Nat.eqb_spec t r) as [->|]; [by rewrite Z.sub_diag|].
      destruct (decide (t < r)%nat); [apply Z.testbit_neg_r; lia|]. apply Z.bits_above_log2; [lia|]. change (Z.log2 1) with 0. lia. }
    assert ((8 * q + t =? i)%nat = (t =? r)%nat) as ->.
    { destruct (Nat.eqb_spec t r), (Nat.eqb_spec (8 * q + t) i); done || lia. }
    destruct (Nat.ltb_spec t 8), (Nat.eqb_spec t r), (f _); done || lia.
  - rewrite list_lookup_alter_ne in Hj by done. destruct (Hb j b Hj) as [Hnn Ht]. split; [done|].
    intros t. rewrite Ht. destruct (Nat.ltb_spec t 8); [|done]. cbn [andb].
    destruct (Nat.eqb_spec (8 * j + t) i); [lia|]. by rewrite orb_false_r.
Qed.

Lemma bits_are_ext f g bs : (forall k, f k = g k) -> bits_are f bs -> bits_are g bs.
Proof. intros He Hb j b Hj. destruct (Hb j b Hj) as [Hnn Ht]. split; [done|]. intros t. by rewrite Ht, He. Qed.

(** The signs of a vector; a position out of range is not positive. *)
Definition sign_at (v : list f32) (k : nat) : bool :=
  match v !! k with Some x => fgt x f32_zero | None => false end.

Lemma bq_set_app start pre bs p :
  length pre = start -> bq_set start (pre ++ bs) p = pre ++ bq_set 0 bs p.
Proof.
  intros <-. unfold bq_set. destruct (fgt _ _); [|done]. cbn [Nat.add].
  induction pre as [|y pre IH]; [done|]. exact (f_equal (cons y) IH).
Qed.

Lemma bq_encode_fold pre bs l :
  fold_left (bq_set (length pre)) l (pre ++ bs) = pre ++ fold_left (bq_set 0) l bs.
Proof. revert bs. induction l as [|p l IH]; intros bs; [done|]. cbn [fold_left]. by rewrite bq_set_app, IH. Qed.

Lemma bq_encode_append v pre : bq_encode_into v pre = pre ++ bq_encode_into v [].
Proof. apply (bq_encode_fold pre). Qed.

Lemma bq_encode_bits v :
  length (bq_encode_into v []) = bq_bytes (length v) /\ bits_are (sign_at v) (bq_encode_into v []).
Proof.
  unfold bq_encode_into. cbn [length app].
  enough (forall n, (n <= length v)%nat ->
    let out := fold_left (bq_set 0) (zip (seq 0 n) (take n v)) (replicate (bq_bytes (length v)) 0) in
    length out = bq_bytes (length v) /\ bits_are (fun k => (k <? n)%nat && sign_at v k) out) as Hgen.
  { destruct (Hgen (length v) ltac:(lia)) as [Hl Hb]. rewrite take_ge in Hl, Hb by lia. split; [done|].
    eapply bits_are_ext; [|exact Hb]. intros k. cbv beta. destruct (Nat.ltb_spec k (length v)); [done|].
    unfold sign_at. by rewrite lookup_ge_None_2. }
  induction n as [|n IH]; intros Hn; cbn zeta.
  - split; [apply length_replicate|]. eapply bits_are_ext; [|apply bits_are_zero]. done.
  - destruct (IH ltac:(lia)) as [Hl Hb]. destruct (lookup_lt_is_Some_2 v n) as [x Hx]; [lia|].
    rewrite (take_S_r v n x Hx), seq_S, zip_with_app by (rewrite length_seq, length_take; lia).
    rewrite fold_left_app. cbn [zip_with fold_left Nat.add].
    set (out := fold_left _ _ _) in *. unfold bq_set. cbn [fst snd Nat.add].
    assert (sign_at v n = fgt x f32_zero) as Hsx by (unfold sign_at; by rewrite Hx).
    rewrite <- Hsx. destruct (sign_at v n) eqn:Es.
    + split; [by rewrite length_alter|]. eapply bits_are_ext; [|by apply bits_are_set]. intros k. cbn beta.
      destruct (Nat.ltb_spec k n), (Nat.ltb_spec k (S n)), (Nat.eqb_spec k n); subst; try lia; cbn;
        by rewrite ?orb_false_r, ?Es.
    + split; [done|]. eapply bits_are_ext; [|exact Hb]. intros k. cbn beta.
      destruct (Nat.ltb_spec k n), (Nat.ltb_spec k (S n)); try lia; try done. replace k with n by lia. by rewrite Es.
Qed.

Lemma bits_are_bq_bit f bs i :
  bits_are f bs -> (i < 8 * length bs)%nat -> bq_bit bs i = Some (f i).
Proof.
  intros Hb Hi. unfold bq_bit. pose proof (Nat.div_mod_eq i 8). pose proof (Nat.mod_upper_bound i 8 ltac:(lia)).
  destruct (lookup_lt_is_Some_2 bs (i / 8)) as [b Hbi].
  { apply Nat.Div0.div_lt_upper_bound. lia. }
  rewrite Hbi. cbn [mbind option_bind]. destruct (Hb _ _ Hbi) as [_ Ht].
  rewrite land_shiftr_bit. unfold bit. rewrite Ht, (proj2 (Nat.ltb_lt _ _)) by lia.
  cbn [andb]. rewrite <- Nat.div_mod_eq. by destruct (f i).
Qed.

Lemma bq_room n : (n <= 8 * bq_bytes n)%nat.
Proof. unfold bq_bytes. pose proof (Nat.div_mod_eq (n + 7) 8). pose proof (Nat.mod_upper_bound (n + 7) 8). lia. Qed.

(** *** Counting *)

Fixpoint count (f : nat -> bool) (n : nat) : Z :=
  match n with
  | O => 0
  | S n => count f n + Z.b2z (f n)
  end.

Lemma count_ext f g n : (forall k, (k < n)%nat -> f k = g k) -> count f n = count g n.
Proof. induction n as [|n IH]; intros He; [done|]. cbn. rewrite IH, He by auto. done. Qed.

Lemma count_more f n m : (n <= m)%nat -> (forall k, (n <= k)%nat -> f k = false) -> count f m = count f n.
Proof.
  intros Hnm Hf. induction m as [|m IH]; [by replace n with 0%nat by lia|].
  destruct (decide (n = S m)) as [->|]; [done|]. cbn. rewrite IH, Hf by lia. cbn. lia.
Qed.

Lemma count_filter {A} (P : A -> bool) l :
  count (fun k => match l !! k with Some x => P x | None => false end) (length l) =
  Z.of_nat (length (filter (fun x => P x = true) l)).
Proof.
  induction l as [|x l IH] using rev_ind; [done|].
  rewrite length_app, Nat.add_1_r, list.filter_app, length_app. cbn [count].
  rewrite list_lookup_middle by done.
  rewrite (count_ext _ (fun k => match l !! k with Some y => P y | None => false end))
    by (intros k Hk; by rewrite lookup_app_l).
  rewrite IH.
  rewrite Nat2Z.inj_add. f_equal. rewrite filter_cons. destruct (P x) eqn:E.
  - by rewrite decide_True.
  - by rewrite decide_False.
Qed.

Lemma hamming_count f g a b :
  bits_are f a -> bits_are g b -> length a = length b ->
  bq_hamming a b = count (fun k => xorb (f k) (g k)) (8 * length a).
Proof.
  revert b. induction a as [|x a IH] using rev_ind; intros b Ha Hb Hl.
  - by destruct b.
  - destruct b as [|y b _] using rev_ind; [rewrite length_app in Hl; cbn in Hl; lia|].
    rewrite !length_app in Hl. cbn in Hl. assert (length a = length b) as Hab by lia.
    unfold bq_hamming in *. rewrite zip_with_app, fold_left_app by done. cbn [zip_with fold_left].
    rewrite IH by (try done; intros j c Hj; (apply Ha || apply Hb); by apply lookup_app_l_Some).
    rewrite length_app. cbn [length]. replace (8 * (length a + 1))%nat with (8 + 8 * length a)%nat by lia.
    assert (forall t : nat, (t < 8)%nat -> Z.testbit (Z.lxor x y) (Z.of_nat t) =
      xorb (f (t + 8 * length a)%nat) (g (t + 8 * length a)%nat)) as Ht.
    { intros t Hlt. rewrite Z.lxor_spec.
      destruct (Ha (length a) x) as [_ ->]; [by apply list_lookup_middle|].
      destruct (Hb (length b) y) as [_ ->]; [by apply list_lookup_middle|].
      rewrite (proj2 (Nat.ltb_lt _ _)) by done. rewrite <- Hab, (Nat.add_comm t). done. }
    unfold count_ones. cbn [fold_left].
    pose proof (Ht 0%nat ltac:(lia) : Z.testbit (Z.lxor x y) 0 = _) as T0. pose proof (Ht 1%nat ltac:(lia) : Z.testbit (Z.lxor x y) 1 = _) as T1.
    pose proof (Ht 2%nat ltac:(lia) : Z.testbit (Z.lxor x y) 2 = _) as T2. pose proof (Ht 3%nat ltac:(lia) : Z.testbit (Z.lxor x y) 3 = _) as T3.
    pose proof (Ht 4%nat ltac:(lia) : Z.testbit (Z.lxor x y) 4 = _) as T4. pose proof (Ht 5%nat ltac:(lia) : Z.testbit (Z.lxor x y) 5 = _) as T5.
    pose proof (Ht 6%nat ltac:(lia) : Z.testbit (Z.lxor x y) 6 = _) as T6. pose proof (Ht 7%nat ltac:(lia) : Z.testbit (Z.lxor x y) 7 = _) as T7.
    rewrite T0, T1, T2, T3, T4, T5, T6, T7.
    cbn [Nat.add count]. unfold Z.b2z. lia.
Qed.

(** *** Scalar codes *)

Lemma f_round_u64_nonneg x : 0 <= f_round_u64 x.
Proof.
  unfold f_round_u64. destruct x as [s|s| |s m e]; [done|by destruct s|done|]. destruct s; [done|].
  apply Z.min_glb; [done|]. destruct (0 <=? e); [apply Z.mul_nonneg_nonneg; [lia|]; apply Z.pow_nonneg; lia|].
  assert (0 <= 2 ^ (- e)) by (apply Z.pow_nonneg; lia). destruct (Z.eq_dec (2 ^ (- e)) 0) as [->|].
  - by rewrite Z.div_0_r.
  - apply Z.div_pos; lia.
Qed.

Lemma sq_code_byte scale min x : is_byte (sq_code scale min x).
Proof.
  unfold sq_code, is_byte, f32_round_u8. destruct (fgt _ _); [|lia].
  pose proof (f_round_u64_nonneg (f32_div (f32_sub x min) scale)). lia.
Qed.

Lemma quantize_codes v codes :
  exists out, (quantize_into v codes).2 = codes ++ out /\ length out = length v /\ Forall is_byte out.
Proof.
  unfold quantize_into. destruct v as [|x v]; [exists []; by rewrite app_nil_r|].
  set (scale := if fgt _ _ then _ else _). set (min := sq_min _). generalize f32_zero as s0.
  generalize (x :: v) as l. clearbody scale min. intros l. revert codes.
  induction l as [|y l IH]; intros codes s0; cbn [fold_left].
  - exists []. by rewrite app_nil_r.
  - destruct (IH (codes ++ [sq_code scale min y]) (f32_add s0 (f32_of_Z (sq_code scale min y)))) as (out & E & Hl & Hf).
    exists (sq_code scale min y :: out). rewrite <- app_assoc in E. split; [exact E|]. split; [cbn; lia|].
    constructor; [apply sq_code_byte|done].
Qed.

(** The sum of products the accumulator stands for. *)
Definition code_dot_exact (a b : bytes) : Z := foldr (fun '(x, y) n => x * y + n) 0 (zip a b).

Lemma code_dot_fold l acc :
  Forall (fun p : Z * Z => is_byte p.1 /\ is_byte p.2) l ->
  0 <= acc -> acc + 65025 * Z.of_nat (length l) < 2 ^ 32 ->
  fold_left (fun acc '(x, y) => (acc + x * y) mod 2 ^ 32) l acc = acc + foldr (fun '(x, y) n => x * y + n) 0 l.
Proof.
  intros Hf. revert acc. induction Hf as [|[x y] l [Hx Hy] _ IH]; intros acc H0 Hs; cbn [fold_left foldr]; [lia|].
  unfold is_byte in *. cbn [fst snd length] in *. assert (0 <= x * y <= 65025) by nia.
  rewrite Z.mod_small by lia. rewrite IH by lia. lia.
Qed.

Lemma code_dot_no_wrap a b :
  Forall is_byte a -> Forall is_byte b -> Z.of_nat (length a) <= 66051 -> code_dot a b = code_dot_exact a b.
Proof.
  intros Ha Hb Hl. unfold code_dot, code_dot_exact. rewrite code_dot_fold; [lia| |lia|].
  - apply Forall_forall. intros [x y] Hin. rewrite Forall_forall in Ha, Hb.
    split; [apply Ha; by eapply elem_of_zip_l|apply Hb; by eapply elem_of_zip_r].
  - rewrite length_zip_with. lia.
Qed.

(** ** Properties *)

(** product quantization works on every shape the graph gives it.
    Training on a non-empty sample of [dim]-vectors with [m] dividing [dim]
    does not panic; the codebook then encodes every [dim]-vector into [m]
    codes, each naming a centroid of its subspace that no other centroid of
    that subspace is closer than; and the codes decode to a [dim]-vector. *)
Theorem pq_train_encode_nearest (sample : list (list f32)) (dim m iters : nat) :
  sample <> [] -> Forall (fun v => length v = dim) sample -> (0 < m)%nat -> (dim mod m = 0)%nat ->
  exists cb, pq_train sample dim m iters = Some cb /\ (0 < pq_k cb <= 256)%nat /\
    forall v codes, length v = dim ->
    exists out w, pq_encode_into v cb codes = Some (codes ++ out) /\ length out = m /\
      (forall s code, out !! s = Some code -> codes_of cb v s code) /\
      pq_decode out cb = Some w /\ length w = dim.
Proof.
  intros Hne Hs Hm Hd. destruct (pq_train_total sample dim m iters Hne Hs Hm Hd) as (cb & E & Hw & Hcm).
  exists cb. split; [done|]. split; [apply (cbw_k dim cb Hw)|]. intros v codes Hv.
  destruct (pq_encode_total dim cb v codes Hw Hv) as (out & Eo & Hl & Hc).
  destruct (pq_decode_total dim cb out Hw (codes_of_wf cb v out Hl Hc)) as (w & Ew & Hlw).
  exists out, w. split_and!; [done|lia|done|done|done].
Qed.

Definition two_points : list (list f32) := [[f32_of_Z 1; f32_of_Z 2]; [f32_of_Z 3; f32_of_Z 5]].

Example two_points_codes :
  (cb ← pq_train two_points 2 2 1; pq_encode_into [f32_of_Z 3; f32_of_Z 2] cb []) = Some [1; 0].
Proof. vm_compute. reflexivity. Qed.

Lemma pq_train_encode_nearest_witness :
  exists cb, pq_train two_points 2 2 1 = Some cb /\
  exists out, pq_encode_into [f32_of_Z 3; f32_of_Z 2] cb [] = Some out /\ length out = 2%nat.
Proof.
  destruct (pq_train_encode_nearest two_points 2 2 1) as (cb & E & _ & He).
  - done.
  - repeat constructor.
  - lia.
  - reflexivity.
  - exists cb. split; [exact E|]. destruct (He [f32_of_Z 3; f32_of_Z 2] [] eq_refl) as (out & w & Eo & Hl & _).
    exists out. split; [exact Eo|exact Hl].
Defined.

(** a binary code is the signs of the vector, and the Hamming distance of
    two codes counts the components whose signs differ. *)
Theorem bq_codes_are_signs (a b : list f32) :
  length a = length b ->
  (forall i x, a !! i = Some x -> bq_bit (bq_encode_into a []) i = Some (fgt x f32_zero)) /\
  bq_hamming (bq_encode_into a []) (bq_encode_into b []) =
  Z.of_nat (length (filter (fun p : f32 * f32 => xorb (fgt p.1 f32_zero) (fgt p.2 f32_zero) = true) (zip a b))).
Proof.
  intros Hl. destruct (bq_encode_bits a) as [Hla Ha], (bq_encode_bits b) as [Hlb Hb].
  pose proof (bq_room (length a)) as Hroom. split.
  - intros i x Hi. pose proof (lookup_lt_Some _ _ _ Hi). rewrite (bits_are_bq_bit (sign_at a)) by (done || lia).
    unfold sign_at. by rewrite Hi.
  - rewrite (hamming_count _ _ _ _ Ha Hb) by congruence. rewrite Hla.
    rewrite (count_more _ (length (zip a b))).
    + rewrite <- (count_filter (fun p => xorb (fgt p.1 f32_zero) (fgt p.2 f32_zero))). apply count_ext.
      intros k Hk. rewrite length_zip_with in Hk. unfold sign_at.
      destruct (lookup_lt_is_Some_2 a k) as [x Hx]; [lia|]. destruct (lookup_lt_is_Some_2 b k) as [y Hy]; [lia|].
      rewrite Hx, Hy. erewrite lookup_zip_with, Hx. cbn. by rewrite Hy.
    + rewrite length_zip_with. lia.
    + intros k Hk. rewrite length_zip_with in Hk. unfold sign_at. by rewrite !lookup_ge_None_2 by lia.
Qed.

Lemma bq_codes_are_signs_witness :
  bq_hamming (bq_encode_into [f32_of_Z 1; f32_of_Z (-1)] []) (bq_encode_into [f32_of_Z 2; f32_of_Z 1] []) = 1.
Proof.
  rewrite (proj2 (bq_codes_are_signs [f32_of_Z 1; f32_of_Z (-1)] [f32_of_Z 2; f32_of_Z 1] eq_refl)). reflexivity.
Defined.

(** a scalar code is one byte per component, and the 32-bit accumulator of
    the product of two codes does not wrap up to 66051 components. *)
Theorem sq_codes_fit (a b : list f32) :
  Z.of_nat (length a) <= 66051 ->
  let ca := (quantize_into a []).2 in
  let cb := (quantize_into b []).2 in
  length ca = length a /\ Forall is_byte ca /\ code_dot ca cb = code_dot_exact ca cb.
Proof.
  intros Hl ca cb. destruct (quantize_codes a []) as (oa & Ea & Hla & Hfa), (quantize_codes b []) as (ob & Eb & Hlb & Hfb).
  subst ca cb. rewrite Ea, Eb. cbn [app]. split_and!; [done|done|]. apply code_dot_no_wrap; [done|done|lia].
Qed.

Lemma sq_codes_fit_witness : let v := [f32_of_Z 1; f32_of_Z 3] in code_dot (quantize_into v []).2 (quantize_into v []).2 = 65025.
Proof.
  intros v. destruct (sq_codes_fit v v) as (_ & _ & E); [cbn; lia|]. etransitivity; [exact E|]. reflexivity.
Defined.
