(* ===== verification/Heap.v ===== *)
(** * The priority queue of the standard library

    [std::collections::BinaryHeap]: a multiset whose [pop] gives back a
    greatest element. Which of several greatest ones, and the order of
    [into_vec], are not documented, so the development uses the interface
    below; [list_heap] is one implementation, to run the models. *)
From S2P Require Import Prelude.
#[local] Set Default Goal Selector "!".

Class BinaryHeap (A : Type) (key : A -> Z) := {
  heap : Type;
  h_new : heap;
  h_push : A -> heap -> heap;
  h_pop : heap -> option (A * heap);
  h_peek : heap -> option A;
  h_len : heap -> nat;
  h_vec : heap -> list A;
}.
Arguments heap A {key _}.
Arguments h_new {A key _}.

Class BinaryHeapLaws (A : Type) (key : A -> Z) `{BinaryHeap A key} : Prop := {
  h_vec_new : h_vec h_new = [];
  h_vec_push x h : h_vec (h_push x h) ≡ₚ x :: h_vec h;
  h_pop_none h : h_pop h = None -> h_vec h = [];
  h_pop_some h x h' :
    h_pop h = Some (x, h') -> h_vec h ≡ₚ x :: h_vec h' /\ Forall (fun y => (key y <= key x)%Z) (h_vec h');
  h_peek_pop h : h_peek h = fst <$> h_pop h;
  h_len_vec h : h_len h = length (h_vec h);
}.

Section heap_facts.
Context {A : Type} {key : A -> Z} `{BinaryHeapLaws A key}.

Lemma h_peek_some h x :
  h_peek h = Some x -> x ∈ h_vec h /\ Forall (fun y => (key y <= key x)%Z) (h_vec h).
Proof.
  rewrite h_peek_pop. destruct (h_pop h) as [[y h']|] eqn:E; [|done]. cbn. intros [= ->].
  apply h_pop_some in E as [Hp Hf]. split; [rewrite Hp; by left|]. rewrite Hp. constructor; [lia|done].
Qed.

Lemma h_peek_none h : h_peek h = None -> h_vec h = [].
Proof. rewrite h_peek_pop. destruct (h_pop h) as [[y h']|] eqn:E; [done|]. intros _. by apply h_pop_none. Qed.
End heap_facts.

(** ** A list as a heap *)

Section list_heap.
Context {A : Type} (key : A -> Z).

Fixpoint list_pop (l : list A) : option (A * list A) :=
  match l with
  | [] => None
  | x :: l =>
      match list_pop l with
      | None => Some (x, [])
      | Some (y, l') => if (key y <=? key x)%Z then Some (x, y :: l') else Some (y, x :: l')
      end
  end.

Lemma list_pop_some l x l' :
  list_pop l = Some (x, l') -> l ≡ₚ x :: l' /\ Forall (fun y => (key y <= key x)%Z) l'.
Proof.
  revert x l'. induction l as [|a l IH]; intros x l'; [done|]. cbn.
  destruct (list_pop l) as [[y l1]|] eqn:E.
  - destruct (IH y l1 eq_refl) as [Hp Hf]. destruct (Z.leb_spec (key y) (key a)); intros [= <- <-].
    + split; [by rewrite Hp|]. constructor; [done|]. eapply Forall_impl; [exact Hf|]. cbn. lia.
    + split; [rewrite Hp; apply Permutation_swap|]. constructor; [lia|done].
  - intros [= <- <-]. split; [|done]. destruct l as [|b l]; [done|]. cbn in E. by repeat case_match.
Qed.
End list_heap.

Definition list_heap {A} (key : A -> Z) : BinaryHeap A key := {|
  heap := list A;
  h_new := [];
  h_push x h := x :: h;
  h_pop := list_pop key;
  h_peek h := fst <$> list_pop key h;
  h_len h := length h;
  h_vec h := h;
|}.

#[export] Instance list_heap_laws {A} (key : A -> Z) : @BinaryHeapLaws A key (list_heap key).
Proof.
  split; try done.
  - intros [|a l]; [done|]. cbn. by repeat case_match.
  - intros h x h'. apply list_pop_some.
Qed.

(** ** [slice::sort]

    Stable: an element goes before the equal ones that came after it. *)
Section stable_sort.
Context {A : Type} (key : A -> Z).

Fixpoint sort_insert (x : A) (l : list A) : list A :=
  match l with
  | [] => [x]
  | y :: l' => if (key x <=? key y)%Z then x :: l else y :: sort_insert x l'
  end.
Definition stable_sort (l : list A) : list A := foldr sort_insert [] l.

Definition ascending (l : list A) : Prop := StronglySorted (fun x y => (key x <= key y)%Z) l.

Lemma sort_insert_perm x l : sort_insert x l ≡ₚ x :: l.
Proof.
  induction l as [|y l IH]; [done|]. cbn. destruct (_ <=? _)%Z; [done|]. rewrite IH. apply Permutation_swap.
Qed.
Lemma stable_sort_perm l : stable_sort l ≡ₚ l.
Proof. induction l as [|x l IH]; [done|]. cbn. by rewrite sort_insert_perm, IH. Qed.

Lemma sort_insert_ascending x l : ascending l -> ascending (sort_insert x l).
Proof.
  induction 1 as [|y l Hs IH Hy]; [by repeat constructor|]. cbn. destruct (Z.leb_spec (key x) (key y)).
  - constructor; [by constructor|]. constructor; [done|]. eapply Forall_impl; [exact Hy|]. cbn. lia.
  - constructor; [done|]. rewrite sort_insert_perm. constructor; [lia|done].
Qed.
Lemma stable_sort_ascending l : ascending (stable_sort l).
Proof. induction l as [|x l IH]; [constructor|]. by apply sort_insert_ascending. Qed.
End stable_sort.
