(* ===== verification/Paged.v ===== *)
(** * Vectors paged from a file (crates/recall/src/ann.rs: PageCache,
    PagedBase, MappedVec)

    A graph opened from disk reads its vectors through a bounded cache of
    pages; vectors inserted since live in a tail in memory. Reading changes
    the cache, which is state passed along here. A panic is [None]. *)
From S2P Require Import Prelude Floats Utf8 Keys KeysFacts.
#[local] Set Default Goal Selector "!".

(** [bytemuck::Pod]: a fixed-size element and its bytes. *)
Class Pod (T : Type) := {
  pod_size : nat;
  pod_read : bytes -> T;
  pod_write : T -> bytes;
  pod_valid : T -> bool;
}.
#[export] Instance pod_u8 : Pod Z := {|
  pod_size := 1; pod_read b := default 0%Z (head b); pod_write b := [b];
  pod_valid b := ((0 <=? b) && (b <? 256))%Z;
|}.
#[export] Instance pod_f32 : Pod f32 := {|
  pod_size := 4; pod_read := f32_of_le; pod_write := f32_le; pod_valid := f32_valid;
|}.

Class PodLaws (T : Type) `{Pod T} : Prop := {
  pod_write_length (x : T) : length (pod_write x) = pod_size;
  pod_read_write (x : T) : pod_valid x = true -> pod_read (pod_write x) = x;
}.
#[export] Instance pod_u8_laws : PodLaws Z.
Proof. by split. Qed.
#[export] Instance pod_f32_laws : PodLaws f32.
Proof.
  split; [intros x; apply length_le_bytes|]. apply f32_le_valid.
Qed.

Section paged.
Context `{Pod T}.

(** ** The cache *)

Record PageCache : Type := mkCache { cap : nat; tick : Z; pages : gmap nat (list T * Z) }.

Definition cache_new (cap : nat) : PageCache := mkCache cap 0 ∅.

Definition cache_get (idx : nat) (c : PageCache) : option (list T) * PageCache :=
  let tick := (tick c + 1)%Z in
  match pages c !! idx with
  | Some (p, _) => (Some p, mkCache (cap c) tick (<[idx := (p, tick)]> (pages c)))
  | None => (None, mkCache (cap c) tick (pages c))
  end.

(** [iter().min_by_key(tick)] *)
Definition older (best : option (nat * Z)) (p : nat * (list T * Z)) : option (nat * Z) :=
  match best with
  | Some (i, t) => if (p.2.2 <? t)%Z then Some (p.1, p.2.2) else best
  | None => Some (p.1, p.2.2)
  end.
Definition oldest (m : gmap nat (list T * Z)) : option (nat * Z) := fold_left older (map_to_list m) None.

Definition cache_put (idx : nat) (page : list T) (c : PageCache) : PageCache :=
  let m :=
    if bool_decide (pages c !! idx = None) && (cap c <=? size (pages c)) then
      match oldest (pages c) with Some (victim, _) => delete victim (pages c) | None => pages c end
    else pages c in
  let tick := (tick c + 1)%Z in
  mkCache (cap c) tick (<[idx := (page, tick)]> m).

Definition resident_bytes (c : PageCache) : nat :=
  map_fold (fun _ p n => length p.1 * pod_size + n) 0 (pages c).

(** ** The base *)

(** The file as read once by the operating system; it is owned by the estate
    and does not change while it is open. *)
Record PagedBase : Type := mkBase {
  file : bytes;
  unit_ : nat;
  per_page : nat;
  total : nat;
  cache : PageCache;
}.

Definition PAGE_BYTES : nat := 64 * 1024.

Definition base_new (file : bytes) (unit total budget : nat) : PagedBase :=
  let vec_bytes := unit * pod_size in
  let per_page := Nat.max (PAGE_BYTES / Nat.max vec_bytes 1) 1 in
  let page_bytes := per_page * vec_bytes in
  let cap_pages := Nat.max (budget / Nat.max page_bytes 1) 1 in
  mkBase file unit per_page total (cache_new cap_pages).

(** [cast_slice]: the elements of a run of bytes. *)
Fixpoint cast_elems (n : nat) (b : bytes) : list T :=
  match n with
  | O => []
  | S n => pod_read (take pod_size b) :: cast_elems n (drop pod_size b)
  end.

(** [read_exact_at] into a buffer of [elems] elements. *)
Definition read_exact_at (file : bytes) (elems off : nat) : option (list T) :=
  cast_elems elems <$> slice file off (off + elems * pod_size).

Definition with_cache (b : PagedBase) (c : PageCache) : PagedBase :=
  mkBase (file b) (unit_ b) (per_page b) (total b) c.

Definition load_page (b : PagedBase) (idx : nat) : option (list T) :=
  let start_vec := idx * per_page b in
  if total b <? start_vec then None
  else
    let count_vecs := Nat.min (total b - start_vec) (per_page b) in
    read_exact_at (file b) (count_vecs * unit_ b) (start_vec * unit_ b * pod_size).

Definition page (b : PagedBase) (idx : nat) : option (list T * PagedBase) :=
  match cache_get idx (cache b) with
  | (Some p, c) => Some (p, with_cache b c)
  | (None, c) =>
      buf ← load_page b idx;
      Some (buf, with_cache b (cache_put idx buf c))
  end.

Definition base_with (b : PagedBase) (node : nat) : option (list T * PagedBase) :=
  let page_idx := node / per_page b in
  let within := node mod per_page b in
  '(p, b) ← page b page_idx;
  let off := within * unit_ b in
  v ← slice p off (off + unit_ b);
  Some (v, b).

(** [stream_to]: the file in chunks of one mebibyte. *)
Fixpoint stream_loop (fuel : nat) (chunk total_bytes off : nat) (file out : bytes) : option bytes :=
  if off <? total_bytes then
    match fuel with
    | O => None
    | S fuel =>
        let n := Nat.min chunk (total_bytes - off) in
        buf ← slice file off (off + n);
        stream_loop fuel chunk total_bytes (off + n) file (out ++ buf)
    end
  else Some out.
Definition CHUNK : nat := 1024 * 1024.
Definition base_stream (b : PagedBase) (out : bytes) : option bytes :=
  let total_bytes := total b * unit_ b * pod_size in
  stream_loop total_bytes CHUNK total_bytes 0 (file b) out.

(** ** Base and tail *)

Record MappedVec : Type := mkMapped { base : option PagedBase; base_len : nat; tail_ : list T }.

Definition in_ram : MappedVec := mkMapped None 0 [].
Definition paged (b : PagedBase) (base_len : nat) : MappedVec := mkMapped (Some b) base_len [].

Definition mv_with (mv : MappedVec) (node unit : nat) : option (list T * MappedVec) :=
  match base mv with
  | None =>
      let s := node * unit in
      v ← slice (tail_ mv) s (s + unit); Some (v, mv)
  | Some b =>
      if unit =? 0 then None
      else
        let base_count := base_len mv / unit in
        if node <? base_count then
          '(v, b) ← base_with b node;
          Some (v, mkMapped (Some b) (base_len mv) (tail_ mv))
        else
          let s := (node - base_count) * unit in
          v ← slice (tail_ mv) s (s + unit); Some (v, mv)
  end.

(** The vector alone: what a reader sees of [mv_with], whose new cache stays
    behind the lock of the page cache. *)
Definition mv_read (mv : MappedVec) (node unit : nat) : option (list T) := fst <$> mv_with mv node unit.

Definition mv_push (mv : MappedVec) (block : list T) : MappedVec :=
  mkMapped (base mv) (base_len mv) (tail_ mv ++ block).
Definition mv_len (mv : MappedVec) : nat := base_len mv + length (tail_ mv).
Definition logical_bytes (mv : MappedVec) : nat := mv_len mv * pod_size.
Definition heap_bytes (mv : MappedVec) : nat :=
  length (tail_ mv) * pod_size + match base mv with Some b => resident_bytes (cache b) | None => 0 end.
(** [append_bytes] and [write_all] *)
Definition append_bytes (b : PagedBase) : option bytes := slice (file b) 0 (total b * unit_ b * pod_size).
Definition write_all (mv : MappedVec) : option bytes :=
  out ← match base mv with Some b => append_bytes b | None => Some [] end;
  Some (out ++ concat (map pod_write (tail_ mv))).
Definition stream_to (mv : MappedVec) : option bytes :=
  out ← match base mv with Some b => base_stream b [] | None => Some [] end;
  Some (out ++ concat (map pod_write (tail_ mv))).
Definition needs_flush (mv : MappedVec) : bool :=
  match base mv with None => true | Some _ => negb (bool_decide (tail_ mv = [])) end.
End paged.
Arguments PageCache : clear implicits.
Arguments PagedBase : clear implicits.
Arguments MappedVec : clear implicits.

(** ** Pages against the whole file *)

Section paged_facts.
Context `{Pod T}.

Lemma cast_elems_length n b : length (cast_elems (T:=T) n b) = n.
Proof. revert b. induction n as [|n IH]; intros b; [done|]. cbn. by rewrite IH. Qed.

Lemma cast_elems_lookup n b i :
  i < n -> cast_elems (T:=T) n b !! i = Some (pod_read (take pod_size (drop (i * pod_size) b))).
Proof.
  revert b i. induction n as [|n IH]; intros b i Hi; [lia|]. destruct i as [|i]; [done|].
  cbn [cast_elems lookup list_lookup]. rewrite IH by lia. by rewrite drop_drop.
Qed.

Lemma take_drop_slice {A} (l : list A) i n k w :
  i + w <= n -> take w (drop i (take n (drop k l))) = take w (drop (k + i) l).
Proof.
  intros Hi. apply list_eq. intros j. destruct (decide (j < w)).
  - rewrite (lookup_take_lt _ w) by lia. rewrite lookup_drop, lookup_take_lt, lookup_drop by lia.
    rewrite lookup_take_lt, lookup_drop by lia. f_equal. lia.
  - by rewrite !lookup_take_ge by lia.
Qed.

(** Casting a run of elements is the run of the cast. *)
Lemma cast_elems_run N n k (b : bytes) :
  k + n <= N ->
  cast_elems (T:=T) n (take (n * pod_size) (drop (k * pod_size) b)) = take n (drop k (cast_elems N b)).
Proof.
  intros Hk. apply list_eq. intros i. destruct (decide (i < n)).
  - rewrite (lookup_take_lt (drop k _)), lookup_drop by lia. rewrite !cast_elems_lookup by lia.
    rewrite take_drop_slice, <- Nat.mul_add_distr_r; [done|].
    assert ((i + 1) * pod_size <= n * pod_size) by (apply Nat.mul_le_mono_r; lia). lia.
  - rewrite lookup_take_ge by lia. apply lookup_ge_None_2. rewrite cast_elems_length. lia.
Qed.

(** The file is exactly the vectors. *)
Record base_wf (b : PagedBase T) : Prop := {
  bw_page : 0 < per_page b;
  bw_file : length (file b) = total b * unit_ b * pod_size;
}.
Definition base_content (b : PagedBase T) : list T := cast_elems (total b * unit_ b) (file b).

Lemma load_page_run b idx :
  base_wf b -> idx * per_page b <= total b ->
  load_page b idx =
  Some (take (Nat.min (total b - idx * per_page b) (per_page b) * unit_ b)
          (drop (idx * per_page b * unit_ b) (base_content b))).
Proof.
  intros [Hp Hf] Hi. unfold load_page. rewrite (proj2 (Nat.ltb_ge _ _)) by lia.
  set (n := Nat.min _ _). assert (idx * per_page b + n <= total b) by lia.
  set (s := idx * per_page b) in *. set (ps := @pod_size T _) in *.
  assert (s * unit_ b * ps + n * unit_ b * ps <= total b * unit_ b * ps).
  { rewrite <- Nat.mul_add_distr_r, <- Nat.mul_add_distr_r. do 2 apply Nat.mul_le_mono_r. done. }
  unfold read_exact_at. rewrite slice_some by lia. cbn. f_equal. unfold base_content.
  rewrite <- cast_elems_run by nia. f_equal. f_equal. unfold ps. lia.
Qed.

(** ** The cache holds pages of the file, at most its capacity of them *)

Definition cache_ok (b : PagedBase T) : Prop :=
  (forall idx p t, pages (cache b) !! idx = Some (p, t) -> load_page b idx = Some p) /\
  size (pages (cache b)) <= cap (cache b) /\ 0 < cap (cache b).

Lemma oldest_some (m : gmap nat (list T * Z)) :
  m <> ∅ -> exists i t, oldest m = Some (i, t) /\ is_Some (m !! i).
Proof.
  intros Hm. unfold oldest.
  assert (forall (l : list (nat * (list T * Z))) (b : option (nat * Z)), (forall i t, b = Some (i, t) -> is_Some (m !! i)) ->
    (forall (i : nat) x, (i, x) ∈ l -> m !! i = Some x) -> (is_Some b \/ l <> []) ->
    exists i t, fold_left older l b = Some (i, t) /\ is_Some (m !! i)) as Hgen.
  { induction l as [|[i x] l IH]; intros b Hb Hl Hne; cbn [fold_left].
    - destruct Hne as [[[i t] ->]|?]; [|done]. exists i, t. split; [done|]. by apply (Hb i t).
    - assert (is_Some (m !! i)) as Hi by (exists x; apply Hl; by left). apply IH.
      + intros j t. unfold older. destruct b as [[k s]|]; cbn.
        * destruct (_ <? _)%Z; [by intros [= <- <-]|apply Hb].
        * by intros [= <- <-].
      + intros j y Hy. apply Hl. by right.
      + left. unfold older. destruct b as [[k s]|]; cbn; [|by eexists]. destruct (_ <? _)%Z; by eexists. }
  apply Hgen; [done| |].
  - intros i x Hx. by apply elem_of_map_to_list.
  - right. intros E. by apply Hm, map_to_list_empty_iff.
Qed.

Lemma cache_put_ok b idx p :
  cache_ok b -> load_page b idx = Some p -> cache_ok (with_cache b (cache_put idx p (cache b))).
Proof.
  intros (Hc & Hs & Hcap) Hp. unfold cache_ok, cache_put. cbn.
  set (m := if bool_decide (pages (cache b) !! idx = None) && _ then _ else pages (cache b)).
  assert (m ⊆ pages (cache b)) as Hsub.
  { unfold m. destruct (_ && _); [|done]. destruct (oldest _) as [[v t]|]; [apply delete_subseteq|done]. }
  split; [|split; [|done]].
  - intros j q t [[<- [= <- _]]|[_ Hj]]%lookup_insert_Some.
    + exact Hp.
    + apply (Hc j q t). by eapply lookup_weaken.
  - destruct (m !! idx) as [x|] eqn:E.
    + rewrite map_size_insert_Some by done. etransitivity; [by apply map_subseteq_size|done].
    + rewrite map_size_insert_None by done. unfold m in *.
      destruct (bool_decide (pages (cache b) !! idx = None)) eqn:Eb; cbn in *.
      * destruct (Nat.leb_spec (cap (cache b)) (size (pages (cache b)))); [|lia].
        destruct (oldest_some (pages (cache b))) as (v & t & Ho & [y Hy]).
        { intros E0. rewrite E0, map_size_empty in *. lia. }
        rewrite Ho. rewrite map_size_delete_Some by done. lia.
      * apply bool_decide_eq_false in Eb. done.
Qed.

Lemma cache_touch_ok b idx :
  cache_ok b -> cache_ok (with_cache b (cache_get idx (cache b)).2).
Proof.
  intros (Hc & Hs & Hcap). unfold cache_get. destruct (pages (cache b) !! idx) as [[p t]|] eqn:E; cbn.
  - unfold cache_ok. cbn. split; [|split; [|done]].
    + intros j q s [[<- [= <- _]]|[_ Hj]]%lookup_insert_Some; by eapply Hc.
    + rewrite map_size_insert_Some by done. done.
  - done.
Qed.

Definition same_base (b b' : PagedBase T) : Prop :=
  file b' = file b /\ unit_ b' = unit_ b /\ per_page b' = per_page b /\ total b' = total b /\
  cap (cache b') = cap (cache b).

Lemma page_reads b idx :
  base_wf b -> cache_ok b -> idx * per_page b <= total b ->
  exists p b', page b idx = Some (p, b') /\ load_page b idx = Some p /\ cache_ok b' /\ same_base b b'.
Proof.
  intros Hw Hok Hi. pose proof (cache_touch_ok b idx Hok) as Htouch. unfold page, cache_get in *.
  destruct (pages (cache b) !! idx) as [[p t]|] eqn:E; cbn in *.
  - eexists p, _. split; [done|]. split; [by eapply Hok|]. done.
  - rewrite (load_page_run b idx Hw Hi). cbn. eexists _, _. split; [done|]. split; [done|]. split; [|done].
    eapply (cache_put_ok (with_cache b _) idx) in Htouch; [exact Htouch|]. exact (load_page_run b idx Hw Hi).
Qed.

Lemma base_with_reads b node :
  base_wf b -> cache_ok b -> node < total b ->
  exists b', base_with b node = Some (take (unit_ b) (drop (node * unit_ b) (base_content b)), b') /\
    cache_ok b' /\ same_base b b'.
Proof.
  intros Hw Hok Hn. unfold base_with. pose proof (bw_page b Hw) as Hpp.
  pose proof (Nat.div_mod_eq node (per_page b)) as Hdm. pose proof (Nat.mod_upper_bound node (per_page b) ltac:(lia)).
  set (q := node / per_page b) in *. set (r := node mod per_page b) in *.
  destruct (page_reads b q Hw Hok) as (p & b' & -> & Hl & Hok' & Hs); [nia|]. cbn.
  rewrite (load_page_run b q Hw) in Hl by nia. injection Hl as <-.
  destruct Hs as (Hfile & Hunit & Hper & Htot & Hcap). rewrite Hunit.
  assert (r + 1 <= Nat.min (total b - q * per_page b) (per_page b)) as Hr by nia.
  rewrite slice_some.
  - cbn. eexists. split; [|by split]. f_equal. f_equal.
    replace (r * unit_ b + unit_ b - r * unit_ b) with (unit_ b) by lia.
    rewrite take_drop_slice by nia. do 2 f_equal. nia.
  - rewrite length_take, length_drop. unfold base_content. rewrite cast_elems_length. nia.
Qed.

(** ** Base and tail together *)

Definition mv_content (mv : MappedVec T) : list T :=
  match base mv with Some b => base_content b | None => [] end ++ tail_ mv.

Definition mv_ok (unit : nat) (mv : MappedVec T) : Prop :=
  match base mv with
  | Some b => base_wf b /\ cache_ok b /\ unit_ b = unit /\ 0 < unit /\ base_len mv = total b * unit
  | None => base_len mv = 0
  end.

Lemma mv_content_length unit mv : mv_ok unit mv -> length (mv_content mv) = mv_len mv.
Proof.
  unfold mv_ok, mv_content, mv_len. destruct (base mv) as [b|].
  - intros (_ & _ & <- & _ & ->). rewrite length_app. unfold base_content. by rewrite cast_elems_length.
  - by intros ->.
Qed.

Lemma mv_with_ok (mv : MappedVec T) (unit node : nat) :
  mv_ok unit mv -> (node + 1) * unit <= mv_len mv ->
  exists mv', mv_with mv node unit = Some (take unit (drop (node * unit) (mv_content mv)), mv') /\
    mv_ok unit mv' /\ mv_content mv' = mv_content mv /\ mv_len mv' = mv_len mv.
Proof.
  intros Hok Hn. unfold mv_with, mv_ok, mv_content, mv_len in *. destruct (base mv) as [b|] eqn:Eb.
  - destruct Hok as (Hw & Hc & Hu & Hpos & Hlen). rewrite (proj2 (Nat.eqb_neq _ _)) by lia.
    rewrite Hlen, Nat.div_mul by lia.
    assert (length (base_content b) = total b * unit) as Hbl by (unfold base_content; rewrite cast_elems_length; congruence).
    destruct (Nat.ltb_spec node (total b)).
    + destruct (base_with_reads b node Hw Hc) as (b' & -> & Hc' & Hs); [done|]. cbn.
      rewrite Hu. eexists. split.
      { f_equal. f_equal. rewrite drop_app_le, take_app_le by (rewrite ?length_drop; nia). done. }
      cbn. destruct Hs as (Hfile & Hunit & Hper & Htot & Hcap).
      assert (base_content b' = base_content b) as -> by (unfold base_content; by rewrite Hfile, Hunit, Htot).
      split; [|done]. split; [by destruct Hw; split; congruence|]. split; [done|].
      split; [congruence|]. split; [done|]. rewrite Htot. lia.
    + rewrite slice_some by nia. cbn. eexists. split; [|rewrite Eb; exact (conj (conj Hw (conj Hc (conj Hu (conj Hpos Hlen)))) (conj eq_refl (f_equal (fun n => n + _) Hlen)))].
      f_equal. f_equal. rewrite drop_app_ge by nia. rewrite Hbl. f_equal; [lia|]. f_equal. nia.
  - rewrite slice_some by nia. cbn. eexists. split; [|by rewrite Eb]. f_equal. f_equal. f_equal. lia.
Qed.

Lemma mv_read_ok (mv : MappedVec T) (unit node : nat) :
  mv_ok unit mv -> (node + 1) * unit <= mv_len mv ->
  mv_read mv node unit = Some (take unit (drop (node * unit) (mv_content mv))).
Proof. intros Hok Hn. unfold mv_read. by destruct (mv_with_ok mv unit node Hok Hn) as (mv' & -> & _). Qed.

Lemma mv_push_ok unit (mv : MappedVec T) block : mv_ok unit mv -> mv_ok unit (mv_push mv block).
Proof. done. Qed.

Lemma mv_push_content (mv : MappedVec T) block : mv_content (mv_push mv block) = mv_content mv ++ block.
Proof. unfold mv_content. cbn. by rewrite app_assoc. Qed.

Lemma mv_push_len (mv : MappedVec T) block : mv_len (mv_push mv block) = mv_len mv + length block.
Proof. unfold mv_len. cbn. rewrite length_app. lia. Qed.

(** ** Writing *)

Context `{!PodLaws T}.

Lemma cast_elems_app n m a b :
  length a = n * pod_size -> cast_elems (T:=T) (n + m) (a ++ b) = cast_elems n a ++ cast_elems m b.
Proof.
  revert a. induction n as [|n IH]; intros a Ha; cbn [cast_elems app Nat.add].
  - by rewrite (length_zero_iff_nil a) in Ha; subst.
  - rewrite take_app_le, drop_app_le by lia. f_equal. apply IH. rewrite length_drop. lia.
Qed.

Lemma length_written (l : list T) : length (concat (map pod_write l)) = length l * pod_size.
Proof. induction l as [|x l IH]; [done|]. cbn. by rewrite length_app, IH, pod_write_length. Qed.

Lemma cast_written (l : list T) :
  Forall (fun x => pod_valid x = true) l -> cast_elems (length l) (concat (map pod_write l)) = l.
Proof.
  induction 1 as [|x l Hx _ IH]; [done|]. cbn [length cast_elems map concat].
  rewrite take_app_length', drop_app_length' by (by rewrite pod_write_length). by rewrite IH, pod_read_write.
Qed.

Lemma write_all_reads unit mv :
  mv_ok unit mv -> Forall (fun x => pod_valid x = true) (tail_ mv) ->
  exists out, write_all mv = Some out /\ length out = mv_len mv * pod_size /\
    cast_elems (mv_len mv) out = mv_content mv.
Proof.
  unfold mv_ok, write_all, mv_content, mv_len. intros Hok Ht. destruct (base mv) as [b|]; cbn.
  - destruct Hok as (Hw & _ & <- & _ & ->). unfold append_bytes.
    rewrite slice_some by (rewrite (bw_file b Hw); lia). cbn.
    rewrite drop_0, Nat.sub_0_r, take_ge by (rewrite (bw_file b Hw); lia). eexists. split; [done|].
    rewrite length_app, length_written, (bw_file b Hw). split; [lia|].
    rewrite cast_elems_app by apply (bw_file b Hw). by rewrite cast_written.
  - rewrite Hok. eexists. split; [done|]. cbn [Nat.add app]. by rewrite length_written, cast_written.
Qed.

(** Streaming in chunks writes the same bytes. *)
Lemma stream_loop_all fuel chunk n off file out :
  0 < chunk -> off <= n <= length file -> n - off <= fuel ->
  stream_loop fuel chunk n off file out = Some (out ++ take (n - off) (drop off file)).
Proof.
  intros Hc. revert off out. induction fuel as [|fuel IH]; intros off out Hn Hf; cbn [stream_loop].
  - rewrite (proj2 (Nat.ltb_ge off n)) by lia. replace (n - off) with 0 by lia. by rewrite take_0, app_nil_r.
  - destruct (Nat.ltb_spec off n).
    + set (k := Nat.min chunk (n - off)). rewrite slice_some by lia. cbn. rewrite IH by lia.
      rewrite <- app_assoc. do 2 f_equal. rewrite <- drop_drop.
      replace (off + k - off) with k by lia. replace (n - (off + k)) with (n - off - k) by lia.
      rewrite <- (take_drop k (take (n - off) _)). f_equal.
      * rewrite take_take. f_equal. lia.
      * by rewrite skipn_firstn_comm.
    + replace (n - off) with 0 by lia. by rewrite take_0, app_nil_r.
Qed.

Lemma stream_to_all unit mv : mv_ok unit mv -> stream_to mv = write_all mv.
Proof.
  unfold mv_ok, stream_to, write_all. destruct (base mv) as [b|]; [|done]. intros (Hw & _).
  pose proof (bw_file b Hw) as Hf. unfold base_stream, append_bytes.
  rewrite stream_loop_all, slice_some; [done|lia| |lia|lia]. unfold CHUNK. lia.
Qed.
End paged_facts.

(** ** What paging promises *)

Section Properties.
Context `{Pod T}.

(** paging is invisible and bounded. Reading a vector through the page
    cache, whatever is cached, gives exactly the node's elements of the file
    followed by the tail, never panics for a node in range, and leaves a
    cache that again holds only pages of the file and no more of them than
    its capacity; the vectors themselves are unchanged. *)
Theorem mv_with_reads (mv : MappedVec T) (unit node : nat) :
  mv_ok unit mv -> (node + 1) * unit <= mv_len mv ->
  exists mv', mv_with mv node unit = Some (take unit (drop (node * unit) (mv_content mv)), mv') /\
    mv_ok unit mv' /\ mv_content mv' = mv_content mv /\ mv_len mv' = mv_len mv.
Proof. apply mv_with_ok. Qed.

End Properties.

Definition sample_mv : MappedVec Z :=
  mkMapped (Some (mkBase [1; 2; 3; 4; 5; 6]%Z 2 1 3 (cache_new 1))) 6 [7; 8]%Z.

Lemma sample_mv_ok : mv_ok 2 sample_mv.
Proof.
  split; [by split; cbn; lia|]. split; [|cbn; lia]. split; [|split; vm_compute; lia].
  intros idx p t E. cbn in E. by rewrite lookup_empty in E.
Qed.

Lemma mv_with_reads_witness :
  mv_ok 2 sample_mv /\ exists mv', mv_with sample_mv 1 2 = Some ([3; 4]%Z, mv') /\ mv_len mv' = 8.
Proof.
  split; [apply sample_mv_ok|].
  destruct (mv_with_reads sample_mv 2 1 sample_mv_ok) as (mv' & E & _ & _ & Hl); [vm_compute; lia|].
  exists mv'. split; [exact E|]. by rewrite Hl.
Defined.
