(* ===== verification/AnnStore.v ===== *)
(** * How the graph holds its vectors (crates/recall/src/ann.rs: Quantizer, Store)

    Four encodings behind one interface: push a vector, the product of a node
    with a query, the product of two nodes, a node's vector back. A panic is
    [None]. Reading goes through [mv_read], so a base may be paged. *)
From Stdlib Require Import SpecFloat.
From S2P Require Import Prelude Floats Quant QuantFacts Paged.
#[local] Set Default Goal Selector "!".
#[local] Set Warnings "-clear-no-such-hyp".

Inductive Quantizer : Type :=
  | QNone
  | QSq8
  | QBq
  | QPq (m : nat).
#[export] Instance Quantizer_eq_dec : EqDecision Quantizer.
Proof. solve_decision. Defined.

Definition is_lossy (q : Quantizer) : bool := negb (bool_decide (q = QNone)).

Inductive Store : Type :=
  | SFull (vectors : MappedVec f32)
  | SSq8 (codes : MappedVec Z) (params : list SqParams)
  | SBq (bits : MappedVec Z)
  | SPq (codebook : option PqCodebook) (warmup : list f32) (codes : MappedVec Z) (m : nat).

Definition PQ_TRAIN_SIZE : nat := 64 * 64.
Definition PQ_TRAIN_ITERS : nat := 12.

(** [chunks_exact(n)] for [n > 0]; a short tail is dropped. *)
Definition chunks_exact {A} (n : nat) (l : list A) : list (list A) :=
  map (fun i => take n (drop (i * n) l)) (seq 0 (length l / n)).

Definition train_pq (warmup : list f32) (dim m : nat) : option PqCodebook :=
  pq_train (chunks_exact dim warmup) dim m PQ_TRAIN_ITERS.

Definition store_empty (q : Quantizer) : Store :=
  match q with
  | QNone => SFull in_ram
  | QSq8 => SSq8 in_ram []
  | QBq => SBq in_ram
  | QPq m => SPq None [] in_ram m
  end.

Definition store_quantizer (s : Store) : Quantizer :=
  match s with
  | SFull _ => QNone
  | SSq8 _ _ => QSq8
  | SBq _ => QBq
  | SPq _ _ _ m => QPq m
  end.

Definition with_tail {T} (mv : MappedVec T) (t : list T) : MappedVec T := mkMapped (base mv) (base_len mv) t.

(** Train on the warm-up vectors and move them into codes. *)
Definition train_now (warmup : list f32) (codes : MappedVec Z) (dim m : nat) : option Store :=
  cb ← train_pq warmup dim m;
  tail ← fold_opt (fun t chunk => pq_encode_into chunk cb t) (tail_ codes) (chunks_exact dim warmup);
  Some (SPq (Some cb) [] (with_tail codes tail) m).

Definition push (s : Store) (v : list f32) : option Store :=
  match s with
  | SFull vectors => Some (SFull (mv_push vectors v))
  | SSq8 codes params =>
      let '(p, t) := quantize_into v (tail_ codes) in
      Some (SSq8 (with_tail codes t) (params ++ [p]))
  | SBq bits => Some (SBq (with_tail bits (bq_encode_into v (tail_ bits))))
  | SPq (Some cb) warmup codes m =>
      t ← pq_encode_into v cb (tail_ codes);
      Some (SPq (Some cb) warmup (with_tail codes t) m)
  | SPq None warmup codes m =>
      let warmup := warmup ++ v in
      let dim := length v in
      if (0 <? dim) && (PQ_TRAIN_SIZE <=? length warmup / dim) then train_now warmup codes dim m
      else Some (SPq None warmup codes m)
  end.

Definition dot_query (s : Store) (node dim : nat) (q : list f32) (qsum : f32) : option f32 :=
  match s with
  | SFull vectors => (fun v => dot v q) <$> mv_read vectors node dim
  | SSq8 codes params =>
      c ← mv_read codes node dim; p ← params !! node; Some (sq_dot_query c p q qsum)
  | SBq bits => b ← mv_read bits node (bq_bytes dim); bq_dot_query b q
  | SPq None warmup _ _ => (fun v => dot v q) <$> slice warmup (node * dim) (node * dim + dim)
  | SPq (Some cb) _ codes m => c ← mv_read codes node m; pq_dot_query c cb q
  end.

Definition dot_nodes (s : Store) (a b dim : nat) : option f32 :=
  match s with
  | SFull vectors =>
      va ← mv_read vectors a dim; vb ← mv_read vectors b dim; Some (dot va vb)
  | SSq8 codes params =>
      ca ← mv_read codes a dim; cb ← mv_read codes b dim;
      pa ← params !! a; pb ← params !! b; Some (dot_codes ca pa cb pb)
  | SBq bits =>
      let u := bq_bytes dim in
      ba ← mv_read bits a u; bb ← mv_read bits b u; Some (bq_dot_codes ba bb dim)
  | SPq None warmup _ _ =>
      va ← slice warmup (a * dim) (a * dim + dim);
      vb ← slice warmup (b * dim) (b * dim + dim); Some (dot va vb)
  | SPq (Some cb) _ codes m =>
      ca ← mv_read codes a m; cbv ← mv_read codes b m; pq_dot_codes ca cbv cb
  end.

Definition materialize (s : Store) (node dim : nat) : option (list f32) :=
  match s with
  | SFull vectors => mv_read vectors node dim
  | SSq8 codes params =>
      c ← mv_read codes node dim; p ← params !! node; Some (sq_decode c p)
  | SBq bits => b ← mv_read bits node (bq_bytes dim); bq_decode b dim
  | SPq None warmup _ _ => slice warmup (node * dim) (node * dim + dim)
  | SPq (Some cb) _ codes m => c ← mv_read codes node m; pq_decode c cb
  end.

(** [size_of::<SqParams>()]: three [f32]. *)
Definition SQ_PARAMS_SIZE : nat := 12.
Definition codebook_bytes (codebook : option PqCodebook) : nat :=
  match codebook with Some cb => length (centroids cb) * 4 | None => 0 end.

Definition store_bytes (s : Store) : nat :=
  match s with
  | SFull vectors => logical_bytes vectors
  | SSq8 codes params => logical_bytes codes + length params * SQ_PARAMS_SIZE
  | SBq bits => logical_bytes bits
  | SPq codebook warmup codes _ => length warmup * 4 + logical_bytes codes + codebook_bytes codebook
  end.

Definition store_heap_bytes (s : Store) : nat :=
  match s with
  | SFull vectors => heap_bytes vectors
  | SSq8 codes params => heap_bytes codes + length params * SQ_PARAMS_SIZE
  | SBq bits => heap_bytes bits
  | SPq codebook warmup codes _ => length warmup * 4 + heap_bytes codes + codebook_bytes codebook
  end.

Definition seal_with_dim (s : Store) (dim : nat) : option Store :=
  match s with
  | SPq None warmup codes m =>
      if negb (bool_decide (warmup = [])) && (0 <? dim) then train_now warmup codes dim m else Some s
  | _ => Some s
  end.

Definition store_needs_flush (s : Store) : bool :=
  match s with
  | SFull mv => needs_flush mv
  | SSq8 mv _ | SBq mv | SPq _ _ mv _ => needs_flush mv
  end.

(** ** Well-formed stores *)

(** What a quantizer needs of the dimension: the assertion of [pq_train]. *)
Definition quantizer_fits (q : Quantizer) (dim : nat) : Prop :=
  match q with QPq m => 0 < m /\ dim mod m = 0 | _ => True end.

(** A run of [n] blocks of [unit] elements. *)
Definition run_ok {T} `{Pod T} (unit n : nat) (mv : MappedVec T) : Prop :=
  mv_ok unit mv /\ mv_len mv = n * unit.

(** The codes of the [n] vectors name centroids. *)
Definition all_codes_wf (cb : PqCodebook) (n : nat) (mv : MappedVec Z) : Prop :=
  forall node, node < n -> codes_wf cb (take (pq_m cb) (drop (node * pq_m cb) (mv_content mv))).

(** The store holds [n] vectors of [dim] components. *)
Definition store_ok (dim n : nat) (s : Store) : Prop :=
  match s with
  | SFull vectors => run_ok dim n vectors
  | SSq8 codes params => run_ok dim n codes /\ length params = n
  | SBq bits => run_ok (bq_bytes dim) n bits
  | SPq None warmup codes m => length warmup = n * dim /\ codes = in_ram
  | SPq (Some cb) warmup codes m =>
      warmup = [] /\ run_ok m n codes /\ cb_wf dim cb /\ pq_m cb = m /\ all_codes_wf cb n codes
  end.

Lemma run_ok_push {T} `{Pod T} unit n (mv : MappedVec T) block :
  run_ok unit n mv -> length block = unit -> run_ok unit (S n) (mv_push mv block).
Proof. intros [Hok Hl] Hb. split; [by apply mv_push_ok|]. rewrite mv_push_len, Hl, Hb. lia. Qed.

Lemma with_tail_push {T} (mv : MappedVec T) block : with_tail mv (tail_ mv ++ block) = mv_push mv block.
Proof. done. Qed.

Lemma run_ok_read {T} `{Pod T} unit n (mv : MappedVec T) node :
  run_ok unit n mv -> node < n ->
  mv_read mv node unit = Some (take unit (drop (node * unit) (mv_content mv))).
Proof.
  intros [Hok Hl] Hn. apply mv_read_ok; [done|]. rewrite Hl. apply Nat.mul_le_mono_r. lia.
Qed.

Lemma run_ok_block {T} `{Pod T} unit n (mv : MappedVec T) node :
  run_ok unit n mv -> node < n ->
  exists b, mv_read mv node unit = Some b /\ length b = unit.
Proof.
  intros Hr Hn. rewrite (run_ok_read unit n) by done. eexists. split; [done|].
  destruct Hr as [Hok Hl]. rewrite length_take, length_drop, (mv_content_length unit mv Hok), Hl.
  pose proof (row_le node n unit Hn). lia.
Qed.

Lemma run_ok_in_ram {T} `{Pod T} unit : run_ok unit 0 (in_ram (T:=T)).
Proof. done. Qed.

Lemma store_empty_ok q dim : store_ok dim 0 (store_empty q).
Proof. by destruct q. Qed.

Lemma pq_dot_query_run dim n cb codes node q :
  run_ok (pq_m cb) n codes -> cb_wf dim cb -> all_codes_wf cb n codes -> node < n -> length q = dim ->
  is_Some (c ← mv_read codes node (pq_m cb); pq_dot_query c cb q).
Proof.
  intros Hr Hw Hc Hn Hq. rewrite (run_ok_read _ n) by done. cbn [mbind option_bind].
  apply (pq_dot_query_total dim); [done|by apply Hc|done].
Qed.

(** ** Reading never panics *)

Lemma warmup_block (w : list f32) n dim node :
  length w = n * dim -> node < n ->
  exists v, slice w (node * dim) (node * dim + dim) = Some v /\ length v = dim.
Proof.
  intros Hl Hn. pose proof (row_le node n dim Hn).
  destruct (slice_total w (node * dim) (node * dim + dim)) as (v & -> & Hv); [lia|]. exists v. split; [done|lia].
Qed.

Lemma bq_bit_total b i n : length b = bq_bytes n -> i < n -> is_Some (bq_bit b i).
Proof.
  intros Hl Hi. unfold bq_bit. destruct (lookup_lt_is_Some_2 b (i / 8)) as [x ->]; [|by eexists].
  pose proof (bq_room n). apply Nat.Div0.div_lt_upper_bound. lia.
Qed.

Lemma bq_dot_query_total b q : length b = bq_bytes (length q) -> is_Some (bq_dot_query b q).
Proof.
  intros Hl. apply fold_opt_total. intros acc [i x] Hi%elem_of_zip_l%in_seq0.
  destruct (bq_bit_total b i _ Hl Hi) as [s ->]. by eexists.
Qed.

Lemma bq_decode_total b n : length b = bq_bytes n -> exists v, bq_decode b n = Some v /\ length v = n.
Proof.
  intros Hl. unfold bq_decode. edestruct (mapM_total (A:=nat) (B:=f32)) as (v & E & H2); [|exists v; split; [exact E|]].
  - intros i Hi%in_seq0. destruct (bq_bit_total b i _ Hl Hi) as [s ->]. by eexists.
  - apply Forall2_length in H2. by rewrite <- H2, length_seq.
Qed.

Lemma dot_query_total dim n s node q qsum :
  store_ok dim n s -> node < n -> length q = dim -> is_Some (dot_query s node dim q qsum).
Proof.
  intros Hs Hn Hq. destruct s as [mv|mv ps|mv|[cb|] w mv m]; cbn [dot_query store_ok] in *.
  - destruct (run_ok_block _ _ _ _ Hs Hn) as (b & -> & _). by eexists.
  - destruct Hs as [Hs Hp]. destruct (run_ok_block _ _ _ _ Hs Hn) as (b & -> & _).
    destruct (lookup_lt_is_Some_2 ps node) as [p Hpn]; [lia|]. cbn. rewrite Hpn. by eexists.
  - destruct (run_ok_block _ _ _ _ Hs Hn) as (b & -> & Hb). cbn. apply bq_dot_query_total. by rewrite Hq.
  - destruct Hs as (_ & Hr & Hw & <- & Hc). by apply (pq_dot_query_run dim n).
  - destruct (warmup_block w n dim node (proj1 Hs) Hn) as (v & -> & _). by eexists.
Qed.

Lemma dot_nodes_total dim n s a b :
  store_ok dim n s -> a < n -> b < n -> is_Some (dot_nodes s a b dim).
Proof.
  intros Hs Ha Hb. destruct s as [mv|mv ps|mv|[cb|] w mv m]; cbn [dot_nodes store_ok] in *.
  - destruct (run_ok_block _ _ _ _ Hs Ha) as (x & -> & _), (run_ok_block _ _ _ _ Hs Hb) as (y & -> & _). by eexists.
  - destruct Hs as [Hs Hp].
    destruct (run_ok_block _ _ _ _ Hs Ha) as (x & -> & _), (run_ok_block _ _ _ _ Hs Hb) as (y & -> & _).
    destruct (lookup_lt_is_Some_2 ps a) as [p Hpn]; [lia|]. destruct (lookup_lt_is_Some_2 ps b) as [p' Hpn']; [lia|].
    cbn. rewrite Hpn, Hpn'. by eexists.
  - destruct (run_ok_block _ _ _ _ Hs Ha) as (x & -> & _), (run_ok_block _ _ _ _ Hs Hb) as (y & -> & _). by eexists.
  - destruct Hs as (_ & Hr & Hw & <- & Hc). rewrite !(run_ok_read _ n) by done. cbn [mbind option_bind].
    apply (pq_dot_codes_total dim); [done|by apply Hc|by apply Hc].
  - destruct (warmup_block w n dim a (proj1 Hs) Ha) as (x & -> & _), (warmup_block w n dim b (proj1 Hs) Hb) as (y & -> & _).
    by eexists.
Qed.

Lemma sq_decode_length c p : length (sq_decode c p) = length c.
Proof. apply length_map. Qed.

Lemma materialize_total dim n s node :
  store_ok dim n s -> node < n -> exists v, materialize s node dim = Some v /\ length v = dim.
Proof.
  intros Hs Hn. destruct s as [mv|mv ps|mv|[cb|] w mv m]; cbn [materialize store_ok] in *.
  - by apply run_ok_block with n.
  - destruct Hs as [Hs Hp]. destruct (run_ok_block _ _ _ _ Hs Hn) as (b & -> & Hb).
    destruct (lookup_lt_is_Some_2 ps node) as [p Hpn]; [lia|]. cbn. rewrite Hpn. eexists. split; [done|].
    by rewrite sq_decode_length.
  - destruct (run_ok_block _ _ _ _ Hs Hn) as (b & -> & Hb). cbn. by apply bq_decode_total.
  - destruct Hs as (_ & Hr & Hw & <- & Hc). rewrite (run_ok_read _ n) by done. cbn [mbind option_bind].
    apply pq_decode_total; [done|by apply Hc].
  - apply (warmup_block w n); [apply Hs|done].
Qed.

(** ** Pushing keeps a store well-formed *)

(** A block appended to the tail, at the end. *)
Lemma run_ok_content {T} `{Pod T} unit n (mv : MappedVec T) : run_ok unit n mv -> length (mv_content mv) = n * unit.
Proof. intros [Hok Hl]. by rewrite (mv_content_length unit mv Hok). Qed.

Lemma all_codes_wf_push cb n mv out :
  run_ok (pq_m cb) n mv -> all_codes_wf cb n mv -> codes_wf cb out -> all_codes_wf cb (S n) (mv_push mv out).
Proof.
  intros Hr Hc Ho node Hn. rewrite mv_push_content. pose proof (run_ok_content _ _ _ Hr) as Hl.
  destruct (decide (node = n)) as [->|].
  - rewrite drop_app_ge, Hl, Nat.sub_diag, drop_0 by lia. rewrite take_ge; [done|]. by rewrite (proj1 Ho).
  - assert (node < n) as Hn' by lia. pose proof (row_le node n (pq_m cb) Hn').
    rewrite drop_app_le, take_app_le by (rewrite ?length_drop; lia). by apply Hc.
Qed.

Lemma pq_push_ok dim n cb mv v :
  run_ok (pq_m cb) n mv -> cb_wf dim cb -> all_codes_wf cb n mv -> length v = dim ->
  exists out, pq_encode_into v cb (tail_ mv) = Some (tail_ mv ++ out) /\
    run_ok (pq_m cb) (S n) (mv_push mv out) /\ all_codes_wf cb (S n) (mv_push mv out).
Proof.
  intros Hr Hw Hc Hv. destruct (pq_encode_total dim cb v (tail_ mv) Hw Hv) as (out & E & Hl & Ho).
  exists out. split; [done|]. split; [by apply run_ok_push|].
  apply all_codes_wf_push; [done..|]. by apply (codes_of_wf cb v).
Qed.

Lemma chunks_exact_spec {A} (l : list A) n dim :
  0 < dim -> length l = n * dim ->
  length (chunks_exact dim l) = n /\ Forall (fun c => length c = dim) (chunks_exact dim l).
Proof.
  intros Hd Hl. unfold chunks_exact. rewrite Hl, Nat.div_mul by lia. split; [by rewrite length_map, length_seq|].
  apply Forall_forall. intros c (i & -> & Hi%in_seq0)%list_elem_of_fmap. rewrite length_take, length_drop.
  pose proof (row_le i n dim Hi). lia.
Qed.

Lemma train_now_ok warmup n dim m :
  0 < dim -> 0 < n -> length warmup = n * dim -> quantizer_fits (QPq m) dim ->
  exists s, train_now warmup in_ram dim m = Some s /\ store_ok dim n s /\ store_quantizer s = QPq m.
Proof.
  intros Hd Hn Hl [Hm Hmd]. destruct (chunks_exact_spec warmup n dim Hd Hl) as [Hcl Hcf].
  unfold train_now, train_pq.
  destruct (pq_train_total (chunks_exact dim warmup) dim m PQ_TRAIN_ITERS) as (cb & -> & Hw & Hcm);
    [intros E; rewrite E in Hcl; cbn in Hcl; lia|done..|]. cbn [mbind option_bind].
  destruct (fold_opt_ind (fun ds t => run_ok (pq_m cb) (length ds) (mkMapped (T:=Z) None 0 t) /\
      all_codes_wf cb (length ds) (mkMapped None 0 t))
    (fun t chunk => pq_encode_into chunk cb t) (chunks_exact dim warmup) (tail_ (in_ram (T:=Z)))) as (t & -> & Hr & Hc).
  - split; [apply run_ok_in_ram|]. intros node Hnode. cbn in Hnode. lia.
  - intros ds c rest t E [Hr Hc]. rewrite E in Hcf. apply Forall_app in Hcf as [_ [Hlc _]%Forall_cons].
    destruct (pq_push_ok dim _ cb _ c Hr Hw Hc Hlc) as (out & Eo & Hr' & Hc'). cbn [tail_] in Eo. rewrite Eo.
    eexists. split; [done|]. rewrite length_app, Nat.add_1_r. by split.
  - cbn [mbind option_bind]. eexists. split; [done|]. rewrite Hcl in Hr, Hc. split; [|done]. cbn. rewrite <- Hcm. done.
Qed.

Lemma push_ok dim n s v :
  store_ok dim n s -> length v = dim -> quantizer_fits (store_quantizer s) dim ->
  exists s', push s v = Some s' /\ store_ok dim (S n) s' /\ store_quantizer s' = store_quantizer s.
Proof.
  intros Hs Hv Hq. destruct s as [mv|mv ps|mv|[cb|] w mv m]; cbn [push store_ok store_quantizer] in *.
  - eexists. split; [done|]. split; [|done]. by apply run_ok_push.
  - destruct Hs as [Hr Hp]. destruct (quantize_codes v (tail_ mv)) as (out & E & Hl & _).
    destruct (quantize_into v (tail_ mv)) as [p t]. cbn in E. subst t. eexists. split; [done|]. split; [|done].
    split; [apply run_ok_push; [done|lia]|]. rewrite length_app. cbn. lia.
  - eexists. split; [done|]. split; [|done]. cbn. rewrite bq_encode_append, with_tail_push.
    apply run_ok_push; [done|]. rewrite (proj1 (bq_encode_bits v)). by rewrite Hv.
  - destruct Hs as (-> & Hr & Hw & <- & Hc). destruct (pq_push_ok dim n cb mv v Hr Hw Hc Hv) as (out & -> & Hr' & Hc').
    cbn [mbind option_bind]. eexists. split; [done|]. split; [|done]. done.
  - destruct Hs as [Hl ->]. assert (length (w ++ v) = S n * dim) as Hlw by (rewrite length_app; lia).
    destruct (Nat.ltb_spec 0 (length v)); cbn [andb]; [|by eexists].
    destruct (PQ_TRAIN_SIZE <=? _); [|by eexists]. rewrite Hv. apply train_now_ok; [lia|lia|done|done].
Qed.

Lemma seal_ok dim n s :
  store_ok dim n s -> quantizer_fits (store_quantizer s) dim ->
  exists s', seal_with_dim s dim = Some s' /\ store_ok dim n s' /\ store_quantizer s' = store_quantizer s.
Proof.
  intros Hs Hq. destruct s as [mv|mv ps|mv|[cb|] w mv m]; cbn [seal_with_dim]; try by eexists.
  destruct Hs as [Hl ->]. destruct (bool_decide (w = [])) eqn:E; [by eexists|]. apply bool_decide_eq_false in E.
  destruct (Nat.ltb_spec 0 dim); cbn [negb andb]; [|by eexists]. apply train_now_ok; [done| |done|done].
  destruct n; [|lia]. by destruct w.
Qed.

(** A full-precision store is the list of its vectors. *)
Lemma full_push dim n mv v :
  run_ok dim n mv -> length v = dim ->
  (forall node, node < n -> materialize (SFull (mv_push mv v)) node dim = materialize (SFull mv) node dim) /\
  materialize (SFull (mv_push mv v)) n dim = Some v.
Proof.
  intros Hr Hv. pose proof (run_ok_push dim n mv v Hr Hv) as Hr'. pose proof (run_ok_content _ _ _ Hr) as Hl.
  cbn [materialize]. split.
  - intros node Hn. rewrite (run_ok_read dim (S n)), (run_ok_read dim n) by (done || lia). f_equal.
    rewrite mv_push_content. pose proof (row_le node n dim Hn).
    by rewrite drop_app_le, take_app_le by (rewrite ?length_drop; lia).
  - rewrite (run_ok_read dim (S n)) by (done || lia). f_equal.
    rewrite mv_push_content, drop_app_ge, Hl, Nat.sub_diag, drop_0 by lia. apply take_ge. lia.
Qed.

(** ** The rows of a store *)

Lemma quantize_append v codes : quantize_into v codes = ((quantize_into v []).1, codes ++ (quantize_into v []).2).
Proof.
  unfold quantize_into. destruct v as [|x v]; [by rewrite app_nil_r|].
  set (scale := if fgt _ _ then _ else _). set (min := sq_min _).
  match goal with |- context [fold_left ?f _ _] => set (step := f) end.
  assert (forall c cs y, step (c, cs) y = (f32_add c (f32_of_Z (sq_code scale min y)), cs ++ [sq_code scale min y])) as Hst by done.
  assert (forall l c cs, fold_left step l (c, cs) = ((fold_left step l (c, [])).1, cs ++ (fold_left step l (c, [])).2)) as ->.
  { induction l as [|y l IH]; intros c cs; cbn [fold_left]; [by rewrite app_nil_r|].
    rewrite !Hst. cbn [app]. rewrite (IH _ (cs ++ _)), (IH _ [_]). cbn. by rewrite <- app_assoc. }
  by destruct (fold_left step (x :: v) (f32_zero, [])).
Qed.

Lemma pq_encode_append v cb codes : pq_encode_into v cb codes = (fun c => codes ++ c) <$> pq_encode_into v cb [].
Proof.
  unfold pq_encode_into. match goal with |- context [fold_opt ?g _ _] => set (f := g) end.
  assert (forall k s, f (codes ++ k) s = (fun c => codes ++ c) <$> f k s) as Hf.
  { intros k s. unfold f. destruct (slice v _ _) as [sub|]; [|done]. cbn [mbind option_bind].
    destruct (nearest cb s sub); [|done]. cbn. by rewrite <- app_assoc. }
  rewrite <- (app_nil_r codes) at 1. generalize (@nil Z) as k. induction (seq 0 (pq_m cb)) as [|s l IH]; intros k; cbn [fold_opt]; [done|].
  rewrite Hf. destruct (f k s) as [k'|]; [|done]. apply IH.
Qed.

(** What the store holds of the vectors pushed, in order: the vectors
    themselves, their codes, or, until a codebook is trained, the warm-up run.
    The codebook is the one trained on the first [PQ_TRAIN_SIZE] vectors, or
    on fewer where [early] (a store sealed before it had as many). *)
Definition holds_rows (early : bool) (d : nat) (s : Store) (vs : list (list f32)) : Prop :=
  match s with
  | SFull mv => mv_content mv = concat vs
  | SSq8 codes ps =>
      mv_content codes = concat (map (fun v => (quantize_into v []).2) vs) /\ ps = map (fun v => (quantize_into v []).1) vs
  | SBq bits => mv_content bits = concat (map (fun v => bq_encode_into v []) vs)
  | SPq None w _ _ => w = concat vs /\ (d = 0 \/ length vs < PQ_TRAIN_SIZE)
  | SPq (Some cb) _ codes m =>
      exists n css, n <= length vs /\ (n = PQ_TRAIN_SIZE \/ early = true /\ n < PQ_TRAIN_SIZE) /\ train_pq (concat (take n vs)) d m = Some cb /\
        mapM (fun v => pq_encode_into v cb []) vs = Some css /\ mv_content codes = concat css
  end.

Lemma holds_rows_empty early d q : holds_rows early d (store_empty q) [].
Proof. destruct q; cbn; try done. split; [done|]. right. unfold PQ_TRAIN_SIZE. lia. Qed.

Lemma concat_uniform {A} d (vs : list (list A)) : Forall (fun v => length v = d) vs -> length (concat vs) = length vs * d.
Proof. induction 1 as [|v vs Hv _ IH]; [done|]. cbn. rewrite length_app, IH, Hv. lia. Qed.

Lemma chunks_exact_concat d (vs : list (list f32)) :
  0 < d -> Forall (fun v => length v = d) vs -> chunks_exact d (concat vs) = vs.
Proof.
  intros Hd Hf. pose proof (concat_uniform d vs Hf) as Hl.
  unfold chunks_exact. rewrite Hl, Nat.div_mul by lia. clear Hl. apply list_eq. intros i. rewrite list_lookup_fmap.
  destruct (decide (i < length vs)) as [Hi|Hi].
  2: { rewrite !(proj2 (lookup_ge_None _ _)); [done|lia|]. rewrite length_seq. lia. }
  rewrite lookup_seq_lt by done. cbn [fmap option_fmap option_map Nat.add]. revert i Hi.
  induction Hf as [|v vs Hv Hf IH]; intros i Hi; [cbn in Hi; lia|]. cbn [concat]. destruct i as [|i].
  - cbn [Nat.mul]. rewrite drop_0, take_app_length' by done. done.
  - rewrite drop_app_ge by (rewrite Hv; cbn; lia). rewrite Hv. cbn [Nat.mul]. replace (d + i * d - d) with (i * d) by lia.
    cbn [lookup list_lookup]. apply IH. cbn in Hi. lia.
Qed.

Lemma codes_push {T} `{Pod T} (mv : MappedVec T) (t : list T) : mv_content (with_tail mv (tail_ mv ++ t)) = mv_content mv ++ t.
Proof. apply (mv_push_content mv t). Qed.

Lemma concat_snoc {A} (l : list (list A)) x : concat (l ++ [x]) = concat l ++ x.
Proof. rewrite concat_app. cbn. by rewrite app_nil_r. Qed.

Lemma mapM_snoc {A B} (f : A -> option B) l ys x y : mapM f l = Some ys -> f x = Some y -> mapM f (l ++ [x]) = Some (ys ++ [y]).
Proof. intros Hl Hx. apply mapM_Some_2, Forall2_app; [by apply mapM_Some_1|by constructor]. Qed.

(** The codes of all the chunks, one after the other. *)
Lemma encode_all cb (vs : list (list f32)) tail t :
  fold_opt (fun t v => pq_encode_into v cb t) tail vs = Some t ->
  exists css, mapM (fun v => pq_encode_into v cb []) vs = Some css /\ t = tail ++ concat css.
Proof.
  revert tail. induction vs as [|v vs IH]; intros tail; cbn [fold_opt].
  - intros [= <-]. exists []. by rewrite app_nil_r.
  - rewrite pq_encode_append. destruct (pq_encode_into v cb []) as [c|] eqn:E; [|done]. cbn [fmap option_fmap option_map].
    intros (css & Em & ->)%IH. exists (c :: css). cbn. rewrite E, Em. by rewrite <- app_assoc.
Qed.

(** Training moves the warm-up run into codes. *)
Lemma train_now_rows early d vs m s :
  0 < d -> Forall (fun v => length v = d) vs -> (length vs = PQ_TRAIN_SIZE \/ early = true /\ length vs < PQ_TRAIN_SIZE) ->
  train_now (concat vs) in_ram d m = Some s -> holds_rows early d s vs.
Proof.
  intros Hd Hf Hn. unfold train_now. destruct (train_pq (concat vs) d m) as [cb|] eqn:Et; [|done]. cbn [mbind option_bind].
  rewrite chunks_exact_concat by done. destruct (fold_opt _ _ _) as [t|] eqn:Ec; [|done]. intros [= <-].
  destruct (encode_all cb vs _ _ Ec) as (css & Em & ->). exists (length vs), css. rewrite firstn_all. by split_and!.
Qed.

(** Pushing a vector is one more row. *)
Lemma push_rows early d s vs v s' :
  store_ok d (length vs) s -> Forall (fun v => length v = d) vs -> length v = d ->
  holds_rows early d s vs -> push s v = Some s' -> holds_rows early d s' (vs ++ [v]).
Proof.
  intros Hs Hf Hv Hr. destruct s as [mv|mv ps|mv|[cb|] w mv m]; cbn [push holds_rows] in *.
  - intros [= <-]. cbn [holds_rows]. by rewrite mv_push_content, Hr, concat_snoc.
  - rewrite quantize_append. intros [= <-]. destruct Hr as [Hr ->]. cbn [holds_rows]. by rewrite codes_push, Hr, !map_app; cbn [map]; rewrite concat_snoc.
  - intros [= <-]. cbn [holds_rows]. by rewrite bq_encode_append, codes_push, Hr, !map_app; cbn [map]; rewrite concat_snoc.
  - destruct Hr as (n & css & Hle & Hn & Ht & Hc & Hm). rewrite pq_encode_append. destruct (pq_encode_into v cb []) as [c|] eqn:Ev; [|done].
    intros [= <-]. exists n, (css ++ [c]). rewrite take_app_le by done.
    split_and!; [rewrite length_app; lia|done|done|by apply mapM_snoc|by rewrite codes_push, Hm, concat_snoc].
  - destruct Hs as [_ ->], Hr as [-> Hn]. rewrite <- concat_snoc, Hv. set (vs' := vs ++ [v]).
    assert (Forall (fun v => length v = d) vs') as Hf' by (apply Forall_app; by repeat constructor || done).
    assert (length (concat vs') = length vs' * d) as Hl by (by apply concat_uniform).
    assert (length vs' = S (length vs)) as Hl' by (unfold vs'; rewrite length_app; cbn; lia).
    destruct (Nat.ltb_spec 0 d) as [Hd|Hd]; cbn [andb].
    2: { intros [= <-]. split; [done|left; lia]. }
    rewrite Hl, Nat.div_mul by lia. destruct (Nat.leb_spec PQ_TRAIN_SIZE (length vs')).
    + apply train_now_rows; [done|done|left; lia].
    + intros [= <-]. split; [done|by right].
Qed.

(** Sealing keeps the rows; it may train on fewer of them. *)
Lemma seal_rows early d s vs s' :
  store_ok d (length vs) s -> Forall (fun v => length v = d) vs ->
  holds_rows early d s vs -> seal_with_dim s d = Some s' -> holds_rows true d s' vs.
Proof.
  intros Hs Hf Hr. assert (holds_rows true d s vs) as Hr'.
  { destruct s as [mv|mv ps|mv|[cb|] w mv m]; try done. destruct Hr as (n & css & Hle & [Hn|[_ Hn]] & Hr); exists n, css; auto. }
  destruct s as [mv|mv ps|mv|[cb|] w mv m]; cbn [seal_with_dim]; try by intros [= <-].
  destruct Hs as [Hl ->], Hr' as [-> Hn]. destruct (bool_decide _) eqn:E; cbn [negb andb]; [by intros [= <-]|].
  destruct (Nat.ltb_spec 0 d); [|by intros [= <-]]. apply train_now_rows; [done|done|]. right. split; [done|].
  destruct Hn; [lia|done].
Qed.
