(* ===== verification/Ann.v ===== *)
(** * The layered graph (crates/recall/src/ann.rs: AnnIndex)

    Insertion, removal and search over the layered small-world graph. Nodes
    are list indices; a panic is [None], and so is a search that runs out of
    its fuel, which is the number of nodes. The two priority queues of the
    beam are the interface of Heap.v, and [f64::ln], whose rounding the
    standard library leaves open, is an argument. *)
From Stdlib Require Import SpecFloat.
From S2P Require Import Prelude Floats Geo Quant Paged Heap AnnStore.
#[local] Set Default Goal Selector "!".

Abbreviation Id := bytes.

Record AnnConfig : Type := mkAnnConfig {
  m : nat;
  ef_construction : nat;
  ef_search : nat;
  quantizer : Quantizer;
}.
Definition default_config : AnnConfig := mkAnnConfig 16 100 64 QNone.

(** ** Scored nodes *)

Record Scored : Type := mkScored { dist : f32; node : nat }.

Definition scored_key (s : Scored) : Z := f32_key (dist s).
(** [Reverse<Scored>] *)
Definition reverse_key (s : Scored) : Z := - scored_key s.
Definition f32_infinity : f32 := S754_infinity false.

(** ** The graph *)

Record AnnIndex : Type := mkIndex {
  config : AnnConfig;
  dim : option nat;
  store : Store;
  ids : list Id;
  by_id : gmap Id nat;
  deleted : list bool;
  links : list (list (list nat));
  entry : option (nat * nat);
  rng : Z;
  live : nat;
}.

Definition ann_new (c : AnnConfig) : AnnIndex :=
  mkIndex c None (store_empty (quantizer c)) [] ∅ [] [] None 0x9E3779B97F4A7C15 0.

Definition ann_len (g : AnnIndex) : nat := live g.
Definition ann_is_empty (g : AnnIndex) : bool := live g =? 0.
Definition node_count (g : AnnIndex) : nat := length (ids g).
Definition tombstones (g : AnnIndex) : nat := length (ids g) - live g.
Definition is_quantized (g : AnnIndex) : bool := is_lossy (quantizer (config g)).
Definition vector_bytes (g : AnnIndex) : nat := store_bytes (store g).
Definition heap_vector_bytes (g : AnnIndex) : nat := store_heap_bytes (store g).
Definition needs_vector_flush (g : AnnIndex) : bool := store_needs_flush (store g).

(** [self.dim.unwrap_or(0)] *)
Definition dim0 (g : AnnIndex) : nat := default 0 (dim g).

Definition set_deleted (g : AnnIndex) (d : list bool) (n : nat) : AnnIndex :=
  mkIndex (config g) (dim g) (store g) (ids g) (by_id g) d (links g) (entry g) (rng g) n.
Definition set_links (g : AnnIndex) (l : list (list (list nat))) : AnnIndex :=
  mkIndex (config g) (dim g) (store g) (ids g) (by_id g) (deleted g) l (entry g) (rng g) (live g).
Definition set_entry (g : AnnIndex) (e : option (nat * nat)) : AnnIndex :=
  mkIndex (config g) (dim g) (store g) (ids g) (by_id g) (deleted g) (links g) e (rng g) (live g).
Definition set_store (g : AnnIndex) (s : Store) : AnnIndex :=
  mkIndex (config g) (dim g) s (ids g) (by_id g) (deleted g) (links g) (entry g) (rng g) (live g).

Definition dist_to (g : AnnIndex) (nd : nat) (query : list f32) (qsum : f32) : option f32 :=
  d ← dot_query (store g) nd (dim0 g) query qsum; Some (f32_sub f32_one d).

(** ** Levels *)

Class Ln := { f_ln : f64 -> f64 }.

Definition xorshift (r : Z) : Z :=
  let r := Z.lxor r (Z.shiftl r 13 mod 2 ^ 64) in
  let r := Z.lxor r (Z.shiftr r 7) in
  Z.lxor r (Z.shiftl r 17 mod 2 ^ 64).

Definition next_level `{Ln} (r : Z) (m : nat) : Z * nat :=
  let r := xorshift r in
  let u := f64_div (f64_of_Z (Z.shiftr r 11)) (f64_of_Z (2 ^ 53)) in
  let ml := f64_div (f64_of_Z 1) (f_ln (f64_of_Z (Z.of_nat m))) in
  let x := f64_mul (SFopp (f_ln (f_max u (lit false 1 (-12))))) ml in
  (r, Z.to_nat (Z.min (f64_to_u64 x) 16)).

(** ** Greedy descent *)

Definition climb (g : AnnIndex) (query : list f32) (qsum : f32) (st : nat * f32 * bool) (nb : nat)
  : option (nat * f32 * bool) :=
  d ← dist_to g nb query qsum;
  if flt d st.1.2 then Some (nb, d, true) else Some st.

(** One pass over the links of [cur]. *)
Definition climb_pass (g : AnnIndex) (query : list f32) (qsum : f32) (layer cur : nat) (cur_dist : f32)
  : option (nat * f32 * bool) :=
  node_links ← links g !! cur;
  match node_links !! layer with
  | Some neigh => fold_opt (climb g query qsum) (cur, cur_dist, false) neigh
  | None => Some (cur, cur_dist, false)
  end.

Fixpoint climb_loop (fuel : nat) (g : AnnIndex) (query : list f32) (qsum : f32) (layer cur : nat) (cur_dist : f32)
  : option nat :=
  '(cur, cur_dist, improved) ← climb_pass g query qsum layer cur cur_dist;
  if improved : bool then
    match fuel with
    | O => None
    | S fuel => climb_loop fuel g query qsum layer cur cur_dist
    end
  else Some cur.

Definition greedy_at (g : AnnIndex) (query : list f32) (qsum : f32) (start layer : nat) : option nat :=
  d ← dist_to g start query qsum;
  climb_loop (length (ids g)) g query qsum layer start d.

(** ** The beam *)

Section beam.
Context {HC : BinaryHeap Scored reverse_key} {HR : BinaryHeap Scored scored_key}.

Record Beam : Type := mkBeam {
  visited : list bool;
  candidates : heap Scored (key := reverse_key);
  results : heap Scored (key := scored_key);
}.

Section params.
Context (g : AnnIndex) (query : list f32) (qsum : f32) (layer ef : nat) (include_deleted : bool).
Context (admits : nat -> option bool).

(** [(include_deleted || !self.deleted[node]) && admits(node)] *)
Definition admitted (nd : nat) : option bool :=
  ok ← (if include_deleted then Some true else negb <$> deleted g !! nd);
  if ok : bool then admits nd else Some false.

Definition worst (r : heap Scored (key := scored_key)) : f32 :=
  match h_peek r with Some s => dist s | None => f32_infinity end.

Definition visit (st : Beam) (nb : nat) : option Beam :=
  seen ← visited st !! nb;
  if seen : bool then Some st
  else
    let vis := <[nb := true]> (visited st) in
    d ← dist_to g nb query qsum;
    if flt d (worst (results st)) || (h_len (results st) <? ef) then
      ok ← admitted nb;
      let cands := h_push (mkScored d nb) (candidates st) in
      if ok : bool then
        let r := h_push (mkScored d nb) (results st) in
        let r := if ef <? h_len r then match h_pop r with Some (_, r') => r' | None => r end else r in
        Some (mkBeam vis cands r)
      else Some (mkBeam vis cands (results st))
    else Some (mkBeam vis (candidates st) (results st)).

Fixpoint beam_loop (fuel : nat) (st : Beam) : option Beam :=
  match h_pop (candidates st) with
  | None => Some st
  | Some (c, cands) =>
      let st := mkBeam (visited st) cands (results st) in
      if fgt (dist c) (worst (results st)) && (ef <=? h_len (results st)) then Some st
      else
        match fuel with
        | O => None
        | S fuel =>
            node_links ← links g !! node c;
            st ← match node_links !! layer with
                 | Some neigh => fold_opt visit st neigh
                 | None => Some st
                 end;
            beam_loop fuel st
        end
  end.

Definition beam_admit (start : nat) : option (list Scored) :=
  if start <? length (ids g) then
    d ← dist_to g start query qsum;
    ok ← admitted start;
    let st := mkBeam (<[start := true]> (replicate (length (ids g)) false))
                (h_push (mkScored d start) h_new)
                (if ok : bool then h_push (mkScored d start) h_new else h_new) in
    st ← beam_loop (length (ids g)) st;
    Some (stable_sort scored_key (h_vec (results st)))
  else None.
End params.

Definition beam (g : AnnIndex) (query : list f32) (qsum : f32) (start layer ef : nat) (include_deleted : bool)
  : option (list Scored) :=
  beam_admit g query qsum layer ef include_deleted (fun _ => Some true) start.

(** ** Neighbour selection *)

(** [Iterator::any] stops at the first hit. *)
Fixpoint dominated (g : AnnIndex) (c : Scored) (kept : list Scored) : option bool :=
  match kept with
  | [] => Some false
  | s :: kept =>
      d ← dot_nodes (store g) (node c) (node s) (dim0 g);
      if flt (f32_sub f32_one d) (dist c) then Some true else dominated g c kept
  end.

Fixpoint select_loop (g : AnnIndex) (m : nat) (kept sorted : list Scored) : option (list Scored) :=
  match sorted with
  | [] => Some kept
  | c :: sorted =>
      if m <=? length kept then Some kept
      else
        b ← dominated g c kept;
        select_loop g m (if b : bool then kept else kept ++ [c]) sorted
  end.

(** The nearest remaining ones, up to [m]. *)
Fixpoint pad_loop (m : nat) (kept sorted : list Scored) : list Scored :=
  match sorted with
  | [] => kept
  | c :: sorted =>
      if m <=? length kept then kept
      else if existsb (fun s => node s =? node c) kept then pad_loop m kept sorted
      else pad_loop m (kept ++ [c]) sorted
  end.

Definition select_diverse (g : AnnIndex) (sorted : list Scored) (m : nat) : option (list Scored) :=
  kept ← select_loop g m [] sorted;
  Some (if length kept <? m then pad_loop m kept sorted else kept).

(** [self.links[node][layer]] and assignment to it. *)
Definition link_list (l : list (list (list nat))) (nd layer : nat) : option (list nat) :=
  node_links ← l !! nd; node_links !! layer.
Definition set_link_list (l : list (list (list nat))) (nd layer : nat) (ns : list nat) : list (list (list nat)) :=
  alter (fun node_links => <[layer := ns]> node_links) nd l.
Definition push_link (l : list (list (list nat))) (nd layer nb : nat) : option (list (list (list nat))) :=
  ns ← link_list l nd layer; Some (set_link_list l nd layer (ns ++ [nb])).

Definition prune (g : AnnIndex) (nd layer max_links : nat) : option AnnIndex :=
  query ← materialize (store g) nd (dim0 g);
  let qsum := f32_sum query in
  ns ← link_list (links g) nd layer;
  scored ← mapM (fun nb => d ← dist_to g nb query qsum; Some (mkScored d nb)) ns;
  kept ← select_diverse g (stable_sort scored_key scored) max_links;
  Some (set_links g (set_link_list (links g) nd layer (map node kept))).

(** ** Insertion and removal *)

(** Mark a node deleted, once. [live] is a [usize]. *)
Definition tombstone (g : AnnIndex) (nd : nat) : option AnnIndex :=
  d ← deleted g !! nd;
  if d : bool then Some g
  else
    match live g with
    | O => None
    | S n => Some (set_deleted g (<[nd := true]> (deleted g)) n)
    end.

(** Both directions of one chosen link, and the prune of the other end. *)
Definition connect (nd layer max_links : nat) (g : AnnIndex) (s : Scored) : option AnnIndex :=
  let nb := node s in
  l ← push_link (links g) nd layer nb;
  l ← push_link l nb layer nd;
  ns ← link_list l nb layer;
  let g := set_links g l in
  if max_links <? length ns then prune g nb layer max_links else Some g.

Definition max_links_at (c : AnnConfig) (layer : nat) : nat := if layer =? 0 then m c * 2 else m c.

Definition connect_layer (nd : nat) (query : list f32) (qsum : f32) (st : AnnIndex * nat) (layer : nat)
  : option (AnnIndex * nat) :=
  let '(g, cur) := st in
  found ← beam g query qsum cur layer (ef_construction (config g)) true;
  chosen ← select_diverse g found (m (config g));
  g ← fold_opt (connect nd layer (max_links_at (config g) layer)) g chosen;
  Some (g, match chosen with best :: _ => node best | [] => cur end).

(** [usize as u32] *)
Definition as_u32 (n : nat) : nat := Z.to_nat (Z.of_nat n mod 2 ^ 32).

(** The new node before it is linked. *)
Definition add_node `{Ln} (g : AnnIndex) (id : Id) (v : list f32) : option (AnnIndex * nat * nat) :=
  let dim' := match dim g with None => Some (length v) | d => d end in
  let nd := as_u32 (length (ids g)) in
  let '(r, level) := next_level (rng g) (m (config g)) in
  s ← push (store g) v;
  Some (mkIndex (config g) dim' s (ids g ++ [id]) (<[id := nd]> (by_id g)) (deleted g ++ [false])
          (links g ++ [replicate (level + 1) []]) (entry g) r (S (live g)), nd, level).

(** [(lo..=hi).rev()] *)
Definition layers_down (lo hi : nat) : list nat := rev (seq lo (S hi - lo)).

Definition link_node (g : AnnIndex) (nd level : nat) (v : list f32) : option AnnIndex :=
  match entry g with
  | None => Some (set_entry g (Some (nd, level)))
  | Some (cur, top) =>
      let qsum := f32_sum v in
      cur ← fold_opt (greedy_at g v qsum) cur (layers_down (level + 1) top);
      '(g, _) ← fold_opt (connect_layer nd v qsum) (g, cur) (layers_down 0 (Nat.min level top));
      Some (if top <? level then set_entry g (Some (nd, level)) else g)
  end.

Definition insert `{Ln} (g : AnnIndex) (id : Id) (embedding : list f32) : option AnnIndex :=
  g ← match by_id g !! id with Some old => tombstone g old | None => Some g end;
  let v := normalized embedding in
  '(g, nd, level) ← add_node g id v;
  link_node g nd level v.

Definition remove (g : AnnIndex) (id : Id) : option AnnIndex :=
  match by_id g !! id with Some nd => tombstone g nd | None => Some g end.

Definition seal (g : AnnIndex) : option AnnIndex :=
  s ← seal_with_dim (store g) (dim0 g); Some (set_store g s).

(** ** Search *)

Definition hits (g : AnnIndex) (k : nat) (found : list Scored) : option (list (Id * f32)) :=
  mapM (fun s => id ← ids g !! node s; Some (id, f32_sub f32_one (dist s))) (take k found).

Definition search (g : AnnIndex) (query : list f32) (k ef : nat) : option (list (Id * f32)) :=
  match entry g with
  | None => Some []
  | Some (cur, top) =>
      if (k =? 0) || negb (bool_decide (dim g = Some (length query))) then Some []
      else
        let q := normalized query in
        let qsum := f32_sum q in
        cur ← fold_opt (greedy_at g q qsum) cur (layers_down 1 top);
        let ef := Nat.max (Nat.max ef (ef_search (config g))) k in
        found ← beam g q qsum cur 0 ef false;
        hits g k found
  end.

(** [f64::ceil] *)
Definition f64_ceil (x : f64) : f64 :=
  match x with
  | S754_finite s m e =>
      if (0 <=? e)%Z then x
      else
        let q := (Zpos m / 2 ^ (- e))%Z in
        let r := (Zpos m mod 2 ^ (- e))%Z in
        if s then (if (q =? 0)%Z then S754_zero true else f64_of_Z (- q))
        else f64_of_Z (if (r =? 0)%Z then q else q + 1)
  | _ => x
  end.

Definition widened_ef (ef allowed nodes : nat) : nat :=
  let sel := f_max (f64_div (f64_of_Z (Z.of_nat allowed)) (f64_of_Z (Z.of_nat (Nat.max nodes 1))))
               (f64_div (f64_of_Z 1) (f64_of_Z 4096)) in
  Z.to_nat (f64_to_u64 (f_min (f64_ceil (f64_div (f64_of_Z (Z.of_nat ef)) sel)) (f64_of_Z (Z.of_nat nodes)))).

Definition search_filtered (g : AnnIndex) (query : list f32) (k ef : nat) (allow : gset Id)
  : option (list (Id * f32)) :=
  match entry g with
  | None => Some []
  | Some (cur, top) =>
      if (k =? 0) || negb (bool_decide (dim g = Some (length query))) || bool_decide (allow = ∅) then Some []
      else
        let q := normalized query in
        let qsum := f32_sum q in
        cur ← fold_opt (greedy_at g q qsum) cur (layers_down 1 top);
        let widened := widened_ef (Nat.max (Nat.max ef (ef_search (config g))) k) (size allow) (length (ids g)) in
        found ← beam_admit g q qsum 0 widened false
                  (fun nd => id ← ids g !! nd; Some (bool_decide (id ∈ allow))) cur;
        hits g k found
  end.
End beam.
