(* ===== verification/AnnFacts.v ===== *)
(** * The graph stays well-formed

    What an index must satisfy for its operations not to panic, and the parts
    of an insertion one by one: distances, the greedy descent, neighbour
    selection, and the updates of the link lists. *)
From Stdlib Require Import SpecFloat.
From S2P Require Import Prelude Floats Quant QuantFacts Paged Heap AnnStore Ann.
#[local] Set Default Goal Selector "!".
#[local] Set Warnings "-clear-no-such-hyp".

(** ** Link lists *)

Abbreviation Links := (list (list (list nat))).

Definition has_layer (l : Links) (nd layer : nat) : Prop := is_Some (link_list l nd layer).

Lemma has_layer_iff l nd layer :
  has_layer l nd layer <-> exists nl, l !! nd = Some nl /\ layer < length nl.
Proof.
  unfold has_layer, link_list. destruct (l !! nd) as [nl|]; cbn.
  - rewrite lookup_lt_is_Some. split; [by exists nl|]. by intros (? & [= <-] & H).
  - split; [by intros []|]. by intros (? & ? & _).
Qed.

Lemma has_layer_node l nd layer : has_layer l nd layer -> nd < length l.
Proof. intros (nl & H & _)%has_layer_iff. by eapply lookup_lt_Some. Qed.

Lemma has_layer_le l nd layer layer' : layer' <= layer -> has_layer l nd layer -> has_layer l nd layer'.
Proof. rewrite !has_layer_iff. intros Hle (nl & ? & ?). exists nl. split; [done|lia]. Qed.

Lemma link_list_set l nd layer ns i L :
  has_layer l nd layer ->
  link_list (set_link_list l nd layer ns) i L = if decide (i = nd /\ L = layer) then Some ns else link_list l i L.
Proof.
  intros (nl & Hl & Hlt)%has_layer_iff. unfold link_list, set_link_list.
  destruct (decide (i = nd)) as [->|Hne].
  - rewrite list_lookup_alter_eq, Hl. cbn. destruct (decide (L = layer)) as [->|Hne].
    + rewrite decide_True by done. by rewrite list_lookup_insert_eq.
    + rewrite decide_False by (intros []; done). by rewrite list_lookup_insert_ne.
  - rewrite list_lookup_alter_ne by done. rewrite decide_False by (intros []; done). done.
Qed.

(** Two assignments of links have the same nodes and layers. *)
Definition shape (l : Links) : list nat := map length l.

Lemma shape_set l nd layer ns : shape (set_link_list l nd layer ns) = shape l.
Proof.
  unfold shape, set_link_list. apply list_eq. intros i. rewrite !list_lookup_fmap.
  destruct (decide (i = nd)) as [->|Hne].
  - rewrite list_lookup_alter_eq. destruct (l !! nd); [|done]. cbn. by rewrite length_insert.
  - by rewrite list_lookup_alter_ne.
Qed.

Lemma shape_length l l' : shape l' = shape l -> length l' = length l.
Proof. unfold shape. intros E%(f_equal length). by rewrite !length_map in E. Qed.

Lemma shape_has_layer l l' nd layer : shape l' = shape l -> has_layer l nd layer -> has_layer l' nd layer.
Proof.
  intros E. rewrite !has_layer_iff. intros (nl & Hl & Hlt).
  assert (shape l' !! nd = Some (length nl)) as Hs by (by rewrite E; unfold shape; rewrite list_lookup_fmap, Hl).
  unfold shape in Hs. rewrite list_lookup_fmap in Hs. destruct (l' !! nd) as [nl'|]; [|done].
  injection Hs as Hs. exists nl'. split; [done|lia].
Qed.

(** Links lead from a node to other nodes of that layer, once each. *)
Definition edges_ok (l : Links) : Prop :=
  forall i L ns, link_list l i L = Some ns ->
  NoDup ns /\ forall nb, nb ∈ ns -> nb <> i /\ has_layer l nb L.

Definition degree_ok (c : AnnConfig) (l : Links) : Prop :=
  forall i L ns, link_list l i L = Some ns -> length ns <= max_links_at c L.

Lemma edges_ok_set l nd layer ns :
  edges_ok l -> has_layer l nd layer -> NoDup ns ->
  (forall nb, nb ∈ ns -> nb <> nd /\ has_layer l nb layer) -> edges_ok (set_link_list l nd layer ns).
Proof.
  intros Hok Hl Hnd Hns i L ns' E. rewrite link_list_set in E by done.
  pose proof (shape_set l nd layer ns) as Hsh.
  destruct (decide (i = nd /\ L = layer)) as [[-> ->]|Hne].
  - injection E as <-. split; [done|]. intros nb Hnb. destruct (Hns nb Hnb). split; [done|].
    by apply (shape_has_layer l).
  - destruct (Hok i L ns' E) as [Hnd' He]. split; [done|]. intros nb Hnb. destruct (He nb Hnb). split; [done|].
    by apply (shape_has_layer l).
Qed.

Lemma degree_ok_set c l nd layer ns :
  degree_ok c l -> has_layer l nd layer -> length ns <= max_links_at c layer ->
  degree_ok c (set_link_list l nd layer ns).
Proof.
  intros Hok Hl Hns i L ns' E. rewrite link_list_set in E by done.
  destruct (decide (i = nd /\ L = layer)) as [[-> ->]|Hne]; [by injection E as <-|by eapply Hok].
Qed.

(** ** The invariant *)

(** Later nodes take over an id. *)
Definition index_ids (ids : list Id) : gmap Id nat :=
  fold_left (fun m '(nd, id) => <[id := nd]> m) (zip (seq 0 (length ids)) ids) ∅.

Definition live_nodes (d : list bool) : nat := length (filter (fun b => b = false) d).

(** Everything but the entry point. *)
Record nodes_ok (g : AnnIndex) : Prop := {
  ok_small : (Z.of_nat (length (ids g)) < 2 ^ 32)%Z;
  ok_deleted : length (deleted g) = length (ids g);
  ok_links : length (links g) = length (ids g);
  ok_dim : ids g <> [] -> is_Some (dim g);
  ok_fresh : dim g = None -> store g = store_empty (quantizer (config g));
  ok_fits : forall d, dim g = Some d -> quantizer_fits (quantizer (config g)) d;
  ok_quantizer : store_quantizer (store g) = quantizer (config g);
  ok_store : store_ok (dim0 g) (length (ids g)) (store g);
  ok_by_id : by_id g = index_ids (ids g);
  ok_dead : forall nd id, ids g !! nd = Some id -> deleted g !! nd = Some false -> by_id g !! id = Some nd;
  ok_live : live g = live_nodes (deleted g);
  ok_layers : forall nd nl, links g !! nd = Some nl -> 1 <= length nl <= 17;
  ok_edges : edges_ok (links g);
  ok_degree : degree_ok (config g) (links g);
  ok_rng : (0 <= rng g < 2 ^ 64)%Z;
}.

Record graph_ok (g : AnnIndex) : Prop := {
  ok_nodes :> nodes_ok g;
  ok_entry : match entry g with
             | None => ids g = []
             | Some (e, top) => (exists nl, links g !! e = Some nl /\ length nl = S top) /\
                                forall nd nl, links g !! nd = Some nl -> length nl <= S top
             end;
}.

(** ** Distances *)

(** The distance of a node, where it has one. *)
Definition distance (g : AnnIndex) (q : list f32) (qsum : f32) (nd : nat) : f32 :=
  default S754_nan (dist_to g nd q qsum).

(** What reading a distance needs: a store of the dimension of the query. *)
Definition reads (g : AnnIndex) (q : list f32) : Prop :=
  store_ok (dim0 g) (length (ids g)) (store g) /\ length q = dim0 g.

Lemma dist_to_distance g q qsum nd :
  reads g q -> nd < length (ids g) -> dist_to g nd q qsum = Some (distance g q qsum nd).
Proof.
  intros [Hs Hq] Hn. unfold distance, dist_to.
  by destruct (dot_query_total _ _ _ nd q qsum Hs Hn Hq) as [d ->].
Qed.

(** ** Counting elements *)

Lemma filter_length_lt {A} (P Q : A -> bool) (l : list A) x :
  (forall y, P y = true -> Q y = true) -> x ∈ l -> Q x = true -> P x = false ->
  length (filter (fun y => P y = true) l) < length (filter (fun y => Q y = true) l).
Proof.
  intros HPQ Hx HQ HP.
  assert (forall k, length (filter (fun y => P y = true) k) <= length (filter (fun y => Q y = true) k)) as Hle.
  { induction k as [|y k IH]; [done|]. rewrite !filter_cons. pose proof (HPQ y).
    destruct (decide (P y = true)), (decide (Q y = true)); cbn; try lia. intuition done. }
  apply list_elem_of_split in Hx as (l1 & l2 & ->).
  rewrite !list.filter_app, !length_app, !filter_cons.
  rewrite decide_False by congruence. rewrite decide_True by done. cbn.
  pose proof (Hle l1). pose proof (Hle l2). lia.
Qed.

(** ** The greedy descent *)

Section greedy.
Context (g : AnnIndex) (q : list f32) (qsum : f32) (layer : nat).
Context (Hreads : reads g q) (Hlen : length (links g) = length (ids g)) (Hedges : edges_ok (links g)).

Local Abbreviation far := (distance g q qsum).

(** How many nodes are closer than [d]. *)
Definition closer_nodes (d : f32) : nat :=
  length (filter (fun nd => flt (far nd) d = true) (seq 0 (length (ids g)))).

Lemma closer_nodes_lt nd d :
  nd < length (ids g) -> flt (far nd) d = true -> closer_nodes (far nd) < closer_nodes d.
Proof.
  intros Hn Hd. apply (filter_length_lt (fun i => flt (far i) (far nd)) (fun i => flt (far i) d) _ nd).
  - intros y Hy. by apply (flt_trans _ (far nd)).
  - apply elem_of_seq. lia.
  - done.
  - apply flt_irrefl.
Qed.

Lemma closer_nodes_le d : closer_nodes d <= length (ids g).
Proof. unfold closer_nodes. etransitivity; [apply length_filter|]. by rewrite length_seq. Qed.

(** A node some list of the layer leads to. *)
Definition linked_to (nd : nat) : Prop := exists i ns, link_list (links g) i layer = Some ns /\ nd ∈ ns.

Lemma linked_to_layer nd : linked_to nd -> has_layer (links g) nd layer.
Proof. intros (i & ns & Hl & Hin). by apply (Hedges i layer ns Hl). Qed.

(** A state of the pass: the node, its distance, and whether it moved. *)
Definition climbed (start : nat) (st : nat * f32 * bool) : Prop :=
  let '(cur, d, improved) := st in
  cur < length (ids g) /\ d = far cur /\
  (cur = start \/ linked_to cur) /\
  if improved : bool then flt (far cur) (far start) = true else cur = start.

Lemma climb_pass_ok start :
  start < length (ids g) ->
  exists st, climb_pass g q qsum layer start (far start) = Some st /\ climbed start st /\
    (st.2 = false -> forall ns, link_list (links g) start layer = Some ns ->
      forall nb, nb ∈ ns -> flt (far nb) (far start) = false).
Proof.
  intros Hs. unfold climb_pass. destruct (lookup_lt_is_Some_2 (links g) start) as [nl Hnl]; [lia|].
  unfold link_list. rewrite Hnl. cbn [mbind option_bind]. destruct (nl !! layer) as [ns|] eqn:Ens.
  - assert (link_list (links g) start layer = Some ns) as Hll by (unfold link_list; by rewrite Hnl).
    destruct (Hedges _ _ _ Hll) as [_ Hnb].
    destruct (fold_opt_ind (fun done st => climbed start st /\
        (st.2 = false -> forall nb, nb ∈ done -> flt (far nb) (far start) = false))
      (climb g q qsum) ns (start, far start, false)) as (st & -> & Hst & Hmin).
    + split; [split_and!; auto|]. intros _ nb Hin. by apply elem_of_nil in Hin.
    + intros d nb rest [[cur dc] imp] E ((Hc & -> & Hl & Hi) & Hmin). unfold climb.
      destruct (Hnb nb) as [_ Hlb]; [rewrite E; apply elem_of_app; right; by left|].
      assert (nb < length (ids g)) as Hnbn by (rewrite <- Hlen; by apply has_layer_node in Hlb).
      rewrite dist_to_distance by done. cbn [mbind option_bind fst snd].
      destruct (flt (far nb) (far cur)) eqn:Ef; eexists; (split; [done|]); (split; [|cbn]).
      * split_and!; [done|done|right; exists start, ns; split; [done|]; rewrite E; apply elem_of_app; right; by left|].
        destruct imp; [by apply (flt_trans _ (far cur))|by subst].
      * done.
      * done.
      * intros -> nb' [Hin|Hin]%elem_of_app; [by apply Hmin|]. apply list_elem_of_singleton in Hin as ->.
        by subst.
    + exists st. split; [done|]. split; [done|]. intros E ns' [= <-]. by apply Hmin.
  - eexists. split; [done|]. split; [split_and!; auto|]. cbn. congruence.
Qed.

(** The descent ends, at a node none of whose neighbours is closer. *)
Definition local_minimum (nd : nat) : Prop :=
  forall ns, link_list (links g) nd layer = Some ns -> forall nb, nb ∈ ns -> flt (far nb) (far nd) = false.

Lemma climb_loop_ok fuel start :
  start < length (ids g) -> closer_nodes (far start) <= fuel ->
  exists nd, climb_loop fuel g q qsum layer start (far start) = Some nd /\ nd < length (ids g) /\
    (nd = start \/ linked_to nd) /\
    (nd = start \/ flt (far nd) (far start) = true) /\ local_minimum nd.
Proof.
  revert start. induction fuel as [|fuel IH]; intros start Hs Hf; cbn [climb_loop];
    destruct (climb_pass_ok start Hs) as ([[cur d] imp] & -> & (Hc & -> & Hl & Hi) & Hmin); cbn [mbind option_bind snd] in *.
  - destruct imp.
    + pose proof (closer_nodes_lt cur (far start) Hc Hi). lia.
    + subst cur. exists start. split_and!; auto. intros ns. by apply Hmin.
  - destruct imp.
    + pose proof (closer_nodes_lt cur (far start) Hc Hi).
      destruct (IH cur Hc) as (nd & -> & Hn & Hl' & Hd & Hm); [lia|]. exists nd. split_and!; auto.
      { destruct Hl' as [->|?]; auto. }
      right. destruct Hd as [->|Hd]; [done|]. by apply (flt_trans _ (far cur)).
    + subst cur. exists start. split_and!; auto. intros ns. by apply Hmin.
Qed.

Lemma greedy_at_ok start :
  start < length (ids g) ->
  exists nd, greedy_at g q qsum start layer = Some nd /\ nd < length (ids g) /\
    (nd = start \/ linked_to nd) /\
    (nd = start \/ flt (far nd) (far start) = true) /\ local_minimum nd.
Proof.
  intros Hs. unfold greedy_at. rewrite dist_to_distance by done. cbn [mbind option_bind].
  apply climb_loop_ok; [done|apply closer_nodes_le].
Qed.
End greedy.
