(* ===== verification/AnnSearch.v ===== *)
(** * The beam: sound for every width, exact when it is wide enough

    The loop ends within its fuel and never panics; it returns distinct
    admitted nodes reachable from the start, with their distances, nearest
    first; and a beam at least as wide as the graph returns all of them. *)
From Stdlib Require Import SpecFloat.
From stdpp Require Import relations.
From S2P Require Import Prelude Floats Quant Paged Heap AnnStore Ann AnnFacts.
#[local] Set Default Goal Selector "!".
#[local] Set Warnings "-clear-no-such-hyp".

Lemma filter_false_insert (l : list bool) i :
  l !! i = Some false -> S (live_nodes (<[i := true]> l)) = live_nodes l.
Proof.
  intros Hi. rewrite <- (take_drop_middle l i false Hi) at 2.
  rewrite insert_take_drop by (by eapply lookup_lt_Some).
  unfold live_nodes. rewrite !list.filter_app, !length_app, filter_cons_False, filter_cons_True by done. cbn. lia.
Qed.

(** One step along the links of a layer. *)
Definition edge (l : Links) (layer a b : nat) : Prop := exists ns, link_list l a layer = Some ns /\ b ∈ ns.

Section beam.
Context {HC : BinaryHeap Scored reverse_key} {HR : BinaryHeap Scored scored_key}.
Context {LC : BinaryHeapLaws Scored reverse_key} {LR : BinaryHeapLaws Scored scored_key}.
Context (g : AnnIndex) (q : list f32) (qsum : f32) (layer ef : nat) (include_deleted : bool).
Context (admits : nat -> option bool) (adm : nat -> bool) (start : nat).
Context (Hreads : reads g q) (Hlen : length (links g) = length (ids g)) (Hedges : edges_ok (links g)).
Context (Hadm : forall nd, nd < length (ids g) -> admitted g include_deleted admits nd = Some (adm nd)).
Context (Hstart : has_layer (links g) start layer).

Local Abbreviation n := (length (ids g)).
Local Abbreviation far := (distance g q qsum).
Local Abbreviation next := (edge (links g) layer).
Definition reach (nd : nat) : Prop := rtc next start nd.

Definition seen (st : Beam) (nd : nat) : Prop := visited st !! nd = Some true.

(** An entry of a queue: a reachable node that was visited, with its distance. *)
Definition entry_ok (st : Beam) (s : Scored) : Prop := dist s = far (node s) /\ seen st (node s).

Record sound (st : Beam) : Prop := {
  so_len : length (visited st) = n;
  so_seen : forall nd, seen st nd -> reach nd;
  so_cands : Forall (entry_ok st) (h_vec (candidates st));
  so_results : Forall (fun s => entry_ok st s /\ adm (node s) = true) (h_vec (results st));
  so_nodup : NoDup (node <$> h_vec (results st));
  so_width : length (h_vec (results st)) <= Nat.max ef 1;
}.

(** With a beam as wide as the graph nothing is lost: [exc] is the node whose
    neighbours are being visited. *)
Definition complete (exc : option nat) (st : Beam) : Prop :=
  (forall nd, seen st nd -> adm nd = true -> nd ∈ node <$> h_vec (results st)) /\
  (forall nd, seen st nd -> (nd ∈ node <$> h_vec (candidates st)) \/ exc = Some nd \/ forall nb, next nd nb -> seen st nb).

Definition todo (st : Beam) : nat := length (h_vec (candidates st)) + live_nodes (visited st).

Lemma reach_layer nd : reach nd -> has_layer (links g) nd layer.
Proof.
  intros Hr. apply rtc_inv_r in Hr as [<-|(a & _ & ns & Hl & Hin)]; [done|]. by apply (Hedges _ _ _ Hl).
Qed.
Lemma reach_lt nd : reach nd -> nd < n.
Proof. intros Hr%reach_layer%has_layer_node. by rewrite <- Hlen. Qed.
Lemma reach_next a b : reach a -> next a b -> reach b.
Proof. intros Ha Hb. by apply rtc_r with a. Qed.

(** Distinct nodes of the graph are at most as many as there are. *)
Lemma nodes_bound (l : list nat) : NoDup l -> (forall x, x ∈ l -> x < n) -> length l <= n.
Proof.
  intros Hnd Hl. rewrite <- (length_seq n 0). apply submseteq_length, NoDup_submseteq; [done|].
  intros x Hx. apply elem_of_seq. specialize (Hl x Hx). lia.
Qed.

Section visit_new.
Context (st : Beam) (nb : nat) (Hs : sound st) (Hnew : visited st !! nb = Some false) (Hr : reach nb).

Local Abbreviation vis := (<[nb := true]> (visited st)).

Lemma seen_grows c r nd : seen st nd -> seen (mkBeam vis c r) nd.
Proof.
  unfold seen. cbn. intros H. destruct (decide (nd = nb)) as [->|]; [congruence|]. by rewrite list_lookup_insert_ne.
Qed.
Lemma seen_new c r nd : seen (mkBeam vis c r) nd -> nd = nb \/ seen st nd.
Proof.
  unfold seen. cbn. intros H. destruct (decide (nd = nb)) as [->|]; [by left|]. right. by rewrite list_lookup_insert_ne in H.
Qed.
Lemma seen_self c r : seen (mkBeam vis c r) nb.
Proof. unfold seen. cbn. apply list_lookup_insert_eq. by eapply lookup_lt_Some. Qed.

Lemma fresh_result : nb ∉ node <$> h_vec (results st).
Proof.
  intros (s & -> & Hin)%list_elem_of_fmap. pose proof (so_results st Hs) as Hf. rewrite Forall_forall in Hf.
  destruct (Hf s Hin) as [[_ Hseen] _]. unfold seen in Hseen. congruence.
Qed.

(** The queues change as [visit] does. *)
Lemma sound_visit c r :
  Forall (fun s => s = mkScored (far nb) nb \/ s ∈ h_vec (candidates st)) (h_vec c) ->
  Forall (fun s => (s = mkScored (far nb) nb /\ adm nb = true) \/ s ∈ h_vec (results st)) (h_vec r) ->
  NoDup (node <$> h_vec r) -> length (h_vec r) <= Nat.max ef 1 ->
  sound (mkBeam vis c r).
Proof.
  intros Hc Hrs Hnd Hw. pose proof (so_cands st Hs) as Fc. pose proof (so_results st Hs) as Fr.
  rewrite Forall_forall in Fc, Fr. split; cbn.
  - rewrite length_insert. apply (so_len st Hs).
  - intros nd [->|Hn]%seen_new; [done|by apply (so_seen st Hs)].
  - eapply Forall_impl; [exact Hc|]. intros s [->|Hin].
    + split; [done|apply seen_self].
    + destruct (Fc s Hin) as [? ?]. split; [done|by apply seen_grows].
  - eapply Forall_impl; [exact Hrs|]. intros s [[-> Ha]|Hin].
    + split; [split; [done|apply seen_self]|done].
    + destruct (Fr s Hin) as [[? ?] ?]. split; [split; [done|by apply seen_grows]|done].
  - done.
  - done.
Qed.

(** Old nodes keep their place when the new one has one. *)
Lemma complete_visit exc c r :
  (forall nd, nd ∈ node <$> h_vec (candidates st) -> nd ∈ node <$> h_vec c) -> nb ∈ node <$> h_vec c ->
  (forall nd, nd ∈ node <$> h_vec (results st) -> nd ∈ node <$> h_vec r) ->
  (adm nb = true -> nb ∈ node <$> h_vec r) ->
  complete exc st -> complete exc (mkBeam vis c r).
Proof.
  intros Hc Hcn Hrs Hrn [H1 H2]. split; cbn.
  - intros nd [->|Hn]%seen_new Ha; auto.
  - intros nd [->|Hn]%seen_new; [by left|].
    destruct (H2 nd Hn) as [?|[?|Hcl]]; [left; auto|by right; left|]. right. right. intros nb' Hnb'.
    by apply seen_grows, Hcl.
Qed.

Lemma result_room r :
  node <$> h_vec r ≡ₚ nb :: (node <$> h_vec (results st)) -> NoDup (node <$> h_vec r) /\ length (h_vec r) <= n.
Proof.
  intros Hp. assert (NoDup (node <$> h_vec r)) as Hnd.
  { rewrite Hp. constructor; [apply fresh_result|apply (so_nodup st Hs)]. }
  split; [done|]. rewrite <- (length_fmap node). apply nodes_bound; [done|]. intros x. rewrite Hp.
  intros [->|(s & -> & Hin)%list_elem_of_fmap]%elem_of_cons; [by apply reach_lt|]. apply reach_lt.
  pose proof (so_results st Hs) as Fr. rewrite Forall_forall in Fr. destruct (Fr s Hin) as [[_ Hseen] _].
  by apply (so_seen st Hs).
Qed.
End visit_new.

(** What a step of the expansion does. *)
Definition advances (exc : option nat) (st st' : Beam) : Prop :=
  sound st' /\ (forall nd, seen st nd -> seen st' nd) /\ todo st' <= todo st /\
  (n <= ef -> complete exc st -> complete exc st').

Lemma push_result st nb d :
  sound st -> visited st !! nb = Some false -> reach nb ->
  forall r, h_vec r ≡ₚ mkScored d nb :: h_vec (results st) ->
  NoDup (node <$> h_vec r) /\ length (h_vec r) <= n /\ length (h_vec r) = S (length (h_vec (results st))).
Proof.
  intros Hs Hnew Hr r Hp. assert (node <$> h_vec r ≡ₚ nb :: (node <$> h_vec (results st))) as Hpn by (by rewrite Hp).
  destruct (result_room st nb Hs Hnew Hr r Hpn). split_and!; [done|done|]. by rewrite Hp.
Qed.

(** The results that [visit] may leave. *)
Definition may_hold (st : Beam) (nb : nat) (s : Scored) : Prop :=
  (s = mkScored (far nb) nb /\ adm nb = true) \/ s ∈ h_vec (results st).
Lemma may_hold_old st nb : Forall (may_hold st nb) (h_vec (results st)).
Proof. apply Forall_forall. by right. Qed.

Lemma visit_ok exc st nb :
  sound st -> reach nb ->
  exists st', visit g q qsum ef include_deleted admits st nb = Some st' /\ advances exc st st' /\ seen st' nb.
Proof.
  intros Hs Hr. pose proof (reach_lt nb Hr) as Hn. unfold visit, advances.
  destruct (lookup_lt_is_Some_2 (visited st) nb) as [[] Hv]; [by rewrite (so_len st Hs)|..];
    rewrite Hv; cbn [mbind option_bind]; [by exists st|].
  rewrite dist_to_distance by done. cbn [mbind option_bind].
  set (d := far nb). pose proof (filter_false_insert _ _ Hv) as Hlive.
  pose proof (seen_grows st nb Hv) as Hgrow. pose proof (seen_self st nb Hv) as Hself.
  pose proof (h_vec_push (mkScored d nb) (candidates st)) as Hpc.
  pose proof (h_vec_push (mkScored d nb) (results st)) as Hpr.
  destruct (push_result st nb d Hs Hv Hr _ Hpr) as (Hnd & Hroom & Hlr).
  assert (Forall (fun s => s = mkScored (far nb) nb \/ s ∈ h_vec (candidates st)) (h_vec (candidates st))) as Fc0.
  { apply Forall_forall. by right. }
  assert (Forall (fun s => s = mkScored (far nb) nb \/ s ∈ h_vec (candidates st))
    (h_vec (h_push (mkScored d nb) (candidates st)))) as Fc.
  { rewrite Hpc. constructor; [by left|done]. }
  destruct (flt d _ || _) eqn:Ekeep.
  - rewrite Hadm by done. cbn [mbind option_bind]. destruct (adm nb) eqn:Ea.
    + set (r := h_push (mkScored d nb) (results st)) in *. rewrite h_len_vec.
      assert (Forall (may_hold st nb) (h_vec r)) as Fr.
      { rewrite Hpr. constructor; [by left|apply may_hold_old]. }
      pose proof (so_width st Hs).
      destruct (Nat.ltb_spec ef (length (h_vec r))) as [Hlt|Hge].
      * destruct (h_pop r) as [[x r']|] eqn:Epop.
        2:{ apply h_pop_none in Epop. rewrite Epop in Hlt. cbn in Hlt. lia. }
        apply h_pop_some in Epop as [Hpp _]. eexists. split; [done|]. rewrite Hpp in Hlr, Hlt, Fr, Hroom.
        cbn [length] in Hlr. apply Forall_cons in Fr as [_ Fr]. split; [|apply Hself]. split_and!.
        -- apply sound_visit; [done..| |lia]. rewrite Hpp in Hnd. by apply NoDup_cons in Hnd as [_ ?].
        -- intros nd. apply Hgrow.
        -- unfold todo. cbn [candidates visited]. rewrite Hpc. cbn [length]. lia.
        -- cbn in *. lia.
      * eexists. split; [done|]. split; [|apply Hself]. split_and!.
        -- apply sound_visit; [done..|lia].
        -- intros nd. apply Hgrow.
        -- unfold todo. cbn [candidates visited]. rewrite Hpc. cbn [length]. lia.
        -- intros Hw Hco. apply complete_visit; [done|..|done].
           ++ intros nd. rewrite Hpc. cbn. by right.
           ++ rewrite Hpc. cbn. by left.
           ++ intros nd. rewrite Hpr. cbn. by right.
           ++ rewrite Hpr. cbn. by left.
    + eexists. split; [done|]. split; [|apply Hself]. split_and!.
      * apply sound_visit; [done..|apply may_hold_old|apply (so_nodup st Hs)|apply (so_width st Hs)].
      * intros nd. apply Hgrow.
      * unfold todo. cbn [candidates visited]. rewrite Hpc. cbn [length]. lia.
      * intros Hw Hco. apply complete_visit; [done|..|done]; [| |done|congruence].
        -- intros nd. rewrite Hpc. cbn. by right.
        -- rewrite Hpc. cbn. by left.
  - eexists. split; [done|]. split; [|apply Hself]. split_and!.
    + apply sound_visit; [done..|apply may_hold_old|apply (so_nodup st Hs)|apply (so_width st Hs)].
    + intros nd. apply Hgrow.
    + unfold todo. cbn [candidates visited]. lia.
    + intros Hw. exfalso. apply orb_false_iff in Ekeep as [_ Hk%Nat.ltb_ge]. rewrite h_len_vec in Hk. lia.
Qed.

(** Visiting every neighbour of a node. *)
Lemma visit_all_ok exc st ns :
  sound st -> (forall nb, nb ∈ ns -> reach nb) ->
  exists st', fold_opt (visit g q qsum ef include_deleted admits) st ns = Some st' /\
    advances exc st st' /\ forall nb, nb ∈ ns -> seen st' nb.
Proof.
  intros Hs Hns. apply (fold_opt_ind (fun done st' => advances exc st st' /\ forall nb, nb ∈ done -> seen st' nb)).
  - split; [split_and!; auto|]. intros nb Hin. by apply elem_of_nil in Hin.
  - intros done nb rest st1 E [(Hs1 & Hg1 & Ht1 & Hc1) Hseen].
    destruct (visit_ok exc st1 nb Hs1) as (st2 & -> & (Hs2 & Hg2 & Ht2 & Hc2) & Hnb).
    { apply Hns. rewrite E. apply elem_of_app. right. by left. }
    exists st2. split; [done|]. split.
    + split_and!; [done|auto|lia|auto].
    + intros x [Hx|Hx]%elem_of_app; [by apply Hg2, Hseen|]. by apply list_elem_of_singleton in Hx as ->.
Qed.

Definition popped (st : Beam) (c : heap Scored (key := reverse_key)) : Beam := mkBeam (visited st) c (results st).

Lemma pop_ok st c cands :
  sound st -> h_pop (candidates st) = Some (c, cands) ->
  sound (popped st cands) /\ todo st = S (todo (popped st cands)) /\ reach (node c) /\
  (complete None st -> complete (Some (node c)) (popped st cands)).
Proof.
  intros Hs [Hp _]%h_pop_some. pose proof (so_cands st Hs) as Fc. rewrite Hp in Fc.
  apply Forall_cons in Fc as [[_ Hseen] Fc]. split_and!.
  - destruct Hs. by split.
  - unfold todo. rewrite Hp. done.
  - by apply (so_seen st Hs).
  - intros [H1 H2]. split; [done|]. intros nd Hn. destruct (H2 nd Hn) as [Hin|[?|?]]; [|done|by right; right].
    rewrite Hp in Hin. apply elem_of_cons in Hin as [->|Hin]; [by right; left|by left].
Qed.

(** Every admitted node that can be reached is a result. *)
Definition found_all (st : Beam) : Prop :=
  forall nd, reach nd -> adm nd = true -> nd ∈ node <$> h_vec (results st).

Lemma closed_reach st nd :
  seen st start -> (forall a, seen st a -> forall b, next a b -> seen st b) -> reach nd -> seen st nd.
Proof. intros Hs0 Hcl. apply (rtc_ind_r (seen st) start); [done|]. intros y z _ Hyz Hy. by apply (Hcl y). Qed.

Lemma finished_all st :
  h_vec (candidates st) = [] -> seen st start -> complete None st -> found_all st.
Proof.
  intros Hc H0 [H1 H2] nd Hr Ha. apply H1; [|done]. apply closed_reach; [done| |done].
  intros a Hsa b Hab. destruct (H2 a Hsa) as [Hin|[?|Hcl]]; [|done|by apply Hcl].
  rewrite Hc in Hin. by apply elem_of_nil in Hin.
Qed.

Lemma full_all st : sound st -> n <= ef -> ef <= length (h_vec (results st)) -> found_all st.
Proof.
  intros Hs Hn Hw nd Hr _. pose proof (so_results st Hs) as Fr. rewrite Forall_forall in Fr.
  assert (seq 0 n ≡ₚ (node <$> h_vec (results st))) as <-; [|apply elem_of_seq; apply reach_lt in Hr; lia].
  symmetry. apply submseteq_length_Permutation.
  - apply NoDup_submseteq; [apply (so_nodup st Hs)|]. intros x (s & -> & Hin)%list_elem_of_fmap.
    apply elem_of_seq. destruct (Fr s Hin) as [[_ Hseen%(so_seen st Hs)%reach_lt] _]. lia.
  - rewrite length_seq, length_fmap. lia.
Qed.

Lemma beam_loop_ok fuel st :
  sound st -> seen st start -> todo st <= fuel ->
  exists st', beam_loop g q qsum layer ef include_deleted admits fuel st = Some st' /\ sound st' /\
    (n <= ef -> complete None st -> found_all st').
Proof.
  revert st. induction fuel as [|fuel IH]; intros st Hs H0 Ht; cbn [beam_loop];
    destruct (h_pop (candidates st)) as [[c cands]|] eqn:Epop.
  - destruct (pop_ok st c cands Hs Epop) as (_ & Hto & _). lia.
  - exists st. split; [done|]. split; [done|]. intros _ Hc. apply finished_all; [by apply h_pop_none in Epop|done|done].
  - destruct (pop_ok st c cands Hs Epop) as (Hs1 & Hto & Hr & Hc1).
    rewrite h_len_vec. cbn [candidates results visited]. fold (popped st cands).
    destruct (fgt _ _ && _) eqn:Ebreak.
    + exists (popped st cands). split; [done|]. split; [done|]. intros Hn _.
      apply andb_true_iff in Ebreak as [_ Hw%Nat.leb_le]. by apply full_all.
    + pose proof (reach_layer _ Hr) as [ns Hns]. pose proof Hns as Hl. unfold link_list in Hl.
      destruct (links g !! node c) as [nl|]; [|done]. cbn [mbind option_bind] in *. rewrite Hl.
      destruct (visit_all_ok (Some (node c)) (popped st cands) ns Hs1) as (st2 & -> & (Hs2 & Hg2 & Ht2 & Hc2) & Hseen).
      { intros nb Hnb. apply (reach_next (node c)); [done|]. by exists ns. }
      cbn [mbind option_bind]. destruct (IH st2 Hs2) as (st3 & -> & Hs3 & Hall); [by apply Hg2|lia|].
      exists st3. split; [done|]. split; [done|]. intros Hn Hc. apply Hall; [done|].
      destruct (Hc2 Hn (Hc1 Hc)) as [H1 H2]. split; [done|]. intros nd Hnd.
      destruct (H2 nd Hnd) as [?|[[= <-]|?]]; [by left| |by right; right]. right. right.
      intros nb (ns' & Hns' & Hin). rewrite Hns in Hns'. injection Hns' as <-. by apply Hseen.
  - exists st. split; [done|]. split; [done|]. intros _ Hc. apply finished_all; [by apply h_pop_none in Epop|done|done].
Qed.

Lemma live_nodes_replicate k : live_nodes (replicate k false) = k.
Proof.
  induction k as [|k IH]; [done|]. unfold live_nodes in *. cbn [replicate].
  rewrite filter_cons_True by done. cbn [length]. by rewrite IH.
Qed.

(** What a beam returns. *)
Record beam_result (out : list Scored) : Prop := {
  br_dist : Forall (fun s => dist s = far (node s) /\ reach (node s) /\ adm (node s) = true) out;
  br_nodup : NoDup (node <$> out);
  br_sorted : ascending scored_key out;
  br_width : length out <= Nat.max ef 1;
  br_all : n <= ef -> forall nd, reach nd -> adm nd = true -> nd ∈ node <$> out;
}.

Lemma beam_admit_ok :
  exists out, beam_admit g q qsum layer ef include_deleted admits start = Some out /\ beam_result out.
Proof.
  pose proof (has_layer_node _ _ _ Hstart) as Hlt. rewrite Hlen in Hlt. unfold beam_admit.
  rewrite (proj2 (Nat.ltb_lt _ _)) by done. rewrite dist_to_distance, Hadm by done. cbn [mbind option_bind].
  set (s0 := mkScored (far start) start).
  set (r0 := if adm start then h_push s0 h_new else h_new).
  set (st0 := mkBeam _ _ r0).
  assert (seen st0 start) as H0 by (unfold seen; cbn; apply list_lookup_insert_eq; by rewrite length_replicate).
  assert (forall nd, seen st0 nd -> nd = start) as Honly.
  { intros nd. unfold seen. cbn. destruct (decide (nd = start)) as [->|]; [done|].
    rewrite list_lookup_insert_ne by done. by intros [? _]%lookup_replicate. }
  assert (h_vec (candidates st0) ≡ₚ [s0]) as Hc by (cbn; rewrite h_vec_push, h_vec_new; done).
  assert (h_vec r0 ≡ₚ if adm start then [s0] else []) as Hr0.
  { unfold r0. destruct (adm start); rewrite ?h_vec_push, h_vec_new; done. }
  destruct (beam_loop_ok n st0) as (st & -> & Hs & Hall).
  - split; try change (results st0) with r0.
    + unfold st0. cbn [visited]. by rewrite length_insert, length_replicate.
    + intros nd ->%Honly. constructor.
    + rewrite Hc. repeat constructor. exact H0.
    + rewrite Hr0. destruct (adm start) eqn:Ea; repeat constructor; [exact H0|exact Ea].
    + rewrite Hr0. destruct (adm start); cbn; repeat constructor. apply not_elem_of_nil.
    + rewrite Hr0. destruct (adm start); cbn; lia.
  - done.
  - unfold todo. rewrite Hc. unfold st0. cbn [visited length].
    assert (S (live_nodes (<[start:=true]> (replicate n false))) = n) as E; [|lia].
    rewrite filter_false_insert; [apply live_nodes_replicate|]. by apply lookup_replicate_2.
  - cbn [mbind option_bind]. eexists. split; [done|].
    pose proof (stable_sort_perm scored_key (h_vec (results st))) as Hp. split.
    + rewrite Hp. eapply Forall_impl; [apply (so_results st Hs)|]. intros s [[Hd Hseen] Ha].
      split_and!; [done|by apply (so_seen st Hs)|done].
    + rewrite Hp. apply (so_nodup st Hs).
    + apply stable_sort_ascending.
    + rewrite Hp. apply (so_width st Hs).
    + intros Hn nd Hr Ha. rewrite Hp. apply Hall; [done| |done|done]. split.
      * intros x ->%Honly Hx. change (results st0) with r0. rewrite Hr0, Hx. by left.
      * intros x ->%Honly. left. rewrite Hc. by left.
Qed.
End beam.

(** * Searching a well-formed graph

    A search never panics and always ends; its hits are live nodes, each at
    most once, with their scores, nearest first; and nothing that can be
    reached is missed when the beam is as wide as the graph. *)
From S2P Require Import Prelude Floats Quant QuantFacts Paged Heap AnnStore Ann AnnFacts.
From Stdlib Require Import SpecFloat.
From stdpp Require Import relations.

Lemma layers_down_S lo k : layers_down (S lo) (lo + S k) = (lo + S k) :: layers_down (S lo) (lo + k).
Proof.
  unfold layers_down. replace (S (lo + S k) - S lo) with (S k) by lia. replace (S (lo + k) - S lo) with k by lia.
  rewrite seq_S, rev_app_distr. cbn. f_equal. lia.
Qed.

(** The descent through the upper layers arrives at a node of the next one. *)
Lemma descend_ok g q qsum lo top cur :
  reads g q -> length (links g) = length (ids g) -> edges_ok (links g) -> has_layer (links g) cur top ->
  exists nd, fold_opt (greedy_at g q qsum) cur (layers_down (S lo) top) = Some nd /\
    has_layer (links g) nd (Nat.min lo top) /\ (nd = cur \/ exists i L ns, link_list (links g) i L = Some ns /\ nd ∈ ns).
Proof.
  intros Hr Hl He Hc. destruct (decide (lo < top)) as [Hlt|Hge].
  - rewrite Nat.min_l by lia. replace top with (lo + (top - lo)) in * by lia. clear Hlt. revert cur Hc.
    induction (top - lo) as [|k IH]; intros cur Hc.
    + exists cur. unfold layers_down. rewrite Nat.add_0_r, Nat.sub_diag in *. auto.
    + rewrite layers_down_S. cbn [fold_opt].
      destruct (greedy_at_ok g q qsum (lo + S k) Hr Hl He cur) as (nd & -> & _ & Hnd & _).
      { rewrite <- Hl. by eapply has_layer_node. }
      cbn [mbind option_bind]. destruct (IH nd) as (nd' & E & Hl' & Hnd').
      * apply (has_layer_le _ _ (lo + S k)); [lia|]. destruct Hnd as [->|Hnd]; [done|by eapply linked_to_layer].
      * exists nd'. split; [done|]. split; [done|]. destruct Hnd' as [->|?]; [|by right].
        destruct Hnd as [->|(i & ns & ? & ?)]; [by left|right; eauto].
  - rewrite Nat.min_r by lia. exists cur. unfold layers_down. replace (S top - S lo) with 0 by lia. auto.
Qed.

Lemma ok_reads g q : graph_ok g -> dim g = Some (length q) -> reads g (normalized q).
Proof.
  intros Hok Hd. split; [apply (ok_store g Hok)|]. unfold dim0. rewrite Hd. cbn. apply normalized_length.
Qed.

Lemma ok_entry_layer g e top :
  graph_ok g -> entry g = Some (e, top) -> has_layer (links g) e top.
Proof.
  intros Hok He. pose proof (ok_entry g Hok) as H. rewrite He in H. destruct H as [(nl & Hnl & Hl) _].
  apply has_layer_iff. exists nl. split; [done|lia].
Qed.

(** A live node. *)
Definition alive (g : AnnIndex) (nd : nat) : bool := match deleted g !! nd with Some d => negb d | None => false end.

Lemma alive_inj g a b id :
  graph_ok g -> alive g a = true -> alive g b = true -> ids g !! a = Some id -> ids g !! b = Some id -> a = b.
Proof.
  intros Hok Ha Hb Hia Hib. unfold alive in *.
  destruct (deleted g !! a) as [[]|] eqn:Da; try done. destruct (deleted g !! b) as [[]|] eqn:Db; try done.
  pose proof (ok_dead g Hok a id Hia Da). pose proof (ok_dead g Hok b id Hib Db). congruence.
Qed.

(** A node's hit. *)
Definition hit_of (g : AnnIndex) (query : list f32) (nd : nat) (h : Id * f32) : Prop :=
  ids g !! nd = Some h.1 /\ h.2 = f32_sub f32_one (distance g (normalized query) (f32_sum (normalized query)) nd).

(** The key by which hits are ordered. *)
Definition rank (g : AnnIndex) (query : list f32) (nd : nat) : Z :=
  f32_key (distance g (normalized query) (f32_sum (normalized query)) nd).

(** The hits of a search for [k] among the nodes of [adm]. *)
Record answer (g : AnnIndex) (query : list f32) (k : nat) (adm : nat -> bool) (hs : list (Id * f32)) (nds : list nat) : Prop := {
  an_hits : Forall2 (hit_of g query) nds hs;
  an_distinct : NoDup nds;
  an_few : length nds <= k;
  an_admitted : Forall (fun nd => adm nd = true) nds;
  an_sorted : StronglySorted (fun a b => (rank g query a <= rank g query b)%Z) nds;
}.

(** Nothing reachable from [start] is closer than the hits and missing. *)
Definition misses_nothing (g : AnnIndex) (query : list f32) (k : nat) (adm : nat -> bool) (nds : list nat) (start : nat) : Prop :=
  forall nd, rtc (edge (links g) 0) start nd -> adm nd = true ->
  nd ∈ nds \/ (length nds = k /\ Forall (fun h => (rank g query h <= rank g query nd)%Z) nds).

Section search.
Context {HC : BinaryHeap Scored reverse_key} {HR : BinaryHeap Scored scored_key}.
Context {LC : BinaryHeapLaws Scored reverse_key} {LR : BinaryHeapLaws Scored scored_key}.
Context (g : AnnIndex) (query : list f32) (Hok : graph_ok g) (Hdim : dim g = Some (length query)).

Local Abbreviation q := (normalized query).
Local Abbreviation qsum := (f32_sum (normalized query)).
Local Abbreviation far := (distance g q qsum).

Lemma StronglySorted_take {A} (R : A -> A -> Prop) k l :
  StronglySorted R l ->
  StronglySorted R (take k l) /\ Forall (fun x => Forall (fun y => R x y) (drop k l)) (take k l).
Proof.
  intros Hs. revert k. induction Hs as [|x l Hs IH Hx]; intros [|k]; cbn; try by repeat constructor.
  destruct (IH k) as [H1 H2]. rewrite <- (take_drop k l) in Hx. apply Forall_app in Hx as [Hx1 Hx2].
  split; constructor; auto.
Qed.

Lemma hits_of_beam adm ef k start out :
  0 < k -> beam_result g q qsum 0 ef adm start out -> (forall nd, adm nd = true -> nd < length (ids g)) ->
  exists hs, hits g k out = Some hs /\ answer g query k adm hs (take k (node <$> out)) /\
    (length (ids g) <= ef -> misses_nothing g query k adm (take k (node <$> out)) start).
Proof.
  intros Hk Hb Hadm. pose proof (br_dist _ _ _ _ _ _ _ _ Hb) as Fd. unfold hits.
  destruct (mapM_total (fun s => id ← ids g !! node s; Some (id, f32_sub f32_one (dist s))) (take k out)) as (hs & -> & H2).
  { intros s Hs%elem_of_take. destruct Hs as (i & Hs & _). rewrite Forall_lookup in Fd.
    destruct (Fd i s Hs) as (_ & _ & Ha). destruct (lookup_lt_is_Some_2 (ids g) (node s)) as [id ->]; [by apply Hadm|].
    by eexists. }
  assert (StronglySorted (fun a b => (rank g query a <= rank g query b)%Z) (node <$> out)) as Hsort.
  { pose proof (br_sorted _ _ _ _ _ _ _ _ Hb) as Hs. clear -Hs Fd.
    induction Hs as [|s l _ IH Hx]; cbn; [constructor|]. apply Forall_cons in Fd as [(Hd & _) Fd].
    constructor; [by apply IH|]. apply Forall_fmap. rewrite Forall_forall in *. intros s' Hs'.
    specialize (Hx s' Hs'). destruct (Fd s' Hs') as (Hd' & _). unfold scored_key in Hx. unfold compose, rank.
    by rewrite <- Hd, <- Hd'. }
  destruct (StronglySorted_take _ k _ Hsort) as [Hs1 Hs2].
  exists hs. split; [done|]. split.
  - split.
    + rewrite <- fmap_take. apply Forall2_fmap_l. rewrite Forall2_same_length_lookup in *. destruct H2 as [Hl H2].
      split; [done|]. intros i s [id sc] Hs Hh. specialize (H2 i s (id, sc) Hs Hh). cbn in H2.
      apply lookup_take_Some in Hs as [Hs _]. rewrite Forall_lookup in Fd. destruct (Fd i s Hs) as (Hd & _).
      destruct (ids g !! node s) as [id'|] eqn:Eid; [|done]. injection H2 as <- <-. split; cbn; [done|]. by rewrite Hd.
    + eapply sublist_NoDup; [apply (br_nodup _ _ _ _ _ _ _ _ Hb)|apply sublist_take].
    + rewrite length_take. lia.
    + apply Forall_take, Forall_fmap. eapply Forall_impl; [exact Fd|]. by intros s (_ & _ & ?).
    + done.
  - intros Hef nd Hr Ha. pose proof (br_all _ _ _ _ _ _ _ _ Hb Hef nd Hr Ha) as Hin.
    rewrite <- (take_drop k (node <$> out)) in Hin. apply elem_of_app in Hin as [?|Hin]; [by left|]. right. split.
    + rewrite length_take. apply list_elem_of_lookup in Hin as [i Hi]. rewrite lookup_drop in Hi.
      apply lookup_lt_Some in Hi. lia.
    + eapply Forall_impl; [exact Hs2|]. cbn. intros h Hh. rewrite Forall_forall in Hh. by apply Hh.
Qed.

(** Where the descent from the entry ends. *)
Lemma descent e top :
  entry g = Some (e, top) ->
  exists start, fold_opt (greedy_at g q qsum) e (layers_down 1 top) = Some start /\ has_layer (links g) start 0.
Proof.
  intros He. pose proof (ok_entry_layer g e top Hok He) as Hl.
  destruct (descend_ok g q qsum 0 top e (ok_reads g query Hok Hdim) (ok_links g Hok) (ok_edges g Hok) Hl) as (nd & E & Hn & _).
  by exists nd.
Qed.

Lemma admitted_alive (admits : nat -> option bool) (f : nat -> bool) nd :
  (forall nd, nd < length (ids g) -> admits nd = Some (f nd)) -> nd < length (ids g) ->
  admitted g false admits nd = Some (alive g nd && f nd).
Proof.
  intros Hf Hn. unfold admitted, alive. destruct (lookup_lt_is_Some_2 (deleted g) nd) as [d Hd].
  { by rewrite (ok_deleted g Hok). }
  rewrite Hd. cbn. destruct d; cbn; [done|]. by apply Hf.
Qed.

Lemma alive_lt nd : alive g nd = true -> nd < length (ids g).
Proof.
  unfold alive. destruct (deleted g !! nd) eqn:E; [|done]. intros _. rewrite <- (ok_deleted g Hok).
  by eapply lookup_lt_Some.
Qed.

Lemma beam_hits admits f ef k start :
  0 < k -> has_layer (links g) start 0 -> (forall nd, nd < length (ids g) -> admits nd = Some (f nd)) ->
  let adm := fun nd => alive g nd && f nd in
  exists hs nds, (found ← beam_admit g q qsum 0 ef false admits start; hits g k found) = Some hs /\
    answer g query k adm hs nds /\ (length (ids g) <= ef -> misses_nothing g query k adm nds start).
Proof.
  intros Hk Hs Hf adm.
  destruct (beam_admit_ok g q qsum 0 ef false admits adm start (ok_reads g query Hok Hdim) (ok_links g Hok)
    (ok_edges g Hok)) as (out & -> & Hb); [|done|].
  { intros nd Hn. by apply admitted_alive. }
  cbn [mbind option_bind]. destruct (hits_of_beam adm ef k start out Hk Hb) as (hs & E & Ha & Hm).
  { intros nd [Hl _]%andb_true_iff. by apply alive_lt. }
  by exists hs, (take k (node <$> out)).
Qed.
End search.

(** The ids of an answer are the ids of distinct live nodes, so they are
    distinct. *)
Lemma answer_ids g query k adm hs nds :
  graph_ok g -> (forall nd, adm nd = true -> alive g nd = true) -> answer g query k adm hs nds -> NoDup hs.*1.
Proof.
  intros Hok Ha [Hh Hnd _ Hadm _]. clear -Hok Ha Hh Hnd Hadm. induction Hh as [|nd h nds hs [Hid _] H2 IH]; [constructor|].
  apply NoDup_cons in Hnd as [Hni Hnd]. apply Forall_cons in Hadm as [Han Hadm]. cbn. constructor; [|by apply IH].
  intros (h' & Eh & Hin)%list_elem_of_fmap. apply list_elem_of_lookup in Hin as [i Hi].
  destruct (Forall2_lookup_r _ _ _ _ _ H2 Hi) as (nd' & Hnd' & [Hid' _]).
  rewrite Forall_lookup in Hadm. pose proof (Hadm _ _ Hnd').
  assert (nd = nd') as -> by (apply (alive_inj g _ _ h.1); [done|by apply Ha|by apply Ha|done|by rewrite Eh]).
  apply Hni. by eapply list_elem_of_lookup_2.
Qed.
