(* ===== verification/AnnInsert.v ===== *)
(** * Insertion and removal keep the graph well-formed

    The updates of one insertion, from one link to the whole operation: no
    index is out of range, no list overflows, links never lead to the node
    itself, twice to one node, or to a node without that layer. *)
From Stdlib Require Import SpecFloat.
From stdpp Require Import relations.
From S2P Require Import Prelude Floats Quant QuantFacts Paged Heap AnnStore Ann AnnFacts AnnSearch.
From S2P Require Import AnnSearch.
#[local] Set Default Goal Selector "!".
#[local] Set Warnings "-clear-no-such-hyp".

(** ** Tombstones *)

Definition buried (g : AnnIndex) (nd : nat) : AnnIndex :=
  let d := <[nd := true]> (deleted g) in set_deleted g d (live_nodes d).

Lemma tombstone_buried g nd :
  nodes_ok g -> nd < length (ids g) -> tombstone g nd = Some (buried g nd).
Proof.
  intros Hok Hn. unfold tombstone, buried. destruct (lookup_lt_is_Some_2 (deleted g) nd) as [d Hd].
  { by rewrite (ok_deleted g Hok). }
  rewrite Hd. cbn [mbind option_bind]. pose proof (ok_live g Hok) as Hl. destruct d.
  - rewrite list_insert_id by done. rewrite <- Hl. by destruct g.
  - pose proof (filter_false_insert _ _ Hd) as Hf. rewrite <- Hl in Hf. by rewrite <- Hf.
Qed.

Lemma buried_nodes_ok g nd : nodes_ok g -> nodes_ok (buried g nd).
Proof.
  intros [Hsm Hde Hli Hdi Hfr Hfi Hqu Hst Hby Hdd Hlv Hla Hed Hdg Hrg]. split; cbn; try done.
  - by rewrite length_insert.
  - intros i id Hi Hdel. apply (Hdd i id Hi). destruct (decide (i = nd)) as [->|].
    + destruct (decide (nd < length (deleted g))).
      * by rewrite list_lookup_insert_eq in Hdel.
      * apply lookup_lt_Some in Hdel. rewrite length_insert in Hdel. lia.
    + by rewrite list_lookup_insert_ne in Hdel.
Qed.

Lemma buried_ok g nd : graph_ok g -> graph_ok (buried g nd).
Proof. intros Hok. split; [by apply buried_nodes_ok, Hok|apply (ok_entry g Hok)]. Qed.

Lemma alive_buried g nd nd' :
  nd < length (deleted g) -> alive (buried g nd) nd' = if decide (nd' = nd) then false else alive g nd'.
Proof.
  intros Hn. unfold alive. cbn. destruct (decide (nd' = nd)) as [->|Hne].
  - by rewrite list_lookup_insert_eq.
  - by rewrite list_lookup_insert_ne.
Qed.

(** ** The index of ids *)

Lemma index_ids_snoc l id : index_ids (l ++ [id]) = <[id := length l]> (index_ids l).
Proof.
  unfold index_ids. rewrite length_app, Nat.add_1_r, seq_S, zip_with_app by apply length_seq.
  by rewrite fold_left_app.
Qed.

Lemma index_ids_lookup l id nd : index_ids l !! id = Some nd -> l !! nd = Some id.
Proof.
  induction l as [|x l IH] using rev_ind; [done|]. rewrite index_ids_snoc.
  intros [[<- <-]|[_ H]]%lookup_insert_Some; [by apply list_lookup_middle|].
  apply lookup_app_l_Some. by apply IH.
Qed.

Lemma by_id_lt g id nd : nodes_ok g -> by_id g !! id = Some nd -> nd < length (ids g).
Proof. intros Hok H. rewrite (ok_by_id g Hok) in H. by eapply lookup_lt_Some, index_ids_lookup. Qed.

(** ** Selecting neighbours *)

Lemma dominated_total g c kept :
  store_ok (dim0 g) (length (ids g)) (store g) -> node c < length (ids g) ->
  Forall (fun s => node s < length (ids g)) kept -> is_Some (dominated g c kept).
Proof.
  intros Hs Hc. induction 1 as [|s kept Hn _ IH]; [by eexists|]. cbn [dominated].
  destruct (dot_nodes_total _ _ _ _ _ Hs Hc Hn) as [d ->]. cbn [mbind option_bind].
  destruct (flt _ _); [by eexists|done].
Qed.

(** The kept ones: some of the candidates, once each, at most [m]. *)
Definition selection (m : nat) (from kept : list Scored) : Prop :=
  NoDup (node <$> kept) /\ (forall s, s ∈ kept -> s ∈ from) /\ length kept <= m.

Lemma NoDup_snoc {A} (l : list A) x : NoDup l -> x ∉ l -> NoDup (l ++ [x]).
Proof.
  intros Hl Hx. apply NoDup_app. split_and!; [done| |apply NoDup_singleton].
  intros y Hy ->%list_elem_of_singleton. done.
Qed.

Lemma select_loop_ok g m from sorted kept :
  store_ok (dim0 g) (length (ids g)) (store g) -> Forall (fun s => node s < length (ids g)) from ->
  (forall s, s ∈ sorted -> s ∈ from) -> NoDup ((node <$> kept) ++ (node <$> sorted)) -> selection m from kept ->
  exists out, select_loop g m kept sorted = Some out /\ selection m from out.
Proof.
  intros Hs Hf. revert kept. induction sorted as [|c sorted IH]; intros kept Hin Hnd Hk; cbn [select_loop]; [by exists kept|].
  destruct (Nat.leb_spec m (length kept)); [by exists kept|].
  destruct Hk as (Hk1 & Hk2 & Hk3). rewrite Forall_forall in Hf.
  destruct (dominated_total g c kept Hs) as [b ->].
  { apply Hf, Hin. by left. }
  { apply Forall_forall. auto. }
  cbn [mbind option_bind]. apply IH.
  - intros s Hsin. apply Hin. by right.
  - destruct b.
    + rewrite fmap_cons in Hnd. eapply sublist_NoDup; [exact Hnd|]. apply sublist_app; [done|]. by apply sublist_cons.
    + by rewrite fmap_app, <- app_assoc.
  - destruct b; [done|]. split_and!.
    + rewrite fmap_app. apply NoDup_snoc; [done|]. apply NoDup_app in Hnd as (_ & Hd & _). intros Hx.
      apply (Hd _ Hx). by left.
    + intros s [?| ->%list_elem_of_singleton]%elem_of_app; [by apply Hk2|]. apply Hin. by left.
    + rewrite length_app. cbn. lia.
Qed.

Lemma pad_loop_ok m from sorted kept :
  (forall s, s ∈ sorted -> s ∈ from) -> selection m from kept -> selection m from (pad_loop m kept sorted).
Proof.
  revert kept. induction sorted as [|c sorted IH]; intros kept Hin Hk; cbn [pad_loop]; [done|].
  destruct (Nat.leb_spec m (length kept)); [done|].
  assert (forall s, s ∈ sorted -> s ∈ from) as Hin' by (intros s Hs; apply Hin; by right).
  destruct (existsb _ kept) eqn:E; [by apply IH|]. apply IH; [done|]. destruct Hk as (Hk1 & Hk2 & Hk3).
  split_and!.
  - rewrite fmap_app. apply NoDup_snoc; [done|]. intros (s & Es & Hs)%list_elem_of_fmap.
    assert (existsb (fun s => node s =? node c) kept = true); [|congruence].
    apply existsb_exists. exists s. split; [by apply list_elem_of_In|]. by apply Nat.eqb_eq.
  - intros s [?| ->%list_elem_of_singleton]%elem_of_app; [by apply Hk2|]. apply Hin. by left.
  - rewrite length_app. cbn. lia.
Qed.

(** The padding fills up to [m] as long as there are candidates. *)
Lemma pad_loop_fills m sorted kept :
  m <= length (pad_loop m kept sorted) \/
  (forall s, s ∈ sorted -> node s ∈ node <$> pad_loop m kept sorted) /\
  (forall s, s ∈ kept -> s ∈ pad_loop m kept sorted).
Proof.
  revert kept. induction sorted as [|c sorted IH]; intros kept; cbn [pad_loop].
  - right. split; [|done]. intros s Hs. by apply elem_of_nil in Hs.
  - destruct (Nat.leb_spec m (length kept)); [by left|].
    destruct (existsb _ kept) eqn:E.
    + destruct (IH kept) as [?|[H1 H2]]; [by left|right]. split; [|done].
      intros s [->|Hs]%elem_of_cons; [|by apply H1].
      apply existsb_exists in E as (s' & Hs'%list_elem_of_In & En%Nat.eqb_eq).
      rewrite <- En. apply list_elem_of_fmap. eauto.
    + destruct (IH (kept ++ [c])) as [?|[H1 H2]]; [by left|right]. split.
      * intros s [->|Hs]%elem_of_cons; [|by apply H1]. apply list_elem_of_fmap. exists c. split; [done|].
        apply H2, elem_of_app. right. by left.
      * intros s Hs. apply H2, elem_of_app. by left.
Qed.

Lemma select_diverse_ok g sorted m :
  store_ok (dim0 g) (length (ids g)) (store g) -> Forall (fun s => node s < length (ids g)) sorted ->
  NoDup (node <$> sorted) ->
  exists kept, select_diverse g sorted m = Some kept /\ selection m sorted kept /\
    length kept = Nat.min m (length sorted).
Proof.
  intros Hs Hf Hnd. unfold select_diverse.
  destruct (select_loop_ok g m sorted sorted [] Hs Hf) as (kept & -> & Hk); [done|done| |].
  { split_and!; [constructor| |cbn; lia]. intros s Hx. by apply elem_of_nil in Hx. }
  cbn [mbind option_bind]. eexists. split; [done|].
  assert (forall l, selection m sorted l -> length l <= length sorted) as Hle.
  { intros l (H1 & H2 & _). rewrite <- !(length_fmap node). apply submseteq_length, NoDup_submseteq; [done|].
    intros x (s & -> & Hx)%list_elem_of_fmap. apply list_elem_of_fmap. eauto. }
  destruct (Nat.ltb_spec (length kept) m).
  - pose proof (pad_loop_ok m sorted sorted kept ltac:(done) Hk) as Hp. split; [done|].
    pose proof (Hle _ Hp). destruct Hp as (_ & _ & Hpm).
    destruct (pad_loop_fills m sorted kept) as [?|[H1 _]]; [lia|].
    enough (length sorted <= length (pad_loop m kept sorted)) by lia.
    rewrite <- !(length_fmap node). apply submseteq_length, NoDup_submseteq; [done|].
    intros x (s & -> & Hx)%list_elem_of_fmap. by apply H1.
  - split; [done|]. pose proof (Hle _ Hk). destruct Hk as (_ & _ & ?). lia.
Qed.

(** ** One link *)

Lemma push_link_some l nd layer nb ns :
  link_list l nd layer = Some ns -> push_link l nd layer nb = Some (set_link_list l nd layer (ns ++ [nb])).
Proof. intros H. unfold push_link. by rewrite H. Qed.

Lemma set_links_links g l : links (set_links g l) = l.
Proof. done. Qed.
Lemma set_links_twice g l l' : set_links (set_links g l) l' = set_links g l'.
Proof. done. Qed.

Section linking.
Context (g : AnnIndex) (layer max_links : nat).
Context (Hstore : store_ok (dim0 g) (length (ids g)) (store g)).

Lemma prune_ok l nd ns :
  length l = length (ids g) -> edges_ok l -> link_list l nd layer = Some ns ->
  exists kept, prune (set_links g l) nd layer max_links = Some (set_links g (set_link_list l nd layer kept)) /\
    NoDup kept /\ (forall nb, nb ∈ kept -> nb ∈ ns) /\ length kept <= max_links.
Proof.
  intros Hlen He Hl. destruct (He nd layer ns Hl) as [Hnd Hnb].
  assert (forall nb, nb ∈ ns -> nb < length (ids g)) as Hlt.
  { intros nb Hin. rewrite <- Hlen. apply has_layer_node with layer. by apply Hnb. }
  unfold prune. change (store (set_links g l)) with (store g). change (dim0 (set_links g l)) with (dim0 g).
  destruct (materialize_total (dim0 g) (length (ids g)) (store g) nd Hstore) as (q & -> & Hq).
  { rewrite <- Hlen. apply has_layer_node with layer. by eexists. }
  cbn [mbind option_bind]. rewrite set_links_links, Hl. cbn [mbind option_bind].
  assert (reads (set_links g l) q) as Hr by (split; [exact Hstore|exact Hq]).
  rewrite (mapM_some _ (fun nb => mkScored (distance (set_links g l) q (f32_sum q) nb) nb)).
  2:{ intros nb Hin. by rewrite (dist_to_distance _ q _ nb Hr) by (by apply Hlt). }
  cbn [mbind option_bind]. set (sc := map _ ns). pose proof (stable_sort_perm scored_key sc) as Hp.
  assert (node <$> sc = ns) as Hns.
  { unfold sc. change (node <$> ?x) with (map node x). rewrite map_map. apply map_id. }
  destruct (select_diverse_ok (set_links g l) (stable_sort scored_key sc) max_links) as (kept & -> & (K1 & K2 & K3) & _).
  - exact Hstore.
  - rewrite Hp. unfold sc. apply Forall_fmap, Forall_forall. intros nb Hin. by apply Hlt.
  - by rewrite Hp, Hns.
  - cbn [mbind option_bind]. exists (node <$> kept). split; [done|]. split; [done|]. split.
    + intros nb (s & -> & Hs)%list_elem_of_fmap. rewrite <- Hns. apply list_elem_of_fmap. exists s. split; [done|].
      rewrite <- Hp. by apply K2.
    + by rewrite length_fmap.
Qed.

(** The links after both directions of a link were added, and pruned. *)
Record linked (l l' : Links) (nd nb : nat) : Prop := {
  lk_edges : edges_ok l';
  lk_shape : shape l' = shape l;
  lk_own : forall ns, link_list l nd layer = Some ns -> link_list l' nd layer = Some (ns ++ [nb]);
  lk_other : forall i L, (i, L) <> (nd, layer) -> (i, L) <> (nb, layer) -> link_list l' i L = link_list l i L;
}.

Lemma connect_ok l nd s own theirs :
  max_links_at (config g) layer = max_links ->
  length l = length (ids g) -> edges_ok l -> degree_ok (config g) l -> nd <> node s ->
  link_list l nd layer = Some own -> link_list l (node s) layer = Some theirs ->
  node s ∉ own -> nd ∉ theirs -> length own < max_links ->
  exists l', connect nd layer max_links (set_links g l) s = Some (set_links g l') /\
    linked l l' nd (node s) /\ degree_ok (config g) l'.
Proof.
  intros Hmax Hlen He Hdeg Hne Hown Hth Hn1 Hn2 Hroom. set (nb := node s) in *. unfold connect. fold nb.
  rewrite set_links_links, (push_link_some _ _ _ _ own) by done. cbn [mbind option_bind].
  set (l1 := set_link_list l nd layer (own ++ [nb])).
  assert (has_layer l nd layer) as L1 by by eexists. assert (has_layer l nb layer) as L2 by by eexists.
  assert (shape l1 = shape l) as S1 by apply shape_set.
  assert (edges_ok l1) as E1.
  { apply edges_ok_set; [done|done| |].
    - apply NoDup_snoc; [|done]. by destruct (He _ _ _ Hown).
    - intros x [Hx| ->%list_elem_of_singleton]%elem_of_app; [by apply (proj2 (He _ _ _ Hown))|]. by split; [congruence|]. }
  assert (link_list l1 nb layer = Some theirs) as Hth1.
  { unfold l1. rewrite link_list_set by done. rewrite decide_False by (intros []; congruence). done. }
  assert (has_layer l1 nb layer) as L3 by by eexists. assert (has_layer l1 nd layer) as L4 by (by apply (shape_has_layer l)).
  rewrite (push_link_some _ _ _ _ theirs) by done. cbn [mbind option_bind].
  set (l2 := set_link_list l1 nb layer (theirs ++ [nd])).
  assert (edges_ok l2) as E2.
  { apply edges_ok_set; [done|done| |].
    - apply NoDup_snoc; [|done]. by destruct (He _ _ _ Hth).
    - intros x [Hx| ->%list_elem_of_singleton]%elem_of_app; [by apply (proj2 (E1 _ _ _ Hth1))|]. by split. }
  assert (link_list l2 nb layer = Some (theirs ++ [nd])) as Hth2.
  { unfold l2. rewrite link_list_set by done. by rewrite decide_True. }
  rewrite Hth2. cbn [mbind option_bind]. rewrite set_links_twice.
  assert (forall l', (forall i L, link_list l' i L = if decide (i = nb /\ L = layer) then link_list l' nb layer else link_list l1 i L) ->
    edges_ok l' -> shape l' = shape l1 -> linked l l' nd nb) as Hlinked.
  { intros l' Hl' He' Hs'. split.
    - done.
    - congruence.
    - intros ns Hns. rewrite Hl'. rewrite decide_False by (intros []; congruence). unfold l1.
      rewrite link_list_set, decide_True by done. congruence.
    - intros i L H1 H2. rewrite Hl'. rewrite decide_False by (intros [-> ->]; done). unfold l1.
      rewrite link_list_set by done. by rewrite decide_False by (intros [-> ->]; done). }
  assert (degree_ok (config g) l1) as D1.
  { apply degree_ok_set; [done|done|]. rewrite length_app, Hmax. cbn. lia. }
  destruct (Nat.ltb_spec max_links (length (theirs ++ [nd]))).
  - destruct (prune_ok l2 nb (theirs ++ [nd])) as (kept & -> & K1 & K2 & K3); [|done|done|].
    { rewrite (shape_length l1) by apply shape_set. by rewrite (shape_length l). }
    eexists. split; [done|].
    assert (has_layer l2 nb layer) as L5 by by eexists. split.
    + apply Hlinked.
      * intros i L. rewrite !link_list_set by done. rewrite (decide_True (P := nb = nb /\ _)) by done.
        destruct (decide (i = nb /\ L = layer)); [done|]. unfold l2. by rewrite link_list_set, decide_False by done.
      * apply edges_ok_set; [done|done|done|]. intros x Hx%K2. by apply (proj2 (E2 _ _ _ Hth2)).
      * rewrite shape_set. apply shape_set.
    + intros i L ns. rewrite link_list_set by done. destruct (decide (i = nb /\ L = layer)) as [[-> ->]|Hx].
      * intros [= <-]. by rewrite Hmax.
      * unfold l2. rewrite link_list_set, decide_False by done. apply D1.
  - eexists. split; [done|]. split.
    + apply Hlinked; [|done|apply shape_set]. intros i L. unfold l2. rewrite !link_list_set by done.
      by rewrite (decide_True (P := nb = nb /\ _)) by done.
    + apply degree_ok_set; [done|done|]. rewrite Hmax. lia.
Qed.

(** *** All the links of one layer *)

(** A node that no list of the layer mentions, and whose own is empty. *)
Definition fresh_at (l : Links) (nd L : nat) : Prop :=
  link_list l nd L = Some [] /\ forall i ns, link_list l i L = Some ns -> nd ∉ ns.

Lemma connect_all_ok l nd chosen :
  max_links_at (config g) layer = max_links ->
  length l = length (ids g) -> edges_ok l -> degree_ok (config g) l -> fresh_at l nd layer ->
  NoDup (node <$> chosen) -> (forall s, s ∈ chosen -> node s <> nd /\ has_layer l (node s) layer) ->
  length chosen <= max_links ->
  exists l', fold_opt (connect nd layer max_links) (set_links g l) chosen = Some (set_links g l') /\
    edges_ok l' /\ degree_ok (config g) l' /\ shape l' = shape l /\
    (forall i L, L <> layer -> link_list l' i L = link_list l i L).
Proof.
  intros Hmax Hlen He Hdeg [Hown Hfresh] Hnd Hch Hroom.
  destruct (fold_opt_ind (fun done g' => exists l', g' = set_links g l' /\ edges_ok l' /\ degree_ok (config g) l' /\
      shape l' = shape l /\ link_list l' nd layer = Some (node <$> done) /\
      (forall i, i <> nd -> i ∉ node <$> done -> link_list l' i layer = link_list l i layer) /\
      (forall i L, L <> layer -> link_list l' i L = link_list l i L))
    (connect nd layer max_links) chosen (set_links g l)) as (g' & -> & l' & -> & H1 & H2 & H3 & _ & _ & H4).
  - exists l. split_and!; done.
  - intros done s rest g' E (l' & -> & H1 & H2 & H3 & H4 & H5 & H6).
    destruct (Hch s) as [Hsn Hsl]; [rewrite E; apply elem_of_app; right; by left|].
    rewrite E, fmap_app, fmap_cons in Hnd. apply NoDup_app in Hnd as (Hnd1 & Hnd2 & Hnd3).
    assert (node s ∉ node <$> done) as Hns by (intros Hx; apply (Hnd2 _ Hx); by left).
    destruct Hsl as [theirs Hth].
    destruct (connect_ok l' nd s (node <$> done) theirs) as (l2 & -> & [K1 K2 K3 K4] & K5); try done.
    + by rewrite (shape_length l).
    + rewrite H5; [done|congruence|done].
    + by apply (Hfresh (node s)).
    + rewrite length_fmap. rewrite E, length_app in Hroom. cbn in Hroom. lia.
    + eexists. split; [done|]. exists l2. split_and!; try done.
      * congruence.
      * rewrite fmap_app. by apply K3.
      * intros i Hi Hni. rewrite fmap_app in Hni. rewrite K4.
        -- apply H5; [done|]. intros Hx. apply Hni, elem_of_app. by left.
        -- congruence.
        -- intros [= ->]. apply Hni, elem_of_app. right. by left.
      * intros i L HL. rewrite K4 by congruence. by apply H6.
  - exists l'. done.
Qed.
End linking.

(** ** All the layers of a node *)

Section layers.
Context {HC : BinaryHeap Scored reverse_key} {HR : BinaryHeap Scored scored_key}.
Context {LC : BinaryHeapLaws Scored reverse_key} {LR : BinaryHeapLaws Scored scored_key}.
Context (g : AnnIndex) (v : list f32) (qsum : f32) (nd : nat).
Context (Hreads : reads g v).

(** A consistent assignment of links to the nodes of [g]. *)
Record links_fit (l : Links) : Prop := {
  lf_len : length l = length (ids g);
  lf_edges : edges_ok l;
  lf_degree : degree_ok (config g) l;
}.

Lemma fresh_unreached l layer cur :
  fresh_at l nd layer -> cur <> nd -> forall x, rtc (edge l layer) cur x -> x <> nd.
Proof.
  intros [_ Hf] Hc x Hx. apply rtc_inv_r in Hx as [<-|(y & _ & ns & Hns & Hin)]; [done|].
  intros ->. by apply (Hf _ _ Hns).
Qed.

Lemma connect_layer_ok l cur layer :
  links_fit l -> fresh_at l nd layer -> cur <> nd -> has_layer l cur layer ->
  exists l' cur', connect_layer nd v qsum (set_links g l, cur) layer = Some (set_links g l', cur') /\
    links_fit l' /\ shape l' = shape l /\ (forall i L, L <> layer -> link_list l' i L = link_list l i L) /\
    cur' <> nd /\ has_layer l' cur' layer.
Proof.
  intros [Hlen He Hdeg] Hfresh Hcn Hcl. unfold connect_layer, beam.
  destruct (beam_admit_ok (set_links g l) v qsum layer (ef_construction (config g)) true (fun _ => Some true) (fun _ => true) cur)
    as (found & Ef & [Fd Fn _ _ _]); [done..|].
  change (config (set_links g l)) with (config g). rewrite Ef. cbn [mbind option_bind].
  assert (forall s, s ∈ found -> node s <> nd /\ has_layer l (node s) layer) as Hfound.
  { intros s Hs. rewrite Forall_forall in Fd. destruct (Fd s Hs) as (_ & Hr & _). split.
    - by apply (fresh_unreached l layer cur).
    - by eapply (reach_layer (set_links g l)) in Hr. }
  destruct (select_diverse_ok (set_links g l) found (m (config g))) as (chosen & -> & (K1 & K2 & K3) & _).
  - apply Hreads.
  - apply Forall_forall. intros s Hs. change (ids (set_links g l)) with (ids g). rewrite <- Hlen.
    eapply has_layer_node. by apply Hfound.
  - done.
  - cbn [mbind option_bind].
    destruct (connect_all_ok g layer (max_links_at (config g) layer) (proj1 Hreads) l nd chosen)
      as (l' & -> & H1 & H2 & H3 & H4); try done.
    { intros s Hs. by apply Hfound, K2. }
    { unfold max_links_at. destruct (layer =? 0); lia. }
    cbn [mbind option_bind]. eexists l', _. split; [done|]. split.
    { split; [|done|done]. by rewrite (shape_length l). }
    split; [done|]. split; [done|]. destruct chosen as [|s chosen].
    + split; [done|]. by apply (shape_has_layer l).
    + destruct (Hfound s) as [? ?]; [apply K2; by left|]. split; [done|]. by apply (shape_has_layer l).
Qed.

Lemma fresh_at_other l l' L :
  (forall i, link_list l' i L = link_list l i L) -> fresh_at l nd L -> fresh_at l' nd L.
Proof. intros E [H1 H2]. split; [by rewrite E|]. intros i ns. rewrite E. apply H2. Qed.

Lemma connect_layers_ok k l cur :
  links_fit l -> (forall L, L <= k -> fresh_at l nd L) -> cur <> nd -> has_layer l cur k ->
  exists l' cur', fold_opt (connect_layer nd v qsum) (set_links g l, cur) (layers_down 0 k) = Some (set_links g l', cur') /\
    links_fit l' /\ shape l' = shape l.
Proof.
  revert l cur. induction k as [|k IH]; intros l cur Hfit Hfresh Hcn Hcl.
  - destruct (connect_layer_ok l cur 0 Hfit) as (l' & cur' & E & H1 & H2 & _); [by apply Hfresh|done|done|].
    exists l', cur'. unfold layers_down. cbn [Nat.sub seq rev app fold_opt]. by rewrite E.
  - assert (layers_down 0 (S k) = S k :: layers_down 0 k) as ->.
    { unfold layers_down. by rewrite !Nat.sub_0_r, (seq_S (S k)), rev_app_distr. }
    cbn [fold_opt]. destruct (connect_layer_ok l cur (S k) Hfit) as (l1 & c1 & -> & F1 & S1 & O1 & N1 & L1);
      [by apply Hfresh|done|done|]. cbn [mbind option_bind].
    destruct (IH l1 c1 F1) as (l' & cur' & E & H1 & H2).
    + intros L HL. apply (fresh_at_other l); [|apply Hfresh; lia]. intros i. apply O1. lia.
    + done.
    + apply (has_layer_le _ _ (S k)); [lia|done].
    + exists l', cur'. split; [done|]. split; [done|]. congruence.
Qed.
End layers.

(** ** The new node *)

Lemma lxor_range n a b : (0 <= n)%Z -> (0 <= a < 2 ^ n)%Z -> (0 <= b < 2 ^ n)%Z -> (0 <= Z.lxor a b < 2 ^ n)%Z.
Proof.
  intros Hn Ha Hb. assert (Z.lxor a b = Z.lxor a b mod 2 ^ n)%Z as ->; [|apply Z.mod_pos_bound; lia].
  apply Z.bits_inj'. intros k Hk. destruct (decide (k < n)%Z).
  - by rewrite Z.mod_pow2_bits_low by lia.
  - rewrite Z.mod_pow2_bits_high by lia. rewrite Z.lxor_spec, <- (Z.mod_small a (2 ^ n)), <- (Z.mod_small b (2 ^ n)) by lia.
    by rewrite !Z.mod_pow2_bits_high by lia.
Qed.

Lemma xorshift_range r : (0 <= r < 2 ^ 64)%Z -> (0 <= xorshift r < 2 ^ 64)%Z.
Proof.
  intros Hr. unfold xorshift. assert (0 <= Z.lxor r (Z.shiftl r 13 mod 2 ^ 64) < 2 ^ 64)%Z as H1.
  { apply lxor_range; [done|done|by apply Z.mod_pos_bound]. }
  set (a := Z.lxor r _) in *. assert (0 <= Z.lxor a (Z.shiftr a 7) < 2 ^ 64)%Z as H2.
  { apply lxor_range; [done|done|]. rewrite Z.shiftr_div_pow2 by done. split; [apply Z.div_pos; lia|].
    apply Z.div_lt_upper_bound; lia. }
  apply lxor_range; [done|done|by apply Z.mod_pos_bound].
Qed.

Lemma next_level_rng `{Ln} r k : (next_level r k).1 = xorshift r.
Proof. done. Qed.

Lemma next_level_bound `{Ln} r k : (next_level r k).2 <= 16.
Proof. unfold next_level. cbn [snd]. lia. Qed.

Lemma as_u32_small n : (Z.of_nat n < 2 ^ 32)%Z -> as_u32 n = n.
Proof. intros H. unfold as_u32. rewrite Z.mod_small by lia. apply Nat2Z.id. Qed.

Lemma link_list_app l level nd L ns :
  link_list (l ++ [replicate (level + 1) []]) nd L = Some ns <->
  link_list l nd L = Some ns \/ nd = length l /\ L <= level /\ ns = [].
Proof.
  unfold link_list. destruct (decide (nd < length l)) as [Hlt|Hge].
  - rewrite lookup_app_l by done. split; [by left|]. intros [?|[-> _]]; [done|lia].
  - rewrite (lookup_ge_None_2 l) by lia. cbn. destruct (decide (nd = length l)) as [->|Hne].
    + rewrite list_lookup_middle by done. cbn. rewrite lookup_replicate.
      split; [intros [-> ?]; right; split_and!; [done|lia|done]|intros [?|(_ & ? & ->)]; [done|split; [done|lia]]].
    + rewrite lookup_ge_None_2 by (rewrite length_app; cbn; lia). cbn. split; [done|]. intros [?|[? _]]; done.
Qed.

Lemma fresh_new_node l level L :
  edges_ok l -> L <= level -> fresh_at (l ++ [replicate (level + 1) []]) (length l) L.
Proof.
  intros He HL. split.
  - apply link_list_app. right. done.
  - intros i ns [Hns|(_ & _ & ->)]%link_list_app; [|apply not_elem_of_nil]. intros Hin.
    destruct (He _ _ _ Hns) as [_ Hnb]. destruct (Hnb _ Hin) as [_ Hl%has_layer_node]. lia.
Qed.

(** What the graph is once the node is added. *)
Record added (g g' : AnnIndex) (id : Id) (v : list f32) (level : nat) : Prop := {
  ad_config : config g' = config g;
  ad_ids : ids g' = ids g ++ [id];
  ad_deleted : deleted g' = deleted g ++ [false];
  ad_links : links g' = links g ++ [replicate (level + 1) []];
  ad_entry : entry g' = entry g;
  ad_dim : dim g' = Some (length v);
  ad_store : push (store g) v = Some (store g');
}.

(** The vector fits the graph: its dimension, or any a quantizer takes. *)
Definition fits (g : AnnIndex) (v : list f32) : Prop :=
  match dim g with Some d => length v = d | None => quantizer_fits (quantizer (config g)) (length v) end.

Lemma add_node_ok `{Ln} g id v :
  nodes_ok g -> fits g v -> (Z.of_nat (length (ids g)) + 1 < 2 ^ 32)%Z ->
  (forall nd, by_id g !! id = Some nd -> deleted g !! nd = Some true) ->
  exists g' level, add_node g id v = Some (g', length (ids g), level) /\ nodes_ok g' /\ added g g' id v level.
Proof.
  intros [Hsm Hde Hli Hdi Hfr Hfi Hqu Hst Hby Hdd Hlv Hla Hed Hdg Hrg] Hfit Hsmall Hdead. unfold add_node.
  pose proof (next_level_bound (rng g) (m (config g))) as Hlevel.
  pose proof (next_level_rng (rng g) (m (config g))) as Hr. pose proof (xorshift_range (rng g) Hrg) as Hxr.
  rewrite <- Hr in Hxr. destruct (next_level (rng g) (m (config g))) as [r level]. cbn [fst snd] in Hlevel, Hxr.
  rewrite as_u32_small by done.
  assert (match dim g with Some d => Some d | None => Some (length v) end = Some (length v)) as Edim.
  { unfold fits in Hfit. destruct (dim g); by subst. }
  assert (store_ok (length v) (length (ids g)) (store g)) as Hst'.
  { unfold fits, dim0 in *. destruct (dim g) as [d|] eqn:Ed; [by subst|].
    rewrite (Hfr eq_refl). destruct (ids g); [apply store_empty_ok|]. by destruct Hdi. }
  assert (quantizer_fits (quantizer (config g)) (length v)) as Hq.
  { unfold fits in Hfit. destruct (dim g) as [d|] eqn:Ed; [|done]. subst d. by apply Hfi. }
  destruct (push_ok _ _ _ v Hst' eq_refl) as (s & Hpush & Hs & Hsq); [by rewrite Hqu|]. rewrite Hpush. cbn [mbind option_bind].
  eexists _, level. split; [done|]. split; [|split; cbn; try done; by destruct (dim g)].
  split; cbn [ids deleted links dim config store by_id live].
  - rewrite length_app. cbn. lia.
  - rewrite !length_app. cbn. lia.
  - rewrite !length_app. cbn. lia.
  - intros _. destruct (dim g); by eexists.
  - by destruct (dim g).
  - intros d. destruct (dim g) as [d'|] eqn:Ed; intros [= <-]; [by apply Hfi|done].
  - congruence.
  - unfold dim0. cbn [dim]. rewrite length_app, Nat.add_1_r.
    destruct (dim g) as [d|]; [injection Edim as ->|]; done.
  - rewrite index_ids_snoc. by rewrite Hby.
  - intros i id' [Hi|[Hge Hi]]%lookup_app_Some Hd.
    + pose proof (lookup_lt_Some _ _ _ Hi). rewrite lookup_app_l in Hd by lia.
      pose proof (Hdd i id' Hi Hd) as Hb. rewrite lookup_insert_ne; [done|]. intros <-.
      specialize (Hdead i Hb). congruence.
    + apply list_lookup_singleton_Some in Hi as [E <-].
      rewrite lookup_insert_eq. f_equal. lia.
  - unfold live_nodes in *. rewrite list.filter_app, length_app, filter_cons_True by done. cbn. lia.
  - intros i nl [Hi|[_ Hi]]%lookup_app_Some; [by eapply Hla|]. apply list_lookup_singleton_Some in Hi as [_ <-].
    rewrite length_replicate. lia.
  - intros i L ns [Hns|(_ & _ & ->)]%link_list_app.
    + destruct (Hed _ _ _ Hns) as [Hnd Hnb]. split; [done|]. intros nb Hin. destruct (Hnb nb Hin) as [? [x Hx]].
      split; [done|]. exists x. apply link_list_app. by left.
    + split; [constructor|]. intros nb Hin. by apply elem_of_nil in Hin.
  - intros i L ns [Hns|(_ & _ & ->)]%link_list_app; [by eapply Hdg|cbn; lia].
  - exact Hxr.
Qed.

(** ** The whole insertion *)

Lemma nodes_ok_links g l :
  nodes_ok g -> edges_ok l -> degree_ok (config g) l -> shape l = shape (links g) -> nodes_ok (set_links g l).
Proof.
  intros [Hsm Hde Hli Hdi Hfr Hfi Hqu Hst Hby Hdd Hlv Hla Hed Hdg Hrg] He Hd Hs. split; try done; cbn.
  - by rewrite (shape_length (links g)).
  - intros nd nl Hl. assert (shape (links g) !! nd = Some (length nl)) as Hsh.
    { rewrite <- Hs. unfold shape. by rewrite list_lookup_fmap, Hl. }
    unfold shape in Hsh. rewrite list_lookup_fmap in Hsh. destruct (links g !! nd) as [nl'|] eqn:E; [|done].
    injection Hsh as <-. by eapply Hla.
Qed.

(** The entry point stands for the top layer. *)
Definition entry_tops (l : Links) (e : option (nat * nat)) : Prop :=
  match e with
  | None => l = []
  | Some (e, top) => (exists n, shape l !! e = Some n /\ n = S top) /\ forall nd n, shape l !! nd = Some n -> n <= S top
  end.

Lemma graph_ok_entry g : nodes_ok g -> entry_tops (links g) (entry g) <-> graph_ok g.
Proof.
  intros Hok. assert (forall nd n, shape (links g) !! nd = Some n <-> exists nl, links g !! nd = Some nl /\ length nl = n) as Hsh.
  { intros nd n. unfold shape. rewrite list_lookup_fmap. destruct (links g !! nd) as [nl|]; cbn.
    - split; [intros [= <-]; by exists nl|by intros (? & [= <-] & <-)].
    - split; [done|by intros (? & ? & _)]. }
  unfold entry_tops. split.
  - intros He. split; [done|]. destruct (entry g) as [[e top]|].
    + destruct He as [(n & Hn%Hsh & ->) Hall]. split; [done|]. intros nd nl Hnl. apply (Hall nd), Hsh. by exists nl.
    + pose proof (ok_links g Hok) as Hl. rewrite He in Hl. by apply symmetry, length_zero_iff_nil in Hl.
  - intros Hg. pose proof (ok_entry g Hg) as He. destruct (entry g) as [[e top]|].
    + destruct He as [(nl & Hnl & Hl) Hall]. split; [exists (length nl); split; [apply Hsh; by exists nl|done]|].
      intros nd n (nl' & Hnl' & <-)%Hsh. by eapply Hall.
    + apply length_zero_iff_nil. rewrite (ok_links g Hok), He. done.
Qed.

Section insertion.
Context `{Ln} {HC : BinaryHeap Scored reverse_key} {HR : BinaryHeap Scored scored_key}.
Context {LC : BinaryHeapLaws Scored reverse_key} {LR : BinaryHeapLaws Scored scored_key}.

Lemma link_node_ok g g' id v level :
  graph_ok g -> nodes_ok g' -> added g g' id v level ->
  exists l e, link_node g' (length (ids g)) level v = Some (set_entry (set_links g' l) e) /\
    graph_ok (set_entry (set_links g' l) e).
Proof.
  intros Hok Hok' [Ac Ai Ad Al Ae Adi Ast]. set (nd := length (ids g)) in *.
  pose proof (ok_links g Hok) as Hlen. fold nd in Hlen.
  assert (forall L, L <= level -> fresh_at (links g') nd L) as Hfresh.
  { intros L HL. rewrite Al, <- Hlen. by apply fresh_new_node; [apply (ok_edges g Hok)|]. }
  pose proof (ok_links g' Hok') as Hlen'.
  unfold link_node. rewrite Ae. pose proof (proj2 (graph_ok_entry g Hok) Hok) as Htop. unfold entry_tops in Htop.
  assert (shape (links g') = shape (links g) ++ [S level]) as Hshape.
  { rewrite Al. unfold shape. rewrite map_app. cbn. by rewrite length_replicate, Nat.add_1_r. }
  assert (length (shape (links g)) = nd) as Hsl by (unfold shape; by rewrite length_map).
  destruct (entry g) as [[e top]|].
  - destruct Htop as [(n & Hn & ->) Hall].
    assert (reads g' v) as Hr by (split; [apply (ok_store g' Hok')|unfold dim0; by rewrite Adi]).
    assert (has_layer (links g') e top) as He.
    { apply has_layer_iff. unfold shape in Hn. rewrite list_lookup_fmap in Hn. destruct (links g !! e) as [nl|] eqn:Enl; [|done].
      injection Hn as Hn. exists nl. rewrite Al. split; [by apply lookup_app_l_Some|lia]. }
    assert (e <> nd) as Hen by (intros ->; apply lookup_lt_Some in Hn; lia).
    rewrite Nat.add_1_r.
    destruct (descend_ok g' v (f32_sum v) level top e Hr Hlen' (ok_edges g' Hok') He) as (cur & -> & Hcl & Hcn).
    cbn [mbind option_bind].
    assert (cur <> nd) as Hcne.
    { destruct Hcn as [->|(i & L & ns & Hns & Hin)]; [done|]. intros ->. rewrite Al in Hns.
      apply link_list_app in Hns as [Hns|(_ & _ & ->)]; [|by apply elem_of_nil in Hin].
      destruct (ok_edges g Hok _ _ _ Hns) as [_ Hnb]. destruct (Hnb nd Hin) as [_ Hx%has_layer_node]. lia. }
    assert (g' = set_links g' (links g')) as Eg by (by destruct g').
    destruct (connect_layers_ok g' v (f32_sum v) nd Hr (Nat.min level top) (links g') cur) as (l & cur' & E & [F1 F2 F3] & F4);
      [by split; [done|apply (ok_edges g' Hok')|apply (ok_degree g' Hok')]|intros L HL; apply Hfresh; lia|done|done|].
    rewrite <- Eg in E. rewrite E. cbn [mbind option_bind].
    pose proof (nodes_ok_links g' l Hok' F2 F3 F4) as Hnl.
    assert (forall e', set_entry (set_links g' l) e' = mkIndex (config g') (dim g') (store g') (ids g') (by_id g') (deleted g') l e' (rng g') (live g')) as Ese by done.
    exists l, (if top <? level then Some (nd, level) else Some (e, top)). split.
    { destruct (top <? level); [done|]. f_equal. rewrite Ese. unfold set_links. by rewrite <- Ae. }
    apply graph_ok_entry; [by destruct Hnl; split|].
    cbn [links entry set_entry set_links]. unfold entry_tops. rewrite F4, Hshape.
    destruct (Nat.ltb_spec top level); (split; [eexists; (split; [|done])|]).
    + by apply list_lookup_middle.
    + intros i n' [Hi|[_ Hi]]%lookup_app_Some.
      * specialize (Hall i n' Hi). lia.
      * apply list_lookup_singleton_Some in Hi as [_ <-]. done.
    + rewrite lookup_app_l; [done|]. by eapply lookup_lt_Some.
    + intros i n' [Hi|[_ Hi]]%lookup_app_Some.
      * by eapply Hall.
      * apply list_lookup_singleton_Some in Hi as [_ <-]. lia.
  - exists (links g'), (Some (nd, level)). split; [by destruct g'|].
    apply graph_ok_entry; [by destruct Hok'; split|].
    cbn [links entry set_entry set_links]. unfold entry_tops. rewrite Hshape.
    assert (shape (links g) = []) as -> by (by rewrite Htop). assert (nd = 0) as ->.
    { rewrite Htop in Hlen. done. }
    split; [by eexists|]. intros [|i] n'; cbn; [by intros [= <-]|]. by destruct i.
Qed.

(** The old vector of an id is buried first. *)
Definition bury_id (g : AnnIndex) (id : Id) : AnnIndex :=
  match by_id g !! id with Some old => buried g old | None => g end.

Lemma bury_id_ok g id : graph_ok g -> graph_ok (bury_id g id).
Proof. intros Hok. unfold bury_id. destruct (by_id g !! id); [by apply buried_ok|done]. Qed.

Lemma bury_id_step g id :
  nodes_ok g -> match by_id g !! id with Some old => tombstone g old | None => Some g end = Some (bury_id g id).
Proof.
  intros Hok. unfold bury_id. destruct (by_id g !! id) as [old|] eqn:E; [|done].
  apply tombstone_buried; [done|]. by eapply by_id_lt.
Qed.

Lemma bury_id_dead g id nd :
  nodes_ok g -> by_id (bury_id g id) !! id = Some nd -> deleted (bury_id g id) !! nd = Some true.
Proof.
  intros Hok. unfold bury_id. destruct (by_id g !! id) as [old|] eqn:E; [|congruence]. cbn.
  rewrite E. intros [= ->]. apply list_lookup_insert_eq. rewrite (ok_deleted g Hok). by eapply by_id_lt.
Qed.

Lemma remove_buries g id : nodes_ok g -> remove g id = Some (bury_id g id).
Proof. apply bury_id_step. Qed.

(** What an insertion leaves. *)
Record inserted (g g' : AnnIndex) (id : Id) (v : list f32) : Prop := {
  in_ids : ids g' = ids g ++ [id];
  in_deleted : deleted g' = deleted (bury_id g id) ++ [false];
  in_config : config g' = config g;
  in_dim : dim g' = Some (length v);
  in_store : push (store g) v = Some (store g');
}.

Lemma insert_inserted g id e :
  graph_ok g -> fits g e -> (Z.of_nat (length (ids g)) + 1 < 2 ^ 32)%Z ->
  exists g', insert g id e = Some g' /\ graph_ok g' /\ inserted g g' id (normalized e).
Proof.
  intros Hok Hfit Hsmall. unfold insert. rewrite bury_id_step by apply Hok. cbn [mbind option_bind].
  set (g1 := bury_id g id). pose proof (bury_id_ok g id Hok) as Hok1. fold g1 in Hok1.
  assert (config g1 = config g /\ dim g1 = dim g /\ ids g1 = ids g /\ store g1 = store g) as (Ec & Ed & Ei & Es).
  { unfold g1, bury_id. by destruct (by_id g !! id). }
  assert (fits g1 (normalized e)) as Hfit1 by (unfold fits in *; rewrite Ed, Ec, normalized_length; done).
  destruct (add_node_ok g1 id (normalized e) Hok1 Hfit1) as (g2 & level & -> & Hok2 & Ha).
  { by rewrite Ei. }
  { intros nd. apply bury_id_dead, Hok. }
  cbn [mbind option_bind].
  destruct (link_node_ok g1 g2 id (normalized e) level Hok1 Hok2 Ha) as (l & en & -> & Hok3).
  eexists. split; [done|]. split; [done|]. destruct Ha as [Ac Ai Ad Al Ae Adi Ast].
  split; cbn; try congruence; done.
Qed.
End insertion.
