(* ===== verification/AnnSpec.v ===== *)
(** * The graph as a map from ids to vectors

    Insertion and removal, seen from outside: the live ids and, where the
    vectors are stored in full, the normalized vector of each. Whole runs of
    operations from an empty graph are total and refine the map. *)
From Stdlib Require Import SpecFloat.
From stdpp Require Import relations.
From S2P Require Import Prelude Floats Quant QuantFacts Paged Heap AnnStore Ann AnnFacts AnnSearch.
From S2P Require Import AnnSearch AnnInsert.
#[local] Set Default Goal Selector "!".
#[local] Set Warnings "-clear-no-such-hyp".

(** The node that stands for an id. *)
Definition live_node (g : AnnIndex) (id : Id) : option nat :=
  nd ← by_id g !! id; if alive g nd then Some nd else None.
Definition live_id (g : AnnIndex) (id : Id) : bool := bool_decide (is_Some (live_node g id)).
(** The vector of an id, as the store gives it back. *)
Definition vector_of (g : AnnIndex) (id : Id) : option (list f32) :=
  nd ← live_node g id; materialize (store g) nd (dim0 g).

Lemma live_node_lt g id nd : nodes_ok g -> live_node g id = Some nd -> nd < length (ids g).
Proof.
  intros Hok. unfold live_node. destruct (by_id g !! id) as [x|] eqn:E; [|done]. cbn [mbind option_bind].
  destruct (alive g x); [|done]. intros [= <-]. by eapply by_id_lt.
Qed.

(** Different ids are different nodes. *)
Lemma by_id_inj g id id' nd : nodes_ok g -> by_id g !! id = Some nd -> by_id g !! id' = Some nd -> id = id'.
Proof. intros Hok. rewrite (ok_by_id g Hok). intros ?%index_ids_lookup ?%index_ids_lookup. congruence. Qed.

Lemma live_node_bury g id id' :
  nodes_ok g -> live_node (bury_id g id) id' = if decide (id' = id) then None else live_node g id'.
Proof.
  intros Hok. unfold live_node, bury_id. destruct (by_id g !! id) as [old|] eqn:E.
  - change (by_id (buried g old)) with (by_id g). pose proof (by_id_lt g id old Hok E) as Hlt.
    rewrite <- (ok_deleted g Hok) in Hlt. destruct (by_id g !! id') as [nd|] eqn:E'; cbn [mbind option_bind].
    + rewrite alive_buried by done. destruct (decide (nd = old)) as [->|Hne].
      * by rewrite decide_True by (by eapply by_id_inj).
      * rewrite decide_False; [done|]. intros ->. congruence.
    + by case_decide.
  - case_decide as Hd; [|done]. subst. by rewrite E.
Qed.

Lemma live_node_inserted g g' id v id' :
  nodes_ok g -> nodes_ok g' -> inserted g g' id v ->
  live_node g' id' = if decide (id' = id) then Some (length (ids g)) else live_node g id'.
Proof.
  intros Hok Hok' [Ii Id Ic Idi Is]. unfold live_node. rewrite (ok_by_id g' Hok'), Ii, index_ids_snoc, <- (ok_by_id g Hok).
  assert (length (deleted (bury_id g id)) = length (ids g)) as Hdl.
  { unfold bury_id. destruct (by_id g !! id); cbn; rewrite ?length_insert; apply (ok_deleted g Hok). }
  case_decide as Hd.
  - subst id'. rewrite lookup_insert_eq. cbn [mbind option_bind]. unfold alive. rewrite Id, list_lookup_middle by done. done.
  - rewrite lookup_insert_ne by done. pose proof (live_node_bury g id id' Hok) as Hb. rewrite decide_False in Hb by done.
    unfold live_node in Hb. rewrite <- Hb.
    assert (by_id (bury_id g id) = by_id g) as -> by (unfold bury_id; by destruct (by_id g !! id)).
    destruct (by_id g !! id') as [nd|] eqn:E; [|done]. cbn [mbind option_bind]. unfold alive.
    rewrite Id, lookup_app_l; [done|]. rewrite Hdl. by eapply by_id_lt.
Qed.

Lemma dim0_some g v : dim g = Some v -> dim0 g = v.
Proof. unfold dim0. by intros ->. Qed.

(** With full vectors, insertion is insertion in the map. *)
Lemma vector_of_inserted g g' id v id' :
  nodes_ok g -> nodes_ok g' -> fits g v -> inserted g g' id v -> quantizer (config g) = QNone ->
  vector_of g' id' = if decide (id' = id) then Some v else vector_of g id'.
Proof.
  intros Hok Hok' Hfit Hi Hq. unfold vector_of. rewrite (live_node_inserted g g' id v) by done.
  pose proof (ok_store g Hok) as Hst. pose proof (ok_quantizer g Hok) as Hsq. rewrite Hq in Hsq.
  destruct Hi as [Ii Id Ic Idi Is]. rewrite (dim0_some g' _ Idi).
  destruct (store g) as [mv| | |] eqn:Es; try done. cbn [push] in Is. injection Is as <-.
  assert (run_ok (length v) (length (ids g)) mv) as Hrun.
  { cbn in Hst. unfold fits, dim0 in *. destruct (dim g) as [d|] eqn:Ed; [by subst|].
    pose proof (ok_fresh g Hok Ed) as Hf. rewrite Es, Hq in Hf. injection Hf as ->.
    destruct (ids g) eqn:En; [apply run_ok_in_ram|]. destruct (ok_dim g Hok) as [x Hx]; [by rewrite En|]. congruence. }
  destruct (full_push (length v) (length (ids g)) mv v Hrun eq_refl) as [Hold Hnew].
  case_decide; [exact Hnew|]. destruct (live_node g id') as [nd|] eqn:El; [|done]. cbn [mbind option_bind].
  pose proof (live_node_lt g id' nd Hok El) as Hlt. rewrite Hold by done. unfold fits in Hfit.
  destruct (dim g) as [d|] eqn:Ed; [by rewrite (dim0_some g d Ed), Hfit|].
  destruct (ids g) eqn:En; [cbn in Hlt; lia|]. destruct (ok_dim g Hok) as [x Hx]; [by rewrite En|]. congruence.
Qed.

Lemma vector_of_buried g id id' :
  nodes_ok g -> vector_of (bury_id g id) id' = if decide (id' = id) then None else vector_of g id'.
Proof.
  intros Hok. unfold vector_of. rewrite live_node_bury by done.
  assert (store (bury_id g id) = store g /\ dim0 (bury_id g id) = dim0 g) as [-> ->].
  { unfold bury_id. by destruct (by_id g !! id). }
  by case_decide.
Qed.

(** ** Runs *)

Inductive GraphOp : Type :=
  | OpInsert (id : Id) (e : list f32)
  | OpRemove (id : Id).

Section runs.
Context `{Ln} {HC : BinaryHeap Scored reverse_key} {HR : BinaryHeap Scored scored_key}.

Definition apply_graph (g : AnnIndex) (op : GraphOp) : option AnnIndex :=
  match op with
  | OpInsert id e => insert g id e
  | OpRemove id => remove g id
  end.

(** The abstract index: the normalized vector of each id. *)
Definition apply_map (mp : gmap Id (list f32)) (op : GraphOp) : gmap Id (list f32) :=
  match op with
  | OpInsert id e => <[id := normalized e]> mp
  | OpRemove id => delete id mp
  end.

(** Every vector has the one dimension. *)
Definition op_fits (d : nat) (op : GraphOp) : Prop :=
  match op with OpInsert _ e => length e = d | OpRemove _ => True end.
End runs.

Lemma ann_new_ok c : graph_ok (ann_new c).
Proof.
  split; [|done]. split; cbn; try done.
  - by destruct (quantizer c).
  - apply store_empty_ok.
Qed.

Section Properties.
Context `{Ln} {HC : BinaryHeap Scored reverse_key} {HR : BinaryHeap Scored scored_key}.
Context {LC : BinaryHeapLaws Scored reverse_key} {LR : BinaryHeapLaws Scored scored_key}.

Lemma live_id_none g id : live_node g id = None -> live_id g id = false.
Proof. intros E. unfold live_id. rewrite E. apply bool_decide_eq_false. by intros []. Qed.
Lemma live_id_some g id nd : live_node g id = Some nd -> live_id g id = true.
Proof. intros E. unfold live_id. rewrite E. apply bool_decide_eq_true. by eexists. Qed.

Lemma live_id_ext g g' id id' :
  live_node g id = live_node g' id' -> live_id g id = live_id g' id'.
Proof. unfold live_id. by intros ->. Qed.

(** C37: an insertion succeeds and keeps every invariant of the graph. On a
    well-formed graph a vector that fits is inserted without a panic; the
    links stay in range, free of self-loops and duplicates, within their
    degree bounds, between nodes that have the layer; the id becomes live and
    no other id changes; and with full vectors the id's vector is the
    normalized one and every other vector is kept. *)
Theorem insert_preserves (g : AnnIndex) (id : Id) (e : list f32) :
  graph_ok g -> fits g e -> (Z.of_nat (length (ids g)) + 1 < 2 ^ 32)%Z ->
  exists g', insert g id e = Some g' /\ graph_ok g' /\ config g' = config g /\ dim g' = Some (length e) /\
    length (ids g') = S (length (ids g)) /\
    (forall id', live_id g' id' = if decide (id' = id) then true else live_id g id') /\
    (quantizer (config g) = QNone ->
     forall id', vector_of g' id' = if decide (id' = id) then Some (normalized e) else vector_of g id').
Proof.
  intros Hok Hfit Hsmall. destruct (insert_inserted g id e Hok Hfit Hsmall) as (g' & E & Hok' & Hi).
  exists g'. split; [done|]. split; [done|]. split; [apply (in_config _ _ _ _ Hi)|].
  split; [by rewrite (in_dim _ _ _ _ Hi), normalized_length|].
  split; [by rewrite (in_ids _ _ _ _ Hi), length_app, Nat.add_1_r|]. split.
  - intros id'. pose proof (live_node_inserted g g' id _ id' Hok Hok' Hi) as Hl. case_decide.
    + by eapply live_id_some.
    + by apply live_id_ext.
  - intros Hq id'. apply vector_of_inserted; [apply Hok|apply Hok'| |done|done].
    unfold fits in *. by rewrite normalized_length.
Qed.

(** removal buries the id and nothing else, for every quantizer. *)
Theorem remove_preserves (g : AnnIndex) (id : Id) :
  graph_ok g ->
  exists g', remove g id = Some g' /\ graph_ok g' /\ links g' = links g /\
    (forall id', live_id g' id' = if decide (id' = id) then false else live_id g id') /\
    (forall id', vector_of g' id' = if decide (id' = id) then None else vector_of g id').
Proof.
  intros Hok. rewrite remove_buries by apply Hok. exists (bury_id g id). split; [done|].
  split; [by apply bury_id_ok|]. split; [unfold bury_id; by destruct (by_id g !! id)|]. split.
  - intros id'. pose proof (live_node_bury g id id' Hok) as Hl. case_decide; [by apply live_id_none|by apply live_id_ext].
  - intros id'. by apply vector_of_buried, Hok.
Qed.

(** *** Runs of operations *)

Lemma live_count_bury g id :
  nodes_ok g -> live (bury_id g id) = live g - (if live_id g id then 1 else 0).
Proof.
  intros Hok. pose proof (ok_live g Hok) as Hl. unfold live_id, live_node, bury_id.
  destruct (by_id g !! id) as [old|] eqn:E; cbn [mbind option_bind].
  - pose proof (by_id_lt g id old Hok E) as Hlt. rewrite <- (ok_deleted g Hok) in Hlt.
    unfold alive. destruct (deleted g !! old) as [[]|] eqn:Ed; cbn [negb].
    + rewrite bool_decide_false by (by intros []). cbn. rewrite list_insert_id by done. lia.
    + rewrite bool_decide_true by by eexists. cbn. pose proof (filter_false_insert _ _ Ed). lia.
    + apply lookup_ge_None in Ed. lia.
  - rewrite bool_decide_false by (by intros []). lia.
Qed.

Lemma live_count_pos g id : nodes_ok g -> live_id g id = true -> 1 <= live g.
Proof.
  intros Hok [nd Hnd]%bool_decide_eq_true. unfold live_node in Hnd. rewrite (ok_live g Hok).
  destruct (by_id g !! id) as [x|]; [|done]. cbn [mbind option_bind] in Hnd. unfold alive in Hnd.
  destruct (deleted g !! x) as [[]|] eqn:Ed; try done. pose proof (filter_false_insert _ _ Ed). lia.
Qed.

Lemma live_count_inserted g g' id v :
  nodes_ok g -> nodes_ok g' -> inserted g g' id v ->
  live g' = live g + (if live_id g id then 0 else 1).
Proof.
  intros Hok Hok' [Ii Id Ic Idi Is]. rewrite (ok_live g' Hok'), Id. unfold live_nodes.
  rewrite list.filter_app, length_app, filter_cons_True by done. cbn [length].
  assert (nodes_ok (bury_id g id)) as Hb.
  { unfold bury_id. destruct (by_id g !! id); [by apply buried_nodes_ok|done]. }
  fold (live_nodes (deleted (bury_id g id))). rewrite <- (ok_live _ Hb), live_count_bury by done.
  destruct (live_id g id) eqn:E; cbn.
  - pose proof (live_count_pos g id Hok E). lia.
  - lia.
Qed.

(** The store holds the rows of the map: whatever the quantizer, what it keeps
    of each id's latest vector is the row of the id's node ([holds_rows]). *)
Definition stores_map (early : bool) (d : nat) (g : AnnIndex) (mp : gmap Id (list f32)) : Prop :=
  exists vs, length vs = length (ids g) /\ Forall (fun v => length v = d) vs /\ holds_rows early d (store g) vs /\
    forall id v, mp !! id = Some v -> exists nd, live_node g id = Some nd /\ vs !! nd = Some v.

Lemma stores_map_empty early c d : stores_map early d (ann_new c) ∅.
Proof. exists []. split_and!; [done|constructor|apply holds_rows_empty|]. intros id v Hv. by rewrite lookup_empty in Hv. Qed.

(** The store of a graph that has no vector yet has none of any dimension. *)
Lemma store_ok_dim d g : nodes_ok g -> dim g = None \/ dim g = Some d -> store_ok d (length (ids g)) (store g).
Proof.
  intros Hok [Hd|Hd]; [|rewrite <- (dim0_some g d Hd); apply (ok_store g Hok)].
  rewrite (ok_fresh g Hok Hd). destruct (ids g) eqn:E; [apply store_empty_ok|].
  destruct (ok_dim g Hok) as [x Hx]; [by rewrite E|]. congruence.
Qed.

Lemma stores_map_inserted early d g g' id v mp :
  nodes_ok g -> nodes_ok g' -> dim g = None \/ dim g = Some d -> length v = d -> inserted g g' id v ->
  stores_map early d g mp -> stores_map early d g' (<[id := v]> mp).
Proof.
  intros Hok Hok' Hd Hv Hi (vs & Hl & Hf & Hr & Hm). exists (vs ++ [v]).
  rewrite (in_ids _ _ _ _ Hi), !length_app, Hl. split_and!; [done|by apply Forall_app_2; [|constructor]| |].
  - apply (push_rows early d (store g)); [rewrite Hl; by apply store_ok_dim|done..|apply (in_store _ _ _ _ Hi)].
  - intros id' v'. rewrite (live_node_inserted g g' id v) by done. intros [[<- <-]|[Hne Hid]]%lookup_insert_Some.
    + rewrite decide_True by done. eexists. split; [done|]. by rewrite <- Hl, list_lookup_middle.
    + rewrite decide_False by done. destruct (Hm _ _ Hid) as (nd & E & Hnd). exists nd. split; [done|]. by apply lookup_app_l_Some.
Qed.

Lemma stores_map_bury early d g id mp : nodes_ok g -> stores_map early d g mp -> stores_map early d (bury_id g id) (delete id mp).
Proof.
  intros Hok (vs & Hl & Hf & Hr & Hm). exists vs. assert (ids (bury_id g id) = ids g /\ store (bury_id g id) = store g) as [-> ->].
  { unfold bury_id. by destruct (by_id g !! id). }
  split_and!; [done..|]. intros id' v' [Hne Hid]%lookup_delete_Some. rewrite live_node_bury, decide_False by done. by apply Hm.
Qed.

(** The graph holds what the map holds. *)
Record represents (c : AnnConfig) (d : nat) (g : AnnIndex) (mp : gmap Id (list f32)) : Prop := {
  re_ok : graph_ok g;
  re_config : config g = c;
  re_dim : dim g = None \/ dim g = Some d;
  re_live : forall id, live_id g id = bool_decide (is_Some (mp !! id));
  re_count : live g = size mp;
  re_vectors : quantizer c = QNone -> forall id, vector_of g id = mp !! id;
  re_stored : exists early, stores_map early d g mp;
}.

Lemma represents_fits c d g mp e :
  quantizer_fits (quantizer c) d -> represents c d g mp -> length e = d -> fits g e.
Proof. intros Hq [Hok <- Hd _ _ _] <-. unfold fits. by destruct Hd as [-> | ->]. Qed.

Lemma represents_op c d g mp op :
  quantizer_fits (quantizer c) d -> represents c d g mp -> op_fits d op ->
  (Z.of_nat (length (ids g)) + 1 < 2 ^ 32)%Z ->
  exists g', apply_graph g op = Some g' /\ represents c d g' (apply_map mp op) /\ length (ids g') <= S (length (ids g)) /\
    (forall early, stores_map early d g mp -> stores_map early d g' (apply_map mp op)).
Proof.
  intros Hq Hr Hop Hsmall. destruct op as [id e|id]; cbn [apply_graph apply_map op_fits] in *.
  - pose proof (represents_fits c d g mp e Hq Hr Hop) as Hfit. destruct Hr as [Hok Hc Hd Hl Hn Hv Hst].
    destruct (insert_inserted g id e Hok Hfit Hsmall) as (g' & E & Hok' & Hi). exists g'. split; [done|].
    assert (forall early, stores_map early d g mp -> stores_map early d g' (<[id := normalized e]> mp)) as Hrows.
    { intros early. apply stores_map_inserted; [apply Hok|apply Hok'|done|by rewrite normalized_length|done]. }
    split; [|split; [by rewrite (in_ids _ _ _ _ Hi), length_app, Nat.add_1_r|done]]. split.
    + done.
    + by rewrite (in_config _ _ _ _ Hi).
    + right. by rewrite (in_dim _ _ _ _ Hi), normalized_length, Hop.
    + intros id'. pose proof (live_node_inserted g g' id _ id' Hok Hok' Hi) as Hln. case_decide.
      * subst id'. erewrite live_id_some by done. rewrite lookup_insert_eq. by rewrite bool_decide_true by by eexists.
      * rewrite lookup_insert_ne by done. rewrite <- Hl. by apply live_id_ext.
    + rewrite (live_count_inserted g g' id _ Hok Hok' Hi), Hl, Hn, map_size_insert.
      destruct (mp !! id) eqn:Em; [rewrite bool_decide_true by by eexists|rewrite bool_decide_false by by intros []]; cbn; lia.
    + intros Hqn id'. rewrite (vector_of_inserted g g' id (normalized e)); [|apply Hok|apply Hok'| |done|by rewrite Hc].
      * case_decide; [subst; by rewrite lookup_insert_eq|rewrite lookup_insert_ne by done; by apply Hv].
      * unfold fits in *. by rewrite normalized_length.
    + destruct Hst as [early Hst]. exists early. by apply Hrows.
  - destruct Hr as [Hok Hc Hd Hl Hn Hv Hst]. rewrite remove_buries by apply Hok. exists (bury_id g id). split; [done|].
    assert (config (bury_id g id) = config g /\ dim (bury_id g id) = dim g /\ ids (bury_id g id) = ids g) as (Ec & Ed & Ei).
    { unfold bury_id. by destruct (by_id g !! id). }
    assert (forall early, stores_map early d g mp -> stores_map early d (bury_id g id) (delete id mp)) as Hrows.
    { intros early. apply stores_map_bury, Hok. }
    split; [|split; [rewrite Ei; lia|done]]. split.
    + by apply bury_id_ok.
    + congruence.
    + by rewrite Ed.
    + intros id'. pose proof (live_node_bury g id id' (ok_nodes g Hok)) as Hln. case_decide.
      * subst id'. rewrite (live_id_none _ _ Hln), lookup_delete_eq. by rewrite bool_decide_false by by intros [].
      * rewrite lookup_delete_ne by done. rewrite <- Hl. by apply live_id_ext.
    + rewrite live_count_bury, Hl, Hn, map_size_delete by apply Hok.
      destruct (mp !! id) eqn:Em; [rewrite bool_decide_true by by eexists|rewrite bool_decide_false by by intros []]; cbn; lia.
    + intros Hqn id'. rewrite vector_of_buried by apply Hok.
      case_decide; [subst; by rewrite lookup_delete_eq|rewrite lookup_delete_ne by done; by apply Hv].
    + destruct Hst as [early Hst]. exists early. by apply Hrows.
Qed.

Lemma run_represents c d ops g mp :
  quantizer_fits (quantizer c) d -> represents c d g mp -> Forall (op_fits d) ops ->
  (Z.of_nat (length (ids g)) + Z.of_nat (length ops) < 2 ^ 32)%Z ->
  exists g', fold_opt apply_graph g ops = Some g' /\ represents c d g' (fold_left apply_map ops mp) /\
    (length (ids g') <= length (ids g) + length ops) /\
    (forall early, stores_map early d g mp -> stores_map early d g' (fold_left apply_map ops mp)).
Proof.
  intros Hq. revert g mp. induction ops as [|op ops IH]; intros g mp Hr Hf Hs; cbn [fold_opt fold_left].
  { exists g. split_and!; [done..|lia|done]. }
  apply Forall_cons in Hf as [Hop Hf]. cbn [length] in Hs.
  destruct (represents_op c d g mp op Hq Hr Hop) as (g1 & -> & Hr1 & Hl & Hst1); [lia|]. cbn [mbind option_bind].
  destruct (IH g1 _ Hr1 Hf) as (g' & E & Hr' & Hl' & Hst'); [lia|]. exists g'. split_and!; [done..|cbn [length]; lia|auto].
Qed.

Lemma new_represents c d : represents c d (ann_new c) ∅.
Proof. split; try done; [apply ann_new_ok|by left|exists false; apply stores_map_empty]. Qed.

(** C4: the index refines a map from ids to vectors. Any run of insertions
    and removals of vectors of one dimension the quantizer fits (product
    quantization: a multiple of its positive number of subspaces), fewer than
    [2^32] of them, goes through from the empty graph without a panic, keeps
    the invariant, counts and knows the live ids of the map. Each id's node
    holds the stored form of its latest normalized vector, for every
    quantizer: the vector itself, its scalar codes and their parameters, its
    sign bits, or its product codes under the codebook trained on exactly the
    first [PQ_TRAIN_SIZE] vectors (the vector itself until there are as many).
    With full vectors each id reads back as that vector. *)
Theorem graph_refines_map (c : AnnConfig) (d : nat) (ops : list GraphOp) :
  quantizer_fits (quantizer c) d -> Forall (op_fits d) ops -> (Z.of_nat (length ops) < 2 ^ 32)%Z ->
  exists g, fold_opt apply_graph (ann_new c) ops = Some g /\ represents c d g (fold_left apply_map ops ∅) /\
    stores_map false d g (fold_left apply_map ops ∅).
Proof.
  intros Hq Hf Hs. destruct (run_represents c d ops (ann_new c) ∅ Hq) as (g & E & Hr & _ & Hst); [apply new_represents|done|done|].
  exists g. split_and!; [done..|]. apply Hst, stores_map_empty.
Qed.

(** *** Searches *)

Lemma search_beam (g : AnnIndex) (query : list f32) (k ef e top : nat) :
  graph_ok g -> dim g = Some (length query) -> 0 < k -> entry g = Some (e, top) ->
  exists hs nds start, search g query k ef = Some hs /\ answer g query k (alive g) hs nds /\ NoDup hs.*1 /\
    (length (ids g) <= Nat.max (Nat.max ef (ef_search (config g))) k -> misses_nothing g query k (alive g) nds start).
Proof.
  intros Hok Hd Hk He. destruct (descent g query Hok Hd e top He) as (start & Edesc & Hs).
  unfold search, beam. rewrite He, (proj2 (Nat.eqb_neq _ _)), bool_decide_true by (done || lia). cbn [orb negb].
  rewrite Edesc. cbn [mbind option_bind].
  set (w := Nat.max _ k).
  destruct (beam_hits g query Hok Hd (fun _ => Some true) (fun _ => true) w k start Hk Hs) as (hs & nds & E & Ha & Hm); [done|].
  cbn [mbind option_bind] in E. rewrite E. exists hs, nds, start. split; [done|].
  assert (answer g query k (alive g) hs nds) as Ha'.
  { destruct Ha as [H1 H2 H3 H4 H5]. split; try done. eapply Forall_impl; [exact H4|]. cbn. intros nd. by rewrite andb_true_r. }
  split; [done|]. split; [by eapply answer_ids|]. intros Hw nd Hr Hal. apply (Hm Hw nd Hr). by rewrite andb_true_r.
Qed.

Lemma search_filtered_beam (g : AnnIndex) (query : list f32) (k ef e top : nat) (allow : gset Id) :
  graph_ok g -> dim g = Some (length query) -> 0 < k -> entry g = Some (e, top) -> allow <> ∅ ->
  let adm := fun nd => alive g nd && match ids g !! nd with Some id => bool_decide (id ∈ allow) | None => false end in
  exists hs nds start, search_filtered g query k ef allow = Some hs /\ answer g query k adm hs nds /\ NoDup hs.*1 /\
    (length (ids g) <= widened_ef (Nat.max (Nat.max ef (ef_search (config g))) k) (size allow) (length (ids g)) ->
     misses_nothing g query k adm nds start).
Proof.
  intros Hok Hd Hk He Hne adm. destruct (descent g query Hok Hd e top He) as (start & Edesc & Hs).
  unfold search_filtered. rewrite He, (proj2 (Nat.eqb_neq _ _)), bool_decide_true, bool_decide_false by (done || lia).
  cbn [orb negb]. rewrite Edesc. cbn [mbind option_bind]. set (w := widened_ef _ _ _).
  destruct (beam_hits g query Hok Hd (fun nd => id ← ids g !! nd; Some (bool_decide (id ∈ allow)))
    (fun nd => match ids g !! nd with Some id => bool_decide (id ∈ allow) | None => false end) w k start Hk Hs)
    as (hs & nds & E & Ha & Hm).
  { intros nd Hn. by destruct (lookup_lt_is_Some_2 (ids g) nd Hn) as [id ->]. }
  cbn [mbind option_bind] in E. rewrite E. exists hs, nds, start. split; [done|]. split; [done|].
  split; [|done]. eapply answer_ids; [done| |done]. by intros nd [? _]%andb_true_iff.
Qed.

(** No search of a well-formed graph panics, whatever it is asked. *)
Lemma search_total (g : AnnIndex) (query : list f32) (k ef : nat) :
  graph_ok g -> exists hs, search g query k ef = Some hs /\ NoDup hs.*1.
Proof.
  intros Hok. destruct (entry g) as [[e top]|] eqn:He.
  2: { exists []. unfold search, beam. rewrite He. split; [done|constructor]. }
  destruct (decide (k = 0)) as [->|Hk].
  { exists []. unfold search, beam. rewrite He. split; [done|constructor]. }
  destruct (decide (dim g = Some (length query))) as [Hd|Hd].
  - destruct (search_beam g query k ef e top Hok Hd ltac:(lia) He) as (hs & nds & start & E & _ & Hn & _). by exists hs.
  - exists []. unfold search, beam. rewrite He, (bool_decide_false _ Hd), orb_true_r. split; [done|constructor].
Qed.

Lemma answer_admitted g query k adm hs nds (id : Id) :
  answer g query k adm hs nds -> id ∈ hs.*1 -> exists nd, adm nd = true /\ ids g !! nd = Some id.
Proof.
  intros [Hf _ _ Ha _] ([i s] & -> & Hin)%list_elem_of_fmap. apply list_elem_of_lookup in Hin as [j Hj].
  destruct (Forall2_lookup_r _ _ _ _ _ Hf Hj) as (nd & Hnd & [Hid _]). exists nd. split; [|done].
  rewrite Forall_lookup in Ha. by eapply Ha.
Qed.

Lemma search_filtered_total (g : AnnIndex) (query : list f32) (k ef : nat) (allow : gset Id) :
  graph_ok g -> exists hs, search_filtered g query k ef allow = Some hs /\ NoDup hs.*1 /\ (forall id, id ∈ hs.*1 -> id ∈ allow).
Proof.
  intros Hok. assert (search_filtered g query k ef allow = Some [] -> exists hs, search_filtered g query k ef allow = Some hs /\
    NoDup hs.*1 /\ (forall id, id ∈ hs.*1 -> id ∈ allow)) as Hnil.
  { intros E. exists []. split; [done|]. split; [constructor|]. by intros id ?%elem_of_nil. }
  destruct (entry g) as [[e top]|] eqn:He; [|apply Hnil; unfold search_filtered; by rewrite He].
  destruct (decide (k = 0)) as [->|Hk]; [apply Hnil; unfold search_filtered; by rewrite He|].
  destruct (decide (dim g = Some (length query))) as [Hd|Hd].
  2: { apply Hnil. unfold search_filtered. by rewrite He, (bool_decide_false _ Hd), orb_true_r. }
  destruct (decide (allow = ∅)) as [Ha|Ha].
  { apply Hnil. unfold search_filtered. by rewrite He, (bool_decide_true _ Ha), orb_true_r. }
  destruct (search_filtered_beam g query k ef e top allow Hok Hd ltac:(lia) He Ha) as (hs & nds & start & E & Han & Hn & _).
  exists hs. split; [done|]. split; [done|]. intros id Hid.
  destruct (answer_admitted _ _ _ _ _ _ _ Han Hid) as (nd & [_ Hadm]%andb_true_iff & E'). rewrite E' in Hadm.
  by apply bool_decide_eq_true in Hadm.
Qed.

(** C26: searching is total, sound, and exact within reach. On a well-formed
    graph of the query's dimension, a search with [k > 0] never panics and
    always ends; its hits are at most [k] distinct live ids with the score of
    their vector, nearest first; and when the beam is as wide as the graph,
    every live node that the links of layer 0 reach from where the descent
    ended is a hit or is no closer than each of the [k] hits. *)
Theorem search_answers (g : AnnIndex) (query : list f32) (k ef e top : nat) :
  graph_ok g -> dim g = Some (length query) -> 0 < k -> entry g = Some (e, top) ->
  exists hs nds start, search g query k ef = Some hs /\ answer g query k (alive g) hs nds /\ NoDup hs.*1 /\
    (length (ids g) <= Nat.max (Nat.max ef (ef_search (config g))) k -> misses_nothing g query k (alive g) nds start).
Proof. apply search_beam. Qed.

(** filtered search is as exact: with a non-empty set of allowed ids the
    hits are live and allowed, and the same completeness holds among the
    allowed nodes when the widened beam covers the graph. *)
Theorem search_filtered_answers (g : AnnIndex) (query : list f32) (k ef e top : nat) (allow : gset Id) :
  graph_ok g -> dim g = Some (length query) -> 0 < k -> entry g = Some (e, top) -> allow <> ∅ ->
  let adm := fun nd => alive g nd && match ids g !! nd with Some id => bool_decide (id ∈ allow) | None => false end in
  exists hs nds start, search_filtered g query k ef allow = Some hs /\ answer g query k adm hs nds /\ NoDup hs.*1 /\
    (length (ids g) <= widened_ef (Nat.max (Nat.max ef (ef_search (config g))) k) (size allow) (length (ids g)) ->
     misses_nothing g query k adm nds start).
Proof. apply search_filtered_beam. Qed.
End Properties.

(** ** A small graph *)

Definition line_ln : Ln := {| f_ln x := f64_sub x (f64_of_Z 2) |}.
#[local] Existing Instance line_ln.
#[local] Existing Instance list_heap.

Definition sample_config : AnnConfig := mkAnnConfig 3 4 4 QNone.
Definition point (x y : Z) : list f32 := [f32_of_Z x; f32_of_Z y].
Definition sample_ops : list GraphOp :=
  [OpInsert (str "a") (point 1 0); OpInsert (str "b") (point 0 1); OpInsert (str "c") (point 1 1);
   OpInsert (str "d") (point (-1) 1); OpRemove (str "b"); OpInsert (str "a") (point 2 (-1))].
Definition sample_graph : AnnIndex := default (ann_new sample_config) (fold_opt apply_graph (ann_new sample_config) sample_ops).

Example sample_links :
  links sample_graph =
  [[[1; 2; 3; 4]; [4; 2; 1]]; [[0; 2; 3; 4]; [2; 3; 0]]; [[0; 1; 3; 4]; [1; 0; 4]];
   [[1; 2; 0]; [1; 2; 0]]; [[0; 2; 1]; [0; 2; 1]]].
Proof. vm_compute. reflexivity. Qed.
Example sample_search : map fst <$> search sample_graph (point 1 0) 2 3 = Some [str "a"; str "c"].
Proof. vm_compute. reflexivity. Qed.

Lemma sample_ops_fit : Forall (op_fits 2) sample_ops.
Proof. repeat constructor. Qed.

Lemma sample_represents : represents sample_config 2 sample_graph (fold_left apply_map sample_ops ∅).
Proof.
  destruct (run_represents sample_config 2 sample_ops (ann_new sample_config) ∅) as (g & E & Hr & _).
  - done.
  - apply new_represents.
  - apply sample_ops_fit.
  - done.
  - unfold sample_graph. by rewrite E.
Qed.

Lemma graph_refines_map_witness :
  exists g, fold_opt apply_graph (ann_new sample_config) sample_ops = Some g /\ live g = 3.
Proof.
  destruct (graph_refines_map sample_config 2 sample_ops I sample_ops_fit ltac:(reflexivity)) as (g & E & Hr & _).
  exists g. split; [exact E|]. rewrite (re_count _ _ _ _ Hr). vm_compute. reflexivity.
Defined.

Lemma insert_preserves_witness :
  exists g', insert sample_graph (str "e") (point 3 4) = Some g' /\ length (ids g') = 6.
Proof.
  destruct (insert_preserves sample_graph (str "e") (point 3 4)) as (g' & E & _ & _ & _ & Hl & _).
  - apply sample_represents.
  - apply (represents_fits sample_config 2 sample_graph (fold_left apply_map sample_ops ∅)); [exact I|apply sample_represents|reflexivity].
  - vm_compute. reflexivity.
  - exists g'. split; [exact E|]. rewrite Hl. vm_compute. reflexivity.
Defined.

Lemma remove_preserves_witness :
  exists g', remove sample_graph (str "a") = Some g' /\ live_id g' (str "a") = false.
Proof.
  destruct (remove_preserves sample_graph (str "a")) as (g' & E & _ & _ & Hl & _); [apply sample_represents|].
  exists g'. split; [exact E|]. rewrite Hl. reflexivity.
Defined.

Lemma search_answers_witness :
  exists hs, search sample_graph (point 1 0) 2 5 = Some hs /\ NoDup hs.*1.
Proof.
  destruct (search_answers sample_graph (point 1 0) 2 5 0 1) as (hs & nds & start & E & _ & Hn & _).
  - apply sample_represents.
  - vm_compute. reflexivity.
  - lia.
  - vm_compute. reflexivity.
  - exists hs. split; [exact E|exact Hn].
Defined.

Lemma search_filtered_answers_witness :
  exists hs, search_filtered sample_graph (point 1 0) 2 5 {[ str "c" ]} = Some hs /\ NoDup hs.*1.
Proof.
  destruct (search_filtered_answers sample_graph (point 1 0) 2 5 0 1 {[ str "c" ]}) as (hs & nds & start & E & _ & Hn & _).
  - apply sample_represents.
  - vm_compute. reflexivity.
  - lia.
  - vm_compute. reflexivity.
  - discriminate.
  - exists hs. split; [exact E|exact Hn].
Defined.
