(* ===== verification/AnnBytes.v ===== *)
(** * The graph on disk (crates/recall/src/ann.rs: to_bytes, from_bytes,
    to_structure_bytes, write_vectors_to, from_paged, Head, ByteReader)

    Two layouts: one blob with the vectors, or a structure blob beside a file
    of vectors that a later open pages. Reading fails with [Rejected], where
    the code returns [None], or panics where a vector's capacity overflows. *)
From Stdlib Require Import SpecFloat.
From S2P Require Import Prelude Floats Utf8 Keys KeysFacts Quant Paged AnnStore Ann.
#[local] Set Default Goal Selector "!".
#[local] Set Warnings "-clear-no-such-hyp".

Inductive LoadError : Type :=
  | Rejected
  | CapacityOverflow.

(** ** ByteReader: the bytes not read yet *)

Definition Reader (A : Type) : Type := bytes -> result LoadError (A * bytes).

#[export] Instance reader_ret : MRet Reader := fun A a b => Ok (a, b).
#[export] Instance reader_bind : MBind Reader := fun A B f r b =>
  match r b with Ok (a, b) => f a b | Err e => Err e end.

Definition rd_fail {A} (e : LoadError) : Reader A := fun _ => Err e.

Definition rd_take (n : Z) : Reader bytes := fun b =>
  if (Z.of_nat (length b) <? n)%Z then Err Rejected
  else Ok (take (Z.to_nat n) b, drop (Z.to_nat n) b).
Definition rd_le (n : nat) : Reader Z := s ← rd_take (Z.of_nat n); mret (from_le_bytes s).
Definition rd_u8 : Reader Z := rd_le 1.
Definition rd_u32 : Reader Z := rd_le 4.
Definition rd_u64 : Reader Z := rd_le 8.
Definition rd_f32 : Reader f32 := s ← rd_take 4; mret (f32_of_le s).

(** [for _ in 0..n { v.push(r()?) }] *)
Fixpoint rd_times {A} (n : nat) (r : Reader A) : Reader (list A) :=
  match n with
  | O => mret []
  | S n => x ← r; xs ← rd_times n r; mret (x :: xs)
  end.

(** [isize::MAX], the most bytes a vector may have. *)
Definition capacity_ok (elems size : Z) : bool := (elems * size <=? 2 ^ 63 - 1)%Z.

(** ** The head *)

Definition u32_le (n : nat) : bytes := le_bytes 4 (Z.of_nat n).

Definition write_id (id : Id) : bytes := u32_le (length id) ++ id.
Definition write_layer (ns : list nat) : bytes := u32_le (length ns) ++ concat (map u32_le ns).
Definition write_node_links (nl : list (list nat)) : bytes := u32_le (length nl) ++ concat (map write_layer nl).
Definition write_entry (e : option (nat * nat)) : bytes :=
  match e with Some (nd, layer) => 1%Z :: u32_le nd ++ u32_le layer | None => [0%Z] end.
Definition write_deleted (d : list bool) : bytes := map Z.b2z d.

Definition write_head (g : AnnIndex) : bytes :=
  u32_le (dim0 g) ++ le_bytes 8 (rng g) ++ le_bytes 8 (Z.of_nat (live g)) ++ write_entry (entry g) ++
  u32_le (length (ids g)) ++ concat (map write_id (ids g)) ++ write_deleted (deleted g) ++
  concat (map write_node_links (links g)).

Record Head : Type := mkHead {
  h_dim : option nat;
  h_rng : Z;
  h_live : nat;
  h_entry : option (nat * nat);
  h_ids : list Id;
  h_by_id : gmap Id nat;
  h_deleted : list bool;
  h_links : list (list (list nat));
}.

Definition rd_usize32 : Reader nat := n ← rd_u32; mret (Z.to_nat n).

Definition rd_id : Reader Id :=
  len ← rd_u32;
  s ← rd_take len;
  if valid_utf8 s then mret s else rd_fail Rejected.

Definition rd_layer : Reader (list nat) := count ← rd_usize32; rd_times count rd_usize32.
Definition rd_node_links : Reader (list (list nat)) := nlayers ← rd_usize32; rd_times nlayers rd_layer.

Definition rd_entry : Reader (option (nat * nat)) :=
  tag ← rd_u8;
  if (tag =? 1)%Z then nd ← rd_usize32; layer ← rd_usize32; mret (Some (nd, layer)) else mret None.

(** [by_id.insert(id, node as u32)] for every node in turn. *)
Definition head_index (ids : list Id) : gmap Id nat :=
  fold_left (fun m '(nd, id) => <[id := as_u32 nd]> m) (zip (seq 0 (length ids)) ids) ∅.

Definition head_read : Reader Head :=
  dim_raw ← rd_usize32;
  r ← rd_u64;
  lv ← rd_u64;
  e ← rd_entry;
  n ← rd_usize32;
  idl ← rd_times n rd_id;
  d ← rd_times n rd_u8;
  l ← rd_times n rd_node_links;
  mret (mkHead (if dim_raw =? 0 then None else Some dim_raw) r (Z.to_nat lv) e idl (head_index idl)
          (map (fun x => negb (x =? 0)%Z) d) l).

Definition into_index (h : Head) (c : AnnConfig) (s : Store) : AnnIndex :=
  mkIndex c (h_dim h) s (h_ids h) (h_by_id h) (h_deleted h) (h_links h) (h_entry h) (h_rng h) (h_live h).

(** ** Side data of the quantizers *)

Definition write_param (p : SqParams) : bytes := f32_le (scale p) ++ f32_le (offset p) ++ f32_le (code_sum p).
Definition write_params (ps : list SqParams) : bytes := u32_le (length ps) ++ concat (map write_param ps).

Definition rd_param : Reader SqParams :=
  s ← rd_f32; o ← rd_f32; c ← rd_f32; mret (mkSqParams s o c).
Definition read_params : Reader (list SqParams) := np ← rd_usize32; rd_times np rd_param.

Definition write_pq (m : nat) (codebook : option PqCodebook) : bytes :=
  u32_le m ++
  match codebook with
  | Some cb => 1%Z :: u32_le (pq_k cb) ++ u32_le (sub_dim cb) ++ concat (map f32_le (centroids cb))
  | None => [0%Z]
  end.

(** [checked_mul] rejects a product past [usize::MAX]. *)
Definition read_pq : Reader (nat * option PqCodebook) :=
  m ← rd_usize32;
  tag ← rd_u8;
  if (tag =? 0)%Z then mret (m, None)
  else if (tag =? 1)%Z then
    k ← rd_usize32;
    sub ← rd_usize32;
    let n := (Z.of_nat m * Z.of_nat k * Z.of_nat sub)%Z in
    if (2 ^ 64 <=? Z.of_nat m * Z.of_nat k)%Z || (2 ^ 64 <=? n)%Z then rd_fail Rejected
    else if negb (capacity_ok n 4) then rd_fail CapacityOverflow
    else cs ← rd_times (Z.to_nat n) rd_f32; mret (m, Some (mkPq m k sub cs))
  else rd_fail Rejected.

(** ** One blob *)

Definition RROG : bytes := str "RROG".
Definition RROS : bytes := str "RROS".

Definition len_le {T} (mv : MappedVec T) : bytes := le_bytes 8 (Z.of_nat (mv_len mv)).

(** The store's section: its tag, what the quantizer needs, the elements. *)
Definition write_store (s : Store) : option bytes :=
  match s with
  | SFull v => e ← write_all v; Some (0%Z :: len_le v ++ e)
  | SSq8 codes params => e ← write_all codes; Some (1%Z :: len_le codes ++ e ++ write_params params)
  | SBq bits => e ← write_all bits; Some (2%Z :: len_le bits ++ e)
  | SPq codebook _ codes m => e ← write_all codes; Some (3%Z :: write_pq m codebook ++ len_le codes ++ e)
  end.

Definition to_bytes (g : AnnIndex) : option bytes :=
  s ← write_store (store g); Some (RROG ++ 1%Z :: write_head g ++ s).

Definition ram {T} (tail : list T) : MappedVec T := mkMapped None 0 tail.

(** [r.take(4)? != magic || r.u8()? != 1] *)
Definition rd_magic (magic : bytes) : Reader unit :=
  s ← rd_take 4;
  if negb (bool_decide (s = magic)) then rd_fail Rejected
  else v ← rd_u8; if (v =? 1)%Z then mret tt else rd_fail Rejected.

Definition read_store (nodes : nat) : Reader Store :=
  tag ← rd_u8;
  if (tag =? 0)%Z then
    len ← rd_u64;
    if negb (capacity_ok len 4) then rd_fail CapacityOverflow
    else fs ← rd_times (Z.to_nat len) rd_f32; mret (SFull (ram fs))
  else if (tag =? 1)%Z then
    clen ← rd_u64; cs ← rd_take clen; ps ← read_params; mret (SSq8 (ram cs) ps)
  else if (tag =? 2)%Z then
    blen ← rd_u64; bs ← rd_take blen; mret (SBq (ram bs))
  else if (tag =? 3)%Z then
    mc ← read_pq;
    clen ← rd_u64; cs ← rd_take clen;
    if negb (nodes =? 0) && (bool_decide (mc.2 = None) || negb (length cs =? nodes * mc.1)) then rd_fail Rejected
    else mret (SPq mc.2 [] (ram cs) mc.1)
  else rd_fail Rejected.

Definition run_reader {A} (r : Reader A) (b : bytes) : result LoadError A :=
  match r b with Ok (a, _) => Ok a | Err e => Err e end.

Definition from_bytes (b : bytes) (c : AnnConfig) : result LoadError AnnIndex :=
  run_reader (_ ← rd_magic RROG;
              h ← head_read;
              s ← read_store (length (h_ids h));
              if bool_decide (store_quantizer s = quantizer c) then mret (into_index h c s) else rd_fail Rejected) b.

(** ** A structure blob and a file of vectors *)

Definition write_side (s : Store) : bytes :=
  match s with
  | SFull _ => [0%Z]
  | SSq8 _ params => 1%Z :: write_params params
  | SBq _ => [2%Z]
  | SPq codebook _ _ m => 3%Z :: write_pq m codebook
  end.
Definition to_structure_bytes (g : AnnIndex) : bytes := RROS ++ 1%Z :: write_head g ++ write_side (store g).

Definition write_vectors_to (g : AnnIndex) : option bytes :=
  match store g with
  | SFull v => stream_to v
  | SSq8 codes _ => stream_to codes
  | SBq bits => stream_to bits
  | SPq _ _ codes _ => stream_to codes
  end.

Inductive Side : Type :=
  | SideNone
  | SideParams (ps : list SqParams)
  | SidePq (codebook : option PqCodebook).

Definition read_side : Reader (Quantizer * Side) :=
  tag ← rd_u8;
  if (tag =? 0)%Z then mret (QNone, SideNone)
  else if (tag =? 1)%Z then ps ← read_params; mret (QSq8, SideParams ps)
  else if (tag =? 2)%Z then mret (QBq, SideNone)
  else if (tag =? 3)%Z then mc ← read_pq; mret (QPq mc.1, SidePq mc.2)
  else rd_fail Rejected.

Definition vector_unit (q : Quantizer) (dim : nat) : nat :=
  match q with QNone | QSq8 => dim | QBq => bq_bytes dim | QPq m => m end.
Definition elem_bytes (q : Quantizer) : nat := match q with QNone => 4 | _ => 1 end.

(** The store over the file; [None] where the code returns [None]. *)
Definition paged_store (q : Quantizer) (side : Side) (vectors : bytes) (n dim budget : nat) : option Store :=
  let unit := vector_unit q dim in
  match q, side with
  | QNone, _ => Some (SFull (paged (base_new vectors unit n budget) (n * unit)))
  | QSq8, SideParams ps => Some (SSq8 (paged (base_new vectors unit n budget) (n * unit)) ps)
  | QBq, _ => Some (SBq (paged (base_new vectors unit n budget) (n * unit)))
  | QPq m, SidePq (Some cb) => Some (SPq (Some cb) [] (paged (base_new vectors unit n budget) (n * unit)) m)
  | _, _ => None
  end.

Definition from_paged (structure vectors : bytes) (c : AnnConfig) (budget : nat) : result LoadError AnnIndex :=
  run_reader (_ ← rd_magic RROS;
    h ← head_read;
    qs ← read_side;
    if negb (bool_decide (qs.1 = quantizer c)) then rd_fail Rejected
    else
      let n := length (h_ids h) in
      let dim := default 0 (h_dim h) in
      if n =? 0 then mret (into_index h c (store_empty qs.1))
      else if match qs.2 with SideParams ps => negb (length ps =? n) | _ => false end then rd_fail Rejected
      else if negb (length vectors =? n * vector_unit qs.1 dim * elem_bytes qs.1) then rd_fail Rejected
      else
        match paged_store qs.1 qs.2 vectors n dim budget with
        | Some s => mret (into_index h c s)
        | None => rd_fail Rejected
        end) structure.
