(* ===== verification/AnnDiskSpec.v ===== *)
(** * Reading a graph back

    Each writer is inverted by its reader, so a graph written to a blob, or to
    a structure beside a file of vectors, opens as the same graph; and a
    reopened graph answers every search as before. *)
From Stdlib Require Import SpecFloat.
From S2P Require Import Prelude Floats Utf8 Keys KeysFacts Quant QuantFacts Paged Heap AnnStore.
From S2P Require Import Ann AnnFacts AnnBytes.
#[local] Set Default Goal Selector "!".
#[local] Set Warnings "-clear-no-such-hyp".

(** ** Readers *)

(** [r] reads [x] off the bytes [w] and leaves what follows. *)
Definition parses {A} (r : Reader A) (w : bytes) (x : A) : Prop := forall rest, r (w ++ rest) = Ok (x, rest).

Lemma reads_ret {A} (x : A) : parses (mret x) [] x.
Proof. done. Qed.

Lemma reads_bind {A B} (r : Reader A) (f : A -> Reader B) w1 w2 x y :
  parses r w1 x -> parses (f x) w2 y -> parses (r ≫= f) (w1 ++ w2) y.
Proof.
  intros Hr Hf rest. unfold mbind, reader_bind. rewrite <- app_assoc, Hr. apply Hf.
Qed.

(** A last reader that only returns. *)
Lemma parses_map {A B} (r : Reader A) (f : A -> B) w x : parses r w x -> parses (a ← r; mret (f a)) w (f x).
Proof. intros Hr rest. unfold mbind, reader_bind. by rewrite Hr. Qed.

Lemma parses_take s : parses (rd_take (Z.of_nat (length s))) s s.
Proof.
  intros rest. unfold rd_take. rewrite length_app, (proj2 (Z.ltb_ge _ _)), Nat2Z.id by lia.
  by rewrite take_app_length, drop_app_length.
Qed.

Lemma parses_take_n n s : n = Z.of_nat (length s) -> parses (rd_take n) s s.
Proof. intros ->. apply parses_take. Qed.

Lemma parses_le n x : (0 <= x < 256 ^ Z.of_nat n)%Z -> parses (rd_le n) (le_bytes n x) x.
Proof.
  intros Hx. unfold rd_le. rewrite <- (from_le_le_bytes n x Hx) at 2. apply parses_map.
  apply parses_take_n. by rewrite length_le_bytes.
Qed.

Definition is_u32 (n : nat) : Prop := (Z.of_nat n < 2 ^ 32)%Z.

Lemma parses_usize32 n : is_u32 n -> parses rd_usize32 (u32_le n) n.
Proof.
  intros Hn. unfold rd_usize32, rd_u32, u32_le. rewrite <- (Nat2Z.id n) at 2. apply parses_map.
  apply parses_le. unfold is_u32 in Hn. change (256 ^ Z.of_nat 4)%Z with (2 ^ 32)%Z. lia.
Qed.

Lemma parses_u64 x : (0 <= x < 2 ^ 64)%Z -> parses rd_u64 (le_bytes 8 x) x.
Proof. intros Hx. apply parses_le. exact Hx. Qed.

Lemma parses_u8 c : is_byte c -> parses rd_u8 [c] c.
Proof.
  intros Hc. assert ([c] = le_bytes 1 c) as -> by (cbn; by rewrite Z.mod_small). apply parses_le. exact Hc.
Qed.

Lemma parses_times {A} (r : Reader A) (w : A -> bytes) l :
  Forall (fun x => parses r (w x) x) l -> parses (rd_times (length l) r) (concat (map w l)) l.
Proof.
  induction 1 as [|x l Hx _ IH]; [apply reads_ret|]. cbn [length rd_times map concat].
  apply (reads_bind _ _ _ _ x); [done|]. by apply (parses_map _ (cons x)).
Qed.

Lemma parses_times_n {A} n (r : Reader A) (w : A -> bytes) l :
  n = length l -> Forall (fun x => parses r (w x) x) l -> parses (rd_times n r) (concat (map w l)) l.
Proof. intros ->. apply parses_times. Qed.

(** A list behind its length. *)
Lemma parses_counted {A} (r : Reader A) (w : A -> bytes) l :
  is_u32 (length l) -> Forall (fun x => parses r (w x) x) l ->
  parses (n ← rd_usize32; rd_times n r) (u32_le (length l) ++ concat (map w l)) l.
Proof. intros Hn Hl. apply (reads_bind _ _ _ _ (length l)); [by apply parses_usize32|by apply parses_times]. Qed.

Lemma parses_f32 x : f32_valid x = true -> parses rd_f32 (f32_le x) x.
Proof.
  intros Hx. unfold rd_f32. rewrite <- (f32_le_valid x Hx) at 2. apply parses_map.
  apply parses_take_n. unfold f32_le. by rewrite length_le_bytes.
Qed.

(** Elements read one by one are the cast of the whole. *)
Lemma parses_f32s n b : length b = n * 4 -> parses (rd_times n rd_f32) b (cast_elems (T:=f32) n b).
Proof.
  revert b. induction n as [|n IH]; intros b Hb; cbn [rd_times cast_elems].
  - apply length_zero_iff_nil in Hb as ->. apply reads_ret.
  - rewrite <- (take_drop 4 b) at 1. apply (reads_bind _ _ _ _ (f32_of_le (take 4 b))).
    + apply parses_map, parses_take_n. rewrite length_take. lia.
    + apply (parses_map _ (cons (f32_of_le (take 4 b)))). apply IH. rewrite length_drop. change pod_size with 4. lia.
Qed.

Lemma cast_u8s n b : length b = n -> cast_elems (T:=Z) n b = b.
Proof.
  revert b. induction n as [|n IH]; intros [|c b] Hb; try done. cbn [cast_elems].
  change (take pod_size (c :: b)) with [c]. change (drop pod_size (c :: b)) with b. rewrite IH by (cbn in Hb; lia). done.
Qed.

Lemma parses_magic magic : length magic = 4 -> parses (rd_magic magic) (magic ++ [1%Z]) tt.
Proof.
  intros Hl. apply (reads_bind _ _ _ _ magic); [by apply parses_take_n; rewrite Hl|].
  rewrite bool_decide_true by done. cbn [negb]. intros rest.
  unfold mbind, reader_bind. by rewrite (parses_u8 1) by (unfold is_byte; lia).
Qed.

Lemma run_parses {A} (r : Reader A) w x : parses r w x -> run_reader r w = Ok x.
Proof. intros Hr. unfold run_reader. specialize (Hr []). rewrite app_nil_r in Hr. by rewrite Hr. Qed.

(** ** The head *)

Definition id_fits (id : Id) : Prop := valid_utf8 id = true /\ is_u32 (length id).

(** What the four-byte fields of the format hold. *)
Record head_fits (g : AnnIndex) : Prop := {
  hf_dim : forall d, dim g = Some d -> 0 < d /\ is_u32 d;
  hf_ids : Forall id_fits (ids g);
}.

Lemma parses_id id : id_fits id -> parses rd_id (write_id id) id.
Proof.
  intros [Hv Hl]. unfold rd_id, write_id. apply (reads_bind _ _ _ _ (Z.of_nat (length id))).
  - apply parses_le. exact (conj (Nat2Z.is_nonneg _) Hl).
  - rewrite <- (app_nil_r id) at 2. apply (reads_bind _ _ _ _ id); [apply parses_take|]. rewrite Hv. apply reads_ret.
Qed.

Lemma parses_deleted d : parses (rd_times (length d) rd_u8) (write_deleted d) (map Z.b2z d).
Proof.
  assert (write_deleted d = concat (map (fun c => [c]) (map Z.b2z d))) as ->.
  { unfold write_deleted. induction d as [|b d IH]; [done|]. cbn. by f_equal. }
  rewrite <- (length_map Z.b2z d). apply parses_times. apply Forall_forall.
  intros c (b & -> & _)%list_elem_of_fmap. apply parses_u8. destruct b; cbn; unfold is_byte; lia.
Qed.

Lemma head_index_small ids : (Z.of_nat (length ids) < 2 ^ 32)%Z -> head_index ids = index_ids ids.
Proof.
  intros Hn. unfold head_index, index_ids.
  assert (forall l, (forall i x, (i, x) ∈ l -> i < length ids) -> forall m,
    fold_left (fun (m : gmap Id nat) '(nd, id) => <[id := as_u32 nd]> m) l m =
    fold_left (fun m '(nd, id) => <[id := nd]> m) l m) as Hgen.
  { induction l as [|[i x] l IH]; intros Hl m; [done|]. cbn [fold_left].
    assert (as_u32 i = i) as ->.
    { specialize (Hl i x ltac:(by left)). unfold as_u32. rewrite Z.mod_small by lia. apply Nat2Z.id. }
    apply IH. intros j y Hj. apply (Hl j y). by right. }
  apply Hgen. intros i x Hi%elem_of_zip_l%in_seq0. done.
Qed.

Lemma edges_u32 g i L ns :
  nodes_ok g -> link_list (links g) i L = Some ns -> is_u32 (length ns) /\ Forall is_u32 ns.
Proof.
  intros Hok Hl. destruct (ok_edges g Hok _ _ _ Hl) as [Hnd Hnb].
  assert (forall nb, nb ∈ ns -> nb < length (ids g)) as Hlt.
  { intros nb Hin. rewrite <- (ok_links g Hok). eapply has_layer_node. by apply Hnb. }
  pose proof (ok_small g Hok) as Hs. unfold is_u32. split.
  - enough (length ns <= length (ids g)) by lia. rewrite <- (length_seq (length (ids g)) 0).
    apply submseteq_length, NoDup_submseteq; [done|]. intros x Hx. apply elem_of_seq. specialize (Hlt x Hx). lia.
  - apply Forall_forall. intros x Hx. specialize (Hlt x Hx). lia.
Qed.

Lemma parses_node_links g nl :
  nodes_ok g -> nl ∈ links g -> parses rd_node_links (write_node_links nl) nl.
Proof.
  intros Hok [i Hi]%list_elem_of_lookup. apply parses_counted.
  - pose proof (ok_layers g Hok i nl Hi). unfold is_u32. lia.
  - apply Forall_forall. intros ns [L HL]%list_elem_of_lookup.
    destruct (edges_u32 g i L ns Hok) as [Hn Hf]; [unfold link_list; by rewrite Hi|].
    apply parses_counted; [done|]. eapply Forall_impl; [exact Hf|]. intros x. apply parses_usize32.
Qed.

Lemma parses_entry g : graph_ok g -> parses rd_entry (write_entry (entry g)) (entry g).
Proof.
  intros Hok. pose proof (ok_entry g Hok) as He. destruct (entry g) as [[e top]|]; cbn [write_entry].
  - destruct He as [(nl & Hnl & Hl) _]. pose proof (ok_layers g Hok e nl Hnl). pose proof (ok_small g Hok).
    pose proof (lookup_lt_Some _ _ _ Hnl) as Hlt. rewrite (ok_links g Hok) in Hlt.
    apply (reads_bind _ _ [1%Z] _ 1%Z); [apply parses_u8; unfold is_byte; lia|].
    change (1 =? 1)%Z with true. cbv iota.
    apply (reads_bind _ _ _ _ e); [apply parses_usize32; unfold is_u32; lia|].
    apply (parses_map _ (fun l => Some (e, l))). apply parses_usize32. unfold is_u32. lia.
  - apply (reads_bind _ _ [0%Z] [] 0%Z); [apply parses_u8; unfold is_byte; lia|]. apply reads_ret.
Qed.

Definition head_of (g : AnnIndex) : Head :=
  mkHead (dim g) (rng g) (live g) (entry g) (ids g) (by_id g) (deleted g) (links g).

Lemma live_nodes_le d : live_nodes d <= length d.
Proof. apply length_filter. Qed.

Lemma parses_head g : graph_ok g -> head_fits g -> parses head_read (write_head g) (head_of g).
Proof.
  intros Hok [Hd Hi]. pose proof (ok_small g Hok) as Hs. unfold head_read, write_head.
  apply (reads_bind _ _ _ _ (dim0 g)).
  { apply parses_usize32. unfold dim0, is_u32. destruct (dim g) as [d|]; [apply (Hd d eq_refl)|cbn; lia]. }
  apply (reads_bind _ _ _ _ (rng g)); [by apply parses_u64, (ok_rng g Hok)|].
  apply (reads_bind _ _ _ _ (Z.of_nat (live g))).
  { apply parses_u64. rewrite (ok_live g Hok). pose proof (live_nodes_le (deleted g)). rewrite (ok_deleted g Hok) in *. lia. }
  apply (reads_bind _ _ _ _ (entry g)); [by apply parses_entry|].
  apply (reads_bind _ _ _ _ (length (ids g))); [by apply parses_usize32|].
  apply (reads_bind _ _ _ _ (ids g)); [apply parses_times; eapply Forall_impl; [exact Hi|apply parses_id]|].
  apply (reads_bind _ _ _ _ (map Z.b2z (deleted g))); [rewrite <- (ok_deleted g Hok); apply parses_deleted|].
  assert (head_of g = mkHead (if dim0 g =? 0 then None else Some (dim0 g)) (rng g) (Z.to_nat (Z.of_nat (live g))) (entry g) (ids g)
    (head_index (ids g)) (map (fun x => negb (x =? 0)%Z) (map Z.b2z (deleted g))) (links g)) as ->.
  { unfold head_of. rewrite Nat2Z.id, head_index_small, (ok_by_id g Hok), map_map by done. f_equal.
    - unfold dim0. destruct (dim g) as [d|]; [|done]. cbn. destruct (Hd d eq_refl). by destruct d; [lia|].
    - rewrite <- (map_id (deleted g)) at 1. apply map_ext. by intros []. }
  apply (parses_map _ (fun l => mkHead _ _ _ _ _ _ _ l)). apply parses_times_n; [by rewrite (ok_links g Hok)|].
  apply Forall_forall. intros nl. exact (parses_node_links g nl Hok).
Qed.

(** ** The store *)

(** The same vectors, all in memory. *)
Definition ram_store (s : Store) : Store :=
  match s with
  | SFull v => SFull (ram (mv_content v))
  | SSq8 codes ps => SSq8 (ram (mv_content codes)) ps
  | SBq bits => SBq (ram (mv_content bits))
  | SPq cb w codes m => SPq cb w (ram (mv_content codes)) m
  end.

Definition param_fits (p : SqParams) : Prop :=
  f32_valid (scale p) = true /\ f32_valid (offset p) = true /\ f32_valid (code_sum p) = true.

(** Elements of the element type, in a vector that memory can hold. *)
Definition run_fits {T} `{Pod T} (mv : MappedVec T) : Prop :=
  Forall (fun x => pod_valid x = true) (tail_ mv) /\ capacity_ok (Z.of_nat (mv_len mv)) 4 = true.

Definition codebook_fits (cb : option PqCodebook) : Prop :=
  match cb with
  | Some cb => is_u32 (pq_k cb) /\ is_u32 (sub_dim cb) /\ Forall (fun x => f32_valid x = true) (centroids cb) /\
               capacity_ok (Z.of_nat (pq_m cb * pq_k cb * sub_dim cb)) 4 = true
  | None => True
  end.

Definition store_fits (s : Store) : Prop :=
  match s with
  | SFull v => run_fits v
  | SSq8 codes ps => run_fits codes /\ Forall param_fits ps
  | SBq bits => run_fits bits
  | SPq cb w codes m => w = [] /\ is_u32 m /\ run_fits codes /\ codebook_fits cb
  end.

Lemma run_fits_u64 {T} `{Pod T} (mv : MappedVec T) : run_fits mv -> (0 <= Z.of_nat (mv_len mv) < 2 ^ 64)%Z.
Proof. intros [_ Hc]. unfold capacity_ok in Hc. lia. Qed.

Lemma parses_param p : param_fits p -> parses rd_param (write_param p) p.
Proof.
  intros (H1 & H2 & H3). unfold rd_param, write_param. apply (reads_bind _ _ _ _ (scale p)); [by apply parses_f32|].
  apply (reads_bind _ _ _ _ (offset p)); [by apply parses_f32|]. destruct p as [a b c]. cbn in *.
  apply (parses_map _ (fun c => mkSqParams a b c)). by apply parses_f32.
Qed.

Lemma parses_params ps : is_u32 (length ps) -> Forall param_fits ps -> parses read_params (write_params ps) ps.
Proof. intros Hn Hp. apply parses_counted; [done|]. eapply Forall_impl; [exact Hp|apply parses_param]. Qed.

Lemma parses_cons {A} (c : Z) (f : Z -> Reader A) w x :
  is_byte c -> parses (f c) w x -> parses (t ← rd_u8; f t) (c :: w) x.
Proof. intros Hc Hf. apply (reads_bind _ _ [c] w c); [by apply parses_u8|done]. Qed.

Lemma parses_pq dim cb m :
  is_u32 m -> codebook_fits cb -> (forall c, cb = Some c -> cb_wf dim c /\ pq_m c = m) ->
  parses read_pq (write_pq m cb) (m, cb).
Proof.
  intros Hm Hf Hw. unfold read_pq, write_pq. apply (reads_bind _ _ _ _ m); [by apply parses_usize32|].
  destruct cb as [cb|]; (apply parses_cons; [unfold is_byte; lia|]).
  - change (1 =? 0)%Z with false. change (1 =? 1)%Z with true. cbv iota.
    destruct Hf as (Hk & Hs & Hc & Hcap). destruct (Hw cb eq_refl) as [[Wk Wd Wl] Wm].
    apply (reads_bind _ _ _ _ (pq_k cb)); [by apply parses_usize32|].
    apply (reads_bind _ _ _ _ (sub_dim cb)); [by apply parses_usize32|].
    rewrite Wm in *. rewrite !Nat2Z.inj_mul in Hcap. rewrite Hcap. unfold capacity_ok in Hcap. cbn [negb].
    assert (Z.of_nat m * Z.of_nat (pq_k cb) < 2 ^ 64)%Z as Hmk by (unfold is_u32 in *; nia).
    rewrite !(proj2 (Z.leb_gt _ _)) by lia. cbn [orb].
    destruct cb as [m' k' sd cs]. cbn in *. subst m'. apply (parses_map _ (fun cs => (m, Some (mkPq m k' sd cs)))).
    apply parses_times_n; [lia|]. eapply Forall_impl; [exact Hc|apply parses_f32].
  - change (0 =? 0)%Z with true. cbv iota. apply reads_ret.
Qed.

Lemma write_run {T} `{PodLaws T} unit (mv : MappedVec T) :
  mv_ok unit mv -> run_fits mv ->
  exists e, write_all mv = Some e /\ length e = mv_len mv * pod_size /\ cast_elems (mv_len mv) e = mv_content mv.
Proof. intros Hok [Hf _]. by apply (write_all_reads unit). Qed.

(** Reading the bytes of a run back as elements. *)
Lemma parses_codes unit (mv : MappedVec Z) :
  mv_ok unit mv -> run_fits mv ->
  exists e, write_all mv = Some e /\ e = mv_content mv /\ length e = mv_len mv /\
    parses (rd_take (Z.of_nat (mv_len mv))) e e.
Proof.
  intros Hok Hf. destruct (write_run unit mv Hok Hf) as (e & E & Hl & Hc). change (pod_size (T:=Z)) with 1 in Hl.
  rewrite cast_u8s in Hc by lia. exists e. split_and!; [done|done|lia|]. apply parses_take_n. lia.
Qed.

Lemma parses_store dim n s :
  store_ok dim n s -> store_fits s -> is_u32 n -> (0 < n -> 0 < dim) ->
  exists out, write_store s = Some out /\ parses (read_store n) out (ram_store s).
Proof.
  intros Hs Hf Hn Hd. unfold read_store. destruct s as [v|codes ps|bits|cb w codes m]; cbn [write_store ram_store store_ok store_fits] in *.
  - destruct Hs as [Hok Hl]. destruct (write_run _ v Hok Hf) as (e & -> & Hle & Hc). cbn [mbind option_bind].
    eexists. split; [done|]. apply parses_cons; [unfold is_byte; lia|]. change (0 =? 0)%Z with true. cbv iota.
    apply (reads_bind _ _ _ _ (Z.of_nat (mv_len v))); [by apply parses_u64, run_fits_u64|].
    rewrite (proj2 Hf). cbn [negb]. rewrite <- Hc. apply (parses_map _ (fun fs => SFull (ram fs))).
    rewrite Nat2Z.id. by apply parses_f32s.
  - destruct Hs as [[Hok Hl] Hp], Hf as [Hf Hpf]. destruct (parses_codes _ codes Hok Hf) as (e & -> & <- & Hle & Hpe).
    cbn [mbind option_bind]. eexists. split; [done|]. apply parses_cons; [unfold is_byte; lia|].
    change (1 =? 0)%Z with false. change (1 =? 1)%Z with true. cbv iota.
    apply (reads_bind _ _ _ _ (Z.of_nat (mv_len codes))); [by apply parses_u64, run_fits_u64|].
    apply (reads_bind _ _ _ _ e); [done|]. apply (parses_map _ (fun ps => SSq8 (ram e) ps)).
    apply parses_params; [by rewrite Hp|done].
  - destruct Hs as [Hok Hl]. destruct (parses_codes _ bits Hok Hf) as (e & -> & <- & Hle & Hpe).
    cbn [mbind option_bind]. eexists. split; [done|]. apply parses_cons; [unfold is_byte; lia|].
    change (2 =? 0)%Z with false. change (2 =? 1)%Z with false. change (2 =? 2)%Z with true. cbv iota.
    apply (reads_bind _ _ _ _ (Z.of_nat (mv_len bits))); [by apply parses_u64, run_fits_u64|].
    by apply (parses_map _ (fun bs => SBq (ram bs))).
  - destruct Hf as (-> & Hm & Hf & Hcb).
    assert (exists unit, mv_ok unit codes) as [unit Hok] by (destruct cb; [by destruct Hs as (_ & [Hok _] & _); exists m|by destruct Hs as [_ ->]; exists 0]).
    assert (forall c, cb = Some c -> cb_wf dim c /\ pq_m c = m) as Hw by (intros c ->; by destruct Hs as (_ & _ & ? & ? & _)).
    assert (mv_len codes = n * m /\ (n = 0 \/ cb <> None)) as [Hlen Hsome].
    { destruct cb as [cb|]; [destruct Hs as (_ & [_ Hl] & _); split; [done|by right]|]. destruct Hs as [Hl ->].
      cbn in Hl. assert (n = 0) as -> by nia. split; [done|by left]. }
    destruct (parses_codes _ codes Hok Hf) as (e & -> & <- & Hle & Hpe). cbn [mbind option_bind].
    eexists. split; [done|]. apply parses_cons; [unfold is_byte; lia|].
    change (3 =? 0)%Z with false. change (3 =? 1)%Z with false. change (3 =? 2)%Z with false. change (3 =? 3)%Z with true. cbv iota.
    apply (reads_bind _ _ _ _ (m, cb)); [by apply (parses_pq dim)|].
    apply (reads_bind _ _ _ _ (Z.of_nat (mv_len codes))); [by apply parses_u64, run_fits_u64|].
    rewrite <- (app_nil_r e) at 1. apply (reads_bind _ _ _ _ e); [done|]. cbn [fst snd].
    rewrite (proj2 (Nat.eqb_eq (length e) _)) by lia.
    destruct (Nat.eqb_spec n 0); [apply reads_ret|]. cbn [negb andb orb].
    rewrite bool_decide_false by (by destruct Hsome). apply reads_ret.
Qed.

(** ** One blob *)

Lemma parses_magic_then {A} magic (f : unit -> Reader A) w x :
  length magic = 4 -> parses (f tt) w x -> parses (u ← rd_magic magic; f u) (magic ++ 1%Z :: w) x.
Proof.
  intros Hm Hf. rewrite (cons_middle 1%Z), app_assoc. apply (reads_bind _ _ _ _ tt); [by apply parses_magic|done].
Qed.

Record disk_fits (g : AnnIndex) : Prop := {
  df_head : head_fits g;
  df_store : store_fits (store g);
}.

Lemma dim_positive g : nodes_ok g -> head_fits g -> 0 < length (ids g) -> 0 < dim0 g.
Proof.
  intros Hok Hf Hn. unfold dim0. destruct (ok_dim g Hok) as [d Hd]; [by destruct (ids g); [cbn in Hn; lia|]|].
  rewrite Hd. cbn. by apply (hf_dim g Hf).
Qed.

Lemma ram_store_quantizer s : store_quantizer (ram_store s) = store_quantizer s.
Proof. by destruct s. Qed.

Lemma into_index_head g s : into_index (head_of g) (config g) s = set_store g s.
Proof. done. Qed.

Lemma from_bytes_ok g :
  graph_ok g -> disk_fits g ->
  exists b, to_bytes g = Some b /\ from_bytes b (config g) = Ok (set_store g (ram_store (store g))).
Proof.
  intros Hok [Hh Hs]. unfold to_bytes.
  destruct (parses_store (dim0 g) (length (ids g)) (store g) (ok_store g Hok) Hs (ok_small g Hok)) as (out & -> & Hp).
  { apply dim_positive; [apply Hok|done]. }
  cbn [mbind option_bind]. eexists. split; [done|]. unfold from_bytes. apply run_parses.
  apply parses_magic_then; [done|]. apply (reads_bind _ _ _ _ (head_of g)); [by apply parses_head|].
  cbn [h_ids head_of]. rewrite <- (app_nil_r out). apply (reads_bind _ _ _ _ (ram_store (store g))); [done|].
  rewrite bool_decide_true; [apply reads_ret|]. rewrite ram_store_quantizer. apply (ok_quantizer g Hok).
Qed.

(** ** Equal readings *)

Lemma mv_read_slice {T} `{Pod T} unit (mv : MappedVec T) node :
  mv_ok unit mv -> mv_read mv node unit = slice (mv_content mv) (node * unit) (node * unit + unit).
Proof.
  intros Hok. pose proof (mv_content_length unit mv Hok) as Hl.
  destruct (decide ((node + 1) * unit <= mv_len mv)) as [Hin|Hout].
  - rewrite mv_read_ok by done. rewrite slice_some by lia. do 2 f_equal. lia.
  - unfold slice. rewrite (proj2 (Nat.leb_gt _ (length (mv_content mv)))), andb_false_r by lia.
    unfold mv_read, mv_with. unfold mv_ok, mv_len in *. destruct (base mv) as [b|].
    + destruct Hok as (_ & _ & _ & Hu & Hb). rewrite (proj2 (Nat.eqb_neq _ _)) by lia. rewrite Hb, Nat.div_mul by lia.
      destruct (Nat.ltb_spec node (total b)) as [Hlt|Hge]; [exfalso; apply Hout; rewrite Hb; pose proof (row_le node (total b) unit Hlt); lia|].
      unfold slice. rewrite (proj2 (Nat.leb_gt _ (length (tail_ mv)))), andb_false_r; [done|].
      rewrite Hb in Hout. rewrite Nat.mul_sub_distr_r. pose proof (Nat.mul_le_mono_r _ _ unit Hge). lia.
    + unfold slice. rewrite (proj2 (Nat.leb_gt _ (length (tail_ mv)))), andb_false_r; [done|]. lia.
Qed.

(** Two ways to hold the same elements. *)
Definition same_run {T} `{Pod T} (unit : nat) (mv mv' : MappedVec T) : Prop :=
  mv_ok unit mv /\ mv_ok unit mv' /\ mv_content mv' = mv_content mv.

Lemma same_run_read {T} `{Pod T} unit (mv mv' : MappedVec T) node :
  same_run unit mv mv' -> mv_read mv' node unit = mv_read mv node unit.
Proof. intros (H1 & H2 & E). by rewrite !mv_read_slice, E. Qed.

Definition same_store (dim : nat) (s s' : Store) : Prop :=
  match s, s' with
  | SFull v, SFull v' => same_run dim v v'
  | SSq8 c ps, SSq8 c' ps' => same_run dim c c' /\ ps' = ps
  | SBq b, SBq b' => same_run (bq_bytes dim) b b'
  | SPq (Some cb) _ c m, SPq (Some cb') _ c' m' => cb' = cb /\ m' = m /\ same_run m c c'
  | SPq None w _ m, SPq None w' _ m' => w' = w /\ m' = m
  | _, _ => False
  end.

Lemma same_store_dot dim s s' node q qsum :
  same_store dim s s' -> dot_query s' node dim q qsum = dot_query s node dim q qsum.
Proof.
  destruct s as [v|c ps|b|[cb|] w c m], s' as [v'|c' ps'|b'|[cb'|] w' c' m']; cbn [same_store dot_query]; try done.
  - intros Hr. by rewrite (same_run_read _ _ _ _ Hr).
  - intros [Hr ->]. by rewrite (same_run_read _ _ _ _ Hr).
  - intros Hr. by rewrite (same_run_read _ _ _ _ Hr).
  - intros (-> & -> & Hr). by rewrite (same_run_read _ _ _ _ Hr).
  - by intros [-> _].
Qed.

Lemma ram_same_run {T} `{Pod T} unit (mv : MappedVec T) : mv_ok unit mv -> same_run unit mv (ram (mv_content mv)).
Proof. done. Qed.

Lemma ram_store_same dim n s : store_ok dim n s -> same_store dim s (ram_store s).
Proof.
  destruct s as [v|c ps|b|[cb|] w c m]; cbn [store_ok same_store ram_store].
  - intros [Hok _]. by apply ram_same_run.
  - intros [[Hok _] _]. split; [by apply ram_same_run|done].
  - intros [Hok _]. by apply ram_same_run.
  - intros (_ & [Hok _] & _). split_and!; [done|done|by apply ram_same_run].
  - done.
Qed.

(** *** Searches that read the same distances give the same hits *)

Lemma fold_opt_ext {A B} (f h : A -> B -> option A) a l :
  (forall a b, f a b = h a b) -> fold_opt f a l = fold_opt h a l.
Proof.
  intros E. revert a. induction l as [|b l IH]; intros a; [done|]. cbn [fold_opt]. rewrite E.
  destruct (h a b); [apply IH|done].
Qed.

Section same_searches.
Context {HC : BinaryHeap Scored reverse_key} {HR : BinaryHeap Scored scored_key}.
Context (g g' : AnnIndex).
Context (Ec : config g' = config g) (Ed : dim g' = dim g) (Ei : ids g' = ids g) (Ede : deleted g' = deleted g).
Context (El : links g' = links g) (Ee : entry g' = entry g).
Context (Edist : forall nd q qsum, dist_to g' nd q qsum = dist_to g nd q qsum).

Lemma climb_loop_same q qsum layer fuel cur d :
  climb_loop fuel g' q qsum layer cur d = climb_loop fuel g q qsum layer cur d.
Proof.
  assert (forall cur d, climb_pass g' q qsum layer cur d = climb_pass g q qsum layer cur d) as Ep.
  { intros c x. unfold climb_pass. rewrite El. destruct (links g !! c) as [nl|]; [|done]. cbn [mbind option_bind].
    destruct (nl !! layer); [|done]. apply fold_opt_ext. intros st nb. unfold climb. by rewrite Edist. }
  revert cur d. induction fuel as [|fuel IH]; intros cur d; cbn [climb_loop]; rewrite Ep; [done|].
  destruct (climb_pass g q qsum layer cur d) as [[[c x] b]|]; [|done]. cbn [mbind option_bind]. destruct b; [apply IH|done].
Qed.

Lemma greedy_at_same q qsum start layer : greedy_at g' q qsum start layer = greedy_at g q qsum start layer.
Proof. unfold greedy_at. rewrite Edist, Ei. destruct (dist_to g start q qsum); [apply climb_loop_same|done]. Qed.

Lemma beam_admit_same q qsum layer ef incl admits start :
  beam_admit g' q qsum layer ef incl admits start = beam_admit g q qsum layer ef incl admits start.
Proof.
  assert (forall nd, admitted g' incl admits nd = admitted g incl admits nd) as Ea by (intros nd; unfold admitted; by rewrite Ede).
  assert (forall st nb, visit g' q qsum ef incl admits st nb = visit g q qsum ef incl admits st nb) as Ev.
  { intros st nb. unfold visit. by rewrite Edist, Ea. }
  assert (forall fuel st, beam_loop g' q qsum layer ef incl admits fuel st = beam_loop g q qsum layer ef incl admits fuel st) as Eb.
  { induction fuel as [|fuel IH]; intros st; cbn [beam_loop]; [done|].
    destruct (h_pop _) as [[c cands]|]; [|done]. destruct (_ && _); [done|]. rewrite El.
    destruct (links g !! node c) as [nl|]; [|done]. cbn [mbind option_bind].
    destruct (nl !! layer) as [ns|]; cbn [mbind option_bind]; [|apply IH].
    rewrite (fold_opt_ext _ (visit g q qsum ef incl admits)) by done.
    destruct (fold_opt _ _ ns); [apply IH|done]. }
  unfold beam_admit. rewrite Ei, Edist, Ea. destruct (_ <? _); [|done].
  destruct (dist_to g start q qsum); [|done]. destruct (admitted g incl admits start); [|done]. cbn [mbind option_bind].
  by rewrite Eb.
Qed.

Lemma search_same q k ef : search g' q k ef = search g q k ef.
Proof.
  unfold search, hits, beam. rewrite Ee, Ed, Ec, Ei. destruct (entry g) as [[e top]|]; [|done]. destruct (_ || _); [done|].
  rewrite (fold_opt_ext _ (greedy_at g (normalized q) (f32_sum (normalized q)))) by (intros; apply greedy_at_same).
  destruct (fold_opt _ _ _); [|done]. cbn [mbind option_bind]. by rewrite beam_admit_same.
Qed.

Lemma search_filtered_same q k ef allow : search_filtered g' q k ef allow = search_filtered g q k ef allow.
Proof.
  unfold search_filtered, hits. rewrite Ee, Ed, Ec, Ei. destruct (entry g) as [[e top]|]; [|done]. destruct (_ || _); [done|].
  rewrite (fold_opt_ext _ (greedy_at g (normalized q) (f32_sum (normalized q)))) by (intros; apply greedy_at_same).
  destruct (fold_opt _ _ _); [|done]. cbn [mbind option_bind]. by rewrite beam_admit_same.
Qed.
End same_searches.

Lemma set_store_searches {HC : BinaryHeap Scored reverse_key} {HR : BinaryHeap Scored scored_key} g s q k ef allow :
  same_store (dim0 g) (store g) s ->
  search (set_store g s) q k ef = search g q k ef /\
  search_filtered (set_store g s) q k ef allow = search_filtered g q k ef allow.
Proof.
  intros Hs. assert (forall nd q qsum, dist_to (set_store g s) nd q qsum = dist_to g nd q qsum) as Ed.
  { intros nd x qs. unfold dist_to. change (dim0 (set_store g s)) with (dim0 g). cbn [store set_store].
    by rewrite (same_store_dot _ _ _ _ _ _ Hs). }
  split; [by apply search_same|by apply search_filtered_same].
Qed.

(** ** A structure blob and a file of vectors *)

Definition side_of (s : Store) : Side :=
  match s with
  | SFull _ | SBq _ => SideNone
  | SSq8 _ ps => SideParams ps
  | SPq cb _ _ _ => SidePq cb
  end.

Lemma parses_side dim n s :
  store_ok dim n s -> store_fits s -> is_u32 n -> parses read_side (write_side s) (store_quantizer s, side_of s).
Proof.
  intros Hs Hf Hn. unfold read_side. destruct s as [v|codes ps|bits|cb w codes m]; cbn [write_side store_quantizer side_of store_ok store_fits] in *;
    (apply parses_cons; [unfold is_byte; lia|]).
  - apply reads_ret.
  - change (1 =? 0)%Z with false. change (1 =? 1)%Z with true. cbv iota.
    apply (parses_map _ (fun ps => (QSq8, SideParams ps))). apply parses_params; [|apply Hf]. by destruct Hs as [_ ->].
  - apply reads_ret.
  - change (3 =? 0)%Z with false. change (3 =? 1)%Z with false. change (3 =? 2)%Z with false. change (3 =? 3)%Z with true. cbv iota.
    apply (parses_map _ (fun mc : nat * option PqCodebook => (QPq mc.1, SidePq mc.2)) _ (m, cb)).
    destruct Hf as (_ & Hm & _ & Hcb). apply (parses_pq dim); [done|done|]. intros c ->. by destruct Hs as (_ & _ & ? & ? & _).
Qed.

(** A file of the run's elements, opened paged. *)
Lemma paged_same_run {T} `{PodLaws T} unit n (mv : MappedVec T) e budget :
  run_ok unit n mv -> 0 < unit -> length e = mv_len mv * pod_size -> cast_elems (mv_len mv) e = mv_content mv ->
  same_run unit mv (paged (base_new e unit n budget) (n * unit)).
Proof.
  intros [Hok Hl] Hu He Hc. split; [done|]. split.
  - unfold mv_ok, paged. cbn [base base_len]. split_and!; [| |done|done|done].
    + split; [unfold base_new; cbn [per_page]; lia|]. unfold base_new. cbn [file unit_ total]. by rewrite He, Hl.
    + split; [|split]; unfold base_new; cbn [cache cache_new pages cap].
      * intros idx p t Hx. by rewrite lookup_empty in Hx.
      * rewrite map_size_empty. lia.
      * lia.
  - unfold mv_content at 1, paged. cbn [base tail_]. rewrite app_nil_r. unfold base_content, base_new.
    cbn [file unit_ total]. by rewrite <- Hl.
Qed.

Lemma bq_bytes_pos d : 0 < d -> 0 < bq_bytes d.
Proof. pose proof (bq_room d). lia. Qed.

Lemma paged_store_ok dim n s budget :
  store_ok dim n s -> store_fits s -> quantizer_fits (store_quantizer s) dim -> 0 < n -> 0 < dim ->
  exists e s', match s with SFull v => stream_to v | SSq8 c _ => stream_to c | SBq b => stream_to b | SPq _ _ c _ => stream_to c end = Some e /\
    length e = n * vector_unit (store_quantizer s) dim * elem_bytes (store_quantizer s) /\
    paged_store (store_quantizer s) (side_of s) e n dim budget = Some s' /\ same_store dim s s'.
Proof.
  intros Hs Hf Hq Hn Hd. destruct s as [v|codes ps|bits|[cb|] w codes m]; cbn [store_ok store_fits store_quantizer side_of] in *.
  - destruct (write_run _ v (proj1 Hs) Hf) as (e & E & Hle & Hc). exists e. eexists. rewrite (stream_to_all _ _ (proj1 Hs)).
    split_and!; [done|by rewrite Hle, (proj2 Hs)|done|]. by apply paged_same_run.
  - destruct Hs as [Hr Hp], Hf as [Hf _]. destruct (write_run _ codes (proj1 Hr) Hf) as (e & E & Hle & Hc).
    exists e. eexists. rewrite (stream_to_all _ _ (proj1 Hr)). split_and!; [done|by rewrite Hle, (proj2 Hr)|done|].
    split; [by apply paged_same_run|done].
  - destruct (write_run _ bits (proj1 Hs) Hf) as (e & E & Hle & Hc). exists e. eexists. rewrite (stream_to_all _ _ (proj1 Hs)).
    split_and!; [done|by rewrite Hle, (proj2 Hs)|done|]. apply paged_same_run; [done|by apply bq_bytes_pos|done|done].
  - destruct Hs as (_ & Hr & Hw & Hm & _), Hf as (_ & _ & Hf & _). destruct (write_run _ codes (proj1 Hr) Hf) as (e & E & Hle & Hc).
    exists e. eexists. rewrite (stream_to_all _ _ (proj1 Hr)). split_and!; [done|by rewrite Hle, (proj2 Hr)|done|].
    split_and!; [done|done|]. apply paged_same_run; [done|apply Hq|done|done].
  - destruct Hf as (-> & _). destruct Hs as [Hl _]. cbn in Hl. nia.
Qed.

Lemma from_paged_ok g budget :
  graph_ok g -> disk_fits g -> ids g <> [] ->
  exists e s, write_vectors_to g = Some e /\
    from_paged (to_structure_bytes g) e (config g) budget = Ok (set_store g s) /\ same_store (dim0 g) (store g) s.
Proof.
  intros Hok [Hh Hs] Hne. pose proof (ok_store g Hok) as Hst. pose proof (ok_quantizer g Hok) as Hq.
  assert (0 < length (ids g)) as Hn by (by destruct (ids g); [|cbn; lia]).
  pose proof (dim_positive g (ok_nodes g Hok) Hh Hn) as Hd.
  assert (quantizer_fits (store_quantizer (store g)) (dim0 g)) as Hqf.
  { rewrite Hq. destruct (ok_dim g Hok Hne) as [d Hdm]. apply (ok_fits g Hok). unfold dim0. by rewrite Hdm. }
  destruct (paged_store_ok (dim0 g) (length (ids g)) (store g) budget Hst Hs Hqf Hn Hd) as (e & s & Ew & Hle & Ep & Hsame).
  exists e, s. split; [exact Ew|]. split; [|done]. unfold from_paged, to_structure_bytes. apply run_parses.
  apply parses_magic_then; [done|]. apply (reads_bind _ _ _ _ (head_of g)); [by apply parses_head|].
  rewrite <- (app_nil_r (write_side _)). eapply reads_bind; [exact (parses_side _ _ _ Hst Hs (ok_small g Hok))|].
  cbn [fst snd h_ids h_dim head_of]. rewrite bool_decide_true by done. cbn [negb].
  rewrite (proj2 (Nat.eqb_neq _ _)) by lia. fold (dim0 g).
  assert (match side_of (store g) with SideParams ps => negb (length ps =? length (ids g)) | _ => false end = false) as ->.
  { destruct (store g) as [| | |[]]; try done. cbn. destruct Hst as [_ ->]. by rewrite Nat.eqb_refl. }
  rewrite (proj2 (Nat.eqb_eq (length e) _)) by exact Hle. cbn [negb]. rewrite Ep. apply reads_ret.
Qed.

(** * What persisting a graph promises, and what it does not *)
From S2P Require Import Prelude Floats Utf8 Keys Quant Paged Heap AnnStore Ann AnnFacts AnnSpec.
From S2P Require Import AnnBytes.
From Stdlib Require Import SpecFloat.

(** A part of the vectors is in a file. *)
Definition on_disk (s : Store) : bool :=
  match s with
  | SFull v => bool_decide (is_Some (base v))
  | SSq8 c _ | SBq c | SPq _ _ c _ => bool_decide (is_Some (base c))
  end.

Lemma ram_id {T} `{Pod T} unit (mv : MappedVec T) :
  mv_ok unit mv -> bool_decide (is_Some (base mv)) = false -> ram (mv_content mv) = mv.
Proof.
  unfold mv_ok, mv_content, ram. destruct mv as [b bl t]. cbn. destruct b; [|by intros ->].
  intros _ Hb%bool_decide_eq_false. destruct Hb. by eexists.
Qed.

Lemma ram_store_id dim n s : store_ok dim n s -> on_disk s = false -> ram_store s = s.
Proof.
  destruct s as [v|c ps|b|[cb|] w c m]; cbn [store_ok on_disk ram_store].
  - intros [Hok _] Hm. by rewrite (ram_id _ _ Hok).
  - intros [[Hok _] _] Hm. by rewrite (ram_id _ _ Hok).
  - intros [Hok _] Hm. by rewrite (ram_id _ _ Hok).
  - intros (_ & [Hok _] & _) Hm. by rewrite (ram_id _ _ Hok).
  - by intros [_ ->].
Qed.

Lemma set_store_id g : set_store g (store g) = g.
Proof. by destruct g. Qed.

Lemma from_bytes_other_quantizer g c b :
  graph_ok g -> disk_fits g -> to_bytes g = Some b -> quantizer c <> quantizer (config g) -> from_bytes b c = Err Rejected.
Proof.
  intros Hok [Hh Hs] Hb Hne. unfold to_bytes in Hb.
  destruct (parses_store (dim0 g) (length (ids g)) (store g) (ok_store g Hok) Hs (ok_small g Hok)) as (out & E & Hp).
  { apply dim_positive; [apply Hok|done]. }
  rewrite E in Hb. injection Hb as <-. unfold from_bytes, run_reader.
  assert (forall f, (_ ← rd_magic RROG; h ← head_read; s ← read_store (length (h_ids h)); f h s) (RROG ++ 1%Z :: write_head g ++ out) =
    (f (head_of g) (ram_store (store g)) : Reader AnnIndex) []) as ->.
  { intros f. change (RROG ++ 1%Z :: write_head g ++ out) with ((RROG ++ [1%Z]) ++ write_head g ++ out).
    rewrite <- (app_nil_r out). unfold mbind, reader_bind. rewrite (parses_magic RROG eq_refl), (parses_head g Hok Hh).
    cbn [h_ids head_of]. by rewrite Hp. }
  cbn [h_ids head_of]. rewrite bool_decide_false; [done|]. rewrite ram_store_quantizer, (ok_quantizer g Hok). congruence.
Qed.

Section Properties.
Context {HC : BinaryHeap Scored reverse_key} {HR : BinaryHeap Scored scored_key}.

(** C27: a graph survives the round trip through its blob. A well-formed,
    sealed graph whose fields fit the format serializes; the blob loads under
    the graph's configuration as the same nodes, ids, tombstones, links,
    entry, counters and vectors, so every search answers as before, and as the
    identical value when the graph was in memory; and under any other
    quantizer it is rejected. *)
Theorem blob_roundtrip (g : AnnIndex) :
  graph_ok g -> disk_fits g ->
  exists b s, to_bytes g = Some b /\ from_bytes b (config g) = Ok (set_store g s) /\
    same_store (dim0 g) (store g) s /\ (on_disk (store g) = false -> set_store g s = g) /\
    (forall q k ef, search (set_store g s) q k ef = search g q k ef) /\
    (forall q k ef allow, search_filtered (set_store g s) q k ef allow = search_filtered g q k ef allow) /\
    (forall c, quantizer c <> quantizer (config g) -> from_bytes b c = Err Rejected).
Proof.
  intros Hok Hf. destruct (from_bytes_ok g Hok Hf) as (b & Eb & Ef).
  pose proof (ram_store_same _ _ _ (ok_store g Hok)) as Hs. exists b, (ram_store (store g)). split_and!; try done.
  - intros Hm. rewrite (ram_store_id _ _ _ (ok_store g Hok) Hm). apply set_store_id.
  - intros q k ef. by apply set_store_searches with (allow := ∅).
  - intros q k ef allow. by apply set_store_searches.
  - intros c. by apply from_bytes_other_quantizer.
Qed.

(** paging a graph from disk is invisible to searches. The structure blob
    and the vectors streamed beside it open, under any cache budget, as a
    graph with the same nodes and links over the paged file, and every search,
    filtered or not, gives the same hits and scores as the graph in memory. *)
Theorem paged_graph_searches_alike (g : AnnIndex) (budget : nat) :
  graph_ok g -> disk_fits g -> ids g <> [] ->
  exists e s, write_vectors_to g = Some e /\
    from_paged (to_structure_bytes g) e (config g) budget = Ok (set_store g s) /\
    (forall q k ef, search (set_store g s) q k ef = search g q k ef) /\
    (forall q k ef allow, search_filtered (set_store g s) q k ef allow = search_filtered g q k ef allow).
Proof.
  intros Hok Hf Hne. destruct (from_paged_ok g budget Hok Hf Hne) as (e & s & Ew & Ef & Hs).
  exists e, s. split_and!; [done|done| |].
  - intros q k ef. by apply set_store_searches with (allow := ∅).
  - intros q k ef allow. by apply set_store_searches.
Qed.
End Properties.

(** ** Witnesses *)

#[local] Existing Instance line_ln.
#[local] Existing Instance list_heap.

Lemma sample_ids : ids sample_graph = [str "a"; str "b"; str "c"; str "d"; str "a"].
Proof. vm_compute. reflexivity. Qed.

Lemma sample_disk_fits : disk_fits sample_graph.
Proof.
  split; [split|].
  - intros d. change (dim sample_graph) with (Some 2). intros [= <-]. split; [lia|reflexivity].
  - rewrite sample_ids. repeat constructor.
  - assert (exists t, store sample_graph = SFull (ram t) /\ length t = 10 /\ forallb f32_valid t = true) as (t & -> & Hl & Ht).
    { eexists. split; [vm_compute; reflexivity|]. split; vm_compute; reflexivity. }
    split.
    + apply Forall_forall. intros x Hx%list_elem_of_In. by apply (proj1 (forallb_forall _ _) Ht).
    + cbn. by rewrite Hl.
Qed.

Lemma blob_roundtrip_witness :
  exists b s, to_bytes sample_graph = Some b /\ from_bytes b sample_config = Ok (set_store sample_graph s).
Proof.
  destruct (blob_roundtrip sample_graph (re_ok _ _ _ _ sample_represents) sample_disk_fits) as (b & s & E & Ef & _).
  exists b, s. split; [exact E|exact Ef].
Defined.

Lemma paged_graph_searches_alike_witness :
  exists e s, from_paged (to_structure_bytes sample_graph) e sample_config 4096 = Ok (set_store sample_graph s) /\
    search (set_store sample_graph s) (point 1 0) 2 5 = search sample_graph (point 1 0) 2 5.
Proof.
  destruct (paged_graph_searches_alike sample_graph 4096 (re_ok _ _ _ _ sample_represents) sample_disk_fits) as (e & s & _ & Ef & Es & _).
  - rewrite sample_ids. discriminate.
  - exists e, s. split; [exact Ef|apply Es].
Defined.

(** ** What the checks on open do not catch *)

Definition graph_of (ops : list GraphOp) : AnnIndex :=
  default (ann_new sample_config) (fold_opt apply_graph (ann_new sample_config) ops).
Definition graph_ab : AnnIndex := graph_of [OpInsert (str "a") (point 1 0); OpInsert (str "b") (point 0 1)].
(** The same vectors, inserted the other way round: what compaction may make
    of the first. *)
Definition graph_ba : AnnIndex := graph_of [OpInsert (str "b") (point 0 1); OpInsert (str "a") (point 1 0)].

Definition top_id (r : option (list (Id * f32))) : option (list Id) := map fst <$> r.

(** The length check accepts a file whose vectors are another graph's, and the
    hits are then those of the wrong ids. *)
Theorem skewed_sidecar_is_accepted :
  let reopened := match write_vectors_to graph_ba with
                  | Some e => from_paged (to_structure_bytes graph_ab) e sample_config 0
                  | None => Err Rejected
                  end in
  top_id (search graph_ab (point 1 0) 1 4) = Some [str "a"] /\
  match reopened with Ok g => top_id (search g (point 1 0) 1 4) | Err _ => None end = Some [str "b"].
Proof. split; vm_compute; reflexivity. Qed.

(** A blob whose links lead out of the graph loads, and searching it panics. *)
Theorem dangling_blob_is_accepted :
  let loaded := match to_bytes (set_links graph_ab [[[7]; []]; [[0]; []]]) with
                | Some b => from_bytes b sample_config
                | None => Err Rejected
                end in
  is_ok loaded = true /\ match loaded with Ok g => search g (point 1 0) 1 4 | Err _ => Some [] end = None.
Proof. split; vm_compute; reflexivity. Qed.

(** The dimension is fixed by the first vector but not enforced: a shorter one
    is inserted, and the next search panics. *)
Theorem shorter_vector_is_inserted :
  let longer := insert graph_ab (str "c") [f32_of_Z 1] in
  is_Some longer /\ (g ← longer; search g (point 1 0) 1 4) = None.
Proof. split; [apply is_Some_alt; vm_compute; exact I|vm_compute; reflexivity]. Qed.
