(* ===== verification/Text.v ===== *)
(** * Text analysis (crates/rro-core/src/text.rs)

    Tokenizers, the stopword set, the Porter stemmer, the analyzer pipeline
    and highlighting. A text is its UTF-8 bytes and a character the bytes that
    encode it; which characters are alphanumeric or blank, and how a string is
    lowercased, are tables of the Rust standard library and a class here. A
    panic is [None]. *)
From S2P Require Import Prelude Utf8.
#[local] Set Default Goal Selector "!".

(** ** The standard library's tables *)

Class Unicode := {
  u_alphanumeric : bytes -> bool;
  u_whitespace : bytes -> bool;
  u_lowercase : bytes -> bytes;
}.

(** What the code relies on. *)
Class UnicodeLaws `{Unicode} : Prop := {
  u_lower_nonempty s : s <> [] -> u_lowercase s <> [];
  u_lower_ascii s : Forall (fun c => is_ascii_lowercase c = true) s -> u_lowercase s = s;
}.

(** The tables on ASCII; other characters are letters without case. *)
Definition ascii_unicode : Unicode := {|
  u_alphanumeric c := match c with [b] => is_ascii_alphanumeric b | _ => true end;
  u_whitespace c := match c with [b] => is_ascii_whitespace b || (b =? 11)%Z | _ => false end;
  u_lowercase s := map to_ascii_lowercase s;
|}.

(** [str::chars] *)
Fixpoint chars_loop (fuel : nat) (s : bytes) : list bytes :=
  match s, fuel with
  | [], _ | _, O => []
  | _, S fuel =>
      let n := match utf8_next s with Valid n | Invalid n => n end in
      take n s :: chars_loop fuel (drop n s)
  end.
Definition chars (s : bytes) : list bytes := chars_loop (length s) s.

(** [str::split]: the pieces between separators, empty ones too. *)
Fixpoint split_loop (sep : bytes -> bool) (cs : list bytes) (cur : bytes) : list bytes :=
  match cs with
  | [] => [cur]
  | c :: cs => if sep c then cur :: split_loop sep cs [] else split_loop sep cs (cur ++ c)
  end.
Definition split_words (sep : bytes -> bool) (text : bytes) : list bytes :=
  filter (fun t => t <> []) (split_loop sep (chars text) []).

(** ** Stopwords *)

Definition STOPWORDS : list bytes := map str
  ["a"; "an"; "and"; "are"; "as"; "at"; "be"; "but"; "by"; "for"; "if"; "in"; "into"; "is"; "it";
   "no"; "not"; "of"; "on"; "or"; "such"; "that"; "the"; "their"; "then"; "there"; "these";
   "they"; "this"; "to"; "was"; "will"; "with"; "what"; "how"; "why"; "when"; "where"; "who";
   "do"; "does"; "did"; "i"; "me"; "my"; "we"; "our"; "you"; "your"; "can"; "could"; "would";
   "should"; "please"; "tell"; "about"; "give"; "show"; "need"; "want"; "get"; "got"; "from";
   "than"; "also"; "just"; "am"]%string.

Definition is_stopword (token : bytes) : bool := bool_decide (token ∈ STOPWORDS).

(** ** The Porter stemmer *)

Definition vowel (c : Z) : bool :=
  (c =? ch "a")%Z || (c =? ch "e")%Z || (c =? ch "i")%Z || (c =? ch "o")%Z || (c =? ch "u")%Z.

Fixpoint is_cons (w : bytes) (i : nat) : option bool :=
  c ← w !! i;
  if vowel c then Some false
  else if (c =? ch "y")%Z then match i with O => Some true | S j => negb <$> is_cons w j end
  else Some true.

Definition measure_step (w : bytes) (st : nat * bool) (i : nat) : option (nat * bool) :=
  cons ← is_cons w i;
  Some ((if (cons : bool) && st.2 then S st.1 else st.1), negb cons).
Definition measure (w : bytes) (len : nat) : option nat :=
  fst <$> fold_opt (measure_step w) (0, false) (seq 0 len).

(** [(0..len).any(..)] *)
Fixpoint any_vowel (w : bytes) (idxs : list nat) : option bool :=
  match idxs with
  | [] => Some false
  | i :: idxs => cons ← is_cons w i; if cons : bool then any_vowel w idxs else Some true
  end.
Definition has_vowel (w : bytes) (len : nat) : option bool := any_vowel w (seq 0 len).

Definition ends_double_cons (w : bytes) (len : nat) : option bool :=
  if len <? 2 then Some false
  else
    a ← w !! (len - 1); b ← w !! (len - 2);
    if (a =? b)%Z then is_cons w (len - 1) else Some false.

Definition ends_cvc (w : bytes) (len : nat) : option bool :=
  if len <? 3 then Some false
  else
    c1 ← is_cons w (len - 3);
    if negb c1 then Some false
    else
      c2 ← is_cons w (len - 2);
      if c2 : bool then Some false
      else
        c3 ← is_cons w (len - 1);
        if negb c3 then Some false
        else
          c ← w !! (len - 1);
          Some (negb ((c =? ch "w")%Z || (c =? ch "x")%Z || (c =? ch "y")%Z)).

(** The word is kept at its length, so [w[..len]] is [w]. *)
Definition stem_before (w : bytes) (suffix : bytes) : option nat :=
  if (length suffix <=? length w) && bool_decide (drop (length w - length suffix) w = suffix)
  then Some (length w - length suffix) else None.

Definition set_suffix (w : bytes) (stem : nat) (to : bytes) : bytes := take stem w ++ to.

Fixpoint rule_table (w : bytes) (min_measure : nat) (rules : list (bytes * bytes)) : option bytes :=
  match rules with
  | [] => Some w
  | (from, to) :: rules =>
      match stem_before w from with
      | Some stem => m ← measure w stem; Some (if min_measure <? m then set_suffix w stem to else w)
      | None => rule_table w min_measure rules
      end
  end.

Definition rules (l : list (string * string)) : list (bytes * bytes) := map (fun p => (str p.1, str p.2)) l.

Definition step1a (w : bytes) : bytes :=
  match stem_before w (str "sses") with
  | Some stem => set_suffix w stem (str "ss")
  | None =>
      match stem_before w (str "ies") with
      | Some stem => set_suffix w stem (str "i")
      | None =>
          match stem_before w (str "ss") with
          | Some _ => w
          | None =>
              match stem_before w (str "s") with
              | Some stem => set_suffix w stem []
              | None => w
              end
          end
      end
  end.

Definition strip_if_vowel (w : bytes) (stem : nat) : option (bytes * bool) :=
  v ← has_vowel w stem; Some (if v : bool then (set_suffix w stem [], true) else (w, false)).

(** The word and [cleanup_1b]. *)
Definition step1b (w : bytes) : option (bytes * bool) :=
  match stem_before w (str "eed") with
  | Some stem => m ← measure w stem; Some (if 0 <? m then set_suffix w stem (str "ee") else w, false)
  | None =>
      match stem_before w (str "ed") with
      | Some stem => strip_if_vowel w stem
      | None =>
          match stem_before w (str "ing") with
          | Some stem => strip_if_vowel w stem
          | None => Some (w, false)
          end
      end
  end.

(** [matches!(w[len - 1], ..)] on a word that ends in a double consonant *)
Definition last_in (w : bytes) (cs : bytes) : option bool :=
  c ← w !! (length w - 1); Some (bool_decide (c ∈ cs)).

Definition cleanup (w : bytes) : option bytes :=
  if bool_decide (is_Some (stem_before w (str "at"))) || bool_decide (is_Some (stem_before w (str "bl")))
     || bool_decide (is_Some (stem_before w (str "iz")))
  then Some (w ++ str "e")
  else
    d ← ends_double_cons w (length w);
    undouble ← (if d : bool then negb <$> last_in w (str "lsz") else Some false);
    if undouble : bool then Some (take (length w - 1) w)
    else
      m ← measure w (length w);
      if m =? 1 then
        cvc ← ends_cvc w (length w);
        Some (if cvc : bool then w ++ str "e" else w)
      else Some w.

Definition step1c (w : bytes) : option bytes :=
  match stem_before w (str "y") with
  | Some stem => v ← has_vowel w stem; Some (if v : bool then set_suffix w stem (str "i") else w)
  | None => Some w
  end.

Definition step2_rules : list (bytes * bytes) := rules
  [("ational", "ate"); ("tional", "tion"); ("enci", "ence"); ("anci", "ance"); ("izer", "ize"); ("abli", "able");
   ("alli", "al"); ("entli", "ent"); ("eli", "e"); ("ousli", "ous"); ("ization", "ize"); ("ation", "ate");
   ("ator", "ate"); ("alism", "al"); ("iveness", "ive"); ("fulness", "ful"); ("ousness", "ous");
   ("aliti", "al"); ("iviti", "ive"); ("biliti", "ble")]%string.
Definition step3_rules : list (bytes * bytes) := rules
  [("icate", "ic"); ("ative", ""); ("alize", "al"); ("iciti", "ic"); ("ical", "ic"); ("ful", ""); ("ness", "")]%string.
Definition step4_suffixes : list bytes := map str
  ["al"; "ance"; "ence"; "er"; "ic"; "able"; "ible"; "ant"; "ement"; "ment"; "ent"; "ou";
   "ism"; "ate"; "iti"; "ous"; "ive"; "ize"]%string.

(** [best.is_none_or(|b| stem < b)] *)
Definition better (best : option nat) (stem : nat) : bool :=
  match best with None => true | Some b => stem <? b end.
Definition longest (w : bytes) (best : option nat) (from : bytes) : option nat :=
  match stem_before w from with
  | Some stem => if better best stem then Some stem else best
  | None => best
  end.

Definition step4 (w : bytes) : option bytes :=
  let best := fold_left (longest w) step4_suffixes None in
  best ← match stem_before w (str "ion") with
         | Some stem =>
             if 1 <=? stem then
               c ← w !! (stem - 1);
               Some (if ((c =? ch "s")%Z || (c =? ch "t")%Z) && better best stem then Some stem else best)
             else Some best
         | None => Some best
         end;
  match best with
  | Some stem => m ← measure w stem; Some (if 1 <? m then set_suffix w stem [] else w)
  | None => Some w
  end.

Definition step5a (w : bytes) : option bytes :=
  match stem_before w (str "e") with
  | Some stem =>
      m ← measure w stem;
      strip ← (if 1 <? m then Some true else if m =? 1 then negb <$> ends_cvc w stem else Some false);
      Some (if strip : bool then set_suffix w stem [] else w)
  | None => Some w
  end.

Definition step5b (w : bytes) : option bytes :=
  d ← ends_double_cons w (length w);
  if d : bool then
    l ← last_in w (str "l");
    if l : bool then
      m ← measure w (length w);
      Some (if 1 <? m then take (length w - 1) w else w)
    else Some w
  else Some w.

Definition porter_stem (token : bytes) : option bytes :=
  if (length token <=? 2) || negb (forallb is_ascii_lowercase token) then Some token
  else
    let w := step1a token in
    '(w, clean) ← step1b w;
    w ← (if clean : bool then cleanup w else Some w);
    w ← step1c w;
    w ← rule_table w 0 step2_rules;
    w ← rule_table w 0 step3_rules;
    w ← step4 w;
    w ← step5a w;
    w ← step5b w;
    Some (if valid_utf8 w then w else token).

Example porter_samples :
  map (fun s => porter_stem (str s))
    ["caresses"; "ponies"; "ties"; "caress"; "cats"; "feed"; "agreed"; "plastered"; "motoring"; "sing"; "conflated";
     "hopping"; "falling"; "filing"; "happy"; "sky"; "relational"; "conditional"; "rational"]%string =
  map (fun s => Some (str s))
    ["caress"; "poni"; "ti"; "caress"; "cat"; "feed"; "agre"; "plaster"; "motor"; "sing"; "conflat";
     "hop"; "fall"; "file"; "happi"; "sky"; "relat"; "condit"; "ration"]%string.
Proof. vm_compute. reflexivity. Qed.

(** ** The pipeline *)

Inductive Tokenizer : Type :=
  | Word
  | Whitespace
  | Prefix (min max : nat).

Record Analyzer : Type := mkAnalyzer {
  tokenizer : Tokenizer;
  lowercase : bool;
  stopwords : bool;
  stem : bool;
}.

Definition default_analyzer : Analyzer := mkAnalyzer Word true true false.
Definition stemming : Analyzer := mkAnalyzer Word true true true.
Definition autocomplete (min max : nat) : Analyzer := mkAnalyzer (Prefix min max) true true false.

Section analysis.
Context `{Unicode}.

Definition not_word (c : bytes) : bool := negb (u_alphanumeric c).

Definition tokenize (text : bytes) : list bytes := map u_lowercase (split_words not_word text).
Definition content_tokens (text : bytes) : list bytes :=
  filter (fun t => is_stopword t = false) (tokenize text).

(** The prefixes of one token; [min] and [max] as normalised. *)
Definition edge_prefixes (min max : nat) (tok : bytes) : list bytes :=
  let cs := chars tok in
  map (fun n => concat (take n cs)) (seq min (S (Nat.min max (length cs)) - min)) ++
  (if max <? length cs then [tok] else []).

Definition raw_tokens (t : Tokenizer) (text : bytes) : list bytes :=
  match t with
  | Word => split_words not_word text
  | Whitespace => split_words u_whitespace text
  | Prefix min max =>
      let lo := Nat.max min 1 in
      let hi := Nat.max max min in
      concat (map (edge_prefixes lo hi) (split_words not_word text))
  end.

(** The filters on one raw token. *)
Definition refine (a : Analyzer) (t : bytes) : option (list bytes) :=
  let t := if lowercase a then u_lowercase t else t in
  if stopwords a && is_stopword t then Some []
  else
    t ← (if stem a then porter_stem t else Some t);
    Some (if bool_decide (t = []) then [] else [t]).

Definition analyze (a : Analyzer) (text : bytes) : option (list bytes) :=
  (fun l => concat l) <$> mapM (refine a) (raw_tokens (tokenizer a) text).

(** ** Highlighting *)

Fixpoint surface_loop (sep : bytes -> bool) (fin : nat) (cs : list bytes) (i : nat) (start : option nat) : list (nat * nat) :=
  match cs with
  | [] => match start with Some s => [(s, fin)] | None => [] end
  | c :: cs =>
      match sep c, start with
      | false, None => surface_loop sep fin cs (i + length c) (Some i)
      | true, Some s => (s, i) :: surface_loop sep fin cs (i + length c) None
      | _, _ => surface_loop sep fin cs (i + length c) start
      end
  end.

Definition separator (t : Tokenizer) : bytes -> bool :=
  match t with Whitespace => u_whitespace | _ => not_word end.
Definition surface_tokens (text : bytes) (t : Tokenizer) : list (nat * nat) :=
  surface_loop (separator t) (length text) (chars text) 0 None.

Definition highlight_span (a : Analyzer) (text : bytes) (wanted : list bytes) (span : nat * nat) : option (list (nat * nat)) :=
  s ← slice text span.1 span.2;
  forms ← analyze a s;
  Some (if existsb (fun f => bool_decide (f ∈ wanted)) forms then [span] else []).

Definition highlight (a : Analyzer) (text query : bytes) : option (list (nat * nat)) :=
  wanted ← analyze a query;
  if bool_decide (wanted = []) then Some []
  else (fun l => concat l) <$> mapM (highlight_span a text wanted) (surface_tokens text (tokenizer a)).
End analysis.
