(* ===== verification/TextFacts.v ===== *)
(** * What text analysis promises

    The stemmer never panics, never grows a word and never empties it; the
    default analyzer is [content_tokens]; highlighting cuts the original text
    at the tokens the analyzer sees. *)
From S2P Require Import Prelude Utf8 QuantFacts Text.
#[local] Set Default Goal Selector "!".
#[local] Set Warnings "-clear-no-such-hyp".

(** ** The stemmer is total *)

Definition lower_word (w : bytes) : Prop := Forall (fun c => is_ascii_lowercase c = true) w.

Lemma is_cons_total w i : i < length w -> is_Some (is_cons w i).
Proof.
  induction i as [|i IH]; intros Hi; cbn [is_cons]; destruct (lookup_lt_is_Some_2 w _ Hi) as [c Hc];
    rewrite Hc; cbn [mbind option_bind]; destruct (vowel c); try by eexists.
  - destruct (_ =? _)%Z; by eexists.
  - destruct IH as [b ->]; [lia|]. cbn. destruct (_ =? _)%Z; by eexists.
Qed.

Lemma measure_total w len : len <= length w -> exists m, measure w len = Some m /\ (len = 0 -> m = 0).
Proof.
  intros Hl. destruct len as [|len]; [by exists 0|]. unfold measure.
  destruct (fold_opt_total (measure_step w) (0, false) (seq 0 (S len))) as [st ->].
  - intros st i Hi%in_seq0. unfold measure_step. destruct (is_cons_total w i) as [b ->]; [lia|]. by eexists.
  - exists st.1. done.
Qed.

Lemma any_vowel_total w l : (forall i, i ∈ l -> i < length w) -> is_Some (any_vowel w l).
Proof.
  induction l as [|i l IH]; intros Hl; cbn [any_vowel]; [by eexists|].
  destruct (is_cons_total w i) as [b ->]; [apply Hl; by left|]. cbn [mbind option_bind].
  destruct b; [|by eexists]. apply IH. intros j Hj. apply Hl. by right.
Qed.

Lemma has_vowel_total w len : len <= length w -> exists b, has_vowel w len = Some b /\ (len = 0 -> b = false).
Proof.
  intros Hl. destruct len as [|len]; [by exists false|]. destruct (any_vowel_total w (seq 0 (S len))) as [b E].
  - intros i Hi%in_seq0. lia.
  - exists b. done.
Qed.

Lemma ends_double_cons_total w :
  exists b, ends_double_cons w (length w) = Some b /\ (b = true -> 2 <= length w).
Proof.
  unfold ends_double_cons. destruct (Nat.ltb_spec (length w) 2); [by exists false|].
  destruct (lookup_lt_is_Some_2 w (length w - 1)) as [a ->]; [lia|].
  destruct (lookup_lt_is_Some_2 w (length w - 2)) as [b ->]; [lia|]. cbn [mbind option_bind].
  destruct (a =? b)%Z; [|by exists false]. destruct (is_cons_total w (length w - 1)) as [x ->]; [lia|]. by exists x.
Qed.

Lemma ends_cvc_total w len : len <= length w -> is_Some (ends_cvc w len).
Proof.
  intros Hl. unfold ends_cvc. destruct (Nat.ltb_spec len 3); [by eexists|].
  destruct (is_cons_total w (len - 3)) as [[] ->]; [lia|..]; cbn [mbind option_bind negb]; [|by eexists].
  destruct (is_cons_total w (len - 2)) as [[] ->]; [lia|..]; cbn [mbind option_bind]; [by eexists|].
  destruct (is_cons_total w (len - 1)) as [[] ->]; [lia|..]; cbn [mbind option_bind negb]; [|by eexists].
  destruct (lookup_lt_is_Some_2 w (len - 1)) as [c ->]; [lia|]. by eexists.
Qed.

Lemma stem_before_some w s k : stem_before w s = Some k -> k + length s = length w.
Proof.
  unfold stem_before. destruct (Nat.leb_spec (length s) (length w)); [|done]. cbn [andb].
  destruct (bool_decide _); [|done]. intros [= <-]. lia.
Qed.

(** What a step of the stemmer does to a word. *)
Definition shrinks (w w' : bytes) : Prop := w' <> [] /\ lower_word w' /\ length w' <= length w.

Lemma set_suffix_shrinks w s k to :
  lower_word w -> lower_word to -> stem_before w s = Some k -> length to <= length s -> (0 < k \/ to <> []) ->
  shrinks w (set_suffix w k to).
Proof.
  intros Hw Ht Hk%stem_before_some Hl Hne. unfold shrinks, set_suffix. rewrite length_app, length_take. split_and!.
  - intros [E ->]%app_eq_nil. destruct Hne as [Hp|?]; [|done].
    apply (f_equal length) in E. rewrite length_take in E. cbn in E. lia.
  - apply Forall_app. split; [by apply Forall_take|done].
  - lia.
Qed.

Lemma shrinks_refl w : w <> [] -> lower_word w -> shrinks w w.
Proof. intros ? ?. by split_and!. Qed.

Lemma lower_str_dec s : forallb is_ascii_lowercase s = true -> lower_word s.
Proof. intros Hs. apply Forall_forall. intros c Hc%list_elem_of_In. by apply (proj1 (forallb_forall _ _) Hs). Qed.

Lemma step1a_shrinks w : 3 <= length w -> lower_word w -> shrinks w (step1a w).
Proof.
  intros Hl Hw. unfold step1a. assert (w <> []) as Hne by (by intros ->; cbn in Hl; lia).
  destruct (stem_before w (str "sses")) as [k|] eqn:E1.
  { eapply set_suffix_shrinks; [done|by apply lower_str_dec|exact E1|cbn; lia|by right]. }
  destruct (stem_before w (str "ies")) as [k|] eqn:E2.
  { eapply set_suffix_shrinks; [done|by apply lower_str_dec|exact E2|cbn; lia|by right]. }
  destruct (stem_before w (str "ss")) as [k|] eqn:E3; [by apply shrinks_refl|].
  destruct (stem_before w (str "s")) as [k|] eqn:E4; [|by apply shrinks_refl].
  eapply set_suffix_shrinks; [done|constructor|exact E4|cbn; lia|]. left. apply stem_before_some in E4. cbn in E4. lia.
Qed.

Lemma strip_if_vowel_ok w s k :
  w <> [] -> lower_word w -> stem_before w s = Some k -> 2 <= length s ->
  exists w' c, strip_if_vowel w k = Some (w', c) /\ shrinks w w' /\ (c = true -> length w' + 2 <= length w).
Proof.
  intros Hne Hw Hk Hs. pose proof (stem_before_some _ _ _ Hk) as Hl. unfold strip_if_vowel.
  destruct (has_vowel_total w k) as (v & -> & Hv); [lia|]. cbn [mbind option_bind]. destruct v.
  - eexists _, true. split; [done|]. split.
    + eapply set_suffix_shrinks; [done|constructor|exact Hk|cbn; lia|]. left. destruct k; [by specialize (Hv eq_refl)|lia].
    + intros _. unfold set_suffix. rewrite app_nil_r, length_take. lia.
  - eexists _, false. split; [done|]. split; [by apply shrinks_refl|done].
Qed.

Lemma step1b_ok w :
  w <> [] -> lower_word w ->
  exists w' c, step1b w = Some (w', c) /\ shrinks w w' /\ (c = true -> length w' + 2 <= length w).
Proof.
  intros Hne Hw. unfold step1b. destruct (stem_before w (str "eed")) as [k|] eqn:E1.
  { pose proof (stem_before_some _ _ _ E1) as Hl. destruct (measure_total w k) as (m & -> & _); [lia|].
    cbn [mbind option_bind]. eexists _, false. split; [done|]. split; [|done].
    destruct (0 <? m); [|by apply shrinks_refl].
    eapply set_suffix_shrinks; [done|by apply lower_str_dec|exact E1|cbn; lia|by right]. }
  destruct (stem_before w (str "ed")) as [k|] eqn:E2; [by apply (strip_if_vowel_ok w (str "ed")); [..|cbn; lia]|].
  destruct (stem_before w (str "ing")) as [k|] eqn:E3; [by apply (strip_if_vowel_ok w (str "ing")); [..|cbn; lia]|].
  eexists _, false. split; [done|]. split; [by apply shrinks_refl|done].
Qed.

Lemma take_shrinks w : 2 <= length w -> lower_word w -> shrinks w (take (length w - 1) w).
Proof.
  intros Hl Hw. split_and!; [|by apply Forall_take|rewrite length_take; lia].
  intros E%(f_equal length). rewrite length_take in E. cbn in E. lia.
Qed.

Lemma last_in_total w cs : w <> [] -> is_Some (last_in w cs).
Proof.
  intros Hne. unfold last_in. destruct (lookup_lt_is_Some_2 w (length w - 1)) as [c ->]; [|by eexists].
  destruct w; [done|cbn; lia].
Qed.

Lemma cleanup_ok w :
  w <> [] -> lower_word w -> exists w', cleanup w = Some w' /\ w' <> [] /\ lower_word w' /\ length w' <= S (length w).
Proof.
  intros Hne Hw. unfold cleanup.
  assert (w ++ str "e" <> [] /\ lower_word (w ++ str "e") /\ length (w ++ str "e") <= S (length w)) as He.
  { split_and!; [by intros [_ ?]%app_eq_nil|apply Forall_app; split; [done|by apply lower_str_dec]|rewrite length_app; cbn; lia]. }
  destruct (_ || _); [by eexists|].
  destruct (ends_double_cons_total w) as (d & -> & Hd). cbn [mbind option_bind].
  assert (exists u, (if d then negb <$> last_in w (str "lsz") else Some false) = Some u /\ (u = true -> 2 <= length w)) as (u & -> & Hu).
  { destruct d; [|by exists false]. destruct (last_in_total w (str "lsz") Hne) as [b ->]. exists (negb b). split; [done|].
    intros _. by apply Hd. }
  cbn [mbind option_bind]. destruct u.
  - destruct (take_shrinks w) as (? & ? & ?); [by apply Hu|done|]. eexists. split; [done|]. split_and!; [done|done|lia].
  - destruct (measure_total w (length w)) as (m & -> & _); [done|]. cbn [mbind option_bind].
    destruct (m =? 1); [|by exists w; split_and!; [..|lia]].
    destruct (ends_cvc_total w (length w)) as [[] ->]; [done| |]; cbn [mbind option_bind]; [by eexists|].
    exists w. by split_and!; [..|lia].
Qed.

Lemma step1c_ok w : w <> [] -> lower_word w -> exists w', step1c w = Some w' /\ shrinks w w'.
Proof.
  intros Hne Hw. unfold step1c. destruct (stem_before w (str "y")) as [k|] eqn:E; [|by exists w; split; [|apply shrinks_refl]].
  pose proof (stem_before_some _ _ _ E) as Hl. destruct (has_vowel_total w k) as (v & -> & _); [lia|].
  cbn [mbind option_bind]. eexists. split; [done|]. destruct v; [|by apply shrinks_refl].
  eapply set_suffix_shrinks; [done|by apply lower_str_dec|exact E|cbn; lia|by right].
Qed.

(** Stripping at a stem whose measure is positive leaves something. *)
Lemma gated_ok w s k to b :
  w <> [] -> lower_word w -> lower_word to -> stem_before w s = Some k -> length to <= length s ->
  exists w', (m ← measure w k; Some (if b <? m then set_suffix w k to else w)) = Some w' /\ shrinks w w'.
Proof.
  intros Hne Hw Ht Hk Hl. pose proof (stem_before_some _ _ _ Hk) as Hlen.
  destruct (measure_total w k) as (m & -> & Hm); [lia|]. cbn [mbind option_bind]. eexists. split; [done|].
  destruct (Nat.ltb_spec b m); [|by apply shrinks_refl].
  eapply set_suffix_shrinks; [done|done|exact Hk|done|]. left. destruct k; [specialize (Hm eq_refl); lia|lia].
Qed.

Definition rule_ok (r : bytes * bytes) : bool := (length r.2 <=? length r.1) && forallb is_ascii_lowercase r.2.

Lemma rule_table_ok w b rs :
  w <> [] -> lower_word w -> forallb rule_ok rs = true -> exists w', rule_table w b rs = Some w' /\ shrinks w w'.
Proof.
  intros Hne Hw. induction rs as [|[from to] rs IH]; cbn [rule_table forallb]; [intros _; exists w; by split; [|apply shrinks_refl]|].
  intros [[Hl%Nat.leb_le Ht]%andb_true_iff Hr]%andb_true_iff. cbn in Hl, Ht.
  destruct (stem_before w from) as [k|] eqn:E; [|by apply IH]. apply (gated_ok w from); [done|done|by apply lower_str_dec|done|done].
Qed.

Lemma longest_le w l best b :
  (forall k, best = Some k -> exists s, stem_before w s = Some k) -> fold_left (longest w) l best = Some b ->
  exists s, stem_before w s = Some b.
Proof.
  revert best. induction l as [|x l IH]; intros best Hb; cbn [fold_left]; [by apply Hb|]. apply IH.
  intros k. unfold longest. destruct (stem_before w x) as [j|] eqn:E; [|by apply Hb].
  destruct (better best j); [|by apply Hb]. intros [= <-]. eauto.
Qed.

Lemma step4_ok w : w <> [] -> lower_word w -> exists w', step4 w = Some w' /\ shrinks w w'.
Proof.
  intros Hne Hw. unfold step4. set (b0 := fold_left _ _ _).
  assert (exists best, match stem_before w (str "ion") with
    | Some stem => if 1 <=? stem then c ← w !! (stem - 1);
        Some (if ((c =? ch "s")%Z || (c =? ch "t")%Z) && better b0 stem then Some stem else b0) else Some b0
    | None => Some b0 end = Some best /\ forall k, best = Some k -> exists s, stem_before w s = Some k) as (best & -> & Hb).
  { assert (forall k, b0 = Some k -> exists s, stem_before w s = Some k) as H0 by (intros k; by apply longest_le).
    destruct (stem_before w (str "ion")) as [k|] eqn:E; [|by exists b0].
    destruct (Nat.leb_spec 1 k); [|by exists b0]. apply stem_before_some in E as Hl.
    destruct (lookup_lt_is_Some_2 w (k - 1)) as [c ->]; [lia|]. cbn [mbind option_bind].
    eexists. split; [done|]. intros j. destruct (_ && _); [|by apply H0]. intros [= <-]. eauto. }
  cbn [mbind option_bind]. destruct best as [k|]; [|by exists w; split; [|apply shrinks_refl]].
  destruct (Hb k eq_refl) as [s Hs]. apply (gated_ok w s); [done|done|constructor|done|cbn; lia].
Qed.

Lemma step5a_ok w : w <> [] -> lower_word w -> exists w', step5a w = Some w' /\ shrinks w w'.
Proof.
  intros Hne Hw. unfold step5a. destruct (stem_before w (str "e")) as [k|] eqn:E; [|by exists w; split; [|apply shrinks_refl]].
  pose proof (stem_before_some _ _ _ E) as Hl. destruct (measure_total w k) as (m & -> & Hm); [lia|]. cbn [mbind option_bind].
  assert (exists b, (if 1 <? m then Some true else if m =? 1 then negb <$> ends_cvc w k else Some false) = Some b /\
    (b = true -> 0 < k)) as (b & -> & Hb).
  { destruct (Nat.ltb_spec 1 m).
    - exists true. split; [done|]. intros _. destruct k; [specialize (Hm eq_refl); lia|lia].
    - destruct (Nat.eqb_spec m 1); [|by exists false]. destruct (ends_cvc_total w k) as [c ->]; [lia|].
      exists (negb c). split; [done|]. intros _. destruct k; [specialize (Hm eq_refl); lia|lia]. }
  cbn [mbind option_bind]. eexists. split; [done|]. destruct b; [|by apply shrinks_refl].
  eapply set_suffix_shrinks; [done|constructor|exact E|cbn; lia|left; by apply Hb].
Qed.

Lemma step5b_ok w : w <> [] -> lower_word w -> exists w', step5b w = Some w' /\ shrinks w w'.
Proof.
  intros Hne Hw. unfold step5b. destruct (ends_double_cons_total w) as (d & -> & Hd). cbn [mbind option_bind].
  destruct d; [|by exists w; split; [|apply shrinks_refl]].
  destruct (last_in_total w (str "l") Hne) as [[] ->]; cbn [mbind option_bind]; [|by exists w; split; [|apply shrinks_refl]].
  destruct (measure_total w (length w)) as (m & -> & _); [done|]. cbn [mbind option_bind].
  eexists. split; [done|]. destruct (1 <? m); [apply take_shrinks; [by apply Hd|done]|by apply shrinks_refl].
Qed.

Lemma lower_valid_utf8 w : lower_word w -> valid_utf8 w = true.
Proof.
  unfold valid_utf8. intros Hw. induction Hw as [|c w Hc _ IH]; [done|]. cbn [length valid_loop utf8_next].
  unfold is_ascii_lowercase in Hc. rewrite (proj2 (Z.ltb_lt _ _)) by lia. exact IH.
Qed.

Lemma porter_stem_total t :
  exists r, porter_stem t = Some r /\ length r <= length t /\ (t <> [] -> r <> []) /\
    (r = t \/ lower_word t /\ lower_word r).
Proof.
  unfold porter_stem. destruct (_ || _) eqn:E; [by exists t; split_and!; auto|].
  apply orb_false_iff in E as [Hl%Nat.leb_gt Hlow%negb_false_iff]. apply lower_str_dec in Hlow.
  destruct (step1a_shrinks t) as (N0 & L0 & S0); [lia|done|]. set (w0 := step1a t) in *.
  destruct (step1b_ok w0 N0 L0) as (w1 & c & -> & (N1 & L1 & S1) & Hc). cbn [mbind option_bind].
  assert (exists w2, (if c then cleanup w1 else Some w1) = Some w2 /\ w2 <> [] /\ lower_word w2 /\ length w2 <= length w0)
    as (w2 & -> & N2 & L2 & S2).
  { destruct c; [|by exists w1]. destruct (cleanup_ok w1 N1 L1) as (w2 & -> & ? & ? & ?). exists w2.
    specialize (Hc eq_refl). split_and!; [done|done|done|lia]. }
  cbn [mbind option_bind]. destruct (step1c_ok w2 N2 L2) as (w3 & -> & N3 & L3 & S3). cbn [mbind option_bind].
  destruct (rule_table_ok w3 0 step2_rules N3 L3 eq_refl) as (w4 & -> & N4 & L4 & S4). cbn [mbind option_bind].
  destruct (rule_table_ok w4 0 step3_rules N4 L4 eq_refl) as (w5 & -> & N5 & L5 & S5). cbn [mbind option_bind].
  destruct (step4_ok w5 N5 L5) as (w6 & -> & N6 & L6 & S6). cbn [mbind option_bind].
  destruct (step5a_ok w6 N6 L6) as (w7 & -> & N7 & L7 & S7). cbn [mbind option_bind].
  destruct (step5b_ok w7 N7 L7) as (w8 & -> & N8 & L8 & S8). cbn [mbind option_bind].
  rewrite (lower_valid_utf8 w8 L8). exists w8. split_and!; [done|lia|done|by right].
Qed.

(** ** Characters *)

Lemma utf8_next_pos c s : match utf8_next (c :: s) with Valid n | Invalid n => 1 <= n end.
Proof.
  unfold utf8_next. destruct (c <? 128)%Z; [lia|]. destruct (between 194 223 c); [destruct (cont _ 1); lia|].
  destruct (between 224 239 c).
  { destruct (if (c =? 224)%Z then _ else _); [destruct (cont _ 2); lia|lia]. }
  destruct (between 240 244 c); [|lia].
  destruct (if (c =? 240)%Z then _ else _); [destruct (cont _ 2); [destruct (cont _ 3)|]; lia|lia].
Qed.

Lemma chars_loop_concat fuel s :
  length s <= fuel -> concat (chars_loop fuel s) = s /\ Forall (fun c => c <> []) (chars_loop fuel s).
Proof.
  revert s. induction fuel as [|fuel IH]; intros [|c s] Hl; cbn [length] in Hl; try (by split; [|constructor]); [lia|].
  cbn [chars_loop]. pose proof (utf8_next_pos c s) as Hn. set (n := match utf8_next (c :: s) with Valid n | Invalid n => n end) in *.
  assert (1 <= n) as Hp by (unfold n; by destruct (utf8_next (c :: s))).
  destruct (IH (drop n (c :: s))) as [H1 H2]; [rewrite length_drop; cbn [length]; lia|]. split.
  - cbn [concat]. by rewrite H1, take_drop.
  - constructor; [|done]. by destruct n; [lia|].
Qed.

Lemma chars_concat s : concat (chars s) = s.
Proof. by apply chars_loop_concat. Qed.
Lemma chars_nonempty s : Forall (fun c => c <> []) (chars s).
Proof. by apply chars_loop_concat. Qed.

(** The bytes of one well-formed character, whatever follows. *)
Definition is_char (c : bytes) : Prop := forall r, utf8_next (c ++ r) = Valid (length c).

Lemma is_char_take s n : utf8_next s = Valid n -> is_char (take n s) /\ length (take n s) = n.
Proof.
  destruct s as [|a s]; [done|]. unfold is_char, utf8_next at 1.
  assert (forall (l : bytes) x, l = x :: tail l -> l = x :: tail l) as _ by done.
  destruct (Z.ltb_spec a 128) as [H1|H1].
  { intros [= <-]. split; [|done]. intros r. cbn. by rewrite (proj2 (Z.ltb_lt _ _)). }
  destruct (between 194 223 a) eqn:E2.
  { destruct s as [|b s]; [done|]. unfold cont at 1. cbn [lookup list_lookup]. destruct (between 128 191 b) eqn:Eb; [|done].
    intros [= <-]. split; [|done]. intros r. cbn [take app length utf8_next]. rewrite (proj2 (Z.ltb_ge _ _)), E2 by done.
    unfold cont. cbn [lookup list_lookup]. by rewrite Eb. }
  destruct (between 224 239 a) eqn:E3.
  { destruct s as [|b [|c s]].
    - unfold second. cbn. by repeat case_match.
    - unfold cont. cbn [lookup list_lookup]. by repeat case_match.
    - unfold second at 1 2 3, cont at 1. cbn [lookup list_lookup].
      destruct (if (a =? 224)%Z then _ else _) eqn:Es; [|done]. destruct (between 128 191 c) eqn:Ec; [|done].
      intros [= <-]. split; [|done]. intros r. cbn [take app length utf8_next].
      rewrite (proj2 (Z.ltb_ge _ _)), E2, E3 by done. unfold second, cont. cbn [lookup list_lookup]. by rewrite Es, Ec. }
  destruct (between 240 244 a) eqn:E4; [|done].
  destruct s as [|b [|c [|d s]]].
  - unfold second. cbn. by repeat case_match.
  - unfold cont. cbn [lookup list_lookup]. by repeat case_match.
  - unfold cont. cbn [lookup list_lookup]. by repeat case_match.
  - unfold second at 1 2 3, cont at 1 2. cbn [lookup list_lookup].
    destruct (if (a =? 240)%Z then _ else _) eqn:Es; [|done]. destruct (between 128 191 c) eqn:Ec; [|done].
    destruct (between 128 191 d) eqn:Ed; [|done].
    intros [= <-]. split; [|done]. intros r. cbn [take app length utf8_next].
    rewrite (proj2 (Z.ltb_ge _ _)), E2, E3, E4 by done. unfold second, cont. cbn [lookup list_lookup]. by rewrite Es, Ec, Ed.
Qed.

Lemma chars_loop_chars fuel s : valid_loop fuel s = true -> Forall is_char (chars_loop fuel s).
Proof.
  revert s. induction fuel as [|fuel IH]; intros [|c s]; cbn [valid_loop chars_loop]; try by constructor.
  destruct (utf8_next (c :: s)) as [n|n] eqn:E; [|done]. intros Hv. constructor; [by apply is_char_take|by apply IH].
Qed.

(** The characters of a run of characters are those. *)
Lemma chars_loop_of fuel cs :
  Forall is_char cs -> Forall (fun c => c <> []) cs -> length (concat cs) <= fuel -> chars_loop fuel (concat cs) = cs.
Proof.
  intros Hc. revert fuel. induction Hc as [|c cs Hc _ IH]; intros fuel Hne Hl; [by destruct fuel|].
  apply Forall_cons in Hne as [Hn Hne]. cbn [concat] in *. rewrite length_app in Hl.
  destruct c as [|x c]; [done|]. destruct fuel as [|fuel]; [cbn in Hl; lia|].
  change ((x :: c) ++ concat cs) with (x :: (c ++ concat cs)). cbn [chars_loop].
  change (x :: c ++ concat cs) with ((x :: c) ++ concat cs). rewrite (Hc (concat cs)).
  rewrite take_app_length, drop_app_length, IH; [done|done|]. cbn [length] in Hl. lia.
Qed.

Lemma chars_of cs : Forall is_char cs -> Forall (fun c => c <> []) cs -> chars (concat cs) = cs.
Proof. intros H1 H2. by apply chars_loop_of. Qed.

(** ** Words *)

Section words.
Context (sep : bytes -> bool).

(** The words of a run of characters, and where they stand in the text. *)
Lemma surface_words text fin cs :
  Forall (fun c => c <> []) cs -> fin = length text ->
  (forall pre, text = pre ++ concat cs ->
     Forall2 (fun sp w => slice text sp.1 sp.2 = Some w) (surface_loop sep fin cs (length pre) None)
       (filter (fun t => t <> []) (split_loop sep cs []))) /\
  (forall pre cur, text = pre ++ cur ++ concat cs -> cur <> [] ->
     Forall2 (fun sp w => slice text sp.1 sp.2 = Some w)
       (surface_loop sep fin cs (length pre + length cur) (Some (length pre)))
       (filter (fun t => t <> []) (split_loop sep cs cur))).
Proof.
  intros Hne ->. induction Hne as [|c cs Hc _ [IH1 IH2]]; cbn [surface_loop split_loop concat].
  - split; [intros; constructor|]. intros pre cur E Hcur. rewrite filter_cons_True by done. constructor; [|constructor].
    cbn. rewrite app_nil_r in E. rewrite E, slice_some by (rewrite length_app; lia).
    rewrite drop_app_length, take_ge by (rewrite length_app; lia). done.
  - split.
    + intros pre E. destruct (sep c).
      * rewrite filter_cons_False by (by intros []). rewrite <- length_app. apply IH1. by rewrite <- app_assoc.
      * apply (IH2 pre ([] ++ c)); [done|done].
    + intros pre cur E Hcur. destruct (sep c).
      * rewrite filter_cons_True by done. constructor.
        -- cbn. rewrite E, slice_some by (rewrite !length_app; lia). rewrite drop_app_length, take_app_le by lia.
           rewrite take_ge by lia. done.
        -- rewrite <- !length_app. apply (IH1 ((pre ++ cur) ++ c)). by rewrite <- !app_assoc.
      * rewrite <- Nat.add_assoc, <- length_app. apply IH2; [by rewrite <- app_assoc|by intros [_ ?]%app_eq_nil].
Qed.

(** Tokens stand one after the other inside the text. *)
Lemma surface_order fin cs i start :
  Forall (fun c => c <> []) cs -> i + length (concat cs) = fin ->
  match start with Some s => s < i | None => True end ->
  let spans := surface_loop sep fin cs i start in
  StronglySorted (fun a b : nat * nat => a.2 < b.1) spans /\
  Forall (fun sp => default i start <= sp.1 /\ sp.1 < sp.2 <= fin) spans.
Proof.
  intros Hne. revert i start. induction Hne as [|c cs Hc _ IH]; intros i start Hi Hs; cbn [surface_loop concat] in *.
  - destruct start as [s|]; cbn; split; repeat constructor; cbn in *; lia.
  - assert (1 <= length c) by (destruct c; [done|cbn; lia]). rewrite length_app in Hi. destruct (sep c), start as [s|].
    + destruct (IH (i + length c) None) as [H1 H2]; [lia|done|]. cbn in *. split.
      * constructor; [done|]. eapply Forall_impl; [exact H2|]. cbn. lia.
      * constructor; [cbn; lia|]. eapply Forall_impl; [exact H2|]. cbn. lia.
    + destruct (IH (i + length c) None) as [H1 H2]; [lia|done|]. split; [done|].
      eapply Forall_impl; [exact H2|]. cbn. lia.
    + destruct (IH (i + length c) (Some s)) as [H1 H2]; [lia|lia|]. split; [done|]. done.
    + destruct (IH (i + length c) (Some i)) as [H1 H2]; [lia|lia|]. split; [done|]. done.
Qed.

(** Each word of a split is a run of characters none of which separates. *)
Lemma split_loop_words cs cur cur_cs :
  cur = concat cur_cs -> Forall (fun c => sep c = false) cur_cs ->
  Forall (fun w => exists wcs, w = concat wcs /\ wcs `sublist_of` (cur_cs ++ cs) /\ Forall (fun c => sep c = false) wcs)
    (split_loop sep cs cur).
Proof.
  revert cur cur_cs. induction cs as [|c cs IH]; intros cur cur_cs -> Hc; cbn [split_loop].
  - constructor; [|constructor]. exists cur_cs. rewrite app_nil_r. done.
  - destruct (sep c) eqn:E.
    + constructor.
      * exists cur_cs. split; [done|]. split; [|done]. by apply sublist_inserts_r.
      * eapply Forall_impl; [apply (IH [] [] eq_refl); constructor|]. cbn. intros w (wcs & -> & Hs & Hf).
        exists wcs. split; [done|]. split; [|done]. etransitivity; [exact Hs|]. by apply sublist_inserts_l, sublist_cons.
    + eapply Forall_impl; [apply (IH (concat cur_cs ++ c) (cur_cs ++ [c]))|].
      * rewrite concat_app. cbn. by rewrite app_nil_r.
      * apply Forall_app. by repeat constructor.
      * cbn. intros w (wcs & -> & Hs & Hf). exists wcs. split; [done|]. split; [|done]. by rewrite <- app_assoc in Hs.
Qed.

Lemma split_loop_word cs cur :
  Forall (fun c => sep c = false) cs -> split_loop sep cs cur = [cur ++ concat cs].
Proof.
  intros Hf. revert cur. induction Hf as [|c cs Hc _ IH]; intros cur; cbn [split_loop concat]; [by rewrite app_nil_r|].
  by rewrite Hc, IH, app_assoc.
Qed.

(** A word of a well-formed text is its own only word. *)
Lemma split_words_word text w : valid_utf8 text = true -> w ∈ split_words sep text -> split_words sep w = [w].
Proof.
  intros Hv Hw. unfold split_words in Hw. apply list_elem_of_filter in Hw as [Hne Hw].
  pose proof (split_loop_words (chars text) [] [] eq_refl ltac:(constructor)) as Hf. rewrite Forall_forall in Hf.
  destruct (Hf w Hw) as (wcs & -> & Hs & Hsep). cbn [app] in Hs.
  pose proof (chars_loop_chars _ _ Hv : Forall is_char (chars text)) as Hc. pose proof (chars_nonempty text) as Hn.
  assert (forall P : bytes -> Prop, Forall P (chars text) -> Forall P wcs) as Hsub.
  { intros P HP. rewrite Forall_forall in *. intros x Hx. apply HP. by eapply sublist_subseteq. }
  unfold split_words. rewrite chars_of, split_loop_word by auto. cbn [app]. by rewrite filter_cons_True, filter_nil by done.
Qed.
End words.

(** ** The pipeline *)

Section pipeline.
Context `{Unicode}.

Definition refined (a : Analyzer) (t : bytes) : list bytes := default [] (refine a t).

Lemma refine_total a t : refine a t = Some (refined a t).
Proof.
  unfold refined, refine. destruct (_ && _); [done|]. destruct (stem a); [|done].
  destruct (porter_stem_total (if lowercase a then u_lowercase t else t)) as (r & -> & _). done.
Qed.

Definition analyzed (a : Analyzer) (text : bytes) : list bytes := concat (map (refined a) (raw_tokens (tokenizer a) text)).

Lemma analyze_total a text : analyze a text = Some (analyzed a text).
Proof. unfold analyze. rewrite (mapM_some _ (refined a)); [done|]. intros t _. apply refine_total. Qed.

(** Words that split the same way. *)
Lemma raw_tokens_words tk text :
  valid_utf8 text = true ->
  raw_tokens tk text = concat (map (raw_tokens tk) (split_words (separator tk) text)).
Proof.
  intros Hv. assert (forall sep, split_words sep text = concat (map (split_words sep) (split_words sep text))) as Hsplit.
  { intros sep. assert (forall l, (forall w, w ∈ l -> split_words sep w = [w]) -> l = concat (map (split_words sep) l)) as Hl.
    { induction l as [|w l IH]; intros Hl; [done|]. cbn. rewrite Hl by by left. cbn. f_equal. apply IH. intros x Hx.
      apply Hl. by right. }
    apply Hl. intros w. by apply split_words_word. }
  destruct tk as [| |min max]; cbn [raw_tokens separator]; [apply Hsplit|apply Hsplit|].
  set (f := edge_prefixes _ _). rewrite (Hsplit not_word) at 1.
  generalize (split_words not_word text). induction l as [|w l IH]; [done|]. cbn. by rewrite map_app, concat_app, IH.
Qed.

Lemma analyzed_words a text :
  valid_utf8 text = true ->
  analyzed a text = concat (map (analyzed a) (split_words (separator (tokenizer a)) text)).
Proof.
  intros Hv. unfold analyzed. rewrite (raw_tokens_words _ text Hv).
  generalize (split_words (separator (tokenizer a)) text). induction l as [|w l IH]; [done|].
  cbn. by rewrite map_app, concat_app, IH.
Qed.

Lemma surface_tokens_words text tk :
  Forall2 (fun sp w => slice text sp.1 sp.2 = Some w) (surface_tokens text tk) (split_words (separator tk) text).
Proof.
  destruct (surface_words (separator tk) text (length text) (chars text) (chars_nonempty text) eq_refl) as [Hs _].
  apply (Hs []). by rewrite chars_concat.
Qed.

Lemma refined_nonempty a t f : f ∈ refined a t -> f <> [].
Proof.
  unfold refined, refine. destruct (_ && _); [by intros Hf%elem_of_nil|].
  destruct (if stem a then _ else _) as [r|]; cbn; [|by intros Hf%elem_of_nil].
  destruct (bool_decide (r = [])) eqn:E; [by intros Hf%elem_of_nil|]. apply bool_decide_eq_false in E.
  by intros ->%list_elem_of_singleton.
Qed.

Lemma analyzed_nonempty a text f : f ∈ analyzed a text -> f <> [].
Proof.
  unfold analyzed. intros (l & Hf & (t & -> & _)%list_elem_of_fmap)%elem_of_concat. by apply refined_nonempty in Hf.
Qed.

(** The span of a word whose forms are wanted. *)
Definition wanted_span (a : Analyzer) (wanted : list bytes) (w : bytes) : bool :=
  existsb (fun f => bool_decide (f ∈ wanted)) (analyzed a w).

Lemma wanted_span_iff a wanted w : wanted_span a wanted w = true <-> exists f, f ∈ analyzed a w /\ f ∈ wanted.
Proof.
  unfold wanted_span. rewrite existsb_exists. split.
  - intros (f & Hf%list_elem_of_In & Hw%bool_decide_eq_true). eauto.
  - intros (f & Hf & Hw). exists f. split; [by apply list_elem_of_In|by apply bool_decide_eq_true].
Qed.

Lemma highlight_span_some a text wanted sp w :
  slice text sp.1 sp.2 = Some w ->
  highlight_span a text wanted sp = Some (if wanted_span a wanted w then [sp] else []).
Proof. intros Hsl. unfold highlight_span. rewrite Hsl. cbn [mbind option_bind]. by rewrite analyze_total. Qed.

Lemma highlight_spans a text wanted spans ws :
  Forall2 (fun sp w => slice text sp.1 sp.2 = Some w) spans ws ->
  exists out, mapM (highlight_span a text wanted) spans = Some out /\
    (forall sp, sp ∈ concat out <-> exists i w, spans !! i = Some sp /\ ws !! i = Some w /\ wanted_span a wanted w = true) /\
    concat out `sublist_of` spans.
Proof.
  intros H2. induction H2 as [|sp w spans ws Hsl H2 (out & E & Hin & Hsub)]; cbn [mapM].
  - exists []. split; [done|]. split; [|constructor]. intros sp. cbn. split; [by intros Hf%elem_of_nil|].
    by intros (i & w & Hi & _).
  - rewrite (highlight_span_some a text wanted sp w Hsl). cbn [mbind option_bind]. rewrite E. cbn [mbind option_bind mret option_ret]. eexists. split; [done|]. cbn [concat]. split.
    + intros sp'. rewrite elem_of_app, Hin. split.
      * intros [Hs|(i & w' & ? & ? & ?)]; [|by exists (S i), w'].
        destruct (wanted_span a wanted w) eqn:Ew; [|by apply elem_of_nil in Hs].
        apply list_elem_of_singleton in Hs as ->. by exists 0, w.
      * intros ([|i] & w' & Hi & Hw & Hwd); cbn in Hi, Hw; [|right; eauto].
        injection Hi as ->. injection Hw as ->. rewrite Hwd. left. by left.
    + destruct (wanted_span a wanted w); cbn [app]; [by constructor|by apply sublist_cons].
Qed.
End pipeline.

(** ** Properties *)

Section Properties.
Context `{Unicode}.

(** the stemmer is total and only ever shortens. Every token has a stem,
    computed without an index out of range; the stem is no longer than the
    token, empty only for the empty token, and lowercase ASCII letters when it
    is not the token itself. *)
Theorem porter_stem_safe (t : bytes) :
  exists r, porter_stem t = Some r /\ length r <= length t /\ (t <> [] -> r <> []) /\
    (r = t \/ lower_word t /\ lower_word r).
Proof. apply porter_stem_total. Qed.

(** the default analyzer is [content_tokens]: words, lowercased, without
    stopwords. *)
Theorem default_analyzer_is_content_tokens `{!UnicodeLaws} (text : bytes) :
  analyze default_analyzer text = Some (content_tokens text).
Proof.
  rewrite analyze_total. f_equal. unfold analyzed, content_tokens, tokenize. cbn [tokenizer default_analyzer raw_tokens].
  assert (Forall (fun t => t <> []) (split_words not_word text)) as Hne.
  { apply Forall_forall. intros t Ht. by apply list_elem_of_filter in Ht as [? _]. }
  induction Hne as [|t l Ht _ IH]; [done|]. cbn [map concat]. rewrite IH. unfold refined, refine. cbn [lowercase stopwords stem default_analyzer andb].
  destruct (is_stopword (u_lowercase t)) eqn:E.
  - rewrite filter_cons_False by congruence. done.
  - rewrite filter_cons_True by done. cbn [mbind option_bind default]. rewrite bool_decide_false; [done|]. by apply u_lower_nonempty.
Qed.

(** The highlighter never panics. *)
Lemma highlight_total (a : Analyzer) (text query : bytes) : is_Some (highlight a text query).
Proof.
  unfold highlight. rewrite analyze_total. cbn [mbind option_bind]. case_bool_decide; [by eexists|].
  destruct (highlight_spans a text (analyzed a query) _ _ (surface_tokens_words text (tokenizer a))) as (out & -> & _). by eexists.
Qed.

(** highlighting marks the tokens the query matches. On a well-formed text
    the spans lie in the text, in document order without overlap; each cuts
    out a token with an analyzed form that is also one of the query's; every
    such token is marked; and nothing is marked exactly when text and query
    share no analyzed form. *)
Theorem highlight_marks_matches (a : Analyzer) (text query : bytes) :
  valid_utf8 text = true ->
  exists spans, highlight a text query = Some spans /\
    StronglySorted (fun x y : nat * nat => x.2 < y.1) spans /\
    Forall (fun sp => sp.1 < sp.2 <= length text) spans /\
    (forall sp, sp ∈ spans <-> sp ∈ surface_tokens text (tokenizer a) /\
       exists w f, slice text sp.1 sp.2 = Some w /\ f ∈ analyzed a w /\ f ∈ analyzed a query) /\
    (spans = [] <-> forall f, f ∈ analyzed a text -> f ∉ analyzed a query).
Proof.
  intros Hv. set (tk := tokenizer a). set (q := analyzed a query).
  pose proof (surface_tokens_words text tk) as H2.
  destruct (surface_order (separator tk) (length text) (chars text) 0 None (chars_nonempty text)) as [Hord Hin];
    [by rewrite chars_concat|done|]. fold (surface_tokens text tk) in Hord, Hin.
  assert (exists spans, highlight a text query = Some spans /\ spans `sublist_of` surface_tokens text tk /\
    forall sp, sp ∈ spans <-> exists i w, surface_tokens text tk !! i = Some sp /\ split_words (separator tk) text !! i = Some w /\ wanted_span a q w = true)
    as (spans & E & Hsub & Hspans).
  { unfold highlight. rewrite analyze_total. cbn [mbind option_bind]. fold q tk. destruct (bool_decide (q = [])) eqn:Eq.
    - apply bool_decide_eq_true in Eq. exists []. split; [done|]. split; [apply sublist_nil_l|]. intros sp. split; [by intros Hf%elem_of_nil|].
      intros (i & w & _ & _ & (f & _ & Hf)%wanted_span_iff). rewrite Eq in Hf. by apply elem_of_nil in Hf.
    - destruct (highlight_spans a text q _ _ H2) as (out & -> & Ho & Hs). exists (concat out). done. }
  exists spans. split; [done|]. split_and!.
  - clear -Hord Hsub. induction Hsub as [|x l k Hs IH|x l k Hs IH]; [constructor|..]; inversion Hord as [|? ? Hk Hx]; subst.
    + constructor; [by apply IH|]. rewrite Forall_forall in *. intros y Hy. apply Hx. by eapply sublist_subseteq.
    + by apply IH.
  - rewrite Forall_forall in *. intros sp Hsp. destruct (Hin sp) as [_ ?]; [by eapply sublist_subseteq|done].
  - intros sp. rewrite Hspans. split.
    + intros (i & w & Hi & Hw & (f & Hf1 & Hf2)%wanted_span_iff). split; [by eapply list_elem_of_lookup_2|].
      exists w, f. split; [|done]. by apply (Forall2_lookup_lr _ _ _ _ _ _ H2 Hi Hw).
    + intros [[i Hi]%list_elem_of_lookup (w & f & Hsl & Hf)]. destruct (Forall2_lookup_l _ _ _ _ _ H2 Hi) as (w' & Hw' & Hsl').
      assert (w = w') as -> by congruence. exists i, w'. split; [done|]. split; [done|]. apply wanted_span_iff. eauto.
  - rewrite (analyzed_words a text Hv). fold tk. split.
    + intros -> f (l & Hf & (w & -> & Hw)%list_elem_of_fmap)%elem_of_concat Hq. apply list_elem_of_lookup in Hw as [i Hw].
      destruct (Forall2_lookup_r _ _ _ _ _ H2 Hw) as (sp & Hi & _). apply (not_elem_of_nil sp), Hspans. exists i, w.
      split; [done|]. split; [done|]. apply wanted_span_iff. eauto.
    + intros Hno. destruct spans as [|sp spans]; [done|]. destruct (proj1 (Hspans sp)) as (i & w & Hi & Hw & (f & Hf1 & Hf2)%wanted_span_iff);
        [by left|]. destruct (Hno f); [|done]. apply elem_of_concat. exists (analyzed a w). split; [done|].
      apply list_elem_of_fmap. exists w. split; [done|]. by eapply list_elem_of_lookup_2.
Qed.
End Properties.

(** ** Concrete texts *)

#[local] Existing Instance ascii_unicode.

#[local] Instance ascii_unicode_laws : UnicodeLaws.
Proof.
  split.
  - intros [|c s]; [done|]. by cbn.
  - intros s Hs. cbn. induction Hs as [|c s Hc _ IH]; [done|]. cbn. rewrite IH. f_equal.
    unfold to_ascii_lowercase, is_ascii_uppercase, is_ascii_lowercase in *.
    rewrite !andb_true_iff, !Z.leb_le in Hc. destruct (_ && _) eqn:E; [|done]. rewrite andb_true_iff, !Z.leb_le in E. lia.
Qed.

Example highlight_sample :
  highlight stemming (str "The quick foxes, running; a FOX ran.") (str "fox run") = Some [(10, 15); (17, 24); (28, 31)].
Proof. vm_compute. reflexivity. Qed.

Lemma default_analyzer_is_content_tokens_witness :
  analyze default_analyzer (str "Tell me about the Graph") = Some [str "graph"].
Proof. rewrite (default_analyzer_is_content_tokens (str "Tell me about the Graph")). reflexivity. Defined.

Lemma highlight_marks_matches_witness :
  exists spans, highlight stemming (str "foxes ran") (str "fox") = Some spans /\ Forall (fun sp => sp.1 < sp.2 <= 9) spans.
Proof.
  destruct (highlight_marks_matches stemming (str "foxes ran") (str "fox") eq_refl) as (spans & E & _ & Hf & _).
  exists spans. split; [exact E|exact Hf].
Defined.

(** A token shorter than the shortest prefix leaves nothing. *)
Theorem prefix_drops_short_tokens :
  analyze (autocomplete 3 5) (str "db connectome") = Some [str "con"; str "conn"; str "conne"; str "connectome"].
Proof. vm_compute. reflexivity. Qed.
