(* ===== verification/Model.v ===== *)
(** * The records an estate stores (crates/connxism/src/model.rs,
    crates/rro-core/src/types.rs, and the field types of estate.rs) *)
From S2P Require Import Prelude Floats ByteOrder Json RroTime Query.
#[local] Set Default Goal Selector "!".
Local Open Scope Z_scope.

(** [SparseVector::new]: sorted and de-duplicated by index, the last weight
    winning. [sparse_iter] is [iter], which stops at the shorter array. *)
Fixpoint sparse_insert (i : Z) (w : f32) (m : list (Z * f32)) : list (Z * f32) :=
  match m with
  | [] => [(i, w)]
  | (j, v) :: m' =>
      if i <? j then (i, w) :: m
      else if i =? j then (i, w) :: m'
      else (j, v) :: sparse_insert i w m'
  end.
Definition sparse_new (pairs : list (Z * f32)) : SparseVector :=
  let m := fold_left (fun m '(i, w) => sparse_insert i w m) pairs [] in
  mkSparse m.*1 m.*2.
Definition sparse_iter (s : SparseVector) : list (Z * f32) := zip (sp_indices s) (sp_values s).

(** [Shape]: field name to JSON type name, in key order. *)
Definition Shape : Type := list (bytes * bytes).

Section model.
Context `{SerdeNumber}.

Record VectorRecord : Type := mkVectorRecord {
  vr_id : bytes;
  vr_embedding : list f32;
  vr_text : bytes;
  vr_metadata : Metadata;
  vr_sparse : option SparseVector;
  vr_named : gmap bytes (list f32);
  vr_multi : list (list f32);
  vr_collection : option bytes;
}.

Definition json_type (v : Json) : bytes :=
  match v with
  | JNull => str "null"
  | JBool _ => str "bool"
  | JNum _ => str "number"
  | JStr _ => str "string"
  | JArr _ => str "array"
  | JObj _ => str "object"
  end.

(** [Shape::of] *)
Definition shape_of (metadata : Metadata) : Shape :=
  map (fun '(k, v) => (k, json_type v)) (btree_iter metadata).

Record StoredDoc : Type := mkStoredDoc {
  sd_id : bytes;
  sd_text : bytes;
  sd_metadata : Metadata;
  sd_tags : list bytes;
  sd_shape : Shape;
  sd_token_len : Z;
  sd_connector_id : option bytes;
  sd_sparse_dims : list Z;
  sd_named_spaces : list bytes;
  sd_multi_len : Z;
  sd_collection : option bytes;
}.
End model.

(** [Vec<String>::join(",")] *)
Fixpoint join (sep : bytes) (l : list bytes) : bytes :=
  match l with
  | [] => []
  | [x] => x
  | x :: l => x ++ sep ++ join sep l
  end.

(** [Shape::key] *)
Definition shape_key (s : Shape) : bytes :=
  join (str ",") (map (fun '(k, t) => k ++ str ":" ++ t) s).

Inductive ChangeOp : Type := Upsert | Remove.
#[export] Instance ChangeOp_eq_dec : EqDecision ChangeOp.
Proof. solve_decision. Defined.

Record Change : Type := mkChange {
  ch_seq : Z;
  ch_op : ChangeOp;
  ch_doc_id : bytes;
  ch_at : Z;
}.

(** The analyzer an estate is created with is the parameter of [Store]. *)
Record EstateInfo : Type := mkEstateInfo {
  ei_id : bytes;
  ei_name : bytes;
  ei_created_at : Z;
  ei_dim : option Z;
  ei_named_dims : gmap bytes Z;
}.

(** ** Nodes, warp points and connectors *)

Inductive Transport : Type := Local | Tcp | Mcp.

Record WarpPoint : Type := mkWarpPoint { transport : Transport; address : bytes; capabilities : list bytes }.

Record NodeInfo : Type := mkNodeInfo {
  ni_id : bytes;
  ni_name : bytes;
  warp_points : list WarpPoint;
  last_seen : Z;
}.

Inductive ConnectorKind : Type := Mail | Drive | Docs | Location | Application | Database | Custom.

Inductive SyncStatus : Type := Registered | Syncing | Idle | SyncError (detail : bytes).

Record SyncState : Type := mkSyncState {
  sync_cursor : option bytes;
  docs_synced : Z;
  last_sync : option Z;
  status : SyncStatus;
}.
Definition sync_state_default : SyncState := mkSyncState None 0 None Registered.

Record ConnectorInfo : Type := mkConnectorInfo {
  ci_id : bytes;
  ci_name : bytes;
  kind : ConnectorKind;
  provider : bytes;
  uri : bytes;
  sync : SyncState;
  registered_at : Z;
}.

(** ** Declared field types (estate.rs) *)

Definition field_type_of (ty : bytes) : option bytes :=
  if bool_decide (ty ∈ [str "string"; str "int"; str "float"; str "bool"; str "datetime"; str "uuid"])
  then Some ty else None.

(** [value_matches_type] *)
Definition value_matches_type `{SerdeNumber} (v : Json) (ty : bytes) : bool :=
  if bool_decide (ty = str "string") then match v with JStr _ => true | _ => false end
  else if bool_decide (ty = str "int") then match v with JNum n => num_is_int n | _ => false end
  else if bool_decide (ty = str "float") then match v with JNum _ => true | _ => false end
  else if bool_decide (ty = str "bool") then match v with JBool _ => true | _ => false end
  else if bool_decide (ty = str "datetime") then
    bool_decide (is_Some (json_as_str v ≫= rfc3339_to_epoch_ms))
  else if bool_decide (ty = str "uuid") then
    bool_decide (is_Some (json_as_str v ≫= parse_uuid_bytes))
  else false.
