(* ===== verification/Kv.v ===== *)
(** * The key-value seam (crates/connxism/src/kv/fjall.rs)

    A database is one ordered map per column family. A row that the code
    writes as raw bytes is [RBytes]; a row it writes as JSON holds the value
    (serde's encoding is third-party code). The storage engine's own promise,
    that a batch lands as one, its operations in order, is what [apply_op]
    states; opening, tuning and compaction of Fjall are not modelled. *)
From S2P Require Import Prelude Floats ByteOrder Utf8 Json Query Keys Model.
#[local] Set Default Goal Selector "!".
#[local] Set Warnings "-clear-no-such-hyp".
Local Open Scope Z_scope.

Section kv.
Context `{SerdeNumber}.

Inductive Row : Type :=
  | RBytes (b : bytes)
  | RDoc (d : StoredDoc)
  | RChange (c : Change)
  | RInfo (i : EstateInfo)
  | RShapes (m : gmap bytes Z)
  | RNames (l : list bytes)
  | RAliases (m : gmap bytes bytes)
  | RSchema (m : gmap bytes (gmap bytes bytes))
  | RNode (n : NodeInfo)
  | RConn (c : ConnectorInfo).

Definition Db : Type := CF -> gmap bytes Row.

Definition upd_cf (db : Db) (cf : CF) (f : gmap bytes Row -> gmap bytes Row) : Db :=
  fun c => if decide (c = cf) then f (db c) else db c.

(** [Db::put_cf], [Db::get_cf] *)
Definition put_cf (db : Db) (cf : CF) (k : bytes) (v : Row) : Db := upd_cf db cf (insert k v).
Definition get_cf (db : Db) (cf : CF) (k : bytes) : option Row := db cf !! k.
Definition delete_cf (db : Db) (cf : CF) (k : bytes) : Db := upd_cf db cf (delete k).

(** [Db::iter_from], [Db::iter_all]: ascending keys. *)
Definition iter_all (db : Db) (cf : CF) : list (bytes * Row) := btree_iter (db cf).
Definition iter_from (db : Db) (cf : CF) (start : bytes) : list (bytes * Row) :=
  filter (fun p => ble start p.1) (iter_all db cf).

(** [for item in iter { if !p(item) break; ... }] *)
Fixpoint take_rows (p : bytes -> bool) (l : list (bytes * Row)) : list (bytes * Row) :=
  match l with
  | (k, v) :: l => if p k then (k, v) :: take_rows p l else []
  | [] => []
  end.
Definition starts_with (p k : bytes) : bool := bool_decide (p `prefix_of` k).
Definition scan_prefix (db : Db) (cf : CF) (p : bytes) : list (bytes * Row) :=
  take_rows (starts_with p) (iter_from db cf p).

(** ** Counters *)

Definition u64_le (x : Z) : Row := RBytes (le_bytes 8 x).
Definition i64_le (x : Z) : Row := RBytes (le_bytes 8 (x mod two64)).

(** [read_i64]: the first eight bytes, padded with zeros. *)
Definition read_i64 (r : Row) : Z :=
  match r with
  | RBytes b =>
      let u := from_le_bytes (take 8 b) in
      if u <? 2 ^ 63 then u else u - two64
  | _ => 0
  end.

(** ** Batches *)

Inductive Op : Type :=
  | OpPut (cf : CF) (k : bytes) (v : Row)
  | OpDelete (cf : CF) (k : bytes)
  | OpMergeDf (cf : CF) (k : bytes) (delta : Z).
Definition Batch : Type := list Op.

Definition apply_op (db : Db) (op : Op) : Db :=
  match op with
  | OpPut cf k v => put_cf db cf k v
  | OpDelete cf k => delete_cf db cf k
  | OpMergeDf _ _ _ => db
  end.

(** The accumulator of the deltas of one column family. *)
Definition merge_acc (cf : CF) (acc : gmap bytes Z) (op : Op) : gmap bytes Z :=
  match op with
  | OpMergeDf c k delta =>
      if decide (c = cf) then <[k := default 0 (acc !! k) + delta]> acc else acc
  | _ => acc
  end.
Definition df_deltas (cf : CF) (batch : Batch) : gmap bytes Z := fold_left (merge_acc cf) batch ∅.

(** [Db::write]: puts and deletes in order, then one read-modify-write per
    merged counter, read against the committed store. *)
Definition db_write (db : Db) (batch : Batch) : Db :=
  let applied := fold_left apply_op batch db in
  fun cf =>
    map_imap (fun k delta => Some (i64_le (default 0 (read_i64 <$> get_cf db cf k) + delta)))
      (df_deltas cf batch) ∪ applied cf.
End kv.
#[global] Arguments Row {_}.
#[global] Arguments Db {_}.
#[global] Arguments Op {_}.
#[global] Arguments Batch {_}.

(** ** Scans *)

Section scans.
Context `{SerdeNumber}.

Lemma take_rows_filter p l :
  StronglySorted key_lt l ->
  (forall q q', q ∈ l -> q' ∈ l -> key_lt q q' -> p q'.1 = true -> p q.1 = true) ->
  take_rows p l = filter (fun q => p q.1 = true) l.
Proof.
  intros Hs. induction Hs as [|[k v] l _ IH Hk]; intros Hp; [done|]. cbn [take_rows].
  rewrite Forall_forall in Hk. rewrite filter_cons. destruct (p k) eqn:E.
  - rewrite decide_True by done. f_equal. apply IH. intros q q' Hq Hq'.
    apply Hp; by right.
  - rewrite decide_False by (cbn; congruence). symmetry.
    assert (forall q, q ∈ l -> p q.1 <> true) as Hno.
    { intros q Hq Hpq. enough (p k = true) by congruence.
      apply (Hp (k, v) q); [by left|by right|by apply Hk|done]. }
    clear -Hno. induction l as [|q l IH]; [done|]. rewrite filter_cons, decide_False.
    + apply IH. intros q' Hq'. apply Hno. by right.
    + apply Hno. by left.
Qed.

Lemma sorted_filter {A} (P : bytes * A -> Prop) `{!forall x, Decision (P x)} l :
  StronglySorted key_lt l -> StronglySorted key_lt (filter P l).
Proof.
  induction 1 as [|x l Hs IH Hx]; [constructor|]. rewrite filter_cons. case_decide; [|done].
  constructor; [done|]. apply Forall_forall. intros y [_ Hy]%list_elem_of_filter.
  rewrite Forall_forall in Hx. by apply Hx.
Qed.

Lemma iter_from_sorted db cf start : StronglySorted key_lt (iter_from db cf start).
Proof. apply sorted_filter, btree_iter_sorted. Qed.

Lemma elem_of_iter_from db cf start k v :
  (k, v) ∈ iter_from db cf start <-> db cf !! k = Some v /\ ble start k.
Proof. unfold iter_from, iter_all. rewrite list_elem_of_filter, elem_of_btree_iter. cbn. tauto. Qed.

(** Where a scan stops: rows with the prefix are contiguous. *)
Lemma elem_of_scan_prefix db cf p k v :
  (k, v) ∈ scan_prefix db cf p <-> db cf !! k = Some v /\ p `prefix_of` k.
Proof.
  unfold scan_prefix. rewrite take_rows_filter.
  - rewrite list_elem_of_filter, elem_of_iter_from. unfold starts_with. cbn.
    rewrite bool_decide_eq_true. split; [tauto|]. intros [Hl Hp]. split; [done|]. split; [done|].
    destruct Hp as [x ->]. apply ble_prefix.
  - apply iter_from_sorted.
  - intros [k1 v1] [k2 v2] [_ H1]%elem_of_iter_from _ Hlt. unfold starts_with. cbn in *.
    rewrite !bool_decide_eq_true. intros [x ->]. eapply prefix_convex; [done|by apply blt_ble].
Qed.

Lemma scan_prefix_sorted db cf p : StronglySorted key_lt (scan_prefix db cf p).
Proof.
  unfold scan_prefix. rewrite take_rows_filter.
  - apply sorted_filter, iter_from_sorted.
  - apply iter_from_sorted.
  - intros [k1 v1] [k2 v2] [_ H1]%elem_of_iter_from _ Hlt. unfold starts_with. cbn in *.
    rewrite !bool_decide_eq_true. intros [x ->]. eapply prefix_convex; [done|by apply blt_ble].
Qed.
End scans.

(** ** What a batch does to one row *)

Section batches.
Context `{SerdeNumber}.

Lemma lookup_put_cf db cf k v c k' :
  put_cf db cf k v c !! k' = if decide (c = cf /\ k' = k) then Some v else db c !! k'.
Proof.
  unfold put_cf, upd_cf. destruct (decide (c = cf)) as [->|Hc].
  - destruct (decide (k' = k)) as [->|Hk].
    + by rewrite lookup_insert_eq, decide_True.
    + rewrite lookup_insert_ne by done. by rewrite decide_False by tauto.
  - by rewrite decide_False by tauto.
Qed.

Lemma lookup_delete_cf db cf k c k' :
  delete_cf db cf k c !! k' = if decide (c = cf /\ k' = k) then None else db c !! k'.
Proof.
  unfold delete_cf, upd_cf. destruct (decide (c = cf)) as [->|Hc].
  - destruct (decide (k' = k)) as [->|Hk].
    + by rewrite lookup_delete_eq, decide_True.
    + rewrite lookup_delete_ne by done. by rewrite decide_False by tauto.
  - by rewrite decide_False by tauto.
Qed.

Definition no_merge (op : Op) : Prop := match op with OpMergeDf _ _ _ => False | _ => True end.

Lemma df_deltas_app cf b1 b2 :
  df_deltas cf (b1 ++ b2) = fold_left (merge_acc cf) b2 (df_deltas cf b1).
Proof. unfold df_deltas. apply fold_left_app. Qed.

Lemma merge_acc_no_merge cf b acc : Forall no_merge b -> fold_left (merge_acc cf) b acc = acc.
Proof. intros Hb. revert acc. induction Hb as [|[] b Hop _ IH]; intros acc; cbn; done. Qed.

(** The sum of the deltas merged into one counter. *)
Definition delta_of (cf : CF) (k : bytes) (op : Op) : Z :=
  match op with
  | OpMergeDf c k' d => if decide (c = cf /\ k' = k) then d else 0
  | _ => 0
  end.
Definition delta_sum (cf : CF) (k : bytes) (b : Batch) : Z :=
  fold_right Z.add 0 (map (delta_of cf k) b).

Lemma delta_sum_app cf k b1 b2 : delta_sum cf k (b1 ++ b2) = delta_sum cf k b1 + delta_sum cf k b2.
Proof. unfold delta_sum. rewrite map_app. induction (map _ b1) as [|x l IH]; cbn; [done|]. lia. Qed.

Lemma merge_acc_lookup cf k b acc :
  default 0 (fold_left (merge_acc cf) b acc !! k) = default 0 (acc !! k) + delta_sum cf k b.
Proof.
  revert acc. induction b as [|op b IH]; intros acc; cbn [fold_left]; [cbn; lia|].
  rewrite IH. unfold delta_sum. cbn [map fold_right]. destruct op as [c k' v|c k'|c k' d]; cbn; [lia|lia|].
  destruct (decide (c = cf)) as [->|Hc].
  - destruct (decide (k' = k)) as [->|Hk].
    + rewrite lookup_insert_eq, decide_True by done. cbn. lia.
    + rewrite lookup_insert_ne by done. rewrite decide_False by tauto. lia.
  - rewrite decide_False by tauto. lia.
Qed.

(** A row of a family without merges is what the puts and deletes leave. *)
Lemma db_write_plain db b cf :
  df_deltas cf b = ∅ -> db_write db b cf = fold_left apply_op b db cf.
Proof.
  intros Hd. unfold db_write. rewrite Hd.
  assert (map_imap (fun k delta => Some (i64_le (default 0 (read_i64 <$> get_cf db cf k) + delta)))
    (∅ : gmap bytes Z) = ∅) as ->.
  { apply map_empty. intros k. by rewrite map_lookup_imap, lookup_empty. }
  apply (left_id_L ∅ (∪)).
Qed.

Lemma i64_le_read x : is_i64 x -> read_i64 (i64_le x) = x.
Proof.
  intros Hx. unfold read_i64, i64_le, is_i64, two64 in *.
  rewrite take_ge by (by rewrite length_le_bytes).
  rewrite from_le_le_bytes by (change (256 ^ Z.of_nat 8) with (2 ^ 64); apply Z.mod_pos_bound; lia).
  destruct (Z_lt_le_dec x 0).
  - replace (x mod 2 ^ 64) with (x + 2 ^ 64) by (apply Z.mod_unique with (-1); lia).
    rewrite (proj2 (Z.ltb_ge _ _)) by lia. lia.
  - rewrite Z.mod_small by lia. by rewrite (proj2 (Z.ltb_lt _ _)) by lia.
Qed.

(** Puts and deletes of other families leave a family alone. *)
Definition op_cf (op : Op) : CF :=
  match op with OpPut cf _ _ | OpDelete cf _ | OpMergeDf cf _ _ => cf end.
Definition touches (cf : CF) (op : Op) : Prop := op_cf op = cf /\ no_merge op.

Lemma apply_ops_other db b cf k :
  Forall (fun op => ~ touches cf op) b -> fold_left apply_op b db cf !! k = db cf !! k.
Proof.
  intros Hb. revert db. induction Hb as [|op b Hop _ IH]; intros db; cbn [fold_left]; [done|].
  rewrite IH. unfold touches in Hop. destruct op as [c k' v|c k'|c k' d]; cbn [apply_op op_cf no_merge] in *.
  - rewrite lookup_put_cf. by rewrite decide_False by naive_solver.
  - rewrite lookup_delete_cf. by rewrite decide_False by naive_solver.
  - done.
Qed.

Lemma db_write_merged db b cf k :
  Forall (fun op => ~ touches cf op) b ->
  is_i64 (default 0 (read_i64 <$> db cf !! k) + delta_sum cf k b) ->
  default 0 (read_i64 <$> db_write db b cf !! k) =
  default 0 (read_i64 <$> db cf !! k) + delta_sum cf k b.
Proof.
  intros Hb Hr. unfold db_write, get_cf. rewrite lookup_union, map_lookup_imap.
  rewrite apply_ops_other by done.
  pose proof (merge_acc_lookup cf k b ∅) as Hm. rewrite lookup_empty in Hm. cbn in Hm.
  fold (df_deltas cf b) in Hm. destruct (df_deltas cf b !! k) as [d|]; cbn in Hm |- *.
  - rewrite union_Some_l. cbn. rewrite Hm. by apply i64_le_read.
  - rewrite (left_id_L None (∪)). lia.
Qed.
End batches.

Section Properties.

(** the read-modify-write that stands in for a merge operator is exact: a
    batch adds to a counter the sum of all the deltas it merged into it, in
    whatever order and however often they were staged, and starts from the
    committed value (zero when there is none). *)
Theorem db_write_composes_deltas `{SerdeNumber} (db : Db) (b : Batch) (term : bytes) :
  Forall (fun op => ~ touches CF_TDF op) b ->
  is_i64 (default 0 (read_i64 <$> db CF_TDF !! term) + delta_sum CF_TDF term b) ->
  default 0 (read_i64 <$> db_write db b CF_TDF !! term) =
  default 0 (read_i64 <$> db CF_TDF !! term) + delta_sum CF_TDF term b.
Proof. apply db_write_merged. Qed.

#[local] Existing Instance plain_number.

Lemma db_write_composes_deltas_witness :
  let b := [OpMergeDf CF_TDF (str "cat") 1; OpPut CF_DOCS (str "d1") (RBytes []);
            OpMergeDf CF_TDF (str "dog") (-1); OpMergeDf CF_TDF (str "cat") 1] in
  let db : @Db plain_number := put_cf (fun _ => ∅) CF_TDF (str "cat") (i64_le 5) in
  default 0 (read_i64 <$> db_write db b CF_TDF !! str "cat") = 7 /\
  default 0 (read_i64 <$> db CF_TDF !! str "cat") + delta_sum CF_TDF (str "cat") b = 7.
Proof.
  intros b db.
  assert (default 0 (read_i64 <$> db CF_TDF !! str "cat") + delta_sum CF_TDF (str "cat") b = 7) as E
    by (vm_compute; reflexivity).
  split; [|exact E]. rewrite <- E. apply (db_write_composes_deltas db b (str "cat")).
  - repeat constructor; intros [? ?]; done.
  - rewrite E. unfold is_i64. lia.
Defined.

(** A prefix scan returns exactly the rows of its column family whose key
    starts with the prefix, in strictly ascending key order: stopping at the
    first row without the prefix loses none. *)
Theorem scan_prefix_complete `{SerdeNumber} (db : Db) (cf : CF) (p : bytes) :
  StronglySorted key_lt (scan_prefix db cf p) /\
  (forall k v, (k, v) ∈ scan_prefix db cf p <-> db cf !! k = Some v /\ p `prefix_of` k).
Proof. split; [apply scan_prefix_sorted|apply elem_of_scan_prefix]. Qed.

End Properties.
