(* ===== verification/Pending.v ===== *)
(** * The out-of-band graph applier (crates/connxism/src/pending.rs)

    Writers push operations, one applier thread moves them in batches into
    the graph, searches read the graph through an overlay of what is not
    applied yet. Every operation below holds the state's lock for its whole
    body, so a run is a sequence of them; the applier's turn is three steps
    (collect, apply, finish) between which anything else may happen.

    The graph is what the applier needs of it, the interface [AnnGraph]. *)
From S2P Require Import Prelude Floats.
#[local] Set Default Goal Selector "!".
#[local] Set Warnings "-clear-no-such-hyp".

Abbreviation Id := bytes.
Abbreviation Embedding := (list f32).

(** What an ANN index promises: the live vector of each id. *)
Class AnnGraph (G : Type) := {
  g_insert : Id -> Embedding -> G -> G;
  g_remove : Id -> G -> G;
  g_get : G -> Id -> option Embedding;
}.
Class AnnGraphLaws (G : Type) `{AnnGraph G} : Prop := {
  g_get_insert id e g id' : g_get (g_insert id e g) id' = if decide (id' = id) then Some e else g_get g id';
  g_get_remove id g id' : g_get (g_remove id g) id' = if decide (id' = id) then None else g_get g id';
}.

(** The exact index: a map. *)
#[export] Instance map_graph : AnnGraph (gmap Id Embedding) := {
  g_insert id e g := <[id := e]> g;
  g_remove id g := delete id g;
  g_get g id := g !! id;
}.
#[export] Instance map_graph_laws : AnnGraphLaws (gmap Id Embedding).
Proof.
  split; intros; cbn; case_decide; subst;
    by rewrite ?lookup_insert_eq, ?lookup_delete_eq, ?lookup_insert_ne, ?lookup_delete_ne.
Qed.

Definition PENDING_CAP : Z := 200000.
Definition APPLY_BATCH : nat := 512.

Record State : Type := mkState {
  queue : list Id;
  latest : gmap Id (option Embedding);
  inflight : gmap Id (option Embedding);
  applying : bool;
  stopped : bool;
}.

Definition new : State := mkState [] ∅ ∅ false false.

Definition enqueue (id : Id) (op : option Embedding) (s : State) : State :=
  mkState (queue s ++ [id]) (<[id := op]> (latest s)) (inflight s) (applying s) (stopped s).

(** [push_upsert] waits while the queue is at its cap ([None]). *)
Definition push_upsert (id : Id) (e : Embedding) (s : State) : option State :=
  if (PENDING_CAP <=? Z.of_nat (length (queue s)))%Z && negb (stopped s) then None
  else Some (enqueue id (Some e) s).

Definition push_remove (id : Id) (s : State) : State := enqueue id None s.

(** [overlay]: [score] is the exact scoring of a pending vector. *)
Definition overlay {T} (score : Embedding -> T) (s : State) : list (Id * T) * list Id :=
  let ops := map_to_list (latest s) ++
             filter (fun p => latest s !! p.1 = None) (map_to_list (inflight s)) in
  (omap (fun '(id, op) => (fun e => (id, score e)) <$> op) ops,
   omap (fun '(id, op) => match op with None => Some id | Some _ => None end) ops).

Definition backlog (s : State) : nat := length (queue s) + (if applying s then 1 else 0).

(** The condition [quiesce] waits for. *)
Definition quiesced (s : State) : bool :=
  bool_decide (queue s = []) && negb (applying s) && bool_decide (inflight s = ∅).

(** The loop of [collect_batch]: [n] is the room left in the batch. *)
Fixpoint collect (q : list Id) (n : nat) (lat infl : gmap Id (option Embedding))
  : list Id * gmap Id (option Embedding) * gmap Id (option Embedding) * list (Id * option Embedding) :=
  match q, n with
  | [], _ | _, O => (q, lat, infl, [])
  | id :: q, S n' =>
      match lat !! id with
      | Some op =>
          let '(q, lat, infl, batch) := collect q n' (delete id lat) (<[id := op]> infl) in
          (q, lat, infl, (id, op) :: batch)
      | None => collect q n lat infl
      end
  end.

(** [collect_batch]: blocks on an empty queue and returns nothing once
    stopped ([None] in both cases). *)
Definition collect_batch (s : State) : option (State * list (Id * option Embedding)) :=
  if bool_decide (queue s = []) || stopped s then None
  else
    let '(q, lat, infl, batch) := collect (queue s) APPLY_BATCH (latest s) (inflight s) in
    Some (mkState q lat infl true (stopped s), batch).

Definition finish_batch (s : State) : State :=
  mkState (queue s) (latest s) ∅ false (stopped s).

Definition stop (s : State) : State :=
  mkState (queue s) (latest s) (inflight s) (applying s) true.

(** The body of the applier's loop between collecting and finishing. *)
Definition apply_op `{AnnGraph G} (g : G) (p : Id * option Embedding) : G :=
  match p.2 with Some e => g_insert p.1 e g | None => g_remove p.1 g end.
Definition apply_batch `{AnnGraph G} (g : G) (batch : list (Id * option Embedding)) : G :=
  fold_left apply_op batch g.

(** How a search merges the overlay into the graph's hits (the overlay block
    of [dense_blocking] in store.rs, before sorting and truncation). *)
Definition merge_overlay {T} (hits : list (Id * T)) (ups : list (Id * T)) (dels : list Id) : list (Id * T) :=
  filter (fun p => (p.1 ∉ dels) /\ (p.1 ∉ ups.*1)) hits ++ ups.

(** ** Collecting *)

(** What collecting does: the batch is what leaves [latest] for [inflight]. *)
Lemma collect_spec q n lat infl q' lat' infl' batch :
  collect q n lat infl = (q', lat', infl', batch) ->
  (forall id, is_Some (lat !! id) -> id ∈ q) ->
  (forall id, is_Some (lat' !! id) -> id ∈ q') /\
  NoDup batch.*1 /\
  (forall id, lat' !! id = if decide (id ∈ batch.*1) then None else lat !! id) /\
  (forall id op, (id, op) ∈ batch -> lat !! id = Some op) /\
  infl' = list_to_map batch ∪ infl.
Proof.
  revert n lat infl q' lat' infl' batch. induction q as [|id q IH]; intros n lat infl q' lat' infl' batch.
  - destruct n; cbn; intros [= <- <- <- <-] Hq; cbn; split_and!; try done; try constructor;
      try (by rewrite (left_id_L ∅ (∪))); intros i ? Hi%elem_of_nil; done.
  - destruct n as [|n]; cbn [collect].
    + intros [= <- <- <- <-] Hq. cbn. split_and!; try done; try constructor;
        try (by rewrite (left_id_L ∅ (∪))). intros i ? Hi%elem_of_nil. done.
    + destruct (lat !! id) as [op|] eqn:El.
      * destruct (collect q n (delete id lat) (<[id:=op]> infl)) as [[[q1 lat1] infl1] b1] eqn:E.
        intros [= <- <- <- <-] Hq.
        apply IH in E as (A & B & C & D & F).
        -- split_and!; [done| | | |].
           ++ cbn. constructor; [|done]. intros Hin. apply list_elem_of_fmap in Hin as ([i o] & -> & Hin).
              apply D in Hin. cbn in Hin. by rewrite lookup_delete_eq in Hin.
           ++ intros i. rewrite C. cbn. destruct (decide (i = id)) as [->|Hne].
              ** rewrite lookup_delete_eq. rewrite (decide_True (P := id ∈ id :: _)) by left. by case_decide.
              ** rewrite lookup_delete_ne by done. apply decide_ext. rewrite elem_of_cons. split; [by right|by intros [?|?]].
           ++ intros i o [[= -> ->]|Hin]%elem_of_cons; [done|]. apply D in Hin.
              by apply lookup_delete_Some in Hin as [_ Hin].
           ++ rewrite F. cbn. rewrite <- insert_union_l.
              assert ((list_to_map b1 : gmap Id (option Embedding)) !! id = None) as Hn.
              { apply not_elem_of_list_to_map_1. intros Hin.
                apply list_elem_of_fmap in Hin as ([i o] & -> & Hin). apply D in Hin. cbn in Hin.
                by rewrite lookup_delete_eq in Hin. }
              by rewrite insert_union_r.
        -- intros i Hi. destruct (decide (i = id)) as [->|Hne].
           ++ rewrite lookup_delete_eq in Hi. by destruct Hi.
           ++ rewrite lookup_delete_ne in Hi by done. apply Hq in Hi. by apply elem_of_cons in Hi as [->|].
      * intros E Hq. apply IH in E; [done|]. intros i Hi. pose proof (Hq i Hi) as [->|]%elem_of_cons; [|done].
        rewrite El in Hi. by destruct Hi.
Qed.

(** ** Runs *)

(** Where the applier thread is in its loop. *)
Inductive phase : Type :=
  | Idle
  | Holding (batch : list (Id * option Embedding))
  | Applied.

Record Sys (G : Type) : Type := mkSys {
  pend : State;
  graph : G;
  at_phase : phase;
  written : gmap Id Embedding;
}.
Arguments mkSys {G} pend graph at_phase written.
Arguments pend {G} s.
Arguments graph {G} s.
Arguments at_phase {G} s.
Arguments written {G} s.

Section runs.
Context `{AnnGraphLaws G}.

(** [written] is the specification: what the pushes so far say. *)
Inductive step : Sys G -> Sys G -> Prop :=
  | step_upsert p p' g ph w id e :
      push_upsert id e p = Some p' -> step (mkSys p g ph w) (mkSys p' g ph (<[id := e]> w))
  | step_remove p g ph w id :
      step (mkSys p g ph w) (mkSys (push_remove id p) g ph (delete id w))
  | step_collect p p' g w batch :
      collect_batch p = Some (p', batch) -> step (mkSys p g Idle w) (mkSys p' g (Holding batch) w)
  | step_apply p g w batch :
      step (mkSys p g (Holding batch) w) (mkSys p (apply_batch g batch) Applied w)
  | step_finish p g w :
      step (mkSys p g Applied w) (mkSys (finish_batch p) g Idle w)
  | step_stop p g ph w : step (mkSys p g ph w) (mkSys (stop p) g ph w).

(** A fresh applier over a graph that holds what was written before. *)
Definition initial (s : Sys G) : Prop :=
  pend s = new /\ at_phase s = Idle /\ forall id, g_get (graph s) id = written s !! id.

Definition reachable (s : Sys G) : Prop := exists s0, initial s0 /\ rtc step s0 s.

(** What a search sees of one id. *)
Definition view (s : Sys G) (id : Id) : option Embedding :=
  match latest (pend s) !! id with
  | Some op => op
  | None => match inflight (pend s) !! id with Some op => op | None => g_get (graph s) id end
  end.

Definition phase_ok (s : Sys G) : Prop :=
  match at_phase s with
  | Idle => applying (pend s) = false /\ inflight (pend s) = ∅
  | Holding batch =>
      applying (pend s) = true /\ NoDup batch.*1 /\ inflight (pend s) = list_to_map batch
  | Applied =>
      applying (pend s) = true /\
      forall id op, inflight (pend s) !! id = Some op -> g_get (graph s) id = op
  end.

Record inv (s : Sys G) : Prop := mkInv {
  inv_queued : forall id, is_Some (latest (pend s) !! id) -> id ∈ queue (pend s);
  inv_phase : phase_ok s;
  inv_view : forall id, view s id = written s !! id;
}.

Lemma apply_batch_get batch g id :
  NoDup batch.*1 ->
  g_get (apply_batch g batch) id =
  match (list_to_map batch : gmap Id (option Embedding)) !! id with
  | Some op => op
  | None => g_get g id
  end.
Proof.
  revert g. induction batch as [|[i op] batch IH]; intros g Hn; [done|].
  cbn in Hn. apply NoDup_cons in Hn as [Hi Hn]. unfold apply_batch in *. cbn [fold_left].
  rewrite IH by done. cbn. destruct (decide (id = i)) as [->|Hne].
  - rewrite lookup_insert_eq, not_elem_of_list_to_map_1 by done.
    destruct op; cbn; rewrite ?g_get_insert, ?g_get_remove; by rewrite decide_True.
  - rewrite lookup_insert_ne by done. destruct (_ !! id); [done|].
    destruct op; cbn; rewrite ?g_get_insert, ?g_get_remove; by rewrite decide_False.
Qed.

Lemma inv_initial s : initial s -> inv s.
Proof.
  intros (Hp & Hph & Hg). split.
  - rewrite Hp. cbn. intros id Hid. rewrite lookup_empty in Hid. by destruct Hid.
  - unfold phase_ok. by rewrite Hph, Hp.
  - intros id. unfold view. rewrite Hp. cbn. by rewrite !lookup_empty.
Qed.

Lemma view_enqueue p g ph w id op i :
  view (mkSys (enqueue id op p) g ph w) i = if decide (i = id) then op else view (mkSys p g ph w) i.
Proof.
  unfold view. cbn. destruct (decide (i = id)) as [->|]; [by rewrite lookup_insert_eq|].
  by rewrite lookup_insert_ne.
Qed.

Lemma inv_enqueue p g ph w w' id op :
  inv (mkSys p g ph w) -> (forall i, w' !! i = if decide (i = id) then op else w !! i) ->
  inv (mkSys (enqueue id op p) g ph w').
Proof.
  intros [Hq Hph Hv] Hw. split.
  - cbn in *. intros i Hi. apply elem_of_app. destruct (decide (i = id)) as [->|Hne]; [right; by left|].
    rewrite lookup_insert_ne in Hi by done. left. by apply Hq.
  - unfold phase_ok in *. cbn in *. by destruct ph.
  - intros i. rewrite view_enqueue, Hw. cbn. case_decide; [done|]. apply Hv.
Qed.

Lemma inv_step s s' : inv s -> step s s' -> inv s'.
Proof.
  intros Hi Hstep. destruct Hstep as [p p' g ph w id e Hp|p g ph w id|p p' g w batch Hc|p g w batch|p g w|p g ph w].
  - unfold push_upsert in Hp. case_match; [done|]. injection Hp as <-.
    eapply inv_enqueue; [done|]. intros i.
    destruct (decide (i = id)) as [->|]; by rewrite ?lookup_insert_eq, ?lookup_insert_ne.
  - eapply inv_enqueue; [done|]. intros i.
    destruct (decide (i = id)) as [->|]; by rewrite ?lookup_delete_eq, ?lookup_delete_ne.
  - destruct Hi as [Hq [Ha Hf] Hv]. cbn in Hq, Ha, Hf, Hv. unfold collect_batch in Hc.
    case_match; [done|]. destruct (collect _ _ _ _) as [[[q lat] infl] b] eqn:E.
    injection Hc as <- <-. apply collect_spec in E as (A & B & C & D & F); [|done].
    rewrite Hf, (right_id_L ∅ (∪)) in F. split; cbn; [done| |].
    + unfold phase_ok. cbn. done.
    + intros i. rewrite <- (Hv i). unfold view. cbn. rewrite C, F, Hf, lookup_empty.
      destruct (decide (i ∈ b.*1)) as [Hin|Hin].
      * apply list_elem_of_fmap in Hin as ([j o] & -> & Hin). cbn. rewrite (D _ _ Hin).
        by rewrite (elem_of_list_to_map_1 b j o).
      * rewrite not_elem_of_list_to_map_1 by done. done.
  - destruct Hi as [Hq (Ha & Hn & Hf) Hv]. split; cbn in *; [done| |].
    + unfold phase_ok. cbn. split; [done|]. intros i op Hi. rewrite apply_batch_get by done.
      rewrite <- Hf. by rewrite Hi.
    + intros i. rewrite <- (Hv i). unfold view. cbn. destruct (latest p !! i); [done|].
      destruct (inflight p !! i) eqn:E; [done|]. rewrite apply_batch_get, <- Hf, E by done. done.
  - destruct Hi as [Hq (Ha & Hg) Hv]. split; cbn in *; [done|done|].
    intros i. rewrite <- (Hv i). unfold view. cbn. destruct (latest p !! i); [done|].
    rewrite lookup_empty. destruct (inflight p !! i) as [op|] eqn:E; [by apply Hg|done].
  - destruct Hi as [Hq Hph Hv]. split; cbn in *; [done| |done]. unfold phase_ok in *. by destruct ph.
Qed.

Lemma reachable_inv s : reachable s -> inv s.
Proof.
  intros (s0 & Hs0%inv_initial & Hr). induction Hr as [s|s1 s2 s3 Hs _ IH]; [done|].
  apply IH. by eapply inv_step.
Qed.

(** ** What a search gets *)

Lemma overlay_ups {T} (score : Embedding -> T) (s : State) (id : Id) (x : T) :
  (id, x) ∈ (overlay score s).1 <->
  exists e, x = score e /\
    (latest s !! id = Some (Some e) \/ latest s !! id = None /\ inflight s !! id = Some (Some e)).
Proof.
  unfold overlay. cbn [fst]. rewrite list_elem_of_omap. split.
  - intros ([i op] & Hin & Hf). destruct op as [e|]; [|done]. cbn in Hf. injection Hf as <- <-.
    exists e. split; [done|]. apply elem_of_app in Hin as [Hin|Hin].
    + left. by apply elem_of_map_to_list in Hin.
    + apply list_elem_of_filter in Hin as [Hn Hin]. right. by apply elem_of_map_to_list in Hin.
  - intros (e & -> & Hl). exists (id, Some e). split; [|done]. apply elem_of_app.
    destruct Hl as [Hl|[Hl Hf]]; [left; by apply elem_of_map_to_list|].
    right. apply list_elem_of_filter. split; [done|]. by apply elem_of_map_to_list.
Qed.

Lemma overlay_dels {T} (score : Embedding -> T) (s : State) (id : Id) :
  id ∈ (overlay score s).2 <->
  latest s !! id = Some None \/ latest s !! id = None /\ inflight s !! id = Some None.
Proof.
  unfold overlay. cbn [snd]. rewrite list_elem_of_omap. split.
  - intros ([i op] & Hin & Hf). destruct op as [e|]; [done|]. injection Hf as <-.
    apply elem_of_app in Hin as [Hin|Hin].
    + left. by apply elem_of_map_to_list in Hin.
    + apply list_elem_of_filter in Hin as [Hn Hin]. right. by apply elem_of_map_to_list in Hin.
  - intros Hl. exists (id, None). split; [|done]. apply elem_of_app.
    destruct Hl as [Hl|[Hl Hf]]; [left; by apply elem_of_map_to_list|].
    right. apply list_elem_of_filter. split; [done|]. by apply elem_of_map_to_list.
Qed.

(** Merging the overlay into hits that score the graph's own vectors gives
    what the view says. *)
Lemma merge_overlay_view {T} (score : Embedding -> T) (s : Sys G) (hits : list (Id * T)) (id : Id) (x : T) :
  (forall i y, (i, y) ∈ hits <-> exists e, g_get (graph s) i = Some e /\ y = score e) ->
  (id, x) ∈ merge_overlay hits (overlay score (pend s)).1 (overlay score (pend s)).2 <->
  exists e, view s id = Some e /\ x = score e.
Proof.
  intros Hhits. unfold merge_overlay. rewrite elem_of_app, list_elem_of_filter, Hhits, overlay_ups.
  rewrite overlay_dels. cbn [fst]. rewrite list_elem_of_fmap. unfold view.
  assert ((exists y : Id * T, id = y.1 /\ y ∈ (overlay score (pend s)).1) <->
    exists e, latest (pend s) !! id = Some (Some e) \/
              latest (pend s) !! id = None /\ inflight (pend s) !! id = Some (Some e)) as ->.
  { split.
    - intros ([i y] & -> & (e & -> & He)%overlay_ups). by exists e.
    - intros (e & He). exists (id, score e). split; [done|]. apply overlay_ups. by exists e. }
  destruct (latest (pend s) !! id) as [[e|]|], (inflight (pend s) !! id) as [[e'|]|]; naive_solver.
Qed.
(** ** Draining *)

(** One turn of the applier thread, when it is not blocked. *)
Definition turn (s : Sys G) : Sys G :=
  match at_phase s with
  | Idle =>
      match collect_batch (pend s) with
      | Some (p, batch) => mkSys p (graph s) (Holding batch) (written s)
      | None => s
      end
  | Holding batch => mkSys (pend s) (apply_batch (graph s) batch) Applied (written s)
  | Applied => mkSys (finish_batch (pend s)) (graph s) Idle (written s)
  end.

Lemma turn_steps s : rtc step s (turn s).
Proof.
  destruct s as [p g ph w]. unfold turn. cbn. destruct ph as [|batch|].
  - destruct (collect_batch p) as [[p' batch]|] eqn:E; [|done]. by apply rtc_once, step_collect.
  - apply rtc_once, step_apply.
  - apply rtc_once, step_finish.
Qed.

Lemma turns_step n s : rtc step s (Nat.iter n turn s).
Proof.
  induction n as [|n IH]; [done|]. cbn. etransitivity; [done|]. apply turn_steps.
Qed.

Lemma collect_shrinks q n lat infl q' lat' infl' batch :
  collect q n lat infl = (q', lat', infl', batch) -> n <> 0 -> q <> [] -> length q' < length q.
Proof.
  intros E Hn Hq. destruct q as [|id q]; [done|]. destruct n as [|n]; [done|].
  assert (forall q n lat infl q' lat' infl' batch,
    collect q n lat infl = (q', lat', infl', batch) -> length q' <= length q) as Hle.
  { clear. induction q as [|id q IH]; intros [|n] lat infl q' lat' infl' batch; cbn [collect];
      try (by intros [= <- <- <- <-]). destruct (lat !! id) as [op|].
    - destruct (collect q n _ _) as [[[q1 l1] i1] b1] eqn:E. intros [= <- <- <- <-].
      apply IH in E. cbn. lia.
    - intros E. apply IH in E. cbn. lia. }
  cbn [collect] in E. destruct (lat !! id) as [op|].
  - destruct (collect q n _ _) as [[[q1 l1] i1] b1] eqn:E1. injection E as <- <- <- <-.
    apply Hle in E1. cbn. lia.
  - apply Hle in E. cbn. lia.
Qed.

(** Three turns from an idle applier with work: one batch is done. *)
Lemma three_turns s :
  at_phase s = Idle -> stopped (pend s) = false -> queue (pend s) <> [] ->
  at_phase (Nat.iter 3 turn s) = Idle /\ stopped (pend (Nat.iter 3 turn s)) = false /\
  length (queue (pend (Nat.iter 3 turn s))) < length (queue (pend s)) /\
  written (Nat.iter 3 turn s) = written s.
Proof.
  destruct s as [p g ph w]. cbn. intros -> Hs Hq. unfold turn at 3. cbn. unfold collect_batch.
  rewrite bool_decide_eq_false_2, Hs by done. cbn.
  destruct (collect _ _ _ _) as [[[q lat] infl] b] eqn:E. apply collect_shrinks in E; [|done|done].
  done.
Qed.

Lemma drain_idle s :
  at_phase s = Idle -> stopped (pend s) = false -> inflight (pend s) = ∅ /\ applying (pend s) = false ->
  exists n, quiesced (pend (Nat.iter n turn s)) = true /\ at_phase (Nat.iter n turn s) = Idle /\
    written (Nat.iter n turn s) = written s.
Proof.
  remember (length (queue (pend s))) as k eqn:Ek.
  revert s Ek. induction (lt_wf k) as [k _ IH]. intros s Ek Hph Hs Hi.
  destruct (decide (queue (pend s) = [])) as [Hq|Hq].
  - exists 0. cbn. split; [|done]. unfold quiesced. destruct Hi as [-> ->].
    by rewrite !bool_decide_eq_true_2.
  - destruct (three_turns s) as (A & B & C & D); [done..|].
    assert (inflight (pend (Nat.iter 3 turn s)) = ∅ /\ applying (pend (Nat.iter 3 turn s)) = false) as Hi3.
    { destruct s as [p g ph w]. cbn in Hph, Hs, Hq |- *. subst ph. unfold turn at 3 6. cbn.
      unfold collect_batch. rewrite bool_decide_eq_false_2, Hs by done. cbn.
      by destruct (collect _ _ _ _) as [[[q lat] infl] b]. }
    destruct (IH (length (queue (pend (Nat.iter 3 turn s))))) with (s := Nat.iter 3 turn s)
      as (n & Hn & Hp & Hw); [lia|done|done|done|done|].
    exists (n + 3). rewrite Nat.iter_add. split; [done|]. split; [done|]. congruence.
Qed.

Lemma quiesced_graph s :
  inv s -> quiesced (pend s) = true -> forall id, g_get (graph s) id = written s !! id.
Proof.
  intros [Hq _ Hv] Hz id. unfold quiesced in Hz.
  apply andb_prop in Hz as [[Hz1%bool_decide_eq_true _]%andb_prop Hz3%bool_decide_eq_true].
  rewrite <- Hv. unfold view. rewrite Hz3, lookup_empty.
  destruct (latest (pend s) !! id) eqn:E; [|done].
  assert (id ∈ queue (pend s)) as Hin by (apply Hq; by rewrite E). rewrite Hz1 in Hin.
  by apply elem_of_nil in Hin.
Qed.

(** From any reachable state the thread first finishes its batch. *)
Lemma to_idle s :
  inv s -> stopped (pend s) = false ->
  exists n, at_phase (Nat.iter n turn s) = Idle /\ stopped (pend (Nat.iter n turn s)) = false /\
    written (Nat.iter n turn s) = written s.
Proof.
  destruct s as [p g ph w]. intros _ Hs. destruct ph as [|b|].
  - by exists 0.
  - by exists 2.
  - by exists 1.
Qed.

Lemma inv_rtc s s' : inv s -> rtc step s s' -> inv s'.
Proof. intros Hi Hr. induction Hr; [done|]. eauto using inv_step. Qed.

Lemma drains s :
  inv s -> stopped (pend s) = false ->
  exists n, let s' := Nat.iter n turn s in
    quiesced (pend s') = true /\ forall id, g_get (graph s') id = written s !! id.
Proof.
  intros Hi Hs. destruct (to_idle s Hi Hs) as (n1 & P1 & S1 & W1).
  set (s1 := Nat.iter n1 turn s) in *.
  assert (inv s1) as Hi1 by (eapply inv_rtc; [done|apply turns_step]).
  pose proof (inv_phase s1 Hi1) as Hp1. unfold phase_ok in Hp1. rewrite P1 in Hp1.
  destruct (drain_idle s1 P1 S1) as (n2 & Q2 & P2 & W2); [tauto|].
  exists (n2 + n1). cbn zeta. rewrite Nat.iter_add. fold s1. split; [done|]. intros id.
  rewrite <- W1, <- W2. apply quiesced_graph; [|done].
  eapply inv_rtc; [done|apply turns_step].
Qed.
End runs.

Section Properties.

(** C3: read-your-writes. In every state that any interleaving of writers and
    the applier can reach, also between the collection of a batch and the end
    of its application, a search that merges the overlay into the graph's hits
    sees every written vector exactly, with its own score, and no removed or
    superseded one. *)
Theorem pending_read_your_writes `{AnnGraphLaws G} {T} (score : Embedding -> T) (s : Sys G)
    (hits : list (Id * T)) (id : Id) (x : T) :
  reachable s ->
  (forall i y, (i, y) ∈ hits <-> exists e, g_get (graph s) i = Some e /\ y = score e) ->
  (id, x) ∈ merge_overlay hits (overlay score (pend s)).1 (overlay score (pend s)).2 <->
  exists e, written s !! id = Some e /\ x = score e.
Proof.
  intros Hr%reachable_inv Hh. rewrite merge_overlay_view by done. by rewrite (inv_view s Hr).
Qed.

(** A run that stops in the window the comments of the code describe: a batch
    is collected, not yet applied, and a newer write of the same id arrives. *)
Definition demo_e (z : Z) : Embedding := [f32_of_Z z].
Definition demo_pend : State :=
  let s1 := enqueue (str "x") (Some (demo_e 1)) new in
  match collect_batch s1 with
  | Some (s2, _) => enqueue (str "x") (Some (demo_e 2)) s2
  | None => s1
  end.
Definition demo_sys : Sys (gmap Id Embedding) :=
  mkSys demo_pend ∅ (Holding [(str "x", Some (demo_e 1))])
    (<[str "x" := demo_e 2]> (<[str "x" := demo_e 1]> ∅)).

Lemma demo_reachable : reachable demo_sys.
Proof.
  exists (mkSys new ∅ Idle ∅). split.
  { split; [done|]. split; [done|]. intros id. cbn. by rewrite !lookup_empty. }
  eapply rtc_l; [by eapply (step_upsert new _ ∅ Idle ∅ (str "x") (demo_e 1))|].
  eapply rtc_l; [by eapply step_collect|]. cbn.
  apply rtc_once. by apply (step_upsert _ _ ∅ _ _ (str "x") (demo_e 2)).
Qed.

Lemma pending_read_your_writes_witness :
  (str "x", demo_e 2) ∈ merge_overlay [] (overlay id demo_pend).1 (overlay id demo_pend).2 <->
  exists e, written demo_sys !! str "x" = Some e /\ demo_e 2 = e.
Proof.
  apply (pending_read_your_writes id demo_sys [] (str "x") (demo_e 2)).
  - apply demo_reachable.
  - intros i y. cbn. rewrite lookup_empty. split; [by intros ?%elem_of_nil|by intros (? & ? & ?)].
Defined.

(** C40: the applier drains. From every reachable state that is not stopped,
    the applier thread alone, in finitely many turns, reaches the state
    [quiesce] waits for, and the graph then holds exactly what was written. *)
Theorem pending_drains `{AnnGraphLaws G} (s : Sys G) :
  reachable s -> stopped (pend s) = false ->
  exists n, let s' := Nat.iter n turn s in
    rtc step s s' /\ quiesced (pend s') = true /\
    forall id, g_get (graph s') id = written s !! id.
Proof.
  intros Hr%reachable_inv Hs. destruct (drains s Hr Hs) as (n & Hn). exists n.
  split; [apply turns_step|done].
Qed.

Lemma pending_drains_witness :
  exists n, let s' := Nat.iter n turn demo_sys in
    rtc step demo_sys s' /\ quiesced (pend s') = true /\
    forall id, g_get (graph s') id = written demo_sys !! id.
Proof. apply (pending_drains demo_sys); [apply demo_reachable|reflexivity]. Defined.

End Properties.
