(* ===== verification/Rels.v ===== *)
(** * Relations and traversal (crates/connxism/src/rels.rs)

    An edge is two rows of the [rels] family, one per direction; a traversal
    is a breadth-first search over prefix scans. *)
From S2P Require Import Prelude Floats ByteOrder Utf8 Json Query Keys KeysFacts Model Kv.
#[local] Set Default Goal Selector "!".
#[local] Set Warnings "-clear-no-such-hyp".

Record Relation : Type := mkRelation {
  r_from : bytes;
  r_verb : bytes;
  r_to : bytes;
}.

Record TraversalSpec : Type := mkSpec {
  ts_verbs : list bytes;
  ts_outbound : bool;
  ts_inbound : bool;
  ts_depth : nat;
  ts_limit : nat;
}.

(** [TraversalSpec::default] *)
Definition default_spec : TraversalSpec := mkSpec [] true true 2 (Z.to_nat 10000).

Section rels.
Context `{SerdeNumber}.

Definition relate (db : Db) (from verb to : bytes) : Db :=
  db_write db [OpPut CF_RELS (rel_key REL_OUT from verb to) (RBytes []);
               OpPut CF_RELS (rel_key REL_IN to verb from) (RBytes [])].

Definition unrelate (db : Db) (from verb to : bytes) : Db :=
  db_write db [OpDelete CF_RELS (rel_key REL_OUT from verb to);
               OpDelete CF_RELS (rel_key REL_IN to verb from)].

Definition scan_rels (db : Db) (dir : Z) (anchor : bytes) (verb : option bytes) : list Relation :=
  let prefix :=
    match verb with
    | Some v => rel_verb_prefix dir anchor v
    | None => rel_prefix dir anchor
    end in
  let anchor_prefix_len := length (rel_prefix dir anchor) in
  omap (fun '(k, _) =>
          '(verb, other) ← rel_suffix k anchor_prefix_len;
          Some (if (dir =? REL_OUT)%Z then mkRelation anchor verb other
                else mkRelation other verb anchor))
       (scan_prefix db CF_RELS prefix).

Definition relations_out (db : Db) (from : bytes) (verb : option bytes) : list Relation :=
  scan_rels db REL_OUT from verb.
Definition relations_in (db : Db) (to : bytes) (verb : option bytes) : list Relation :=
  scan_rels db REL_IN to verb.

Definition verb_ok (spec : TraversalSpec) (v : bytes) : bool :=
  bool_decide (ts_verbs spec = []) || bool_decide (v ∈ ts_verbs spec).

(** The neighbours of one popped id, in the order they are pushed. *)
Definition neighbors (db : Db) (spec : TraversalSpec) (id : bytes) : list bytes :=
  (if ts_outbound spec
   then omap (fun r => if verb_ok spec (r_verb r) then Some (r_to r) else None) (relations_out db id None)
   else []) ++
  (if ts_inbound spec
   then omap (fun r => if verb_ok spec (r_verb r) then Some (r_from r) else None) (relations_in db id None)
   else []).
End rels.

(** ** The walk, over any neighbour function *)

Section walk.
Context (next : bytes -> list bytes) (depth limit : nat).

Record walk_state : Type := mkWalk {
  visited : gset bytes;
  order : list bytes;
  frontier : list (bytes * nat);
}.

(** [if visited.insert(n) { order.push(n); frontier.push_back((n, hops)) }] *)
Definition visit (hops : nat) (w : walk_state) (n : bytes) : walk_state :=
  if decide (n ∈ visited w) then w
  else mkWalk ({[n]} ∪ visited w) (order w ++ [n]) (frontier w ++ [(n, hops)]).

(** The loop over the neighbours, with its [break] at the limit. *)
Fixpoint visit_all (hops : nat) (ns : list bytes) (w : walk_state) : walk_state :=
  match ns with
  | [] => w
  | n :: ns => if limit <=? length (order w) then w else visit_all hops ns (visit hops w n)
  end.

(** The outer loop; [None] when the fuel runs out. *)
Fixpoint walk_loop (fuel : nat) (w : walk_state) : option (list bytes) :=
  match frontier w with
  | [] => Some (order w)
  | (id, hops) :: rest =>
      match fuel with
      | O => None
      | S fuel =>
          let w := mkWalk (visited w) (order w) rest in
          if (depth <=? hops) || (limit <=? length (order w)) then walk_loop fuel w
          else walk_loop fuel (visit_all (S hops) (next id) w)
      end
  end.

Definition walk_start (start : list bytes) : walk_state :=
  fold_left (visit 0) start (mkWalk ∅ [] []).

(** Each turn pops an entry; an entry is pushed only with a new id below the
    limit. *)
Definition walk_fuel (start : list bytes) : nat := length start + limit.

Definition walk (start : list bytes) : option (list bytes) :=
  walk_loop (walk_fuel start) (walk_start start).
End walk.

Definition traverse `{SerdeNumber} (db : Db) (spec : TraversalSpec) (start : list bytes) : option (list bytes) :=
  walk (neighbors db spec) (ts_depth spec) (ts_limit spec) start.

(** ** Facts of the walk *)

Section walk_facts.
Context (next : bytes -> list bytes) (depth limit : nat).

(** [dist id d]: a path of [d] edges leads from a start to [id]. *)
Inductive path (start : list bytes) : bytes -> nat -> Prop :=
  | path_start s : s ∈ start -> path start s 0
  | path_next a b d : path start a d -> b ∈ next a -> path start b (S d).

Definition coherent (w : walk_state) : Prop :=
  NoDup (order w) /\ forall id, id ∈ visited w <-> id ∈ order w.

Lemma visit_coherent h w n : coherent w -> coherent (visit h w n).
Proof.
  intros [Hn Hv]. unfold visit. destruct (decide _) as [|Hnew]; [done|]. split; cbn.
  - apply NoDup_app. split; [done|]. split; [|apply NoDup_singleton].
    intros x Hx ->%list_elem_of_singleton. by apply Hnew, Hv.
  - intros id. rewrite elem_of_union, elem_of_singleton, elem_of_app, list_elem_of_singleton, Hv. tauto.
Qed.

Lemma visit_cases h w n :
  ((n ∈ visited w) /\ visit h w n = w) \/
  ((n ∉ visited w) /\ visit h w n = mkWalk ({[n]} ∪ visited w) (order w ++ [n]) (frontier w ++ [(n, h)])).
Proof. unfold visit. destruct (decide _); auto. Qed.

Lemma visit_order h w n : order w `prefix_of` order (visit h w n).
Proof. unfold visit. destruct (decide _); [done|]. by apply prefix_app_r. Qed.

Lemma visit_all_ind (P : walk_state -> Prop) h ns w :
  (forall w n, n ∈ ns -> P w -> length (order w) < limit -> P (visit h w n)) ->
  P w -> P (visit_all limit h ns w).
Proof.
  revert w. induction ns as [|n ns IH]; intros w Hstep Hw; [done|]. cbn.
  destruct (limit <=? length (order w)) eqn:E; [done|]. apply Nat.leb_gt in E.
  apply IH; [|apply Hstep; [by left|done|done]]. intros w' n' Hn'. apply Hstep. by right.
Qed.

Lemma visit_all_coherent h ns w : coherent w -> coherent (visit_all limit h ns w).
Proof. apply visit_all_ind. intros w' n _ Hc _. by apply visit_coherent. Qed.

(** Entries of the frontier and room below the limit bound the turns left. *)
Lemma visit_length h w n :
  length (order w) + length (frontier (visit h w n)) = length (order (visit h w n)) + length (frontier w)
  /\ length (order (visit h w n)) <= S (length (order w)).
Proof. unfold visit. destruct (decide _); cbn; rewrite ?length_app; cbn; lia. Qed.

Lemma visit_all_length h ns w :
  length (order w) <= limit ->
  length (order w) + length (frontier (visit_all limit h ns w)) =
    length (order (visit_all limit h ns w)) + length (frontier w) /\
  length (order (visit_all limit h ns w)) <= limit.
Proof.
  intros Hl. apply (visit_all_ind (fun w' => length (order w) + length (frontier w') =
    length (order w') + length (frontier w) /\ length (order w') <= limit)); [|lia].
  intros w' n _ [H1 H2] Hlt. pose proof (visit_length h w' n). lia.
Qed.

Lemma walk_loop_fuel fuel w :
  length (frontier w) + (limit - length (order w)) <= fuel ->
  exists out, walk_loop next depth limit fuel w = Some out.
Proof.
  revert w. induction fuel as [|fuel IH]; intros [v o f] Hf; cbn in *.
  - destruct f; [by exists o|cbn in Hf; lia].
  - destruct f as [|[id h] f]; [by exists o|]. cbn in Hf.
    destruct (_ || _) eqn:E; [apply IH; cbn; lia|]. apply IH.
    apply orb_false_elim in E as [_ E%Nat.leb_gt].
    pose proof (visit_all_length (S h) (next id) (mkWalk v o f)) as Hv. cbn in Hv. lia.
Qed.

Definition hop_le (hop : gmap bytes nat) (a b : bytes) : Prop :=
  default 0 (hop !! a) <= default 0 (hop !! b).

(** ** Breadth first: what the loop maintains

    [hop] is the distance each id was visited at. *)
Record bfs (start : list bytes) (h0 : nat) (hop : gmap bytes nat) (w : walk_state) : Prop := mkBfs {
  bfs_coherent : coherent w;
  bfs_dom : forall id, is_Some (hop !! id) <-> id ∈ visited w;
  bfs_entry : forall id h, (id, h) ∈ frontier w -> hop !! id = Some h;
  bfs_path : forall id h, hop !! id = Some h -> path start id h;
  bfs_depth : forall id h, hop !! id = Some h -> h <= depth;
  bfs_sorted : StronglySorted (fun x y => x.2 <= y.2) (frontier w);
  bfs_low : forall id h, (id, h) ∈ frontier w -> h0 <= h <= S h0;
  bfs_near : forall id h, hop !! id = Some h -> h <= S h0;
  bfs_starts : forall s, s ∈ start -> hop !! s = Some 0;
  bfs_order : StronglySorted (hop_le hop) (order w);
}.

Lemma strongly_sorted_snoc {A} (R : A -> A -> Prop) l x :
  StronglySorted R l -> (forall y, y ∈ l -> R y x) -> StronglySorted R (l ++ [x]).
Proof.
  induction 1 as [|y l Hs IH Hy]; intros Hx; cbn; [repeat constructor|].
  constructor; [apply IH; intros z Hz; apply Hx; by right|].
  apply Forall_app. split; [done|]. constructor; [|done]. apply Hx. by left.
Qed.

Lemma hop_le_insert hop l n k :
  StronglySorted (hop_le hop) l -> n ∉ l -> StronglySorted (hop_le (<[n := k]> hop)) l.
Proof.
  induction 1 as [|x l Hs IH Hx]; intros Hn; [constructor|].
  apply not_elem_of_cons in Hn as [Hxn Hn]. constructor; [by apply IH|].
  rewrite Forall_forall in Hx |- *. intros y Hy. specialize (Hx y Hy). unfold hop_le in *.
  rewrite !lookup_insert_ne; [done|set_solver|done].
Qed.

Lemma hop_le_snoc hop l n k :
  StronglySorted (hop_le hop) l -> n ∉ l -> (forall y, y ∈ l -> default 0 (hop !! y) <= k) ->
  StronglySorted (hop_le (<[n := k]> hop)) (l ++ [n]).
Proof.
  intros Hs Hn Hk. apply strongly_sorted_snoc; [by apply hop_le_insert|].
  intros y Hy. unfold hop_le. rewrite lookup_insert_eq, lookup_insert_ne by set_solver. by apply Hk.
Qed.

Lemma bfs_hop_order start h0 hop w y :
  bfs start h0 hop w -> y ∈ order w -> exists h, hop !! y = Some h /\ h <= S h0.
Proof.
  intros B Hy. apply (bfs_coherent _ _ _ _ B) in Hy. apply (bfs_dom _ _ _ _ B) in Hy as [h Hh].
  exists h. split; [done|]. by apply (bfs_near _ _ _ _ B) in Hh.
Qed.

Lemma bfs_visit start h0 hop w n :
  bfs start h0 hop w -> path start n (S h0) -> S h0 <= depth ->
  exists hop', bfs start h0 hop' (visit (S h0) w n) /\ hop ⊆ hop' /\
    (forall h, hop' !! n = Some h -> h <= S h0) /\ is_Some (hop' !! n).
Proof.
  intros B Hp Hd. unfold visit. destruct (decide (n ∈ visited w)) as [Hin|Hnew].
  - exists hop. apply (bfs_dom _ _ _ _ B) in Hin. split_and!; [done|done| |done].
    intros h Hh. by eapply (bfs_near _ _ _ _ B).
  - assert (hop !! n = None) as Hn by (apply eq_None_not_Some; by rewrite (bfs_dom _ _ _ _ B)).
    exists (<[n := S h0]> hop). split; [|split_and!].
    + pose proof (fun y => bfs_hop_order _ _ _ _ y B) as Ho.
      destruct B as [Bc Bd Be Bp Bdp Bs Bl Bn Bst Bo]. split; cbn.
      * pose proof (visit_coherent (S h0) w n Bc) as Hc. unfold visit in Hc. by rewrite decide_False in Hc.
      * intros id. rewrite lookup_insert_is_Some', Bd, elem_of_union, elem_of_singleton.
        split; intros [->|?]; auto.
      * intros id h [Hin|[= -> ->]%list_elem_of_singleton]%elem_of_app; [|by rewrite lookup_insert_eq].
        apply Be in Hin. rewrite lookup_insert_ne; [done|]. intros ->. congruence.
      * intros id h. rewrite lookup_insert_Some. intros [[<- <-]|[_ Hh]]; [done|by apply Bp].
      * intros id h. rewrite lookup_insert_Some. intros [[<- <-]|[_ Hh]]; [done|by eapply Bdp].
      * apply strongly_sorted_snoc; [done|]. intros [i h] Hi. cbn. apply (Bl i h Hi).
      * intros id h [Hin|[= -> ->]%list_elem_of_singleton]%elem_of_app; [by eapply Bl|lia].
      * intros id h. rewrite lookup_insert_Some. intros [[<- <-]|[_ Hh]]; [done|by eapply Bn].
      * intros s Hs. rewrite lookup_insert_ne; [by apply Bst|]. intros ->. rewrite (Bst s Hs) in Hn. done.
      * apply hop_le_snoc; [done|by intros ?%Bc|]. intros y (h & -> & ?)%Ho. done.
    + by apply insert_subseteq.
    + intros h. rewrite lookup_insert_eq. by intros [= <-].
    + rewrite lookup_insert_eq. by eexists.
Qed.

(** The loop over the neighbours: all of them are near, unless it broke off
    at the limit. *)
Lemma bfs_visit_all start h0 ns hop w :
  bfs start h0 hop w -> (forall n, n ∈ ns -> path start n (S h0)) -> S h0 <= depth ->
  exists hop', bfs start h0 hop' (visit_all limit (S h0) ns w) /\ hop ⊆ hop' /\
    (length (order (visit_all limit (S h0) ns w)) < limit ->
     forall n, n ∈ ns -> exists h, hop' !! n = Some h /\ h <= S h0) /\
    length (order w) <= length (order (visit_all limit (S h0) ns w)) /\
    (forall e, e ∈ frontier w -> e ∈ frontier (visit_all limit (S h0) ns w)) /\
    (forall id h, hop' !! id = Some h -> hop !! id = None -> (id, h) ∈ frontier (visit_all limit (S h0) ns w)).
Proof.
  revert hop w. induction ns as [|n ns IH]; intros hop w B Hp Hd; cbn [visit_all].
  - exists hop. split_and!; try done; [by intros _ n ?%elem_of_nil|congruence].
  - destruct (limit <=? length (order w)) eqn:E.
    + apply Nat.leb_le in E. exists hop. split_and!; try done; [lia|congruence].
    + destruct (bfs_visit start h0 hop w n B) as (hop1 & B1 & S1 & N1 & M1); [apply Hp; by left|done|].
      destruct (IH hop1 (visit (S h0) w n) B1) as (hop2 & B2 & S2 & N2 & L2 & F2 & G2);
        [intros m Hm; apply Hp; by right|done|].
      exists hop2. split_and!; [done|by etransitivity| | | |].
      * intros Hl m [->|Hm]%elem_of_cons; [|by apply N2]. destruct M1 as [h Hh].
        exists h. split; [by eapply lookup_weaken|by apply N1].
      * etransitivity; [|exact L2]. apply prefix_length, visit_order.
      * intros e He. apply F2. unfold visit. destruct (decide _); [done|]. cbn. apply elem_of_app. by left.
      * intros id h Hid Hnone. destruct (hop1 !! id) as [h1|] eqn:E1; [|by apply G2].
        pose proof (lookup_weaken _ _ _ _ E1 S2) as Hw. rewrite Hid in Hw. injection Hw as ->.
        apply F2. revert E1 B1. unfold visit. destruct (decide (n ∈ visited w)) as [Hin|Hnew].
        -- intros E1 B1. exfalso.
           assert (is_Some (hop !! id)) as [? ?]; [|congruence].
           apply (bfs_dom _ _ _ _ B). apply (bfs_dom _ _ _ _ B1). by exists h1.
        -- intros E1 B1. cbn. destruct (decide (id = n)) as [->|Hne].
           ++ apply elem_of_app. right. apply list_elem_of_singleton.
              pose proof (bfs_entry _ _ _ _ B1 n (S h0)) as He. cbn in He.
              rewrite He in E1; [by injection E1 as ->|]. apply elem_of_app. right. by left.
           ++ exfalso. assert (is_Some (hop !! id)) as [? ?]; [|congruence].
              apply (bfs_dom _ _ _ _ B). assert (id ∈ visited (mkWalk ({[n]} ∪ visited w)
                (order w ++ [n]) (frontier w ++ [(n, S h0)]))) as Hv by (apply (bfs_dom _ _ _ _ B1); by exists h1).
              cbn in Hv. set_solver.
Qed.

(** Every id that left the queue within the depth had all its neighbours
    visited, as long as the limit was not reached. *)
Definition explored (hop : gmap bytes nat) (w : walk_state) : Prop :=
  length (order w) < limit ->
  forall id h, hop !! id = Some h -> h < depth -> (id, h) ∉ frontier w ->
  forall n, n ∈ next id -> exists h', hop !! n = Some h' /\ h' <= S h.

Lemma bfs_pop start h0 hop v o id h rest :
  bfs start h0 hop (mkWalk v o ((id, h) :: rest)) -> bfs start h hop (mkWalk v o rest).
Proof.
  intros [Bc Bd Be Bp Bdp Bs Bl Bn Bst Bo]. cbn in *.
  assert (h0 <= h <= S h0) as Hh by (apply (Bl id h); by left).
  apply StronglySorted_inv in Bs as [Bs Bs']. rewrite Forall_forall in Bs'.
  split; cbn; try done.
  - intros i k Hi. apply Be. by right.
  - intros i k Hi. split; [by apply (Bs' (i, k))|]. assert (k <= S h0); [|lia].
    apply (Bl i k). by right.
  - intros i k Hi%Bn. lia.
Qed.

Lemma walk_loop_bfs fuel start h0 hop w out :
  walk_loop next depth limit fuel w = Some out -> bfs start h0 hop w -> explored hop w ->
  length (order w) <= length out /\
  exists h1 hop' w', order w' = out /\ frontier w' = [] /\ bfs start h1 hop' w' /\ explored hop' w'.
Proof.
  revert h0 hop w. induction fuel as [|fuel IH]; intros h0 hop [v o [|[id h] rest]] Hw B X;
    cbn [walk_loop frontier] in Hw; try discriminate Hw.
  - injection Hw as <-. split; [done|]. by exists h0, hop, (mkWalk v o []).
  - injection Hw as <-. split; [done|]. by exists h0, hop, (mkWalk v o []).
  - pose proof (bfs_pop _ _ _ _ _ _ _ _ B) as B'. cbn [visited order] in Hw.
    destruct (_ || _) eqn:E.
    + apply (IH h hop) in Hw; [done|done|]. intros Hl i k Hi Hk Hnot n Hn. cbn in Hl.
      apply orb_prop in E as [E%Nat.leb_le|E%Nat.leb_le]; [|lia].
      apply (X Hl i k Hi Hk); [|done]. intros [[= -> ->]|Hin]%elem_of_cons; [lia|done].
    + apply orb_false_elim in E as [E1%Nat.leb_gt E2%Nat.leb_gt].
      pose proof (bfs_path _ _ _ _ B id h (bfs_entry _ _ _ _ B id h ltac:(by left))) as Hpath.
      destruct (bfs_visit_all start h (next id) hop (mkWalk v o rest) B')
        as (hop2 & B2 & S2 & N2 & L2 & F2 & G2); [intros n Hn; by eapply path_next|lia|].
      apply (IH h hop2) in Hw as [Hlen Hw]; [split; [cbn in L2 |- *; lia|done]|done|].
      intros Hl i k Hi Hk Hnot n Hn. destruct (hop !! i) as [k'|] eqn:Ei; [|by destruct Hnot; apply G2].
      pose proof (lookup_weaken _ _ _ _ Ei S2) as Hw2. rewrite Hi in Hw2. injection Hw2 as <-.
      destruct (decide ((i, k) = (id, h))) as [[= -> ->]|Hne]; [by apply N2|].
      destruct (X E2 i k Ei Hk) with (n := n) as (k' & Hk' & Hle); [|done|].
      * intros [?|Hin]%elem_of_cons; [done|]. by apply Hnot, F2.
      * exists k'. split; [by eapply lookup_weaken|done].
Qed.

Lemma walk_start_bfs start : exists hop, bfs start 0 hop (walk_start start) /\
  explored hop (walk_start start) /\
  length (frontier (walk_start start)) = length (order (walk_start start)) /\
  length (order (walk_start start)) <= length start.
Proof.
  assert (forall todo done_ w hop, start = done_ ++ todo ->
    bfs done_ 0 hop w -> (forall id h, hop !! id = Some h -> h = 0 /\ (id, h) ∈ frontier w) ->
    length (frontier w) = length (order w) -> length (order w) <= length done_ ->
    exists hop', bfs start 0 hop' (fold_left (visit 0) todo w) /\
      (forall id h, hop' !! id = Some h -> h = 0 /\ (id, h) ∈ frontier (fold_left (visit 0) todo w)) /\
      length (frontier (fold_left (visit 0) todo w)) = length (order (fold_left (visit 0) todo w)) /\
      length (order (fold_left (visit 0) todo w)) <= length start) as Hgen.
  { induction todo as [|s todo IH]; intros done_ w hop E B Hz Hl1 Hl2.
    - exists hop. rewrite app_nil_r in E. subst. done.
    - cbn [fold_left].
      assert (forall id h, path done_ id h -> path (done_ ++ [s]) id h) as Hmono.
      { induction 1; [apply path_start, elem_of_app; by left|by eapply path_next]. }
      pose proof (fun y => bfs_hop_order _ _ _ _ y B) as Ho.
      destruct B as [Bc Bd Be Bp Bdp Bs Bl Bn Bst Bo].
      destruct (visit_cases 0 w s) as [[Hin ->]|[Hnew ->]].
      + apply (IH (done_ ++ [s]) w hop); [by rewrite <- app_assoc| |done|done|rewrite length_app; cbn; lia].
        split; eauto. intros x [Hx| ->%list_elem_of_singleton]%elem_of_app; [by apply Bst|].
        apply Bd in Hin as [h Hh]. by destruct (Hz _ _ Hh) as [-> _].
      + apply (IH (done_ ++ [s]) _ (<[s := 0]> hop)); [by rewrite <- app_assoc| | | |].
        * split; cbn.
          -- pose proof (visit_coherent 0 w s Bc) as Hc. unfold visit in Hc. by rewrite decide_False in Hc.
          -- intros id. rewrite lookup_insert_is_Some', Bd, elem_of_union, elem_of_singleton.
             split; intros [->|?]; auto.
          -- intros id h [Hin|[= -> ->]%list_elem_of_singleton]%elem_of_app; [|by rewrite lookup_insert_eq].
             apply Be in Hin. rewrite lookup_insert_ne; [done|]. intros ->. apply Hnew, Bd. by eexists.
          -- intros id h. rewrite lookup_insert_Some. intros [[<- <-]|[_ Hh]]; [|by apply Hmono, Bp].
             apply path_start, elem_of_app. right. by left.
          -- intros id h. rewrite lookup_insert_Some. intros [[<- <-]|[_ Hh]]; [lia|by eapply Bdp].
          -- apply strongly_sorted_snoc; [done|]. intros [i h] Hi. cbn.
             apply Be in Hi. by destruct (Hz _ _ Hi) as [-> _].
          -- intros id h [Hin|[= -> ->]%list_elem_of_singleton]%elem_of_app; [by eapply Bl|lia].
          -- intros id h. rewrite lookup_insert_Some. intros [[<- <-]|[_ Hh]]; [lia|by eapply Bn].
          -- intros x [Hx| ->%list_elem_of_singleton]%elem_of_app; [|by rewrite lookup_insert_eq].
             destruct (decide (s = x)) as [->|]; [by rewrite lookup_insert_eq|].
             rewrite lookup_insert_ne by done. by apply Bst.
          -- apply hop_le_snoc; [done|by intros ?%Bc|]. intros y (h & Hh & _)%Ho.
             destruct (Hz _ _ Hh) as [-> _]. by rewrite Hh.
        * intros id h. cbn. rewrite lookup_insert_Some. intros [[<- <-]|[_ Hh]].
          -- split; [done|]. apply elem_of_app. right. by left.
          -- destruct (Hz _ _ Hh) as [-> Hf]. split; [done|]. apply elem_of_app. by left.
        * cbn. rewrite !length_app. cbn. lia.
        * cbn. rewrite !length_app. cbn. lia. }
  destruct (Hgen start [] (mkWalk ∅ [] []) ∅) as (hop & B & Hz & L1 & L2); try done.
  - split; cbn; try (intros ? ?; rewrite lookup_empty; done); try (by intros ? ? ?%elem_of_nil).
    + split; [constructor|]. intros id. cbn. set_solver.
    + intros id. rewrite lookup_empty, is_Some_alt. cbn. set_solver.
    + constructor.
    + by intros ? ?%elem_of_nil.
    + constructor.
  - exists hop. split; [done|]. split; [|done]. intros _ id h Hid _ Hnot. by destruct Hnot, (Hz id h).
Qed.

Lemma walk_total start : exists out, walk next depth limit start = Some out.
Proof.
  destruct (walk_start_bfs start) as (hop & B & _ & L1 & L2). apply walk_loop_fuel.
  unfold walk_fuel. lia.
Qed.

Lemma walk_loop_length fuel w out :
  walk_loop next depth limit fuel w = Some out -> length out <= max limit (length (order w)).
Proof.
  revert w. induction fuel as [|fuel IH]; intros [v o [|[id h] rest]] Hw;
    cbn [walk_loop frontier] in Hw; try discriminate Hw; try (injection Hw as <-; cbn; lia).
  destruct (_ || _) eqn:E; apply IH in Hw; [done|].
  apply orb_false_elim in E as [_ E%Nat.leb_gt]. cbn [visited order] in *.
  pose proof (visit_all_length (S h) (next id) (mkWalk v o rest)) as Hv. cbn in Hv. lia.
Qed.

(** What the walk returns, with the hop each id was reached at. *)
Lemma walk_spec start : exists out (hop : bytes -> nat),
  walk next depth limit start = Some out /\ NoDup out /\
  StronglySorted (fun a b => hop a <= hop b) out /\
  (forall id, id ∈ out -> path start id (hop id) /\ hop id <= depth) /\
  (forall s, s ∈ start -> s ∈ out) /\
  length out <= max limit (length start) /\
  (length out < limit -> forall id d, path start id d -> d <= depth -> id ∈ out /\ hop id <= d).
Proof.
  destruct (walk_total start) as [out Hw].
  destruct (walk_start_bfs start) as (hop0 & B0 & X0 & _ & L0).
  pose proof (walk_loop_length _ _ _ Hw) as Hlen.
  destruct (walk_loop_bfs _ _ _ _ _ _ Hw B0 X0) as (_ & h1 & hop & w & <- & Hf & B & X).
  exists (order w), (fun id => default 0 (hop !! id)).
  pose proof (bfs_coherent _ _ _ _ B) as [Hnd Hv].
  assert (forall id, id ∈ order w <-> is_Some (hop !! id)) as Hdom.
  { intros id. by rewrite <- Hv, (bfs_dom _ _ _ _ B). }
  split_and!; [done|done|apply (bfs_order _ _ _ _ B)| | |lia|].
  - intros id [h Hh]%Hdom. rewrite Hh. split; [by apply (bfs_path _ _ _ _ B)|by eapply (bfs_depth _ _ _ _ B)].
  - intros s Hs. apply Hdom. by rewrite (bfs_starts _ _ _ _ B s Hs).
  - intros Hl id d Hp. induction Hp as [s Hs|a b d Hp IH Hb]; intros Hd.
    + pose proof (bfs_starts _ _ _ _ B s Hs) as E. rewrite Hdom, E. split; [by eexists|done].
    + destruct IH as [[h Hh]%Hdom Hle]; [lia|]. rewrite Hh in Hle. cbn in Hle.
      destruct (X Hl a h Hh) with (n := b) as (h' & Hh' & Hle'); [lia| |done|].
      * rewrite Hf. by intros ?%elem_of_nil.
      * rewrite Hdom, Hh'. split; [by eexists|cbn; lia].
Qed.
End walk_facts.


(** ** The edges of a store *)

Section edges.
Context `{SerdeNumber}.

(** A name as the API gives it: UTF-8 without NUL. *)
Definition name_ok (s : bytes) : Prop := nul_free s /\ valid_utf8 s = true.
Definition relation_ok (r : Relation) : Prop := name_ok (r_from r) /\ name_ok (r_verb r) /\ name_ok (r_to r).

Definition out_key (r : Relation) : bytes := rel_key REL_OUT (r_from r) (r_verb r) (r_to r).
Definition in_key (r : Relation) : bytes := rel_key REL_IN (r_to r) (r_verb r) (r_from r).

(** The rows of [rels] are the two rows of each edge of [E], and no others. *)
Definition edges_are (db : Db) (E : Relation -> Prop) : Prop :=
  (forall r, E r -> relation_ok r) /\
  forall k, is_Some (db CF_RELS !! k) <-> exists r, E r /\ (k = out_key r \/ k = in_key r).

Lemma out_key_inj r r' : relation_ok r -> relation_ok r' -> out_key r = out_key r' -> r = r'.
Proof.
  destruct r as [f v t], r' as [f' v' t']. intros ([? ?] & [? ?] & _) ([? ?] & [? ?] & _).
  cbn in *. unfold out_key. cbn. intros (_ & -> & -> & ->)%rel_key_inj; done.
Qed.

Lemma in_key_inj r r' : relation_ok r -> relation_ok r' -> in_key r = in_key r' -> r = r'.
Proof.
  destruct r as [f v t], r' as [f' v' t']. intros (_ & [? ?] & [? ?]) (_ & [? ?] & [? ?]).
  cbn in *. unfold in_key. cbn. intros (_ & -> & -> & ->)%rel_key_inj; done.
Qed.

Lemma out_in_key r r' : out_key r <> in_key r'.
Proof. unfold out_key, in_key, rel_key. by intros [= ?]. Qed.

Lemma edges_ext db E E' : (forall r, E r <-> E' r) -> edges_are db E -> edges_are db E'.
Proof.
  intros HE [H1 H2]. split; [intros r ?%HE; by apply H1|]. intros k. rewrite H2.
  split; intros (r & Hr%HE & Hk); eauto.
Qed.

Lemma relate_edges db E f v t :
  edges_are db E -> relation_ok (mkRelation f v t) ->
  edges_are (relate db f v t) (fun r => r = mkRelation f v t \/ E r).
Proof.
  intros [H1 H2] Hok. split; [by intros r [->|?]; auto|]. intros k.
  unfold relate. rewrite db_write_plain by done. cbn. rewrite !lookup_put_cf.
  fold (out_key (mkRelation f v t)) (in_key (mkRelation f v t)). cbn.
  destruct (decide _) as [[_ ->]|N1]; [split; [|by eexists]; eexists; split; [by left|by right]|].
  destruct (decide _) as [[_ ->]|N2]; [split; [|by eexists]; eexists; split; [by left|by left]|].
  rewrite H2. split.
  - intros (r & Hr & Hk). eauto.
  - intros (r & [->|Hr] & Hk); [|by eauto]. destruct Hk as [-> | ->]; [by destruct N2|by destruct N1].
Qed.

Lemma unrelate_edges db E f v t :
  edges_are db E -> relation_ok (mkRelation f v t) ->
  edges_are (unrelate db f v t) (fun r => r <> mkRelation f v t /\ E r).
Proof.
  intros [H1 H2] Hok. split; [intros r [_ ?]; auto|]. intros k.
  unfold unrelate. rewrite db_write_plain by done. cbn. rewrite !lookup_delete_cf.
  fold (out_key (mkRelation f v t)) (in_key (mkRelation f v t)). cbn.
  destruct (decide _) as [[_ ->]|N1].
  { split; [by intros [? ?]|]. intros (r & [Hne Hr] & [Hk|Hk]); [by destruct (out_in_key r (mkRelation f v t))|].
    change (in_key (mkRelation f v t) = in_key r) in Hk. apply in_key_inj in Hk; [by subst|done|by apply H1]. }
  destruct (decide _) as [[_ ->]|N2].
  { split; [by intros [? ?]|]. intros (r & [Hne Hr] & [Hk|Hk]); [|by destruct (out_in_key (mkRelation f v t) r)].
    change (out_key (mkRelation f v t) = out_key r) in Hk. apply out_key_inj in Hk; [by subst|done|by apply H1]. }
  rewrite H2. split; intros (r & Hr & Hk).
  - exists r. split; [|done]. split; [|done]. intros ->. destruct Hk as [-> | ->]; [by destruct N2|by destruct N1].
  - exists r. by destruct Hr.
Qed.

Definition verb_is (verb : option bytes) (v : bytes) : Prop :=
  match verb with Some v' => v' = v | None => True end.

Definition scan_rel_prefix (dir : Z) (anchor : bytes) (verb : option bytes) : bytes :=
  match verb with Some v => rel_verb_prefix dir anchor v | None => rel_prefix dir anchor end.

Lemma scan_rel_prefix_iff dir anchor verb anchor' verb' other :
  nul_free anchor -> nul_free anchor' -> nul_free verb' -> from_option nul_free True verb ->
  scan_rel_prefix dir anchor verb `prefix_of` rel_key dir anchor' verb' other <->
  anchor = anchor' /\ verb_is verb verb'.
Proof.
  destruct verb as [v|]; cbn; intros; [by apply rel_verb_prefix_iff|].
  rewrite rel_prefix_iff by done. tauto.
Qed.

Lemma scan_rel_prefix_dir dir dir' anchor verb a v o :
  scan_rel_prefix dir anchor verb `prefix_of` rel_key dir' a v o -> dir = dir'.
Proof. unfold scan_rel_prefix, rel_verb_prefix, rel_prefix, rel_key. by destruct verb; intros ?%prefix_cons_inv_1. Qed.

(** The row of [r] in the direction [dir], its anchor and its other end. *)
Definition dir_key (dir : Z) (r : Relation) : bytes :=
  if (dir =? REL_OUT)%Z then out_key r else in_key r.
Definition dir_anchor (dir : Z) (r : Relation) : bytes :=
  if (dir =? REL_OUT)%Z then r_from r else r_to r.

Lemma scan_prefix_edges db E dir anchor verb k :
  edges_are db E -> dir = REL_OUT \/ dir = REL_IN ->
  nul_free anchor -> from_option nul_free True verb ->
  k ∈ (scan_prefix db CF_RELS (scan_rel_prefix dir anchor verb)).*1 <->
  exists r, E r /\ k = dir_key dir r /\ dir_anchor dir r = anchor /\ verb_is verb (r_verb r).
Proof.
  intros [H1 H2] Hdir Ha Hv. rewrite list_elem_of_fmap. split.
  - intros ([k' v] & -> & [Hk Hp]%elem_of_scan_prefix). cbn.
    destruct (proj1 (H2 k') ltac:(eauto)) as (r & Hr & Hrk). pose proof (H1 r Hr) as ([? ?] & [? ?] & [? ?]).
    exists r. split; [done|]. unfold dir_key, dir_anchor.
    destruct Hdir as [-> | ->], Hrk as [-> | ->]; cbn [Z.eqb REL_OUT REL_IN] in *;
      pose proof (scan_rel_prefix_dir _ _ _ _ _ _ _ Hp) as Hd; try discriminate Hd;
      apply scan_rel_prefix_iff in Hp as [-> ?]; done.
  - intros (r & Hr & -> & Hanchor & Hverb). pose proof (H1 r Hr) as ([? ?] & [? ?] & [? ?]).
    assert (is_Some (db CF_RELS !! dir_key dir r)) as [v Hk].
    { apply H2. exists r. split; [done|]. unfold dir_key. destruct Hdir as [-> | ->]; auto. }
    exists (dir_key dir r, v). split; [done|]. apply elem_of_scan_prefix. split; [done|].
    unfold dir_key, dir_anchor in *. destruct Hdir as [-> | ->]; cbn in *;
      (apply scan_rel_prefix_iff; [done..|]; split; [done|]; done).
Qed.

Lemma scan_rels_row dir r :
  relation_ok r -> dir = REL_OUT \/ dir = REL_IN ->
  ('(verb, other) ← rel_suffix (dir_key dir r) (length (rel_prefix dir (dir_anchor dir r)));
   Some (if (dir =? REL_OUT)%Z then mkRelation (dir_anchor dir r) verb other
         else mkRelation other verb (dir_anchor dir r))) = Some r.
Proof.
  intros ([? ?] & [? ?] & [? ?]) Hdir. destruct r as [f v t]. cbn in *.
  destruct Hdir as [-> | ->]; cbn [dir_key dir_anchor Z.eqb REL_OUT REL_IN];
    unfold dir_key, dir_anchor, out_key, in_key; cbn [Z.eqb REL_OUT REL_IN r_from r_verb r_to];
    (change (REL_IN =? REL_OUT)%Z with false || change (REL_OUT =? REL_OUT)%Z with true);
    cbv iota; rewrite rel_suffix_key by done; done.
Qed.

Lemma elem_of_scan_rels db E dir anchor verb r :
  edges_are db E -> dir = REL_OUT \/ dir = REL_IN ->
  nul_free anchor -> from_option nul_free True verb ->
  r ∈ scan_rels db dir anchor verb <->
  E r /\ dir_anchor dir r = anchor /\ verb_is verb (r_verb r).
Proof.
  intros HE Hdir Ha Hv. unfold scan_rels. fold (scan_rel_prefix dir anchor verb).
  rewrite list_elem_of_omap. split.
  - intros ([k v] & Hk & Hr). assert (k ∈ (scan_prefix db CF_RELS (scan_rel_prefix dir anchor verb)).*1) as Hin.
    { apply list_elem_of_fmap. by exists (k, v). }
    rewrite scan_prefix_edges in Hin by done. destruct Hin as (r' & Hr' & -> & <- & Hverb).
    rewrite scan_rels_row in Hr by (done || by apply HE). by injection Hr as <-.
  - intros (Hr & <- & Hverb).
    assert (dir_key dir r ∈ (scan_prefix db CF_RELS (scan_rel_prefix dir (dir_anchor dir r) verb)).*1) as Hin.
    { rewrite scan_prefix_edges by done. by exists r. }
    apply list_elem_of_fmap in Hin as ([k v] & Ek & Hk). exists (k, v). split; [done|].
    cbn in Ek. subst k. apply scan_rels_row; [by apply HE|done].
Qed.

Lemma neighbors_edges db E spec id n :
  edges_are db E -> nul_free id ->
  n ∈ neighbors db spec id <->
  exists r, E r /\ verb_ok spec (r_verb r) = true /\
    ((ts_outbound spec = true /\ r_from r = id /\ r_to r = n) \/
     (ts_inbound spec = true /\ r_to r = id /\ r_from r = n)).
Proof.
  intros HE Hid. unfold neighbors. rewrite elem_of_app.
  assert (forall dir (f : Relation -> bytes), dir = REL_OUT \/ dir = REL_IN ->
    n ∈ omap (fun r => if verb_ok spec (r_verb r) then Some (f r) else None) (scan_rels db dir id None) <->
    exists r, E r /\ verb_ok spec (r_verb r) = true /\ dir_anchor dir r = id /\ f r = n) as Hone.
  { intros dir f Hdir. rewrite list_elem_of_omap. split.
    - intros (r & Hr & Hf). rewrite elem_of_scan_rels in Hr by done.
      destruct (verb_ok spec (r_verb r)) eqn:Ev; [|done]. injection Hf as <-. exists r. naive_solver.
    - intros (r & Hr & Hverb & Hanchor & Hf). exists r. rewrite elem_of_scan_rels by done.
      rewrite Hverb, Hf. done. }
  unfold relations_out, relations_in.
  destruct (ts_outbound spec), (ts_inbound spec); rewrite ?Hone by auto; rewrite ?elem_of_nil;
    cbn; naive_solver.
Qed.

Lemma neighbors_ok db E spec id n :
  edges_are db E -> nul_free id -> n ∈ neighbors db spec id -> nul_free n.
Proof.
  intros HE Hid. rewrite neighbors_edges by done. intros (r & Hr & _ & Hn).
  pose proof (proj1 HE r Hr) as ([? ?] & [? ?] & [? ?]). destruct Hn as [(_ & _ & <-)|(_ & _ & <-)]; done.
Qed.
End edges.

(** A path along the edges of [E] that [spec] follows. *)
Inductive edge_path (E : Relation -> Prop) (spec : TraversalSpec) (start : list bytes) : bytes -> nat -> Prop :=
  | edge_start s : s ∈ start -> edge_path E spec start s 0
  | edge_out r d : edge_path E spec start (r_from r) d -> E r -> verb_ok spec (r_verb r) = true ->
      ts_outbound spec = true -> edge_path E spec start (r_to r) (S d)
  | edge_in r d : edge_path E spec start (r_to r) d -> E r -> verb_ok spec (r_verb r) = true ->
      ts_inbound spec = true -> edge_path E spec start (r_from r) (S d).

Lemma path_edges `{SerdeNumber} db E spec start id d :
  edges_are db E -> Forall nul_free start ->
  path (neighbors db spec) start id d <-> edge_path E spec start id d.
Proof.
  intros HE Hs. rewrite Forall_forall in Hs.
  assert (forall id d, edge_path E spec start id d -> nul_free id) as Hok.
  { clear id d. intros id d. induction 1 as [s Hin|r d _ _ Hr|r d _ _ Hr]; [by apply Hs|..];
      by destruct (proj1 HE r Hr) as ([? ?] & _ & [? ?]). }
  split.
  - induction 1 as [s Hin|a b k _ IH Hb]; [by constructor|].
    rewrite (neighbors_edges _ E) in Hb by (done || by eapply Hok).
    destruct Hb as (r & Hr & Hverb & [(Ho & <- & <-)|(Hi & <- & <-)]); [by apply edge_out|by apply edge_in].
  - induction 1 as [s Hin|r k Hp IH Hr Hverb Ho|r k Hp IH Hr Hverb Hi]; [by constructor|..];
      (eapply path_next; [exact IH|]); rewrite (neighbors_edges _ E) by (done || by eapply Hok);
      exists r; naive_solver.
Qed.

(** The edge set of a store, read back. *)
Definition no_edges : Relation -> Prop := fun _ => False.

Section Properties.
Context `{SerdeNumber}.

(** relating and unrelating refine a plain set of edges: from a store that
    holds exactly the rows of [E], [relate] leaves exactly those of [E] and the
    new edge (whether or not it was there), and [unrelate] those of [E] without
    it; no other edge's row is touched. *)
Theorem relate_unrelate_refine (db : Db) (E : Relation -> Prop) (f v t : bytes) :
  edges_are db E -> relation_ok (mkRelation f v t) ->
  edges_are (relate db f v t) (fun r => r = mkRelation f v t \/ E r) /\
  edges_are (unrelate db f v t) (fun r => r <> mkRelation f v t /\ E r).
Proof. intros HE Hr. split; [by apply relate_edges|by apply unrelate_edges]. Qed.

(** the scans return exactly the edges: outbound those that leave the
    anchor, inbound those that enter it, restricted to the verb when one is
    given. *)
Theorem relations_exact (db : Db) (E : Relation -> Prop) (anchor : bytes) (verb : option bytes) (r : Relation) :
  edges_are db E -> nul_free anchor -> from_option nul_free True verb ->
  (r ∈ relations_out db anchor verb <-> E r /\ r_from r = anchor /\ verb_is verb (r_verb r)) /\
  (r ∈ relations_in db anchor verb <-> E r /\ r_to r = anchor /\ verb_is verb (r_verb r)).
Proof.
  intros HE Ha Hv. unfold relations_out, relations_in.
  rewrite !(elem_of_scan_rels db E) by auto. done.
Qed.

(** C29: a traversal returns, and what it returns is the neighbourhood: every
    id at most once, the nearest hops first, each one reached from a start over
    as many edges of the followed verbs and directions as its hop, at most
    [depth]; all the starts; and, when the cap was not reached, every id within
    [depth] edges, at its least distance. *)
Theorem traverse_neighborhood (db : Db) (E : Relation -> Prop) (spec : TraversalSpec) (start : list bytes) :
  edges_are db E -> Forall nul_free start ->
  exists out (hop : bytes -> nat),
    traverse db spec start = Some out /\ NoDup out /\
    StronglySorted (fun a b => hop a <= hop b) out /\
    (forall id, id ∈ out -> edge_path E spec start id (hop id) /\ hop id <= ts_depth spec) /\
    (forall s, s ∈ start -> s ∈ out) /\
    length out <= max (ts_limit spec) (length start) /\
    (length out < ts_limit spec ->
     forall id d, edge_path E spec start id d -> d <= ts_depth spec -> id ∈ out /\ hop id <= d).
Proof.
  intros HE Hs. destruct (walk_spec (neighbors db spec) (ts_depth spec) (ts_limit spec) start)
    as (out & hop & Hw & H1 & H2 & H3 & H4 & H5 & H6).
  exists out, hop. split_and!; try done.
  - intros id [Hp Hd]%H3. split; [by apply (path_edges db)|done].
  - intros Hl id d Hp. apply H6; [done|]. by apply (path_edges db E).
Qed.
End Properties.

Section Witnesses.

Definition two_edges : @Db plain_number :=
  relate (relate (fun _ => ∅) (str "a") (str "cites") (str "b")) (str "b") (str "cites") (str "c").
Definition in_two_edges (r : Relation) : Prop :=
  r = mkRelation (str "b") (str "cites") (str "c") \/
  r = mkRelation (str "a") (str "cites") (str "b") \/ no_edges r.

Lemma relation_ok_dec f v t :
  bool_decide (nul_free f /\ nul_free v /\ nul_free t) && valid_utf8 f && valid_utf8 v && valid_utf8 t = true ->
  relation_ok (mkRelation f v t).
Proof. rewrite !andb_true_iff, bool_decide_eq_true. unfold relation_ok, name_ok. cbn. tauto. Qed.

Lemma no_edges_empty : edges_are (fun _ => ∅ : gmap bytes (@Row plain_number)) no_edges.
Proof.
  split; [done|]. intros k. rewrite lookup_empty. split; [by intros [? ?]|]. by intros (? & [] & _).
Qed.

Lemma two_edges_are : edges_are two_edges in_two_edges.
Proof.
  apply relate_edges; [apply relate_edges; [apply no_edges_empty|]|];
    apply relation_ok_dec; vm_compute; reflexivity.
Qed.

Lemma relate_unrelate_refine_witness :
  edges_are (relate two_edges (str "a") (str "cites") (str "b"))
    (fun r => r = mkRelation (str "a") (str "cites") (str "b") \/ in_two_edges r) /\
  edges_are (unrelate two_edges (str "a") (str "cites") (str "b"))
    (fun r => r <> mkRelation (str "a") (str "cites") (str "b") /\ in_two_edges r).
Proof.
  apply (relate_unrelate_refine two_edges in_two_edges (str "a") (str "cites") (str "b") two_edges_are).
  apply relation_ok_dec. vm_compute. reflexivity.
Defined.

Lemma relations_exact_witness :
  let r := mkRelation (str "b") (str "cites") (str "c") in
  (r ∈ relations_out two_edges (str "b") None <->
     in_two_edges r /\ r_from r = str "b" /\ verb_is None (r_verb r)) /\
  (r ∈ relations_in two_edges (str "b") None <->
     in_two_edges r /\ r_to r = str "b" /\ verb_is None (r_verb r)).
Proof.
  intros r. apply (relations_exact two_edges in_two_edges (str "b") None r two_edges_are); [|done].
  refine (bool_decide_eq_true_1 _ _). vm_compute. reflexivity.
Defined.

Lemma traverse_neighborhood_witness :
  let spec := mkSpec [] true false 2 3 in
  traverse two_edges spec [str "a"] = Some [str "a"; str "b"; str "c"] /\
  exists out (hop : bytes -> nat),
    traverse two_edges spec [str "a"] = Some out /\ NoDup out /\
    StronglySorted (fun a b => hop a <= hop b) out /\
    (forall id, id ∈ out -> edge_path in_two_edges spec [str "a"] id (hop id) /\ hop id <= ts_depth spec) /\
    (forall s, s ∈ [str "a"] -> s ∈ out) /\
    length out <= max (ts_limit spec) (length [str "a"]) /\
    (length out < ts_limit spec ->
     forall id d, edge_path in_two_edges spec [str "a"] id d -> d <= ts_depth spec -> id ∈ out /\ hop id <= d).
Proof.
  intros spec. split; [vm_compute; reflexivity|].
  apply (traverse_neighborhood two_edges in_two_edges spec [str "a"] two_edges_are).
  repeat constructor. refine (bool_decide_eq_true_1 _ _). vm_compute. reflexivity.
Defined.

(** the cap does not bind the starts: a traversal of limit one from three
    ids returns all three. *)
Theorem traverse_exceeds_limit :
  traverse two_edges (mkSpec [] true true 2 1) [str "x"; str "y"; str "z"] =
  Some [str "x"; str "y"; str "z"].
Proof. vm_compute. reflexivity. Qed.

End Witnesses.
