(* ===== verification/Store.v ===== *)
(** * The write path of the recall store
      (crates/connxism/src/store.rs and txn.rs, the quotas of estate.rs)

    A transaction owns a batch and the estate's counters: it reads the
    counters once, threads them through its statements, and puts them back in
    one atomic write at commit. Registrations (the estate's dimension, the
    named spaces, the collection registry) are written at once, which is why
    the operations below return the store even when they fail. *)
From S2P Require Import Prelude Floats ByteOrder Utf8 Json RroTime Geo Query Keys Model Kv Pending.
#[local] Set Default Goal Selector "!".
#[local] Set Warnings "-register-all".
Local Open Scope Z_scope.

(** What the store asks of a text analyzer; text.rs is one. *)
Class TextAnalyzer := analyze : bytes -> list bytes.

Inductive RroError : Type :=
  | NotInitialized
  | DimMismatch (expected got : Z)
  | SchemaViolation (coll field ty : bytes)
  | MultiDimsDisagree
  | IdTooLong
  | IndexKeyTooLong (field : bytes)
  | NoSuchDocument (id : bytes)
  | NoSuchIndex (field : bytes)
  | UnknownFieldType (ty : bytes)
  | QuotaBatch (len cap : Z)
  | QuotaPayload (id : bytes) (len cap : Z)
  | QuotaDocs (existing net_new cap : Z)
  | QuotaTopK (top_k cap : Z)
  | PrefetchTooDeep
  | BadPosting (b : bytes)
  | NoPositiveExample
  | NoSuchNode (id : bytes)
  | NoSuchConnector (id : bytes)
  | CompactionRaced
  | SelectNeedsEmbedder
  | LiveIsAStream
  | EmbedError (message : bytes)
  | Message (message : bytes)
  | Panic.

Record Quotas : Type := mkQuotas {
  max_docs : option Z;
  max_payload_bytes : option Z;
  max_top_k : option Z;
  max_batch : option Z;
}.
Definition quotas_default : Quotas := mkQuotas None None None None.
Definition quotas_strict : Quotas := mkQuotas None (Some (64 * 1024)) (Some 1024) (Some 4096).

(** [u64] addition (release arithmetic) and [saturating_sub]. *)
Definition u64_add (x y : Z) : Z := (x + y) mod two64.
Definition u64_sub (x y : Z) : Z := Z.max 0 (x - y).

(** [HashSet::insert] guarding an update, over a list: the update runs once
    per distinct term. *)
Definition on_distinct {A} (f : bytes -> A -> A) (ts : list bytes) (a : A) : A :=
  (fold_left (fun '(seen, a) t =>
     if decide (t ∈ seen) then (seen, a) else ({[t]} ∪ seen, f t a)) ts (∅ : gset bytes, a)).2.

Inductive GraphOp : Type :=
  | GUpsert (id : bytes) (e : list f32)
  | GRemove (id : bytes).

Definition Schema : Type := gmap bytes (gmap bytes bytes).

Section store.
Context `{SerdeNumber} `{Libm} `{TextAnalyzer}.
(** [Value::to_string]; the length of a metadata map as JSON text; the clock
    reading taken for the change with a given sequence number. *)
Variable json_text : Json -> bytes.
Variable json_len : Metadata -> Z.
Variable now_ms : Z -> Z.

(** ** Typed rows of the meta family *)

(** [Db::get_u64] *)
Definition get_u64 (db : Db) (k : bytes) : Z :=
  match get_cf db CF_META k with Some (RBytes b) => from_le_bytes (take 8 b) | _ => 0 end.
Definition get_doc (db : Db) (id : bytes) : option StoredDoc :=
  match get_cf db CF_DOCS id with Some (RDoc d) => Some d | _ => None end.
Definition get_info (db : Db) : option EstateInfo :=
  match get_cf db CF_META META_ESTATE with Some (RInfo i) => Some i | _ => None end.
Definition get_shapes (db : Db) : gmap bytes Z :=
  match get_cf db CF_META META_SHAPES with Some (RShapes m) => m | _ => ∅ end.
Definition get_names (db : Db) (k : bytes) : list bytes :=
  match get_cf db CF_META k with Some (RNames l) => l | _ => [] end.
Definition get_schema (db : Db) : Schema :=
  match get_cf db CF_META META_SCHEMA with Some (RSchema m) => m | _ => ∅ end.
Definition put_info (db : Db) (i : EstateInfo) : Db := put_cf db CF_META META_ESTATE (RInfo i).
(** [indexed_fields] (filter.rs) *)
Definition indexed_fields (db : Db) : list bytes := get_names db META_PIDX.

(** ** Transactions (txn.rs) *)

Record Tx : Type := mkTx {
  batch : Batch;
  doc_count : Z;
  total_tokens : Z;
  feed_seq : Z;
  shapes : gmap bytes Z;
  counters_dirty : bool;
  graph_ops : list GraphOp;
}.

Definition begin (db : Db) : Tx :=
  mkTx [] (get_u64 db META_DOC_COUNT) (get_u64 db META_TOTAL_TOKENS) (get_u64 db META_FEED_SEQ)
    (get_shapes db) false [].

Definition touch_counters (tx : Tx) : Tx :=
  mkTx (batch tx) (doc_count tx) (total_tokens tx) (feed_seq tx) (shapes tx) true (graph_ops tx).

Definition stage (tx : Tx) (ops : Batch) : Tx :=
  mkTx (batch tx ++ ops) (doc_count tx) (total_tokens tx) (feed_seq tx) (shapes tx)
    (counters_dirty tx) (graph_ops tx).

(** The four puts of [commit]. *)
Definition counter_puts (tx : Tx) : Batch :=
  if counters_dirty tx then
    [OpPut CF_META META_DOC_COUNT (u64_le (doc_count tx));
     OpPut CF_META META_TOTAL_TOKENS (u64_le (total_tokens tx));
     OpPut CF_META META_SHAPES (RShapes (shapes tx));
     OpPut CF_META META_FEED_SEQ (u64_le (feed_seq tx))]
  else [].

(** [commit]: the durable write, then the graph operations for the pending
    applier, in order. *)
Definition commit (db : Db) (tx : Tx) : Db * list GraphOp :=
  (db_write db (batch tx ++ counter_puts tx), graph_ops tx).

(** The loop at the end of [commit]; [None] while an upsert blocks. *)
Definition push_graph_op (s : Pending.State) (op : GraphOp) : option Pending.State :=
  match op with
  | GUpsert id e => push_upsert id e s
  | GRemove id => Some (push_remove id s)
  end.
Definition push_graph_ops (ops : list GraphOp) (s : Pending.State) : option Pending.State :=
  fold_left (fun s op => s ≫= fun s => push_graph_op s op) ops (Some s).

(** ** Shared by upsert and remove *)

(** [if let Some(n) = shapes.get_mut(&old.shape.key()) { *n = n.saturating_sub(1) }] *)
Definition shapes_dec (k : bytes) (m : gmap bytes Z) : gmap bytes Z :=
  match m !! k with Some n => <[k := u64_sub n 1]> m | None => m end.
Definition shapes_inc (k : bytes) (m : gmap bytes Z) : gmap bytes Z :=
  <[k := u64_add (default 0 (m !! k)) 1]> m.

Definition pidx_rows (fields : list bytes) (id : bytes) (m : Metadata) : list bytes :=
  omap (fun field => (fun v => pidx_key json_text field v id) <$> m !! field) fields.

Definition change_put (seq : Z) (op : ChangeOp) (id : bytes) : Op :=
  OpPut CF_FEED (be_bytes 8 seq) (RChange (mkChange seq op id (now_ms seq))).

(** ** The registrations of [upsert_into] *)

(** The dimension guard: the estate's dimension is the first record's. *)
Definition register_dim (db : Db) (records : list VectorRecord) : Db * result RroError EstateInfo :=
  match get_info db with
  | None => (db, Err NotInitialized)
  | Some info =>
      match records with
      | [] => (db, Err Panic)
      | r0 :: _ =>
          let dim := Z.of_nat (length (vr_embedding r0)) in
          match ei_dim info with
          | None =>
              let info := mkEstateInfo (ei_id info) (ei_name info) (ei_created_at info)
                            (Some dim) (ei_named_dims info) in
              (put_info db info, Ok info)
          | Some expected =>
              if expected =? dim then (db, Ok info) else (db, Err (DimMismatch expected dim))
          end
      end
  end.

Fixpoint check_dims (dim : Z) (records : list VectorRecord) : result RroError unit :=
  match records with
  | [] => Ok tt
  | r :: records =>
      let got := Z.of_nat (length (vr_embedding r)) in
      if got =? dim then check_dims dim records else Err (DimMismatch dim got)
  end.

(** Schemafull enforcement. *)
Fixpoint check_fields (coll : bytes) (m : Metadata) (fields : list (bytes * bytes)) : result RroError unit :=
  match fields with
  | [] => Ok tt
  | (field, ty) :: fields =>
      match m !! field with
      | Some v =>
          if value_matches_type v ty then check_fields coll m fields
          else Err (SchemaViolation coll field ty)
      | None => check_fields coll m fields
      end
  end.
Fixpoint check_schema (schema : Schema) (records : list VectorRecord) : result RroError unit :=
  match records with
  | [] => Ok tt
  | r :: records =>
      match vr_collection r ≫= fun c => (fun f => (c, f)) <$> schema !! c with
      | Some (c, fields) =>
          _ ← check_fields c (vr_metadata r) (btree_iter fields); check_schema schema records
      | None => check_schema schema records
      end
  end.

(** New collection names, in the order they appear; the registry is sorted
    when it grew. *)
Definition sort_names (l : list bytes) : list bytes := merge_sort ble l.
Definition register_collections (db : Db) (records : list VectorRecord) : Db :=
  let registry := get_names db META_COLLECTIONS in
  let registry' :=
    fold_left (fun reg r =>
      match vr_collection r with
      | Some c => if bool_decide (c ∈ reg) then reg else reg ++ [c]
      | None => reg
      end) records registry in
  if (length registry <? length registry')%nat
  then put_cf db CF_META META_COLLECTIONS (RNames (sort_names registry')) else db.

(** The named spaces of one record, then the agreement of its tokens. *)
Fixpoint register_spaces (named : list (bytes * list f32)) (dims : gmap bytes Z)
  : result RroError (gmap bytes Z) :=
  match named with
  | [] => Ok dims
  | (name, v) :: named =>
      let got := Z.of_nat (length v) in
      match dims !! name with
      | None => register_spaces named (<[name := got]> dims)
      | Some expected =>
          if expected =? got then register_spaces named dims else Err (DimMismatch expected got)
      end
  end.
Fixpoint register_named (records : list VectorRecord) (dims : gmap bytes Z)
  : result RroError (gmap bytes Z) :=
  match records with
  | [] => Ok dims
  | r :: records =>
      dims ← register_spaces (btree_iter (vr_named r)) dims;
      match vr_multi r with
      | first :: _ =>
          if existsb (fun t => negb (length t =? length first)%nat) (vr_multi r)
          then Err MultiDimsDisagree else register_named records dims
      | [] => register_named records dims
      end
  end.

(** ** The rows of one record *)

(** What an overwrite retracts, from the stored document. *)
Definition retract_ops (fields : list bytes) (id : bytes) (old : StoredDoc) : Batch :=
  map (fun term => OpDelete CF_TERMS (term_key term id)) (analyze (sd_text old)) ++
  map (fun dim => OpDelete CF_SPARSE (sparse_key dim id)) (sd_sparse_dims old) ++
  map (fun space => OpDelete CF_NVECS (nvec_key space id)) (sd_named_spaces old) ++
  (if 0 <? sd_multi_len old then [OpDelete CF_MVECS id] else []) ++
  (match sd_collection old with Some c => [OpDelete CF_COLL (coll_key c id)] | None => [] end) ++
  map (OpDelete CF_PIDX) (pidx_rows fields id (sd_metadata old)).

Definition term_freqs (tokens : list bytes) : gmap bytes Z :=
  fold_left (fun tf t => <[t := default 0 (tf !! t) + 1]> tf) tokens ∅.
Definition token_len (tokens : list bytes) : Z := Z.of_nat (length tokens) mod 2 ^ 32.

Definition posting_value (f len : Z) : Row := RBytes (le_bytes 4 f ++ le_bytes 4 len).
Definition term_puts (id : bytes) (tokens : list bytes) : Batch :=
  map (fun '(term, f) => OpPut CF_TERMS (term_key term id) (posting_value f (token_len tokens)))
    (map_to_list (term_freqs tokens)).

(** The index rows of one record, each key guarded. *)
Fixpoint pidx_puts (fields : list bytes) (id : bytes) (m : Metadata) : result RroError Batch :=
  match fields with
  | [] => Ok []
  | field :: fields =>
      match m !! field with
      | Some v =>
          let key := pidx_key json_text field v id in
          if key_too_long key then Err (IndexKeyTooLong field)
          else ops ← pidx_puts fields id m; Ok (OpPut CF_PIDX key (RBytes []) :: ops)
      | None => pidx_puts fields id m
      end
  end.

Definition sparse_pairs (r : VectorRecord) : list (Z * f32) :=
  match vr_sparse r with Some sv => sparse_iter sv | None => [] end.

(** The document row a record is stored as. *)
Definition stored_doc (r : VectorRecord) : StoredDoc :=
  let tokens := analyze (vr_text r) in
  mkStoredDoc (vr_id r) (vr_text r) (vr_metadata r) [] (shape_of (vr_metadata r))
    (token_len tokens) None (sparse_pairs r).*1 (btree_iter (vr_named r)).*1
    (Z.of_nat (length (vr_multi r)) mod 2 ^ 32) (vr_collection r).

(** The puts after the index rows. *)
Definition data_puts (r : VectorRecord) : Batch :=
  let id := vr_id r in
  map (fun '(dim, w) => OpPut CF_SPARSE (sparse_key dim id) (RBytes (f32_le w))) (sparse_pairs r) ++
  map (fun '(name, v) => OpPut CF_NVECS (nvec_key name id) (RBytes (encode_vec v)))
    (btree_iter (vr_named r)) ++
  (if 0 <? Z.of_nat (length (vr_multi r)) mod 2 ^ 32
   then [OpPut CF_MVECS id (RBytes (encode_multi (vr_multi r)))] else []) ++
  (match vr_collection r with Some c => [OpPut CF_COLL (coll_key c id) (RBytes [])] | None => [] end) ++
  [OpPut CF_DOCS id (RDoc (stored_doc r)); OpPut CF_VECS id (RBytes (encode_vec (vr_embedding r)))].

Definition df_add (delta : Z) (term : bytes) (df : gmap bytes Z) : gmap bytes Z :=
  <[term := default 0 (df !! term) + delta]> df.

(** The overwrite block: rows, df deltas and counters of the old version. *)
Definition retract_old (fields : list bytes) (id : bytes) (old : StoredDoc) (tx : Tx) : Tx :=
  mkTx (batch tx ++ retract_ops fields id old) (u64_sub (doc_count tx) 1)
    (u64_sub (total_tokens tx) (sd_token_len old)) (feed_seq tx)
    (shapes_dec (shape_key (sd_shape old)) (shapes tx)) (counters_dirty tx) (graph_ops tx).
Definition retract_df (old : StoredDoc) (df : gmap bytes Z) : gmap bytes Z :=
  on_distinct (df_add (-1)) (analyze (sd_text old)) df.

(** The body of the loop over the records. *)
Definition upsert_record (db : Db) (fields : list bytes) (r : VectorRecord) (st : Tx * gmap bytes Z)
  : result RroError (Tx * gmap bytes Z) :=
  let '(tx, df) := st in
  let id := vr_id r in
  if key_too_long id then Err IdTooLong
  else
    let '(tx, df) :=
      match get_doc db id with
      | Some old => (retract_old fields id old tx, retract_df old df)
      | None => (tx, df)
      end in
    let tokens := analyze (vr_text r) in
    let df := fold_left (fun df term => df_add 1 term df) (map_to_list (term_freqs tokens)).*1 df in
    pidx ← pidx_puts fields id (vr_metadata r);
    Ok (mkTx
          (batch tx ++ term_puts id tokens ++ pidx ++ data_puts r ++ [change_put (feed_seq tx) Upsert id])
          (u64_add (doc_count tx) 1) (u64_add (total_tokens tx) (token_len tokens))
          (u64_add (feed_seq tx) 1) (shapes_inc (shape_key (shape_of (vr_metadata r))) (shapes tx))
          (counters_dirty tx) (graph_ops tx ++ [GUpsert id (vr_embedding r)]),
        df).

Fixpoint upsert_records (db : Db) (fields : list bytes) (records : list VectorRecord)
  (st : Tx * gmap bytes Z) : result RroError (Tx * gmap bytes Z) :=
  match records with
  | [] => Ok st
  | r :: records => st ← upsert_record db fields r st; upsert_records db fields records st
  end.

(** The df merges that close [upsert_into]. *)
Definition df_merges (lexical_stats : bool) (df : gmap bytes Z) : Batch :=
  if lexical_stats then
    omap (fun '(term, delta) => if delta =? 0 then None else Some (OpMergeDf CF_TDF term delta))
      (map_to_list df)
  else [].

Definition upsert_into (lexical_stats : bool) (db : Db) (tx : Tx) (records : list VectorRecord)
  : Db * result RroError Tx :=
  let '(db, info) := register_dim db records in
  match info with
  | Err e => (db, Err e)
  | Ok info =>
      match (_ ← check_dims (default 0 (ei_dim info)) records; check_schema (get_schema db) records) with
      | Err e => (db, Err e)
      | Ok _ =>
          let tx := touch_counters tx in
          let fields := indexed_fields db in
          let db := register_collections db records in
          match register_named records (ei_named_dims info) with
          | Err e => (db, Err e)
          | Ok dims =>
              let db :=
                if bool_decide (dims = ei_named_dims info) then db
                else put_info db (mkEstateInfo (ei_id info) (ei_name info) (ei_created_at info)
                                    (ei_dim info) dims) in
              (db,
               '(tx, df) ← upsert_records db fields records (tx, ∅);
               Ok (stage tx (df_merges lexical_stats df)))
          end
      end
  end.

(** The term deletes of a removal, each first one of its term followed by
    its df merge. *)
Definition remove_terms (lexical_stats : bool) (id : bytes) (terms : list bytes) : Batch :=
  (fold_left (fun '(seen, ops) term =>
     let ops := ops ++ [OpDelete CF_TERMS (term_key term id)] in
     if lexical_stats && negb (bool_decide (term ∈ seen))
     then ({[term]} ∪ seen, ops ++ [OpMergeDf CF_TDF term (-1)])
     else (seen, ops)) terms (∅ : gset bytes, [])).2.

Definition remove_ops (lexical_stats : bool) (fields : list bytes) (id : bytes) (old : StoredDoc) : Batch :=
  remove_terms lexical_stats id (analyze (sd_text old)) ++
  map (OpDelete CF_PIDX) (pidx_rows fields id (sd_metadata old)) ++
  map (fun dim => OpDelete CF_SPARSE (sparse_key dim id)) (sd_sparse_dims old) ++
  map (fun space => OpDelete CF_NVECS (nvec_key space id)) (sd_named_spaces old) ++
  (if 0 <? sd_multi_len old then [OpDelete CF_MVECS id] else []) ++
  (match sd_collection old with Some c => [OpDelete CF_COLL (coll_key c id)] | None => [] end) ++
  [OpDelete CF_DOCS id; OpDelete CF_VECS id].

Definition remove_into (lexical_stats : bool) (db : Db) (tx : Tx) (id : bytes) : Tx :=
  match get_doc db id with
  | None => tx
  | Some old =>
      mkTx
        (batch tx ++ remove_ops lexical_stats (indexed_fields db) id old ++
           [change_put (feed_seq tx) Remove id])
        (u64_sub (doc_count tx) 1) (u64_sub (total_tokens tx) (sd_token_len old))
        (u64_add (feed_seq tx) 1) (shapes_dec (shape_key (sd_shape old)) (shapes tx))
        true (graph_ops tx ++ [GRemove id])
  end.

(** ** The public operations *)

Inductive WriteOp : Type :=
  | WUpsert (records : list VectorRecord)
  | WRemove (id : bytes).

Definition write_op (lexical_stats : bool) (db : Db) (tx : Tx) (op : WriteOp) : Db * result RroError Tx :=
  match op with
  | WUpsert records => upsert_into lexical_stats db tx records
  | WRemove id => (db, Ok (remove_into lexical_stats db tx id))
  end.

Fixpoint write_ops (lexical_stats : bool) (db : Db) (tx : Tx) (ops : list WriteOp) : Db * result RroError Tx :=
  match ops with
  | [] => (db, Ok tx)
  | op :: ops =>
      let '(db, r) := write_op lexical_stats db tx op in
      match r with Ok tx => write_ops lexical_stats db tx ops | Err e => (db, Err e) end
  end.

(** [ConnXRecall::transaction] *)
Definition transaction (lexical_stats : bool) (db : Db) (ops : list WriteOp)
  : Db * result RroError (list GraphOp) :=
  match ops with
  | [] => (db, Ok [])
  | _ =>
      let '(db, r) := write_ops lexical_stats db (begin db) ops in
      match r with
      | Ok tx => let '(db, gops) := commit db tx in (db, Ok gops)
      | Err e => (db, Err e)
      end
  end.

(** The quota checks of [upsert], before and inside the writer's lock. *)
Definition check_batch (q : Quotas) (records : list VectorRecord) : result RroError unit :=
  match max_batch q with
  | Some cap =>
      if cap <? Z.of_nat (length records) then Err (QuotaBatch (Z.of_nat (length records)) cap) else Ok tt
  | None => Ok tt
  end.
Fixpoint check_payloads (cap : Z) (records : list VectorRecord) : result RroError unit :=
  match records with
  | [] => Ok tt
  | r :: records =>
      if cap <? json_len (vr_metadata r) then Err (QuotaPayload (vr_id r) (json_len (vr_metadata r)) cap)
      else check_payloads cap records
  end.
Definition net_new (db : Db) (records : list VectorRecord) : Z :=
  Z.of_nat (length (filter (fun r => get_doc db (vr_id r) = None) records)).
Definition check_docs (q : Quotas) (db : Db) (records : list VectorRecord) : result RroError unit :=
  match max_docs q with
  | Some cap =>
      let existing := get_u64 db META_DOC_COUNT in
      if cap <? u64_add existing (net_new db records)
      then Err (QuotaDocs existing (net_new db records) cap) else Ok tt
  | None => Ok tt
  end.

(** [Recall::upsert] *)
Definition upsert (q : Quotas) (lexical_stats : bool) (db : Db) (records : list VectorRecord)
  : Db * result RroError (list GraphOp) :=
  match records with
  | [] => (db, Ok [])
  | _ =>
      match (_ ← check_batch q records;
             _ ← (match max_payload_bytes q with Some cap => check_payloads cap records | None => Ok tt end);
             check_docs q db records) with
      | Err e => (db, Err e)
      | Ok _ =>
          let '(db, r) := upsert_into lexical_stats db (begin db) records in
          match r with
          | Ok tx => let '(db, gops) := commit db tx in (db, Ok gops)
          | Err e => (db, Err e)
          end
      end
  end.

(** [Recall::remove], [remove_blocking] *)
Definition remove (lexical_stats : bool) (db : Db) (id : bytes) : Db * list GraphOp :=
  commit db (remove_into lexical_stats db (begin db) id).

(** ** Payload mutation *)

Definition mutate_payload (f : Metadata -> Metadata) (db : Db) (id : bytes) : Db * result RroError unit :=
  match get_doc db id with
  | None => (db, Err (NoSuchDocument id))
  | Some doc =>
      let fields := indexed_fields db in
      let m := f (sd_metadata doc) in
      let doc' := mkStoredDoc (sd_id doc) (sd_text doc) m (sd_tags doc) (shape_of m) (sd_token_len doc)
                    (sd_connector_id doc) (sd_sparse_dims doc) (sd_named_spaces doc) (sd_multi_len doc)
                    (sd_collection doc) in
      let shapes := shapes_inc (shape_key (shape_of m))
                      (shapes_dec (shape_key (sd_shape doc)) (get_shapes db)) in
      let seq := get_u64 db META_FEED_SEQ in
      (db_write db
         (map (OpDelete CF_PIDX) (pidx_rows fields id (sd_metadata doc)) ++
          map (fun k => OpPut CF_PIDX k (RBytes [])) (pidx_rows fields id m) ++
          [OpPut CF_DOCS id (RDoc doc'); change_put seq Upsert id;
           OpPut CF_META META_FEED_SEQ (u64_le (u64_add seq 1));
           OpPut CF_META META_SHAPES (RShapes shapes)]),
       Ok tt)
  end.

Definition set_payload (patch : Metadata) : Db -> bytes -> Db * result RroError unit :=
  mutate_payload (fun m => patch ∪ m).
Definition overwrite_payload (meta : Metadata) : Db -> bytes -> Db * result RroError unit :=
  mutate_payload (fun _ => meta).
Definition delete_payload_keys (keys : list bytes) : Db -> bytes -> Db * result RroError unit :=
  mutate_payload (fun m => fold_left (fun m k => delete k m) keys m).
Definition clear_payload : Db -> bytes -> Db * result RroError unit :=
  mutate_payload (fun _ => ∅).
End store.
