(* ===== verification/StoreFacts.v ===== *)
(** * The write path keeps rows, counters and feed in step

    The abstract store is a map from ids to records and a log of changes.
    [Refines] says what the column families and counters are for it; the
    operations of Store refine the plain map operations. *)
From S2P Require Import Prelude Floats ByteOrder Utf8 Json RroTime Geo Query Keys KeysFacts Model.
From S2P Require Import Kv Pending Store.
#[local] Set Default Goal Selector "!".
#[local] Set Warnings "-clear-no-such-hyp".
Local Open Scope Z_scope.

(** Case analysis on every [decide] of the goal. *)
Ltac split_decides :=
  repeat match goal with |- context[decide ?P] => destruct (decide P) end;
  first [lia|exfalso; tauto|exfalso; set_solver|set_solver].

(** ** Sums over a map *)

Section msum.
Context {A : Type}.
Implicit Types (f : A -> Z) (m : gmap bytes A).

Definition msum f m : Z := map_fold (fun _ a acc => f a + acc) 0 m.

Lemma msum_empty f : msum f ∅ = 0.
Proof. apply map_fold_empty. Qed.

Lemma msum_insert_new f m i x : m !! i = None -> msum f (<[i := x]> m) = f x + msum f m.
Proof. intros Hi. unfold msum. rewrite map_fold_insert_L; [done|intros; lia|done]. Qed.

Lemma msum_delete f m i : msum f (delete i m) = msum f m - from_option f 0 (m !! i).
Proof.
  destruct (m !! i) as [x|] eqn:E; cbn.
  - rewrite <- (insert_delete_id m i x E) at 2. rewrite msum_insert_new by apply lookup_delete_eq. lia.
  - rewrite delete_id by done. lia.
Qed.

Lemma msum_insert f m i x : msum f (<[i := x]> m) = f x + msum f m - from_option f 0 (m !! i).
Proof.
  rewrite <- insert_delete_eq, msum_insert_new by apply lookup_delete_eq. rewrite msum_delete. lia.
Qed.

Lemma msum_nonneg f m : (forall a, 0 <= f a) -> 0 <= msum f m.
Proof.
  intros Hf. induction m as [|i x m Hi IH] using map_ind; [by rewrite msum_empty|].
  rewrite msum_insert_new by done. specialize (Hf x). lia.
Qed.

Lemma msum_lookup f m i x : (forall a, 0 <= f a) -> m !! i = Some x -> f x <= msum f m.
Proof.
  intros Hf Hi. pose proof (msum_delete f m i) as Hd. rewrite Hi in Hd. cbn in Hd.
  pose proof (msum_nonneg f (delete i m) Hf). lia.
Qed.

Lemma msum_one m : msum (fun _ => 1) m = Z.of_nat (size m).
Proof.
  induction m as [|i x m Hi IH] using map_ind; [by rewrite msum_empty, map_size_empty|].
  rewrite msum_insert_new, map_size_insert_None by done. lia.
Qed.

Lemma msum_le f g m : (forall a, f a <= g a) -> msum f m <= msum g m.
Proof.
  intros Hf. induction m as [|i x m Hi IH] using map_ind; [by rewrite !msum_empty|].
  rewrite !msum_insert_new by done. specialize (Hf x). lia.
Qed.
End msum.

(** ** Batches of puts and deletes *)

Section batch_facts.
Context `{SerdeNumber}.

Definition op_key (op : Op) : bytes :=
  match op with OpPut _ k _ | OpDelete _ k | OpMergeDf _ k _ => k end.
Definition is_put (op : Op) : Prop := match op with OpPut _ _ _ => True | _ => False end.
Definition is_delete (op : Op) : Prop := match op with OpDelete _ _ => True | _ => False end.

Definition apply_ops (b : Batch) (db : Db) : Db := fold_left Kv.apply_op b db.

Lemma apply_ops_app b1 b2 db : apply_ops (b1 ++ b2) db = apply_ops b2 (apply_ops b1 db).
Proof. apply fold_left_app. Qed.

Definition at_row (cf : CF) (k : bytes) (op : Op) : Prop := op_cf op = cf /\ op_key op = k /\ no_merge op.

Lemma apply_op_miss db op cf k : ~ at_row cf k op -> Kv.apply_op db op cf !! k = db cf !! k.
Proof.
  intros Hop. unfold at_row in Hop. destruct op as [c k' v|c k'|c k' d]; cbn [Kv.apply_op op_cf op_key no_merge] in *.
  - rewrite lookup_put_cf. by rewrite decide_False by naive_solver.
  - rewrite lookup_delete_cf. by rewrite decide_False by naive_solver.
  - done.
Qed.

Lemma apply_ops_miss b db cf k :
  (forall op, op ∈ b -> ~ at_row cf k op) -> apply_ops b db cf !! k = db cf !! k.
Proof.
  revert db. induction b as [|op b IH]; intros db Hb; [done|]. cbn.
  change (apply_ops b (Kv.apply_op db op) cf !! k = db cf !! k).
  rewrite IH by (intros op' Hop'; apply Hb; by right). apply apply_op_miss, Hb. by left.
Qed.

(** What a run of puts leaves at a row: the last put, or what was there. *)
Lemma apply_puts b db cf k :
  Forall is_put b ->
  apply_ops b db cf !! k =
  match apply_ops b (fun _ => ∅) cf !! k with Some v => Some v | None => db cf !! k end.
Proof.
  intros Hb. induction b as [|op b IH] using rev_ind; [by cbn; rewrite lookup_empty|].
  apply Forall_app in Hb as [Hb Hop]. rewrite Forall_singleton in Hop. rewrite !apply_ops_app. cbn.
  destruct op as [c k' v| |]; [|by destruct Hop..]. cbn. rewrite !lookup_put_cf.
  destruct (decide _); [done|]. by apply IH.
Qed.

Lemma apply_puts_elem b cf k v :
  apply_ops b (fun _ => ∅) cf !! k = Some v -> OpPut cf k v ∈ b.
Proof.
  induction b as [|op b IH] using rev_ind; [by cbn; rewrite lookup_empty|].
  rewrite apply_ops_app. cbn. rewrite elem_of_app, list_elem_of_singleton.
  destruct op as [c k' v'|c k'|c k' d]; cbn.
  - rewrite lookup_put_cf. destruct (decide _) as [[-> ->]|]; [|by auto]. intros [= ->]. by right.
  - rewrite lookup_delete_cf. destruct (decide _); [done|by auto].
  - auto.
Qed.

Lemma apply_puts_some b cf k v :
  Forall is_put b -> OpPut cf k v ∈ b -> is_Some (apply_ops b (fun _ => ∅) cf !! k).
Proof.
  intros Hb. induction b as [|op b IH] using rev_ind; [by intros ?%elem_of_nil|].
  apply Forall_app in Hb as [Hb Hop]. rewrite Forall_singleton in Hop. rewrite apply_ops_app.
  rewrite elem_of_app, list_elem_of_singleton. cbn. destruct op as [c k' v'| |]; [|by destruct Hop..]. cbn.
  rewrite lookup_put_cf. intros [Hin|[= <- <- <-]].
  - destruct (decide _); [by eexists|by apply IH].
  - rewrite decide_True by done. by eexists.
Qed.

Lemma apply_deletes b db cf k :
  (forall op, op ∈ b -> no_merge op -> is_delete op) -> OpDelete cf k ∈ b -> apply_ops b db cf !! k = None.
Proof.
  intros Hb. induction b as [|op b IH] using rev_ind; [by intros ?%elem_of_nil|].
  rewrite apply_ops_app. rewrite elem_of_app, list_elem_of_singleton. cbn.
  assert (no_merge op -> is_delete op) as Hop by (apply Hb, elem_of_app; right; by left).
  assert (forall op, op ∈ b -> no_merge op -> is_delete op) as Hb'
    by (intros o Ho; apply Hb, elem_of_app; by left).
  intros [Hin|<-].
  - destruct op as [c k' v'|c k'|c k' d]; cbn; [by destruct Hop| |by apply IH].
    rewrite lookup_delete_cf. destruct (decide _); [done|by apply IH].
  - cbn. rewrite lookup_delete_cf. by rewrite decide_True.
Qed.

Lemma apply_deletes_none b db cf k :
  (forall op, op ∈ b -> no_merge op -> is_delete op) -> db cf !! k = None -> apply_ops b db cf !! k = None.
Proof.
  intros Hb Hk. induction b as [|op b IH] using rev_ind; [done|]. rewrite apply_ops_app. cbn.
  assert (no_merge op -> is_delete op) as Hop by (apply Hb, elem_of_app; right; by left).
  assert (apply_ops b db cf !! k = None) as Hn by (apply IH; intros o Ho; apply Hb, elem_of_app; by left).
  destruct op as [c k' v'|c k'|c k' d]; cbn; [by destruct Hop| |done].
  rewrite lookup_delete_cf. by destruct (decide _).
Qed.
End batch_facts.

(** ** Whose row a key is *)

(** What follows the last separator. *)
Fixpoint last_segment (k : bytes) : bytes :=
  match k with
  | [] => []
  | b :: k' => if bool_decide (SEP ∈ k) then last_segment k' else k
  end.

Lemma last_segment_nul_free b : nul_free b -> last_segment b = b.
Proof. intros Hb. destruct b as [|c b]; [done|]. cbn. by rewrite bool_decide_eq_false_2. Qed.

Lemma last_segment_sep a b : nul_free b -> last_segment (a ++ SEP :: b) = b.
Proof.
  intros Hb. induction a as [|c a IH]; cbn [app last_segment].
  - rewrite bool_decide_eq_true_2 by (by left). by apply last_segment_nul_free.
  - rewrite bool_decide_eq_true_2; [done|]. right. apply elem_of_app. right. by left.
Qed.

(** The families that hold rows of documents, and the document of a key. *)
Definition data_cf (cf : CF) : bool :=
  match cf with
  | CF_DOCS | CF_VECS | CF_MVECS | CF_TERMS | CF_COLL | CF_NVECS | CF_SPARSE | CF_PIDX => true
  | _ => false
  end.
Definition owner (cf : CF) (k : bytes) : bytes :=
  match cf with CF_DOCS | CF_VECS | CF_MVECS => k | _ => last_segment k end.

(** [f] once per distinct term. *)
Section distinct.
Context {A : Type} (f : bytes -> A -> A).

Lemma on_distinct_snoc ts t a :
  on_distinct f (ts ++ [t]) a =
  if decide (t ∈ ts) then on_distinct f ts a else f t (on_distinct f ts a).
Proof.
  unfold on_distinct. rewrite fold_left_app. cbn.
  assert (forall ts, (fold_left (fun '(seen, a) t => if decide (t ∈ seen) then (seen, a)
    else ({[t]} ∪ seen, f t a)) ts (∅ : gset bytes, a)).1 = list_to_set ts) as Hseen.
  { clear. induction ts as [|t ts IH] using rev_ind; [done|]. rewrite fold_left_app. cbn.
    destruct (fold_left _ ts _) as [seen b]. cbn in IH. subst seen.
    destruct (decide _) as [Hin|Hin]; cbn; [|set_solver]. apply elem_of_list_to_set in Hin. set_solver. }
  specialize (Hseen ts). destruct (fold_left _ ts _) as [seen b]. cbn in *. subst seen.
  destruct (decide (t ∈ list_to_set ts)) as [Hin|Hin]; rewrite elem_of_list_to_set in Hin.
  - by rewrite decide_True.
  - by rewrite decide_False.
Qed.
End distinct.

Definition df_of (df : gmap bytes Z) (t : bytes) : Z := default 0 (df !! t).

Lemma df_of_add d t df t' : df_of (df_add d t df) t' = df_of df t' + (if decide (t' = t) then d else 0).
Proof.
  unfold df_of, df_add. destruct (decide (t' = t)) as [->|Hne].
  - by rewrite lookup_insert_eq.
  - rewrite lookup_insert_ne by done. lia.
Qed.

Lemma on_distinct_df d ts df t :
  df_of (on_distinct (df_add d) ts df) t = df_of df t + (if decide (t ∈ ts) then d else 0).
Proof.
  induction ts as [|x ts IH] using rev_ind.
  - rewrite decide_False by apply not_elem_of_nil. unfold on_distinct. cbn. lia.
  - rewrite on_distinct_snoc. destruct (decide (x ∈ ts)) as [Hin|Hin].
    + rewrite IH. split_decides.
    + rewrite df_of_add, IH. destruct (decide (t = x)) as [->|Hne].
      * rewrite (decide_False (P := x ∈ ts)) by done. rewrite decide_True by set_solver. lia.
      * split_decides.
Qed.

Lemma term_freqs_dom ts t : is_Some (term_freqs ts !! t) <-> t ∈ ts.
Proof.
  unfold term_freqs. induction ts as [|x ts IH] using rev_ind; [cbn; rewrite lookup_empty, is_Some_alt; set_solver|].
  rewrite fold_left_app. cbn. rewrite lookup_insert_is_Some'. rewrite IH. set_solver.
Qed.

Lemma fold_df_add d ts df t :
  NoDup ts -> df_of (fold_left (fun df t => df_add d t df) ts df) t = df_of df t + (if decide (t ∈ ts) then d else 0).
Proof.
  intros Hn. revert df. induction Hn as [|x ts Hx Hn IH]; intros df; cbn [fold_left].
  - rewrite decide_False by apply not_elem_of_nil. lia.
  - rewrite IH, df_of_add. destruct (decide (t = x)) as [->|Hne].
    + rewrite (decide_False (P := x ∈ ts)) by done. rewrite decide_True by set_solver. lia.
    + split_decides.
Qed.

Lemma term_freqs_df ts df t :
  df_of (fold_left (fun df t => df_add 1 t df) (map_to_list (term_freqs ts)).*1 df) t =
  df_of df t + (if decide (t ∈ ts) then 1 else 0).
Proof.
  rewrite fold_df_add by apply NoDup_fst_map_to_list. f_equal.
  assert (t ∈ (map_to_list (term_freqs ts)).*1 <-> t ∈ ts) as Hiff.
  { rewrite <- (term_freqs_dom ts t), list_elem_of_fmap. split.
    - intros ([t' n] & -> & Hin%elem_of_map_to_list). by exists n.
    - intros [n Hn]. exists (t, n). split; [done|]. by apply elem_of_map_to_list. }
  split_decides.
Qed.

(** ** The rows of a record *)

Section rows.
Context `{SerdeNumber} `{Libm} `{TextAnalyzer} (json_text : Json -> bytes).

Definition record_puts (fields : list bytes) (r : VectorRecord) : Batch :=
  term_puts (vr_id r) (analyze (vr_text r)) ++
  map (fun k => OpPut CF_PIDX k (RBytes [])) (pidx_rows json_text fields (vr_id r) (vr_metadata r)) ++
  data_puts r.

Definition doc_rows (fields : list bytes) (r : VectorRecord) : Db :=
  apply_ops (record_puts fields r) (fun _ => ∅).

Lemma pidx_puts_rows fields id m ops :
  pidx_puts json_text fields id m = Ok ops ->
  ops = map (fun k => OpPut CF_PIDX k (RBytes [])) (pidx_rows json_text fields id m).
Proof.
  revert ops. induction fields as [|f fields IH]; intros ops; cbn; [by intros [= <-]|].
  destruct (m !! f) as [v|]; [|apply IH]. destruct (key_too_long _); [done|].
  intros (ops' & Hops & [= <-])%bind_ok. cbn. f_equal. by apply IH.
Qed.

Lemma Forall_map_intro {A B} (P : B -> Prop) (f : A -> B) l : (forall a, P (f a)) -> Forall P (map f l).
Proof. intros Hf. induction l; constructor; auto. Qed.

Lemma record_puts_put fields r : Forall is_put (record_puts fields r).
Proof.
  unfold record_puts, term_puts, data_puts. rewrite !Forall_app. split_and!;
    try (apply Forall_map_intro; by intros []); try (by apply Forall_map_intro); try (by repeat constructor).
  - destruct (0 <? _); repeat constructor.
  - destruct (vr_collection r); repeat constructor.
Qed.

Lemma owner_sep cf a id :
  cf <> CF_DOCS -> cf <> CF_VECS -> cf <> CF_MVECS -> nul_free id -> owner cf (a ++ SEP :: id) = id.
Proof. intros. destruct cf; try done; by apply last_segment_sep. Qed.

Lemma pidx_rows_owner fields id m k :
  nul_free id -> k ∈ pidx_rows json_text fields id m -> owner CF_PIDX k = id.
Proof.
  intros Hid (f & _ & Hk)%list_elem_of_omap. destruct (m !! f) as [v|]; [|done]. injection Hk as <-.
  unfold pidx_key. rewrite app_comm_cons, app_assoc. by apply owner_sep.
Qed.

(** An operation on a row of document [id]. *)
Definition owned (id : bytes) (op : Op) : Prop :=
  data_cf (op_cf op) = true /\ owner (op_cf op) (op_key op) = id.

Lemma record_puts_owned fields r op :
  nul_free (vr_id r) -> op ∈ record_puts fields r -> owned (vr_id r) op.
Proof.
  intros Hid. unfold record_puts, term_puts, data_puts. rewrite !elem_of_app.
  intros [Hop|[Hop|[Hop|[Hop|[Hop|[Hop|Hop]]]]]].
  - apply list_elem_of_fmap in Hop as ([t f] & -> & _). split; [done|]. by apply owner_sep.
  - apply list_elem_of_fmap in Hop as (k & -> & Hk). split; [done|]. by eapply pidx_rows_owner.
  - apply list_elem_of_fmap in Hop as ([d w] & -> & _). split; [done|]. by apply owner_sep.
  - apply list_elem_of_fmap in Hop as ([n v] & -> & _). split; [done|]. by apply owner_sep.
  - destruct (0 <? _); [|by apply elem_of_nil in Hop]. by apply list_elem_of_singleton in Hop as ->.
  - destruct (vr_collection r); [|by apply elem_of_nil in Hop]. apply list_elem_of_singleton in Hop as ->.
    split; [done|]. by apply owner_sep.
  - repeat (apply elem_of_cons in Hop as [->|Hop]; [done|]). by apply elem_of_nil in Hop.
Qed.

Lemma retract_ops_owned fields id old op :
  nul_free id -> op ∈ retract_ops json_text fields id old -> is_delete op /\ owned id op.
Proof.
  intros Hid. unfold retract_ops. rewrite !elem_of_app. intros [Hop|[Hop|[Hop|[Hop|[Hop|Hop]]]]].
  - apply list_elem_of_fmap in Hop as (t & -> & _). (do 2 (split; [done|])). by apply owner_sep.
  - apply list_elem_of_fmap in Hop as (t & -> & _). (do 2 (split; [done|])). by apply owner_sep.
  - apply list_elem_of_fmap in Hop as (t & -> & _). (do 2 (split; [done|])). by apply owner_sep.
  - destruct (0 <? _); [|by apply elem_of_nil in Hop]. by apply list_elem_of_singleton in Hop as ->.
  - destruct (sd_collection old); [|by apply elem_of_nil in Hop]. apply list_elem_of_singleton in Hop as ->.
    (do 2 (split; [done|])). by apply owner_sep.
  - apply list_elem_of_fmap in Hop as (k & -> & Hk). (do 2 (split; [done|])). by eapply pidx_rows_owner.
Qed.

Lemma remove_terms_elem ls id ts op :
  op ∈ remove_terms ls id ts ->
  (exists t, op = OpDelete CF_TERMS (term_key t id)) \/ (exists t d, op = OpMergeDf CF_TDF t d).
Proof.
  unfold remove_terms. induction ts as [|t ts IH] using rev_ind; [by intros ?%elem_of_nil|].
  rewrite fold_left_app. cbn. destruct (fold_left _ ts _) as [seen ops]. cbn in IH.
  destruct (_ && _); cbn; rewrite !elem_of_app, ?list_elem_of_singleton; naive_solver.
Qed.

Lemma remove_terms_deletes ls id ts t : t ∈ ts -> OpDelete CF_TERMS (term_key t id) ∈ remove_terms ls id ts.
Proof.
  unfold remove_terms. induction ts as [|t' ts IH] using rev_ind; [by intros ?%elem_of_nil|].
  rewrite fold_left_app. cbn. destruct (fold_left _ ts _) as [seen ops]. cbn in IH.
  rewrite elem_of_app, list_elem_of_singleton. intros [Hin| ->].
  - destruct (_ && _); cbn; rewrite !elem_of_app; auto.
  - destruct (_ && _); cbn; rewrite !elem_of_app, ?list_elem_of_singleton; auto.
Qed.

Lemma remove_ops_owned ls fields id old op :
  nul_free id -> op ∈ remove_ops json_text ls fields id old ->
  (is_delete op /\ owned id op) \/ (exists t d, op = OpMergeDf CF_TDF t d).
Proof.
  intros Hid. unfold remove_ops. rewrite !elem_of_app. intros [Hop|[Hop|[Hop|[Hop|[Hop|[Hop|Hop]]]]]].
  - apply remove_terms_elem in Hop as [[t ->]|Hm]; [left|by right]. (do 2 (split; [done|])). by apply owner_sep.
  - left. apply list_elem_of_fmap in Hop as (k & -> & Hk). (do 2 (split; [done|])). by eapply pidx_rows_owner.
  - left. apply list_elem_of_fmap in Hop as (t & -> & _). (do 2 (split; [done|])). by apply owner_sep.
  - left. apply list_elem_of_fmap in Hop as (t & -> & _). (do 2 (split; [done|])). by apply owner_sep.
  - left. destruct (0 <? _); [|by apply elem_of_nil in Hop]. by apply list_elem_of_singleton in Hop as ->.
  - left. destruct (sd_collection old); [|by apply elem_of_nil in Hop]. apply list_elem_of_singleton in Hop as ->.
    (do 2 (split; [done|])). by apply owner_sep.
  - left. repeat (apply elem_of_cons in Hop as [->|Hop]; [done|]). by apply elem_of_nil in Hop.
Qed.

(** Every row of a record but its document and vector is retracted from the
    stored document; a removal covers these too. *)
Lemma retract_covers fields r cf k v :
  OpPut cf k v ∈ record_puts fields r ->
  ((cf = CF_DOCS \/ cf = CF_VECS) /\ k = vr_id r) \/
  OpDelete cf k ∈ retract_ops json_text fields (vr_id r) (stored_doc r).
Proof.
  unfold record_puts, term_puts, data_puts, retract_ops. rewrite !elem_of_app. cbn [sd_text sd_sparse_dims
    sd_named_spaces sd_multi_len sd_collection sd_metadata stored_doc].
  intros [Hop|[Hop|[Hop|[Hop|[Hop|[Hop|Hop]]]]]].
  - apply list_elem_of_fmap in Hop as ([t f] & [= -> -> ->] & Hin%elem_of_map_to_list). right. left.
    apply list_elem_of_fmap. exists t. split; [done|]. apply term_freqs_dom. by eexists.
  - apply list_elem_of_fmap in Hop as (k' & [= -> -> ->] & Hk). right. do 5 right.
    apply list_elem_of_fmap. by eexists.
  - apply list_elem_of_fmap in Hop as ([d w] & [= -> -> ->] & Hin). right. right. left.
    apply list_elem_of_fmap. exists d. split; [done|]. apply list_elem_of_fmap. by exists (d, w).
  - apply list_elem_of_fmap in Hop as ([n w] & [= -> -> ->] & Hin). right. do 2 right. left.
    apply list_elem_of_fmap. exists n. split; [done|]. apply list_elem_of_fmap. by exists (n, w).
  - right. do 3 right. left. destruct (0 <? _); [|by apply elem_of_nil in Hop].
    apply list_elem_of_singleton in Hop as [= -> -> ->]. by left.
  - right. do 4 right. left. destruct (vr_collection r); [|by apply elem_of_nil in Hop].
    apply list_elem_of_singleton in Hop as [= -> -> ->]. by left.
  - left. apply elem_of_cons in Hop as [[= -> -> ->]|Hop]; [by auto|].
    apply list_elem_of_singleton in Hop as [= -> -> ->]. by auto.
Qed.

Lemma remove_covers ls fields r cf k v :
  OpPut cf k v ∈ record_puts fields r ->
  OpDelete cf k ∈ remove_ops json_text ls fields (vr_id r) (stored_doc r).
Proof.
  intros Hop%retract_covers. unfold remove_ops, retract_ops in *. revert Hop.
  rewrite !elem_of_app. intros [[[-> | ->] ->]|[Hop|[Hop|[Hop|[Hop|[Hop|Hop]]]]]]; try tauto.
  - do 6 right. by left.
  - do 6 right. right. by left.
  - left. apply list_elem_of_fmap in Hop as (t & [= -> ->] & Ht). by apply remove_terms_deletes.
Qed.

Lemma doc_rows_docs fields r : doc_rows fields r CF_DOCS !! vr_id r = Some (RDoc (stored_doc r)).
Proof.
  unfold doc_rows, record_puts, data_puts. rewrite !app_assoc, apply_ops_app. cbn.
  rewrite !lookup_put_cf. rewrite decide_False by (intros [? _]; done). by rewrite decide_True.
Qed.

Lemma doc_rows_vecs fields r : doc_rows fields r CF_VECS !! vr_id r = Some (RBytes (encode_vec (vr_embedding r))).
Proof.
  unfold doc_rows, record_puts, data_puts. rewrite !app_assoc, apply_ops_app. cbn.
  rewrite !lookup_put_cf. by rewrite decide_True.
Qed.

Lemma doc_rows_owner fields r cf k v :
  nul_free (vr_id r) -> doc_rows fields r cf !! k = Some v -> data_cf cf = true /\ owner cf k = vr_id r.
Proof. intros Hid Hop%apply_puts_elem. by apply (record_puts_owned fields r _ Hid) in Hop. Qed.

(** ** The data families hold the rows of a map of records *)

Definition ids_ok (m : gmap bytes VectorRecord) : Prop :=
  forall id r, m !! id = Some r -> vr_id r = id /\ nul_free id.
Definition rows_ok (fields : list bytes) (db : Db) (m : gmap bytes VectorRecord) : Prop :=
  forall cf k, data_cf cf = true -> db cf !! k = (r ← m !! owner cf k; doc_rows fields r cf !! k).

Lemma rows_ok_doc fields db m id :
  ids_ok m -> rows_ok fields db m -> get_doc db id = stored_doc <$> m !! id.
Proof.
  intros Hids Hr. unfold get_doc, get_cf. rewrite (Hr CF_DOCS id eq_refl). cbn.
  destruct (m !! id) as [r|] eqn:E; [|done]. cbn. apply Hids in E as [<- _]. by rewrite doc_rows_docs.
Qed.

(** Operations on the rows of other documents and other families. *)
Lemma rows_ok_frame fields db m b :
  (forall op, op ∈ b -> data_cf (op_cf op) = true -> no_merge op -> False) ->
  rows_ok fields db m -> rows_ok fields (apply_ops b db) m.
Proof.
  intros Hb Hr cf k Hcf. rewrite apply_ops_miss; [by apply Hr|].
  intros op Hop (<- & _ & Hm). by eapply Hb.
Qed.

Lemma rows_ok_insert fields db m r b :
  ids_ok m -> nul_free (vr_id r) ->
  (forall op, op ∈ b -> is_delete op /\ owned (vr_id r) op) ->
  (forall old, m !! vr_id r = Some old -> b = retract_ops json_text fields (vr_id r) (stored_doc old)) ->
  rows_ok fields db m ->
  rows_ok fields (apply_ops (b ++ record_puts fields r) db) (<[vr_id r := r]> m).
Proof.
  intros Hids Hid Hb Hold Hr cf k Hcf. rewrite apply_ops_app, apply_puts by apply record_puts_put.
  fold (doc_rows fields r). destruct (decide (owner cf k = vr_id r)) as [Ho|Ho].
  - rewrite Ho, lookup_insert_eq. cbn. destruct (doc_rows fields r cf !! k) as [v|] eqn:E; [done|].
    destruct (apply_ops b db cf !! k) as [v|] eqn:Ev; [exfalso|done].
    destruct (db cf !! k) as [v'|] eqn:Edb.
    + pose proof (Hr cf k Hcf) as Hrow. rewrite Edb, Ho in Hrow. destruct (m !! vr_id r) as [old|] eqn:Eo; [|done].
      symmetry in Hrow. pose proof (Hids _ _ Eo) as [Eid _]. apply apply_puts_elem, retract_covers in Hrow.
      rewrite Eid in Hrow. destruct Hrow as [[[-> | ->] ->]|Hdel].
      * by rewrite doc_rows_docs in E.
      * by rewrite doc_rows_vecs in E.
      * rewrite <- (Hold old eq_refl) in Hdel. rewrite apply_deletes in Ev; [done| |done]. intros op Hop _. by apply Hb.
    + rewrite apply_deletes_none in Ev; [done| |done]. intros op Hop _. by apply Hb.
  - rewrite lookup_insert_ne by done. destruct (doc_rows fields r cf !! k) as [v|] eqn:E.
    { by apply doc_rows_owner in E as [_ ?]. }
    rewrite apply_ops_miss; [by apply Hr|]. intros op Hop (<- & <- & _). by apply Hb in Hop as (_ & _ & ?).
Qed.

Lemma rows_ok_delete fields db m r b :
  ids_ok m -> m !! vr_id r = Some r ->
  b = remove_ops json_text true fields (vr_id r) (stored_doc r) \/
  b = remove_ops json_text false fields (vr_id r) (stored_doc r) ->
  rows_ok fields db m -> rows_ok fields (apply_ops b db) (delete (vr_id r) m).
Proof.
  intros Hids Hm Hb Hr cf k Hcf. pose proof (Hids _ _ Hm) as [_ Hid].
  assert (exists ls, b = remove_ops json_text ls fields (vr_id r) (stored_doc r)) as [ls ->] by (destruct Hb; eauto).
  clear Hb. destruct (decide (owner cf k = vr_id r)) as [Ho|Ho].
  - rewrite Ho, lookup_delete_eq. cbn. pose proof (Hr cf k Hcf) as Hrow. rewrite Ho, Hm in Hrow. cbn in Hrow.
    destruct (doc_rows fields r cf !! k) as [v|] eqn:E.
    + apply apply_puts_elem, (remove_covers ls) in E. apply apply_deletes; [|done].
      intros op [[? _]|(t & d & ->)]%remove_ops_owned; done.
    + apply apply_deletes_none; [|done]. intros op [[? _]|(t & d & ->)]%remove_ops_owned; done.
  - rewrite lookup_delete_ne by done. rewrite apply_ops_miss; [by apply Hr|].
    intros op [[_ [_ ?]]|(t & d & ->)]%remove_ops_owned (<- & <- & Hnm); done.
Qed.
End rows.
