(* ===== verification/StoreTx.v ===== *)
(** * Transactions refine map updates

    The invariant of an open transaction: its batch over the committed store,
    and its counters, are those of the abstract store it has reached. *)
From S2P Require Import Prelude Floats ByteOrder Utf8 Json RroTime Geo Query Keys KeysFacts Model.
From S2P Require Import Kv Pending Store StoreFacts.
#[local] Set Default Goal Selector "!".
#[local] Set Warnings "-clear-no-such-hyp".
Local Open Scope Z_scope.

(** Two literal keys differ. *)
Ltac key_ne := let E := fresh in intros E; vm_compute in E; discriminate E.

(** ** Batches that leave a family alone *)

Section frames.
Context `{SerdeNumber}.

Lemma apply_ops_cf b db db' cf : db cf = db' cf -> apply_ops b db cf = apply_ops b db' cf.
Proof.
  intros E. induction b as [|op b IH] using rev_ind; [done|]. rewrite !apply_ops_app. cbn.
  destruct op as [c k v|c k|c k d]; cbn; [| |done]; unfold put_cf, delete_cf, upd_cf;
    destruct (decide (cf = c)); by rewrite ?IH.
Qed.

Lemma apply_ops_frame b db cf :
  (forall op, op ∈ b -> op_cf op = cf -> no_merge op -> False) -> apply_ops b db cf = db cf.
Proof.
  intros Hb. apply map_eq. intros k. apply apply_ops_miss. intros op Hop (E & _ & Hm). by eapply Hb.
Qed.

Lemma df_deltas_none cf b :
  (forall k d, OpMergeDf cf k d ∈ b -> False) -> df_deltas cf b = ∅.
Proof.
  intros Hb. induction b as [|op b IH] using rev_ind; [done|]. rewrite df_deltas_app, IH; [|set_solver].
  cbn. destruct op as [| |c k d]; cbn; [done..|]. destruct (decide (c = cf)) as [->|]; [|done].
  exfalso. apply (Hb k d). set_solver.
Qed.

Lemma delta_sum_cons cf t op b : delta_sum cf t (op :: b) = delta_of cf t op + delta_sum cf t b.
Proof. done. Qed.
Lemma delta_sum_nil cf t : delta_sum cf t [] = 0.
Proof. done. Qed.

Lemma delta_sum_none cf t b : Forall no_merge b -> delta_sum cf t b = 0.
Proof.
  induction 1 as [|op b Hop _ IH]; [done|]. unfold delta_sum in *. cbn. rewrite IH.
  by destruct op.
Qed.
End frames.

(** ** The abstract store *)

Section spec.
Context `{SerdeNumber} `{Libm} `{TextAnalyzer}.

Local Abbreviation Log := (list (ChangeOp * bytes)).

Inductive AOp : Type := AUpsert (r : VectorRecord) | ARemove (id : bytes).

Definition spec_step (s : gmap bytes VectorRecord * Log) (op : AOp) : gmap bytes VectorRecord * Log :=
  let '(m, log) := s in
  match op with
  | AUpsert r => (<[vr_id r := r]> m, log ++ [(Upsert, vr_id r)])
  | ARemove id => match m !! id with Some _ => (delete id m, log ++ [(Remove, id)]) | None => (m, log) end
  end.
Definition spec_run (ops : list AOp) (s : gmap bytes VectorRecord * Log) := fold_left spec_step ops s.

Definition aop_id (op : AOp) : bytes := match op with AUpsert r => vr_id r | ARemove id => id end.
Definition flatten (op : WriteOp) : list AOp :=
  match op with WUpsert rs => map AUpsert rs | WRemove id => [ARemove id] end.

(** What the counters count. *)
Definition tokens_of (r : VectorRecord) : Z := token_len (analyze (vr_text r)).
Definition has_shape (s : bytes) (r : VectorRecord) : Z :=
  if decide (s = shape_key (shape_of (vr_metadata r))) then 1 else 0.
Definition has_term (t : bytes) (r : VectorRecord) : Z :=
  if decide (t ∈ analyze (vr_text r)) then 1 else 0.

(** Small enough for the machine integers of the counters. *)
Definition fits (s : gmap bytes VectorRecord * Log) : Prop :=
  Z.of_nat (size s.1) < 2 ^ 63 /\ msum tokens_of s.1 < 2 ^ 64 /\ Z.of_nat (length s.2) < 2 ^ 64.
Fixpoint run_fits (ops : list AOp) (s : gmap bytes VectorRecord * Log) : Prop :=
  fits s /\ match ops with [] => True | op :: ops => run_fits ops (spec_step s op) end.

Lemma tokens_nonneg r : 0 <= tokens_of r.
Proof. unfold tokens_of, token_len. apply Z.mod_pos_bound. lia. Qed.
Lemma has_shape_range s r : 0 <= has_shape s r <= 1.
Proof. unfold has_shape. split_decides. Qed.
Lemma has_term_range s r : 0 <= has_term s r <= 1.
Proof. unfold has_term. split_decides. Qed.

Lemma shapes_bound s m : 0 <= msum (has_shape s) m <= Z.of_nat (size m).
Proof.
  rewrite <- msum_one. split; [apply msum_nonneg|apply msum_le]; intros r; by destruct (has_shape_range s r).
Qed.
Lemma terms_bound t m : 0 <= msum (has_term t) m <= Z.of_nat (size m).
Proof.
  rewrite <- msum_one. split; [apply msum_nonneg|apply msum_le]; intros r; by destruct (has_term_range t r).
Qed.
End spec.

(** ** The refinement relation *)

Abbreviation Log := (list (ChangeOp * bytes)).

Section refines.
Context `{SerdeNumber} `{Libm} `{TextAnalyzer}.
Variable json_text : Json -> bytes.
Variable now_ms : Z -> Z.
Variable lexical_stats : bool.

(** The feed holds one row per change of the log, under its position. *)
Definition feed_ok (db : Db) (log : Log) : Prop :=
  (forall i op id, log !! i = Some (op, id) ->
     db CF_FEED !! be_bytes 8 (Z.of_nat i) =
     Some (RChange (mkChange (Z.of_nat i) op id (now_ms (Z.of_nat i))))) /\
  (forall k v, db CF_FEED !! k = Some v -> exists i, (i < length log)%nat /\ k = be_bytes 8 (Z.of_nat i)).

(** Document count, token total and shape census. *)
Record counts_ok (m : gmap bytes VectorRecord) (docs tokens : Z) (census : gmap bytes Z) : Prop := mkCounts {
  co_docs : docs = msum (fun _ => 1) m;
  co_tokens : tokens = msum tokens_of m;
  co_shapes : forall s, default 0 (census !! s) = msum (has_shape s) m;
}.

Definition tdf (db : Db) (t : bytes) : Z := default 0 (read_i64 <$> db CF_TDF !! t).

Record Refines (db : Db) (m : gmap bytes VectorRecord) (log : Log) : Prop := mkRefines {
  rf_ids : ids_ok m;
  rf_rows : rows_ok json_text (indexed_fields db) db m;
  rf_counts : counts_ok m (get_u64 db META_DOC_COUNT) (get_u64 db META_TOTAL_TOKENS) (get_shapes db);
  rf_tdf : lexical_stats = true -> forall t, tdf db t = msum (has_term t) m;
  rf_feed : feed_ok db log;
  rf_seq : get_u64 db META_FEED_SEQ = Z.of_nat (length log);
}.

(** Registrations write two rows of the meta family and nothing else. *)
Definition reg_same (db db' : Db) : Prop :=
  (forall cf, cf <> CF_META -> db' cf = db cf) /\
  (forall k, k <> META_ESTATE -> k <> META_COLLECTIONS -> db' CF_META !! k = db CF_META !! k).

Lemma reg_same_refl db : reg_same db db.
Proof. done. Qed.

Lemma reg_same_trans db1 db2 db3 : reg_same db1 db2 -> reg_same db2 db3 -> reg_same db1 db3.
Proof.
  intros [A1 B1] [A2 B2]. split; [intros cf Hcf; by rewrite A2, A1|]. intros k H1' H2'. by rewrite B2, B1.
Qed.

Lemma reg_same_sym db1 db2 : reg_same db1 db2 -> reg_same db2 db1.
Proof. intros [A B]. split; [intros cf Hcf; by rewrite A|]. intros k H1' H2'. by rewrite B. Qed.

Lemma reg_same_put db k v : k = META_ESTATE \/ k = META_COLLECTIONS -> reg_same db (put_cf db CF_META k v).
Proof.
  intros Hk. split.
  - intros cf Hcf. unfold put_cf, upd_cf. by rewrite decide_False.
  - intros k' N1 N2. rewrite lookup_put_cf. rewrite decide_False; [done|]. naive_solver.
Qed.

Lemma reg_same_doc db db' id : reg_same db db' -> get_doc db' id = get_doc db id.
Proof. intros [A _]. unfold get_doc, get_cf. by rewrite A. Qed.
Lemma reg_same_u64 db db' k :
  k <> META_ESTATE -> k <> META_COLLECTIONS -> reg_same db db' -> get_u64 db' k = get_u64 db k.
Proof. intros N1 N2 [_ B]. unfold get_u64, get_cf. by rewrite B. Qed.
Lemma reg_same_shapes db db' : reg_same db db' -> get_shapes db' = get_shapes db.
Proof. intros [_ B]. unfold get_shapes, get_cf. by rewrite B. Qed.
Lemma reg_same_fields db db' : reg_same db db' -> indexed_fields db' = indexed_fields db.
Proof. intros [_ B]. unfold indexed_fields, get_names, get_cf. by rewrite B. Qed.

Lemma rows_ok_cf fields db db' m :
  (forall cf, data_cf cf = true -> db' cf = db cf) -> rows_ok json_text fields db m -> rows_ok json_text fields db' m.
Proof. intros E Hr cf k Hcf. rewrite E by done. by apply Hr. Qed.

Lemma data_not_meta cf : data_cf cf = true -> cf <> CF_META.
Proof. by intros ? ->. Qed.

Lemma refines_reg db db' m log : reg_same db db' -> Refines db m log -> Refines db' m log.
Proof.
  intros Hs [A B C D E F]. pose proof Hs as [Hcf _]. split.
  - done.
  - rewrite (reg_same_fields db) by done. eapply rows_ok_cf; [|exact B]. intros cf ?%data_not_meta. by apply Hcf.
  - rewrite !(reg_same_u64 db db') by (done || key_ne). by rewrite (reg_same_shapes db db').
  - intros Hls t. unfold tdf. rewrite Hcf by done. by apply D.
  - unfold feed_ok. rewrite Hcf by done. done.
  - by rewrite (reg_same_u64 db db') by (done || key_ne).
Qed.

(** ** Counter steps *)

Lemma u64_add_small x y : 0 <= x + y < 2 ^ 64 -> u64_add x y = x + y.
Proof. intros. unfold u64_add, two64. by apply Z.mod_small. Qed.

Lemma shapes_dec_lookup k c s :
  default 0 (shapes_dec k c !! s) =
  if decide (s = k) then (match c !! k with Some n => u64_sub n 1 | None => 0 end) else default 0 (c !! s).
Proof.
  unfold shapes_dec. destruct (c !! k) as [n|] eqn:E.
  - destruct (decide (s = k)) as [->|]; [by rewrite lookup_insert_eq|by rewrite lookup_insert_ne].
  - destruct (decide (s = k)) as [->|]; [by rewrite E|done].
Qed.

Lemma counts_delete m docs tokens census r id :
  counts_ok m docs tokens census -> m !! id = Some r ->
  counts_ok (delete id m) (u64_sub docs 1) (u64_sub tokens (tokens_of r))
    (shapes_dec (shape_key (shape_of (vr_metadata r))) census).
Proof.
  intros [-> -> Hs] Hm.
  pose proof (msum_lookup (fun _ => 1) m id r ltac:(lia) Hm) as H1'.
  pose proof (msum_lookup tokens_of m id r tokens_nonneg Hm) as H2'.
  cbn in H1'. split; rewrite ?msum_delete, ?Hm; cbn; unfold u64_sub; [lia|lia|].
  intros s. rewrite shapes_dec_lookup, msum_delete, Hm. cbn. rewrite Hs.
  pose proof (msum_lookup (has_shape s) m id r ltac:(intros; apply has_shape_range) Hm) as H3'.
  pose proof (Hs (shape_key (shape_of (vr_metadata r)))) as Hk.
  change (has_shape s r) with (if decide (s = shape_key (shape_of (vr_metadata r))) then 1 else 0) in *.
  destruct (decide (s = _)) as [->|]; [|lia].
  rewrite <- Hk in H3' |- *. destruct (census !! _) as [n|]; cbn in *; unfold u64_sub; lia.
Qed.

Lemma counts_insert m docs tokens census r :
  counts_ok m docs tokens census -> m !! vr_id r = None -> 
  Z.of_nat (size (<[vr_id r := r]> m)) < 2 ^ 63 -> msum tokens_of (<[vr_id r := r]> m) < 2 ^ 64 ->
  counts_ok (<[vr_id r := r]> m) (u64_add docs 1) (u64_add tokens (tokens_of r))
    (shapes_inc (shape_key (shape_of (vr_metadata r))) census).
Proof.
  intros [-> -> Hs] Hm Hsize Htok. rewrite map_size_insert_None in Hsize by done.
  rewrite msum_insert_new in Htok by done.
  pose proof (tokens_nonneg r). pose proof (msum_nonneg tokens_of m tokens_nonneg).
  split; rewrite ?msum_insert_new, ?msum_one by done.
  - rewrite u64_add_small; lia.
  - rewrite u64_add_small; lia.
  - intros s. rewrite msum_insert_new by done. unfold shapes_inc, has_shape at 1.
    destruct (decide (s = _)) as [->|Hne].
    + rewrite lookup_insert_eq. cbn. rewrite Hs. pose proof (shapes_bound (shape_key (shape_of (vr_metadata r))) m).
      rewrite u64_add_small; lia.
    + rewrite lookup_insert_ne by done. rewrite Hs. lia.
Qed.

(** ** Feed steps *)

Lemma feed_key_inj i j : (Z.of_nat i < 2 ^ 64) -> (Z.of_nat j < 2 ^ 64) ->
  be_bytes 8 (Z.of_nat i) = be_bytes 8 (Z.of_nat j) -> i = j.
Proof.
  intros Hi Hj E. apply (f_equal from_be_bytes) in E.
  rewrite !from_be_be_bytes in E by (change (256 ^ Z.of_nat 8) with (2 ^ 64); lia). lia.
Qed.

Lemma feed_append db db' log op id :
  feed_ok db log -> Z.of_nat (length log) < 2 ^ 64 ->
  db' CF_FEED = db CF_FEED ->
  feed_ok (Kv.apply_op db' (change_put now_ms (Z.of_nat (length log)) op id)) (log ++ [(op, id)]).
Proof.
  intros [A B] Hl E. unfold change_put. split.
  - intros i o x. cbn. rewrite lookup_put_cf, E. intros Hi.
    destruct (decide (i = length log)) as [->|Hne].
    + rewrite lookup_app_r, Nat.sub_diag in Hi by done. injection Hi as <- <-. by rewrite decide_True.
    + assert (i < length log)%nat as Hlt.
      { apply lookup_lt_Some in Hi. rewrite length_app in Hi. cbn in Hi. lia. }
      rewrite lookup_app_l in Hi by done. rewrite decide_False; [by apply A|].
      intros [_ ?%feed_key_inj]; lia.
  - intros k v. cbn. rewrite lookup_put_cf, E, length_app. cbn. destruct (decide _) as [[_ ->]|].
    + intros _. exists (length log). split; [lia|done].
    + intros (i & Hi & ->)%B. exists i. split; [lia|done].
Qed.
End refines.

(** ** The invariant of an open transaction *)

Section invariant.
Context `{SerdeNumber} `{Libm} `{TextAnalyzer}.
Variable json_text : Json -> bytes.
Variable now_ms : Z -> Z.
Variable lexical_stats : bool.

(** What the batch of a transaction may hold. *)
Definition tx_op (op : Op) : Prop :=
  match op with
  | OpPut cf _ _ | OpDelete cf _ => data_cf cf = true \/ cf = CF_FEED
  | OpMergeDf cf _ _ => cf = CF_TDF /\ lexical_stats = true
  end.

Definition graph_step (g : gmap bytes (list f32)) (op : GraphOp) : gmap bytes (list f32) :=
  match op with GUpsert id e => <[id := e]> g | GRemove id => delete id g end.
Definition graph_run (ops : list GraphOp) (g : gmap bytes (list f32)) := fold_left graph_step ops g.

Definition clean_as (db : Db) (tx : Tx) : Prop :=
  doc_count tx = get_u64 db META_DOC_COUNT /\ total_tokens tx = get_u64 db META_TOTAL_TOKENS /\
  feed_seq tx = get_u64 db META_FEED_SEQ /\ shapes tx = get_shapes db.

(** [db] is the committed store, [m0] its records; [m] and [log] are the
    abstract store the transaction has reached, having touched the ids
    [touched]; [df] are the document-frequency deltas not staged yet. *)
Record TxInv (db : Db) (m0 : gmap bytes VectorRecord) (tx : Tx) (df : gmap bytes Z)
  (m : gmap bytes VectorRecord) (log : Log) (touched : gset bytes) : Prop := mkTxInv {
  ti_ids0 : ids_ok m0;
  ti_docs : forall id, get_doc db id = stored_doc <$> m0 !! id;
  ti_ids : ids_ok m;
  ti_rows : rows_ok json_text (indexed_fields db) (apply_ops (batch tx) db) m;
  ti_same : forall id, id ∉ touched -> m !! id = m0 !! id;
  ti_counts : counts_ok m (doc_count tx) (total_tokens tx) (shapes tx);
  ti_df : lexical_stats = true -> forall t,
    tdf db t + delta_sum CF_TDF t (batch tx) + df_of df t = msum (has_term t) m;
  ti_feed : feed_ok now_ms (apply_ops (batch tx) db) log;
  ti_seq : feed_seq tx = Z.of_nat (length log);
  ti_ops : forall op, op ∈ batch tx -> tx_op op;
  ti_graph : graph_run (graph_ops tx) (vr_embedding <$> m0) = vr_embedding <$> m;
  ti_clean : counters_dirty tx = false -> clean_as db tx;
}.

Lemma tx_inv_begin db m log :
  Refines json_text now_ms lexical_stats db m log -> TxInv db m (begin db) ∅ m log ∅.
Proof.
  intros [A B C D E F]. split; try done.
  - intros id. by eapply rows_ok_doc.
  - intros Hls t. rewrite <- D by done. unfold df_of. rewrite lookup_empty. cbn. lia.
  - intros op ?%elem_of_nil. done.
Qed.

Lemma tx_inv_reg db db' m0 tx df m log T :
  reg_same db db' -> TxInv db m0 tx df m log T -> TxInv db' m0 tx df m log T.
Proof.
  intros Hs [I0 Id Ii Ir Is Ic If Ie Iq Io Ig Il]. pose proof Hs as [Hcf _]. split; try done.
  - intros id. by rewrite (reg_same_doc db db').
  - rewrite (reg_same_fields db db') by done. eapply rows_ok_cf; [|exact Ir].
    intros cf ?%data_not_meta. apply apply_ops_cf. by apply Hcf.
  - intros Hls t. unfold tdf. rewrite Hcf by done. by apply If.
  - unfold feed_ok. rewrite (apply_ops_cf _ db' db) by (by apply Hcf). done.
  - intros Hd. destruct (Il Hd) as (? & ? & ? & ?). unfold clean_as.
    rewrite !(reg_same_u64 db db') by (done || key_ne). by rewrite (reg_same_shapes db db').
Qed.

Lemma tx_inv_touch db m0 tx df m log T :
  TxInv db m0 tx df m log T -> TxInv db m0 (touch_counters tx) df m log T.
Proof. intros [I0 Id Ii Ir Is Ic If Ie Iq Io Ig Il]. by split. Qed.

Lemma delta_sum_merges t df : delta_sum CF_TDF t (df_merges true df) = df_of df t.
Proof.
  unfold df_merges, df_of. assert (forall l, NoDup l.*1 ->
    delta_sum CF_TDF t (omap (fun '(term, delta) => if delta =? 0 then None
      else Some (OpMergeDf CF_TDF term delta)) l) = default 0 ((list_to_map l : gmap bytes Z) !! t)) as Hl.
  { induction l as [|[k d] l IH]; cbn; intros Hn; [by rewrite lookup_empty|].
    apply NoDup_cons in Hn as [Hk Hn]. specialize (IH Hn). unfold delta_sum in *.
    destruct (d =? 0) eqn:Ed.
    - apply Z.eqb_eq in Ed as ->. cbn in IH |- *. rewrite IH. destruct (decide (t = k)) as [->|].
      + rewrite lookup_insert_eq. cbn. by rewrite (not_elem_of_list_to_map_1 (M := gmap bytes)).
      + by rewrite lookup_insert_ne.
    - cbn in IH |- *. rewrite IH. destruct (decide (t = k)) as [->|].
      + rewrite lookup_insert_eq, decide_True by done. rewrite (not_elem_of_list_to_map_1 (M := gmap bytes)) by done.
        cbn. lia.
      + rewrite lookup_insert_ne by done. rewrite decide_False by naive_solver. lia. }
  rewrite Hl by apply NoDup_fst_map_to_list. by rewrite list_to_map_to_list.
Qed.

Lemma df_merges_ops ls df op : op ∈ df_merges ls df -> exists t d, op = OpMergeDf CF_TDF t d /\ ls = true.
Proof.
  unfold df_merges. destruct ls; [|by intros ?%elem_of_nil].
  intros ([t d] & _ & Hop)%list_elem_of_omap. destruct (d =? 0); [done|]. injection Hop as <-. eauto.
Qed.

(** Staging the merges of an upsert. *)
Lemma tx_inv_merges db m0 tx df m log T :
  TxInv db m0 tx df m log T ->
  TxInv db m0 (stage tx (df_merges lexical_stats df)) ∅ m log T.
Proof.
  intros [I0 Id Ii Ir Is Ic If Ie Iq Io Ig Il].
  assert (forall cf, apply_ops (batch tx ++ df_merges lexical_stats df) db cf = apply_ops (batch tx) db cf) as E.
  { intros cf. rewrite apply_ops_app. apply apply_ops_frame.
    intros op (t & d & -> & _)%df_merges_ops _ Hm. done. }
  split; try done; cbn [batch stage].
  - eapply rows_ok_cf; [|exact Ir]. intros cf _. apply E.
  - intros Hls t. rewrite delta_sum_app, <- (If Hls t). rewrite Hls, delta_sum_merges.
    unfold df_of at 2. rewrite lookup_empty. cbn. lia.
  - unfold feed_ok. rewrite E. done.
  - intros op [Hop|(t & d & -> & Hls)%df_merges_ops]%elem_of_app; [by apply Io|done].
Qed.

(** ** One record *)

Definition retracted (fields : list bytes) (id : bytes) (old : option VectorRecord) : Batch :=
  match old with Some r => retract_ops json_text fields id (stored_doc r) | None => [] end.

(** What the overwrite block leaves of the counters. *)
Lemma counts_retract m docs tokens census id :
  counts_ok m docs tokens census ->
  exists docs' tokens' census', counts_ok (delete id m) docs' tokens' census' /\
    match m !! id with
    | Some r => docs' = u64_sub docs 1 /\ tokens' = u64_sub tokens (tokens_of r) /\
                census' = shapes_dec (shape_key (shape_of (vr_metadata r))) census
    | None => docs' = docs /\ tokens' = tokens /\ census' = census
    end.
Proof.
  intros Hc. destruct (m !! id) as [r|] eqn:E.
  - do 3 eexists. split; [by apply (counts_delete m docs tokens census r id)|done].
  - rewrite delete_id by done. by exists docs, tokens, census.
Qed.

Definition old_term (t : bytes) (old : option VectorRecord) : Z := from_option (has_term t) 0 old.

(** The transaction after one record, field by field. *)
Lemma upsert_record_spec (db : Db) (fields : list bytes) (r : VectorRecord) (tx : Tx) (df : gmap bytes Z)
  (tx' : Tx) (df' : gmap bytes Z) (m : gmap bytes VectorRecord) (docs tokens : Z) (census : gmap bytes Z) :
  get_doc db (vr_id r) = stored_doc <$> m !! vr_id r ->
  match m !! vr_id r with
  | Some old => docs = u64_sub (doc_count tx) 1 /\ tokens = u64_sub (total_tokens tx) (tokens_of old) /\
                census = shapes_dec (shape_key (shape_of (vr_metadata old))) (shapes tx)
  | None => docs = doc_count tx /\ tokens = total_tokens tx /\ census = shapes tx
  end ->
  upsert_record json_text now_ms db fields r (tx, df) = Ok (tx', df') ->
  tx' = mkTx (batch tx ++ (retracted fields (vr_id r) (m !! vr_id r) ++ record_puts json_text fields r) ++
                [change_put now_ms (feed_seq tx) Upsert (vr_id r)])
          (u64_add docs 1) (u64_add tokens (tokens_of r)) (u64_add (feed_seq tx) 1)
          (shapes_inc (shape_key (shape_of (vr_metadata r))) census) (counters_dirty tx)
          (graph_ops tx ++ [GUpsert (vr_id r) (vr_embedding r)]) /\
  forall t, df_of df' t = df_of df t - old_term t (m !! vr_id r) + has_term t r.
Proof.
  intros Hdoc Hc. unfold upsert_record. destruct (key_too_long _); [done|]. rewrite Hdoc.
  destruct (m !! vr_id r) as [old|]; cbn [fmap option_fmap option_map]; destruct Hc as (-> & -> & ->);
    intros (pidx & Hp%pidx_puts_rows & [= <- <-])%bind_ok; subst pidx; (split; [|intros t]).
  - f_equal. unfold record_puts, retracted. cbn. by rewrite <- !app_assoc.
  - rewrite term_freqs_df. unfold retract_df. rewrite on_distinct_df. cbn. unfold has_term. split_decides.
  - f_equal. unfold record_puts, retracted. cbn. by rewrite <- !app_assoc.
  - rewrite term_freqs_df. cbn. unfold has_term. split_decides.
Qed.

Lemma retracted_owned fields id old op :
  nul_free id -> op ∈ retracted fields id old -> is_delete op /\ owned id op.
Proof.
  intros Hid. destruct old as [r|]; [|by intros ?%elem_of_nil]. by apply retract_ops_owned.
Qed.

Lemma graph_run_snoc ops op g : graph_run (ops ++ [op]) g = graph_step (graph_run ops g) op.
Proof. unfold graph_run. by rewrite fold_left_app. Qed.

Lemma owned_not_feed id op : owned id op -> op_cf op <> CF_FEED.
Proof. intros [Hd _] E. by rewrite E in Hd. Qed.

Lemma tx_inv_upsert db m0 tx df m log T r tx' df' :
  TxInv db m0 tx df m log T -> vr_id r ∉ T -> nul_free (vr_id r) -> counters_dirty tx = true ->
  fits (<[vr_id r := r]> m, log ++ [(Upsert, vr_id r)]) ->
  upsert_record json_text now_ms db (indexed_fields db) r (tx, df) = Ok (tx', df') ->
  TxInv db m0 tx' df' (<[vr_id r := r]> m) (log ++ [(Upsert, vr_id r)]) ({[vr_id r]} ∪ T) /\
  counters_dirty tx' = true.
Proof.
  intros [I0 Id Ii Ir Is Ic If Ie Iq Io Ig Il] HT Hid Hdirty (Hf1 & Hf2 & Hf3) Hr. cbn in Hf1, Hf2, Hf3.
  destruct (counts_retract m _ _ _ (vr_id r) Ic) as (docs & tokens & census & Hc & Hcm).
  rewrite length_app in Hf3. cbn in Hf3.
  eapply (upsert_record_spec _ _ _ _ _ _ _ m) in Hr as [-> Hdf]; [|by rewrite Id, Is|exact Hcm].
  set (b := retracted (indexed_fields db) (vr_id r) (m !! vr_id r) ++ record_puts json_text (indexed_fields db) r).
  assert (forall op, op ∈ b -> owned (vr_id r) op /\ no_merge op) as Hb.
  { intros op [Hop|Hop]%elem_of_app.
    - apply retracted_owned in Hop as [Hd Ho]; [|done]. split; [done|]. by destruct op.
    - split; [by eapply record_puts_owned|]. pose proof (record_puts_put json_text (indexed_fields db) r) as Hput.
      rewrite Forall_forall in Hput. apply Hput in Hop. by destruct op. }
  split; [|done]. split; cbn [batch doc_count total_tokens feed_seq shapes counters_dirty graph_ops]; try done.
  - intros id x. rewrite lookup_insert_Some. intros [[<- <-]|[_ Hx]]; [done|by apply Ii].
  - rewrite app_assoc, apply_ops_app. apply rows_ok_frame.
    { intros op ->%list_elem_of_singleton Hd _. done. }
    rewrite apply_ops_app. apply rows_ok_insert; [done|done| |by intros old ->|done].
    intros op Hop. by eapply retracted_owned.
  - intros id Hx. rewrite lookup_insert_ne by set_solver. apply Is. set_solver.
  - rewrite <- insert_delete_eq. apply counts_insert; [done|apply lookup_delete_eq|..]; by rewrite insert_delete_eq.
  - intros Hls t. rewrite delta_sum_app, delta_sum_app, (delta_sum_none _ _ b), Hdf.
    2: { apply Forall_forall. intros op Hop. by apply Hb. }
    rewrite msum_insert. fold (old_term t (m !! vr_id r)). pose proof (If Hls t). cbn. lia.
  - rewrite app_assoc, apply_ops_app, Iq. apply (feed_append _ (apply_ops (batch tx) db)); [done|lia|].
    rewrite apply_ops_app. apply apply_ops_frame. intros op Hop Hcf _. by apply Hb in Hop as [?%owned_not_feed _].
  - rewrite Iq, length_app, u64_add_small; cbn; lia.
  - intros op [Hop|[Hop|Hop]%elem_of_app]%elem_of_app; [by apply Io| |].
    + apply Hb in Hop as [[Hd _] Hm]. destruct op; cbn in *; [by left..|by destruct Hm].
    + apply list_elem_of_singleton in Hop as ->. cbn. auto.
  - rewrite graph_run_snoc, Ig. cbn. by rewrite fmap_insert.
  - congruence.
Qed.

Lemma tx_inv_upserts db m0 rs tx df m log T tx' df' :
  TxInv db m0 tx df m log T -> counters_dirty tx = true ->
  NoDup (map vr_id rs) -> (forall r, r ∈ rs -> (vr_id r ∉ T) /\ nul_free (vr_id r)) ->
  run_fits (map AUpsert rs) (m, log) ->
  upsert_records json_text now_ms db (indexed_fields db) rs (tx, df) = Ok (tx', df') ->
  exists m' log' T', spec_run (map AUpsert rs) (m, log) = (m', log') /\
    TxInv db m0 tx' df' m' log' T' /\ counters_dirty tx' = true /\
    (forall id, id ∈ T' <-> id ∈ T \/ id ∈ map vr_id rs).
Proof.
  revert tx df m log T. induction rs as [|r rs IH]; intros tx df m log T HI Hd Hnd Hids Hfit; cbn [upsert_records].
  - intros [= <- <-]. exists m, log, T. split_and!; [done..|]. intros id. cbn. set_solver.
  - intros ([tx1 df1] & Hr & Hrs)%bind_ok. cbn in Hnd. apply NoDup_cons in Hnd as [Hnew Hnd].
    destruct (Hids r ltac:(by left)) as [HrT Hrn]. destruct Hfit as [_ Hfit]. cbn in Hfit.
    assert (fits (<[vr_id r := r]> m, log ++ [(Upsert, vr_id r)])) as Hf by (destruct rs; apply Hfit).
    destruct (tx_inv_upsert _ _ _ _ _ _ _ _ _ _ HI HrT Hrn Hd Hf Hr) as [HI1 Hd1].
    destruct (IH _ _ _ _ _ HI1 Hd1 Hnd) as (m' & log' & T' & Hrun & HI' & Hd' & HT'); [|done|done|].
    + intros x Hx. split; [|apply Hids; by right]. intros [Heq%elem_of_singleton|HxT]%elem_of_union.
      * apply Hnew. rewrite <- Heq. apply list_elem_of_fmap. by exists x.
      * destruct (Hids x ltac:(by right)). done.
    + exists m', log', T'. split_and!; [done..|]. intros id. rewrite HT'. cbn. set_solver.
Qed.

(** ** One removal *)

#[local] Arguments delta_sum : simpl never.

Lemma remove_terms_delta id ts t :
  delta_sum CF_TDF t (remove_terms true id ts) = if decide (t ∈ ts) then -1 else 0.
Proof.
  unfold remove_terms.
  assert ((fold_left (fun '(seen, ops) term => let ops := ops ++ [OpDelete CF_TERMS (term_key term id)] in
      if true && negb (bool_decide (term ∈ seen)) then ({[term]} ∪ seen, ops ++ [OpMergeDf CF_TDF term (-1)])
      else (seen, ops)) ts (∅ : gset bytes, [])).1 = list_to_set ts /\
    delta_sum CF_TDF t (fold_left (fun '(seen, ops) term => let ops := ops ++ [OpDelete CF_TERMS (term_key term id)] in
      if true && negb (bool_decide (term ∈ seen)) then ({[term]} ∪ seen, ops ++ [OpMergeDf CF_TDF term (-1)])
      else (seen, ops)) ts (∅ : gset bytes, [])).2 = if decide (t ∈ ts) then -1 else 0) as [_ E]; [|exact E].
  induction ts as [|x ts IH] using rev_ind; [done|].
  rewrite !fold_left_app. cbn. destruct (fold_left _ ts _) as [seen ops]. cbn in IH. destruct IH as [-> IH].
  destruct (bool_decide (x ∈ list_to_set ts)) eqn:Ex; cbn.
  - apply bool_decide_eq_true in Ex. rewrite elem_of_list_to_set in Ex. split; [set_solver|].
    rewrite delta_sum_app, IH, delta_sum_cons, delta_sum_nil. cbn. split_decides.
  - apply bool_decide_eq_false in Ex. rewrite elem_of_list_to_set in Ex. split; [set_solver|].
    rewrite !delta_sum_app, IH, !delta_sum_cons, !delta_sum_nil. cbn. destruct (decide (t = x)) as [->|Hne].
    + rewrite (decide_True (P := CF_TDF = CF_TDF /\ x = x)) by done. rewrite decide_False by done.
      rewrite decide_True by set_solver. lia.
    + rewrite (decide_False (P := CF_TDF = CF_TDF /\ x = t)) by naive_solver. split_decides.
Qed.

Lemma remove_ops_delta fields id r t :
  delta_sum CF_TDF t (remove_ops json_text true fields id (stored_doc r)) = - has_term t r.
Proof.
  unfold remove_ops. rewrite delta_sum_app, remove_terms_delta, delta_sum_none.
  - unfold has_term. cbn. destruct (decide _); lia.
  - rewrite !Forall_app. split_and!; try (by apply Forall_map_intro); try (by repeat constructor).
    + destruct (0 <? _); repeat constructor.
    + destruct (sd_collection _); repeat constructor.
Qed.

Lemma remove_terms_stats ls id ts t d : OpMergeDf CF_TDF t d ∈ remove_terms ls id ts -> ls = true.
Proof.
  unfold remove_terms. induction ts as [|x ts IH] using rev_ind; [by intros ?%elem_of_nil|].
  rewrite fold_left_app. cbn. destruct (fold_left _ ts _) as [seen ops]. cbn in IH.
  destruct ls; [done|]. cbn. rewrite elem_of_app, list_elem_of_singleton. intros [?|?]; [by apply IH|done].
Qed.

(** What follows the term deletes of a removal. *)
Lemma remove_tail_no_merge fields id old :
  Forall no_merge
    (map (OpDelete CF_PIDX) (pidx_rows json_text fields id (sd_metadata old)) ++
     map (fun dim => OpDelete CF_SPARSE (sparse_key dim id)) (sd_sparse_dims old) ++
     map (fun space => OpDelete CF_NVECS (nvec_key space id)) (sd_named_spaces old) ++
     (if 0 <? sd_multi_len old then [OpDelete CF_MVECS id] else []) ++
     (match sd_collection old with Some c => [OpDelete CF_COLL (coll_key c id)] | None => [] end) ++
     [OpDelete CF_DOCS id; OpDelete CF_VECS id]).
Proof.
  rewrite !Forall_app. split_and!; try (by apply Forall_map_intro); try (by repeat constructor).
  - destruct (0 <? _); repeat constructor.
  - destruct (sd_collection _); repeat constructor.
Qed.

Lemma remove_ops_tx fields id old op :
  nul_free id -> op ∈ remove_ops json_text lexical_stats fields id old -> tx_op op.
Proof.
  intros Hid Hop. pose proof (remove_ops_owned _ _ _ _ _ _ Hid Hop) as [[Hd [Ho _]]|(t & d & ->)].
  - destruct op; cbn in *; [by destruct Hd|by left|by destruct Hd].
  - split; [done|]. unfold remove_ops in Hop. apply elem_of_app in Hop as [Hop|Hop]; [by eapply remove_terms_stats|].
    pose proof (remove_tail_no_merge fields id old) as Hn. rewrite Forall_forall in Hn. by apply Hn in Hop.
Qed.

Lemma tx_inv_remove db m0 tx m log T id :
  TxInv db m0 tx ∅ m log T -> id ∉ T -> fits (spec_step (m, log) (ARemove id)) ->
  TxInv db m0 (remove_into json_text now_ms lexical_stats db tx id) ∅
    (spec_step (m, log) (ARemove id)).1 (spec_step (m, log) (ARemove id)).2 ({[id]} ∪ T).
Proof.
  intros [I0 Id Ii Ir Is Ic If Ie Iq Io Ig Il] HT Hf. unfold remove_into. rewrite Id, <- (Is id HT).
  cbn [spec_step] in *. destruct (m !! id) as [r|] eqn:Er; cbn [fmap option_fmap option_map fst snd] in *.
  2: { split; try done. intros x Hx. apply Is. set_solver. }
  destruct Hf as (_ & _ & Hf). cbn in Hf. rewrite length_app in Hf. cbn in Hf.
  pose proof (Ii _ _ Er) as [Eid Hid].
  assert (forall db' cf, data_cf cf = false ->
    apply_ops (remove_ops json_text lexical_stats (indexed_fields db) id (stored_doc r)) db' cf = db' cf) as Hframe.
  { intros db' cf Hcf. apply apply_ops_frame. intros op Hop <- Hm.
    apply remove_ops_owned in Hop as [[_ [Ho _]]|(t & d & ->)]; [congruence|done|done]. }
  split; cbn [batch doc_count total_tokens feed_seq shapes counters_dirty graph_ops]; try done.
  - intros x y [_ Hx]%lookup_delete_Some. by apply Ii.
  - rewrite app_assoc, apply_ops_app. apply rows_ok_frame.
    { intros op ->%list_elem_of_singleton Hd _. done. }
    rewrite apply_ops_app, <- Eid. apply rows_ok_delete; [done|by rewrite Eid| |done].
    destruct lexical_stats; auto.
  - intros x Hx. rewrite lookup_delete_ne by set_solver. apply Is. set_solver.
  - by apply counts_delete.
  - intros Hls t. rewrite !delta_sum_app. pose proof (If Hls t) as Ht. rewrite Hls, remove_ops_delta.
    rewrite delta_sum_cons, delta_sum_nil, msum_delete, Er. cbn. lia.
  - rewrite app_assoc, apply_ops_app, Iq. apply (feed_append _ (apply_ops (batch tx) db)); [done|lia|].
    rewrite apply_ops_app. by apply Hframe.
  - rewrite Iq, length_app, u64_add_small; cbn; lia.
  - intros op [Hop|[Hop|Hop]%elem_of_app]%elem_of_app; [by apply Io|by eapply remove_ops_tx|].
    apply list_elem_of_singleton in Hop as ->. cbn. auto.
  - rewrite graph_run_snoc, Ig. cbn. by rewrite fmap_delete.
Qed.

(** ** One statement *)

Lemma register_dim_reg db rs db' r : register_dim db rs = (db', r) -> reg_same db db'.
Proof.
  unfold register_dim. destruct (get_info db) as [i|]; [|by intros [= <- _]].
  destruct rs as [|r0 rs]; [by intros [= <- _]|]. destruct (ei_dim i) as [d|].
  - destruct (_ =? _); by intros [= <- _].
  - intros [= <- _]. apply reg_same_put. auto.
Qed.

Lemma register_collections_reg db rs : reg_same db (register_collections db rs).
Proof.
  unfold register_collections. destruct (_ <? _)%nat; [|apply reg_same_refl]. apply reg_same_put. auto.
Qed.

Lemma upsert_into_inv db m0 rs tx m log T db' res :
  TxInv db m0 tx ∅ m log T ->
  NoDup (map vr_id rs) -> (forall r, r ∈ rs -> (vr_id r ∉ T) /\ nul_free (vr_id r)) ->
  run_fits (map AUpsert rs) (m, log) ->
  upsert_into json_text now_ms lexical_stats db tx rs = (db', res) ->
  reg_same db db' /\
  forall tx', res = Ok tx' ->
    exists m' log' T', spec_run (map AUpsert rs) (m, log) = (m', log') /\
      TxInv db' m0 tx' ∅ m' log' T' /\ (forall id, id ∈ T' <-> id ∈ T \/ id ∈ map vr_id rs).
Proof.
  intros HI Hnd Hids Hfit. unfold upsert_into.
  destruct (register_dim db rs) as [db1 [info|e]] eqn:Ed; pose proof (register_dim_reg _ _ _ _ Ed) as S1.
  2: { intros [= <- <-]. by split. }
  destruct (_ ≫= _) as [[]|e]; [|intros [= <- <-]; by split].
  pose proof (register_collections_reg db1 rs) as S2.
  destruct (register_named rs (ei_named_dims info)) as [dims|e].
  2: { intros [= <- <-]. split; [by eapply reg_same_trans|done]. }
  set (db2 := if bool_decide (dims = ei_named_dims info) then register_collections db1 rs else _).
  assert (reg_same db db2) as S3.
  { apply (reg_same_trans _ (register_collections db1 rs)); [by eapply reg_same_trans|].
    unfold db2. destruct (bool_decide _); [apply reg_same_refl|]. apply reg_same_put. auto. }
  intros [= <- <-]. split; [done|]. intros tx' ([tx1 df1] & Hup & [= <-])%bind_ok.
  pose proof (tx_inv_touch _ _ _ _ _ _ _ (tx_inv_reg _ _ _ _ _ _ _ _ S3 HI)) as HI2.
  rewrite (reg_same_fields db db1) in Hup by done.
  rewrite <- (reg_same_fields db db2) in Hup by done.
  destruct (tx_inv_upserts _ _ _ _ _ _ _ _ _ _ HI2 eq_refl Hnd Hids Hfit Hup)
    as (m' & log' & T' & Hrun & HI' & _ & HT').
  exists m', log', T'. split_and!; [done| |done]. by apply tx_inv_merges.
Qed.

Lemma remove_into_inv db m0 tx m log T id :
  TxInv db m0 tx ∅ m log T -> id ∉ T -> run_fits [ARemove id] (m, log) ->
  exists m' log' T', spec_run [ARemove id] (m, log) = (m', log') /\
    TxInv db m0 (remove_into json_text now_ms lexical_stats db tx id) ∅ m' log' T' /\
    (forall x, x ∈ T' <-> x ∈ T \/ x = id).
Proof.
  intros HI HT [_ [Hf _]]. pose proof (tx_inv_remove _ _ _ _ _ _ _ HI HT Hf) as HI'.
  unfold spec_run. cbn [fold_left]. destruct (spec_step (m, log) (ARemove id)) as [m' log'].
  exists m', log', ({[id]} ∪ T). split_and!; [done|done|set_solver].
Qed.

(** ** A sequence of statements *)

Definition statements (ops : list WriteOp) : list AOp := flat_map flatten ops.

Lemma spec_run_app a b s : spec_run (a ++ b) s = spec_run b (spec_run a s).
Proof. apply fold_left_app. Qed.

Lemma run_fits_app a b s : run_fits (a ++ b) s <-> run_fits a s /\ run_fits b (spec_run a s).
Proof.
  revert s. induction a as [|x a IH]; intros s; cbn [app run_fits].
  - cbn. split; [|tauto]. intros Hb. split; [|done]. split; [|done]. by destruct b; apply Hb.
  - rewrite IH. cbn. tauto.
Qed.

(** The ids of the statements: distinct, and the new ones without NUL. *)
Definition ids_distinct (ops : list AOp) : Prop :=
  NoDup (map aop_id ops) /\ (forall r, AUpsert r ∈ ops -> nul_free (vr_id r)).

Lemma aop_ids_upserts rs : map aop_id (map AUpsert rs) = map vr_id rs.
Proof. induction rs as [|r rs IH]; cbn; [done|]. by rewrite IH. Qed.

Lemma write_ops_inv ops db m0 tx m log T db' res :
  TxInv db m0 tx ∅ m log T ->
  ids_distinct (statements ops) -> (forall id, id ∈ map aop_id (statements ops) -> id ∉ T) ->
  run_fits (statements ops) (m, log) ->
  write_ops json_text now_ms lexical_stats db tx ops = (db', res) ->
  reg_same db db' /\
  forall tx', res = Ok tx' ->
    exists m' log' T', spec_run (statements ops) (m, log) = (m', log') /\ TxInv db' m0 tx' ∅ m' log' T'.
Proof.
  revert db tx m log T. induction ops as [|op ops IH]; intros db tx m log T HI Hd HT Hfit; cbn [write_ops].
  - intros [= <- <-]. split; [apply reg_same_refl|]. intros tx' [= <-]. by exists m, log, T.
  - cbn [statements flat_map] in *. fold (statements ops) in *. destruct Hd as [Hnd Hnul].
    rewrite map_app in Hnd, HT. apply NoDup_app in Hnd as (Hnd1 & Hdisj & Hnd2).
    apply run_fits_app in Hfit as [Hfit1 Hfit2].
    assert (forall db1 r, write_op json_text now_ms lexical_stats db tx op = (db1, r) ->
      reg_same db db1 /\ forall tx1, r = Ok tx1 -> exists m1 log1 T1,
        spec_run (flatten op) (m, log) = (m1, log1) /\ TxInv db1 m0 tx1 ∅ m1 log1 T1 /\
        forall id, id ∈ T1 <-> id ∈ T \/ id ∈ map aop_id (flatten op)) as Hop.
    { intros db1 r Hop. destruct op as [rs|id]; cbn [write_op flatten] in *.
      - rewrite aop_ids_upserts in *. eapply upsert_into_inv in Hop; [exact Hop|done|done| |done].
        intros x Hx. split.
        + apply HT, elem_of_app. left. apply list_elem_of_fmap. by exists x.
        + apply Hnul, elem_of_app. left. apply list_elem_of_fmap. by exists x.
      - injection Hop as <- <-. split; [apply reg_same_refl|]. intros tx1 [= <-].
        destruct (remove_into_inv db m0 tx m log T id HI) as (m1 & log1 & T1 & ? & ? & HT1); [|done|].
        + apply HT, elem_of_app. left. by left.
        + exists m1, log1, T1. split_and!; [done..|]. intros x. rewrite HT1. cbn. set_solver. }
    destruct (write_op _ _ _ _ _ _) as [db1 [tx1|e]]; destruct (Hop _ _ eq_refl) as [S1 Hop1].
    2: { intros [= <- <-]. by split. }
    destruct (Hop1 tx1 eq_refl) as (m1 & log1 & T1 & Hrun & HI1 & HT1). rewrite Hrun in Hfit2.
    intros Hw. eapply IH in Hw as [S2 Hw]; [|done| | |done].
    + split; [by eapply reg_same_trans|]. intros tx' Hres. destruct (Hw tx' Hres) as (m' & log' & T' & Hr & HI').
      exists m', log', T'. split; [|done]. by rewrite spec_run_app, Hrun.
    + split; [done|]. intros r Hr. apply Hnul, elem_of_app. by right.
    + intros id Hid. rewrite HT1. intros [Hin|Hin]; [|by eapply Hdisj].
      revert Hin. apply HT, elem_of_app. by right.
Qed.

(** ** Commit *)

Lemma counter_puts_ops tx op : op ∈ counter_puts tx -> op_cf op = CF_META /\ no_merge op.
Proof.
  unfold counter_puts. destruct (counters_dirty tx); [|by intros ?%elem_of_nil].
  intros Hop. repeat (apply elem_of_cons in Hop as [->|Hop]; [done|]). by apply elem_of_nil in Hop.
Qed.

Lemma commit_cf db m0 tx df m log T cf :
  TxInv db m0 tx df m log T -> cf <> CF_TDF ->
  (commit db tx).1 cf = apply_ops (counter_puts tx) (apply_ops (batch tx) db) cf.
Proof.
  intros HI Hcf. unfold commit. cbn. rewrite db_write_plain.
  - fold (apply_ops (batch tx ++ counter_puts tx) db). by rewrite apply_ops_app.
  - apply df_deltas_none. intros k d [Hop|Hop]%elem_of_app.
    + apply (ti_ops _ _ _ _ _ _ _ HI) in Hop as [? _]. done.
    + by apply counter_puts_ops in Hop as [_ ?].
Qed.

Lemma commit_not_meta db m0 tx df m log T cf :
  TxInv db m0 tx df m log T -> cf <> CF_TDF -> cf <> CF_META ->
  (commit db tx).1 cf = apply_ops (batch tx) db cf.
Proof.
  intros HI H1' H2'. rewrite (commit_cf _ _ _ _ _ _ _ _ HI) by done.
  apply apply_ops_frame. intros op [? _]%counter_puts_ops. congruence.
Qed.

Lemma commit_meta db m0 tx df m log T :
  TxInv db m0 tx df m log T ->
  (commit db tx).1 CF_META = apply_ops (counter_puts tx) db CF_META.
Proof.
  intros HI. rewrite (commit_cf _ _ _ _ _ _ _ _ HI) by done. apply apply_ops_cf, apply_ops_frame.
  intros op Hop Hcf Hm. apply (ti_ops _ _ _ _ _ _ _ HI) in Hop.
  destruct op; cbn in *; [destruct Hop; by subst|destruct Hop; by subst|done].
Qed.

Lemma u64_le_read x : 0 <= x < 2 ^ 64 -> from_le_bytes (take 8 (le_bytes 8 x)) = x.
Proof.
  intros. rewrite take_ge by (by rewrite length_le_bytes). by apply from_le_le_bytes.
Qed.

(** The meta rows after the counter puts. *)
Lemma commit_counters db m0 tx df m log T :
  TxInv db m0 tx df m log T -> fits (m, log) ->
  let db' := (commit db tx).1 in
  get_u64 db' META_DOC_COUNT = doc_count tx /\ get_u64 db' META_TOTAL_TOKENS = total_tokens tx /\
  get_u64 db' META_FEED_SEQ = feed_seq tx /\ get_shapes db' = shapes tx /\
  indexed_fields db' = indexed_fields db.
Proof.
  intros HI (F1 & F2 & F3) db'. cbn in F1, F2, F3. unfold get_u64, get_shapes, indexed_fields, get_names, get_cf.
  unfold db'. rewrite (commit_meta _ _ _ _ _ _ _ HI).
  destruct HI as [_ _ _ _ _ [Cd Ct _] _ _ Cq _ _ Cl]. rewrite msum_one in Cd.
  pose proof (msum_nonneg tokens_of m tokens_nonneg). unfold counter_puts.
  destruct (counters_dirty tx).
  - unfold apply_ops. cbn [fold_left Kv.apply_op]. rewrite !lookup_put_cf.
    repeat (first [rewrite decide_True by done|rewrite decide_False by (intros [_ E]; revert E; key_ne)]).
    unfold u64_le. cbv beta iota. rewrite !u64_le_read by lia. done.
  - destruct (Cl eq_refl) as (-> & -> & -> & ->). done.
Qed.

Lemma commit_refines db m0 tx m log T :
  TxInv db m0 tx ∅ m log T -> fits (m, log) -> 
  Refines json_text now_ms lexical_stats (commit db tx).1 m log.
Proof.
  intros HI Hf. pose proof (commit_counters _ _ _ _ _ _ _ HI Hf) as (E1 & E2 & E3 & E4 & E5).
  pose proof HI as [I0 Id Ii Ir Is Ic If Ie Iq Io Ig Il]. split.
  - done.
  - rewrite E5. eapply rows_ok_cf; [|exact Ir]. intros cf Hcf.
    apply (commit_not_meta _ _ _ _ _ _ _ _ HI); by destruct cf.
  - by rewrite E1, E2, E4.
  - intros Hls t. destruct Hf as (Hsize & _). cbn in Hsize. pose proof (terms_bound t m). pose proof (If Hls t) as Ht.
    unfold df_of in Ht. rewrite lookup_empty in Ht. cbn in Ht. unfold tdf in *. unfold commit. cbn [fst].
    assert (delta_sum CF_TDF t (counter_puts tx) = 0) as Hz.
    { apply delta_sum_none, Forall_forall. intros op Hop. by apply counter_puts_ops in Hop as [_ ?]. }
    rewrite db_write_merged; rewrite ?delta_sum_app, ?Hz.
    + lia.
    + apply Forall_forall. intros op [Hop|Hop]%elem_of_app [Hcf Hm].
      * apply Io in Hop. destruct op; cbn [op_cf no_merge tx_op] in *; [| |done]; subst; by destruct Hop.
      * apply counter_puts_ops in Hop as [? _]. congruence.
    + unfold is_i64. lia.
  - unfold feed_ok. rewrite (commit_not_meta _ _ _ _ _ _ _ _ HI) by done. done.
  - by rewrite E3.
Qed.
End invariant.
