(* ===== verification/StoreSpec.v ===== *)
(** * What the write path promises

    The public operations of the recall store against the abstract store: a
    map of records and a log of changes. *)
From S2P Require Import Prelude Floats ByteOrder Utf8 Json RroTime Geo Query Keys KeysFacts Model.
From S2P Require Import Kv Pending Store StoreFacts StoreTx.
#[local] Set Default Goal Selector "!".
#[local] Set Warnings "-clear-no-such-hyp".
Local Open Scope Z_scope.

(** ** A fresh estate *)

(** The rows [Estate::open_with] puts into an empty database. *)
Definition create `{SerdeNumber} (id name : bytes) (now : Z) (lexical_stats : bool) : Db :=
  let db := put_cf (fun _ => ∅) CF_META META_ESTATE (RInfo (mkEstateInfo id name now None ∅)) in
  if lexical_stats then put_cf db CF_META META_LEXSTATS (u64_le 1) else db.

Section store_spec.
Context `{SerdeNumber} `{Libm} `{TextAnalyzer}.
Variable json_text : Json -> bytes.
Variable json_len : Metadata -> Z.
Variable now_ms : Z -> Z.
Variable lexical_stats : bool.

Lemma create_meta id name now ls k :
  k <> META_ESTATE -> k <> META_LEXSTATS -> create id name now ls CF_META !! k = None.
Proof.
  intros N1 N2. unfold create. destruct ls; rewrite !lookup_put_cf;
    rewrite ?decide_False by naive_solver; apply lookup_empty.
Qed.

Lemma create_other id name now ls cf : cf <> CF_META -> create id name now ls cf = ∅.
Proof.
  intros Hcf. unfold create. destruct ls; unfold put_cf, upd_cf; by rewrite !decide_False by done.
Qed.

Lemma create_refines id name now ls :
  Refines json_text now_ms lexical_stats (create id name now ls) ∅ [].
Proof.
  assert (forall k, k <> META_ESTATE -> k <> META_LEXSTATS -> get_u64 (create id name now ls) k = 0) as Hz.
  { intros k N1 N2. unfold get_u64, get_cf. by rewrite create_meta. }
  split.
  - intros x r. by rewrite lookup_empty.
  - intros cf k Hcf. rewrite create_other by (by intros ->). by rewrite !lookup_empty.
  - rewrite !Hz by key_ne. unfold get_shapes, get_cf. rewrite create_meta by key_ne.
    split; [by rewrite msum_empty..|]. intros s. by rewrite lookup_empty, msum_empty.
  - intros _ t. unfold tdf. rewrite create_other by done. by rewrite lookup_empty, msum_empty.
  - split; [by intros i op x; rewrite lookup_nil|]. intros k v. rewrite create_other by done.
    by rewrite lookup_empty.
  - by rewrite Hz by key_ne.
Qed.

(** ** Transactions *)

(** What an outcome promises, from the abstract store [s] and the
    statements applied to it. *)
Definition outcome_ok (db' : Db) (res : result RroError (list GraphOp))
  (s : gmap bytes VectorRecord * list (ChangeOp * bytes)) (ops : list AOp) : Prop :=
  match res with
  | Ok gops =>
      Refines json_text now_ms lexical_stats db' (spec_run ops s).1 (spec_run ops s).2 /\
      graph_run gops (vr_embedding <$> s.1) = vr_embedding <$> (spec_run ops s).1
  | Err _ => Refines json_text now_ms lexical_stats db' s.1 s.2
  end.

Lemma run_fits_last ops s : run_fits ops s -> fits (spec_run ops s).
Proof.
  revert s. induction ops as [|op ops IH]; intros s; cbn; [by intros [? _]|]. intros [_ Hf]. by apply IH.
Qed.

Lemma committed db m0 tx m log T :
  TxInv json_text now_ms lexical_stats db m0 tx ∅ m log T -> fits (m, log) ->
  Refines json_text now_ms lexical_stats (commit db tx).1 m log /\
  graph_run (commit db tx).2 (vr_embedding <$> m0) = vr_embedding <$> m.
Proof. intros HI Hf. split; [by eapply commit_refines|apply HI]. Qed.

Lemma transaction_outcome db m log ops db' res :
  Refines json_text now_ms lexical_stats db m log ->
  ids_distinct (statements ops) -> run_fits (statements ops) (m, log) ->
  transaction json_text now_ms lexical_stats db ops = (db', res) ->
  outcome_ok db' res (m, log) (statements ops).
Proof.
  intros HR Hd Hf. destruct ops as [|op ops'].
  { cbn. intros [= <- <-]. by split. }
  unfold transaction. set (ops := op :: ops') in *.
  destruct (write_ops json_text now_ms lexical_stats db (begin db) ops) as [db1 [tx|e]] eqn:Ew;
    (eapply write_ops_inv in Ew as [S1 Hw]; [|by apply tx_inv_begin|done|set_solver|done]).
  - destruct (Hw tx eq_refl) as (m' & log' & T & Hrun & HI). intros [= <- <-]. unfold outcome_ok. rewrite Hrun.
    apply (committed _ _ _ _ _ _ HI). rewrite <- Hrun. by apply run_fits_last.
  - intros [= <- <-]. cbn. by eapply refines_reg.
Qed.

Lemma upsert_outcome q db m log rs db' res :
  Refines json_text now_ms lexical_stats db m log ->
  ids_distinct (map AUpsert rs) -> run_fits (map AUpsert rs) (m, log) ->
  upsert json_text json_len now_ms q lexical_stats db rs = (db', res) ->
  outcome_ok db' res (m, log) (map AUpsert rs).
Proof.
  intros HR [Hnd Hnul] Hf. destruct rs as [|r rs'].
  { cbn. intros [= <- <-]. by split. }
  unfold upsert. set (rs := r :: rs') in *.
  destruct (_ ≫= _) as [[]|e]; [|by intros [= <- <-]].
  destruct (upsert_into json_text now_ms lexical_stats db (begin db) rs) as [db1 [tx|e]] eqn:Eu;
    (eapply upsert_into_inv in Eu as [S1 Hw];
      [|by apply tx_inv_begin|by rewrite <- aop_ids_upserts| |done]).
  - destruct (Hw tx eq_refl) as (m' & log' & T & Hrun & HI & _). intros [= <- <-]. unfold outcome_ok. rewrite Hrun.
    apply (committed _ _ _ _ _ _ HI). rewrite <- Hrun. by apply run_fits_last.
  - intros x Hx. split; [set_solver|]. apply Hnul, list_elem_of_fmap. by exists x.
  - intros [= <- <-]. cbn. by eapply refines_reg.
  - intros x Hx. split; [set_solver|]. apply Hnul, list_elem_of_fmap. by exists x.
Qed.

(** ** The document cap *)

Lemma net_new_count db m log rs :
  Refines json_text now_ms lexical_stats db m log ->
  NoDup (map vr_id rs) ->
  Z.of_nat (size (spec_run (map AUpsert rs) (m, log)).1) = Z.of_nat (size m) + net_new db rs.
Proof.
  intros HR. assert (forall m', (forall id, id ∈ map vr_id rs -> m' !! id = m !! id) -> NoDup (map vr_id rs) ->
    forall log', Z.of_nat (size (spec_run (map AUpsert rs) (m', log')).1) = Z.of_nat (size m') + net_new db rs) as Hgen.
  { induction rs as [|r rs IH]; intros m' Hm Hnd log'; [unfold net_new; cbn; lia|].
    cbn in Hnd. apply NoDup_cons in Hnd as [Hr Hnd]. cbn [map spec_run fold_left spec_step].
    fold (spec_run (map AUpsert rs) (<[vr_id r:=r]> m', log' ++ [(Upsert, vr_id r)])).
    rewrite IH; [|intros id Hid; rewrite lookup_insert_ne by (intros <-; done); apply Hm; by right|done].
    unfold net_new. rewrite filter_cons.
    rewrite (rows_ok_doc json_text (indexed_fields db) db m) by apply HR.
    rewrite <- (Hm (vr_id r)) by (by left).
    destruct (m' !! vr_id r) as [old|] eqn:E; cbn [fmap option_fmap option_map].
    - rewrite decide_False by done. rewrite map_size_insert_Some by done. done.
    - rewrite decide_True by done. rewrite map_size_insert_None by done. cbn [length]. lia. }
  intros Hnd. by apply Hgen.
Qed.

Lemma upsert_within_cap q db m log rs db' gops cap :
  Refines json_text now_ms lexical_stats db m log ->
  ids_distinct (map AUpsert rs) -> run_fits (map AUpsert rs) (m, log) -> rs <> [] ->
  upsert json_text json_len now_ms q lexical_stats db rs = (db', Ok gops) -> max_docs q = Some cap ->
  Z.of_nat (size (spec_run (map AUpsert rs) (m, log)).1) <= cap.
Proof.
  intros HR [Hnd _] Hf Hne Hu Hcap. destruct rs as [|r rs']; [done|]. unfold upsert in Hu.
  set (rs := r :: rs') in *. rewrite aop_ids_upserts in Hnd.
  destruct (_ ≫= _) as [[]|e] eqn:Eq; [|done]. apply bind_ok in Eq as ([] & _ & Eq).
  apply bind_ok in Eq as ([] & _ & Eq). unfold check_docs in Eq. rewrite Hcap in Eq.
  destruct (cap <? _) eqn:Ec; [done|]. apply Z.ltb_ge in Ec.
  pose proof (net_new_count _ _ _ _ HR Hnd) as Hn. pose proof (run_fits_last _ _ Hf) as (F1 & _).
  rewrite Hn in *. rewrite (co_docs _ _ _ _ (rf_counts _ _ _ _ _ _ HR)), msum_one in Ec.
  unfold net_new in *. rewrite u64_add_small in Ec; lia.
Qed.

Lemma remove_outcome db m log id db' gops :
  Refines json_text now_ms lexical_stats db m log -> run_fits [ARemove id] (m, log) ->
  remove json_text now_ms lexical_stats db id = (db', gops) ->
  outcome_ok db' (Ok gops) (m, log) [ARemove id].
Proof.
  intros HR Hf Hr. destruct (remove_into_inv json_text now_ms lexical_stats db m (begin db) m log ∅ id)
    as (m' & log' & T & Hrun & HI & _); [by apply tx_inv_begin|set_solver|done|].
  unfold remove in Hr. unfold outcome_ok. rewrite Hrun.
  assert (db' = (commit db (remove_into json_text now_ms lexical_stats db (begin db) id)).1) as -> by (by rewrite Hr).
  assert (gops = (commit db (remove_into json_text now_ms lexical_stats db (begin db) id)).2) as -> by (by rewrite Hr).
  apply (committed _ _ _ _ _ _ HI). rewrite <- Hrun. by apply run_fits_last.
Qed.

(** ** Payload mutation *)

Definition with_metadata (r : VectorRecord) (m : Metadata) : VectorRecord :=
  mkVectorRecord (vr_id r) (vr_embedding r) (vr_text r) m (vr_sparse r) (vr_named r) (vr_multi r) (vr_collection r).

Lemma apply_ops_filter (b : list Op) db cf :
  apply_ops b db cf = apply_ops (filter (fun op => op_cf op = cf) b) db cf.
Proof.
  induction b as [|op b IH] using rev_ind; [done|]. rewrite list.filter_app, !apply_ops_app, filter_cons.
  destruct (decide (op_cf op = cf)) as [E|E].
  - by apply apply_ops_cf.
  - cbn. rewrite <- IH. apply map_eq. intros k. apply apply_op_miss. by intros [? _].
Qed.

Lemma filter_none (b : list Op) cf : (forall op, op ∈ b -> op_cf op <> cf) -> filter (fun op => op_cf op = cf) b = [].
Proof.
  induction b as [|op b IH]; intros Hb; [done|]. rewrite filter_cons, decide_False by (apply Hb; by left).
  apply IH. intros o Ho. apply Hb. by right.
Qed.

Lemma pidx_puts_filter rows cf :
  cf <> CF_PIDX -> filter (fun op => op_cf op = cf) (map (fun k => OpPut CF_PIDX k (RBytes [])) rows) = [].
Proof. intros Hcf. apply filter_none. by intros op (k & -> & _)%list_elem_of_fmap. Qed.

(** The rows of other families do not depend on the metadata. *)
Lemma doc_rows_metadata fields r m cf :
  cf <> CF_PIDX -> cf <> CF_DOCS ->
  doc_rows json_text fields (with_metadata r m) cf = doc_rows json_text fields r cf.
Proof.
  intros N1 N2. unfold doc_rows. rewrite apply_ops_filter, (apply_ops_filter (record_puts _ _ r)). f_equal.
  unfold record_puts, data_puts, Batch. rewrite !list.filter_app, !pidx_puts_filter by done.
  cbn [vr_id vr_text vr_named vr_multi vr_collection vr_embedding with_metadata].
  by rewrite !(filter_cons_False _ (OpPut CF_DOCS _ _)) by (cbn; congruence).
Qed.

Lemma doc_rows_pidx fields r :
  doc_rows json_text fields r CF_PIDX =
  apply_ops (map (fun k => OpPut CF_PIDX k (RBytes [])) (pidx_rows json_text fields (vr_id r) (vr_metadata r)))
    (fun _ => ∅) CF_PIDX.
Proof.
  unfold doc_rows, record_puts. rewrite !apply_ops_app, apply_ops_frame.
  - apply apply_ops_cf, (apply_ops_frame _ (fun _ => ∅) CF_PIDX). unfold term_puts. intros op ([t f] & -> & _)%list_elem_of_fmap Hcf. discriminate Hcf.
  - unfold data_puts. intros op Hop Hcf _. rewrite !elem_of_app in Hop. destruct Hop as [Hop|[Hop|[Hop|[Hop|Hop]]]].
    + by apply list_elem_of_fmap in Hop as ([d w] & -> & _).
    + by apply list_elem_of_fmap in Hop as ([n v] & -> & _).
    + destruct (0 <? _); [|by apply elem_of_nil in Hop]. by apply list_elem_of_singleton in Hop as ->.
    + destruct (vr_collection r); [|by apply elem_of_nil in Hop]. by apply list_elem_of_singleton in Hop as ->.
    + repeat (apply elem_of_cons in Hop as [->|Hop]; [done|]). by apply elem_of_nil in Hop.
Qed.

(** The data operations of a payload mutation. *)
Definition payload_ops (fields : list bytes) (r r' : VectorRecord) : Batch :=
  map (OpDelete CF_PIDX) (pidx_rows json_text fields (vr_id r) (vr_metadata r)) ++
  map (fun k => OpPut CF_PIDX k (RBytes [])) (pidx_rows json_text fields (vr_id r) (vr_metadata r')) ++
  [OpPut CF_DOCS (vr_id r) (RDoc (stored_doc r'))].

Lemma payload_ops_owned fields r r' op :
  nul_free (vr_id r) -> op ∈ payload_ops fields r r' ->
  owned (vr_id r) op /\ (op_cf op = CF_PIDX \/ op_cf op = CF_DOCS).
Proof.
  intros Hid. unfold payload_ops. rewrite !elem_of_app. intros [Hop|[Hop|Hop]].
  - apply list_elem_of_fmap in Hop as (k & -> & Hk). split; [|by left]. split; [done|]. by eapply pidx_rows_owner.
  - apply list_elem_of_fmap in Hop as (k & -> & Hk). split; [|by left]. split; [done|]. by eapply pidx_rows_owner.
  - apply list_elem_of_singleton in Hop as ->. by split; [|right].
Qed.

Lemma payload_pidx fields r r' db k :
  db CF_PIDX !! k = doc_rows json_text fields r CF_PIDX !! k -> vr_id r' = vr_id r ->
  apply_ops (payload_ops fields r r') db CF_PIDX !! k = doc_rows json_text fields r' CF_PIDX !! k.
Proof.
  intros Hk Hid. unfold payload_ops. rewrite !apply_ops_app. cbn. rewrite lookup_put_cf, decide_False by naive_solver.
  rewrite doc_rows_pidx, Hid, apply_puts by (by apply Forall_map_intro).
  destruct (apply_ops _ (fun _ => ∅) CF_PIDX !! k) as [v|]; [done|].
  assert (forall op, op ∈ map (OpDelete CF_PIDX) (pidx_rows json_text fields (vr_id r) (vr_metadata r)) ->
    no_merge op -> is_delete op) as Hdel by (by intros op (x & -> & _)%list_elem_of_fmap).
  destruct (db CF_PIDX !! k) as [v|] eqn:Ek; [|by apply apply_deletes_none].
  apply apply_deletes; [done|]. symmetry in Hk. rewrite doc_rows_pidx in Hk. apply apply_puts_elem in Hk.
  apply list_elem_of_fmap in Hk as (x & [= ->] & Hx). apply list_elem_of_fmap. by exists x.
Qed.

Lemma rows_ok_payload fields db m r md b :
  ids_ok m -> m !! vr_id r = Some r -> rows_ok json_text fields db m ->
  (forall op, op ∈ b -> data_cf (op_cf op) = false) ->
  rows_ok json_text fields (apply_ops (payload_ops fields r (with_metadata r md) ++ b) db)
    (<[vr_id r := with_metadata r md]> m).
Proof.
  intros Hids Hm Hr Hb. pose proof (Hids _ _ Hm) as [_ Hid]. rewrite apply_ops_app.
  apply rows_ok_frame. { intros op Hop Hd _. apply Hb in Hop. congruence. }
  intros cf k Hcf. pose proof (Hr cf k Hcf) as Hrow. destruct (decide (owner cf k = vr_id r)) as [Ho|Ho].
  - rewrite Ho, lookup_insert_eq. cbn. rewrite Ho, Hm in Hrow. cbn in Hrow.
    destruct (decide (cf = CF_PIDX)) as [->|N1]; [by apply payload_pidx|].
    destruct (decide (cf = CF_DOCS)) as [->|N2].
    + cbn in Ho. subst k. change (vr_id r) with (vr_id (with_metadata r md)) at 2. rewrite doc_rows_docs.
      unfold payload_ops. rewrite !apply_ops_app. cbn. rewrite lookup_put_cf. by rewrite decide_True.
    + rewrite doc_rows_metadata by done. rewrite <- Hrow. f_equal. apply apply_ops_frame.
      intros op [_ [?|?]]%payload_ops_owned ? ?; congruence.
  - rewrite lookup_insert_ne by done. rewrite apply_ops_miss; [done|].
    intros op [[_ Hown] _]%payload_ops_owned (<- & <- & _); done.
Qed.

Lemma counts_payload m docs tokens census r md id :
  counts_ok m docs tokens census -> m !! id = Some r -> vr_id r = id ->
  Z.of_nat (size m) < 2 ^ 63 -> msum tokens_of m < 2 ^ 64 ->
  counts_ok (<[id := with_metadata r md]> m) docs tokens
    (shapes_inc (shape_key (shape_of md)) (shapes_dec (shape_key (shape_of (vr_metadata r))) census)).
Proof.
  intros Hc Hm <- Hs Ht. pose proof (counts_delete _ _ _ _ _ _ Hc Hm) as Hdel.
  assert (size (<[vr_id r := with_metadata r md]> m) = size m) as Es by (by rewrite map_size_insert_Some).
  assert (msum tokens_of (<[vr_id r := with_metadata r md]> m) = msum tokens_of m) as Et.
  { rewrite msum_insert, Hm. unfold tokens_of. cbn. lia. }
  pose proof (counts_insert _ _ _ _ (with_metadata r md) Hdel (lookup_delete_eq _ _)) as Hins.
  cbn [vr_id with_metadata vr_metadata] in Hins. rewrite insert_delete_eq in Hins.
  rewrite Es, Et in Hins. specialize (Hins Hs Ht). destruct Hc as [-> -> _]. split.
  - by rewrite !msum_one, Es.
  - by rewrite Et.
  - apply Hins.
Qed.


(** The rest of its batch: the feed row and two rows of the meta family. *)
Definition payload_tail (seq : Z) (id : bytes) (census : gmap bytes Z) : Batch :=
  [change_put now_ms seq Upsert id; OpPut CF_META META_FEED_SEQ (u64_le (u64_add seq 1));
   OpPut CF_META META_SHAPES (RShapes census)].

Lemma payload_tail_cf seq id census op :
  op ∈ payload_tail seq id census -> op_cf op = CF_FEED \/ op_cf op = CF_META.
Proof.
  intros Hop. repeat (apply elem_of_cons in Hop as [->|Hop]; [cbn; auto|]). by apply elem_of_nil in Hop.
Qed.

Lemma payload_write db fields r r' seq id census cf :
  db_write db (payload_ops fields r r' ++ payload_tail seq id census) cf =
  apply_ops (payload_ops fields r r' ++ payload_tail seq id census) db cf.
Proof.
  apply db_write_plain, df_deltas_none. intros k d Hop.
  assert (Forall no_merge (payload_ops fields r r' ++ payload_tail seq id census)) as Hnm.
  { unfold payload_ops. rewrite !Forall_app. split_and!; try (by apply Forall_map_intro); by repeat constructor. }
  rewrite Forall_forall in Hnm. by apply Hnm in Hop.
Qed.

Lemma payload_write_other db fields r r' seq id census cf :
  nul_free (vr_id r) -> cf <> CF_PIDX -> cf <> CF_DOCS ->
  db_write db (payload_ops fields r r' ++ payload_tail seq id census) cf =
  apply_ops (payload_tail seq id census) db cf.
Proof.
  intros Hid N1 N2. rewrite payload_write, apply_ops_app. apply apply_ops_cf, apply_ops_frame.
  intros op Hop Hcf _. apply payload_ops_owned in Hop as [_ [?|?]]; [congruence|congruence|done].
Qed.

Lemma payload_write_meta db fields r r' seq id census k :
  nul_free (vr_id r) ->
  db_write db (payload_ops fields r r' ++ payload_tail seq id census) CF_META !! k =
  if decide (k = META_SHAPES) then Some (RShapes census)
  else if decide (k = META_FEED_SEQ) then Some (u64_le (u64_add seq 1)) else db CF_META !! k.
Proof.
  intros Hid. rewrite payload_write_other by done. unfold payload_tail, change_put, apply_ops.
  cbn [fold_left Kv.apply_op]. rewrite !lookup_put_cf.
  destruct (decide (k = META_SHAPES)) as [->|N1]; [by rewrite decide_True|].
  rewrite decide_False by naive_solver.
  destruct (decide (k = META_FEED_SEQ)) as [->|N2]; [by rewrite decide_True|].
  rewrite decide_False by naive_solver. by rewrite decide_False by naive_solver.
Qed.

(** The batch of [mutate_payload], in these terms. *)
Lemma mutate_payload_eq db m r f :
  ids_ok m -> rows_ok json_text (indexed_fields db) db m -> m !! vr_id r = Some r ->
  mutate_payload json_text now_ms f db (vr_id r) =
  (db_write db (payload_ops (indexed_fields db) r (with_metadata r (f (vr_metadata r))) ++
     payload_tail (get_u64 db META_FEED_SEQ) (vr_id r)
       (shapes_inc (shape_key (shape_of (f (vr_metadata r))))
          (shapes_dec (shape_key (shape_of (vr_metadata r))) (get_shapes db)))), Ok tt).
Proof.
  intros Hids Hr Hm. unfold mutate_payload. rewrite (rows_ok_doc json_text (indexed_fields db) db m) by done.
  rewrite Hm. cbn [fmap option_fmap option_map]. unfold payload_ops. by rewrite <- !app_assoc.
Qed.

Lemma mutate_payload_refines db m log id r f :
  Refines json_text now_ms lexical_stats db m log -> m !! id = Some r ->
  fits (m, log ++ [(Upsert, id)]) ->
  exists db', mutate_payload json_text now_ms f db id = (db', Ok tt) /\
    Refines json_text now_ms lexical_stats db' (<[id := with_metadata r (f (vr_metadata r))]> m)
      (log ++ [(Upsert, id)]).
Proof.
  intros [Ri Rr Rc Rt Rf Rs] Hm (F1 & F2 & F3). cbn in F1, F2, F3. rewrite length_app in F3. cbn in F3.
  pose proof (Ri _ _ Hm) as [<- Hid]. eexists. split; [by apply (mutate_payload_eq db m)|].
  rewrite Rs. set (n := Z.of_nat (length log)) in *. set (md := f (vr_metadata r)). set (census := shapes_inc _ _).
  pose proof (fun k => payload_write_meta db (indexed_fields db) r (with_metadata r md) n (vr_id r) census k Hid) as Em.
  assert (indexed_fields (db_write db (payload_ops (indexed_fields db) r (with_metadata r md) ++
    payload_tail n (vr_id r) census)) = indexed_fields db) as Ef.
  { unfold indexed_fields at 1, get_names, get_cf. rewrite Em. by rewrite !decide_False by key_ne. }
  split.
  - intros x y. rewrite lookup_insert_Some. intros [[<- <-]|[_ Hy]]; [done|by apply Ri].
  - rewrite Ef. eapply rows_ok_cf; [intros cf _; apply payload_write|]. apply rows_ok_payload; [done..|].
    by intros op [-> | ->]%payload_tail_cf.
  - unfold get_u64, get_shapes, get_cf. rewrite !Em.
    rewrite !(decide_False (P := META_DOC_COUNT = _)), !(decide_False (P := META_TOTAL_TOKENS = _)) by key_ne.
    rewrite decide_True by done. by apply counts_payload.
  - intros Hls t. unfold tdf. rewrite payload_write_other by done. rewrite apply_ops_frame.
    + rewrite msum_insert, Hm. change (has_term t (with_metadata r md)) with (has_term t r). cbn.
      pose proof (Rt Hls t) as E. unfold tdf in E. lia.
    + by intros op [-> | ->]%payload_tail_cf ?.
  - apply (feed_append now_ms db db) with (op := Upsert) (id := vr_id r) in Rf; [|lia|done].
    unfold feed_ok in *. rewrite payload_write_other by done. done.
  - unfold get_u64, get_cf. rewrite Em. rewrite decide_False by key_ne. rewrite decide_True by done.
    assert (u64_add n 1 = n + 1) as -> by (apply u64_add_small; lia). unfold u64_le. cbv beta iota.
    rewrite u64_le_read by lia.
    unfold n. rewrite length_app. cbn. lia.
Qed.
End store_spec.

(** ** What an upsert accepts *)

Section accepts.
Context `{SerdeNumber} `{Libm} `{TextAnalyzer}.
Variable json_text : Json -> bytes.
Variable now_ms : Z -> Z.

Definition dims_ok (info : EstateInfo) (rs : list VectorRecord) : Prop :=
  exists dim, (ei_dim info = None \/ ei_dim info = Some dim) /\
    forall r, r ∈ rs -> Z.of_nat (length (vr_embedding r)) = dim.
Definition schema_ok (schema : Schema) (r : VectorRecord) : Prop :=
  forall c fields field ty v, vr_collection r = Some c -> schema !! c = Some fields ->
    fields !! field = Some ty -> vr_metadata r !! field = Some v -> value_matches_type v ty = true.
Definition keys_ok (fields : list bytes) (rs : list VectorRecord) : Prop :=
  forall r, r ∈ rs -> key_too_long (vr_id r) = false /\
    forall k, k ∈ pidx_rows json_text fields (vr_id r) (vr_metadata r) -> key_too_long k = false.

Lemma check_dims_ok dim rs :
  check_dims dim rs = Ok tt <-> forall r, r ∈ rs -> Z.of_nat (length (vr_embedding r)) = dim.
Proof.
  induction rs as [|r rs IH]; cbn [check_dims]; [split; [by intros _ r ?%elem_of_nil|done]|].
  destruct (_ =? dim) eqn:E; [apply Z.eqb_eq in E|apply Z.eqb_neq in E].
  - rewrite IH. split; intros Hr x Hx; [|apply Hr; by right]. apply elem_of_cons in Hx as [->|?]; auto.
  - split; [done|]. intros Hr. destruct E. apply Hr. by left.
Qed.

Lemma check_fields_ok c m fields :
  check_fields c m fields = Ok tt <->
  forall field ty v, (field, ty) ∈ fields -> m !! field = Some v -> value_matches_type v ty = true.
Proof.
  induction fields as [|[f t] fields IH]; cbn [check_fields]; [split; [by intros _ ? ? ? ?%elem_of_nil|done]|].
  destruct (m !! f) as [v|] eqn:Ev; [destruct (value_matches_type v t) eqn:Et|]; rewrite ?IH.
  - split; intros Hf x ty w Hin Hw; [|eapply Hf; [by right|done]].
    apply elem_of_cons in Hin as [[= -> ->]|Hin]; [congruence|by eapply Hf].
  - split; [done|]. intros Hf. rewrite (Hf f t v) in Et; [done|by left|done].
  - split; intros Hf x ty w Hin Hw; [|eapply Hf; [by right|done]].
    apply elem_of_cons in Hin as [[= -> ->]|Hin]; [congruence|by eapply Hf].
Qed.

Lemma check_schema_ok schema rs :
  check_schema schema rs = Ok tt <-> forall r, r ∈ rs -> schema_ok schema r.
Proof.
  induction rs as [|r rs IH]; [split; [by intros _ r ?%elem_of_nil|done]|].
  assert (check_schema schema (r :: rs) = Ok tt <-> schema_ok schema r /\ check_schema schema rs = Ok tt) as ->.
  { cbn [check_schema]. unfold schema_ok. destruct (vr_collection r) as [c|]; cbn [mbind option_bind].
    - destruct (schema !! c) as [fields|] eqn:Es; cbn [fmap option_fmap option_map].
      + rewrite bind_ok. split.
        * intros ([] & Hf & Hr). rewrite check_fields_ok in Hf. split; [|done].
          intros c' f x ty v [= <-] Hs Hx. rewrite Es in Hs. injection Hs as <-.
          apply Hf. by apply elem_of_btree_iter.
        * intros [Hf Hr]. exists tt. split; [|done]. apply check_fields_ok.
          intros x ty v Hx%elem_of_btree_iter. by apply (Hf c fields x ty v).
      + split; [|by intros [_ ?]]. intros Hr. split; [|done]. intros c' f x ty v [= <-]. by rewrite Es.
    - split; [|by intros [_ ?]]. intros Hr. by split. }
  rewrite IH. split.
  - intros [Hr Hrs] x [->|Hx]%elem_of_cons; auto.
  - intros Hx. split; [apply Hx; by left|]. intros x Hin. apply Hx. by right.
Qed.

Lemma pidx_puts_ok fields id m :
  is_ok (pidx_puts json_text fields id m) = true <->
  forall k, k ∈ pidx_rows json_text fields id m -> key_too_long k = false.
Proof.
  unfold pidx_rows. induction fields as [|f fields IH]; cbn; [split; [by intros _ k ?%elem_of_nil|done]|].
  destruct (m !! f) as [v|]; cbn; [|done]. destruct (key_too_long _) eqn:E.
  - split; [done|]. intros Hk. rewrite Hk in E; [done|by left].
  - destruct (pidx_puts json_text fields id m) as [ops|e]; cbn in *; rewrite IH; clear IH;
      (split; intros Hk k Hin; [apply elem_of_cons in Hin as [->|?]; [done|by apply Hk]|apply Hk; by right]).
Qed.

Lemma upsert_record_ok db fields r st :
  is_ok (upsert_record json_text now_ms db fields r st) = true <->
  key_too_long (vr_id r) = false /\
  forall k, k ∈ pidx_rows json_text fields (vr_id r) (vr_metadata r) -> key_too_long k = false.
Proof.
  rewrite <- pidx_puts_ok. unfold upsert_record. destruct st as [tx df].
  destruct (key_too_long (vr_id r)); [split; [done|by intros [? _]]|].
  destruct (get_doc db (vr_id r)); destruct (pidx_puts _ _ _ _); cbn; tauto.
Qed.

Lemma upsert_records_ok db fields rs st :
  is_ok (upsert_records json_text now_ms db fields rs st) = true <-> keys_ok fields rs.
Proof.
  unfold keys_ok. revert st. induction rs as [|r rs IH]; intros st; cbn [upsert_records];
    [split; [by intros _ r ?%elem_of_nil|done]|].
  pose proof (upsert_record_ok db fields r st) as Hr. destruct (upsert_record _ _ _ _ _ _) as [st'|e]; cbn in *.
  - rewrite IH. split; intros Hx x Hin; [|apply Hx; by right].
    apply elem_of_cons in Hin as [->|?]; [by apply Hr|by apply Hx].
  - split; [done|]. intros Hx. apply Hr. apply Hx. by left.
Qed.

Definition quotas_ok (json_len : Metadata -> Z) (q : Quotas) (db : Db) (rs : list VectorRecord) : Prop :=
  (forall cap, max_batch q = Some cap -> Z.of_nat (length rs) <= cap) /\
  (forall cap r, max_payload_bytes q = Some cap -> r ∈ rs -> json_len (vr_metadata r) <= cap) /\
  (forall cap, max_docs q = Some cap -> u64_add (get_u64 db META_DOC_COUNT) (net_new db rs) <= cap).

Lemma check_payloads_ok json_len cap rs :
  check_payloads json_len cap rs = Ok tt <-> forall r, r ∈ rs -> json_len (vr_metadata r) <= cap.
Proof.
  induction rs as [|r rs IH]; cbn [check_payloads]; [split; [by intros _ r ?%elem_of_nil|done]|].
  destruct (cap <? _) eqn:E; [apply Z.ltb_lt in E|apply Z.ltb_ge in E].
  - split; [done|]. intros Hr. specialize (Hr r ltac:(by left)). lia.
  - rewrite IH. split; intros Hr x Hx; [|apply Hr; by right]. apply elem_of_cons in Hx as [->|?]; auto.
Qed.

Lemma check_quotas_ok json_len q db rs :
  (_ ← check_batch q rs;
   _ ← (match max_payload_bytes q with Some cap => check_payloads json_len cap rs | None => Ok tt end);
   check_docs q db rs) = Ok tt <-> quotas_ok json_len q db rs.
Proof.
  rewrite bind_ok. setoid_rewrite bind_ok. unfold quotas_ok, check_batch, check_docs.
  assert ((forall cap, max_batch q = Some cap -> Z.of_nat (length rs) <= cap) <->
    match max_batch q with Some cap => if cap <? Z.of_nat (length rs) then Err (QuotaBatch (Z.of_nat (length rs)) cap)
      else Ok tt | None => Ok tt end = Ok tt) as ->.
  { destruct (max_batch q) as [cap|]; [|done]. destruct (cap <? _) eqn:E;
      [apply Z.ltb_lt in E|apply Z.ltb_ge in E]; (split; [intros Hc|intros ? c [= <-]]); try done.
    specialize (Hc cap eq_refl). lia. }
  assert ((forall cap r, max_payload_bytes q = Some cap -> r ∈ rs -> json_len (vr_metadata r) <= cap) <->
    match max_payload_bytes q with Some cap => check_payloads json_len cap rs | None => Ok tt end = Ok tt) as ->.
  { destruct (max_payload_bytes q) as [cap|]; [|done]. rewrite check_payloads_ok. split; [by eauto|].
    intros Hr c r [= <-]. apply Hr. }
  assert ((forall cap, max_docs q = Some cap -> u64_add (get_u64 db META_DOC_COUNT) (net_new db rs) <= cap) <->
    match max_docs q with Some cap => let existing := get_u64 db META_DOC_COUNT in
      if cap <? u64_add existing (net_new db rs) then Err (QuotaDocs existing (net_new db rs) cap)
      else Ok tt | None => Ok tt end = Ok tt) as ->.
  { destruct (max_docs q) as [cap|]; [|done]. cbn. destruct (cap <? _) eqn:E;
      [apply Z.ltb_lt in E|apply Z.ltb_ge in E]; (split; [intros Hc|intros ? c [= <-]]); try done.
    specialize (Hc cap eq_refl). lia. }
  split.
  - intros ([] & ? & [] & ? & ?). done.
  - intros (? & ? & ?). by exists tt; split; [|exists tt].
Qed.

(** What an upsert needs besides the quotas. *)
Definition records_ok (db : Db) (rs : list VectorRecord) : Prop :=
  exists info, get_info db = Some info /\ rs <> [] /\ dims_ok info rs /\
    (forall r, r ∈ rs -> schema_ok (get_schema db) r) /\
    is_ok (register_named rs (ei_named_dims info)) = true /\ keys_ok (indexed_fields db) rs.

Lemma reg_same_schema db db' : reg_same db db' -> get_schema db' = get_schema db.
Proof. intros [_ B]. unfold get_schema, get_cf. rewrite B by key_ne. done. Qed.

(** The outcome of the dimension guard. *)
Lemma register_dim_ok db rs :
  match (register_dim db rs).2 with
  | Ok info => exists info0 r rs', get_info db = Some info0 /\ rs = r :: rs' /\
      ei_named_dims info = ei_named_dims info0 /\
      ei_dim info = Some (Z.of_nat (length (vr_embedding r))) /\
      (ei_dim info0 = None \/ ei_dim info0 = Some (Z.of_nat (length (vr_embedding r))))
  | Err _ => ~ (exists info0, get_info db = Some info0 /\ rs <> [] /\ dims_ok info0 rs)
  end.
Proof.
  unfold register_dim. destruct (get_info db) as [i|]; [|by intros (i & ? & _)].
  destruct rs as [|r rs]; [by intros (i' & _ & ? & _)|]. destruct (ei_dim i) as [d|] eqn:Ed; cbn.
  - destruct (d =? _) eqn:E; cbn; [apply Z.eqb_eq in E as ->|apply Z.eqb_neq in E].
    + exists i, r, rs. rewrite Ed. split_and!; auto.
    + intros (i' & [= <-] & _ & dim & [Hd|Hd] & Hr); [congruence|]. rewrite (Hr r) in E by (by left). congruence.
  - exists i, r, rs. split_and!; auto.
Qed.

Lemma upsert_into_ok ls db tx rs :
  is_ok (upsert_into json_text now_ms ls db tx rs).2 = true <-> records_ok db rs.
Proof.
  unfold upsert_into, records_ok. pose proof (register_dim_ok db rs) as Hd.
  destruct (register_dim db rs) as [db1 [info|e]] eqn:E1; cbn in Hd.
  2: { split; [done|]. intros (i & ? & ? & ? & _). destruct Hd. by exists i. }
  pose proof (register_dim_reg _ _ _ _ E1) as S1. destruct Hd as (i & r & rs' & Hi & -> & Hnd & Hdim & Hold).
  set (rs := r :: rs') in *. rewrite Hdim. cbn [default from_option]. set (d := Z.of_nat _).
  assert ((_ ← check_dims d rs; check_schema (get_schema db1) rs) = Ok tt <->
    dims_ok i rs /\ forall x, x ∈ rs -> schema_ok (get_schema db) x) as Hchecks.
  { rewrite bind_ok, <- (reg_same_schema db db1) by done. setoid_rewrite check_schema_ok. split.
    - intros ([] & Hc & Hs). rewrite check_dims_ok in Hc. split; [|done]. by exists d.
    - intros [(d' & Hd' & Hr) Hs]. exists tt. split; [|done]. apply check_dims_ok.
      intros x Hx. rewrite Hr by done. symmetry. apply Hr. by left. }
  destruct (_ ≫= _) as [[]|e].
  2: { split; [done|]. intros (i' & Hi' & _ & H1' & H2' & _). rewrite Hi in Hi'. injection Hi' as <-.
       by assert (@Err RroError unit e = Ok tt) by by apply Hchecks. }
  destruct (proj1 Hchecks eq_refl) as [Hdims Hschema]. rewrite Hnd.
  destruct (register_named rs (ei_named_dims i)) as [dims|e] eqn:En.
  2: { split; [done|]. intros (i' & Hi' & _ & _ & _ & Hn & _). rewrite Hi in Hi'. injection Hi' as <-.
       by rewrite En in Hn. }
  cbn [snd]. match goal with |- is_ok (?st ≫= _) = true <-> _ => transitivity (is_ok st = true) end.
  { by destruct (upsert_records _ _ _ _ _ _) as [[]|]. }
  rewrite upsert_records_ok, (reg_same_fields db db1) by done. split.
  - intros Hk. exists i. rewrite En. done.
  - by intros (i' & _ & _ & _ & _ & _ & Hk).
Qed.

(** What the quotas and the records must satisfy. *)
Lemma upsert_accepted json_len ls (q : Quotas) (db : Db) (rs : list VectorRecord) :
  rs <> [] ->
  is_ok (upsert json_text json_len now_ms q ls db rs).2 = true <->
  quotas_ok json_len q db rs /\ records_ok db rs.
Proof.
  intros Hne. unfold upsert. destruct rs as [|r rs']; [done|]. set (rs := r :: rs') in *.
  rewrite <- check_quotas_ok, <- (upsert_into_ok ls db (begin db)).
  destruct (_ ≫= _) as [[]|e]; [|cbn; split; [done|by intros [? _]]].
  destruct (upsert_into _ _ _ _ _ _) as [db1 [tx|e]]; cbn; tauto.
Qed.
End accepts.

Section Properties.
Context `{SerdeNumber} `{Libm} `{TextAnalyzer}.
Variable json_text : Json -> bytes.
Variable json_len : Metadata -> Z.
Variable now_ms : Z -> Z.
Variable lexical_stats : bool.

Local Abbreviation refines := (Refines json_text now_ms lexical_stats).

(** C1: a transaction is atomic and does what its statements say. From a store
    that holds the rows, counters, document frequencies and feed of a map of
    records, and for statements on distinct ids, a committed transaction leaves
    exactly those of the map with every upsert and removal applied, one feed
    row appended per change, and hands the graph the operations that take the
    old vectors to the new ones; a failed one leaves those of the map it began
    with. *)
Theorem transaction_refines (db : Db) (m : gmap bytes VectorRecord) (log : list (ChangeOp * bytes))
  (ops : list WriteOp) (db' : Db) (res : result RroError (list GraphOp)) :
  refines db m log -> ids_distinct (statements ops) -> run_fits (statements ops) (m, log) ->
  transaction json_text now_ms lexical_stats db ops = (db', res) ->
  match res with
  | Ok gops =>
      refines db' (spec_run (statements ops) (m, log)).1 (spec_run (statements ops) (m, log)).2 /\
      graph_run gops (vr_embedding <$> m) = vr_embedding <$> (spec_run (statements ops) (m, log)).1
  | Err _ => refines db' m log
  end.
Proof. apply transaction_outcome. Qed.

(** C2: an upsert of distinct ids likewise, and under a document cap it never
    leaves more documents than the cap. *)
Theorem upsert_refines (q : Quotas) (db : Db) (m : gmap bytes VectorRecord)
  (log : list (ChangeOp * bytes)) (rs : list VectorRecord) (db' : Db) (res : result RroError (list GraphOp)) :
  refines db m log -> ids_distinct (map AUpsert rs) -> run_fits (map AUpsert rs) (m, log) ->
  upsert json_text json_len now_ms q lexical_stats db rs = (db', res) ->
  outcome_ok json_text now_ms lexical_stats db' res (m, log) (map AUpsert rs) /\
  (forall gops cap, res = Ok gops -> rs <> [] -> max_docs q = Some cap ->
     Z.of_nat (size (spec_run (map AUpsert rs) (m, log)).1) <= cap).
Proof.
  intros HR Hd Hf Hu. split; [by eapply upsert_outcome|]. intros gops cap -> Hne Hcap.
  by eapply upsert_within_cap.
Qed.

(** C39: an upsert is accepted exactly when the quotas allow it, the estate is
    initialised, every record has the estate's dimension (or one common
    dimension, when none is recorded), every present field of a declared
    collection has its declared type, the named and token vectors agree in
    dimension, and no key is too long. *)
Theorem upsert_accepts_exactly (q : Quotas) (db : Db) (rs : list VectorRecord) :
  rs <> [] ->
  is_ok (upsert json_text json_len now_ms q lexical_stats db rs).2 = true <->
  quotas_ok json_len q db rs /\ records_ok json_text db rs.
Proof. apply upsert_accepted. Qed.

(** a removal leaves the rows, counters, frequencies and feed of the map
    without the id; removing an unknown id changes nothing. *)
Theorem remove_refines (db : Db) (m : gmap bytes VectorRecord) (log : list (ChangeOp * bytes)) (id : bytes)
  (db' : Db) (gops : list GraphOp) :
  refines db m log -> run_fits [ARemove id] (m, log) ->
  remove json_text now_ms lexical_stats db id = (db', gops) ->
  refines db' (delete id m) (match m !! id with Some _ => log ++ [(Remove, id)] | None => log end) /\
  graph_run gops (vr_embedding <$> m) = vr_embedding <$> delete id m.
Proof.
  intros HR Hf Hr. pose proof (remove_outcome _ _ _ _ _ _ _ _ _ HR Hf Hr) as Ho. cbn in Ho.
  destruct (m !! id) as [r|] eqn:E; [done|]. by rewrite delete_id.
Qed.

(** mutating a payload rewrites the document, its index rows and the shape
    census for the new metadata and appends a feed row; everything else of the
    record, its vector, postings and sparse, named and token rows, stays; an
    unknown id is an error that writes nothing. *)
Theorem mutate_payload_exact (db : Db) (m : gmap bytes VectorRecord) (log : list (ChangeOp * bytes))
  (id : bytes) (f : Metadata -> Metadata) :
  refines db m log -> fits (m, log ++ [(Upsert, id)]) ->
  match m !! id with
  | Some r => exists db', mutate_payload json_text now_ms f db id = (db', Ok tt) /\
      refines db' (<[id := with_metadata r (f (vr_metadata r))]> m) (log ++ [(Upsert, id)])
  | None => mutate_payload json_text now_ms f db id = (db, Err (NoSuchDocument id))
  end.
Proof.
  intros HR Hf. destruct (m !! id) as [r|] eqn:E; [by apply mutate_payload_refines|].
  unfold mutate_payload. rewrite (rows_ok_doc json_text (indexed_fields db) db m) by apply HR. by rewrite E.
Qed.
End Properties.

(** ** Concrete runs *)

Section Witnesses.
#[local] Existing Instances plain_number flat_libm.
#[local] Instance one_token : TextAnalyzer := fun t => [t].

Definition no_text : Json -> bytes := fun _ => str "v".
Definition no_clock : Z -> Z := fun _ => 0.
Definition sample (id text : bytes) (v : list f32) : VectorRecord :=
  mkVectorRecord id v text {[ str "kind" := JStr (str "note") ]} None ∅ [] (Some (str "docs")).
Definition cat : VectorRecord := sample (str "cat") (str "a cat") [f32_of_Z 1; f32_of_Z 0].
Definition dog : VectorRecord := sample (str "dog") (str "a dog") [f32_of_Z 0; f32_of_Z 1].
Definition db0 : Db := create (str "e") (str "estate") 0 true.
Definition db1 : Db := (upsert no_text (fun _ => 1) no_clock quotas_default true db0 [cat; dog]).1.
Definition m1 : gmap bytes VectorRecord * list (ChangeOp * bytes) := spec_run (map AUpsert [cat; dog]) (∅, []).

Lemma db0_refines : Refines no_text no_clock true db0 ∅ [].
Proof. apply create_refines. Qed.

Lemma cat_dog_distinct : ids_distinct (map AUpsert [cat; dog]).
Proof.
  split.
  - refine (bool_decide_eq_true_1 _ _). vm_compute. reflexivity.
  - intros r Hr. repeat (apply elem_of_cons in Hr as [[= ->]|Hr];
      [refine (bool_decide_eq_true_1 _ _); vm_compute; reflexivity|]). by apply elem_of_nil in Hr.
Qed.

Lemma db1_refines : Refines no_text no_clock true db1 m1.1 m1.2.
Proof.
  unfold db1, m1. destruct (upsert _ _ _ _ _ _ _) as [db res] eqn:E.
  assert (is_ok res = true) as Hok.
  { change res with (db, res).2. rewrite <- E. vm_compute. reflexivity. }
  eapply upsert_outcome in E; [|apply db0_refines|apply cat_dog_distinct|repeat split; vm_compute; reflexivity].
  destruct res as [g|e]; [apply E|done].
Qed.

Lemma transaction_refines_witness :
  let ops := [WUpsert [cat; dog]; WRemove (str "ghost")] in
  is_ok (transaction no_text no_clock true db0 ops).2 = true /\
  match (transaction no_text no_clock true db0 ops).2 with
  | Ok gops =>
      Refines no_text no_clock true (transaction no_text no_clock true db0 ops).1
        (spec_run (statements ops) (∅, [])).1 (spec_run (statements ops) (∅, [])).2 /\
      graph_run gops (vr_embedding <$> ∅) = vr_embedding <$> (spec_run (statements ops) (∅, [])).1
  | Err _ => Refines no_text no_clock true (transaction no_text no_clock true db0 ops).1 ∅ []
  end.
Proof.
  intros ops. split; [vm_compute; reflexivity|].
  apply (transaction_refines no_text no_clock true db0 ∅ [] ops); [apply db0_refines| | |apply surjective_pairing].
  - split.
    + refine (bool_decide_eq_true_1 _ _). vm_compute. reflexivity.
    + intros r Hr. cbn in Hr. repeat (apply elem_of_cons in Hr as [[= ->]|Hr];
        [refine (bool_decide_eq_true_1 _ _); vm_compute; reflexivity|]).
      apply elem_of_cons in Hr as [[=]|Hr]. by apply elem_of_nil in Hr.
  - repeat split; vm_compute; reflexivity.
Defined.

Lemma upsert_refines_witness :
  let q := mkQuotas (Some 2) None None None in
  let r := upsert no_text (fun _ => 1) no_clock q true db0 [cat; dog] in
  is_ok r.2 = true /\
  outcome_ok no_text no_clock true r.1 r.2 (∅, []) (map AUpsert [cat; dog]) /\
  (forall gops cap, r.2 = Ok gops -> [cat; dog] <> [] -> max_docs q = Some cap ->
     Z.of_nat (size (spec_run (map AUpsert [cat; dog]) (∅, [])).1) <= cap).
Proof.
  intros q r. split; [vm_compute; reflexivity|].
  apply (upsert_refines no_text (fun _ => 1) no_clock true q db0 ∅ [] [cat; dog] r.1 r.2);
    [apply db0_refines|apply cat_dog_distinct| |apply surjective_pairing].
  repeat split; vm_compute; reflexivity.
Defined.

Lemma upsert_accepts_exactly_witness :
  is_ok (upsert no_text (fun _ => 1) no_clock quotas_strict true db0 [cat; dog]).2 = true <->
  quotas_ok (fun _ => 1) quotas_strict db0 [cat; dog] /\ records_ok no_text db0 [cat; dog].
Proof. apply (upsert_accepts_exactly no_text (fun _ => 1) no_clock true quotas_strict db0 [cat; dog]). done. Defined.

Lemma remove_refines_witness :
  let r := remove no_text no_clock true db1 (str "cat") in
  Refines no_text no_clock true r.1 (delete (str "cat") m1.1)
    (match m1.1 !! str "cat" with Some _ => m1.2 ++ [(Remove, str "cat")] | None => m1.2 end) /\
  graph_run r.2 (vr_embedding <$> m1.1) = vr_embedding <$> delete (str "cat") m1.1.
Proof.
  intros r. apply (remove_refines no_text no_clock true db1 m1.1 m1.2 (str "cat") r.1 r.2);
    [apply db1_refines| |apply surjective_pairing].
  repeat split; vm_compute; reflexivity.
Defined.

Lemma mutate_payload_exact_witness :
  match m1.1 !! str "cat" with
  | Some r => exists db', mutate_payload no_text no_clock (fun _ => ∅) db1 (str "cat") = (db', Ok tt) /\
      Refines no_text no_clock true db' (<[str "cat" := with_metadata r ∅]> m1.1) (m1.2 ++ [(Upsert, str "cat")])
  | None => mutate_payload no_text no_clock (fun _ => ∅) db1 (str "cat") = (db1, Err (NoSuchDocument (str "cat")))
  end.
Proof.
  apply (mutate_payload_exact no_text no_clock true db1 m1.1 m1.2 (str "cat") (fun _ => ∅)); [apply db1_refines|].
  repeat split; vm_compute; reflexivity.
Defined.

(** two new records of one id in one upsert count as two documents: each
    reads the committed store, where the id is absent, so neither retracts the
    other, although one document is stored. *)
Theorem duplicate_ids_double_count :
  let r := upsert no_text (fun _ => 1) no_clock quotas_default true db0 [cat; cat] in
  is_ok r.2 = true /\ get_u64 r.1 META_DOC_COUNT = 2 /\ size (r.1 CF_DOCS) = 1%nat.
Proof. vm_compute. done. Qed.

(** a removal after an upsert of the same new id in one transaction finds
    no committed document and does nothing: the transaction commits and the
    document stays. *)
Theorem upsert_then_remove_survives :
  let r := transaction no_text no_clock true db0 [WUpsert [cat]; WRemove (str "cat")] in
  is_ok r.2 = true /\ sd_text <$> get_doc r.1 (str "cat") = Some (vr_text cat).
Proof. vm_compute. done. Qed.

(** an empty upsert is harmless on its own but panics inside a
    transaction, where the first record is read unguarded. *)
Theorem empty_upsert_panics :
  upsert no_text (fun _ => 1) no_clock quotas_default true db0 [] = (db0, Ok []) /\
  (transaction no_text no_clock true db0 [WUpsert []]).2 = Err Panic.
Proof. split; reflexivity. Qed.
End Witnesses.
