(* ===== verification/Fusion.v ===== *)
(** * Rankings (the sorts and tallies of crates/connxism)

    Every search of the estate ends the same way: scores summed per document
    in a hash map, or a list of scored ids, sorted by descending
    [f32::total_cmp] and then ascending id, and cut to the size asked for. *)
From S2P Require Import Prelude Floats ByteOrder Quant.
#[local] Set Default Goal Selector "!".
#[local] Set Warnings "-clear-no-such-hyp".
Local Open Scope Z_scope.

Abbreviation Hit := (bytes * f32)%type.

(** [|a, b| b.1.total_cmp(&a.1).then_with(|| a.0.cmp(&b.0))] *)
Definition rank_le (a b : Hit) : Prop :=
  f32_key b.2 < f32_key a.2 \/ f32_key a.2 = f32_key b.2 /\ ble a.1 b.1.
#[export] Instance rank_le_dec : RelDecision rank_le.
Proof. intros a b. unfold rank_le. apply _. Defined.
#[export] Instance rank_le_trans : Transitive rank_le.
Proof.
  intros a b c [H1|[H1 H1']] [H2|[H2 H2']]; [left; lia|left; lia|left; lia|right].
  split; [lia|]. by transitivity b.1.
Qed.
#[export] Instance rank_le_total : Total rank_le.
Proof.
  intros a b. destruct (Z.lt_trichotomy (f32_key a.2) (f32_key b.2)) as [Hlt|[Heq|Hlt]]; [by right; left| |by left; left].
  destruct (total ble a.1 b.1); [left|right]; right; by split.
Qed.

Lemma rank_le_antisym a b : rank_le a b -> rank_le b a -> a.1 = b.1.
Proof. intros [?|[? H1]] [?|[? H2]]; [lia|lia|lia|]. by apply (anti_symm ble). Qed.

Definition rank (l : list Hit) : list Hit := merge_sort rank_le l.

(** [Vec::truncate], [Iterator::take]; a [usize] may exceed any length. *)
Definition truncate {A} (k : Z) (l : list A) : list A := take (Z.to_nat (Z.min k (Z.of_nat (length l)))) l.

(** [HashMap::into_iter().collect()], sorted. *)
Definition ranked (m : gmap bytes f32) : list Hit := rank (map_to_list m).

(** [*scores.entry(id).or_insert(0.0) += s] *)
Definition add_score (m : gmap bytes f32) (id : bytes) (s : f32) : gmap bytes f32 :=
  <[id := f32_add (default f32_zero (m !! id)) s]> m.

(** ** Facts *)

Lemma truncate_take {A} k (l : list A) : truncate k l = take (Z.to_nat k) l.
Proof.
  unfold truncate. destruct (Z.le_gt_cases k (Z.of_nat (length l))); [by rewrite Z.min_l|].
  rewrite Z.min_r by lia. rewrite Nat2Z.id, !take_ge by lia. done.
Qed.
Lemma truncate_length {A} k (l : list A) : 0 <= k -> Z.of_nat (length (truncate k l)) = Z.min k (Z.of_nat (length l)).
Proof. intros Hk. rewrite truncate_take, length_take. lia. Qed.
Lemma truncate_sublist {A} k (l : list A) : truncate k l `sublist_of` l.
Proof. apply sublist_take. Qed.
Lemma truncate_map {A B} (f : A -> B) k l : truncate k (map f l) = map f (truncate k l).
Proof. rewrite !truncate_take. symmetry. apply (fmap_take f). Qed.
Lemma truncate_all {A} k (l : list A) : Z.of_nat (length l) <= k -> truncate k l = l.
Proof. intros Hk. rewrite truncate_take, take_ge by lia. done. Qed.

Lemma rank_perm l : rank l ≡ₚ l.
Proof. apply merge_sort_Permutation. Qed.
Lemma rank_sorted l : StronglySorted rank_le (rank l).
Proof. apply StronglySorted_merge_sort; apply _. Qed.
Lemma rank_nil : rank [] = [].
Proof. done. Qed.

Lemma elem_of_ranked m id s : (id, s) ∈ ranked m <-> m !! id = Some s.
Proof. unfold ranked. rewrite rank_perm. apply elem_of_map_to_list. Qed.
Lemma elem_of_ranked_ids m id : id ∈ (ranked m).*1 <-> is_Some (m !! id).
Proof.
  rewrite list_elem_of_fmap. split.
  - intros ([i s] & -> & Hs%elem_of_ranked). by eexists.
  - intros [s Hs]. exists (id, s). by rewrite elem_of_ranked.
Qed.
Lemma ranked_NoDup m : NoDup (ranked m).*1.
Proof. unfold ranked. rewrite rank_perm. apply NoDup_fst_map_to_list. Qed.
Lemma ranked_length m : length (ranked m) = size m.
Proof. unfold ranked. rewrite rank_perm. apply length_map_to_list. Qed.

Lemma truncate_ranked_empty k : truncate k (ranked ∅) = [].
Proof. unfold ranked. rewrite map_to_list_empty, rank_nil, truncate_take. apply take_nil. Qed.

(** A ranking without repeated ids is determined by its members: the order in
    which a hash map hands its entries out does not show. *)
Lemma rank_unique l1 l2 :
  StronglySorted rank_le l1 -> StronglySorted rank_le l2 -> NoDup l1.*1 -> l1 ≡ₚ l2 -> l1 = l2.
Proof.
  intros H1. revert l2. induction H1 as [|x l1 H1 IH Hx]; intros l2 H2 Hn Hp.
  - by apply Permutation_nil_l in Hp.
  - destruct H2 as [|y l2 H2 Hy]; [by apply Permutation_nil_r in Hp|].
    rewrite Forall_forall in Hx, Hy. cbn in Hn. apply NoDup_cons in Hn as [Hnx Hn].
    assert (x = y) as ->.
    { assert (y ∈ x :: l1) as [->|Hyin]%elem_of_cons by (rewrite Hp; by left); [done|].
      assert (x ∈ y :: l2) as [->|Hxin]%elem_of_cons by (rewrite <- Hp; by left); [done|].
      destruct Hnx. rewrite (rank_le_antisym x y (Hx y Hyin) (Hy x Hxin)). by apply list_elem_of_fmap_2. }
    f_equal. apply IH; [done|done|]. by apply Permutation_cons_inv in Hp.
Qed.

Lemma rank_of l m :
  NoDup l.*1 -> (forall id s, (id, s) ∈ l <-> m !! id = Some s) -> rank l = ranked m.
Proof.
  intros Hn Hl. assert (l ≡ₚ map_to_list m) as Hp.
  { apply NoDup_Permutation; [by eapply NoDup_fmap_1|apply NoDup_map_to_list|].
    intros [id s]. by rewrite elem_of_map_to_list. }
  apply rank_unique; [apply rank_sorted|apply rank_sorted| |].
  - by rewrite rank_perm.
  - unfold ranked. by rewrite !rank_perm.
Qed.

(** ** What a search answers: the best [k] of a map of scores *)

Record best_of (k : Z) (m : gmap bytes f32) (l : list Hit) : Prop := mkBest {
  bo_sorted : StronglySorted rank_le l;
  bo_ids : NoDup l.*1;
  bo_scores : forall id s, (id, s) ∈ l -> m !! id = Some s;
  bo_length : Z.of_nat (length l) = Z.min k (Z.of_nat (size m));
  bo_rest : forall id s, m !! id = Some s -> (id, s) ∉ l -> forall h, h ∈ l -> rank_le h (id, s);
}.

Lemma sorted_take_drop {A} (R : A -> A -> Prop) l n x y : StronglySorted R l -> x ∈ take n l -> y ∈ drop n l -> R x y.
Proof.
  intros Hs. rewrite <- (take_drop n l) in Hs. revert Hs. generalize (take n l) as a, (drop n l) as b.
  induction a as [|z a IH]; intros b Hs Hx Hy; [by apply elem_of_nil in Hx|].
  cbn in Hs. inversion Hs as [|? ? Hs' Hz]; subst. apply elem_of_cons in Hx as [->|Hx].
  - rewrite Forall_forall in Hz. apply Hz, elem_of_app. by right.
  - by apply (IH b).
Qed.

Lemma take_sorted {A} (R : A -> A -> Prop) l n : StronglySorted R l -> StronglySorted R (take n l).
Proof.
  intros Hs. rewrite <- (take_drop n l) in Hs. revert Hs. generalize (take n l) as a, (drop n l) as b.
  induction a as [|z a IH]; intros b Hs; [constructor|]. cbn in Hs. inversion Hs as [|? ? Hs' Hz]; subst.
  constructor; [by apply (IH b)|]. by apply Forall_app in Hz as [? _].
Qed.

Lemma best_ranked k m : 0 <= k -> best_of k m (truncate k (ranked m)).
Proof.
  intros Hk. split.
  - rewrite truncate_take. apply take_sorted, rank_sorted.
  - eapply sublist_NoDup; [apply ranked_NoDup|]. apply fmap_sublist, truncate_sublist.
  - intros id s Hin. apply elem_of_ranked. eapply sublist_subseteq; [apply truncate_sublist|done].
  - rewrite truncate_length by done. by rewrite ranked_length.
  - intros id s Hm Hni h Hh. rewrite truncate_take in *. apply (sorted_take_drop rank_le (ranked m) (Z.to_nat k)).
    + apply rank_sorted.
    + done.
    + apply elem_of_ranked in Hm. rewrite <- (take_drop (Z.to_nat k)) in Hm. by apply elem_of_app in Hm as [|].
Qed.

(** And only that list is. *)
Lemma best_unique k m l : 0 <= k -> best_of k m l -> l = truncate k (ranked m).
Proof.
  intros Hk [Hs Hn Hsc Hl Hr]. pose proof (best_ranked k m Hk) as [Hs' Hn' Hsc' Hl' Hr'].
  set (l' := truncate k (ranked m)) in *. apply rank_unique; [done|done|done|].
  assert (length l = length l') as Hlen by lia. clear Hl Hl' Hk.
  assert (l ⊆ l') as Hsub.
  { intros x Hx. destruct (decide (x ∈ l')) as [|Hni]; [done|exfalso].
    assert (exists y, y ∈ l' /\ y ∉ l) as (y & Hy & Hyn).
    { destruct (decide (Forall (fun y => y ∈ l) l')) as [Hall|Hno].
      - exfalso. assert (length (x :: l') <= length l)%nat; [|cbn in *; lia].
        apply submseteq_length, NoDup_submseteq.
        + constructor; [done|]. by eapply NoDup_fmap_1.
        + intros z [->|Hz]%elem_of_cons; [done|]. rewrite Forall_forall in Hall. by apply Hall.
      - apply not_Forall_Exists in Hno; [|apply _]. apply Exists_exists in Hno as (y & Hy & Hyn). eauto. }
    destruct x as [i s], y as [j t]. pose proof (Hr j t (Hsc' _ _ Hy) Hyn _ Hx) as H1.
    pose proof (Hr' i s (Hsc _ _ Hx) Hni _ Hy) as H2. pose proof (rank_le_antisym _ _ H1 H2) as E. cbn in E. subst j.
    pose proof (Hsc _ _ Hx). pose proof (Hsc' _ _ Hy). assert (s = t) as -> by congruence. done. }
  apply submseteq_length_Permutation; [|lia]. apply NoDup_submseteq; [by eapply NoDup_fmap_1|done].
Qed.

(** ** Tallies *)

Definition tally (m : gmap bytes f32) (votes : list Hit) : gmap bytes f32 :=
  fold_left (fun m v => add_score m v.1 v.2) votes m.
Definition votes_for (id : bytes) (votes : list Hit) : list f32 := (filter (fun v => v.1 = id) votes).*2.

Lemma tally_app m v1 v2 : tally m (v1 ++ v2) = tally (tally m v1) v2.
Proof. apply fold_left_app. Qed.

Lemma tally_from m votes id :
  tally m votes !! id =
  match votes_for id votes with
  | [] => m !! id
  | vs => Some (fold_left f32_add vs (default f32_zero (m !! id)))
  end.
Proof.
  revert m. induction votes as [|[i s] votes IH]; intros m; [done|].
  change (tally m ((i, s) :: votes)) with (tally (add_score m i s) votes). rewrite IH. unfold votes_for. rewrite filter_cons. cbn [fst snd]. unfold add_score. destruct (decide (i = id)) as [->|Hne].
  - rewrite lookup_insert_eq. cbn. by destruct (filter _ votes).*2.
  - by rewrite lookup_insert_ne.
Qed.

(** A document's tally is its votes, summed from zero in the order cast. *)
Lemma tally_lookup votes id :
  tally ∅ votes !! id = match votes_for id votes with [] => None | vs => Some (fold_left f32_add vs f32_zero) end.
Proof. rewrite tally_from, lookup_empty. done. Qed.

Lemma votes_for_app id v1 v2 : votes_for id (v1 ++ v2) = votes_for id v1 ++ votes_for id v2.
Proof. unfold votes_for. by rewrite list.filter_app, fmap_app. Qed.

Lemma votes_for_nil id votes : votes_for id votes = [] <-> id ∉ votes.*1.
Proof.
  unfold votes_for. split.
  - intros E Hin. apply list_elem_of_fmap in Hin as ([i s] & -> & Hin).
    assert (s ∈ (filter (fun v : Hit => v.1 = i) votes).*2) as Hs.
    { apply (list_elem_of_fmap_2' snd _ (i, s)); [|done]. by apply list_elem_of_filter. }
    cbn in E. rewrite E in Hs. by apply elem_of_nil in Hs.
  - intros Hni. destruct (filter _ votes) as [|[i s] l] eqn:E; [done|]. exfalso. apply Hni.
    assert ((i, s) ∈ filter (fun v : Hit => v.1 = id) votes) as [Hi Hin]%list_elem_of_filter by (rewrite E; by left).
    cbn in Hi. subst i. by apply (list_elem_of_fmap_2' fst _ (id, s)).
Qed.

Lemma tally_dom votes id : is_Some (tally ∅ votes !! id) <-> id ∈ votes.*1.
Proof.
  rewrite tally_lookup. destruct (votes_for id votes) eqn:E.
  - apply votes_for_nil in E. split; [by intros [??]|done].
  - split; [|by eexists]. intros _. destruct (decide (id ∈ votes.*1)) as [|Hni]; [done|].
    apply votes_for_nil in Hni. congruence.
Qed.

(** ** Sums of score maps

    One map per query term or dimension, added document by document. *)

Definition contribute (m c : gmap bytes f32) : gmap bytes f32 := tally m (btree_iter c).
Definition sum_scores (cs : list (gmap bytes f32)) : gmap bytes f32 := fold_left contribute cs ∅.

Lemma votes_for_btree (id : bytes) (c : gmap bytes f32) : votes_for id (btree_iter c) = match c !! id with Some s => [s] | None => [] end.
Proof.
  destruct (c !! id) as [s|] eqn:E.
  - assert (filter (fun v : Hit => v.1 = id) (btree_iter c) ≡ₚ [(id, s)]) as Hp.
    { apply NoDup_Permutation.
      - apply NoDup_filter, (NoDup_fmap_1 fst), btree_iter_keys_NoDup.
      - apply NoDup_singleton.
      - intros [i t]. rewrite list_elem_of_filter, elem_of_btree_iter, list_elem_of_singleton. cbn. split.
        + intros [-> Hi]. congruence.
        + by intros [= -> ->]. }
    unfold votes_for. apply Permutation_singleton_r in Hp. by rewrite Hp.
  - apply votes_for_nil. intros ([i s] & -> & Hin%elem_of_btree_iter)%list_elem_of_fmap. cbn in E. congruence.
Qed.

Lemma contribute_lookup m c (id : bytes) :
  contribute m c !! id = match c !! id with Some s => Some (f32_add (default f32_zero (m !! id)) s) | None => m !! id end.
Proof. unfold contribute. rewrite tally_from, votes_for_btree. by destruct (c !! id). Qed.

Lemma sum_from m cs (id : bytes) :
  fold_left contribute cs m !! id =
  match omap (fun c : gmap bytes f32 => c !! id) cs with
  | [] => m !! id
  | vs => Some (fold_left f32_add vs (default f32_zero (m !! id)))
  end.
Proof.
  revert m. induction cs as [|c cs IH]; intros m; [done|]. cbn [fold_left omap list_omap]. rewrite IH, contribute_lookup.
  destruct (c !! id) as [s|]; [|done]. cbn. by destruct (omap _ cs).
Qed.

(** The sum runs from zero over the maps that have the document, in order. *)
Lemma sum_scores_lookup cs (id : bytes) :
  sum_scores cs !! id =
  match omap (fun c : gmap bytes f32 => c !! id) cs with [] => None | vs => Some (fold_left f32_add vs f32_zero) end.
Proof. unfold sum_scores. by rewrite sum_from, lookup_empty. Qed.

Lemma sum_scores_dom cs (id : bytes) : is_Some (sum_scores cs !! id) <-> exists c, c ∈ cs /\ is_Some (c !! id).
Proof.
  rewrite sum_scores_lookup. split.
  - intros Hs. destruct (omap _ cs) as [|v vs] eqn:E; [by destruct Hs|].
    assert (v ∈ omap (fun c : gmap bytes f32 => c !! id) cs) as (c & Hc & Hv)%list_elem_of_omap by (rewrite E; by left).
    exists c. split; [done|by exists v].
  - intros (c & Hc & v & Hv). assert (v ∈ omap (fun c : gmap bytes f32 => c !! id) cs) as Hin by (apply list_elem_of_omap; eauto).
    destruct (omap _ cs); [by apply elem_of_nil in Hin|by eexists].
Qed.

(** * Lexical scoring and rank fusion (crates/connxism/src/index.rs)

    BM25 over fetched postings, reciprocal rank fusion and distribution-based
    score fusion, on IEEE single precision. The natural logarithm, whose
    rounding the standard library leaves open, is a class. *)
From S2P Require Import Prelude Floats ByteOrder Geo Quant Query.
From Stdlib Require Import SpecFloat.

(** [f32::ln] *)
Class Ln32 := f32_ln : f32 -> f32.

(** ** BM25 *)

Record Posting : Type := mkPosting { tf : Z; len : Z }.
Abbreviation Postings := (list (bytes * Posting)).

Record Bm25Params : Type := mkParams { k1 : f32; b : f32 }.
(** 1.2 and 0.75 in single precision, by their bits. *)
Definition default_params : Bm25Params := mkParams (f32_from_bits 0x3F99999A) (f32_from_bits 0x3F400000).
Definition f32_half : f32 := f32_from_bits 0x3F000000.
Definition f32_two : f32 := f32_of_Z 2.

(** [enumerate] *)
Definition enumerate {A} (l : list A) : list (nat * A) := imap pair l.

Section bm25.
Context `{Ln32}.

(** [(((n - df + 0.5) / (df + 0.5)) + 1.0).ln().max(0.0)] *)
Definition bm25_idf (n df : f32) : f32 :=
  f_max (f32_ln (f32_add (f32_div (f32_add (f32_sub n df) f32_half) (f32_add df f32_half)) f32_one)) f32_zero.

(** [f + k1 * (1 - b + b * dl / avgdl)] *)
Definition bm25_denom (params : Bm25Params) (f dl avgdl : f32) : f32 :=
  f32_add f (f32_mul (k1 params)
    (f32_add (f32_sub f32_one (b params)) (f32_div (f32_mul (b params) dl) avgdl))).

(** [bm25_term] (store.rs) *)
Definition bm25_term (params : Bm25Params) (idf : f32) (p : Posting) (avgdl : f32) : f32 :=
  let f := f32_of_Z (tf p) in
  let dl := f32_of_Z (len p) in
  f32_div (f32_mul idf (f32_mul f (f32_add (k1 params) f32_one))) (bm25_denom params f dl avgdl).

(** The loop over one term's postings. *)
Definition score_postings (params : Bm25Params) (n avgdl : f32) (scores : gmap bytes f32) (postings : Postings)
  : gmap bytes f32 :=
  let df := f32_of_nat (length postings) in
  if feq df f32_zero then scores
  else
    let idf := bm25_idf n df in
    fold_left (fun scores '(doc_id, p) => add_score scores doc_id (bm25_term params idf p avgdl)) postings scores.

Definition bm25_scores (params : Bm25Params) (n_docs : Z) (avgdl : f32) (term_postings : list (bytes * Postings))
  : gmap bytes f32 :=
  let n := f32_of_Z (Z.max n_docs 1) in
  let avgdl := f_max avgdl f32_one in
  fold_left (fun scores '(_, postings) => score_postings params n avgdl scores postings) term_postings ∅.
End bm25.

(** ** Fusion *)

(** [weights.get(li).copied().unwrap_or(1.0)] *)
Definition weight_of (weights : list f32) (li : nat) : f32 := default f32_one (weights !! li).

(** [w / (k + (i as f32 + 1.0))] *)
Definition rrf_vote (w k : f32) (i : nat) : f32 := f32_div w (f32_add k (f32_add (f32_of_nat i) f32_one)).

Definition rrf_list (weights : list f32) (k : f32) (fused : gmap bytes f32) (p : nat * list bytes) : gmap bytes f32 :=
  let w := weight_of weights p.1 in
  if feq w f32_zero then fused
  else fold_left (fun fused '(i, id) => add_score fused id (rrf_vote w k i)) (enumerate p.2) fused.

Definition reciprocal_rank_fusion_weighted (lists : list (list bytes)) (weights : list f32) (k : f32) : list Hit :=
  ranked (fold_left (rrf_list weights k) (enumerate lists) ∅).

Definition reciprocal_rank_fusion (lists : list (list bytes)) (k : f32) : list Hit :=
  reciprocal_rank_fusion_weighted lists [] k.

(** The smallest and the largest score of a list. *)
Definition score_bounds (list : list Hit) : f32 * f32 :=
  fold_left (fun '(lo, hi) h => (f_min lo h.2, f_max hi h.2)) list (S754_infinity false, S754_infinity true).

(** Zero span: every score is 1.0. *)
Definition dbsf_norm (lo span s : f32) : f32 :=
  if fgt span f32_epsilon then f32_div (f32_sub s lo) span else f32_one.

Definition dbsf_list (weights : list f32) (fused : gmap bytes f32) (p : nat * list Hit) : gmap bytes f32 :=
  let w := weight_of weights p.1 in
  if feq w f32_zero || bool_decide (p.2 = []) then fused
  else
    let '(lo, hi) := score_bounds p.2 in
    let span := f32_sub hi lo in
    fold_left (fun fused '(id, s) => add_score fused id (f32_mul w (dbsf_norm lo span s))) p.2 fused.

Definition distribution_score_fusion (scored : list (list Hit)) (weights : list f32) : list Hit :=
  ranked (fold_left (dbsf_list weights) (enumerate scored) ∅).

Definition fuse (mode : FusionMode) (scored : list (list Hit)) (weights : list f32) (k : f32) : list Hit :=
  match mode with
  | Rrf => reciprocal_rank_fusion_weighted (map (map fst) scored) weights k
  | Dbsf => distribution_score_fusion scored weights
  end.

(** ** Votes

    What each list casts, in the order it is added up. *)

Definition rrf_votes (weights : list f32) (k : f32) (p : nat * list bytes) : list Hit :=
  let w := weight_of weights p.1 in
  if feq w f32_zero then [] else map (fun '(i, id) => (id, rrf_vote w k i)) (enumerate p.2).
Definition dbsf_votes (weights : list f32) (p : nat * list Hit) : list Hit :=
  let w := weight_of weights p.1 in
  if feq w f32_zero then []
  else
    let '(lo, hi) := score_bounds p.2 in
    map (fun h => (h.1, f32_mul w (dbsf_norm lo (f32_sub hi lo) h.2))) p.2.
Definition fuse_votes (mode : FusionMode) (scored : list (list Hit)) (weights : list f32) (k : f32) : list Hit :=
  match mode with
  | Rrf => concat (map (rrf_votes weights k) (enumerate (map (map fst) scored)))
  | Dbsf => concat (map (dbsf_votes weights) (enumerate scored))
  end.

Lemma fold_tally {A} (step : gmap bytes f32 -> A -> gmap bytes f32) (votes : A -> list Hit) l m :
  (forall m x, step m x = tally m (votes x)) -> fold_left step l m = tally m (concat (map votes l)).
Proof.
  intros Hs. revert m. induction l as [|x l IH]; intros m; [done|]. cbn [fold_left map concat].
  by rewrite IH, Hs, tally_app.
Qed.

Lemma fold_votes {A} (f : A -> Hit) l m :
  fold_left (fun m x => add_score m (f x).1 (f x).2) l m = tally m (map f l).
Proof. revert m. induction l as [|x l IH]; intros m; [done|]. cbn. apply IH. Qed.

Lemma fold_left_ext {A B} (f g : A -> B -> A) l a : (forall a x, f a x = g a x) -> fold_left f l a = fold_left g l a.
Proof. intros E. revert a. induction l as [|x l IH]; intros a; [done|]. cbn. by rewrite E, IH. Qed.

Lemma fuse_is_votes mode scored weights k : fuse mode scored weights k = ranked (tally ∅ (fuse_votes mode scored weights k)).
Proof.
  destruct mode; cbn [fuse fuse_votes].
  - unfold reciprocal_rank_fusion_weighted. f_equal. apply fold_tally. intros m p. unfold rrf_list, rrf_votes.
    destruct (feq _ _); [done|]. rewrite <- fold_votes. apply fold_left_ext. by intros m' [i id].
  - unfold distribution_score_fusion. f_equal. apply fold_tally. intros m [li l]. unfold dbsf_list, dbsf_votes. cbn [fst snd].
    destruct (feq _ _); [done|]. destruct (bool_decide_reflect (l = [])) as [->|_]; [done|]. cbn [orb].
    destruct (score_bounds l) as [lo hi]. rewrite <- fold_votes. apply fold_left_ext. by intros m' [id s].
Qed.

Lemma elem_of_enumerate {A} (l : list A) i x : (i, x) ∈ enumerate l <-> l !! i = Some x.
Proof.
  unfold enumerate. rewrite list_elem_of_lookup. split.
  - intros [j Hj]. rewrite list_lookup_imap in Hj. apply fmap_Some in Hj as (y & Hy & [= -> ->]). done.
  - intros Hi. exists i. rewrite list_lookup_imap, Hi. done.
Qed.
Lemma enumerate_snd {A} (l : list A) : map snd (enumerate l) = l.
Proof. unfold enumerate. apply list_eq. intros i. rewrite list_lookup_fmap, list_lookup_imap. by destruct (l !! i). Qed.

(** Who votes: the ids of the lists whose weight is not zero. *)
Lemma fuse_votes_ids mode scored weights k id :
  id ∈ (fuse_votes mode scored weights k).*1 <->
  exists li l, scored !! li = Some l /\ feq (weight_of weights li) f32_zero = false /\ id ∈ l.*1.
Proof.
  assert (forall p : nat * list Hit, id ∈ (dbsf_votes weights p).*1 <-> feq (weight_of weights p.1) f32_zero = false /\ id ∈ p.2.*1) as Hd.
  { intros [li l]. unfold dbsf_votes. cbn [fst snd]. destruct (feq _ _).
    - split; [by intros ?%elem_of_nil|by intros [??]].
    - destruct (score_bounds l) as [lo hi]. rewrite <- list_fmap_compose. split; [done|by intros [_ ?]]. }
  assert (forall p : nat * list bytes, id ∈ (rrf_votes weights k p).*1 <-> feq (weight_of weights p.1) f32_zero = false /\ id ∈ p.2) as Hr.
  { intros [li l]. unfold rrf_votes. cbn [fst snd]. destruct (feq _ _).
    - split; [by intros ?%elem_of_nil|by intros [??]].
    - rewrite <- (enumerate_snd l) at 2. rewrite <- list_fmap_compose. unfold compose.
      erewrite list_fmap_ext; [split; [done|by intros [_ ?]]|]. by intros ? [? ?]. }
  assert (forall {A} (votes : A -> list Hit) l, id ∈ (concat (map votes l)).*1 <-> exists x, x ∈ l /\ id ∈ (votes x).*1) as Hc.
  { intros A votes l. rewrite list_elem_of_fmap. split.
    - intros (h & -> & (v & Hh & (x & -> & Hx)%list_elem_of_fmap)%elem_of_concat). exists x. split; [done|]. by apply list_elem_of_fmap_2.
    - intros (x & Hx & (h & -> & Hh)%list_elem_of_fmap). exists h. split; [done|]. apply elem_of_concat. exists (votes x).
      split; [done|]. by apply list_elem_of_fmap_2. }
  destruct mode; cbn [fuse_votes]; rewrite Hc; split.
  - intros ([li l] & Hl%elem_of_enumerate & [Hw Hid]%Hr). rewrite list_lookup_fmap in Hl.
    apply fmap_Some in Hl as (l' & Hl & ->). eauto.
  - intros (li & l & Hl & Hw & Hid). exists (li, l.*1). rewrite elem_of_enumerate, list_lookup_fmap, Hl, Hr. done.
  - intros ([li l] & Hl%elem_of_enumerate & [Hw Hid]%Hd). eauto.
  - intros (li & l & Hl & Hw & Hid). exists (li, l). by rewrite elem_of_enumerate, Hd.
Qed.

(** ** Properties *)

(** fusion ranks exactly the documents some list with a weight ranked.
    In either mode the result has each id of a list whose weight is not zero
    once, and no other; its score is the sum of the votes of those lists, in
    the order of the lists; the ids come by descending score and then by id;
    and equal weights, given or missing, are plain reciprocal rank fusion. *)
Theorem fuse_ranks_votes (mode : FusionMode) (scored : list (list Hit)) (weights : list f32) (k : f32) :
  let out := fuse mode scored weights k in
  StronglySorted rank_le out /\ NoDup out.*1 /\
  (forall id, id ∈ out.*1 <-> exists li l, scored !! li = Some l /\ feq (weight_of weights li) f32_zero = false /\ id ∈ l.*1) /\
  (forall id s, (id, s) ∈ out -> s = fold_left f32_add (votes_for id (fuse_votes mode scored weights k)) f32_zero) /\
  fuse Rrf scored (replicate (length scored) f32_one) k = reciprocal_rank_fusion (map (map fst) scored) k.
Proof.
  cbn zeta. rewrite (fuse_is_votes mode). refine (conj _ (conj _ (conj _ (conj _ _)))).
  - apply rank_sorted.
  - apply ranked_NoDup.
  - intros id. rewrite <- (fuse_votes_ids mode scored weights k), <- (tally_dom (fuse_votes mode scored weights k)).
    apply elem_of_ranked_ids.
  - intros id s Hs%elem_of_ranked. rewrite tally_lookup in Hs. by destruct (votes_for _ _) as [|v vs]; simplify_eq.
  - unfold fuse, reciprocal_rank_fusion, reciprocal_rank_fusion_weighted. f_equal.
    assert (forall li, weight_of (replicate (length scored) f32_one) li = f32_one) as Hw.
    { intros li. unfold weight_of. destruct (replicate _ _ !! li) as [w|] eqn:E; [|done].
      apply lookup_replicate in E as [-> _]. done. }
    apply fold_left_ext. intros m [li l]. unfold rrf_list. cbn [fst snd]. by rewrite Hw.
Qed.
