(* ===== verification/Searches.v ===== *)
(** * The searches of the recall store
      (crates/connxism/src/store.rs, the readers of ConnXRecall)

    Dense search over the graph or the stored vectors, with the overlay of
    what the applier has not reached; lexical search with and without
    max-score pruning; sparse, named-space and late-interaction search; and
    the hybrid searches that fuse two of them. All of them only read. *)
From Stdlib Require Import SpecFloat.
From S2P Require Import Prelude Floats ByteOrder Utf8 Json Geo Quant Heap AnnStore Ann Query Keys.
From S2P Require Import Model Kv Pending Store Fusion.
#[local] Set Default Goal Selector "!".
#[local] Set Warnings "-clear-no-such-hyp".
Local Open Scope Z_scope.

Definition usize_max : Z := 2 ^ 64 - 1.
(** [saturating_mul], [saturating_add], and [*] as a release build does it *)
Definition sat_mul (x y : Z) : Z := Z.min (x * y) usize_max.
Definition sat_add (x y : Z) : Z := Z.min (x + y) usize_max.
Definition wrap_mul (x y : Z) : Z := (x * y) mod two64.

Definition FUSION_DEPTH_FACTOR : Z := 4.
Definition RRF_K : f32 := f32_of_Z 60.
Definition ANN_MIN_CORPUS : nat := 1024.

(** An index out of range ends the task with a panic. *)
Definition or_panic {A} (o : option A) : result RroError A := match o with Some a => Ok a | None => Err Panic end.

(** Postings of estates older than the binary format are JSON rows. *)
Class LegacyPosting := legacy_posting : bytes -> option Posting.

Section search.
Context `{SerdeNumber} `{TextAnalyzer} `{Ln32} `{LegacyPosting}.
Context {HC : BinaryHeap Scored reverse_key} {HR : BinaryHeap Scored scored_key}.

(** ** Candidates (rro-core/src/types.rs) *)

Record Candidate : Type := mkCandidate {
  c_id : bytes;
  c_text : bytes;
  c_score : f32;
  c_metadata : Metadata;
  c_vector : option (list f32);
  c_highlights : list (nat * nat);
}.
Definition candidate (id text : bytes) (score : f32) : Candidate := mkCandidate id text score ∅ None [].

(** What a search of [ConnXRecall] reads. *)
Record ConnXRecall : Type := mkRecall {
  db : Db;
  ann : AnnIndex;
  pending : Pending.State;
  quotas : Quotas;
  params : Bm25Params;
  quantizer : Quantizer;
}.

(** [Embedding(decode_vec(&bytes))] *)
Definition vec_of (r : Row) : list f32 := match r with RBytes b => decode_vec b | _ => [] end.

Definition vector_of (db : Db) (id : bytes) : option (list f32) := vec_of <$> get_cf db CF_VECS id.

(** A winner with its stored document; ids without one are dropped. *)
Definition hydrate (db : Db) (h : Hit) : option Candidate :=
  (fun d => mkCandidate (sd_id d) (sd_text d) h.2 (sd_metadata d) None []) <$> get_doc db h.1.
Definition bare (h : Hit) : Candidate := candidate h.1 [] h.2.
Definition scored_ids (cands : list Candidate) : list Hit := map (fun c => (c_id c, c_score c)) cands.

(** ** Scans of one prefix: the id behind it and the row *)

Definition rows_under (db : Db) (cf : CF) (p : bytes) : list (bytes * Row) :=
  map (fun '(k, v) => (from_utf8_lossy (drop (length p) k), v)) (scan_prefix db cf p).

(** ** Sparse search *)

(** [b.copy_from_slice(&v[..4.min(v.len())])] into four bytes *)
Definition weight_of_row (r : Row) : option f32 :=
  match r with
  | RBytes v => if (length (take 4 v) =? 4)%nat then Some (f32_of_le (take 4 v)) else None
  | _ => None
  end.

Definition sparse_dim (db : Db) (scores : gmap bytes f32) (dw : Z * f32) : option (gmap bytes f32) :=
  fold_opt (fun scores '(doc_id, v) =>
      (fun w => add_score scores doc_id (f32_mul dw.2 w)) <$> weight_of_row v)
    scores (rows_under db CF_SPARSE (sparse_prefix dw.1)).

(** [SparseVector::is_empty] *)
Definition sparse_is_empty (q : SparseVector) : bool := bool_decide (sp_indices q = []).

Definition sparse_search (db : Db) (query : SparseVector) (top_k : Z) : result RroError (list Candidate) :=
  if sparse_is_empty query || (top_k =? 0) then Ok []
  else
    scores ← or_panic (fold_opt (sparse_dim db) ∅ (sparse_iter query));
    Ok (map bare (truncate top_k (ranked scores))).

(** ** Named spaces, similarity, late interaction *)

Definition named_search (db : Db) (space : bytes) (query : list f32) (top_k : Z) : list Candidate :=
  if top_k =? 0 then []
  else
    let scored := map (fun '(id, v) => (id, cosine query (vec_of v))) (rows_under db CF_NVECS (nvec_prefix space)) in
    map bare (truncate top_k (rank scored)).

(** The pairs [i < j] of a list, in order. *)
Fixpoint pairs {A} (l : list A) : list (A * A) :=
  match l with [] => [] | x :: l => map (pair x) l ++ pairs l end.
Definition similarity_matrix (db : Db) (ids : list bytes) : list (bytes * bytes * f32) :=
  let known := omap (fun id => (fun v => (id, v)) <$> vector_of db id) ids in
  map (fun '(x, y) => (x.1, y.1, cosine x.2 y.2)) (pairs known).

(** [maxsim] (types.rs) *)
Definition maxsim (query doc : list (list f32)) : f32 :=
  f32_sum (List.filter is_finite (map (fun q => fold_left f_max (map (emb_dot q) doc) (S754_infinity true)) query)).

Definition maxsim_score (db : Db) (query_tokens : list (list f32)) (id : bytes) : option (option f32) :=
  match get_cf db CF_MVECS id with
  | Some (RBytes b) => (fun toks => Some (maxsim query_tokens toks)) <$> decode_multi b
  | Some _ => None
  | None => Some None
  end.

(** Sorted like hits, over candidates. *)
Definition cand_le (x y : Candidate) : Prop := rank_le (c_id x, c_score x) (c_id y, c_score y).
#[export] Instance cand_le_dec : RelDecision cand_le.
Proof. intros x y. unfold cand_le. apply _. Defined.

Definition with_score (c : Candidate) (s : f32) : Candidate :=
  mkCandidate (c_id c) (c_text c) s (c_metadata c) (c_vector c) (c_highlights c).

Definition maxsim_rescore (db : Db) (candidates : list Candidate) (query_tokens : list (list f32))
  : result RroError (list Candidate) :=
  if bool_decide (query_tokens = []) || bool_decide (candidates = []) then Ok candidates
  else
    scores ← or_panic (mapM (fun c => maxsim_score db query_tokens (c_id c)) candidates);
    let scored := zip candidates scores in
    let yes := omap (fun '(c, s) => with_score c <$> s) scored in
    let no := omap (fun '(c, s) => match s with Some _ => None | None => Some c end) scored in
    Ok (merge_sort cand_le yes ++ no).

(** ** Lexical search *)

Definition decode_posting (r : Row) : result RroError Posting :=
  match r with
  | RBytes v =>
      if (length v =? 8)%nat then Ok (mkPosting (from_le_bytes (take 4 v)) (from_le_bytes (drop 4 v)))
      else match legacy_posting v with Some p => Ok p | None => Err (BadPosting v) end
  | _ => Err (BadPosting [])
  end.

(** A prefix scan that stops with the first row it cannot decode. *)
Definition scan_postings (db : Db) (term : bytes) : result RroError Postings :=
  mapM (fun '(id, v) => p ← decode_posting v; Ok (id, p)) (rows_under db CF_TERMS (term_prefix term)).

Definition lexical_blocking (db : Db) (params : Bm25Params) (terms : list bytes) (top_k : Z)
  : result RroError (list Candidate) :=
  let n_docs := get_u64 db META_DOC_COUNT in
  let total_tokens := get_u64 db META_TOTAL_TOKENS in
  let avgdl := if n_docs =? 0 then f32_one else f32_div (f32_of_Z total_tokens) (f32_of_Z n_docs) in
  term_postings ← mapM (fun t => p ← scan_postings db t; Ok (t, p)) terms;
  Ok (map bare (truncate top_k (ranked (bm25_scores params n_docs avgdl term_postings)))).

(** [read_i64] of a [tdf] row, zero when absent *)
Definition doc_freq (db : Db) (t : bytes) : Z := default 0 (read_i64 <$> get_cf db CF_TDF t).

(** Distinct terms, the first occurrence kept. *)
Fixpoint distinct_terms (seen : list bytes) (terms : list bytes) : list bytes :=
  match terms with
  | [] => []
  | t :: terms => if bool_decide (t ∈ seen) then distinct_terms seen terms else t :: distinct_terms (t :: seen) terms
  end.

(** Term, idf and upper bound. *)
Record TermInfo : Type := mkInfo { ti_term : bytes; ti_idf : f32; ti_ub : f32 }.

Definition term_info (db : Db) (params : Bm25Params) (n : f32) (t : bytes) : option TermInfo :=
  let df := doc_freq db t in
  if df <=? 0 then None
  else
    let idf := bm25_idf n (f32_of_Z df) in
    Some (mkInfo t idf (f32_mul idf (f32_add (k1 params) f32_one))).

(** [infos.sort_by(|a, b| b.2.total_cmp(&a.2))] *)
Definition term_infos (db : Db) (params : Bm25Params) (n : f32) (terms : list bytes) : list TermInfo :=
  stable_sort (fun i => - f32_key (ti_ub i)) (omap (term_info db params n) (distinct_terms [] terms)).

(** The [k]-th largest accumulator, [0 < k]. *)
Definition kth_largest (k : Z) (acc : gmap bytes f32) : f32 :=
  default f32_zero (stable_sort (fun x => - f32_key x) (map_to_list acc).*2 !! Z.to_nat (k - 1)).

(** One term's full scan. *)
Definition scan_term (db : Db) (params : Bm25Params) (avgdl : f32) (i : TermInfo) (acc : gmap bytes f32)
  : result RroError (gmap bytes f32) :=
  postings ← scan_postings db (ti_term i);
  Ok (fold_left (fun acc '(doc_id, p) => add_score acc doc_id (bm25_term params (ti_idf i) p avgdl)) postings acc).

(** The main loop: the accumulators and the terms that were pruned. *)
Fixpoint scan_terms (db : Db) (params : Bm25Params) (avgdl : f32) (top_k : Z) (infos : list TermInfo)
  (acc : gmap bytes f32) (kth_floor : f32) : result RroError (gmap bytes f32 * list TermInfo) :=
  match infos with
  | [] => Ok (acc, [])
  | i :: rest =>
      let remaining_ub := f32_sum (map ti_ub infos) in
      if (top_k <=? Z.of_nat (size acc)) && fgt kth_floor remaining_ub then Ok (acc, infos)
      else
        acc ← scan_term db params avgdl i acc;
        let kth_floor := if top_k <=? Z.of_nat (size acc) then kth_largest top_k acc else kth_floor in
        scan_terms db params avgdl top_k rest acc kth_floor
  end.

(** One candidate's score completed by a point lookup of one pruned term. *)
Definition complete_one (db : Db) (params : Bm25Params) (avgdl : f32) (i : TermInfo) (id : bytes) (score : f32)
  : result RroError f32 :=
  match get_cf db CF_TERMS (term_key (ti_term i) id) with
  | Some v => p ← decode_posting v; Ok (f32_add score (bm25_term params (ti_idf i) p avgdl))
  | None => Ok score
  end.

(** All candidates, for one pruned term, then for each in turn. *)
Definition complete_term (db : Db) (params : Bm25Params) (avgdl : f32) (i : TermInfo) (acc : gmap bytes f32)
  : result RroError (gmap bytes f32) :=
  l ← mapM (fun '(id, s) => s' ← complete_one db params avgdl i id s; Ok (id, s')) (map_to_list acc);
  Ok (list_to_map l).
Fixpoint complete_terms (db : Db) (params : Bm25Params) (avgdl : f32) (infos : list TermInfo) (acc : gmap bytes f32)
  : result RroError (gmap bytes f32) :=
  match infos with
  | [] => Ok acc
  | i :: infos => acc ← complete_term db params avgdl i acc; complete_terms db params avgdl infos acc
  end.

Definition lexical_topk_blocking (db : Db) (params : Bm25Params) (terms : list bytes) (top_k : Z)
  : result RroError (list Candidate) :=
  match get_cf db CF_META META_LEXSTATS with
  | None => lexical_blocking db params terms top_k
  | Some _ =>
      let n_docs := get_u64 db META_DOC_COUNT in
      let total_tokens := get_u64 db META_TOTAL_TOKENS in
      if (n_docs =? 0) || (top_k =? 0) then Ok []
      else
        let n := f32_of_Z n_docs in
        let avgdl := f_max (f32_div (f32_of_Z total_tokens) n) f32_one in
        let infos := term_infos db params n terms in
        if bool_decide (infos = []) then Ok []
        else
          '(acc, pruned) ← scan_terms db params avgdl top_k infos ∅ f32_zero;
          acc ← complete_terms db params avgdl pruned acc;
          Ok (map bare (truncate top_k (ranked acc)))
  end.

Definition lexical_search (s : ConnXRecall) (query : bytes) (top_k : Z) : result RroError (list Candidate) :=
  let terms := analyze query in
  if bool_decide (terms = []) || (top_k =? 0) then Ok []
  else lexical_topk_blocking (db s) (params s) terms top_k.

(** ** Dense search *)

(** Over-fetch factor and floor of [ef]. *)
Definition overfetch (q : Quantizer) : Z * Z :=
  match q with QNone => (1, 64) | QSq8 => (2, 64) | QPq _ => (6, 200) | QBq => (8, 200) end.

(** Scores of pending vectors are exact ([Pending::overlay]). *)
Definition pending_score (query e : list f32) : f32 := cosine (normalized query) (normalized e).

(** Exact scores from the durable vectors, where there is one. *)
Definition rescore (db : Db) (query : list f32) (h : Hit) : Hit :=
  (h.1, match vector_of db h.1 with Some v => cosine query v | None => h.2 end).

(** The graph's hits, overlaid, rescored and cut. *)
Definition graph_hits (s : ConnXRecall) (query : list f32) (top_k : Z) : result RroError (list Hit) :=
  let '(factor, ef_floor) := overfetch (quantizer s) in
  let fetch := sat_mul top_k factor in
  scored ← or_panic (Ann.search (ann s) query (Z.to_nat fetch) (Z.to_nat (Z.max fetch ef_floor)));
  let '(ups, dels) := overlay (pending_score query) (pending s) in
  let scored :=
    if bool_decide (ups = []) && bool_decide (dels = []) then scored
    else truncate fetch (rank (merge_overlay scored ups dels)) in
  Ok (if is_lossy (quantizer s) then truncate top_k (rank (map (rescore (db s) query) scored)) else scored).

(** The exact scan of a tiny corpus. *)
Definition scan_hits (db : Db) (query : list f32) (top_k : Z) : list Hit :=
  truncate top_k (rank (map (fun '(k, v) => (from_utf8_lossy k, cosine query (vec_of v))) (iter_all db CF_VECS))).

Definition dense_hits (s : ConnXRecall) (query : list f32) (top_k : Z) : result RroError (list Hit) :=
  if (ANN_MIN_CORPUS <=? ann_len (ann s))%nat then graph_hits s query top_k
  else Ok (scan_hits (db s) query top_k).

Definition dense_blocking (s : ConnXRecall) (query : list f32) (top_k : Z) (fetch_payload : bool)
  : result RroError (list Candidate) :=
  scored ← dense_hits s query top_k;
  Ok (map (fun h => if fetch_payload then default (bare h) (hydrate (db s) h) else bare h) scored).

(** [Recall::search] *)
Definition search (s : ConnXRecall) (query : list f32) (top_k : Z) : result RroError (list Candidate) :=
  if top_k =? 0 then Ok [] else dense_blocking s query top_k true.

(** ** Hybrid searches *)

(** [HybridWeights::as_slice] *)
Definition as_slice (w : HybridWeights) : list f32 := [hw_dense w; hw_lexical w].

Definition hybrid_weighted (s : ConnXRecall) (query_text : bytes) (query : list f32) (top_k : Z)
  (weights : HybridWeights) (mode : FusionMode) : result RroError (list Candidate) :=
  if top_k =? 0 then Ok []
  else
    let terms := analyze query_text in
    let depth := Z.max (sat_mul top_k FUSION_DEPTH_FACTOR) top_k in
    dense ← dense_blocking s query depth false;
    lexical ← (if bool_decide (terms = []) then Ok []
               else lexical_topk_blocking (db s) (params s) terms depth);
    let fused := fuse mode [scored_ids dense; scored_ids lexical] (as_slice weights) RRF_K in
    Ok (omap (hydrate (db s)) (truncate top_k fused)).

(** [Recall::hybrid_search] *)
Definition hybrid_search (s : ConnXRecall) (query_text : bytes) (query : list f32) (top_k : Z)
  : result RroError (list Candidate) :=
  hybrid_weighted s query_text query top_k weights_default Rrf.

Definition scoped_search (s : ConnXRecall) (query_text : bytes) (query : list f32) (top_k : Z) (scope : list bytes)
  : result RroError (list Candidate) :=
  if (top_k =? 0) || bool_decide (scope = []) then Ok []
  else
    let terms := analyze query_text in
    let dense := rank (omap (fun id => (fun v => (id, cosine query v)) <$> vector_of (db s) id) scope) in
    lexical ← (if bool_decide (terms = []) then Ok []
               else lexical_blocking (db s) (params s) terms usize_max);
    let lexical := filter (fun c => c_id c ∈ scope) lexical in
    let fused := reciprocal_rank_fusion [map fst dense; map c_id lexical] RRF_K in
    Ok (omap (hydrate (db s)) (truncate top_k fused)).

(** A winner scored by its durable vector; without one it is skipped. *)
Definition hydrate_exact (db : Db) (query : list f32) (id : bytes) : option Candidate :=
  (fun v =>
     let c := candidate id [] (cosine query v) in
     match get_doc db id with
     | Some d => mkCandidate id (sd_text d) (c_score c) (sd_metadata d) None []
     | None => c
     end) <$> vector_of db id.

Definition filter_aware_search (s : ConnXRecall) (query_text : bytes) (query : list f32) (top_k : Z)
  (allow : gset bytes) (weights : HybridWeights) (mode : FusionMode) : result RroError (list Candidate) :=
  if (top_k =? 0) || bool_decide (allow = ∅) then Ok []
  else if negb (ANN_MIN_CORPUS <=? ann_len (ann s))%nat then
    scoped_search s query_text query top_k (elements allow)
  else
    let terms := analyze query_text in
    dense ← or_panic (search_filtered (ann s) query (Z.to_nat top_k) (Z.to_nat (Z.max top_k 64)) allow);
    lexical ← (if bool_decide (terms = []) then Ok []
               else
                 lex ← lexical_blocking (db s) (params s) terms (wrap_mul top_k 4);
                 Ok (scored_ids (filter (fun c => c_id c ∈ allow) lex)));
    let fused :=
      if bool_decide (lexical = []) then map fst dense
      else map fst (fuse mode [dense; lexical] (as_slice weights) RRF_K) in
    Ok (merge_sort cand_le (omap (hydrate_exact (db s) query) (truncate top_k fused))).
End search.
