(* ===== verification/SearchFacts.v ===== *)
(** * What the searches scan: the rows of each family, as maps over documents

    A store that refines a map of records holds, under one term, one named
    space, one sparse dimension or one collection, exactly one row per
    document that has it, in id order. *)
From S2P Require Import Prelude Floats ByteOrder Utf8 Json Query Geo Quant Ann Keys KeysFacts Model.
From S2P Require Import Kv Store StoreFacts StoreTx StoreSpec Fusion Searches.
#[local] Set Default Goal Selector "!".
#[local] Set Warnings "-clear-no-such-hyp".
Local Open Scope Z_scope.

(** ** Puts with distinct keys *)

Section puts.
Context `{SerdeNumber}.

Lemma apply_puts_iff b cf k v :
  Forall is_put b -> (forall v v', OpPut cf k v ∈ b -> OpPut cf k v' ∈ b -> v = v') ->
  apply_ops b (fun _ => ∅) cf !! k = Some v <-> OpPut cf k v ∈ b.
Proof.
  intros Hb Hu. split; [apply apply_puts_elem|]. intros Hin.
  destruct (apply_puts_some b cf k v Hb Hin) as [v' E]. rewrite E. f_equal.
  apply Hu; [by apply apply_puts_elem|done].
Qed.

(** ** Rows under a prefix *)

Lemma rows_under_iter (db : Db) (cf : CF) (p : bytes) (M : gmap bytes Row) :
  (forall id v, db cf !! (p ++ id) = Some v <-> M !! id = Some v) ->
  (forall id, is_Some (M !! id) -> valid_utf8 id = true) ->
  rows_under db cf p = btree_iter M.
Proof.
  intros Hrow Hutf. symmetry. unfold rows_under.
  assert (forall k v, (k, v) ∈ scan_prefix db cf p -> exists id, k = p ++ id /\ M !! id = Some v) as Hscan.
  { intros k v Hin. apply elem_of_scan_prefix in Hin as [Hk [id ->]]. exists id. by rewrite <- Hrow. }
  apply btree_iter_unique.
  - pose proof (scan_prefix_sorted db cf p) as Hs. induction Hs as [|[k v] l Hs IH Hk]; [constructor|].
    cbn [map]. constructor; [apply IH; intros k' v' Hin; apply Hscan; by right|].
    rewrite Forall_forall in *. intros [id' w] Hin. apply list_elem_of_fmap in Hin as ([k' v'] & [= -> ->] & Hin).
    pose proof (Hk _ Hin) as Hlt. destruct (Hscan k v) as (id & -> & Hm); [by left|].
    destruct (Hscan k' v') as (id2 & -> & Hm2); [by right|]. unfold key_lt, blt in *. cbn [fst] in *.
    rewrite !drop_app_length. rewrite bcmp_app_same in Hlt. rewrite !lossy_valid by (apply Hutf; by eexists). done.
  - intros id v. rewrite list_elem_of_fmap. split.
    + intros ([k w] & [= -> ->] & Hin). destruct (Hscan _ _ Hin) as (id & -> & Hm). rewrite drop_app_length.
      by rewrite lossy_valid by (apply Hutf; by eexists).
    + intros Hm. exists (p ++ id, v). rewrite drop_app_length, lossy_valid by (apply Hutf; by eexists).
      split; [done|]. apply elem_of_scan_prefix. split; [by apply Hrow|by exists id].
Qed.
End puts.

(** ** Families keyed by an attribute and an id *)

Section family.
Context `{SerdeNumber} `{Libm} `{TextAnalyzer} (json_text : Json -> bytes).
Context (fields : list bytes) (db : Db) (m : gmap bytes VectorRecord).
Hypothesis Hids : ids_ok m.
Hypothesis Hrows : rows_ok json_text fields db m.
Hypothesis Hutf8 : forall id, is_Some (m !! id) -> valid_utf8 id = true.

Section one.
Context {A : Type} (cf : CF) (head : A -> bytes) (ok : A -> Prop) (row : VectorRecord -> A -> option Row).
Hypothesis Hcf : data_cf cf = true /\ cf <> CF_DOCS /\ cf <> CF_VECS /\ cf <> CF_MVECS.
Hypothesis Hhead : forall a a' x x', ok a -> ok a' -> head a ++ SEP :: x = head a' ++ SEP :: x' -> a = a' /\ x = x'.
Hypothesis Hdoc : forall id r, m !! id = Some r -> forall k v,
  doc_rows json_text fields r cf !! k = Some v <-> exists a, ok a /\ row r a = Some v /\ k = head a ++ SEP :: vr_id r.

Lemma family_row a id v :
  ok a -> db cf !! (head a ++ SEP :: id) = Some v <-> (m !! id ≫= fun r => row r a) = Some v.
Proof.
  intros Ha. rewrite Hrows by apply Hcf. split.
  - intros (r & Hr & Hd)%bind_Some. pose proof Hr as Hr'. apply Hids in Hr' as [Hid Hnul].
    apply (Hdoc _ _ Hr) in Hd as (a' & Ha' & Hrow & E). apply Hhead in E as [-> ->]; [|done|done].
    rewrite owner_sep in Hr by (apply Hcf || by rewrite Hid). by rewrite Hr.
  - intros (r & Hr & Hrow)%bind_Some. pose proof Hr as Hr'. apply Hids in Hr' as [Hid Hnul].
    rewrite owner_sep by (apply Hcf || done). rewrite Hr. cbn. apply (Hdoc _ _ Hr). exists a. by rewrite Hid.
Qed.

Definition family_map (a : A) : gmap bytes Row := omap (fun r => row r a) m.

Lemma family_rows_under a : ok a -> rows_under db cf (head a ++ [SEP]) = btree_iter (family_map a).
Proof.
  intros Ha. apply rows_under_iter.
  - intros id v. rewrite <- app_assoc. cbn [app]. rewrite family_row by done. unfold family_map. by rewrite lookup_omap.
  - intros id [v Hv]. apply Hutf8. unfold family_map in Hv. rewrite lookup_omap in Hv. by apply bind_Some in Hv as (r & -> & _).
Qed.
End one.

(** ** The families *)

(** A put of another family. *)
Ltac no_put Hop :=
  first
    [ apply list_elem_of_fmap in Hop as ([? ?] & Hop & _); discriminate Hop
    | apply list_elem_of_fmap in Hop as (? & Hop & _); discriminate Hop
    | destruct (0 <? _); [apply list_elem_of_singleton in Hop; discriminate Hop|by apply elem_of_nil in Hop]
    | destruct (vr_collection _); [apply list_elem_of_singleton in Hop; discriminate Hop|by apply elem_of_nil in Hop]
    | repeat (apply elem_of_cons in Hop as [Hop|Hop]; [discriminate Hop|]); by apply elem_of_nil in Hop ].

Local Abbreviation puts r := (record_puts json_text fields r).

(** Which puts of a record go where. *)
Lemma puts_terms r k v :
  OpPut CF_TERMS k v ∈ puts r <->
  exists t f, term_freqs (analyze (vr_text r)) !! t = Some f /\ k = term_key t (vr_id r) /\
    v = posting_value f (tokens_of r).
Proof.
  unfold record_puts, term_puts, data_puts. rewrite !elem_of_app. split.
  - intros [Hop|[Hop|[Hop|[Hop|[Hop|[Hop|Hop]]]]]].
    + apply list_elem_of_fmap in Hop as ([t f] & [= -> ->] & Hin%elem_of_map_to_list). eauto.
    + no_put Hop.
    + no_put Hop.
    + no_put Hop.
    + no_put Hop.
    + no_put Hop.
    + no_put Hop.
  - intros (t & f & Hf & -> & ->). left. apply list_elem_of_fmap. exists (t, f). by rewrite elem_of_map_to_list.
Qed.

Lemma puts_sparse r k v :
  OpPut CF_SPARSE k v ∈ puts r <->
  exists d w, (d, w) ∈ sparse_pairs r /\ k = sparse_key d (vr_id r) /\ v = RBytes (f32_le w).
Proof.
  unfold record_puts, term_puts, data_puts. rewrite !elem_of_app. split.
  - intros [Hop|[Hop|[Hop|[Hop|[Hop|[Hop|Hop]]]]]].
    + no_put Hop.
    + no_put Hop.
    + apply list_elem_of_fmap in Hop as ([d w] & [= -> ->] & Hin). eauto.
    + no_put Hop.
    + no_put Hop.
    + no_put Hop.
    + no_put Hop.
  - intros (d & w & Hin & -> & ->). right. right. left. apply list_elem_of_fmap. by exists (d, w).
Qed.

Lemma puts_nvecs r k v :
  OpPut CF_NVECS k v ∈ puts r <->
  exists n e, vr_named r !! n = Some e /\ k = nvec_key n (vr_id r) /\ v = RBytes (encode_vec e).
Proof.
  unfold record_puts, term_puts, data_puts. rewrite !elem_of_app. split.
  - intros [Hop|[Hop|[Hop|[Hop|[Hop|[Hop|Hop]]]]]].
    + no_put Hop.
    + no_put Hop.
    + no_put Hop.
    + apply list_elem_of_fmap in Hop as ([n e] & [= -> ->] & Hin%elem_of_btree_iter). eauto.
    + no_put Hop.
    + no_put Hop.
    + no_put Hop.
  - intros (n & e & Hin & -> & ->). do 3 right. left. apply list_elem_of_fmap. exists (n, e). by rewrite elem_of_btree_iter.
Qed.

Lemma puts_coll r k v :
  OpPut CF_COLL k v ∈ puts r <-> exists c, vr_collection r = Some c /\ k = coll_key c (vr_id r) /\ v = RBytes [].
Proof.
  unfold record_puts, term_puts, data_puts. rewrite !elem_of_app. split.
  - intros [Hop|[Hop|[Hop|[Hop|[Hop|[Hop|Hop]]]]]].
    + no_put Hop.
    + no_put Hop.
    + no_put Hop.
    + no_put Hop.
    + no_put Hop.
    + destruct (vr_collection r) as [c|]; [|by apply elem_of_nil in Hop]. apply list_elem_of_singleton in Hop as [= -> ->]. eauto.
    + no_put Hop.
  - intros (c & -> & -> & ->). do 5 right. left. by apply list_elem_of_singleton.
Qed.

Lemma puts_mvecs r k v :
  OpPut CF_MVECS k v ∈ puts r <->
  0 < Z.of_nat (length (vr_multi r)) mod 2 ^ 32 /\ k = vr_id r /\ v = RBytes (encode_multi (vr_multi r)).
Proof.
  unfold record_puts, term_puts, data_puts. rewrite !elem_of_app. split.
  - intros [Hop|[Hop|[Hop|[Hop|[Hop|[Hop|Hop]]]]]].
    + no_put Hop.
    + no_put Hop.
    + no_put Hop.
    + no_put Hop.
    + destruct (Z.ltb_spec 0 (Z.of_nat (length (vr_multi r)) mod 2 ^ 32)); [|by apply elem_of_nil in Hop].
      by apply list_elem_of_singleton in Hop as [= -> ->].
    + no_put Hop.
    + no_put Hop.
  - intros (Hm & -> & ->). do 4 right. left. rewrite (proj2 (Z.ltb_lt _ _) Hm). by apply list_elem_of_singleton.
Qed.

Lemma mvecs_doc r k v :
  doc_rows json_text fields r CF_MVECS !! k = Some v <->
  0 < Z.of_nat (length (vr_multi r)) mod 2 ^ 32 /\ k = vr_id r /\ v = RBytes (encode_multi (vr_multi r)).
Proof.
  unfold doc_rows. rewrite apply_puts_iff by (apply record_puts_put || (intros v1 v2;
    rewrite !puts_mvecs; by intros (_ & _ & ->) (_ & _ & ->))).
  by rewrite puts_mvecs.
Qed.

Lemma terms_doc r k v :
  Forall nul_free (analyze (vr_text r)) ->
  doc_rows json_text fields r CF_TERMS !! k = Some v <->
  exists t, nul_free t /\ (fun f => posting_value f (tokens_of r)) <$> term_freqs (analyze (vr_text r)) !! t = Some v /\
    k = t ++ SEP :: vr_id r.
Proof.
  intros Ht. assert (forall t f, term_freqs (analyze (vr_text r)) !! t = Some f -> nul_free t) as Hnul.
  { intros t f Hf. rewrite Forall_forall in Ht. apply Ht, term_freqs_dom. by eexists. }
  unfold doc_rows. rewrite apply_puts_iff by (apply record_puts_put || (intros v1 v2;
    rewrite !puts_terms; intros (t1 & f1 & Hf1 & -> & ->) (t2 & f2 & Hf2 & E & ->);
    apply sep_app_inj in E as [-> _]; [congruence|by eapply Hnul|by eapply Hnul])).
  rewrite puts_terms. split.
  - intros (t & f & Hf & -> & ->). exists t. split; [by eapply Hnul|]. split; [|done]. apply fmap_Some. eauto.
  - intros (t & _ & (f & Hf & ->)%fmap_Some & ->). eauto.
Qed.

Lemma nvecs_doc r k v :
  (forall n e, vr_named r !! n = Some e -> nul_free n) ->
  doc_rows json_text fields r CF_NVECS !! k = Some v <->
  exists n, nul_free n /\ (fun e => RBytes (encode_vec e)) <$> vr_named r !! n = Some v /\ k = n ++ SEP :: vr_id r.
Proof.
  intros Hnul. unfold doc_rows. rewrite apply_puts_iff by (apply record_puts_put || (intros v1 v2;
    rewrite !puts_nvecs; intros (n1 & e1 & He1 & -> & ->) (n2 & e2 & He2 & E & ->);
    apply sep_app_inj in E as [-> _]; [congruence|by eapply Hnul|by eapply Hnul])).
  rewrite puts_nvecs. split.
  - intros (n & e & He & -> & ->). exists n. split; [by eapply Hnul|]. split; [|done]. apply fmap_Some. eauto.
  - intros (n & _ & (e & He & ->)%fmap_Some & ->). eauto.
Qed.

Lemma coll_doc r k v :
  (forall c, vr_collection r = Some c -> nul_free c) ->
  doc_rows json_text fields r CF_COLL !! k = Some v <->
  exists c, nul_free c /\ (if decide (vr_collection r = Some c) then Some (RBytes []) else None) = Some v /\ k = c ++ SEP :: vr_id r.
Proof.
  intros Hnul. unfold doc_rows. rewrite apply_puts_iff by (apply record_puts_put || (intros v1 v2;
    rewrite !puts_coll; by intros (c1 & _ & _ & ->) (c2 & _ & _ & ->))).
  rewrite puts_coll. split.
  - intros (c & Hc & -> & ->). exists c. rewrite decide_True by done. split; [by apply Hnul|done].
  - intros (c & _ & Hv & ->). case_decide as Hc; [|done]. injection Hv as <-. eauto.
Qed.

(** Sparse dimensions are 32-bit and, in a vector made by its constructor,
    distinct. *)
Definition dim_ok (d : Z) : Prop := 0 <= d < 256 ^ Z.of_nat 4.
Definition dim_weight (r : VectorRecord) (d : Z) : option f32 :=
  (fun p => p.2.2) <$> list_find (fun p : Z * f32 => p.1 = d) (sparse_pairs r).

Lemma dim_weight_iff r d w : NoDup (sparse_pairs r).*1 -> dim_weight r d = Some w <-> (d, w) ∈ sparse_pairs r.
Proof.
  intros Hn. unfold dim_weight. split.
  - destruct (list_find _ _) as [[i [d' w']]|] eqn:E; [|done]. intros [= <-].
    apply list_find_Some in E as (Hi & Hd & _). cbn in Hd. subst d'. by eapply list_elem_of_lookup_2.
  - intros Hin. destruct (list_find (fun p : Z * f32 => p.1 = d) (sparse_pairs r)) as [[i [d' w']]|] eqn:E.
    + apply list_find_Some in E as (Hi & Hd & _). cbn in Hd. subst d'. cbn. f_equal.
      apply list_elem_of_lookup_2 in Hi.
      assert ((list_to_map (sparse_pairs r) : gmap Z f32) !! d = Some w') as H1' by by apply elem_of_list_to_map_1.
      assert ((list_to_map (sparse_pairs r) : gmap Z f32) !! d = Some w) as H2' by by apply elem_of_list_to_map_1.
      congruence.
    + apply list_find_None in E. rewrite Forall_forall in E. by destruct (E _ Hin).
Qed.

Lemma sparse_doc r k v :
  NoDup (sparse_pairs r).*1 -> Forall dim_ok (sparse_pairs r).*1 ->
  doc_rows json_text fields r CF_SPARSE !! k = Some v <->
  exists d, dim_ok d /\ (fun w => RBytes (f32_le w)) <$> dim_weight r d = Some v /\ k = be_bytes 4 d ++ SEP :: vr_id r.
Proof.
  intros Hn Hd. assert (forall d w, (d, w) ∈ sparse_pairs r -> dim_ok d) as Hok.
  { intros d w Hin. rewrite Forall_forall in Hd. apply Hd. by apply (list_elem_of_fmap_2' fst _ (d, w)). }
  assert (forall d1 d2, dim_ok d1 -> dim_ok d2 -> sparse_key d1 (vr_id r) = sparse_key d2 (vr_id r) -> d1 = d2) as Hinj.
  { intros d1 d2 Hd1 Hd2 E. apply app_inj_1 in E as [E _]; [by apply (be_bytes_inj 4)|by rewrite !length_be_bytes]. }
  unfold doc_rows. rewrite apply_puts_iff by (apply record_puts_put || (intros v1 v2;
    rewrite !puts_sparse; intros (d1 & w1 & Hw1 & -> & ->) (d2 & w2 & Hw2 & E & ->);
    apply Hinj in E as ->; [|by eapply Hok|by eapply Hok];
    apply dim_weight_iff in Hw1; [|done]; apply dim_weight_iff in Hw2; [|done]; congruence)).
  rewrite puts_sparse. split.
  - intros (d & w & Hin & -> & ->). exists d. split; [by eapply Hok|]. split; [|done]. apply fmap_Some. exists w. by rewrite dim_weight_iff.
  - intros (d & _ & (w & Hw & ->)%fmap_Some & ->). apply dim_weight_iff in Hw; [|done]. eauto.
Qed.
End family.

(** * The searches are exact over the documents of the store

    Over a store that refines a map of records each reader answers with the
    best [k] of a map of scores computed from the records: cosine to the
    query, BM25, the sparse product. *)
From S2P Require Import Prelude Floats ByteOrder Utf8 Json Query Geo Quant Heap AnnStore Ann Keys.
From S2P Require Import KeysFacts Model Kv Pending Store StoreFacts StoreTx StoreSpec Fusion.
From S2P Require Import Searches.
Local Open Scope Z_scope.
From Stdlib Require Import SpecFloat.

Lemma rank_btree (M : gmap bytes f32) : rank (btree_iter M) = ranked M.
Proof. apply rank_of; [apply btree_iter_keys_NoDup|]. intros id s. apply elem_of_btree_iter. Qed.

Section exact.
Context `{SerdeNumber} `{Libm} `{TextAnalyzer} `{Ln32} `{LegacyPosting}.
Variable json_text : Json -> bytes.

(** What the formats ask of a record: ids and names without the separator,
    sparse dimensions that are distinct 32-bit numbers, vectors of numbers,
    token vectors of one dimension. *)
Definition multi_ok (vs : list (list f32)) : Prop :=
  let dim := match vs with v :: _ => length v | [] => 0%nat end in
  Forall (fun v => length v = dim /\ Forall f32_ok v) vs /\ Z.of_nat (length vs) < 2 ^ 32 /\ Z.of_nat dim < 2 ^ 32 /\
  8 + 4 * (Z.of_nat (length vs) * Z.of_nat dim) < two64.
Record searchable_record (r : VectorRecord) : Prop := mkSearchable {
  se_utf8 : valid_utf8 (vr_id r) = true;
  se_terms : Forall nul_free (analyze (vr_text r));
  se_tokens : Z.of_nat (length (analyze (vr_text r))) < 2 ^ 32;
  se_named : forall n e, vr_named r !! n = Some e -> nul_free n /\ Forall f32_ok e;
  se_dims : NoDup (sparse_pairs r).*1;
  se_dims_ok : Forall dim_ok (sparse_pairs r).*1;
  se_weights : Forall f32_ok (sparse_pairs r).*2;
  se_vector : Forall f32_ok (vr_embedding r);
  se_coll : forall c, vr_collection r = Some c -> nul_free c;
  se_multi : multi_ok (vr_multi r);
}.
Definition searchable (m : gmap bytes VectorRecord) : Prop := forall id r, m !! id = Some r -> searchable_record r.

Context (fields : list bytes) (db : Db) (m : gmap bytes VectorRecord).
Hypothesis Hids : ids_ok m.
Hypothesis Hrows : rows_ok json_text fields db m.
Hypothesis Hs : searchable m.

Lemma ids_utf8 id : is_Some (m !! id) -> valid_utf8 id = true.
Proof. intros [r Hr]. pose proof (Hids _ _ Hr) as [<- _]. by apply (se_utf8 r (Hs _ _ Hr)). Qed.

(** ** Vectors *)

Lemma vec_row id : db CF_VECS !! id = (fun r => RBytes (encode_vec (vr_embedding r))) <$> m !! id.
Proof.
  rewrite Hrows by done. cbn. destruct (m !! id) as [r|] eqn:E; [|done]. cbn.
  pose proof (Hids _ _ E) as [<- _]. apply doc_rows_vecs.
Qed.

Lemma vector_of_exact id : vector_of db id = vr_embedding <$> m !! id.
Proof.
  unfold vector_of, get_cf. rewrite vec_row. destruct (m !! id) as [r|] eqn:E; [|done]. cbn.
  f_equal. apply decode_encode_vec. apply (se_vector r (Hs _ _ E)).
Qed.

Definition cosines (query : list f32) : gmap bytes f32 := (fun r => cosine query (vr_embedding r)) <$> m.

Lemma scan_hits_exact query k : scan_hits db query k = truncate k (ranked (cosines query)).
Proof.
  unfold scan_hits. f_equal. apply rank_of.
  - apply NoDup_fmap_fst.
    + intros id s1 s2 ([k1 v1] & [= Hk1 ->] & Hv1%elem_of_btree_iter)%list_elem_of_fmap ([k2 v2] & [= Hk2 ->] & Hv2%elem_of_btree_iter)%list_elem_of_fmap.
      rewrite vec_row in Hv1, Hv2. apply fmap_Some in Hv1 as (r1 & Hv1 & ->), Hv2 as (r2 & Hv2 & ->).
      rewrite lossy_valid in Hk1, Hk2 by (apply ids_utf8; by eexists). congruence.
    + apply (NoDup_fmap_1 fst). rewrite <- list_fmap_compose.
      erewrite list_fmap_ext with (g := fst); [apply btree_iter_keys_NoDup|].
      intros i [k1 v1] Hi%list_elem_of_lookup_2. apply elem_of_btree_iter in Hi. rewrite vec_row in Hi.
      apply fmap_Some in Hi as (r1 & Hr & ->). cbn. apply lossy_valid, ids_utf8. by eexists.
  - intros id s. unfold cosines. rewrite list_elem_of_fmap, lookup_fmap, fmap_Some. split.
    + intros ([k1 v1] & [= -> ->] & Hin%elem_of_btree_iter). rewrite vec_row in Hin. apply fmap_Some in Hin as (r & Hr & ->).
      rewrite lossy_valid by (apply ids_utf8; by eexists). exists r. split; [done|]. cbn.
      by rewrite decode_encode_vec by apply (se_vector r (Hs _ _ Hr)).
    + intros (r & Hr & ->). exists (id, RBytes (encode_vec (vr_embedding r))). cbn.
      rewrite lossy_valid by (apply ids_utf8; by eexists). rewrite decode_encode_vec by apply (se_vector r (Hs _ _ Hr)).
      split; [done|]. apply elem_of_btree_iter. by rewrite vec_row, Hr.
Qed.

(** ** Named spaces *)

Definition space_cosines (space : bytes) (query : list f32) : gmap bytes f32 :=
  omap (fun r => cosine query <$> vr_named r !! space) m.

Lemma named_search_exact_hits space query k :
  nul_free space -> 0 <= k ->
  named_search db space query k = map bare (truncate k (ranked (space_cosines space query))).
Proof.
  intros Hsp Hk. unfold named_search. destruct (Z.eqb_spec k 0) as [->|_]; [by rewrite truncate_take|].
  do 2 f_equal. unfold nvec_prefix, prefix.
  rewrite (family_rows_under json_text fields db m Hids Hrows ids_utf8 CF_NVECS (fun n => n) nul_free
    (fun r n => (fun e => RBytes (encode_vec e)) <$> vr_named r !! n)); [|by repeat split| |..|done].
  - rewrite <- rank_btree.
    assert (family_map m (fun r n => (fun e => RBytes (encode_vec e)) <$> vr_named r !! n) space =
      (fun e => RBytes (encode_vec e)) <$> omap (fun r => vr_named r !! space) m) as ->.
    { apply map_eq. intros id. unfold family_map. rewrite lookup_fmap, !lookup_omap. by destruct (m !! id). }
    assert (space_cosines space query = cosine query <$> omap (fun r => vr_named r !! space) m) as ->.
    { apply map_eq. intros id. unfold space_cosines. rewrite lookup_fmap, !lookup_omap. by destruct (m !! id). }
    rewrite !btree_iter_fmap, map_map. f_equal. apply map_ext_in. intros [id e] Hin%list_elem_of_In. cbn [fst snd vec_of].
    rewrite decode_encode_vec; [done|]. apply elem_of_btree_iter in Hin. rewrite lookup_omap in Hin.
    apply bind_Some in Hin as (r & Hr & He). by apply (se_named r (Hs _ _ Hr) space).
  - intros a a' x x' Ha Ha'. by apply sep_app_inj.
  - intros id r Hr k' v. apply nvecs_doc. intros n e Hn. by apply (se_named r (Hs _ _ Hr) n e).
Qed.

(** ** Collections *)

Lemma collection_rows coll :
  nul_free coll -> (rows_under db CF_COLL (coll_prefix coll)).*1 = (btree_iter (filter (fun p => vr_collection p.2 = Some coll) m)).*1.
Proof.
  intros Hc. unfold coll_prefix, prefix.
  rewrite (family_rows_under json_text fields db m Hids Hrows ids_utf8 CF_COLL (fun n => n) nul_free
    (fun r c => if decide (vr_collection r = Some c) then Some (RBytes []) else None)); [|by repeat split| |..|done].
  - assert (family_map m (fun r c => if decide (vr_collection r = Some c) then Some (RBytes []) else None) coll =
      (fun _ => RBytes []) <$> filter (fun p => vr_collection p.2 = Some coll) m) as ->.
    { apply map_eq. intros id. unfold family_map. rewrite lookup_fmap, lookup_omap, map_lookup_filter.
      destruct (m !! id) as [r|]; [|done]. cbn. by case_decide; case_guard. }
    rewrite btree_iter_fmap, <- list_fmap_compose. done.
  - intros a a' x x' Ha Ha'. by apply sep_app_inj.
  - intros id r Hr k' v. apply coll_doc. apply (se_coll r (Hs _ _ Hr)).
Qed.

(** ** Token vectors *)

Definition record_maxsim (query : list (list f32)) (r : VectorRecord) : option f32 :=
  match vr_multi r with [] => None | toks => Some (maxsim query toks) end.

Lemma maxsim_score_exact query id : maxsim_score db query id = Some (m !! id ≫= record_maxsim query).
Proof.
  unfold maxsim_score, get_cf. rewrite Hrows by done. cbn [owner]. destruct (m !! id) as [r|] eqn:E; [|done].
  cbn [mbind option_bind]. pose proof (Hids _ _ E) as [Hid _]. destruct (se_multi r (Hs _ _ E)) as (Hv & Hn & Hd & Hfit).
  unfold record_maxsim. destruct (vr_multi r) as [|v vs] eqn:Em.
  - destruct (doc_rows json_text fields r CF_MVECS !! id) as [w|] eqn:Ew; [|done]. apply mvecs_doc in Ew as (Hm & _).
    by rewrite Em in Hm.
  - assert (doc_rows json_text fields r CF_MVECS !! id = Some (RBytes (encode_multi (vr_multi r)))) as ->.
    { apply mvecs_doc. rewrite Em, Hid. split; [|done]. rewrite Z.mod_small by (cbn [length] in *; lia). cbn [length]. lia. }
    rewrite Em. by rewrite (proj1 (vectors_roundtrip (v :: vs) (length v) [] Hv Hn Hd Hfit ltac:(constructor))).
Qed.

(** ** Sparse dimensions *)

(** What one dimension of the query adds to each document. *)
Definition dim_scores (dw : Z * f32) : gmap bytes f32 := omap (fun r => f32_mul dw.2 <$> dim_weight r dw.1) m.
Definition sparse_scores (query : SparseVector) : gmap bytes f32 := sum_scores (map dim_scores (sparse_iter query)).

Lemma fold_opt_total_map {A B C} (f : A -> C -> option A) (g : A -> B -> A) (h : B -> C) l a :
  (forall a b, b ∈ l -> f a (h b) = Some (g a b)) -> fold_opt f a (map h l) = Some (fold_left g l a).
Proof.
  revert a. induction l as [|b l IH]; intros a Hf; [done|]. cbn [map fold_opt fold_left]. rewrite Hf by left.
  apply IH. intros a' b' Hb'. apply Hf. by right.
Qed.

Lemma sparse_dim_exact scores dw : dim_ok dw.1 -> sparse_dim db scores dw = Some (contribute scores (dim_scores dw)).
Proof.
  intros Hd. unfold sparse_dim, sparse_prefix.
  rewrite (family_rows_under json_text fields db m Hids Hrows ids_utf8 CF_SPARSE (be_bytes 4) dim_ok
    (fun r d => (fun w => RBytes (f32_le w)) <$> dim_weight r d)); [|by repeat split| |..|done].
  - assert (family_map m (fun r d => (fun w => RBytes (f32_le w)) <$> dim_weight r d) dw.1 =
      (fun w => RBytes (f32_le w)) <$> omap (fun r => dim_weight r dw.1) m) as ->.
    { apply map_eq. intros id. unfold family_map. rewrite lookup_fmap, !lookup_omap. by destruct (m !! id). }
    assert (dim_scores dw = f32_mul dw.2 <$> omap (fun r => dim_weight r dw.1) m) as ->.
    { apply map_eq. intros id. unfold dim_scores. rewrite lookup_fmap, !lookup_omap. by destruct (m !! id). }
    rewrite btree_iter_fmap. erewrite fold_opt_total_map with (g := fun a p => add_score a p.1 (f32_mul dw.2 p.2)).
    + unfold contribute. rewrite btree_iter_fmap. f_equal. by rewrite <- fold_votes.
    + intros a [id w] Hin%elem_of_btree_iter. rewrite lookup_omap in Hin. apply bind_Some in Hin as (r & Hr & Hw).
      apply dim_weight_iff in Hw; [|apply (se_dims r (Hs _ _ Hr))].
      assert (f32_ok w) as Hok. { pose proof (se_weights r (Hs _ _ Hr)) as Hf. rewrite Forall_forall in Hf. apply Hf. by apply (list_elem_of_fmap_2' snd _ (dw.1, w)). }
      cbn [fst snd weight_of_row]. assert (length (f32_le w) = 4%nat) as Hl by apply length_le_bytes.
      rewrite take_ge, Hl by lia. cbn [Nat.eqb fmap option_fmap option_map]. by rewrite f32_le_roundtrip.
  - intros d d' x x' Hd1 Hd2 E. assert (length (be_bytes 4 d) = length (be_bytes 4 d')) as Hl by by rewrite !length_be_bytes.
    apply app_inj_1 in E as [E [= ->]]; [|done]. split; [|done]. by apply (be_bytes_inj 4).
  - intros id r Hr k v. apply sparse_doc; [apply (se_dims r (Hs _ _ Hr))|apply (se_dims_ok r (Hs _ _ Hr))].
Qed.

Lemma sparse_search_exact_hits query k :
  Forall (fun dw => dim_ok dw.1) (sparse_iter query) -> 0 <= k ->
  sparse_search db query k = Ok (map bare (truncate k (ranked (sparse_scores query)))).
Proof.
  intros Hq Hk. unfold sparse_search. destruct (sparse_is_empty query) eqn:Ee; cbn [orb].
  { apply bool_decide_eq_true in Ee. unfold sparse_scores, sparse_iter. rewrite Ee. by rewrite truncate_ranked_empty. }
  destruct (Z.eqb_spec k 0) as [->|_]; [by rewrite truncate_take|].
  enough (forall scores, fold_opt (sparse_dim db) scores (sparse_iter query) = Some (fold_left contribute (map dim_scores (sparse_iter query)) scores)) as E.
  { unfold sparse_scores, sum_scores. by rewrite E. }
  intros scores. revert scores. induction Hq as [|dw l Hd _ IH]; intros scores; [done|]. cbn [fold_opt map fold_left].
  rewrite sparse_dim_exact by done. apply IH.
Qed.
End exact.
