(* ===== verification/LexFacts.v ===== *)
(** * Lexical search: BM25 over the documents, and max-score pruning

    The full scorer is BM25 over exactly the documents' term frequencies. The
    pruned one adds up the same contributions, rarest term first, for the
    documents of the terms it scanned, and misses nobody when the upper
    bounds it stops on are bounds. *)
From Stdlib Require Import SpecFloat.
From S2P Require Import Prelude Floats ByteOrder Utf8 Json Query Geo Quant Heap AnnStore Ann Keys.
From S2P Require Import KeysFacts Model Kv Pending Store StoreFacts StoreTx StoreSpec Fusion.
From S2P Require Import Searches SearchFacts.
#[local] Set Default Goal Selector "!".
#[local] Set Warnings "-clear-no-such-hyp".
Local Open Scope Z_scope.

Section bm25.
Context `{SerdeNumber} `{Libm} `{TextAnalyzer} `{Ln32} `{LegacyPosting}.
Variable json_text : Json -> bytes.

(** ** The abstract scores *)

Section spec.
Context (m : gmap bytes VectorRecord).

(** Term frequency and length, for the documents that have the term. *)
Definition postings_of (t : bytes) : gmap bytes Posting :=
  omap (fun r => (fun f => mkPosting f (tokens_of r)) <$> term_freqs (analyze (vr_text r)) !! t) m.
Definition term_scores (params : Bm25Params) (idf avgdl : f32) (t : bytes) : gmap bytes f32 :=
  (fun p => bm25_term params idf p avgdl) <$> postings_of t.

Definition corpus_size : Z := Z.of_nat (size m).
Definition corpus_tokens : Z := msum tokens_of m.

(** The full scorer: one contribution per query term, repeated ones too. *)
Definition full_term (params : Bm25Params) (n avgdl : f32) (t : bytes) : gmap bytes f32 :=
  let df := f32_of_nat (size (postings_of t)) in
  if feq df f32_zero then ∅ else term_scores params (bm25_idf n df) avgdl t.
Definition full_avgdl : f32 :=
  f_max (if corpus_size =? 0 then f32_one else f32_div (f32_of_Z corpus_tokens) (f32_of_Z corpus_size)) f32_one.
Definition full_scores (params : Bm25Params) (terms : list bytes) : gmap bytes f32 :=
  sum_scores (map (full_term params (f32_of_Z (Z.max corpus_size 1)) full_avgdl) terms).

(** The pruned scorer: each distinct term of the corpus once, the highest
    upper bound first. *)
Definition info_of (params : Bm25Params) (n : f32) (t : bytes) : option TermInfo :=
  let df := Z.of_nat (size (postings_of t)) in
  if df <=? 0 then None
  else
    let idf := bm25_idf n (f32_of_Z df) in
    Some (mkInfo t idf (f32_mul idf (f32_add (k1 params) f32_one))).
Definition infos_of (params : Bm25Params) (terms : list bytes) : list TermInfo :=
  stable_sort (fun i => - f32_key (ti_ub i)) (omap (info_of params (f32_of_Z corpus_size)) (distinct_terms [] terms)).
Definition avgdl_of : f32 := f_max (f32_div (f32_of_Z corpus_tokens) (f32_of_Z corpus_size)) f32_one.
Definition info_scores (params : Bm25Params) (i : TermInfo) : gmap bytes f32 :=
  term_scores params (ti_idf i) avgdl_of (ti_term i).
Definition sum_of (params : Bm25Params) (infos : list TermInfo) : gmap bytes f32 :=
  sum_scores (map (info_scores params) infos).
End spec.

(** ** The code computes them *)

Context (fields : list bytes) (db : Db) (m : gmap bytes VectorRecord).
Hypothesis Hids : ids_ok m.
Hypothesis Hrows : rows_ok json_text fields db m.
Hypothesis Hs : searchable m.

Lemma term_freqs_total ts (t : bytes) f : term_freqs ts !! t = Some f -> 0 <= f <= Z.of_nat (length ts).
Proof.
  unfold term_freqs. revert t f. induction ts as [|x ts IH] using rev_ind; intros t f; [cbn; by rewrite lookup_empty|].
  rewrite fold_left_app, length_app. cbn [fold_left length]. destruct (decide (x = t)) as [->|Hne].
  - rewrite lookup_insert_eq. intros [= <-]. destruct (_ !! t) as [f|] eqn:E; cbn; [apply IH in E; lia|lia].
  - rewrite lookup_insert_ne by done. intros E%IH. lia.
Qed.

Definition posting_row (r : VectorRecord) (t : bytes) : option Row :=
  (fun f => posting_value f (tokens_of r)) <$> term_freqs (analyze (vr_text r)) !! t.

Lemma decode_posting_value p : 0 <= tf p < 2 ^ 32 -> 0 <= len p < 2 ^ 32 -> decode_posting (posting_value (tf p) (len p)) = Ok p.
Proof.
  intros Htf Hlen. unfold decode_posting, posting_value. rewrite length_app, !length_le_bytes. cbn [Nat.add Nat.eqb].
  assert (forall x, length (le_bytes 4 x) = 4%nat) as Hl by (intros; apply length_le_bytes).
  rewrite <- (Hl (tf p)) at 1. rewrite take_app_length. rewrite <- (Hl (tf p)) at 2. rewrite drop_app_length.
  rewrite !from_le_le_bytes by (cbn; lia). by destruct p.
Qed.

Lemma posting_bounds t id p : postings_of m t !! id = Some p -> 0 <= tf p < 2 ^ 32 /\ 0 <= len p < 2 ^ 32.
Proof.
  unfold postings_of. rewrite lookup_omap. intros (r & Hr & (f & Hf & ->)%fmap_Some)%bind_Some. cbn.
  apply term_freqs_total in Hf. pose proof (se_tokens r (Hs _ _ Hr)). split; [lia|].
  unfold tokens_of, token_len. by apply Z.mod_pos_bound.
Qed.

Lemma term_head a a' x x' : nul_free a -> nul_free a' -> a ++ SEP :: x = a' ++ SEP :: x' -> a = a' /\ x = x'.
Proof. apply sep_app_inj. Qed.
Lemma term_doc_rows id r : m !! id = Some r -> forall k v,
  doc_rows json_text fields r CF_TERMS !! k = Some v <-> exists t, nul_free t /\ posting_row r t = Some v /\ k = t ++ SEP :: vr_id r.
Proof. intros Hr k v. apply terms_doc. apply (se_terms r (Hs _ _ Hr)). Qed.

Lemma posting_rows t : family_map m posting_row t = (fun p => posting_value (tf p) (len p)) <$> postings_of m t.
Proof.
  apply map_eq. intros id. unfold family_map, postings_of, posting_row. rewrite lookup_fmap, !lookup_omap.
  destruct (m !! id) as [r|]; [|done]. cbn. by destruct (term_freqs _ !! t).
Qed.

Lemma scan_postings_exact t : nul_free t -> scan_postings db t = Ok (btree_iter (postings_of m t)).
Proof.
  intros Ht. unfold scan_postings, term_prefix, prefix.
  rewrite (family_rows_under json_text fields db m Hids Hrows (ids_utf8 m Hids Hs) CF_TERMS (fun t => t) nul_free posting_row
    ltac:(by repeat split) term_head term_doc_rows t Ht), posting_rows, btree_iter_fmap.
  assert (forall id p, (id, p) ∈ btree_iter (postings_of m t) -> decode_posting (posting_value (tf p) (len p)) = Ok p) as Hd.
  { intros id p Hin%elem_of_btree_iter. apply posting_bounds in Hin as [??]. by apply decode_posting_value. }
  induction (btree_iter (postings_of m t)) as [|[id p] l IH]; [done|]. cbn [map mapM fst snd].
  rewrite (Hd id p) by left. cbn [mbind result_bind mret result_ret]. rewrite IH; [done|].
  intros id' p' Hin. apply (Hd id'). by right.
Qed.

(** The point lookup of one posting. *)
Lemma posting_lookup t id :
  nul_free t -> get_cf db CF_TERMS (term_key t id) = (fun p => posting_value (tf p) (len p)) <$> postings_of m t !! id.
Proof.
  intros Ht. unfold get_cf, term_key, compound.
  pose proof (family_row json_text fields db m Hids Hrows CF_TERMS (fun t => t) nul_free posting_row
    ltac:(by repeat split) term_head term_doc_rows t id) as Hrow.
  rewrite <- lookup_fmap, <- posting_rows. unfold family_map. rewrite lookup_omap. apply option_eq. intros v. by apply Hrow.
Qed.

(** ** The full scorer *)

Hypothesis Hdocs : get_u64 db META_DOC_COUNT = corpus_size m.
Hypothesis Htokens : get_u64 db META_TOTAL_TOKENS = corpus_tokens m.

Lemma score_postings_exact params n avgdl scores t :
  score_postings params n avgdl scores (btree_iter (postings_of m t)) = contribute scores (full_term m params n avgdl t).
Proof.
  unfold score_postings, full_term. rewrite btree_iter_length. destruct (feq _ _); [done|].
  unfold contribute, term_scores. rewrite btree_iter_fmap, <- fold_votes. apply fold_left_ext. by intros a [id p].
Qed.

Lemma lexical_blocking_exact params terms k :
  Forall nul_free terms ->
  lexical_blocking db params terms k = Ok (map bare (truncate k (ranked (full_scores m params terms)))).
Proof.
  intros Ht. unfold lexical_blocking. rewrite Hdocs, Htokens.
  assert (mapM (fun t => p ← scan_postings db t; Ok (t, p)) terms = Ok (map (fun t => (t, btree_iter (postings_of m t))) terms)) as ->.
  { induction Ht as [|t ts Ht _ IH]; [done|]. cbn [mapM map]. rewrite scan_postings_exact by done.
    cbn [mbind result_bind]. by rewrite IH. }
  cbn [mbind result_bind]. do 4 f_equal. unfold bm25_scores, full_scores, sum_scores. fold (full_avgdl m).
  generalize (∅ : gmap bytes f32) as scores. clear Ht. induction terms as [|t terms IH]; intros scores; [done|].
  cbn [map fold_left]. rewrite score_postings_exact. apply IH.
Qed.

(** ** The pruned scorer *)

Hypothesis Hdf : forall t, tdf db t = msum (has_term t) m.

Lemma postings_size (t : bytes) (M : gmap bytes VectorRecord) : Z.of_nat (size (postings_of M t)) = msum (has_term t) M.
Proof.
  induction M as [|i r M Hi IH] using map_ind.
  { unfold postings_of. by rewrite omap_empty, map_size_empty, msum_empty. }
  rewrite msum_insert_new by done. unfold has_term at 1. pose proof (term_freqs_dom (analyze (vr_text r)) t) as Hdom.
  assert (postings_of M t !! i = None) as Hn by (unfold postings_of; by rewrite lookup_omap, Hi).
  assert (postings_of (<[i:=r]> M) t = match term_freqs (analyze (vr_text r)) !! t with
    | Some f => <[i := mkPosting f (tokens_of r)]> (postings_of M t) | None => postings_of M t end) as ->.
  { apply map_eq. intros j. unfold postings_of at 1. rewrite lookup_omap. destruct (decide (j = i)) as [->|Hne].
    - rewrite lookup_insert_eq. cbn. destruct (_ !! t); [by rewrite lookup_insert_eq|done].
    - rewrite lookup_insert_ne by done. assert ((M !! j ≫= fun r => (fun f => mkPosting f (tokens_of r)) <$> term_freqs (analyze (vr_text r)) !! t) = postings_of M t !! j) as -> by (unfold postings_of; by rewrite lookup_omap).
      destruct (_ !! t); [by rewrite lookup_insert_ne|done]. }
  destruct (term_freqs (analyze (vr_text r)) !! t) as [f|] eqn:Ef.
  - rewrite decide_True by (apply Hdom; by eexists). rewrite map_size_insert_None by done. lia.
  - rewrite decide_False; [lia|]. by intros [f Hf]%Hdom.
Qed.

Lemma term_infos_exact params terms : term_infos db params (f32_of_Z (corpus_size m)) terms = infos_of m params terms.
Proof.
  unfold term_infos, infos_of. f_equal. apply list_omap_ext, Forall2_same_length_lookup. split; [done|].
  intros i t t' Hi Hi'. assert (t = t') as <- by congruence. unfold term_info, info_of.
  assert (doc_freq db t = Z.of_nat (size (postings_of m t))) as ->; [|done].
  rewrite postings_size, <- Hdf. done.
Qed.

Lemma distinct_terms_sub seen terms t : t ∈ distinct_terms seen terms -> t ∈ terms.
Proof.
  revert seen. induction terms as [|x terms IH]; intros seen; [done|]. cbn. case_bool_decide.
  - intros Hin%IH. by right.
  - intros [->|Hin%IH]%elem_of_cons; [by left|by right].
Qed.

Lemma infos_nul_free params terms : Forall nul_free terms -> Forall (fun i => nul_free (ti_term i)) (infos_of m params terms).
Proof.
  rewrite !Forall_forall. intros Ht i Hi. unfold infos_of in Hi. rewrite stable_sort_perm in Hi.
  apply list_elem_of_omap in Hi as (t & Hin & Hi). unfold info_of in Hi. destruct (_ <=? 0); [done|]. injection Hi as <-.
  apply Ht. by eapply distinct_terms_sub.
Qed.

Lemma scan_term_exact params i acc :
  nul_free (ti_term i) -> scan_term db params (avgdl_of m) i acc = Ok (contribute acc (info_scores m params i)).
Proof.
  intros Ht. unfold scan_term. rewrite scan_postings_exact by done. cbn [mbind result_bind]. f_equal.
  unfold contribute, info_scores, term_scores. rewrite btree_iter_fmap, <- fold_votes. apply fold_left_ext. by intros a [id p].
Qed.

(** The loop stops before the terms whose summed bounds the k-th best
    accumulator exceeds. *)
Lemma scan_terms_spec params k infos acc floor :
  Forall (fun i => nul_free (ti_term i)) infos -> (k <= Z.of_nat (size acc) -> floor = kth_largest k acc) ->
  exists done pruned, infos = done ++ pruned /\
    let acc' := fold_left contribute (map (info_scores m params) done) acc in
    scan_terms db params (avgdl_of m) k infos acc floor = Ok (acc', pruned) /\
    (pruned <> [] -> k <= Z.of_nat (size acc') /\ fgt (kth_largest k acc') (f32_sum (map ti_ub pruned)) = true).
Proof.
  intros Hf. revert acc floor. induction Hf as [|i infos Hi Hf IH]; intros acc floor Hfl; [by exists [], []|].
  cbn [scan_terms]. destruct ((k <=? Z.of_nat (size acc)) && fgt floor (f32_sum (map ti_ub (i :: infos)))) eqn:E.
  - apply andb_true_iff in E as [Hk%Z.leb_le Hub]. exists [], (i :: infos). cbn [app map fold_left].
    rewrite <- Hfl by done. by split_and!.
  - rewrite scan_term_exact by done. cbn [mbind result_bind].
    destruct (IH (contribute acc (info_scores m params i))
      (if k <=? Z.of_nat (size (contribute acc (info_scores m params i))) then kth_largest k (contribute acc (info_scores m params i)) else floor))
      as (dn & pr & -> & Hr & Hp).
    + intros Hk. by rewrite (proj2 (Z.leb_le _ _)).
    + exists (i :: dn), pr. split; [done|]. cbn zeta. cbn [map fold_left]. by split.
Qed.

(** *** Completion by point lookups *)

Definition kept (acc full : gmap bytes f32) : gmap bytes f32 := filter (fun p => is_Some (acc !! p.1)) full.

Lemma complete_one_exact params i (id : bytes) s :
  nul_free (ti_term i) ->
  complete_one db params (avgdl_of m) i id s = Ok (match info_scores m params i !! id with Some c => f32_add s c | None => s end).
Proof.
  intros Ht. unfold complete_one. rewrite posting_lookup by done. unfold info_scores, term_scores. rewrite lookup_fmap.
  destruct (postings_of m (ti_term i) !! id) as [p|] eqn:E; [|done]. cbn [fmap option_fmap option_map].
  apply posting_bounds in E as [??]. by rewrite decode_posting_value.
Qed.

Lemma complete_term_exact params i acc :
  nul_free (ti_term i) -> complete_term db params (avgdl_of m) i acc = Ok (kept acc (contribute acc (info_scores m params i))).
Proof.
  intros Ht. unfold complete_term.
  set (g := fun p : Hit => (p.1, match info_scores m params i !! p.1 with Some c => f32_add p.2 c | None => p.2 end)).
  assert (forall l, mapM (fun '(id, s) => s' ← complete_one db params (avgdl_of m) i id s; Ok (id, s')) l = Ok (map g l)) as ->.
  { induction l as [|[id s] l IH]; [done|]. cbn [mapM map]. rewrite complete_one_exact by done. cbn [mbind result_bind]. by rewrite IH. }
  cbn [mbind result_bind]. f_equal. apply map_eq. intros id. unfold kept. rewrite map_lookup_filter, contribute_lookup.
  assert (NoDup (map g (map_to_list acc)).*1) as Hn.
  { rewrite <- list_fmap_compose. apply NoDup_fst_map_to_list. }
  destruct (acc !! id) as [s|] eqn:E.
  - transitivity (Some (g (id, s)).2).
    + apply elem_of_list_to_map_1; [done|]. apply list_elem_of_fmap. exists (id, s). by rewrite elem_of_map_to_list.
    + cbn. destruct (info_scores m params i !! id); cbn; rewrite option_guard_True by (rewrite E; by eexists); done.
  - transitivity (@None f32).
    + apply not_elem_of_list_to_map_1. rewrite <- list_fmap_compose. intros ([j s] & -> & Hj%elem_of_map_to_list)%list_elem_of_fmap.
      cbn in E. congruence.
    + destruct (info_scores m params i !! id); cbn; [|done]. rewrite option_guard_False; [done|]. rewrite E. by intros [??].
Qed.

Lemma kept_lookup acc full (id : bytes) : kept acc full !! id = match acc !! id with Some _ => full !! id | None => None end.
Proof.
  unfold kept. rewrite map_lookup_filter. destruct (acc !! id) as [s|] eqn:E.
  - destruct (full !! id); [|done]. cbn. by rewrite option_guard_True by (rewrite E; by eexists).
  - destruct (full !! id); [|done]. cbn. rewrite option_guard_False; [done|]. rewrite E. by intros [??].
Qed.

Lemma complete_terms_exact params infos acc :
  Forall (fun i => nul_free (ti_term i)) infos ->
  complete_terms db params (avgdl_of m) infos acc = Ok (kept acc (fold_left contribute (map (info_scores m params) infos) acc)).
Proof.
  intros Hf. revert acc. induction Hf as [|i infos Hi _ IH]; intros acc; cbn [complete_terms map fold_left].
  - f_equal. apply map_eq. intros id. rewrite kept_lookup. by destruct (acc !! id).
  - rewrite complete_term_exact by done. cbn [mbind result_bind]. rewrite IH. f_equal. apply map_eq. intros id.
    rewrite !kept_lookup, !sum_from, kept_lookup, contribute_lookup.
    destruct (acc !! id) as [s|]; [|done]. by destruct (info_scores m params i !! id), (omap _ _).
Qed.

Lemma lexical_topk_spec params terms k :
  is_Some (get_cf db CF_META META_LEXSTATS) -> Forall nul_free terms -> 0 < k -> corpus_size m <> 0 ->
  exists done pruned, infos_of m params terms = done ++ pruned /\
    lexical_topk_blocking db params terms k =
      Ok (map bare (truncate k (ranked (kept (sum_of m params done) (sum_of m params (done ++ pruned)))))) /\
    (pruned <> [] -> k <= Z.of_nat (size (sum_of m params done)) /\
       fgt (kth_largest k (sum_of m params done)) (f32_sum (map ti_ub pruned)) = true).
Proof.
  intros [row Hst] Ht Hk Hm. unfold lexical_topk_blocking. rewrite Hst, Hdocs, Htokens, term_infos_exact.
  rewrite (proj2 (Z.eqb_neq _ _)), (proj2 (Z.eqb_neq k 0)) by lia. cbn [orb]. fold (avgdl_of m).
  pose proof (infos_nul_free params terms Ht) as Hn.
  case_bool_decide as Hnil.
  - exists [], []. rewrite Hnil. split; [done|]. split; [|done]. f_equal.
    assert (kept (sum_of m params []) (sum_of m params ([] ++ [])) = ∅) as -> by (apply map_eq; intros id; rewrite kept_lookup; done).
    by rewrite truncate_ranked_empty.
  - destruct (scan_terms_spec params k (infos_of m params terms) ∅ f32_zero Hn) as (dn & pr & E & Hr & Hp).
    { rewrite map_size_empty. lia. }
    exists dn, pr. split; [done|]. rewrite Hr. cbn [mbind result_bind]. rewrite E in Hn. apply Forall_app in Hn as [_ Hn].
    rewrite complete_terms_exact by done. cbn [mbind result_bind]. split; [|done]. do 4 f_equal.
    unfold sum_of, sum_scores. by rewrite map_app, fold_left_app.
Qed.
End bm25.

(** * Max-score pruning loses no winner

    If the k-th best accumulator exceeds what the unscanned terms can still
    give, no document outside the accumulators belongs to the best k. *)
From Stdlib Require Import SpecFloat.

(** The documents behind the k largest accumulators. *)
Lemma kth_largest_spec (k : Z) (acc : gmap bytes f32) :
  0 < k -> k <= Z.of_nat (size acc) ->
  exists top : list Hit, length top = Z.to_nat k /\ NoDup top.*1 /\ (exists id : bytes, (id, kth_largest k acc) ∈ top) /\
    forall (id : bytes) s, (id, s) ∈ top -> acc !! id = Some s /\ f32_key (kth_largest k acc) <= f32_key s.
Proof.
  intros Hk Hsz. set (key := fun x => - f32_key x). set (L := stable_sort key (map_to_list acc).*2).
  assert (L ≡ₚ map snd (map_to_list acc)) as Hp by apply stable_sort_perm.
  destruct (Permutation_map_inv _ _ Hp) as (P & HL & HP). symmetry in HL.
  assert (length P = size acc) as Hlen by (rewrite <- HP; apply length_map_to_list).
  assert (L !! Z.to_nat (k - 1) = Some (kth_largest k acc)) as Hnth.
  { unfold kth_largest. fold key L. destruct (lookup_lt_is_Some_2 L (Z.to_nat (k - 1))) as [x ->]; [|done].
    rewrite <- HL. rewrite length_map. lia. }
  exists (take (Z.to_nat k) P). split; [rewrite length_take; lia|]. split.
  { eapply sublist_NoDup; [|apply fmap_sublist, sublist_take]. rewrite <- HP. apply NoDup_fst_map_to_list. }
  assert (forall i h, P !! i = Some h -> L !! i = Some h.2) as HPL.
  { intros i h Hi. rewrite <- HL. change (map snd P) with (snd <$> P). by rewrite list_lookup_fmap, Hi. }
  split.
  - destruct (lookup_lt_is_Some_2 P (Z.to_nat (k - 1))) as [[id s] Hi]; [lia|]. exists id.
    pose proof (HPL _ _ Hi) as Hs. rewrite Hs in Hnth. injection Hnth as <-.
    apply (list_elem_of_lookup_2 _ (Z.to_nat (k - 1))). rewrite lookup_take_lt by lia. done.
  - intros id s (i & Hi)%list_elem_of_lookup. apply lookup_take_Some in Hi as [Hi Hik]. split.
    + apply elem_of_map_to_list. rewrite HP. by eapply list_elem_of_lookup_2.
    + apply HPL in Hi. cbn in Hi. pose proof (stable_sort_ascending key (map_to_list acc).*2) as Hasc. fold L in Hasc.
      destruct (decide (i = Z.to_nat (k - 1))) as [->|Hne]; [by simplify_eq|].
      enough (key s <= key (kth_largest k acc)) by (unfold key in *; lia).
      apply (StronglySorted_app_1_elem_of (fun x y => key x <= key y) (take (S i) L) (drop (S i) L)).
      * by rewrite take_drop.
      * apply (list_elem_of_lookup_2 _ i). by rewrite lookup_take_lt by lia.
      * apply (list_elem_of_lookup_2 _ (Z.to_nat (k - 1) - S i)). rewrite lookup_drop. rewrite <- Hnth. f_equal. lia.
Qed.

Section pruning.
Context (A F : gmap bytes f32) (k : Z) (ub : f32).
Hypothesis Hk : 0 < k.
Hypothesis Hsize : k <= Z.of_nat (size A).
Hypothesis Hfloor : fgt (kth_largest k A) ub = true.
Hypothesis HokA : forall (id : bytes) s, A !! id = Some s -> f32_ok s.
Hypothesis HokF : forall (id : bytes) s, F !! id = Some s -> f32_ok s.
Hypothesis Hdom : forall id : bytes, is_Some (A !! id) -> is_Some (F !! id).
Hypothesis Hgrow : forall (id : bytes) s s', A !! id = Some s -> F !! id = Some s' -> f32_key s <= f32_key s'.
Hypothesis Hunseen : forall (id : bytes) s, A !! id = None -> F !! id = Some s -> flt ub s = false.

Lemma unseen_below (id : bytes) s : A !! id = None -> F !! id = Some s -> f32_key s < f32_key (kth_largest k A).
Proof.
  intros Ha Hf. destruct (kth_largest_spec k A Hk Hsize) as (top & _ & _ & (j & Hj) & Htop).
  apply Htop in Hj as [Hj _]. apply f32_flt_key; [by apply (HokF id)|by apply (HokA j)|].
  pose proof (Hunseen id s Ha Hf) as Hn. pose proof (HokF id s Hf) as [_ Hnan]. unfold fgt in Hfloor. fold (flt ub (kth_largest k A)) in Hfloor.
  apply flt_rank in Hfloor as (Hu & HK & Hr). apply flt_rank. split_and!; [done|done|].
  destruct (flt ub s) eqn:E; [done|]. assert (~ rank_lt (frank ub) (frank s)) as Hnr.
  { intros Hr'. assert (flt ub s = true) by (apply flt_rank; done). congruence. }
  unfold rank_lt in *. lia.
Qed.

Lemma pruned_best : best_of k F (truncate k (ranked (kept A F))).
Proof.
  pose proof (best_ranked k (kept A F) ltac:(lia)) as [Hs Hn Hsc Hl Hr].
  set (l := truncate k (ranked (kept A F))) in *.
  assert (forall id : bytes, is_Some (kept A F !! id) <-> is_Some (A !! id)) as Hd.
  { intros id. rewrite kept_lookup. specialize (Hdom id). destruct (A !! id); [|done]. split; [by eexists|]. intros. apply Hdom. by eexists. }
  assert (Z.of_nat (size (kept A F)) = Z.of_nat (size A)) as Esz.
  { f_equal. rewrite <- !size_dom. f_equal. apply set_eq. intros id. by rewrite !elem_of_dom, Hd. }
  assert (size (kept A F) <= size F)%nat as Hle.
  { rewrite <- !size_dom. apply subseteq_size. intros id. rewrite !elem_of_dom, kept_lookup. by destruct (A !! id). }
  split; [done|done| |lia|].
  - intros id s Hin. apply Hsc in Hin. rewrite kept_lookup in Hin. by destruct (A !! id).
  - intros id s Hf Hni h Hh. destruct (A !! id) as [a|] eqn:Ea.
    + apply Hr; [by rewrite kept_lookup, Ea|done|done].
    + left. pose proof (unseen_below id s Ea Hf) as Hlt. cbn [snd].
      destruct (Z.lt_ge_cases (f32_key h.2) (f32_key (kth_largest k A))) as [Hlow|]; [exfalso|lia].
      destruct (kth_largest_spec k A Hk Hsize) as (top & Htl & Htn & _ & Htop).
      assert (forall j t, (j, t) ∈ top -> exists f, (j, f) ∈ l /\ f32_key (kth_largest k A) <= f32_key f) as Hin.
      { intros j t Hj. apply Htop in Hj as [Hj Hkey]. destruct (Hdom j) as [f Hf']; [by eexists|].
        pose proof (Hgrow j t f Hj Hf'). exists f. split; [|lia]. destruct (decide ((j, f) ∈ l)) as [|Hno]; [done|].
        assert (kept A F !! j = Some f) as Hkf by by rewrite kept_lookup, Hj.
        pose proof (Hr j f Hkf Hno h Hh) as [Hx|[Hx _]]; cbn [snd] in Hx; lia. }
      assert (length (h.1 :: top.*1) <= length l.*1)%nat as Hcount.
      { apply submseteq_length, NoDup_submseteq.
        - constructor; [|done]. intros ([j t] & Ej & Hj)%list_elem_of_fmap. destruct (Hin j t Hj) as (f & Hjf & Hkf).
          cbn in Ej. destruct h as [h1 h2]. cbn in Ej, Hlow. subst h1. apply Hsc in Hjf, Hh. assert (h2 = f) as -> by congruence. lia.
        - intros x [->|([j t] & -> & Hj)%list_elem_of_fmap]%elem_of_cons; [by apply list_elem_of_fmap_2|].
          destruct (Hin j t Hj) as (f & Hjf & _). by apply (list_elem_of_fmap_2' fst _ (j, f)). }
      cbn [length] in Hcount. rewrite !length_fmap in Hcount. lia.
Qed.
End pruning.
