(* ===== verification/SearchSpec.v ===== *)
(** * What the searches promise

    Over a store that refines a map of records: which documents each search
    answers, with which scores, in which order, and that every answer is a
    document of the store. *)
From Stdlib Require Import SpecFloat.
From S2P Require Import Prelude Floats ByteOrder Utf8 Json Query Geo Quant Heap AnnStore Ann Keys.
From S2P Require Import KeysFacts Model Kv Pending Store StoreFacts StoreTx StoreSpec Fusion.
From S2P Require Import Searches SearchFacts LexFacts.
#[local] Set Default Goal Selector "!".
#[local] Set Warnings "-clear-no-such-hyp".
Local Open Scope Z_scope.

(** ** Answers *)

Section answers.
Context `{SerdeNumber}.

(** A document as a candidate. *)
Definition doc_hit (r : VectorRecord) (s : f32) : Candidate :=
  mkCandidate (vr_id r) (vr_text r) s (vr_metadata r) None [].
Definition doc_hits (m : gmap bytes VectorRecord) (l : list Hit) : list Candidate :=
  omap (fun h => (fun r => doc_hit r h.2) <$> m !! h.1) l.

(** A page of documents: at most [k], no id twice, each as it is stored. *)
Record page_of (m : gmap bytes VectorRecord) (k : Z) (l : list Candidate) : Prop := mkPage {
  pg_length : Z.of_nat (length l) <= k;
  pg_ids : NoDup (map c_id l);
  pg_docs : forall c, c ∈ l -> exists r, m !! c_id c = Some r /\ c = doc_hit r (c_score c);
}.

Lemma scored_ids_bare l : scored_ids (map bare l) = l.
Proof. unfold scored_ids. rewrite map_map. rewrite <- (map_id l) at 2. apply map_ext. by intros [??]. Qed.
Lemma bare_ids l : map c_id (map bare l) = map fst l.
Proof. by rewrite map_map. Qed.
Lemma scored_ids_fst (l : list Candidate) : (scored_ids l).*1 = map c_id l.
Proof. unfold scored_ids. by rewrite <- list_fmap_compose. Qed.

(** Records stand under their own ids. *)
Definition keyed (m : gmap bytes VectorRecord) : Prop := map_Forall (fun id r => vr_id r = id) m.

Section keyed.
Context (m : gmap bytes VectorRecord) (Hkeyed : keyed m).

Lemma elem_of_doc_hits l c : c ∈ doc_hits m l -> (c_id c, c_score c) ∈ l /\ exists r, m !! c_id c = Some r /\ c = doc_hit r (c_score c).
Proof.
  intros ([id s] & Hin & (r & Hr & ->)%fmap_Some)%list_elem_of_omap. cbn in Hr. pose proof (Hkeyed _ _ Hr) as Hid.
  cbn [doc_hit c_id c_score snd]. rewrite Hid. split; [done|]. by exists r.
Qed.
Lemma doc_hits_ids l : map c_id (doc_hits m l) `sublist_of` l.*1.
Proof.
  induction l as [|[id s] l IH]; [done|]. unfold doc_hits in *. cbn [omap list_omap fst snd fmap list_fmap].
  destruct (m !! id) as [r|] eqn:E; cbn [fmap option_fmap option_map].
  - cbn. rewrite (Hkeyed _ _ E). by apply sublist_skip.
  - by apply sublist_cons.
Qed.
Lemma doc_hits_known l : (forall id, id ∈ l.*1 -> is_Some (m !! id)) -> map c_id (doc_hits m l) = l.*1.
Proof.
  induction l as [|[id s] l IH]; intros Hl; [done|]. unfold doc_hits in *. cbn [omap list_omap fst snd fmap list_fmap].
  destruct (Hl id) as [r E]; [by left|]. rewrite E. cbn. rewrite (Hkeyed _ _ E). f_equal. apply IH.
  intros i Hi. apply Hl. by right.
Qed.

Lemma page_hits k l : NoDup l.*1 -> 0 <= k -> page_of m k (doc_hits m (truncate k l)).
Proof.
  intros Hn Hk. split.
  - assert (length (doc_hits m (truncate k l)) <= length (truncate k l))%nat as Hl.
    { pose proof (sublist_length _ _ (doc_hits_ids (truncate k l))) as Hx. by rewrite length_map, length_fmap in Hx. }
    pose proof (truncate_length k l Hk). lia.
  - eapply sublist_NoDup; [|apply doc_hits_ids]. eapply sublist_NoDup; [exact Hn|]. apply fmap_sublist, truncate_sublist.
  - intros c Hc. by apply elem_of_doc_hits in Hc as [_ ?].
Qed.

End keyed.
End answers.

Section refined.
Context `{SerdeNumber} `{Libm} `{TextAnalyzer} `{Ln32} `{LegacyPosting}.
Context {HC : BinaryHeap Scored reverse_key} {HR : BinaryHeap Scored scored_key}.
Variable json_text : Json -> bytes.
Variable now_ms : Z -> Z.
Variable lexical_stats : bool.

Section store.
Context (db : Db) (m : gmap bytes VectorRecord) (log : Log).
Hypothesis HR' : Refines json_text now_ms lexical_stats db m log.
Hypothesis Hs : searchable m.

Let Hids : ids_ok m := rf_ids _ _ _ _ _ _ HR'.
Let Hrows : rows_ok json_text (indexed_fields db) db m := rf_rows _ _ _ _ _ _ HR'.

Lemma refines_keyed : keyed m.
Proof. intros id r Hr. by apply Hids in Hr as [-> _]. Qed.

Lemma doc_exact id : get_doc db id = stored_doc <$> m !! id.
Proof. by apply (rows_ok_doc json_text (indexed_fields db)). Qed.

Lemma hydrate_record h : hydrate db h = (fun r => doc_hit r h.2) <$> m !! h.1.
Proof. unfold hydrate. rewrite doc_exact. by destruct (m !! h.1). Qed.
Lemma hydrate_hits l : omap (hydrate db) l = doc_hits m l.
Proof.
  unfold doc_hits. apply list_omap_ext, Forall2_same_length_lookup. split; [done|]. intros i x y Hx Hy.
  assert (x = y) as <- by congruence. apply hydrate_record.
Qed.

(** *** The dense scan *)

Lemma dense_scan_exact query k fetch :
  map (fun h => if fetch : bool then default (bare h) (hydrate db h) else bare h) (scan_hits db query k) =
  if fetch then doc_hits m (truncate k (ranked (cosines m query))) else map bare (truncate k (ranked (cosines m query))).
Proof.
  rewrite (scan_hits_exact json_text (indexed_fields db) db m Hids Hrows Hs). destruct fetch; [|done].
  assert (forall id, id ∈ (truncate k (ranked (cosines m query))).*1 -> is_Some (m !! id)) as Hk.
  { intros id Hid. assert (id ∈ (ranked (cosines m query)).*1) as Hr.
    { eapply sublist_subseteq; [apply fmap_sublist, truncate_sublist|done]. }
    apply elem_of_ranked_ids in Hr. unfold cosines in Hr. rewrite lookup_fmap in Hr. by apply fmap_is_Some in Hr. }
  revert Hk. generalize (truncate k (ranked (cosines m query))) as l. induction l as [|h l IH]; intros Hk; [done|].
  unfold doc_hits in *. cbn [map omap list_omap]. rewrite hydrate_record. destruct (Hk h.1) as [r ->]; [by left|].
  cbn. f_equal. apply IH. intros id Hid. apply Hk. by right.
Qed.

(** *** Lexical *)

(** The scores of a query: one contribution per distinct term, the rarest
    first. *)
Definition lexical_scores (params : Bm25Params) (terms : list bytes) : gmap bytes f32 :=
  sum_of m params (infos_of m params terms).

(** What max-score pruning relies on: the accumulators only grow, and the
    summed bounds of the terms not yet scanned bound what they add. *)
Record bounds_hold (params : Bm25Params) (terms : list bytes) : Prop := mkBounds {
  bh_ok : forall a b id s, infos_of m params terms = a ++ b -> sum_of m params a !! id = Some s -> f32_ok s;
  bh_grow : forall a b (id : bytes) s s', infos_of m params terms = a ++ b ->
    sum_of m params a !! id = Some s -> sum_of m params (a ++ b) !! id = Some s' -> f32_key s <= f32_key s';
  bh_bound : forall a b (id : bytes) s, infos_of m params terms = a ++ b ->
    sum_of m params a !! id = None -> sum_of m params (a ++ b) !! id = Some s -> flt (f32_sum (map ti_ub b)) s = false;
}.

Lemma corpus_docs : get_u64 db META_DOC_COUNT = corpus_size m.
Proof. unfold corpus_size. rewrite <- msum_one. apply (co_docs _ _ _ _ (rf_counts _ _ _ _ _ _ HR')). Qed.
Lemma corpus_token_sum : get_u64 db META_TOTAL_TOKENS = corpus_tokens m.
Proof. apply (co_tokens _ _ _ _ (rf_counts _ _ _ _ _ _ HR')). Qed.

Lemma postings_known t (id : bytes) : is_Some (postings_of m t !! id) -> is_Some (m !! id).
Proof. unfold postings_of. rewrite lookup_omap. destruct (m !! id); [by eexists|by intros [??]]. Qed.

Lemma sum_of_known params infos (id : bytes) : is_Some (sum_of m params infos !! id) -> is_Some (m !! id).
Proof.
  intros (c & (i & -> & _)%list_elem_of_fmap & Hc)%sum_scores_dom. unfold info_scores, term_scores in Hc.
  rewrite lookup_fmap in Hc. apply fmap_is_Some in Hc. by eapply postings_known.
Qed.

Lemma sum_of_grows params a b (id : bytes) : is_Some (sum_of m params a !! id) -> is_Some (sum_of m params (a ++ b) !! id).
Proof.
  unfold sum_of. rewrite map_app, !sum_scores_dom. intros (c & Hc & Hi). exists c. split; [|done].
  apply elem_of_app. by left.
Qed.

Lemma kept_self (A : gmap bytes f32) : kept A A = A.
Proof. apply map_eq. intros id. rewrite kept_lookup. by destruct (A !! id). Qed.

Lemma lexical_topk_best params terms k :
  is_Some (get_cf db CF_META META_LEXSTATS) -> lexical_stats = true -> Forall nul_free terms -> 0 <= k ->
  bounds_hold params terms ->
  lexical_topk_blocking db params terms k = Ok (map bare (truncate k (ranked (lexical_scores params terms)))).
Proof.
  intros Hst Hls Ht Hk [Hok Hgrow Hbound]. destruct (decide (k = 0)) as [->|Hk0].
  { unfold lexical_topk_blocking. destruct Hst as [row ->]. rewrite orb_true_r. by rewrite truncate_take. }
  destruct (decide (corpus_size m = 0)) as [Hm|Hm].
  { unfold lexical_topk_blocking. destruct Hst as [row ->]. rewrite corpus_docs, Hm. cbn [Z.eqb orb].
    assert (m = ∅) as Em by (apply map_size_empty_inv; unfold corpus_size in Hm; lia).
    assert (lexical_scores params terms = ∅) as ->; [|by rewrite truncate_ranked_empty].
    apply map_eq. intros id. rewrite lookup_empty, eq_None_not_Some. intros [r Hr]%sum_of_known. by rewrite Em in Hr. }
  destruct (lexical_topk_spec json_text (indexed_fields db) db m Hids Hrows Hs corpus_docs corpus_token_sum
    (rf_tdf _ _ _ _ _ _ HR' Hls) params terms k Hst Ht ltac:(lia) Hm) as (dn & pr & E & -> & Hp).
  do 2 f_equal. unfold lexical_scores. rewrite E. destruct (decide (pr = [])) as [->|Hpr].
  { by rewrite app_nil_r, kept_self. }
  destruct (Hp Hpr) as [Hsize Hfl]. apply best_unique; [done|].
  eapply pruned_best; [lia|exact Hsize|exact Hfl|..].
  - intros id s. by apply (Hok dn pr).
  - intros id s. apply (Hok (dn ++ pr) []). by rewrite app_nil_r.
  - intros id. apply sum_of_grows.
  - intros id s s'. by apply Hgrow.
  - intros id s. by apply Hbound.
Qed.
End store.

(** ** The searches of a store *)

Section searches.
Context (s : ConnXRecall) (m : gmap bytes VectorRecord) (log : Log).
Hypothesis Hrefines : Refines json_text now_ms lexical_stats (db s) m log.
Hypothesis Hs : searchable m.

Lemma dense_small query k fetch :
  (ann_len (ann s) < ANN_MIN_CORPUS)%nat ->
  dense_blocking s query k fetch =
  Ok (if fetch then doc_hits m (truncate k (ranked (cosines m query))) else map bare (truncate k (ranked (cosines m query)))).
Proof.
  intros Hn. unfold dense_blocking, dense_hits. rewrite (proj2 (Nat.leb_gt _ _)) by done. cbn [mbind result_bind].
  f_equal. by eapply dense_scan_exact.
Qed.

Lemma best_known k query l : best_of k (cosines m query) l -> map c_id (doc_hits m l) = l.*1.
Proof.
  intros [_ _ Hsc _ _]. eapply doc_hits_known; [by eapply refines_keyed|]. intros id ([i x] & -> & Hin)%list_elem_of_fmap.
  apply Hsc in Hin. unfold cosines in Hin. rewrite lookup_fmap in Hin. apply fmap_Some in Hin as (r & Hr & _). by exists r.
Qed.

Lemma hybrid_small text query k weights mode :
  (ann_len (ann s) < ANN_MIN_CORPUS)%nat -> is_Some (get_cf (db s) CF_META META_LEXSTATS) -> lexical_stats = true ->
  Forall nul_free (analyze text) -> bounds_hold m (params s) (analyze text) -> 0 <= k ->
  let depth := Z.max (sat_mul k FUSION_DEPTH_FACTOR) k in
  hybrid_weighted s text query k weights mode =
  Ok (doc_hits m (truncate k (fuse mode
    [truncate depth (ranked (cosines m query)); truncate depth (ranked (lexical_scores m (params s) (analyze text)))]
    (as_slice weights) RRF_K))).
Proof.
  intros Hn Hst Hls Ht Hb Hk depth. unfold hybrid_weighted. destruct (Z.eqb_spec k 0) as [->|_]; [by rewrite truncate_take|].
  fold depth. rewrite dense_small by done. cbn [mbind result_bind].
  assert ((if bool_decide (analyze text = []) then Ok [] else lexical_topk_blocking (db s) (params s) (analyze text) depth) =
    Ok (map bare (truncate depth (ranked (lexical_scores m (params s) (analyze text)))))) as ->.
  { case_bool_decide as Hnil.
    - rewrite Hnil. change (lexical_scores m (params s) []) with (∅ : gmap bytes f32). by rewrite truncate_ranked_empty.
    - eapply lexical_topk_best; [exact Hrefines|exact Hs|exact Hst|exact Hls|exact Ht|lia|exact Hb]. }
  cbn [mbind result_bind]. rewrite !scored_ids_bare. f_equal. by eapply hydrate_hits.
Qed.
End searches.
End refined.

(** ** Properties *)

Section Properties.
Context `{SerdeNumber} `{Libm} `{TextAnalyzer} `{Ln32} `{LegacyPosting}.
Context {HC : BinaryHeap Scored reverse_key} {HR : BinaryHeap Scored scored_key}.
Variable json_text : Json -> bytes.
Variable now_ms : Z -> Z.
Variable lexical_stats : bool.
Abbreviation refines := (Refines json_text now_ms lexical_stats).

(** below the size at which the graph is used, dense search is exact: it
    answers, with text and metadata, the [k] stored documents of greatest
    cosine to the query, ties by id, none missing and none twice. *)
Theorem dense_search_exact (s : ConnXRecall) (m : gmap bytes VectorRecord) (log : Log) (query : list f32) (k : Z) :
  refines (db s) m log -> searchable m -> (ann_len (ann s) < ANN_MIN_CORPUS)%nat -> 0 <= k ->
  exists l, best_of k (cosines m query) l /\ search s query k = Ok (doc_hits m l) /\ map c_id (doc_hits m l) = l.*1.
Proof.
  intros HR' Hs Hn Hk. pose proof (best_ranked k (cosines m query) Hk) as Hb.
  exists (truncate k (ranked (cosines m query))). split; [done|]. split; [|by eapply best_known].
  unfold search. destruct (Z.eqb_spec k 0) as [->|_]; [by rewrite truncate_take|]. by erewrite dense_small.
Qed.

(** search in a named space answers the [k] documents with a vector there
    whose vector is nearest to the query by cosine. *)
Theorem named_search_exact (db : Db) (m : gmap bytes VectorRecord) (log : Log) (space : bytes) (query : list f32) (k : Z) :
  refines db m log -> searchable m -> nul_free space -> 0 <= k ->
  exists l, best_of k (space_cosines m space query) l /\ named_search db space query k = map bare l.
Proof.
  intros HR' Hs Hsp Hk. exists (truncate k (ranked (space_cosines m space query))). split; [by apply best_ranked|].
  by apply (named_search_exact_hits json_text (indexed_fields db) db m (rf_ids _ _ _ _ _ _ HR') (rf_rows _ _ _ _ _ _ HR') Hs).
Qed.

(** sparse search answers the [k] documents of greatest score among those
    that share a dimension with the query, the score being the sum of the
    products over the query's dimensions in their order, as 32-bit floats add. *)
Theorem sparse_search_exact (db : Db) (m : gmap bytes VectorRecord) (log : Log) (query : SparseVector) (k : Z) :
  refines db m log -> searchable m -> Forall (fun dw => dim_ok dw.1) (sparse_iter query) -> 0 <= k ->
  exists l, best_of k (sparse_scores m query) l /\ sparse_search db query k = Ok (map bare l).
Proof.
  intros HR' Hs Hq Hk. exists (truncate k (ranked (sparse_scores m query))). split; [by apply best_ranked|].
  by apply (sparse_search_exact_hits json_text (indexed_fields db) db m (rf_ids _ _ _ _ _ _ HR') (rf_rows _ _ _ _ _ _ HR') Hs).
Qed.

(** C25: lexical search ranks by BM25. On an estate without document
    frequencies it answers the best [k] by the sum over all query terms,
    repeated ones counted again; on one with them, max-score pruning, which
    scans the rarest terms first and completes the rest by point lookups,
    answers the best [k] by the sum over the distinct terms, provided its
    upper bounds bound the rounded sums. *)
Theorem lexical_search_exact (s : ConnXRecall) (m : gmap bytes VectorRecord) (log : Log) (query : bytes) (k : Z) :
  refines (db s) m log -> searchable m -> Forall nul_free (analyze query) -> 0 <= k ->
  (get_cf (db s) CF_META META_LEXSTATS = None ->
   exists l, best_of k (full_scores m (params s) (analyze query)) l /\ lexical_search s query k = Ok (map bare l)) /\
  (is_Some (get_cf (db s) CF_META META_LEXSTATS) -> lexical_stats = true -> bounds_hold m (params s) (analyze query) ->
   exists l, best_of k (lexical_scores m (params s) (analyze query)) l /\ lexical_search s query k = Ok (map bare l)).
Proof.
  intros HR' Hs Ht Hk. unfold lexical_search. split.
  - intros Hst. eexists. split; [by apply best_ranked|]. destruct (decide (analyze query = [])) as [E|E].
    { rewrite E. cbn [bool_decide orb]. rewrite bool_decide_true by done. change (full_scores m (params s) []) with (∅ : gmap bytes f32). by rewrite truncate_ranked_empty. }
    rewrite (bool_decide_false _ E). cbn [orb]. destruct (Z.eqb_spec k 0) as [->|_]; [by rewrite truncate_take|].
    unfold lexical_topk_blocking. rewrite Hst.
    apply (lexical_blocking_exact json_text (indexed_fields (db s)) (db s) m (rf_ids _ _ _ _ _ _ HR') (rf_rows _ _ _ _ _ _ HR') Hs
      (corpus_docs json_text now_ms lexical_stats _ _ _ HR') (corpus_token_sum json_text now_ms lexical_stats _ _ _ HR')). done.
  - intros Hst Hls Hb. eexists. split; [by apply best_ranked|]. destruct (decide (analyze query = [])) as [E|E].
    { rewrite E. rewrite bool_decide_true by done. change (lexical_scores m (params s) []) with (∅ : gmap bytes f32). by rewrite truncate_ranked_empty. }
    rewrite (bool_decide_false _ E). cbn [orb]. destruct (Z.eqb_spec k 0) as [->|_]; [by rewrite truncate_take|].
    eapply lexical_topk_best; [exact HR'|exact Hs|exact Hst|exact Hls|exact Ht|exact Hk|exact Hb].
Qed.

(** C24: on an estate whose graph is below [ANN_MIN_CORPUS], so that dense
    search scans the stored vectors, and that keeps the lexical statistics,
    hybrid search is the fusion, under the query's mode and weights, of the
    best [depth] by cosine and the best [depth] by BM25, cut to the best [k],
    every one of them a stored document with its text and metadata. Records are
    searchable, the terms of the query free of the separator byte, and the
    bounds of the pruned scorer bound the rounded sums ([bounds_hold]). *)
Theorem hybrid_search_exact (s : ConnXRecall) (m : gmap bytes VectorRecord) (log : Log) (text : bytes) (query : list f32)
  (k : Z) (weights : HybridWeights) (mode : FusionMode) :
  refines (db s) m log -> searchable m -> (ann_len (ann s) < ANN_MIN_CORPUS)%nat ->
  is_Some (get_cf (db s) CF_META META_LEXSTATS) -> lexical_stats = true ->
  Forall nul_free (analyze text) -> bounds_hold m (params s) (analyze text) -> 0 <= k ->
  let depth := Z.max (sat_mul k FUSION_DEPTH_FACTOR) k in
  exists dense lexical,
    best_of depth (cosines m query) dense /\ best_of depth (lexical_scores m (params s) (analyze text)) lexical /\
    let l := doc_hits m (truncate k (fuse mode [dense; lexical] (as_slice weights) RRF_K)) in
    hybrid_weighted s text query k weights mode = Ok l /\ page_of m k l.
Proof.
  intros HR' Hs Hn Hst Hls Ht Hb Hk depth. exists (truncate depth (ranked (cosines m query))).
  exists (truncate depth (ranked (lexical_scores m (params s) (analyze text)))). split; [apply best_ranked; lia|].
  split; [apply best_ranked; lia|]. cbn zeta. split; [by eapply hybrid_small|]. eapply page_hits; [by eapply refines_keyed| |done].
  rewrite fuse_is_votes. apply ranked_NoDup.
Qed.
End Properties.

(** ** A small shelf *)

Section Witnesses.
#[local] Existing Instances plain_number flat_libm list_heap.

(** Words are what spaces separate; the logarithm is its tangent at one. *)
Fixpoint split_words (acc text : bytes) : list bytes :=
  match text with
  | [] => if bool_decide (acc = []) then [] else [acc]
  | c :: text => if c =? 32 then (if bool_decide (acc = []) then [] else [acc]) ++ split_words [] text else split_words (acc ++ [c]) text
  end.
#[local] Instance words : TextAnalyzer := fun t => filter nul_free (split_words [] t).
#[local] Instance tangent_ln : Ln32 := fun x => f32_sub x f32_one.
#[local] Instance no_legacy : LegacyPosting := fun _ => None.

Definition book (id text : bytes) (x y dim w : Z) : VectorRecord :=
  mkVectorRecord id [f32_of_Z x; f32_of_Z y] text {[ str "kind" := JStr text ]}
    (Some (mkSparse [dim; 7] [f32_of_Z w; f32_of_Z 1])) {[ str "title" := [f32_of_Z y; f32_of_Z x] ]} [[f32_of_Z x; f32_of_Z w]; [f32_of_Z y; f32_of_Z 1]] (Some (str "shelf")).
Definition shelf : list VectorRecord :=
  [book (str "a") (str "the green dragon") 1 0 3 2; book (str "b") (str "the old harbour") 0 1 3 5;
   book (str "c") (str "the old green sea") 1 1 4 1; book (str "d") (str "the the sea") (-1) 2 5 2].
Definition shelf_db : Db := (upsert no_text (fun _ => 1) no_clock quotas_default true db0 shelf).1.
Definition shelf_map : gmap bytes VectorRecord * list (ChangeOp * bytes) := spec_run (map AUpsert shelf) (∅, []).
Definition shelf_store : ConnXRecall :=
  mkRecall shelf_db (ann_new (mkAnnConfig 16 64 64 QNone)) Pending.new quotas_default default_params QNone.

Lemma ids_distinct_checked rs :
  bool_decide (NoDup (map vr_id rs)) && forallb (fun r => bool_decide (nul_free (vr_id r))) rs = true ->
  ids_distinct (map AUpsert rs).
Proof.
  rewrite andb_true_iff, bool_decide_eq_true, forallb_forall. intros [Hn Hf]. split.
  - by rewrite aop_ids_upserts.
  - intros r (r' & [= ->] & Hr)%list_elem_of_fmap. by apply list_elem_of_In, Hf, bool_decide_eq_true in Hr.
Qed.

Lemma shelf_refines : Refines no_text no_clock true shelf_db shelf_map.1 shelf_map.2.
Proof.
  unfold shelf_db, shelf_map. destruct (upsert _ _ _ _ _ _ _) as [db res] eqn:E.
  assert (is_ok res = true) as Hok.
  { change res with (db, res).2. rewrite <- E. vm_compute. reflexivity. }
  eapply upsert_outcome in E; [|apply create_refines| |repeat split; vm_compute; reflexivity].
  - destruct res as [g|e]; [apply E|done].
  - apply ids_distinct_checked. vm_compute. reflexivity.
Qed.

(** *** Deciding that records can be searched *)

#[local] Instance f32_ok_dec x : Decision (f32_ok x).
Proof. unfold f32_ok. apply _. Defined.
#[local] Instance dim_ok_dec d : Decision (dim_ok d).
Proof. unfold dim_ok. apply _. Defined.
#[local] Instance multi_ok_dec vs : Decision (multi_ok vs).
Proof. unfold multi_ok. apply _. Defined.

Definition searchable_check (r : VectorRecord) : bool :=
  valid_utf8 (vr_id r) && bool_decide (Forall nul_free (analyze (vr_text r)))
  && bool_decide (Z.of_nat (length (analyze (vr_text r))) < 2 ^ 32)
  && forallb (fun p => bool_decide (nul_free p.1) && bool_decide (Forall f32_ok p.2)) (map_to_list (vr_named r))
  && bool_decide (NoDup (sparse_pairs r).*1) && bool_decide (Forall dim_ok (sparse_pairs r).*1)
  && bool_decide (Forall f32_ok (sparse_pairs r).*2) && bool_decide (Forall f32_ok (vr_embedding r))
  && match vr_collection r with Some c => bool_decide (nul_free c) | None => true end && bool_decide (multi_ok (vr_multi r)).

Lemma searchable_checked (m : gmap bytes VectorRecord) :
  forallb (fun p => searchable_check p.2) (map_to_list m) = true -> searchable m.
Proof.
  rewrite forallb_forall. intros Hc id r Hr%elem_of_map_to_list%list_elem_of_In. apply Hc in Hr. cbn [snd] in Hr.
  unfold searchable_check in Hr. rewrite !andb_true_iff, !bool_decide_eq_true, forallb_forall in Hr.
  destruct Hr as [[[[[[[[[H1 H2] H3] H4] H5] H6] H7] H8] H9] H10]. split; try done.
  - intros n e Hn%elem_of_map_to_list%list_elem_of_In. apply H4 in Hn. by rewrite andb_true_iff, !bool_decide_eq_true in Hn.
  - intros c Hcoll. rewrite Hcoll in H9. by apply bool_decide_eq_true in H9.
Qed.

Lemma shelf_searchable : searchable shelf_map.1.
Proof. apply searchable_checked. vm_compute. reflexivity. Qed.

(** *** Deciding that the bounds bound *)

Definition bounds_check (m : gmap bytes VectorRecord) (params : Bm25Params) (terms : list bytes) : bool :=
  let infos := infos_of m params terms in
  let all := sum_of m params infos in
  forallb (fun n =>
    let acc := sum_of m params (take n infos) in
    forallb (fun p => bool_decide (f32_ok p.2)) (map_to_list acc)
    && forallb (fun p => match acc !! p.1 with
                         | Some s => bool_decide (f32_key s <= f32_key p.2)
                         | None => negb (flt (f32_sum (map ti_ub (drop n infos))) p.2)
                         end) (map_to_list all))
    (seq 0 (S (length infos))).

Lemma bounds_checked m params terms : bounds_check m params terms = true -> bounds_hold m params terms.
Proof.
  unfold bounds_check. rewrite forallb_forall. intros Hc.
  assert (forall a b, infos_of m params terms = a ++ b ->
    (forall (id : bytes) s, sum_of m params a !! id = Some s -> f32_ok s) /\
    (forall (id : bytes) s, sum_of m params (a ++ b) !! id = Some s ->
       match sum_of m params a !! id with
       | Some s0 => f32_key s0 <= f32_key s
       | None => flt (f32_sum (map ti_ub b)) s = false
       end)) as Hsplit.
  { intros a b E. specialize (Hc (length a)). rewrite E, take_app_length, drop_app_length, length_app in Hc.
    rewrite in_seq, andb_true_iff, !forallb_forall in Hc. destruct Hc as [H1 H2]; [lia|]. split.
    - intros id s Hs%elem_of_map_to_list%list_elem_of_In. apply H1 in Hs. by apply bool_decide_eq_true in Hs.
    - intros id s Hs%elem_of_map_to_list%list_elem_of_In. apply H2 in Hs. cbn [fst snd] in Hs.
      destruct (sum_of m params a !! id); [by apply bool_decide_eq_true in Hs|by apply negb_true_iff in Hs]. }
  split.
  - intros a b id s E. by apply (Hsplit a b E).
  - intros a b id s s' E Ha Hb. apply (Hsplit a b E) in Hb. by rewrite Ha in Hb.
  - intros a b id s E Ha Hb. apply (Hsplit a b E) in Hb. by rewrite Ha in Hb.
Qed.

Lemma dense_search_exact_witness :
  exists l, best_of 2 (cosines shelf_map.1 [f32_of_Z 1; f32_of_Z 0]) l /\
    search shelf_store [f32_of_Z 1; f32_of_Z 0] 2 = Ok (doc_hits shelf_map.1 l) /\
    map c_id (doc_hits shelf_map.1 l) = l.*1.
Proof.
  apply (dense_search_exact no_text no_clock true shelf_store shelf_map.1 shelf_map.2);
    [apply shelf_refines|apply shelf_searchable|cbn; unfold ANN_MIN_CORPUS; lia|lia].
Defined.

Lemma named_search_exact_witness :
  exists l, best_of 2 (space_cosines shelf_map.1 (str "title") [f32_of_Z 1; f32_of_Z 0]) l /\
    named_search shelf_db (str "title") [f32_of_Z 1; f32_of_Z 0] 2 = map bare l.
Proof.
  apply (named_search_exact no_text no_clock true shelf_db shelf_map.1 shelf_map.2);
    [apply shelf_refines|apply shelf_searchable|refine (bool_decide_eq_true_1 _ _); vm_compute; reflexivity|lia].
Defined.

Definition wanted_dims : SparseVector := mkSparse [7; 3] [f32_of_Z 1; f32_of_Z 1].
Lemma sparse_search_exact_witness :
  exists l, best_of 2 (sparse_scores shelf_map.1 wanted_dims) l /\ sparse_search shelf_db wanted_dims 2 = Ok (map bare l).
Proof.
  apply (sparse_search_exact no_text no_clock true shelf_db shelf_map.1 shelf_map.2);
    [apply shelf_refines|apply shelf_searchable| |lia].
  refine (bool_decide_eq_true_1 _ _). vm_compute. reflexivity.
Defined.

(** The common word is pruned here: its postings are never scanned. *)
Example common_word_pruned :
  let infos := infos_of shelf_map.1 default_params (analyze (str "the dragon")) in
  match scan_terms shelf_db default_params (avgdl_of shelf_map.1) 1 infos ∅ f32_zero with
  | Ok (_, pruned) => map ti_term pruned = [str "the"]
  | Err _ => False
  end.
Proof. vm_compute. reflexivity. Qed.

Lemma dragon_words : Forall nul_free (analyze (str "the dragon")).
Proof. refine (bool_decide_eq_true_1 _ _). vm_compute. reflexivity. Qed.
Lemma dragon_bounds : bounds_hold shelf_map.1 default_params (analyze (str "the dragon")).
Proof. apply bounds_checked. vm_compute. reflexivity. Qed.
Lemma shelf_stats : is_Some (get_cf shelf_db CF_META META_LEXSTATS).
Proof. refine (bool_decide_eq_true_1 _ _). vm_compute. reflexivity. Qed.

Lemma lexical_search_exact_witness :
  (get_cf (db shelf_store) CF_META META_LEXSTATS = None ->
   exists l, best_of 1 (full_scores shelf_map.1 default_params (analyze (str "the dragon"))) l /\
     lexical_search shelf_store (str "the dragon") 1 = Ok (map bare l)) /\
  (is_Some (get_cf shelf_db CF_META META_LEXSTATS) -> true = true ->
   bounds_hold shelf_map.1 default_params (analyze (str "the dragon")) ->
   exists l, best_of 1 (lexical_scores shelf_map.1 default_params (analyze (str "the dragon"))) l /\
     lexical_search shelf_store (str "the dragon") 1 = Ok (map bare l)).
Proof.
  apply (lexical_search_exact no_text no_clock true shelf_store shelf_map.1 shelf_map.2);
    [apply shelf_refines|apply shelf_searchable|apply dragon_words|lia].
Defined.

Lemma hybrid_search_exact_witness :
  exists dense lexical,
    best_of 8 (cosines shelf_map.1 [f32_of_Z 1; f32_of_Z 0]) dense /\
    best_of 8 (lexical_scores shelf_map.1 default_params (analyze (str "the dragon"))) lexical /\
    let l := doc_hits shelf_map.1 (truncate 2 (fuse Rrf [dense; lexical] (as_slice weights_default) RRF_K)) in
    hybrid_weighted shelf_store (str "the dragon") [f32_of_Z 1; f32_of_Z 0] 2 weights_default Rrf = Ok l /\ page_of shelf_map.1 2 l.
Proof.
  apply (hybrid_search_exact no_text no_clock true shelf_store shelf_map.1 shelf_map.2 (str "the dragon") [f32_of_Z 1; f32_of_Z 0] 2 weights_default Rrf);
    [apply shelf_refines|apply shelf_searchable|cbn; unfold ANN_MIN_CORPUS; lia|apply shelf_stats|done|apply dragon_words|apply dragon_bounds|lia].
Defined.

(** a query that repeats a word is ranked apart by the two scorers: the
    full one adds the word's contribution once per occurrence, the pruned one
    once, so the estate with document frequencies answers another document. *)
Theorem repeated_terms_rank_apart :
  let query := str "green green green harbour" in
  match lexical_search shelf_store query 1, lexical_blocking shelf_db default_params (analyze query) 1 with
  | Ok l, Ok l' => map c_id l = [str "b"] /\ map c_id l' = [str "a"]
  | _, _ => False
  end.
Proof. vm_compute. done. Qed.
End Witnesses.
