(* ===== verification/PayloadIndex.v ===== *)
(** * Creating and rebuilding payload indexes (crates/connxism/src/estate.rs)

    The backfill of a new index from the stored documents, and the rebuild
    that sweeps and refills one. *)
From S2P Require Import Prelude Floats ByteOrder Utf8 Json RroTime Geo Query Keys KeysFacts Model.
From S2P Require Import Kv Store StoreFacts StoreTx StoreSpec.
#[local] Set Default Goal Selector "!".
#[local] Set Warnings "-clear-no-such-hyp".
Local Open Scope Z_scope.

Section payload_index.
Context `{SerdeNumber}.
Variable json_text : Json -> bytes.

(** The put of one document's row, where it has the field. Every row of the
    documents family is a document. *)
Definition index_put (field : bytes) (row : Row) : option Op :=
  match row with
  | RDoc doc =>
      (fun value => OpPut CF_PIDX (pidx_key json_text field value (sd_id doc)) (RBytes []))
        <$> sd_metadata doc !! field
  | _ => None
  end.

(** The loop over the documents: a full batch of 4096 rows is written out. *)
Fixpoint backfill (field : bytes) (docs : list (bytes * Row)) (db : Db) (batch : Batch) (rows : Z) : Db :=
  match docs with
  | [] => db_write db batch
  | (_, v) :: docs =>
      match index_put field v with
      | Some op =>
          let batch := batch ++ [op] in
          let rows := rows + 1 in
          if rows mod 4096 =? 0 then backfill field docs (db_write db batch) [] rows
          else backfill field docs db batch rows
      | None => backfill field docs db batch rows
      end
  end.

(** [Estate::create_payload_index] *)
Definition create_payload_index (db : Db) (field : bytes) : Db :=
  let fields := indexed_fields db in
  if bool_decide (field ∈ fields) then db
  else
    let db := put_cf db CF_META META_PIDX (RNames (fields ++ [field])) in
    backfill field (iter_all db CF_DOCS) db [] 0.

(** [Estate::rebuild_payload_index] *)
Definition rebuild_payload_index (db : Db) (field : bytes) : result RroError Db :=
  if negb (bool_decide (field ∈ indexed_fields db)) then Err (NoSuchIndex field)
  else
    let prefix := pidx_field_prefix field in
    let sweep := map (fun p => OpDelete CF_PIDX p.1) (scan_prefix db CF_PIDX prefix) in
    Ok (db_write db (sweep ++ omap (fun p => index_put field p.2) (iter_all db CF_DOCS))).
End payload_index.

(** ** Batches of index rows *)

Section index_batches.
Context `{SerdeNumber} `{Libm} `{TextAnalyzer} (json_text : Json -> bytes).

Definition marks (rows : list bytes) : Batch := map (fun k => OpPut CF_PIDX k (RBytes [])) rows.

Lemma marks_app rows rows' : marks (rows ++ rows') = marks rows ++ marks rows'.
Proof. apply map_app. Qed.

Lemma apply_marks rows db cf k :
  apply_ops (marks rows) db cf !! k =
  if decide (cf = CF_PIDX /\ k ∈ rows) then Some (RBytes []) else db cf !! k.
Proof.
  induction rows as [|x rows IH] using rev_ind; [cbn; by rewrite decide_False by (by intros [_ ?%elem_of_nil])|].
  rewrite marks_app, apply_ops_app. cbn. rewrite lookup_put_cf, IH.
  destruct (decide (cf = CF_PIDX /\ k = x)) as [[-> ->]|Hn].
  - rewrite decide_True; [done|]. split; [done|]. apply elem_of_app. right. by left.
  - destruct (decide (cf = CF_PIDX /\ k ∈ rows)) as [[-> Hk]|Hn'].
    + rewrite decide_True; [done|]. split; [done|]. apply elem_of_app. by left.
    + rewrite decide_False; [done|]. rewrite elem_of_app, list_elem_of_singleton. tauto.
Qed.

(** The index rows of [field] over some document rows. *)
Definition field_rows (field : bytes) (docs : list (bytes * Row)) : list bytes :=
  omap (fun p => op_key <$> index_put json_text field p.2) docs.

Lemma index_put_mark field row op : index_put json_text field row = Some op -> [op] = marks [op_key op].
Proof.
  unfold index_put. destruct row as [|d| | | | | | | |]; try done. destruct (sd_metadata d !! field); [|done].
  by intros [= <-].
Qed.

Lemma puts_marks field docs :
  omap (fun p => index_put json_text field p.2) docs = marks (field_rows field docs).
Proof.
  induction docs as [|[k v] docs IH]; [done|]. unfold field_rows. cbn [omap list_omap snd].
  destruct (index_put json_text field v) as [op|] eqn:E; [|done]. cbn [fmap option_fmap option_map].
  apply index_put_mark in E. injection E as E. cbn. unfold field_rows in IH. f_equal; [done|apply IH].
Qed.

Lemma write_marks rows db cf : db_write db (marks rows) cf = apply_ops (marks rows) db cf.
Proof. apply db_write_plain, df_deltas_none. by intros k d (x & [=] & _)%list_elem_of_fmap. Qed.

(** However the batches fall, the backfill writes every row once. *)
Lemma backfill_rows field docs db rows n cf :
  backfill json_text field docs db (marks rows) n cf =
  apply_ops (marks (rows ++ field_rows field docs)) db cf.
Proof.
  revert db rows n. induction docs as [|[k v] docs IH]; intros db rows n; cbn [backfill].
  - unfold field_rows. cbn. rewrite app_nil_r. apply write_marks.
  - unfold field_rows. cbn [omap list_omap snd]. destruct (index_put json_text field v) as [op|] eqn:E; [|apply IH].
    rewrite (index_put_mark _ _ _ E). cbn [fmap option_fmap option_map].
    replace (marks rows ++ marks [op_key op]) with (marks (rows ++ [op_key op])) by (by rewrite marks_app).
    fold (field_rows field docs). change (op_key op :: field_rows field docs) with ([op_key op] ++ field_rows field docs).
    rewrite app_assoc. destruct (_ =? 0); [|apply IH].
    etransitivity; [apply (IH _ [])|]. cbn [app]. rewrite (marks_app (rows ++ [op_key op])), apply_ops_app.
    apply apply_ops_cf, write_marks.
Qed.
End index_batches.

(** ** Indexes of a refined store *)

Section index_refines.
Context `{SerdeNumber} `{Libm} `{TextAnalyzer}.
Variable json_text : Json -> bytes.
Variable now_ms : Z -> Z.
Variable lexical_stats : bool.
Local Abbreviation refines := (Refines json_text now_ms lexical_stats).

Lemma doc_pidx_row fields r k :
  doc_rows json_text fields r CF_PIDX !! k =
  if decide (k ∈ pidx_rows json_text fields (vr_id r) (vr_metadata r)) then Some (RBytes []) else None.
Proof.
  rewrite doc_rows_pidx. fold (marks (pidx_rows json_text fields (vr_id r) (vr_metadata r))). rewrite apply_marks.
  destruct (decide (k ∈ _)); [by rewrite decide_True|]. rewrite decide_False by tauto. apply lookup_empty.
Qed.

Lemma doc_rows_fields fields fields' r cf :
  cf <> CF_PIDX -> doc_rows json_text fields r cf = doc_rows json_text fields' r cf.
Proof.
  intros Hcf. unfold doc_rows. rewrite apply_ops_filter, (apply_ops_filter (record_puts _ fields' r)). f_equal.
  unfold record_puts, Batch. by rewrite !list.filter_app, !pidx_puts_filter.
Qed.

(** The rows a backfill writes: one per record with the field. *)
Lemma elem_of_field_rows (fields : list bytes) (db : Db) (m : gmap bytes VectorRecord) (field k : bytes) :
  ids_ok m -> rows_ok json_text fields db m ->
  k ∈ field_rows json_text field (iter_all db CF_DOCS) <->
  exists id r v, m !! id = Some r /\ vr_metadata r !! field = Some v /\ k = pidx_key json_text field v id.
Proof.
  intros Hids Hrows. unfold field_rows. rewrite list_elem_of_omap. split.
  - intros ([id row] & Hin & Hk). apply elem_of_btree_iter in Hin. rewrite (Hrows CF_DOCS id eq_refl) in Hin.
    destruct (m !! owner CF_DOCS id) as [r|] eqn:Em; [|done]. cbn in Hin, Em.
    pose proof (Hids _ _ Em) as [Eid _]. rewrite <- Eid, doc_rows_docs in Hin. injection Hin as <-.
    cbn in Hk. destruct (vr_metadata r !! field) as [v|] eqn:Ev; [|done]. injection Hk as <-.
    exists id, r, v. split_and!; [done|done|]. cbn. by rewrite Eid.
  - intros (id & r & v & Hm & Hv & ->). exists (id, RDoc (stored_doc r)). split.
    + apply elem_of_btree_iter. rewrite (Hrows CF_DOCS id eq_refl). cbn. rewrite Hm. cbn.
      destruct (Hids _ _ Hm) as [<- _]. apply doc_rows_docs.
    + cbn. rewrite Hv. cbn. by destruct (Hids _ _ Hm) as [-> _].
Qed.

Lemma elem_of_pidx_rows (fields : list bytes) (id : bytes) (md : Metadata) (k : bytes) :
  k ∈ pidx_rows json_text fields id md <->
  exists f v, f ∈ fields /\ md !! f = Some v /\ k = pidx_key json_text f v id.
Proof.
  unfold pidx_rows. rewrite list_elem_of_omap. split.
  - intros (f & Hf & Hk). destruct (md !! f) as [v|] eqn:Ev; [|done]. injection Hk as <-. by exists f, v.
  - intros (f & v & Hf & Hv & ->). exists f. by rewrite Hv.
Qed.

Lemma refines_transfer (fields : list bytes) (db db' : Db) (m : gmap bytes VectorRecord) log :
  refines db m log -> indexed_fields db' = fields -> rows_ok json_text fields db' m ->
  (forall cf, data_cf cf = false -> cf <> CF_META -> db' cf = db cf) ->
  (forall k, k <> META_PIDX -> db' CF_META !! k = db CF_META !! k) -> refines db' m log.
Proof.
  intros [R1 R2 R3 R4 R5 R6] Hf Hr Hcf Hk.
  assert (forall k, k <> META_PIDX -> get_u64 db' k = get_u64 db k) as Hu.
  { intros k Hn. unfold get_u64, get_cf. by rewrite Hk. }
  split.
  - done.
  - by rewrite Hf.
  - unfold get_shapes, get_cf in *. rewrite !Hu, Hk by key_ne. done.
  - intros Hl t. unfold tdf in *. rewrite Hcf by done. by apply R4.
  - destruct R5 as [A B]. split; rewrite ?Hcf by done; done.
  - by rewrite Hu by key_ne.
Qed.

Lemma pidx_key_owner (m : gmap bytes VectorRecord) field v id :
  ids_ok m -> is_Some (m !! id) -> owner CF_PIDX (pidx_key json_text field v id) = id.
Proof.
  intros Hids [r Hm]. unfold pidx_key. rewrite app_comm_cons, app_assoc. apply owner_sep; try done.
  by apply (Hids id r).
Qed.

(** The rows of the new index complete those of the others. *)
Lemma rows_ok_index (fields : list bytes) (db db' : Db) (m : gmap bytes VectorRecord) (field : bytes) :
  ids_ok m -> rows_ok json_text fields db m ->
  (forall cf k, data_cf cf = true -> db' cf !! k =
     if decide (cf = CF_PIDX /\ k ∈ field_rows json_text field (iter_all db CF_DOCS)) then Some (RBytes [])
     else db cf !! k) ->
  rows_ok json_text (fields ++ [field]) db' m.
Proof.
  intros Hids Hrows Hdb cf k Hcf. rewrite Hdb, (Hrows cf k Hcf) by done.
  pose proof (elem_of_field_rows fields db m field k Hids Hrows) as Hnew.
  destruct (decide (cf = CF_PIDX)) as [->|Hn].
  - destruct (m !! owner CF_PIDX k) as [r|] eqn:Em; cbn [mbind option_bind].
    + rewrite !doc_pidx_row. destruct (Hids _ _ Em) as [Eid _].
      assert (k ∈ pidx_rows json_text (fields ++ [field]) (vr_id r) (vr_metadata r) <->
              k ∈ field_rows json_text field (iter_all db CF_DOCS) \/
              k ∈ pidx_rows json_text fields (vr_id r) (vr_metadata r)) as E.
      { rewrite Hnew, !elem_of_pidx_rows. split.
        - intros (f & v & [Hf|Hf%list_elem_of_singleton]%elem_of_app & Hv & Hk); [right; by exists f, v|].
          subst f. left. exists (vr_id r), r, v. split_and!; [by rewrite Eid at 1|done|done].
        - intros [(id & r' & v & Hm & Hv & Hk)|(f & v & Hf & Hv & Hk)].
          + rewrite Hk, (pidx_key_owner m), Hm in Em; [|done|by exists r']. injection Em as <-.
            exists field, v. rewrite elem_of_app. split; [right; by left|]. split; [done|].
            by destruct (Hids _ _ Hm) as [-> _].
          + exists f, v. rewrite elem_of_app. tauto. }
      repeat case_decide; tauto || done.
    + rewrite decide_False; [done|]. intros [_ (id & r & v & Hm & _ & ->)%Hnew].
      rewrite (pidx_key_owner m), Hm in Em; [done|done|by exists r].
  - rewrite decide_False by tauto. destruct (m !! owner cf k) as [r|]; [|done]. cbn [mbind option_bind].
    by rewrite (doc_rows_fields (fields ++ [field]) fields).
Qed.

Lemma write_marks_after sweep rows db cf :
  (forall op, op ∈ sweep -> no_merge op) ->
  db_write db (sweep ++ marks rows) cf = apply_ops (marks rows) (apply_ops sweep db) cf.
Proof.
  intros Hs. rewrite db_write_plain; [by rewrite <- apply_ops_app|]. apply df_deltas_none.
  intros k d [Hop%Hs|(x & [=] & _)%list_elem_of_fmap]%elem_of_app. done.
Qed.

(** The sweep empties the rows under the field's prefix and no other. *)
Lemma sweep_rows (db : Db) (p : bytes) cf k :
  apply_ops (map (fun q => OpDelete CF_PIDX q.1) (scan_prefix db CF_PIDX p)) db cf !! k =
  if decide (cf = CF_PIDX /\ p `prefix_of` k) then None else db cf !! k.
Proof.
  destruct (decide (cf = CF_PIDX /\ p `prefix_of` k)) as [[-> Hp]|Hn].
  - destruct (db CF_PIDX !! k) as [v|] eqn:Ek.
    + apply apply_deletes; [by intros op (q & -> & _)%list_elem_of_fmap|].
      apply list_elem_of_fmap. exists (k, v). split; [done|]. by apply elem_of_scan_prefix.
    + apply apply_deletes_none; [|done]. by intros op (q & -> & _)%list_elem_of_fmap.
  - apply apply_ops_miss. intros op ([k' v'] & -> & [_ Hp]%elem_of_scan_prefix)%list_elem_of_fmap (E & E' & _).
    cbn in E, E'. subst. by apply Hn.
Qed.

(** Every row of the field's index belongs to a record with the field. *)
Lemma index_row_field (fields : list bytes) (db : Db) (m : gmap bytes VectorRecord) (field k : bytes) :
  ids_ok m -> rows_ok json_text fields db m -> Forall nul_free fields -> field ∈ fields ->
  prefix field `prefix_of` k ->
  db CF_PIDX !! k = if decide (k ∈ field_rows json_text field (iter_all db CF_DOCS)) then Some (RBytes []) else None.
Proof.
  intros Hids Hrows Hnul Hf Hp. rewrite (Hrows CF_PIDX k eq_refl). rewrite Forall_forall in Hnul.
  pose proof (elem_of_field_rows fields db m field k Hids Hrows) as Hnew.
  destruct (m !! owner CF_PIDX k) as [r|] eqn:Em; cbn [mbind option_bind].
  - rewrite doc_pidx_row. destruct (Hids _ _ Em) as [Eid _].
    assert (k ∈ pidx_rows json_text fields (vr_id r) (vr_metadata r) <->
            k ∈ field_rows json_text field (iter_all db CF_DOCS)) as E.
    { rewrite Hnew, elem_of_pidx_rows. split.
      - intros (f & v & Hf' & Hv & Hk). assert (field = f) as <-.
        { rewrite Hk in Hp. unfold pidx_key in Hp. apply prefix_sep in Hp; auto. }
        exists (vr_id r), r, v. split_and!; [by rewrite Eid at 1|done|done].
      - intros (id & r' & v & Hm & Hv & Hk).
        rewrite Hk, (pidx_key_owner m), Hm in Em; [|done|by exists r']. injection Em as <-.
        exists field, v. split_and!; [done..|]. by destruct (Hids _ _ Hm) as [-> _]. }
    repeat case_decide; tauto || done.
  - rewrite decide_False; [done|]. intros (id & r & v & Hm & _ & ->)%Hnew.
    rewrite (pidx_key_owner m), Hm in Em; [done|done|by exists r].
Qed.

Lemma create_index_refines (db : Db) (m : gmap bytes VectorRecord) (log : list (ChangeOp * bytes))
  (field : bytes) :
  refines db m log ->
  let db' := create_payload_index json_text db field in
  refines db' m log /\
  indexed_fields db' =
    (if bool_decide (field ∈ indexed_fields db) then indexed_fields db else indexed_fields db ++ [field]).
Proof.
  intros HR db'. unfold db', create_payload_index. case_bool_decide as Hf; [done|].
  set (db1 := put_cf db CF_META META_PIDX (RNames (indexed_fields db ++ [field]))).
  set (db2 := backfill _ _ _ _ _ _).
  assert (forall cf, db2 cf = apply_ops (marks (field_rows json_text field (iter_all db1 CF_DOCS))) db1 cf) as E.
  { intros cf. unfold db2. etransitivity; [apply (backfill_rows json_text field _ db1 [])|done]. }
  assert (forall cf, cf <> CF_META -> db1 cf = db cf) as Ecf.
  { intros cf Hcf. unfold db1, put_cf, upd_cf. by rewrite decide_False. }
  assert (forall k, db2 CF_META !! k = db1 CF_META !! k) as Emeta.
  { intros k. rewrite E, apply_marks. by rewrite decide_False by (by intros [? _]). }
  assert (indexed_fields db2 = indexed_fields db ++ [field]) as Hidx.
  { unfold indexed_fields, get_names, get_cf at 1. rewrite Emeta. unfold db1. rewrite lookup_put_cf.
    by rewrite decide_True. }
  split; [|done]. apply (refines_transfer (indexed_fields db ++ [field]) db); [done|done| | |].
  - apply (rows_ok_index (indexed_fields db) db); [apply HR..|]. intros cf k Hcf. rewrite E, apply_marks.
    unfold iter_all.
    rewrite (Ecf CF_DOCS), (Ecf cf); [done|by intros ->|done].
  - intros cf Hcf Hm. apply map_eq. intros k. rewrite E, apply_marks, decide_False by (intros [-> _]; done).
    by rewrite Ecf.
  - intros k Hk. rewrite Emeta. unfold db1. rewrite lookup_put_cf. by rewrite decide_False by (by intros [_ ?]).
Qed.
End index_refines.

(** ** What creating and rebuilding an index promise *)

Section Properties.
Context `{SerdeNumber} `{Libm} `{TextAnalyzer}.
Variable json_text : Json -> bytes.
Variable now_ms : Z -> Z.
Variable lexical_stats : bool.

(** creating an index over a field registers the field, once, and leaves
    the store holding exactly the rows of the same records, those of the new
    index included, however the backfill's batches of 4096 rows fall. *)
Theorem create_payload_index_refines (db : Db) (m : gmap bytes VectorRecord) (log : list (ChangeOp * bytes))
  (field : bytes) :
  Refines json_text now_ms lexical_stats db m log ->
  let db' := create_payload_index json_text db field in
  Refines json_text now_ms lexical_stats db' m log /\
  indexed_fields db' =
    (if bool_decide (field ∈ indexed_fields db) then indexed_fields db else indexed_fields db ++ [field]).
Proof. apply create_index_refines. Qed.

(** rebuilding an index restores it: whatever rows stand under the
    field's prefix, the rebuilt store holds exactly the rows of the records
    again; an unindexed field is an error. *)
Theorem rebuild_payload_index_repairs (db damaged : Db) (m : gmap bytes VectorRecord)
  (log : list (ChangeOp * bytes)) (field : bytes) :
  Refines json_text now_ms lexical_stats db m log -> Forall nul_free (indexed_fields db) ->
  (forall cf, cf <> CF_PIDX -> damaged cf = db cf) ->
  (forall k, ~ prefix field `prefix_of` k -> damaged CF_PIDX !! k = db CF_PIDX !! k) ->
  if bool_decide (field ∈ indexed_fields db) then
    exists db', rebuild_payload_index json_text damaged field = Ok db' /\
      Refines json_text now_ms lexical_stats db' m log
  else rebuild_payload_index json_text damaged field = Err (NoSuchIndex field).
Proof.
  intros HR Hnul Hcf Hk. unfold rebuild_payload_index.
  replace (indexed_fields damaged) with (indexed_fields db)
    by (unfold indexed_fields, get_names, get_cf; by rewrite Hcf).
  case_bool_decide as Hf; [|done]. cbn [negb]. eexists. split; [reflexivity|].
  unfold iter_all. rewrite puts_marks, Hcf by done. set (sweep := map _ _).
  assert (forall op, op ∈ sweep -> no_merge op) as Hs by (by intros op (q & -> & _)%list_elem_of_fmap).
  assert (forall cf k, db_write damaged (sweep ++ marks (field_rows json_text field (iter_all db CF_DOCS))) cf !! k =
    db cf !! k) as E.
  { intros cf k. rewrite write_marks_after, apply_marks by done. unfold sweep. rewrite sweep_rows. unfold pidx_field_prefix.
    destruct (decide (cf = CF_PIDX)) as [->|Hn].
    - destruct (decide (prefix field `prefix_of` k)) as [Hp|Hp].
      + rewrite (index_row_field json_text (indexed_fields db) db m field k) by (done || apply HR).
        repeat case_decide; tauto || done.
      + rewrite (decide_False (P := _ /\ _ `prefix_of` _)) by tauto. rewrite Hk by done. destruct (decide _) as [[_ Hin]|]; [|done].
        apply (elem_of_field_rows json_text (indexed_fields db) db m) in Hin as (id & r & v & _ & _ & ->); [|apply HR..].
        destruct Hp. unfold pidx_key, prefix. exists (encode_pidx_value json_text v ++ SEP :: id). by rewrite <- app_assoc.
    - rewrite !decide_False by tauto. by rewrite Hcf. }
  apply (refines_transfer json_text now_ms lexical_stats (indexed_fields db) db); [done| | | |].
  - unfold indexed_fields, get_names, get_cf. by rewrite E.
  - intros cf k Hd. rewrite E. by apply HR.
  - intros cf _ _. by apply map_eq.
  - intros k _. apply E.
Qed.
End Properties.

(** ** Concrete runs *)

Section Witnesses.
#[local] Existing Instances plain_number flat_libm one_token.

Definition db_kind : Db := create_payload_index no_text db1 (str "kind").

Lemma db_kind_refines : Refines no_text no_clock true db_kind m1.1 m1.2.
Proof. apply create_index_refines, db1_refines. Qed.

Lemma create_payload_index_refines_witness :
  size (db_kind CF_PIDX) = 2%nat /\
  Refines no_text no_clock true db_kind m1.1 m1.2 /\
  indexed_fields db_kind =
    (if bool_decide (str "kind" ∈ indexed_fields db1) then indexed_fields db1 else indexed_fields db1 ++ [str "kind"]).
Proof.
  split; [vm_compute; reflexivity|].
  apply (create_payload_index_refines no_text no_clock true db1 m1.1 m1.2 (str "kind")), db1_refines.
Defined.

Lemma rebuild_payload_index_repairs_witness :
  let damaged := delete_cf db_kind CF_PIDX (pidx_key no_text (str "kind") (JStr (str "note")) (str "cat")) in
  size (damaged CF_PIDX) = 1%nat /\
  if bool_decide (str "kind" ∈ indexed_fields db_kind) then
    exists db', rebuild_payload_index no_text damaged (str "kind") = Ok db' /\
      Refines no_text no_clock true db' m1.1 m1.2
  else rebuild_payload_index no_text damaged (str "kind") = Err (NoSuchIndex (str "kind")).
Proof.
  intros damaged. split; [vm_compute; reflexivity|].
  apply (rebuild_payload_index_repairs no_text no_clock true db_kind); [apply db_kind_refines| | |].
  - refine (bool_decide_eq_true_1 _ _). vm_compute. reflexivity.
  - intros cf Hcf. unfold damaged, delete_cf, upd_cf. by rewrite decide_False.
  - intros k Hk. unfold damaged. rewrite lookup_delete_cf. rewrite decide_False; [done|]. intros [_ ->].
    apply Hk. refine (bool_decide_eq_true_1 _ _). vm_compute. reflexivity.
Defined.
End Witnesses.
