(* ===== verification/FilterExec.v ===== *)
(** * Filters answered from the payload indexes (crates/connxism/src/filter.rs)

    A filter whose fields are all indexed is resolved to the exact set of
    matching ids by ordered scans of the [pidx] family. *)
From Stdlib Require Import SpecFloat.
From S2P Require Import Prelude Floats ByteOrder Utf8 Json RroTime Geo Query Keys KeysFacts Model.
From S2P Require Import Kv Store StoreFacts StoreTx StoreSpec PayloadIndex.
#[local] Set Default Goal Selector "!".
#[local] Set Warnings "-clear-no-such-hyp".
Local Open Scope Z_scope.

(** What the body of a scan does with a key: [break], [continue], or insert
    an id. *)
Inductive verdict : Type := VBreak | VSkip | VTake (id : bytes).

Section filter_exec.
Context `{SerdeNumber} `{Libm}.
Variable json_text : Json -> bytes.

Fixpoint scan_loop (body : bytes -> verdict) (rows : list (bytes * Row)) : gset bytes :=
  match rows with
  | [] => ∅
  | (k, _) :: rows =>
      match body k with
      | VBreak => ∅
      | VSkip => scan_loop body rows
      | VTake id => {[id]} ∪ scan_loop body rows
      end
  end.

(** [k.get(i..i + 8)] *)
Definition slice8 (k : bytes) (i : nat) : option bytes :=
  if (i + 8 <=? length k)%nat then Some (take 8 (drop i k)) else None.

Definition scan_value (db : Db) (field : bytes) (value : Json) : gset bytes :=
  let p := pidx_value_prefix json_text field value in
  scan_loop (fun k =>
    if starts_with p k then VTake (from_utf8_lossy (drop (length p) k)) else VBreak)
    (iter_from db CF_PIDX p).

(** [o.map(|b| test).unwrap_or(false)] *)
Definition violates {A} (o : option A) (test : A -> bool) : bool :=
  match o with Some b => test b | None => false end.

(** [gte.or(gt).unwrap_or(least)] *)
Definition lower_bound {A} (gte gt : option A) (least : A) : A :=
  match gte with Some x => x | None => default least gt end.

(** The tail of a typed row: separator, then the id. *)
Definition take_id (k : bytes) (i : nat) : verdict :=
  match k !! i with
  | Some sep => if sep =? SEP then VTake (from_utf8_lossy (drop (S i) k)) else VSkip
  | None => VSkip
  end.

Definition range_body (p : bytes) (gt gte lt lte : option f64) (k : bytes) : verdict :=
  if negb (starts_with p k) then VBreak
  else
    match slice8 k (length p) with
    | None => VSkip
    | Some b =>
        let x := decode_f64_sortable b in
        if violates lt (fun b => fge x b) || violates lte (fun b => fgt x b) then VBreak
        else if violates gt (fun b => fle x b) || violates gte (fun b => flt x b) then VSkip
        else take_id k (length p + 8)
    end.

Definition scan_range (db : Db) (field : bytes) (gt gte lt lte : option f64) : gset bytes :=
  let p := pidx_num_prefix field in
  scan_loop (range_body p gt gte lt lte)
    (iter_from db CF_PIDX (p ++ encode_f64_sortable (lower_bound gte gt (S754_infinity true)))).

Definition dt_body (p : bytes) (gt gte lt lte : option Z) (k : bytes) : verdict :=
  if negb (starts_with p k) then VBreak
  else
    match slice8 k (length p) with
    | None => VSkip
    | Some b =>
        let x := decode_i64_sortable b in
        if violates lt (fun b => b <=? x) || violates lte (fun b => b <? x) then VBreak
        else if violates gt (fun b => x <=? b) || violates gte (fun b => x <? b) then VSkip
        else take_id k (length p + 8)
    end.

Definition scan_dt_range (db : Db) (field : bytes) (gt gte lt lte : option Z) : gset bytes :=
  let p := pidx_dt_prefix field in
  scan_loop (dt_body p gt gte lt lte)
    (iter_from db CF_PIDX (p ++ encode_i64_sortable (lower_bound gte gt (- 2 ^ 63)))).

(** The id of a geo row is checked exactly against its document. *)
Definition geo_body (db : Db) (p : bytes) (z_hi : Z) (exact : Condition.Condition) (k : bytes) : verdict :=
  if negb (starts_with p k) then VBreak
  else
    match slice8 k (length p) with
    | None => VSkip
    | Some b =>
        if z_hi <? from_be_bytes b then VBreak
        else
          match take_id k (length p + 8) with
          | VTake id =>
              match get_doc db id with
              | Some doc => if cond_matches exact (sd_metadata doc) then VTake id else VSkip
              | None => VSkip
              end
          | v => v
          end
    end.

Definition scan_geo (db : Db) (field : bytes) (lat_min lon_min lat_max lon_max : f64)
  (exact : Condition.Condition) : gset bytes :=
  let p := pidx_geo_prefix field in
  scan_loop (geo_body db p (morton lat_max lon_max) exact)
    (iter_from db CF_PIDX (p ++ be_bytes 8 (morton lat_min lon_min))).

(** [rposition]: what follows the last separator of the key. *)
Definition scan_field (db : Db) (field : bytes) : gset bytes :=
  let p := pidx_field_prefix field in
  scan_loop (fun k =>
    if starts_with p k then
      if bool_decide (SEP ∈ k) then VTake (from_utf8_lossy (last_segment k)) else VSkip
    else VBreak) (iter_from db CF_PIDX p).

Definition ids_for_condition (db : Db) (c : Condition.Condition) : gset bytes :=
  match c with
  | Condition.Eq key value => scan_value db key value
  | Condition.Any key values => ⋃ (map (scan_value db key) values)
  | Condition.Range key gt gte lt lte => scan_range db key gt gte lt lte
  | Condition.DateRange key gt gte lt lte =>
      scan_dt_range db key (gt ≫= rfc3339_to_epoch_ms) (gte ≫= rfc3339_to_epoch_ms)
        (lt ≫= rfc3339_to_epoch_ms) (lte ≫= rfc3339_to_epoch_ms)
  | Condition.GeoRadius key lat lon radius_m =>
      let '((lat_min, lon_min), (lat_max, lon_max)) := radius_bbox lat lon radius_m in
      scan_geo db key lat_min lon_min lat_max lon_max c
  | Condition.GeoBox key lat_min lon_min lat_max lon_max =>
      scan_geo db key lat_min lon_min lat_max lon_max c
  | Condition.Exists key => scan_field db key
  end.

(** The loop over [must], [None] before the first condition; [inr] is the
    early return of an empty intersection. *)
Fixpoint must_loop (db : Db) (cs : list Condition.Condition) (acc : option (gset bytes))
  : option (gset bytes) + unit :=
  match cs with
  | [] => inl acc
  | c :: cs =>
      let ids := ids_for_condition db c in
      let acc := match acc with None => ids | Some prev => prev ∩ ids end in
      if bool_decide (acc = ∅) then inr tt else must_loop db cs (Some acc)
  end.

Definition sort_ids (s : gset bytes) : list bytes := merge_sort ble (elements s).

Definition ids_where (db : Db) (f : Filter) : option (list bytes) :=
  if bool_decide (length (must f) = 0%nat) && bool_decide (length (should f) = 0%nat) then None
  else if negb (forallb (fun k => bool_decide (k ∈ indexed_fields db)) (filter_keys f)) then None
  else
    match must_loop db (must f) None with
    | inr _ => Some []
    | inl acc =>
        let acc :=
          if bool_decide (length (should f) = 0%nat) then acc
          else
            let union := ⋃ (map (ids_for_condition db) (should f)) in
            Some match acc with None => union | Some prev => prev ∩ union end in
        Some (sort_ids (default ∅ acc ∖ ⋃ (map (ids_for_condition db) (must_not f))))
    end.

Definition row_matches (f : Filter) (row : Row) : bool :=
  match row with RDoc d => filter_matches f (sd_metadata d) | _ => false end.

(** [Estate::count_where] (estate.rs): the indexes when they can answer, a
    scan of the documents otherwise. *)
Definition count_where (db : Db) (f : Filter) : Z :=
  match ids_where db f with
  | Some ids => Z.of_nat (length ids)
  | None =>
      Z.of_nat (length (filter (fun p => row_matches f p.2 = true) (iter_all db CF_DOCS)))
  end.
End filter_exec.

(** ** Floats under one key *)

(** The signed magnitude: [-0.0] and [0.0] alike. *)
Definition f64_key (x : f64) : Z := if sign_of x then - f64_mag x else f64_mag x.

Lemma f64_mag_zero s : f64_mag (S754_zero s) = 0.
Proof. done. Qed.

Lemma flt_key x y : f64_valid x = true -> f64_valid y = true -> flt x y = true -> f64_key x < f64_key y.
Proof.
  intros Hx Hy Hlt. pose proof (flt_mag x y Hx Hy Hlt) as Hm. unfold mag_order, f64_key in *.
  pose proof (f64_mag_bounds x Hx). pose proof (f64_mag_bounds y Hy).
  destruct (sign_of x) eqn:Sx, (sign_of y) eqn:Sy; try lia.
  destruct x as [s|s| |s m e], y as [s'|s'| |s' m' e']; cbn in Sx, Sy; try discriminate; subst; try discriminate Hlt;
    try (pose proof (f64_mag_pos _ _ _ Hx)); try (pose proof (f64_mag_pos _ _ _ Hy)); try lia;
    change (f64_mag (S754_infinity _)) with (f64_mag (S754_infinity false)) in *;
    (assert (0 < f64_mag (S754_infinity false)) by (vm_compute; reflexivity)); lia.
Qed.

Lemma feq_key x y : SFcompare x y = Some Eq -> f64_key x = f64_key y.
Proof.
  destruct x as [s|s| |s m e], y as [s'|s'| |s' m' e']; cbn; try done;
    try (by destruct s, s'); try (by destruct s); try (by destruct s').
  destruct s, s'; try done; destruct (Z.compare_spec e e') as [->|?|?]; try done;
    destruct (Pos.compare_cont Eq m m') eqn:E; try done; apply Pos.compare_eq in E as ->; done.
Qed.

Lemma fle_key x y :
  f64_valid x = true -> f64_valid y = true -> is_nan x = false -> is_nan y = false ->
  fle x y = true <-> f64_key x <= f64_key y.
Proof.
  intros Hx Hy Nx Ny. split.
  - unfold fle, SFleb. destruct (SFcompare x y) as [[]|] eqn:E; try done; intros _.
    + by rewrite (feq_key _ _ E).
    + assert (flt x y = true) as Hlt by (unfold flt, SFltb; by rewrite E). apply flt_key in Hlt; [lia|done..].
  - intros Hle. destruct (flt y x) eqn:E; [|by apply flt_total]. apply flt_key in E; [lia|done..].
Qed.

Lemma flt_key_iff x y :
  f64_valid x = true -> f64_valid y = true -> is_nan x = false -> is_nan y = false ->
  flt x y = true <-> f64_key x < f64_key y.
Proof.
  intros Hx Hy Nx Ny. split; [by apply flt_key|]. intros Hlt. destruct (flt x y) eqn:E; [done|].
  apply flt_total in E; [|done..]. apply fle_key in E; [lia|done..].
Qed.

Lemma code_key x y : f64_valid x = true -> f64_valid y = true -> f64_code x <= f64_code y -> f64_key x <= f64_key y.
Proof.
  intros Hx Hy. pose proof (f64_mag_bounds x Hx). pose proof (f64_mag_bounds y Hy).
  unfold f64_code, f64_key. destruct (sign_of x), (sign_of y); lia.
Qed.

(** Only negative zero sorts below what it is not less than. *)
Lemma key_code x y :
  f64_valid x = true -> f64_valid y = true -> is_nan y = false -> y <> S754_zero true ->
  f64_key x <= f64_key y -> f64_code x <= f64_code y.
Proof.
  intros Hx Hy Ny Hz. pose proof (f64_mag_bounds x Hx). pose proof (f64_mag_bounds y Hy).
  unfold f64_code, f64_key. destruct (sign_of x), (sign_of y) eqn:Sy; try lia. intros Hle. exfalso.
  assert (f64_mag y = 0) as E by lia. destruct y as [s|s| |s m e]; cbn in Sy; subst; try done.
  pose proof (f64_mag_pos _ _ _ Hy). lia.
Qed.

Definition good (x : f64) : Prop := f64_valid x = true /\ is_nan x = false.
Definition opt_good (o : option f64) : Prop := match o with Some b => good b | None => True end.

Lemma fle_keyb x y : good x -> good y -> fle x y = (f64_key x <=? f64_key y).
Proof.
  intros [? ?] [? ?]. destruct (fle x y) eqn:E; symmetry.
  - apply Z.leb_le. by apply fle_key in E.
  - apply Z.leb_gt. destruct (Z_le_gt_dec (f64_key x) (f64_key y)) as [Hle|]; [|lia].
    apply fle_key in Hle; [congruence|done..].
Qed.

Lemma flt_keyb x y : good x -> good y -> flt x y = (f64_key x <? f64_key y).
Proof.
  intros [? ?] [? ?]. destruct (flt x y) eqn:E; symmetry.
  - apply Z.ltb_lt. by apply flt_key in E.
  - apply Z.ltb_ge. apply flt_total in E; [|done..]. by apply fle_key in E.
Qed.

Lemma least_key x : good x -> f64_key (S754_infinity true) <= f64_key x.
Proof.
  intros [Hv Hn]. apply fle_key; [done..|]. by destruct x as [s|[]| |s m e].
Qed.

(** A scan between bounds on one ordered coordinate. *)
Definition judge (gt gte lt lte : option Z) (x : Z) (id : bytes) : verdict :=
  if violates lt (fun b => b <=? x) || violates lte (fun b => b <? x) then VBreak
  else if violates gt (fun b => x <=? b) || violates gte (fun b => x <? b) then VSkip
  else VTake id.

Definition within (gt gte lt lte : option Z) (x : Z) : bool :=
  bound gt (fun b => b <? x) && bound gte (fun b => b <=? x)
  && bound lt (fun b => x <? b) && bound lte (fun b => x <=? b).

Lemma judge_take gt gte lt lte x id i :
  judge gt gte lt lte x id = VTake i <-> id = i /\ within gt gte lt lte x = true.
Proof.
  assert (judge gt gte lt lte x id = VTake id <-> within gt gte lt lte x = true) as E.
  { unfold judge, within. destruct gt as [a|], gte as [b|], lt as [c|], lte as [d|];
      cbn [violates bound]; repeat case_match; split; intros ?; first [done|lia|exfalso; lia]. }
  split.
  - intros Hj. assert (id = i) as <-; [|by apply E in Hj].
    unfold judge in Hj. repeat case_match; try done. by injection Hj.
  - intros [<- Hw]. by apply E.
Qed.

Lemma judge_break gt gte lt lte x x' id id' i :
  x <= x' -> judge gt gte lt lte x id = VBreak -> judge gt gte lt lte x' id' <> VTake i.
Proof.
  intros Hx Hb [_ Hw]%judge_take. revert Hb Hw. unfold judge, within.
  destruct gt as [a|], gte as [b|], lt as [c|], lte as [d|];
    cbn [violates bound]; repeat case_match; intros; try done; lia.
Qed.

Lemma within_lower gt gte lt lte least x :
  least <= x -> within gt gte lt lte x = true -> lower_bound gte gt least <= x.
Proof. unfold within, lower_bound. destruct gt, gte, lt, lte; cbn; lia. Qed.

(** ** The payloads of index values *)

Lemma rfc3339_i64 s ms : rfc3339_to_epoch_ms s = Some ms -> is_i64 ms.
Proof.
  intros (y & mo & d & h & mi & s' & fr & off & Hy & Hmo & Hd & Hh & Hmi & Hs & Hfr & Ho & ->)%rfc3339_inv.
  rewrite days_from_civil_epoch by lia. pose proof (epoch_day_bounds y mo d Hy Hmo Hd). unfold is_i64. lia.
Qed.

(** How many of the [n] positions from [i] hold a hex digit of a UUID. *)
Fixpoint hex_slots (i n : nat) : nat :=
  match n with
  | O => O
  | S n => ((if bool_decide (i = 8 \/ i = 13 \/ i = 18 \/ i = 23) then 0 else 1) + hex_slots (S i) n)%nat
  end.

Lemma uuid_loop_length i hi b out :
  uuid_loop i hi b = Some out ->
  (2 * length out <= hex_slots i (length b) + (if hi is Some _ then 1 else 0) <= 2 * length out + 1)%nat.
Proof.
  revert i hi out. induction b as [|c b IH]; intros i hi out; cbn [uuid_loop hex_slots length].
  - intros [= <-]. destruct hi; cbn; lia.
  - case_bool_decide; [intros E%IH; lia|]. destruct (nibble c) as [n|]; [|done]. cbn.
    destruct hi as [h|]; [|intros E%IH; cbn in E; lia].
    destruct (uuid_loop (S i) None b) as [o|] eqn:E; [|done]. cbn. intros [= <-]. apply IH in E. cbn [length]. lia.
Qed.

Lemma uuid_length b u : parse_uuid_bytes b = Some u -> length u = 16%nat.
Proof.
  unfold parse_uuid_bytes. destruct (negb _ || _ || _ || _ || _) eqn:E; [done|].
  rewrite !orb_false_iff, negb_false_iff, Nat.eqb_eq in E. destruct E as [[[[E _] _] _] _].
  intros Hu%uuid_loop_length. rewrite E in Hu. change (hex_slots 0 36) with 32%nat in Hu. lia.
Qed.

Lemma morton_bounds lat lon : 0 <= morton lat lon < 256 ^ Z.of_nat 8.
Proof.
  unfold morton. rewrite interleave_low.
  pose proof (low_code_bounds (quantize lat (lit true 90 0) (lit false 90 0))
    (quantize lon (lit true 180 0) (lit false 180 0)) GEO_BITS) as Hb.
  change (4 ^ Z.of_nat GEO_BITS) with (2 ^ 52) in Hb. change (256 ^ Z.of_nat 8) with (2 ^ 64). lia.
Qed.

Section payloads.
Context `{SerdeNumber} `{Libm} (json_text : Json -> bytes).

Definition scalar (v : Json) : bool :=
  match v with JNum _ | JStr _ | JBool _ => true | _ => false end.

(** The encodings, tag by tag. *)
Inductive payload : Json -> Z -> bytes -> Prop :=
  | PlNum n : payload (JNum n) PIDX_NUM (encode_f64_sortable (default f64_zero (as_f64 n)))
  | PlDt s ms : rfc3339_to_epoch_ms s = Some ms -> payload (JStr s) PIDX_DT (encode_i64_sortable ms)
  | PlUuid s u : rfc3339_to_epoch_ms s = None -> parse_uuid_bytes s = Some u -> payload (JStr s) PIDX_UUID u
  | PlStr s : rfc3339_to_epoch_ms s = None -> parse_uuid_bytes s = None -> payload (JStr s) PIDX_STR s
  | PlBool b : payload (JBool b) PIDX_BOOL [if b then 1 else 0]
  | PlGeo v lat lon :
      scalar v = false -> point_of v = Some (lat, lon) -> payload v PIDX_GEO (be_bytes 8 (morton lat lon))
  | PlOther v : scalar v = false -> point_of v = None -> payload v PIDX_OTHER (json_text v).

Lemma encode_payload v : exists tag p, encode_pidx_value json_text v = tag :: p /\ payload v tag p.
Proof.
  unfold encode_pidx_value. destruct v as [|b|n|s|l|o].
  2: { do 2 eexists. split; [reflexivity|constructor]. }
  2: { do 2 eexists. split; [reflexivity|constructor]. }
  2: { destruct (rfc3339_to_epoch_ms s) eqn:E1; [|destruct (parse_uuid_bytes s) eqn:E2];
         do 2 eexists; (split; [reflexivity|by constructor]). }
  all: destruct (point_of _) as [[lat lon]|] eqn:E; do 2 eexists; (split; [reflexivity|by constructor]).
Qed.

Lemma payload_of v tag p : encode_pidx_value json_text v = tag :: p -> payload v tag p.
Proof. destruct (encode_payload v) as (t & q & -> & Hp). by intros [= <- <-]. Qed.

(** The text an index row holds of a value has no separator. *)
Definition text_ok (v : Json) : Prop :=
  match v with
  | JStr s => nul_free s
  | v => scalar v = true \/ nul_free (json_text v)
  end.

Lemma text_ok_other v : text_ok v -> scalar v = false -> nul_free (json_text v).
Proof. intros Hv Hs. destruct v; try done; by destruct Hv. Qed.

(** Two payloads under one tag have one width or no separators. *)
Lemma payload_widths v w tag p q :
  text_ok v -> text_ok w -> payload v tag p -> payload w tag q ->
  length p = length q \/ (nul_free p /\ nul_free q).
Proof.
  intros Hv Hw Hp Hq. destruct Hp; inversion Hq; subst; try (left; reflexivity);
    try (left; rewrite !length_be_bytes; reflexivity).
  - left. by erewrite !uuid_length by done.
  - by right.
  - right. split; by apply text_ok_other.
Qed.

(** The rows of a value are those under its prefix. *)
Lemma value_prefix_iff field field' value v id :
  nul_free field -> nul_free field' -> (field = field' -> text_ok value /\ text_ok v) ->
  pidx_value_prefix json_text field value `prefix_of` pidx_key json_text field' v id <->
  field = field' /\ encode_pidx_value json_text v = encode_pidx_value json_text value.
Proof.
  intros Hf Hf' Hv. unfold pidx_value_prefix, pidx_key. split.
  - intros [x E]. rewrite <- app_assoc in E. cbn in E. apply sep_app_inj in E as [-> E]; [|done..].
    destruct (Hv eq_refl) as [Hw Htv]. split; [done|]. destruct (encode_payload value) as (t & q & Eq & Hq).
    destruct (encode_payload v) as (t' & p & Ep & Hp). rewrite Eq, Ep in *. cbn in E. injection E as <- E.
    f_equal. rewrite <- app_assoc in E. cbn in E.
    destruct (payload_widths v value t' p q) as [Hl|[Np Nq]]; [done..| |].
    + by apply app_inj_1 in E as [-> _].
    + by apply sep_app_inj in E as [-> _].
  - intros [-> ->]. exists id. rewrite <- !app_assoc. cbn. by rewrite <- app_assoc.
Qed.
End payloads.

(** ** Scans over ordered rows *)

Section scans.
Context `{SerdeNumber}.

(** A scan takes exactly what its body takes, when a break means that no
    later key would be taken. *)
Lemma scan_loop_exact body (rows : list (bytes * Row)) id :
  StronglySorted key_lt rows ->
  (forall k k' i, k ∈ rows.*1 -> k' ∈ rows.*1 -> blt k k' -> body k = VBreak -> body k' <> VTake i) ->
  id ∈ scan_loop body rows <-> exists k, k ∈ rows.*1 /\ body k = VTake id.
Proof.
  intros Hs. induction Hs as [|[k v] rows _ IH Hk]; intros Hb; cbn [scan_loop].
  - split; [set_solver|]. by intros (k & ?%elem_of_nil & _).
  - rewrite Forall_forall in Hk. cbn in Hb.
    assert (id ∈ scan_loop body rows <-> exists k, k ∈ rows.*1 /\ body k = VTake id) as IH'
      by (apply IH; intros a b i Ha Hb'; apply Hb; by right).
    destruct (body k) as [| |i] eqn:E.
    + split; [set_solver|]. intros (k' & [->|Hin]%elem_of_cons & Ht); [cbn in Ht; congruence|].
      pose proof Hin as ([k1 v1] & -> & Hin1)%list_elem_of_fmap. destruct (Hb k k1 id); [by left|by right| |done|done].
      by apply (Hk (k1, v1)).
    + rewrite IH'. split; intros (k' & Hin & Ht); exists k'; (split; [|done]); [by right|].
      apply elem_of_cons in Hin as [->|?]; [cbn in Ht; congruence|done].
    + rewrite elem_of_union, elem_of_singleton, IH'. split.
      * intros [->|(k' & Hin & Ht)]; [exists k; split; [by left|done]|exists k'; split; [by right|done]].
      * intros (k' & [->|Hin]%elem_of_cons & Ht); [left; cbn in Ht; congruence|right; by exists k'].
Qed.

Lemma iter_from_keys (db : Db) cf start k :
  k ∈ (iter_from db cf start).*1 <-> is_Some (db cf !! k) /\ ble start k.
Proof.
  rewrite list_elem_of_fmap. split.
  - intros ([k' v] & -> & [Hk Hs]%elem_of_iter_from). split; [by eexists|done].
  - intros [[v Hv] Hs]. exists (k, v). split; [done|]. by apply elem_of_iter_from.
Qed.

Lemma scan_loop_ext (body body' : bytes -> verdict) rows :
  (forall k, body k = body' k) -> scan_loop body rows = scan_loop body' rows.
Proof. intros E. induction rows as [|[k v] rows IH]; [done|]. cbn. by rewrite E, IH. Qed.

(** A body that breaks off a prefix. *)
Lemma prefix_break p s k k' :
  ble (p ++ s) k -> blt k k' -> starts_with p k = false -> starts_with p k' = false.
Proof.
  unfold starts_with. rewrite !bool_decide_eq_false. intros Hs Hlt Hk Hk'. apply Hk.
  destruct Hk' as [x ->]. eapply (prefix_convex p x k); [|by apply blt_ble].
  etransitivity; [|exact Hs]. apply ble_prefix.
Qed.
End scans.

(** ** The rows of an indexed field *)

Section index_rows.
Context `{!SerdeNumber} `{!SerdeNumberLaws _} `{Libm} `{TextAnalyzer} (json_text : Json -> bytes).
Context (db : Db) (m : gmap bytes VectorRecord) (fields : list bytes).
Hypothesis Hids : ids_ok m.
Hypothesis Hrows : rows_ok json_text fields db m.
Hypothesis Hutf8 : forall id, is_Some (m !! id) -> valid_utf8 id = true.
Hypothesis Hfields : Forall nul_free fields.

(** Document [id] holds [v] in [field]. *)
Definition holds (field : bytes) (v : Json) (id : bytes) : Prop :=
  exists r, m !! id = Some r /\ vr_metadata r !! field = Some v.

Lemma holds_id field v id : holds field v id -> nul_free id /\ from_utf8_lossy id = id.
Proof.
  intros (r & Hm & _). split; [by apply (Hids id r)|]. apply lossy_valid, Hutf8. by eexists.
Qed.

Lemma field_ok field : field ∈ fields -> nul_free field.
Proof. rewrite Forall_forall in Hfields. apply Hfields. Qed.

Lemma pidx_row_iff k :
  is_Some (db CF_PIDX !! k) <->
  exists field v id, field ∈ fields /\ holds field v id /\ k = pidx_key json_text field v id.
Proof.
  rewrite (Hrows CF_PIDX k eq_refl). split.
  - intros [row Hrow]. destruct (m !! owner CF_PIDX k) as [r|] eqn:Er; [|done]. cbn in Hrow.
    rewrite doc_rows_pidx in Hrow. apply apply_puts_elem, list_elem_of_fmap in Hrow as (k' & [= <- _] & Hk).
    unfold pidx_rows in Hk. apply list_elem_of_omap in Hk as (f & Hf & Hk).
    destruct (vr_metadata r !! f) as [v|] eqn:Ev; [|done]. injection Hk as <-.
    pose proof (Hids _ _ Er) as [Hid _]. exists f, v, (vr_id r). split; [done|]. split; [|done].
    exists r. by rewrite Hid.
  - intros (f & v & id & Hf & (r & Hm & Hv) & ->). pose proof (Hids _ _ Hm) as [<- Hid].
    assert (pidx_key json_text f v (vr_id r) ∈ pidx_rows json_text fields (vr_id r) (vr_metadata r)) as Hin.
    { apply list_elem_of_omap. exists f. by rewrite Hv. }
    rewrite (pidx_rows_owner json_text fields (vr_id r) (vr_metadata r)) by done. rewrite Hm. cbn.
    rewrite doc_rows_pidx. eapply apply_puts_some; [by apply Forall_map_intro|].
    apply list_elem_of_fmap. eexists. split; [reflexivity|done].
Qed.

(** ** Typed rows: a tag and eight bytes *)

Lemma typed_prefix_iff field field' tag v id :
  nul_free field -> nul_free field' ->
  prefix field ++ [tag] `prefix_of` pidx_key json_text field' v id <->
  field = field' /\ exists p, encode_pidx_value json_text v = tag :: p.
Proof.
  intros Hf Hf'. unfold pidx_key, prefix. rewrite <- app_assoc. cbn [app]. split.
  - intros [x E]. rewrite <- app_assoc in E. cbn in E. apply sep_app_inj in E as [-> E]; [|done..].
    split; [done|]. destruct (encode_payload json_text v) as (c & p & Ev & _). rewrite Ev in *.
    injection E as -> _. by exists p.
  - intros [-> [p ->]]. exists (p ++ SEP :: id). rewrite <- app_assoc. done.
Qed.

Lemma slice_typed p b id : length b = 8%nat ->
  slice8 (p ++ b ++ SEP :: id) (length p) = Some b /\
  take_id (p ++ b ++ SEP :: id) (length p + 8) = VTake (from_utf8_lossy id).
Proof.
  intros Hb. unfold slice8, take_id. split.
  - rewrite !length_app, (proj2 (Nat.leb_le _ _)) by lia.
    rewrite drop_app_length, <- Hb, take_app_length. done.
  - rewrite app_assoc, <- Hb, <- length_app, list_lookup_middle by done. cbn.
    rewrite <- Nat.add_1_r, <- drop_drop, drop_app_length. done.
Qed.

Lemma typed_start_iff p s b x : length s = length b -> ble (p ++ s) (p ++ b ++ x) <-> ble s b.
Proof.
  intros Hl. unfold ble. rewrite bcmp_app_same. rewrite <- (app_nil_r s) at 1.
  rewrite bcmp_app_len by done. destruct (bcmp s b); [|done|done]. by destruct x.
Qed.

Section typed.
Context (field : bytes) (tag : Z) (start : bytes) (body : bytes -> verdict) (judge : bytes -> bytes -> verdict).
Hypothesis Hfield : field ∈ fields.
Hypothesis Hwidth : forall v p, encode_pidx_value json_text v = tag :: p -> length p = 8%nat.
Hypothesis Hstart : length start = 8%nat.
Hypothesis Hoff : forall k, starts_with (prefix field ++ [tag]) k = false -> body k = VBreak.
Hypothesis Hon : forall b v id, holds field v id -> encode_pidx_value json_text v = tag :: b ->
  body ((prefix field ++ [tag]) ++ b ++ SEP :: id) = judge b id.
Hypothesis Hmono : forall b v id b' v' id' i,
  holds field v id -> encode_pidx_value json_text v = tag :: b ->
  holds field v' id' -> encode_pidx_value json_text v' = tag :: b' ->
  ble b b' -> judge b id = VBreak -> judge b' id' <> VTake i.

Lemma typed_row_key v id b :
  encode_pidx_value json_text v = tag :: b ->
  pidx_key json_text field v id = (prefix field ++ [tag]) ++ b ++ SEP :: id.
Proof. intros Hb. unfold pidx_key, prefix. rewrite Hb, <- !app_assoc. done. Qed.

(** A key under the typed prefix is a typed row of the field. *)
Lemma typed_row k :
  is_Some (db CF_PIDX !! k) -> starts_with (prefix field ++ [tag]) k = true ->
  exists v id b, holds field v id /\ encode_pidx_value json_text v = tag :: b /\
    k = (prefix field ++ [tag]) ++ b ++ SEP :: id.
Proof.
  intros (f & v & id & Hf & Hh & ->)%pidx_row_iff Hp%bool_decide_eq_true.
  apply typed_prefix_iff in Hp as [<- [b Hb]]; [|by apply field_ok..].
  exists v, id, b. split_and!; [done|done|]. by apply typed_row_key.
Qed.

Lemma typed_scan i :
  i ∈ scan_loop body (iter_from db CF_PIDX ((prefix field ++ [tag]) ++ start)) <->
  exists v id b, holds field v id /\ encode_pidx_value json_text v = tag :: b /\ ble start b /\ judge b id = VTake i.
Proof.
  rewrite scan_loop_exact; [|apply iter_from_sorted|].
  - split.
    + intros (k & [Hk Hs]%iter_from_keys & Hb).
      destruct (starts_with (prefix field ++ [tag]) k) eqn:Ep; [|rewrite Hoff in Hb by done; done].
      destruct (typed_row k Hk Ep) as (v & id & b & Hh & Hv & ->). exists v, id, b.
      rewrite (Hon _ v) in Hb by done. split_and!; [done..| |done].
      by apply typed_start_iff in Hs; [|rewrite Hstart; symmetry; eapply Hwidth].
    + intros (v & id & b & Hh & Hv & Hs & Hj). exists ((prefix field ++ [tag]) ++ b ++ SEP :: id).
      rewrite (Hon _ v) by done. split; [|done]. apply iter_from_keys. split.
      * apply pidx_row_iff. exists field, v, id. split_and!; [done..|]. symmetry. by apply typed_row_key.
      * apply typed_start_iff; [|done]. rewrite Hstart. symmetry. by eapply Hwidth.
  - intros k k' j [Hk Hs]%iter_from_keys [Hk' Hs']%iter_from_keys Hlt Hbreak.
    destruct (starts_with (prefix field ++ [tag]) k') eqn:Ep'; [|by rewrite Hoff].
    destruct (starts_with (prefix field ++ [tag]) k) eqn:Ep.
    2: { pose proof (prefix_break _ _ _ _ Hs Hlt Ep). congruence. }
    destruct (typed_row k Hk Ep) as (v & id & b & Hh & Hv & ->).
    destruct (typed_row k' Hk' Ep') as (v' & id' & b' & Hh' & Hv' & ->).
    rewrite (Hon _ v) in Hbreak by done. rewrite (Hon _ v') by done. apply (Hmono b v id b' v' id'); [done..| |done].
    apply blt_ble in Hlt. unfold ble in *. rewrite bcmp_app_same, bcmp_app_len in Hlt.
    + destruct (bcmp b b'); done.
    + by rewrite (Hwidth v b), (Hwidth v' b').
Qed.
End typed.

(** ** One condition *)

Definition matching (c : Condition.Condition) (id : bytes) : Prop :=
  exists r, m !! id = Some r /\ cond_matches c (vr_metadata r) = true.

Lemma elem_of_prefix_scan p (g : bytes -> bytes) i :
  i ∈ scan_loop (fun k => if starts_with p k then VTake (g k) else VBreak) (iter_from db CF_PIDX p) <->
  exists k, is_Some (db CF_PIDX !! k) /\ starts_with p k = true /\ g k = i.
Proof.
  rewrite scan_loop_exact; [|apply iter_from_sorted|].
  - split.
    + intros (k & [Hk _]%iter_from_keys & Ht). exists k. destruct (starts_with p k); [|done]. by injection Ht.
    + intros (k & Hk & Hp & <-). exists k. rewrite Hp. split; [|done]. apply iter_from_keys. split; [done|].
      apply bool_decide_eq_true in Hp as [x ->]. apply ble_prefix.
  - intros k k' j [_ Hs]%iter_from_keys _ Hlt. rewrite <- (app_nil_r p) in Hs.
    destruct (starts_with p k) eqn:E; [done|]. intros _. by rewrite (prefix_break _ _ _ _ Hs Hlt E).
Qed.

Lemma scan_field_exact field i :
  field ∈ fields -> i ∈ scan_field db field <-> matching (Condition.Exists field) i.
Proof.
  intros Hf. unfold scan_field, matching. cbn [cond_matches]. unfold pidx_field_prefix.
  assert (forall k, (if starts_with (prefix field) k then
      if bool_decide (SEP ∈ k) then VTake (from_utf8_lossy (last_segment k)) else VSkip else VBreak) =
    (if starts_with (prefix field) k then VTake (from_utf8_lossy (last_segment k)) else VBreak)) as E.
  { intros k. destruct (starts_with _ k) eqn:E; [|done]. rewrite bool_decide_eq_true_2; [done|].
    apply bool_decide_eq_true in E as [x ->]. unfold prefix. rewrite !elem_of_app. left. right. by left. }
  rewrite (scan_loop_ext _ _ _ E), (elem_of_prefix_scan (prefix field)). split.
  - intros (k & (f & v & id & Hf' & Hh & ->)%pidx_row_iff & Hp%bool_decide_eq_true & <-).
    unfold pidx_key in *. apply prefix_sep in Hp as <-; [|by apply field_ok..].
    pose proof (holds_id _ _ _ Hh) as [Hid Hl]. rewrite app_comm_cons, app_assoc, last_segment_sep, Hl by done.
    destruct Hh as (r & Hm & Hv). exists r. by rewrite Hv.
  - intros (r & Hm & Hv). destruct (vr_metadata r !! field) as [v|] eqn:Ev; [|done].
    assert (holds field v i) as Hh by (by exists r). pose proof (holds_id _ _ _ Hh) as [Hid Hl].
    exists (pidx_key json_text field v i). split; [|split].
    + apply pidx_row_iff. by exists field, v, i.
    + apply bool_decide_eq_true, prefix_sep; [by apply field_ok..|done].
    + unfold pidx_key. by rewrite app_comm_cons, app_assoc, last_segment_sep, Hl.
Qed.

Definition eq_agrees (value v : Json) : Prop :=
  text_ok json_text value /\ text_ok json_text v /\
  (encode_pidx_value json_text v = encode_pidx_value json_text value <-> json_eqb v value = true).

(** Where an equality through the index is the equality of the DSL: the
    stored string is not another spelling of an instant or a UUID, and
    numbers and structured values encode alike when they are equal. *)
Definition comparable (value v : Json) : Prop :=
  text_ok json_text value /\ text_ok json_text v /\
  match v with
  | JBool _ => True
  | JStr s => rfc3339_to_epoch_ms s = None /\ parse_uuid_bytes s = None
  | JNum _ =>
      match value with
      | JNum _ => encode_pidx_value json_text v = encode_pidx_value json_text value <-> json_eqb v value = true
      | _ => True
      end
  | _ =>
      scalar value = false ->
      (encode_pidx_value json_text v = encode_pidx_value json_text value <-> json_eqb v value = true)
  end.

Lemma payload_kind v w tag p q :
  payload json_text v tag p -> payload json_text w tag q -> p = q ->
  match v, w with
  | JBool a, JBool b => a = b
  | JNum _, JNum _ => True
  | JStr s, JStr t => rfc3339_to_epoch_ms s = None -> parse_uuid_bytes s = None -> s = t
  | JBool _, _ | JNum _, _ | JStr _, _ => False
  | _, w => scalar w = false
  end.
Proof.
  intros Hv Hw. destruct Hv as [n|s ms Hs|s u Hs Hu|s Hs Hu|b|v lat lon Hs Hp|v Hs Hp];
    inversion Hw as [n'|s' ms' Hs'|s' u' Hs' Hu'|s' Hs' Hu'|b'|v' lat' lon' Hs' Hp'|v' Hs' Hp']; subst; intros E.
  - done.
  - intros Hn. by rewrite Hn in Hs.
  - intros _ Hn. by rewrite Hn in Hu.
  - done.
  - by destruct b, b'.
  - by destruct v.
  - by destruct v.
Qed.

Lemma encode_kind v w :
  encode_pidx_value json_text v = encode_pidx_value json_text w ->
  match v, w with
  | JBool a, JBool b => a = b
  | JNum _, JNum _ => True
  | JStr s, JStr t => rfc3339_to_epoch_ms s = None -> parse_uuid_bytes s = None -> s = t
  | JBool _, _ | JNum _, _ | JStr _, _ => False
  | _, w => scalar w = false
  end.
Proof.
  intros E. destruct (encode_payload json_text v) as (tag & p & Ev & Hv). rewrite Ev in E. symmetry in E.
  apply payload_of in E. by eapply payload_kind.
Qed.

Lemma comparable_agrees value v : comparable value v -> eq_agrees value v.
Proof.
  intros (Hw & Hv & Hc). split_and!; [done..|]. split.
  - intros E. pose proof (encode_kind _ _ E) as Hk. destruct v as [|a|n|s|l|o].
    + by apply Hc.
    + destruct value; try done. cbn. rewrite Hk. apply eqb_reflx.
    + destruct value; try done. by apply Hc.
    + destruct value; try done. destruct Hc as [Hd Hu]. rewrite (Hk Hd Hu). apply json_eqb_refl.
    + by apply Hc.
    + by apply Hc.
  - intros E. destruct v as [|a|n|s|l|o]; destruct value; try discriminate E; try (by apply Hc).
    + by apply eqb_prop in E as ->.
    + rewrite json_eqb_sym in E. by apply json_eqb_str in E as ->.
Qed.

Lemma scan_value_exact field value i :
  field ∈ fields -> (forall v id, holds field v id -> eq_agrees value v) ->
  i ∈ scan_value json_text db field value <-> matching (Condition.Eq field value) i.
Proof.
  intros Hf Ha. unfold scan_value, matching. cbn [cond_matches].
  rewrite (elem_of_prefix_scan (pidx_value_prefix json_text field value)
    (fun k => from_utf8_lossy (drop (length (pidx_value_prefix json_text field value)) k))).
  assert (forall v id, encode_pidx_value json_text v = encode_pidx_value json_text value ->
    drop (length (pidx_value_prefix json_text field value)) (pidx_key json_text field v id) = id) as Hdrop.
  { intros v id E. replace (pidx_key json_text field v id) with (pidx_value_prefix json_text field value ++ id).
    - apply drop_app_length.
    - unfold pidx_key, pidx_value_prefix. rewrite E, <- !app_assoc. cbn. by rewrite <- app_assoc. }
  split.
  - intros (k & (f & v & id & Hf' & Hh & ->)%pidx_row_iff & Hp%bool_decide_eq_true & <-).
    apply value_prefix_iff in Hp as [<- E]; [|by apply field_ok..|].
    + rewrite Hdrop by done. destruct (holds_id _ _ _ Hh) as [_ ->].
      destruct Hh as (r & Hm & Hv). exists r. rewrite Hv. split; [done|].
      by apply (Ha v id); [exists r|].
    + intros <-. by destruct (Ha v id Hh) as (? & ? & _).
  - intros (r & Hm & Hv). destruct (vr_metadata r !! field) as [v|] eqn:Ev; [|done].
    assert (holds field v i) as Hh by (by exists r). destruct (Ha v i Hh) as (Hw & Htv & Hiff).
    apply Hiff in Hv. exists (pidx_key json_text field v i). split; [|split].
    + apply pidx_row_iff. by exists field, v, i.
    + apply bool_decide_eq_true, value_prefix_iff; [by apply field_ok..|done|done].
    + rewrite Hdrop by done. by apply (holds_id field v).
Qed.

(** ** Ranges *)

(** A stored number is a double, and not the negative zero, which the index
    sorts below the positive one. *)
Definition num_ok (v : Json) : Prop :=
  match v with
  | JNum n => exists x, as_f64 n = Some x /\ good x /\ x <> S754_zero true
  | _ => True
  end.

Lemma num_row v b :
  num_ok v -> encode_pidx_value json_text v = PIDX_NUM :: b ->
  exists x, json_as_f64 v = Some x /\ good x /\ x <> S754_zero true /\ b = encode_f64_sortable x.
Proof.
  intros Hv Hp%payload_of. inversion Hp; subst. destruct Hv as (x & E & Hg & Hz). exists x. cbn. by rewrite E.
Qed.

Lemma num_row_back v x :
  json_as_f64 v = Some x -> encode_pidx_value json_text v = PIDX_NUM :: encode_f64_sortable x.
Proof. destruct v; try done. unfold json_as_f64, encode_pidx_value. by intros ->. Qed.

Lemma range_row gt gte lt lte x id :
  opt_good gt -> opt_good gte -> opt_good lt -> opt_good lte -> good x ->
  (if violates lt (fun b => fge x b) || violates lte (fun b => fgt x b) then VBreak
   else if violates gt (fun b => fle x b) || violates gte (fun b => flt x b) then VSkip
   else VTake id) = judge (f64_key <$> gt) (f64_key <$> gte) (f64_key <$> lt) (f64_key <$> lte) (f64_key x) id.
Proof.
  intros G1 G2 G3 G4 Hx. unfold judge, fge, fgt, violates. change SFleb with fle. change SFltb with flt.
  destruct gt, gte, lt, lte; cbn in *; rewrite ?fle_keyb, ?flt_keyb by done; done.
Qed.

Lemma range_bounds gt gte lt lte x :
  opt_good gt -> opt_good gte -> opt_good lt -> opt_good lte -> good x ->
  bound gt (fun b => fgt x b) && bound gte (fun b => fge x b) && bound lt (fun b => flt x b) && bound lte (fun b => fle x b)
  = within (f64_key <$> gt) (f64_key <$> gte) (f64_key <$> lt) (f64_key <$> lte) (f64_key x).
Proof.
  intros G1 G2 G3 G4 Hx. unfold within, fge, fgt, bound. change SFleb with fle. change SFltb with flt.
  destruct gt, gte, lt, lte; cbn in *; rewrite ?fle_keyb, ?flt_keyb by done; done.
Qed.


Lemma encode_f64_key x y :
  good x -> good y -> ble (encode_f64_sortable x) (encode_f64_sortable y) -> f64_key x <= f64_key y.
Proof.
  intros [Hx _] [Hy _]. unfold ble. rewrite encode_f64_cmp by done. intros Hc. by apply code_key.
Qed.

Lemma key_encode_f64 x y :
  good x -> good y -> y <> S754_zero true -> f64_key x <= f64_key y ->
  ble (encode_f64_sortable x) (encode_f64_sortable y).
Proof.
  intros [Hx _] [Hy Ny] Hz Hk. unfold ble. rewrite encode_f64_cmp by done. by apply key_code.
Qed.

Lemma scan_range_exact field gt gte lt lte i :
  field ∈ fields -> (forall v id, holds field v id -> num_ok v) ->
  opt_good gt -> opt_good gte -> opt_good lt -> opt_good lte ->
  i ∈ scan_range db field gt gte lt lte <-> matching (Condition.Range field gt gte lt lte) i.
Proof.
  intros Hf Hn G1 G2 G3 G4. unfold scan_range, pidx_num_prefix, matching. cbn [cond_matches].
  set (low := lower_bound gte gt (S754_infinity true)).
  assert (good low) as Hlow by (subst low; destruct gt, gte; cbn; done).
  rewrite (typed_scan field PIDX_NUM (encode_f64_sortable low) (range_body (prefix field ++ [PIDX_NUM]) gt gte lt lte)
    (fun b => judge (f64_key <$> gt) (f64_key <$> gte) (f64_key <$> lt) (f64_key <$> lte)
                (f64_key (decode_f64_sortable b)))).
  - split.
    + intros (v & id & b & Hh & Hv & _ & [<- Hj]%judge_take). pose proof Hh as (r & Hm & Hr).
      destruct (num_row v b (Hn v id Hh) Hv) as (x & Ex & Hx & _ & ->).
      exists r. rewrite Hr. cbn. rewrite Ex. destruct Hx as [Hx1 Hx2].
      rewrite decode_encode_f64 in Hj by done. by rewrite range_bounds.
    + intros (r & Hm & Hr). destruct (vr_metadata r !! field) as [v|] eqn:Ev; [|done]. cbn in Hr.
      destruct (json_as_f64 v) as [x|] eqn:Ex; [|done].
      assert (holds field v i) as Hh by (by exists r). apply num_row_back in Ex as Hv.
      destruct (num_row v _ (Hn v i Hh) Hv) as (x' & Ex' & Hx & Hz & _). rewrite Ex in Ex'. injection Ex' as <-.
      rewrite range_bounds in Hr by done. exists v, i, (encode_f64_sortable x). split_and!; [done..| |].
      * apply key_encode_f64; [done..|]. apply within_lower with (least := f64_key (S754_infinity true)) in Hr;
          [|by apply least_key]. subst low. by destruct gt, gte.
      * apply judge_take. destruct Hx as [Hx1 Hx2]. by rewrite decode_encode_f64.
  - done.
  - intros v b Hv%payload_of. inversion Hv. apply length_be_bytes.
  - apply length_be_bytes.
  - intros k Hk. unfold range_body. by rewrite Hk.
  - intros b v id Hh Hv. destruct (num_row v b (Hn v id Hh) Hv) as (x & _ & Hx & _ & ->).
    unfold range_body, starts_with. rewrite bool_decide_eq_true_2 by (by eexists). cbn [negb].
    destruct (slice_typed (prefix field ++ [PIDX_NUM]) (encode_f64_sortable x) id) as [-> ->]; [apply length_be_bytes|].
    pose proof Hx as [Hx1 Hx2]. rewrite decode_encode_f64 by done. cbn zeta.
    destruct (holds_id _ _ _ Hh) as [_ ->]. by apply range_row.
  - intros b v id b' v' id' j Hh Hv Hh' Hv' Hle. 
    destruct (num_row v b (Hn v id Hh) Hv) as (x & _ & Hx & _ & ->).
    destruct (num_row v' b' (Hn v' id' Hh') Hv') as (x' & _ & Hx' & _ & ->).
    pose proof (encode_f64_key _ _ Hx Hx' Hle). pose proof Hx as [? ?]. pose proof Hx' as [? ?].
    rewrite !decode_encode_f64 by done. by apply judge_break.
Qed.

(** ** Dates *)

Definition opt_i64 (o : option Z) : Prop := match o with Some b => is_i64 b | None => True end.

Lemma dt_row v b :
  encode_pidx_value json_text v = PIDX_DT :: b ->
  exists x, (json_as_str v ≫= rfc3339_to_epoch_ms) = Some x /\ is_i64 x /\ b = encode_i64_sortable x.
Proof.
  intros Hp%payload_of. inversion Hp; subst. exists ms. split_and!; [done| |done]. by eapply rfc3339_i64.
Qed.

Lemma dt_row_back v x :
  (json_as_str v ≫= rfc3339_to_epoch_ms) = Some x ->
  is_i64 x /\ encode_pidx_value json_text v = PIDX_DT :: encode_i64_sortable x.
Proof.
  destruct v; try done. cbn [json_as_str mbind option_bind]. intros E. split; [by eapply rfc3339_i64|].
  unfold encode_pidx_value. by rewrite E.
Qed.

Lemma scan_dt_range_exact field gt gte lt lte i :
  field ∈ fields ->
  i ∈ scan_dt_range db field (gt ≫= rfc3339_to_epoch_ms) (gte ≫= rfc3339_to_epoch_ms)
        (lt ≫= rfc3339_to_epoch_ms) (lte ≫= rfc3339_to_epoch_ms) <->
  matching (Condition.DateRange field gt gte lt lte) i.
Proof.
  intros Hf. unfold matching. cbn [cond_matches].
  assert (forall o, opt_i64 (o ≫= rfc3339_to_epoch_ms)) as Hi.
  { intros [s|]; [|done]. cbn. destruct (rfc3339_to_epoch_ms s) eqn:E; [|done]. by eapply rfc3339_i64. }
  pose proof (Hi gt) as G1. pose proof (Hi gte) as G2.
  set (bgt := gt ≫= _) in *. set (bgte := gte ≫= _) in *. set (blt := lt ≫= _). set (blte := lte ≫= _).
  unfold scan_dt_range, pidx_dt_prefix. set (low := lower_bound bgte bgt (- 2 ^ 63)).
  assert (is_i64 low) as Hlow by (subst low; destruct bgt, bgte; cbn; done).
  rewrite (typed_scan field PIDX_DT (encode_i64_sortable low) (dt_body (prefix field ++ [PIDX_DT]) bgt bgte blt blte)
    (fun b => judge bgt bgte blt blte (decode_i64_sortable b))).
  - split.
    + intros (v & id & b & (r & Hm & Hr) & Hv & _ & [<- Hj]%judge_take).
      destruct (dt_row v b Hv) as (x & Ex & Hx & ->).
      exists r. rewrite Hr. cbn [mbind option_bind] in *. rewrite Ex. by rewrite decode_encode_i64 in Hj.
    + intros (r & Hm & Hr). destruct (vr_metadata r !! field) as [v|] eqn:Ev; [|done].
      cbn [mbind option_bind] in Hr.
      destruct (json_as_str v ≫= rfc3339_to_epoch_ms) as [x|] eqn:Ex; [|done].
      destruct (dt_row_back v x Ex) as [Hx Hv].
      exists v, i, (encode_i64_sortable x). split_and!; [by exists r|done| |].
      * unfold ble. rewrite encode_i64_cmp by done.
        apply within_lower with (least := - 2 ^ 63) in Hr; [by apply Z.compare_le_iff|apply Hx].
      * apply judge_take. by rewrite decode_encode_i64.
  - done.
  - intros v b (x & _ & _ & ->)%dt_row. apply length_be_bytes.
  - apply length_be_bytes.
  - intros k Hk. unfold dt_body. by rewrite Hk.
  - intros b v id Hh (x & _ & Hx & ->)%dt_row.
    unfold dt_body, starts_with. rewrite bool_decide_eq_true_2 by (by eexists). cbn [negb].
    destruct (slice_typed (prefix field ++ [PIDX_DT]) (encode_i64_sortable x) id) as [-> ->]; [apply length_be_bytes|].
    rewrite decode_encode_i64 by done. by destruct (holds_id _ _ _ Hh) as [_ ->].
  - intros b v id b' v' id' j _ (x & _ & Hx & ->)%dt_row _ (x' & _ & Hx' & ->)%dt_row Hle.
    unfold ble in Hle. rewrite encode_i64_cmp in Hle by done. rewrite !decode_encode_i64 by done.
    by apply judge_break.
Qed.

(** ** Places *)

Lemma geo_row v b :
  encode_pidx_value json_text v = PIDX_GEO :: b ->
  exists p, point_of v = Some p /\ b = be_bytes 8 (morton p.1 p.2).
Proof. intros Hp%payload_of. inversion Hp; subst. by eexists (_, _). Qed.

Lemma geo_row_back v p :
  point_of v = Some p -> encode_pidx_value json_text v = PIDX_GEO :: be_bytes 8 (morton p.1 p.2).
Proof. destruct v; try done; intros E; unfold encode_pidx_value; rewrite E; by destruct p. Qed.

(** The Z-order range of the corners covers the place of the value. *)
Definition covered (lat_min lon_min lat_max lon_max : f64) (v : Json) : Prop :=
  match point_of v with
  | Some (lat, lon) => morton lat_min lon_min <= morton lat lon <= morton lat_max lon_max
  | None => True
  end.

Definition geo_cond (c : Condition.Condition) : Prop :=
  match c with Condition.GeoRadius _ _ _ _ | Condition.GeoBox _ _ _ _ _ => True | _ => False end.

Lemma geo_cond_point c md :
  geo_cond c -> cond_matches c md = true ->
  exists v p, md !! key c = Some v /\ point_of v = Some p.
Proof.
  intros Hc. destruct c as [| | | |f ? ? ?|f ? ? ? ?|]; try done; cbn [cond_matches key];
    (destruct (md !! f) as [v|]; [|done]); cbn [mbind option_bind];
    (destruct (point_of v) as [[a b]|] eqn:E; [|done]); by exists v, (a, b).
Qed.

Lemma scan_geo_exact c lat_min lon_min lat_max lon_max i :
  geo_cond c -> key c ∈ fields ->
  (forall r v id, m !! id = Some r -> vr_metadata r !! key c = Some v -> cond_matches c (vr_metadata r) = true ->
     covered lat_min lon_min lat_max lon_max v) ->
  i ∈ scan_geo db (key c) lat_min lon_min lat_max lon_max c <-> matching c i.
Proof.
  intros Hc Hf Hcov. unfold scan_geo, pidx_geo_prefix. set (field := key c) in *.
  set (z_lo := morton lat_min lon_min). set (z_hi := morton lat_max lon_max).
  pose proof (morton_bounds lat_min lon_min : 0 <= z_lo < _) as Hlo.
  rewrite (typed_scan field PIDX_GEO (be_bytes 8 z_lo) (geo_body db (prefix field ++ [PIDX_GEO]) z_hi c)
    (fun b id => if z_hi <? from_be_bytes b then VBreak
                 else match get_doc db id with
                      | Some doc => if cond_matches c (sd_metadata doc) then VTake id else VSkip
                      | None => VSkip
                      end)).
  - split.
    + intros (v & id & b & (r & Hm & Hr) & Hv & _ & Hj). destruct (_ <? _); [done|].
      rewrite (rows_ok_doc json_text fields db m id Hids Hrows), Hm in Hj. cbn in Hj.
      destruct (cond_matches c (vr_metadata r)) eqn:E; [|done]. injection Hj as <-. by exists r.
    + intros (r & Hm & Hr). destruct (geo_cond_point c _ Hc Hr) as (v & [lat lon] & Hv & Hp).
      pose proof (morton_bounds lat lon) as Hb. apply geo_row_back in Hp as He.
      pose proof (Hcov r v i Hm Hv Hr) as Hz. unfold covered in Hz. rewrite Hp in Hz. cbn in He.
      exists v, i, (be_bytes 8 (morton lat lon)). split_and!; [by exists r|done| |].
      * unfold ble. rewrite bcmp_be_bytes by done. apply Z.compare_le_iff, Hz.
      * rewrite from_be_be_bytes by done. rewrite (proj2 (Z.ltb_ge _ _)) by (subst z_hi; lia).
        rewrite (rows_ok_doc json_text fields db m i Hids Hrows), Hm. cbn. by rewrite Hr.
  - done.
  - intros v b ([] & _ & ->)%geo_row. apply length_be_bytes.
  - apply length_be_bytes.
  - intros k Hk. unfold geo_body. by rewrite Hk.
  - intros b v id Hh ([lat lon] & _ & ->)%geo_row.
    unfold geo_body, starts_with. rewrite bool_decide_eq_true_2 by (by eexists). cbn [negb fst snd].
    destruct (slice_typed (prefix field ++ [PIDX_GEO]) (be_bytes 8 (morton lat lon)) id) as [-> ->]; [apply length_be_bytes|].
    by destruct (holds_id _ _ _ Hh) as [_ ->].
  - intros b v id b' v' id' j _ ([lat lon] & _ & ->)%geo_row _ ([lat' lon'] & _ & ->)%geo_row.
    pose proof (morton_bounds lat lon). pose proof (morton_bounds lat' lon'). cbn [fst snd].
    unfold ble. rewrite bcmp_be_bytes, !from_be_be_bytes by done. intros Hle.
    destruct (z_hi <? morton lat lon) eqn:E; [|by repeat case_match]. intros _.
    rewrite (proj2 (Z.ltb_lt _ _)); [done|]. apply Z.ltb_lt in E. rewrite Z.compare_le_iff in Hle. lia.
Qed.

(** ** A whole filter *)

(** The bounds of a range are numbers. *)
Definition bounds_ok (c : Condition.Condition) : Prop :=
  match c with
  | Condition.Range _ gt gte lt lte => opt_good gt /\ opt_good gte /\ opt_good lt /\ opt_good lte
  | _ => True
  end.

(** Where the index and the DSL read a document alike. *)
Definition cond_agrees (c : Condition.Condition) (md : Metadata) : Prop :=
  match md !! key c with
  | None => True
  | Some v =>
      match c with
      | Condition.Eq _ value => comparable value v
      | Condition.Any _ values => Forall (fun value => comparable value v) values
      | Condition.Range _ _ _ _ _ => num_ok v
      | Condition.GeoRadius _ lat lon radius_m =>
          let '((lat_min, lon_min), (lat_max, lon_max)) := radius_bbox lat lon radius_m in
          cond_matches c md = true -> covered lat_min lon_min lat_max lon_max v
      | Condition.GeoBox _ lat_min lon_min lat_max lon_max =>
          cond_matches c md = true -> covered lat_min lon_min lat_max lon_max v
      | Condition.DateRange _ _ _ _ _ | Condition.Exists _ => True
      end
  end.

Definition agrees (c : Condition.Condition) : Prop :=
  bounds_ok c /\ forall id r, m !! id = Some r -> cond_agrees c (vr_metadata r).

Lemma ids_for_condition_exact c i :
  agrees c -> key c ∈ fields -> i ∈ ids_for_condition json_text db c <-> matching c i.
Proof.
  intros [Hb Ha] Hf.
  assert (forall v id, holds (key c) v id -> exists r, m !! id = Some r /\
    vr_metadata r !! key c = Some v /\ cond_agrees c (vr_metadata r)) as Hh.
  { intros v id (r & Hm & Hv). exists r. split_and!; [done..|by apply (Ha id)]. }
  destruct c as [f value|f values|f gt gte lt lte|f gt gte lt lte|f lat lon rad|f a b c d|f];
    cbn [ids_for_condition bounds_ok key] in *.
  - apply scan_value_exact; [done|]. intros v id (r & _ & Hv & Hc)%Hh. unfold cond_agrees in Hc. cbn [key] in Hc.
    rewrite Hv in Hc. by apply comparable_agrees.
  - rewrite elem_of_union_list. unfold matching. cbn [cond_matches].
    assert (forall value, value ∈ values -> i ∈ scan_value json_text db f value <-> matching (Condition.Eq f value) i) as Hex.
    { intros value Hin. apply scan_value_exact; [done|]. intros v id (r & _ & Hv & Hc)%Hh.
      unfold cond_agrees in Hc. cbn [key] in Hc. rewrite Hv, Forall_forall in Hc. by apply comparable_agrees, Hc. }
    split.
    + intros (X & (value & -> & Hin)%list_elem_of_fmap & Hi). apply Hex in Hi as (r & Hm & Hv); [|done].
      exists r. split; [done|]. cbn [cond_matches] in Hv. destruct (vr_metadata r !! f); [|done].
      apply existsb_exists. exists value. split; [by apply list_elem_of_In|]. by rewrite json_eqb_sym.
    + intros (r & Hm & Hv). destruct (vr_metadata r !! f) as [v|] eqn:Ev; [|done].
      apply existsb_exists in Hv as (value & Hin%list_elem_of_In & Hv).
      exists (scan_value json_text db f value). split; [apply list_elem_of_fmap; by exists value|].
      apply Hex; [done|]. exists r. split; [done|]. cbn [cond_matches]. by rewrite Ev, json_eqb_sym.
  - destruct Hb as (? & ? & ? & ?). apply scan_range_exact; try done. intros v id (r & _ & Hv & Hc)%Hh.
    unfold cond_agrees in Hc. cbn [key] in Hc. by rewrite Hv in Hc.
  - by apply scan_dt_range_exact.
  - destruct (radius_bbox lat lon rad) as [[a b] [c d]] eqn:Eb.
    apply (scan_geo_exact (Condition.GeoRadius f lat lon rad)); [done|done|]. intros r v id Hm Hv Hc.
    pose proof (Ha id r Hm) as Hag. unfold cond_agrees in Hag. rewrite Hv, Eb in Hag. by apply Hag.
  - apply (scan_geo_exact (Condition.GeoBox f a b c d)); [done|done|]. intros r v id Hm Hv Hc.
    pose proof (Ha id r Hm) as Hag. unfold cond_agrees in Hag. rewrite Hv in Hag. by apply Hag.
  - by apply scan_field_exact.
Qed.

Definition in_acc (acc : option (gset bytes)) (i : bytes) : Prop :=
  match acc with Some s => i ∈ s | None => True end.

Lemma must_loop_exact cs acc :
  match must_loop json_text db cs acc with
  | inl acc' =>
      (forall i, in_acc acc' i <-> in_acc acc i /\ forall c, c ∈ cs -> i ∈ ids_for_condition json_text db c) /\
      (acc' = None -> acc = None /\ cs = [])
  | inr _ => forall i, in_acc acc i -> exists c, c ∈ cs /\ i ∉ ids_for_condition json_text db c
  end.
Proof.
  revert acc. induction cs as [|c cs IH]; intros acc; cbn [must_loop].
  - split; [|done]. intros i. split; [|tauto]. intros Hi. split; [done|]. by intros c ?%elem_of_nil.
  - set (acc1 := match acc with Some prev => _ | None => _ end).
    assert (forall i, i ∈ acc1 <-> in_acc acc i /\ i ∈ ids_for_condition json_text db c) as E.
    { intros i. unfold acc1. destruct acc; cbn; set_solver. }
    case_bool_decide as He.
    + intros i Hi. exists c. split; [by left|]. intros Hc. apply (not_elem_of_empty (C := gset bytes) i).
      rewrite <- He. by apply E.
    + specialize (IH (Some acc1)). destruct (must_loop json_text db cs (Some acc1)) as [acc'|].
      * destruct IH as [IH1 IH2]. split; [|intros Hn; by destruct (IH2 Hn)]. intros i. rewrite IH1. cbn. rewrite E.
        setoid_rewrite elem_of_cons. naive_solver.
      * intros i Hi. destruct (decide (i ∈ ids_for_condition json_text db c)) as [Hc|Hc]; [|exists c; split; [by left|done]].
        destruct (IH i) as (c' & ? & ?); [by apply E|]. exists c'. split; [by right|done].
Qed.

Lemma elem_of_conditions cs i :
  i ∈ (⋃ (map (ids_for_condition json_text db) cs) : gset bytes) <->
  exists c, c ∈ cs /\ i ∈ ids_for_condition json_text db c.
Proof.
  rewrite elem_of_union_list. split.
  - intros (X & (c & -> & Hc)%list_elem_of_fmap & Hi). by exists c.
  - intros (c & Hc & Hi). eexists. split; [|exact Hi]. apply list_elem_of_fmap. by exists c.
Qed.

Definition matching_filter (f : Filter) (id : bytes) : Prop :=
  exists r, m !! id = Some r /\ filter_matches f (vr_metadata r) = true.

Lemma matching_filter_iff f i :
  is_Some (m !! i) ->
  matching_filter f i <->
  (forall c, c ∈ must f -> matching c i) /\
  (should f = [] \/ exists c, c ∈ should f /\ matching c i) /\
  ~ (exists c, c ∈ must_not f /\ matching c i).
Proof.
  intros [r Hm]. assert (forall c, matching c i <-> cond_matches c (vr_metadata r) = true) as E.
  { intros c. split; [intros (r' & Hm' & Hc); congruence|by exists r]. }
  assert (matching_filter f i <-> filter_matches f (vr_metadata r) = true) as ->.
  { split; [intros (r' & Hm' & Hc); congruence|by exists r]. }
  unfold filter_matches. rewrite !andb_true_iff, orb_true_iff, negb_true_iff, forallb_forall, existsb_exists,
    bool_decide_eq_true, length_zero_iff_nil.
  repeat setoid_rewrite E. repeat setoid_rewrite list_elem_of_In. rewrite <- not_true_iff_false, existsb_exists. tauto.
Qed.

Lemma ids_where_sound (f : Filter) :
  indexed_fields db = fields -> (forall c, c ∈ must f ++ should f ++ must_not f -> agrees c) ->
  match ids_where json_text db f with
  | None =>
      (must f = [] /\ should f = []) \/ exists k, k ∈ filter_keys f /\ k ∉ fields
  | Some ids =>
      StronglySorted ble ids /\ NoDup ids /\ (forall i, i ∈ ids <-> matching_filter f i)
  end.
Proof.
  intros Hidx Hag. unfold ids_where. rewrite Hidx.
  destruct (bool_decide (length (must f) = 0%nat) && bool_decide (length (should f) = 0%nat)) eqn:E0.
  { apply andb_true_iff in E0 as [E1%bool_decide_eq_true E2%bool_decide_eq_true].
    left. by rewrite !length_zero_iff_nil in *. }
  assert (must f ++ should f <> []) as Hne.
  { intros [E1 E2]%app_eq_nil. by rewrite E1, E2 in E0. }
  clear E0.
  destruct (forallb _ (filter_keys f)) eqn:Ek; cbn [negb].
  2: { right. apply not_true_iff_false in Ek. rewrite forallb_forall in Ek.
    destruct (decide (Forall (fun k => k ∈ fields) (filter_keys f))) as [Hall|Hn].
    - destruct Ek. intros k Hk. apply bool_decide_eq_true. rewrite Forall_forall in Hall. by apply Hall, list_elem_of_In.
    - apply not_Forall_Exists, Exists_exists in Hn as (k & Hk & Hnk); [|apply _]. by exists k. }
  rewrite forallb_forall in Ek.
  assert (forall c, c ∈ must f ++ should f ++ must_not f ->
    forall i, i ∈ ids_for_condition json_text db c <-> matching c i) as Hex.
  { intros c Hc i. apply ids_for_condition_exact; [by apply Hag|]. eapply bool_decide_eq_true, Ek.
    apply list_elem_of_In, list_elem_of_fmap. by exists c. }
  setoid_rewrite elem_of_app in Hex. setoid_rewrite elem_of_app in Hex.
  assert (forall i, matching_filter f i <->
    (exists c, c ∈ must f ++ should f /\ matching c i) /\
    (forall c, c ∈ must f -> matching c i) /\ (should f = [] \/ exists c, c ∈ should f /\ matching c i) /\
    ~ (exists c, c ∈ must_not f /\ matching c i)) as Hf.
  { intros i. split.
    - intros Hi. pose proof Hi as (r & Hm & _). apply matching_filter_iff in Hi; [|by eexists]. split; [|done].
      destruct Hi as (Hi1 & Hi2 & _). destruct (must f) as [|c cs] eqn:Em.
      + destruct Hi2 as [Hs|(c & ? & ?)]; [by rewrite Hs in Hne|by exists c].
      + exists c. split; [by left|]. apply Hi1. by left.
    - intros [(c & _ & r & Hm & _) Hi]. apply matching_filter_iff; [by eexists|done]. }
  pose proof (must_loop_exact (must f) None) as Hloop. destruct (must_loop json_text db (must f) None) as [acc|u].
  2: { split_and!; [constructor..|]. intros i. split; [by intros ?%elem_of_nil|]. intros (_ & Hi & _)%Hf.
    destruct (Hloop i I) as (c & Hc & Hn). destruct Hn. apply Hex; auto. }
  destruct Hloop as [Hl1 Hl2].
  set (acc1 := if bool_decide (length (should f) = 0%nat) then acc else _).
  assert (forall i, in_acc acc1 i <-> (forall c, c ∈ must f -> matching c i) /\
    (should f = [] \/ exists c, c ∈ should f /\ matching c i)) as Hacc.
  { intros i. assert (in_acc acc i <-> forall c, c ∈ must f -> matching c i) as Hm.
    { rewrite Hl1. split; [intros [_ Hi] c Hc; apply Hex; auto|intros Hi; split; [done|intros c Hc; apply Hex; auto]]. }
    rewrite <- Hm. unfold acc1. case_bool_decide as Hs.
    - apply length_zero_iff_nil in Hs. rewrite Hs. naive_solver.
    - assert (i ∈ (⋃ (map (ids_for_condition json_text db) (should f)) : gset bytes) <->
        exists c, c ∈ should f /\ matching c i) as Hu.
      { rewrite elem_of_conditions. split; intros (c & Hc & Hi); exists c; (split; [done|]; apply Hex; auto). }
      assert (should f <> []) by (intros E; by rewrite E in Hs). destruct acc as [s|]; cbn; set_solver. }
  assert (exists s, acc1 = Some s) as [s Hs].
  { unfold acc1. case_bool_decide as Hs; [|by eexists]. destruct acc as [s|]; [by eexists|].
    destruct (Hl2 eq_refl) as [_ E1]. apply length_zero_iff_nil in Hs. destruct Hne. by rewrite E1, Hs. }
  rewrite Hs in *. cbn in Hacc |- *. split_and!.
  - apply StronglySorted_merge_sort; apply _.
  - unfold sort_ids. rewrite merge_sort_Permutation. apply NoDup_elements.
  - intros i. unfold sort_ids. rewrite merge_sort_Permutation, elem_of_elements, elem_of_difference, Hacc, elem_of_conditions.
    assert ((exists c, c ∈ must_not f /\ i ∈ ids_for_condition json_text db c) <->
      exists c, c ∈ must_not f /\ matching c i) as ->.
    { split; intros (c & Hc & Hi); exists c; (split; [done|]; apply Hex; auto). }
    rewrite Hf. split; [|tauto]. intros [[Ha Hb] Hc]. split_and!; [|done..].
    destruct (must f) as [|c cs] eqn:Em.
    + destruct Hb as [E|(c & ? & ?)]; [by rewrite E in Hne|by exists c].
    + exists c. split; [by left|]. apply Ha. by left.
Qed.

Lemma size_filter {A} (P : bytes * A -> Prop) `{!forall x, Decision (P x)} (s : gmap bytes A) :
  size (filter P s) = length (filter P (map_to_list s)).
Proof.
  rewrite <- length_map_to_list. apply Permutation_length, NoDup_Permutation.
  - apply NoDup_map_to_list.
  - apply NoDup_filter, NoDup_map_to_list.
  - intros [k x]. rewrite elem_of_map_to_list, list_elem_of_filter, elem_of_map_to_list, map_lookup_filter_Some. tauto.
Qed.

Lemma count_where_sound (f : Filter) :
  indexed_fields db = fields -> (forall c, c ∈ must f ++ should f ++ must_not f -> agrees c) ->
  count_where json_text db f =
  Z.of_nat (size (filter (fun p : bytes * VectorRecord => filter_matches f (vr_metadata p.2) = true) m)).
Proof.
  intros Hidx Hag. unfold count_where. pose proof (ids_where_sound f Hidx Hag) as Hs.
  destruct (ids_where json_text db f) as [ids|]; f_equal.
  - destruct Hs as (_ & Hnd & Hin). rewrite <- (size_list_to_set (C := gset bytes)) by done.
    rewrite <- (size_dom (D := gset bytes)). f_equal. apply set_eq. intros i.
    rewrite elem_of_list_to_set, Hin, elem_of_dom. unfold matching_filter, is_Some.
    setoid_rewrite map_lookup_filter_Some. done.
  - assert (db CF_DOCS = (fun r => RDoc (stored_doc r)) <$> m) as E.
    { apply map_eq. intros k. rewrite lookup_fmap, (Hrows CF_DOCS k eq_refl). cbn.
      destruct (m !! k) as [r|] eqn:Em; [|done]. cbn. destruct (Hids _ _ Em) as [<- _]. apply doc_rows_docs. }
    unfold iter_all. rewrite btree_iter_perm, E, map_to_list_fmap.
    rewrite size_filter. clear. induction (map_to_list m) as [|[k r] l IH]; [done|].
    cbn [fmap list_fmap]. rewrite !filter_cons. cbn. case_decide; cbn; by rewrite ?IH.
Qed.
End index_rows.

(** ** What a filter promises *)

Section Properties.
Context `{!SerdeNumber} `{!SerdeNumberLaws _} `{Libm} `{TextAnalyzer}.
Variable json_text : Json -> bytes.
Variable now_ms : Z -> Z.
Variable lexical_stats : bool.

(** When the indexes are not asked. *)
Lemma ids_where_declines db f :
  ids_where json_text db f = None <-> (must f = [] /\ should f = []) \/ exists k, k ∈ filter_keys f /\ k ∉ indexed_fields db.
Proof.
  unfold ids_where. destruct (bool_decide (length (must f) = 0%nat) && bool_decide (length (should f) = 0%nat)) eqn:E0.
  { apply andb_true_iff in E0 as [E1%bool_decide_eq_true E2%bool_decide_eq_true]. rewrite !length_zero_iff_nil in E1, E2. tauto. }
  assert (~ (must f = [] /\ should f = [])) as Hne by (by intros [E1 E2]; rewrite E1, E2 in E0).
  destruct (forallb _ (filter_keys f)) eqn:Ek; cbn [negb].
  - rewrite forallb_forall in Ek. split; [by destruct (must_loop _ _ _ _)|]. intros [?|(k & Hk & Hn)]; [done|]. destruct Hn.
    by eapply bool_decide_eq_true, Ek, list_elem_of_In.
  - split; [|done]. intros _. right. apply not_true_iff_false in Ek. rewrite forallb_forall in Ek.
    destruct (decide (Forall (fun k => k ∈ indexed_fields db) (filter_keys f))) as [Hall|Hn].
    + destruct Ek. intros k Hk. apply bool_decide_eq_true. rewrite Forall_forall in Hall. by apply Hall, list_elem_of_In.
    + apply not_Forall_Exists, Exists_exists in Hn as (k & Hk & Hnk); [|apply _]. by exists k.
Qed.

(** C28: a filter is declined exactly when it has no [must] or [should] clause
    or names a field that is not indexed; otherwise the answer is, sorted and
    without repetition, the ids of the documents the filter matches. Ids are
    valid UTF-8, indexed fields free of the separator byte, and the indexes
    encode the values each condition compares as the condition compares them
    ([agrees]: range bounds and stored numbers are doubles and not the negative
    zero, a stored text compared for equality is no date or UUID, equal values
    encode alike, and the points a shape contains lie between the cells of its
    corners; without it an index changes answers). *)
Theorem ids_where_exact (db : Db) (m : gmap bytes VectorRecord) (log : list (ChangeOp * bytes)) (f : Filter) :
  Refines json_text now_ms lexical_stats db m log ->
  (forall id, is_Some (m !! id) -> valid_utf8 id = true) -> Forall nul_free (indexed_fields db) ->
  (forall c, c ∈ must f ++ should f ++ must_not f -> agrees json_text m c) ->
  (ids_where json_text db f = None <-> (must f = [] /\ should f = []) \/ exists k, k ∈ filter_keys f /\ k ∉ indexed_fields db) /\
  (forall ids, ids_where json_text db f = Some ids ->
     StronglySorted ble ids /\ NoDup ids /\
     (forall id, id ∈ ids <-> exists r, m !! id = Some r /\ filter_matches f (vr_metadata r) = true)).
Proof.
  intros [Hids Hrows _ _ _ _] Hutf Hnul Ha. split; [apply ids_where_declines|]. intros ids E.
  pose proof (ids_where_sound json_text db m (indexed_fields db) Hids Hrows Hutf Hnul f eq_refl Ha) as Hw. by rewrite E in Hw.
Qed.

(** counting by a filter gives the number of documents it matches, through
    the indexes or by scanning every document. *)
Theorem count_where_exact (db : Db) (m : gmap bytes VectorRecord) (log : list (ChangeOp * bytes)) (f : Filter) :
  Refines json_text now_ms lexical_stats db m log ->
  (forall id, is_Some (m !! id) -> valid_utf8 id = true) -> Forall nul_free (indexed_fields db) ->
  (forall c, c ∈ must f ++ should f ++ must_not f -> agrees json_text m c) ->
  count_where json_text db f =
  Z.of_nat (size (filter (fun p : bytes * VectorRecord => filter_matches f (vr_metadata p.2) = true) m)).
Proof. intros [Hids Hrows _ _ _ _] Hutf Hnul. by apply (count_where_sound json_text db m (indexed_fields db)). Qed.
End Properties.

(** ** Concrete runs *)

Section Witnesses.
#[local] Existing Instances plain_number flat_libm one_token.

(** Notes that are not about dogs. *)
Definition notes : Filter :=
  mkFilter [Condition.Eq (str "kind") (JStr (str "note"))] [Condition.Exists (str "kind")]
    [Condition.Any (str "kind") [JStr (str "memo"); JBool true]].

Lemma kinds id r : m1.1 !! id = Some r -> vr_metadata r = {[ str "kind" := JStr (str "note") ]}.
Proof.
  assert (m1.1 = <[str "dog" := dog]> {[str "cat" := cat]}) as -> by reflexivity.
  rewrite lookup_insert_Some, lookup_singleton_Some. by intros [[_ <-]|[_ [_ <-]]].
Qed.

Lemma comparable_note value : text_ok no_text value -> comparable no_text value (JStr (str "note")).
Proof.
  intros Hw. split_and!; [done| |vm_compute; reflexivity..].
  apply (bool_decide_eq_true (nul_free (str "note"))). vm_compute. reflexivity.
Qed.

Lemma notes_agree c : c ∈ must notes ++ should notes ++ must_not notes -> agrees no_text m1.1 c.
Proof.
  intros Hc. cbn in Hc.
  repeat (apply elem_of_cons in Hc as [->|Hc]; [split; [done|]; intros id r ->%kinds; unfold cond_agrees;
    cbn [key]; rewrite lookup_singleton_eq|]); [..|by apply elem_of_nil in Hc].
  - apply comparable_note, (bool_decide_eq_true (nul_free (str "note"))). vm_compute. reflexivity.
  - done.
  - rewrite !Forall_cons. split_and!; [| |constructor]; apply comparable_note; [|by left].
    apply (bool_decide_eq_true (nul_free (str "memo"))). vm_compute. reflexivity.
Qed.

Lemma cats_utf8 id : is_Some (m1.1 !! id) -> valid_utf8 id = true.
Proof.
  assert (m1.1 = <[str "dog" := dog]> {[str "cat" := cat]}) as -> by reflexivity.
  intros [r Hr]. rewrite lookup_insert_Some, lookup_singleton_Some in Hr.
  destruct Hr as [[<- _]|[_ [<- _]]]; vm_compute; reflexivity.
Qed.

Lemma ids_where_exact_witness :
  ids_where no_text db_kind notes = Some [str "cat"; str "dog"] /\
  (ids_where no_text db_kind notes = None <-> (must notes = [] /\ should notes = []) \/ exists k, k ∈ filter_keys notes /\ k ∉ indexed_fields db_kind) /\
  (forall ids, ids_where no_text db_kind notes = Some ids ->
     StronglySorted ble ids /\ NoDup ids /\
     (forall id, id ∈ ids <-> exists r, m1.1 !! id = Some r /\ filter_matches notes (vr_metadata r) = true)).
Proof.
  split; [vm_compute; reflexivity|].
  apply (ids_where_exact no_text no_clock true db_kind m1.1 m1.2 notes);
    [apply db_kind_refines|apply cats_utf8| |apply notes_agree].
  refine (bool_decide_eq_true_1 _ _). vm_compute. reflexivity.
Defined.

Lemma count_where_exact_witness :
  count_where no_text db_kind notes = 2 /\
  count_where no_text db_kind notes =
  Z.of_nat (size (filter (fun p : bytes * VectorRecord => filter_matches notes (vr_metadata p.2) = true) m1.1)).
Proof.
  split; [vm_compute; reflexivity|].
  apply (count_where_exact no_text no_clock true db_kind m1.1 m1.2 notes);
    [apply db_kind_refines|apply cats_utf8| |apply notes_agree].
  refine (bool_decide_eq_true_1 _ _). vm_compute. reflexivity.
Defined.

(** A document whose [x] is a given value. *)
Definition doc_with (v : Json) : VectorRecord :=
  mkVectorRecord (str "d") [f32_of_Z 1] (str "d") {[ str "x" := v ]} None ∅ [] None.
Definition stored_with (v : Json) : Db :=
  (upsert no_text (fun _ => 1) no_clock quotas_default true db0 [doc_with v]).1.
Definition counts (v : Json) (c : Condition.Condition) : Z * Z :=
  let db := stored_with v in
  let f := add_must filter_default c in
  (count_where no_text db f, count_where no_text (create_payload_index no_text db (str "x")) f).

(** an index can change an answer. A stored negative zero is in the range
    [x >= 0] when documents are scanned and not when the index is; a stored
    timestamp equals another spelling of its instant only through the index. *)
Theorem index_changes_answers :
  counts (JNum (exist (fun n => plain_num_ok n = true) (Float (S754_zero true)) eq_refl : plain_number_type)) (Condition.Range (str "x") None (Some f64_zero) None None)
    = (1, 0) /\
  counts (JStr (str "2024-01-01T00:00:00Z")) (Condition.Eq (str "x") (JStr (str "2024-01-01T01:00:00+01:00")))
    = (0, 1).
Proof. split; vm_compute; reflexivity. Qed.
End Witnesses.
