(* ===== verification/QueryExec.v ===== *)
(** * Query execution (crates/connxism/src/query.rs)

    One typed request: prefetch stages fold into a scope, a scope, an indexed
    filter, a named space or the default hybrid gives the first candidates,
    then sparse fusion, late interaction, the post-filter, the threshold, the
    page and what of each winner is sent. Facets, counts and scrolling are
    beside it. *)
From Stdlib Require Import SpecFloat.
From S2P Require Import Prelude Floats ByteOrder Utf8 Json Query Geo Quant Heap AnnStore Ann Keys.
From S2P Require Import Model Kv Pending Store Fusion Searches FilterExec.
#[local] Set Default Goal Selector "!".
#[local] Set Warnings "-clear-no-such-hyp".
Local Open Scope Z_scope.

(** [Analyzer::highlight]: spans of a text that a query marks. *)
Class Highlighter := highlights : bytes -> bytes -> option (list (nat * nat)).

Definition FILTER_OVERFETCH : Z := 8.
Definition EXACT_SCOPE_MAX : Z := 65536.
Definition MAX_PREFETCH_DEPTH : nat := 3.

Section query.
Context `{SerdeNumber} `{Libm} `{TextAnalyzer} `{Ln32} `{LegacyPosting} `{Highlighter}.
Context {HC : BinaryHeap Scored reverse_key} {HR : BinaryHeap Scored scored_key}.
Variable json_text : Json -> bytes.

(** ** Scope *)

Definition get_aliases (db : Db) : gmap bytes bytes :=
  match get_cf db CF_META META_ALIASES with Some (RAliases m) => m | _ => ∅ end.
Definition resolve_alias (db : Db) (name : bytes) : bytes := default name (get_aliases db !! name).

Definition collection_members (db : Db) (name : bytes) : list bytes := (rows_under db CF_COLL (coll_prefix name)).*1.

(** A collection restricts like a scope; both given is the intersection. *)
Definition query_scope (db : Db) (q : EstateQuery) : option (list bytes) :=
  match q_collection q with
  | None => q_scope q
  | Some coll =>
      let members := collection_members db (resolve_alias db coll) in
      Some (match q_scope q with
            | None => members
            | Some explicit => filter (fun id => id ∈ members) explicit
            end)
  end.

(** ** The first candidates *)

Definition query_text (q : EstateQuery) : bytes := default [] (q_text q).
Definition query_vector (q : EstateQuery) : list f32 := default [] (q_vector q).
Definition is_some {A} (o : option A) : bool := match o with Some _ => true | None => false end.

Definition want (q : EstateQuery) : Z := sat_add (q_top_k q) (q_offset q).
Definition fetch_depth (q : EstateQuery) (dsl : Filter) : Z :=
  if filter_is_empty dsl && negb (is_some (q_multi q)) then want q else sat_mul (want q) FILTER_OVERFETCH.

Definition unscoped (s : ConnXRecall) (q : EstateQuery) (fetch : Z) : result RroError (list Candidate) :=
  if is_some (q_vector q) then hybrid_weighted s (query_text q) (query_vector q) fetch (q_fusion q) (q_fusion_mode q)
  else lexical_search s (query_text q) fetch.

(** A candidate of the named space with its document, if there is one. *)
Definition attach (db : Db) (c : Candidate) : Candidate :=
  match get_doc db (c_id c) with
  | Some d => mkCandidate (c_id c) (sd_text d) (c_score c) (sd_metadata d) (c_vector c) (c_highlights c)
  | None => c
  end.

Definition fuse_candidates (db : Db) (q : EstateQuery) (fetch : Z) (xs ys : list Candidate) : list Candidate :=
  omap (hydrate db) (truncate fetch (fuse (q_fusion_mode q) [scored_ids xs; scored_ids ys] (as_slice (q_fusion q)) RRF_K)).

Definition named_hybrid (s : ConnXRecall) (q : EstateQuery) (space : bytes) (vector : list f32) (fetch : Z)
  : result RroError (list Candidate) :=
  let dense := named_search (db s) space vector fetch in
  let text := query_text q in
  lexical ← (if bool_decide (text = []) then Ok [] else lexical_search s text fetch);
  if bool_decide (lexical = []) then Ok (map (attach (db s)) dense)
  else Ok (fuse_candidates (db s) q fetch dense lexical).

(** The candidates, the ids they are confined to, and whether they already
    satisfy the filter. *)
Record Phase : Type := mkPhase { results : list Candidate; allowed : option (gset bytes); prefiltered : bool }.

Definition filtered_phase (s : ConnXRecall) (q : EstateQuery) (ids : list bytes) : result RroError Phase :=
  let allow := list_to_set ids in
  if Z.of_nat (length ids) <=? EXACT_SCOPE_MAX then
    l ← (if bool_decide (ids = []) then Ok []
         else scoped_search s (query_text q) (query_vector q) (want q) ids);
    Ok (mkPhase l (Some allow) true)
  else
    l ← filter_aware_search s (query_text q) (query_vector q) (want q) allow (q_fusion q) (q_fusion_mode q);
    Ok (mkPhase l (Some allow) true).

Definition first_phase (s : ConnXRecall) (q : EstateQuery) (dsl : Filter) (fetch : Z) : result RroError Phase :=
  match query_scope (db s) q with
  | Some scope =>
      l ← scoped_search s (query_text q) (query_vector q) fetch scope;
      Ok (mkPhase l (Some (list_to_set scope)) false)
  | None =>
      if negb (filter_is_empty dsl) then
        match ids_where json_text (db s) dsl with
        | Some ids => filtered_phase s q ids
        | None => l ← unscoped s q fetch; Ok (mkPhase l None false)
        end
      else
        l ← match q_using q, q_vector q with
            | Some space, Some v => named_hybrid s q space v fetch
            | _, _ => unscoped s q fetch
            end;
        Ok (mkPhase l None false)
  end.

(** ** Sparse fusion *)

Definition sparse_phase (s : ConnXRecall) (q : EstateQuery) (fetch : Z) (p : Phase) : result RroError (list Candidate) :=
  match q_sparse q with
  | Some sv =>
      if sparse_is_empty sv then Ok (results p)
      else
        sparse ← sparse_search (db s) sv fetch;
        let sparse := match allowed p with Some a => filter (fun c => c_id c ∈ a) sparse | None => sparse end in
        if bool_decide (sparse = []) then Ok (results p) else Ok (fuse_candidates (db s) q fetch (results p) sparse)
  | None => Ok (results p)
  end.

(** ** Late interaction *)

Definition with_payload (c : Candidate) (text : bytes) (metadata : Metadata) : Candidate :=
  mkCandidate (c_id c) text (c_score c) metadata (c_vector c) (c_highlights c).

(** Text, and metadata with it, where the text is missing. *)
Definition fill_text (db : Db) (c : Candidate) : Candidate :=
  if bool_decide (c_text c = []) then
    match get_doc db (c_id c) with
    | Some d => with_payload c (sd_text d) (if bool_decide (c_metadata c = ∅) then sd_metadata d else c_metadata c)
    | None => c
    end
  else c.

Definition multi_phase (db : Db) (q : EstateQuery) (l : list Candidate) : result RroError (list Candidate) :=
  match q_multi q with
  | Some tokens =>
      if bool_decide (tokens = []) then Ok l
      else l ← maxsim_rescore db l tokens; Ok (map (fill_text db) l)
  | None => Ok l
  end.

(** ** Filter, threshold, page *)

(** Metadata, and text with it, where the metadata is missing. *)
Definition fill_metadata (db : Db) (c : Candidate) : Candidate :=
  if bool_decide (c_metadata c = ∅) then
    match get_doc db (c_id c) with
    | Some d => with_payload c (if bool_decide (c_text c = []) then sd_text d else c_text c) (sd_metadata d)
    | None => c
    end
  else c.

Definition filter_phase (db : Db) (dsl : Filter) (prefiltered : bool) (l : list Candidate) : list Candidate :=
  if negb (filter_is_empty dsl) && negb prefiltered then
    filter (fun c => filter_matches dsl (c_metadata c) = true) (map (fill_metadata db) l)
  else l.

Definition threshold_phase (q : EstateQuery) (l : list Candidate) : list Candidate :=
  match q_score_threshold q with
  | Some t => filter (fun c => fge (c_score c) t = true) l
  | None => l
  end.

(** [into_iter().skip(offset)] for a [usize], then [truncate]. *)
Definition page_phase (q : EstateQuery) (l : list Candidate) : list Candidate :=
  truncate (q_top_k q) (drop (Z.to_nat (Z.min (q_offset q) (Z.of_nat (length l)))) l).

(** ** What is sent *)

Definition strip (q : EstateQuery) (c : Candidate) : Candidate :=
  if q_with_payload q then c else with_payload c [] ∅.
Definition add_vector (db : Db) (q : EstateQuery) (c : Candidate) : Candidate :=
  if q_with_vectors q then mkCandidate (c_id c) (c_text c) (c_score c) (c_metadata c) (vector_of db (c_id c)) (c_highlights c)
  else c.
Definition add_highlights (q : EstateQuery) (c : Candidate) : option Candidate :=
  if q_highlight q then
    match q_text q with
    | Some qt =>
        if bool_decide (c_text c = []) then Some c
        else (fun h => mkCandidate (c_id c) (c_text c) (c_score c) (c_metadata c) (c_vector c) h) <$> highlights (c_text c) qt
    | None => Some c
    end
  else Some c.

Definition send_phase (db : Db) (q : EstateQuery) (l : list Candidate) : result RroError (list Candidate) :=
  or_panic (mapM (fun c => add_highlights q (add_vector db q (strip q c))) l).

(** ** One stage *)

Definition query_flat (s : ConnXRecall) (q : EstateQuery) : result RroError (list Candidate) :=
  if q_top_k q =? 0 then Ok []
  else
    let dsl := effective_filter q in
    let fetch := fetch_depth q dsl in
    p ← first_phase s q dsl fetch;
    l ← sparse_phase s q fetch p;
    l ← multi_phase (db s) q l;
    send_phase (db s) q (page_phase q (threshold_phase q (filter_phase (db s) dsl (prefiltered p) l))).

(** ** Prefetch *)

Definition set_stage (q : EstateQuery) (scope : option (list bytes)) (top_k : Z) (payload : bool)
  (prefetch : list (EstateQuery * Z)) : EstateQuery :=
  mkEstateQuery (q_text q) (q_vector q) (q_sparse q) (q_using q) (q_collection q) (q_multi q) top_k (q_filter q) (q_dsl q)
    scope (q_score_threshold q) payload (q_offset q) (q_with_vectors q) (q_highlight q) prefetch (q_fusion q) (q_fusion_mode q).

(** [inner.top_k = stage.limit; inner.with_payload = false] *)
Definition stage_query (inner : EstateQuery) (limit : Z) : EstateQuery :=
  set_stage inner (q_scope inner) limit false (q_prefetch inner).

Definition add_id (union : list bytes) (c : Candidate) : list bytes :=
  if bool_decide (c_id c ∈ union) then union else union ++ [c_id c].

(** The stages in order, the union of their ids in order of first appearance. *)
Fixpoint gather (run : EstateQuery -> result RroError (list Candidate)) (stages : list (EstateQuery * Z)) (union : list bytes)
  : result RroError (list bytes) :=
  match stages with
  | [] => Ok union
  | (inner, limit) :: stages => l ← run (stage_query inner limit); gather run stages (fold_left add_id l union)
  end.

Definition fold_scope (q : EstateQuery) (union : list bytes) : EstateQuery :=
  set_stage q
    (Some (match q_scope q with None => union | Some explicit => filter (fun id => id ∈ explicit) union end))
    (q_top_k q) (q_with_payload q) [].

(** [query_depth] at depth [MAX_PREFETCH_DEPTH - levels] *)
Fixpoint query_depth (s : ConnXRecall) (levels : nat) (q : EstateQuery) : result RroError (list Candidate) :=
  match q_prefetch q with
  | [] => query_flat s q
  | stages =>
      match levels with
      | O => Err PrefetchTooDeep
      | S levels => union ← gather (query_depth s levels) stages []; query_flat s (fold_scope q union)
      end
  end.

Definition query (s : ConnXRecall) (q : EstateQuery) : result RroError (list Candidate) :=
  match max_top_k (quotas s) with
  | Some cap => if cap <? q_top_k q then Err (QuotaTopK (q_top_k q) cap) else query_depth s MAX_PREFETCH_DEPTH q
  | None => query_depth s MAX_PREFETCH_DEPTH q
  end.

(** ** Facets *)

(** The documents in key order; other rows of the family do not occur. *)
Definition all_docs (db : Db) : list (bytes * StoredDoc) :=
  omap (fun '(k, v) => match v with RDoc d => Some (k, d) | _ => None end) (iter_all db CF_DOCS).

Definition count_up (counts : gmap bytes Z) (k : bytes) : gmap bytes Z := <[k := default 0 (counts !! k) + 1]> counts.

(** A string as it is, anything else as JSON text. *)
Definition facet_key (v : Json) : bytes := match v with JStr s => s | other => json_text other end.

Definition facet_scan (db : Db) (field : bytes) : gmap bytes Z :=
  fold_left (fun out '(_, d) => match sd_metadata d !! field with Some v => count_up out (facet_key v) | None => out end)
    (all_docs db) ∅.

(** [rposition] *)
Fixpoint last_sep (b : bytes) : option nat :=
  match b with
  | [] => None
  | c :: b => match last_sep b with Some i => Some (S i) | None => if c =? SEP then Some 0%nat else None end
  end.

Definition true_text : bytes := str "true".
Definition false_text : bytes := str "false".

(** One row's facet value: [None] falls back to the scan, [Some None] skips. *)
Definition facet_value (rest : bytes) : option (option bytes) :=
  match rest with
  | [] => Some None
  | tag :: payload =>
      match last_sep payload with
      | None => Some None
      | Some sep_pos =>
          let value := take sep_pos payload in
          if tag =? PIDX_STR then Some (Some (from_utf8_lossy value))
          else if tag =? PIDX_BOOL then Some (Some (if bool_decide (value = [1]) then true_text else false_text))
          else None
      end
  end.

Definition facet_from_index (db : Db) (field : bytes) : option (gmap bytes Z) :=
  let p := pidx_field_prefix field in
  fold_opt (fun out '(k, _) =>
      v ← facet_value (drop (length p) k);
      Some (match v with Some surface => count_up out surface | None => out end))
    ∅ (scan_prefix db CF_PIDX p).

Definition facet (db : Db) (field : bytes) : gmap bytes Z :=
  if bool_decide (field ∈ indexed_fields db) then
    match facet_from_index db field with Some counts => counts | None => facet_scan db field end
  else facet_scan db field.

Definition distinct (db : Db) (field : bytes) : list bytes := (btree_iter (facet db field)).*1.

(** ** Counts and scrolling *)

Definition matches_filter (metadata filter : Metadata) : bool :=
  forallb (fun '(k, v) => match metadata !! k with Some w => json_eqb w v | None => false end) (btree_iter filter).

Definition count (db : Db) (filter : Metadata) : Z :=
  if bool_decide (filter = ∅) then get_u64 db META_DOC_COUNT
  else Z.of_nat (length (List.filter (fun p => matches_filter (sd_metadata p.2) filter) (all_docs db))).

Fixpoint scroll_loop (after : option bytes) (limit : Z) (rows : list (bytes * StoredDoc)) (out : list StoredDoc) : list StoredDoc :=
  match rows with
  | [] => out
  | (k, d) :: rows =>
      if bool_decide (after = Some k) then scroll_loop after limit rows out
      else
        let out := out ++ [d] in
        if limit <=? Z.of_nat (length out) then out else scroll_loop after limit rows out
  end.

Definition docs_from (db : Db) (start : bytes) : list (bytes * StoredDoc) :=
  omap (fun '(k, v) => match v with RDoc d => Some (k, d) | _ => None end) (iter_from db CF_DOCS start).

Definition scroll (db : Db) (after : option bytes) (limit : Z) : list StoredDoc :=
  scroll_loop after limit (match after with Some a => docs_from db a | None => all_docs db end) [].
End query.
