(* ===== verification/QueryFacts.v ===== *)
(** * Every search answers documents

    Totality and soundness of each search the executor composes: none fails
    on a store that refines a map of records, and what they answer are
    documents of the map, none twice, inside the ids they were confined to. *)
From Stdlib Require Import SpecFloat.
From S2P Require Import Prelude Floats ByteOrder Utf8 Json Query Geo Quant Heap AnnStore Ann AnnFacts.
From S2P Require Import AnnSpec Keys KeysFacts Model Kv Pending Store StoreFacts StoreTx StoreSpec.
From S2P Require Import Fusion Searches SearchFacts LexFacts SearchSpec.
From S2P Require Import FilterExec QueryExec.
#[local] Set Default Goal Selector "!".
#[local] Set Warnings "-clear-no-such-hyp".
Local Open Scope Z_scope.

Lemma or_panic_ok {A} (o : option A) (x : A) : o = Some x -> or_panic o = Ok x.
Proof. by intros ->. Qed.

Lemma mapM_forall2 {A B} (f : A -> option B) (l : list A) :
  (forall x, x ∈ l -> is_Some (f x)) -> exists l', mapM f l = Some l' /\ Forall2 (fun x y => f x = Some y) l l'.
Proof.
  intros Hf. destruct (mapM_is_Some_2 f l) as [l' E].
  - apply Forall_forall. exact Hf.
  - exists l'. split; [done|]. by apply mapM_Some.
Qed.

Section facts.
Context `{SerdeNumber} `{Libm} `{TextAnalyzer} `{Ln32} `{LegacyPosting}.
Context {HC : BinaryHeap Scored reverse_key} {HR : BinaryHeap Scored scored_key}.
Context {LC : BinaryHeapLaws Scored reverse_key} {LR : BinaryHeapLaws Scored scored_key}.
Variable json_text : Json -> bytes.
Variable now_ms : Z -> Z.
Variable lexical_stats : bool.

(** A candidate carries the payload of a document, or none of it. *)
Definition carries (r : VectorRecord) (c : Candidate) : Prop := c_text c = vr_text r /\ c_metadata c = vr_metadata r.
Definition is_bare (c : Candidate) : Prop := c_text c = [] /\ c_metadata c = ∅.

(** A candidate that stands for a document and carries its payload, or, where
    not all are [filled], none. *)
Definition cand_ok (m : gmap bytes VectorRecord) (filled : bool) (c : Candidate) : Prop :=
  exists r, m !! c_id c = Some r /\ (carries r c \/ filled = false /\ is_bare c) /\ c_vector c = None.
Definition cands_ok (m : gmap bytes VectorRecord) (filled : bool) (P : bytes -> Prop) (l : list Candidate) : Prop :=
  NoDup (map c_id l) /\ forall c, c ∈ l -> cand_ok m filled c /\ P (c_id c).

Section store.
Context (s : ConnXRecall) (m : gmap bytes VectorRecord) (log : Log).
Hypothesis Hrefines : Refines json_text now_ms lexical_stats (db s) m log.
Hypothesis Hs : searchable m.
Hypothesis Hnul : forall t, Forall nul_free (analyze t).
Hypothesis Hstats : is_Some (get_cf (db s) CF_META META_LEXSTATS) -> lexical_stats = true.
Hypothesis Hgraph : graph_ok (ann s).

Let Hids : ids_ok m := rf_ids _ _ _ _ _ _ Hrefines.
Let Hrows : rows_ok json_text (indexed_fields (db s)) (db s) m := rf_rows _ _ _ _ _ _ Hrefines.

(** *** Shapes of answers *)

Lemma cands_nil b P : cands_ok m b P [].
Proof. split; [constructor|]. by intros c ?%elem_of_nil. Qed.

Lemma cands_weaken b (P P' : bytes -> Prop) l : (forall id, P id -> P' id) -> cands_ok m b P l -> cands_ok m b P' l.
Proof. intros Hp [Hn Hc]. split; [done|]. intros c Hin. destruct (Hc c Hin). auto. Qed.

Lemma cand_unfilled b c : cand_ok m true c -> cand_ok m b c.
Proof. intros (r & Hr & [Hc|[? _]] & Hv); [|done]. exists r. auto. Qed.
Lemma cands_unfilled b P l : cands_ok m true P l -> cands_ok m b P l.
Proof. intros [Hn Hc]. split; [done|]. intros c Hin. destruct (Hc c Hin). split; [by apply cand_unfilled|done]. Qed.

Lemma cands_sublist b (P : bytes -> Prop) l l' : l' `sublist_of` l -> cands_ok m b P l -> cands_ok m b P l'.
Proof.
  intros Hl [Hn Hc]. split; [by eapply sublist_NoDup, (fmap_sublist c_id)|]. intros c Hin. apply Hc. by eapply sublist_subseteq.
Qed.

Lemma doc_hit_ok r sc : m !! vr_id r = Some r -> cand_ok m true (doc_hit r sc).
Proof. intros Hr. exists r. split_and!; [done|by left|done]. Qed.

Lemma cands_hydrated (P : bytes -> Prop) l :
  NoDup l.*1 -> (forall id, id ∈ l.*1 -> P id) -> cands_ok m true P (omap (hydrate (db s)) l).
Proof.
  intros Hn Hp. erewrite hydrate_hits by exact Hrefines. split.
  - eapply sublist_NoDup; [exact Hn|]. eapply doc_hits_ids. by eapply refines_keyed.
  - intros c Hc. eapply elem_of_doc_hits in Hc as [Hin (r & Hr & E)]; [|by eapply refines_keyed]. split.
    + rewrite E. apply doc_hit_ok. by destruct (Hids _ _ Hr) as [-> _].
    + apply Hp. by apply (list_elem_of_fmap_2 fst) in Hin.
Qed.

Lemma cands_bare (P : bytes -> Prop) l :
  NoDup l.*1 -> (forall id, id ∈ l.*1 -> is_Some (m !! id) /\ P id) -> cands_ok m false P (map bare l).
Proof.
  intros Hn Hp. split; [by rewrite bare_ids|]. intros c ([id sc] & -> & Hin)%list_elem_of_fmap.
  destruct (Hp id) as [[r Hr] Hid]; [by apply (list_elem_of_fmap_2' fst _ (id, sc))|]. split; [|done].
  exists r. split_and!; [done|by right|done].
Qed.

(** Fused lists, hydrated. *)
Lemma cands_fused (P : bytes -> Prop) mode scored weights fetch :
  (forall l id, l ∈ scored -> id ∈ l.*1 -> P id) ->
  cands_ok m true P (omap (hydrate (db s)) (truncate fetch (fuse mode scored weights RRF_K))).
Proof.
  intros Hp. apply cands_hydrated.
  - eapply sublist_NoDup; [|apply fmap_sublist, truncate_sublist]. rewrite fuse_is_votes. apply ranked_NoDup.
  - intros id Hid. assert (id ∈ (fuse mode scored weights RRF_K).*1) as Hf.
    { eapply sublist_subseteq; [apply fmap_sublist, truncate_sublist|done]. }
    rewrite fuse_is_votes in Hf. apply elem_of_ranked_ids in Hf. rewrite tally_dom, fuse_votes_ids in Hf.
    destruct Hf as (li & l & Hl & _ & Hin). eapply Hp; [|done]. by eapply list_elem_of_lookup_2.
Qed.

Lemma truncate_ranked_ids k M (id : bytes) : id ∈ (truncate k (ranked M)).*1 -> is_Some (M !! id).
Proof.
  intros Hid. apply elem_of_ranked_ids. eapply sublist_subseteq; [apply fmap_sublist, truncate_sublist|done].
Qed.
Lemma cands_ranked P k M :
  (forall id : bytes, is_Some (M !! id) -> is_Some (m !! id) /\ P id) -> cands_ok m false P (map bare (truncate k (ranked M))).
Proof.
  intros Hp. apply cands_bare.
  - eapply sublist_NoDup; [apply ranked_NoDup|]. apply fmap_sublist, truncate_sublist.
  - intros id Hid%truncate_ranked_ids. by apply Hp.
Qed.

(** *** Lexical *)

Lemma full_scores_known params terms (id : bytes) : is_Some (full_scores m params terms !! id) -> is_Some (m !! id).
Proof.
  intros (c & (t & -> & _)%list_elem_of_fmap & Hc)%sum_scores_dom. unfold full_term, term_scores in Hc.
  destruct (feq _ _); [by destruct Hc|]. rewrite lookup_fmap in Hc. apply fmap_is_Some in Hc. by eapply postings_known.
Qed.

Lemma lexical_full_ok terms k :
  Forall nul_free terms -> exists l, lexical_blocking (db s) (params s) terms k = Ok l /\ cands_ok m false (fun _ => True) l.
Proof.
  intros Ht. eexists. split.
  - by apply (lexical_blocking_exact json_text (indexed_fields (db s)) (db s) m Hids Hrows Hs
      (corpus_docs json_text now_ms lexical_stats _ _ _ Hrefines) (corpus_token_sum json_text now_ms lexical_stats _ _ _ Hrefines)).
  - apply cands_ranked. intros id Hid. split; [by eapply full_scores_known|done].
Qed.

Lemma lexical_topk_ok terms k :
  Forall nul_free terms -> 0 <= k ->
  exists l, lexical_topk_blocking (db s) (params s) terms k = Ok l /\ cands_ok m false (fun _ => True) l.
Proof.
  intros Ht Hk. destruct (decide (is_Some (get_cf (db s) CF_META META_LEXSTATS))) as [Hsome|Est%eq_None_not_Some].
  2: { unfold lexical_topk_blocking. rewrite Est. by apply lexical_full_ok. }
  pose proof (corpus_docs json_text now_ms lexical_stats _ _ _ Hrefines) as Hd.
  destruct (decide (k = 0 \/ corpus_size m = 0)) as [Hz|Hz].
  { exists []. split; [|apply cands_nil]. unfold lexical_topk_blocking. destruct Hsome as [row ->]. rewrite Hd.
    destruct Hz as [-> | ->]; [by rewrite orb_true_r|done]. }
  destruct (lexical_topk_spec json_text (indexed_fields (db s)) (db s) m Hids Hrows Hs Hd
    (corpus_token_sum json_text now_ms lexical_stats _ _ _ Hrefines) (rf_tdf _ _ _ _ _ _ Hrefines (Hstats Hsome))
    (params s) terms k Hsome Ht ltac:(lia) ltac:(lia)) as (dn & pr & _ & -> & _).
  eexists. split; [done|]. apply cands_ranked. intros id [x Hx]. split; [|done]. rewrite kept_lookup in Hx.
  destruct (sum_of m (params s) dn !! id) eqn:E; [|done]. by eapply sum_of_known.
Qed.

Lemma lexical_search_ok query k :
  0 <= k -> exists l, lexical_search s query k = Ok l /\ cands_ok m false (fun _ => True) l.
Proof.
  intros Hk. unfold lexical_search. destruct (bool_decide _ || _); [|by apply lexical_topk_ok].
  exists []. split; [done|apply cands_nil].
Qed.

(** *** Dense and hybrid *)

Lemma dense_total query k fetch : exists l, dense_blocking s query k fetch = Ok l.
Proof.
  unfold dense_blocking, dense_hits. destruct (_ <=? _)%nat; [|by eexists]. unfold graph_hits.
  destruct (overfetch _) as [factor floor]. set (f := sat_mul k factor).
  destruct (search_total (ann s) query (Z.to_nat f) (Z.to_nat (Z.max f floor)) Hgraph) as (hs & -> & _).
  cbn [or_panic mbind result_bind]. destruct (overlay _ _) as [ups dels]. by eexists.
Qed.

Lemma hybrid_ok text query k weights mode :
  0 <= k -> exists l, hybrid_weighted s text query k weights mode = Ok l /\ cands_ok m true (fun _ => True) l.
Proof.
  intros Hk. unfold hybrid_weighted. destruct (k =? 0); [exists []; split; [done|apply cands_nil]|].
  set (depth := Z.max _ _). destruct (dense_total query depth false) as [dense ->]. cbn [mbind result_bind].
  assert (exists l, (if bool_decide (analyze text = []) then Ok [] else lexical_topk_blocking (db s) (params s) (analyze text) depth) = Ok l) as [lex ->].
  { case_bool_decide; [by eexists|]. destruct (lexical_topk_ok (analyze text) depth) as (l & -> & _); [done|lia|]. by eexists. }
  cbn [mbind result_bind]. eexists. split; [done|]. by apply cands_fused.
Qed.

(** *** Scoped *)

Lemma scoped_ok text query k scope :
  exists l, scoped_search s text query k scope = Ok l /\ cands_ok m true (fun id => id ∈ scope) l.
Proof.
  unfold scoped_search. destruct (_ || _); [exists []; split; [done|apply cands_nil]|].
  set (dense := rank _). assert (exists lex, (if bool_decide (analyze text = []) then Ok [] else lexical_blocking (db s) (params s) (analyze text) usize_max) = Ok lex) as [lex ->].
  { case_bool_decide; [by eexists|]. destruct (lexical_full_ok (analyze text) usize_max (Hnul text)) as (l & -> & _). by eexists. }
  cbn [mbind result_bind]. eexists. split; [done|]. set (lx := filter _ lex).
  change (reciprocal_rank_fusion [map fst dense; map c_id lx] RRF_K) with (reciprocal_rank_fusion_weighted [dense.*1; map c_id lx] [] RRF_K).
  rewrite <- (scored_ids_fst lx). apply (cands_fused _ Rrf [dense; scored_ids lx]).
  intros l id [-> |[->|[]%elem_of_nil]%elem_of_cons]%elem_of_cons Hid.
  - apply list_elem_of_fmap in Hid as ([i x] & -> & Hin). unfold dense in Hin. rewrite rank_perm in Hin.
    apply list_elem_of_omap in Hin as (i' & Hi & (v & _ & [= -> _])%fmap_Some). done.
  - rewrite scored_ids_fst in Hid. apply list_elem_of_fmap in Hid as (c & -> & Hc). by apply list_elem_of_filter in Hc as [??].
Qed.

(** *** Filter-aware *)

Lemma hydrate_exact_some query id c :
  hydrate_exact (db s) query id = Some c -> c_id c = id /\ cand_ok m true c.
Proof.
  unfold hydrate_exact. rewrite (vector_of_exact json_text (indexed_fields (db s)) (db s) m Hids Hrows Hs).
  erewrite doc_exact by exact Hrefines. destruct (m !! id) as [r|] eqn:Er; [|done]. cbn.
  intros [= <-]. split; [done|]. exists r. split_and!; [done|by left|done].
Qed.

Lemma hydrated_exact_ids query l : map c_id (omap (hydrate_exact (db s) query) l) `sublist_of` l.
Proof.
  induction l as [|id l IH]; [done|]. cbn [omap list_omap]. destruct (hydrate_exact (db s) query id) as [c|] eqn:E.
  - apply hydrate_exact_some in E as [<- _]. cbn. by apply sublist_skip.
  - by apply sublist_cons.
Qed.

Lemma cands_perm b P l l' : l ≡ₚ l' -> cands_ok m b P l -> cands_ok m b P l'.
Proof.
  intros Hp [Hn Hc]. split; [by rewrite <- Hp|]. intros c Hin. apply Hc. by rewrite Hp.
Qed.

Lemma cands_exact (P : bytes -> Prop) query k (ids : list bytes) :
  NoDup ids -> (forall id, id ∈ ids -> P id) ->
  cands_ok m true P (merge_sort cand_le (omap (hydrate_exact (db s) query) (truncate k ids))).
Proof.
  intros Hn Hp. eapply cands_perm; [symmetry; apply merge_sort_Permutation|]. split.
  - eapply sublist_NoDup; [exact Hn|]. etransitivity; [apply hydrated_exact_ids|apply truncate_sublist].
  - intros c (id & Hid & Hc)%list_elem_of_omap. apply hydrate_exact_some in Hc as [-> Hc]. split; [done|]. apply Hp.
    eapply sublist_subseteq; [apply truncate_sublist|done].
Qed.

Lemma filter_aware_ok text query k allow weights mode :
  exists l, filter_aware_search s text query k allow weights mode = Ok l /\ cands_ok m true (fun id => id ∈ allow) l.
Proof.
  unfold filter_aware_search. destruct (_ || _); [exists []; split; [done|apply cands_nil]|].
  destruct (negb _).
  { destruct (scoped_ok text query k (elements allow)) as (l & -> & Hl). exists l. split; [done|].
    eapply cands_weaken; [|exact Hl]. intros id. apply elem_of_elements. }
  destruct (search_filtered_total (ann s) query (Z.to_nat k) (Z.to_nat (Z.max k 64)) allow Hgraph) as (dense & -> & Hn & Hin).
  cbn [or_panic mbind result_bind].
  assert (exists lex, (if bool_decide (analyze text = []) then Ok [] else
      lex ← lexical_blocking (db s) (params s) (analyze text) (wrap_mul k 4);
      Ok (scored_ids (filter (fun c => c_id c ∈ allow) lex))) = Ok lex /\ forall id, id ∈ lex.*1 -> id ∈ allow) as (lex & -> & Hlex).
  { case_bool_decide; [exists []; split; [done|]; by intros id ?%elem_of_nil|].
    destruct (lexical_full_ok (analyze text) (wrap_mul k 4) (Hnul text)) as (l & -> & _). eexists. split; [done|].
    intros id. rewrite scored_ids_fst. intros (c & -> & [Hc _]%list_elem_of_filter)%list_elem_of_fmap. done. }
  cbn [mbind result_bind]. eexists. split; [done|]. apply cands_exact.
  - case_bool_decide; [done|]. rewrite fuse_is_votes. apply ranked_NoDup.
  - intros id Hid. case_bool_decide; [by apply Hin|]. rewrite fuse_is_votes in Hid. apply elem_of_ranked_ids in Hid.
    rewrite tally_dom, fuse_votes_ids in Hid. destruct Hid as (li & l & Hl & _ & Hid). destruct li as [|[|li]]; cbn in Hl; simplify_eq; auto.
Qed.

(** *** Named spaces *)

Lemma named_ok space query k :
  nul_free space -> 0 <= k -> cands_ok m false (fun _ => True) (named_search (db s) space query k).
Proof.
  intros Hsp Hk. rewrite (named_search_exact_hits json_text (indexed_fields (db s)) (db s) m Hids Hrows Hs) by done.
  apply cands_ranked. intros id Hid. split; [|done]. unfold space_cosines in Hid. rewrite lookup_omap in Hid.
  destruct (m !! id); [by eexists|by destruct Hid].
Qed.

Lemma cands_map b b' P (f : Candidate -> Candidate) l :
  (forall c, c_id (f c) = c_id c) -> (forall c, c ∈ l -> cand_ok m b c -> cand_ok m b' (f c)) -> cands_ok m b P l -> cands_ok m b' P (map f l).
Proof.
  intros Hid Hf [Hn Hc]. split.
  - rewrite map_map. erewrite map_ext; [exact Hn|done].
  - intros c (c' & -> & Hin)%list_elem_of_fmap. destruct (Hc c' Hin). split; [by apply Hf|by rewrite Hid].
Qed.

Lemma attach_id d c : c_id (attach d c) = c_id c.
Proof. unfold attach. by destruct (get_doc _ _). Qed.
Lemma attach_ok b c : cand_ok m b c -> cand_ok m true (attach (db s) c).
Proof.
  intros (r & Hr & _ & Hv). exists r. unfold attach. erewrite doc_exact by exact Hrefines. rewrite Hr. split_and!; [done|by left|done].
Qed.

Lemma named_hybrid_ok q space vector fetch :
  nul_free space -> 0 <= fetch ->
  exists l, named_hybrid s q space vector fetch = Ok l /\ cands_ok m true (fun _ => True) l.
Proof.
  intros Hsp Hf. unfold named_hybrid.
  assert (exists lex, (if bool_decide (query_text q = []) then Ok [] else lexical_search s (query_text q) fetch) = Ok lex) as [lex ->].
  { case_bool_decide; [by eexists|]. destruct (lexical_search_ok (query_text q) fetch Hf) as (l & -> & _). by eexists. }
  cbn [mbind result_bind]. case_bool_decide.
  - eexists. split; [done|]. apply (cands_map false); [apply attach_id|intros c _; apply attach_ok|by apply named_ok].
  - eexists. split; [done|]. by apply cands_fused.
Qed.

Lemma unscoped_ok q fetch :
  0 <= fetch -> exists l, unscoped s q fetch = Ok l /\ cands_ok m (is_some (q_vector q)) (fun _ => True) l.
Proof. intros Hf. unfold unscoped. destruct (is_some _); [by apply hybrid_ok|by apply lexical_search_ok]. Qed.

(** *** Sparse fusion *)

Definition confines (allow : option (gset bytes)) (P : bytes -> Prop) : Prop :=
  match allow with Some a => forall id, id ∈ a -> P id | None => forall id, P id end.

Lemma sparse_phase_ok b q fetch p P :
  (forall sv, q_sparse q = Some sv -> Forall (fun dw => dim_ok dw.1) (sparse_iter sv)) -> 0 <= fetch ->
  confines (allowed p) P -> cands_ok m b P (results p) ->
  exists l, sparse_phase s q fetch p = Ok l /\ cands_ok m b P l.
Proof.
  intros Hd Hf Hp Hl. unfold sparse_phase. destruct (q_sparse q) as [sv|]; [|by eexists].
  destruct (sparse_is_empty sv); [by eexists|].
  rewrite (sparse_search_exact_hits json_text (indexed_fields (db s)) (db s) m Hids Hrows Hs) by auto.
  cbn [mbind result_bind]. set (sp := match allowed p with Some _ => _ | None => _ end).
  assert (forall id, id ∈ map c_id sp -> P id) as Hsp.
  { unfold sp, confines in *. destruct (allowed p) as [a|]; [|auto].
    intros id (c & -> & [Hc _]%list_elem_of_filter)%list_elem_of_fmap. auto. }
  case_bool_decide; [by eexists|]. eexists. split; [done|]. apply cands_unfilled, cands_fused.
  intros l id [-> |[->|[]%elem_of_nil]%elem_of_cons]%elem_of_cons; rewrite scored_ids_fst; [|by apply Hsp].
  intros (c & -> & Hc)%list_elem_of_fmap. by apply Hl.
Qed.

(** *** Late interaction *)

Definition rescored (p : Candidate * option f32) : Candidate :=
  match p.2 with Some x => with_score p.1 x | None => p.1 end.

Lemma split_scored (l : list (Candidate * option f32)) :
  omap (fun '(c, x) => with_score c <$> x) l ++ omap (fun '(c, x) => match x with Some _ => None | None => Some c end) l ≡ₚ map rescored l.
Proof.
  induction l as [|[c [x|]] l IH]; [done| |]; cbn.
  - by rewrite IH.
  - by rewrite <- Permutation_middle, IH.
Qed.

Lemma maxsim_ok b query P l : cands_ok m b P l -> exists l', maxsim_rescore (db s) l query = Ok l' /\ cands_ok m b P l'.
Proof.
  intros Hl. unfold maxsim_rescore. destruct (_ || _); [by eexists|].
  destruct (mapM_forall2 (fun c => maxsim_score (db s) query (c_id c)) l) as (scores & E & Hf).
  { intros c _. rewrite (maxsim_score_exact json_text (indexed_fields (db s)) (db s) m Hids Hrows Hs). by eexists. }
  rewrite E. cbn [or_panic mbind result_bind]. eexists. split; [done|].
  eapply cands_perm; [symmetry; etransitivity; [apply Permutation_app_tail, merge_sort_Permutation|apply split_scored]|].
  apply Forall2_length in Hf. destruct Hl as [Hn Hc].
  assert (map c_id (map rescored (zip l scores)) = map c_id l) as Eid.
  { rewrite map_map. rewrite <- (fst_zip l scores) at 2 by lia. change (map c_id (zip l scores).*1) with (c_id <$> (zip l scores).*1).
    rewrite <- list_fmap_compose. apply map_ext. intros [c [x|]]; done. }
  split; [by rewrite Eid|]. intros c ([c' x] & -> & Hin)%list_elem_of_fmap.
  assert (c' ∈ l) as Hl by (by apply elem_of_zip_l in Hin). destruct (Hc c' Hl) as [Hok HP].
  unfold rescored. cbn. by destruct x.
Qed.

Lemma fill_text_id d c : c_id (fill_text d c) = c_id c.
Proof. unfold fill_text. case_bool_decide; [|done]. by destruct (get_doc _ _). Qed.
Lemma fill_text_ok b c : cand_ok m b c -> cand_ok m true (fill_text (db s) c).
Proof.
  intros (r & Hr & Hc & Hv). exists r. rewrite fill_text_id. split; [done|]. unfold fill_text.
  erewrite doc_exact by exact Hrefines. rewrite Hr. case_bool_decide as Et.
  - split; [left|done]. split; [done|]. cbn. case_bool_decide as Em; [done|]. by destruct Hc as [[_ ?]|(_ & _ & ?)].
  - split; [|done]. left. by destruct Hc as [?|(_ & ? & _)].
Qed.

(** Late interaction ran. *)
Definition interacts (q : EstateQuery) : bool := match q_multi q with Some toks => negb (bool_decide (toks = [])) | None => false end.

Lemma multi_phase_ok b q P l : cands_ok m b P l -> exists l', multi_phase (db s) q l = Ok l' /\ cands_ok m (b || interacts q) P l'.
Proof.
  intros Hl. unfold multi_phase, interacts. destruct (q_multi q) as [toks|]; [|rewrite orb_false_r; by eexists].
  case_bool_decide; cbn [negb]; [rewrite orb_false_r; by eexists|]. rewrite orb_true_r.
  destruct (maxsim_ok b toks P l Hl) as (l' & -> & Hl'). cbn [mbind result_bind]. eexists. split; [done|].
  apply (cands_map b); [apply fill_text_id|intros c _; apply fill_text_ok|done].
Qed.

(** *** Filter, threshold, page *)

Lemma fill_metadata_id d c : c_id (fill_metadata d c) = c_id c.
Proof. unfold fill_metadata. case_bool_decide; [|done]. by destruct (get_doc _ _). Qed.
Lemma fill_metadata_ok b c r :
  m !! c_id c = Some r -> cand_ok m b c -> cand_ok m true (fill_metadata (db s) c) /\ c_metadata (fill_metadata (db s) c) = vr_metadata r.
Proof.
  intros Hr (r' & Hr' & Hc & Hv). assert (r' = r) as -> by congruence.
  unfold cand_ok. rewrite fill_metadata_id. unfold fill_metadata. erewrite doc_exact by exact Hrefines. rewrite Hr.
  case_bool_decide as Em; cbn.
  - split; [|done]. exists r. split; [done|]. split; [|done]. left. split; [|done]. cbn. case_bool_decide as Et; [done|].
    by destruct Hc as [[? _]|(_ & ? & _)].
  - assert (carries r c) as [Ht Hmd] by (destruct Hc as [?|(_ & _ & ?)]; done). split; [exists r; split_and!; [done|by left|done]|done].
Qed.

(** The filter of candidates that do not satisfy it yet fills them in. *)
Definition filters (dsl : Filter) (prefiltered : bool) : bool := negb (filter_is_empty dsl) && negb prefiltered.

Lemma filter_phase_ok b dsl pre P l :
  cands_ok m b P l -> (pre = true -> forall id r, P id -> m !! id = Some r -> filter_matches dsl (vr_metadata r) = true) ->
  cands_ok m (b || filters dsl pre) (fun id => P id /\ exists r, m !! id = Some r /\ filter_matches dsl (vr_metadata r) = true) (filter_phase (db s) dsl pre l).
Proof.
  intros [Hn Hc] Hpre. unfold filter_phase, filters. destruct (negb (filter_is_empty dsl) && negb pre) eqn:E.
  - rewrite orb_true_r. split.
    + eapply sublist_NoDup; [|apply (fmap_sublist c_id), sublist_filter]. rewrite <- list_fmap_compose.
      erewrite list_fmap_ext; [exact Hn|]. intros i c _. apply fill_metadata_id.
    + intros c [Hm (c' & -> & Hin)%list_elem_of_fmap]%list_elem_of_filter. destruct (Hc c' Hin) as [Hok HP].
      pose proof Hok as (r & Hr & _). destruct (fill_metadata_ok b c' r Hr Hok) as [Hok' Em]. rewrite Em in Hm.
      split; [done|]. rewrite fill_metadata_id. split; [done|]. by exists r.
  - rewrite orb_false_r. split; [done|]. intros c Hin. destruct (Hc c Hin) as [Hok HP]. split; [done|]. split; [done|].
    destruct Hok as (r & Hr & _). exists r. split; [done|]. apply andb_false_iff in E as [E%negb_false_iff|E%negb_false_iff].
    + unfold filter_is_empty in E. apply bool_decide_eq_true in E as (E1 & E2 & E3).
      rewrite !length_zero_iff_nil in E1, E2, E3. unfold filter_matches. by rewrite E1, E2, E3.
    + by eapply Hpre.
Qed.

Lemma page_phase_sublist q l : page_phase q l `sublist_of` l.
Proof. unfold page_phase. etransitivity; [apply truncate_sublist|apply sublist_drop]. Qed.
Lemma page_phase_length q l : 0 <= q_top_k q -> Z.of_nat (length (page_phase q l)) <= q_top_k q.
Proof. intros Hk. unfold page_phase. rewrite truncate_length by done. lia. Qed.
Lemma threshold_sublist q l : threshold_phase q l `sublist_of` l.
Proof. unfold threshold_phase. destruct (q_score_threshold q); [apply sublist_filter|done]. Qed.
End store.
End facts.
