(* ===== verification/QuerySpec.v ===== *)
(** * What a query promises

    Which requests fail, and what every answer of the others is: stored
    documents that satisfy the filter, the scope, the collection and the
    threshold, each once and at most as many as asked for. *)
From Stdlib Require Import SpecFloat.
From S2P Require Import Text TextFacts.
From S2P Require Import Prelude Floats ByteOrder Utf8 Json Query Geo Quant Heap AnnStore Ann AnnFacts.
From S2P Require Import AnnSpec Keys KeysFacts Model Kv Pending Store StoreFacts StoreTx StoreSpec.
From S2P Require Import Fusion Searches SearchFacts LexFacts SearchSpec.
From S2P Require Import FilterExec QueryExec QueryFacts.
#[local] Set Default Goal Selector "!".
#[local] Set Warnings "-clear-no-such-hyp".
Local Open Scope Z_scope.

(** The highlighter of the executor is that of text.rs, under the analyzer of
    the estate. *)
Definition text_highlighter `{Unicode} (an : Analyzer) : Highlighter := Text.highlight an.
Lemma text_highlights `{Unicode} an t qt : is_Some (text_highlighter an t qt).
Proof. apply highlight_total. Qed.

(** Prefetch stages nest at most [levels] deep. *)
Fixpoint nests `{SerdeNumber} (levels : nat) (q : EstateQuery) : bool :=
  match q_prefetch q with
  | [] => true
  | stages => match levels with O => false | S levels => forallb (fun st => nests levels st.1) stages end
  end.

Section spec.
Context `{!SerdeNumber} `{!SerdeNumberLaws _} `{Libm} `{TextAnalyzer} `{Ln32} `{LegacyPosting} `{Highlighter}.
Context {HC : BinaryHeap Scored reverse_key} {HR : BinaryHeap Scored scored_key}.
Context {LC : BinaryHeapLaws Scored reverse_key} {LR : BinaryHeapLaws Scored scored_key}.
Variable json_text : Json -> bytes.
Variable now_ms : Z -> Z.
Variable lexical_stats : bool.

(** A query by text alone: nothing confines it, no vector, filter or late
    interaction makes the executor look its winners up. *)
Definition text_only (q : EstateQuery) : bool :=
  negb (is_some (q_vector q) || is_some (q_scope q) || is_some (q_collection q) || interacts q)
  && filter_is_empty (effective_filter q) && bool_decide (q_prefetch q = []).

(** A winner of a query. Its payload is the document's where it is asked for;
    a query by text alone may answer without it (and without a sparse part it
    does). *)
Definition found (db : Db) (m : gmap bytes VectorRecord) (q : EstateQuery) (c : Candidate) : Prop :=
  exists r, m !! c_id c = Some r /\
    filter_matches (effective_filter q) (vr_metadata r) = true /\
    (forall scope, q_scope q = Some scope -> c_id c ∈ scope) /\
    (forall coll, q_collection q = Some coll -> vr_collection r = Some (resolve_alias db coll)) /\
    (forall t, q_score_threshold q = Some t -> fge (c_score c) t = true) /\
    (if q_with_payload q then carries r c \/ text_only q = true /\ is_bare c else is_bare c) /\
    c_vector c = (if q_with_vectors q then Some (vr_embedding r) else None).

Record answers (db : Db) (m : gmap bytes VectorRecord) (q : EstateQuery) (l : list Candidate) : Prop := mkAnswers {
  as_length : Z.of_nat (length l) <= q_top_k q;
  as_ids : NoDup (map c_id l);
  as_found : forall c, c ∈ l -> found db m q c;
}.

(** What a store owes its queries. *)
Record queryable (s : ConnXRecall) (m : gmap bytes VectorRecord) (log : Log) : Prop := mkQueryable {
  qb_refines : Refines json_text now_ms lexical_stats (db s) m log;
  qb_searchable : searchable m;
  qb_stats : is_Some (get_cf (db s) CF_META META_LEXSTATS) -> lexical_stats = true;
  qb_graph : graph_ok (ann s);
  qb_fields : Forall nul_free (indexed_fields (db s));
}.

(** What a request owes the formats: names without the separator, 32-bit
    dimensions, and filter values the indexes encode as the filter compares. *)
Record query_ok (db : Db) (m : gmap bytes VectorRecord) (q : EstateQuery) : Prop := mkQueryOk {
  qo_top_k : 0 <= q_top_k q;
  qo_offset : 0 <= q_offset q;
  qo_using : forall space, q_using q = Some space -> nul_free space;
  qo_coll : forall coll, q_collection q = Some coll -> nul_free (resolve_alias db coll);
  qo_sparse : forall sv, q_sparse q = Some sv -> Forall (fun dw => dim_ok dw.1) (sparse_iter sv);
  qo_filter : let f := effective_filter q in forall c, c ∈ must f ++ should f ++ must_not f -> agrees json_text m c;
}.
Fixpoint stages_ok (levels : nat) (db : Db) (m : gmap bytes VectorRecord) (q : EstateQuery) : Prop :=
  query_ok db m q /\
  match levels with
  | O => True
  | S levels => Forall (fun st => 0 <= st.2 /\ stages_ok levels db m st.1) (q_prefetch q)
  end.

Section store.
Context (s : ConnXRecall) (m : gmap bytes VectorRecord) (log : Log).
Hypothesis Hq : queryable s m log.
Hypothesis Hnul : forall t, Forall nul_free (analyze t).
Hypothesis Hmark : forall t qt, is_Some (highlights t qt).

Let Hrefines : Refines json_text now_ms lexical_stats (db s) m log := qb_refines s m log Hq.
Let Hs : searchable m := qb_searchable s m log Hq.
Let Hstats := qb_stats s m log Hq.
Let Hgraph : graph_ok (ann s) := qb_graph s m log Hq.
Let Hids : ids_ok m := rf_ids _ _ _ _ _ _ Hrefines.
Let Hrows : rows_ok json_text (indexed_fields (db s)) (db s) m := rf_rows _ _ _ _ _ _ Hrefines.

(** *** Scope *)

Definition in_scope (q : EstateQuery) (id : bytes) : Prop :=
  (forall scope, q_scope q = Some scope -> id ∈ scope) /\
  (forall coll, q_collection q = Some coll -> exists r, m !! id = Some r /\ vr_collection r = Some (resolve_alias (db s) coll)).

Lemma elem_of_members coll id :
  nul_free coll -> id ∈ collection_members (db s) coll <-> exists r, m !! id = Some r /\ vr_collection r = Some coll.
Proof.
  intros Hc. unfold collection_members.
  rewrite (collection_rows json_text (indexed_fields (db s)) (db s) m Hids Hrows Hs) by done.
  rewrite list_elem_of_fmap. split.
  - intros ([i r] & -> & Hin%elem_of_btree_iter). apply map_lookup_filter_Some in Hin as [??]. eauto.
  - intros (r & Hr & Hcoll). exists (id, r). rewrite elem_of_btree_iter, map_lookup_filter_Some. done.
Qed.

Lemma query_scope_confines q :
  query_ok (db s) m q ->
  match query_scope (db s) q with Some sc => forall id, id ∈ sc -> in_scope q id | None => forall id, in_scope q id end.
Proof.
  intros Hok. unfold query_scope, in_scope. destruct (q_collection q) as [coll|] eqn:Ec.
  - pose proof (qo_coll (db s) m q Hok coll Ec) as Hc. pose proof (fun id => elem_of_members (resolve_alias (db s) coll) id Hc) as Hmem.
    intros id Hid. split.
    + intros sc Hsc. rewrite Hsc in Hid. by apply list_elem_of_filter in Hid as [_ ?].
    + intros c [= <-]. apply Hmem. destruct (q_scope q); [by apply list_elem_of_filter in Hid as [? _]|done].
  - destruct (q_scope q) as [sc|]; intros id; [intros Hid|]; split; congruence.
Qed.

(** *** The first phase *)

Definition matching (q : EstateQuery) (id : bytes) : Prop :=
  exists r, m !! id = Some r /\ filter_matches (effective_filter q) (vr_metadata r) = true.
(** A scope, a filter that an index answered and a vector fill the candidates in. *)
Definition fills (q : EstateQuery) (p : Phase) : bool := is_some (query_scope (db s) q) || prefiltered p || is_some (q_vector q).
Definition phase_ok (q : EstateQuery) (p : Phase) : Prop :=
  let P := fun id => in_scope q id /\ (prefiltered p = true -> matching q id) in
  cands_ok m (fills q p) P (results p) /\ confines (allowed p) P.

Lemma fetch_nonneg q dsl : query_ok (db s) m q -> 0 <= fetch_depth q dsl /\ 0 <= want q.
Proof.
  intros Hok. pose proof (qo_top_k _ _ _ Hok). pose proof (qo_offset _ _ _ Hok).
  unfold fetch_depth, want, sat_mul, sat_add, usize_max, FILTER_OVERFETCH. destruct (_ && _); lia.
Qed.

Lemma phase_ok_open q l :
  query_scope (db s) q = None -> query_ok (db s) m q -> cands_ok m (is_some (q_vector q)) (fun _ => True) l -> phase_ok q (mkPhase l None false).
Proof.
  intros Esc Hok Hl. pose proof (query_scope_confines q Hok) as Hc. rewrite Esc in Hc. split; cbn; [unfold fills; rewrite Esc; cbn|].
  - eapply cands_weaken; [|exact Hl]. intros id _. by split; [apply Hc|].
  - intros id. by split; [apply Hc|].
Qed.

Lemma phase_ok_ids q l ids pre :
  (forall id, id ∈ ids -> in_scope q id /\ (pre = true -> matching q id)) -> cands_ok m true (fun id => id ∈ ids) l ->
  phase_ok q (mkPhase l (Some (list_to_set ids)) pre).
Proof.
  intros Hi Hl. split; cbn [results allowed prefiltered confines].
  - eapply cands_unfilled, cands_weaken; [|exact Hl]. exact Hi.
  - intros id Hid%elem_of_list_to_set. by apply Hi.
Qed.

Lemma first_phase_ok q :
  query_ok (db s) m q -> exists p, first_phase json_text s q (effective_filter q) (fetch_depth q (effective_filter q)) = Ok p /\ phase_ok q p.
Proof.
  intros Hok. pose proof (query_scope_confines q Hok) as Hc. unfold first_phase. set (dsl := effective_filter q).
  destruct (fetch_nonneg q dsl Hok) as [Hf Hw]. set (fetch := fetch_depth q dsl) in *. destruct (query_scope (db s) q) as [sc|] eqn:Esc.
  - destruct (scoped_ok json_text now_ms lexical_stats s m log Hrefines Hs Hnul (query_text q) (query_vector q) fetch sc) as (l & -> & Hl).
    cbn [mbind result_bind]. eexists. split; [done|]. apply phase_ok_ids; [|done]. by intros id Hid%Hc.
  - destruct (filter_is_empty dsl); cbn [negb].
    + assert (exists l, match q_using q, q_vector q with
        | Some space, Some v => named_hybrid s q space v fetch | _, _ => unscoped s q fetch end = Ok l /\ cands_ok m (is_some (q_vector q)) (fun _ => True) l) as (l & -> & Hl).
      { destruct (q_using q) as [space|] eqn:Eu; [|by eapply unscoped_ok].
        destruct (q_vector q) eqn:Ev; [|rewrite <- Ev; by eapply unscoped_ok]. eapply named_hybrid_ok; try done. by eapply qo_using. }
      cbn [mbind result_bind]. eexists. split; [done|]. by apply phase_ok_open.
    + pose proof (ids_where_sound json_text (db s) m (indexed_fields (db s)) Hids Hrows (ids_utf8 m Hids Hs) (qb_fields s m log Hq)
        dsl eq_refl (qo_filter _ _ _ Hok)) as Hwhere.
      destruct (ids_where json_text (db s) dsl) as [ids|].
      * assert (forall id, id ∈ ids -> in_scope q id /\ (true = true -> matching q id)) as Hi.
        { intros id Hid. split; [apply Hc|]. intros _. by apply Hwhere. }
        unfold filtered_phase. destruct (_ <=? _).
        -- assert (exists l, (if bool_decide (ids = []) then Ok [] else scoped_search s (query_text q) (query_vector q) (want q) ids) = Ok l /\
             cands_ok m true (fun id => id ∈ ids) l) as (l & -> & Hl).
           { case_bool_decide; [exists []; split; [done|apply cands_nil]|by eapply scoped_ok]. }
           cbn [mbind result_bind]. eexists. split; [done|]. by apply phase_ok_ids.
        -- destruct (filter_aware_ok json_text now_ms lexical_stats s m log Hrefines Hs Hnul Hgraph (query_text q) (query_vector q) (want q)
             (list_to_set ids) (q_fusion q) (q_fusion_mode q)) as (l & -> & Hl).
           cbn [mbind result_bind]. eexists. split; [done|]. apply phase_ok_ids; [done|].
           eapply cands_weaken; [|exact Hl]. intros id. apply elem_of_list_to_set.
      * destruct (unscoped_ok json_text now_ms lexical_stats s m log Hrefines Hs Hnul Hstats Hgraph q fetch Hf) as (l & -> & Hl).
        cbn [mbind result_bind]. eexists. split; [done|]. by apply phase_ok_open.
Qed.

(** *** What is sent *)

Lemma add_highlights_total q c : exists c', add_highlights q c = Some c' /\ c_id c' = c_id c /\ c_score c' = c_score c /\
  c_text c' = c_text c /\ c_metadata c' = c_metadata c /\ c_vector c' = c_vector c.
Proof.
  unfold add_highlights. destruct (q_highlight q); [|by exists c]. destruct (q_text q) as [qt|]; [|by exists c].
  case_bool_decide; [by exists c|]. destruct (Hmark (c_text c) qt) as [h ->]. cbn. by eexists.
Qed.

Definition sent (q : EstateQuery) (c c' : Candidate) : Prop :=
  c_id c' = c_id c /\ c_score c' = c_score c /\
  c_text c' = (if q_with_payload q then c_text c else []) /\
  c_metadata c' = (if q_with_payload q then c_metadata c else ∅) /\
  c_vector c' = (if q_with_vectors q then vector_of (db s) (c_id c) else c_vector c).

Lemma send_phase_ok q l : exists l', send_phase (db s) q l = Ok l' /\ Forall2 (sent q) l l'.
Proof.
  unfold send_phase.
  destruct (mapM_forall2 (fun c => add_highlights q (add_vector (db s) q (strip q c))) l) as (l' & -> & Hf).
  { intros c _. destruct (add_highlights_total q (add_vector (db s) q (strip q c))) as (c' & -> & _). by eexists. }
  eexists. split; [done|]. eapply Forall2_impl; [exact Hf|]. intros c c' E.
  destruct (add_highlights_total q (add_vector (db s) q (strip q c))) as (c2 & E2 & E3 & E4 & E5 & E6 & E7).
  assert (c2 = c') as -> by congruence. unfold sent. rewrite E3, E4, E5, E6, E7. unfold add_vector, strip.
  by destruct (q_with_vectors q), (q_with_payload q).
Qed.

(** *** One stage, and all of them *)

(** What no phase filled in was asked for by text alone. *)
Lemma unfilled q p : q_prefetch q = [] ->
  fills q p || interacts q || filters (effective_filter q) (prefiltered p) = false -> text_only q = true.
Proof.
  intros Hp [[[[Hs1 Hpre]%orb_false_iff Hv]%orb_false_iff Hi]%orb_false_iff Hf]%orb_false_iff.
  unfold text_only. rewrite Hv, Hi, bool_decide_true by done. unfold query_scope in Hs1.
  destruct (q_collection q); [done|]. rewrite Hs1. unfold filters in Hf. rewrite Hpre, andb_true_r in Hf. by apply negb_false_iff in Hf as ->.
Qed.

Lemma query_flat_ok q : query_ok (db s) m q -> q_prefetch q = [] -> exists l, query_flat json_text s q = Ok l /\ answers (db s) m q l.
Proof.
  intros Hok Hnone. unfold query_flat. destruct (Z.eqb_spec (q_top_k q) 0) as [E0|_].
  { exists []. split; [done|]. split; [cbn; lia|constructor|]. by intros c ?%elem_of_nil. }
  destruct (first_phase_ok q Hok) as (p & -> & Hl0 & Hcon). destruct (fetch_nonneg q (effective_filter q) Hok) as [Hf _].
  set (dsl := effective_filter q) in *. set (P := fun id => _ /\ _) in *. cbn [mbind result_bind].
  destruct (sparse_phase_ok json_text now_ms lexical_stats s m log Hrefines Hs (fills q p) q (fetch_depth q dsl) p P (qo_sparse _ _ _ Hok) Hf Hcon Hl0)
    as (l1 & -> & Hl1). cbn [mbind result_bind].
  destruct (multi_phase_ok json_text now_ms lexical_stats s m log Hrefines Hs (fills q p) q P l1 Hl1) as (l2 & -> & Hl2). cbn [mbind result_bind].
  pose proof (unfilled q p Hnone) as Hbare. fold dsl in Hbare.
  assert (cands_ok m (fills q p || interacts q || filters dsl (prefiltered p)) (fun id => P id /\ matching q id) (filter_phase (db s) dsl (prefiltered p) l2)) as Hl3.
  { eapply filter_phase_ok; [exact Hrefines|done|]. intros Hp id r [_ Hm] Hr. destruct (Hm Hp) as (r' & Hr' & Hx).
    assert (r' = r) as -> by congruence. exact Hx. }
  set (l3 := filter_phase _ _ _ _) in *.
  set (l4 := page_phase q (threshold_phase q l3)) in *.
  assert (l4 `sublist_of` threshold_phase q l3) as S1 by apply page_phase_sublist.
  assert (l4 `sublist_of` l3) as S2 by (etransitivity; [exact S1|apply threshold_sublist]).
  destruct (send_phase_ok q l4) as (l' & -> & Hsent). exists l'. split; [done|].
  assert (map c_id l' = map c_id l4) as Eid.
  { clear -Hsent. induction Hsent as [|c c' l l' (Ec & _) _ IH]; [done|]. cbn. by rewrite IH, Ec. }
  split.
  - rewrite <- (Forall2_length _ _ _ Hsent). apply page_phase_length, Hok.
  - rewrite Eid. by eapply (cands_sublist m _ _ l3).
  - intros c' Hc'. apply list_elem_of_lookup in Hc' as [i Hi]. destruct (Forall2_lookup_r _ _ _ _ _ Hsent Hi) as (c & Hc & Hcc).
    apply list_elem_of_lookup_2 in Hc. destruct Hcc as (Ei & Es & Et & Em & Ev).
    destruct (proj2 Hl3 c) as [(r & Hr & Hpay & Hvc) [[Hsc _] (r' & Hr' & Hmatch)]]; [by eapply sublist_subseteq|].
    assert (r' = r) as -> by congruence. exists r. rewrite Ei, Es, Ev. split; [done|]. split; [done|].
    split; [apply Hsc|]. split; [intros coll Hcoll; destruct (proj2 Hsc coll Hcoll) as (r2 & Hr2 & Hx); congruence|]. split.
    { intros t Ht. assert (c ∈ threshold_phase q l3) as Hin by by eapply sublist_subseteq.
      unfold threshold_phase in Hin. rewrite Ht in Hin. by apply list_elem_of_filter in Hin as [? _]. }
    split.
    { unfold carries, is_bare in *. rewrite Et, Em. destruct (q_with_payload q); [|done]. destruct Hpay as [?|[Hb ?]]; [by left|right].
      split; [by apply Hbare|done]. }
    destruct (q_with_vectors q); [|done]. rewrite (vector_of_exact json_text (indexed_fields (db s)) (db s) m Hids Hrows Hs). by rewrite Hr.
Qed.

Lemma stage_query_ok inner limit : query_ok (db s) m inner -> 0 <= limit -> query_ok (db s) m (stage_query inner limit).
Proof. by intros [] ?. Qed.
Lemma fold_scope_ok q union : query_ok (db s) m q -> query_ok (db s) m (fold_scope q union).
Proof. by intros []. Qed.
Lemma fold_scope_answers q union l : answers (db s) m (fold_scope q union) l -> answers (db s) m q l.
Proof.
  intros [Hl Hn Hf]. split; [done|done|]. intros c Hc. destruct (Hf c Hc) as (r & Hr & Hm & Hsc & Hcoll & Ht & Hp & Hv). exists r.
  split; [done|]. split; [done|]. split; [|split; [done|split; [done|split; [|done]]]].
  - intros sc E. specialize (Hsc _ eq_refl). rewrite E in Hsc. by apply list_elem_of_filter in Hsc as [? _].
  - cbn [fold_scope set_stage q_with_payload] in Hp. destruct (q_with_payload q); [|done]. left.
    destruct Hp as [?|[Hto _]]; [done|]. unfold text_only in Hto. cbn in Hto. by rewrite !orb_true_r in Hto.
Qed.

Lemma query_depth_ok levels q :
  stages_ok levels (db s) m q ->
  if nests levels q then exists l, query_depth json_text s levels q = Ok l /\ answers (db s) m q l
  else query_depth json_text s levels q = Err PrefetchTooDeep.
Proof.
  revert q. induction levels as [|levels IH]; intros q [Hok Hst].
  - cbn. destruct (q_prefetch q) eqn:Ep; [by apply query_flat_ok|done].
  - cbn [nests query_depth]. destruct (q_prefetch q) as [|st0 sts] eqn:Ep; [by apply query_flat_ok|].
    assert (forall sts u, Forall (fun st => 0 <= st.2 /\ stages_ok levels (db s) m st.1) sts ->
      if forallb (fun st => nests levels st.1) sts then exists u', gather (query_depth json_text s levels) sts u = Ok u'
      else gather (query_depth json_text s levels) sts u = Err PrefetchTooDeep) as Hg.
    { clear -IH. intros sts u Hf. revert u. induction Hf as [|[inner limit] sts [Hl Hi] Hf IHs]; intros u; [by eexists|].
      cbn [forallb gather fst snd] in *. assert (stages_ok levels (db s) m (stage_query inner limit)) as Hi'.
      { destruct levels as [|levels]; cbn in Hi |- *; (destruct Hi as [Hi1 Hi2]; split; [by apply stage_query_ok|exact Hi2]). }
      assert (nests levels (stage_query inner limit) = nests levels inner) as En by by destruct levels.
      pose proof (IH _ Hi') as Hrun. rewrite En in Hrun. destruct (nests levels inner); cbn [andb].
      - destruct Hrun as (l & -> & _). cbn [mbind result_bind]. apply IHs.
      - by rewrite Hrun. }
    specialize (Hg (st0 :: sts) [] Hst). destruct (forallb _ _).
    + destruct Hg as [u ->]. cbn [mbind result_bind]. destruct (query_flat_ok (fold_scope q u)) as (l & E & Hl); [by apply fold_scope_ok|done|].
      exists l. split; [done|]. by eapply fold_scope_answers.
    + by rewrite Hg.
Qed.
End store.
End spec.

(** ** Properties *)

Section Properties.
Context `{!SerdeNumber} `{!SerdeNumberLaws _} `{Libm} `{TextAnalyzer} `{Ln32} `{LegacyPosting} `{Unicode}.
Context {HC : BinaryHeap Scored reverse_key} {HR : BinaryHeap Scored scored_key}.
Context {LC : BinaryHeapLaws Scored reverse_key} {LR : BinaryHeapLaws Scored scored_key}.
Variable json_text : Json -> bytes.
Variable now_ms : Z -> Z.
Variable lexical_stats : bool.
Variable an : Analyzer.
#[local] Instance estate_highlighter : Highlighter := text_highlighter an.
Local Lemma estate_highlights t qt : is_Some (highlights t qt).
Proof. apply text_highlights. Qed.

Definition within_quota (s : ConnXRecall) (q : EstateQuery) : Prop :=
  forall cap, max_top_k (quotas s) = Some cap -> q_top_k q <= cap.

Lemma query_within s q :
  (within_quota s q /\ query json_text s q = query_depth json_text s MAX_PREFETCH_DEPTH q) \/
  (exists cap, max_top_k (quotas s) = Some cap /\ cap < q_top_k q /\ query json_text s q = Err (QuotaTopK (q_top_k q) cap)).
Proof.
  unfold query, within_quota. destruct (max_top_k (quotas s)) as [cap|]; [|by left].
  destruct (Z.ltb_spec cap (q_top_k q)); [right; by exists cap|left]. split; [|done]. by intros c [= <-].
Qed.

(** C9: whatever strategy a query takes, prefetch, scope, collection, indexed
    or post-filtered filter, named space, sparse fusion, late interaction,
    each winner is a stored document that satisfies the filter, lies in the
    scope and the collection and reaches the threshold; none comes twice and at
    most [top_k] come. With the payload asked for each carries its document's
    text and metadata, except that a query by text alone (no vector, scope,
    collection, filter, prefetch or late interaction) may answer winners
    without either; with vectors asked for, the document's vector. The indexes
    must encode the values the filter compares as the filter compares them
    ([agrees] in [query_ok]: without it an index changes answers), the names of
    the query and the terms of the analyzer must be free of the separator
    byte. *)
Theorem query_answers_sound (s : ConnXRecall) (m : gmap bytes VectorRecord) (log : list (ChangeOp * bytes)) (q : EstateQuery)
  (l : list Candidate) :
  queryable json_text now_ms lexical_stats s m log -> (forall t, Forall nul_free (analyze t)) ->
  stages_ok json_text MAX_PREFETCH_DEPTH (db s) m q ->
  query json_text s q = Ok l -> answers (db s) m q l.
Proof.
  intros Hq Hnul Hst. destruct (query_within s q) as [[_ ->]|(cap & _ & _ & ->)]; [|done].
  pose proof (query_depth_ok json_text now_ms lexical_stats s m log Hq Hnul estate_highlights _ q Hst) as Ho.
  destruct (nests _ q); [|congruence]. destruct Ho as (l' & E & Hl). congruence.
Qed.


(** A query with other fusion settings and another vector space. *)
Definition refused_knobs (q : EstateQuery) (space : option bytes) (fusion : HybridWeights) (mode : FusionMode) : EstateQuery :=
  mkEstateQuery (q_text q) (q_vector q) (q_sparse q) space (q_collection q) (q_multi q) (q_top_k q) (q_filter q) (q_dsl q)
    (q_scope q) (q_score_threshold q) (q_with_payload q) (q_offset q) (q_with_vectors q) (q_highlight q) (q_prefetch q) fusion mode.

(** once a scope or a collection confines a query, its fusion weights, its
    fusion mode and its named vector space change nothing, unless a sparse
    vector is fused in. *)
Theorem scope_ignores_knobs (s : ConnXRecall) (q : EstateQuery) (space : option bytes) (fusion : HybridWeights) (mode : FusionMode) :
  is_some (query_scope (db s) q) = true -> q_sparse q = None ->
  query_flat json_text s (refused_knobs q space fusion mode) = query_flat json_text s q.
Proof.
  intros Hsc Hsp. destruct q as [text vector sparse us coll multi k flt dsl scope th pay off vecs hl pre fus md]. cbn in Hsp. subst sparse.
  unfold query_flat, first_phase. change (query_scope (db s) (refused_knobs _ space fusion mode)) with
    (query_scope (db s) (mkEstateQuery text vector None us coll multi k flt dsl scope th pay off vecs hl pre fus md)).
  revert Hsc. generalize (query_scope (db s) (mkEstateQuery text vector None us coll multi k flt dsl scope th pay off vecs hl pre fus md)).
  intros [sc|] Hsc; [reflexivity|discriminate Hsc].
Qed.
End Properties.

(** ** A query over the shelf *)

Section Witnesses.
#[local] Existing Instances plain_number plain_number_laws flat_libm list_heap words tangent_ln no_legacy.
#[local] Existing Instance ascii_unicode.
#[local] Instance ascii_highlights : Highlighter := text_highlighter default_analyzer.

Definition on_shelf : EstateQuery :=
  mkEstateQuery (Some (str "green")) (Some [f32_of_Z 1; f32_of_Z 0]) (Some wanted_dims) None (Some (str "shelf"))
    (Some [[f32_of_Z 1; f32_of_Z 0]]) 2 ∅ (Some (mkFilter [Condition.Exists (str "kind")] [] [])) None (Some f32_zero) true 0 true true
    [(mkEstateQuery (Some (str "the old sea")) None None None None None 1 ∅ None None None true 0 false false [] weights_default Rrf, 3)]
    weights_default Rrf.

Lemma shelf_queryable : queryable no_text no_clock true shelf_store shelf_map.1 shelf_map.2.
Proof.
  split; [apply shelf_refines|apply shelf_searchable|done|apply ann_new_ok|].
  refine (bool_decide_eq_true_1 _ _). vm_compute. reflexivity.
Qed.

Lemma words_nul_free t : Forall nul_free (analyze t).
Proof. apply Forall_forall. intros w Hw. by apply list_elem_of_filter in Hw as [? _]. Qed.
Lemma on_shelf_ok : stages_ok no_text MAX_PREFETCH_DEPTH shelf_db shelf_map.1 on_shelf.
Proof.
  split; [|constructor; [split; [done|split; [|constructor]]|constructor]]; split; try done.
  - intros coll [= <-]. refine (bool_decide_eq_true_1 _ _). vm_compute. reflexivity.
  - intros sv [= <-]. repeat constructor; done.
  - intros f c Hc. assert (c = Condition.Exists (str "kind")) as ->.
    { cbn in Hc. apply elem_of_cons in Hc as [->|Hc]; [done|by apply elem_of_nil in Hc]. }
    split; [done|]. intros id r _. unfold cond_agrees. by destruct (_ !! _).
  - intros f c Hc. by apply elem_of_nil in Hc.
Qed.

Lemma query_answers_sound_witness :
  match query no_text shelf_store on_shelf with
  | Ok l => map c_id l = [str "d"; str "b"] /\ answers shelf_db shelf_map.1 on_shelf l
  | Err _ => False
  end.
Proof.
  destruct (query no_text shelf_store on_shelf) as [l|e] eqn:E.
  - split.
    + assert (match query no_text shelf_store on_shelf with Ok l => map c_id l | Err _ => [] end = [str "d"; str "b"]) as E'
        by (vm_compute; reflexivity). by rewrite E in E'.
    + apply (query_answers_sound no_text no_clock true default_analyzer shelf_store shelf_map.1 shelf_map.2 on_shelf l shelf_queryable
        words_nul_free on_shelf_ok E).
  - assert (is_ok (query no_text shelf_store on_shelf) = true) as E' by (vm_compute; reflexivity). by rewrite E in E'.
Defined.

(** Four levels of prefetch. *)
Fixpoint nested (n : nat) : EstateQuery :=
  let q := query_default in
  mkEstateQuery (Some (str "sea")) None None None None None 1 ∅ None None None true 0 false false
    (match n with O => [] | S n => [(nested n, 1)] end) weights_default Rrf.



(** a query by text alone answers candidates without their text and
    metadata although the payload was asked for, while the same query with a
    vector carries them. *)
Theorem text_only_query_is_bare :
  match query no_text shelf_store (nested 0) with
  | Ok [c] => q_with_payload (nested 0) = true /\ c_text c = [] /\ size (c_metadata c) = 0%nat /\ sd_text <$> get_doc shelf_db (c_id c) = Some (str "the the sea")
  | _ => False
  end.
Proof. vm_compute. done. Qed.

Lemma scope_ignores_knobs_witness :
  query_flat no_text shelf_store (refused_knobs (fold_scope (nested 0) [str "c"]) (Some (str "title")) (mkWeights f32_zero f32_one) Dbsf) =
  query_flat no_text shelf_store (fold_scope (nested 0) [str "c"]).
Proof. apply (scope_ignores_knobs no_text default_analyzer shelf_store); reflexivity. Defined.
End Witnesses.
