(* ===== verification/ListingSpec.v ===== *)
(** * Facets, counts and scrolling

    A facet counts the documents by value, from the index where the index
    can tell the values apart and from the documents otherwise, with the same
    result; scrolling pages through every document once, in id order. *)
From Stdlib Require Import SpecFloat.
From S2P Require Import Prelude Floats ByteOrder Utf8 Json RroTime Query Geo Keys KeysFacts Model.
From S2P Require Import Kv Store StoreFacts StoreTx StoreSpec SearchFacts SearchSpec PayloadIndex.
From S2P Require Import FilterExec QueryExec.
#[local] Set Default Goal Selector "!".
#[local] Set Warnings "-clear-no-such-hyp".
Local Open Scope Z_scope.

(** ** Counting occurrences *)

Definition count_all (ks : list bytes) : gmap bytes Z := fold_left count_up ks ∅.
Definition occurrences (k : bytes) (ks : list bytes) : Z := Z.of_nat (length (filter (fun x => x = k) ks)).

Lemma count_from m ks (k : bytes) :
  (forall n, m !! k = Some n -> 0 < n) ->
  fold_left count_up ks m !! k =
  (if occurrences k ks =? 0 then m !! k else Some (default 0 (m !! k) + occurrences k ks)).
Proof.
  revert m. induction ks as [|x ks IH]; intros m Hm; [done|]. cbn [fold_left]. unfold occurrences in *. rewrite filter_cons.
  destruct (decide (x = k)) as [->|Hne].
  - cbn [length]. unfold count_up at 2. rewrite IH.
    2: { intros n. unfold count_up. rewrite lookup_insert_eq. intros [= <-]. destruct (m !! k) as [y|] eqn:E; cbn; [|lia].
         specialize (Hm y eq_refl). lia. }
    rewrite lookup_insert_eq, (proj2 (Z.eqb_neq (Z.of_nat (S _)) 0)) by lia. cbn [default from_option id].
    destruct (Z.eqb_spec (Z.of_nat (length (filter (fun x => x = k) ks))) 0); apply (f_equal Some); lia.
  - assert (count_up m x !! k = m !! k) as E by (unfold count_up; by rewrite lookup_insert_ne). by rewrite IH, E by by rewrite E.
Qed.

(** A count of zero is no entry. *)
Lemma count_all_lookup ks (k : bytes) :
  count_all ks !! k = if occurrences k ks =? 0 then None else Some (occurrences k ks).
Proof. unfold count_all. rewrite count_from by done. by rewrite lookup_empty. Qed.

Lemma count_all_perm ks ks' : ks ≡ₚ ks' -> count_all ks = count_all ks'.
Proof.
  intros Hp. apply map_eq. intros k. rewrite !count_all_lookup.
  assert (occurrences k ks = occurrences k ks') as -> by (unfold occurrences; f_equal; by apply Permutation_length, filter_Permutation).
  done.
Qed.

Lemma fold_left_omap {A B C} (g : A -> C -> A) (h : B -> option C) l a :
  fold_left (fun a b => match h b with Some c => g a c | None => a end) l a = fold_left g (omap h l) a.
Proof.
  revert a. induction l as [|b l IH]; intros a; [done|]. cbn [fold_left omap list_omap]. rewrite IH. by destruct (h b).
Qed.

Section listing.
Context `{!SerdeNumber} `{!SerdeNumberLaws _} `{Libm} `{TextAnalyzer}.
Variable json_text : Json -> bytes.

(** ** The documents in order *)

Lemma omap_filter {A B} (P : A -> Prop) `{!forall x, Decision (P x)} (Q : B -> Prop) `{!forall y, Decision (Q y)} (f : A -> option B) (l : list A) :
  (forall x y, f x = Some y -> P x <-> Q y) -> omap f (filter P l) = filter Q (omap f l).
Proof.
  intros Hf. induction l as [|x l IH]; [done|]. rewrite filter_cons. cbn [omap list_omap]. destruct (f x) as [y|] eqn:E.
  - rewrite filter_cons. destruct (decide (P x)) as [HP|HP].
    + rewrite decide_True by by eapply Hf. cbn [omap list_omap]. by rewrite E, IH.
    + rewrite decide_False by by rewrite <- (Hf x y E). done.
  - destruct (decide (P x)); [|done]. cbn [omap list_omap]. by rewrite E.
Qed.

Lemma docs_from_filter db start : docs_from db start = filter (fun p => ble start p.1) (all_docs db).
Proof.
  unfold docs_from, all_docs, iter_from. apply omap_filter. intros [k v] [k' d]. destruct v; try done. by intros [= <- <-].
Qed.

Section store.
Context (db : Db) (m : gmap bytes VectorRecord).
Hypothesis Hids : ids_ok m.
Hypothesis Hrows : rows_ok json_text (indexed_fields db) db m.

Lemma docs_row : db CF_DOCS = (fun r => RDoc (stored_doc r)) <$> m.
Proof.
  apply map_eq. intros k. rewrite lookup_fmap, (Hrows CF_DOCS k eq_refl). cbn. destruct (m !! k) as [r|] eqn:Em; [|done].
  cbn. destruct (Hids _ _ Em) as [<- _]. apply doc_rows_docs.
Qed.

Lemma all_docs_exact : all_docs db = btree_iter (stored_doc <$> m).
Proof.
  unfold all_docs, iter_all. rewrite docs_row, !btree_iter_fmap. induction (btree_iter m) as [|[k r] l IH]; [done|]. cbn.
  by rewrite IH.
Qed.

(** ** Facets *)

Definition facet_of (field : bytes) (r : VectorRecord) : option bytes := facet_key json_text <$> vr_metadata r !! field.
Definition surfaces (field : bytes) : list bytes := omap (fun p => facet_of field p.2) (map_to_list m).

Lemma facet_scan_exact field : facet_scan json_text db field = count_all (surfaces field).
Proof.
  unfold facet_scan. rewrite all_docs_exact, btree_iter_fmap.
  transitivity (fold_left (fun out p => match facet_of field p.2 with Some k => count_up out k | None => out end) (btree_iter m) ∅).
  { generalize (∅ : gmap bytes Z) as out. induction (btree_iter m) as [|[k r] l IH]; intros out; [done|]. cbn [map fold_left fst snd].
    rewrite IH. unfold facet_of. cbn. by destruct (vr_metadata r !! field). }
  rewrite fold_left_omap. apply count_all_perm. unfold surfaces. by rewrite btree_iter_perm.
Qed.

Lemma last_sep_nul_free b : nul_free b -> last_sep b = None.
Proof.
  induction b as [|c b IH]; intros Hb; [done|]. cbn. rewrite IH by (intros Hin; apply Hb; by right).
  destruct (Z.eqb_spec c SEP) as [->|]; [|done]. destruct Hb. by left.
Qed.
Lemma last_sep_app a b : nul_free b -> last_sep (a ++ SEP :: b) = Some (length a).
Proof.
  intros Hb. induction a as [|c a IH]; cbn.
  - by rewrite last_sep_nul_free.
  - by rewrite IH.
Qed.

(** What the index tells about one row: the facet value, or that the
    documents must be read. *)
Lemma facet_value_pidx v id :
  nul_free id -> (forall s, v = JStr s -> valid_utf8 s = true) ->
  (forall b : bool, json_text (JBool b) = if b then true_text else false_text) ->
  facet_value (encode_pidx_value json_text v ++ SEP :: id) = Some (Some (facet_key json_text v)) \/
  facet_value (encode_pidx_value json_text v ++ SEP :: id) = None.
Proof.
  intros Hid Hv Hb.
  assert (forall tag p, facet_value ((tag :: p) ++ SEP :: id) =
    if tag =? PIDX_STR then Some (Some (from_utf8_lossy p))
    else if tag =? PIDX_BOOL then Some (Some (if bool_decide (p = [1]) then true_text else false_text)) else None) as Hf.
  { intros tag p. cbn [app facet_value]. rewrite last_sep_app by done. by rewrite take_app_length. }
  unfold encode_pidx_value. destruct v as [|b|n|s|l|o].
  - destruct (point_of JNull) as [[lat lon]|]; rewrite Hf; by right.
  - rewrite Hf. left. cbn [facet_key]. rewrite Hb. by destruct b.
  - rewrite Hf. by right.
  - destruct (rfc3339_to_epoch_ms s); [rewrite Hf; by right|]. destruct (parse_uuid_bytes s); [rewrite Hf; by right|].
    rewrite Hf. left. cbn. by rewrite lossy_valid by auto.
  - destruct (point_of (JArr l)) as [[lat lon]|]; rewrite Hf; by right.
  - destruct (point_of (JObj o)) as [[lat lon]|]; rewrite Hf; by right.
Qed.

Hypothesis Hutf8 : forall id, is_Some (m !! id) -> valid_utf8 id = true.
Hypothesis Hfields : Forall nul_free (indexed_fields db).
Hypothesis Htext : forall (id field s : bytes) r, m !! id = Some r -> vr_metadata r !! field = Some (JStr s) -> valid_utf8 s = true.
Hypothesis Hbool : forall b : bool, json_text (JBool b) = if b then true_text else false_text.

Definition index_keys (field : bytes) : list bytes :=
  omap (fun p => (fun v => pidx_key json_text field v p.1) <$> vr_metadata p.2 !! field) (map_to_list m).

Lemma index_rows_perm field :
  field ∈ indexed_fields db -> (scan_prefix db CF_PIDX (pidx_field_prefix field)).*1 ≡ₚ index_keys field.
Proof.
  intros Hf. assert (nul_free field) as Hnf by (rewrite Forall_forall in Hfields; by apply Hfields).
  assert (forall f v id k, k = pidx_key json_text f v id -> nul_free id -> owner CF_PIDX k = id) as Hown.
  { intros f v id k -> Hid. unfold pidx_key. rewrite app_comm_cons, app_assoc. by apply owner_sep. }
  apply NoDup_Permutation.
  - pose proof (scan_prefix_sorted db CF_PIDX (pidx_field_prefix field)) as Hs. induction Hs as [|x l _ IH Hx]; [constructor|].
    cbn. constructor; [|done]. intros (y & E & Hy)%list_elem_of_fmap. rewrite Forall_forall in Hx. pose proof (Hx y Hy) as Hlt.
    unfold key_lt in Hlt. rewrite E in Hlt. by apply blt_irrefl in Hlt.
  - unfold index_keys. assert (NoDup (map_to_list m).*1) as Hn by apply NoDup_fst_map_to_list.
    assert (forall id r, (id, r) ∈ map_to_list m -> nul_free id) as Hid by (intros id r Hin%elem_of_map_to_list; by apply (Hids id r)).
    induction (map_to_list m) as [|[id r] l IH]; [constructor|]. cbn in Hn. apply NoDup_cons in Hn as [Hni Hn].
    cbn [omap list_omap fst snd]. assert (NoDup (omap (fun p => (fun v => pidx_key json_text field v p.1) <$> vr_metadata p.2 !! field) l)) as HN.
    { apply IH; [done|]. intros id' r' Hin. apply (Hid id' r'). by right. }
    destruct (vr_metadata r !! field) as [v|]; cbn [fmap option_fmap option_map]; [|done]. constructor; [|done].
    intros ([id' r'] & Hin & (v' & _ & E)%fmap_Some)%list_elem_of_omap. apply Hni. cbn [fst] in E.
    assert (id = id') as ->.
    { rewrite <- (Hown field v id _ eq_refl) by (apply (Hid id r); by left).
      apply (Hown field v' id' _ E). apply (Hid id' r'). by right. }
    by apply (list_elem_of_fmap_2' fst _ (id', r')).
  - intros k. rewrite list_elem_of_fmap. unfold index_keys. rewrite list_elem_of_omap. split.
    + intros ([k' v] & -> & [Hk Hp]%elem_of_scan_prefix). cbn [fst].
      destruct (proj1 (pidx_row_iff json_text db m (indexed_fields db) Hids Hrows k') ltac:(by eexists))
        as (f & w & id & Hf' & (r & Hr & Hw) & ->).
      assert (nul_free f) as Hnf' by (rewrite Forall_forall in Hfields; by apply Hfields).
      destruct Hp as [x E]. unfold pidx_field_prefix, prefix, pidx_key in E. rewrite <- app_assoc in E. cbn in E.
      apply sep_app_inj in E as [-> _]; [|done..]. exists (id, r). rewrite elem_of_map_to_list. split; [done|]. cbn. by rewrite Hw.
    + intros ([id r] & Hin%elem_of_map_to_list & (v & Hv & ->)%fmap_Some). cbn [fst snd] in *.
      destruct (proj2 (pidx_row_iff json_text db m (indexed_fields db) Hids Hrows (pidx_key json_text field v id))) as [w Hw].
      { exists field, v, id. split; [done|]. split; [|done]. by exists r. }
      exists (pidx_key json_text field v id, w). split; [done|]. apply elem_of_scan_prefix. split; [done|].
      exists (encode_pidx_value json_text v ++ SEP :: id). unfold pidx_key, pidx_field_prefix, prefix. by rewrite <- app_assoc.
Qed.

Lemma fold_facets (f : bytes -> option (option bytes)) (l : list (bytes * Row)) out counts :
  fold_opt (fun out '(k, _) => v ← f k; Some (match v with Some surface => count_up out surface | None => out end)) out l = Some counts ->
  (forall k, k ∈ l.*1 -> exists s, f k = Some (Some s) \/ f k = None) ->
  exists ks, Forall2 (fun k s => f k = Some (Some s)) l.*1 ks /\ counts = fold_left count_up ks out.
Proof.
  revert out. induction l as [|[k r] l IH]; intros out E Hf.
  - cbn in E. injection E as <-. exists []. split; [constructor|done].
  - cbn [fold_opt] in E. destruct (Hf k) as [s [Hk|Hk]]; [by left| |by rewrite Hk in E].
    rewrite Hk in E. cbn [mbind option_bind] in E. destruct (IH _ E) as (ks & HF & ->).
    { intros k' Hk'. apply Hf. by right. }
    exists (s :: ks). split; [by constructor|done].
Qed.

Lemma facet_from_index_exact field counts :
  field ∈ indexed_fields db -> facet_from_index db field = Some counts -> counts = count_all (surfaces field).
Proof.
  intros Hf E. unfold facet_from_index in E. set (p := pidx_field_prefix field) in *.
  set (f := fun k => facet_value (drop (length p) k)). change (fold_opt _ ∅ (scan_prefix db CF_PIDX p)) with
    (fold_opt (fun out '(k, _) => v ← f k; Some (match v with Some surface => count_up out surface | None => out end)) ∅ (scan_prefix db CF_PIDX p)) in E.
  pose proof (index_rows_perm field Hf) as Hperm. fold p in Hperm.
  assert (forall id r v, m !! id = Some r -> vr_metadata r !! field = Some v ->
    f (pidx_key json_text field v id) = Some (Some (facet_key json_text v)) \/ f (pidx_key json_text field v id) = None) as Hrow.
  { intros id r v Hr Hv. assert (pidx_key json_text field v id = p ++ encode_pidx_value json_text v ++ SEP :: id) as ->.
    { unfold p, pidx_key, pidx_field_prefix, prefix. by rewrite <- app_assoc. }
    unfold f. rewrite drop_app_length. apply facet_value_pidx; [by apply (Hids id r)| |done]. intros s ->. by eapply Htext. }
  apply fold_facets in E as (ks & HF & ->).
  2: { intros k Hk. rewrite Hperm in Hk. apply list_elem_of_omap in Hk as ([id r] & Hin%elem_of_map_to_list & (v & Hv & ->)%fmap_Some).
       exists (facet_key json_text v). by eapply Hrow. }
  apply count_all_perm. unfold surfaces.
  assert (ks = omap (fun k => default None (f k)) (scan_prefix db CF_PIDX p).*1) as ->.
  { clear -HF. induction HF as [|k s ks1 ks2 E _ IH]; [done|]. cbn [omap list_omap]. rewrite E. cbn. by rewrite <- IH. }
  assert (forall k, k ∈ index_keys field -> f k <> None) as Hdec.
  { intros k Hk. rewrite <- Hperm in Hk. apply list_elem_of_lookup in Hk as [i Hi]. destruct (Forall2_lookup_l _ _ _ _ _ HF Hi) as (s & _ & Es).
    by rewrite Es. }
  rewrite Hperm. unfold index_keys in *. assert (forall id r, (id, r) ∈ map_to_list m -> m !! id = Some r) as Hm by (intros id r; apply elem_of_map_to_list).
  clear HF Hperm. induction (map_to_list m) as [|[id r] l IH]; [done|]. cbn [omap list_omap fst snd] in *. unfold facet_of at 1.
  destruct (vr_metadata r !! field) as [v|] eqn:Ev; cbn [fmap option_fmap option_map omap list_omap] in *.
  - destruct (Hrow id r v (Hm id r ltac:(by left)) Ev) as [Er|Er].
    + rewrite Er. change (default None (Some (Some (facet_key json_text v)))) with (Some (facet_key json_text v)).
      apply (perm_skip (facet_key json_text v)), IH.
      * intros k Hk. apply Hdec. by right.
      * intros id' r' Hin. apply Hm. by right.
    + destruct (Hdec (pidx_key json_text field v id)); [by left|done].
  - apply IH; [done|]. intros id' r' Hin. apply Hm. by right.
Qed.

Lemma surfaces_size field k :
  occurrences k (surfaces field) = Z.of_nat (size (filter (fun p : bytes * VectorRecord => facet_of field p.2 = Some k) m)).
Proof.
  rewrite size_filter. unfold occurrences, surfaces. f_equal. clear. induction (map_to_list m) as [|[id r] l IH]; [done|].
  cbn [omap list_omap fst snd]. rewrite (filter_cons _ (id, r)). cbn [snd]. destruct (facet_of field r) as [s|] eqn:E.
  - rewrite filter_cons. destruct (decide (s = k)) as [->|Hne].
    + rewrite decide_True by done. cbn. by rewrite IH.
    + rewrite decide_False by congruence. done.
  - by rewrite decide_False by done.
Qed.
End store.

(** ** Scrolling *)

Definition beyond (after : option bytes) (k : bytes) : Prop := match after with Some a => blt a k | None => True end.
#[export] Instance beyond_dec after k : Decision (beyond after k).
Proof. destruct after; unfold beyond; apply _. Defined.

Lemma scroll_loop_take after limit rows out :
  Z.of_nat (length out) < Z.max 1 limit ->
  scroll_loop after limit rows out =
  out ++ map snd (take (Z.to_nat (Z.max 1 limit) - length out) (filter (fun p => after <> Some p.1) rows)).
Proof.
  revert out. induction rows as [|[k d] rows IH]; intros out Ho; [rewrite filter_nil, take_nil; cbn [scroll_loop map]; by rewrite app_nil_r|]. cbn [scroll_loop]. rewrite filter_cons.
  cbn [fst]. case_bool_decide as Ek; [by rewrite decide_False by auto; apply IH|]. rewrite decide_True by done.
  destruct (Z.leb_spec limit (Z.of_nat (length (out ++ [d])))) as [Hl|Hl]; rewrite length_app in Hl; cbn [length] in Hl.
  - assert (Z.to_nat (Z.max 1 limit) - length out = 1)%nat as -> by lia. done.
  - rewrite IH by (rewrite length_app; cbn; lia). rewrite length_app. cbn [length].
    assert (Z.to_nat (Z.max 1 limit) - length out = S (Z.to_nat (Z.max 1 limit) - (length out + 1)))%nat as -> by lia.
    cbn [take map]. by rewrite <- app_assoc.
Qed.

Lemma scroll_page db after limit :
  scroll db after limit = map snd (take (Z.to_nat (Z.max 1 limit)) (filter (fun p => beyond after p.1) (all_docs db))).
Proof.
  unfold scroll. rewrite scroll_loop_take by (cbn; lia). cbn [length app]. rewrite Nat.sub_0_r. do 2 f_equal.
  destruct after as [a|].
  - rewrite docs_from_filter, list_filter_filter. apply list_filter_iff. intros [k d]. cbn.
    split.
    + intros [Hne [Hlt| ->]%ble_lteq]; [done|by destruct Hne].
    + intros Hlt. split; [|by apply blt_ble]. intros [= ->]. by apply blt_irrefl in Hlt.
  - apply list_filter_iff. intros [k d]. cbn. done.
Qed.

(** A client that asks for the next page after the last id it has. *)
Fixpoint scroll_all (fuel : nat) (db : Db) (after : option bytes) (limit : Z) : list StoredDoc :=
  match fuel with
  | O => []
  | S fuel =>
      let page := scroll db after limit in
      match last page with None => [] | Some d => page ++ scroll_all fuel db (Some (sd_id d)) limit end
  end.

Lemma beyond_split (A B : list (bytes * StoredDoc)) :
  StronglySorted key_lt (A ++ B) -> filter (fun p => beyond (fst <$> last A) p.1) (A ++ B) = B.
Proof.
  intros Hs. assert (forall l : list (bytes * StoredDoc), filter (fun p => beyond None p.1) l = l) as Hall.
  { induction l as [|x l IH]; [done|]. by rewrite filter_cons_True, IH. }
  destruct A as [|x A _] using rev_ind; [apply Hall|]. rewrite last_snoc. change (fst <$> Some x) with (Some x.1).
  apply (StronglySorted_app key_lt) in Hs as (Hab & HA & _). rewrite list.filter_app.
  assert (filter (fun p : bytes * StoredDoc => beyond (Some x.1) p.1) (A ++ [x]) = []) as ->.
  { apply (StronglySorted_app key_lt) in HA as (Hax & _ & _). rewrite list.filter_app, filter_cons_False, app_nil_r.
    - clear -Hax. induction A as [|y A IH]; [done|]. rewrite filter_cons_False.
      + apply IH. intros z w Hz. apply Hax. by right.
      + intros Hlt. assert (blt y.1 x.1) as Hyx by (apply (Hax y x); left). by destruct (blt_irrefl x.1); transitivity y.1.
    - apply blt_irrefl. }
  cbn [app]. clear -Hab. induction B as [|y B IH]; [done|]. rewrite filter_cons_True.
  - f_equal. apply IH. intros z w Hz Hw. apply Hab; [done|]. by right.
  - apply (Hab x y); [|by left]. apply elem_of_app. right. by left.
Qed.

Lemma scroll_all_rest db limit fuel (A B : list (bytes * StoredDoc)) :
  all_docs db = A ++ B -> StronglySorted key_lt (A ++ B) -> Forall (fun p => sd_id p.2 = p.1) B -> (length B < fuel)%nat ->
  scroll_all fuel db (fst <$> last A) limit = map snd B.
Proof.
  revert A B. induction fuel as [|fuel IH]; intros A B E Hs Hid Hf; [lia|]. cbn [scroll_all].
  rewrite scroll_page, E, beyond_split by done. set (n := Z.to_nat (Z.max 1 limit)). assert (1 <= n)%nat as Hn by lia.
  destruct B as [|b B]; [by rewrite take_nil|]. set (page := take n (b :: B)).
  assert (exists p x, page = p ++ [x]) as (p & [k d] & Ep).
  { assert (page <> []) as Hp.
    { intros Hnil%(f_equal length). unfold page in Hnil. rewrite length_take in Hnil. cbn [length] in Hnil. lia. }
    destruct (exists_last Hp) as (p & x & Ep). by exists p, x. }
  rewrite Ep, map_app. cbn [map snd]. rewrite last_snoc.
  assert ((k, d) ∈ page) as Hin by (rewrite Ep; apply elem_of_app; right; by left).
  assert (sd_id d = k) as Ed. { rewrite Forall_forall in Hid. apply (Hid (k, d)). eapply sublist_subseteq; [apply sublist_take|exact Hin]. }
  assert (b :: B = page ++ drop n (b :: B)) as Eb by (symmetry; apply take_drop).
  transitivity (map snd (page ++ drop n (b :: B))); [|by rewrite <- Eb].
  rewrite map_app, Ep, map_app. cbn [map snd]. f_equal. rewrite Ed.
  assert (Some k = fst <$> last (A ++ page)) as ->. { rewrite Ep, app_assoc, last_snoc. done. }
  apply IH.
  - by rewrite E, <- app_assoc, <- Eb.
  - by rewrite <- app_assoc, <- Eb.
  - by apply Forall_drop.
  - rewrite length_drop. cbn [length] in *. lia.
Qed.
End listing.

(** ** Properties *)

Section Properties.
Context `{!SerdeNumber} `{!SerdeNumberLaws _} `{Libm} `{TextAnalyzer}.
Variable json_text : Json -> bytes.
Variable now_ms : Z -> Z.
Variable lexical_stats : bool.

(** a facet has an entry for each value some document holds in the
    field, with the number of those documents, and no other entry; and it is
    the same whether the counts come from the payload index or from reading
    the documents. Counting by equality gives the number of matching
    documents. *)
Theorem facet_counts_exact (db : Db) (m : gmap bytes VectorRecord) (log : list (ChangeOp * bytes)) (field : bytes) (f : Metadata) :
  Refines json_text now_ms lexical_stats db m log ->
  (forall id, is_Some (m !! id) -> valid_utf8 id = true) -> Forall nul_free (indexed_fields db) ->
  (forall (id field s : bytes) r, m !! id = Some r -> vr_metadata r !! field = Some (JStr s) -> valid_utf8 s = true) ->
  (forall b : bool, json_text (JBool b) = if b then true_text else false_text) ->
  (forall k, let n := Z.of_nat (size (filter (fun p : bytes * VectorRecord => facet_of json_text field p.2 = Some k) m)) in
     facet json_text db field !! k = if n =? 0 then None else Some n) /\
  facet json_text db field = facet_scan json_text db field /\
  count db f = Z.of_nat (size (filter (fun p : bytes * VectorRecord => matches_filter (vr_metadata p.2) f = true) m)).
Proof.
  intros HR Hutf Hf Htext Hbool. destruct HR as [Hids Hrows Hc _ _ _].
  assert (facet json_text db field = count_all (surfaces json_text m field)) as E.
  { unfold facet. rewrite (facet_scan_exact json_text db m Hids Hrows). case_bool_decide as Hi; [|done].
    destruct (facet_from_index db field) as [counts|] eqn:Ei; [|done].
    by eapply facet_from_index_exact. }
  split; [|split].
  - intros k n. by rewrite E, count_all_lookup, surfaces_size.
  - by rewrite E, (facet_scan_exact json_text db m Hids Hrows).
  - unfold count. case_bool_decide as Ef.
    + subst f. rewrite (co_docs _ _ _ _ Hc), msum_one. do 2 f_equal. symmetry. apply map_filter_id. done.
    + rewrite (all_docs_exact json_text db m Hids Hrows), btree_iter_fmap, size_filter. f_equal.
      rewrite <- (btree_iter_perm m). induction (btree_iter m) as [|[k r] l IH]; [done|]. cbn [map List.filter fst snd].
      rewrite (filter_cons _ (k, r)). cbn [snd]. change (sd_metadata (stored_doc r)) with (vr_metadata r).
      destruct (matches_filter (vr_metadata r) f); [rewrite decide_True by done|by rewrite decide_False by done]. cbn. by rewrite IH.
Qed.

(** C38: scrolling is exact and complete. A page is the next documents in id
    order strictly after the cursor, [limit] of them but at least one; and a
    client that passes on the last id it got receives every document exactly
    once, in id order, and stops. *)
Theorem scroll_covers (db : Db) (m : gmap bytes VectorRecord) (log : list (ChangeOp * bytes)) (limit : Z) (fuel : nat) :
  Refines json_text now_ms lexical_stats db m log -> (size m < fuel)%nat ->
  let docs := btree_iter (stored_doc <$> m) in
  (forall after, scroll db after limit =
     map snd (take (Z.to_nat (Z.max 1 limit)) (filter (fun p => beyond after p.1) docs))) /\
  scroll_all fuel db None limit = map snd docs.
Proof.
  intros [Hids Hrows _ _ _ _] Hf docs. pose proof (all_docs_exact json_text db m Hids Hrows) as E. split.
  - intros after. by rewrite scroll_page, E.
  - apply (scroll_all_rest db limit fuel [] docs); [done|apply btree_iter_sorted| |].
    + apply Forall_forall. intros [k d] Hin%elem_of_btree_iter. rewrite lookup_fmap in Hin.
      apply fmap_Some in Hin as (r & Hr & ->). by apply (Hids k r).
    + unfold docs. rewrite btree_iter_perm, length_map_to_list, map_size_fmap. done.
Qed.
End Properties.

(** ** A field with strings and truth values *)

Section Witnesses.
#[local] Existing Instances plain_number plain_number_laws flat_libm one_token.

Definition bool_text (v : Json) : bytes := match v with JBool b => if b then true_text else false_text | _ => str "v" end.
Definition pets : list VectorRecord :=
  [cat; dog; with_metadata (sample (str "eel") (str "an eel") [f32_of_Z 1; f32_of_Z 1]) {[ str "kind" := JBool true ]}].
Definition pets_db : Db :=
  create_payload_index bool_text (upsert bool_text (fun _ => 1) no_clock quotas_default true db0 pets).1 (str "kind").
Definition pets_map : gmap bytes VectorRecord * list (ChangeOp * bytes) := spec_run (map AUpsert pets) (∅, []).

Lemma pets_refines : Refines bool_text no_clock true pets_db pets_map.1 pets_map.2.
Proof.
  apply create_index_refines. unfold pets_map. destruct (upsert _ _ _ _ _ _ _) as [db res] eqn:E.
  assert (is_ok res = true) as Hok.
  { change res with (db, res).2. rewrite <- E. vm_compute. reflexivity. }
  eapply upsert_outcome in E; [|apply create_refines|apply ids_distinct_checked; vm_compute; reflexivity|repeat split; vm_compute; reflexivity].
  destruct res as [g|e]; [apply E|done].
Qed.

Definition strings_check (m : gmap bytes VectorRecord) : bool :=
  forallb (fun p => valid_utf8 p.1 &&
    forallb (fun kv => match kv.2 with JStr s => valid_utf8 s | _ => true end) (map_to_list (vr_metadata p.2))) (map_to_list m).
Lemma strings_checked m :
  strings_check m = true ->
  (forall id, is_Some (m !! id) -> valid_utf8 id = true) /\
  (forall (id field s : bytes) r, m !! id = Some r -> vr_metadata r !! field = Some (JStr s) -> valid_utf8 s = true).
Proof.
  unfold strings_check. rewrite forallb_forall. intros Hc.
  assert (forall id r, m !! id = Some r -> valid_utf8 id = true /\
    forall kv, kv ∈ map_to_list (vr_metadata r) -> match kv.2 with JStr s => valid_utf8 s | _ => true end = true) as Hm.
  { intros id r Hr%elem_of_map_to_list%list_elem_of_In. apply Hc in Hr. cbn [fst snd] in Hr. rewrite andb_true_iff, forallb_forall in Hr.
    destruct Hr as [Hu Hk]. split; [done|]. intros kv Hkv%list_elem_of_In. by apply Hk. }
  split.
  - intros id [r Hr]. by apply (Hm id r).
  - intros id field s r Hr Hs%elem_of_map_to_list. by apply (proj2 (Hm id r Hr)) in Hs.
Qed.
Lemma pets_strings : strings_check pets_map.1 = true.
Proof. vm_compute. reflexivity. Qed.

Lemma facet_counts_exact_witness :
  map_to_list (facet bool_text pets_db (str "kind")) ≡ₚ [(str "note", 2); (str "true", 1)] /\
  (forall k, let n := Z.of_nat (size (filter (fun p : bytes * VectorRecord => facet_of bool_text (str "kind") p.2 = Some k) pets_map.1)) in
     facet bool_text pets_db (str "kind") !! k = if n =? 0 then None else Some n) /\
  facet bool_text pets_db (str "kind") = facet_scan bool_text pets_db (str "kind") /\
  count pets_db {[ str "kind" := JStr (str "note") ]} =
    Z.of_nat (size (filter (fun p : bytes * VectorRecord => matches_filter (vr_metadata p.2) {[ str "kind" := JStr (str "note") ]} = true) pets_map.1)).
Proof.
  split; [refine (bool_decide_eq_true_1 _ _); vm_compute; reflexivity|].
  apply (facet_counts_exact bool_text no_clock true pets_db pets_map.1 pets_map.2 (str "kind") {[ str "kind" := JStr (str "note") ]});
    [apply pets_refines|apply strings_checked, pets_strings| |apply strings_checked, pets_strings|done].
  refine (bool_decide_eq_true_1 _ _). vm_compute. reflexivity.
Defined.

Lemma scroll_covers_witness :
  map sd_id (scroll pets_db (Some (str "cat")) 1) = [str "dog"] /\
  (forall after, scroll pets_db after 2 =
     map snd (take 2 (filter (fun p => beyond after p.1) (btree_iter (stored_doc <$> pets_map.1))))) /\
  scroll_all 4 pets_db None 2 = map snd (btree_iter (stored_doc <$> pets_map.1)).
Proof.
  split; [vm_compute; reflexivity|].
  apply (scroll_covers bool_text no_clock true pets_db pets_map.1 pets_map.2 2 4); [apply pets_refines|].
  assert (size pets_map.1 = 3%nat) as -> by (vm_compute; reflexivity). lia.
Defined.

(** scrolling with a limit of zero returns one document. *)
Theorem scroll_zero_returns_one : map sd_id (scroll pets_db None 0) = [str "cat"].
Proof. vm_compute. reflexivity. Qed.
End Witnesses.
