(* ===== verification/Strategies.v ===== *)
(** * Retrieval strategies (crates/connxism/src/strategies.rs)

    Grouped results, recommendation by example, context-steered discovery and
    batches, all made of typed queries and dense searches. *)
From Stdlib Require Import SpecFloat.
From S2P Require Import Prelude Floats ByteOrder Utf8 Json Query Geo Quant Heap AnnStore Ann Keys.
From S2P Require Import Model Kv Pending Store Fusion Searches FilterExec QueryExec.
#[local] Set Default Goal Selector "!".
#[local] Set Warnings "-clear-no-such-hyp".
Local Open Scope Z_scope.

Definition STRATEGY_OVERFETCH : Z := 4.

Section strategies.
Context `{SerdeNumber} `{Libm} `{TextAnalyzer} `{Ln32} `{LegacyPosting} `{Highlighter}.
Context {HC : BinaryHeap Scored reverse_key} {HR : BinaryHeap Scored scored_key}.
Variable json_text : Json -> bytes.

(** ** Groups *)

Record Group : Type := mkGroup { g_key : bytes; g_hits : list Candidate }.

Definition group_key (group_by : bytes) (c : Candidate) : option bytes := facet_key json_text <$> c_metadata c !! group_by.

(** One hit into its bucket; a bucket's key joins the order with its first hit. *)
Definition add_hit (group_by : bytes) (group_size : Z) (st : list bytes * gmap bytes (list Candidate)) (c : Candidate)
  : list bytes * gmap bytes (list Candidate) :=
  match group_key group_by c with
  | None => st
  | Some key =>
      let '(order, buckets) := st in
      let bucket := default [] (buckets !! key) in
      let order := if bool_decide (bucket = []) then order ++ [key] else order in
      (order, <[key := if Z.of_nat (length bucket) <? group_size then bucket ++ [c] else bucket]> buckets)
  end.

Definition grouped_query (q : EstateQuery) (groups group_size : Z) : EstateQuery :=
  set_stage q (q_scope q) (sat_mul (sat_mul groups group_size) STRATEGY_OVERFETCH) true (q_prefetch q).

Definition query_grouped (s : ConnXRecall) (q : EstateQuery) (group_by : bytes) (groups group_size : Z)
  : result RroError (list Group) :=
  if (groups =? 0) || (group_size =? 0) then Ok []
  else
    hits ← query json_text s (grouped_query q groups group_size);
    let '(order, buckets) := fold_left (add_hit group_by group_size) (map (fill_metadata (db s)) hits) ([], ∅) in
    Ok (map (fun key => mkGroup key (default [] (buckets !! key))) (truncate groups order)).

(** ** Recommendation *)

(** [for (a, x) in acc.iter_mut().zip(v)]: as far as the shorter one. *)
Fixpoint zip_into (f : f32 -> f32 -> f32) (acc v : list f32) : list f32 :=
  match acc, v with
  | a :: acc, x :: v => f a x :: zip_into f acc v
  | acc, _ => acc
  end.

Definition add_positive (db : Db) (st : list f32 * bool) (id : bytes) : list f32 * bool :=
  match vector_of db id with
  | Some v =>
      let v := normalized v in
      let acc := if bool_decide (st.1 = []) then replicate (length v) f32_zero else st.1 in
      (zip_into f32_add acc v, true)
  | None => st
  end.
Definition sub_negative (db : Db) (acc : list f32) (id : bytes) : list f32 :=
  match vector_of db id with Some v => zip_into f32_sub acc (normalized v) | None => acc end.

Definition recommend_target (db : Db) (positive negative : list bytes) : result RroError (list f32) :=
  let '(acc, found) := fold_left (add_positive db) positive ([], false) in
  if negb found then Err NoPositiveExample
  else Ok (normalized (fold_left (sub_negative db) negative acc)).

Definition recommend (s : ConnXRecall) (positive negative : list bytes) (top_k : Z) : result RroError (list Candidate) :=
  if top_k =? 0 then Ok []
  else
    target ← recommend_target (db s) positive negative;
    let exclude := positive ++ negative in
    hits ← search s target ((top_k + Z.of_nat (length (distinct_terms [] exclude))) mod two64);
    Ok (truncate top_k (filter (fun c => c_id c ∉ exclude) hits)).

(** ** Discovery *)

(** The pairs whose two examples both have a vector. *)
Definition known_pairs (db : Db) (pairs : list (bytes * bytes)) : list (list f32 * list f32) :=
  omap (fun '(p, n) => pv ← vector_of db p; nv ← vector_of db n; Some (pv, nv)) pairs.
Definition votes_of (ctx : list (list f32 * list f32)) (v : list f32) : Z :=
  fold_left (fun acc '(p, n) => acc + (if fgt (cosine v p) (cosine v n) then 1 else -1)) ctx 0.
Definition agreement (db : Db) (ctx : list (list f32 * list f32)) (id : bytes) : Z :=
  match vector_of db id with Some v => votes_of ctx v | None => - 2 ^ 63 end.

Definition agree_le (db : Db) (ctx : list (list f32 * list f32)) (x y : Candidate) : Prop :=
  agreement db ctx (c_id y) < agreement db ctx (c_id x) \/
  agreement db ctx (c_id y) = agreement db ctx (c_id x) /\ cand_le x y.
#[export] Instance agree_le_dec db ctx : RelDecision (agree_le db ctx).
Proof. intros x y. unfold agree_le. apply _. Defined.

Definition discover (s : ConnXRecall) (query : list f32) (pairs : list (bytes * bytes)) (top_k : Z) : result RroError (list Candidate) :=
  if top_k =? 0 then Ok []
  else
    hits ← search s query (sat_mul top_k STRATEGY_OVERFETCH);
    if bool_decide (pairs = []) then Ok (truncate top_k hits)
    else Ok (truncate top_k (merge_sort (agree_le (db s) (known_pairs (db s) pairs)) hits)).

(** ** Batches *)

Fixpoint query_batch (s : ConnXRecall) (queries : list EstateQuery) : result RroError (list (list Candidate)) :=
  match queries with
  | [] => Ok []
  | q :: queries => l ← query json_text s q; ls ← query_batch s queries; Ok (l :: ls)
  end.
End strategies.

(** * What the strategies promise

    Grouping is the grouping of the query's answer by the field; a
    recommendation is the exact nearest documents that are not examples. *)
From S2P Require Import Prelude Floats ByteOrder Utf8 Json Query Geo Quant Heap AnnStore Ann AnnFacts.
From S2P Require Import AnnSpec Keys KeysFacts Model Kv Pending Store StoreFacts StoreTx StoreSpec.
From S2P Require Import Fusion Searches SearchFacts SearchSpec FilterExec QueryExec QueryFacts.
From S2P Require Import QuerySpec ListingSpec.
Local Open Scope Z_scope.
From Stdlib Require Import SpecFloat.

(** ** Distinct values in order of appearance *)

Lemma distinct_snoc seen l (x : bytes) :
  distinct_terms seen (l ++ [x]) =
  distinct_terms seen l ++ (if bool_decide (x ∈ seen) || bool_decide (x ∈ l) then [] else [x]).
Proof.
  revert seen. induction l as [|y l IH]; intros seen.
  - cbn. rewrite (bool_decide_false (x ∈ [])) by apply not_elem_of_nil. rewrite orb_false_r. by case_bool_decide.
  - cbn [app distinct_terms]. destruct (bool_decide_reflect (y ∈ seen)) as [Hy|Hy]; rewrite IH; cbn [app].
    + apply (f_equal (app _)). assert (bool_decide (x ∈ seen) || bool_decide (x ∈ l) = bool_decide (x ∈ seen) || bool_decide (x ∈ y :: l)) as ->; [|done].
      rewrite <- !bool_decide_or. apply bool_decide_ext. rewrite elem_of_cons. split; [tauto|]. intros [?|[->|?]]; tauto.
    + apply (f_equal (cons y)), (f_equal (app _)).
      assert (bool_decide (x ∈ y :: seen) || bool_decide (x ∈ l) = bool_decide (x ∈ seen) || bool_decide (x ∈ y :: l)) as ->; [|done].
      rewrite <- !bool_decide_or. apply bool_decide_ext. rewrite !elem_of_cons. tauto.
Qed.

Lemma elem_of_distinct seen l (x : bytes) : x ∈ distinct_terms seen l <-> (x ∉ seen) /\ x ∈ l.
Proof.
  revert seen. induction l as [|y l IH]; intros seen; cbn.
  - split; [by intros ?%elem_of_nil|by intros [_ ?%elem_of_nil]].
  - case_bool_decide as Hy.
    + rewrite IH, elem_of_cons. split; [tauto|]. intros [Hx [->|?]]; done.
    + rewrite !elem_of_cons, IH, elem_of_cons. split; [intros [->|[Hx ?]]; tauto|]. intros [Hx [->|?]]; [tauto|].
      destruct (decide (x = y)); tauto.
Qed.

Section grouping.
Context `{SerdeNumber} `{Libm} `{TextAnalyzer} `{Ln32} `{LegacyPosting} `{Highlighter}.
Context {HC : BinaryHeap Scored reverse_key} {HR : BinaryHeap Scored scored_key}.
Variable json_text : Json -> bytes.

(** ** The grouping of a list *)

Definition bucket_of (group_by : bytes) (group_size : Z) (hits : list Candidate) (key : bytes) : list Candidate :=
  truncate group_size (filter (fun c => group_key json_text group_by c = Some key) hits).
Definition group_list (group_by : bytes) (groups group_size : Z) (hits : list Candidate) : list Group :=
  map (fun key => mkGroup key (bucket_of group_by group_size hits key))
    (truncate groups (distinct_terms [] (omap (group_key json_text group_by) hits))).

Lemma take_snoc {A} n (l : list A) x : take n (l ++ [x]) = if (length l <? n)%nat then take n l ++ [x] else take n l.
Proof.
  destruct (Nat.ltb_spec (length l) n).
  - rewrite !take_ge; [done|lia|rewrite length_app; cbn; lia].
  - by rewrite take_app_le.
Qed.

Lemma buckets_exact group_by group_size hits :
  0 < group_size ->
  let st := fold_left (add_hit json_text group_by group_size) hits ([], ∅) in
  st.1 = distinct_terms [] (omap (group_key json_text group_by) hits) /\
  forall key, default [] (st.2 !! key) = bucket_of group_by group_size hits key.
Proof.
  intros Hg. cbn zeta. induction hits as [|c hits [IH1 IH2]] using rev_ind.
  { split; [done|]. intros key. unfold bucket_of. rewrite filter_nil, truncate_take, take_nil. cbn [fold_left snd]. by rewrite lookup_empty. }
  rewrite fold_left_app. cbn [fold_left]. set (st := fold_left _ hits _) in *. rewrite omap_app. unfold add_hit.
  cbn [omap list_omap]. destruct (group_key json_text group_by c) as [key|] eqn:Ek.
  2: { rewrite app_nil_r. split; [done|]. intros key. rewrite IH2. unfold bucket_of. rewrite list.filter_app, filter_cons_False, app_nil_r by congruence. done. }
  assert (bool_decide (default [] (st.2 !! key) = []) = negb (bool_decide (key ∈ omap (group_key json_text group_by) hits))) as Hnew.
  { rewrite IH2. unfold bucket_of. rewrite truncate_take. rewrite <- bool_decide_not. apply bool_decide_ext. rewrite list_elem_of_omap. split.
    - intros E (c' & Hc' & Hk'). assert (c' ∈ filter (fun c => group_key json_text group_by c = Some key) hits) as Hin by (by apply list_elem_of_filter).
      destruct (filter _ hits); [by apply elem_of_nil in Hin|]. destruct (Z.to_nat group_size) eqn:En; [lia|done].
    - intros Hn. destruct (filter _ hits) as [|c' l] eqn:E; [apply take_nil|]. destruct Hn. exists c'.
      assert (c' ∈ filter (fun c => group_key json_text group_by c = Some key) hits) as Hin by (rewrite E; by left).
      by apply list_elem_of_filter in Hin as [??]. }
  destruct st as [order buckets]. cbn [fst snd] in *. split.
  - rewrite Hnew, distinct_snoc, IH1. rewrite (bool_decide_false (key ∈ [])) by apply not_elem_of_nil. cbn [orb].
    destruct (bool_decide (key ∈ omap (group_key json_text group_by) hits)); cbn [negb]; [by rewrite app_nil_r|done].
  - intros key'. unfold bucket_of. rewrite list.filter_app. destruct (decide (key' = key)) as [->|Hne].
    + rewrite lookup_insert_eq. cbn [default from_option]. rewrite IH2. unfold bucket_of. rewrite filter_cons_True by done.
      rewrite filter_nil. rewrite !truncate_take, take_snoc, length_take.
      destruct (Nat.ltb_spec (length (filter (fun c => group_key json_text group_by c = Some key) hits)) (Z.to_nat group_size)).
      * rewrite (proj2 (Z.ltb_lt _ _)) by lia. done.
      * rewrite (proj2 (Z.ltb_ge _ _)) by lia. done.
    + rewrite lookup_insert_ne by done. rewrite IH2. unfold bucket_of. rewrite filter_cons_False, app_nil_r by congruence. done.
Qed.
End grouping.

(** ** Cutting before and after a filter *)

Lemma take_filter_take {A} (P : A -> Prop) `{!forall x, Decision (P x)} (l : list A) k e :
  (length (filter (fun x => ~ P x) l) <= e)%nat -> take k (filter P (take (k + e) l)) = take k (filter P l).
Proof.
  revert k e. induction l as [|x l IH]; intros k e He; [by rewrite take_nil|]. rewrite filter_cons in He. destruct (decide (P x)) as [HP|HP].
  - rewrite decide_False in He by (intros Hn; by apply Hn). destruct k as [|k]; [done|].
    cbn [Nat.add]. change (take (S (k + e)) (x :: l)) with (x :: take (k + e) l). rewrite !filter_cons_True by done. cbn [take]. by rewrite IH.
  - rewrite decide_True in He by done. cbn [length] in He. destruct e as [|e]; [lia|]. rewrite Nat.add_succ_r.
    change (take (S (k + e)) (x :: l)) with (x :: take (k + e) l). rewrite !filter_cons_False by done.
    apply IH. lia.
Qed.

Lemma sorted_filter_rank (P : Hit -> Prop) `{!forall x, Decision (P x)} l : StronglySorted rank_le l -> StronglySorted rank_le (filter P l).
Proof.
  induction 1 as [|x l Hs IH Hx]; [constructor|]. rewrite filter_cons. case_decide; [|done]. constructor; [done|].
  apply Forall_forall. intros y [_ Hy]%list_elem_of_filter. rewrite Forall_forall in Hx. by apply Hx.
Qed.

Lemma ranked_filter (P : Hit -> Prop) `{!forall x, Decision (P x)} (M : gmap bytes f32) :
  ranked (filter P M) = filter P (ranked M).
Proof.
  apply rank_unique.
  - apply rank_sorted.
  - apply sorted_filter_rank, rank_sorted.
  - apply ranked_NoDup.
  - apply NoDup_Permutation.
    + apply (NoDup_fmap_1 fst), ranked_NoDup.
    + apply NoDup_filter, (NoDup_fmap_1 fst), ranked_NoDup.
    + intros [id s]. rewrite list_elem_of_filter, !elem_of_ranked, map_lookup_filter_Some. cbn. tauto.
Qed.

(** Fetch [e] more than wanted, drop at most [e]: the best that remain. *)
Lemma best_without (M : gmap bytes f32) (ex : list bytes) k :
  0 <= k ->
  best_of k (filter (fun p => p.1 ∉ ex) M)
    (truncate k (filter (fun h => h.1 ∉ ex) (truncate (k + Z.of_nat (length (distinct_terms [] ex))) (ranked M)))).
Proof.
  intros Hk. set (e := length (distinct_terms [] ex)).
  assert (truncate k (filter (fun h => h.1 ∉ ex) (truncate (k + Z.of_nat e) (ranked M))) =
    truncate k (ranked (filter (fun p => p.1 ∉ ex) M))) as ->; [|by apply best_ranked].
  rewrite !truncate_take, Z2Nat.inj_add, Nat2Z.id by lia.
  rewrite ranked_filter. apply take_filter_take. unfold e. rewrite <- (length_fmap fst). apply submseteq_length, NoDup_submseteq.
  - eapply sublist_NoDup; [apply ranked_NoDup|]. apply (fmap_sublist fst), sublist_filter.
  - intros id (h & -> & [Hh _]%list_elem_of_filter)%list_elem_of_fmap. apply elem_of_distinct.
    split; [apply not_elem_of_nil|]. by apply dec_stable.
Qed.

(** ** Candidates of a list of hits *)

Section hits.
Context `{SerdeNumber} `{Libm} `{TextAnalyzer}.
Context (m : gmap bytes VectorRecord).
Hypothesis Hids : ids_ok m.

Lemma doc_hits_filter (ex : list bytes) l :
  filter (fun c => c_id c ∉ ex) (doc_hits m l) = doc_hits m (filter (fun h => h.1 ∉ ex) l).
Proof.
  induction l as [|[id s] l IH]; [done|]. unfold doc_hits in *. rewrite (filter_cons _ (id, s)). cbn [omap list_omap fst snd].
  destruct (m !! id) as [r|] eqn:E; cbn [fmap option_fmap option_map].
  - pose proof (Hids _ _ E) as [Hid _]. rewrite filter_cons. cbn [c_id doc_hit]. rewrite Hid.
    destruct (decide (id ∉ ex)); [|done]. cbn [omap list_omap fst snd]. rewrite E. cbn. by rewrite IH.
  - destruct (decide (id ∉ ex)); [|done]. cbn [omap list_omap fst snd]. rewrite E. done.
Qed.

Lemma doc_hits_truncate k l :
  (forall id, id ∈ l.*1 -> is_Some (m !! id)) -> truncate k (doc_hits m l) = doc_hits m (truncate k l).
Proof.
  intros Hl. rewrite !truncate_take. revert Hl. generalize (Z.to_nat k) as n. induction l as [|[id s] l IH]; intros n Hl; [by destruct n|].
  destruct n as [|n]; [done|]. unfold doc_hits in *. cbn [take omap list_omap fst snd]. destruct (Hl id) as [r E]; [by left|]. rewrite E.
  cbn [fmap option_fmap option_map take]. f_equal. apply IH. intros i Hi. apply Hl. by right.
Qed.
End hits.

Section targets.
Context `{SerdeNumber}.

Lemma positive_found db ids st :
  (fold_left (add_positive db) ids st).2 = true <-> st.2 = true \/ exists id, id ∈ ids /\ is_Some (vector_of db id).
Proof.
  revert st. induction ids as [|id ids IH]; intros st; cbn [fold_left].
  - split; [by left|]. intros [?|(id & []%elem_of_nil & _)]; done.
  - rewrite IH. unfold add_positive at 1. destruct (vector_of db id) as [v|] eqn:E; cbn [snd].
    + split; [|by left]. intros _. right. exists id. split; [by left|by rewrite E].
    + setoid_rewrite elem_of_cons. split.
      * intros [?|(i & Hi & Hv)]; [by left|right; exists i; auto].
      * intros [?|(i & [Hi|Hi] & Hv)]; [by left| |right; eauto]. rewrite Hi, E in Hv. by apply is_Some_None in Hv.
Qed.
End targets.

(** ** Properties *)

Section Properties.
Context `{SerdeNumber} `{Libm} `{TextAnalyzer} `{Ln32} `{LegacyPosting} `{Highlighter}.
Context {HC : BinaryHeap Scored reverse_key} {HR : BinaryHeap Scored scored_key}.
Variable json_text : Json -> bytes.
Variable now_ms : Z -> Z.
Variable lexical_stats : bool.

(** a grouped query is the grouping of one query's answer: the distinct
    values of the field in the order of their best hit, as many as asked for,
    each with the first hits that hold it, as many as asked for; it fails as
    that query fails. *)
Theorem query_grouped_exact (s : ConnXRecall) (q : EstateQuery) (group_by : bytes) (groups group_size : Z) :
  0 < groups -> 0 < group_size ->
  query_grouped json_text s q group_by groups group_size =
  (hits ← query json_text s (grouped_query q groups group_size);
   Ok (group_list json_text group_by groups group_size (map (fill_metadata (db s)) hits))).
Proof.
  intros Hg Hn. unfold query_grouped. rewrite !(proj2 (Z.eqb_neq _ _)) by lia. cbn [orb].
  destruct (query json_text s _) as [hits|e]; [|done]. cbn [mbind result_bind].
  pose proof (buckets_exact json_text group_by group_size (map (fill_metadata (db s)) hits) Hn) as [Ho Hb].
  destruct (fold_left _ _ _) as [order buckets]. cbn [fst snd] in *. unfold group_list. rewrite Ho. f_equal.
  apply map_ext. intros key. by rewrite Hb.
Qed.

(** a recommendation is exact where dense search is: it answers the [k]
    documents nearest to the steered target among those that are not
    examples, although the examples are dropped after the search; and it is
    refused exactly when none of the positive examples is stored. *)
Theorem recommend_exact (s : ConnXRecall) (m : gmap bytes VectorRecord) (log : list (ChangeOp * bytes))
  (positive negative : list bytes) (k : Z) :
  Refines json_text now_ms lexical_stats (db s) m log -> searchable m -> (ann_len (ann s) < ANN_MIN_CORPUS)%nat ->
  0 < k -> k + Z.of_nat (length (distinct_terms [] (positive ++ negative))) < two64 ->
  match recommend s positive negative k with
  | Err e => e = NoPositiveExample /\ forall id, id ∈ positive -> m !! id = None
  | Ok l =>
      (exists id, id ∈ positive /\ is_Some (m !! id)) /\
      exists target hits, recommend_target (db s) positive negative = Ok target /\
        best_of k (filter (fun p => p.1 ∉ positive ++ negative) (cosines m target)) hits /\ l = doc_hits m hits
  end.
Proof.
  intros HR' Hs Hn Hk Hfit. pose proof (rf_ids _ _ _ _ _ _ HR') as Hids.
  assert (forall id, is_Some (vector_of (db s) id) <-> is_Some (m !! id)) as Hv.
  { intros id. rewrite (vector_of_exact json_text (indexed_fields (db s)) (db s) m Hids (rf_rows _ _ _ _ _ _ HR') Hs). apply fmap_is_Some. }
  unfold recommend, recommend_target. rewrite (proj2 (Z.eqb_neq _ _)) by lia.
  pose proof (positive_found (db s) positive ([], false)) as Hp. destruct (fold_left (add_positive _) _ _) as [acc found]. cbn [snd] in Hp.
  destruct found; cbn [negb mbind result_bind].
  - set (target := normalized _). unfold search.
    set (fetch := (k + _) mod two64). assert (fetch = k + Z.of_nat (length (distinct_terms [] (positive ++ negative)))) as Ef by (apply Z.mod_small; lia).
    rewrite (proj2 (Z.eqb_neq fetch 0)) by lia.
    erewrite dense_small by (exact HR' || exact Hs || exact Hn). cbn [mbind result_bind]. split.
    + destruct (proj1 Hp eq_refl) as [?|(id & Hid & Hx)]; [done|]. exists id. by rewrite <- Hv.
    + exists target. eexists. split; [done|]. split; [apply best_without; lia|].
      rewrite (doc_hits_filter m Hids (positive ++ negative)), doc_hits_truncate, Ef; [done|].
      intros id Hid. assert (id ∈ (ranked (cosines m target)).*1) as Hr.
      { eapply sublist_subseteq; [|exact Hid]. apply (fmap_sublist fst). etransitivity; [apply sublist_filter|apply truncate_sublist]. }
      apply elem_of_ranked_ids in Hr. unfold cosines in Hr. rewrite lookup_fmap in Hr. by apply fmap_is_Some in Hr.
  - split; [done|]. intros id Hid. rewrite eq_None_not_Some, <- Hv. intros Hx.
    assert (false = true) by (apply Hp; right; by exists id). done.
Qed.
End Properties.

(** ** On the shelf *)

Section Witnesses.
#[local] Existing Instances plain_number plain_number_laws flat_libm list_heap words tangent_ln no_legacy.
#[local] Instance first_byte : Highlighter := fun _ _ => Some [(0%nat, 1%nat)].

Lemma query_grouped_exact_witness :
  let sea := mkEstateQuery (Some (str "sea old")) (Some [f32_of_Z 1; f32_of_Z 0]) None None None None 0 ∅ None None None false 0 false false [] weights_default Rrf in
  match query_grouped bool_text shelf_store sea (str "kind") 2 1 with Ok gs => map g_key gs = [str "the old green sea"; str "the old harbour"] | Err _ => False end /\
  query_grouped bool_text shelf_store sea (str "kind") 2 1 =
  (hits ← query bool_text shelf_store (grouped_query sea 2 1);
   Ok (group_list bool_text (str "kind") 2 1 (map (fill_metadata (db shelf_store)) hits))).
Proof. intros sea. split; [vm_compute; reflexivity|apply (query_grouped_exact bool_text shelf_store sea (str "kind") 2 1); lia]. Defined.

Lemma recommend_exact_witness :
  match recommend shelf_store [str "a"] [str "d"] 2 with
  | Err e => e = NoPositiveExample /\ forall id, id ∈ [str "a"] -> shelf_map.1 !! id = None
  | Ok l =>
      (exists id, id ∈ [str "a"] /\ is_Some (shelf_map.1 !! id)) /\
      exists target hits, recommend_target (db shelf_store) [str "a"] [str "d"] = Ok target /\
        best_of 2 (filter (fun p => p.1 ∉ [str "a"] ++ [str "d"]) (cosines shelf_map.1 target)) hits /\ l = doc_hits shelf_map.1 hits
  end.
Proof.
  apply (recommend_exact no_text no_clock true shelf_store shelf_map.1 shelf_map.2 [str "a"] [str "d"] 2);
    [apply shelf_refines|apply shelf_searchable|cbn; unfold ANN_MIN_CORPUS; lia|lia|vm_compute; reflexivity].
Defined.
End Witnesses.
