(* ===== verification/Replication.v ===== *)
(** * The change feed and the followers that replay it
      (crates/connxism/src/estate.rs: changes, feed_stats, replication_batch;
       crates/connxism/src/model.rs: ReplEntry, ReplRecord;
       crates/rro-engine/src/replica.rs; the replicate verb of handler.rs)

    A follower polls a leader from its cursor and applies each entry to an
    estate of its own. The transport is a function from a request to its
    reply; the leader's side of it is [serve_replicate]. *)
From S2P Require Import Prelude Floats ByteOrder Utf8 Json RroTime Geo Query Keys Model Kv Pending.
From S2P Require Import Store.
From S2P Require Import Quant Searches.
#[local] Set Default Goal Selector "!".
Local Open Scope Z_scope.

Section replication.
Context `{SerdeNumber} `{TextAnalyzer}.
Variable json_text : Json -> bytes.
Variable json_len : Metadata -> Z.
Variable now_ms : Z -> Z.

(** ** Reading the feed *)

(** Every row of the feed family is a change. *)
Definition change_of (row : Row) : option Change := match row with RChange c => Some c | _ => None end.

Fixpoint changes_loop (limit : Z) (rows : list (bytes * Row)) (out : list Change) : list Change :=
  match rows with
  | [] => out
  | (_, v) :: rows =>
      if limit <=? Z.of_nat (length out) then out
      else changes_loop limit rows (match change_of v with Some c => out ++ [c] | None => out end)
  end.

(** [Estate::changes] *)
Definition changes (db : Db) (since_seq limit : Z) : list Change :=
  changes_loop limit (iter_from db CF_FEED (be_bytes 8 since_seq)) [].

Record FeedStats : Type := mkFeedStats {
  first_seq : option Z;
  next_seq : Z;
  retained : Z;
}.

Fixpoint feed_scan (rows : list (bytes * Row)) (first : option Z) (n : Z) : option Z * Z :=
  match rows with
  | [] => (first, n)
  | (k, _) :: rows =>
      let first :=
        match first with
        | None => if (length k =? 8)%nat then Some (from_be_bytes (take 8 k)) else None
        | Some _ => first
        end in
      feed_scan rows first (u64_add n 1)
  end.

(** [Estate::feed_stats] *)
Definition feed_stats (db : Db) : FeedStats :=
  let '(first, n) := feed_scan (iter_all db CF_FEED) None 0 in
  mkFeedStats first (get_u64 db META_FEED_SEQ) n.

(** ** The replication view *)

Record ReplRecord : Type := mkReplRecord {
  rr_id : bytes;
  rr_embedding : list f32;
  rr_text : bytes;
  rr_metadata : Metadata;
  rr_collection : option bytes;
}.

Record ReplEntry : Type := mkReplEntry {
  re_seq : Z;
  re_op : ChangeOp;
  re_doc_id : bytes;
  re_record : option ReplRecord;
}.

(** [ReplRecord::into_record] *)
Definition into_record (r : ReplRecord) : VectorRecord :=
  mkVectorRecord (rr_id r) (rr_embedding r) (rr_text r) (rr_metadata r) None ∅ [] (rr_collection r).

(** The record an upsert is resolved to: the current one, if any. *)
Definition resolve (db : Db) (id : bytes) : option ReplRecord :=
  match vector_of db id, get_doc db id with
  | Some embedding, Some doc =>
      Some (mkReplRecord id embedding (sd_text doc) (sd_metadata doc) (sd_collection doc))
  | _, _ => None
  end.

Definition repl_entry (db : Db) (c : Change) : ReplEntry :=
  mkReplEntry (ch_seq c) (ch_op c) (ch_doc_id c)
    (match ch_op c with Upsert => resolve db (ch_doc_id c) | Remove => None end).

(** [Estate::replication_batch] *)
Definition replication_batch (db : Db) (since_seq limit : Z) : list ReplEntry :=
  map (repl_entry db) (changes db since_seq limit).

(** The reply of the [replicate] verb, whose limit the node caps. *)
Definition REPLICATE_CAP : Z := 4096.
Definition serve_replicate (db : Db) (since_seq limit : Z) : list ReplEntry :=
  replication_batch db since_seq (Z.min limit REPLICATE_CAP).

(** ** The follower *)

(** A replica: its estate, the graph operations it has handed to the applier
    of that estate, and its cursor. *)
Record Replica : Type := mkReplica {
  rp_estate : Db;
  rp_graph : list GraphOp;
  rp_cursor : Z;
}.

(** [Replica::new] and [Replica::from_cursor] *)
Definition replica_new (estate : Db) : Replica := mkReplica estate [] 0.
Definition from_cursor (rp : Replica) (cursor : Z) : Replica := mkReplica (rp_estate rp) (rp_graph rp) cursor.

Section follower.
Variable q : Quotas.
Variable lexical_stats : bool.

(** One turn of the loop over a batch; an error leaves the cursor. *)
Definition apply_entry (rp : Replica) (e : ReplEntry) : Replica * result RroError unit :=
  match re_op e with
  | Upsert =>
      match re_record e with
      | Some record =>
          let '(db, res) := upsert json_text json_len now_ms q lexical_stats (rp_estate rp) [into_record record] in
          match res with
          | Ok gops => (mkReplica db (rp_graph rp ++ gops) (u64_add (re_seq e) 1), Ok tt)
          | Err err => (mkReplica db (rp_graph rp) (rp_cursor rp), Err err)
          end
      | None => (mkReplica (rp_estate rp) (rp_graph rp) (u64_add (re_seq e) 1), Ok tt)
      end
  | Remove =>
      let '(db, gops) := remove json_text now_ms lexical_stats (rp_estate rp) (re_doc_id e) in
      (mkReplica db (rp_graph rp ++ gops) (u64_add (re_seq e) 1), Ok tt)
  end.

Fixpoint apply_entries (rp : Replica) (entries : list ReplEntry) : Replica * result RroError unit :=
  match entries with
  | [] => (rp, Ok tt)
  | e :: entries =>
      let '(rp, res) := apply_entry rp e in
      match res with Ok _ => apply_entries rp entries | Err err => (rp, Err err) end
  end.

(** [Replica::sync_once]: the transport answers the request for a batch from
    the cursor, or fails. *)
Definition sync_once (request : Z -> Z -> result RroError (list ReplEntry)) (rp : Replica) (limit : Z)
  : Replica * result RroError Z :=
  match request (rp_cursor rp) limit with
  | Err err => (rp, Err err)
  | Ok entries =>
      let '(rp, res) := apply_entries rp entries in
      (rp, _ ← res; Ok (Z.of_nat (length entries)))
  end.

(** [Replica::sync_to_head]: sync until a batch is shorter than the limit.
    The leader may change between requests, so the transport is given the
    number of the request; [None] is a loop that has not ended. *)
Fixpoint sync_to_head (fuel : nat) (request : nat -> Z -> Z -> result RroError (list ReplEntry)) (turn : nat)
  (rp : Replica) (limit total : Z) : option (Replica * result RroError Z) :=
  match fuel with
  | O => None
  | S fuel =>
      match sync_once (request turn) rp limit with
      | (rp, Err err) => Some (rp, Err err)
      | (rp, Ok n) =>
          let total := total + n in
          if n <? limit then Some (rp, Ok total)
          else sync_to_head fuel request (S turn) rp limit total
      end
  end.
End follower.
End replication.
