(* ===== verification/ReplicationFacts.v ===== *)
(** * The feed as a list, and what one entry does to a follower

    Over a store that refines a map and a log, a read of the feed is a window
    of the log, and an upsert in it carries the current dense record.
    Applying an entry is one abstract statement. *)
From S2P Require Import Prelude Floats ByteOrder Utf8 Json RroTime Geo Query Keys KeysFacts Model.
From S2P Require Import Kv Pending Store StoreFacts StoreTx StoreSpec Quant Searches Replication.
#[local] Set Default Goal Selector "!".
#[local] Set Warnings "-clear-no-such-hyp".
Local Open Scope Z_scope.

(** ** Windows of a log *)

Definition window {A} (since limit : Z) (l : list A) : list A := take (Z.to_nat limit) (drop (Z.to_nat since) l).

Section feed.
Context `{SerdeNumber} `{Libm} `{TextAnalyzer}.
Variable json_text : Json -> bytes.
Variable now_ms : Z -> Z.
Variable lexical_stats : bool.
Local Abbreviation refines := (Refines json_text now_ms lexical_stats).

Definition log_change (i : nat) (c : ChangeOp * bytes) : Change :=
  mkChange (Z.of_nat i) c.1 c.2 (now_ms (Z.of_nat i)).
Definition log_row (i : nat) (c : ChangeOp * bytes) : bytes * Row :=
  (be_bytes 8 (Z.of_nat i), RChange (log_change i c)).

Lemma be8_lt x y : 0 <= x < 2 ^ 64 -> 0 <= y < 2 ^ 64 -> blt (be_bytes 8 x) (be_bytes 8 y) <-> x < y.
Proof.
  intros Hx Hy. unfold blt. rewrite bcmp_be_bytes by done. apply Z.compare_lt_iff.
Qed.

Lemma log_rows_sorted log n :
  Z.of_nat (n + length log) <= 2 ^ 64 ->
  StronglySorted key_lt (imap (fun i c => log_row (n + i) c) log).
Proof.
  revert n. induction log as [|c log IH]; intros n Hn; [constructor|]. cbn [length] in Hn.
  rewrite imap_cons. constructor.
  - rewrite (imap_ext _ (fun i c => log_row (S n + i) c)) by (intros; cbn; f_equal; lia). apply IH. lia.
  - apply Forall_forall. intros x (i & y & -> & Hi)%elem_of_lookup_imap. unfold key_lt, log_row. cbn [fst].
    apply lookup_lt_Some in Hi. apply be8_lt; cbn; lia.
Qed.

Lemma feed_iter db log :
  feed_ok now_ms db log -> Z.of_nat (length log) <= 2 ^ 64 -> iter_all db CF_FEED = imap log_row log.
Proof.
  intros [A B] Hl. apply btree_iter_unique.
  - by apply (log_rows_sorted log 0).
  - intros k v. rewrite elem_of_lookup_imap. split.
    + intros (i & [op id] & [= -> ->] & Hi). by apply A.
    + intros Hk. destruct (B k v Hk) as (i & Hi & ->). apply lookup_lt_is_Some in Hi as [[op id] Hi].
      rewrite (A i op id Hi) in Hk. injection Hk as <-. by exists i, (op, id).
Qed.

Lemma sorted_drop {A} n (l : list (bytes * A)) : StronglySorted key_lt l -> StronglySorted key_lt (drop n l).
Proof. intros Hs. revert n. induction Hs as [|x l Hs IH Hx]; intros [|n]; cbn; [constructor..|by constructor|apply IH]. Qed.

Lemma feed_from db log since :
  feed_ok now_ms db log -> Z.of_nat (length log) <= 2 ^ 64 -> 0 <= since < 2 ^ 64 ->
  iter_from db CF_FEED (be_bytes 8 since) = drop (Z.to_nat since) (imap log_row log).
Proof.
  intros Hf Hl Hs. apply sorted_unique.
  - apply iter_from_sorted.
  - apply sorted_drop. by apply (log_rows_sorted log 0).
  - intros [k v]. unfold iter_from. rewrite (feed_iter db log), list_elem_of_filter by done. cbn [fst].
    rewrite elem_of_lookup_imap, list_elem_of_lookup. setoid_rewrite lookup_drop. setoid_rewrite list_lookup_imap. split.
    + intros [Hle (i & c & [= -> ->] & Hi)]. pose proof (lookup_lt_Some _ _ _ Hi).
      assert (since <= Z.of_nat i) as Hsi.
      { destruct (Z.le_gt_cases since (Z.of_nat i)); [done|]. exfalso. revert Hle. apply not_ble, be8_lt; lia. }
      exists (i - Z.to_nat since)%nat. replace (Z.to_nat since + (i - Z.to_nat since))%nat with i by lia. by rewrite Hi.
    + intros [i Hi]. destruct (log !! _) as [c|] eqn:E; [|done]. pose proof (lookup_lt_Some _ _ _ E).
      injection Hi as <- <-. split; [|by exists (Z.to_nat since + i)%nat, c].
      apply ble_lteq. destruct i as [|i]; [right; f_equal; lia|left; apply be8_lt; lia].
Qed.

Lemma changes_loop_take limit rows out :
  (forall p, p ∈ rows -> is_Some (change_of p.2)) ->
  changes_loop limit rows out =
  out ++ take (Z.to_nat limit - length out) (omap (fun p => change_of p.2) rows).
Proof.
  revert out. induction rows as [|[k v] rows IH]; intros out Hr; [cbn; by rewrite take_nil, app_nil_r|].
  cbn [changes_loop]. destruct (limit <=? _) eqn:E; [apply Z.leb_le in E|apply Z.leb_gt in E].
  - replace (Z.to_nat limit - length out)%nat with 0%nat by lia. by rewrite take_0, app_nil_r.
  - destruct (Hr (k, v)) as [c Hc]; [by left|]. cbn [snd] in Hc. cbn [omap list_omap snd]. rewrite Hc.
    rewrite IH by (intros p Hp; apply Hr; by right). rewrite length_app. cbn [length].
    replace (Z.to_nat limit - length out)%nat with (S (Z.to_nat limit - (length out + 1))) by lia.
    cbn [take]. by rewrite <- app_assoc.
Qed.

Lemma omap_rows n (log : Log) : omap (fun p => change_of p.2) (imap (fun i c => log_row (n + i) c) log) =
  imap (fun i c => log_change (n + i) c) log.
Proof.
  revert n. induction log as [|c log IH]; intros n; [done|]. rewrite !imap_cons. cbn. f_equal.
  rewrite (imap_ext _ (fun i c => log_row (S n + i) c)) by (intros; cbn; f_equal; lia). rewrite IH.
  apply imap_ext. intros. cbn. f_equal. lia.
Qed.

Lemma omap_drop_total {A B} (f : A -> option B) n l :
  (forall x, x ∈ l -> is_Some (f x)) -> omap f (drop n l) = drop n (omap f l).
Proof.
  revert n. induction l as [|x l IH]; intros n Hl; [by destruct n|]. destruct n as [|n]; [done|].
  destruct (Hl x) as [y Hy]; [by left|]. cbn. rewrite Hy. cbn. apply IH. intros z Hz. apply Hl. by right.
Qed.

(** A read of the feed is a window of the log. *)
Lemma changes_window db log since limit :
  feed_ok now_ms db log -> Z.of_nat (length log) <= 2 ^ 64 -> 0 <= since < 2 ^ 64 ->
  changes db since limit = window since limit (imap log_change log).
Proof.
  intros Hf Hl Hs. unfold changes, window. rewrite (feed_from db log) by done.
  assert (forall p, p ∈ imap log_row log -> is_Some (change_of p.2)) as Hrow.
  { intros p (i & c & -> & _)%elem_of_lookup_imap. by eexists. }
  rewrite changes_loop_take by (intros p [i Hp]%list_elem_of_lookup; rewrite lookup_drop in Hp; by eapply Hrow, list_elem_of_lookup_2). cbn [app length]. rewrite Nat.sub_0_r.
  rewrite omap_drop_total by done. by rewrite (omap_rows 0).
Qed.

(** ** What a batch carries *)

(** What replication keeps of a record. *)
Definition to_repl (r : VectorRecord) : ReplRecord :=
  mkReplRecord (vr_id r) (decode_vec (encode_vec (vr_embedding r))) (vr_text r) (vr_metadata r) (vr_collection r).
Definition dense_part (r : VectorRecord) : VectorRecord := into_record (to_repl r).

Lemma dense_part_plain r :
  Forall f32_ok (vr_embedding r) -> vr_sparse r = None -> vr_named r = ∅ -> vr_multi r = [] -> dense_part r = r.
Proof.
  intros Hv Hs Hn Hm. unfold dense_part, to_repl. rewrite decode_encode_vec by done. destruct r. cbn in *. by subst.
Qed.

Definition entry_at (m : gmap bytes VectorRecord) (i : nat) (c : ChangeOp * bytes) : ReplEntry :=
  mkReplEntry (Z.of_nat i) c.1 c.2 (match c.1 with Upsert => to_repl <$> m !! c.2 | Remove => None end).

Lemma resolve_exact db m log id : refines db m log -> resolve db id = to_repl <$> m !! id.
Proof.
  intros HR. pose proof (rf_ids _ _ _ _ _ _ HR) as Hids. pose proof (rf_rows _ _ _ _ _ _ HR) as Hrows.
  unfold resolve, vector_of, get_cf. rewrite (rows_ok_doc _ _ _ _ _ Hids Hrows), (Hrows CF_VECS id eq_refl). cbn.
  destruct (m !! id) as [r|] eqn:E; [|done]. pose proof (Hids _ _ E) as [<- _]. cbn.
  rewrite doc_rows_vecs. done.
Qed.

Lemma batch_window db m log since limit :
  refines db m log -> Z.of_nat (length log) <= 2 ^ 64 -> 0 <= since < 2 ^ 64 ->
  replication_batch db since limit = window since limit (imap (entry_at m) log).
Proof.
  intros HR Hl Hs. unfold replication_batch. rewrite (changes_window db log) by (done || apply HR).
  unfold window.
  match goal with |- map ?f _ = _ => change (map f) with (fmap (M := list) f) end.
  rewrite fmap_take, fmap_drop. do 2 f_equal.
  apply list_eq. intros i. rewrite list_lookup_fmap, !list_lookup_imap. destruct (log !! i) as [[op id]|]; [|done].
  cbn. f_equal. unfold repl_entry, entry_at. cbn. by destruct op; rewrite ?(resolve_exact db m log).
Qed.
End feed.

(** ** Room in the counters *)

(** [n] more statements cannot overflow the counters of a store. *)
Definition room `{SerdeNumber} (db : Db) (n : Z) : Prop :=
  get_u64 db META_DOC_COUNT + n < 2 ^ 63 /\ get_u64 db META_TOTAL_TOKENS + n * 2 ^ 32 < 2 ^ 64 /\
  get_u64 db META_FEED_SEQ + n < 2 ^ 64.

Section room.
Context `{SerdeNumber} `{Libm} `{TextAnalyzer}.
Variable json_text : Json -> bytes.
Variable now_ms : Z -> Z.
Variable lexical_stats : bool.
Local Abbreviation refines := (Refines json_text now_ms lexical_stats).

Definition fits_more (s : gmap bytes VectorRecord * Log) (n : Z) : Prop :=
  Z.of_nat (size s.1) + n < 2 ^ 63 /\ msum tokens_of s.1 + n * 2 ^ 32 < 2 ^ 64 /\ Z.of_nat (length s.2) + n < 2 ^ 64.

Lemma room_fits db m log n : refines db m log -> room db n -> fits_more (m, log) n.
Proof.
  intros HR. unfold room, fits_more. cbn [fst snd]. destruct (rf_counts _ _ _ _ _ _ HR) as [-> -> _].
  rewrite (rf_seq _ _ _ _ _ _ HR), msum_one. done.
Qed.

Lemma tokens_bound (r : VectorRecord) : 0 <= tokens_of r <= 2 ^ 32.
Proof. unfold tokens_of, token_len. pose proof (Z.mod_pos_bound (Z.of_nat (length (analyze (vr_text r)))) (2 ^ 32)). lia. Qed.

Lemma fits_more_step s op n : fits_more s (n + 1) -> fits_more (spec_step s op) n.
Proof.
  destruct s as [m log]. unfold fits_more. cbn [fst snd]. intros (A & B & C). destruct op as [r|id]; cbn [spec_step].
  - cbn [fst snd]. rewrite length_app, msum_insert. cbn [length]. pose proof (tokens_bound r).
    assert (size (<[vr_id r:=r]> m) <= S (size m))%nat.
    { rewrite map_size_insert. destruct (m !! vr_id r); cbn; lia. }
    assert (0 <= from_option tokens_of 0 (m !! vr_id r)) as Hold by (destruct (m !! vr_id r) as [x|]; cbn; [apply tokens_bound|lia]).
    lia.
  - destruct (m !! id) as [r|] eqn:E; cbn [fst snd]; [|lia]. rewrite length_app, msum_delete, E. cbn [length from_option].
    rewrite map_size_delete_Some by done. pose proof (tokens_bound r). lia.
Qed.

Lemma fits_more_run ops s : fits_more s (Z.of_nat (length ops)) -> run_fits ops s.
Proof.
  revert s. induction ops as [|op ops IH]; intros s Hs; cbn [run_fits]; (split; [|try done]).
  - unfold fits_more, fits in *. cbn in Hs. lia.
  - unfold fits_more, fits in *. cbn [length] in Hs. lia.
  - apply IH, fits_more_step. replace (Z.of_nat (length ops) + 1) with (Z.of_nat (length (op :: ops))) by (cbn [length]; lia). done.
Qed.

Lemma room_run_fits db m log ops : refines db m log -> room db (Z.of_nat (length ops)) -> run_fits ops (m, log).
Proof. intros HR Hr. by apply fits_more_run, (room_fits db). Qed.
End room.

(** ** What an entry does to a follower *)

Section apply.
Context `{SerdeNumber} `{Libm} `{TextAnalyzer}.
Variable json_text : Json -> bytes.
Variable json_len : Metadata -> Z.
Variable now_ms : Z -> Z.
Variable lexical_stats : bool.
Variable q : Quotas.
Local Abbreviation refines := (Refines json_text now_ms lexical_stats).

Definition entry_effect (e : ReplEntry) (fm : gmap bytes VectorRecord) : gmap bytes VectorRecord :=
  match re_op e, re_record e with
  | Upsert, Some r => <[rr_id r := into_record r]> fm
  | Upsert, None => fm
  | Remove, _ => delete (re_doc_id e) fm
  end.

(** A follower's estate holds a map, and what it handed to its graph made the
    vectors of that map. *)
Definition mirrors (rp : Replica) (fm : gmap bytes VectorRecord) : Prop :=
  (exists flog, refines (rp_estate rp) fm flog) /\ graph_run (rp_graph rp) ∅ = vr_embedding <$> fm.

Lemma graph_run_app a b g : graph_run (a ++ b) g = graph_run b (graph_run a g).
Proof. apply fold_left_app. Qed.

Lemma remove_refines_log db m log id db' gops :
  refines db m log -> run_fits [ARemove id] (m, log) ->
  remove json_text now_ms lexical_stats db id = (db', gops) ->
  refines db' (delete id m) (match m !! id with Some _ => log ++ [(Remove, id)] | None => log end) /\
  graph_run gops (vr_embedding <$> m) = vr_embedding <$> delete id m.
Proof.
  intros HR Hf Hr. pose proof (remove_outcome _ _ _ _ _ _ _ _ _ HR Hf Hr) as Ho. cbn in Ho.
  destruct (m !! id) as [r|] eqn:E; [done|]. by rewrite delete_id.
Qed.

Lemma apply_entry_effect (rp rp' : Replica) (e : ReplEntry) (fm : gmap bytes VectorRecord) res :
  mirrors rp fm -> room (rp_estate rp) 1 -> (forall r, re_record e = Some r -> nul_free (rr_id r)) ->
  apply_entry json_text json_len now_ms q lexical_stats rp e = (rp', res) ->
  match res with
  | Ok _ => mirrors rp' (entry_effect e fm) /\ rp_cursor rp' = u64_add (re_seq e) 1
  | Err _ => mirrors rp' fm /\ rp_cursor rp' = rp_cursor rp
  end /\ get_u64 (rp_estate rp') META_FEED_SEQ <= get_u64 (rp_estate rp) META_FEED_SEQ + 1.
Proof.
  intros [[flog HR] Hg] Hroom Hnul. unfold apply_entry, entry_effect.
  assert (forall rp2 fm2 flog2, refines (rp_estate rp2) fm2 flog2 -> (length flog2 <= S (length flog))%nat ->
    get_u64 (rp_estate rp2) META_FEED_SEQ <= get_u64 (rp_estate rp) META_FEED_SEQ + 1) as Hseq.
  { intros rp2 fm2 flog2 HR2 Hl. rewrite (rf_seq _ _ _ _ _ _ HR), (rf_seq _ _ _ _ _ _ HR2). lia. }
  destruct (re_op e).
  - destruct (re_record e) as [r|]; [|by intros [= <- <-]; split; [repeat split; try exists flog|cbn; lia]].
    destruct (upsert _ _ _ _ _ _ _) as [db r'] eqn:Eu.
    eapply upsert_outcome in Eu; [|done| |by apply (room_run_fits json_text now_ms lexical_stats (rp_estate rp))].
    + destruct r' as [gops|err]; intros [= <- <-]; cbn in Eu.
      * destruct Eu as [HR' Hg']. split.
        -- repeat split; [by eexists|]. cbn [rp_graph]. rewrite graph_run_app, Hg. apply Hg'.
        -- eapply Hseq; [apply HR'|]. rewrite length_app. cbn. lia.
      * split; [by repeat split; [eexists|]|]. by eapply Hseq; [apply Eu|lia].
    + split; [cbn; apply NoDup_singleton|]. intros x [= ->]%list_elem_of_singleton. by apply Hnul.
  - destruct (remove _ _ _ _ _) as [db gops] eqn:Er. intros [= <- <-].
    eapply remove_refines_log in Er; [|done|by apply (room_run_fits json_text now_ms lexical_stats (rp_estate rp))].
    destruct Er as [HR' Hg']. split.
    + repeat split; [by eexists|]. cbn [rp_graph]. by rewrite graph_run_app, Hg.
    + eapply Hseq; [apply HR'|]. destruct (fm !! _); rewrite ?length_app; cbn; lia.
Qed.
End apply.
