(* ===== verification/Cluster.v ===== *)
(** * Quorum acknowledgement, leases and election
      (crates/rro-engine/src/cluster.rs)

    The leader's view of its followers, the gate a durable write waits at,
    the lease that tells the survivors when to elect, and the election. The
    wait is a step relation over every interleaving with the observations
    that wake it; time is an argument, as in the code. *)
From S2P Require Import Prelude ByteOrder Keys Searches.
#[local] Set Default Goal Selector "!".
Local Open Scope Z_scope.

(** ** The leader's view *)

Record Cluster : Type := mkCluster {
  quorum : Z;
  followers : gmap bytes Z;
}.

(** [Cluster::new], [Cluster::majority] *)
Definition cluster_new (quorum : Z) : Cluster := mkCluster (Z.max quorum 1) ∅.
Definition majority (n : Z) : Z := n / 2 + 1.

(** [Cluster::observe], and whether it wakes the waiters. *)
Definition observe (c : Cluster) (follower : bytes) (cursor : Z) : Cluster * bool :=
  let e := default 0 (followers c !! follower) in
  if e <? cursor then (mkCluster (quorum c) (<[follower := cursor]> (followers c)), true)
  else (mkCluster (quorum c) (<[follower := e]> (followers c)), false).

Definition holders (c : Cluster) (target : Z) : Z :=
  1 + Z.of_nat (length (filter (fun p => target <= p.2) (map_to_list (followers c)))).

Definition is_committed (c : Cluster) (target : Z) : bool := quorum c <=? holders c target.

(** Sorted pairs, and the ids are distinct. *)
Definition follower_cursors (c : Cluster) : list (bytes * Z) := btree_iter (followers c).

(** ** [Cluster::await_quorum]

    [notified()] registers the waiter for every later [notify_waiters], even
    before it is awaited; [epoch] counts the calls. An observation releases
    the lock before it notifies: [owed] counts the notifications to come. *)
Inductive WaiterPc : Type :=
  | WArm
  | WCheck (armed : nat)
  | WAwait (armed : nat)
  | WCommitted
  | WTimedOut.

Record Wait : Type := mkWait {
  w_cluster : Cluster;
  w_epoch : nat;
  w_owed : nat;
  w_pc : WaiterPc;
}.

Inductive wait_step (target : Z) : Wait -> Wait -> Prop :=
  | W_observe c n o pc follower cursor :
      wait_step target (mkWait c n o pc)
        (mkWait (observe c follower cursor).1 n (if (observe c follower cursor).2 then S o else o) pc)
  | W_notify c n o pc : wait_step target (mkWait c n (S o) pc) (mkWait c (S n) o pc)
  | W_arm c n o : wait_step target (mkWait c n o WArm) (mkWait c n o (WCheck n))
  | W_check c n o armed :
      wait_step target (mkWait c n o (WCheck armed))
        (mkWait c n o (if is_committed c target then WCommitted else WAwait armed))
  | W_wake c n o armed : (armed < n)%nat ->
      wait_step target (mkWait c n o (WAwait armed)) (mkWait c n o WArm)
  | W_timeout c n o armed : wait_step target (mkWait c n o (WAwait armed)) (mkWait c n o WTimedOut).

(** ** Leases *)

Record Lease : Type := mkLease {
  leader : bytes;
  expires_at_ms : Z;
}.

(** [Lease::granted], [Lease::renew], [Lease::is_live] *)
Definition lease_granted (leader : bytes) (now_ms ttl_ms : Z) : Lease := mkLease leader (sat_add now_ms ttl_ms).
Definition lease_renew (l : Lease) (now_ms ttl_ms : Z) : Lease := mkLease (leader l) (sat_add now_ms ttl_ms).
Definition lease_is_live (l : Lease) (now_ms : Z) : bool := now_ms <? expires_at_ms l.

(** ** Election *)

(** [Iterator::max_by]: the last of the greatest. *)
Definition max_by {A} (cmp : A -> A -> comparison) (l : list A) : option A :=
  match l with
  | [] => None
  | x :: l => Some (fold_left (fun x y => match cmp x y with Gt => x | _ => y end) l x)
  end.

Definition member_cmp (a b : bytes * Z) : comparison :=
  match a.2 ?= b.2 with Eq => bcmp a.1 b.1 | c => c end.

Definition elect (survivors : list (bytes * Z)) : option bytes := fst <$> max_by member_cmp survivors.

(** ** Facts *)

Lemma observe_quorum c f x : quorum (observe c f x).1 = quorum c.
Proof. unfold observe. by destruct (_ <? _). Qed.

(** An observed position never goes back. *)
Lemma observe_lookup c f x g :
  followers (observe c f x).1 !! g =
  if decide (g = f) then Some (Z.max (default 0 (followers c !! f)) x) else followers c !! g.
Proof.
  unfold observe. destruct (_ <? x) eqn:E; cbn [fst followers];
    [apply Z.ltb_lt in E|apply Z.ltb_ge in E]; (destruct (decide (g = f)) as [->|Hn];
    [rewrite lookup_insert_eq; f_equal; lia|by rewrite lookup_insert_ne]).
Qed.

Lemma observe_unmoved c f x : (observe c f x).2 = false -> x <= default 0 (followers c !! f).
Proof. unfold observe. destruct (_ <? x) eqn:E; [done|]. by apply Z.ltb_ge in E. Qed.

(** The followers that hold a target, as a set. *)
Definition holding (c : Cluster) (target : Z) : gset bytes :=
  dom (filter (fun p => target <= p.2) (followers c)).

Lemma map_to_list_holding (target : Z) (m : gmap bytes Z) :
  filter (fun p => target <= p.2) (map_to_list m) ≡ₚ map_to_list (filter (fun p => target <= p.2) m).
Proof.
  apply NoDup_Permutation.
  - apply NoDup_filter, NoDup_map_to_list.
  - apply NoDup_map_to_list.
  - intros [k x]. by rewrite list_elem_of_filter, !elem_of_map_to_list, map_lookup_filter_Some, (and_comm (_ !! _ = _)).
Qed.

Lemma holders_size c target : holders c target = 1 + Z.of_nat (size (holding c target)).
Proof.
  unfold holders, holding. by rewrite size_dom, <- length_map_to_list, map_to_list_holding.
Qed.

Lemma elem_of_holding c target f : f ∈ holding c target <-> exists x, followers c !! f = Some x /\ target <= x.
Proof.
  unfold holding. rewrite elem_of_dom. split.
  - intros [x [Hx Ht]%map_lookup_filter_Some]. by exists x.
  - intros (x & Hx & Ht). exists x. by apply map_lookup_filter_Some.
Qed.

Lemma holding_mono c f x target : 0 < target -> holding c target ⊆ holding (observe c f x).1 target.
Proof.
  intros Ht g. rewrite !elem_of_holding, observe_lookup. intros (y & Hy & Hle).
  destruct (decide (g = f)) as [->|Hn]; [|by exists y]. rewrite Hy. cbn. eexists. split; [done|]. lia.
Qed.

Lemma is_committed_mono c f x target :
  0 < target -> is_committed c target = true -> is_committed (observe c f x).1 target = true.
Proof.
  intros Ht. unfold is_committed. rewrite observe_quorum, !Z.leb_le, !holders_size.
  pose proof (subseteq_size _ _ (holding_mono c f x target Ht)). lia.
Qed.

(** An observation that moves nothing changes no count. *)
Lemma observe_unmoved_holding c f x target :
  0 < target -> (observe c f x).2 = false -> holding (observe c f x).1 target = holding c target.
Proof.
  intros Ht Hu%observe_unmoved. apply set_eq. intros g. rewrite !elem_of_holding, observe_lookup.
  destruct (decide (g = f)) as [->|Hn]; [|done]. split.
  - intros (y & [= <-] & Hle). destruct (followers c !! f) as [z|]; cbn in *; [|lia]. exists z. split; [done|lia].
  - intros (y & Hy & Hle). rewrite Hy in *. cbn in *. eexists. split; [done|]. lia.
Qed.

(** *** The order of the election is total *)

Lemma member_cmp_eq a b : member_cmp a b = Eq -> a = b.
Proof.
  unfold member_cmp. destruct a as [a x], b as [b y]. cbn. destruct (x ?= y) eqn:E; try done.
  intros ->%bcmp_eq. apply Z.compare_eq in E as ->. done.
Qed.

Definition member_le (a b : bytes * Z) : Prop := member_cmp a b <> Gt.

Lemma member_le_iff a b : member_le a b <-> a.2 < b.2 \/ a.2 = b.2 /\ ble a.1 b.1.
Proof.
  unfold member_le, member_cmp, ble. destruct (Z.compare_spec a.2 b.2) as [E|E|E].
  - split; [intros Hb; right; by split|]. intros [?|[_ Hb]]; [lia|done].
  - split; [by left|done].
  - split; [by intros []|]. intros [?|[? _]]; lia.
Qed.

#[export] Instance member_le_preorder : PreOrder member_le.
Proof.
  split.
  - intros a. apply member_le_iff. right. by split.
  - intros a b c. rewrite !member_le_iff. intros [Hab|[Eab Hab]] [Hbc|[Ebc Hbc]]; try (left; lia).
    right. split; [lia|by etransitivity].
Qed.

Lemma member_le_total a b : member_le a b \/ member_le b a.
Proof.
  rewrite !member_le_iff. destruct (Z.lt_trichotomy a.2 b.2) as [?|[E|?]]; [tauto| |tauto].
  destruct (total ble a.1 b.1); intuition lia.
Qed.

Lemma member_le_antisym a b : member_le a b -> member_le b a -> a = b.
Proof.
  rewrite !member_le_iff. destruct a as [a x], b as [b y]. cbn.
  intros [?|[-> Hab]] [?|[? Hba]]; try lia. f_equal. by apply (anti_symm ble).
Qed.

(** [max_by] answers an element that none exceeds. *)
Lemma max_by_greatest l x : max_by member_cmp l = Some x -> x ∈ l /\ (forall y, y ∈ l -> member_le y x).
Proof.
  destruct l as [|a l]; [done|]. cbn [max_by]. intros [= <-].
  revert a. induction l as [|b l IH] using rev_ind; intros a.
  - cbn. split; [by left|]. by intros y ->%list_elem_of_singleton.
  - rewrite fold_left_app. cbn [fold_left]. destruct (IH a) as [Hin Hle]. clear IH.
    set (z := fold_left _ l a) in *. destruct (member_cmp z b) eqn:E.
    3: { split; [rewrite app_comm_cons; apply elem_of_app; by left|]. intros y.
         rewrite app_comm_cons, elem_of_app, list_elem_of_singleton. intros [Hy| ->]; [by apply Hle|].
         destruct (member_le_total z b) as [Hzb|]; [by destruct (Hzb E)|done]. }
    all: split; [rewrite app_comm_cons; apply elem_of_app; right; by left|]; intros y;
      rewrite app_comm_cons, elem_of_app, list_elem_of_singleton; (intros [Hy| ->]; [|reflexivity]);
      (etransitivity; [by apply Hle|]); unfold member_le; by rewrite E.
Qed.

Lemma max_by_some l : l <> [] -> is_Some (max_by member_cmp l).
Proof. destruct l; [done|]. intros _. eexists. reflexivity. Qed.

(** The survivors agree on the winner in whatever order they list themselves. *)
Lemma elect_perm l l' : l ≡ₚ l' -> elect l = elect l'.
Proof.
  intros Hp. unfold elect. destruct (max_by member_cmp l) as [x|] eqn:E, (max_by member_cmp l') as [x'|] eqn:E'.
  - apply max_by_greatest in E as [Hx Hm], E' as [Hx' Hm']. cbn. do 2 f_equal.
    apply member_le_antisym; [apply Hm'; by rewrite <- Hp|apply Hm; by rewrite Hp].
  - destruct l as [|]; [done|]. destruct (max_by_some l') as [? ?]; [|congruence]. intros ->.
    by apply Permutation_nil_r in Hp.
  - destruct l' as [|]; [done|]. destruct (max_by_some l) as [? ?]; [|congruence]. intros ->.
    by apply Permutation_nil_l in Hp.
  - done.
Qed.
