(* ===== verification/ReplicationSpec.v ===== *)
(** * What replication promises

    A leader takes writes while followers poll, apply and fail in every
    interleaving. A follower that has applied a position of the feed holds the
    leader's current dense record of every document that no later position
    changes; a write a quorum holds survives the loss of the leader; and a
    follower of an idle leader reaches its head. *)
From S2P Require Import Prelude Floats ByteOrder Utf8 Json RroTime Geo Query Keys KeysFacts Model.
From S2P Require Import Kv Pending Store StoreFacts StoreTx StoreSpec Quant Searches.
From S2P Require Import Replication ReplicationFacts Cluster.
#[local] Set Default Goal Selector "!".
#[local] Set Warnings "-clear-no-such-hyp".
Local Open Scope Z_scope.

(** ** Positions of a log *)

Section log.
Context `{SerdeNumber}.

(** No change of [id] at position [n] or later. *)
Definition settled (log : Log) (id : bytes) (n : nat) : Prop :=
  forall i c, (n <= i)%nat -> log !! i = Some c -> c.2 <> id.

(** The last change of a document says whether it is there. *)
Definition coherent (m : gmap bytes VectorRecord) (log : Log) : Prop :=
  (forall i op id, log !! i = Some (op, id) -> settled log id (S i) -> op = Upsert <-> is_Some (m !! id)) /\
  (forall id, settled log id 0 -> m !! id = None).

(** One leader state after another: changes are logged. *)
Definition evolves (s s' : gmap bytes VectorRecord * Log) : Prop :=
  exists ext, s'.2 = s.2 ++ ext /\ (forall id, id ∉ ext.*2 -> s'.1 !! id = s.1 !! id) /\
    (coherent s.1 s.2 -> coherent s'.1 s'.2).

Lemma settled_mono log id n n' : (n <= n')%nat -> settled log id n -> settled log id n'.
Proof. intros Hn Hs i c Hi. apply Hs. lia. Qed.

Lemma settled_app log ext id n :
  (n <= length log)%nat -> settled (log ++ ext) id n <-> settled log id n /\ id ∉ ext.*2.
Proof.
  intros Hn. split.
  - intros Hs. split.
    + intros i c Hi Hc. apply (Hs i c Hi). by apply lookup_app_l_Some.
    + intros (c & -> & [i Hi]%list_elem_of_lookup)%list_elem_of_fmap.
      apply (Hs (length log + i)%nat c); [lia| |done]. rewrite lookup_app_r by lia. by rewrite Nat.add_sub' .
  - intros [Hs He] i c Hi [Hc|[Hl Hc]]%lookup_app_Some; [by eapply Hs|]. intros <-. apply He, list_elem_of_fmap.
    exists c. split; [done|]. by eapply list_elem_of_lookup_2.
Qed.

Lemma evolves_refl s : evolves s s.
Proof. exists []. rewrite app_nil_r. by split_and!. Qed.

Lemma evolves_trans s1 s2 s3 : evolves s1 s2 -> evolves s2 s3 -> evolves s1 s3.
Proof.
  intros (e1 & E1 & A1 & C1) (e2 & E2 & A2 & C2). exists (e1 ++ e2). split_and!.
  - by rewrite E2, E1, app_assoc.
  - intros id. rewrite fmap_app, not_elem_of_app. intros [N1 N2]. by rewrite A2, A1.
  - tauto.
Qed.

(** A change at the end of the log. *)
Lemma evolves_change m m' log op id :
  (forall id', id' <> id -> m' !! id' = m !! id') -> (op = Upsert <-> is_Some (m' !! id)) ->
  evolves (m, log) (m', log ++ [(op, id)]).
Proof.
  intros Hm Hop. exists [(op, id)]. cbn. split_and!; [done| |].
  - intros id' Hn. apply Hm. by rewrite list_elem_of_singleton in Hn.
  - intros [A B]. split.
    + intros i o x Hi Hs. pose proof (lookup_lt_Some _ _ _ Hi) as Hl. rewrite length_app in Hl. cbn in Hl.
      destruct (decide (i = length log)) as [->|Hne].
      * rewrite lookup_app_r, Nat.sub_diag in Hi by lia. by injection Hi as <- <-.
      * apply settled_app in Hs as [Hs He]; [|lia]. cbn in He. rewrite list_elem_of_singleton in He.
        rewrite Hm by done. rewrite lookup_app_l in Hi by lia. by eapply A.
    + intros x Hs. apply settled_app in Hs as [Hs He]; [|lia]. cbn in He. rewrite list_elem_of_singleton in He.
      rewrite Hm by done. by apply B.
Qed.

Lemma evolves_step s op : evolves s (spec_step s op).
Proof.
  destruct s as [m log], op as [r|id]; cbn [spec_step].
  - apply evolves_change; [intros id' Hn; by rewrite lookup_insert_ne|]. by rewrite lookup_insert_eq.
  - destruct (m !! id) as [r|]; [|apply evolves_refl].
    apply evolves_change; [intros id' Hn; by rewrite lookup_delete_ne|]. rewrite lookup_delete_eq. split; [done|by intros []].
Qed.

Lemma evolves_run ops s : evolves s (spec_run ops s).
Proof.
  revert s. induction ops as [|op ops IH]; intros s; [apply evolves_refl|]. eapply evolves_trans; [apply evolves_step|apply IH].
Qed.

Lemma coherent_empty : coherent ∅ [].
Proof. split; [by intros i op id Hi|]. intros id _. apply lookup_empty. Qed.

Lemma settled_at_head log id n : (length log <= n)%nat -> settled log id n.
Proof. intros Hn i c Hi Hc%lookup_lt_Some. lia. Qed.
End log.

(** ** The system *)

Section system.
Context `{SerdeNumber} `{Libm} `{TextAnalyzer}.
Variable json_text : Json -> bytes.
Variable json_len : Metadata -> Z.
Variable now_ms : Z -> Z.
Variable lexical_stats : bool.
Local Abbreviation refines := (Refines json_text now_ms lexical_stats).
Local Abbreviation mirrors := (mirrors json_text now_ms lexical_stats).

(** A follower between two entries of a batch: what [sync_once] still has to
    apply. *)
Record Follower : Type := mkFollower {
  fo_replica : Replica;
  fo_inbox : list ReplEntry;
}.

Record Sys : Type := mkSys {
  sy_leader : Db;
  sy_cluster : Cluster;
  sy_followers : gmap bytes Follower;
}.

Definition set_leader (s : Sys) (db : Db) : Sys := mkSys db (sy_cluster s) (sy_followers s).
Definition set_follower (s : Sys) (f : bytes) (fo : Follower) : Sys :=
  mkSys (sy_leader s) (sy_cluster s) (<[f := fo]> (sy_followers s)).

(** Writes of the leader, accepted or refused; polls, which the leader
    answers and takes as acknowledgements; entries applied one by one; errors
    and lost replies, after which the follower polls again. Every write finds
    room in the counters. *)
Inductive sys_step : Sys -> Sys -> Prop :=
  | S_transaction s ops db res :
      ids_distinct (statements ops) -> room (sy_leader s) (Z.of_nat (length (statements ops))) ->
      transaction json_text now_ms lexical_stats (sy_leader s) ops = (db, res) ->
      sys_step s (set_leader s db)
  | S_upsert s q rs db res :
      ids_distinct (map AUpsert rs) -> room (sy_leader s) (Z.of_nat (length rs)) ->
      upsert json_text json_len now_ms q lexical_stats (sy_leader s) rs = (db, res) ->
      sys_step s (set_leader s db)
  | S_remove s id db gops :
      room (sy_leader s) 1 -> remove json_text now_ms lexical_stats (sy_leader s) id = (db, gops) ->
      sys_step s (set_leader s db)
  | S_payload s f id db res :
      room (sy_leader s) 1 -> mutate_payload json_text now_ms f (sy_leader s) id = (db, res) ->
      sys_step s (set_leader s db)
  | S_poll s f rp limit :
      sy_followers s !! f = Some (mkFollower rp []) ->
      sys_step s
        (mkSys (sy_leader s) (observe (sy_cluster s) f (rp_cursor rp)).1
           (<[f := mkFollower rp (serve_replicate (sy_leader s) (rp_cursor rp) limit)]> (sy_followers s)))
  | S_apply s q f rp rp' e es :
      sy_followers s !! f = Some (mkFollower rp (e :: es)) -> room (rp_estate rp) 1 ->
      apply_entry json_text json_len now_ms q lexical_stats rp e = (rp', Ok tt) ->
      sys_step s (set_follower s f (mkFollower rp' es))
  | S_fail s q f rp rp' e es err :
      sy_followers s !! f = Some (mkFollower rp (e :: es)) -> room (rp_estate rp) 1 ->
      apply_entry json_text json_len now_ms q lexical_stats rp e = (rp', Err err) ->
      sys_step s (set_follower s f (mkFollower rp' []))
  | S_lost s f rp es :
      sy_followers s !! f = Some (mkFollower rp es) -> sys_step s (set_follower s f (mkFollower rp [])).

(** A fresh cluster of [n] members. *)
Definition sys_start (n : Z) (s : Sys) : Prop :=
  (exists id name t, sy_leader s = create id name t lexical_stats) /\
  sy_cluster s = cluster_new (majority n) /\ Z.of_nat (size (sy_followers s)) = n - 1 /\
  forall f fo, sy_followers s !! f = Some fo ->
    exists id name t, fo = mkFollower (replica_new (create id name t lexical_stats)) [].

(** ** The invariant *)

(** An entry on its way to a follower: a position of the log, with the current
    record unless a later change supersedes it. *)
Definition entry_ok (m : gmap bytes VectorRecord) (log : Log) (i : nat) (e : ReplEntry) : Prop :=
  exists op id, log !! i = Some (op, id) /\ re_seq e = Z.of_nat i /\ re_op e = op /\ re_doc_id e = id /\
    (forall r, re_record e = Some r -> rr_id r = id /\ nul_free id) /\
    (settled log id (S i) -> re_record e = match op with Upsert => to_repl <$> m !! id | Remove => None end).

Record follower_ok (m : gmap bytes VectorRecord) (log : Log) (fo : Follower) (fm : gmap bytes VectorRecord) : Prop :=
  mkFollowerOk {
  fk_mirrors : mirrors (fo_replica fo) fm;
  fk_cursor : 0 <= rp_cursor (fo_replica fo) <= Z.of_nat (length log);
  fk_inbox : forall k e, fo_inbox fo !! k = Some e -> entry_ok m log (Z.to_nat (rp_cursor (fo_replica fo)) + k) e;
  fk_settled : forall id, settled log id (Z.to_nat (rp_cursor (fo_replica fo))) -> fm !! id = dense_part <$> m !! id;
}.

(** The leader's knowledge of a follower is a lower bound. *)
Definition acks_ok (c : Cluster) (fs : gmap bytes Follower) : Prop :=
  forall f x, followers c !! f = Some x -> exists fo, fs !! f = Some fo /\ x <= rp_cursor (fo_replica fo).

Record sys_inv (n : Z) (s : Sys) (m : gmap bytes VectorRecord) (log : Log) : Prop := mkSysInv {
  si_leader : refines (sy_leader s) m log;
  si_fits : Z.of_nat (length log) < 2 ^ 64;
  si_coherent : coherent m log;
  si_followers : forall f fo, sy_followers s !! f = Some fo -> exists fm, follower_ok m log fo fm;
  si_acks : acks_ok (sy_cluster s) (sy_followers s);
  si_quorum : quorum (sy_cluster s) = Z.max (majority n) 1;
  si_size : Z.of_nat (size (sy_followers s)) = n - 1;
}.

Lemma entry_ok_evolves m log m' log' i e :
  evolves (m, log) (m', log') -> entry_ok m log i e -> entry_ok m' log' i e.
Proof.
  intros (ext & E & A & _) (op & id & Hi & Hs & Ho & Hd & Hr & Hc). cbn [fst snd] in *. subst log'.
  pose proof (lookup_lt_Some _ _ _ Hi). exists op, id. split_and!; try done; [by apply lookup_app_l_Some|].
  intros [Hset Hn]%settled_app; [|lia]. rewrite A by done. by apply Hc.
Qed.

Lemma follower_ok_evolves m log m' log' fo fm :
  evolves (m, log) (m', log') -> follower_ok m log fo fm -> follower_ok m' log' fo fm.
Proof.
  intros Hev [A B C D]. pose proof Hev as (ext & E & Am & _). cbn [fst snd] in *. split.
  - done.
  - subst log'. rewrite length_app. lia.
  - intros k e Hk. by eapply entry_ok_evolves, C.
  - subst log'. intros id [Hs Hn]%settled_app; [|lia]. rewrite Am by done. by apply D.
Qed.

(** Whatever the leader does, the followers stay good. *)
Lemma sys_inv_leader n s m log m' log' db :
  sys_inv n s m log -> evolves (m, log) (m', log') -> refines db m' log' -> Z.of_nat (length log') < 2 ^ 64 ->
  sys_inv n (set_leader s db) m' log'.
Proof.
  intros [A B C D E F G] Hev HR Hl. split; try done; cbn.
  - destruct Hev as (ext & _ & _ & Hc). by apply Hc.
  - intros f fo Hf. destruct (D f fo Hf) as [fm Hfm]. exists fm. by eapply follower_ok_evolves.
Qed.

Lemma sys_inv_outcome n s m log ops db res :
  sys_inv n s m log -> run_fits ops (m, log) -> outcome_ok json_text now_ms lexical_stats db res (m, log) ops ->
  exists m' log', sys_inv n (set_leader s db) m' log'.
Proof.
  intros Hs Hf Ho. destruct res as [gops|e]; cbn in Ho.
  - pose proof (evolves_run ops (m, log)) as Hev. pose proof (run_fits_last ops (m, log) Hf) as (_ & _ & Hl).
    destruct (spec_run ops (m, log)) as [m' log']. exists m', log'. by eapply sys_inv_leader; [|done|apply Ho|].
  - exists m, log. eapply sys_inv_leader; [done|apply evolves_refl|done|apply Hs].
Qed.

(** One follower moves. *)
Lemma sys_inv_follower n s m log f fo fo' fm :
  sys_inv n s m log -> sy_followers s !! f = Some fo -> follower_ok m log fo' fm ->
  rp_cursor (fo_replica fo) <= rp_cursor (fo_replica fo') -> sys_inv n (set_follower s f fo') m log.
Proof.
  intros [A B C D E F G] Hf Hok Hc. split; try done; cbn.
  - intros g go Hg. apply lookup_insert_Some in Hg as [[<- <-]|[_ Hg]]; [by exists fm|by eapply D].
  - intros g x Hx. destruct (E g x Hx) as (go & Hg & Hle). destruct (decide (g = f)) as [->|Hn].
    + rewrite lookup_insert_eq. eexists. split; [done|]. rewrite Hf in Hg. injection Hg as <-. lia.
    + rewrite lookup_insert_ne by done. by exists go.
  - by rewrite map_size_insert_Some.
Qed.

Lemma follower_apply m log rp rp' e es fm q :
  coherent m log -> Z.of_nat (length log) < 2 ^ 64 ->
  follower_ok m log (mkFollower rp (e :: es)) fm -> room (rp_estate rp) 1 ->
  apply_entry json_text json_len now_ms q lexical_stats rp e = (rp', Ok tt) ->
  follower_ok m log (mkFollower rp' es) (entry_effect e fm) /\ rp_cursor rp' = rp_cursor rp + 1.
Proof.
  intros Hcoh Hlen [A B C D] Hroom Ha. cbn [fo_replica fo_inbox] in *.
  destruct (C 0%nat e eq_refl) as (op & id & Hi & Hseq & Hop & Hid & Hrec & Hcur). rewrite Nat.add_0_r in *.
  eapply apply_entry_effect in Ha as [[Hm Hc] _]; [|done|done|by intros r [-> Hn]%Hrec].
  pose proof (lookup_lt_Some _ _ _ Hi) as Hlt.
  rewrite Hseq, Z2Nat.id, u64_add_small in Hc by lia. split; [|done]. split; cbn [fo_replica fo_inbox]; rewrite ?Hc.
  - done.
  - lia.
  - intros k x Hk. specialize (C (S k) x Hk).
    replace (Z.to_nat (rp_cursor rp + 1) + k)%nat with (Z.to_nat (rp_cursor rp) + S k)%nat by lia. done.
  - intros x Hx. replace (Z.to_nat (rp_cursor rp + 1)) with (S (Z.to_nat (rp_cursor rp))) in Hx by lia.
    destruct (decide (x = id)) as [->|Hne].
    + specialize (Hcur Hx). destruct Hcoh as [Hcoh _]. specialize (Hcoh _ _ _ Hi Hx).
      unfold entry_effect. rewrite Hop, Hcur, Hid. destruct op.
      * destruct (proj1 Hcoh eq_refl) as [r Hr]. rewrite Hr in *. cbn.
        destruct (Hrec _ Hcur) as [Hrid _]. cbn in Hrid. rewrite Hrid. apply lookup_insert_eq.
      * rewrite lookup_delete_eq. destruct (m !! id) eqn:Em; [|done]. by discriminate (proj2 Hcoh ltac:(by eexists)).
    + assert (entry_effect e fm !! x = fm !! x) as ->.
      { unfold entry_effect. destruct (re_op e); [destruct (re_record e) as [r|] eqn:Er; [|done]|].
        - destruct (Hrec r eq_refl) as [<- _]. by rewrite lookup_insert_ne.
        - rewrite Hid. by rewrite lookup_delete_ne. }
      apply D. intros i c Hle Hci. destruct (decide (i = Z.to_nat (rp_cursor rp))) as [->|Hn].
      * rewrite Hi in Hci. injection Hci as <-. cbn. congruence.
      * apply (Hx i c); [lia|done].
Qed.

(** A poll fills the inbox with a window of the log. *)
Lemma follower_poll m log rp fm db limit :
  refines db m log -> coherent m log -> Z.of_nat (length log) < 2 ^ 64 ->
  follower_ok m log (mkFollower rp []) fm ->
  follower_ok m log (mkFollower rp (serve_replicate db (rp_cursor rp) limit)) fm.
Proof.
  intros HR Hcoh Hlen [A B C D]. cbn [fo_replica fo_inbox] in *. split; try done; cbn [fo_replica fo_inbox].
  intros k e Hk. unfold serve_replicate in Hk.
  rewrite (batch_window json_text now_ms lexical_stats db m log) in Hk by (done || lia). unfold window in Hk.
  apply lookup_take_Some in Hk as [Hk _]. rewrite lookup_drop, list_lookup_imap in Hk.
  destruct (log !! _) as [[op id]|] eqn:Hi; [|done]. injection Hk as <-. exists op, id. split_and!; try done.
  intros r Hr. cbn in Hr. destruct op; [|done]. destruct (m !! id) as [x|] eqn:Em; [|done]. injection Hr as <-.
  destruct (rf_ids _ _ _ _ _ _ HR _ _ Em) as [<- ?]. done.
Qed.

(** Dropping the rest of a batch. *)
Lemma follower_drop m log rp rp' es fm :
  follower_ok m log (mkFollower rp es) fm -> mirrors rp' fm -> rp_cursor rp' = rp_cursor rp ->
  follower_ok m log (mkFollower rp' []) fm.
Proof. intros [A B C D] Hm Hc. split; cbn [fo_replica fo_inbox] in *; rewrite ?Hc; done. Qed.

Lemma sys_step_inv n s s' m log :
  sys_step s s' -> sys_inv n s m log -> exists m' log', sys_inv n s' m' log'.
Proof.
  intros Hstep Hs. pose proof Hs as [A B C D E F G]. destruct Hstep as
    [s ops db res Hd Hr Hx|s q rs db res Hd Hr Hx|s id db gops Hr Hx|s f id db res Hr Hx
    |s f rp limit Hf|s q f rp rp' e es Hf Hr Hx|s q f rp rp' e es err Hf Hr Hx|s f rp es Hf].
  - apply (sys_inv_outcome n s m log (statements ops) db res Hs);
      [by eapply room_run_fits|]. eapply transaction_outcome; try done. by eapply room_run_fits.
  - apply (sys_inv_outcome n s m log (map AUpsert rs) db res Hs);
      [eapply room_run_fits; [done|]; by rewrite length_map|]. eapply upsert_outcome; try done.
    eapply room_run_fits; [done|]. by rewrite length_map.
  - apply (sys_inv_outcome n s m log [ARemove id] db (Ok gops) Hs); [by eapply room_run_fits|].
    eapply remove_outcome; try done. by eapply room_run_fits.
  - destruct (m !! id) as [r|] eqn:Em.
    + pose proof (room_fits json_text now_ms lexical_stats _ _ _ _ A Hr) as (F1 & F2 & F3). cbn in F1, F2, F3.
      destruct (mutate_payload_refines json_text now_ms lexical_stats (sy_leader s) m log id r f) as (db' & E' & HR');
        [done|done|..].
      { unfold fits. cbn. rewrite length_app. cbn. lia. }
      rewrite E' in Hx. injection Hx as <- <-. eexists _, _. eapply sys_inv_leader; [done| |done|].
      * apply evolves_change; [intros x Hn; by rewrite lookup_insert_ne|]. by rewrite lookup_insert_eq.
      * rewrite length_app. cbn. lia.
    + exists m, log. unfold mutate_payload in Hx.
      rewrite (rows_ok_doc json_text (indexed_fields (sy_leader s)) (sy_leader s) m), Em in Hx by apply A.
      injection Hx as <- _. eapply sys_inv_leader; [done|apply evolves_refl|done|done].
  - exists m, log. destruct (D _ _ Hf) as [fm Hfm].
    pose proof (follower_poll m log rp fm (sy_leader s) limit A C B Hfm) as Hfm'.
    destruct (sys_inv_follower n s m log f _ (mkFollower rp (serve_replicate (sy_leader s) (rp_cursor rp) limit)) fm
      Hs Hf Hfm' ltac:(done)) as [A' B' C' D' E' F' G']. split; try done; cbn.
    + intros g x. rewrite observe_lookup. destruct (decide (g = f)) as [->|Hn]; [|apply E'].
      intros [= <-]. rewrite lookup_insert_eq. eexists. split; [done|]. cbn.
      destruct (followers (sy_cluster s) !! f) as [y|] eqn:Ey; cbn; [|destruct Hfm as [_ [? _] _ _]; cbn in *; lia].
      destruct (E f y Ey) as (fo & Hfo & Hle). rewrite Hf in Hfo. injection Hfo as <-. cbn in Hle. lia.
    + by rewrite observe_quorum.
  - exists m, log. destruct (D _ _ Hf) as [fm Hfm].
    destruct (follower_apply m log rp rp' e es fm q C B Hfm Hr Hx) as [Hok Hc].
    eapply sys_inv_follower; try done. cbn. lia.
  - exists m, log. destruct (D _ _ Hf) as [fm Hfm]. pose proof Hfm as [M Cu I _].
    eapply apply_entry_effect in Hx as [[Hm Hc] _]; [|done|done|].
    + eapply sys_inv_follower; [done|done|by eapply follower_drop|]. cbn in *. lia.
    + intros r Hrec. cbn in I. destruct (I 0%nat e eq_refl) as (op & id & _ & _ & _ & _ & Hid & _).
      by destruct (Hid r Hrec) as [-> ?].
  - exists m, log. destruct (D _ _ Hf) as [fm Hfm]. pose proof Hfm as [M _ _ _].
    eapply sys_inv_follower; [done|done|by eapply follower_drop|done].
Qed.

Lemma sys_start_inv n s : 0 < n -> sys_start n s -> sys_inv n s ∅ [].
Proof.
  intros Hn ((id & name & t & Hl) & Hc & Hsz & Hf). split.
  - rewrite Hl. apply create_refines.
  - cbn. lia.
  - apply coherent_empty.
  - intros f fo Hfo. destruct (Hf f fo Hfo) as (i & nm & tm & ->). exists ∅. split; cbn.
    + split; [exists []; apply create_refines|]. by rewrite fmap_empty.
    + lia.
    + done.
    + intros x _. by rewrite !lookup_empty.
  - intros f x. rewrite Hc. cbn. by rewrite lookup_empty.
  - by rewrite Hc.
  - done.
Qed.

Lemma sys_reach_inv n s s' :
  0 < n -> sys_start n s -> rtc sys_step s s' -> exists m log, sys_inv n s' m log.
Proof.
  intros Hn Hs Hr. enough (exists m log, sys_inv n s m log) as Hi.
  { clear Hs. induction Hr as [|s1 s2 s3 Hst _ IH]; [done|]. destruct Hi as (m & log & Hi). apply IH.
    by eapply sys_step_inv. }
  exists ∅, []. by apply sys_start_inv.
Qed.
End system.

(** ** Waiting for a quorum *)

Definition wait_inv (target : Z) (w : Wait) : Prop :=
  match w_pc w with
  | WArm | WTimedOut => True
  | WCheck armed => (armed <= w_epoch w)%nat
  | WAwait armed => (armed <= w_epoch w)%nat /\
      (is_committed (w_cluster w) target = true -> (armed < w_epoch w)%nat \/ (0 < w_owed w)%nat)
  | WCommitted => is_committed (w_cluster w) target = true
  end.

Lemma is_committed_unmoved c f x target :
  0 < target -> (observe c f x).2 = false -> is_committed (observe c f x).1 target = is_committed c target.
Proof.
  intros Ht Hu. unfold is_committed. by rewrite observe_quorum, !holders_size, observe_unmoved_holding.
Qed.

Lemma wait_step_inv target w w' : 0 < target -> wait_step target w w' -> wait_inv target w -> wait_inv target w'.
Proof.
  intros Ht Hs. destruct Hs as [c n o pc f x|c n o pc|c n o|c n o armed|c n o armed Hl|c n o armed];
    unfold wait_inv; cbn [w_pc w_cluster w_epoch w_owed].
  - destruct pc as [|armed|armed| |]; try done.
    + intros [Ha Hc]. split; [done|]. destruct (observe c f x).2 eqn:Eo; [lia|].
      rewrite is_committed_unmoved by done. done.
    + by apply is_committed_mono.
  - destruct pc as [|armed|armed| |]; try done; [lia|]. intros [Ha Hc]. split; [lia|]. intros _. left. lia.
  - done.
  - intros Ha. by destruct (is_committed c target) eqn:Ec.
  - done.
  - done.
Qed.

Section Properties.
Context `{SerdeNumber} `{Libm} `{TextAnalyzer}.
Variable json_text : Json -> bytes.
Variable json_len : Metadata -> Z.
Variable now_ms : Z -> Z.
Variable lexical_stats : bool.
Local Abbreviation refines := (Refines json_text now_ms lexical_stats).
Local Abbreviation mirrors := (mirrors json_text now_ms lexical_stats).
Local Abbreviation sys_step := (sys_step json_text json_len now_ms lexical_stats).
Local Abbreviation sys_start := (sys_start lexical_stats).

Definition cursor_of (s : Sys) (f : bytes) : Z :=
  match sy_followers s !! f with Some fo => rp_cursor (fo_replica fo) | None => 0 end.

(** C13: A follower mirrors the leader position by position. However writes, polls,
    applications and failures interleave, a follower of a fresh cluster holds
    the leader's current dense record of every document that no position from
    its cursor on changes, and of no other; at the head of the feed it holds
    the leader's documents, and its graph their vectors. *)
Theorem follower_mirrors_leader (n : Z) (s0 s : Sys) (f : bytes) (fo : Follower) :
  0 < n -> sys_start n s0 -> rtc sys_step s0 s -> sy_followers s !! f = Some fo ->
  exists m log fm,
    refines (sy_leader s) m log /\ mirrors (fo_replica fo) fm /\
    0 <= rp_cursor (fo_replica fo) <= Z.of_nat (length log) /\
    (forall id, settled log id (Z.to_nat (rp_cursor (fo_replica fo))) -> fm !! id = dense_part <$> m !! id) /\
    (rp_cursor (fo_replica fo) = get_u64 (sy_leader s) META_FEED_SEQ -> fm = dense_part <$> m).
Proof.
  intros Hn Hs Hr Hf. destruct (sys_reach_inv _ _ _ _ _ _ _ Hn Hs Hr) as (m & log & [A B C D E F G]).
  destruct (D f fo Hf) as [fm [M Cu I S]]. exists m, log, fm. do 4 (split; [done|]).
  rewrite (rf_seq _ _ _ _ _ _ A). intros Ec. apply map_eq. intros id. rewrite lookup_fmap.
  apply S, settled_at_head. lia.
Qed.

(** C12: No acknowledged write is lost. When a quorum of a cluster of [n] members
    holds a feed position and then the leader dies, any majority of followers
    elects one of them in whatever order it is listed, and the winner has
    applied the feed up to that position: it holds the last leader's current
    dense record of every document that no later position changes. *)
Theorem acked_write_survives (n target : Z) (s0 s : Sys) (survivors : list bytes) :
  0 < n -> sys_start n s0 -> rtc sys_step s0 s -> is_committed (sy_cluster s) target = true ->
  NoDup survivors -> (forall f, f ∈ survivors -> is_Some (sy_followers s !! f)) ->
  majority n <= Z.of_nat (length survivors) ->
  exists w fo m log fm,
    (forall listed, listed ≡ₚ survivors -> elect (map (fun f => (f, cursor_of s f)) listed) = Some w) /\
    w ∈ survivors /\ sy_followers s !! w = Some fo /\
    refines (sy_leader s) m log /\ mirrors (fo_replica fo) fm /\ target <= rp_cursor (fo_replica fo) /\
    (forall id, settled log id (Z.to_nat (rp_cursor (fo_replica fo))) -> fm !! id = dense_part <$> m !! id).
Proof.
  intros Hn Hs Hr Hack Hnd Hmem Hmaj. destruct (sys_reach_inv _ _ _ _ _ _ _ Hn Hs Hr) as (m & log & [A B C D E F G]).
  set (K := holding (sy_cluster s) target). set (V := list_to_set survivors : gset bytes).
  assert (exists f, f ∈ V /\ f ∈ K) as (f & HfS & HfK).
  { destruct (set_choose_or_empty (V ∩ K)) as [[f Hf]|Hdis]; [exists f; set_solver|]. exfalso.
    assert (V ∪ K ⊆ dom (sy_followers s)) as Hsub.
    { intros g [Hg|Hg]%elem_of_union; apply elem_of_dom.
      - unfold V in Hg. rewrite elem_of_list_to_set in Hg. by apply Hmem.
      - apply elem_of_holding in Hg as (x & Hx & _). destruct (E g x Hx) as (fo & Hfo & _). by exists fo. }
    apply subseteq_size in Hsub. rewrite size_union, size_dom in Hsub by set_solver.
    unfold V in Hsub. rewrite size_list_to_set in Hsub by done.
    unfold is_committed in Hack. apply Z.leb_le in Hack. rewrite holders_size, F in Hack. fold K in Hack.
    unfold majority in *. Z.div_mod_to_equations. lia. }
  unfold V in HfS. rewrite elem_of_list_to_set in HfS. apply elem_of_holding in HfK as (x & Hx & Htx).
  destruct (E f x Hx) as (fo & Hfo & Hle).
  destruct (max_by member_cmp (map (fun f => (f, cursor_of s f)) survivors)) as [[w c]|] eqn:Ew.
  2: { destruct (max_by_some (map (fun f => (f, cursor_of s f)) survivors)) as [y Hy]; [|congruence].
       destruct survivors; [by apply elem_of_nil in HfS|done]. }
  pose proof Ew as [Hin Hmax]%max_by_greatest. apply list_elem_of_fmap in Hin as (w' & [= -> ->] & Hw).
  destruct (Hmem w' Hw) as [fo' Hfo']. destruct (D w' fo' Hfo') as [fm [M Cu I St]].
  exists w', fo', m, log, fm. split_and!; try done.
  - intros listed Hp. rewrite (elect_perm _ (map (fun f => (f, cursor_of s f)) survivors)) by (by rewrite Hp).
    unfold elect. by rewrite Ew.
  - specialize (Hmax (f, cursor_of s f)). rewrite member_le_iff in Hmax. unfold cursor_of in Hmax. cbn in Hmax.
    rewrite Hfo, Hfo' in Hmax. destruct Hmax as [?|[? _]]; [|lia..].
    apply list_elem_of_fmap. exists f. split; [|done]. by rewrite Hfo.
Qed.

(** C15: A write never waits past its quorum. For a target above zero, and
    whatever observations interleave with a waiter, it returns only when a
    quorum holds the target, it leaves the wait for a timeout otherwise, and
    while it sleeps on a quorum that holds the target a notification that wakes
    it has been or is about to be sent. At target zero the last part fails: the
    first poll of a follower at position zero makes it a holder and notifies
    nobody. *)
Theorem await_quorum_no_lost_wakeup (target : Z) (c : Cluster) (w : Wait) :
  0 < target -> rtc (wait_step target) (mkWait c 0 0 WArm) w ->
  match w_pc w with
  | WCommitted => is_committed (w_cluster w) target = true
  | WAwait armed => is_committed (w_cluster w) target = true -> (armed < w_epoch w)%nat \/ (0 < w_owed w)%nat
  | _ => True
  end.
Proof.
  intros Ht Hr. assert (wait_inv target w) as Hi.
  { enough (wait_inv target (mkWait c 0 0 WArm)) as H0' by (induction Hr; eauto using wait_step_inv). done. }
  unfold wait_inv in Hi. destruct (w_pc w); try done. by destruct Hi.
Qed.
End Properties.

(** ** Concrete runs *)

Section Witnesses.
#[local] Existing Instances plain_number flat_libm.
#[local] Instance word_token : TextAnalyzer := fun t => [t].

Local Abbreviation tx := (transaction no_text no_clock true).
Local Abbreviation entry := (apply_entry no_text (fun _ => 1) no_clock quotas_default true).
Local Abbreviation step := (sys_step no_text (fun _ => 1) no_clock true).

Definition f1 : bytes := str "f1".
Definition f2 : bytes := str "f2".
Definition sys0 : Sys :=
  mkSys db0 (cluster_new (majority 3))
    (<[f1 := mkFollower (replica_new db0) []]> {[f2 := mkFollower (replica_new db0) []]}).

(** One step of the run, where it can be taken. *)
Definition write (ops : list WriteOp) (s : Sys) : Sys := set_leader s (tx (sy_leader s) ops).1.
Definition poll (f : bytes) (limit : Z) (s : Sys) : Sys :=
  match sy_followers s !! f with
  | Some (mkFollower rp _) =>
      mkSys (sy_leader s) (observe (sy_cluster s) f (rp_cursor rp)).1
        (<[f := mkFollower rp (serve_replicate (sy_leader s) (rp_cursor rp) limit)]> (sy_followers s))
  | None => s
  end.
Definition take_one (f : bytes) (s : Sys) : Sys :=
  match sy_followers s !! f with
  | Some (mkFollower rp (e :: es)) => set_follower s f (mkFollower (entry rp e).1 es)
  | _ => s
  end.

Definition roomb (db : Db) (n : Z) : bool :=
  (get_u64 db META_DOC_COUNT + n <? 2 ^ 63) && (get_u64 db META_TOTAL_TOKENS + n * 2 ^ 32 <? 2 ^ 64) &&
  (get_u64 db META_FEED_SEQ + n <? 2 ^ 64).
Definition can_poll (f : bytes) (s : Sys) : bool :=
  match sy_followers s !! f with Some (mkFollower _ []) => true | _ => false end.
Definition can_take (f : bytes) (s : Sys) : bool :=
  match sy_followers s !! f with
  | Some (mkFollower rp (e :: _)) => roomb (rp_estate rp) 1 && is_ok (entry rp e).2
  | _ => false
  end.

Lemma roomb_room db n : roomb db n = true -> room db n.
Proof. unfold roomb, room. rewrite !andb_true_iff, !Z.ltb_lt. tauto. Qed.

Lemma write_step ops s :
  ids_distinct (statements ops) -> roomb (sy_leader s) (Z.of_nat (length (statements ops))) = true ->
  step s (write ops s).
Proof. intros Hd Hr%roomb_room. eapply S_transaction; [done|done|apply surjective_pairing]. Qed.

Lemma poll_step f limit s : can_poll f s = true -> step s (poll f limit s).
Proof.
  unfold can_poll, poll. destruct (sy_followers s !! f) as [[rp [|]]|] eqn:E; try done. intros _. by apply S_poll.
Qed.

Lemma take_one_step f s : can_take f s = true -> step s (take_one f s).
Proof.
  unfold can_take, take_one. destruct (sy_followers s !! f) as [[rp [|e es]]|] eqn:E; try done.
  intros [Hr%roomb_room Hok]%andb_true_iff. eapply S_apply; [done|done|].
  destruct (entry rp e) as [rp' [[]|]] eqn:Ea; [exact Ea|done].
Qed.

(** Both records written, [f1] caught up and known to be. *)
Definition sys_acked : Sys :=
  poll f1 256 (take_one f1 (take_one f1 (poll f1 256 (write [WUpsert [cat; dog]] sys0)))).

Lemma sys0_start : sys_start true 3 sys0.
Proof.
  split_and!; try done; [by exists (str "e"), (str "estate"), 0|].
  intros f fo Hf. exists (str "e"), (str "estate"), 0. unfold sys0, sy_followers in Hf.
  by apply lookup_insert_Some in Hf as [[_ <-]|[_ [_ <-]%lookup_singleton_Some]].
Qed.

Lemma sys_acked_reached : rtc step sys0 sys_acked.
Proof.
  unfold sys_acked.
  eapply rtc_l; [apply (write_step [WUpsert [cat; dog]]); [apply cat_dog_distinct|vm_compute; reflexivity]|].
  eapply rtc_l; [apply (poll_step f1 256); vm_compute; reflexivity|].
  eapply rtc_l; [apply (take_one_step f1); vm_compute; reflexivity|].
  eapply rtc_l; [apply (take_one_step f1); vm_compute; reflexivity|].
  apply rtc_once, poll_step. vm_compute. reflexivity.
Qed.

Lemma follower_known f :
  (fun _ => tt) <$> sy_followers sys_acked !! f = Some tt -> is_Some (sy_followers sys_acked !! f).
Proof. destruct (_ !! f); [by eexists|done]. Qed.

Lemma follower_mirrors_leader_witness :
  (fun fo => rp_cursor (fo_replica fo)) <$> sy_followers sys_acked !! f1 = Some 2 /\
  (forall fo, sy_followers sys_acked !! f1 = Some fo ->
   exists m log fm,
    Refines no_text no_clock true (sy_leader sys_acked) m log /\
    mirrors no_text no_clock true (fo_replica fo) fm /\
    0 <= rp_cursor (fo_replica fo) <= Z.of_nat (length log) /\
    (forall id, settled log id (Z.to_nat (rp_cursor (fo_replica fo))) -> fm !! id = dense_part <$> m !! id) /\
    (rp_cursor (fo_replica fo) = get_u64 (sy_leader sys_acked) META_FEED_SEQ -> fm = dense_part <$> m)).
Proof.
  split; [vm_compute; reflexivity|]. intros fo Hfo.
  apply (follower_mirrors_leader no_text (fun _ => 1) no_clock true 3 sys0 sys_acked f1 fo);
    [lia|apply sys0_start|apply sys_acked_reached|done].
Defined.

Lemma acked_write_survives_witness :
  is_committed (sy_cluster sys_acked) 2 = true /\
  exists w fo m log fm,
    (forall listed, listed ≡ₚ [f1; f2] -> elect (map (fun f => (f, cursor_of sys_acked f)) listed) = Some w) /\
    w ∈ [f1; f2] /\ sy_followers sys_acked !! w = Some fo /\
    Refines no_text no_clock true (sy_leader sys_acked) m log /\
    mirrors no_text no_clock true (fo_replica fo) fm /\ 2 <= rp_cursor (fo_replica fo) /\
    (forall id, settled log id (Z.to_nat (rp_cursor (fo_replica fo))) -> fm !! id = dense_part <$> m !! id).
Proof.
  assert (is_committed (sy_cluster sys_acked) 2 = true) as Hc by (vm_compute; reflexivity).
  split; [exact Hc|].
  apply (acked_write_survives no_text (fun _ => 1) no_clock true 3 2 sys0 sys_acked [f1; f2]);
    [lia|apply sys0_start|apply sys_acked_reached|exact Hc| | |vm_compute; discriminate].
  - refine (bool_decide_eq_true_1 _ _). vm_compute. reflexivity.
  - intros f Hf. apply (follower_known f). repeat (apply elem_of_cons in Hf as [->|Hf]; [vm_compute; reflexivity|]).
    destruct (not_elem_of_nil f Hf).
Defined.

Lemma await_quorum_no_lost_wakeup_witness :
  let c := sy_cluster sys0 in
  let c' := (observe c f1 2).1 in
  rtc (wait_step 2) (mkWait c 0 0 WArm) (mkWait c' 0 1 (WAwait 0)) /\
  (is_committed c' 2 = true -> (0 < 0)%nat \/ (0 < 1)%nat).
Proof.
  intros c c'. assert (rtc (wait_step 2) (mkWait c 0 0 WArm) (mkWait c' 0 1 (WAwait 0))) as Hr.
  { eapply rtc_l; [apply W_arm|]. eapply rtc_l; [apply W_check|]. apply rtc_once.
    replace (is_committed c 2) with false by (vm_compute; reflexivity).
    change 1%nat with (if (observe c f1 2).2 then 1%nat else 0%nat). apply W_observe. }
  split; [exact Hr|]. apply (await_quorum_no_lost_wakeup 2 c (mkWait c' 0 1 (WAwait 0))); [lia|exact Hr].
Defined.

(** *** Where the comments promise more *)

Definition estate_of (s : Sys) (f : bytes) : Db :=
  match sy_followers s !! f with Some fo => rp_estate (fo_replica fo) | None => fun _ => ∅ end.
Definition text_at (db : Db) (id : bytes) : option bytes := sd_text <$> get_doc db id.

Definition new_cat : VectorRecord := sample (str "cat") (str "a new cat") [f32_of_Z 0; f32_of_Z 1].

(** A second version of the cat is written at position 1 and, not yet
    acknowledged, removed at position 2. *)
Definition sys_superseded : Sys :=
  poll f1 1 (take_one f1 (poll f1 1
    (write [WRemove (str "cat")] (write [WUpsert [new_cat]]
      (take_one f1 (poll f1 256 (write [WUpsert [cat]] sys0))))))).

(** a skipped upsert is acknowledged though nobody holds it: the follower
    passes the new version, which the leader has since removed, and its next
    poll acknowledges the write; if the leader is lost now, the winner of the
    election holds the old version, which neither the acknowledged write nor the
    unacknowledged removal leaves. The comments promise that a quorum holds
    every acknowledged write. *)
Theorem superseded_write_acked_unheld :
  is_committed (sy_cluster sys_superseded) 2 = true /\
  elect (map (fun f => (f, cursor_of sys_superseded f)) [f1; f2]) = Some f1 /\
  text_at (estate_of sys_superseded f1) (str "cat") = Some (str "a cat") /\
  text_at (sy_leader sys_superseded) (str "cat") = None.
Proof. vm_compute. done. Qed.

(** [f2] holds the cat; the leader removes it and writes the dog; [f1] replays
    everything, wins the election, and [f2] starts over from it. *)
Definition sys_before_failover : Sys :=
  take_one f1 (take_one f1 (take_one f1 (poll f1 256
    (write [WUpsert [dog]] (write [WRemove (str "cat")]
      (take_one f2 (poll f2 256 (write [WUpsert [cat]] sys0)))))))).
Definition sys_promoted : Sys :=
  take_one f2 (poll f2 256
    (mkSys (estate_of sys_before_failover f1) (cluster_new (majority 3))
       {[f2 := mkFollower (replica_new (estate_of sys_before_failover f2)) []]})).

(** a follower of a promoted leader does not converge from the start: the
    feed of the new leader never mentions the documents whose upsert it had
    skipped, so a follower that holds one keeps it although it has reached the
    head. The comments promise the leader's state wherever a follower starts. *)
Theorem promoted_leader_leaves_removed :
  elect (map (fun f => (f, cursor_of sys_before_failover f)) [f1; f2]) = Some f1 /\
  cursor_of sys_promoted f2 = get_u64 (sy_leader sys_promoted) META_FEED_SEQ /\
  text_at (sy_leader sys_promoted) (str "cat") = None /\
  text_at (estate_of sys_promoted f2) (str "cat") = Some (str "a cat").
Proof. vm_compute. done. Qed.

Definition spotted : VectorRecord :=
  mkVectorRecord (str "lynx") [f32_of_Z 1; f32_of_Z 0] (str "a lynx") ∅
    (Some (mkSparse [7] [f32_of_Z 1])) ∅ [[f32_of_Z 1]] None.
Definition sys_sparse : Sys := take_one f1 (poll f1 256 (write [WUpsert [spotted]] sys0)).

(** replication carries dense records only: at the head of the feed the
    follower has no sparse row and no token vectors of a record the leader has
    them for, so its sparse and late-interaction searches answer differently. *)
Theorem replica_lacks_sparse_and_multi :
  cursor_of sys_sparse f1 = get_u64 (sy_leader sys_sparse) META_FEED_SEQ /\
  (size (sy_leader sys_sparse CF_SPARSE), size (sy_leader sys_sparse CF_MVECS)) = (1%nat, 1%nat) /\
  (size (estate_of sys_sparse f1 CF_SPARSE), size (estate_of sys_sparse f1 CF_MVECS)) = (0%nat, 0%nat).
Proof. vm_compute. done. Qed.

Definition serve (db : Db) : nat -> Z -> Z -> result RroError (list ReplEntry) :=
  fun _ since limit => Ok (serve_replicate db since limit).
Local Abbreviation sync := (sync_to_head no_text (fun _ => 1) no_clock quotas_default true).

(** a limit of zero never catches up and never ends: an empty batch is not
    shorter than the limit. *)
Theorem sync_with_limit_zero_never_ends (db : Db) (fuel : nat) (turn : nat) (rp : Replica) (total : Z) :
  sync fuel (serve db) turn rp 0 total = None.
Proof.
  revert turn rp total. induction fuel as [|fuel IH]; intros turn rp total; [done|]. cbn [sync_to_head].
  assert (serve_replicate db (rp_cursor rp) 0 = []) as E.
  { unfold serve_replicate, replication_batch, changes. cbn [Z.min]. destruct (iter_from _ _ _) as [|[k v] l]; done. }
  unfold sync_once, serve. rewrite E. cbn [apply_entries length mbind result_bind]. apply IH.
Qed.

(** The feed of a leader that wrote one document 4096 times and removed it. *)
Definition long_feed : Db := fun cf =>
  match cf with
  | CF_FEED => list_to_map (map (fun i => (be_bytes 8 (Z.of_nat i),
      RChange (mkChange (Z.of_nat i) (if (i =? 4096)%nat then Remove else Upsert) (str "cat") 0))) (seq 0 4097))
  | _ => db0 cf
  end.

(** a limit above the leader's cap stops early: the capped batch is shorter
    than the limit, so the follower takes itself for caught up, short of the
    removal at the head. *)
Theorem sync_over_the_cap_stops_early :
  (fun p => (rp_cursor p.1, is_ok p.2)) <$> sync 10 (serve long_feed) 0 (replica_new db0) 5000 0 = Some (4096, true) /\
  length (changes long_feed 4096 1) = 1%nat.
Proof. vm_compute. done. Qed.
End Witnesses.
