(* ===== verification/ReplicationLive.v ===== *)
(** * A follower of an idle leader catches up

    Every entry of an idle leader's feed is accepted by a fresh follower, so
    the loop ends at the head with the leader's documents. *)
From S2P Require Import Prelude Floats ByteOrder Utf8 Json RroTime Geo Query Keys KeysFacts Model.
From S2P Require Import Kv Pending Store StoreFacts StoreTx StoreSpec Quant Searches.
From S2P Require Import Replication ReplicationFacts Cluster ReplicationSpec.
#[local] Set Default Goal Selector "!".
#[local] Set Warnings "-clear-no-such-hyp".
Local Open Scope Z_scope.

(** ** Sums over part of a map *)

Lemma msum_subseteq `{SerdeNumber} (f : VectorRecord -> Z) (ma mb : gmap bytes VectorRecord) :
  (forall r, 0 <= f r) -> ma ⊆ mb -> msum f ma <= msum f mb.
Proof.
  intros Hf. revert mb. induction ma as [|i x ma Hi IH] using map_ind; intros mb Hsub.
  - rewrite msum_empty. by apply msum_nonneg.
  - assert (mb !! i = Some x) as Hx by (eapply lookup_weaken; [apply lookup_insert_eq|done]).
    rewrite msum_insert_new by done. specialize (IH (delete i mb)). rewrite msum_delete, Hx in IH. cbn in IH.
    enough (ma ⊆ delete i mb) as Hd by (specialize (IH Hd); lia).
    apply map_subseteq_spec. intros j y Hj. destruct (decide (j = i)) as [->|Hn]; [congruence|].
    rewrite lookup_delete_ne by done. eapply lookup_weaken; [|exact Hsub]. by rewrite lookup_insert_ne.
Qed.

(** ** What the registrations of a follower stay *)

Section config.
Context `{SerdeNumber} `{Libm} `{TextAnalyzer}.
Variable json_text : Json -> bytes.
Variable json_len : Metadata -> Z.
Variable now_ms : Z -> Z.
Variable lexical_stats : bool.
Local Abbreviation refines := (Refines json_text now_ms lexical_stats).

(** An estate of dimension [d], or of none yet, without schema or indexes. *)
Definition config_ok (db : Db) (d : Z) : Prop :=
  (exists i, get_info db = Some i /\ (ei_dim i = None \/ ei_dim i = Some d)) /\
  get_schema db = ∅ /\ indexed_fields db = [].

Lemma commit_keeps db m0 tx df m log T k :
  TxInv json_text now_ms lexical_stats db m0 tx df m log T ->
  k <> META_DOC_COUNT -> k <> META_TOTAL_TOKENS -> k <> META_SHAPES -> k <> META_FEED_SEQ ->
  (commit db tx).1 CF_META !! k = db CF_META !! k.
Proof.
  intros HI N1 N2 N3 N4. rewrite (commit_meta _ _ _ _ _ _ _ _ _ _ HI). unfold counter_puts.
  destruct (counters_dirty tx); [|done]. unfold apply_ops. cbn [fold_left Kv.apply_op]. rewrite !lookup_put_cf.
  by rewrite !decide_False by naive_solver.
Qed.

Lemma config_meta db db' d :
  (forall k, k <> META_DOC_COUNT -> k <> META_TOTAL_TOKENS -> k <> META_SHAPES -> k <> META_FEED_SEQ ->
     db' CF_META !! k = db CF_META !! k) ->
  config_ok db d -> config_ok db' d.
Proof.
  intros Hk. unfold config_ok, get_info, get_schema, indexed_fields, get_names, get_cf.
  by rewrite !Hk by key_ne.
Qed.

Lemma remove_config db m log d id :
  refines db m log -> run_fits [ARemove id] (m, log) -> config_ok db d ->
  config_ok (remove json_text now_ms lexical_stats db id).1 d.
Proof.
  intros HR Hf. destruct (remove_into_inv json_text now_ms lexical_stats db m (begin db) m log ∅ id)
    as (m' & log' & T & _ & HI & _); [by apply tx_inv_begin|set_solver|done|].
  apply config_meta. intros k N1 N2 N3 N4. unfold remove. by apply (commit_keeps _ _ _ _ _ _ _ _ HI).
Qed.

(** An accepted dense record of the dimension sets it. *)
Lemma upsert_into_config db tx r d :
  Z.of_nat (length (vr_embedding r)) = d -> vr_named r = ∅ -> vr_multi r = [] -> config_ok db d ->
  config_ok (upsert_into json_text now_ms lexical_stats db tx [r]).1 d.
Proof.
  intros Hd Hn Hm Hc. unfold upsert_into.
  assert (forall db', reg_same db db' -> (exists i, get_info db' = Some i /\ (ei_dim i = None \/ ei_dim i = Some d)) ->
    config_ok db' d) as Hreg.
  { intros db' S1 Hi. split; [done|]. rewrite (reg_same_schema db), (reg_same_fields db) by done. apply Hc. }
  destruct (register_dim db [r]) as [db1 res] eqn:Ed. pose proof (register_dim_reg _ _ _ _ Ed) as S1.
  assert (exists i, get_info db1 = Some i /\ (ei_dim i = None \/ ei_dim i = Some d)) as Hi1.
  { destruct Hc as [(i & Hi & Hdim) _]. unfold register_dim in Ed. rewrite Hi in Ed. destruct (ei_dim i) as [e|] eqn:Ee.
    - exists i. destruct (e =? _); injection Ed as <- <-; rewrite Ee; split; try done; by destruct Hdim.
    - injection Ed as <- <-. unfold get_info, put_info, get_cf. rewrite lookup_put_cf, decide_True by done.
      eexists. split; [done|]. right. cbn. by rewrite Hd. }
  destruct res as [info|e]; [|by apply Hreg]. destruct (_ ≫= _) as [[]|e]; [|by apply Hreg].
  pose proof (register_collections_reg db1 [r]) as S2.
  assert (config_ok (register_collections db1 [r]) d) as H2.
  { apply Hreg; [by eapply reg_same_trans|]. unfold register_collections. destruct (_ <? _)%nat; [|done].
    destruct Hi1 as (i & Hi & Hdim). exists i. split; [|done]. unfold get_info, get_cf in *.
    rewrite lookup_put_cf, decide_False; [done|]. intros [_ E]. revert E. key_ne. }
  cbn [register_named]. rewrite Hn, Hm. replace (btree_iter (∅ : gmap bytes (list f32))) with (@nil (bytes * list f32)).
  2: { symmetry. apply btree_iter_unique; [constructor|]. intros k v. rewrite lookup_empty. split; [by intros ?%elem_of_nil|done]. }
  cbn [register_spaces mbind result_bind]. by rewrite bool_decide_eq_true_2.
Qed.

Lemma upsert_config q db m log r d :
  refines db m log -> nul_free (vr_id r) -> run_fits [AUpsert r] (m, log) ->
  Z.of_nat (length (vr_embedding r)) = d -> vr_named r = ∅ -> vr_multi r = [] -> config_ok db d ->
  config_ok (upsert json_text json_len now_ms q lexical_stats db [r]).1 d.
Proof.
  intros HR Hid Hf Hd Hn Hm Hc. unfold upsert. destruct (_ ≫= _) as [[]|e]; [|done].
  pose proof (upsert_into_config db (begin db) r d Hd Hn Hm Hc) as H1'.
  destruct (upsert_into json_text now_ms lexical_stats db (begin db) [r]) as [db1 [tx|e]] eqn:Eu; [|done]. cbn in H1' |- *.
  eapply upsert_into_inv in Eu as [S1 Hw]; [|by apply tx_inv_begin|cbn; apply NoDup_singleton| |done].
  - destruct (Hw tx eq_refl) as (m' & log' & T & _ & HI & _). revert H1'. apply config_meta. intros. by apply (commit_keeps _ _ _ _ _ _ _ _ HI).
  - intros x ->%list_elem_of_singleton. split; [set_solver|done].
Qed.
End config.

(** ** Replaying an idle leader *)

Lemma length_decode_encode v : length (decode_vec (encode_vec v)) = length v.
Proof.
  unfold encode_vec. induction v as [|x v IH]; [done|]. cbn [map concat].
  destruct (f32_le_four x) as (a & b & c & d & E).
  rewrite E. cbn [app decode_vec length]. by rewrite IH.
Qed.

Section idle.
Context `{SerdeNumber} `{Libm} `{TextAnalyzer}.
Variable json_text : Json -> bytes.
Variable json_len : Metadata -> Z.
Variable now_ms : Z -> Z.
Variable lexical_stats : bool.
Local Abbreviation refines := (Refines json_text now_ms lexical_stats).
Local Abbreviation mirrors := (mirrors json_text now_ms lexical_stats).
Local Abbreviation entry := (apply_entry json_text json_len now_ms quotas_default lexical_stats).
Local Abbreviation entries := (apply_entries json_text json_len now_ms quotas_default lexical_stats).

Variable leader : Db.
Variable m : gmap bytes VectorRecord.
Variable log : Log.
Variable d : Z.
Hypothesis HR : refines leader m log.
Hypothesis Hcoh : coherent m log.
Hypothesis Hroom : room leader 1.
Hypothesis Hdim : forall id r, m !! id = Some r -> Z.of_nat (length (vr_embedding r)) = d /\ key_too_long id = false.

Definition from_leader (e : ReplEntry) : Prop :=
  forall rr, re_record e = Some rr -> exists r, m !! rr_id rr = Some r /\ rr = to_repl r.

Record idle_ok (rp : Replica) (es : list ReplEntry) (fm : gmap bytes VectorRecord) : Prop := mkIdle {
  id_follower : follower_ok json_text now_ms lexical_stats m log (mkFollower rp es) fm;
  id_entries : Forall from_leader es;
  id_sub : fm ⊆ dense_part <$> m;
  id_seq : get_u64 (rp_estate rp) META_FEED_SEQ <= rp_cursor rp;
  id_config : config_ok (rp_estate rp) d;
}.

Lemma log_bound : Z.of_nat (length log) + 1 < 2 ^ 64.
Proof. pose proof (room_fits json_text now_ms lexical_stats _ _ _ _ HR Hroom) as (_ & _ & ?). done. Qed.

Lemma tokens_dense r : tokens_of (dense_part r) = tokens_of r.
Proof. done. Qed.

Lemma msum_dense : msum tokens_of (dense_part <$> m) = msum tokens_of m.
Proof.
  clear. induction m as [|i x ma Hi IH] using map_ind; [by rewrite fmap_empty, !msum_empty|].
  rewrite fmap_insert, !msum_insert_new, IH by (rewrite ?lookup_fmap, ?Hi; done). done.
Qed.

Lemma idle_room rp es fm : idle_ok rp es fm -> room (rp_estate rp) 1.
Proof.
  intros [[[[flog HRf] _] [C1 C2] _ _] _ Hsub Hseq _]. cbn [fo_replica] in *.
  pose proof (room_fits json_text now_ms lexical_stats _ _ _ _ HR Hroom) as (F1 & F2 & F3). cbn [fst snd] in F1, F2, F3.
  destruct (rf_counts _ _ _ _ _ _ HRf) as [Hd Ht _]. unfold room. rewrite Hd, Ht, msum_one.
  pose proof (map_subseteq_size _ _ Hsub) as Hsz. rewrite map_size_fmap in Hsz.
  pose proof (msum_subseteq tokens_of fm _ tokens_nonneg Hsub) as Hms. rewrite msum_dense in Hms. lia.
Qed.

(** A dense record of the leader is accepted. *)
Lemma dense_accepted db r :
  m !! vr_id r = Some r -> config_ok db d ->
  is_ok (upsert json_text json_len now_ms quotas_default lexical_stats db [dense_part r]).2 = true.
Proof.
  intros Hr [(i & Hi & Hd) [Hs Hf]]. destruct (Hdim _ _ Hr) as [Hlen Hkey].
  apply upsert_accepted; [done|]. split; [by split_and!|]. exists i. split; [done|]. split; [done|].
  split; [|split; [|split]].
  - exists d. split; [done|]. intros x ->%list_elem_of_singleton. cbn. by rewrite length_decode_encode.
  - intros x _ c fields field ty v _ Hsc. by rewrite Hs in Hsc.
  - cbn [register_named]. replace (btree_iter (vr_named (dense_part r))) with (@nil (bytes * list f32)); [done|].
    symmetry. apply btree_iter_unique; [constructor|]. intros k v. cbn. rewrite lookup_empty.
    split; [by intros ?%elem_of_nil|done].
  - intros x ->%list_elem_of_singleton. split; [done|]. rewrite Hf. by intros k ?%elem_of_nil.
Qed.

Lemma idle_step rp e es fm :
  idle_ok rp (e :: es) fm -> exists rp', entry rp e = (rp', Ok tt) /\ idle_ok rp' es (entry_effect e fm) /\
    rp_cursor rp' = rp_cursor rp + 1.
Proof.
  intros Hi. pose proof (idle_room _ _ _ Hi) as Hrm. destruct Hi as [Hf He Hsub Hseq Hc].
  apply Forall_cons in He as [He Hes].
  assert (exists rp', entry rp e = (rp', Ok tt) /\ config_ok (rp_estate rp') d) as (rp' & Ha & Hc').
  { pose proof Hf as [[[flog HRf] _] _ _ _]. cbn [fo_replica] in HRf. unfold apply_entry.
    destruct (re_op e).
    - destruct (re_record e) as [rr|] eqn:Er; [|by eexists]. destruct (He rr Er) as (r & Hr & ->). cbn [rr_id to_repl] in Hr.
      change (into_record (to_repl r)) with (dense_part r). destruct (rf_ids _ _ _ _ _ _ HR _ _ Hr) as [_ Hnul].
      pose proof (dense_accepted (rp_estate rp) r Hr Hc) as Hok.
      pose proof (upsert_config json_text json_len now_ms lexical_stats quotas_default (rp_estate rp) fm flog (dense_part r) d) as Hcfg.
      destruct (upsert _ _ _ _ _ _ _) as [db [g|err]]; [|done]. eexists. split; [done|]. apply Hcfg; try done.
      + by apply (room_run_fits json_text now_ms lexical_stats (rp_estate rp)).
      + cbn. rewrite length_decode_encode. by destruct (Hdim _ _ Hr).
    - pose proof (remove_config json_text now_ms lexical_stats (rp_estate rp) fm flog d (re_doc_id e)) as Hcfg.
      destruct (remove _ _ _ _ _) as [db g]. eexists. split; [done|]. apply Hcfg; try done.
      by apply (room_run_fits json_text now_ms lexical_stats (rp_estate rp)). }
  exists rp'. split; [done|].
  destruct (follower_apply json_text json_len now_ms lexical_stats m log rp rp' e es fm quotas_default Hcoh) as [Hf' Hcur];
    try done; [pose proof log_bound; lia|]. split; [|done]. split; try done.
  - unfold entry_effect. destruct (re_op e); [destruct (re_record e) as [rr|] eqn:Er; [|done]|].
    + destruct (He rr Er) as (r & Hr & ->). cbn [rr_id to_repl] in *. apply insert_subseteq_l; [|done].
      by rewrite lookup_fmap, Hr.
    + etransitivity; [apply delete_subseteq|done].
  - pose proof Hf as [Hm _ Hin _]. cbn [fo_replica fo_inbox] in *.
    eapply apply_entry_effect in Ha as [_ Hs]; [|done|done|].
    + rewrite Hcur. lia.
    + intros rr Hrr. destruct (Hin 0%nat e eq_refl) as (op & id & _ & _ & _ & _ & Hid & _). by destruct (Hid rr Hrr) as [-> ?].
Qed.

Lemma idle_entries rp es fm :
  idle_ok rp es fm -> exists rp' fm', entries rp es = (rp', Ok tt) /\ idle_ok rp' [] fm' /\
    rp_cursor rp' = rp_cursor rp + Z.of_nat (length es).
Proof.
  revert rp fm. induction es as [|e es IH]; intros rp fm Hi; [exists rp, fm; cbn; split_and!; [done|done|lia]|].
  destruct (idle_step rp e es fm Hi) as (rp1 & Ha & Hi1 & Hc1). cbn [apply_entries]. rewrite Ha.
  destruct (IH rp1 _ Hi1) as (rp2 & fm2 & Ha2 & Hi2 & Hc2). exists rp2, fm2. split_and!; [done|done|].
  cbn [length]. lia.
Qed.

Lemma idle_poll rp fm limit :
  idle_ok rp [] fm -> idle_ok rp (serve_replicate leader (rp_cursor rp) limit) fm.
Proof.
  intros [Hf He Hsub Hseq Hc]. pose proof log_bound as Hl. pose proof Hf as [_ [Hc1 Hc2] _ _]. cbn [fo_replica] in *.
  split; try done; [apply follower_poll; (done || lia)|].
  unfold serve_replicate. rewrite (batch_window json_text now_ms lexical_stats leader m log) by (done || lia).
  apply Forall_forall. intros e He'. unfold window in He'.
  apply list_elem_of_lookup in He' as [i Hi]. apply lookup_take_Some in Hi as [Hi _].
  rewrite lookup_drop, list_lookup_imap in Hi. destruct (log !! _) as [[op id]|]; [|done]. injection Hi as <-.
  intros rr Hrr. cbn in Hrr. destruct op; [|done]. destruct (m !! id) as [r|] eqn:Em; [|done]. injection Hrr as <-.
  exists r. split; [|done]. cbn. by destruct (rf_ids _ _ _ _ _ _ HR _ _ Em) as [-> _].
Qed.

Lemma batch_length since limit :
  0 <= since <= Z.of_nat (length log) -> 0 <= limit <= REPLICATE_CAP ->
  Z.of_nat (length (serve_replicate leader since limit)) = Z.min limit (Z.of_nat (length log) - since).
Proof.
  intros Hs Hl. pose proof log_bound. unfold serve_replicate.
  rewrite (batch_window json_text now_ms lexical_stats leader m log) by (done || lia). unfold window.
  rewrite length_take, length_drop, length_imap. lia.
Qed.

Lemma idle_sync fuel rp fm limit turn total :
  idle_ok rp [] fm -> 1 <= limit <= REPLICATE_CAP ->
  (length log - Z.to_nat (rp_cursor rp) < fuel)%nat ->
  exists rp', sync_to_head json_text json_len now_ms quotas_default lexical_stats fuel
      (fun _ since limit => Ok (serve_replicate leader since limit)) turn rp limit total =
      Some (rp', Ok (total + (Z.of_nat (length log) - rp_cursor rp))) /\
    rp_cursor rp' = Z.of_nat (length log) /\ mirrors rp' (dense_part <$> m).
Proof.
  intros Hi Hl. revert rp fm turn total Hi. induction fuel as [|fuel IH]; intros rp fm turn total Hi Hfuel; [lia|].
  pose proof Hi as [[_ Hc _ _] _ _ _ _]. cbn [fo_replica] in Hc.
  pose proof (batch_length (rp_cursor rp) limit Hc ltac:(lia)) as Hlen.
  destruct (idle_entries rp _ fm (idle_poll rp fm limit Hi)) as (rp1 & fm1 & Ha & Hi1 & Hc1).
  cbn [sync_to_head]. unfold sync_once. rewrite Ha. cbn [mbind result_bind]. rewrite Hlen in *.
  destruct (_ <? limit) eqn:E; [apply Z.ltb_lt in E|apply Z.ltb_ge in E].
  - exists rp1. split; [do 3 f_equal; lia|]. assert (rp_cursor rp1 = Z.of_nat (length log)) as Hend by lia.
    split; [done|]. destruct Hi1 as [[Hm _ _ Hset] _ _ _ _]. cbn [fo_replica] in *.
    assert (fm1 = dense_part <$> m) as <-; [|done]. apply map_eq. intros id. rewrite lookup_fmap.
    apply Hset, settled_at_head. lia.
  - destruct (IH rp1 fm1 (S turn) (total + Z.min limit (Z.of_nat (length log) - rp_cursor rp)) Hi1) as (rp2 & Hs & Hc2 & Hm2);
      [lia|]. exists rp2. rewrite Hs. split; [do 3 f_equal; lia|done].
Qed.

Lemma idle_start id name t :
  (forall x, settled log x 0 -> m !! x = None) ->
  idle_ok (replica_new (create id name t lexical_stats)) [] ∅.
Proof.
  intros Hcoh0. split.
  - split; cbn.
    + split; [exists []; apply create_refines|]. by rewrite fmap_empty.
    + lia.
    + done.
    + intros x Hx. by rewrite Hcoh0, lookup_empty by done.
  - constructor.
  - apply map_empty_subseteq.
  - change (get_u64 (create id name t lexical_stats) META_FEED_SEQ <= 0).
    rewrite (rf_seq _ _ _ _ _ _ (create_refines json_text now_ms lexical_stats id name t lexical_stats)). done.
  - change (config_ok (create id name t lexical_stats) d). split.
    + exists (mkEstateInfo id name t None ∅). split; [|by left]. unfold get_info, get_cf, create.
      destruct lexical_stats; rewrite !lookup_put_cf; [|done].
      rewrite decide_False by (intros [_ E]; revert E; key_ne). done.
    + unfold get_schema, indexed_fields, get_names, get_cf. by rewrite !create_meta by key_ne.
Qed.
End idle.

Section Properties.
Context `{SerdeNumber} `{Libm} `{TextAnalyzer}.
Variable json_text : Json -> bytes.
Variable json_len : Metadata -> Z.
Variable now_ms : Z -> Z.
Variable lexical_stats : bool.

(** C14: A fresh follower of an idle leader catches up and stops. For every limit
    from one to the leader's cap, each entry of the feed is accepted, the loop
    ends after finitely many batches with as many entries as the feed has, and
    the follower then holds the dense part of every document of the leader
    (text, metadata, tags, collection and dense vector, not the sparse, named
    and token vectors, which are not replicated) and no other document, its
    graph their dense vectors. The leader's vectors are of one dimension, its
    ids within the key length, its feed coherent with its documents and its
    counters with room. *)
Theorem sync_to_head_catches_up (leader : Db) (m : gmap bytes VectorRecord) (log : list (ChangeOp * bytes))
  (d limit : Z) (id name : bytes) (t : Z) :
  Refines json_text now_ms lexical_stats leader m log -> coherent m log -> room leader 1 ->
  (forall x r, m !! x = Some r -> Z.of_nat (length (vr_embedding r)) = d /\ key_too_long x = false) ->
  1 <= limit <= REPLICATE_CAP ->
  exists rp, sync_to_head json_text json_len now_ms quotas_default lexical_stats (S (length log))
      (fun _ since limit => Ok (serve_replicate leader since limit)) 0
      (replica_new (create id name t lexical_stats)) limit 0 = Some (rp, Ok (Z.of_nat (length log))) /\
    rp_cursor rp = Z.of_nat (length log) /\
    mirrors json_text now_ms lexical_stats rp (dense_part <$> m).
Proof.
  intros HR Hcoh Hroom Hdim Hl.
  destruct (idle_sync json_text json_len now_ms lexical_stats leader m log d HR Hcoh Hroom Hdim (S (length log))
    (replica_new (create id name t lexical_stats)) ∅ limit 0 0) as (rp & Hs & Hc & Hm); [|done|cbn; lia|].
  - eapply idle_start; [done..|]. apply Hcoh.
  - exists rp. split; [|done]. rewrite Hs. cbn [rp_cursor replica_new]. do 3 f_equal. lia.
Qed.
End Properties.

Section Witnesses.
#[local] Existing Instances plain_number flat_libm word_token.

Lemma written_coherent : coherent StoreSpec.m1.1 StoreSpec.m1.2.
Proof.
  destruct (evolves_run (map AUpsert [cat; dog]) (∅, [])) as (ext & _ & _ & Hc). apply Hc, coherent_empty.
Qed.

Lemma sync_to_head_catches_up_witness :
  exists rp, sync_to_head no_text (fun _ => 1) no_clock quotas_default true 3
      (fun _ since limit => Ok (serve_replicate db1 since limit)) 0
      (replica_new (create (str "f") (str "follower") 0 true)) 1 0 = Some (rp, Ok 2) /\
    rp_cursor rp = 2 /\ mirrors no_text no_clock true rp (dense_part <$> StoreSpec.m1.1).
Proof.
  apply (sync_to_head_catches_up no_text (fun _ => 1) no_clock true db1 StoreSpec.m1.1 StoreSpec.m1.2 2 1
    (str "f") (str "follower") 0).
  - apply db1_refines.
  - apply written_coherent.
  - apply roomb_room. vm_compute. reflexivity.
  - intros x r Hr. destruct (decide (x = str "dog")) as [->|Hd]; [|destruct (decide (x = str "cat")) as [->|Hc]].
    + unfold StoreSpec.m1 in Hr. cbn in Hr. rewrite lookup_insert_eq in Hr. injection Hr as <-. done.
    + unfold StoreSpec.m1 in Hr. cbn in Hr. rewrite lookup_insert_ne, lookup_insert_eq in Hr by done.
      injection Hr as <-. done.
    + unfold StoreSpec.m1 in Hr. cbn in Hr. rewrite !lookup_insert_ne, lookup_empty in Hr by done. done.
  - unfold REPLICATE_CAP. lia.
Defined.
End Witnesses.
