(* ===== verification/Sha256.v ===== *)
(** * SHA-256 and HMAC-SHA256 (crates/rro-engine/src/auth.rs)

    The hand-written hash that signs capability tokens: its padding loop, the
    message schedule filled in place in one array that every block reuses, and
    the compression loop. [FIPS] is the standard's own definition (FIPS 180-4
    and RFC 2104), and the code computes it. *)
From S2P Require Import Prelude Utf8.
From Stdlib Require Import ZifyNat.
#[local] Set Default Goal Selector "!".
Local Open Scope Z_scope.

(** ** [u32] *)

Definition u32_add (a b : Z) : Z := (a + b) mod 2 ^ 32.
Definition u32_not (a : Z) : Z := Z.lxor a (2 ^ 32 - 1).
Definition rotate_right (x n : Z) : Z := Z.lor (Z.shiftr x n) (Z.shiftl x (32 - n) mod 2 ^ 32).

(** [chunks_exact]: a short tail is left out. *)
Fixpoint chunks_exact_loop {A} (fuel n : nat) (l : list A) : list (list A) :=
  match fuel with
  | O => []
  | S fuel => if (length l <? n)%nat then [] else take n l :: chunks_exact_loop fuel n (drop n l)
  end.
Definition blocks_of {A} (n : nat) (l : list A) : list (list A) := chunks_exact_loop (length l) n l.

Definition SHA256_K : list Z := [
  0x428a_2f98; 0x7137_4491; 0xb5c0_fbcf; 0xe9b5_dba5; 0x3956_c25b; 0x59f1_11f1; 0x923f_82a4; 0xab1c_5ed5;
  0xd807_aa98; 0x1283_5b01; 0x2431_85be; 0x550c_7dc3; 0x72be_5d74; 0x80de_b1fe; 0x9bdc_06a7; 0xc19b_f174;
  0xe49b_69c1; 0xefbe_4786; 0x0fc1_9dc6; 0x240c_a1cc; 0x2de9_2c6f; 0x4a74_84aa; 0x5cb0_a9dc; 0x76f9_88da;
  0x983e_5152; 0xa831_c66d; 0xb003_27c8; 0xbf59_7fc7; 0xc6e0_0bf3; 0xd5a7_9147; 0x06ca_6351; 0x1429_2967;
  0x27b7_0a85; 0x2e1b_2138; 0x4d2c_6dfc; 0x5338_0d13; 0x650a_7354; 0x766a_0abb; 0x81c2_c92e; 0x9272_2c85;
  0xa2bf_e8a1; 0xa81a_664b; 0xc24b_8b70; 0xc76c_51a3; 0xd192_e819; 0xd699_0624; 0xf40e_3585; 0x106a_a070;
  0x19a4_c116; 0x1e37_6c08; 0x2748_774c; 0x34b0_bcb5; 0x391c_0cb3; 0x4ed8_aa4a; 0x5b9c_ca4f; 0x682e_6ff3;
  0x748f_82ee; 0x78a5_636f; 0x84c8_7814; 0x8cc7_0208; 0x90be_fffa; 0xa450_6ceb; 0xbef9_a3f7; 0xc671_78f2].

(** [[u32; 8]]: the chaining value, and the working variables [a] to [hh]. *)
Record Words8 : Type := mkWords8 { wa : Z; wb : Z; wc : Z; wd : Z; we : Z; wf : Z; wg : Z; wh : Z }.

Definition SHA256_H0 : Words8 :=
  mkWords8 0x6a09_e667 0xbb67_ae85 0x3c6e_f372 0xa54f_f53a 0x510e_527f 0x9b05_688c 0x1f83_d9ab 0x5be0_cd19.

(** ** The hash *)

(** [while data.len() % 64 != 56 { data.push(0) }] *)
Fixpoint pad_loop (fuel : nat) (data : bytes) : bytes :=
  match fuel with
  | O => data
  | S fuel => if (length data mod 64 =? 56)%nat then data else pad_loop fuel (data ++ [0])
  end.

Definition pad (msg : bytes) : bytes :=
  let bit_len := Z.of_nat (length msg) * 8 mod 2 ^ 64 in
  pad_loop 64 (msg ++ [0x80]) ++ be_bytes 8 bit_len.

(** Every index below is a constant the array of 64 words holds. *)
Definition load_words (block : bytes) (w : list Z) : list Z :=
  foldl (fun w i => <[i := from_be_bytes (take 4 (drop (i * 4) block))]> w) w (seq 0 16).

Definition extend_words (w : list Z) : list Z :=
  foldl (fun w i =>
    let s0 := Z.lxor (Z.lxor (rotate_right (w !!! (i - 15)%nat) 7) (rotate_right (w !!! (i - 15)%nat) 18))
                     (Z.shiftr (w !!! (i - 15)%nat) 3) in
    let s1 := Z.lxor (Z.lxor (rotate_right (w !!! (i - 2)%nat) 17) (rotate_right (w !!! (i - 2)%nat) 19))
                     (Z.shiftr (w !!! (i - 2)%nat) 10) in
    <[i := u32_add (u32_add (u32_add (w !!! (i - 16)%nat) s0) (w !!! (i - 7)%nat)) s1]> w)
    w (seq 16 48).

Definition sha_round (w : list Z) (r : Words8) (i : nat) : Words8 :=
  let '(mkWords8 a b c d e f g hh) := r in
  let s1 := Z.lxor (Z.lxor (rotate_right e 6) (rotate_right e 11)) (rotate_right e 25) in
  let ch := Z.lxor (Z.land e f) (Z.land (u32_not e) g) in
  let t1 := u32_add (u32_add (u32_add (u32_add hh s1) ch) (SHA256_K !!! i)) (w !!! i) in
  let s0 := Z.lxor (Z.lxor (rotate_right a 2) (rotate_right a 13)) (rotate_right a 22) in
  let maj := Z.lxor (Z.lxor (Z.land a b) (Z.land a c)) (Z.land b c) in
  let t2 := u32_add s0 maj in
  mkWords8 (u32_add t1 t2) a b c (u32_add d t1) e f g.

Definition add_words (h r : Words8) : Words8 :=
  mkWords8 (u32_add (wa h) (wa r)) (u32_add (wb h) (wb r)) (u32_add (wc h) (wc r)) (u32_add (wd h) (wd r))
    (u32_add (we h) (we r)) (u32_add (wf h) (wf r)) (u32_add (wg h) (wg r)) (u32_add (wh h) (wh r)).

(** One block; the array [w] is the previous block's. *)
Definition sha_block (hw : Words8 * list Z) (block : bytes) : Words8 * list Z :=
  let '(h, w) := hw in
  let w := extend_words (load_words block w) in
  (add_words h (foldl (sha_round w) h (seq 0 64)), w).

Definition words_bytes (h : Words8) : bytes :=
  concat (map (be_bytes 4) [wa h; wb h; wc h; wd h; we h; wf h; wg h; wh h]).

Definition sha256 (msg : bytes) : bytes :=
  words_bytes (foldl sha_block (SHA256_H0, replicate 64 0) (blocks_of 64 (pad msg))).1.

(** [Vec::resize] *)
Definition resize {A} (n : nat) (x : A) (l : list A) : list A := take n l ++ replicate (n - length l) x.

Definition hmac_sha256 (key msg : bytes) : bytes :=
  let k := if (64 <? length key)%nat then sha256 key else key in
  let k := resize 64 0 k in
  let ipad := map (fun i => Z.lxor (k !!! i) 0x36) (seq 0 64) in
  let opad := map (fun i => Z.lxor (k !!! i) 0x5c) (seq 0 64) in
  let inner_hash := sha256 (ipad ++ msg) in
  sha256 (opad ++ inner_hash).

(** The rendering the published vectors use. *)
Definition hex_digit (z : Z) : Z := if z <? 10 then 48 + z else 87 + z.
Definition hex (b : bytes) : bytes := concat (map (fun x => [hex_digit (x / 16); hex_digit (x mod 16)]) b).

(** ** The standard *)
Module FIPS.

(** FIPS 180-4, 3.2 and 4.1.2: a rotation moves bit [i + n] (mod 32) to bit
    [i]; [Ch] chooses bit by bit; [Maj] is the majority. *)
Definition low_bits (f : Z -> bool) (n : nat) : Z :=
  foldl (fun acc i => acc + (if f (Z.of_nat i) then 2 ^ Z.of_nat i else 0)) 0 (seq 0 n).
Definition of_bits (f : Z -> bool) : Z := low_bits f 32.
Definition ROTR (n x : Z) : Z := of_bits (fun i => Z.testbit x ((i + n) mod 32)).
Definition SHR (n x : Z) : Z := x / 2 ^ n.
Definition Ch (x y z : Z) : Z := of_bits (fun i => if Z.testbit x i then Z.testbit y i else Z.testbit z i).
Definition Maj (x y z : Z) : Z :=
  of_bits (fun i => (Z.testbit x i && Z.testbit y i) || (Z.testbit x i && Z.testbit z i) || (Z.testbit y i && Z.testbit z i)).
Definition Sigma0 (x : Z) : Z := Z.lxor (Z.lxor (ROTR 2 x) (ROTR 13 x)) (ROTR 22 x).
Definition Sigma1 (x : Z) : Z := Z.lxor (Z.lxor (ROTR 6 x) (ROTR 11 x)) (ROTR 25 x).
Definition sigma0 (x : Z) : Z := Z.lxor (Z.lxor (ROTR 7 x) (ROTR 18 x)) (SHR 3 x).
Definition sigma1 (x : Z) : Z := Z.lxor (Z.lxor (ROTR 17 x) (ROTR 19 x)) (SHR 10 x).

(** 5.1.1: one bit, the least number of zeros that leaves 64 bits to the end
    of a block, and the length in bits. *)
Definition padded (msg : bytes) : bytes :=
  msg ++ [0x80] ++ replicate ((119 - length msg mod 64) mod 64) 0 ++ be_bytes 8 (8 * Z.of_nat (length msg)).

(** 6.2.2: the first [t] words of the message schedule of a block. *)
Fixpoint schedule (M : list Z) (t : nat) : list Z :=
  match t with
  | O => []
  | S t =>
      let W := schedule M t in
      W ++ [if (t <? 16)%nat then M !!! t
            else (sigma1 (W !!! (t - 2)%nat) + W !!! (t - 7)%nat + sigma0 (W !!! (t - 15)%nat) + W !!! (t - 16)%nat) mod 2 ^ 32]
  end.

Definition round (W : list Z) (r : Words8) (t : nat) : Words8 :=
  let T1 := (wh r + Sigma1 (we r) + Ch (we r) (wf r) (wg r) + SHA256_K !!! t + W !!! t) mod 2 ^ 32 in
  let T2 := (Sigma0 (wa r) + Maj (wa r) (wb r) (wc r)) mod 2 ^ 32 in
  mkWords8 ((T1 + T2) mod 2 ^ 32) (wa r) (wb r) (wc r) ((wd r + T1) mod 2 ^ 32) (we r) (wf r) (wg r).

(** The [i]-th block of 512 bits, as sixteen words. *)
Definition block (P : bytes) (i : nat) : list Z :=
  map (fun t => from_be_bytes (take 4 (drop (64 * i + 4 * t) P))) (seq 0 16).

Definition hash_step (P : bytes) (h : Words8) (i : nat) : Words8 :=
  add_words h (foldl (round (schedule (block P i) 64)) h (seq 0 64)).

Definition hash (msg : bytes) : bytes :=
  words_bytes (foldl (hash_step (padded msg)) SHA256_H0 (seq 0 (length (padded msg) / 64))).

(** RFC 2104, with [B = 64]. *)
Definition hmac (K text : bytes) : bytes :=
  let K0 := (if (length K <=? 64)%nat then K else hash K) in
  let K0 := K0 ++ replicate (64 - length K0) 0 in
  hash (map (fun b => Z.lxor b 0x5c) K0 ++ hash (map (fun b => Z.lxor b 0x36) K0 ++ text)).
End FIPS.

(** ** Bits of words *)

(** Remainders of natural numbers, by their quotients. *)
Ltac nat_mod := zify; Z.to_euclidean_division_equations; lia.

Definition is_u32 (x : Z) : Prop := 0 <= x < 2 ^ 32.

Lemma u32_add_range a b : is_u32 (u32_add a b).
Proof. apply Z.mod_pos_bound. lia. Qed.

Lemma u32_bits_high x i : is_u32 x -> 32 <= i -> Z.testbit x i = false.
Proof. intros Hx Hi. rewrite <- (Z.mod_small x (2 ^ 32)) by done. apply Z.mod_pow2_bits_high. lia. Qed.

(** Words with the same 32 bits are equal. *)
Lemma u32_bits_inj x y :
  (forall i, 0 <= i -> Z.testbit x i = Z.testbit y i) -> x = y.
Proof. apply Z.bits_inj'. Qed.

Lemma low_bits_S f n :
  FIPS.low_bits f (S n) = FIPS.low_bits f n + (if f (Z.of_nat n) then 2 ^ Z.of_nat n else 0).
Proof. unfold FIPS.low_bits. rewrite seq_S, foldl_app. done. Qed.

Lemma low_bits_range f n : 0 <= FIPS.low_bits f n < 2 ^ Z.of_nat n.
Proof.
  induction n as [|n IH]; [done|]. rewrite low_bits_S, Nat2Z.inj_succ, Z.pow_succ_r by lia.
  destruct (f _); lia.
Qed.

Lemma low_bits_testbit f n i :
  0 <= i -> Z.testbit (FIPS.low_bits f n) i = (i <? Z.of_nat n) && f i.
Proof.
  intros Hi. induction n as [|n IH]; [unfold FIPS.low_bits; cbn [seq foldl]; rewrite Z.bits_0, (proj2 (Z.ltb_ge _ _)) by lia; done|].
  rewrite low_bits_S. pose proof (low_bits_range f n).
  assert (FIPS.low_bits f n + (if f (Z.of_nat n) then 2 ^ Z.of_nat n else 0)
    = Z.lor (FIPS.low_bits f n) (Z.shiftl (if f (Z.of_nat n) then 1 else 0) (Z.of_nat n))) as ->.
  { rewrite lor_shiftl_add by lia. destruct (f (Z.of_nat n)); lia. }
  rewrite Z.lor_spec, IH, Z.shiftl_spec by done.
  destruct (Z.ltb_spec i (Z.of_nat n)), (Z.ltb_spec i (Z.of_nat (S n))); try lia; cbn [andb orb].
  - rewrite Z.testbit_neg_r by lia. by rewrite orb_false_r.
  - replace i with (Z.of_nat n) by lia. rewrite Z.sub_diag. by destruct (f (Z.of_nat n)).
  - destruct (f (Z.of_nat n)); [|apply Z.bits_0]. change 1 with (2 ^ 0). apply Z.pow2_bits_false. lia.
Qed.

Lemma of_bits_testbit f i : 0 <= i -> Z.testbit (FIPS.of_bits f) i = (i <? 32) && f i.
Proof. intros Hi. unfold FIPS.of_bits. by rewrite low_bits_testbit. Qed.

Lemma rotate_right_ROTR x n : is_u32 x -> 0 < n < 32 -> rotate_right x n = FIPS.ROTR n x.
Proof.
  intros Hx Hn. apply u32_bits_inj. intros i Hi. unfold rotate_right, FIPS.ROTR.
  rewrite of_bits_testbit, Z.lor_spec, Z.shiftr_spec by done.
  destruct (Z.ltb_spec i 32); cbn [andb].
  - rewrite Z.mod_pow2_bits_low, Z.shiftl_spec by lia. destruct (Z.ltb_spec (i + n) 32).
    + rewrite (Z.testbit_neg_r x (i - _)), orb_false_r, Z.mod_small by lia. done.
    + rewrite u32_bits_high by (done || lia). cbn [orb]. f_equal.
      rewrite <- (Z_mod_plus_full (i + n) (-1) 32). rewrite Z.mod_small; lia.
  - rewrite u32_bits_high, Z.mod_pow2_bits_high by (done || lia). done.
Qed.

Lemma u32_not_testbit x i : 0 <= i < 32 -> Z.testbit (u32_not x) i = negb (Z.testbit x i).
Proof.
  intros Hi. unfold u32_not. rewrite Z.lxor_spec. change (2 ^ 32 - 1) with (Z.ones 32).
  rewrite Z.ones_spec_low by lia. by destruct (Z.testbit x i).
Qed.

Lemma ch_Ch e f g : is_u32 e -> is_u32 f -> is_u32 g ->
  Z.lxor (Z.land e f) (Z.land (u32_not e) g) = FIPS.Ch e f g.
Proof.
  intros He Hf Hg. apply u32_bits_inj. intros i Hi. unfold FIPS.Ch. rewrite of_bits_testbit by done.
  rewrite Z.lxor_spec, !Z.land_spec. destruct (Z.ltb_spec i 32); cbn [andb].
  - rewrite u32_not_testbit by lia. by destruct (Z.testbit e i), (Z.testbit f i), (Z.testbit g i).
  - by rewrite (u32_bits_high e), (u32_bits_high g), andb_false_r by done.
Qed.

Lemma maj_Maj a b c : is_u32 a -> is_u32 b -> is_u32 c ->
  Z.lxor (Z.lxor (Z.land a b) (Z.land a c)) (Z.land b c) = FIPS.Maj a b c.
Proof.
  intros Ha Hb Hc. apply u32_bits_inj. intros i Hi. unfold FIPS.Maj. rewrite of_bits_testbit by done.
  rewrite !Z.lxor_spec, !Z.land_spec. destruct (Z.ltb_spec i 32); cbn [andb].
  - by destruct (Z.testbit a i), (Z.testbit b i), (Z.testbit c i).
  - by rewrite (u32_bits_high a), (u32_bits_high b) by done.
Qed.

(** ** Sums modulo [2 ^ 32] *)


Lemma u32_add_sum_l a b c : u32_add (u32_add a b) c = u32_add (a + b) c.
Proof. apply Zplus_mod_idemp_l. Qed.
Lemma u32_add_sum_r a b c : u32_add a (u32_add b c) = u32_add a (b + c).
Proof. apply Zplus_mod_idemp_r. Qed.

Ltac u32_sum :=
  repeat match goal with
    | |- context [u32_add (u32_add ?a ?b) ?c] =>
        lazymatch a with context [u32_add] => fail | _ => rewrite (u32_add_sum_l a b c) end
    | |- context [u32_add ?a (u32_add ?b ?c)] =>
        lazymatch b with context [u32_add] => fail | _ => rewrite (u32_add_sum_r a b c) end
    end; unfold u32_add;
  rewrite ?Zplus_mod_idemp_l, ?Zplus_mod_idemp_r; f_equal; lia.

(** ** The message schedule *)

Lemma schedule_S M t : FIPS.schedule M (S t) = FIPS.schedule M t ++
  [if (t <? 16)%nat then M !!! t
   else (FIPS.sigma1 (FIPS.schedule M t !!! (t - 2)%nat) + FIPS.schedule M t !!! (t - 7)%nat
         + FIPS.sigma0 (FIPS.schedule M t !!! (t - 15)%nat) + FIPS.schedule M t !!! (t - 16)%nat) mod 2 ^ 32].
Proof. done. Qed.

Lemma schedule_length M t : length (FIPS.schedule M t) = t.
Proof. induction t as [|t IH]; rewrite ?schedule_S; [done|]. rewrite length_app, IH. cbn. lia. Qed.

Lemma schedule_range M t : Forall is_u32 M -> (16 <= length M)%nat -> Forall is_u32 (FIPS.schedule M t).
Proof.
  intros HM HL. induction t as [|t IH]; rewrite ?schedule_S; [constructor|].
  apply Forall_app. split; [done|]. constructor; [|constructor]. destruct (Nat.ltb_spec t 16).
  - apply (Forall_lookup_total_1 _ _ _ HM). lia.
  - apply Z.mod_pos_bound. lia.
Qed.

(** A loop that fills an array from its start leaves the values it computed. *)
Lemma foldl_insert_take {A} (f : nat -> A) (w : list A) k : (k <= length w)%nat ->
  length (foldl (fun w i => <[i := f i]> w) w (seq 0 k)) = length w /\
  take k (foldl (fun w i => <[i := f i]> w) w (seq 0 k)) = map f (seq 0 k).
Proof.
  induction k as [|k IH]; intros Hk; [done|].
  destruct IH as [HL HT]; [lia|]. rewrite seq_S, foldl_app, map_app. cbn [foldl map Nat.add].
  rewrite length_insert. split; [done|]. erewrite take_S_r by (apply list_lookup_insert_eq; lia).
  rewrite take_insert_ge by lia. by rewrite HT.
Qed.

Lemma load_words_take block w : length w = 64%nat ->
  length (load_words block w) = 64%nat /\
  take 16 (load_words block w) = map (fun i => from_be_bytes (take 4 (drop (i * 4) block))) (seq 0 16).
Proof.
  intros Hw. rewrite <- Hw at 1.
  apply (foldl_insert_take (fun i => from_be_bytes (take 4 (drop (i * 4) block))) w 16). lia.
Qed.

Lemma lookup_total_take' (l : list Z) n i : (i < n)%nat -> take n l !!! i = l !!! i.
Proof. intros Hi. rewrite !list_lookup_total_alt. by rewrite lookup_take_lt. Qed.

Lemma extend_words_schedule M w : Forall is_u32 M -> length M = 16%nat ->
  length w = 64%nat -> take 16 w = M -> extend_words w = FIPS.schedule M 64.
Proof.
  intros HM HL Hw HT. unfold extend_words.
  match goal with |- foldl ?g _ _ = _ => set (step := g) end.
  assert (forall k, (k <= 16)%nat -> take k M = FIPS.schedule M k) as Hlow.
  { induction k as [|k IH]; intros Hk; rewrite ?schedule_S; [done|].
    rewrite (proj2 (Nat.ltb_lt _ _)) by lia. rewrite <- IH by lia.
    apply take_S_r. apply list_lookup_lookup_total_lt. lia. }
  enough (forall k, (k <= 48)%nat -> let w' := foldl step w (seq 16 k) in
    length w' = 64%nat /\ take (16 + k) w' = FIPS.schedule M (16 + k)) as Hk.
  { destruct (Hk 48%nat) as [H1 H2]; [lia|]. assert (64 = 16 + 48)%nat as -> by done. rewrite <- H2. rewrite take_ge; [done|]. by rewrite H1. }
  induction k as [|k IH]; intros Hk; cbn zeta in *.
  { cbn [seq foldl]. split; [done|]. rewrite Nat.add_0_r, HT, <- Hlow by lia. rewrite take_ge; [done|lia]. }
  destruct IH as [HL' HT']; [lia|]. rewrite seq_S, foldl_app. cbn [foldl].
  remember (foldl step w (seq 16 k)) as w' eqn:Ew. clear Ew. unfold step at 1 2.
  rewrite length_insert. split; [done|]. replace (16 + S k)%nat with (S (16 + k)) by lia.
  erewrite take_S_r by (apply list_lookup_insert_eq; lia). rewrite take_insert_ge by lia. rewrite HT'.
  rewrite schedule_S. f_equal. rewrite (proj2 (Nat.ltb_ge _ _)) by lia. f_equal.
  pose proof (schedule_range M (16 + k) HM ltac:(lia)) as HR.
  assert (forall j, (j < 16 + k)%nat -> FIPS.schedule M (16 + k) !!! j = w' !!! j) as Hj
    by (intros j Hj; rewrite <- HT'; by apply lookup_total_take').
  assert (forall j, (j < 16 + k)%nat -> is_u32 (w' !!! j)) as Hu.
  { intros j Hjk. rewrite <- Hj by done. apply (Forall_lookup_total_1 _ _ _ HR). by rewrite schedule_length. }
  rewrite !Hj by lia. unfold FIPS.sigma0, FIPS.sigma1, FIPS.SHR.
  rewrite !rotate_right_ROTR, !Z.shiftr_div_pow2 by (try apply Hu; lia). u32_sum.
Qed.

(** ** Rounds and blocks *)

Definition u32_words (h : Words8) : Prop :=
  is_u32 (wa h) /\ is_u32 (wb h) /\ is_u32 (wc h) /\ is_u32 (wd h) /\
  is_u32 (we h) /\ is_u32 (wf h) /\ is_u32 (wg h) /\ is_u32 (wh h).

Lemma sha_round_FIPS W r t : u32_words r -> sha_round W r t = FIPS.round W r t.
Proof.
  destruct r as [a b c d e f g hh]. intros (Ha & Hb & Hc & Hd & He & Hf & Hg & Hh). cbn in *.
  unfold sha_round, FIPS.round, FIPS.Sigma0, FIPS.Sigma1. cbn.
  rewrite !rotate_right_ROTR by (done || lia). rewrite ch_Ch, maj_Maj by done.
  f_equal; u32_sum.
Qed.

Lemma sha_round_words W r t : u32_words r -> u32_words (sha_round W r t).
Proof.
  destruct r as [a b c d e f g hh]. intros (Ha & Hb & Hc & Hd & He & Hf & Hg & Hh). cbn in *.
  repeat split; cbn; try apply u32_add_range; apply Ha || apply Hb || apply Hc || apply He || apply Hf || apply Hg.
Qed.

Lemma sha_rounds_FIPS W l r : u32_words r ->
  foldl (sha_round W) r l = foldl (FIPS.round W) r l.
Proof.
  revert r. induction l as [|t l IH]; intros r Hr; cbn [foldl]; [done|].
  rewrite <- sha_round_FIPS by done. apply IH, sha_round_words, Hr.
Qed.

Lemma add_words_range h r : u32_words (add_words h r).
Proof. repeat split; cbn; apply u32_add_range. Qed.

Lemma chunks_exact_loop_map {A} n fuel (l : list A) : (0 < n)%nat -> (length l <= fuel)%nat ->
  chunks_exact_loop fuel n l = map (fun i => take n (drop (n * i) l)) (seq 0 (length l / n)).
Proof.
  intros Hn. revert l. induction fuel as [|fuel IH]; intros l Hl; cbn [chunks_exact_loop].
  - by rewrite Nat.div_small by lia.
  - destruct (Nat.ltb_spec (length l) n); [by rewrite Nat.div_small by lia|].
    replace (length l / n)%nat with (S (length (drop n l) / n)).
    + cbn [seq map]. rewrite Nat.mul_0_r, drop_0. f_equal. rewrite <- seq_shift, map_map.
      rewrite IH by (rewrite length_drop; lia). apply map_ext. intros i. rewrite drop_drop. do 2 f_equal. lia.
    + rewrite length_drop. replace (length l) with (length l - n + 1 * n)%nat at 2 by lia.
      rewrite Nat.div_add by lia. lia.
Qed.

Lemma pad_loop_zeros k fuel data : (k <= fuel)%nat -> ((length data + k) mod 64 = 56)%nat ->
  (forall j : nat, j < k -> (length data + j) mod 64 <> 56)%nat ->
  pad_loop fuel data = data ++ replicate k 0.
Proof.
  revert fuel data. induction k as [|k IH]; intros fuel data Hf Hk Hj.
  - rewrite Nat.add_0_r in Hk. destruct fuel; cbn [pad_loop]; rewrite ?Hk; by rewrite app_nil_r.
  - destruct fuel as [|fuel]; [lia|]. cbn [pad_loop].
    rewrite (proj2 (Nat.eqb_neq _ _)) by (rewrite <- (Nat.add_0_r (length data)); apply Hj; lia).
    rewrite IH; [by rewrite <- app_assoc|lia| |].
    + rewrite length_app. cbn [length]. by replace (length data + 1 + k)%nat with (length data + S k)%nat by lia.
    + intros j Hlt. rewrite length_app. cbn [length]. replace (length data + 1 + j)%nat with (length data + S j)%nat by lia.
      apply Hj. lia.
Qed.

(** The padding loop appends the zeros the standard asks for. *)
Lemma pad_padded msg : Z.of_nat (length msg) < 2 ^ 61 -> pad msg = FIPS.padded msg.
Proof.
  intros Hl. unfold pad, FIPS.padded. rewrite Z.mod_small, (Z.mul_comm 8) by lia.
  rewrite (pad_loop_zeros ((119 - length msg mod 64) mod 64)); [by rewrite <- !app_assoc| | |].
  - pose proof (Nat.mod_upper_bound (119 - length msg mod 64) 64). lia.
  - rewrite length_app. cbn [length]. nat_mod.
  - intros j Hj. rewrite length_app. cbn [length]. nat_mod.
Qed.

Lemma padded_length msg : (length (FIPS.padded msg) mod 64 = 0)%nat.
Proof.
  unfold FIPS.padded. rewrite !length_app, length_replicate, length_be_bytes. cbn [length].
  Z.to_euclidean_division_equations; lia.
Qed.

Lemma padded_bytes msg : Forall is_byte msg -> Forall is_byte (FIPS.padded msg).
Proof.
  intros Hm. unfold FIPS.padded. rewrite !Forall_app. split_and!; [done| | |].
  - by repeat constructor.
  - apply Forall_replicate. by split.
  - unfold be_bytes. apply Forall_rev, le_bytes_range.
Qed.

Lemma from_be_u32 b : Forall is_byte b -> (length b <= 4)%nat -> is_u32 (from_be_bytes b).
Proof.
  intros Hb Hl. unfold from_be_bytes.
  assert (forall l, Forall is_byte l -> 0 <= from_le_bytes l < 256 ^ Z.of_nat (length l)) as Hgen.
  { induction 1 as [|x l Hx Hl' IH]; cbn [from_le_bytes length]; [done|]. rewrite pow256_S. unfold is_byte in Hx. lia. }
  destruct (Hgen (rev b)) as [H1 H2]; [by apply Forall_rev|]. split; [done|].
  eapply Z.lt_le_trans; [done|]. change (2 ^ 32) with (256 ^ 4). rewrite length_rev. apply Z.pow_le_mono_r; lia.
Qed.

Lemma block_words P i : Forall is_byte P -> Forall is_u32 (FIPS.block P i).
Proof.
  intros HP. unfold FIPS.block. apply Forall_map, Forall_true. intros t. apply from_be_u32.
  - by apply Forall_take, Forall_drop.
  - rewrite length_take. lia.
Qed.

(** One block of the code is one step of the standard, whatever the array
    held before. *)
Lemma sha_block_FIPS P i h w : Forall is_byte P -> u32_words h -> length w = 64%nat ->
  exists w', sha_block (h, w) (take 64 (drop (64 * i) P)) = (FIPS.hash_step P h i, w') /\ length w' = 64%nat.
Proof.
  intros HP Hh Hw. unfold sha_block. destruct (load_words_take (take 64 (drop (64 * i) P)) w Hw) as [HL HT].
  rewrite (extend_words_schedule (FIPS.block P i)); [|by apply block_words|done|done|].
  - eexists. split; [|apply schedule_length]. unfold FIPS.hash_step. by rewrite sha_rounds_FIPS.
  - rewrite HT. unfold FIPS.block. apply map_ext_in. intros t [_ Ht]%in_seq.
    rewrite skipn_firstn_comm, take_take, drop_drop. do 2 f_equal; [lia|f_equal; lia].
Qed.

Lemma sha_blocks_FIPS P l h w : Forall is_byte P -> u32_words h -> length w = 64%nat ->
  (foldl sha_block (h, w) (map (fun i => take 64 (drop (64 * i) P)) l)).1 = foldl (FIPS.hash_step P) h l.
Proof.
  intros HP. revert h w. induction l as [|i l IH]; intros h w Hh Hw; [done|]. cbn [map foldl].
  destruct (sha_block_FIPS P i h w HP Hh Hw) as (w' & -> & Hw'). apply IH; [|done].
  apply add_words_range.
Qed.

Lemma sha256_hash msg : Forall is_byte msg -> Z.of_nat (length msg) < 2 ^ 61 -> sha256 msg = FIPS.hash msg.
Proof.
  intros Hm Hl. unfold sha256, FIPS.hash, blocks_of. rewrite pad_padded by done.
  rewrite chunks_exact_loop_map, sha_blocks_FIPS; [done|by apply padded_bytes|done|done|lia|lia].
Qed.

Lemma words_bytes_ok h : Forall is_byte (words_bytes h) /\ length (words_bytes h) = 32%nat.
Proof.
  unfold words_bytes. cbn [map concat]. split; [|by rewrite !length_app, !length_be_bytes].
  rewrite !Forall_app. unfold be_bytes. split_and!; try apply Forall_rev, le_bytes_range. constructor.
Qed.

Lemma sha256_bytes msg : Forall is_byte (sha256 msg).
Proof. apply words_bytes_ok. Qed.
Lemma sha256_length msg : length (sha256 msg) = 32%nat.
Proof. apply words_bytes_ok. Qed.
Lemma hmac_bytes key msg : Forall is_byte (hmac_sha256 key msg).
Proof. apply sha256_bytes. Qed.
Lemma hmac_length key msg : length (hmac_sha256 key msg) = 32%nat.
Proof. apply sha256_length. Qed.

Lemma xor_bytes x l : is_byte x -> Forall is_byte l -> Forall is_byte (map (fun b => Z.lxor b x) l).
Proof.
  intros Hx Hl. apply Forall_map. eapply Forall_impl; [done|]. intros b Hb. unfold is_byte in *. cbn.
  assert (0 <= Z.lxor b x) by (apply Z.lxor_nonneg; lia). split; [done|].
  destruct (decide (Z.lxor b x = 0)) as [->|]; [done|].
  apply Z.log2_lt_pow2 with (b := 8); [lia|]. eapply Z.le_lt_trans; [apply Z.log2_lxor; lia|].
  apply Z.max_lub_lt; [destruct (decide (b = 0)) as [->|]|destruct (decide (x = 0)) as [->|]]; try done; apply Z.log2_lt_pow2; lia.
Qed.

Lemma map_lookup_total_seq {B} (f : Z -> B) (k : list Z) :
  map (fun i => f (k !!! i)) (seq 0 (length k)) = map f k.
Proof.
  induction k as [|x k IH]; [done|]. cbn [length seq map]. f_equal.
  rewrite <- seq_shift, map_map, <- IH. done.
Qed.

Lemma resize_pad k n : (length k <= n)%nat -> resize n 0 k = k ++ replicate (n - length k) 0.
Proof. intros Hk. unfold resize. by rewrite take_ge. Qed.

(** C23: The hash is SHA-256 as FIPS 180-4 defines it, and the code under a key
    is HMAC as RFC 2104 defines it over that hash, for keys and messages of
    any length the 64-bit length field can count: the padding loop stops at
    the standard's padding, filling the shared array in place gives the
    standard's message schedule for every block, and the unrolled shuffling
    of the working variables is the standard's round. *)
Theorem hmac_sha256_rfc2104 key msg :
  Forall is_byte key -> Forall is_byte msg ->
  Z.of_nat (length key) < 2 ^ 61 -> Z.of_nat (length msg) + 64 < 2 ^ 61 ->
  sha256 msg = FIPS.hash msg /\ hmac_sha256 key msg = FIPS.hmac key msg.
Proof.
  intros Hk Hm Hlk Hlm. split; [apply sha256_hash; [done|lia]|]. unfold hmac_sha256, FIPS.hmac.
  assert ((if (64 <? length key)%nat then sha256 key else key) = (if (length key <=? 64)%nat then key else FIPS.hash key)) as ->.
  { destruct (Nat.ltb_spec 64 (length key)), (Nat.leb_spec (length key) 64); try lia; [|done]. by apply sha256_hash. }
  remember (if (length key <=? 64)%nat then key else FIPS.hash key) as k eqn:Ek.
  assert (Forall is_byte k /\ (length k <= 64)%nat) as [Hkb Hkl].
  { subst k. destruct (Nat.leb_spec (length key) 64); [done|]. rewrite <- sha256_hash by done.
    rewrite sha256_length. split; [apply sha256_bytes|lia]. }
  rewrite resize_pad by done. remember (k ++ replicate (64 - length k) 0) as k0 eqn:Ek0.
  assert (Forall is_byte k0 /\ length k0 = 64%nat) as [Hb H64].
  { subst k0. split; [apply Forall_app; split; [done|by apply Forall_replicate]|].
    rewrite length_app, length_replicate. lia. }
  rewrite <- H64, !(map_lookup_total_seq (fun b => Z.lxor b _)).
  assert (forall x m, is_byte x -> Forall is_byte m -> Z.of_nat (length m) + 64 < 2 ^ 61 ->
    sha256 (map (fun b => Z.lxor b x) k0 ++ m) = FIPS.hash (map (fun b => Z.lxor b x) k0 ++ m)) as Hh.
  { intros x m Hx Hm' Hl'. apply sha256_hash.
    - apply Forall_app. split; [by apply xor_bytes|done].
    - rewrite length_app, length_map. lia. }
  rewrite Hh; [|done|apply sha256_bytes|by rewrite sha256_length]. by rewrite Hh.
Qed.

(** RFC 4231, test case 2. *)
Lemma hmac_sha256_rfc2104_witness :
  sha256 (str "what do ya want for nothing?") = FIPS.hash (str "what do ya want for nothing?") /\
  hmac_sha256 (str "Jefe") (str "what do ya want for nothing?") = FIPS.hmac (str "Jefe") (str "what do ya want for nothing?").
Proof. apply hmac_sha256_rfc2104; [by repeat constructor|by repeat constructor|done|done]. Defined.

(** ** Published vectors (FIPS 180-4, RFC 4231) *)

Example sha256_empty : hex (sha256 []) = str "e3b0c44298fc1c149afbf4c8996fb92427ae41e4649b934ca495991b7852b855".
Proof. vm_compute. reflexivity. Qed.
Example sha256_two_blocks :
  hex (sha256 (str "abcdbcdecdefdefgefghfghighijhijkijkljklmklmnlmnomnopnopq"))
  = str "248d6a61d20638b8e5c026930c3e6039a33ce45964ff2167f6ecedd419db06c1".
Proof. vm_compute. reflexivity. Qed.
Example hmac_long_key :
  hex (hmac_sha256 (replicate 131 0xaa) (str "Test Using Larger Than Block-Size Key - Hash Key First"))
  = str "60e431591ee0b67f0d8a26aacbf5b77f8e0bc6213728c5140546040f0ee37f54".
Proof. vm_compute. reflexivity. Qed.
