(* ===== verification/Base64Url.v ===== *)
(** * base64url without padding (RFC 4648, section 5; crates/rro-engine/src/auth.rs)

    The encoder and decoder of the segments of a token, the comparison that
    does not stop at the first difference, and the splitting of a token at its
    dots. Decoding undoes encoding; decoding alone fails exactly on a foreign
    character or on a lone trailing one. *)
From S2P Require Import Prelude Utf8.
From Stdlib Require Import ZifyNat Wf_nat.
#[local] Set Default Goal Selector "!".
#[local] Set Warnings "-clear-no-such-hyp".
Local Open Scope Z_scope.

(** [slice::chunks]: the last one may be short. *)
Fixpoint chunks_loop {A} (fuel n : nat) (l : list A) : list (list A) :=
  match fuel, l with
  | S fuel, _ :: _ => take n l :: chunks_loop fuel n (drop n l)
  | _, _ => []
  end.
Definition chunks {A} (n : nat) (l : list A) : list (list A) := chunks_loop (length l) n l.

Definition B64URL : bytes := str "ABCDEFGHIJKLMNOPQRSTUVWXYZabcdefghijklmnopqrstuvwxyz0123456789-_".

(** The sextet [n >> shift & 63] as a character; the table has 64. *)
Definition sextet (n shift : Z) : Z := B64URL !!! Z.to_nat (Z.land (Z.shiftr n shift) 63).

Definition encode_chunk (chunk : bytes) : bytes :=
  let b0 := chunk !!! 0%nat in
  let b1 := default 0 (chunk !! 1%nat) in
  let b2 := default 0 (chunk !! 2%nat) in
  let n := Z.lor (Z.lor (Z.shiftl b0 16) (Z.shiftl b1 8)) b2 in
  [sextet n 18; sextet n 12]
  ++ (if (1 <? length chunk)%nat then [sextet n 6] else [])
  ++ (if (2 <? length chunk)%nat then [sextet n 0] else []).

Definition b64url_encode (input : bytes) : bytes := concat (map encode_chunk (chunks 3 input)).

(** The decoder's [val] *)
Definition b64_val (c : Z) : option Z :=
  if (65 <=? c) && (c <=? 90) then Some (c - 65)
  else if (97 <=? c) && (c <=? 122) then Some (c - 97 + 26)
  else if (48 <=? c) && (c <=? 57) then Some (c - 48 + 52)
  else if c =? 45 then Some 62
  else if c =? 95 then Some 63
  else None.

(** [n = (n << 6) | val(c)?] over the chunk, on [u32]. *)
Definition accumulate (n c : Z) : option Z := v ← b64_val c; Some (Z.lor (Z.shiftl n 6 mod 2 ^ 32) v).

Definition decode_chunk (chunk : bytes) : option bytes :=
  if (length chunk <? 2)%nat then None
  else
    n ← fold_opt accumulate 0 chunk;
    let n := Z.shiftl n (6 * (4 - Z.of_nat (length chunk))) mod 2 ^ 32 in
    Some ([Z.shiftr n 16 mod 256]
          ++ (if (3 <=? length chunk)%nat then [Z.shiftr n 8 mod 256] else [])
          ++ (if (4 <=? length chunk)%nat then [n mod 256] else [])).

Definition b64url_decode (input : bytes) : option bytes :=
  fold_opt (fun out chunk => b ← decode_chunk chunk; Some (out ++ b)) [] (chunks 4 input).

(** No data-dependent branch: every byte pair is folded into [diff]. *)
Definition constant_time_eq (a b : bytes) : bool :=
  if negb (length a =? length b)%nat then false
  else foldl (fun diff p => Z.lor diff (Z.lxor p.1 p.2)) 0 (zip a b) =? 0.

(** [str::split] at one ASCII character. *)
Fixpoint split_at_char (c : Z) (s : bytes) : list bytes :=
  match s with
  | [] => [[]]
  | x :: s =>
      if x =? c then [] :: split_at_char c s
      else match split_at_char c s with p :: ps => (x :: p) :: ps | [] => [[x]] end
  end.

Ltac nat_mod := zify; Z.to_euclidean_division_equations; lia.

(** ** Chunks *)

Lemma chunks_loop_fuel {A} n fuel fuel' (l : list A) : (0 < n)%nat ->
  (length l <= fuel)%nat -> (length l <= fuel')%nat -> chunks_loop fuel n l = chunks_loop fuel' n l.
Proof.
  intros Hn. revert fuel' l. induction fuel as [|fuel IH]; intros [|fuel'] [|x l]; cbn [length chunks_loop]; try done; try lia.
  intros H1 H2. f_equal. apply IH; rewrite length_drop; cbn [length]; lia.
Qed.

Lemma chunks_nil {A} n : chunks n (@nil A) = [].
Proof. done. Qed.

Lemma chunks_step {A} n (l : list A) : (0 < n)%nat -> l <> [] -> chunks n l = take n l :: chunks n (drop n l).
Proof.
  intros Hn Hl. unfold chunks. destruct l as [|x l]; [done|]. cbn [length chunks_loop]. f_equal.
  apply chunks_loop_fuel; [done| |done]. rewrite length_drop. cbn [length]. lia.
Qed.

(** ** The alphabet *)

Lemma b64_val_sextet d : 0 <= d < 64 -> b64_val (B64URL !!! Z.to_nat d) = Some d.
Proof.
  intros Hd. assert (forallb (fun i => bool_decide (b64_val (B64URL !!! i) = Some (Z.of_nat i))) (seq 0 64) = true) as Hall
    by (vm_compute; reflexivity).
  rewrite forallb_forall in Hall. specialize (Hall (Z.to_nat d)).
  rewrite bool_decide_eq_true, Z2Nat.id in Hall by lia. apply Hall, in_seq. lia.
Qed.

Lemma b64_val_range c v : b64_val c = Some v -> 0 <= v < 64.
Proof.
  unfold b64_val. repeat match goal with |- context [if ?b then _ else _] => destruct b eqn:? end; intros [= <-]; lia.
Qed.

Lemma sextet_val n shift : 0 <= n -> 0 <= shift -> b64_val (sextet n shift) = Some (n / 2 ^ shift mod 64).
Proof.
  intros Hn Hs. unfold sextet. change 63 with (Z.ones 6). rewrite Z.land_ones, Z.shiftr_div_pow2 by lia.
  apply b64_val_sextet. apply Z.mod_pos_bound. lia.
Qed.

Lemma accumulate_add n c v : b64_val c = Some v -> 0 <= n < 2 ^ 26 -> accumulate n c = Some (n * 64 + v).
Proof.
  intros Hc Hn. unfold accumulate. rewrite Hc. cbn. f_equal. pose proof (b64_val_range c v Hc).
  rewrite Z.mod_small by (rewrite Z.shiftl_mul_pow2 by lia; lia).
  rewrite Z.lor_comm, lor_shiftl_add by lia. lia.
Qed.

(** ** Round trip *)

Lemma bytes_n b0 b1 b2 : is_byte b0 -> is_byte b1 -> is_byte b2 ->
  Z.lor (Z.lor (Z.shiftl b0 16) (Z.shiftl b1 8)) b2 = b0 * 65536 + b1 * 256 + b2.
Proof.
  unfold is_byte. intros. rewrite (Z.lor_comm _ b2), (Z.lor_comm (Z.shiftl b0 16)), Z.lor_assoc.
  rewrite (lor_shiftl_add b2 b1 8) by lia. rewrite lor_shiftl_add by lia. lia.
Qed.

Ltac sextets :=
  repeat match goal with
    | |- context [accumulate ?n (sextet ?m ?s)] =>
        rewrite (accumulate_add n _ _ (sextet_val m s ltac:(lia) ltac:(lia)));
        [cbn [mbind option_bind]|Z.to_euclidean_division_equations; lia]
    end.

Lemma decode_encode_chunk chunk : Forall is_byte chunk -> chunk <> [] -> (length chunk <= 3)%nat ->
  decode_chunk (encode_chunk chunk) = Some chunk.
Proof.
  assert (is_byte 0) by by split.
  intros Hb Hne Hl. destruct chunk as [|b0 [|b1 [|b2 [|b3 l]]]]; [done| | | |cbn in Hl; lia];
    rewrite ?Forall_cons in Hb; destruct_and?; unfold encode_chunk; cbn;
    (rewrite bytes_n by done); unfold decode_chunk; cbn [length Nat.ltb Nat.leb fold_opt]; unfold is_byte in *; sextets;
    rewrite !Z.shiftl_mul_pow2, ?Z.shiftr_div_pow2 by lia; do 2 f_equal; try f_equal; try f_equal;
    Z.to_euclidean_division_equations; lia.
Qed.

Lemma encode_cons x : x <> [] -> b64url_encode x = encode_chunk (take 3 x) ++ b64url_encode (drop 3 x).
Proof. intros Hx. unfold b64url_encode. rewrite chunks_step by (done || lia). done. Qed.

Lemma length_encode_chunk chunk : (0 < length chunk <= 3)%nat -> length (encode_chunk chunk) = S (length chunk).
Proof. destruct chunk as [|b0 [|b1 [|b2 [|b3 l]]]]; cbn; lia. Qed.

Lemma fold_opt_app_out (f : bytes -> option bytes) out l :
  fold_opt (fun out chunk => b ← f chunk; Some (out ++ b)) out l
  = (out ++.) <$> fold_opt (fun out chunk => b ← f chunk; Some (out ++ b)) [] l.
Proof.
  revert out. induction l as [|c l IH]; intros out; cbn [fold_opt]; [cbn; by rewrite app_nil_r|].
  destruct (f c) as [b|]; cbn [mbind option_bind]; [|done]. rewrite IH, (IH ([] ++ b)).
  destruct (fold_opt _ [] l); cbn; [|done]. by rewrite app_assoc.
Qed.

Lemma decode_cons s : s <> [] ->
  b64url_decode s = b ← decode_chunk (take 4 s); (b ++.) <$> b64url_decode (drop 4 s).
Proof.
  intros Hs. unfold b64url_decode. rewrite chunks_step by (done || lia). cbn [fold_opt].
  destruct (decode_chunk (take 4 s)); cbn [mbind option_bind]; [|done]. apply fold_opt_app_out.
Qed.

Lemma decode_encode x : Forall is_byte x -> b64url_decode (b64url_encode x) = Some x.
Proof.
  induction x as [x IH] using (induction_ltof1 _ length). unfold ltof in IH. intros Hx.
  destruct (decide (x = [])) as [->|Hne]; [done|]. rewrite encode_cons by done.
  assert (0 < length x)%nat as Hl by (destruct x; cbn; [done|lia]).
  pose proof (length_encode_chunk (take 3 x)) as Hlen. rewrite length_take in Hlen. specialize (Hlen ltac:(lia)).
  assert (encode_chunk (take 3 x) <> []) as He by (by destruct (encode_chunk (take 3 x))).
  assert (Forall is_byte (take 3 x)) by by apply Forall_take.
  assert (take 3 x <> []) as Hne' by (destruct x; [done|by cbn]).
  destruct (decide (3 <= length x)%nat) as [H3|H3].
  - rewrite decode_cons, take_app_length', drop_app_length' by (lia || by destruct (encode_chunk (take 3 x))).
    rewrite decode_encode_chunk by (rewrite ?length_take; done || lia). cbn [mbind option_bind].
    rewrite IH; [cbn; by rewrite take_drop|rewrite length_drop; lia|by apply Forall_drop].
  - rewrite (drop_ge x), app_nil_r by lia.
    rewrite decode_cons by done.
    rewrite (take_ge (encode_chunk _)), (drop_ge (encode_chunk _)) by lia. rewrite decode_encode_chunk by (rewrite ?length_take; done || lia).
    cbn. rewrite app_nil_r. by rewrite take_ge by lia.
Qed.

(** ** What the decoder accepts *)

Lemma fold_accumulate l n : is_Some (fold_opt accumulate n l) <-> Forall (fun c => is_Some (b64_val c)) l.
Proof.
  revert n. induction l as [|c l IH]; intros n; cbn [fold_opt]; [split; [by constructor|by eexists]|].
  rewrite Forall_cons. change (accumulate n c) with (v ← b64_val c; Some (Z.lor (Z.shiftl n 6 mod 2 ^ 32) v)).
  destruct (b64_val c) as [v|]; cbn [mbind option_bind].
  - rewrite IH. split; [|by intros []]. intros HF. split; [by eexists|done].
  - split; [by intros []|]. by intros [[] _].
Qed.

Lemma decode_chunk_some chunk :
  is_Some (decode_chunk chunk) <-> (2 <= length chunk)%nat /\ Forall (fun c => is_Some (b64_val c)) chunk.
Proof.
  unfold decode_chunk. rewrite <- (fold_accumulate chunk 0). destruct (Nat.ltb_spec (length chunk) 2).
  - split; [by intros []|]. intros [? _]. lia.
  - destruct (fold_opt accumulate 0 chunk); cbn; split; [by split; [|eexists]|by eexists|by intros []|by intros [_ []]].
Qed.

Lemma decode_accepts s :
  is_Some (b64url_decode s) <-> Forall (fun c => is_Some (b64_val c)) s /\ (length s mod 4 <> 1)%nat.
Proof.
  induction s as [s IH] using (induction_ltof1 _ length). unfold ltof in IH.
  destruct (decide (s = [])) as [->|Hne]; [split; [by split|by eexists]|].
  assert (0 < length s)%nat as Hl by (destruct s; cbn; [done|lia]). rewrite decode_cons by done.
  assert (is_Some (decode_chunk (take 4 s) ≫= fun b => (b ++.) <$> b64url_decode (drop 4 s)) <->
    is_Some (decode_chunk (take 4 s)) /\ is_Some (b64url_decode (drop 4 s))) as ->.
  { destruct (decode_chunk _), (b64url_decode _); cbn; split; try (by intros []); try (by intros [[] ?]); try (by intros [? []]); eauto. }
  rewrite decode_chunk_some, IH by (rewrite length_drop; lia). rewrite length_take, length_drop.
  assert (Forall (fun c => is_Some (b64_val c)) s <-> Forall (fun c => is_Some (b64_val c)) (take 4 s)
    /\ Forall (fun c => is_Some (b64_val c)) (drop 4 s)) as -> by (by rewrite <- Forall_app, take_drop).
  destruct (decide (4 <= length s)%nat) as [H4|H4].
  - assert (length s mod 4 = (length s - 4) mod 4)%nat as -> by nat_mod. intuition lia.
  - rewrite drop_ge, Nat.mod_small by lia. replace ((length s - 4) mod 4)%nat with 0%nat by nat_mod.
    rewrite Forall_nil. intuition lia.
Qed.

(** ** The encoded text *)

Lemma encode_alphabet x : Forall is_byte x -> Forall (fun c => is_Some (b64_val c)) (b64url_encode x).
Proof. intros Hx. apply (proj1 (decode_accepts _)). rewrite decode_encode by done. by eexists. Qed.

Lemma encode_no_dot x : Forall is_byte x -> 46 ∉ b64url_encode x.
Proof.
  intros Hx Hin. apply encode_alphabet in Hx. rewrite Forall_forall in Hx. destruct (Hx _ Hin) as [v Hv]. done.
Qed.

Lemma encode_length x : length (b64url_encode x) = (length x + (length x + 2) / 3)%nat.
Proof.
  induction x as [x IH] using (induction_ltof1 _ length). unfold ltof in IH.
  destruct (decide (x = [])) as [->|Hne]; [done|]. rewrite encode_cons, length_app by done.
  assert (0 < length x)%nat as Hl by (destruct x; cbn; [done|lia]).
  rewrite IH by (rewrite length_drop; lia).
  rewrite length_encode_chunk by (rewrite length_take; lia). rewrite length_take, length_drop. nat_mod.
Qed.

(** ** Comparison and splitting *)

Lemma lor_zero a b : Z.lor a b = 0 <-> a = 0 /\ b = 0.
Proof. split; [apply Z.lor_eq_0_iff|by intros [-> ->]]. Qed.

Lemma fold_diff_zero a b d : length a = length b ->
  foldl (fun diff p => Z.lor diff (Z.lxor p.1 p.2)) d (zip a b) = 0 <-> d = 0 /\ a = b.
Proof.
  revert b d. induction a as [|x a IH]; intros [|y b] d; cbn [length zip zip_with foldl]; try done; [naive_solver|].
  intros [= Hl]. rewrite (IH b) by done. cbn. rewrite lor_zero, Z.lxor_eq_0_iff. naive_solver.
Qed.

Lemma constant_time_eq_iff a b : constant_time_eq a b = true <-> a = b.
Proof.
  unfold constant_time_eq. destruct (Nat.eqb_spec (length a) (length b)) as [Hl|Hl]; cbn [negb].
  - rewrite Z.eqb_eq, fold_diff_zero by done. naive_solver.
  - split; [done|]. by intros ->.
Qed.

Lemma split_nonempty c s : split_at_char c s <> [].
Proof. destruct s as [|x s]; cbn; [done|]. destruct (x =? c); [done|]. by destruct (split_at_char c s). Qed.

(** Splitting is the inverse of joining parts that lack the separator. *)
Lemma split_join c p s : c ∉ p -> split_at_char c (p ++ c :: s) = p :: split_at_char c s.
Proof.
  induction p as [|x p IH]; intros Hp; cbn; [by rewrite Z.eqb_refl|].
  rewrite not_elem_of_cons in Hp. destruct Hp as [Hx Hp]. rewrite (proj2 (Z.eqb_neq x c)) by done. by rewrite IH.
Qed.

Lemma split_whole c p : c ∉ p -> split_at_char c p = [p].
Proof.
  induction p as [|x p IH]; intros Hp; cbn; [done|].
  rewrite not_elem_of_cons in Hp. destruct Hp as [Hx Hp]. rewrite (proj2 (Z.eqb_neq x c)) by done. by rewrite IH.
Qed.

Lemma split_parts c s p ps : split_at_char c s = p :: ps ->
  (c ∉ p) /\ (ps = [] /\ s = p \/ (exists s', s = p ++ c :: s' /\ split_at_char c s' = ps)).
Proof.
  revert p ps. induction s as [|x s IH]; intros p ps; cbn.
  - intros [= <- <-]. split; [apply not_elem_of_nil|by left].
  - destruct (Z.eqb_spec x c) as [->|Hx].
    + intros [= <- <-]. split; [apply not_elem_of_nil|]. right. by exists s.
    + destruct (split_at_char c s) as [|q qs] eqn:E; [by destruct (split_nonempty c s)|]. intros [= <- <-].
      destruct (IH q qs eq_refl) as [Hq HH]. split; [by apply not_elem_of_cons|].
      destruct HH as [[-> ->]|(s' & -> & Hs')]; [by left|]. right. by exists s'.
Qed.

(** Decoding undoes encoding, for every byte string; the encoded text has
    no padding, is as long as RFC 4648 says and stays inside the URL-safe
    alphabet; and the decoder refuses exactly the texts with a foreign
    character or with one character left over. *)
Theorem b64url_roundtrip x :
  Forall is_byte x ->
  b64url_decode (b64url_encode x) = Some x
  /\ Z.of_nat (length (b64url_encode x)) = (4 * Z.of_nat (length x) + 2) / 3
  /\ Forall (fun c => is_Some (b64_val c)) (b64url_encode x)
  /\ (forall s, is_Some (b64url_decode s) <-> Forall (fun c => is_Some (b64_val c)) s /\ (length s mod 4 <> 1)%nat).
Proof.
  intros Hx. split_and!; [by apply decode_encode| |by apply encode_alphabet|apply decode_accepts].
  rewrite encode_length. nat_mod.
Qed.

Lemma b64url_roundtrip_witness :
  b64url_encode (str "any carnal pleas") = str "YW55IGNhcm5hbCBwbGVhcw"
  /\ b64url_decode (b64url_encode (str "any carnal pleas")) = Some (str "any carnal pleas").
Proof.
  split; [vm_compute; reflexivity|].
  apply (b64url_roundtrip (str "any carnal pleas")). by repeat constructor.
Defined.
