(* ===== verification/Auth.v ===== *)
(** * Capability tokens (crates/rro-engine/src/auth.rs)

    Roles and what they allow, claims, the signing policy of a node, and the
    issue and verification of HS256 tokens over the hash of [Sha256] and the
    text encoding of [Base64Url]. The JSON text of the claims is written and
    read by serde, whose round trip is a law of the class [ClaimsJson]; the
    clock is an argument. *)
From S2P Require Import Prelude Utf8 Sha256 Base64Url.
#[local] Set Default Goal Selector "!".
#[local] Set Warnings "-clear-no-such-hyp".
Local Open Scope Z_scope.

(** ** Roles *)

Inductive Role : Type := Reader | Writer | Admin.
#[export] Instance Role_eq_dec : EqDecision Role.
Proof. solve_decision. Defined.

(** The derived order of the variants. *)
Definition role_rank (r : Role) : Z := match r with Reader => 0 | Writer => 1 | Admin => 2 end.

Definition admin_verbs : list bytes := [str "compact"; str "flush"; str "drop_collection"].
Definition writer_verbs : list bytes := [
  str "index"; str "tx"; str "relate"; str "set_payload"; str "overwrite_payload";
  str "delete_payload_keys"; str "clear_payload"; str "create_alias"; str "delete_alias"].

Definition min_role (verb : bytes) : Role :=
  if bool_decide (verb ∈ admin_verbs) then Admin
  else if bool_decide (verb ∈ writer_verbs) then Writer
  else Reader.

Definition allows (r : Role) (verb : bytes) : bool := role_rank (min_role verb) <=? role_rank r.

(** ** Claims and policies *)

Record Claims : Type := mkClaims {
  sub : bytes;
  c_role : Role;
  ns : option bytes;
  iat : Z;
  exp : Z;
}.

Inductive AuthError : Type := Missing | Malformed | BadSignature | Expired | Forbidden | WrongNamespace.

Record AuthPolicy : Type := mkAuthPolicy { auth_key : bytes; namespace : option bytes }.

Definition auth_new (key : bytes) : AuthPolicy := mkAuthPolicy key None.
Definition for_namespace (p : AuthPolicy) (namespace : bytes) : AuthPolicy := mkAuthPolicy (auth_key p) (Some namespace).

(** Claims a Rust value can hold: valid UTF-8 of a length a [usize] can count,
    and [u64] times. *)
Definition claims_ok (c : Claims) : Prop :=
  Forall is_byte (sub c) /\ valid_utf8 (sub c) = true /\ Z.of_nat (length (sub c)) < 2 ^ 64
  /\ (forall n, ns c = Some n -> Forall is_byte n /\ valid_utf8 n = true)
  /\ 0 <= iat c < 2 ^ 64 /\ 0 <= exp c < 2 ^ 64.

(** [serde_json::to_vec] and [from_slice] at [Claims]. *)
Class ClaimsJson := {
  claims_to_vec : Claims -> bytes;
  claims_from_slice : bytes -> option Claims;
}.
Class ClaimsJsonLaws (J : ClaimsJson) : Prop := {
  claims_to_vec_bytes c : claims_ok c -> Forall is_byte (claims_to_vec c);
  claims_roundtrip c : claims_ok c -> claims_from_slice (claims_to_vec c) = Some c;
}.

(** ** Tokens *)
Section tokens.
Context `{J : ClaimsJson}.

Definition jwt_header : bytes :=
  [123; 34] ++ str "alg" ++ [34; 58; 34] ++ str "HS256" ++ [34; 44; 34] ++ str "typ" ++ [34; 58; 34] ++ str "JWT" ++ [34; 125].

Definition DOT : Z := 46.

Definition sign_hs256 (claims : Claims) (key : bytes) : bytes :=
  let signing_input := b64url_encode jwt_header ++ DOT :: b64url_encode (claims_to_vec claims) in
  let sig := hmac_sha256 key signing_input in
  signing_input ++ DOT :: b64url_encode sig.

Definition verify_hs256 (token key : bytes) : result AuthError Claims :=
  match split_at_char DOT token with
  | [h; p; s] =>
      let signing_input := h ++ DOT :: p in
      let expected := hmac_sha256 key signing_input in
      match b64url_decode s with
      | None => Err Malformed
      | Some given =>
          if negb (constant_time_eq expected given) then Err BadSignature
          else match b64url_decode p with
               | None => Err Malformed
               | Some payload => match claims_from_slice payload with Some c => Ok c | None => Err Malformed end
               end
      end
  | _ => Err Malformed
  end.

Definition issue (p : AuthPolicy) (claims : Claims) : bytes := sign_hs256 claims (auth_key p).

(** [now + ttl_secs] wraps in a release build. *)
Definition issue_for (now : Z) (p : AuthPolicy) (sub : bytes) (role : Role) (ns : option bytes) (ttl_secs : Z) : bytes :=
  issue p (mkClaims sub role ns now ((now + ttl_secs) mod 2 ^ 64)).

(** A scoped token on a node scoped to another namespace. *)
Definition wrong_namespace (node_ns tok_ns : option bytes) : bool :=
  match node_ns, tok_ns with
  | Some a, Some b => negb (bool_decide (a = b))
  | _, _ => false
  end.

Definition authorize (now : Z) (p : AuthPolicy) (token : option bytes) (verb : bytes) : result AuthError Role :=
  match token with
  | None => Err Missing
  | Some token =>
      claims ← verify_hs256 token (auth_key p);
      if exp claims <=? now then Err Expired
      else if wrong_namespace (namespace p) (ns claims) then Err WrongNamespace
      else if negb (allows (c_role claims) verb) then Err Forbidden
      else Ok (c_role claims)
  end.
End tokens.

(** ** The order of roles *)

Lemma allows_mono r r' verb : role_rank r <= role_rank r' -> allows r verb = true -> allows r' verb = true.
Proof. unfold allows. rewrite !Z.leb_le. lia. Qed.

Lemma allows_reader verb : allows Reader verb = true <-> (verb ∉ admin_verbs) /\ verb ∉ writer_verbs.
Proof.
  unfold allows, min_role. repeat case_bool_decide; cbn; split; try done; naive_solver.
Qed.

(** ** Verification *)
Section verification.
Context `{J : ClaimsJson} `{!ClaimsJsonLaws J}.

Lemma jwt_header_bytes : Forall is_byte jwt_header.
Proof. repeat (constructor; [by split|]). constructor. Qed.

(** A dot separates exactly the three segments of a token. *)
Lemma split_token h p s : (DOT ∉ h) -> (DOT ∉ p) -> (DOT ∉ s) ->
  split_at_char DOT ((h ++ DOT :: p) ++ DOT :: s) = [h; p; s].
Proof.
  intros Hh Hp Hs. rewrite <- app_assoc. cbn. rewrite split_join by done.
  rewrite split_join by done. by rewrite split_whole.
Qed.

Lemma split_three token h p s : split_at_char DOT token = [h; p; s] ->
  token = (h ++ DOT :: p) ++ DOT :: s /\ (DOT ∉ h) /\ (DOT ∉ p) /\ DOT ∉ s.
Proof.
  intros E. destruct (split_parts _ _ _ _ E) as [Hh [[? _]|(t1 & -> & E1)]]; [done|].
  destruct (split_parts _ _ _ _ E1) as [Hp [[? _]|(t2 & -> & E2)]]; [done|].
  destruct (split_parts _ _ _ _ E2) as [Hs [[_ ->]|(t3 & -> & E3)]].
  - split; [by rewrite <- app_assoc|done].
  - by destruct (split_nonempty DOT t3).
Qed.

Lemma verify_sign c key : claims_ok c -> verify_hs256 (sign_hs256 c key) key = Ok c.
Proof.
  intros Hc. pose proof (claims_to_vec_bytes c Hc) as Hb. unfold verify_hs256, sign_hs256. cbn zeta.
  rewrite split_token by (apply encode_no_dot; first [apply jwt_header_bytes|done|apply hmac_bytes]).
  rewrite decode_encode by apply hmac_bytes. rewrite (proj2 (constant_time_eq_iff _ _)) by done. cbn [negb].
  rewrite decode_encode by done. by rewrite claims_roundtrip.
Qed.

(** A token is accepted exactly when its last segment is the MAC of the other
    two under the key and its second segment holds the claims. *)
Lemma verify_ok_iff token key c :
  verify_hs256 token key = Ok c <->
  exists h p s payload, token = (h ++ DOT :: p) ++ DOT :: s /\ (DOT ∉ h) /\ (DOT ∉ p) /\ (DOT ∉ s)
    /\ b64url_decode s = Some (hmac_sha256 key (h ++ DOT :: p))
    /\ b64url_decode p = Some payload /\ claims_from_slice payload = Some c.
Proof.
  unfold verify_hs256. split.
  - destruct (split_at_char DOT token) as [|h [|p [|s [|x l]]]] eqn:E; try done.
    apply split_three in E as (-> & Hh & Hp & Hs). destruct (b64url_decode s) as [given|] eqn:Es; [|done].
    destruct (constant_time_eq _ given) eqn:Ec; cbn [negb]; [|done]. apply constant_time_eq_iff in Ec as <-.
    destruct (b64url_decode p) as [payload|] eqn:Ep; [|done].
    destruct (claims_from_slice payload) eqn:Ej; [|done]. intros [= ->]. by exists h, p, s, payload.
  - intros (h & p & s & payload & -> & Hh & Hp & Hs & Es & Ep & Ej). rewrite split_token by done.
    cbn zeta. rewrite Es, (proj2 (constant_time_eq_iff _ _)) by done. cbn [negb]. by rewrite Ep, Ej.
Qed.

(** C21: A token is authorized for a verb, with a role, exactly when it is three
    segments of which the last is the MAC of the first two under this node's
    key, the second holds claims with that role that have not expired, a scoped
    token meets an unscoped node or one of its own namespace, and the role's
    tier reaches the verb's. Nothing else in the token, its header included,
    matters. *)
Theorem authorize_exact now p token verb r :
  authorize now p token verb = Ok r <->
  exists h pl s payload c, token = Some ((h ++ DOT :: pl) ++ DOT :: s)
    /\ (DOT ∉ h) /\ (DOT ∉ pl) /\ (DOT ∉ s)
    /\ b64url_decode s = Some (hmac_sha256 (auth_key p) (h ++ DOT :: pl))
    /\ b64url_decode pl = Some payload /\ claims_from_slice payload = Some c
    /\ now < exp c
    /\ (forall node_ns tok_ns, namespace p = Some node_ns -> ns c = Some tok_ns -> node_ns = tok_ns)
    /\ role_rank (min_role verb) <= role_rank (c_role c) /\ r = c_role c.
Proof.
  assert (forall a b, wrong_namespace a b = false <-> (forall x y, a = Some x -> b = Some y -> x = y)) as Hns.
  { intros [a|] [b|]; cbn; [case_bool_decide|..]; naive_solver. }
  unfold authorize. destruct token as [token|]; [|split; [done|naive_solver]]. rewrite bind_ok. split.
  - intros (c & Hv & Hif). apply verify_ok_iff in Hv as (h & pl & s & payload & -> & Hh & Hp & Hs & Es & Ep & Ej).
    exists h, pl, s, payload, c. destruct (Z.leb_spec (exp c) now); [done|].
    destruct (wrong_namespace _ _) eqn:En; [done|]. rewrite Hns in En. destruct (allows _ verb) eqn:Ea; [|done].
    unfold allows in Ea. rewrite Z.leb_le in Ea. cbn in Hif. injection Hif as <-. by split_and!.
  - intros (h & pl & s & payload & c & [= ->] & Hh & Hp & Hs & Es & Ep & Ej & He & Hn & Ha & ->).
    exists c. split; [apply verify_ok_iff; by exists h, pl, s, payload|].
    rewrite (proj2 (Z.leb_gt _ _)), (proj2 (Hns _ _)) by done. unfold allows.
    by rewrite (proj2 (Z.leb_le _ _)).
Qed.

(** A token issued for a role, a namespace and a time to live is honoured
    by every node that holds the same key until that time has passed, and then
    refused as expired: the issued claims come back unchanged, an unscoped
    token or node restricts nothing, and a token for another namespace or a
    verb above its role's tier is refused for that reason. *)
Theorem issued_token_honoured issuer node now later who role scope ttl verb :
  auth_key node = auth_key issuer ->
  claims_ok (mkClaims who role scope now (now + ttl)) ->
  authorize later node (Some (issue_for now issuer who role scope ttl)) verb =
    if now + ttl <=? later then Err Expired
    else if wrong_namespace (namespace node) scope then Err WrongNamespace
    else if role_rank role <? role_rank (min_role verb) then Err Forbidden
    else Ok role.
Proof.
  intros Hk Hc. unfold authorize, issue_for, issue. rewrite Hk.
  assert (0 <= now + ttl < 2 ^ 64) as Hexp by apply Hc. rewrite Z.mod_small by done.
  rewrite verify_sign by done. cbn [mbind result_bind exp ns c_role]. unfold allows. by rewrite Z.ltb_antisym.
Qed.
End verification.

(** ** Claims on paper: one implementation of the class *)
Module PlainClaims.

Definition role_of (z : Z) : Role := if z =? 0 then Reader else if z =? 1 then Writer else Admin.

(** Fixed-width fields, then the two strings with their lengths. *)
Definition to_vec (c : Claims) : bytes :=
  role_rank (c_role c) :: be_bytes 8 (iat c) ++ be_bytes 8 (exp c) ++ be_bytes 8 (Z.of_nat (length (sub c)))
  ++ sub c ++ match ns c with None => [] | Some n => 1 :: n end.

Definition from_slice (b : bytes) : option Claims :=
  match b with
  | [] => None
  | r :: b =>
      let n := Z.to_nat (from_be_bytes (take 8 (drop 8 (drop 8 b)))) in
      let rest := drop 8 (drop 8 (drop 8 b)) in
      Some (mkClaims (take n rest) (role_of r) (match drop n rest with [] => None | _ :: s => Some s end)
        (from_be_bytes (take 8 b)) (from_be_bytes (take 8 (drop 8 b))))
  end.

#[export] Instance plain_claims : ClaimsJson := {| claims_to_vec := to_vec; claims_from_slice := from_slice |}.

Lemma role_of_rank r : role_of (role_rank r) = r.
Proof. by destruct r. Qed.

#[export] Instance plain_claims_laws : ClaimsJsonLaws plain_claims.
Proof.
  split; intros [s r n i e] (Hs & _ & Hl & Hn & Hi & He); cbn [sub c_role ns iat exp claims_to_vec claims_from_slice plain_claims] in *.
  - unfold to_vec. cbn [sub c_role ns iat exp]. constructor; [by destruct r|]. unfold be_bytes. rewrite !Forall_app.
    split_and!; try apply Forall_rev, le_bytes_range; [done|]. destruct n as [n|]; [|constructor].
    constructor; [by split|]. by apply (Hn n).
  - unfold to_vec, from_slice. cbn [sub c_role ns iat exp]. rewrite role_of_rank.
    assert (forall z (x : bytes), drop 8 (be_bytes 8 z ++ x) = x /\ take 8 (be_bytes 8 z ++ x) = be_bytes 8 z) as Ha
      by (intros z x; by rewrite drop_app_length', take_app_length' by by rewrite length_be_bytes).
    cbn zeta. rewrite !(fun z x => proj1 (Ha z x)), !(fun z x => proj2 (Ha z x)).
    rewrite !from_be_be_bytes by (change (256 ^ Z.of_nat 8) with (2 ^ 64); lia).
    rewrite Nat2Z.id, take_app_length, drop_app_length. f_equal. by destruct n.
Qed.
End PlainClaims.

(** ** Witnesses *)

(** A node of one tenant honours the writer token another node of that tenant
    issued, for a write but not for administration, and not once it is old. *)
Section Witnesses.
Import PlainClaims.

Definition demo_key : bytes := str "local-signing-key".
Definition demo_node : AuthPolicy := for_namespace (auth_new demo_key) (str "acme").
Definition demo_token : bytes := issue_for 1000 (auth_new demo_key) (str "alice") Writer (Some (str "acme")) 3600.

Lemma issued_token_honoured_witness :
  authorize 2000 demo_node (Some demo_token) (str "index") = Ok Writer
  /\ authorize 2000 demo_node (Some demo_token) (str "compact") = Err Forbidden
  /\ authorize 4600 demo_node (Some demo_token) (str "index") = Err Expired
  /\ authorize 2000 (for_namespace (auth_new demo_key) (str "globex")) (Some demo_token) (str "index") = Err WrongNamespace.
Proof.
  assert (claims_ok (mkClaims (str "alice") Writer (Some (str "acme")) 1000 (1000 + 3600))) as Hok.
  { split; [by repeat constructor|]. do 2 (split; [done|]). split; [|done].
    intros n [= <-]. split; [by repeat constructor|done]. }
  split_and!; refine (eq_trans (issued_token_honoured _ _ _ _ _ _ _ _ _ eq_refl Hok) _); vm_compute; reflexivity.
Defined.

(** The token by evaluation, a forged role, and another key. *)
Example demo_authorized : authorize 2000 demo_node (Some demo_token) (str "query") = Ok Writer.
Proof. vm_compute. reflexivity. Qed.
Example demo_other_key : authorize 2000 (auth_new (str "other-key")) (Some demo_token) (str "query") = Err BadSignature.
Proof. vm_compute. reflexivity. Qed.
Example demo_missing : authorize 2000 demo_node None (str "query") = Err Missing.
Proof. reflexivity. Qed.
Example demo_two_segments : authorize 2000 demo_node (Some (str "YWJj.YWJj")) (str "query") = Err Malformed.
Proof. vm_compute. reflexivity. Qed.
End Witnesses.
