(* ===== verification/Estate.v ===== *)
(** * The estate's catalog (crates/connxism/src/estate.rs)

    Nodes, connectors, tags, trends, collections, aliases, declared fields,
    sampling, health and the typed rows they are kept in. Searching, writing
    and payload indexes are in [Store], [QueryExec] and [PayloadIndex]. *)
From S2P Require Import Prelude Floats ByteOrder Utf8 Json RroTime Geo Query Keys Model.
From S2P Require Import Kv Pending Store.
From S2P Require Import Heap Quant AnnStore Ann Searches QueryExec.
#[local] Set Default Goal Selector "!".
Local Open Scope Z_scope.

Section estate.
Context `{SerdeNumber} `{TextAnalyzer}.
Variable json_text : Json -> bytes.
Variable now_ms : Z -> Z.

(** ** Nodes and connectors; [now] is the clock *)

Definition get_node (db : Db) (id : bytes) : option NodeInfo :=
  match get_cf db CF_NODES id with Some (RNode n) => Some n | _ => None end.
Definition get_conn (db : Db) (id : bytes) : option ConnectorInfo :=
  match get_cf db CF_CONNS id with Some (RConn c) => Some c | _ => None end.

Definition register_node (now : Z) (db : Db) (node : NodeInfo) : Db :=
  put_cf db CF_NODES (ni_id node) (RNode (mkNodeInfo (ni_id node) (ni_name node) (warp_points node) now)).

Definition add_warp_point (now : Z) (db : Db) (node_id : bytes) (warp : WarpPoint) : Db * result RroError unit :=
  match get_node db node_id with
  | None => (db, Err (NoSuchNode node_id))
  | Some node =>
      (register_node now db (mkNodeInfo (ni_id node) (ni_name node) (warp_points node ++ [warp]) (last_seen node)), Ok tt)
  end.

(** [scan_json]: every row of the family decodes. *)
Definition nodes (db : Db) : list NodeInfo :=
  omap (fun p => match p.2 with RNode n => Some n | _ => None end) (iter_all db CF_NODES).

Definition register_connector (db : Db) (conn : ConnectorInfo) : Db := put_cf db CF_CONNS (ci_id conn) (RConn conn).
Definition connectors (db : Db) : list ConnectorInfo :=
  omap (fun p => match p.2 with RConn c => Some c | _ => None end) (iter_all db CF_CONNS).

Definition update_sync (db : Db) (connector_id : bytes) (st : SyncState) : Db * result RroError unit :=
  match get_conn db connector_id with
  | None => (db, Err (NoSuchConnector connector_id))
  | Some c =>
      (register_connector db (mkConnectorInfo (ci_id c) (ci_name c) (kind c) (provider c) (uri c) st (registered_at c)), Ok tt)
  end.

(** ** Tags *)

Definition tag (db : Db) (doc_id : bytes) (ts : list bytes) : Db :=
  fold_left (fun db t => put_cf db CF_TAGS (tag_key t doc_id) (RBytes [])) ts db.

Definition docs_by_tag (db : Db) (t : bytes) : list bytes :=
  omap (fun p => (fun s => from_utf8_lossy s.2) <$> split_compound p.1) (scan_prefix db CF_TAGS (tag_prefix t)).

(** The loop of [tags] and [trend_metrics]: a name equal to the last one is
    skipped. *)
Definition push_distinct (out : list bytes) (name : bytes) : list bytes :=
  match last out with
  | Some l => if bool_decide (l = name) then out else out ++ [name]
  | None => out ++ [name]
  end.
Definition first_parts (rows : list (bytes * Row)) : list bytes :=
  fold_left (fun out p => match split_compound p.1 with Some (a, _) => push_distinct out (from_utf8_lossy a) | None => out end)
    rows [].

Definition tags (db : Db) : list bytes := first_parts (iter_all db CF_TAGS).
Definition tag_count (db : Db) (t : bytes) : Z := Z.of_nat (length (docs_by_tag db t)).

(** ** Trends *)

Record TrendPoint : Type := mkTrendPoint { tp_at : Z; tp_value : f64 }.

Definition record_trend (now_ns : Z) (db : Db) (metric : bytes) (value : f64) : Db :=
  put_cf db CF_TRENDS (trend_key metric now_ns) (RBytes (le_bytes 8 (f64_to_bits value))).

(** [b.copy_from_slice(&v[..8.min(v.len())])] panics on a short row. *)
Definition trend_point (prefix_len : nat) (row : bytes * Row) : option TrendPoint :=
  let rest := drop prefix_len row.1 in
  let at_ns := if (length rest =? 8)%nat then from_be_bytes rest else 0 in
  match row.2 with
  | RBytes v =>
      if (length (take 8 v) =? 8)%nat
      then Some (mkTrendPoint (at_ns / 1000000) (f64_from_bits (from_le_bytes (take 8 v)))) else None
  | _ => None
  end.

Definition trend (db : Db) (metric : bytes) : option (list TrendPoint) :=
  let prefix := trend_prefix metric in mapM (trend_point (length prefix)) (scan_prefix db CF_TRENDS prefix).

Definition trend_metrics (db : Db) : list bytes := first_parts (iter_all db CF_TRENDS).

(** ** Collections *)

Definition collections (db : Db) : list (bytes * Z) :=
  map (fun name => (name, Z.of_nat (length (collection_members db name)))) (get_names db META_COLLECTIONS).

(** Each removal commits and hands its graph operations over; then one more
    removal is queued for the id. *)
Fixpoint drop_members (lexical_stats : bool) (db : Db) (ids : list bytes) : Db * list GraphOp :=
  match ids with
  | [] => (db, [])
  | id :: ids =>
      let '(db, gops) := Store.remove json_text now_ms lexical_stats db id in
      let '(db, rest) := drop_members lexical_stats db ids in
      (db, gops ++ GRemove id :: rest)
  end.

Definition drop_collection (lexical_stats : bool) (db : Db) (name : bytes) : Db * list GraphOp * Z :=
  let members := collection_members db name in
  let '(db, gops) := drop_members lexical_stats db members in
  let registry := filter (fun n => n <> name) (get_names db META_COLLECTIONS) in
  (put_cf db CF_META META_COLLECTIONS (RNames registry), gops, Z.of_nat (length members)).

(** ** Aliases and declared fields *)

Definition create_alias (db : Db) (alias collection : bytes) : Db :=
  put_cf db CF_META META_ALIASES (RAliases (<[alias := collection]> (get_aliases db))).
Definition aliases (db : Db) : list (bytes * bytes) := btree_iter (get_aliases db).
Definition delete_alias (db : Db) (alias : bytes) : Db :=
  put_cf db CF_META META_ALIASES (RAliases (delete alias (get_aliases db))).

Definition define_field (db : Db) (collection field ty : bytes) : Db * result RroError unit :=
  match field_type_of ty with
  | None => (db, Err (UnknownFieldType ty))
  | Some _ =>
      let schema := get_schema db in
      let fields := <[field := ty]> (default ∅ (schema !! collection)) in
      (put_cf db CF_META META_SCHEMA (RSchema (<[collection := fields]> schema)), Ok tt)
  end.

Definition remove_field (db : Db) (collection field : bytes) : Db :=
  let schema := get_schema db in
  let schema :=
    match schema !! collection with
    | Some fields =>
        let fields := delete field fields in
        if bool_decide (fields = ∅) then delete collection schema else <[collection := fields]> schema
    | None => schema
    end in
  put_cf db CF_META META_SCHEMA (RSchema schema).

(** ** Sampling: a reservoir over the documents, under a seeded generator *)

(** [state % bound.max(1)] after one xorshift; the state is carried on. *)
Definition next_below (state bound : Z) : Z * Z :=
  let state := xorshift state in (state, state mod Z.max bound 1).

Definition sample_step (n : nat) (st : list StoredDoc * Z * Z) (d : StoredDoc) : list StoredDoc * Z * Z :=
  let '(reservoir, state, seen) := st in
  let seen := u64_add seen 1 in
  if (length reservoir <? n)%nat then (reservoir ++ [d], state, seen)
  else
    let '(state, j) := next_below state seen in
    if j <? Z.of_nat n then (<[Z.to_nat j := d]> reservoir, state, seen) else (reservoir, state, seen).

(** [0x9E37_79B9_7F4A_7C15] *)
Definition SAMPLE_SEED : Z := 11400714819323198485.

Definition stored_docs (db : Db) : list StoredDoc :=
  omap (fun p => match p.2 with RDoc d => Some d | _ => None end) (iter_all db CF_DOCS).

Definition sample_docs (db : Db) (n : nat) (seed : Z) : list StoredDoc :=
  if (n =? 0)%nat then []
  else (fold_left (sample_step n) (stored_docs db) ([], Z.lxor seed SAMPLE_SEED, 0)).1.1.

(** ** Diagnostics *)

(** [Estate::term_df]: the first eight bytes of the row. *)
Definition term_df (db : Db) (term : bytes) : Z := default 0 (read_i64 <$> get_cf db CF_TDF term).

Record HealthReport : Type := mkHealth {
  h_docs : Z;
  h_feed_seq : Z;
  applier_backlog : Z;
  h_collections : list (bytes * Z);
  h_dim : option Z;
  h_named_dims : gmap bytes Z;
  quantized : bool;
  graph_tombstones : Z;
  cf_bytes : list (CF * Z);
  h_quotas : Quotas;
}.

(** What the handle knows besides the store; the sizes of the files are the
    storage engine's. *)
Record Handle : Type := mkHandle {
  e_info : EstateInfo;
  e_quantizer : Quantizer;
  e_quotas : Quotas;
  e_pending : Pending.State;
  e_ann : AnnIndex;
}.

Definition health (cf_sst_bytes : CF -> Z) (e : Handle) (db : Db) : HealthReport :=
  let info := default (e_info e) (get_info db) in
  mkHealth (get_u64 db META_DOC_COUNT) (get_u64 db META_FEED_SEQ) (Z.of_nat (backlog (e_pending e)))
    (collections db) (ei_dim info) (ei_named_dims info) (is_lossy (e_quantizer e))
    (Z.of_nat (tombstones (e_ann e))) (map (fun cf => (cf, cf_sst_bytes cf)) COLUMN_FAMILIES) (e_quotas e).

(** The detail text of an issue is these numbers in a sentence. *)
Inductive Issue : Type :=
  | ApplierBacklog (backlog threshold : Z)
  | DimUnset (docs : Z)
  | FeedBehind (feed_seq docs : Z).

Definition issues (h : HealthReport) (backlog_threshold : Z) : list Issue :=
  (if backlog_threshold <? applier_backlog h then [ApplierBacklog (applier_backlog h) backlog_threshold] else []) ++
  (match h_dim h with None => if 0 <? h_docs h then [DimUnset (h_docs h)] else [] | Some _ => [] end) ++
  (if h_feed_seq h <? h_docs h then [FeedBehind (h_feed_seq h) (h_docs h)] else []).
End estate.
