(* ===== verification/EstateSpec.v ===== *)
(** * What the estate's catalog promises

    Dropping a collection, aliases, declared fields, tags and trends against
    the plain sets and maps they stand for; sampling; and the health report. *)
From S2P Require Import Prelude Floats ByteOrder Utf8 Json RroTime Geo Query Heap Quant AnnStore.
From S2P Require Import Ann Keys KeysFacts Model.
From S2P Require Import Kv Pending Store StoreFacts StoreTx StoreSpec.
From S2P Require Import Fusion Searches SearchFacts SearchSpec QueryExec ReplicationSpec.
From S2P Require Import ReplicationLive Estate.
#[local] Set Default Goal Selector "!".
#[local] Set Warnings "-clear-no-such-hyp".
Local Open Scope Z_scope.

(** ** Collections *)

Section collections.
Context `{SerdeNumber} `{Libm} `{TextAnalyzer}.
Variable json_text : Json -> bytes.
Variable now_ms : Z -> Z.
Variable lexical_stats : bool.

Local Abbreviation refines := (Refines json_text now_ms lexical_stats).

(** The members of a collection, in id order. *)
Definition members_of (m : gmap bytes VectorRecord) (name : bytes) : list bytes :=
  (btree_iter (filter (fun p => vr_collection p.2 = Some name) m)).*1.

Lemma elem_of_members_of m name id :
  id ∈ members_of m name <-> exists r, m !! id = Some r /\ vr_collection r = Some name.
Proof.
  unfold members_of. rewrite list_elem_of_fmap. split.
  - intros ([i r] & -> & Hin%elem_of_btree_iter). apply map_lookup_filter_Some in Hin as [??]. eauto.
  - intros (r & Hr & Hc). exists (id, r). rewrite elem_of_btree_iter, map_lookup_filter_Some. done.
Qed.

Lemma collection_members_exact db m log name :
  refines db m log -> searchable m -> nul_free name -> collection_members db name = members_of m name.
Proof.
  intros HR Hs Hn. apply (collection_rows json_text (indexed_fields db)); [apply HR|apply HR|done|done].
Qed.

(** A removal writes the four counters of the meta family, no registration. *)
Lemma remove_meta db m log id k :
  refines db m log -> run_fits [ARemove id] (m, log) ->
  k <> META_DOC_COUNT -> k <> META_TOTAL_TOKENS -> k <> META_SHAPES -> k <> META_FEED_SEQ ->
  (Store.remove json_text now_ms lexical_stats db id).1 CF_META !! k = db CF_META !! k.
Proof.
  intros HR Hf K1 K2 K3 K4. destruct (remove_into_inv json_text now_ms lexical_stats db m (begin db) m log ∅ id)
    as (m' & log' & T & _ & HI & _); [by apply tx_inv_begin|set_solver|done|].
  by apply (commit_keeps json_text now_ms lexical_stats db m _ ∅ m' log' T k HI).
Qed.

Lemma drop_members_refines ids db m log :
  refines db m log -> run_fits (map ARemove ids) (m, log) ->
  refines (drop_members json_text now_ms lexical_stats db ids).1
    (spec_run (map ARemove ids) (m, log)).1 (spec_run (map ARemove ids) (m, log)).2 /\
  graph_run (drop_members json_text now_ms lexical_stats db ids).2 (vr_embedding <$> m)
  = vr_embedding <$> (spec_run (map ARemove ids) (m, log)).1 /\
  (forall k, k <> META_DOC_COUNT -> k <> META_TOTAL_TOKENS -> k <> META_SHAPES -> k <> META_FEED_SEQ ->
    (drop_members json_text now_ms lexical_stats db ids).1 CF_META !! k = db CF_META !! k).
Proof.
  revert db m log. induction ids as [|id ids IH]; intros db m log HR Hf; [by split_and!|].
  cbn [map run_fits] in Hf. destruct Hf as [Hf1 Hf].
  assert (run_fits [ARemove id] (m, log)) as Hrf.
  { split; [done|]. split; [|done]. destruct ids; apply Hf. }
  pose proof (remove_meta db m log id) as Hmeta. cbn [drop_members].
  destruct (Store.remove json_text now_ms lexical_stats db id) as [db1 gops] eqn:E.
  destruct (remove_outcome _ _ _ _ _ _ _ _ _ HR Hrf E) as [HR1 Hg1].
  change (spec_run (map ARemove (id :: ids)) (m, log)) with (spec_run (map ARemove ids) (spec_step (m, log) (ARemove id))).
  change (spec_run [ARemove id] (m, log)) with (spec_step (m, log) (ARemove id)) in HR1, Hg1.
  destruct (spec_step (m, log) (ARemove id)) as [m2 log2] eqn:Es. cbn [fst snd] in HR1, Hg1.
  destruct (IH db1 m2 log2 HR1 Hf) as (HR2 & Hg2 & Hm2).
  destruct (drop_members _ _ _ db1 ids) as [db2 rest]. cbn [fst snd] in *. split; [done|]. split.
  - unfold graph_run in *. rewrite fold_left_app, Hg1. cbn [fold_left graph_step]. rewrite delete_id; [done|].
    rewrite lookup_fmap. cbn in Es. destruct (m !! id) eqn:Em; injection Es as <- <-; [by rewrite lookup_delete_eq|by rewrite Em].
  - intros k K1 K2 K3 K4. by rewrite Hm2, Hmeta.
Qed.

(** Removing present, distinct ids one after the other. *)
Lemma spec_run_removes ids m log :
  NoDup ids -> (forall id, id ∈ ids -> is_Some (m !! id)) ->
  spec_run (map ARemove ids) (m, log) = (filter (fun p => p.1 ∉ ids) m, log ++ map (fun id => (Remove, id)) ids).
Proof.
  revert m log. induction ids as [|id ids IH]; intros m log Hnd Hin.
  - cbn. rewrite app_nil_r, map_filter_id; [done|]. intros i x _. apply not_elem_of_nil.
  - apply NoDup_cons in Hnd as [Hid Hnd]. cbn [map spec_run fold_left spec_step].
    destruct (Hin id) as [r Hr]; [by left|]. rewrite Hr.
    change (fold_left spec_step (map ARemove ids) ?s) with (spec_run (map ARemove ids) s). rewrite IH; [|done|].
    + rewrite <- app_assoc. f_equal. apply map_eq. intros i. apply option_eq. intros x.
      rewrite !map_lookup_filter_Some, lookup_delete_Some, elem_of_cons. cbn. naive_solver.
    + intros i Hi. rewrite lookup_delete_ne by (intros ->; done). apply Hin. by right.
Qed.

Lemma NoDup_btree_keys {A} (f : gmap bytes A) : NoDup (btree_iter f).*1.
Proof. unfold btree_iter. rewrite merge_sort_Permutation. apply NoDup_fst_map_to_list. Qed.

Lemma drop_collection_outcome db m log name :
  refines db m log -> searchable m -> nul_free name ->
  run_fits (map ARemove (members_of m name)) (m, log) ->
  let rest := filter (fun p => vr_collection p.2 <> Some name) m in
  exists db' gops, drop_collection json_text now_ms lexical_stats db name
      = (db', gops, Z.of_nat (length (members_of m name)))
    /\ refines db' rest (log ++ map (fun id => (Remove, id)) (members_of m name))
    /\ graph_run gops (vr_embedding <$> m) = vr_embedding <$> rest
    /\ get_names db' META_COLLECTIONS = filter (fun n => n <> name) (get_names db META_COLLECTIONS)
    /\ (forall other, nul_free other ->
          collection_members db' other = if decide (other = name) then [] else collection_members db other).
Proof.
  intros HR Hs Hn Hf rest. unfold drop_collection. rewrite (collection_members_exact db m log name HR Hs Hn).
  destruct (drop_members_refines _ db m log HR Hf) as (HR' & Hg & Hmeta).
  assert (forall id, id ∈ members_of m name -> is_Some (m !! id)) as Hpresent
    by (intros id (r & Hr & _)%elem_of_members_of; by eexists).
  rewrite (spec_run_removes (members_of m name) m log (NoDup_btree_keys _) Hpresent) in HR', Hg.
  assert (filter (fun p => p.1 ∉ members_of m name) m = rest) as Erest.
  { apply map_eq. intros i. apply option_eq. intros r. unfold rest. rewrite !map_lookup_filter_Some. cbn.
    rewrite elem_of_members_of. naive_solver congruence. }
  cbn [fst snd] in HR', Hg. rewrite Erest in HR', Hg.
  destruct (drop_members _ _ _ db _) as [db' gops]. cbn [fst snd] in *.
  eexists _, gops. split; [done|].
  set (db2 := put_cf db' CF_META META_COLLECTIONS _).
  assert (refines db2 rest (log ++ map (fun id => (Remove, id)) (members_of m name))) as HR2.
  { apply (refines_reg _ _ _ db'); [|done]. unfold db2. split.
    - intros cf Hcf. unfold put_cf, upd_cf. by rewrite decide_False.
    - intros k _ Hk. rewrite lookup_put_cf. rewrite decide_False by (intros [_ ?]; done). done. }
  assert (searchable rest) as Hs2 by (intros i r [Hr _]%map_lookup_filter_Some; by apply (Hs i)).
  split; [done|]. split; [done|]. split.
  - assert (get_names db' META_COLLECTIONS = get_names db META_COLLECTIONS) as <-
      by (unfold get_names, get_cf; by rewrite Hmeta by key_ne).
    unfold get_names at 1, get_cf. unfold db2. by rewrite lookup_put_cf, decide_True by done.
  - intros other Ho. rewrite (collection_members_exact db2 rest _ other HR2 Hs2 Ho). case_decide as Hd.
    + subst other. unfold members_of.
      assert (filter (fun p => vr_collection p.2 = Some name) rest = ∅) as ->; [|done].
      apply map_eq. intros i. rewrite lookup_empty. apply eq_None_not_Some. intros [r Hr].
      unfold rest in Hr. rewrite !map_lookup_filter_Some in Hr. naive_solver.
    + rewrite (collection_members_exact db m log other HR Hs Ho). unfold members_of. do 2 f_equal.
      apply map_eq. intros i. apply option_eq. intros r. unfold rest. rewrite !map_lookup_filter_Some. cbn.
      naive_solver congruence.
Qed.

(** C22: Dropping a collection removes exactly its members: the store then holds
    the rows, counters, frequencies and feed of the map without them, one
    removal per member in id order at the end of the log; the graph is handed
    operations that leave the vectors of the survivors; the count returned is
    the number of members, the name is off the registry and every other
    collection keeps its members. *)
Theorem drop_collection_refines db m log name :
  refines db m log -> searchable m -> nul_free name ->
  run_fits (map ARemove (members_of m name)) (m, log) ->
  let rest := filter (fun p => vr_collection p.2 <> Some name) m in
  exists db' gops, drop_collection json_text now_ms lexical_stats db name
      = (db', gops, Z.of_nat (length (members_of m name)))
    /\ refines db' rest (log ++ map (fun id => (Remove, id)) (members_of m name))
    /\ graph_run gops (vr_embedding <$> m) = vr_embedding <$> rest
    /\ get_names db' META_COLLECTIONS = filter (fun n => n <> name) (get_names db META_COLLECTIONS)
    /\ (forall other, nul_free other ->
          collection_members db' other = if decide (other = name) then [] else collection_members db other).
Proof. apply drop_collection_outcome. Qed.
End collections.

(** ** Aliases *)

Section registry.
Context `{SerdeNumber} `{Libm} `{TextAnalyzer}.
Variable json_text : Json -> bytes.
Variable now_ms : Z -> Z.
Variable lexical_stats : bool.

Local Abbreviation refines := (Refines json_text now_ms lexical_stats).

(** The rows of the meta family a refinement speaks of. *)
Definition counted (k : bytes) : Prop :=
  k ∈ [META_DOC_COUNT; META_TOTAL_TOKENS; META_SHAPES; META_FEED_SEQ; META_PIDX].

Lemma refines_put_meta db m log k v : ~ counted k -> refines db m log -> refines (put_cf db CF_META k v) m log.
Proof.
  intros Hk [A B C D E F]. unfold counted in Hk. rewrite !not_elem_of_cons in Hk. destruct Hk as (K1 & K2 & K3 & K4 & K5 & _).
  assert (forall k', k' ∈ [META_DOC_COUNT; META_TOTAL_TOKENS; META_SHAPES; META_FEED_SEQ; META_PIDX] ->
    put_cf db CF_META k v CF_META !! k' = db CF_META !! k') as Hm.
  { intros k' Hin. rewrite lookup_put_cf. rewrite decide_False; [done|]. intros [_ <-].
    rewrite !elem_of_cons in Hin. destruct Hin as [->|[->|[->|[->|[->|Hin]]]]]; [done..|]. by apply elem_of_nil in Hin. }
  assert (forall cf, cf <> CF_META -> put_cf db CF_META k v cf = db cf) as Hcf.
  { intros cf Hne. unfold put_cf, upd_cf. by rewrite decide_False. }
  assert (indexed_fields (put_cf db CF_META k v) = indexed_fields db) as Hi.
  { unfold indexed_fields, get_names, get_cf. by rewrite Hm by (by repeat (first [left|right])). }
  unfold get_u64, get_shapes, get_cf in *. split.
  - done.
  - rewrite Hi. eapply rows_ok_cf; [|exact B]. intros cf ?%data_not_meta. by apply Hcf.
  - unfold get_u64, get_shapes, get_cf. by rewrite !Hm by (by repeat (first [left; done|right])).
  - intros Hls t. unfold tdf. rewrite Hcf by done. by apply D.
  - unfold feed_ok. rewrite Hcf by done. done.
  - unfold get_u64, get_cf. by rewrite Hm by (by repeat (first [left; done|right])).
Qed.

(** A family outside the refinement may change. *)
Lemma refines_other cf0 db db' m log : data_cf cf0 = false -> cf0 <> CF_META -> cf0 <> CF_FEED -> cf0 <> CF_TDF ->
  (forall cf, cf <> cf0 -> db' cf = db cf) -> refines db m log -> refines db' m log.
Proof.
  intros Hd0 Hm Hf Ht Hcf [A B C D E F].
  assert (forall k, get_cf db' CF_META k = get_cf db CF_META k) as Hk by (intros; unfold get_cf; by rewrite Hcf).
  assert (indexed_fields db' = indexed_fields db) as Hi by (unfold indexed_fields, get_names; by rewrite Hk).
  split.
  - done.
  - rewrite Hi. eapply rows_ok_cf; [|exact B]. intros cf Hd. apply Hcf. intros ->. by rewrite Hd0 in Hd.
  - unfold get_u64, get_shapes in *. by rewrite !Hk.
  - intros Hls t. unfold tdf. rewrite Hcf by done. by apply D.
  - unfold feed_ok. by rewrite Hcf.
  - unfold get_u64 in *. by rewrite Hk.
Qed.

Lemma get_aliases_put db m : get_aliases (put_cf db CF_META META_ALIASES (RAliases m)) = m.
Proof. unfold get_aliases, get_cf. by rewrite lookup_put_cf, decide_True. Qed.
Lemma get_schema_put db m : get_schema (put_cf db CF_META META_SCHEMA (RSchema m)) = m.
Proof. unfold get_schema, get_cf. by rewrite lookup_put_cf, decide_True. Qed.

Lemma alias_not_counted : ~ counted META_ALIASES.
Proof. refine (bool_decide_eq_false_1 _ _). vm_compute. reflexivity. Qed.
Lemma schema_not_counted : ~ counted META_SCHEMA.
Proof. refine (bool_decide_eq_false_1 _ _). vm_compute. reflexivity. Qed.

(** Creating or repointing an alias changes what that one name resolves to,
    deleting it makes the name its own collection again; neither touches a
    document. *)
Lemma alias_exact db m log a c name :
  refines db m log ->
  resolve_alias (create_alias db a c) name = (if decide (name = a) then c else resolve_alias db name)
  /\ resolve_alias (delete_alias db a) name = (if decide (name = a) then a else resolve_alias db name)
  /\ refines (create_alias db a c) m log /\ refines (delete_alias db a) m log.
Proof.
  intros HR. unfold resolve_alias, create_alias, delete_alias. rewrite !get_aliases_put.
  rewrite lookup_insert, lookup_delete. split_and!.
  - destruct (decide (a = name)) as [->|]; [by rewrite decide_True|by rewrite decide_False by congruence].
  - destruct (decide (a = name)) as [->|]; [by rewrite decide_True|by rewrite decide_False by congruence].
  - by apply refines_put_meta; [apply alias_not_counted|].
  - by apply refines_put_meta; [apply alias_not_counted|].
Qed.

(** ** Declared fields *)

Definition declared (db : Db) (c f : bytes) : option bytes := get_schema db !! c ≫= fun fields => fields !! f.

(** What the write path enforces, in terms of the declarations. *)
Lemma schema_ok_declared db r :
  schema_ok (get_schema db) r <->
  forall c f ty v, vr_collection r = Some c -> declared db c f = Some ty ->
    vr_metadata r !! f = Some v -> value_matches_type v ty = true.
Proof.
  unfold schema_ok, declared. split.
  - intros Hs c f ty v Hc (fields & Hf & Ht)%bind_Some Hv. by eapply Hs.
  - intros Hs c fields f ty v Hc Hf Ht Hv. eapply Hs; [done| |done]. apply bind_Some. eauto.
Qed.

Lemma declared_fields_outcome db m log c f ty :
  refines db m log ->
  (match define_field db c f ty with
   | (db', Ok _) => is_Some (field_type_of ty) /\ refines db' m log /\
       (forall c' f', declared db' c' f' = if decide (c' = c /\ f' = f) then Some ty else declared db c' f') /\
       (forall r, schema_ok (get_schema db') r <->
          forall c' f' ty' v, vr_collection r = Some c' ->
            (if decide (c' = c /\ f' = f) then Some ty else declared db c' f') = Some ty' ->
            vr_metadata r !! f' = Some v -> value_matches_type v ty' = true)
   | (db', Err e) => db' = db /\ field_type_of ty = None /\ e = UnknownFieldType ty
   end)
  /\ refines (remove_field db c f) m log
  /\ (forall c' f', declared (remove_field db c f) c' f' = if decide (c' = c /\ f' = f) then None else declared db c' f').
Proof.
  intros HR. split_and!.
  - unfold define_field. destruct (field_type_of ty) as [t|] eqn:Et; [|done].
    set (db' := put_cf db CF_META META_SCHEMA _).
    assert (forall c' f', declared db' c' f' = if decide (c' = c /\ f' = f) then Some ty else declared db c' f') as Hd.
    { intros c' f'. unfold declared, db'. rewrite get_schema_put. unfold Schema. rewrite lookup_insert.
      destruct (decide (c = c')) as [<-|].
      - cbn. rewrite lookup_insert. destruct (decide (f = f')) as [<-|]; [by rewrite decide_True|].
        rewrite decide_False by naive_solver. match goal with |- context [default ∅ ?x] => destruct x end; cbn; by rewrite ?lookup_empty.
      - by rewrite decide_False by naive_solver. }
    split; [by eexists|]. split; [by apply refines_put_meta; [apply schema_not_counted|]|]. split; [done|].
    intros r. rewrite schema_ok_declared. by setoid_rewrite Hd.
  - by apply refines_put_meta; [apply schema_not_counted|].
  - intros c' f'. unfold declared, remove_field. rewrite get_schema_put.
    destruct (get_schema db !! c) as [fields|] eqn:Ec; unfold Schema in *.
    + case_bool_decide as He.
      * rewrite lookup_delete. destruct (decide (c = c')) as [<-|]; [|by rewrite decide_False by naive_solver].
        cbn. rewrite Ec. cbn. destruct (decide (f' = f)) as [->|]; [by rewrite decide_True|].
        rewrite decide_False by naive_solver. rewrite <- (lookup_delete_ne fields f f') by done. by rewrite He, lookup_empty.
      * rewrite lookup_insert. destruct (decide (c = c')) as [<-|]; [|by rewrite decide_False by naive_solver].
        cbn. rewrite Ec. cbn. rewrite lookup_delete. destruct (decide (f = f')) as [<-|]; [by rewrite decide_True|].
        by rewrite decide_False by naive_solver.
    + case_decide as Hd; [|done]. destruct Hd as [-> ->]. by rewrite Ec.
Qed.

(** Declaring a field makes its type, one of the known ones, the
    declaration of that field of that collection, in place of an earlier one,
    and removing it leaves it undeclared; every other declaration stays, no
    document changes, and an unknown type is refused and writes nothing. An
    upsert is then refused exactly for the values of another type. *)
Theorem declared_fields_exact db m log c f ty :
  refines db m log ->
  (match define_field db c f ty with
   | (db', Ok _) => is_Some (field_type_of ty) /\ refines db' m log /\
       (forall c' f', declared db' c' f' = if decide (c' = c /\ f' = f) then Some ty else declared db c' f') /\
       (forall r, schema_ok (get_schema db') r <->
          forall c' f' ty' v, vr_collection r = Some c' ->
            (if decide (c' = c /\ f' = f) then Some ty else declared db c' f') = Some ty' ->
            vr_metadata r !! f' = Some v -> value_matches_type v ty' = true)
   | (db', Err e) => db' = db /\ field_type_of ty = None /\ e = UnknownFieldType ty
   end)
  /\ refines (remove_field db c f) m log
  /\ (forall c' f', declared (remove_field db c f) c' f' = if decide (c' = c /\ f' = f) then None else declared db c' f').
Proof. apply declared_fields_outcome. Qed.
End registry.

(** ** Families of two-part keys *)

Section two_parts.
Context `{SerdeNumber}.

(** The rows of one head, as their tails. *)
Lemma scan_head (db : Db) (cf : CF) (h : bytes) :
  exists l, scan_prefix db cf (prefix h) = map (fun p => (h ++ SEP :: p.1, p.2)) l
    /\ StronglySorted key_lt l /\ (forall x v, (x, v) ∈ l <-> db cf !! (h ++ SEP :: x) = Some v).
Proof.
  exists (map (fun p => (drop (S (length h)) p.1, p.2)) (scan_prefix db cf (prefix h))).
  assert (forall k v, (k, v) ∈ scan_prefix db cf (prefix h) -> exists x, k = h ++ SEP :: x) as Hk.
  { intros k v [_ [x ->]]%elem_of_scan_prefix. exists x. unfold prefix. by rewrite <- app_assoc. }
  assert (forall x, drop (S (length h)) (h ++ SEP :: x) = x) as Hd.
  { intros x. rewrite drop_app_ge by lia. by replace (S (length h) - length h)%nat with 1%nat by lia. }
  split_and!.
  - rewrite map_map. rewrite <- (map_id (scan_prefix db cf (prefix h))) at 1. apply map_ext_in.
    intros [k v] Hin%list_elem_of_In. destruct (Hk k v Hin) as [x ->]. cbn [fst snd]. by rewrite Hd.
  - pose proof (scan_prefix_sorted db cf (prefix h)) as Hs.
    induction Hs as [|[k v] l Hs IH Hall]; cbn [map]; constructor; [apply IH; intros; eapply Hk; by right|].
    rewrite Forall_forall in *. intros [x w] ([k2 w2] & [= -> ->] & Hin)%list_elem_of_fmap.
    destruct (Hk k v) as [x1 ->]; [by left|]. destruct (Hk k2 w2) as [x2 ->]; [by right|].
    specialize (Hall _ Hin). unfold key_lt, blt in *. cbn [fst snd] in *. rewrite !Hd.
    rewrite bcmp_app_same in Hall. cbn in Hall. exact Hall.
  - intros x v. rewrite list_elem_of_fmap. split.
    + intros ([k w] & [= -> ->] & Hin). destruct (Hk _ _ Hin) as [x ->]. rewrite Hd. by apply elem_of_scan_prefix in Hin as [? _].
    + intros Hv. exists (h ++ SEP :: x, v). cbn [fst snd]. rewrite Hd. split; [done|]. apply elem_of_scan_prefix.
      split; [done|]. exists x. unfold prefix. by rewrite <- app_assoc.
Qed.

(** Heads come in order: the separator is below every other byte. *)
Lemma head_order a b x y :
  nul_free a -> nul_free b -> Forall is_byte a -> Forall is_byte b ->
  blt (a ++ SEP :: x) (b ++ SEP :: y) -> ble a b.
Proof.
  revert b. induction a as [|u a IH]; intros b Ha Hb Ba Bb; [intros _; by destruct b|].
  destruct b as [|v b].
  - unfold blt. cbn. apply Forall_cons in Ba as [Bu _]. unfold nul_free, SEP in Ha. unfold is_byte in Bu.
    destruct (Z.compare_spec u SEP); unfold SEP in *; try done; [subst; destruct Ha; by left|lia].
  - unfold blt, ble. cbn. destruct (u ?= v); [|done|done]. intros Hlt.
    apply Forall_cons in Ba as [_ Ba]. apply Forall_cons in Bb as [_ Bb].
    apply IH; [|..|done]; try done; unfold nul_free in *; intros Hin; [apply Ha|apply Hb]; by right.
Qed.

(** Skipping repeats of an ascending list of heads. *)
Lemma last_snoc_elem {A} (l : list A) x : last (l ++ [x]) = Some x.
Proof. by rewrite last_snoc. Qed.

Lemma push_distinct_sorted out names :
  StronglySorted blt out -> StronglySorted ble names -> (forall x y, x ∈ out -> y ∈ names -> ble x y) ->
  StronglySorted blt (fold_left push_distinct names out) /\
  (forall x, x ∈ fold_left push_distinct names out <-> x ∈ out \/ x ∈ names).
Proof.
  revert out. induction names as [|n names IH]; intros out Ho Hn Hb; cbn [fold_left].
  - split; [done|]. intros x. rewrite elem_of_nil. tauto.
  - apply StronglySorted_inv in Hn as [Hn Hall]. rewrite Forall_forall in Hall.
    assert (n ∈ out /\ push_distinct out n = out \/ (forall x, x ∈ out -> blt x n) /\ push_distinct out n = out ++ [n]) as Hpush.
    { unfold push_distinct. destruct (last out) as [l|] eqn:El.
      - apply last_Some in El as [out' ->]. case_bool_decide as Hd.
        + subst l. left. split; [apply elem_of_app; right; by left|done].
        + right. split; [|done]. assert (blt l n) as Hl.
          { destruct (proj1 (ble_lteq l n)) as [?|?]; [apply Hb; [apply elem_of_app; right; by left|by left]|done|done]. }
          intros x [Hx|Hx%list_elem_of_singleton]%elem_of_app; [|by subst].
          apply StronglySorted_app in Ho as (Hx' & _ & _). etrans; [|done]. apply Hx'; [done|by left].
      - apply last_None in El as ->. right. split; [|done]. by intros x ?%elem_of_nil. }
    destruct Hpush as [[Hin ->]|[Hlt ->]].
    + destruct (IH out) as [IH1 IH2]; [done|done|intros x y Hx Hy; apply Hb; [done|by right]|].
      split; [done|]. intros x. rewrite IH2, elem_of_cons. naive_solver.
    + destruct (IH (out ++ [n])) as [IH1 IH2]; [|done| |].
      * apply StronglySorted_app. split_and!; [|done|by repeat constructor].
        intros x y Hx ->%list_elem_of_singleton. by apply Hlt.
      * intros x y [Hx|Hx%list_elem_of_singleton]%elem_of_app Hy; [apply Hb; [done|by right]|subst; by apply Hall].
      * split; [done|]. intros x. rewrite IH2. set_solver.
Qed.

Definition good_head (a : bytes) : Prop := nul_free a /\ Forall is_byte a /\ valid_utf8 a = true.

Lemma first_parts_heads (ps : list (bytes * bytes * Row)) :
  (forall p, p ∈ ps -> good_head p.1.1) ->
  first_parts (map (fun p => (p.1.1 ++ SEP :: p.1.2, p.2)) ps) = fold_left push_distinct (map (fun p => p.1.1) ps) [].
Proof.
  unfold first_parts. generalize (@nil bytes) as out. induction ps as [|[[a x] v] ps IH]; intros out Hg; [done|].
  cbn [map fold_left fst snd]. destruct (Hg (a, x, v)) as (Ha & _ & Ua); [by left|]. cbn in Ha, Ua.
  rewrite split_compound_at, lossy_valid by done. apply IH. intros p Hp. apply Hg. by right.
Qed.

(** The names of a family whose keys have good heads: each once, ascending. *)
Lemma first_parts_exact (db : Db) (cf : CF) :
  (forall k v, db cf !! k = Some v -> exists a x, k = a ++ SEP :: x /\ good_head a) ->
  StronglySorted blt (first_parts (iter_all db cf)) /\
  (forall a, nul_free a -> a ∈ first_parts (iter_all db cf) <-> exists x v, db cf !! (a ++ SEP :: x) = Some v).
Proof.
  intros Hk. assert (forall rows, (forall k v, (k, v) ∈ rows -> exists a x, k = a ++ SEP :: x /\ good_head a) ->
    exists ps : list (bytes * bytes * Row), rows = map (fun p => (p.1.1 ++ SEP :: p.1.2, p.2)) ps /\
      forall p, p ∈ ps -> good_head p.1.1) as Hps.
  { induction rows as [|[k v] rows IH]; intros Hr; [exists []; split; [done|by intros p ?%elem_of_nil]|].
    destruct IH as (ps & -> & Hg); [intros; eapply Hr; by right|]. destruct (Hr k v) as (a & x & -> & Ha); [by left|].
    exists ((a, x, v) :: ps). split; [done|]. intros p [->|Hp]%elem_of_cons; [done|by apply Hg]. }
  destruct (Hps (iter_all db cf)) as (ps & E & Hg).
  { intros k v Hin. apply elem_of_btree_iter in Hin. by eapply Hk. }
  pose proof (btree_iter_sorted (db cf)) as Hs. fold (iter_all db cf) in Hs. rewrite E in Hs.
  destruct (push_distinct_sorted [] (map (fun p => p.1.1) ps)) as [H1' H2'];
    [constructor| |by intros x y ?%elem_of_nil|].
  { clear -Hs Hg. induction ps as [|[[a x] v] ps IH]; [constructor|]. cbn [map fst snd] in *.
    apply StronglySorted_inv in Hs as [Hs Hall]. constructor; [apply IH; [intros; apply Hg; by right|done]|].
    rewrite Forall_forall in Hall. apply Forall_forall. intros b ([[b' y] w] & -> & Hin)%list_elem_of_fmap. cbn [fst snd].
    destruct (Hg (a, x, v)) as (Ha & Ba & _); [by left|]. destruct (Hg (b', y, w)) as (Hb & Bb & _); [by right|].
    cbn in *. apply (head_order a b' x y); [done..|]. apply (Hall (b' ++ SEP :: y, w)). apply list_elem_of_fmap.
    by exists (b', y, w). }
  assert (first_parts (iter_all db cf) = fold_left push_distinct (map (fun p => p.1.1) ps) []) as ->
    by (rewrite E; by apply first_parts_heads).
  split; [done|]. intros a Ha. rewrite H2', elem_of_nil.
  setoid_rewrite <- elem_of_btree_iter. change (btree_iter (db cf)) with (iter_all db cf). rewrite E. split.
  - intros [[]|([[a' x] v] & -> & Hin)%list_elem_of_fmap]. exists x, v. apply list_elem_of_fmap. by exists (a', x, v).
  - intros (x & v & ([[a' x'] v'] & [= Ea ->] & Hin)%list_elem_of_fmap). right. apply list_elem_of_fmap.
    exists (a', x', v'). split; [|done]. cbn in *. destruct (Hg _ Hin) as (Ha' & _). by apply sep_app_inj in Ea as [-> _].
Qed.
End two_parts.

(** ** Tags *)

Section tags.
Context `{SerdeNumber}.

(** The rows of the tags family are these pairs. *)
Definition tags_ok (db : Db) (T : gset (bytes * bytes)) : Prop :=
  (forall k v, db CF_TAGS !! k = Some v <-> v = RBytes [] /\ exists t id, (t, id) ∈ T /\ k = tag_key t id) /\
  (forall t id, (t, id) ∈ T -> good_head t /\ valid_utf8 id = true).

Lemma tags_row db T t id :
  tags_ok db T -> nul_free t -> is_Some (db CF_TAGS !! tag_key t id) <-> (t, id) ∈ T.
Proof.
  intros [Hrow Hgood] Ht. split.
  - intros [v (_ & t' & id' & Hin & E)%Hrow]. destruct (Hgood _ _ Hin) as [(Ht' & _) _].
    by apply sep_app_inj in E as [-> ->].
  - intros Hin. exists (RBytes []). apply Hrow. split; [done|]. by exists t, id.
Qed.

Lemma tag_one db T t id : tags_ok db T -> good_head t -> valid_utf8 id = true ->
  tags_ok (put_cf db CF_TAGS (tag_key t id) (RBytes [])) ({[(t, id)]} ∪ T).
Proof.
  intros [Hrow Hgood] Ht Hid. split.
  - intros k v. rewrite lookup_put_cf. case_decide as Hd.
    + destruct Hd as [_ ->]. split; [intros [= <-]; split; [done|]; exists t, id; set_solver|].
      by intros [-> _].
    + rewrite Hrow. split; intros (-> & t' & id' & Hin & ->); (split; [done|]); exists t', id'; split; try done; [set_solver|].
      apply elem_of_union in Hin as [[= -> ->]%elem_of_singleton|]; [by destruct Hd|done].
  - intros t' id' [[= -> ->]%elem_of_singleton|Hin]%elem_of_union; [done|by apply Hgood].
Qed.

Lemma tag_many db T id ts : tags_ok db T -> Forall good_head ts -> valid_utf8 id = true ->
  tags_ok (tag db id ts) (list_to_set (map (fun t => (t, id)) ts) ∪ T).
Proof.
  intros HT Hts Hid. unfold tag. revert db T HT. induction Hts as [|t ts Ht Hts IH]; intros db T HT.
  - cbn. by rewrite union_empty_l_L.
  - cbn [fold_left map list_to_set]. assert ({[(t, id)]} ∪ list_to_set (map (fun t => (t, id)) ts) ∪ T
      = list_to_set (map (fun t => (t, id)) ts) ∪ ({[(t, id)]} ∪ T)) as -> by set_solver.
    apply IH. by apply tag_one.
Qed.

Lemma docs_by_tag_ids db T t : tags_ok db T -> nul_free t ->
  StronglySorted blt (docs_by_tag db t) /\ (forall id, id ∈ docs_by_tag db t <-> (t, id) ∈ T).
Proof.
  intros HT Ht. destruct (scan_head db CF_TAGS t) as (l & El & Hs & Hl).
  assert (forall x v, (x, v) ∈ l -> (t, x) ∈ T) as Hin.
  { intros x v Hx. apply Hl in Hx. apply (tags_row db T t x HT Ht). by eexists. }
  assert (docs_by_tag db t = l.*1) as ->.
  { unfold docs_by_tag, tag_prefix. rewrite El. clear El Hl Hs. induction l as [|[x v] l IH]; [done|].
    cbn [map omap list_omap fst snd]. rewrite split_compound_at by done. cbn [fmap option_fmap option_map snd].
    rewrite lossy_valid by (eapply (proj2 HT), Hin; by left).
    cbn [list_fmap fst]. f_equal. apply IH. intros y w Hy. apply (Hin y w). by right. }
  split.
  - clear -Hs. induction Hs as [|[x v] l Hs IH Hall]; cbn; constructor; [done|].
    rewrite Forall_forall in Hall. apply Forall_forall. intros y ([y' w] & -> & Hy)%list_elem_of_fmap. by apply (Hall (y', w)).
  - intros id. rewrite list_elem_of_fmap. split.
    + intros ([x v] & -> & Hx). by eapply Hin.
    + intros Hid. apply (tags_row db T t id HT Ht) in Hid as [v Hv]. exists (id, v). split; [done|]. by apply Hl.
Qed.

(** Tagging is idempotent and adds exactly the pairs of the document and
    the tags; the documents of a tag are listed once each, in id order, and
    counted; the distinct tags are listed once each in order. *)
Theorem tags_exact db T id ts :
  tags_ok db T -> Forall good_head ts -> valid_utf8 id = true ->
  let T' := list_to_set (map (fun t => (t, id)) ts) ∪ T in
  tags_ok (tag db id ts) T'
  /\ (forall t, nul_free t -> StronglySorted blt (docs_by_tag (tag db id ts) t) /\
        (forall x, x ∈ docs_by_tag (tag db id ts) t <-> (t, x) ∈ T') /\
        tag_count (tag db id ts) t = Z.of_nat (size (filter (fun p => p.1 = t) T')))
  /\ StronglySorted blt (tags (tag db id ts))
  /\ (forall t, nul_free t -> t ∈ tags (tag db id ts) <-> exists x, (t, x) ∈ T').
Proof.
  intros HT Hts Hid T'. pose proof (tag_many db T id ts HT Hts Hid) as HT'. fold T' in HT'. split; [done|].
  remember (tag db id ts) as db' eqn:E. clear E HT. split_and!.
  - intros t Ht. destruct (docs_by_tag_ids db' T' t HT' Ht) as [Hs Hm]. split_and!; [done|done|].
    unfold tag_count. f_equal. rewrite <- (length_map (fun x => (t, x))).
    assert (NoDup (docs_by_tag db' t)) as Hnd.
    { clear -Hs. induction Hs as [|x l Hs IH Hall]; constructor; [|done]. intros Hin.
      rewrite Forall_forall in Hall. destruct (blt_irrefl x). by apply Hall. }
    assert (filter (fun p => p.1 = t) T' = list_to_set (map (fun x => (t, x)) (docs_by_tag db' t))) as ->.
    { apply set_eq. intros [u x]. rewrite elem_of_filter, elem_of_list_to_set, list_elem_of_fmap. cbn. split.
      - intros [-> Hin]. exists x. split; [done|]. by apply Hm.
      - intros (y & [= -> ->] & Hy). split; [done|]. by apply Hm. }
    rewrite size_list_to_set; [done|]. apply NoDup_fmap; [|done]. by intros x y [=].
  - apply first_parts_exact. intros k v (_ & t & x & Hin & ->)%(proj1 HT'). exists t, x. split; [done|]. by eapply (proj2 HT').
  - intros t Ht. unfold tags. destruct (first_parts_exact db' CF_TAGS) as [_ Hf].
    { intros k v (_ & u & x & Hin & ->)%(proj1 HT'). exists u, x. split; [done|]. by eapply (proj2 HT'). }
    rewrite Hf by done. split.
    + intros (x & v & Hv). exists x. apply (tags_row db' T' t x HT' Ht). by eexists.
    + intros (x & Hx). apply (tags_row db' T' t x HT' Ht) in Hx as [v Hv]. by exists x, v.
Qed.
End tags.

(** ** Concrete runs *)

Section Witnesses.
#[local] Existing Instances plain_number flat_libm.
#[local] Instance one_token_estate : TextAnalyzer := fun t => [t].

Lemma m1_searchable : searchable m1.1.
Proof.
  assert (forall id r, m1.1 !! id = Some r -> r = cat \/ r = dog) as Hm.
  { unfold m1. cbn [map spec_run fold_left spec_step fst]. intros id r [[_ <-]|[_ Hr]]%lookup_insert_Some; [by right|].
    apply lookup_insert_Some in Hr as [[_ <-]|[_ Hr]]; [by left|]. by rewrite lookup_empty in Hr. }
  assert (forall n (e : list f32), (∅ : gmap bytes (list f32)) !! n = Some e -> nul_free n /\ Forall f32_ok e) as He
    by (intros n e Hn; by rewrite lookup_empty in Hn).
  intros id r [-> | ->]%Hm; (split;
    [reflexivity|refine (bool_decide_eq_true_1 _ _); vm_compute; reflexivity|reflexivity
    |exact He|exact NoDup_nil_2|apply List.Forall_nil|apply List.Forall_nil|refine (bool_decide_eq_true_1 _ _); vm_compute; reflexivity
    |intros c [= <-]; refine (bool_decide_eq_true_1 _ _); vm_compute; reflexivity
    |split; [apply List.Forall_nil|by split_and!]]).
Qed.

(** Dropping the only collection of a store of two documents. *)
Lemma drop_collection_refines_witness :
  exists db' gops, drop_collection no_text no_clock true db1 (str "docs") = (db', gops, 2)
    /\ Refines no_text no_clock true db' (filter (fun p => vr_collection p.2 <> Some (str "docs")) m1.1)
         (m1.2 ++ map (fun id => (Remove, id)) (members_of m1.1 (str "docs")))
    /\ collection_members db' (str "docs") = [].
Proof.
  assert (members_of m1.1 (str "docs") = [str "cat"; str "dog"]) as Em by (vm_compute; reflexivity).
  destruct (drop_collection_refines no_text no_clock true db1 m1.1 m1.2 (str "docs")) as (db' & gops & E & HR & _ & _ & Hm).
  - apply db1_refines.
  - apply m1_searchable.
  - refine (bool_decide_eq_true_1 _ _). vm_compute. reflexivity.
  - rewrite Em. repeat split; vm_compute; reflexivity.
  - exists db', gops. split; [rewrite E, Em; reflexivity|]. split; [done|].
    rewrite Hm by (refine (bool_decide_eq_true_1 _ _); vm_compute; reflexivity). by rewrite decide_True.
Defined.

Lemma declared_fields_exact_witness :
  is_ok (define_field db1 (str "docs") (str "kind") (str "int")).2 = true
  /\ Refines no_text no_clock true (remove_field db1 (str "docs") (str "kind")) m1.1 m1.2.
Proof.
  split; [reflexivity|].
  apply (proj1 (proj2 (declared_fields_exact no_text no_clock true db1 m1.1 m1.2 (str "docs") (str "kind") (str "int") db1_refines))).
Defined.

Lemma tags_exact_witness :
  let db := tag db0 (str "cat") [str "pet"; str "furry"] in
  tags db = [str "furry"; str "pet"] /\ tag_count db (str "pet") = 1
  /\ (forall t, nul_free t -> t ∈ tags db <-> exists x, (t, x) ∈ (list_to_set (map (fun t => (t, str "cat")) [str "pet"; str "furry"]) ∪ ∅ : gset (bytes * bytes))).
Proof.
  intros db. split; [vm_compute; reflexivity|]. split; [vm_compute; reflexivity|].
  apply (tags_exact db0 ∅ (str "cat") [str "pet"; str "furry"]).
  - split; [|intros t id Hin; set_solver]. intros k v. unfold db0. rewrite create_other by done. rewrite lookup_empty.
    split; [done|]. intros (_ & t & id & Hin & _). set_solver.
  - repeat constructor; refine (bool_decide_eq_true_1 _ _); vm_compute; reflexivity.
  - reflexivity.
Defined.

(** An update writes a value of another type than the one declared: payload
    mutations do not check the declarations that an upsert checks. *)
Theorem update_bypasses_declared_type :
  let db2 := (define_field db1 (str "docs") (str "kind") (str "string")).1 in
  let bad := JBool true in
  is_ok (upsert no_text (fun _ => 1) no_clock quotas_default true db2 [with_metadata cat {[ str "kind" := bad ]}]).2 = false
  /\ is_ok (set_payload no_text no_clock {[ str "kind" := bad ]} db2 (str "cat")).2 = true
  /\ match get_doc (set_payload no_text no_clock {[ str "kind" := bad ]} db2 (str "cat")).1 (str "cat") with
     | Some d => match sd_metadata d !! str "kind" with Some (JBool b) => b | _ => false end
     | None => false
     end = true.
Proof. split; [|split]; vm_compute; reflexivity. Qed.

(** A removed document keeps its tags. *)
Theorem removed_document_stays_tagged :
  let db := (Store.remove no_text no_clock true (tag db1 (str "cat") [str "pet"]) (str "cat")).1 in
  match get_doc db (str "cat") with Some _ => true | None => false end = false /\ docs_by_tag db (str "pet") = [str "cat"].
Proof. split; vm_compute; reflexivity. Qed.
End Witnesses.
