(* ===== verification/EstateReports.v ===== *)
(** * Trends, samples and health reports of an estate

    A recorded series comes back in time order; a sample is a reservoir of
    stored documents; and the health report counts what the store holds. *)
From S2P Require Import Prelude Floats ByteOrder Utf8 Json RroTime Geo Query Heap Quant AnnStore.
From S2P Require Import Ann Keys KeysFacts Model.
From S2P Require Import Kv Pending Store StoreFacts StoreTx StoreSpec.
From S2P Require Import Fusion Searches SearchFacts SearchSpec QueryExec ReplicationSpec.
From S2P Require Import Estate EstateSpec.
#[local] Set Default Goal Selector "!".
#[local] Set Warnings "-clear-no-such-hyp".
Local Open Scope Z_scope.

(** ** Trends *)

Section trends.
Context `{SerdeNumber}.

(** The rows of the trends family are these samples, by metric and time. *)
Definition trends_ok (db : Db) (W : gmap bytes (gmap Z f64)) : Prop :=
  (forall k v, db CF_TRENDS !! k = Some v <->
     exists metric ns x, (s ← W !! metric; s !! ns) = Some x /\ k = trend_key metric ns /\ v = RBytes (le_bytes 8 (f64_to_bits x))) /\
  (forall metric ns x, (s ← W !! metric; s !! ns) = Some x ->
     good_head metric /\ 0 <= ns < 2 ^ 64 /\ f64_valid x = true /\ is_nan x = false).

Definition sample_at (W : gmap bytes (gmap Z f64)) (metric : bytes) (ns : Z) : option f64 := s ← W !! metric; s !! ns.
Definition add_sample (W : gmap bytes (gmap Z f64)) (metric : bytes) (ns : Z) (x : f64) : gmap bytes (gmap Z f64) :=
  <[metric := <[ns := x]> (default ∅ (W !! metric))]> W.

Lemma sample_at_add W metric ns x metric' ns' :
  sample_at (add_sample W metric ns x) metric' ns' = if decide (metric' = metric /\ ns' = ns) then Some x else sample_at W metric' ns'.
Proof.
  unfold sample_at, add_sample. rewrite lookup_insert. destruct (decide (metric = metric')) as [<-|].
  - cbn. rewrite lookup_insert. destruct (decide (ns = ns')) as [<-|]; [by rewrite decide_True|].
    rewrite decide_False by naive_solver. destruct (W !! metric); cbn; [done|apply lookup_empty].
  - by rewrite decide_False by naive_solver.
Qed.

Lemma be8_range ns : 0 <= ns < 2 ^ 64 -> from_be_bytes (be_bytes 8 ns) = ns.
Proof. intros Hn. apply from_be_be_bytes. change (256 ^ Z.of_nat 8) with (2 ^ 64). lia. Qed.

Lemma trend_key_inj a b x y : nul_free a -> nul_free b -> 0 <= x < 2 ^ 64 -> 0 <= y < 2 ^ 64 ->
  trend_key a x = trend_key b y -> a = b /\ x = y.
Proof.
  intros Ha Hb Hx Hy E. apply sep_app_inj in E as [-> E]; [|done|done]. split; [done|].
  rewrite <- (be8_range x), <- (be8_range y) by done. by rewrite E.
Qed.

Lemma record_trend_ok db W metric ns x :
  trends_ok db W -> good_head metric -> 0 <= ns < 2 ^ 64 -> f64_valid x = true -> is_nan x = false ->
  trends_ok (record_trend ns db metric x) (add_sample W metric ns x).
Proof.
  intros [Hrow Hgood] Hm Hn Hv Hnan. split.
  - intros k v. unfold record_trend. rewrite lookup_put_cf. case_decide as Hd.
    + destruct Hd as [_ ->]. split.
      * intros [= <-]. exists metric, ns, x. split; [|done]. pose proof (sample_at_add W metric ns x metric ns) as E.
        unfold sample_at in E. by rewrite E, decide_True.
      * intros (a & y & z & Hz & E & ->). pose proof (sample_at_add W metric ns x a y) as Ez. unfold sample_at in Ez. rewrite Ez in Hz.
        case_decide as Hd; [by injection Hz as ->|]. destruct (Hgood _ _ _ Hz) as (Ha & Hy & _).
        apply trend_key_inj in E as [-> ->]; [by destruct Hd|apply Hm|apply Ha|done|done].
    + rewrite Hrow. split; intros (a & y & z & Hz & -> & ->); exists a, y, z; (split; [|done]).
      * pose proof (sample_at_add W metric ns x a y) as Ez. unfold sample_at in Ez. rewrite Ez, decide_False; [done|].
        intros [-> ->]. by destruct Hd.
      * pose proof (sample_at_add W metric ns x a y) as Ez. unfold sample_at in Ez. rewrite Ez in Hz.
        case_decide as Hd'; [|done]. destruct Hd' as [-> ->]. by destruct Hd.
  - intros a y z Hz. pose proof (sample_at_add W metric ns x a y) as Ez. unfold sample_at in Ez. rewrite Ez in Hz.
    case_decide as Hd; [|by apply (Hgood a y)]. destruct Hd as [-> ->]. injection Hz as <-. done.
Qed.

Lemma trend_point_row h ns x : 0 <= ns < 2 ^ 64 -> f64_valid x = true -> is_nan x = false ->
  trend_point (length (prefix h)) (h ++ SEP :: be_bytes 8 ns, RBytes (le_bytes 8 (f64_to_bits x)))
  = Some (mkTrendPoint (ns / 1000000) x).
Proof.
  intros Hn Hv Hnan. unfold trend_point. cbn [fst snd].
  assert (drop (length (prefix h)) (h ++ SEP :: be_bytes 8 ns) = be_bytes 8 ns) as ->.
  { unfold prefix. rewrite length_app. cbn [length]. rewrite drop_app_ge by lia.
    by replace (length h + 1 - length h)%nat with 1%nat by lia. }
  rewrite length_be_bytes. cbn [Nat.eqb]. rewrite take_ge by (by rewrite length_le_bytes). rewrite length_le_bytes. cbn [Nat.eqb].
  rewrite be8_range by done. do 2 f_equal. rewrite from_le_le_bytes; [by apply f64_from_to_bits|].
  change (256 ^ Z.of_nat 8) with (2 ^ 64). rewrite f64_bits. pose proof (f64_mag_bounds x Hv). destruct (sign_of x); lia.
Qed.

(** The series of one metric, by time. *)
Lemma trend_series db W metric : trends_ok db W -> nul_free metric ->
  exists l : list (Z * f64), trend db metric = Some (map (fun p => mkTrendPoint (p.1 / 1000000) p.2) l)
    /\ StronglySorted Z.lt l.*1 /\ (forall ns x, (ns, x) ∈ l <-> sample_at W metric ns = Some x).
Proof.
  intros [Hrow Hgood] Hm. destruct (scan_head db CF_TRENDS metric) as (rows & Es & Hs & Hl).
  assert (forall k v, (k, v) ∈ rows -> exists ns x, sample_at W metric ns = Some x /\ k = be_bytes 8 ns /\ v = RBytes (le_bytes 8 (f64_to_bits x))) as Hr.
  { intros k v (a & ns & x & Hx & E & ->)%Hl%Hrow. destruct (Hgood _ _ _ Hx) as ((Ha & _) & _).
    apply sep_app_inj in E as [<- ->]; [|done|done]. by exists ns, x. }
  assert (exists l : list (Z * f64), rows = map (fun p => (be_bytes 8 p.1, RBytes (le_bytes 8 (f64_to_bits p.2)))) l
    /\ Forall (fun p => sample_at W metric p.1 = Some p.2) l) as (l & -> & Hall).
  { clear Es Hs Hl. induction rows as [|[k v] rows IH]; [by exists []|].
    destruct IH as (l & -> & Hl); [intros k' v' Hin; apply (Hr k' v'); by right|].
    destruct (Hr k v) as (ns & x & Hx & -> & ->); [by left|]. exists ((ns, x) :: l). split; [done|by constructor]. }
  rewrite Forall_forall in Hall.
  assert (forall p, p ∈ l -> 0 <= p.1 < 2 ^ 64 /\ f64_valid p.2 = true /\ is_nan p.2 = false) as Hok.
  { intros p Hp. destruct (Hgood metric p.1 p.2) as (_ & ?); [by apply Hall|done]. }
  exists l. split_and!.
  - unfold trend, trend_prefix. cbn zeta. rewrite Es, map_map. clear -Hok. apply mapM_Some_2.
    induction l as [|[ns x] l IH]; cbn [map fst snd]; [constructor|].
    destruct (Hok (ns, x)) as (Hn & Hv & Hx); [by left|].
    constructor; [by apply trend_point_row|]. apply IH. intros p Hp. apply Hok. by right.
  - clear -Hs Hok. induction l as [|[ns x] l IH]; [constructor|]. cbn [map fst snd list_fmap fmap] in *.
    apply StronglySorted_inv in Hs as [Hs Hall]. constructor; [apply IH; [done|intros p Hp; apply Hok; by right]|].
    rewrite Forall_forall in Hall. apply Forall_forall. intros y ([y' w] & -> & Hin)%list_elem_of_fmap.
    destruct (Hok (ns, x)) as (Hn & _); [by left|]. destruct (Hok (y', w)) as (Hy & _); [by right|]. cbn in *.
    specialize (Hall (be_bytes 8 y', RBytes (le_bytes 8 (f64_to_bits w)))).
    assert (key_lt (be_bytes 8 ns, RBytes (le_bytes 8 (f64_to_bits x))) (be_bytes 8 y', RBytes (le_bytes 8 (f64_to_bits w)))) as Hlt.
    { apply Hall. apply list_elem_of_fmap. by exists (y', w). }
    unfold key_lt, blt in Hlt. cbn [fst] in Hlt. rewrite bcmp_be_bytes in Hlt; [by apply Z.compare_lt_iff|change (256 ^ Z.of_nat 8) with (2 ^ 64); lia..].
  - intros ns x. split; [intros Hin; by apply (Hall (ns, x))|]. intros Hx.
    assert ((be_bytes 8 ns, RBytes (le_bytes 8 (f64_to_bits x))) ∈ map (fun p : Z * f64 => (be_bytes 8 p.1, RBytes (le_bytes 8 (f64_to_bits p.2)))) l) as Hin.
    { apply Hl, Hrow. by exists metric, ns, x. }
    apply list_elem_of_fmap in Hin as ([y w] & E & Hin).
    apply (f_equal fst) in E. cbn [fst] in E.
    assert (y = ns) as ->.
    { destruct (Hgood metric ns x Hx) as (_ & Hn & _). destruct (Hok _ Hin) as (Hy & _). cbn in Hy.
      rewrite <- (be8_range y), <- (be8_range ns) by done. by rewrite <- E. }
    pose proof (Hall _ Hin) as Hw. cbn in Hw. rewrite Hx in Hw. by injection Hw as ->.
Qed.

(** A sample recorded for a metric joins its series and no other; a series
    read back is every sample recorded under that metric, with the value it was
    recorded with and its time to the millisecond, oldest first; and the
    metrics with a series are listed once each in order. *)
Theorem trends_roundtrip db W metric ns x :
  trends_ok db W -> good_head metric -> 0 <= ns < 2 ^ 64 -> f64_valid x = true -> is_nan x = false ->
  let db' := record_trend ns db metric x in
  (forall other, nul_free other -> exists l : list (Z * f64),
     trend db' other = Some (map (fun p => mkTrendPoint (p.1 / 1000000) p.2) l)
     /\ StronglySorted Z.lt l.*1
     /\ (forall at_ns y, (at_ns, y) ∈ l <->
           (if decide (other = metric /\ at_ns = ns) then Some x else sample_at W other at_ns) = Some y))
  /\ StronglySorted blt (trend_metrics db')
  /\ (forall other, nul_free other -> other ∈ trend_metrics db' <-> exists at_ns y, sample_at (add_sample W metric ns x) other at_ns = Some y).
Proof.
  intros HT Hm Hn Hv Hx db'. pose proof (record_trend_ok db W metric ns x HT Hm Hn Hv Hx) as HT'. fold db' in HT'. split_and!.
  - intros other Ho. destruct (trend_series db' _ other HT' Ho) as (l & E & Hs & Hl). exists l. split_and!; [done|done|].
    intros at_ns y. by rewrite Hl, sample_at_add.
  - apply first_parts_exact. intros k v (a & y & z & Hz & -> & _)%(proj1 HT'). exists a, (be_bytes 8 y). split; [done|]. by eapply (proj2 HT').
  - intros other Ho. unfold trend_metrics. destruct (first_parts_exact db' CF_TRENDS) as [_ Hf].
    { intros k v (a & y & z & Hz & -> & _)%(proj1 HT'). exists a, (be_bytes 8 y). split; [done|]. by eapply (proj2 HT'). }
    rewrite Hf by done. split.
    + intros (t & v & (a & y & z & Hz & E & _)%(proj1 HT')). destruct (proj2 HT' _ _ _ Hz) as ((Ha & _) & _).
      apply sep_app_inj in E as [<- ->]; [|done|done]. by exists y, z.
    + intros (y & z & Hz). exists (be_bytes 8 y), (RBytes (le_bytes 8 (f64_to_bits z))). apply (proj1 HT'). by exists other, y, z.
Qed.
End trends.

(** ** Sampling *)

Section sampling.
Context `{SerdeNumber}.

(** Whatever numbers are drawn, the reservoir is part of the documents seen. *)
Lemma sample_step_ok n done_ d st :
  (0 < n)%nat -> st.1.1 ⊆+ done_ -> length st.1.1 = Nat.min n (length done_) ->
  (sample_step n st d).1.1 ⊆+ done_ ++ [d] /\ length (sample_step n st d).1.1 = Nat.min n (length (done_ ++ [d])).
Proof.
  destruct st as [[res state] seen]. cbn [fst]. intros Hn Hsub Hlen. unfold sample_step. rewrite length_app. cbn [length].
  destruct (Nat.ltb_spec (length res) n); cbn [fst].
  - rewrite length_app. cbn [length]. split; [by apply submseteq_skips_r|lia].
  - unfold next_below. cbn zeta. destruct (Z.ltb_spec (xorshift state mod Z.max (u64_add seen 1) 1) (Z.of_nat n)); cbn [fst].
    + rewrite length_insert. split; [|lia]. set (j := Z.to_nat _).
      assert (0 <= xorshift state mod Z.max (u64_add seen 1) 1) by (apply Z.mod_pos_bound; lia).
      destruct (lookup_lt_is_Some_2 res j) as [x Hx]; [unfold j; lia|].
      rewrite insert_take_drop by (unfold j; lia). rewrite <- (take_drop_middle res j x Hx) in Hsub.
      rewrite <- Permutation_middle. rewrite (Permutation_app_comm done_ [d]). cbn. apply submseteq_skip.
      etrans; [|exact Hsub]. apply submseteq_app; [done|]. by apply submseteq_cons.
    + split; [by apply submseteq_inserts_r|lia].
Qed.

(** C36: A sample holds as many documents as asked for, or all of them when
    there are fewer, each a stored document and none more often than it is
    stored, whatever the seed. *)
Theorem sample_draws db n seed :
  sample_docs db n seed ⊆+ stored_docs db /\ length (sample_docs db n seed) = Nat.min n (length (stored_docs db)).
Proof.
  unfold sample_docs. destruct (Nat.eqb_spec n 0) as [->|Hn]; [split; [apply submseteq_nil_l|done]|].
  assert (forall l done_ st, st.1.1 ⊆+ done_ -> length st.1.1 = Nat.min n (length done_) ->
    (fold_left (sample_step n) l st).1.1 ⊆+ done_ ++ l /\
    length (fold_left (sample_step n) l st).1.1 = Nat.min n (length (done_ ++ l))) as Hgen.
  { induction l as [|d l IH]; intros done_ st H1 H2; cbn [fold_left]; [by rewrite app_nil_r|].
    destruct (sample_step_ok n done_ d st) as [H3 H4]; [lia|done|done|].
    destruct (IH _ _ H3 H4) as [H5 H6]. by rewrite <- app_assoc in H5, H6. }
  apply (Hgen (stored_docs db) [] ([], _, 0)); [done|]. cbn. lia.
Qed.
End sampling.

(** ** Health *)

Section health.
Context `{SerdeNumber} `{Libm} `{TextAnalyzer}.
Variable json_text : Json -> bytes.
Variable now_ms : Z -> Z.
Variable lexical_stats : bool.

Local Abbreviation refines := (Refines json_text now_ms lexical_stats).

(** Every document was written by some change of the log. *)
Lemma coherent_size m log : coherent m log -> (size m <= length log)%nat.
Proof.
  intros [_ Hc]. rewrite <- (length_fmap snd log). rewrite <- length_map_to_list, <- (length_fmap fst (map_to_list m)).
  apply submseteq_length, NoDup_submseteq; [apply NoDup_fst_map_to_list|].
  intros id ([i r] & -> & Hin%elem_of_map_to_list)%list_elem_of_fmap. cbn [fst].
  destruct (decide (i ∈ log.*2)) as [|Hno]; [done|]. rewrite Hc in Hin; [done|].
  intros k c _ Hk <-. apply Hno. apply list_elem_of_fmap. exists c. split; [done|]. by eapply list_elem_of_lookup_2.
Qed.

(** The health report of an estate is what it holds: the number of
    documents, the number of changes ever made, every registered collection
    with the number of its documents; its own changefeed is never reported
    behind, and a backlog is reported exactly when it exceeds the threshold. *)
Theorem health_exact sst (e : Handle) db m log threshold :
  refines db m log -> searchable m -> coherent m log ->
  Forall nul_free (get_names db META_COLLECTIONS) ->
  let h := health sst e db in
  h_docs h = Z.of_nat (size m) /\ h_feed_seq h = Z.of_nat (length log)
  /\ h_collections h = map (fun name => (name, Z.of_nat (size (filter (fun p => vr_collection p.2 = Some name) m))))
                           (get_names db META_COLLECTIONS)
  /\ (forall a b, FeedBehind a b ∉ issues h threshold)
  /\ (forall a b, ApplierBacklog a b ∈ issues h threshold <->
        threshold < a /\ a = Z.of_nat (backlog (e_pending e)) /\ b = threshold).
Proof.
  intros HR Hs Hc Hn h. pose proof (rf_counts _ _ _ _ _ _ HR) as [Hd _ _]. rewrite msum_one in Hd.
  pose proof (rf_seq _ _ _ _ _ _ HR) as Hq. pose proof (coherent_size m log Hc) as Hsz.
  assert (h_docs h = Z.of_nat (size m)) as Hhd by exact Hd. assert (h_feed_seq h = Z.of_nat (length log)) as Hhq by exact Hq.
  assert ((h_feed_seq h <? h_docs h) = false) as Hf by (apply Z.ltb_ge; lia).
  split; [done|]. split; [done|]. split; [|split].
  - change (h_collections h) with (collections db). unfold collections. apply map_ext_in. intros name Hin%list_elem_of_In. f_equal. f_equal.
    rewrite Forall_forall in Hn. rewrite (collection_members_exact json_text now_ms lexical_stats db m log) by (done || by apply Hn).
    unfold members_of. rewrite length_fmap. apply btree_iter_length.
  - intros a b Hin. unfold issues in Hin. rewrite Hf, app_nil_r in Hin.
    destruct (threshold <? applier_backlog h), (h_dim h), (0 <? h_docs h); set_solver.
  - intros a b. unfold issues. rewrite Hf, app_nil_r. change (applier_backlog h) with (Z.of_nat (backlog (e_pending e))).
    assert (forall a b, ApplierBacklog a b ∉ match h_dim h with None => if 0 <? h_docs h then [DimUnset (h_docs h)] else [] | Some _ => [] end) as Hno
      by (intros a' b'; destruct (h_dim h), (0 <? h_docs h); set_solver).
    rewrite elem_of_app. destruct (Z.ltb_spec threshold (Z.of_nat (backlog (e_pending e)))).
    + rewrite list_elem_of_singleton. split; [intros [[= -> ->]|?%Hno]; [done|done]|]. intros (_ & -> & ->). by left.
    + rewrite elem_of_nil. split; [intros [[]|?%Hno]; done|]. intros (? & -> & _). lia.
Qed.
End health.

(** ** Concrete runs *)

Section Witnesses.
#[local] Existing Instances plain_number flat_libm.
#[local] Instance one_token_report : TextAnalyzer := fun t => [t].

Definition plain_handle : Handle :=
  mkHandle (mkEstateInfo (str "e") (str "estate") 0 None ∅) QNone quotas_default Pending.new (ann_new default_config).

Lemma trends_roundtrip_witness :
  exists l : list (Z * f64),
    trend (record_trend 5000000 db0 (str "load") (f64_of_Z 2)) (str "load") = Some (map (fun p => mkTrendPoint (p.1 / 1000000) p.2) l)
    /\ (forall at_ns y, (at_ns, y) ∈ l <-> (if decide (str "load" = str "load" /\ at_ns = 5000000) then Some (f64_of_Z 2) else None) = Some y).
Proof.
  destruct (trends_roundtrip db0 ∅ (str "load") 5000000 (f64_of_Z 2)) as (Hl & _).
  - split; [|by intros metric ns x Hx; rewrite lookup_empty in Hx]. intros k v. unfold db0. rewrite create_other by done.
    rewrite lookup_empty. split; [done|]. intros (a & y & z & Hz & _). by rewrite lookup_empty in Hz.
  - split; [refine (bool_decide_eq_true_1 _ _); vm_compute; reflexivity|]. split; [by repeat constructor|reflexivity].
  - done.
  - reflexivity.
  - reflexivity.
  - destruct (Hl (str "load")) as (l & E & _ & Hin); [refine (bool_decide_eq_true_1 _ _); vm_compute; reflexivity|].
    exists l. split; [exact E|]. intros at_ns y. rewrite Hin. unfold sample_at. by rewrite lookup_empty.
Defined.

Lemma health_exact_witness :
  h_docs (health (fun _ => 0) plain_handle db1) = 2
  /\ h_collections (health (fun _ => 0) plain_handle db1) = [(str "docs", 2)]
  /\ (forall a b, FeedBehind a b ∉ issues (health (fun _ => 0) plain_handle db1) 10000).
Proof.
  destruct (health_exact no_text no_clock true (fun _ => 0) plain_handle db1 m1.1 m1.2 10000) as (Hd & _ & _ & Hf & _).
  - apply db1_refines.
  - apply m1_searchable.
  - destruct (evolves_run (map AUpsert [cat; dog]) (∅, [])) as (ext & _ & _ & Hc). apply Hc, coherent_empty.
  - refine (bool_decide_eq_true_1 _ _). vm_compute. reflexivity.
  - split; [rewrite Hd; vm_compute; reflexivity|]. split; [vm_compute; reflexivity|exact Hf].
Defined.

(** A reservoir of one, over two documents: the seed decides. *)
Example sample_of_two : map sd_id (sample_docs db1 1 7) = [str "cat"] \/ map sd_id (sample_docs db1 1 7) = [str "dog"].
Proof. vm_compute. by first [left; reflexivity|right; reflexivity]. Qed.

(** INFO answers from the copy of the estate's metadata that was read at open:
    after the first upsert the health report has a dimension and the catalog
    has none. *)
Theorem info_stays_as_opened :
  let e := mkHandle (default (e_info plain_handle) (get_info db0)) QNone quotas_default Pending.new (ann_new default_config) in
  ei_dim (e_info e) = None /\ h_dim (health (fun _ => 0) e db1) = Some 2.
Proof. split; vm_compute; reflexivity. Qed.
End Witnesses.
