(* ===== verification/RrdShape.v ===== *)
(** * Shapes, modes, slivers and plans of the Reason Ready daemon
    (crates/rrd/src/shape.rs, mode.rs, registry.rs, plan.rs)

    A payload's field names and types are its shape; shapes are registered
    under ids hashed from their canonical key, and each id has a compiled plan
    that says what its fields are for. A text is its UTF-8 bytes; a [HashMap]
    is a finite map with an iteration order that is a class. *)
From S2P Require Import Prelude Floats ByteOrder Utf8 Json Text Model.
#[local] Set Default Goal Selector "!".
#[local] Set Warnings "-clear-no-such-hyp".
Local Open Scope Z_scope.

(** The iteration order of a [HashMap] is unspecified. *)
Class HashOrder := hash_iter : forall {K V : Type} {E : EqDecision K} {C : Countable K}, gmap K V -> list (K * V).
Class HashOrderLaws `{HashOrder} : Prop := {
  hash_iter_perm {K V : Type} {E : EqDecision K} {C : Countable K} (m : gmap K V) : hash_iter m ≡ₚ map_to_list m;
}.
#[export] Instance plain_order : HashOrder := fun K V E C m => map_to_list m.
#[export] Instance plain_order_laws : HashOrderLaws.
Proof. split. done. Qed.

(** [str::starts_with], [ends_with], [contains] *)
Definition starts_with (p s : bytes) : bool := bool_decide (p `prefix_of` s).
Definition ends_with (p s : bytes) : bool := bool_decide (p `suffix_of` s).
Definition str_contains (p s : bytes) : bool := existsb (fun i => starts_with p (drop i s)) (seq 0 (S (length s))).

(** ** Fingerprints *)

(** [ShapeFingerprint]: a [BTreeMap] from field to type name. *)
Abbreviation ShapeFingerprint := (gmap bytes bytes).

Section shape.
Context `{SerdeNumber}.

Definition fingerprint_of (metadata : Metadata) : ShapeFingerprint := json_type <$> metadata.

Definition fingerprint_key (s : ShapeFingerprint) : bytes :=
  join (str ",") (map (fun '(k, t) => k ++ str ":" ++ t) (btree_iter s)).
End shape.

(** ** Modes *)

Module Mode.
Inductive Mode : Type := Mail | Record | Document | Event | Location | Media | Unshaped.
#[export] Instance Mode_eq_dec : EqDecision Mode.
Proof. solve_decision. Defined.
End Mode.
Export (hints) Mode.

Definition mode_name (m : Mode.Mode) : bytes :=
  match m with
  | Mode.Mail => str "mail" | Mode.Record => str "record" | Mode.Document => str "document"
  | Mode.Event => str "event" | Mode.Location => str "location" | Mode.Media => str "media"
  | Mode.Unshaped => str "unshaped"
  end.

Definition MODE_VOTES : list (Mode.Mode * list bytes) := [
  (Mode.Mail, map str ["from"; "to"; "cc"; "bcc"; "subject"; "sender"; "recipient"; "mailbox"]%string);
  (Mode.Record, map str ["amount"; "price"; "status"; "quantity"; "sku"; "total"; "currency"; "row"]%string);
  (Mode.Document, map str ["title"; "body"; "content"; "text"; "author"; "abstract"; "section"]%string);
  (Mode.Event, map str ["event"; "kind"; "action"; "occurred"; "started"; "ended"; "duration"; "severity"]%string);
  (Mode.Location, map str ["lat"; "lon"; "latitude"; "longitude"; "address"; "city"; "country"; "geo"; "path"]%string);
  (Mode.Media, map str ["mime"; "bytes"; "width"; "height"; "codec"; "duration_ms"; "url"; "blob"]%string)].

(** [f == n || f.starts_with(&format!("{n}_"))] for some name *)
Definition votes_for_mode (names : list bytes) (f : bytes) : bool :=
  existsb (fun n => bool_decide (f = n) || starts_with (n ++ str "_") f) names.

Definition count_votes (names : list bytes) (fields : list bytes) : nat :=
  length (filter (fun f => votes_for_mode names f = true) fields).

Definition vote_step (fields : list bytes) (best : Mode.Mode * nat) (e : Mode.Mode * list bytes) : Mode.Mode * nat :=
  let votes := count_votes e.2 fields in if (best.2 <? votes)%nat then (e.1, votes) else best.

Definition timeish (f : bytes) : bool :=
  ends_with (str "_at") f || bool_decide (f ∈ map str ["date"; "time"; "timestamp"]%string).

Definition identify `{SerdeNumber} `{Unicode} (metadata : Metadata) : Mode.Mode :=
  let fields := map u_lowercase (btree_iter metadata).*1 in
  if bool_decide (fields = []) then Mode.Unshaped
  else
    let '(best, best_votes) := fold_left (vote_step fields) MODE_VOTES (Mode.Unshaped, 0%nat) in
    if (best_votes =? 0)%nat && existsb timeish fields then Mode.Event else best.

(** ** The registry *)

(** One byte of the hash, on [u64]. *)
Definition hash_step (hash b : Z) : Z := Z.lxor hash b * 0x1000_0000_01b3 mod 2 ^ 64.
Definition sliver_id (key : bytes) : Z := fold_left hash_step key 0xcbf2_9ce4_8422_2325.

Record Sliver : Type := mkSliver { sl_id : Z; sl_key : bytes; sl_mode : Mode.Mode; sl_count : Z }.

Abbreviation ShapeRegistry := (gmap bytes Sliver).

Definition registry_observe (r : ShapeRegistry) (shape : ShapeFingerprint) (mode : Mode.Mode)
  : ShapeRegistry * (Z * bool) :=
  let key := fingerprint_key shape in
  match r !! key with
  | Some s =>
      (<[key := mkSliver (sl_id s) (sl_key s) (sl_mode s) ((sl_count s + 1) mod 2 ^ 64)]> r, (sl_id s, false))
  | None => let id := sliver_id key in (<[key := mkSliver id key mode 1]> r, (id, true))
  end.

Definition sliver_le (a b : Sliver) : Prop := sl_id a <= sl_id b.
#[export] Instance sliver_le_dec : RelDecision sliver_le.
Proof. intros a b. apply Z_le_dec. Defined.

Definition slivers_of `{HashOrder} (r : ShapeRegistry) (mode : Mode.Mode) : list Sliver :=
  merge_sort sliver_le (filter (fun s => sl_mode s = mode) (hash_iter r).*2).

Definition registry_len (r : ShapeRegistry) : nat := size r.

(** ** Plans *)

Module FieldRole.
Inductive FieldRole : Type := Identity | Time | Title | Content | Salience | Other.
#[export] Instance FieldRole_eq_dec : EqDecision FieldRole.
Proof. solve_decision. Defined.
End FieldRole.
Export (hints) FieldRole.

Record Plan : Type := mkPlan {
  pl_sliver_id : Z;
  pl_mode : Mode.Mode;
  pl_roles : gmap bytes FieldRole.FieldRole;
  pl_version : Z;
}.

Definition COMPILER_VERSION : Z := 1.

Definition infer_role `{Unicode} (field ty : bytes) : FieldRole.FieldRole :=
  let f := u_lowercase field in
  let is_one := fun ws => bool_decide (f ∈ map str ws) in
  if is_one ["id"; "uuid"; "sku"; "email"; "from"; "to"; "sender"; "recipient"]%string
     || ends_with (str "_id") f || ends_with (str "_key") f then FieldRole.Identity
  else if ends_with (str "_at") f
     || is_one ["date"; "time"; "timestamp"; "occurred"; "created"; "updated"]%string then FieldRole.Time
  else if is_one ["title"; "subject"; "name"; "heading"]%string then FieldRole.Title
  else if is_one ["body"; "content"; "text"; "description"; "message"]%string then FieldRole.Content
  else if bool_decide (ty = str "number")
     && existsb (fun w => str_contains (str w) f) ["amount"; "price"; "score"; "priority"; "total"; "severity"]%string
  then FieldRole.Salience
  else FieldRole.Other.

(** The loop inserts the role of every field of the shape. *)
Definition compile `{Unicode} (id : Z) (mode : Mode.Mode) (shape : ShapeFingerprint) : Plan :=
  mkPlan id mode (map_imap (fun field ty => Some (infer_role field ty)) shape) COMPILER_VERSION.

(** ** The hash *)

(** The inverse of the odd factor modulo [2^64]. *)
Definition unfactor : Z := 0xb46dd957aff6957b.

Lemma lxor_u64 a b : 0 <= a < 2 ^ 64 -> 0 <= b < 2 ^ 64 -> 0 <= Z.lxor a b < 2 ^ 64.
Proof.
  intros Ha Hb. assert (0 <= Z.lxor a b) as H0 by (apply Z.lxor_nonneg; lia). split; [done|].
  destruct (decide (Z.lxor a b = 0)) as [->|Hn]; [lia|]. apply Z.log2_lt_pow2; [lia|].
  pose proof (Z.log2_lxor a b ltac:(lia) ltac:(lia)).
  assert (forall x, 0 <= x < 2 ^ 64 -> Z.log2 x < 64) as Hlog.
  { intros x [? ?]. destruct (decide (x = 0)) as [->|]; [done|]. apply Z.log2_lt_pow2; lia. }
  pose proof (Hlog a Ha). pose proof (Hlog b Hb). lia.
Qed.

Lemma hash_step_range h b : 0 <= hash_step h b < 2 ^ 64.
Proof. unfold hash_step. apply Z.mod_pos_bound. lia. Qed.

Lemma factor_inj x y : 0 <= x < 2 ^ 64 -> 0 <= y < 2 ^ 64 ->
  x * 0x1000_0000_01b3 mod 2 ^ 64 = y * 0x1000_0000_01b3 mod 2 ^ 64 -> x = y.
Proof.
  intros Hx Hy E. assert (forall z, 0 <= z < 2 ^ 64 -> (z * 0x1000_0000_01b3 mod 2 ^ 64) * unfactor mod 2 ^ 64 = z) as Hinv.
  { intros z Hz. rewrite Z.mul_mod_idemp_l by lia. rewrite <- Z.mul_assoc, <- Z.mul_mod_idemp_r by lia.
    replace (0x1000_0000_01b3 * unfactor mod 2 ^ 64) with 1 by (vm_compute; reflexivity).
    rewrite Z.mul_1_r. by apply Z.mod_small. }
  rewrite <- (Hinv x Hx), <- (Hinv y Hy). by rewrite E.
Qed.

Lemma hash_step_inj h h' b b' : 0 <= h < 2 ^ 64 -> 0 <= h' < 2 ^ 64 -> is_byte b -> is_byte b' ->
  hash_step h b = hash_step h' b' -> Z.lxor h b = Z.lxor h' b'.
Proof.
  unfold is_byte. intros. apply factor_inj; [apply lxor_u64; lia|apply lxor_u64; lia|done].
Qed.

Lemma lxor_cancel_l a b c : Z.lxor a b = Z.lxor a c -> b = c.
Proof. intros H. rewrite <- (Z.lxor_0_l b), <- (Z.lxor_0_l c), <- (Z.lxor_nilpotent a), !Z.lxor_assoc. by rewrite H. Qed.

Lemma hash_range key h : 0 <= h < 2 ^ 64 -> 0 <= fold_left hash_step key h < 2 ^ 64.
Proof. revert h. induction key as [|b key IH]; intros h Hh; [done|]. apply IH, hash_step_range. Qed.

Lemma hash_tail_inj s h h' : Forall is_byte s -> 0 <= h < 2 ^ 64 -> 0 <= h' < 2 ^ 64 ->
  fold_left hash_step s h = fold_left hash_step s h' -> h = h'.
Proof.
  intros Hs. revert h h'. induction Hs as [|b s Hb _ IH]; intros h h' Hh Hh' E; [done|].
  cbn [fold_left] in E. apply IH in E; [|apply hash_step_range|apply hash_step_range].
  apply hash_step_inj in E; [|done..]. apply (lxor_cancel_l b). by rewrite !(Z.lxor_comm b).
Qed.

(** Keys that differ in one byte have different ids: the step is a bijection
    of the state for every byte, and sends different bytes to different
    states. In particular two shapes that differ in the type of one field,
    for types of one length, or in one letter of a name never share a
    sliver. *)
Theorem sliver_id_separates p a b s :
  Forall is_byte (p ++ a :: s) -> is_byte b -> a <> b -> sliver_id (p ++ a :: s) <> sliver_id (p ++ b :: s).
Proof.
  intros [_ [Ha Hs]%Forall_cons]%Forall_app Hb Hab E. apply Hab. unfold sliver_id in E.
  rewrite !fold_left_app in E. cbn [fold_left] in E.
  assert (0 <= fold_left hash_step p 0xcbf2_9ce4_8422_2325 < 2 ^ 64) as Hr by (apply hash_range; lia).
  apply hash_tail_inj in E; [|done|apply hash_step_range|apply hash_step_range].
  apply hash_step_inj in E; [|done..]. by apply lxor_cancel_l in E.
Qed.

(** The documentation calls the hash FNV-1a; the factor is not the one of
    FNV-1a, [0x100000001b3], so an id is not the published hash of its key. *)
Theorem sliver_id_is_not_fnv1a :
  let fnv1a key := fold_left (fun h b => Z.lxor h b * 0x100_0000_01b3 mod 2 ^ 64) key 0xcbf2_9ce4_8422_2325 in
  fnv1a (str "a") = 0xaf63_dc4c_8601_ec8c /\ fnv1a (str "foobar") = 0x8594_4171_f739_67e8 /\
  sliver_id (str "a") = 0xaf74_d84c_8601_ec8c /\ sliver_id (str "a") <> fnv1a (str "a").
Proof. by vm_compute. Qed.

(** ** Keys *)

Section keys.
Context `{SerdeNumber}.

(** The daemon's shape keys are the estate's census keys. *)
Lemma fingerprint_census (m : Metadata) : fingerprint_key (fingerprint_of m) = shape_key (shape_of m).
Proof.
  unfold fingerprint_key, shape_key, fingerprint_of, shape_of. f_equal.
  rewrite btree_iter_fmap, !map_map. apply map_ext. by intros [k v].
Qed.
End keys.

(** A field name the key can be read back from. *)
Definition clean_name (k : bytes) : Prop := (ch "," ∉ k) /\ (ch ":" ∉ k).

Lemma join_parts_inj sep l l' : Forall (fun x => (sep ∉ x) /\ x <> []) l -> Forall (fun x => (sep ∉ x) /\ x <> []) l' ->
  join [sep] l = join [sep] l' -> l = l'.
Proof.
  assert (forall x y a b, (sep ∉ x) -> (sep ∉ y) -> x ++ sep :: a = y ++ sep :: b -> x = y /\ a = b) as Hcut.
  { induction x as [|c x IH]; intros [|d y] a b Hx Hy E; cbn in E.
    - by injection E.
    - injection E as -> _. by destruct Hy; left.
    - injection E as -> _. by destruct Hx; left.
    - injection E as -> E. apply not_elem_of_cons in Hx as [_ Hx], Hy as [_ Hy].
      by destruct (IH _ _ _ Hx Hy E) as [-> ->]. }
  intros Hl. revert l'. induction Hl as [|x l [Hx Hx0] Hl IH]; intros l' Hl' E.
  - destruct Hl' as [|y l' [Hy Hy0] Hl']; [done|]. destruct l'; cbn [join] in E; [by destruct Hy0|].
    by destruct y.
  - destruct Hl' as [|y l' [Hy Hy0] Hl'].
    { destruct l; cbn [join] in E; [by destruct Hx0|]. by destruct x. }
    destruct l as [|x2 l], l' as [|y2 l']; cbn [join] in E.
    + by rewrite E.
    + destruct Hx. rewrite E. set_solver.
    + destruct Hy. rewrite <- E. set_solver.
    + apply Hcut in E as [-> E]; [|done|done]. f_equal. by apply IH.
Qed.

Lemma part_inj k t k' t' : ch ":" ∉ k -> ch ":" ∉ k' -> k ++ str ":" ++ t = k' ++ str ":" ++ t' -> k = k' /\ t = t'.
Proof.
  revert k'. induction k as [|c k IH]; intros [|d k'] Hk Hk' E; cbn in E.
  - by injection E.
  - injection E as E _. destruct Hk'. rewrite <- E. by left.
  - injection E as E _. destruct Hk. rewrite E. by left.
  - injection E as -> E. apply not_elem_of_cons in Hk as [_ Hk], Hk' as [_ Hk'].
    by destruct (IH k' Hk Hk' E) as [-> ->].
Qed.

Lemma btree_iter_inj {A} (m m' : gmap bytes A) : btree_iter m = btree_iter m' -> m = m'.
Proof.
  intros E. apply map_eq. intros k. apply option_eq. intros v. by rewrite <- !elem_of_btree_iter, E.
Qed.

Definition clean_shape (s : ShapeFingerprint) : Prop :=
  map_Forall (fun k t => clean_name k /\ (ch "," ∉ t)) s.

Lemma clean_parts s : clean_shape s ->
  Forall (fun x => (ch "," ∉ x) /\ x <> []) (map (fun '(k, t) => k ++ str ":" ++ t) (btree_iter s)).
Proof.
  intros Hs. apply Forall_map, Forall_forall. intros [k t] Hin%elem_of_btree_iter. destruct (Hs k t Hin) as [[Hk _] Ht].
  cbn. split; [|by destruct k]. rewrite not_elem_of_app. split; [done|]. apply not_elem_of_cons. by split.
Qed.

(** Names without commas and colons: the key determines the shape. *)
Lemma fingerprint_key_inj s s' : clean_shape s -> clean_shape s' -> fingerprint_key s = fingerprint_key s' -> s = s'.
Proof.
  intros Hs Hs' E. apply join_parts_inj in E; [|by apply clean_parts..]. apply btree_iter_inj.
  assert (forall x, x ∈ btree_iter s -> ch ":" ∉ x.1) as Hc.
  { intros [k t] Hin%elem_of_btree_iter. by destruct (Hs k t Hin) as [[_ ?] _]. }
  assert (forall x, x ∈ btree_iter s' -> ch ":" ∉ x.1) as Hc'.
  { intros [k t] Hin%elem_of_btree_iter. by destruct (Hs' k t Hin) as [[_ ?] _]. }
  clear Hs Hs'. revert E Hc Hc'. generalize (btree_iter s) (btree_iter s'). clear s s'.
  induction l as [|[k t] l IH]; intros [|[k' t'] l'] E Hc Hc'; try done.
  injection E as E1 E2. apply part_inj in E1 as [-> ->]; [|apply (Hc (k, t)); by left|apply (Hc' (k', t')); by left].
  f_equal. apply IH; [done| |]; intros x Hx; [apply Hc|apply Hc']; by right.
Qed.

Lemma fingerprint_clean `{SerdeNumber} (m : Metadata) :
  map_Forall (fun k _ => clean_name k) m -> clean_shape (fingerprint_of m).
Proof.
  intros Hm k t. unfold fingerprint_of. rewrite lookup_fmap. intros (v & Hv & ->)%fmap_Some.
  split; [by apply (Hm k v)|]. destruct v; by vm_compute; set_solver.
Qed.

(** A field name may hold the characters that separate the parts of a key, so
    two shapes can share a key, and with it a sliver. *)
Lemma shape_keys_collide `{SerdeNumber} :
  let one := fingerprint_of {[ str "a:null,b" := JNull ]} in
  let two := fingerprint_of {[ str "a" := JNull; str "b" := JNull ]} in
  size one = 1%nat /\ size two = 2%nat /\ fingerprint_key one = fingerprint_key two.
Proof. by vm_compute. Qed.

(** ** Modes *)

(** The best entry so far: the first of the greatest. *)
Definition best_of (fields : list bytes) (seen : list (Mode.Mode * list bytes)) (best : Mode.Mode * nat) : Prop :=
  (best = (Mode.Unshaped, 0%nat) /\ Forall (fun e => count_votes e.2 fields = 0%nat) seen)
  \/ exists pre names post, seen = pre ++ (best.1, names) :: post
       /\ best.2 = count_votes names fields /\ (0 < best.2)%nat
       /\ Forall (fun e => count_votes e.2 fields < best.2)%nat pre
       /\ Forall (fun e => count_votes e.2 fields <= best.2)%nat post.

Lemma vote_step_best fields seen best e :
  best_of fields seen best -> best_of fields (seen ++ [e]) (vote_step fields best e).
Proof.
  unfold vote_step. intros Hb. destruct (Nat.ltb_spec best.2 (count_votes e.2 fields)) as [Hlt|Hge].
  - right. exists seen, e.2, []. cbn. split_and!; [by destruct e|done|lia| |constructor].
    destruct Hb as [[-> Hz]|(pre & names & post & -> & Eb & Hp & H1 & H2)].
    + eapply Forall_impl; [exact Hz|]. cbn in *. lia.
    + apply Forall_app. split; [eapply Forall_impl; [exact H1|]; cbn; lia|]. constructor; [cbn; lia|].
      eapply Forall_impl; [exact H2|]. cbn. lia.
  - destruct Hb as [[-> Hz]|(pre & names & post & -> & Eb & Hp & H1 & H2)].
    + left. split; [done|]. apply Forall_app. split; [done|]. constructor; [cbn in *; lia|done].
    + right. exists pre, names, (post ++ [e]). split_and!; [by rewrite <- app_assoc|done..|].
      apply Forall_app. split; [done|]. by constructor.
Qed.

Lemma votes_best fields l seen best : best_of fields seen best ->
  best_of fields (seen ++ l) (fold_left (vote_step fields) l best).
Proof.
  revert seen best. induction l as [|e l IH]; intros seen best Hb; [by rewrite app_nil_r|].
  cbn [fold_left]. replace (seen ++ e :: l) with ((seen ++ [e]) ++ l) by (by rewrite <- app_assoc).
  by apply IH, vote_step_best.
Qed.

(** The mode of a payload is the first of the modes with the most votes among
    its field names; without any vote it is an event if some name looks like a
    time, and unshaped otherwise. *)
Theorem identify_exact `{SerdeNumber} `{Unicode} (m : Metadata) :
  let fields := map u_lowercase (btree_iter m).*1 in
  let votes := fun e : Mode.Mode * list bytes => count_votes e.2 fields in
  (Forall (fun e => votes e = 0%nat) MODE_VOTES /\
   identify m = if existsb timeish fields then Mode.Event else Mode.Unshaped)
  \/ exists pre names post, MODE_VOTES = pre ++ (identify m, names) :: post
       /\ (0 < votes (identify m, names))%nat
       /\ Forall (fun e => votes e < votes (identify m, names))%nat pre
       /\ Forall (fun e => votes e <= votes (identify m, names))%nat post.
Proof.
  cbv zeta. unfold identify. destruct (bool_decide_reflect (map u_lowercase (btree_iter m).*1 = [])) as [->|_].
  { left. split; [|done]. by apply Forall_forall. }
  pose proof (votes_best (map u_lowercase (btree_iter m).*1) MODE_VOTES [] (Mode.Unshaped, 0%nat)) as Hb.
  rewrite app_nil_l in Hb. destruct (fold_left _ _ _) as [best n].
  destruct (Hb (or_introl (conj eq_refl (Forall_nil_2 _)))) as [[[= -> ->] Hz]|(pre & names & post & E & En & Hp & H1 & H2)].
  - left. split; [done|]. cbn [Nat.eqb andb]. by destruct (existsb _ _).
  - right. cbn [fst snd] in *. subst n. destruct (Nat.eqb_spec (count_votes names (map u_lowercase (btree_iter m).*1)) 0); [lia|].
    cbn [andb]. exists pre, names, post. by cbn [snd].
Qed.

(** ** The registry *)

Definition registry_ok (r : ShapeRegistry) : Prop := map_Forall (fun k s => sl_key s = k /\ sl_id s = sliver_id k) r.

Lemma registry_observe_ok r shape mode : registry_ok r ->
  let '(r', (id, is_new)) := registry_observe r shape mode in
  registry_ok r' /\ id = sliver_id (fingerprint_key shape)
  /\ is_new = bool_decide (r !! fingerprint_key shape = None)
  /\ dom r' = {[ fingerprint_key shape ]} ∪ dom r.
Proof.
  intros Hr. unfold registry_observe. destruct (r !! fingerprint_key shape) as [s|] eqn:E.
  - destruct (Hr _ _ E) as [Hk Hid]. split_and!; [|done| |].
    + apply map_Forall_insert_2; [by split|done].
    + by rewrite bool_decide_eq_false_2.
    + by rewrite dom_insert_L.
  - split_and!; [|done|by rewrite bool_decide_eq_true_2|by rewrite dom_insert_L].
    apply map_Forall_insert_2; [by split|done].
Qed.
