(* ===== verification/RrdBaseline.v ===== *)
(** * The shape baseline (crates/rrd/src/baseline.rs)

    A recency-weighted distribution of slivers for every context and for all
    of them, the speculation ledger, drift against a committed snapshot, and
    snapshots. Weights are [f64]; the iteration order of a [HashMap], on which
    the ties of [argmax] and the rounding of sums depend, is the class
    [HashOrder]; the logarithm of libm is the class [Ln64]. *)
From Stdlib Require Import SpecFloat.
From S2P Require Import Prelude Floats ByteOrder Geo Keys Store Cluster RrdShape.
#[local] Set Default Goal Selector "!".
#[local] Set Warnings "-clear-no-such-hyp".
Local Open Scope Z_scope.

Class Ln64 := f64_ln : f64 -> f64.

Definition f64_one : f64 := f64_of_Z 1.
(** [f64::total_cmp] *)
Definition total_key (x : f64) : Z :=
  let mag := mag_bits f64_prec f64_emax 52 11 x in if sign_of x then - 1 - mag else mag.
Definition f64_total_cmp (a b : f64) : comparison := total_key a ?= total_key b.
(** [u64 as f64] *)
Definition f64_of_u64 (x : Z) : f64 := f64_of_Z x.

Definition LAMBDA : f64 := f64_of_decimal false 999 (-3).
Definition RESCALE_AT : f64 := f64_of_Z (10 ^ 12).
Definition WINDOW : nat := 128.
Definition DRIFT_THRESHOLD : f64 := f64_of_decimal false 25 (-2).
Definition SPECULATION_CONFIDENCE : f64 := f64_of_decimal false 97 (-2).
Definition EPS : f64 := f64_of_decimal false 1 (-4).

(** ** Distributions *)

Record Distribution : Type := mkDistribution { weights : gmap Z f64; total : f64 }.

Definition distribution_default : Distribution := mkDistribution ∅ f64_zero.

Definition dist_add (d : Distribution) (sliver : Z) (unit : f64) : Distribution :=
  mkDistribution (<[sliver := f64_add (default f64_zero (weights d !! sliver)) unit]> (weights d)) (f64_add (total d) unit).

Definition dist_rescale (d : Distribution) (by_ : f64) : Distribution :=
  mkDistribution ((fun w => f64_div w by_) <$> weights d) (f64_div (total d) by_).

Definition dist_p (d : Distribution) (sliver : Z) : f64 :=
  if fle (total d) f64_zero then f64_zero else f64_div (default f64_zero (weights d !! sliver)) (total d).

Section orders.
Context `{HashOrder} `{Ln64}.

Definition argmax (d : Distribution) : option (Z * f64) :=
  (fun p : Z * f64 => (p.1, if fgt (total d) f64_zero then f64_div p.2 (total d) else f64_zero))
    <$> max_by (fun a b => f64_total_cmp a.2 b.2) (hash_iter (weights d)).

Definition entropy_step (total h w : f64) : f64 :=
  let p := f64_div w total in
  if fgt p f64_zero then f64_sub h (f64_mul p (f64_ln p)) else h.

Definition dist_predictability (d : Distribution) : f64 :=
  let k := size (weights d) in
  if (k <=? 1)%nat || fle (total d) f64_zero then f64_one
  else
    let h := fold_left (entropy_step (total d)) (hash_iter (weights d)).*2 f64_zero in
    f64_sub f64_one (f64_div h (f64_ln (f64_of_Z (Z.of_nat k)))).

(** ** Contexts *)

Record ContextStats : Type := mkContext {
  cx_observations : Z;
  cx_dist : Distribution;
  cx_window : list Z;
  cx_predictions : Z;
  cx_hits : Z;
}.
Definition context_default : ContextStats := mkContext 0 distribution_default [] 0 0.

Definition context_hit_rate (c : ContextStats) : f64 :=
  if cx_predictions c =? 0 then f64_zero else f64_div (f64_of_u64 (cx_hits c)) (f64_of_u64 (cx_predictions c)).

Record BaselineSnapshot : Type := mkSnapshot {
  sn_version : Z;
  sn_global : Distribution;
  sn_contexts : gmap bytes Distribution;
  sn_observations : Z;
}.
Definition snapshot_default : BaselineSnapshot := mkSnapshot 0 distribution_default ∅ 0.

Record ShapeBaseline : Type := mkBaseline {
  b_unit : f64;
  b_global : Distribution;
  b_contexts : gmap bytes ContextStats;
  b_observations : Z;
  b_reference : BaselineSnapshot;
}.

Definition baseline_new : ShapeBaseline := mkBaseline f64_one distribution_default ∅ 0 snapshot_default.

Definition predict (b : ShapeBaseline) (context : bytes) : option (Z * f64) :=
  c ← b_contexts b !! context; argmax (cx_dist c).

(** [push_back], then [pop_front] past the capacity. *)
Definition push_window (w : list Z) (sliver : Z) : list Z :=
  let w := w ++ [sliver] in if (WINDOW <? length w)%nat then tail w else w.

(** The ledger of one context, and whether the prediction hit. *)
Definition settle (c : ContextStats) (sliver : Z) (unit : f64) (predicted : option Z) : ContextStats * bool :=
  let dist := dist_add (cx_dist c) sliver unit in
  let window := push_window (cx_window c) sliver in
  let observations := u64_add (cx_observations c) 1 in
  match predicted with
  | Some p =>
      let hit := p =? sliver in
      (mkContext observations dist window (u64_add (cx_predictions c) 1)
         (if hit then u64_add (cx_hits c) 1 else cx_hits c), hit)
  | None => (mkContext observations dist window (cx_predictions c) (cx_hits c), false)
  end.

Definition rescale_context (by_ : f64) (c : ContextStats) : ContextStats :=
  mkContext (cx_observations c) (dist_rescale (cx_dist c) by_) (cx_window c) (cx_predictions c) (cx_hits c).

Definition observe (b : ShapeBaseline) (context : bytes) (sliver : Z) (predicted : option Z) : ShapeBaseline * bool :=
  let unit := if feq (b_unit b) f64_zero then f64_one else b_unit b in
  let observations := u64_add (b_observations b) 1 in
  let global := dist_add (b_global b) sliver unit in
  let '(ctx, hit) := settle (default context_default (b_contexts b !! context)) sliver unit predicted in
  let contexts := <[context := ctx]> (b_contexts b) in
  let unit' := f64_div unit LAMBDA in
  (if fgt unit' RESCALE_AT
   then mkBaseline f64_one (dist_rescale global unit') (rescale_context unit' <$> contexts) observations (b_reference b)
   else mkBaseline unit' global contexts observations (b_reference b), hit).

Definition predictability (b : ShapeBaseline) (context : bytes) : f64 :=
  match b_contexts b !! context with Some c => dist_predictability (cx_dist c) | None => f64_one end.
Definition context_observations (b : ShapeBaseline) (context : bytes) : Z :=
  match b_contexts b !! context with Some c => cx_observations c | None => 0 end.
Definition hit_rate (b : ShapeBaseline) (context : bytes) : f64 :=
  match b_contexts b !! context with Some c => context_hit_rate c | None => f64_zero end.

(** ** Drift *)

Definition count_window (window : list Z) : gmap Z f64 :=
  fold_left (fun m s => <[s := f64_add (default f64_zero (m !! s)) f64_one]> m) window ∅.

Definition psi_term (current : gmap Z f64) (n : f64) (reference : Distribution) (psi : f64) (k : Z) : f64 :=
  let p := f_max (f64_div (default f64_zero (current !! k)) n) EPS in
  let q := f_max (dist_p reference k) EPS in
  f64_add psi (f64_mul (f64_sub p q) (f64_ln (f64_div p q))).

Definition drift (b : ShapeBaseline) (context : bytes) : f64 :=
  match b_contexts b !! context, sn_contexts (b_reference b) !! context with
  | Some ctx, Some reference =>
      if bool_decide (cx_window ctx = []) || fle (total reference) f64_zero then f64_zero
      else
        let current := count_window (cx_window ctx) in
        let n := f64_of_Z (Z.of_nat (length (cx_window ctx))) in
        let keys := (hash_iter current).*1 ++ filter (fun k => current !! k = None) (hash_iter (weights reference)).*1 in
        fold_left (psi_term current n reference) keys f64_zero
  | _, _ => f64_zero
  end.

(** ** Snapshots *)

Definition snapshot (b : ShapeBaseline) : ShapeBaseline * BaselineSnapshot :=
  let reference := mkSnapshot (u64_add (sn_version (b_reference b)) 1) (b_global b) (cx_dist <$> b_contexts b) (b_observations b) in
  (mkBaseline (b_unit b) (b_global b) (b_contexts b) (b_observations b) reference, reference).

Definition restore (s : BaselineSnapshot) : ShapeBaseline :=
  mkBaseline f64_one (sn_global s)
    ((fun dist => mkContext (cx_observations context_default) dist (cx_window context_default)
                    (cx_predictions context_default) (cx_hits context_default)) <$> sn_contexts s)
    (sn_observations s) s.

(** ** Speculation *)

Record Speculation : Type := mkSpeculation {
  sp_sliver : option Z;
  sp_confidence : f64;
  sp_predictability : f64;
  sp_observations : Z;
  sp_drift : f64;
}.

Definition MIN_OBSERVATIONS : Z := 30.

Definition actionable (s : Speculation) : bool :=
  bool_decide (is_Some (sp_sliver s)) && fge (sp_confidence s) SPECULATION_CONFIDENCE
  && (MIN_OBSERVATIONS <=? sp_observations s) && fle (sp_drift s) DRIFT_THRESHOLD.

Definition why (s : Speculation) : bytes :=
  if bool_decide (sp_sliver s = None) then str "unseen: no prediction for this context yet"
  else if sp_observations s <? MIN_OBSERVATIONS then str "warming: too few observations to believe any confidence"
  else if fgt (sp_drift s) DRIFT_THRESHOLD then str "drifting: the baseline describes a context that has changed"
  else if flt (sp_confidence s) SPECULATION_CONFIDENCE
  then str "megamorphic: no single shape dominates enough to bet on"
  else str "actionable: one shape dominates a stable, well-observed context".

(** [Rrd::speculation] *)
Definition speculation (b : ShapeBaseline) (context : bytes) : Speculation :=
  let predicted := predict b context in
  mkSpeculation (fst <$> predicted) (default f64_zero (snd <$> predicted)) (predictability b context)
    (context_observations b context) (drift b context).
End orders.

(** ** What the baseline keeps of its observations *)

(** One observation: its context, its sliver and the prediction made before. *)
Record Observation : Type := mkObs { o_context : bytes; o_sliver : Z; o_predicted : option Z }.

Definition observe_all (b : ShapeBaseline) (l : list Observation) : ShapeBaseline :=
  fold_left (fun b o => (observe b (o_context o) (o_sliver o) (o_predicted o)).1) l b.

Definition lastn {A} (n : nat) (l : list A) : list A := drop (length l - n) l.

Definition predicted_of (l : list Observation) : list Observation := filter (fun o => is_Some (o_predicted o)) l.
Definition hits_of (l : list Observation) : list Observation := filter (fun o => o_predicted o = Some (o_sliver o)) l.

(** The statistics of a context after the observations [l] of it. *)
Definition context_tracks (l : list Observation) (c : ContextStats) : Prop :=
  cx_observations c = Z.of_nat (length l)
  /\ dom (weights (cx_dist c)) = list_to_set (map o_sliver l)
  /\ cx_window c = lastn WINDOW (map o_sliver l)
  /\ cx_predictions c = Z.of_nat (length (predicted_of l))
  /\ cx_hits c = Z.of_nat (length (hits_of l)).

Lemma lastn_snoc {A} (n : nat) (l : list A) (x : A) : (0 < n)%nat ->
  (let w := lastn n l ++ [x] in if (n <? length w)%nat then tail w else w) = lastn n (l ++ [x]).
Proof.
  intros Hn. cbv zeta. unfold lastn. rewrite !length_app, length_drop. cbn [length].
  destruct (Nat.ltb_spec n (length l - (length l - n) + 1)) as [Hlt|Hge].
  - rewrite drop_app_le by lia. replace (length l + 1 - n)%nat with (S (length l - n)) by lia.
    destruct (drop (length l - n) l) as [|y r] eqn:E.
    { apply (f_equal length) in E. rewrite length_drop in E. cbn in E. lia. }
    cbn [tail app]. f_equal. replace (S (length l - n))%nat with ((length l - n) + 1)%nat by lia. by rewrite <- drop_drop, E.
  - replace (length l - n)%nat with 0%nat by lia. replace (length l + 1 - n)%nat with 0%nat by lia. done.
Qed.

Lemma filter_length_le {A} (P : A -> Prop) `{forall x, Decision (P x)} (l : list A) : (length (filter P l) <= length l)%nat.
Proof. apply length_filter. Qed.

Lemma u64_succ n : Z.of_nat n + 1 < two64 -> u64_add (Z.of_nat n) 1 = Z.of_nat (S n).
Proof. intros Hn. unfold u64_add. rewrite Z.mod_small; lia. Qed.

Lemma settle_tracks l c s unit p o : context_tracks l c -> Z.of_nat (length l) + 1 < two64 ->
  o_sliver o = s -> o_predicted o = p -> context_tracks (l ++ [o]) (settle c s unit p).1.
Proof.
  intros (H1 & H2 & H3 & H4 & H5) Hl Hs Hp.
  assert (forall Q (HQ : forall x, Decision (Q x)), Z.of_nat (length (filter Q l)) + 1 < two64) as Hf.
  { intros Q HQ. pose proof (filter_length_le Q l). lia. }
  assert (u64_add (cx_observations c) 1 = Z.of_nat (length (l ++ [o]))) as E1.
  { rewrite H1, u64_succ by lia. rewrite length_app. cbn. lia. }
  assert (dom (weights (dist_add (cx_dist c) s unit)) = (list_to_set (map o_sliver (l ++ [o])) : gset Z)) as E2.
  { unfold dist_add. cbn [weights]. rewrite dom_insert_L, H2, map_app, list_to_set_app_L. cbn. rewrite Hs. set_solver. }
  assert (push_window (cx_window c) s = lastn WINDOW (map o_sliver (l ++ [o]))) as E3.
  { rewrite map_app. cbn [map]. rewrite Hs, <- lastn_snoc by (unfold WINDOW; lia). unfold push_window. by rewrite H3. }
  rewrite length_app in E1. unfold predicted_of in H4. unfold hits_of in H5. unfold settle, context_tracks, predicted_of, hits_of. rewrite !filter_app, !length_app.
  destruct p as [p|]; cbn [fst cx_observations cx_dist cx_window cx_predictions cx_hits]; split_and!; try done.
  - rewrite H4, u64_succ by apply Hf. rewrite filter_cons_True by (by rewrite Hp). cbn. lia.
  - destruct (Z.eqb_spec p s) as [->|Hne].
    + rewrite H5, u64_succ by apply Hf. rewrite filter_cons_True by (by rewrite Hp, Hs). cbn. lia.
    + rewrite filter_cons_False by (rewrite Hp, Hs; congruence). cbn. lia.
  - rewrite filter_cons_False by (rewrite Hp; by intros [? ?]). cbn. lia.
  - rewrite filter_cons_False by (rewrite Hp; done). cbn. lia.
Qed.

Lemma rescale_tracks l c by_ : context_tracks l c -> context_tracks l (rescale_context by_ c).
Proof. intros (H1 & H2 & H3 & H4 & H5). split_and!; try done. cbn. by rewrite dom_fmap_L. Qed.

Definition baseline_tracks (l : list Observation) (b : ShapeBaseline) : Prop :=
  b_observations b = Z.of_nat (length l)
  /\ dom (weights (b_global b)) = list_to_set (map o_sliver l)
  /\ dom (b_contexts b) = list_to_set (map o_context l)
  /\ map_Forall (fun context c => context_tracks (filter (fun o => o_context o = context) l) c) (b_contexts b).

(** What [observe] does, apart from the weights. *)
Lemma observe_cases b context sliver predicted : exists unit by_ f,
  let b' := (observe b context sliver predicted).1 in
  let ctx := (settle (default context_default (b_contexts b !! context)) sliver unit predicted).1 in
  b_observations b' = u64_add (b_observations b) 1 /\ b_reference b' = b_reference b
  /\ (f = id \/ f = rescale_context by_)
  /\ b_contexts b' = f <$> <[context := ctx]> (b_contexts b)
  /\ dom (weights (b_global b')) = {[ sliver ]} ∪ dom (weights (b_global b)).
Proof.
  unfold observe. set (unit := if feq (b_unit b) f64_zero then f64_one else b_unit b).
  exists unit, (f64_div unit LAMBDA). destruct (settle _ _ _ _) as [ctx hit] eqn:E.
  destruct (fgt (f64_div unit LAMBDA) RESCALE_AT);
    [exists (rescale_context (f64_div unit LAMBDA))|exists id]; cbn [fst b_observations b_reference b_contexts b_global].
  - split_and!; [done|done|by right|done|]. cbn. by rewrite dom_fmap_L, dom_insert_L.
  - split_and!; [done|done|by left|by rewrite map_fmap_id|]. cbn. by rewrite dom_insert_L.
Qed.

Lemma observe_tracks l b o : baseline_tracks l b -> Z.of_nat (length l) + 1 < two64 ->
  baseline_tracks (l ++ [o]) (observe b (o_context o) (o_sliver o) (o_predicted o)).1.
Proof.
  intros (H1 & H2 & H3 & H4) Hl.
  destruct (observe_cases b (o_context o) (o_sliver o) (o_predicted o)) as (unit & by_ & f & E1 & _ & Ef & E2 & E3).
  set (b' := (observe _ _ _ _).1) in *. clearbody b'. split_and!.
  - rewrite E1, H1, u64_succ by lia. rewrite length_app. cbn. lia.
  - rewrite E3, H2, map_app, list_to_set_app_L. cbn. set_solver.
  - rewrite E2, dom_fmap_L, dom_insert_L, H3, map_app, list_to_set_app_L. cbn. set_solver.
  - intros k c. rewrite E2, lookup_fmap, fmap_Some. intros (c' & Hc' & ->).
    enough (context_tracks (filter (fun o => o_context o = k) (l ++ [o])) c') as Ht.
    { destruct Ef as [->| ->]; [done|by apply rescale_tracks]. }
    rewrite filter_app. apply lookup_insert_Some in Hc' as [[<- <-]|[Hne Hc']].
    + rewrite filter_cons_True by done. cbn [filter list_filter]. apply settle_tracks; [|pose proof (filter_length_le (fun o0 => o_context o0 = o_context o) l); lia|done|done].
      destruct (b_contexts b !! o_context o) as [c|] eqn:Ec; [by apply (H4 _ _ Ec)|]. cbn [default].
      assert (filter (fun o0 => o_context o0 = o_context o) l = []) as ->; [|by repeat split].
      apply not_elem_of_dom in Ec. rewrite H3 in Ec. apply elem_of_nil_inv. intros o' [Ho' Hin]%list_elem_of_filter.
      apply Ec, elem_of_list_to_set, list_elem_of_fmap. by exists o'.
    + rewrite filter_cons_False by done. cbn [filter list_filter]. rewrite app_nil_r. by apply (H4 _ _ Hc').
Qed.

(** A fresh baseline that has folded in a sequence of observations has, for
    every context seen and no other, the number of its observations, the set
    of its slivers, the last 128 of them in order, and a ledger that counts
    the predictions issued and those that were right. *)
Theorem baseline_tracks_stream l : Z.of_nat (length l) < two64 -> baseline_tracks l (observe_all baseline_new l).
Proof.
  induction l as [|o l IH] using rev_ind; intros Hl.
  { by split_and!. }
  rewrite length_app in Hl. cbn in Hl. unfold observe_all. rewrite fold_left_app. cbn [fold_left].
  apply observe_tracks; [apply IH; lia|lia].
Qed.

Lemma baseline_tracks_stream_witness : let l := [mkObs (str "feed") 1 None; mkObs (str "feed") 2 (Some 1)] in
  Z.of_nat (length l) < two64 /\ baseline_tracks l (observe_all baseline_new l).
Proof. split; [done|]. by apply baseline_tracks_stream. Defined.

(** ** Predictions *)

Section predictions.
Context `{HashOrder} `{Ln64} {HL : HashOrderLaws}.

(** One pass of the daemon: the prediction is the baseline's own. *)
Definition live_step (b : ShapeBaseline) (x : bytes * Z) : ShapeBaseline :=
  (observe b x.1 x.2 (fst <$> predict b x.1)).1.

Lemma argmax_single d s : dom (weights d) = {[ s ]} -> exists p, argmax d = Some (s, p).
Proof.
  intros Hd. apply dom_singleton_inv_L in Hd as [w Hw]. unfold argmax.
  pose proof (hash_iter_perm (weights d)) as Hp. rewrite Hw in Hp. rewrite map_to_list_singleton in Hp.
  rewrite Hw. apply Permutation_singleton_r in Hp as ->. cbn. eauto.
Qed.

(** What is known of a context all of whose [n] slivers are [s]. *)
Definition monomorphic (s : Z) (n : nat) (c : option ContextStats) : Prop :=
  match n, c with
  | O, None => True
  | S n, Some c => dom (weights (cx_dist c)) = {[ s ]} /\ cx_predictions c = Z.of_nat n /\ cx_hits c = Z.of_nat n
  | _, _ => False
  end.

Lemma monomorphic_step b k context s sl n : monomorphic s n (b_contexts b !! k) -> Z.of_nat n < two64 ->
  (context = k -> sl = s) ->
  monomorphic s (if decide (context = k) then S n else n) (b_contexts (live_step b (context, sl)) !! k).
Proof.
  intros Hm Hn Hs. unfold live_step. cbn [fst snd].
  destruct (observe_cases b context sl (fst <$> predict b context)) as (unit & by_ & f & _ & _ & Ef & E2 & _).
  set (b' := (observe _ _ _ _).1) in *. clearbody b'. rewrite E2, lookup_fmap.
  assert (forall n c, monomorphic s n c -> monomorphic s n (f <$> c)) as Hf.
  { intros m [c|] Hc; [|done]. destruct Ef as [->| ->]; [done|]. destruct m; [done|]. cbn. by rewrite dom_fmap_L. }
  apply Hf. clear Hf E2 Ef f by_. destruct (decide (context = k)) as [->|Hne]; [|by rewrite lookup_insert_ne].
  rewrite lookup_insert_eq, (Hs eq_refl) in *. clear Hs. unfold predict.
  destruct (b_contexts b !! k) as [c|]; cbn [mbind option_bind].
  - destruct n as [|n]; [done|]. destruct Hm as (Hd & Hp & Hh).
    destruct (argmax_single _ _ Hd) as [p ->]. cbn [fmap option_fmap option_map fst settle default from_option id].
    rewrite Z.eqb_refl. cbn [fst monomorphic cx_dist cx_predictions cx_hits]. unfold dist_add. cbn [weights].
    rewrite dom_insert_L, Hd, Hp, Hh, !u64_succ by lia. split_and!; [set_solver|done|done].
  - destruct n as [|n]; [|done]. cbn. by rewrite dom_insert_L, dom_empty_L, (right_id_L ∅ (∪)).
Qed.

Lemma live_monomorphic l k s : (forall x, x ∈ l -> x.1 = k -> x.2 = s) -> Z.of_nat (length l) < two64 ->
  monomorphic s (length (filter (fun x => x.1 = k) l)) (b_contexts (fold_left live_step l baseline_new) !! k).
Proof.
  induction l as [|[context sl] l IH] using rev_ind; intros Hs Hl; [done|].
  rewrite length_app in Hl. cbn in Hl. rewrite fold_left_app. cbn [fold_left].
  pose proof (monomorphic_step (fold_left live_step l baseline_new) k context s sl (length (filter (fun x => x.1 = k) l))) as Hstep.
  rewrite filter_app, length_app, filter_cons. cbn [fst].
  replace (_ + _)%nat with (if decide (context = k) then S (length (filter (fun x => x.1 = k) l)) else length (filter (fun x : bytes * Z => x.1 = k) l)).
  - apply Hstep.
    + apply IH; [|lia]. intros x Hx. apply Hs, elem_of_app. by left.
    + pose proof (filter_length_le (fun x => x.1 = k) l). lia.
    + intros E. apply (Hs (context, sl)); [|done]. apply elem_of_app. right. by left.
  - destruct (decide (context = k)); cbn; lia.
Qed.

(** A context that only ever sees one sliver is learned at once, whatever the
    other contexts see and however the weights are rescaled: after the first
    payload every prediction is issued and right, the next one will be that
    sliver, and the context counts as fully predictable. *)
Theorem stable_stream_predicted l k s : (forall x, x ∈ l -> x.1 = k -> x.2 = s) -> Z.of_nat (length l) < two64 ->
  let n := length (filter (fun x => x.1 = k) l) in
  let b := fold_left live_step l baseline_new in
  (0 < n)%nat ->
  exists c, b_contexts b !! k = Some c /\ cx_predictions c = Z.of_nat (n - 1) /\ cx_hits c = Z.of_nat (n - 1)
    /\ fst <$> predict b k = Some s /\ predictability b k = f64_one.
Proof.
  intros Hs Hl n b Hn. pose proof (live_monomorphic l k s Hs Hl) as Hm. fold n b in Hm.
  destruct n as [|n]; [lia|]. unfold predict, predictability. destruct (b_contexts b !! k) as [c|]; [|done].
  destruct Hm as (Hd & Hp & Hh). exists c. replace (S n - 1)%nat with n by lia. split_and!; [done..| |].
  - destruct (argmax_single _ _ Hd) as [p E]. cbn [mbind option_bind]. by rewrite E.
  - unfold dist_predictability. rewrite <- size_dom, Hd, size_singleton. done.
Qed.

(** A committed snapshot restores every prediction and the count of all
    observations, becomes the reference, and nothing has drifted from it. *)
Theorem restore_snapshot b k :
  let '(b', s) := snapshot b in
  let r := restore s in
  predict r k = predict b k /\ predictability r k = predictability b k
  /\ b_observations r = b_observations b /\ b_reference r = b_reference b'
  /\ drift r k = f64_zero /\ (forall j, predict b' j = predict b j)
  /\ sn_version s = u64_add (sn_version (b_reference b)) 1.
Proof.
  unfold snapshot, restore, predict, predictability, drift. cbn.
  rewrite !lookup_fmap. split_and!; [by destruct (b_contexts b !! k)..|done|done| |done|done].
  destruct (b_contexts b !! k); [|done]. cbn. done.
Qed.

(** Speculation is enabled exactly when the reason given says so. *)
Lemma actionable_why s : is_nan (sp_confidence s) = false -> is_nan (sp_drift s) = false ->
  actionable s = bool_decide (why s = str "actionable: one shape dominates a stable, well-observed context").
Proof.
  assert (forall x y, is_nan x = false -> is_nan y = false -> flt x y = negb (fge x y)) as Hcmp.
  { intros x y Hx Hy. unfold flt, fge, SFltb, SFleb. destruct x as [[]|[]| |[] p e], y as [[]|[]| |[] p' e']; try done; cbn;
      rewrite (Z.compare_antisym e e'); destruct (e ?= e')%Z; try done; cbn; rewrite ?Pos.compare_cont_spec, (Pos.compare_antisym p p');
      by destruct (p ?= p')%positive. }
  intros Hc Hd. unfold actionable, why, fgt, fle in *. destruct (sp_sliver s) as [sl|].
  2: { by rewrite (bool_decide_eq_true_2 (None = None)) by done. }
  rewrite (bool_decide_eq_false_2 (Some sl = None)) by done. rewrite bool_decide_eq_true_2 by eauto. cbn [andb].
  rewrite (Hcmp DRIFT_THRESHOLD), (Hcmp (sp_confidence s)) by done. unfold fge.
  rewrite Z.ltb_antisym.
  destruct (SFleb SPECULATION_CONFIDENCE (sp_confidence s)), (MIN_OBSERVATIONS <=? sp_observations s), (SFleb (sp_drift s) DRIFT_THRESHOLD); done.
Qed.
End predictions.

(** ** What a restart loses *)

Fixpoint observe_times (n : nat) (context : bytes) (sliver : Z) (b : ShapeBaseline) : ShapeBaseline :=
  match n with O => b | S n => observe_times n context sliver (observe b context sliver None).1 end.

#[export] Instance unlogged : Ln64 := id.

Lemma stable_stream_predicted_witness : let l := [(str "feed", 1); (str "other", 2); (str "feed", 1)] in
  exists c, b_contexts (fold_left live_step l baseline_new) !! str "feed" = Some c
    /\ cx_predictions c = 1 /\ cx_hits c = 1.
Proof.
  assert (length (filter (fun x => x.1 = str "feed") [(str "feed", 1); (str "other", 2); (str "feed", 1)]) = 2%nat) as En
    by (vm_compute; reflexivity).
  destruct (stable_stream_predicted [(str "feed", 1); (str "other", 2); (str "feed", 1)] (str "feed") 1) as (c & Hc & Hp & Hh & _).
  - intros x. rewrite !elem_of_cons. intros [->|[->|[->|Hx]]] E; [done|done|done|by apply elem_of_nil in Hx].
  - done.
  - rewrite En. lia.
  - rewrite En in Hp, Hh. exists c. split; [exact Hc|]. split; [exact Hp|exact Hh].
Defined.

(** The weights of a snapshot are in the unit of its time, and a restored
    baseline starts again with the unit one: what is observed after a restart
    weighs less than what was observed before it. After 300 payloads of one
    shape and 260 of another the living baseline expects the new shape; the
    same stream with a restart in between still expects the old one. *)
Theorem restart_slows_decay :
  let c := str "feed" in
  let before := observe_times 300 c 1 baseline_new in
  let living := observe_times 260 c 2 before in
  let restarted := observe_times 260 c 2 (restore (snapshot before).2) in
  fst <$> predict living c = Some 2 /\ fst <$> predict restarted c = Some 1
  /\ b_observations living = 560 /\ b_observations restarted = 560.
Proof. by vm_compute. Qed.

(** The number of payloads of a context "ever" starts again as well, so a
    context that had earned speculation is warming up after a restart. *)
Theorem restart_forgets_observations :
  let c := str "feed" in
  let before := observe_times 40 c 1 baseline_new in
  context_observations before c = 40 /\ context_observations (restore (snapshot before).2) c = 0
  /\ actionable (@speculation plain_order unlogged before c) = true
  /\ actionable (@speculation plain_order unlogged (restore (snapshot before).2) c) = false.
Proof. by vm_compute. Qed.
