(* ===== verification/Rrd.v ===== *)
(** * The reason-ready object JIT (crates/rrd/src/lib.rs, rro.rs)

    Distilling one payload: the gates, the speculation of the baseline, the
    registration of the shape, the cached plan of its sliver and its
    execution. Each step below is one critical section of the code; the daemon
    runs them in order, and concurrent callers interleave them ([RrdSpec]).
    Events are not modelled. *)
From Stdlib Require Import SpecFloat.
From S2P Require Import Prelude Floats ByteOrder Utf8 Json Quant Text Model Store RrdShape RrdBaseline.
From S2P Require Import RrdGates.
#[local] Set Default Goal Selector "!".
#[local] Set Warnings "-clear-no-such-hyp".
Local Open Scope Z_scope.

Section rrd.
Context `{SerdeNumber} `{Unicode} `{HashOrder} `{Ln64}.

(** ** Reason-ready objects *)

Record ReadinessHints : Type := mkHints {
  has_identity : bool;
  has_time : bool;
  has_title : bool;
  has_content : bool;
  tag_confidence : f32;
  ambiguity_margin : f32;
}.
Definition hints_default : ReadinessHints := mkHints false false false false f32_zero f32_zero.

Record Rro : Type := mkRro {
  rro_doc_id : bytes;
  rro_sliver_id : Z;
  rro_mode : Mode.Mode;
  rro_fields : Metadata;
  rro_tags : list RoutedTag;
  rro_hints : ReadinessHints;
  rro_plan_version : Z;
  rro_stamp : SourceStamp;
  rro_gate : GateVerdict;
  rro_signals : LexicalSignals;
}.

Record Rrd : Type := mkRrd {
  r_registry : ShapeRegistry;
  r_plans : gmap Z Plan;
  r_router : SemanticRouter;
  r_l0 : L0Config;
  r_baseline : ShapeBaseline;
  r_hits : Z;
  r_compiles : Z;
}.

Definition with_router (router : SemanticRouter) : Rrd := mkRrd ∅ ∅ router l0_default baseline_new 0 0.
Definition rrd_new : Rrd := with_router [].

(** ** Executing a plan *)

Definition role_key (r : FieldRole.FieldRole) : bytes :=
  match r with
  | FieldRole.Identity => str "identity" | FieldRole.Time => str "time" | FieldRole.Title => str "title"
  | FieldRole.Content => str "content" | FieldRole.Salience => str "salience" | FieldRole.Other => str "other"
  end.

(** [serde_json::Map::insert], on the members in key order. *)
Fixpoint obj_insert (k : bytes) (v : Json) (m : list (bytes * Json)) : list (bytes * Json) :=
  match m with
  | [] => [(k, v)]
  | (k', v') :: m' =>
      match bcmp k k' with
      | Lt => (k, v) :: m
      | Eq => (k, v) :: m'
      | Gt => (k', v') :: obj_insert k v m'
      end
  end.

Definition role_of_field (plan : Plan) (field : bytes) : FieldRole.FieldRole :=
  default FieldRole.Other (pl_roles plan !! field).

Definition is_null (v : Json) : bool := match v with JNull => true | _ => false end.

Definition hint_step (role : FieldRole.FieldRole) (nonempty : bool) (h : ReadinessHints) : ReadinessHints :=
  if negb nonempty then h
  else match role with
  | FieldRole.Identity => mkHints true (has_time h) (has_title h) (has_content h) (tag_confidence h) (ambiguity_margin h)
  | FieldRole.Time => mkHints (has_identity h) true (has_title h) (has_content h) (tag_confidence h) (ambiguity_margin h)
  | FieldRole.Title => mkHints (has_identity h) (has_time h) true (has_content h) (tag_confidence h) (ambiguity_margin h)
  | FieldRole.Content => mkHints (has_identity h) (has_time h) (has_title h) true (tag_confidence h) (ambiguity_margin h)
  | _ => h
  end.

Definition field_step (plan : Plan) (st : Metadata * ReadinessHints) (f : bytes * Json) : Metadata * ReadinessHints :=
  let role := role_of_field plan f.1 in
  let slot := default (JObj []) (st.1 !! role_key role) in
  let slot := match slot with JObj m => JObj (obj_insert f.1 f.2 m) | v => v end in
  (<[role_key role := slot]> st.1, hint_step role (negb (is_null f.2)) st.2).

(** [text.trim().is_empty()] *)
Definition blank (text : bytes) : bool := forallb u_whitespace (chars text).

Definition execute (plan : Plan) (text : bytes) (metadata : Metadata) : Metadata * ReadinessHints :=
  fold_left (field_step plan) (btree_iter metadata)
    (∅, mkHints false false false (negb (blank text)) f32_zero f32_zero).

(** ** One payload *)

Record Payload : Type := mkPayload {
  py_doc_id : bytes;
  py_text : bytes;
  py_metadata : Metadata;
  py_embedding : option (list f32);
  py_stamp : SourceStamp;
}.

Definition l0_gate (l0 : L0Config) (p : Payload) : GateVerdict :=
  l0_deterministic l0 (py_text p) (Z.of_nat (size (py_metadata p))) false.

Definition blocked (p : Payload) : Rro :=
  mkRro (py_doc_id p) (2 ^ 64 - 1) Mode.Unshaped ∅ [] hints_default 0 (py_stamp p) Block signals_default.

Definition combine_gate (l0 : GateVerdict) (signals : LexicalSignals) : GateVerdict :=
  match l0, signals_verdict signals with
  | Flag, _ | _, Flag => Flag
  | _, _ => Pass
  end.

(** Where the payload came from. *)
Definition context_of (s : SourceStamp) : bytes :=
  match st_channel s, st_source s, st_project s with
  | Some c, _, _ => c
  | None, Some c, _ => c
  | None, None, Some c => c
  | None, None, None => str "global"
  end.

(** The read of the baseline before the shape is known. *)
Definition speculate (r : Rrd) (p : Payload) : option Z := fst <$> predict (r_baseline r) (context_of (py_stamp p)).

(** Registering the shape. *)
Definition identify_shape (r : Rrd) (p : Payload) : Rrd * (Z * bool) :=
  let '(registry, idn) := registry_observe (r_registry r) (fingerprint_of (py_metadata p)) (identify (py_metadata p)) in
  (mkRrd registry (r_plans r) (r_router r) (r_l0 r) (r_baseline r) (r_hits r) (r_compiles r), idn).

(** Settling the speculation. *)
Definition settle_baseline (r : Rrd) (p : Payload) (id : Z) (predicted : option Z) : Rrd :=
  mkRrd (r_registry r) (r_plans r) (r_router r) (r_l0 r)
    (observe (r_baseline r) (context_of (py_stamp p)) id predicted).1 (r_hits r) (r_compiles r).

Definition compiled_for (p : Payload) (id : Z) : Plan :=
  compile id (identify (py_metadata p)) (fingerprint_of (py_metadata p)).

Definition insert_plan (r : Rrd) (id : Z) (plan : Plan) : Rrd :=
  mkRrd (r_registry r) (<[id := plan]> (r_plans r)) (r_router r) (r_l0 r) (r_baseline r) (r_hits r) (r_compiles r).
Definition count_compile (r : Rrd) : Rrd :=
  mkRrd (r_registry r) (r_plans r) (r_router r) (r_l0 r) (r_baseline r) (r_hits r) (u64_add (r_compiles r) 1).
Definition count_hit (r : Rrd) : Rrd :=
  mkRrd (r_registry r) (r_plans r) (r_router r) (r_l0 r) (r_baseline r) (u64_add (r_hits r) 1) (r_compiles r).

(** The inline cache. *)
Definition plan_for (r : Rrd) (p : Payload) (id : Z) (is_new : bool) : Rrd * Plan :=
  let compiled := compiled_for p id in
  if is_new then (count_compile (insert_plan r id compiled), compiled)
  else
    let r := count_hit r in
    match r_plans r !! id with
    | Some plan => (r, plan)
    | None => (insert_plan r id compiled, compiled)
    end.

(** The object once the sliver and its plan are known; no lock is held. *)
Definition assemble (router : SemanticRouter) (l0 : L0Config) (p : Payload) (id : Z) (plan : Plan) : Rro :=
  let signals := l1_lexical (py_text p) in
  let '(by_role, hints) := execute plan (py_text p) (py_metadata p) in
  let tags := match py_embedding p with Some e => route router e | None => [] end in
  let hints :=
    mkHints (has_identity hints) (has_time hints) (has_title hints) (has_content hints)
      (match tags with t :: _ => rd_score t | [] => f32_zero end) (l2_ambiguity (map rd_score tags)) in
  mkRro (py_doc_id p) id (identify (py_metadata p)) by_role tags hints (pl_version plan) (py_stamp p)
    (combine_gate (l0_gate l0 p) signals) signals.

Definition distill_stamped (r : Rrd) (p : Payload) : Rrd * Rro :=
  if bool_decide (l0_gate (r_l0 r) p = Block) then (r, blocked p)
  else
    let predicted := speculate r p in
    let '(r, (id, is_new)) := identify_shape r p in
    let r := settle_baseline r p id predicted in
    let '(r, plan) := plan_for r p id is_new in
    (r, assemble (r_router r) (r_l0 r) p id plan).

(** [distill]: an empty stamp. *)
Definition distill (r : Rrd) (doc_id text : bytes) (metadata : Metadata) (embedding : option (list f32)) : Rrd * Rro :=
  distill_stamped r (mkPayload doc_id text metadata embedding stamp_default).

Definition route_tags (r : Rrd) (e : list f32) : list RoutedTag := route (r_router r) e.
Definition baseline_snapshot (r : Rrd) : Rrd * BaselineSnapshot :=
  let '(b, s) := snapshot (r_baseline r) in
  (mkRrd (r_registry r) (r_plans r) (r_router r) (r_l0 r) b (r_hits r) (r_compiles r), s).
Definition restore_baseline (r : Rrd) (s : BaselineSnapshot) : Rrd :=
  mkRrd (r_registry r) (r_plans r) (r_router r) (r_l0 r) (restore s) (r_hits r) (r_compiles r).
Definition stats (r : Rrd) : Z * Z := (r_hits r, r_compiles r).
Definition sliver_count (r : Rrd) : nat := registry_len (r_registry r).

(** ** What a plan makes of the fields *)

Lemma role_key_inj a b : role_key a = role_key b -> a = b.
Proof. destruct a, b; done. Qed.

Lemma obj_insert_last m k v : Forall (fun e : bytes * Json => blt e.1 k) m -> obj_insert k v m = m ++ [(k, v)].
Proof.
  induction 1 as [|[k' v'] m Hk _ IH]; [done|]. cbn [obj_insert]. cbn in Hk. unfold blt in Hk.
  assert (bcmp k k' = Gt) as ->; [|by rewrite IH]. rewrite bcmp_antisym, Hk. done.
Qed.

(** The fields of one role, in key order. *)
Definition fields_of (plan : Plan) (role : FieldRole.FieldRole) (l : list (bytes * Json)) : list (bytes * Json) :=
  filter (fun f => role_of_field plan f.1 = role) l.

Definition some_field (plan : Plan) (role : FieldRole.FieldRole) (l : list (bytes * Json)) : bool :=
  existsb (fun f => bool_decide (role_of_field plan f.1 = role) && negb (is_null f.2)) l.

Definition executed (plan : Plan) (content : bool) (l : list (bytes * Json)) (st : Metadata * ReadinessHints) : Prop :=
  (forall role, st.1 !! role_key role =
     match fields_of plan role l with [] => None | fs => Some (JObj fs) end)
  /\ (forall k, is_Some (st.1 !! k) -> exists role, k = role_key role)
  /\ st.2 = mkHints (some_field plan FieldRole.Identity l) (some_field plan FieldRole.Time l)
              (some_field plan FieldRole.Title l) (content || some_field plan FieldRole.Content l) f32_zero f32_zero.

Lemma field_step_executed plan content l f st : StronglySorted key_lt (l ++ [f]) ->
  executed plan content l st -> executed plan content (l ++ [f]) (field_step plan st f).
Proof.
  intros Hs (Hr & Hk & Hh). destruct f as [k v]. unfold field_step. cbn [fst snd].
  set (role := role_of_field plan k). unfold executed, fields_of in *. cbn [fst snd].
  assert (Forall (fun e : bytes * Json => blt e.1 k) (filter (fun f => role_of_field plan f.1 = role) l)) as Hlast.
  { apply Forall_forall. intros e [_ He]%list_elem_of_filter.
    apply StronglySorted_app in Hs as (Hs & _ & _). apply (Hs e (k, v) He). by left. }
  split_and!.
  - intros role'. rewrite filter_app, filter_cons. cbn [fst]. destruct (decide (role_of_field plan k = role')) as [<-|Hne].
    + fold role. rewrite lookup_insert_eq. cbn [filter list_filter]. rewrite Hr.
      destruct (filter _ l) as [|e fs] eqn:E; [done|]. cbn [default from_option id].
      rewrite obj_insert_last by done. done.
    + cbn [filter list_filter]. rewrite app_nil_r, lookup_insert_ne; [apply Hr|]. intros E%role_key_inj. by apply Hne.
  - intros k'. destruct (decide (k' = role_key role)) as [->|Hne]; [eauto|]. rewrite lookup_insert_ne by done. apply Hk.
  - rewrite Hh. unfold some_field, hint_step. rewrite !existsb_app. cbn [existsb fst snd]. fold role.
    destruct (is_null v); cbn [negb]; [rewrite !andb_false_r; cbn [orb]; by rewrite !orb_false_r|].
    rewrite !andb_true_r. by destruct role; cbn [orb has_identity has_time has_title has_content tag_confidence ambiguity_margin];
      repeat (rewrite bool_decide_eq_true_2 by done); repeat (rewrite bool_decide_eq_false_2 by done);
      rewrite ?orb_false_r, ?orb_true_r, ?orb_assoc.
Qed.

(** A plan groups every field under its role, or under "other" if the plan
    does not know it, in key order and with its value unchanged, and nothing
    else; a hint is set exactly by a field of its role that is not null, and
    the content hint by a text that is not blank as well. *)
Theorem execute_exact plan text metadata :
  executed plan (negb (blank text)) (btree_iter metadata) (execute plan text metadata).
Proof.
  unfold execute. pose proof (btree_iter_sorted metadata) as Hs. revert Hs. generalize (btree_iter metadata). clear metadata.
  intros l. induction l as [|f l IH] using rev_ind; intros Hs.
  - split_and!; [done| |by rewrite orb_false_r]. intros k [x Hx]. done.
  - rewrite fold_left_app. cbn [fold_left]. apply field_step_executed; [done|]. apply IH.
    by apply StronglySorted_app in Hs as (_ & ? & _).
Qed.
End rrd.
