(* ===== verification/RrdSpec.v ===== *)
(** * What the daemon promises

    Concurrent callers distil payloads through one shared cache. A caller is a
    program counter that stands before one of the critical sections of
    [distill_stamped]; a step runs one section of one caller. Whatever the
    interleaving, the cache is invisible in the objects produced. *)
From stdpp Require Import relations.
From S2P Require Import Prelude Floats ByteOrder Utf8 Json Quant Text Model Keys Store RrdShape.
From S2P Require Import RrdBaseline RrdGates Rrd.
#[local] Set Default Goal Selector "!".
#[local] Set Warnings "-clear-no-such-hyp".
Local Open Scope Z_scope.

Section spec.
Context `{SerdeNumber} `{Unicode} `{HashOrder} `{Ln64}.

(** ** Callers *)

Inductive Pc : Type :=
  | AtStart
  | Speculated (predicted : option Z)
  | Identified (predicted : option Z) (id : Z) (is_new : bool)
  | Settled (id : Z) (is_new : bool)
  | Inserted (id : Z) (plan : Plan)
  | Counted (id : Z)
  | Missed (id : Z)
  | Done (rro : Rro).

Definition finish (r : Rrd) (p : Payload) (id : Z) (plan : Plan) : Pc := Done (assemble (r_router r) (r_l0 r) p id plan).

(** The next critical section of a caller; [None] when it has returned. *)
Definition section (r : Rrd) (p : Payload) (pc : Pc) : option (Rrd * Pc) :=
  match pc with
  | AtStart => Some (r, if bool_decide (l0_gate (r_l0 r) p = Block) then Done (blocked p) else Speculated (speculate r p))
  | Speculated predicted => let '(r, (id, is_new)) := identify_shape r p in Some (r, Identified predicted id is_new)
  | Identified predicted id is_new => Some (settle_baseline r p id predicted, Settled id is_new)
  | Settled id true => let plan := compiled_for p id in Some (insert_plan r id plan, Inserted id plan)
  | Settled id false => Some (count_hit r, Counted id)
  | Inserted id plan => let r := count_compile r in Some (r, finish r p id plan)
  | Counted id => Some (r, match r_plans r !! id with Some plan => finish r p id plan | None => Missed id end)
  | Missed id => let plan := compiled_for p id in let r := insert_plan r id plan in Some (r, finish r p id plan)
  | Done _ => None
  end.

Fixpoint sections (n : nat) (r : Rrd) (p : Payload) (pc : Pc) : Rrd * Pc :=
  match n with
  | O => (r, pc)
  | S n => match section r p pc with Some (r, pc) => sections n r p pc | None => (r, pc) end
  end.

(** A caller that is alone computes [distill_stamped]. *)
Lemma distill_sections r p : let '(r', x) := distill_stamped r p in sections 6 r p AtStart = (r', Done x).
Proof.
  unfold distill_stamped. cbn [sections section]. destruct (bool_decide _); [done|]. cbn [section].
  destruct (identify_shape r p) as [r1 [id is_new]]. cbn [section]. unfold plan_for.
  destruct is_new; [done|]. cbn [section]. set (r2 := count_hit _).
  by destruct (r_plans r2 !! id).
Qed.

Abbreviation Callers := (list (Payload * Pc)).

Inductive cstep : Rrd * Callers -> Rrd * Callers -> Prop :=
  | cstep_caller r ts i p pc r' pc' : ts !! i = Some (p, pc) -> section r p pc = Some (r', pc') ->
      cstep (r, ts) (r', <[i := (p, pc')]> ts).

Definition start (router : SemanticRouter) (ps : list Payload) : Rrd * Callers :=
  (with_router router, map (fun p => (p, AtStart)) ps).

(** ** Counting callers *)

Definition count (f : Payload * Pc -> nat) (ts : Callers) : nat := sum_list_with f ts.

Lemma count_insert f ts i x y : ts !! i = Some x -> (count f (<[i := y]> ts) + f x = count f ts + f y)%nat.
Proof.
  revert i. induction ts as [|t ts IH]; intros [|i] E; [done..| |].
  - injection E as ->. cbn. lia.
  - specialize (IH i E). change (f t + count f (<[i:=y]> ts) + f x = f t + count f ts + f y)%nat. lia.
Qed.

Lemma count_le f ts : (forall x, f x <= 1)%nat -> (count f ts <= length ts)%nat.
Proof. intros Hf. induction ts as [|t ts IH]; [done|]. cbn. specialize (Hf t). unfold count in IH. lia. Qed.

Definition gated (p : Payload) : bool := bool_decide (l0_gate l0_default p = Block).

(** Has registered its shape; about to compile; about to count a hit; has
    settled the baseline. *)
Definition seen (t : Payload * Pc) : nat :=
  match t.2 with AtStart | Speculated _ => 0 | Done _ => if gated t.1 then 0 else 1 | _ => 1 end%nat.
Definition pending_new (t : Payload * Pc) : nat :=
  match t.2 with Identified _ _ true | Settled _ true | Inserted _ _ => 1 | _ => 0 end%nat.
Definition pending_old (t : Payload * Pc) : nat :=
  match t.2 with Identified _ _ false | Settled _ false => 1 | _ => 0 end%nat.
Definition settled (t : Payload * Pc) : nat :=
  match t.2 with AtStart | Speculated _ | Identified _ _ _ => 0 | Done _ => if gated t.1 then 0 else 1 | _ => 1 end%nat.

Definition key_of (p : Payload) : bytes := fingerprint_key (fingerprint_of (py_metadata p)).
Definition sliver_of (p : Payload) : Z := sliver_id (key_of p).

(** The object a payload distils to, from the payload alone. *)
Definition pure_distill (router : SemanticRouter) (p : Payload) : Rro :=
  if gated p then blocked p else assemble router l0_default p (sliver_of p) (compiled_for p (sliver_of p)).

(** ** The invariant *)

Variable router : SemanticRouter.
Variable ps : list Payload.

(** No two shapes of the payloads share a sliver. *)
Definition collision_free : Prop :=
  forall p p', p ∈ ps -> p' ∈ ps -> sliver_of p = sliver_of p' ->
    fingerprint_of (py_metadata p) = fingerprint_of (py_metadata p').
Context (Hfree : collision_free) (Hsmall : Z.of_nat (length ps) < two64).

Definition caller_ok (t : Payload * Pc) : Prop :=
  match t.2 with
  | AtStart => True
  | Speculated _ => gated t.1 = false
  | Identified _ id _ | Settled id _ | Counted id | Missed id => gated t.1 = false /\ id = sliver_of t.1
  | Inserted id plan => gated t.1 = false /\ id = sliver_of t.1 /\ plan = compiled_for t.1 id
  | Done x => x = pure_distill router t.1
  end.

Definition keys_seen (ts : Callers) : gset bytes := list_to_set (map (fun t => key_of t.1) (filter (fun t => seen t = 1%nat) ts)).

Record Inv (r : Rrd) (ts : Callers) : Prop := {
  inv_router : r_router r = router;
  inv_l0 : r_l0 r = l0_default;
  inv_payloads : ts.*1 = ps;
  inv_callers : Forall caller_ok ts;
  inv_registry : registry_ok (r_registry r);
  inv_dom : dom (r_registry r) = keys_seen ts;
  inv_plans : map_Forall (fun id plan => exists p, p ∈ ps /\ id = sliver_of p /\ plan = compiled_for p id) (r_plans r);
  inv_compiles : r_compiles r + Z.of_nat (count pending_new ts) = Z.of_nat (size (r_registry r));
  inv_hits : r_hits r + r_compiles r + Z.of_nat (count pending_new ts + count pending_old ts) = Z.of_nat (count seen ts);
  inv_baseline : b_observations (r_baseline r) = Z.of_nat (count settled ts);
  inv_nonneg : 0 <= r_hits r /\ 0 <= r_compiles r;
}.

(** The mode depends on the shape only. *)
Lemma identify_shape_only (m m' : Metadata) : fingerprint_of m = fingerprint_of m' -> identify m = identify m'.
Proof.
  intros E. unfold identify. enough ((btree_iter m).*1 = (btree_iter m').*1) as -> by done.
  apply (f_equal btree_iter) in E. unfold fingerprint_of in E. rewrite !btree_iter_fmap in E.
  apply (f_equal (map fst)) in E. by rewrite !map_map in E.
Qed.

Lemma same_plan p p' : p ∈ ps -> p' ∈ ps -> sliver_of p = sliver_of p' ->
  compiled_for p' (sliver_of p') = compiled_for p (sliver_of p).
Proof.
  intros Hp Hp' E. unfold compiled_for. rewrite <- E. pose proof (Hfree p p' Hp Hp' E) as Ef.
  by rewrite (identify_shape_only _ _ Ef), Ef.
Qed.

Lemma seen_le t : (seen t <= 1)%nat.
Proof. unfold seen. destruct t as [p []]; cbn; try lia. destruct (gated p); lia. Qed.
Lemma pending_le t : (pending_new t + pending_old t <= seen t)%nat.
Proof. unfold pending_new, pending_old, seen. destruct t as [p [| | ? ? []|? []| | | |]]; cbn; lia. Qed.
Lemma settled_le t : (settled t <= 1)%nat.
Proof. unfold settled. destruct t as [p []]; cbn; try lia. destruct (gated p); lia. Qed.

(** ** A step keeps it *)

Lemma keys_seen_insert ts i p pc pc' : ts !! i = Some (p, pc) ->
  keys_seen (<[i := (p, pc')]> ts) ∪ (if decide (seen (p, pc) = 1%nat) then {[ key_of p ]} else ∅)
  = keys_seen ts ∪ (if decide (seen (p, pc') = 1%nat) then {[ key_of p ]} else ∅).
Proof.
  intros E. pose proof (lookup_lt_Some _ _ _ E) as Hl.
  rewrite insert_take_drop by done. rewrite <- (take_drop_middle ts i (p, pc) E) at 3.
  unfold keys_seen. rewrite !filter_app, !map_app, !list_to_set_app_L. rewrite !filter_cons. cbn [fst].
  clear Hfree Hsmall. destruct (decide (seen (p, pc) = 1%nat)), (decide (seen (p, pc') = 1%nat)); cbn [map list_to_set fst]; set_solver.
Qed.

Lemma caller_elem (ts : Callers) i p pc : ts.*1 = ps -> ts !! i = Some (p, pc) -> p ∈ ps.
Proof. intros Ep E. rewrite <- Ep. apply list_elem_of_fmap. exists (p, pc). split; [done|]. by eapply list_elem_of_lookup_2. Qed.

Lemma insert_payloads (ts : Callers) i p pc pc' : ts.*1 = ps -> ts !! i = Some (p, pc) -> (<[i := (p, pc')]> ts).*1 = ps.
Proof.
  intros Ep E. rewrite list_fmap_insert, list_insert_id; [done|]. by rewrite list_lookup_fmap, E.
Qed.

Lemma count_small (ts : Callers) f : ts.*1 = ps -> (forall x, f x <= 1)%nat -> Z.of_nat (count f ts) < two64.
Proof.
  intros Ep Hf. pose proof (count_le f ts Hf) as Hle. apply (f_equal length) in Ep. rewrite length_fmap in Ep. lia.
Qed.

Lemma u64_incr x : 0 <= x -> x + 1 < two64 -> u64_add x 1 = x + 1.
Proof. intros. unfold u64_add. apply Z.mod_small. lia. Qed.

(** The facts on counts every case uses. *)
Ltac step_counts E p pc' :=
  pose proof (count_insert seen _ _ _ (p, pc') E) as Cseen;
  pose proof (count_insert pending_new _ _ _ (p, pc') E) as Cnew;
  pose proof (count_insert pending_old _ _ _ (p, pc') E) as Cold;
  pose proof (count_insert settled _ _ _ (p, pc') E) as Csettled;
  pose proof (keys_seen_insert _ _ _ _ pc' E) as Ckeys.

Lemma caller_seen p pc : gated p = false ->
  match pc with AtStart | Speculated _ => False | _ => True end -> seen (p, pc) = 1%nat.
Proof. unfold seen. cbn. intros Hg. destruct pc; cbn; try done. by rewrite Hg. Qed.
Lemma caller_settled p pc : gated p = false ->
  match pc with AtStart | Speculated _ | Identified _ _ _ => False | _ => True end -> settled (p, pc) = 1%nat.
Proof. unfold settled. cbn. intros Hg. destruct pc; cbn; try done. by rewrite Hg. Qed.

(** A section that leaves the registry, and moves a caller that is past it. *)
Lemma keys_same ts i p pc pc' : ts !! i = Some (p, pc) -> seen (p, pc) = seen (p, pc') ->
  keys_seen (<[i := (p, pc')]> ts) = keys_seen ts.
Proof.
  intros E Es. pose proof (keys_seen_insert _ _ _ _ pc' E) as C. rewrite <- Es in C.
  destruct (decide (seen (p, pc) = 1%nat)) as [H1'|]; [|by rewrite !(right_id_L ∅ (∪)) in C].
  assert (forall pc0, seen (p, pc0) = 1%nat -> forall ts0, ts0 !! i = Some (p, pc0) -> key_of p ∈ keys_seen ts0) as Hin.
  { intros pc0 H0' ts0 E0. unfold keys_seen. apply elem_of_list_to_set, list_elem_of_fmap. exists (p, pc0). split; [done|].
    apply list_elem_of_filter. split; [done|]. by eapply list_elem_of_lookup_2. }
  assert (key_of p ∈ keys_seen ts) by (by apply (Hin pc)).
  assert (key_of p ∈ keys_seen (<[i := (p, pc')]> ts)).
  { apply (Hin pc'); [by rewrite <- Es|]. apply list_lookup_insert_eq. by eapply lookup_lt_Some. }
  rewrite !(comm_L (∪) _ {[ key_of p ]}), !subseteq_union_1_L in C by (by apply singleton_subseteq_l). done.
Qed.

Lemma finish_pure r p id : r_router r = router -> r_l0 r = l0_default -> gated p = false -> id = sliver_of p ->
  finish r p id (compiled_for p id) = Done (pure_distill router p).
Proof. intros E1 E2 Hg ->. unfold finish, pure_distill. by rewrite Hg, E1, E2. Qed.

Lemma identify_shape_ok r p : registry_ok (r_registry r) ->
  let '(r', (id, is_new)) := identify_shape r p in
  (r_plans r' = r_plans r /\ r_router r' = r_router r /\ r_l0 r' = r_l0 r /\ r_baseline r' = r_baseline r
   /\ r_hits r' = r_hits r /\ r_compiles r' = r_compiles r)
  /\ registry_ok (r_registry r') /\ id = sliver_of p
  /\ dom (r_registry r') = {[ key_of p ]} ∪ dom (r_registry r)
  /\ size (r_registry r') = ((if is_new then 1 else 0) + size (r_registry r))%nat.
Proof.
  intros Hr. unfold identify_shape.
  pose proof (registry_observe_ok (r_registry r) (fingerprint_of (py_metadata p)) (identify (py_metadata p)) Hr) as Ho.
  destruct (registry_observe _ _ _) as [reg [id is_new]]. destruct Ho as (H1' & H2' & H3' & H4').
  cbn [r_registry r_plans r_router r_l0 r_baseline r_hits r_compiles]. split_and!; try done.
  rewrite <- !(size_dom (D := gset bytes)), H4', H3'. case_bool_decide as Hl.
  - rewrite size_union; [by rewrite size_singleton|]. apply disjoint_singleton_l. by apply not_elem_of_dom.
  - assert (key_of p ∈ dom (r_registry r)) as Hin.
    { apply elem_of_dom. unfold key_of. destruct (r_registry r !! _) eqn:El; [eauto|done]. }
    by rewrite subseteq_union_1_L by (by apply singleton_subseteq_l).
Qed.

Lemma section_inv r ts i p pc r' pc' : Inv r ts -> ts !! i = Some (p, pc) -> section r p pc = Some (r', pc') ->
  Inv r' (<[i := (p, pc')]> ts).
Proof.
  intros [Irouter Il0 Ip Ic Ireg Idom Iplans Icomp Ihits Ibase [In1 In2]] E Es.
  pose proof (caller_elem ts i p pc Ip E) as Hin. pose proof (insert_payloads ts i p pc pc' Ip E) as Ip'.
  assert (caller_ok (p, pc)) as Hpc by (exact (Forall_lookup_1 _ _ _ _ Ic E)).
  assert (caller_ok (p, pc') -> Forall caller_ok (<[i := (p, pc')]> ts)) as Hcs by (intros; by apply Forall_insert).
  pose proof (count_small ts seen Ip seen_le) as Sseen. pose proof (count_small _ settled Ip' settled_le) as Sset.
  step_counts E p pc'. pose proof (keys_same ts i p pc pc' E) as Hkeys. unfold caller_ok in Hpc. cbn [fst snd] in Hpc.
  destruct pc as [|pr|pr id new|id new|id plan|id|id|x]; cbn [section] in Es.
  - rewrite Il0 in Es. fold (gated p) in Es. destruct (gated p) eqn:Eg; injection Es as <- <-;
      cbn [seen pending_new pending_old settled fst snd] in *; rewrite ?Eg in *; constructor; try done; try lia.
    all: try (by rewrite Hkeys). all: apply Hcs; unfold caller_ok, pure_distill; cbn; by rewrite Eg.
  - pose proof (identify_shape_ok r p Ireg) as Hi. destruct (identify_shape r p) as [r1 [id new]].
    injection Es as <- <-. destruct Hi as ((Hpl & Hro & Hl0 & Hba & Hhi & Hco) & Hok & -> & Hdom & Hsize).
    cbn [seen pending_new pending_old settled fst snd] in *.
    constructor; rewrite ?Hro, ?Hl0, ?Hpl, ?Hba, ?Hhi, ?Hco; try done; try (destruct new; lia).
    + by apply Hcs.
    + rewrite Hdom, Idom. rewrite decide_False, decide_True in Ckeys by done.
      rewrite (right_id_L ∅ (∪)) in Ckeys. rewrite Ckeys. by rewrite (comm_L (∪)).
  - destruct Hpc as [Hg ->]. injection Es as <- <-. cbn [seen pending_new pending_old settled fst snd] in *.
    constructor; try done; try (cbn; destruct new; lia).
    + by apply Hcs.
    + by rewrite Hkeys.
    + cbn. destruct (observe_cases (r_baseline r) (context_of (py_stamp p)) (sliver_of p) pr) as (? & ? & ? & -> & _).
      rewrite Ibase, u64_incr by lia. lia.
  - destruct Hpc as [Hg ->]. destruct new; injection Es as <- <-; cbn [seen pending_new pending_old settled fst snd] in *.
    + constructor; try done; try (cbn; lia); [by apply Hcs|by rewrite Hkeys|].
      apply map_Forall_insert_2; [by exists p|done].
    + constructor; try done; try (cbn; rewrite ?u64_incr by lia; lia); [by apply Hcs|by rewrite Hkeys].
  - destruct Hpc as (Hg & -> & ->). injection Es as <- <-. rewrite finish_pure in * by done.
    cbn [seen pending_new pending_old settled fst snd] in *. rewrite Hg in *.
    constructor; try done; try (cbn; rewrite ?u64_incr by lia; lia); [by apply Hcs|by rewrite Hkeys].
  - destruct Hpc as [Hg ->]. injection Es as <- <-. destruct (r_plans r !! sliver_of p) as [plan|] eqn:El.
    + destruct (Iplans _ _ El) as (p' & Hp' & Eid & ->). rewrite Eid in *. rewrite (same_plan p p') in * by done.
      rewrite <- Eid in *. rewrite finish_pure in * by done. cbn [seen pending_new pending_old settled fst snd] in *. rewrite Hg in *.
      constructor; try done; try lia; [by apply Hcs|by rewrite Hkeys].
    + cbn [seen pending_new pending_old settled fst snd] in *. constructor; try done; try lia; [by apply Hcs|by rewrite Hkeys].
  - destruct Hpc as [Hg ->]. injection Es as <- <-. rewrite finish_pure in * by done.
    cbn [seen pending_new pending_old settled fst snd] in *. rewrite Hg in *.
    constructor; try done; try (cbn; lia); [by apply Hcs|by rewrite Hkeys|].
    apply map_Forall_insert_2; [by exists p|done].
  - done.
Qed.

Lemma count_start f : (forall p, f (p, AtStart) = 0)%nat -> forall l, count f (map (fun p => (p, AtStart)) l) = 0%nat.
Proof. intros Hf l. induction l as [|p l IH]; [done|]. unfold count in *. cbn. by rewrite Hf, IH. Qed.

Lemma start_inv : Inv (start router ps).1 (start router ps).2.
Proof.
  assert (keys_seen (map (fun p => (p, AtStart)) ps) = ∅) as Hk.
  { unfold keys_seen. clear. induction ps as [|p l IH]; [done|]. cbn [map]. by rewrite filter_cons_False by done. }
  constructor; cbn [start fst snd with_router r_router r_l0 r_registry r_plans r_hits r_compiles r_baseline baseline_new b_observations];
    rewrite ?count_start, ?map_size_empty by done; try done.
  - by rewrite <- list_fmap_compose, list_fmap_id.
  - by apply Forall_map, Forall_forall.
Qed.

Lemma callers_inv s : rtc cstep (start router ps) s -> Inv s.1 s.2.
Proof.
  intros Hr. remember (start router ps) as s0 eqn:E. assert (Inv s0.1 s0.2) as Hi by (rewrite E; apply start_inv). clear E.
  induction Hr as [|? ? ? [r ts i p pc r' pc' E Es] _ IH]; [done|]. apply IH. by eapply section_inv.
Qed.

(** ** Every schedule ends *)

Definition remaining (t : Payload * Pc) : nat :=
  match t.2 with
  | AtStart => 6 | Speculated _ => 5 | Identified _ _ _ => 4 | Settled _ _ => 3 | Counted _ => 2
  | Inserted _ _ | Missed _ => 1 | Done _ => 0
  end.

Lemma section_remaining r p pc r' pc' : section r p pc = Some (r', pc') -> (remaining (p, pc') < remaining (p, pc))%nat.
Proof.
  clear Hfree Hsmall.
  destruct pc as [|pr|pr id new|id new|id plan|id|id|x]; cbn [section].
  - case_bool_decide; intros [= <- <-]; cbn; lia.
  - destruct (identify_shape r p) as [r1 [id new]]. intros [= <- <-]. cbn. lia.
  - intros [= <- <-]. cbn. lia.
  - destruct new; intros [= <- <-]; cbn; lia.
  - intros [= <- <-]. cbn. lia.
  - intros [= <- <-]. destruct (_ !! _); cbn; lia.
  - intros [= <- <-]. cbn. lia.
  - done.
Qed.

Lemma steps_remaining n s s' : nsteps cstep n s s' -> (n + count remaining s'.2 <= count remaining s.2)%nat.
Proof.
  clear Hfree Hsmall. induction 1 as [|n ? ? ? [r ts i p pc r' pc' E Es] _ IH]; [done|]. cbn [snd] in *.
  pose proof (count_insert remaining ts i (p, pc) (p, pc') E). pose proof (section_remaining _ _ _ _ _ Es). lia.
Qed.

Lemma remaining_start : count remaining (map (fun p => (p, AtStart)) ps) = (6 * length ps)%nat.
Proof. clear. induction ps as [|p l IH]; [done|]. unfold count in *. cbn [map sum_list_with]. rewrite IH. cbn. lia. Qed.

(** ** The cache is invisible *)

Definition live_payloads : list Payload := filter (fun p => gated p = false) ps.

Lemma all_done ts f : ts.*1 = ps -> (forall t, t ∈ ts -> exists x, t.2 = Done x) ->
  (forall p x, f (p, Done x) = if gated p then 0 else 1)%nat -> count f ts = length live_payloads.
Proof.
  clear Hfree Hsmall.
  unfold live_payloads. intros <- Hd Hf. clear -Hd Hf. induction ts as [|[p pc] ts IH]; [done|].
  destruct (Hd (p, pc)) as [x Hx]; [by left|]. cbn in Hx. subst pc. unfold count in *. cbn [sum_list_with fmap list_fmap fst].
  rewrite Hf, filter_cons, IH by (intros t Ht; apply Hd; by right).
  destruct (gated p); [by rewrite decide_False|by rewrite decide_True].
Qed.

Lemma all_done_keys ts : ts.*1 = ps -> (forall t, t ∈ ts -> exists x, t.2 = Done x) ->
  keys_seen ts = list_to_set (map key_of live_payloads).
Proof.
  clear Hfree Hsmall.
  unfold live_payloads, keys_seen. intros <- Hd. f_equal. clear -Hd. induction ts as [|[p pc] ts IH]; [done|].
  destruct (Hd (p, pc)) as [x Hx]; [by left|]. cbn in Hx. subst pc. cbn [fmap list_fmap fst].
  assert (map (fun t => key_of t.1) (filter (fun t => seen t = 1%nat) ts) = map key_of (filter (fun p => gated p = false) ts.*1)) as IH'
    by (apply IH; intros t Ht; apply Hd; by right). clear IH.
  destruct (gated p) eqn:Eg; rewrite !filter_cons.
  - by rewrite !decide_False by (unfold seen; cbn; by rewrite ?Eg).
  - rewrite !decide_True by (unfold seen; cbn; by rewrite ?Eg). cbn [map fst]. by rewrite IH'.
Qed.
End spec.

(** C16: Fewer than [2^64] payloads of which no two shapes share a sliver id are
    distilled, under every interleaving of their callers, into the object each
    determines alone, whichever plans were cached by then; no schedule takes
    more than six sections per payload and none gets stuck. When all have
    returned, the counters of the daemon say one compilation per distinct shape
    and a hit for every other payload that passed the gate, one sliver per
    shape is registered, and the baseline has one observation for each of
    them. The counters are the daemon's: a caller that finds the sliver
    registered but its plan not yet cached compiles it again and is counted as
    a hit. *)
Theorem jit_transparent `{SerdeNumber} `{Unicode} `{HashOrder} `{Ln64} router ps n r ts :
  collision_free ps -> Z.of_nat (length ps) < two64 -> nsteps cstep n (start router ps) (r, ts) ->
  ts.*1 = ps
  /\ (forall i p x, ts !! i = Some (p, Done x) -> x = pure_distill router p)
  /\ (n <= 6 * length ps)%nat
  /\ ((exists r' ts', cstep (r, ts) (r', ts')) \/
      ((forall t, t ∈ ts -> exists x, t.2 = Done x)
       /\ r_compiles r = Z.of_nat (size (list_to_set (map key_of (live_payloads ps)) : gset bytes))
       /\ sliver_count r = size (list_to_set (map key_of (live_payloads ps)) : gset bytes)
       /\ r_hits r + r_compiles r = Z.of_nat (length (live_payloads ps))
       /\ b_observations (r_baseline r) = Z.of_nat (length (live_payloads ps)))).
Proof.
  intros Hf Hs Hn. pose proof (callers_inv router ps Hf Hs (r, ts) (rtc_nsteps_2 _ _ _ Hn)) as I. cbn [fst snd] in I.
  split_and!; [apply I| | |].
  - intros i p x E. pose proof (Forall_lookup_1 _ _ _ _ (inv_callers _ _ _ _ I) E) as Hc. exact Hc.
  - pose proof (steps_remaining n _ _ Hn) as Hr. cbn [start snd] in Hr. rewrite remaining_start in Hr. lia.
  - destruct (decide (Exists (fun t => remaining t <> 0%nat) ts)) as [He|He].
    + left. apply Exists_exists in He as ([p pc] & Hin & Hr). apply list_elem_of_lookup in Hin as [i E].
      destruct (section r p pc) as [[r' pc']|] eqn:Es; [by eexists _, _; econstructor|]. exfalso. apply Hr.
      destruct pc as [|pr|pr id new|id [] |id plan|id|id|x]; try done.
      cbn [section] in Es. by destruct (identify_shape r p) as [? [? ?]].
    + right. assert (forall t, t ∈ ts -> exists x, t.2 = Done x) as Hd.
      { intros [p pc] Hin. apply not_Exists_Forall in He; [|intros; apply _]. apply Forall_forall with (x := (p, pc)) in He; [|done].
        cbn in He. destruct pc as [|pr|pr id new|id new|id plan|id|id|x]; try (by destruct He). by exists x. }
      pose proof (inv_payloads _ _ _ _ I) as Ip. pose proof (inv_dom _ _ _ _ I) as Idom.
      pose proof (inv_compiles _ _ _ _ I) as Ic. pose proof (inv_hits _ _ _ _ I) as Ih. pose proof (inv_baseline _ _ _ _ I) as Ib.
      rewrite (all_done_keys ps ts Ip Hd) in Idom.
      assert (forall f, (forall p x, f (p, Done x) = 0%nat) -> count f ts = 0%nat) as H0c.
      { intros f Hf0. clear -Hd Hf0. induction ts as [|[p pc] ts IH]; [done|]. destruct (Hd (p, pc)) as [x Hx]; [by left|].
        cbn in Hx. subst pc. unfold count in *. cbn [sum_list_with]. rewrite Hf0, IH; [done|]. intros t Ht. apply Hd. by right. }
      rewrite (all_done ps ts seen Ip Hd) in Ih by done. rewrite (all_done ps ts settled Ip Hd) in Ib by done.
      rewrite !(H0c pending_new), (H0c pending_old) in * by done.
      assert (size (r_registry r) = size (list_to_set (map key_of (live_payloads ps)) : gset bytes)) as Esz
        by (by rewrite <- Idom, size_dom).
      unfold sliver_count, registry_len. split_and!; try done; lia.
Qed.

(** ** Runs *)

(** The run of a schedule: which caller moves next. *)
Fixpoint run_schedule `{SerdeNumber} `{Unicode} `{HashOrder} `{Ln64} (sched : list nat) (s : Rrd * list (Payload * Pc))
  : option (Rrd * list (Payload * Pc)) :=
  match sched with
  | [] => Some s
  | i :: sched => '(p, pc) ← s.2 !! i; '(r, pc) ← section s.1 p pc; run_schedule sched (r, <[i := (p, pc)]> s.2)
  end.

Lemma run_schedule_nsteps `{SerdeNumber} `{Unicode} `{HashOrder} `{Ln64} sched s s' :
  run_schedule sched s = Some s' -> nsteps cstep (length sched) s s'.
Proof.
  revert s. induction sched as [|i sched IH]; intros [r ts]; cbn [run_schedule length fst snd]; [intros [= <-]; constructor|].
  destruct (ts !! i) as [[p pc]|] eqn:E; [|done]. cbn [mbind option_bind].
  destruct (section r p pc) as [[r' pc']|] eqn:Es; [|done]. cbn. intros Hrun.
  eapply nsteps_l; [by eapply cstep_caller|]. by apply IH.
Qed.

Module Runs.
#[local] Existing Instances plain_number ascii_unicode plain_order unlogged.

Definition payload (id : bytes) (m : Metadata) : Payload := mkPayload id (str "standup notes") m None stamp_default.
Definition mail : Metadata := {[ str "from" := JStr (str "user@x"); str "subject" := JStr (str "hi") ]}.
Definition event : Metadata := {[ str "sent_at" := JBool true ]}.

Lemma free_run : collision_free [payload (str "a") mail; payload (str "b") event].
Proof.
  assert (sliver_of (payload (str "a") mail) <> sliver_of (payload (str "b") event)) as Hne by (by vm_compute).
  revert Hne. generalize (payload (str "a") mail) (payload (str "b") event). intros a b Hne p p' Hp Hp' E.
  apply elem_of_cons in Hp as [->|Hp%list_elem_of_singleton], Hp' as [->|Hp'%list_elem_of_singleton]; subst; [done| | |done].
  - by destruct Hne.
  - by destruct Hne.
Qed.

(** Two callers side by side. *)
Lemma jit_transparent_witness : exists r ts,
  nsteps cstep 10 (start [] [payload (str "a") mail; payload (str "b") event]) (r, ts)
  /\ (10 <= 6 * 2)%nat /\ (forall i p x, ts !! i = Some (p, Done x) -> x = pure_distill [] p).
Proof.
  destruct (run_schedule [0; 1; 1; 0; 1; 0; 0; 1; 1; 0]%nat (start [] [payload (str "a") mail; payload (str "b") event]))
    as [[r ts]|] eqn:E.
  - exists r, ts. apply run_schedule_nsteps in E.
    destruct (jit_transparent [] _ _ r ts free_run ltac:(vm_compute; reflexivity) E) as (_ & H1 & H2 & _).
    split_and!; [exact E|exact H2|exact H1].
  - exfalso. apply (f_equal (fun o => match o with Some _ => true | None => false end)) in E. vm_compute in E. discriminate E.
Defined.

(** A payload whose only field is named "id:string,subject" shares the key,
    and so the sliver and the cached plan, of one with the fields "id" and
    "subject": after it the latter is distilled by a plan that knows neither,
    so its identity and its title are not recognised. *)
Theorem colliding_shapes_lose_roles :
  let odd := payload (str "a") {[ str "id:string,subject" := JStr (str "x") ]} in
  let plain := payload (str "b") {[ str "id" := JStr (str "7"); str "subject" := JStr (str "hi") ]} in
  let alone := (distill_stamped rrd_new plain).2 in
  let after := (distill_stamped (distill_stamped rrd_new odd).1 plain).2 in
  rro_sliver_id alone = rro_sliver_id after
  /\ (has_identity (rro_hints alone), has_title (rro_hints alone)) = (true, true)
  /\ (has_identity (rro_hints after), has_title (rro_hints after)) = (false, false).
Proof. by vm_compute. Qed.

(** An empty string counts as a present identity. *)
Theorem empty_identity_counts :
  has_identity (rro_hints (distill_stamped rrd_new (payload (str "a") {[ str "id" := JStr [] ]})).2) = true.
Proof. by vm_compute. Qed.
End Runs.
