(* ===== verification/SqlApply.v ===== *)
(** * Applying RRQL statements to an estate (crates/rro-engine/src/sql.rs)

    One call of the estate per statement. The theorem says what each statement
    does to the documents, the feed, the graph and the registries. *)
From S2P Require Import Prelude Floats ByteOrder Utf8 Json RroTime Geo Query Keys KeysFacts Model.
From S2P Require Import QlAst QlLower.
From S2P Require QlParser.
From S2P Require Import Kv Pending Rels Store StoreFacts StoreTx StoreSpec Heap Quant AnnStore Ann.
From S2P Require Import Searches SearchSpec QueryExec.
From S2P Require Import SearchFacts PayloadIndex ReplicationFacts Estate EstateSpec.
#[local] Set Default Goal Selector "!".
#[local] Set Warnings "-clear-no-such-hyp".
Local Open Scope Z_scope.

(** The catalog of an INFO is the estate's info as the handle has it. *)
Inductive SqlOutcome : Type :=
  | Defined (what : bytes)
  | Removed (what : bytes) (count : option Z)
  | Updated (id : bytes) (replaced : bool)
  | Deleted (id : bytes) (payload_only : bool)
  | Related (edge : bytes)
  | Traversed (ids : list bytes)
  | Catalog (info : EstateInfo).

Section sql.
Context `{SerdeNumber} `{TextAnalyzer}.
Variable json_text : Json -> bytes.
Variable now_ms : Z -> Z.
Variable lexical_stats : bool.

(** The assignments of an UPDATE, a later one in place of an earlier one. *)
Definition assignments (set : list (bytes * Value.Value)) : Metadata :=
  fold_left (fun m kv => <[kv.1 := to_json kv.2]> m) set ∅.

Definition traversal_spec (t : QlAst.Traverse) : TraversalSpec :=
  let d := default_spec in
  mkSpec (tr_verbs t)
    (match tr_dir t with Direction.Out | Direction.Both => true | Direction.In => false end)
    (match tr_dir t with Direction.In | Direction.Both => true | Direction.Out => false end)
    (Z.to_nat (Z.min (default (Z.of_nat (ts_depth d)) (tr_depth t)) 64))
    (Z.to_nat (Z.min (default (Z.of_nat (ts_limit d)) (tr_limit t)) 10000)).

(** The new store, the operations for the graph and the outcome. *)
Definition apply (info : EstateInfo) (db : Db) (stmt : Statement.Statement) : Db * list GraphOp * result RroError SqlOutcome :=
  match stmt with
  | Statement.Select _ => (db, [], Err SelectNeedsEmbedder)
  | Statement.Define (Define.Index field) =>
      (create_payload_index json_text db field, [], Ok (Defined (str "index " ++ field)))
  | Statement.Define (Define.Alias alias collection) =>
      (create_alias db alias collection, [], Ok (Defined (str "alias " ++ alias ++ str " -> " ++ collection)))
  | Statement.Define (Define.Field field collection ty) =>
      let '(db, r) := define_field db collection field (FieldType.as_str ty) in
      (db, [], _ ← r; Ok (Defined (str "field " ++ collection ++ str "." ++ field ++ str " type " ++ FieldType.as_str ty)))
  | Statement.Remove (Remove.Field field collection) =>
      (remove_field db collection field, [], Ok (Removed (str "field " ++ collection ++ str "." ++ field) None))
  | Statement.Remove (Remove.Alias alias) => (delete_alias db alias, [], Ok (Removed (str "alias " ++ alias) None))
  | Statement.Remove (Remove.Collection name) =>
      let '(db, gops, count) := drop_collection json_text now_ms lexical_stats db name in
      (db, gops, Ok (Removed (str "collection " ++ name) (Some count)))
  | Statement.Update u =>
      let meta := assignments (upd_set u) in
      let '(db, r) :=
        if upd_replace u then overwrite_payload json_text now_ms meta db (upd_id u)
        else set_payload json_text now_ms meta db (upd_id u) in
      (db, [], _ ← r; Ok (Updated (upd_id u) (upd_replace u)))
  | Statement.Delete d =>
      match del_payload_only d, del_keys d with
      | false, _ =>
          let '(db, gops) := Store.remove json_text now_ms lexical_stats db (del_id d) in
          (db, gops, Ok (Deleted (del_id d) (del_payload_only d)))
      | true, [] =>
          let '(db, r) := clear_payload json_text now_ms db (del_id d) in
          (db, [], _ ← r; Ok (Deleted (del_id d) (del_payload_only d)))
      | true, keys =>
          let '(db, r) := delete_payload_keys json_text now_ms keys db (del_id d) in
          (db, [], _ ← r; Ok (Deleted (del_id d) (del_payload_only d)))
      end
  | Statement.Relate r =>
      (relate db (rel_from r) (rel_verb r) (rel_to r), [],
       Ok (Related (rel_from r ++ str " -" ++ rel_verb r ++ str "-> " ++ rel_to r)))
  | Statement.Traverse t =>
      (** [None]: the walk out of fuel, which [walk_total] rules out. *)
      (db, [], match traverse db (traversal_spec t) (tr_start t) with Some ids => Ok (Traversed ids) | None => Err Panic end)
  | Statement.Info => (db, [], Ok (Catalog info))
  | Statement.Live _ => (db, [], Err LiveIsAStream)
  end.
End sql.

(** ** What a statement means *)

Section spec.
Context `{SerdeNumber} `{Libm} `{TextAnalyzer}.
Variable json_text : Json -> bytes.
Variable now_ms : Z -> Z.
Variable lexical_stats : bool.
Local Abbreviation refines := (Refines json_text now_ms lexical_stats).
Local Abbreviation apply := (apply json_text now_ms lexical_stats).

(** New metadata for one record, and one row of the feed. *)
Definition remeta (f : Metadata -> Metadata) (id : bytes) (s : gmap bytes VectorRecord * Log) : gmap bytes VectorRecord * Log :=
  match s.1 !! id with
  | Some r => (<[id := with_metadata r (f (vr_metadata r))]> s.1, s.2 ++ [(Upsert, id)])
  | None => s
  end.

(** The documents and the feed after a statement. *)
Definition meaning (stmt : Statement.Statement) (s : gmap bytes VectorRecord * Log) : gmap bytes VectorRecord * Log :=
  match stmt with
  | Statement.Remove (Remove.Collection name) =>
      (filter (fun p => vr_collection p.2 <> Some name) s.1, s.2 ++ map (fun id => (Remove, id)) (members_of s.1 name))
  | Statement.Update u =>
      let set := assignments (upd_set u) in remeta (fun m => if upd_replace u then set else set ∪ m) (upd_id u) s
  | Statement.Delete d =>
      if del_payload_only d
      then remeta (fun m => if bool_decide (del_keys d = []) then ∅ else fold_left (fun m k => delete k m) (del_keys d) m) (del_id d) s
      else spec_step s (ARemove (del_id d))
  | _ => s
  end.

(** Why a statement is refused. *)
Definition refusal (stmt : Statement.Statement) (m : gmap bytes VectorRecord) : option RroError :=
  match stmt with
  | Statement.Select _ => Some SelectNeedsEmbedder
  | Statement.Live _ => Some LiveIsAStream
  | Statement.Update u => match m !! upd_id u with Some _ => None | None => Some (NoSuchDocument (upd_id u)) end
  | Statement.Delete d =>
      if del_payload_only d then match m !! del_id d with Some _ => None | None => Some (NoSuchDocument (del_id d)) end else None
  | _ => None
  end.

(** What a statement registers. *)
Definition registers (stmt : Statement.Statement) (db db' : Db) : Prop :=
  match stmt with
  | Statement.Define (Define.Index f) =>
      indexed_fields db' = if bool_decide (f ∈ indexed_fields db) then indexed_fields db else indexed_fields db ++ [f]
  | Statement.Define (Define.Alias a c) =>
      forall name, resolve_alias db' name = if decide (name = a) then c else resolve_alias db name
  | Statement.Define (Define.Field f c ty) =>
      forall c' f', declared db' c' f' = if decide (c' = c /\ f' = f) then Some (FieldType.as_str ty) else declared db c' f'
  | Statement.Remove (Remove.Alias a) =>
      forall name, resolve_alias db' name = if decide (name = a) then a else resolve_alias db name
  | Statement.Remove (Remove.Field f c) =>
      forall c' f', declared db' c' f' = if decide (c' = c /\ f' = f) then None else declared db c' f'
  | Statement.Remove (Remove.Collection name) =>
      get_names db' META_COLLECTIONS = filter (fun n => n <> name) (get_names db META_COLLECTIONS)
  | Statement.Relate r =>
      forall E, edges_are db E -> relation_ok (mkRelation (rel_from r) (rel_verb r) (rel_to r)) ->
        edges_are db' (fun e => e = mkRelation (rel_from r) (rel_verb r) (rel_to r) \/ E e)
  | _ => True
  end.

(** Every other row of the store: not a row of the documents, the feed, the
    document frequencies or one of the counters, and not the registration the
    statement makes. *)
Definition document_row (cf : CF) (k : bytes) : Prop :=
  data_cf cf = true \/ cf = CF_FEED \/ cf = CF_TDF
  \/ cf = CF_META /\ k ∈ [META_DOC_COUNT; META_TOTAL_TOKENS; META_SHAPES; META_FEED_SEQ].
Definition registration_row (stmt : Statement.Statement) (cf : CF) (k : bytes) : Prop :=
  match stmt with
  | Statement.Define (Define.Index _) => cf = CF_META /\ k = META_PIDX
  | Statement.Define (Define.Alias _ _) | Statement.Remove (Remove.Alias _) => cf = CF_META /\ k = META_ALIASES
  | Statement.Define (Define.Field _ _ _) | Statement.Remove (Remove.Field _ _) => cf = CF_META /\ k = META_SCHEMA
  | Statement.Remove (Remove.Collection _) => cf = CF_META /\ k = META_COLLECTIONS
  | Statement.Relate r => cf = CF_RELS /\ k ∈ [rel_key REL_OUT (rel_from r) (rel_verb r) (rel_to r); rel_key REL_IN (rel_to r) (rel_verb r) (rel_from r)]
  | _ => False
  end.
Definition leaves_the_rest (stmt : Statement.Statement) (db db' : Db) : Prop :=
  forall cf k, ~ document_row cf k -> ~ registration_row stmt cf k -> db' cf !! k = db cf !! k.

Definition clean_statement (stmt : Statement.Statement) : Prop :=
  match stmt with Statement.Remove (Remove.Collection name) => nul_free name | _ => True end.

(** What the theorem says of the outcome of applying a statement. *)
Definition as_meant (stmt : Statement.Statement) (db : Db) (m : gmap bytes VectorRecord) (log : Log)
  (out : Db * list GraphOp * result RroError SqlOutcome) : Prop :=
  let '(db', gops, r) := out in
  refines db' (meaning stmt (m, log)).1 (meaning stmt (m, log)).2
  /\ graph_run gops (vr_embedding <$> m) = vr_embedding <$> (meaning stmt (m, log)).1
  /\ registers stmt db db'
  /\ leaves_the_rest stmt db db'
  /\ match refusal stmt m with Some e => r = Err e | None => exists o, r = Ok o end
  /\ (is_Some (refusal stmt m) \/ Statement.is_write stmt = false -> db' = db /\ gops = []).

Lemma refines_rels db db' m log : (forall cf, cf <> CF_RELS -> db' cf = db cf) -> refines db m log -> refines db' m log.
Proof. by apply refines_other. Qed.

Lemma remeta_embedding f id m log : vr_embedding <$> (remeta f id (m, log)).1 = vr_embedding <$> m.
Proof.
  unfold remeta. cbn [fst snd]. destruct (m !! id) as [r|] eqn:E; [|done]. cbn [fst].
  rewrite fmap_insert. apply insert_id. rewrite lookup_fmap, E. done.
Qed.

Lemma room_less db n n' : n' <= n -> room db n -> room db n'.
Proof. unfold room. lia. Qed.

(** *** What the operations leave alone *)

Lemma put_leaves db cf' k' v cf k : ~ (cf = cf' /\ k = k') -> put_cf db cf' k' v cf !! k = db cf !! k.
Proof. intros Hn. rewrite lookup_put_cf, decide_False by naive_solver. done. Qed.

Lemma batch_leaves db b cf k : Forall (fun op => no_merge op /\ ~ (op_cf op = cf /\ op_key op = k)) b -> db_write db b cf !! k = db cf !! k.
Proof.
  intros Hb. rewrite Forall_forall in Hb. rewrite db_write_plain.
  - apply (apply_ops_miss b). intros op Hop (E1 & E2 & _). destruct (Hb op Hop) as [_ Hn]. by apply Hn.
  - apply df_deltas_none. intros k' d Hop. by destruct (Hb _ Hop).
Qed.

Lemma index_leaves db f cf k : ~ document_row cf k -> ~ (cf = CF_META /\ k = META_PIDX) ->
  create_payload_index json_text db f cf !! k = db cf !! k.
Proof.
  intros Hd Hr. unfold create_payload_index. case_bool_decide; [done|].
  etransitivity; [apply (f_equal (fun M : gmap bytes Row => M !! k)), (backfill_rows json_text f _ _ [])|]. rewrite apply_marks, decide_False; [by apply put_leaves|].
  intros [-> _]. apply Hd. by left.
Qed.

Lemma mutate_leaves f db id cf k : ~ document_row cf k -> (mutate_payload json_text now_ms f db id).1 cf !! k = db cf !! k.
Proof.
  intros Hd. unfold mutate_payload. destruct (get_doc db id) as [doc|]; [|done]. cbn [fst]. apply batch_leaves.
  assert (forall k', k' ∈ [META_DOC_COUNT; META_TOTAL_TOKENS; META_SHAPES; META_FEED_SEQ] -> ~ (CF_META = cf /\ k' = k)) as Hm.
  { intros k' Hk [<- ->]. apply Hd. right. right. by right. }
  assert (forall cf', data_cf cf' = true \/ cf' = CF_FEED -> cf' <> cf) as Hcf by (intros cf' [?|?] ->; apply Hd; unfold document_row; auto).
  rewrite !Forall_app, !Forall_map. split_and!; [apply Forall_true; intros x; split; [done|intros [? _]; by eapply Hcf; [|done]; left]..|].
  repeat (constructor; [split; [done|first [by apply Hm; repeat (first [left; done|right])|intros [? _]; eapply Hcf; [|done]; by (left + right)]]|]). constructor.
Qed.

Lemma remove_leaves db m log id cf k : refines db m log -> run_fits [ARemove id] (m, log) -> ~ document_row cf k ->
  (Store.remove json_text now_ms lexical_stats db id).1 cf !! k = db cf !! k.
Proof.
  intros HR Hf Hd. unfold document_row in Hd. destruct (decide (cf = CF_META)) as [->|Hm].
  - apply (remove_meta json_text now_ms lexical_stats db m log id k HR Hf); intros ->; apply Hd; right; right; right;
      (split; [done|by repeat (first [left; done|right])]).
  - destruct (remove_into_inv json_text now_ms lexical_stats db m (begin db) m log ∅ id)
      as (m' & log' & T & _ & HI & _); [by apply tx_inv_begin|set_solver|done|].
    unfold Store.remove. rewrite (commit_not_meta _ _ _ _ _ _ _ _ _ _ _ HI) by tauto. rewrite apply_ops_frame; [done|].
    intros op Hop Hcf Hno. pose proof (ti_ops _ _ _ _ _ _ _ _ _ _ HI op Hop) as Ht.
    destruct op; cbn in *; [| |done]; subst; destruct Ht; tauto.
Qed.

Lemma drop_leaves ids db m log cf k : refines db m log -> run_fits (map ARemove ids) (m, log) -> ~ document_row cf k ->
  (drop_members json_text now_ms lexical_stats db ids).1 cf !! k = db cf !! k.
Proof.
  intros HR Hf Hd. revert db m log HR Hf. induction ids as [|id ids IH]; intros db m log HR Hf; [done|].
  cbn [map run_fits] in Hf. destruct Hf as [Hf1 Hf].
  assert (run_fits [ARemove id] (m, log)) as Hrf by (split; [done|]; split; [|done]; destruct ids; apply Hf).
  pose proof (remove_leaves db m log id cf k HR Hrf Hd) as Hone. cbn [drop_members].
  destruct (Store.remove json_text now_ms lexical_stats db id) as [db1 gops] eqn:E.
  destruct (remove_outcome _ _ _ _ _ _ _ _ _ HR Hrf E) as [HR1 _].
  change (spec_run [ARemove id] (m, log)) with (spec_step (m, log) (ARemove id)) in HR1.
  destruct (spec_step (m, log) (ARemove id)) as [m2 log2]. specialize (IH db1 m2 log2 HR1 Hf). destruct (drop_members _ _ _ db1 ids). cbn [fst] in *. congruence.
Qed.

Lemma drop_collection_leaves db m log name cf k : refines db m log -> searchable m -> nul_free name ->
  run_fits (map ARemove (members_of m name)) (m, log) -> ~ document_row cf k -> ~ (cf = CF_META /\ k = META_COLLECTIONS) ->
  (drop_collection json_text now_ms lexical_stats db name).1.1 cf !! k = db cf !! k.
Proof.
  intros HR Hs Hn Hf Hd Hr. unfold drop_collection. rewrite (collection_members_exact json_text now_ms lexical_stats db m log name HR Hs Hn).
  pose proof (drop_leaves _ db m log cf k HR Hf Hd) as Hl. destruct (drop_members _ _ _ db _) as [db' gops]. cbn [fst] in *.
  by rewrite put_leaves.
Qed.

(** A payload mutation, on both branches. *)
Lemma mutate_as_meant db m log f id : refines db m log -> room db 1 ->
  let '(db', r) := mutate_payload json_text now_ms f db id in
  refines db' (remeta f id (m, log)).1 (remeta f id (m, log)).2
  /\ match m !! id with Some _ => r = Ok tt | None => r = Err (NoSuchDocument id) /\ db' = db end.
Proof.
  intros HR Hroom. unfold remeta. cbn [fst snd]. destruct (m !! id) as [rc|] eqn:E.
  - destruct (mutate_payload_refines json_text now_ms lexical_stats db m log id rc f HR E) as (db' & -> & HR').
    { pose proof (room_fits json_text now_ms lexical_stats db m log 1 HR Hroom) as (R1 & R2 & R3). cbn [fst snd] in *.
      unfold fits. cbn [fst snd]. rewrite length_app. cbn [length]. lia. }
    by split.
  - unfold mutate_payload. rewrite (rows_ok_doc json_text (indexed_fields db) db m) by apply HR. rewrite E. by split.
Qed.
Lemma members_count m name : (length (members_of m name) <= size m)%nat.
Proof.
  unfold members_of. rewrite length_fmap, btree_iter_length. rewrite <- !(size_dom (D := gset bytes)).
  apply subseteq_size. intros k [r Hr]%elem_of_dom. apply map_lookup_filter_Some in Hr as [Hr _]. apply elem_of_dom. eauto.
Qed.

Lemma field_type_known ty : is_Some (field_type_of (FieldType.as_str ty)).
Proof. destruct ty; vm_compute; eauto. Qed.

(** The cases of the theorem. *)
Lemma read_as_meant stmt db m log r : refines db m log -> meaning stmt (m, log) = (m, log) -> registers stmt db db ->
  match refusal stmt m with Some e => r = Err e | None => exists o, r = Ok o end ->
  as_meant stmt db m log (db, [], r).
Proof. intros HR Em Hreg Hr. unfold as_meant. rewrite Em. by split_and!. Qed.

Lemma quiet_as_meant stmt db db' m log o : refines db' m log -> meaning stmt (m, log) = (m, log) -> registers stmt db db' ->
  leaves_the_rest stmt db db' -> refusal stmt m = None -> Statement.is_write stmt = true -> as_meant stmt db m log (db', [], Ok o).
Proof.
  intros HR Em Hreg Hrest Hn Hw. unfold as_meant. rewrite Em, Hn. split_and!; [done..|eauto|]. intros [[? Hs]|Hs]; [done|by rewrite Hw in Hs].
Qed.

Lemma mutation_as_meant stmt db m log f id o : refines db m log -> room db 1 ->
  meaning stmt (m, log) = remeta f id (m, log) -> (forall db', registers stmt db db') ->
  refusal stmt m = match m !! id with Some _ => None | None => Some (NoSuchDocument id) end ->
  Statement.is_write stmt = true ->
  as_meant stmt db m log (let '(db', r) := mutate_payload json_text now_ms f db id in (db', [], _ ← r; Ok o)).
Proof.
  intros HR Hroom Em Hreg Hn Hw. pose proof (mutate_as_meant db m log f id HR Hroom) as Hm.
  pose proof (fun cf k => mutate_leaves f db id cf k) as Hrest.
  destruct (mutate_payload _ _ _ _ _) as [db' r]. destruct Hm as [HR' Hr]. unfold as_meant. rewrite Em, Hn.
  split_and!; [done|cbn; by rewrite remeta_embedding|done|intros cf k Hd _; by apply Hrest| |].
  - destruct (m !! id); [subst r; cbn; eauto|]. destruct Hr as [-> _]. done.
  - rewrite Hw. destruct (m !! id); [by intros [[? ?]|?]|]. by destruct Hr as [_ ->].
Qed.

Lemma statement_as_meant info db m log stmt :
  refines db m log -> searchable m -> room db (Z.of_nat (size m) + 1) -> clean_statement stmt ->
  as_meant stmt db m log (apply info db stmt).
Proof.
  intros HR Hs Hroom Hc. assert (room db 1) as Hroom1 by (eapply room_less; [|exact Hroom]; lia).
  destruct stmt as [s|[f|a c|f c ty]|[a|name|f c]|u|d|r|t|l|]; cbn [apply].
  - by apply read_as_meant.
  - destruct (create_index_refines json_text now_ms lexical_stats db m log f HR) as [HR' Hi]. apply quiet_as_meant; try done.
    intros cf k. apply index_leaves.
  - destruct (alias_exact json_text now_ms lexical_stats db m log a c a HR) as (_ & _ & HR' & _).
    apply quiet_as_meant; try done; [|intros cf k _; apply put_leaves]. intros name.
    exact (proj1 (alias_exact json_text now_ms lexical_stats db m log a c name HR)).
  - pose proof (declared_fields_outcome json_text now_ms lexical_stats db m log c f (FieldType.as_str ty) HR) as (Hd & _ & _).
    assert (forall cf k, ~ (cf = CF_META /\ k = META_SCHEMA) -> (define_field db c f (FieldType.as_str ty)).1 cf !! k = db cf !! k) as Hrest.
    { intros cf k Hn. unfold define_field. destruct (field_type_of _); [by apply put_leaves|done]. }
    destruct (define_field db c f _) as [db' [[]|e]].
    + destruct Hd as (_ & HR' & Hreg & _). apply quiet_as_meant; try done. intros cf k _. apply Hrest.
    + destruct Hd as (_ & Hd & _). destruct (field_type_known ty) as [x Hx]. by rewrite Hx in Hd.
  - destruct (alias_exact json_text now_ms lexical_stats db m log a a a HR) as (_ & _ & _ & HR').
    apply quiet_as_meant; try done; [|intros cf k _ Hk; unfold delete_alias; repeat case_match; try done; by apply put_leaves]. intros name.
    exact (proj1 (proj2 (alias_exact json_text now_ms lexical_stats db m log a a name HR))).
  - assert (run_fits (map ARemove (members_of m name)) (m, log)) as Hfits.
    { apply (room_run_fits json_text now_ms lexical_stats db m log _ HR).
      eapply room_less; [|exact Hroom]. rewrite length_map. pose proof (members_count m name). lia. }
    pose proof (fun cf k => drop_collection_leaves db m log name cf k HR Hs Hc Hfits) as Hrest.
    destruct (drop_collection_outcome json_text now_ms lexical_stats db m log name HR Hs Hc Hfits) as (db' & gops & E & HR' & Hg & Hn & _).
    rewrite E in *. unfold as_meant. cbn [meaning registers refusal fst snd] in *. split_and!; [done..|eauto|]. by intros [[? ?]|?].
  - destruct (declared_fields_outcome json_text now_ms lexical_stats db m log c f [] HR) as (_ & HR' & Hreg).
    apply quiet_as_meant; try done. intros cf k _ Hk. unfold remove_field. repeat case_match; try done; by apply put_leaves.
  - destruct u as [id set replace]. cbn [upd_id upd_set upd_replace].
    destruct replace; by apply mutation_as_meant with (f := _) (id := id).
  - destruct d as [id [] keys]; cbn [del_id del_payload_only del_keys].
    + destruct keys as [|k keys]; by apply mutation_as_meant with (f := _) (id := id).
    + pose proof (room_run_fits json_text now_ms lexical_stats db m log [ARemove id] HR Hroom1) as Hfits.
      pose proof (fun cf k => remove_leaves db m log id cf k HR Hfits) as Hrest.
      destruct (Store.remove json_text now_ms lexical_stats db id) as [db' gops] eqn:E.
      destruct (remove_outcome json_text now_ms lexical_stats db m log id db' gops HR) as [HR' Hg]; [done|done|].
      unfold as_meant. cbn [meaning refusal del_payload_only del_id registers]. split_and!; [done..|intros cf k Hd _; by apply Hrest|eauto|]. by intros [[? ?]|?].
  - apply quiet_as_meant; try done.
    + apply (refines_rels db); [|done]. intros cf Hcf. unfold relate. rewrite db_write_plain by done.
      apply map_eq. intros k. apply apply_ops_other. repeat constructor; intros [Hop _]; by apply Hcf.
    + intros E HE Hok. by apply relate_edges.
    + intros cf k _ Hk. cbn in Hk. unfold relate. apply batch_leaves. repeat constructor; cbn; intros [<- <-]; apply Hk; (split; [done|]); [by left|by right; left].
  - apply read_as_meant; try done. cbn. destruct (walk_total (neighbors db (traversal_spec t)) (ts_depth (traversal_spec t)) (ts_limit (traversal_spec t)) (tr_start t)) as [out E].
    unfold traverse. rewrite E. eauto.
  - by apply read_as_meant.
  - apply read_as_meant; try done. cbn. eauto.
Qed.

(** C17: Every statement does to the documents what it means and nothing else to
    the store: UPDATE SET merges and UPDATE CONTENT replaces the metadata of
    one record, DELETE removes one record (if there is one) or part of its
    payload, REMOVE COLLECTION removes its members, the other statements leave
    the documents alone; the store stays the exact rows, counters and feed of
    the result, the graph is handed operations that leave its vectors, the
    registry a statement names holds what was defined, related or removed, and
    every other row of every column family is as it was. A statement is refused
    exactly when it is an UPDATE or a DELETE of payload of an unknown record, a
    SELECT or a LIVE, and a refused statement, like every statement that is not
    a write, changes nothing. The records are searchable, the counters have
    room for the members, and the name of a removed collection is free of the
    separator byte. *)
Theorem statement_refines info db m log stmt :
  refines db m log -> searchable m -> room db (Z.of_nat (size m) + 1) -> clean_statement stmt ->
  as_meant stmt db m log (apply info db stmt).
Proof. apply statement_as_meant. Qed.
End spec.

(** ** A run *)

Module Runs.
#[local] Existing Instances plain_number flat_libm one_token.

Lemma statement_refines_witness : exists stmt,
  QlParser.parse (str "REMOVE COLLECTION docs") = Ok stmt
  /\ as_meant no_text no_clock true stmt db1 m1.1 m1.2 (apply no_text no_clock true (mkEstateInfo [] [] 0 None ∅) db1 stmt).
Proof.
  exists (Statement.Remove (Remove.Collection (str "docs"))). split; [vm_compute; reflexivity|].
  apply (statement_refines no_text no_clock true).
  - apply db1_refines.
  - apply m1_searchable.
  - split_and!; vm_compute; reflexivity.
  - refine (bool_decide_eq_true_1 _ _). vm_compute. reflexivity.
Defined.
End Runs.
