(* ===== verification/StdRoutines.v ===== *)
(** * Routines of the standard library

    The default hasher ([std::hash::DefaultHasher]) and the formatting of numbers.

    SipHash-1-3 with the zero key on 64-bit words; [str] hashes its bytes and
    the terminator 0xff. The examples are values of an independent
    implementation. *)
From S2P Require Import Prelude ByteOrder Utf8.
#[local] Set Default Goal Selector "!".
Local Open Scope Z_scope.

Definition wrap64 (x : Z) : Z := x mod 2 ^ 64.
Definition rotl64 (x : Z) (k : Z) : Z := Z.lor (wrap64 (Z.shiftl x k)) (Z.shiftr x (64 - k)).

Record SipState : Type := mkSip { v0 : Z; v1 : Z; v2 : Z; v3 : Z }.

Definition sip_round (s : SipState) : SipState :=
  let a := wrap64 (v0 s + v1 s) in
  let b := Z.lxor (rotl64 (v1 s) 13) a in
  let a := rotl64 a 32 in
  let c := wrap64 (v2 s + v3 s) in
  let d := Z.lxor (rotl64 (v3 s) 16) c in
  let a := wrap64 (a + d) in
  let d := Z.lxor (rotl64 d 21) a in
  let c := wrap64 (c + b) in
  let b := Z.lxor (rotl64 b 17) c in
  let c := rotl64 c 32 in
  mkSip a b c d.

Definition sip_init : SipState :=
  mkSip 0x736f_6d65_7073_6575 0x646f_7261_6e64_6f6d 0x6c79_6765_6e65_7261 0x7465_6462_7974_6573.

(** One word of the message. *)
Definition sip_word (s : SipState) (m : Z) : SipState :=
  let s := sip_round (mkSip (v0 s) (v1 s) (v2 s) (Z.lxor (v3 s) m)) in
  mkSip (Z.lxor (v0 s) m) (v1 s) (v2 s) (v3 s).

(** The whole words of the message and its tail under the length byte. *)
Fixpoint sip_words (fuel : nat) (len : Z) (b : bytes) (s : SipState) : SipState :=
  match fuel with
  | O => s
  | S fuel =>
      if (length b <? 8)%nat then sip_word s (Z.lor (from_le_bytes b) (Z.shiftl (len mod 256) 56))
      else sip_words fuel len (drop 8 b) (sip_word s (from_le_bytes (take 8 b)))
  end.

Definition siphash13 (b : bytes) : Z :=
  let s := sip_words (S (length b)) (Z.of_nat (length b)) b sip_init in
  let s := mkSip (v0 s) (v1 s) (Z.lxor (v2 s) 255) (v3 s) in
  let s := Nat.iter 3 sip_round s in
  Z.lxor (Z.lxor (v0 s) (v1 s)) (Z.lxor (v2 s) (v3 s)).

(** [h = DefaultHasher::new(); token.hash(&mut h); h.finish()] *)
Definition hash_str (token : bytes) : Z := siphash13 (token ++ [255]).

Example sip_abc : siphash13 (str "abc") = 13851880170939887858.
Proof. vm_compute. reflexivity. Qed.
Example sip_cat : hash_str (str "cat") = 15996045067062588322.
Proof. vm_compute. reflexivity. Qed.
(** A message of one word and a tail. *)
Example sip_word_and_tail : hash_str (str "migration") = 8714286474750396897.
Proof. vm_compute. reflexivity. Qed.

(** * Printing numbers (the formatting of the standard library)

    Integers in decimal, floats with a fixed number of decimals. *)
From S2P Require Import Prelude Floats.
From Stdlib Require Import SpecFloat.
From stdpp Require Import pretty.
Local Open Scope Z_scope.

(** [{}] of an unsigned integer *)
Definition display (n : Z) : bytes := str (pretty (Z.to_N n)).

(** The nearest integer to [num / den], a tie to the even one. *)
Definition round_half_even (num den : Z) : Z :=
  let q := num / den in
  match 2 * (num mod den) ?= den with
  | Lt => q
  | Gt => q + 1
  | Eq => if Z.even q then q else q + 1
  end.

Definition pad_zeros (n : nat) (s : bytes) : bytes := replicate (n - length s) 48 ++ s.

(** [{:.p}] of a float *)
Definition fmt_fixed (p : nat) (x : spec_float) : bytes :=
  let sign (s : bool) := if s then [45] else [] in
  let digits (n : Z) :=
    let scale := 10 ^ Z.of_nat p in
    display (n / scale) ++ (if (p =? 0)%nat then [] else 46 :: pad_zeros p (display (n mod scale))) in
  match x with
  | S754_nan => str "NaN"
  | S754_infinity s => sign s ++ str "inf"
  | S754_zero s => sign s ++ digits 0
  | S754_finite s m e =>
      let scaled := Zpos m * 10 ^ Z.of_nat p in
      sign s ++ digits (if 0 <=? e then scaled * 2 ^ e else round_half_even scaled (2 ^ (- e)))
  end.

Example fmt_half : (fmt_fixed 0 (f32_from_bits 0x3F00_0000), fmt_fixed 0 (f32_from_bits 0x4020_0000)) = (str "0", str "2").
Proof. vm_compute. reflexivity. Qed.
Example fmt_tenth : (fmt_fixed 2 (f32_from_bits 0x3DCC_CCCD), fmt_fixed 1 (f64_of_Z (-12))) = (str "0.10", str "-12.0").
Proof. vm_compute. reflexivity. Qed.

(** ** Digits *)

Lemma str_inj s t : str s = str t -> s = t.
Proof.
  unfold str. intros E. rewrite <- (string_of_list_ascii_of_string s), <- (string_of_list_ascii_of_string t). f_equal.
  revert E. generalize (list_ascii_of_string t). induction (list_ascii_of_string s) as [|a l IH]; intros [|b l']; try done.
  cbn. intros [= Ea El]. f_equal; [|by apply IH]. unfold ch in Ea. apply N2Z.inj in Ea.
  by rewrite <- (Ascii.ascii_N_embedding a), <- (Ascii.ascii_N_embedding b), Ea.
Qed.

Lemma display_inj a b : 0 <= a -> 0 <= b -> display a = display b -> a = b.
Proof. unfold display. intros Ha Hb E%str_inj%(inj pretty). lia. Qed.

Lemma pretty_digits x s : Forall (fun c => is_ascii_digit c = true) (str s) ->
  Forall (fun c => is_ascii_digit c = true) (str (pretty_N_go x s)).
Proof.
  revert s. induction (N.lt_wf_0 x) as [x _ IH]; intros s Hs.
  destruct (decide (x = 0)%N) as [->|Hx]; [done|]. rewrite pretty_N_go_step by lia. apply IH; [by apply N.div_lt; lia|].
  unfold str. cbn [list_ascii_of_string map]. constructor; [|done]. unfold pretty_N_char. by repeat case_match.
Qed.

Lemma display_digits n : Forall (fun c => is_ascii_digit c = true) (display n).
Proof.
  unfold display, pretty, pretty_N. case_decide; [by repeat constructor|]. by apply pretty_digits.
Qed.

(** The text before the first separator is determined. *)
Lemma app_sep_inj (c : Z) a a' b b' : Forall (fun x => x <> c) a -> Forall (fun x => x <> c) a' ->
  a ++ c :: b = a' ++ c :: b' -> a = a' /\ b = b'.
Proof.
  intros Ha. revert a'. induction Ha as [|x a Hx _ IH]; intros [|y a'] Ha' E; cbn in E.
  - injection E as ->. done.
  - injection E as -> _. by apply Forall_cons in Ha' as [].
  - injection E as -> _. done.
  - injection E as -> E. apply Forall_cons in Ha' as [_ Ha']. by destruct (IH a' Ha' E) as [-> ->].
Qed.
