(* ===== verification/Traits.v ===== *)
(** * The seams of the engine (crates/rro-core/src/traits.rs)

    An embedder, a recall, a reranker and a classifier are trait objects. Each
    trait is a record of operations, with the provided methods of the trait as
    definitions, and a class of laws: what an implementation promises to the
    flow that calls it. *)
From S2P Require Import Prelude Floats ByteOrder Utf8 Json Quant Model Kv Store Fusion Searches.
From S2P Require Import SearchSpec.
#[local] Set Default Goal Selector "!".
#[local] Set Warnings "-clear-no-such-hyp".
Local Open Scope Z_scope.

Abbreviation Embedding := (list f32).

Section traits.
Context `{SerdeNumber}.

(** ** The embedder *)

Record Embedder : Type := mkEmbedder {
  em_dim : Z;
  em_embed : list bytes -> result RroError (list Embedding);
  em_documents : list bytes -> result RroError (list Embedding);
  em_queries : list bytes -> result RroError (list Embedding);
  em_model : bytes;
}.

(** An implementation that overrides neither side. *)
Definition symmetric_embedder (dim : Z) (embed : list bytes -> result RroError (list Embedding)) (model : bytes) : Embedder :=
  mkEmbedder dim embed embed embed model.

(** [out.pop().ok_or_else(..)] *)
Definition pop_one (out : list Embedding) : result RroError Embedding :=
  match last out with Some e => Ok e | None => Err (EmbedError (str "empty embedding batch")) end.

Definition embed_one (e : Embedder) (text : bytes) : result RroError Embedding := out ← em_embed e [text]; pop_one out.
Definition embed_document_one (e : Embedder) (text : bytes) : result RroError Embedding :=
  out ← em_documents e [text]; pop_one out.
Definition embed_query_one (e : Embedder) (text : bytes) : result RroError Embedding :=
  out ← em_queries e [text]; pop_one out.

(** One vector per text, of the embedder's dimension. *)
Class EmbedderLaws (e : Embedder) : Prop := {
  documents_each texts out : em_documents e texts = Ok out -> Forall2 (fun _ v => Z.of_nat (length v) = em_dim e) texts out;
  queries_each texts out : em_queries e texts = Ok out -> Forall2 (fun _ v => Z.of_nat (length v) = em_dim e) texts out;
}.

(** ** The recall; its state is what lies behind the [Arc] *)

Class Recall (S : Type) := mkRecallOps {
  rc_upsert : S -> list VectorRecord -> S * result RroError unit;
  rc_search : S -> Embedding -> Z -> result RroError (list Candidate);
  rc_hybrid_search : S -> bytes -> Embedding -> Z -> result RroError (list Candidate);
  rc_len : S -> result RroError Z;
  rc_remove : S -> bytes -> S * result RroError unit;
}.

Definition rc_is_empty {S} `{Recall S} (s : S) : result RroError bool := n ← rc_len s; Ok (n =? 0).

(** The provided methods: hybrid search that ignores the text, and a removal
    that does nothing. *)
Definition dense_only {S} (search : S -> Embedding -> Z -> result RroError (list Candidate)) (s : S) (_ : bytes) : Embedding -> Z -> result RroError (list Candidate) :=
  search s.
Definition no_remove {S} (s : S) (_ : bytes) : S * result RroError unit := (s, Ok tt).

(** Later records of a batch replace earlier ones. *)
Definition put_all (rs : list VectorRecord) (m : gmap bytes VectorRecord) : gmap bytes VectorRecord :=
  fold_left (fun m r => <[vr_id r := r]> m) rs m.

(** What a hybrid search answers is a page of what the recall holds. *)
Class RecallReads {S} (R : Recall S) (holds : S -> gmap bytes VectorRecord -> Prop) : Prop := {
  reads_hybrid s m text query k l : holds s m -> 0 <= k -> rc_hybrid_search s text query k = Ok l -> page_of m k l;
  reads_len s m : holds s m -> rc_len s = Ok (Z.of_nat (size m));
}.

(** An upsert writes its records or, failing, nothing. *)
Class RecallWrites {S} (R : Recall S) (holds : S -> gmap bytes VectorRecord -> Prop) : Prop := {
  writes_upsert s m rs : holds s m ->
    let '(s', r) := rc_upsert s rs in
    match r with Ok _ => holds s' (put_all rs m) | Err _ => holds s' m end;
  writes_remove s m id : holds s m ->
    let '(s', r) := rc_remove s id in
    match r with Ok _ => holds s' (delete id m) | Err _ => holds s' m end;
}.

(** ** The reranker *)

Record Reranker : Type := mkReranker {
  rr_rerank : bytes -> list Candidate -> Z -> result RroError (list Candidate);
  rr_model : bytes;
}.

(** Reranking changes scores and the order, and cuts. *)
Definition rescored (cs l : list Candidate) : Prop :=
  map (fun c => with_score c f32_zero) l ≡ₚ map (fun c => with_score c f32_zero) cs.
Class RerankerLaws (r : Reranker) : Prop := {
  rerank_page query cs k out : rr_rerank r query cs k = Ok out -> exists l, rescored cs l /\ out = truncate k l;
}.

(** ** The classifier *)

Record Readiness : Type := mkReadiness { ready : bool; confidence : f32; label : bytes; rationale : bytes }.
Definition is_ready (confidence : f32) (rationale : bytes) : Readiness := mkReadiness true confidence (str "ready") rationale.
Definition not_ready (confidence : f32) (label rationale : bytes) : Readiness := mkReadiness false confidence label rationale.

Record Classifier : Type := mkClassifier {
  cl_classify : bytes -> list Candidate -> result RroError Readiness;
  cl_model : bytes;
}.

(** ** Facts *)

Lemma with_score_id c s : c_id (with_score c s) = c_id c.
Proof. done. Qed.

Lemma map_with_score_ids (l : list Candidate) : map c_id (map (fun c => with_score c f32_zero) l) = map c_id l.
Proof. by rewrite map_map. Qed.

(** Reranking a page of documents gives a page of documents. *)
Lemma rescored_page m k k' cs l : 0 <= k' -> page_of m k cs -> rescored cs l -> page_of m k' (truncate k' l).
Proof.
  intros Hk [_ Hid Hd] Hr. unfold rescored in Hr. split.
  - rewrite truncate_length by done. lia.
  - eapply sublist_NoDup; [|apply fmap_sublist, truncate_sublist]. change (NoDup (map c_id l)).
    rewrite <- map_with_score_ids. rewrite Hr. by rewrite map_with_score_ids.
  - intros c Hc. assert (c ∈ l) as Hl by (by eapply elem_of_sublist, truncate_sublist).
    assert (with_score c f32_zero ∈ map (fun c => with_score c f32_zero) cs) as Hin.
    { rewrite <- Hr. by apply (list_elem_of_fmap_2 (fun c => with_score c f32_zero)). }
    apply list_elem_of_fmap in Hin as (c0 & E & Hc0). destruct (Hd c0 Hc0) as (r & Hm & E0). exists r.
    unfold doc_hit, with_score in *. destruct c, c0. cbn in *. by simplify_eq.
Qed.
End traits.
