(* ===== verification/Defaults.v ===== *)
(** * The components of the default engine
    (crates/embedder/src/deterministic.rs and tokenize.rs,
     crates/reranker/src/bm25.rs and identity.rs,
     crates/classifier/src/heuristic.rs, crates/recall/src/flat.rs)

    Each implementation of a seam of [Traits], and the laws of that seam it
    keeps. *)
From S2P Require Import Prelude Floats ByteOrder Utf8 Json Geo Quant Text Model Kv Store Fusion.
From S2P Require Import Searches SearchSpec.
From S2P Require Import RrdShape StdRoutines Traits QuantFacts.
#[local] Set Default Goal Selector "!".
#[local] Set Warnings "-clear-no-such-hyp".
Local Open Scope Z_scope.

(** ** The deterministic embedder *)

(** The bucket of a token and its sign. *)
Definition bucket (token : bytes) (dim : Z) : Z * f32 :=
  let hv := hash_str token in
  (hv mod dim, if Z.land (Z.shiftr hv 33) 1 =? 0 then f32_one else f32_opp f32_one).

Section embedder.
Context `{Unicode}.

(** [v[idx] += sign], which panics out of range. *)
Definition add_token (dim : Z) (v : Embedding) (tok : bytes) : option Embedding :=
  let '(idx, sign) := bucket tok dim in
  x ← v !! Z.to_nat idx; Some (<[Z.to_nat idx := f32_add x sign]> v).

Definition embed_text (dim : Z) (text : bytes) : option Embedding :=
  v ← fold_opt (add_token dim) (replicate (Z.to_nat dim) f32_zero) (content_tokens text);
  Some (normalized v).

Definition DEFAULT_DIM : Z := 384.
Definition with_dim (dim : Z) : Embedder :=
  let dim := Z.max dim 1 in
  symmetric_embedder dim (fun texts => or_panic (mapM (embed_text dim) texts)) (str "deterministic-hash").
Definition deterministic : Embedder := with_dim DEFAULT_DIM.
End embedder.

(** ** Rerankers *)

Section components.
Context `{SerdeNumber}.

(** [b.score.total_cmp(&a.score)] *)
Definition score_le (a b : Candidate) : Prop := f32_key (c_score b) <= f32_key (c_score a).
#[export] Instance score_le_dec : RelDecision score_le.
Proof. intros a b. apply Z_le_dec. Defined.

Section reranker.
Context `{Unicode} `{Ln32}.

(** [*tf.entry(t).or_insert(0.0) += 1.0] over a document. *)
Definition tf_of (doc : list bytes) (term : bytes) : f32 :=
  fold_left (fun n t => if bool_decide (t = term) then f32_add n f32_one else n) doc f32_zero.
Definition df_of (docs : list (list bytes)) (term : bytes) : Z :=
  Z.of_nat (length (filter (fun d => term ∈ d) docs)) mod 2 ^ 32.

(** One query term. *)
Definition add_term (params : Bm25Params) (n avgdl : f32) (docs : list (list bytes)) (doc : list bytes) (score : f32) (term : bytes) : f32 :=
  let f := tf_of doc term in
  if feq f f32_zero then score
  else
    let dl := f32_of_nat (length doc) in
    let idf := bm25_idf n (f32_of_Z (df_of docs term)) in
    f32_add score (f32_div (f32_mul idf (f32_mul f (f32_add (k1 params) f32_one))) (bm25_denom params f dl avgdl)).

Definition average_length (docs : list (list bytes)) : f32 :=
  f_max (f32_div (f32_of_nat (sum_list_with length docs)) (f32_of_nat (length docs))) f32_one.

Definition lexical_score (params : Bm25Params) (q_terms : list bytes) (docs : list (list bytes)) (doc : list bytes) : f32 :=
  fold_left (add_term params (f32_of_nat (length docs)) (average_length docs) docs doc) q_terms f32_zero.

Definition lexical_rerank (params : Bm25Params) (query : bytes) (candidates : list Candidate) (top_k : Z) : list Candidate :=
  let q_terms := content_tokens query in
  if bool_decide (candidates = []) || bool_decide (q_terms = []) then truncate top_k candidates
  else
    let docs := map (fun c => content_tokens (c_text c)) candidates in
    let scored := zip_with (fun c doc => with_score c (lexical_score params q_terms docs doc)) candidates docs in
    truncate top_k (merge_sort score_le scored).

Definition with_params (k1 b : f32) : Reranker :=
  mkReranker (fun query cs k => Ok (lexical_rerank (mkParams k1 b) query cs k)) (str "bm25-lexical").
Definition lexical_reranker : Reranker := with_params (Fusion.k1 default_params) (Fusion.b default_params).
End reranker.

Definition identity_reranker : Reranker := mkReranker (fun _ cs k => Ok (truncate k cs)) (str "identity").

(** ** The coverage classifier *)

Record HeuristicClassifier : Type := mkHeuristic { top_context : nat; ready_at : f32; partial_at : f32 }.
Definition heuristic_default : HeuristicClassifier := mkHeuristic 5 f32_half (f32_from_bits 0x3E80_0000).
Definition with_thresholds (ready_at partial_at : f32) : HeuristicClassifier := mkHeuristic 5 ready_at partial_at.

Section classifier.
Context `{Unicode}.

Definition term_set (text : bytes) : gset bytes := list_to_set (content_tokens text).

(** The query terms found in the context. *)
Definition covered (q_terms : gset bytes) (context : list Candidate) : gset bytes :=
  fold_left (fun seen c => seen ∪ filter (fun q => q ∈ term_set (c_text c)) q_terms) context ∅.

Definition classify (h : HeuristicClassifier) (query : bytes) (context : list Candidate) : Readiness :=
  let q_terms := term_set query in
  if bool_decide (context = []) then not_ready f32_zero (str "no_context") (str "recall returned no candidates")
  else if bool_decide (q_terms = ∅) then
    not_ready f32_zero (str "empty_query") (str "query has no content terms to satisfy")
  else
    let k := Nat.min (top_context h) (length context) in
    let covered := covered q_terms (take k context) in
    let coverage := f32_div (f32_of_nat (size covered)) (f32_of_nat (size q_terms)) in
    let rationale :=
      display (Z.of_nat (size covered)) ++ str "/" ++ display (Z.of_nat (size q_terms))
      ++ str " query terms covered across top " ++ display (Z.of_nat k) in
    if fge coverage (ready_at h) then is_ready coverage rationale
    else if fge coverage (partial_at h) then not_ready coverage (str "partial") rationale
    else not_ready coverage (str "insufficient") rationale.

Definition heuristic (h : HeuristicClassifier) : Classifier :=
  mkClassifier (fun query context => Ok (classify h query context)) (str "heuristic-coverage").
End classifier.

(** ** The brute-force recall *)

Record FlatRecall : Type := mkFlat { fl_inner : gmap bytes VectorRecord; fl_dim : option Z }.
Definition flat_new : FlatRecall := mkFlat ∅ None.

Definition emb_dim (e : Embedding) : Z := Z.of_nat (length e).

(** The first vector offered sets the dimension. *)
Definition check_dim (d : option Z) (e : Embedding) : option Z * result RroError unit :=
  match d with
  | None => (Some (emb_dim e), Ok tt)
  | Some expected => (d, if expected =? emb_dim e then Ok tt else Err (DimMismatch expected (emb_dim e)))
  end.

Fixpoint check_dims (d : option Z) (rs : list VectorRecord) : option Z * result RroError unit :=
  match rs with
  | [] => (d, Ok tt)
  | r :: rs => match check_dim d (vr_embedding r) with (d, Ok _) => check_dims d rs | (d, Err e) => (d, Err e) end
  end.

Definition flat_upsert (s : FlatRecall) (rs : list VectorRecord) : FlatRecall * result RroError unit :=
  match check_dims (fl_dim s) rs with
  | (d, Ok _) => (mkFlat (put_all rs (fl_inner s)) d, Ok tt)
  | (d, Err e) => (mkFlat (fl_inner s) d, Err e)
  end.

(** [b.1.total_cmp(&a.1)] *)
Definition hit_le (a b : Hit) : Prop := f32_key b.2 <= f32_key a.2.
#[export] Instance hit_le_dec : RelDecision hit_le.
Proof. intros a b. apply Z_le_dec. Defined.

Definition flat_search `{HashOrder} (s : FlatRecall) (query : Embedding) (top_k : Z) : result RroError (list Candidate) :=
  if top_k =? 0 then Ok []
  else
    _ ← (match fl_dim s with
         | Some expected => if negb (expected =? emb_dim query) then Err (DimMismatch expected (emb_dim query)) else Ok tt
         | None => Ok tt
         end);
    let scored := map (fun p => (vr_id p.2, cosine query (vr_embedding p.2))) (hash_iter (fl_inner s)) in
    let scored := truncate top_k (merge_sort hit_le scored) in
    Ok (omap (fun h => (fun r => mkCandidate (vr_id r) (vr_text r) h.2 (vr_metadata r) None []) <$> fl_inner s !! h.1) scored).

Definition flat_len (s : FlatRecall) : result RroError Z := Ok (Z.of_nat (size (fl_inner s))).
Definition flat_remove (s : FlatRecall) (id : bytes) : FlatRecall * result RroError unit :=
  (mkFlat (delete id (fl_inner s)) (fl_dim s), Ok tt).

#[export] Instance flat_recall `{HashOrder} : Recall FlatRecall :=
  mkRecallOps _ flat_upsert flat_search (dense_only flat_search) flat_len flat_remove.

(** ** The embedder keeps its laws *)

Section embedder_facts.
Context `{Unicode}.

Lemma bucket_range token dim : 0 < dim -> 0 <= (bucket token dim).1 < dim.
Proof. intros Hd. unfold bucket. cbn [fst]. apply Z.mod_pos_bound. lia. Qed.

Lemma add_token_ok dim v tok : 0 < dim -> length v = Z.to_nat dim ->
  exists v', add_token dim v tok = Some v' /\ length v' = Z.to_nat dim.
Proof.
  intros Hd Hv. unfold add_token. pose proof (bucket_range tok dim Hd) as Hr. destruct (bucket tok dim) as [idx sign].
  cbn [fst] in Hr. destruct (lookup_lt_is_Some_2 v (Z.to_nat idx)) as [x ->]; [lia|]. cbn.
  eexists. split; [done|]. by rewrite length_insert.
Qed.

(** Every text has a vector, of the embedder's dimension. *)
Lemma embed_text_ok dim text : 0 < dim -> exists v, embed_text dim text = Some v /\ length v = Z.to_nat dim.
Proof.
  intros Hd. unfold embed_text.
  destruct (fold_opt_inv (fun v => length v = Z.to_nat dim) (add_token dim) (content_tokens text) (replicate (Z.to_nat dim) f32_zero))
    as (v & -> & Hv).
  - apply length_replicate.
  - intros v tok _ Hv. destruct (add_token_ok dim v tok Hd Hv) as (v' & -> & Hv'). eauto.
  - cbn. eexists. split; [done|]. by rewrite normalized_length.
Qed.

Lemma embed_texts_ok dim texts : 0 < dim ->
  exists out, mapM (embed_text dim) texts = Some out /\ Forall2 (fun _ v => Z.of_nat (length v) = dim) texts out.
Proof.
  intros Hd. destruct (mapM_total (embed_text dim) texts) as (out & -> & Hf).
  { intros t _. destruct (embed_text_ok dim t Hd) as (v & -> & _). eauto. }
  exists out. split; [done|]. eapply Forall2_impl; [exact Hf|]. intros t v E.
  destruct (embed_text_ok dim t Hd) as (v' & E' & Hl). rewrite E in E'. injection E' as ->. lia.
Qed.

#[export] Instance with_dim_laws dim : EmbedderLaws (with_dim dim).
Proof.
  split; intros texts out; unfold with_dim, symmetric_embedder; cbn;
    destruct (embed_texts_ok (Z.max dim 1) texts ltac:(lia)) as (o & -> & Hf); by intros [= <-].
Qed.
End embedder_facts.

(** ** The rerankers keep theirs *)

#[export] Instance score_le_total : Total score_le.
Proof. intros a b. unfold score_le. lia. Qed.
#[export] Instance score_le_trans : Transitive score_le.
Proof. intros a b c. unfold score_le. lia. Qed.

#[export] Instance identity_laws : RerankerLaws identity_reranker.
Proof. split. intros query cs k out [= <-]. exists cs. split; [unfold rescored; reflexivity|done]. Qed.

Section reranker_facts.
Context `{Unicode} `{Ln32}.

(** The candidates with their relevance. *)
Definition relevant (params : Bm25Params) (query : bytes) (cs : list Candidate) : list Candidate :=
  map (fun c => with_score c (lexical_score params (content_tokens query) (map (fun c => content_tokens (c_text c)) cs)
                                (content_tokens (c_text c)))) cs.

Lemma zip_with_map {A B C} (f : A -> B -> C) (g : A -> B) l : zip_with f l (map g l) = map (fun x => f x (g x)) l.
Proof. induction l as [|x l IH]; [done|]. cbn. by rewrite IH. Qed.

(** The reranker scores every candidate by BM25 over the candidates as the
    corpus, sorts by that score, ties in the order they came, and cuts;
    without candidates or query terms it only cuts. *)
Lemma lexical_rerank_exact params query cs k : exists l,
  lexical_rerank params query cs k = truncate k l
  /\ if bool_decide (cs = []) || bool_decide (content_tokens query = []) then l = cs
     else StronglySorted score_le l /\ l ≡ₚ relevant params query cs.
Proof.
  unfold lexical_rerank. destruct (_ || _); [by exists cs|]. eexists. split; [done|].
  split; [apply StronglySorted_merge_sort; apply _|]. rewrite merge_sort_Permutation, zip_with_map. done.
Qed.

#[export] Instance with_params_laws k1 b : RerankerLaws (with_params k1 b).
Proof.
  split. intros query cs k out [= <-]. destruct (lexical_rerank_exact (mkParams k1 b) query cs k) as (l & -> & Hl).
  exists l. split; [|done]. unfold rescored. destruct (_ || _); [by subst l|]. destruct Hl as [_ ->].
  unfold relevant. rewrite map_map. done.
Qed.
End reranker_facts.

(** ** The brute-force recall answers exactly *)

#[export] Instance hit_le_total : Total hit_le.
Proof. intros a b. unfold hit_le. lia. Qed.
#[export] Instance hit_le_trans : Transitive hit_le.
Proof. intros a b c. unfold hit_le. lia. Qed.

Section flat_facts.
Context `{HashOrderLaws}.

(** The records under their ids, all of the registered dimension. *)
Definition flat_holds (s : FlatRecall) (m : gmap bytes VectorRecord) : Prop :=
  fl_inner s = m /\ map_Forall (fun id r => vr_id r = id /\ fl_dim s = Some (emb_dim (vr_embedding r))) m.

Lemma flat_new_holds : flat_holds flat_new ∅.
Proof. split; [done|]. apply map_Forall_empty. Qed.

(** A dimension, once registered, stays; all records of an accepted batch
    have it. *)
Lemma flat_dims_ok d rs :
  let '(d', r) := check_dims d rs in
  (forall x, d = Some x -> d' = Some x)
  /\ (r = Ok tt <-> exists x, Forall (fun r => emb_dim (vr_embedding r) = x) rs /\ (d = None \/ d = Some x))
  /\ (r = Ok tt -> Forall (fun r => d' = Some (emb_dim (vr_embedding r))) rs).
Proof.
  revert d. induction rs as [|r rs IH]; intros d; cbn [check_dims].
  - split_and!; [done| |constructor]. split; [|done]. intros _. exists (default 0 d). split; [constructor|]. destruct d; auto.
  - unfold check_dim. destruct d as [x|].
    + destruct (Z.eqb_spec x (emb_dim (vr_embedding r))) as [E|Hne].
      * specialize (IH (Some x)). destruct (check_dims (Some x) rs) as [d' res]. destruct IH as (I1 & I2 & I3).
        split_and!; [done| |].
        -- rewrite I2. split; intros (y & Hy & Hd); exists y.
           ++ destruct Hd as [?|[= <-]]; [done|]. split; [by constructor|by right].
           ++ apply Forall_cons in Hy as [_ Hy]. by split.
        -- intros Hr. constructor; [|by apply I3]. rewrite (I1 x eq_refl). by rewrite E.
      * split_and!; [done| |done]. split; [done|]. intros (y & [Hy _]%Forall_cons & [?|[= <-]]); congruence.
    + specialize (IH (Some (emb_dim (vr_embedding r)))). destruct (check_dims _ rs) as [d' res]. destruct IH as (I1 & I2 & I3).
      split_and!; [done| |].
      * rewrite I2. split; intros (y & Hy & Hd); exists y.
        -- destruct Hd as [?|[= <-]]; [done|]. split; [by constructor|by left].
        -- apply Forall_cons in Hy as [<- Hy]. split; [done|by right].
      * intros Hr. constructor; [|by apply I3]. by apply I1.
Qed.

Lemma put_all_ids rs m : keyed m -> keyed (put_all rs m).
Proof.
  revert m. induction rs as [|r rs IH]; intros m Hm; [done|]. apply IH. by apply map_Forall_insert_2.
Qed.

Lemma put_all_forall (P : VectorRecord -> Prop) rs m : Forall P rs -> map_Forall (fun _ r => P r) m -> map_Forall (fun _ r => P r) (put_all rs m).
Proof.
  intros Hrs. revert m. induction Hrs as [|r rs Hr _ IH]; intros m Hm; [done|]. apply IH. by apply map_Forall_insert_2.
Qed.

Lemma flat_upsert_ok s m rs : flat_holds s m ->
  let '(s', r) := flat_upsert s rs in
  match r with Ok _ => flat_holds s' (put_all rs m) | Err _ => flat_holds s' m end.
Proof.
  intros [<- Hm]. unfold flat_upsert. pose proof (flat_dims_ok (fl_dim s) rs) as Hc.
  destruct (check_dims (fl_dim s) rs) as [d' [[]|e]]; destruct Hc as (Hd1 & _ & Hd3).
  - split; [done|]. cbn [fl_dim]. intros id r Hr. split.
    + apply (put_all_ids rs (fl_inner s)); [|done]. intros i x Hx. by apply (Hm i x Hx).
    + revert id r Hr. apply (put_all_forall (fun r => d' = Some (emb_dim (vr_embedding r)))); [by apply Hd3|].
      intros id r Hr. apply Hd1. by apply (Hm id r Hr).
  - split; [done|]. cbn [fl_dim]. intros id r Hr. destruct (Hm id r Hr) as [? ?]. split; [done|by apply Hd1].
Qed.

Lemma flat_remove_ok s m id : flat_holds s m -> let '(s', r) := flat_remove s id in r = Ok tt /\ flat_holds s' (delete id m).
Proof. intros [<- Hm]. split; [done|]. split; [done|]. by apply map_Forall_delete. Qed.

#[export] Instance flat_writes : RecallWrites flat_recall flat_holds.
Proof.
  split.
  - intros s m rs Hs. by apply flat_upsert_ok.
  - intros s m id Hs. by apply (flat_remove_ok s m id).
Qed.

(** What a brute-force search answers. *)
Record nearest (m : gmap bytes VectorRecord) (query : Embedding) (k : Z) (l : list Candidate) : Prop := mkNearest {
  nr_page : page_of m k l;
  nr_length : Z.of_nat (length l) = Z.min k (Z.of_nat (size m));
  nr_scores : forall c r, c ∈ l -> m !! c_id c = Some r -> c_score c = cosine query (vr_embedding r);
  nr_sorted : StronglySorted score_le l;
  nr_rest : forall id r c, m !! id = Some r -> id ∉ map c_id l -> c ∈ l -> f32_key (cosine query (vr_embedding r)) <= f32_key (c_score c);
}.

Definition flat_scored (m : gmap bytes VectorRecord) (query : Embedding) : list Hit :=
  merge_sort hit_le (map (fun p => (vr_id p.2, cosine query (vr_embedding p.2))) (hash_iter m)).

Lemma flat_scored_hits m query : keyed m ->
  flat_scored m query ≡ₚ map (fun p => (p.1, cosine query (vr_embedding p.2))) (map_to_list m).
Proof.
  intros Hm. unfold flat_scored. rewrite merge_sort_Permutation, hash_iter_perm.
  apply Permutation_refl'. apply map_ext_in. intros [id r] Hin%list_elem_of_In%elem_of_map_to_list. cbn. by rewrite (Hm id r Hin).
Qed.

Lemma flat_scored_ids m query : keyed m ->
  NoDup (flat_scored m query).*1 /\ (forall id s, (id, s) ∈ flat_scored m query <-> exists r, m !! id = Some r /\ s = cosine query (vr_embedding r)).
Proof.
  intros Hm. pose proof (flat_scored_hits m query Hm) as Hp. split.
  - rewrite (fmap_Permutation fst _ _ Hp), <- list_fmap_compose. apply (NoDup_fst_map_to_list m).
  - intros id s. rewrite Hp. rewrite list_elem_of_fmap. split.
    + intros ([id' r] & [= -> ->] & Hin%elem_of_map_to_list). eauto.
    + intros (r & Hr & ->). exists (id, r). split; [done|]. by apply elem_of_map_to_list.
Qed.

(** The candidates are the best [k] by cosine; of documents that tie, which
    come is left to the hash order. *)
Lemma flat_search_exact s m query k : flat_holds s m -> 0 <= k ->
  match fl_dim s with Some d => d = emb_dim query | None => True end ->
  exists l, flat_search s query k = Ok l /\ nearest m query k l.
Proof.
  intros [<- Hm] Hk Hd. assert (keyed (fl_inner s)) as Hids.
  { intros id r Hr. by apply (Hm id r Hr). }
  set (m := fl_inner s) in *. destruct (flat_scored_ids m query Hids) as [Hn Hin].
  exists (doc_hits m (truncate k (flat_scored m query))). split.
  { unfold flat_search. destruct (Z.eqb_spec k 0) as [->|_]; [by rewrite truncate_take|].
    destruct (fl_dim s) as [d|]; [|done]. subst d. by rewrite Z.eqb_refl. }
  assert (forall h, h ∈ truncate k (flat_scored m query) -> exists r, m !! h.1 = Some r /\ h.2 = cosine query (vr_embedding r)) as Hknown.
  { intros [id sc] Hh. apply Hin. by eapply elem_of_sublist, truncate_sublist. }
  assert (forall l, (forall h, h ∈ l -> exists r, m !! h.1 = Some r /\ h.2 = cosine query (vr_embedding r)) ->
    map (fun c => (c_id c, c_score c)) (doc_hits m l) = l) as Hback.
  { clear -Hids. intros l. induction l as [|[id sc] l IH]; intros Hl; [done|]. unfold doc_hits in *. cbn [omap list_omap fst snd].
    destruct (Hl (id, sc)) as (r & Hr & Hsc); [by left|]. cbn [fst snd] in *. rewrite Hr. cbn. rewrite (Hids id r Hr). f_equal.
    apply IH. intros h Hh. apply Hl. by right. }
  specialize (Hback _ Hknown).
  assert (StronglySorted hit_le (flat_scored m query)) as Hsorted by (apply StronglySorted_merge_sort; apply _).
  split.
  - by apply page_hits.
  - apply (f_equal length) in Hback. rewrite length_map in Hback. rewrite Hback, truncate_length by done.
    by rewrite (Permutation_length (flat_scored_hits m query Hids)), length_map, length_map_to_list.
  - intros c r Hc Hr. assert ((c_id c, c_score c) ∈ truncate k (flat_scored m query)) as Hh.
    { rewrite <- Hback. by apply (list_elem_of_fmap_2 (fun c => (c_id c, c_score c))). }
    destruct (Hknown _ Hh) as (r' & Hr' & Hsc). cbn in *. congruence.
  - apply (take_sorted hit_le _ (Z.to_nat k)) in Hsorted. rewrite <- truncate_take, <- Hback in Hsorted.
    clear -Hsorted. revert Hsorted. generalize (doc_hits m (truncate k (flat_scored m query))) as l. intros l.
    induction l as [|c l IH]; intros Hs; [constructor|]. cbn in Hs. inversion Hs as [|? ? Hs' Hf]; subst. constructor; [by apply IH|].
    apply Forall_forall. intros c' Hc'. rewrite Forall_map, Forall_forall in Hf. by apply (Hf c').
  - intros id r c Hr Hni Hc. assert ((id, cosine query (vr_embedding r)) ∈ flat_scored m query) as Hall by (apply Hin; eauto).
    rewrite <- (take_drop (Z.to_nat k) (flat_scored m query)), elem_of_app in Hall. destruct Hall as [Hall|Hall].
    + exfalso. apply Hni. rewrite <- truncate_take, <- Hback in Hall. apply list_elem_of_fmap in Hall as (c' & [= -> _] & Hc').
      by apply list_elem_of_fmap_2.
    + apply (sorted_take_drop hit_le (flat_scored m query) (Z.to_nat k) (c_id c, c_score c) (id, cosine query (vr_embedding r)) Hsorted); [|done].
      rewrite <- truncate_take, <- Hback. by apply (list_elem_of_fmap_2 (fun c => (c_id c, c_score c))).
Qed.

Lemma flat_search_page s m query k l : flat_holds s m -> 0 <= k -> flat_search s query k = Ok l -> page_of m k l.
Proof.
  intros Hs Hk E. destruct (Z.eqb_spec k 0) as [->|Hk0].
  { injection E as <-. split; [done|constructor|]. intros c Hc. by apply elem_of_nil in Hc. }
  assert (match fl_dim s with Some d => d = emb_dim query | None => True end) as Hd.
  { unfold flat_search in E. rewrite (proj2 (Z.eqb_neq k 0) Hk0) in E. destruct (fl_dim s) as [d|]; [|done].
    by destruct (Z.eqb_spec d (emb_dim query)). }
  destruct (flat_search_exact s m query k Hs Hk Hd) as (l' & E' & Hp). rewrite E in E'. injection E' as ->. apply Hp.
Qed.

#[export] Instance flat_reads : RecallReads flat_recall flat_holds.
Proof.
  split.
  - intros s m text query k l. apply flat_search_page.
  - intros s m [<- _]. done.
Qed.
End flat_facts.

(** ** The verdict *)

(** [coverage >= 0.5] and [coverage >= 0.25] of rounded quotients. *)
Definition thresholds_exact (n c : nat) : bool :=
  let coverage := f32_div (f32_of_nat c) (f32_of_nat n) in
  Bool.eqb (fge coverage (ready_at heuristic_default)) (n <=? 2 * c)%nat
  && Bool.eqb (fge coverage (partial_at heuristic_default)) (n <=? 4 * c)%nat.

Lemma thresholds_checked n c : (0 < n <= 64)%nat -> (c <= n)%nat -> thresholds_exact n c = true.
Proof.
  intros Hn Hc. assert (forallb (fun n => forallb (thresholds_exact n) (seq 0 (S n))) (seq 1 64) = true) as Hall by (vm_compute; reflexivity).
  rewrite forallb_forall in Hall. specialize (Hall n). rewrite forallb_forall in Hall. apply Hall; apply in_seq; lia.
Qed.

Section verdict.
Context `{Unicode}.

Definition found_in (context : list Candidate) (q : bytes) : Prop := Exists (fun c => q ∈ term_set (c_text c)) context.
#[export] Instance found_in_dec context q : Decision (found_in context q).
Proof. unfold found_in. apply _. Defined.

Lemma covered_found q_terms context : covered q_terms context = filter (found_in context) q_terms.
Proof.
  unfold covered. assert (forall seen, fold_left (fun seen c => seen ∪ filter (fun q => q ∈ term_set (c_text c)) q_terms) context seen
    = seen ∪ filter (found_in context) q_terms) as ->; [|set_solver].
  induction context as [|c context IH]; intros seen; cbn [fold_left].
  - apply set_eq. intros q. rewrite elem_of_union, elem_of_filter. unfold found_in. rewrite Exists_nil. tauto.
  - rewrite IH. apply set_eq. intros q. rewrite !elem_of_union, !elem_of_filter. unfold found_in. rewrite Exists_cons. tauto.
Qed.

(** The default classifier: the context is ready exactly when the five best
    candidates contain at least half of the distinct content words of the
    query, and partial when at least a quarter (exact for queries of up to 64
    such words). *)
Lemma classify_exact query context :
  let q_terms := term_set query in
  let found := filter (found_in (take 5 context)) q_terms in
  let r := classify heuristic_default query context in
  (size q_terms <= 64)%nat ->
  (ready r = true <-> context <> [] /\ q_terms <> ∅ /\ (size q_terms <= 2 * size found)%nat)
  /\ label r =
       if bool_decide (context = []) then str "no_context" else if bool_decide (q_terms = ∅) then str "empty_query"
       else if (size q_terms <=? 2 * size found)%nat then str "ready"
       else if (size q_terms <=? 4 * size found)%nat then str "partial" else str "insufficient".
Proof.
  intros q_terms found r Hsize. subst r. unfold classify. fold q_terms.
  destruct (bool_decide_reflect (context = [])) as [Ec|Ec].
  { split; [|done]. split; [done|]. by intros (? & _). }
  destruct (bool_decide_reflect (q_terms = ∅)) as [Eq|Eq].
  { split; [|done]. split; [done|]. by intros (_ & ? & _). }
  assert (take (Nat.min (top_context heuristic_default) (length context)) context = take 5 context) as ->.
  { cbn [top_context heuristic_default]. destruct (Nat.le_gt_cases 5 (length context)); [by rewrite Nat.min_l|].
    rewrite Nat.min_r by lia. by rewrite !take_ge by lia. }
  rewrite covered_found. fold found.
  assert (0 < size q_terms)%nat as Hpos by (destruct (size q_terms) eqn:E; [by apply size_empty_inv, leibniz_equiv in E|lia]).
  assert (size found <= size q_terms)%nat as Hle by (apply subseteq_size; set_solver).
  pose proof (thresholds_checked (size q_terms) (size found) ltac:(lia) Hle) as Ht.
  unfold thresholds_exact in Ht. apply andb_true_iff in Ht as [H1%eqb_prop H2%eqb_prop]. rewrite H1, H2.
  destruct (Nat.leb_spec (size q_terms) (2 * size found)); [by split; cbn|].
  destruct (_ <=? _)%nat; split; cbn; try done; (split; [done|intros (_ & _ & ?); lia]).
Qed.
End verdict.
End components.
