(* ===== verification/Connectome.v ===== *)
(** * The connectome (crates/connectome/src/lib.rs and graph.rs,
      crates/rro-engine/src/estate_map.rs)

    The map of one pass through the flow, the map of a whole estate, and their
    rendering as Graphviz text. A node's id is to be unique within its graph. *)
From Stdlib Require Import SpecFloat.
From S2P Require Import Prelude Floats ByteOrder Utf8 Json Geo Quant Text Model Kv Store Searches.
From S2P Require Import Estate QuantFacts StdRoutines Traits.
#[local] Set Default Goal Selector "!".
#[local] Set Warnings "-clear-no-such-hyp".
Local Open Scope Z_scope.

(** ** Graphs *)

Module NodeKind.
Inductive NodeKind : Type := Query | Stage | Candidate | Readiness | Estate | NetNode | Connector | Tag | Shape | Trend.
End NodeKind.
Module EdgeKind.
Inductive EdgeKind : Type := Flow | Ranked | Verdict | Member | Warp | Tagged | Fed.
End EdgeKind.

Record Node : Type := mkNode { nd_id : bytes; nd_kind : NodeKind.NodeKind; nd_label : bytes; nd_score : option f32 }.
Record Edge : Type := mkEdge { eg_from : bytes; eg_to : bytes; eg_kind : EdgeKind.EdgeKind; eg_weight : f32 }.
Record ConnectomeGraph : Type := mkConnectome { g_nodes : list Node; g_edges : list Edge }.

Definition graph_new : ConnectomeGraph := mkConnectome [] [].
Definition node (id : bytes) (kind : NodeKind.NodeKind) (label : bytes) (score : option f32) (g : ConnectomeGraph) : ConnectomeGraph :=
  mkConnectome (g_nodes g ++ [mkNode id kind label score]) (g_edges g).
Definition edge (from to : bytes) (kind : EdgeKind.EdgeKind) (weight : f32) (g : ConnectomeGraph) : ConnectomeGraph :=
  mkConnectome (g_nodes g) (g_edges g ++ [mkEdge from to kind weight]).

Definition color (k : NodeKind.NodeKind) : bytes :=
  match k with
  | NodeKind.Query => str "gold" | NodeKind.Stage => str "lightblue" | NodeKind.Candidate => str "palegreen"
  | NodeKind.Readiness => str "salmon" | NodeKind.Estate => str "khaki" | NodeKind.NetNode => str "lightsteelblue"
  | NodeKind.Connector => str "plum" | NodeKind.Tag => str "lightgrey" | NodeKind.Shape => str "wheat"
  | NodeKind.Trend => str "paleturquoise"
  end.

Definition quote : bytes := [34].
(** A double quote becomes a single one. *)
Definition unquoted (s : bytes) : bytes := map (fun c => if c =? 34 then 39 else c) s.

Definition dot_node (n : Node) : bytes :=
  str "  " ++ quote ++ nd_id n ++ quote ++ str " [label=" ++ quote ++ unquoted (nd_label n) ++ quote
  ++ str ", fillcolor=" ++ color (nd_kind n) ++ str "];" ++ [10].
Definition dot_edge (e : Edge) : bytes :=
  str "  " ++ quote ++ eg_from e ++ quote ++ str " -> " ++ quote ++ eg_to e ++ quote ++ str " [label=" ++ quote
  ++ fmt_fixed 2 (eg_weight e) ++ quote ++ str "];" ++ [10].
Definition to_dot (g : ConnectomeGraph) : bytes :=
  str "digraph connectome {" ++ [10] ++ str "  rankdir=LR;" ++ [10] ++ str "  node [style=filled];" ++ [10]
  ++ concat (map dot_node (g_nodes g)) ++ concat (map dot_edge (g_edges g)) ++ str "}" ++ [10].

(** ** The map of one pass *)

Definition STAGES : list (bytes * bytes) :=
  [(str "stage:embedder", str "embedder " ++ [194; 183] ++ str " perceive");
   (str "stage:recall", str "recall " ++ [194; 183] ++ str " vector memory");
   (str "stage:reranker", str "reranker " ++ [194; 183] ++ str " relevance");
   (str "stage:classifier", str "classifier " ++ [194; 183] ++ str " reason-ready")].

Section map.
Context `{SerdeNumber} `{Unicode}.

(** [str::trim] *)
Fixpoint trim_start (cs : list bytes) : list bytes :=
  match cs with c :: cs' => if u_whitespace c then trim_start cs' else cs | [] => [] end.
Definition trim (s : bytes) : bytes := concat (rev (trim_start (rev (trim_start (chars s))))).

(** At most [max] characters, the last of them an ellipsis when cut. *)
Definition shorten (s : bytes) (max : nat) : bytes :=
  let s := trim s in
  if (length (chars s) <=? max)%nat then s else concat (take (max - 1) (chars s)) ++ [226; 128; 166].

(** [STAGES.windows(2)] *)
Definition spine : list (bytes * bytes) := combine (map fst STAGES) (tail (map fst STAGES)).

Definition add_candidate (g : ConnectomeGraph) (c : Candidate) : ConnectomeGraph :=
  let node_id := str "cand:" ++ c_id c in
  edge (str "stage:reranker") node_id EdgeKind.Ranked (c_score c)
    (node node_id NodeKind.Candidate (shorten (c_text c) 60) (Some (c_score c)) g).

Definition connectome_map (query : bytes) (candidates : list Candidate) (r : Readiness) : ConnectomeGraph :=
  let g := node (str "query") NodeKind.Query query None graph_new in
  let g := fold_left (fun g s => node s.1 NodeKind.Stage s.2 None g) STAGES g in
  let g := edge (str "query") (str "stage:embedder") EdgeKind.Flow f32_one g in
  let g := fold_left (fun g p => edge p.1 p.2 EdgeKind.Flow f32_one g) spine g in
  let g := fold_left add_candidate candidates g in
  let verdict :=
    (if ready r then str "READY" else label r) ++ str " ("
    ++ fmt_fixed 0 (f32_mul (confidence r) (f32_of_Z 100)) ++ str "%)" in
  edge (str "stage:classifier") (str "readiness") EdgeKind.Verdict (confidence r)
    (node (str "readiness") NodeKind.Readiness verdict (Some (confidence r)) g).
End map.

(** ** The map of an estate *)

Section estate_map.
Context `{SerdeNumber} `{Unicode}.

Definition transport_name (t : Transport) : bytes := match t with Local => str "Local" | Tcp => str "Tcp" | Mcp => str "Mcp" end.

Definition warp_id (node_id : bytes) (i : nat) : bytes := str "warp:" ++ node_id ++ str ":" ++ display (Z.of_nat i).

Definition add_warp (n : NodeInfo) (g : ConnectomeGraph) (iw : nat * WarpPoint) : ConnectomeGraph :=
  let wid := warp_id (ni_id n) iw.1 in
  edge (str "node:" ++ ni_id n) wid EdgeKind.Warp f32_one
    (node wid NodeKind.NetNode (u_lowercase (transport_name (transport iw.2) ++ str " " ++ address iw.2)) None g).

Definition add_node (estate_id : bytes) (g : ConnectomeGraph) (n : NodeInfo) : ConnectomeGraph :=
  let nid := str "node:" ++ ni_id n in
  let g := edge estate_id nid EdgeKind.Member f32_one (node nid NodeKind.NetNode (ni_name n) None g) in
  fold_left (add_warp n) (Fusion.enumerate (warp_points n)) g.

Definition add_connector (estate_id : bytes) (g : ConnectomeGraph) (c : ConnectorInfo) : ConnectomeGraph :=
  let cid := str "conn:" ++ ci_id c in
  edge cid estate_id EdgeKind.Fed (f32_of_Z (docs_synced (sync c)))
    (edge estate_id cid EdgeKind.Member f32_one
       (node cid NodeKind.Connector (ci_name c ++ str " (" ++ provider c ++ str ")") None g)).

Definition add_tag (db : Db) (estate_id : bytes) (g : ConnectomeGraph) (t : bytes) : ConnectomeGraph :=
  let count := f32_of_Z (tag_count db t) in
  edge estate_id (str "tag:" ++ t) EdgeKind.Tagged count
    (node (str "tag:" ++ t) NodeKind.Tag (str "#" ++ t) (Some count) g).

Definition add_shape (estate_id : bytes) (g : ConnectomeGraph) (s : bytes * Z) : ConnectomeGraph :=
  if s.2 =? 0 then g
  else
    let sid := str "shape:" ++ s.1 in
    edge estate_id sid EdgeKind.Member (f32_of_Z s.2)
      (node sid NodeKind.Shape (if bool_decide (s.1 = []) then str "(no fields)" else s.1) (Some (f32_of_Z s.2)) g).

(** [last.value as f32] *)
Definition f32_of_f64 (x : f64) : f32 :=
  match x with S754_finite s m e => binary_normalize f32_prec f32_emax (cond_Zopp s (Zpos m)) e s | _ => x end.

(** [None]: a row of the series that does not read. *)
Definition add_trend (db : Db) (estate_id : bytes) (g : ConnectomeGraph) (metric : bytes) : option ConnectomeGraph :=
  series ← trend db metric;
  Some (match last series with
        | Some l =>
            let tid := str "trend:" ++ metric in
            edge estate_id tid EdgeKind.Member f32_one
              (node tid NodeKind.Trend (metric ++ str " = " ++ fmt_fixed 1 (tp_value l)) (Some (f32_of_f64 (tp_value l))) g)
        | None => g
        end).

Definition estate_map (info : EstateInfo) (db : Db) : option ConnectomeGraph :=
  let estate_id := str "estate:" ++ ei_id info in
  let g := node estate_id NodeKind.Estate (ei_name info) None graph_new in
  let g := fold_left (add_node estate_id) (nodes db) g in
  let g := fold_left (add_connector estate_id) (connectors db) g in
  let g := fold_left (add_tag db estate_id) (tags db) g in
  let g := fold_left (add_shape estate_id) (btree_iter (get_shapes db)) g in
  fold_opt (add_trend db estate_id) g (trend_metrics db).
End estate_map.

(** ** Node ids *)

Definition joined (g : ConnectomeGraph) : Prop :=
  Forall (fun e => eg_from e ∈ map nd_id (g_nodes g) /\ eg_to e ∈ map nd_id (g_nodes g)) (g_edges g).

(** A graph whose node ids are distinct and whose edges join its nodes. *)
Definition well_formed (g : ConnectomeGraph) : Prop := NoDup (map nd_id (g_nodes g)) /\ joined g.

Lemma fold_nodes {A} (f : ConnectomeGraph -> A -> ConnectomeGraph) (ids : A -> list bytes) l g :
  (forall g x, map nd_id (g_nodes (f g x)) = map nd_id (g_nodes g) ++ ids x) ->
  map nd_id (g_nodes (fold_left f l g)) = map nd_id (g_nodes g) ++ (l ≫= ids).
Proof.
  intros Hf. revert g. induction l as [|x l IH]; intros g; [by rewrite app_nil_r|].
  cbn [fold_left]. rewrite IH, Hf, <- app_assoc. done.
Qed.

(** The edges a step adds join nodes that are there after it. *)
Definition extends (g g' : ConnectomeGraph) : Prop :=
  exists ids es, map nd_id (g_nodes g') = map nd_id (g_nodes g) ++ ids /\ g_edges g' = g_edges g ++ es
    /\ Forall (fun e => eg_from e ∈ map nd_id (g_nodes g') /\ eg_to e ∈ map nd_id (g_nodes g')) es.
#[export] Instance extends_refl : Reflexive extends.
Proof. intros g. exists [], []. by rewrite !app_nil_r. Qed.
#[export] Instance extends_trans : Transitive extends.
Proof.
  intros g1 g2 g3 (i1 & e1 & N1 & E1 & F1) (i2 & e2 & N2 & E2 & F2). exists (i1 ++ i2), (e1 ++ e2).
  rewrite N2, N1, E2, E1, !app_assoc. split_and!; [done..|].
  apply Forall_app. split; [|by rewrite <- N1, <- N2].
  eapply Forall_impl; [exact F1|]. rewrite <- N1. intros e [? ?]. rewrite !elem_of_app. tauto.
Qed.
Lemma extends_node id kind lab sc g : extends g (node id kind lab sc g).
Proof. exists [id], []. cbn. rewrite map_app, app_nil_r. by split_and!. Qed.
Lemma extends_edge from to kind w g :
  from ∈ map nd_id (g_nodes g) -> to ∈ map nd_id (g_nodes g) -> extends g (edge from to kind w g).
Proof. intros Hf Ht. exists [], [mkEdge from to kind w]. cbn. rewrite app_nil_r. split_and!; [done..|]. by constructor. Qed.
Lemma extends_in g g' id : extends g g' -> id ∈ map nd_id (g_nodes g) -> id ∈ map nd_id (g_nodes g').
Proof. intros (ids & es & -> & _) Hin. apply elem_of_app. by left. Qed.
Lemma extends_joined g g' : extends g g' -> joined g -> joined g'.
Proof.
  intros (ids & es & N & E & F) Hj. unfold joined. rewrite E. apply Forall_app. split; [|done].
  eapply Forall_impl; [exact Hj|]. rewrite N. intros e [? ?]. rewrite !elem_of_app. tauto.
Qed.
Lemma in_node id kind lab sc g : id ∈ map nd_id (g_nodes (node id kind lab sc g)).
Proof. cbn. rewrite map_app, elem_of_app. right. by left. Qed.

Lemma fold_extends {A} (f : ConnectomeGraph -> A -> ConnectomeGraph) (id : bytes) l g :
  (forall g x, id ∈ map nd_id (g_nodes g) -> extends g (f g x)) -> id ∈ map nd_id (g_nodes g) -> extends g (fold_left f l g).
Proof.
  intros Hf. revert g. induction l as [|x l IH]; intros g Hid; [done|]. cbn [fold_left]. transitivity (f g x); [by apply Hf|].
  apply IH. eapply extends_in; [by apply Hf|done].
Qed.

(** *** The map of a pass *)

Section map_facts.
Context `{SerdeNumber} `{Unicode}.

(** What the nodes of a pass stand for. *)
Inductive PassKey : Type := KQuery | KStage (i : nat) | KCand (id : bytes) | KReady.
Definition pass_id (k : PassKey) : bytes :=
  match k with
  | KQuery => str "query" | KStage i => nth i (map fst STAGES) [] | KCand id => str "cand:" ++ id | KReady => str "readiness"
  end.

Lemma pass_id_inj k k' : match k with KStage i => (i < 4)%nat | _ => True end -> match k' with KStage i => (i < 4)%nat | _ => True end ->
  pass_id k = pass_id k' -> k = k'.
Proof.
  destruct k as [|[|[|[|[|i]]]]|id|], k' as [|[|[|[|[|i']]]]|id'|]; intros Hk Hk' E; try lia; try done.
  by apply app_inv_head in E as ->.
Qed.

(** Distinct candidates give a graph with distinct node ids, and every edge
    joins two of its nodes. *)
Lemma connectome_map_ok query candidates r : NoDup (map c_id candidates) -> well_formed (connectome_map query candidates r).
Proof.
  intros Hn. unfold connectome_map. set (g0 := fold_left _ spine _).
  assert (map nd_id (g_nodes g0) = map pass_id (KQuery :: map KStage (seq 0 4))) as E0 by done.
  assert (joined g0) as Hj0 by (repeat constructor; cbn; refine (bool_decide_eq_true_1 _ _); vm_compute; reflexivity).
  set (g1 := fold_left add_candidate candidates g0).
  assert (str "stage:reranker" ∈ map nd_id (g_nodes g0)) as Hr0 by (rewrite E0; refine (bool_decide_eq_true_1 _ _); vm_compute; reflexivity).
  assert (str "stage:classifier" ∈ map nd_id (g_nodes g0)) as Hc0 by (rewrite E0; refine (bool_decide_eq_true_1 _ _); vm_compute; reflexivity).
  clearbody g0.
  assert (extends g0 g1) as Hext.
  { apply (fold_extends _ (str "stage:reranker")); [|done]. intros g c Hin. unfold add_candidate.
    etransitivity; [apply extends_node|]. apply extends_edge; [|apply in_node]. eapply extends_in; [apply extends_node|done]. }
  assert (map nd_id (g_nodes g1) = map pass_id (KQuery :: map KStage (seq 0 4) ++ map KCand (map c_id candidates))) as E1.
  { unfold g1. rewrite (fold_nodes _ (fun c => [str "cand:" ++ c_id c])).
    - rewrite E0. rewrite app_comm_cons, map_app. f_equal. rewrite map_map. clear. induction candidates as [|c l IH]; [done|].
      cbn [map]. rewrite <- IH. done.
    - intros g c. unfold add_candidate. cbn. by rewrite map_app. }
  set (g2 := node _ _ _ _ g1).
  assert (map nd_id (g_nodes g2) = map pass_id ((KQuery :: map KStage (seq 0 4) ++ map KCand (map c_id candidates)) ++ [KReady])) as E2.
  { unfold g2. cbn [node g_nodes]. rewrite map_app, E1, (map_app pass_id). done. }
  assert (extends g1 g2) as Hext2 by apply extends_node.
  split.
  - cbn [edge g_nodes]. rewrite E2. apply NoDup_fmap_2_strong.
    + intros k k' Hk Hk' E. apply pass_id_inj; [| |done];
        [clear Hk' E; rename Hk into Hx|clear Hk E; rename Hk' into Hx];
        rewrite elem_of_app, elem_of_cons, elem_of_app in Hx;
        destruct Hx as [[->|[(i & -> & Hi%elem_of_seq)%list_elem_of_fmap|(i & -> & _)%list_elem_of_fmap]]|Hx%list_elem_of_singleton];
        subst; done || lia.
    + apply NoDup_app. split; [|split; [|apply NoDup_singleton]].
      * constructor; [rewrite elem_of_app, !list_elem_of_fmap; naive_solver|]. apply NoDup_app. split_and!.
        -- apply NoDup_fmap; [intros ? ? [=]; done|apply NoDup_seq].
        -- intros k (i & -> & _)%list_elem_of_fmap (j & ? & _)%list_elem_of_fmap. done.
        -- apply NoDup_fmap; [intros ? ? [=]; done|done].
      * intros k Hk ->%list_elem_of_singleton. rewrite elem_of_cons, elem_of_app, !list_elem_of_fmap in Hk. naive_solver.
  - apply (extends_joined g0); [|done]. transitivity g1; [done|]. transitivity g2; [done|]. apply extends_edge; [|apply in_node].
    eapply extends_in; [exact Hext2|]. by eapply extends_in.
Qed.
End map_facts.

(** *** The map of an estate *)

Section estate_map_facts.
Context `{SerdeNumber} `{Unicode}.

Inductive EstateKey : Type :=
  | EEstate (id : bytes) | ENode (id : bytes) | EWarp (id : bytes) (i : nat) | EConn (id : bytes) | ETag (t : bytes)
  | EShape (s : bytes) | ETrend (m : bytes).
Definition estate_id (k : EstateKey) : bytes :=
  match k with
  | EEstate id => str "estate:" ++ id | ENode id => str "node:" ++ id | EWarp id i => warp_id id i
  | EConn id => str "conn:" ++ id | ETag t => str "tag:" ++ t | EShape s => str "shape:" ++ s | ETrend m => str "trend:" ++ m
  end.

(** A warp point's id is read back from its last colon. *)
Lemma warp_id_inj id i id' i' : warp_id id i = warp_id id' i' -> id = id' /\ i = i'.
Proof.
  unfold warp_id. intros E%app_inv_head. apply (f_equal (@rev Z)) in E. rewrite !rev_app_distr in E.
  cbn [str] in E. change (rev (str ":")) with [58] in E. rewrite <- !app_assoc in E. cbn [app] in E.
  assert (forall n, Forall (fun c => c <> 58) (rev (display n))) as Hd.
  { intros n. apply Forall_rev. eapply Forall_impl; [apply display_digits|]. intros c Hc ->. done. }
  destruct (app_sep_inj 58 (rev (display (Z.of_nat i))) (rev (display (Z.of_nat i'))) (rev id) (rev id')) as [E1 E2]; [apply Hd|apply Hd|done|].
  apply rev_inj in E1, E2. apply display_inj in E1; [|lia|lia]. split; [done|lia].
Qed.

Lemma estate_id_inj k k' : estate_id k = estate_id k' -> k = k'.
Proof.
  destruct k, k'; cbn [estate_id]; intros E; try done; try (apply app_inv_head in E; by subst).
  apply warp_id_inj in E as [-> ->]. done.
Qed.

(** What the nodes of an estate's map stand for, in order. *)
Definition node_keys (n : NodeInfo) : list EstateKey :=
  ENode (ni_id n) :: map (EWarp (ni_id n)) (seq 0 (length (warp_points n))).
Definition shape_keys (s : bytes * Z) : list EstateKey := if s.2 =? 0 then [] else [EShape s.1].

Lemma add_warps_ids n l k g :
  map nd_id (g_nodes (fold_left (add_warp n) (imap (fun i w => (k + i, w)%nat) l) g))
  = map nd_id (g_nodes g) ++ map estate_id (map (EWarp (ni_id n)) (seq k (length l))).
Proof.
  rewrite (fold_nodes _ (fun iw => [warp_id (ni_id n) iw.1])) by (intros g' [i w]; cbn; by rewrite map_app).
  f_equal. revert k. induction l as [|w l IH]; intros k; [done|]. cbn [imap seq length map].
  change (imap _ (w :: l)) with ((k + 0, w)%nat :: imap (fun i w => (k + S i, w)%nat) l). cbn [mbind list_bind fst app map estate_id].
  rewrite Nat.add_0_r. f_equal. rewrite <- (IH (S k)). f_equal. apply imap_ext. intros i x _. unfold compose. f_equal. lia.
Qed.

Lemma add_node_ids e g n : map nd_id (g_nodes (add_node e g n)) = map nd_id (g_nodes g) ++ map estate_id (node_keys n).
Proof.
  unfold add_node, Fusion.enumerate. change (imap pair (warp_points n)) with (imap (fun i w => (0 + i, w)%nat) (warp_points n)).
  rewrite add_warps_ids. cbn [edge node g_nodes]. rewrite map_app, <- app_assoc. done.
Qed.

Lemma add_trends_ids db e l g g' : fold_opt (add_trend db e) g l = Some g' ->
  exists ms, ms `sublist_of` l /\ map nd_id (g_nodes g') = map nd_id (g_nodes g) ++ map estate_id (map ETrend ms).
Proof.
  revert g. induction l as [|m l IH]; intros g; cbn [fold_opt].
  { intros [= <-]. exists []. split; [done|]. by rewrite app_nil_r. }
  destruct (add_trend db e g m) as [g1|] eqn:E1; cbn [mbind option_bind]; [|done]. intros Hf. apply IH in Hf as (ms & Hs & E).
  unfold add_trend in E1. destruct (trend db m) as [series|]; cbn [mbind option_bind] in E1; [|done]. injection E1 as <-.
  destruct (last series) as [p|].
  - exists (m :: ms). split; [by apply sublist_skip|]. rewrite E. cbn [edge node g_nodes]. by rewrite map_app, <- app_assoc.
  - exists ms. split; [by apply sublist_cons|done].
Qed.

(** The listings an estate's map is drawn from name nothing twice. *)
Record listings_distinct (db : Db) : Prop := mkListings {
  ld_nodes : NoDup (map ni_id (nodes db));
  ld_conns : NoDup (map ci_id (connectors db));
  ld_tags : NoDup (tags db);
  ld_trends : NoDup (trend_metrics db);
}.

Lemma estate_map_keys info db g : estate_map info db = Some g -> exists ms, ms `sublist_of` trend_metrics db /\
  map nd_id (g_nodes g) = map estate_id (EEstate (ei_id info) :: (nodes db ≫= node_keys) ++ map EConn (map ci_id (connectors db))
    ++ map ETag (tags db) ++ (btree_iter (get_shapes db) ≫= shape_keys) ++ map ETrend ms).
Proof.
  unfold estate_map. intros Hf. apply add_trends_ids in Hf as (ms & Hs & E). exists ms. split; [done|]. rewrite E.
  rewrite (fold_nodes (add_shape _) (fun s => map estate_id (shape_keys s))).
  2: { intros g' [s n]. unfold add_shape, shape_keys. cbn [fst snd]. destruct (n =? 0); [by rewrite app_nil_r|]. cbn. by rewrite map_app. }
  rewrite (fold_nodes (add_tag _ _) (fun t => [estate_id (ETag t)])) by (intros g' t; cbn; by rewrite map_app).
  rewrite (fold_nodes (add_connector _) (fun c => [estate_id (EConn (ci_id c))])) by (intros g' c; cbn; by rewrite map_app).
  rewrite (fold_nodes (add_node _) (fun n => map estate_id (node_keys n))) by (intros; apply add_node_ids).
  cbn [node graph_new g_nodes map app]. f_equal. rewrite !map_app, <- !app_assoc.
  assert (forall A (f : A -> list EstateKey) l, l ≫= (fun x => map estate_id (f x)) = map estate_id (l ≫= f)) as Hb.
  { intros A f l. induction l as [|x l IH]; [done|]. cbn [mbind list_bind]. by rewrite map_app, <- IH. }
  assert (forall A (f : A -> EstateKey) l, l ≫= (fun x => [estate_id (f x)]) = map estate_id (map f l)) as Hs1.
  { intros A f l. induction l as [|x l IH]; [done|]. cbn [mbind list_bind map app]. by rewrite <- IH. }
  rewrite !Hb, (Hs1 _ ETag), (Hs1 _ (fun c => EConn (ci_id c))), (map_map ci_id EConn). done.
Qed.

Lemma nodes_keys_distinct l : NoDup (map ni_id l) -> NoDup (l ≫= node_keys).
Proof.
  intros Hn. apply NoDup_bind.
  - intros n n' k Hin Hin' Hk Hk'. unfold node_keys in Hk, Hk'.
    assert (forall n, k ∈ node_keys n -> (exists i, k = EWarp (ni_id n) i) \/ k = ENode (ni_id n)) as Hid.
    { intros x [->|(i & -> & _)%list_elem_of_fmap]%elem_of_cons; eauto. }
    assert (ni_id n = ni_id n') as E.
    { destruct (Hid n Hk) as [[i E1]|E1], (Hid n' Hk') as [[i' E2]|E2]; congruence. }
    apply list_elem_of_lookup in Hin as [a Ha], Hin' as [b Hb].
    assert (a = b) as ->; [|congruence]. eapply (NoDup_lookup (map ni_id l)); [done| |]; rewrite list_lookup_fmap; [by rewrite Ha|]. by rewrite Hb, E.
  - intros n _. unfold node_keys. constructor; [intros (i & [=] & _)%list_elem_of_fmap|].
    apply NoDup_fmap; [by intros ? ? [=]|apply NoDup_seq].
  - by eapply NoDup_fmap_1.
Qed.

Lemma shapes_keys_distinct (m : gmap bytes Z) : NoDup (btree_iter m ≫= shape_keys).
Proof.
  apply NoDup_bind.
  - intros [a n] [b n'] k Ha Hb Hk Hk'. unfold shape_keys in *. cbn [fst snd] in *.
    destruct (n =? 0); [by apply elem_of_nil in Hk|]. destruct (n' =? 0); [by apply elem_of_nil in Hk'|].
    apply list_elem_of_singleton in Hk as ->, Hk' as [= ->]. apply elem_of_btree_iter in Ha, Hb. congruence.
  - intros [a n] _. unfold shape_keys. destruct (_ =? 0); [constructor|apply NoDup_singleton].
  - eapply NoDup_fmap_1, btree_iter_keys_NoDup.
Qed.

Lemma NoDup_fmap_con {A} (f : A -> EstateKey) l : (forall x y, f x = f y -> x = y) -> NoDup l -> NoDup (map f l).
Proof. intros Hf. by apply NoDup_fmap. Qed.

(** Groups of keys of different kinds. *)
Ltac kinds :=
  repeat match goal with
  | H : _ ∈ _ ++ _ |- _ => apply elem_of_app in H as [H|H]
  | H : _ ∈ map _ _ |- _ => apply list_elem_of_fmap in H as (? & ? & ?)
  | H : _ ∈ _ ≫= node_keys |- _ => apply list_elem_of_bind in H as (? & H & ?)
  | H : _ ∈ _ ≫= shape_keys |- _ => apply list_elem_of_bind in H as ([? ?] & H & ?)
  | H : _ ∈ node_keys _ |- _ => apply elem_of_cons in H as [?|H]
  | H : _ ∈ shape_keys _ |- _ => unfold shape_keys in H; cbn [fst snd] in H; destruct (_ =? 0) in H; [by apply elem_of_nil in H|apply list_elem_of_singleton in H]
  end; congruence.

Lemma estate_map_ids info db ms : listings_distinct db -> ms `sublist_of` trend_metrics db ->
  NoDup (EEstate (ei_id info) :: (nodes db ≫= node_keys) ++ map EConn (map ci_id (connectors db))
    ++ map ETag (tags db) ++ (btree_iter (get_shapes db) ≫= shape_keys) ++ map ETrend ms).
Proof.
  intros [Hn Hc Ht Hm] Hs. constructor; [intros Hin; kinds|].
  apply NoDup_app. split_and!; [by apply nodes_keys_distinct|intros k H1 H2; kinds|].
  apply NoDup_app. split_and!; [by apply NoDup_fmap_con; [by intros ? ? [=]|]|intros k H1 H2; kinds|].
  apply NoDup_app. split_and!; [by apply NoDup_fmap_con; [by intros ? ? [=]|]|intros k H1 H2; kinds|].
  apply NoDup_app. split_and!; [apply shapes_keys_distinct|intros k H1 H2; kinds|].
  apply NoDup_fmap_con; [by intros ? ? [=]|]. by eapply sublist_NoDup.
Qed.

(** A node with one edge from a node that is there. *)
Lemma extends_member e id ek w nk lab sc g : e ∈ map nd_id (g_nodes g) -> extends g (edge e id ek w (node id nk lab sc g)).
Proof.
  intros He. transitivity (node id nk lab sc g); [apply extends_node|]. apply extends_edge; [|apply in_node].
  by eapply extends_in; [apply extends_node|].
Qed.

Lemma add_node_extends e g n : e ∈ map nd_id (g_nodes g) -> extends g (add_node e g n).
Proof.
  intros He. unfold add_node. etransitivity; [by apply (extends_member e (str "node:" ++ ni_id n) EdgeKind.Member f32_one NodeKind.NetNode (ni_name n) None)|].
  apply (fold_extends _ (str "node:" ++ ni_id n)).
  - intros g' iw Hin. by apply extends_member.
  - cbn. rewrite map_app, elem_of_app. right. by left.
Qed.

Lemma add_connector_extends e g c : e ∈ map nd_id (g_nodes g) -> extends g (add_connector e g c).
Proof.
  intros He. unfold add_connector. etransitivity; [by apply (extends_member e (str "conn:" ++ ci_id c) EdgeKind.Member f32_one NodeKind.Connector)|].
  apply extends_edge; [cbn; rewrite map_app, elem_of_app; right; by left|].
  cbn [edge g_nodes]. by eapply extends_in; [apply extends_node|].
Qed.

Lemma add_shape_extends e g s : e ∈ map nd_id (g_nodes g) -> extends g (add_shape e g s).
Proof. intros He. unfold add_shape. destruct (s.2 =? 0); [done|]. by apply extends_member. Qed.

Lemma add_trends_extends db e l g g' : e ∈ map nd_id (g_nodes g) -> fold_opt (add_trend db e) g l = Some g' -> extends g g'.
Proof.
  revert g. induction l as [|m l IH]; intros g He; cbn [fold_opt]; [by intros [= <-]|].
  destruct (add_trend db e g m) as [g1|] eqn:E1; cbn [mbind option_bind]; [|done]. intros Hf.
  assert (extends g g1) as H1.
  { unfold add_trend in E1. destruct (trend db m) as [series|]; cbn [mbind option_bind] in E1; [|done]. injection E1 as <-.
    destruct (last series); [by apply extends_member|done]. }
  transitivity g1; [done|]. apply IH; [by eapply extends_in|done].
Qed.

Lemma add_trends_total db e l g : (forall m, m ∈ l -> is_Some (trend db m)) -> is_Some (fold_opt (add_trend db e) g l).
Proof.
  intros Ht. apply fold_opt_total. intros g' m Hm. unfold add_trend. destruct (Ht m Hm) as [series ->]. by eexists.
Qed.

(** The map of an estate always draws, with distinct node ids, and every edge
    joins two of its nodes. *)
Lemma estate_map_ok info db : listings_distinct db -> (forall m, m ∈ trend_metrics db -> is_Some (trend db m)) ->
  exists g, estate_map info db = Some g /\ well_formed g.
Proof.
  intros Hd Ht. destruct (estate_map info db) as [g|] eqn:E.
  2: { unfold estate_map in E. by destruct (add_trends_total db (str "estate:" ++ ei_id info) (trend_metrics db)
        (fold_left (add_shape (str "estate:" ++ ei_id info)) (btree_iter (get_shapes db))
          (fold_left (add_tag db (str "estate:" ++ ei_id info)) (tags db)
            (fold_left (add_connector (str "estate:" ++ ei_id info)) (connectors db)
              (fold_left (add_node (str "estate:" ++ ei_id info)) (nodes db)
                (node (str "estate:" ++ ei_id info) NodeKind.Estate (ei_name info) None graph_new))))) Ht) as [? E']; congruence. }
  exists g. split; [done|]. split.
  - destruct (estate_map_keys info db g E) as (ms & Hs & ->). apply NoDup_fmap; [intros ? ?; apply estate_id_inj|].
    by apply estate_map_ids.
  - unfold estate_map in E. set (e := str "estate:" ++ ei_id info) in *.
    set (g0 := node e _ _ _ _) in E. assert (e ∈ map nd_id (g_nodes g0)) as H0' by (by left).
    assert (joined g0) as Hj by constructor. clearbody g0 e.
    assert (extends g0 (fold_left (add_node e) (nodes db) g0)) as X1.
    { apply (fold_extends _ e); [intros; by apply add_node_extends|done]. }
    set (g1 := fold_left (add_node e) _ _) in *. pose proof (extends_in _ _ _ X1 H0') as H1'.
    assert (extends g1 (fold_left (add_connector e) (connectors db) g1)) as X2.
    { apply (fold_extends _ e); [intros; by apply add_connector_extends|done]. }
    set (g2 := fold_left (add_connector e) _ _) in *. pose proof (extends_in _ _ _ X2 H1') as H2'.
    assert (extends g2 (fold_left (add_tag db e) (tags db) g2)) as X3.
    { apply (fold_extends _ e); [intros; by apply extends_member|done]. }
    set (g3 := fold_left (add_tag db e) _ _) in *. pose proof (extends_in _ _ _ X3 H2') as H3'.
    assert (extends g3 (fold_left (add_shape e) (btree_iter (get_shapes db)) g3)) as X4.
    { apply (fold_extends _ e); [intros; by apply add_shape_extends|done]. }
    set (g4 := fold_left (add_shape e) _ _) in *. pose proof (extends_in _ _ _ X4 H3') as H4'.
    apply add_trends_extends in E; [|done]. apply (extends_joined g0); [|done].
    etransitivity; [exact X1|]. etransitivity; [exact X2|]. etransitivity; [exact X3|]. by etransitivity.
Qed.
End estate_map_facts.

(** ** Quotes *)

(** Only the quotes of labels are replaced: a label that ends in a backslash
    escapes the quote that should close it, and an id is written as it is. *)
Theorem dot_label_escapes_its_quote :
  dot_node (mkNode (str "query") NodeKind.Query (str "C:\") None)
  = str "  " ++ quote ++ str "query" ++ quote ++ str " [label=" ++ quote ++ str "C:\" ++ quote ++ str ", fillcolor=gold];" ++ [10].
Proof. vm_compute. reflexivity. Qed.
Theorem dot_id_is_not_escaped :
  dot_node (mkNode (str "cand:a" ++ quote ++ str "b") NodeKind.Candidate [] None)
  = str "  " ++ quote ++ str "cand:a" ++ quote ++ str "b" ++ quote ++ str " [label=" ++ quote ++ quote ++ str ", fillcolor=palegreen];" ++ [10].
Proof. vm_compute. reflexivity. Qed.
