(* ===== verification/Flow.v ===== *)
(** * The flow (crates/rro-engine/src/flow.rs, crates/rro-core/src/turn.rs)

    One pass: the gate of the daemon, the embedding of the query, the routing
    of its intent, recall, reranking and the verdict, with the signals it
    emits under its turn. The clock readings of the signals are not modelled. *)
From S2P Require Import Prelude Floats ByteOrder Utf8 Json Quant Text Model Kv Store Fusion.
From S2P Require Import Searches SearchSpec.
From S2P Require Import RrdShape RrdBaseline RrdGates Rrd Traits Defaults Connectome.
#[local] Set Default Goal Selector "!".
#[local] Set Warnings "-clear-no-such-hyp".
Local Open Scope Z_scope.

Section flow.
Context `{SerdeNumber} `{Unicode} `{HashOrder} `{Ln64} `{Ln32}.

Record ObjectConfig : Type := mkConfig { recall_k : Z; rerank_k : Z }.
Definition config_default : ObjectConfig := mkConfig 20 5.

Record Document : Type := mkDocument { dc_id : bytes; dc_text : bytes; dc_metadata : Metadata }.

(** [VectorRecord::new] with the document's metadata. *)
Definition record_of (d : Document) (e : Embedding) : VectorRecord :=
  mkVectorRecord (dc_id d) e (dc_text d) (dc_metadata d) None ∅ [] None.

Record RecallResult : Type := mkResult {
  rs_query : bytes;
  rs_candidates : list Candidate;
  rs_readiness : Readiness;
  rs_intent : list bytes;
  rs_turn : Z;
}.

(** ** Signals *)

Inductive Signal : Type :=
  | FlowOpen (turn : Z) (query : bytes) (chars : nat)
  | StageShape (turn : Z) (gate : GateVerdict) (mode : Mode.Mode) (sliver : Z) (signals : LexicalSignals) (spec : Speculation)
  | StageEmbed (turn : Z) (dim : Z)
  | StageIntent (turn : Z) (tags : list bytes)
  | StageRecall (turn : Z) (candidates : nat) (top : list bytes)
  | StageRerank (turn : Z) (kept : nat) (top : list bytes)
  | StageReason (turn : Z) (readiness : Readiness)
  | FlowTurn (turn : Z) (gated ready : bool) (candidates : nat) (intent : list bytes).

Definition signal_turn (s : Signal) : Z :=
  match s with
  | FlowOpen t _ _ | StageShape t _ _ _ _ _ | StageEmbed t _ | StageIntent t _ | StageRecall t _ _ | StageRerank t _ _
  | StageReason t _ | FlowTurn t _ _ _ _ => t
  end.

(** ** The object: its components behind their traits, the recall with its
    state; [turns] is the next turn id of the process. *)

Record ReasonReadyObject {S : Type} : Type := mkObject {
  o_rrd : option Rrd;
  o_embedder : Embedder;
  o_recall : Recall S;
  o_memory : S;
  o_reranker : Reranker;
  o_classifier : Classifier;
  o_config : ObjectConfig;
}.
Arguments ReasonReadyObject : clear implicits.

Definition set_rrd {S} (o : ReasonReadyObject S) (r : option Rrd) : ReasonReadyObject S :=
  mkObject S r (o_embedder o) (o_recall o) (o_memory o) (o_reranker o) (o_classifier o) (o_config o).
Definition set_memory {S} (o : ReasonReadyObject S) (s : S) : ReasonReadyObject S :=
  mkObject S (o_rrd o) (o_embedder o) (o_recall o) s (o_reranker o) (o_classifier o) (o_config o).

(** ** Indexing *)

(** The zip ends with the shorter side. *)
Definition embed_documents {S} (o : ReasonReadyObject S) (docs : list Document) : result RroError (list VectorRecord) :=
  embeddings ← em_documents (o_embedder o) (map dc_text docs);
  Ok (zip_with record_of docs embeddings).

Definition index {S} (o : ReasonReadyObject S) (docs : list Document) : ReasonReadyObject S * result RroError Z :=
  if bool_decide (docs = []) then (o, @rc_len _ _ (o_recall o) (o_memory o))
  else
    match embed_documents o docs with
    | Err e => (o, Err e)
    | Ok records =>
        let '(s, r) := @rc_upsert _ _ (o_recall o) (o_memory o) records in
        let o := set_memory o s in
        (o, _ ← r; @rc_len _ _ (o_recall o) (o_memory o))
    end.

(** ** One pass *)

Definition query_payload (query : bytes) (fields : Metadata) : Payload :=
  mkPayload (str "query") query fields None (mkStamp None None None None (Some (str "query")) None).

Definition gated_verdict : Readiness :=
  not_ready f32_one (str "gated") (str "blocked by the RRD deterministic gate before any model ran").

(** [recalled.iter().take(3).map(|c| c.id)] *)
Definition top3 (cs : list Candidate) : list bytes := map c_id (take 3 cs).

(** The rest of the pass once the gate is past; the signals so far come
    first, whatever the outcome. *)
Definition after_gate {S} (o : ReasonReadyObject S) (turn : Z) (query : bytes) : list Signal * result RroError RecallResult :=
  match embed_query_one (o_embedder o) query with
  | Err e => ([], Err e)
  | Ok q =>
      let s1 := StageEmbed turn (emb_dim q) in
      let intent := match o_rrd o with Some r => map rd_tag (route_tags r q) | None => [] end in
      let s2 := StageIntent turn intent in
      match @rc_hybrid_search _ _ (o_recall o) (o_memory o) query q (recall_k (o_config o)) with
      | Err e => ([s1; s2], Err e)
      | Ok recalled =>
          let s3 := StageRecall turn (length recalled) (top3 recalled) in
          match rr_rerank (o_reranker o) query recalled (rerank_k (o_config o)) with
          | Err e => ([s1; s2; s3], Err e)
          | Ok ranked =>
              let s4 := StageRerank turn (length ranked) (top3 ranked) in
              match cl_classify (o_classifier o) query ranked with
              | Err e => ([s1; s2; s3; s4], Err e)
              | Ok readiness =>
                  ([s1; s2; s3; s4; StageReason turn readiness;
                    FlowTurn turn false (ready readiness) (length ranked) intent],
                   Ok (mkResult query ranked readiness intent turn))
              end
          end
      end
  end.

(** The next turn id, the object with what the daemon learned, the signals
    and the result. *)
Definition ask_with {S} (turns : Z) (o : ReasonReadyObject S) (query : bytes) (fields : Metadata)
  : Z * ReasonReadyObject S * list Signal * result RroError RecallResult :=
  let turn := turns in
  let turns := u64_add turns 1 in
  let s0 := FlowOpen turn query (length (chars query)) in
  match o_rrd o with
  | Some r =>
      let '(r, rro) := distill_stamped r (query_payload query fields) in
      let o := set_rrd o (Some r) in
      let spec := speculation (r_baseline r) (str "query") in
      let s1 := StageShape turn (rro_gate rro) (rro_mode rro) (rro_sliver_id rro) (rro_signals rro) spec in
      if bool_decide (rro_gate rro = Block) then
        (turns, o, [s0; s1; FlowTurn turn true false 0 []], Ok (mkResult query [] gated_verdict [] turn))
      else let '(signals, res) := after_gate o turn query in (turns, o, s0 :: s1 :: signals, res)
  | None => let '(signals, res) := after_gate o turn query in (turns, o, s0 :: signals, res)
  end.

Definition ask {S} (turns : Z) (o : ReasonReadyObject S) (query : bytes) := ask_with turns o query ∅.

Definition connectome (result : RecallResult) : ConnectomeGraph :=
  connectome_map (rs_query result) (rs_candidates result) (rs_readiness result).

Definition embed_query {S} (o : ReasonReadyObject S) (text : bytes) : result RroError Embedding := embed_query_one (o_embedder o) text.

Definition model_names {S} (o : ReasonReadyObject S) : list (bytes * bytes) :=
  [(str "embedder", em_model (o_embedder o)); (str "recall", str "flat-cosine"); (str "reranker", rr_model (o_reranker o));
   (str "classifier", cl_model (o_classifier o))].

(** ** The builder, with the default for what is not overridden *)

Record ObjectBuilder : Type := mkBuilder {
  ob_rrd : option Rrd;
  ob_embedder : option Embedder;
  ob_reranker : option Reranker;
  ob_classifier : option Classifier;
  ob_config : ObjectConfig;
}.
Definition builder_new : ObjectBuilder := mkBuilder None None None None config_default.

(** [build] over a recall that was given; without one it is an empty
    brute-force index. *)
Definition build_with {S} (b : ObjectBuilder) (R : Recall S) (s : S) : ReasonReadyObject S :=
  mkObject S (ob_rrd b) (default deterministic (ob_embedder b)) R s (default lexical_reranker (ob_reranker b))
    (default (heuristic heuristic_default) (ob_classifier b)) (ob_config b).
Definition build (b : ObjectBuilder) : ReasonReadyObject FlatRecall := build_with b flat_recall flat_new.
Definition default_engine : ReasonReadyObject FlatRecall := build builder_new.
End flow.
Arguments ReasonReadyObject : clear implicits.
