(* ===== verification/FlowSpec.v ===== *)
(** * What a pass through the flow promises

    A blocked query reaches no component; an answer is a page of what the
    recall holds; every signal carries the turn and the turn is closed exactly
    when the pass succeeds; the default engine serves whatever it is given. *)
From S2P Require Import Prelude Floats ByteOrder Utf8 Json Quant Text Model Kv Store Fusion.
From S2P Require Import Searches SearchSpec.
From S2P Require Import RrdShape RrdBaseline RrdGates Rrd Traits Defaults Connectome Flow.
#[local] Set Default Goal Selector "!".
#[local] Set Warnings "-clear-no-such-hyp".
Local Open Scope Z_scope.

Section spec.
Context `{SerdeNumber} `{Unicode} `{HashOrder} `{Ln64} `{Ln32}.

(** ** The gate *)

Lemma combine_gate_passes g s : combine_gate g s <> Block.
Proof. unfold combine_gate. by destruct g, (signals_verdict s). Qed.

Lemma distill_gate r p : rro_gate (distill_stamped r p).2 = Block <-> l0_gate (r_l0 r) p = Block.
Proof.
  unfold distill_stamped. destruct (bool_decide_reflect (l0_gate (r_l0 r) p = Block)) as [Hb|Hb]; [done|].
  destruct (identify_shape r p) as [r1 [id new]]. destruct (plan_for _ _ _ _) as [r2 plan]. cbn [snd].
  unfold assemble. destruct (execute _ _ _) as [by_role hints]. cbn [rro_gate].
  split; [intros E; by apply combine_gate_passes in E|done].
Qed.

Lemma distill_blocked r p : l0_gate (r_l0 r) p = Block -> distill_stamped r p = (r, blocked p).
Proof. intros E. unfold distill_stamped. by rewrite bool_decide_true. Qed.

(** The intent of a query: the routes its embedding takes. *)
Definition intent_of {S} (o : ReasonReadyObject _ S) (q : Embedding) : list bytes :=
  match o_rrd o with Some r => map rd_tag (route_tags r q) | None => [] end.

(** A pass over its gate. *)
Lemma ask_gated {S} (turns : Z) (o : ReasonReadyObject _ S) r query fields : o_rrd o = Some r ->
  let p := query_payload query fields in
  let opened := FlowOpen turns query (length (chars query)) in
  let shape rro r := StageShape turns (rro_gate rro) (rro_mode rro) (rro_sliver_id rro) (rro_signals rro)
                       (speculation (r_baseline r) (str "query")) in
  ask_with turns o query fields =
    if bool_decide (l0_gate (r_l0 r) p = Block) then
      (u64_add turns 1, o, [opened; shape (blocked p) r; FlowTurn turns true false 0 []],
       Ok (mkResult query [] gated_verdict [] turns))
    else
      let '(r', rro) := distill_stamped r p in
      let o' := set_rrd o (Some r') in
      let '(signals, res) := after_gate o' turns query in
      (u64_add turns 1, o', opened :: shape rro r' :: signals, res).
Proof.
  intros E p opened shape. unfold ask_with. rewrite E. fold p.
  destruct (bool_decide_reflect (l0_gate (r_l0 r) p = Block)) as [Hb|Hb].
  - rewrite distill_blocked by done. cbn [rro_gate blocked]. rewrite bool_decide_true by done.
    unfold set_rrd. rewrite <- E. by destruct o.
  - pose proof (distill_gate r p) as Hg. destruct (distill_stamped r p) as [r' rro]. cbn [snd] in Hg.
    rewrite bool_decide_false by tauto. done.
Qed.

(** What the components make of a query the gate lets through: the embedder,
    the recall, the reranker and the classifier are called one after the other,
    each on what the one before answered; the first that fails fails the pass,
    with the signals of the stages before it. *)
Inductive runs_stages {S} (o : ReasonReadyObject _ S) (turn : Z) (query : bytes) : list Signal -> result RroError RecallResult -> Prop :=
  | embedder_fails e : embed_query_one (o_embedder o) query = Err e -> runs_stages o turn query [] (Err e)
  | recall_fails q e :
      embed_query_one (o_embedder o) query = Ok q ->
      @rc_hybrid_search _ _ (o_recall o) (o_memory o) query q (recall_k (o_config o)) = Err e ->
      runs_stages o turn query [StageEmbed turn (emb_dim q); StageIntent turn (intent_of o q)] (Err e)
  | reranker_fails q recalled e :
      embed_query_one (o_embedder o) query = Ok q ->
      @rc_hybrid_search _ _ (o_recall o) (o_memory o) query q (recall_k (o_config o)) = Ok recalled ->
      rr_rerank (o_reranker o) query recalled (rerank_k (o_config o)) = Err e ->
      runs_stages o turn query
        [StageEmbed turn (emb_dim q); StageIntent turn (intent_of o q); StageRecall turn (length recalled) (top3 recalled)] (Err e)
  | classifier_fails q recalled ranked e :
      embed_query_one (o_embedder o) query = Ok q ->
      @rc_hybrid_search _ _ (o_recall o) (o_memory o) query q (recall_k (o_config o)) = Ok recalled ->
      rr_rerank (o_reranker o) query recalled (rerank_k (o_config o)) = Ok ranked ->
      cl_classify (o_classifier o) query ranked = Err e ->
      runs_stages o turn query
        [StageEmbed turn (emb_dim q); StageIntent turn (intent_of o q); StageRecall turn (length recalled) (top3 recalled);
         StageRerank turn (length ranked) (top3 ranked)] (Err e)
  | all_answer q recalled ranked readiness :
      embed_query_one (o_embedder o) query = Ok q ->
      @rc_hybrid_search _ _ (o_recall o) (o_memory o) query q (recall_k (o_config o)) = Ok recalled ->
      rr_rerank (o_reranker o) query recalled (rerank_k (o_config o)) = Ok ranked ->
      cl_classify (o_classifier o) query ranked = Ok readiness ->
      runs_stages o turn query
        [StageEmbed turn (emb_dim q); StageIntent turn (intent_of o q); StageRecall turn (length recalled) (top3 recalled);
         StageRerank turn (length ranked) (top3 ranked); StageReason turn readiness;
         FlowTurn turn false (ready readiness) (length ranked) (intent_of o q)]
        (Ok (mkResult query ranked readiness (intent_of o q) turn)).

Lemma after_gate_runs {S} (o : ReasonReadyObject _ S) turn query :
  runs_stages o turn query (after_gate o turn query).1 (after_gate o turn query).2.
Proof.
  unfold after_gate. fold (@intent_of S o). destruct (embed_query_one _ _) as [q|e] eqn:Eq; [|by constructor].
  destruct (rc_hybrid_search _ _ _ _) as [recalled|e] eqn:Er; [|by apply recall_fails].
  destruct (rr_rerank _ _ _ _) as [ranked|e] eqn:Ek; [|by apply reranker_fails].
  destruct (cl_classify _ _ _) as [readiness|e] eqn:Ec; [by apply all_answer|by eapply classifier_fails].
Qed.

(** C19: A query the gate blocks is answered with the gated verdict and no
    candidates, the daemon unchanged, by any object around that daemon:
    embedder, recall, reranker and classifier have no say, so none of them
    ran. Any other query is embedded, recalled with the embedding at the
    configured depth, reranked to the configured size and classified, in this
    order and each stage on the answer of the one before, until one fails: the
    pass answers the reranker's candidates with the classifier's verdict and
    the daemon's intent, or the error of the stage that failed with the signals
    of those before it. What the daemon learned is kept either way. *)
Theorem gate_decides {S} (turns : Z) (o : ReasonReadyObject _ S) r query fields : o_rrd o = Some r ->
  let p := query_payload query fields in
  let opened := FlowOpen turns query (length (chars query)) in
  let shape rro r := StageShape turns (rro_gate rro) (rro_mode rro) (rro_sliver_id rro) (rro_signals rro)
                       (speculation (r_baseline r) (str "query")) in
  (l0_gate (r_l0 r) p = Block ->
    ask_with turns o query fields =
      (u64_add turns 1, o, [opened; shape (blocked p) r; FlowTurn turns true false 0 []],
       Ok (mkResult query [] gated_verdict [] turns))) /\
  (l0_gate (r_l0 r) p <> Block ->
    let learned := distill_stamped r p in
    let o' := set_rrd o (Some learned.1) in
    exists signals res,
      ask_with turns o query fields = (u64_add turns 1, o', opened :: shape learned.2 learned.1 :: signals, res) /\
      runs_stages o' turns query signals res).
Proof.
  intros E p opened shape. pose proof (ask_gated turns o r query fields E) as Ha. cbv zeta in Ha. fold p opened in Ha. split; intros Hb.
  - rewrite bool_decide_true in Ha by done. exact Ha.
  - rewrite bool_decide_false in Ha by done. intros learned o'. unfold learned in o' |- *. clear learned.
    pose proof (after_gate_runs o' turns query) as Hr. subst o'. destruct (distill_stamped r p) as [r' rro]. cbn [fst snd] in *.
    destruct (after_gate _ _ _) as [signals res]. by exists signals, res.
Qed.

(** ** Answers *)

(** A pass of turn [t] over a recall that holds [m], cut at [k]. *)
Record pass_ok (k : Z) (m : gmap bytes VectorRecord) (t : Z) (query : bytes) (signals : list Signal)
  (res : result RroError RecallResult) : Prop := mkPass {
  po_turns : Forall (fun s => signal_turn s = t) signals;
  po_closed : match res with
              | Ok x => exists pre gated, signals = pre ++ [FlowTurn t gated (ready (rs_readiness x)) (length (rs_candidates x)) (rs_intent x)]
                          /\ Forall (fun s => match s with FlowTurn _ _ _ _ _ => False | _ => True end) pre
              | Err _ => Forall (fun s => match s with FlowTurn _ _ _ _ _ => False | _ => True end) signals
              end;
  po_answer : forall x, res = Ok x -> rs_turn x = t /\ rs_query x = query /\ page_of m k (rs_candidates x)
                /\ well_formed (connectome x);
}.

Lemma page_empty (m : gmap bytes VectorRecord) k : 0 <= k -> page_of m k [].
Proof. intros Hk. split; [done|constructor|]. intros c Hc. by apply elem_of_nil in Hc. Qed.

Section answers.
Context {S : Type} (o : ReasonReadyObject _ S) (holds : S -> gmap bytes VectorRecord -> Prop) (m : gmap bytes VectorRecord).
Context {HR : RecallReads (o_recall o) holds} {HK : RerankerLaws (o_reranker o)}.
Hypothesis Hm : holds (o_memory o) m.
Hypothesis Hks : 0 <= recall_k (o_config o) /\ 0 <= rerank_k (o_config o).

Lemma after_gate_ok t query : let '(signals, res) := after_gate o t query in pass_ok (rerank_k (o_config o)) m t query signals res.
Proof.
  unfold after_gate. destruct (embed_query_one _ _) as [q|e]; [|split; [done|done|done]].
  destruct (rc_hybrid_search _ _ _ _) as [recalled|e] eqn:Er; [|split; [by repeat constructor|by repeat constructor|done]].
  apply (reads_hybrid (R := o_recall o) _ m) in Er; [|done|by destruct Hks].
  destruct (rr_rerank _ _ _ _) as [ranked|e] eqn:Ek; [|split; [by repeat constructor|by repeat constructor|done]].
  apply rerank_page in Ek as (l & Hl & ->).
  apply (rescored_page m _ (rerank_k (o_config o)) _ l) in Er; [|by destruct Hks|done].
  destruct (cl_classify _ _ _) as [readiness|e]; [|split; [by repeat constructor|by repeat constructor|done]].
  split.
  - by repeat constructor.
  - eexists [_; _; _; _; _], false. split; [done|by repeat constructor].
  - intros x [= <-]. split_and!; [done|done|done|]. apply connectome_map_ok. apply Er.
Qed.
End answers.

Lemma pass_ok_more k m t query signals res s :
  signal_turn s = t -> match s with FlowTurn _ _ _ _ _ => False | _ => True end ->
  pass_ok k m t query signals res -> pass_ok k m t query (s :: signals) res.
Proof.
  intros Ht Hs [H1' H2' H3']. split; [by constructor| |done]. destruct res as [x|e]; [|by constructor].
  destruct H2' as (pre & g & -> & Hp). exists (s :: pre), g. split; [done|by constructor].
Qed.

(** C18: Whatever the components are, as long as the recall answers pages of what
    it holds and the reranker only rescores, reorders and cuts: a pass mints
    one turn and all its signals carry it, the recall is left as it is, an
    answer is at most [rerank_k] distinct documents of the recall, each as it
    is stored, its map is a graph of distinct nodes, and the turn is closed,
    with the verdict it answered, exactly when the pass succeeds. *)
Theorem ask_answers {S} (turns : Z) (o : ReasonReadyObject _ S) (holds : S -> gmap bytes VectorRecord -> Prop)
  (m : gmap bytes VectorRecord) (query : bytes) (fields : Metadata) :
  RecallReads (o_recall o) holds -> RerankerLaws (o_reranker o) -> holds (o_memory o) m ->
  0 <= recall_k (o_config o) -> 0 <= rerank_k (o_config o) ->
  let '(turns', o', signals, res) := ask_with turns o query fields in
  turns' = u64_add turns 1 /\ o_memory o' = o_memory o /\ pass_ok (rerank_k (o_config o)) m turns query signals res.
Proof.
  intros HR HK Hm Hk1 Hk2. destruct (o_rrd o) as [r|] eqn:Er.
  - rewrite (ask_gated turns o r query fields Er). case_bool_decide.
    + split_and!; [done|done|]. split; [by repeat constructor| |].
      * eexists [_; _], true. split; [done|by repeat constructor].
      * intros x [= <-]. split_and!; [done|done|by apply page_empty|]. apply connectome_map_ok. constructor.
    + destruct (distill_stamped _ _) as [r' rro]. cbv zeta.
      pose proof (after_gate_ok (set_rrd o (Some r')) holds m Hm (conj Hk1 Hk2) turns query) as Ha.
      destruct (after_gate _ _ _) as [signals res]. split_and!; [done|done|]. by do 2 (apply pass_ok_more; [done|done|]).
  - unfold ask_with. rewrite Er. pose proof (after_gate_ok o holds m Hm (conj Hk1 Hk2) turns query) as Ha.
    destruct (after_gate _ _ _) as [signals res]. split_and!; [done|done|]. by apply pass_ok_more.
Qed.

(** ** The default engine *)

Lemma embed_query_one_ok dim text : exists q, embed_query_one (with_dim dim) text = Ok q /\ emb_dim q = Z.max dim 1.
Proof.
  unfold embed_query_one, with_dim, symmetric_embedder. cbn [em_queries].
  destruct (embed_texts_ok (Z.max dim 1) [text] ltac:(lia)) as (out & -> & Hf). cbn [or_panic mbind].
  apply Forall2_cons_inv_l in Hf as (v & l & Hv & Hl & ->). apply Forall2_nil_inv_l in Hl as ->. exists v. by split.
Qed.

Lemma deterministic_documents texts : exists vs,
  em_documents deterministic texts = Ok vs /\ Forall2 (fun _ v => Z.of_nat (length v) = DEFAULT_DIM) texts vs.
Proof.
  destruct (embed_texts_ok DEFAULT_DIM texts ltac:(done)) as (vs & E & Hf). exists vs. split; [|done].
  unfold deterministic, with_dim, symmetric_embedder. cbn [em_documents]. change (Z.max DEFAULT_DIM 1) with DEFAULT_DIM. by rewrite E.
Qed.

Lemma flat_upsert_accepts s rs d : fl_dim s = None \/ fl_dim s = Some d -> Forall (fun r => emb_dim (vr_embedding r) = d) rs ->
  exists s', flat_upsert s rs = (s', Ok tt) /\ (fl_dim s' = None \/ fl_dim s' = Some d).
Proof.
  intros Hd Hrs. destruct rs as [|r rs]; [by exists s; destruct s|].
  unfold flat_upsert. pose proof (flat_dims_ok (fl_dim s) (r :: rs)) as Hc.
  destruct (check_dims (fl_dim s) (r :: rs)) as [d' res]. destruct Hc as (_ & Hok & Hall).
  assert (res = Ok tt) as -> by (apply Hok; exists d; by split). eexists. split; [done|]. cbn [fl_dim].
  specialize (Hall eq_refl). apply Forall_cons in Hall as [-> _]. apply Forall_cons in Hrs as [-> _]. by right.
Qed.

(** A pass succeeds when its last part does, whatever the daemon holds. *)
Lemma ask_total {S} (turns : Z) (o : ReasonReadyObject _ S) query fields :
  let '(_, _, _, res) := ask_with turns o query fields in
  (forall r, exists x, (after_gate (set_rrd o r) turns query).2 = Ok x) -> exists x, res = Ok x.
Proof.
  destruct (o_rrd o) as [r|] eqn:Er.
  - rewrite (ask_gated turns o r query fields Er). case_bool_decide; [eauto|].
    destruct (distill_stamped _ _) as [r' rro]. cbv zeta. destruct (after_gate _ _ _) as [signals res] eqn:Ea.
    intros Hall. destruct (Hall (Some r')) as [x Hx]. rewrite Ea in Hx. eauto.
  - unfold ask_with. rewrite Er. destruct (after_gate _ _ _) as [signals res] eqn:Ea. intros Hall.
    destruct (Hall None) as [x Hx]. replace (set_rrd o None) with o in Hx by (unfold set_rrd; rewrite <- Er; by destruct o).
    rewrite Ea in Hx. eauto.
Qed.

(** The documents under their ids, with their vectors; a later document
    replaces an earlier one of its id. *)
Definition embedded (docs : list Document) (m : gmap bytes VectorRecord) : Prop :=
  dom m = (list_to_set (map dc_id docs) : gset bytes)
  /\ map_Forall (fun id r => exists d, d ∈ docs /\ vr_text r = dc_text d /\ vr_metadata r = dc_metadata d /\ id = dc_id d) m.

Lemma put_all_embedded docs vs : length docs = length vs ->
  embedded docs (put_all (zip_with record_of docs vs) ∅).
Proof.
  intros Hl. unfold embedded.
  assert (forall m, dom (put_all (zip_with record_of docs vs) m) = (list_to_set (map dc_id docs) : gset bytes) ∪ dom m) as Hd.
  { revert vs Hl. induction docs as [|d docs IH]; intros [|v vs] Hl m; try done; [cbn; set_solver|].
    cbn [zip_with put_all fold_left map list_to_set]. change (fold_left _ ?l ?m) with (put_all l m).
    rewrite IH by (cbn in Hl; lia). rewrite dom_insert_L. cbn. set_solver. }
  split; [rewrite Hd, dom_empty_L; set_solver|]. clear Hd.
  assert (forall l, (forall d, d ∈ l -> d ∈ docs) -> forall vs m,
    map_Forall (fun id r => exists d, d ∈ docs /\ vr_text r = dc_text d /\ vr_metadata r = dc_metadata d /\ id = dc_id d) m ->
    map_Forall (fun id r => exists d, d ∈ docs /\ vr_text r = dc_text d /\ vr_metadata r = dc_metadata d /\ id = dc_id d)
      (put_all (zip_with record_of l vs) m)) as Hall.
  { clear. induction l as [|d l IH]; intros Hin [|v vs] m Hm; try done.
    apply IH; [intros; apply Hin; by right|]. apply map_Forall_insert_2; [|done]. exists d. split; [apply Hin; by left|done]. }
  apply Hall; [done|apply map_Forall_empty].
Qed.

Context `{!HashOrderLaws}.

(** C20: The engine with default components, whatever its daemon: indexing any
    documents succeeds and answers how many distinct ids there are; every
    query after that succeeds, with at most five of those documents, each
    once and with its own text and metadata, and its pass is in order. *)
Theorem default_engine_serves (r : option Rrd) (docs : list Document) (turns : Z) (query : bytes) (fields : Metadata) :
  let '(o, n) := index (build (mkBuilder r None None None config_default)) docs in
  exists m, embedded docs m /\ n = Ok (Z.of_nat (size m)) /\
  let '(_, o', signals, res) := ask_with turns o query fields in
  o_memory o' = o_memory o /\ pass_ok 5 m turns query signals res /\ exists x, res = Ok x.
Proof.
  set (o0 := build _).
  assert (exists s m, index o0 docs = (set_memory o0 s, Ok (Z.of_nat (size m))) /\ embedded docs m /\ flat_holds s m
    /\ (fl_dim s = None \/ fl_dim s = Some DEFAULT_DIM)) as (s & m & -> & He & Hs & Hd).
  { unfold index. case_bool_decide as Hn.
    - subst docs. exists flat_new, ∅. split; [done|]. split; [by split|]. split; [apply flat_new_holds|by left].
    - unfold embed_documents. destruct (deterministic_documents (map dc_text docs)) as (vs & Ev & Hf).
      change (o_embedder o0) with deterministic. rewrite Ev. cbn [mbind result_bind].
      pose proof (Forall2_length _ _ _ Hf) as Hl. rewrite length_map in Hl.
      destruct (flat_upsert_accepts flat_new (zip_with record_of docs vs) DEFAULT_DIM) as (s & Es & Hd); [by left| |].
      { clear -Hf. revert vs Hf. induction docs as [|d docs IH]; intros [|v vs] Hf; try done; try by inversion Hf.
        cbn [map] in Hf. apply Forall2_cons in Hf as [Hv Hf]. cbn [zip_with]. constructor; [done|]. by apply IH. }
      pose proof (flat_upsert_ok flat_new ∅ (zip_with record_of docs vs) flat_new_holds) as Hh. rewrite Es in Hh.
      change (@rc_upsert _ _ (o_recall o0) (o_memory o0)) with (flat_upsert flat_new). rewrite Es. cbn [mbind result_bind].
      exists s, (put_all (zip_with record_of docs vs) ∅). split; [|split; [by apply put_all_embedded|by split]].
      f_equal. cbn. unfold flat_len. by rewrite (proj1 Hh). }
  exists m. split; [done|]. split; [done|].
  pose proof (ask_answers turns (set_memory o0 s) flat_holds m query fields flat_reads (with_params_laws _ _) Hs ltac:(done) ltac:(done)) as Ha.
  pose proof (ask_total turns (set_memory o0 s) query fields) as Ht.
  destruct (ask_with _ _ _ _) as [[[t' o'] signals] res]. destruct Ha as (_ & Hm & Hp). split; [done|]. split; [done|].
  apply Ht. intros r1. unfold after_gate. change (o_embedder _) with deterministic.
  destruct (embed_query_one_ok DEFAULT_DIM query) as (q & Eq & Hq). unfold deterministic. rewrite Eq.
  destruct (flat_search_exact s m q 20 Hs ltac:(done)) as (l & El & _).
  { rewrite Hq. destruct Hd as [-> | ->]; done. }
  change (@rc_hybrid_search _ _ _ _ query q _) with (flat_search s q 20). rewrite El.
  cbn [rr_rerank set_rrd set_memory o_reranker o_classifier build build_with o0 default from_option id ob_reranker ob_classifier
    lexical_reranker with_params cl_classify heuristic snd]. eauto.
Qed.
End spec.

(** ** A run *)

Section Witness.
#[local] Existing Instances plain_number ascii_unicode plain_order unlogged.
#[local] Instance flat_ln : Ln32 := id.

Definition note (id text : string) : Document := mkDocument (str id) (str text) ∅.
Definition notes : list Document := [note "a" "postgres migration guide"; note "b" "banana bread"; note "a" "postgres upgrade notes"].

Lemma ask_answers_witness :
  let o := build_with builder_new flat_recall flat_new in
  let '(turns', o', signals, res) := ask_with 7 o (str "postgres migration") ∅ in
  turns' = 8 /\ o_memory o' = flat_new /\ pass_ok 5 ∅ 7 (str "postgres migration") signals res.
Proof.
  cbv zeta. pose proof (ask_answers 7 (build_with builder_new flat_recall flat_new) flat_holds ∅ (str "postgres migration") ∅
    flat_reads (with_params_laws _ _) flat_new_holds ltac:(done) ltac:(done)) as Ha.
  destruct (ask_with _ _ _ _) as [[[t o'] signals] res]. exact Ha.
Defined.

Lemma default_engine_serves_witness :
  let '(o, n) := index (build (mkBuilder None None None None config_default)) notes in
  exists m, embedded notes m /\ n = Ok (Z.of_nat (size m)).
Proof.
  pose proof (default_engine_serves None notes 1 (str "postgres") ∅) as Hd.
  destruct (index _ _) as [o n]. destruct Hd as (m & He & Hn & _). exists m. split; [exact He|exact Hn].
Defined.

Lemma gate_decides_witness :
  let o := build_with (mkBuilder (Some rrd_new) None None None config_default) flat_recall flat_new in
  o_rrd o = Some rrd_new /\ (ask_with 1 o (str "hi") ∅).1.1.1 = 2.
Proof.
  cbv zeta. split; [reflexivity|].
  destruct (gate_decides 1 (build_with (mkBuilder (Some rrd_new) None None None config_default) flat_recall flat_new) rrd_new (str "hi") ∅ eq_refl)
    as [_ Hr].
  destruct Hr as (signals & res & -> & _); [vm_compute; discriminate|]. reflexivity.
Defined.

(** What a pass reports as the prediction made before its payload was seen is
    read after the daemon has folded the payload in: the very first payload of
    a shape is reported as predicted, with certainty, and the prediction as
    right. *)
Theorem prediction_knows_the_outcome :
  let fields := {[ str "title" := JStr (str "x") ]} : Metadata in
  let o := build_with (mkBuilder (Some rrd_new) None None None config_default) flat_recall flat_new in
  predict (r_baseline rrd_new) (str "query") = None
  /\ match (ask_with 1 o (str "postgres") fields).1.2 with
     | _ :: StageShape _ _ _ sliver _ s :: _ => sp_sliver s = Some sliver
     | _ => False
     end.
Proof. split; vm_compute; reflexivity. Qed.

(** A batch that is refused for its second vector still fixes the dimension
    of the index, which holds nothing: a batch of another dimension is
    refused ever after. *)
Theorem refused_batch_fixes_dimension :
  let r id n := mkVectorRecord (str id) (replicate n f32_one) [] ∅ None ∅ [] None in
  let refused := flat_upsert flat_new [r "a" 2%nat; r "b" 3%nat] in
  refused.2 = Err (DimMismatch 2 3) /\ size (fl_inner refused.1) = 0%nat
  /\ (flat_upsert refused.1 [r "b" 3%nat]).2 = Err (DimMismatch 2 3).
Proof. split; [reflexivity|]. split; reflexivity. Qed.
End Witness.

(** * An estate behind the flow (crates/connxism/src/store.rs as a [Recall])

    The reading half of the estate's [Recall]. Its writing half hands graph
    operations to the queue of [Pending] and may wait there for the applier,
    so it is a parameter here. *)
From S2P Require Import Prelude Floats ByteOrder Utf8 Json Quant Text Geo Model Keys Kv Store StoreFacts.
From S2P Require Import StoreTx StoreSpec Fusion Heap AnnStore Ann AnnFacts AnnSearch Searches.
From S2P Require Import SearchFacts SearchSpec Query QueryExec QueryFacts QuerySpec RrdShape RrdBaseline.
From S2P Require Import Rrd Traits Flow.
Local Open Scope Z_scope.
Section estate.
Context `{SerdeNumber} `{Libm} `{TextAnalyzer} `{Ln32} `{LegacyPosting}.
Context {HC : BinaryHeap Scored reverse_key} {HR : BinaryHeap Scored scored_key}.
Variable json_text : Json -> bytes.
Variable now_ms : Z -> Z.
Variable lexical_stats : bool.

(** [Recall::len] *)
Definition estate_len (s : ConnXRecall) : result RroError Z := Ok (get_u64 (db s) META_DOC_COUNT).

Definition estate_recall (upsert : ConnXRecall -> list VectorRecord -> ConnXRecall * result RroError unit)
  (remove : ConnXRecall -> bytes -> ConnXRecall * result RroError unit) : Recall ConnXRecall :=
  mkRecallOps _ upsert search hybrid_search estate_len remove.

Definition estate_holds (s : ConnXRecall) (m : gmap bytes VectorRecord) : Prop :=
  exists log, queryable json_text now_ms lexical_stats s m log.

#[export] Instance estate_reads upsert remove : RecallReads (estate_recall upsert remove) estate_holds.
Proof.
  split.
  - intros s m text query k l (log & Hq) Hk. cbn. unfold hybrid_search, hybrid_weighted.
    destruct (Z.eqb_spec k 0) as [->|_].
    { intros [= <-]. split; [done|constructor|]. by intros c ?%elem_of_nil. }
    destruct (dense_blocking _ _ _ _) as [dense|]; [|done]. cbn [mbind result_bind].
    destruct (if bool_decide _ then _ else _) as [lex|]; [|done]. cbn [mbind result_bind]. intros [= <-].
    rewrite (hydrate_hits json_text now_ms lexical_stats (db s) m log (qb_refines _ _ _ _ _ _ Hq)).
    apply page_hits; [eapply refines_keyed, (qb_refines _ _ _ _ _ _ Hq)| |done]. unfold reciprocal_rank_fusion_weighted. apply ranked_NoDup.
  - intros s m (log & Hq). cbn. unfold estate_len. f_equal. rewrite <- msum_one. exact (co_docs _ _ _ _ (rf_counts _ _ _ _ _ _ (qb_refines _ _ _ _ _ _ Hq))).
Qed.
End estate.
