(* ===== verification/Toon.v ===== *)
(** * Token-oriented object notation (crates/rro-core/src/toon.rs)

    The encoder of JSON values for prompts and the recall context it renders. *)
From S2P Require Import Prelude Floats ByteOrder Utf8 Json Geo Quant Text TextFacts Model Kv Store.
From S2P Require Import Fusion Searches.
From S2P Require Import StdRoutines Connectome.
From Stdlib Require Import SpecFloat.
#[local] Set Default Goal Selector "!".
#[local] Set Warnings "-clear-no-such-hyp".
Local Open Scope Z_scope.

(** The text of a number ([Display] of [serde_json::Number]). *)
Class NumberText `{SerdeNumber} := num_text : number -> bytes.

(** [u32 as {:04x}] *)
Definition hex_digit (z : Z) : Z := if z <? 10 then 48 + z else 87 + z.
Definition hex4 (n : Z) : bytes := map (fun i => hex_digit (n / 16 ^ i mod 16)) [3; 2; 1; 0].

(** ** Strings *)

(** [char::is_control]: the category Cc. *)
Definition is_control (c : bytes) : bool :=
  match c with
  | [b] => (b <? 32) || (b =? 127)
  | [b0; b1] => (b0 =? 194) && between 128 159 b1
  | _ => false
  end.
(** The code point of a control character. *)
Definition control_point (c : bytes) : Z := List.last c 0.

Definition SPECIAL : bytes := [58; 34; 92; 44; 91; 93; 123; 125].
Definition is_special (c : bytes) : bool := match c with [b] => bool_decide (b ∈ SPECIAL) | _ => false end.

(** [consume_digits]: whether there was one, and the rest. *)
Fixpoint consume_digits (s : bytes) : bool * bytes :=
  match s with
  | c :: s' => if is_ascii_digit c then (true, (consume_digits s').2) else (false, s)
  | [] => (false, [])
  end.

Definition strip (c : Z) (s : bytes) : option bytes :=
  match s with b :: s' => if b =? c then Some s' else None | [] => None end.

(** The exponent, if there is one, and the end of the text. *)
Definition exponent_end (seen : bool) (s : bytes) : bool :=
  match match strip 101 s with Some s => Some s | None => strip 69 s end with
  | Some s =>
      let s := match strip 43 s with Some s => s | None => default s (strip 45 s) end in
      let '(digits, s) := consume_digits s in
      digits && seen && bool_decide (s = [])
  | None => seen && bool_decide (s = [])
  end.

Definition looks_numeric (s : bytes) : bool :=
  let '(d1, s) := consume_digits (default s (strip 45 s)) in
  let '(d2, s) := match strip 46 s with Some s => consume_digits s | None => (false, s) end in
  exponent_end (d1 || d2) s.

Section toon.
Context `{NumberText} `{Unicode}.

Definition needs_quotes (s : bytes) : bool :=
  bool_decide (s = []) || bool_decide (strip 45 s <> None) || bool_decide (s <> trim s)
  || bool_decide (s = str "true" \/ s = str "false" \/ s = str "null") || looks_numeric s
  || existsb (fun c => is_special c || is_control c) (chars s).

Definition escape (c : bytes) : bytes :=
  if bool_decide (c = [92]) then [92; 92]
  else if bool_decide (c = [34]) then [92; 34]
  else if bool_decide (c = [10]) then [92; 110]
  else if bool_decide (c = [13]) then [92; 114]
  else if bool_decide (c = [9]) then [92; 116]
  else if is_control c then 92 :: 117 :: hex4 (control_point c)
  else c.

Definition quote_if_needed (s : bytes) : bytes :=
  if needs_quotes s then 34 :: concat (map escape (chars s)) ++ [34] else s.
Definition quote_key (k : bytes) : bytes := quote_if_needed k.

(** ** Values *)

Definition scalar (v : Json) : bytes :=
  match v with
  | JNull => str "null"
  | JBool b => if b then str "true" else str "false"
  | JNum n => num_text n
  | JStr s => quote_if_needed s
  | JArr [] => str "[]"
  | JObj [] => str "{}"
  | _ => []
  end.

Definition is_scalar (v : Json) : bool :=
  match v with
  | JNull | JBool _ | JNum _ | JStr _ => true
  | JArr a => bool_decide (length a = 0%nat)
  | JObj o => bool_decide (length o = 0%nat)
  end.

Definition push_delimited (parts : list bytes) : bytes :=
  match parts with [] => [] | p :: ps => p ++ concat (map (fun q => 44 :: q) ps) end.

Definition indent (depth : nat) : bytes := replicate (2 * depth) 32.

(** The columns of a table, if the array is one. *)
Definition uniform_object_fields (items : list Json) : option (list bytes) :=
  match items with
  | JObj first :: _ =>
      let fields := map fst first in
      if bool_decide (fields = []) then None
      else if forallb (fun item =>
                match item with
                | JObj obj => bool_decide (length obj = length fields)
                    && forallb (fun f => match json_get f item with Some v => is_scalar v | None => false end) fields
                | _ => false
                end) items
      then Some fields else None
  | _ => None
  end.

(** [&obj[f]], which panics for a missing member: not in a uniform array. *)
Definition cell (item : Json) (f : bytes) : bytes := match json_get f item with Some v => scalar v | None => [] end.
Definition row (fields : list bytes) (item : Json) : bytes := push_delimited (map (cell item) fields).

Definition count (items : list Json) : bytes := 91 :: display (Z.of_nat (length items)) ++ [93].

(** The members of a non-empty object, one level deeper than [depth]
    ([write_object]), or the form of a non-empty array that stands at [depth]
    ([write_array_after_key]). *)
Fixpoint write_nested (v : Json) (depth : nat) : bytes :=
  (* what follows a key *)
  let after_key (x : Json) (d : nat) :=
    match x with
    | JObj (_ :: _) => 58 :: 10 :: write_nested x d
    | JArr (_ :: _) => write_nested x d
    | _ => 58 :: 32 :: scalar x ++ [10]
    end in
  (* what follows the indentation of a list item *)
  let item (x : Json) (d : nat) :=
    match x with
    | JObj (_ :: _) => 45 :: 10 :: write_nested x d
    | JArr (_ :: _) => 45 :: write_nested x d
    | _ => 45 :: 32 :: scalar x ++ [10]
    end in
  match v with
  | JObj m => concat (map (fun p => indent (S depth) ++ quote_key p.1 ++ after_key p.2 (S depth)) m)
  | JArr items =>
      if forallb is_scalar items then count items ++ [58; 32] ++ push_delimited (map scalar items) ++ [10]
      else
        match uniform_object_fields items with
        | Some fields =>
            count items ++ [123] ++ push_delimited (map quote_if_needed fields) ++ [125; 58; 10]
            ++ concat (map (fun x => indent (S depth) ++ row fields x ++ [10]) items)
        | None => count items ++ [58; 10] ++ concat (map (fun x => indent (S depth) ++ item x (S depth)) items)
        end
  | _ => []
  end.

Definition write_array_after_key (items : list Json) (depth : nat) : bytes := write_nested (JArr items) depth.

(** One member of an object at [depth]. *)
Definition write_field (k : bytes) (v : Json) (depth : nat) : bytes :=
  indent depth ++ quote_key k ++
  match v with
  | JObj (_ :: _) => 58 :: 10 :: write_nested v depth
  | JArr ((_ :: _) as items) => write_array_after_key items depth
  | _ => 58 :: 32 :: scalar v ++ [10]
  end.
Definition write_object (m : list (bytes * Json)) (depth : nat) : bytes :=
  concat (map (fun p => write_field p.1 p.2 depth) m).

(** One item of a list at [depth]. *)
Definition write_list_item (v : Json) (depth : nat) : bytes :=
  indent depth ++
  match v with
  | JObj (_ :: _) => 45 :: 10 :: write_nested v depth
  | JArr ((_ :: _) as items) => 45 :: write_array_after_key items depth
  | _ => 45 :: 32 :: scalar v ++ [10]
  end.

(** The array at the root has the forms of one under a key at depth 0. *)
Definition write_root_array (items : list Json) : bytes := write_array_after_key items 0.

Definition to_toon (v : Json) : bytes :=
  match v with
  | JObj ((_ :: _) as m) => write_object m 0
  | JArr ((_ :: _) as items) => write_root_array items
  | _ => scalar v ++ [10]
  end.

(** ** The recall context *)

(** [f32::round]: half away from zero. *)
Definition f32_round (x : f32) : f32 :=
  match x with
  | S754_finite s m e =>
      if 0 <=? e then x
      else
        let q := (2 * Zpos m + 2 ^ (- e)) / (2 * 2 ^ (- e)) in
        binary_normalize f32_prec f32_emax (cond_Zopp s q) 0 s
  | _ => x
  end.
(** [f64::from] of an [f32] *)
Definition f64_of_f32 (x : f32) : f64 :=
  match x with S754_finite s m e => binary_normalize f64_prec f64_emax (cond_Zopp s (Zpos m)) e s | _ => x end.

(** A float as a JSON value; one that is not finite is null. *)
Definition json_of_f32 (x : f32) : Json := match from_f64 (f64_of_f32 x) with Some n => JNum n | None => JNull end.

Definition round_score (x : f32) : f32 := f32_div (f32_round (f32_mul x (f32_of_Z 10000))) (f32_of_Z 10000).

(** One hit as an object, its keys in order. *)
Definition candidate_row (c : Candidate) : Json :=
  JObj [(str "id", JStr (c_id c)); (str "score", json_of_f32 (round_score (c_score c))); (str "text", JStr (c_text c))].
Definition candidates_toon (cs : list Candidate) : bytes := to_toon (JArr (map candidate_row cs)).

Inductive ContextFormat : Type := FormatJson | FormatToon.

Record Recommendation : Type := mkRecommendation {
  headline : bytes;
  why_enable : bytes;
  bytes_saved_pct : Z;
  tokens_saved_pct : Z;
  how_to_enable : bytes;
}.
Record RenderedContext : Type := mkRendered {
  rc_format : ContextFormat;
  rc_body : bytes;
  rc_recommendation : option Recommendation;
}.

(** White space and JSON punctuation separate tokens. *)
Definition token_separator (c : bytes) : bool :=
  u_whitespace c || match c with [b] => bool_decide (b ∈ [123; 125; 91; 93; 34; 58; 44]) | _ => false end.
Definition approx_tokens (s : bytes) : Z := Z.of_nat (length (split_words token_separator s)).

(** The cast saturates. *)
Definition pct_saved (from to : Z) : Z :=
  if (from =? 0) || (from <=? to) then 0
  else Z.min (2 ^ 32 - 1) (f_round_u64 (f64_mul (f64_div (f64_of_Z (from - to)) (f64_of_Z from)) (f64_of_Z 100))).

Definition WHY : bytes := str
  "TOON packs your results into a compact table instead of repeating the field names, quotes and braces on every single row — think a spreadsheet, not the same form filled out over and over. Nothing is lost (it's a lossless rewrite of the exact same data), models parse it as reliably or better, and it costs fewer tokens: fewer tokens means lower cost, faster answers, and more of the context window left for the actual content. Highly recommended for anything that feeds recall results into an LLM.".
Definition HOW_TO_ENABLE : bytes :=
  str "Send `accepts_toon: true` (or `format: " ++ [34] ++ str "toon" ++ [34]
  ++ str "`) with your next recall request and RRO will serve TOON automatically.".

(** The JSON printer is serde_json's. *)
Definition render_candidates (json_text : Json -> bytes) (cs : list Candidate) (accepts_toon : bool) : RenderedContext :=
  if accepts_toon then mkRendered FormatToon (candidates_toon cs) None
  else
    let value := JArr (map candidate_row cs) in
    let json := json_text value in
    let toon := to_toon value in
    let bytes_saved := pct_saved (Z.of_nat (length json)) (Z.of_nat (length toon)) in
    let tokens_saved := pct_saved (approx_tokens json) (approx_tokens toon) in
    mkRendered FormatJson json
      (if 0 <? bytes_saved then
         Some (mkRecommendation
                 (str "Recall context is " ++ display bytes_saved ++ str "% smaller in TOON — want RRO to send it that way?")
                 WHY bytes_saved tokens_saved HOW_TO_ENABLE)
       else None).
End toon.
