(* ===== verification/ToonFacts.v ===== *)
(** * The token-oriented encoding loses nothing

    The text of a value is a list of indented lines; quoting makes every text
    self-delimiting, a head says how many items and which columns follow, and
    the indentation says where a nested value ends. *)
From S2P Require Import Prelude Floats ByteOrder Utf8 Json Geo Quant Text TextFacts Keys KeysFacts.
From S2P Require Import Model Kv Store Fusion Searches.
From S2P Require Import StdRoutines Connectome Toon.
From Stdlib Require Import SpecFloat.
#[local] Set Default Goal Selector "!".
#[local] Set Warnings "-clear-no-such-hyp,-register-all".
Local Open Scope Z_scope.

(** ** What numbers and white space are assumed to be *)

(** Distinct numbers have distinct texts of the JSON grammar. *)
Class NumberTextLaws `{NumberText} : Prop := {
  num_text_inj n m : num_text n = num_text m -> n = m;
  num_text_numeric n : looks_numeric (num_text n) = true;
}.

(** ** Characters *)

Lemma is_char_cases c : is_char c -> c <> [] -> (exists b, c = [b] /\ b < 128) \/ Forall (fun b => 128 <= b) c /\ (2 <= length c)%nat.
Proof.
  intros Hc Hn. specialize (Hc []). rewrite app_nil_r in Hc. destruct c as [|a c]; [done|]. unfold utf8_next in Hc.
  assert (forall lo hi b, between lo hi b = true -> lo <= b) as Hb.
  { intros lo hi b [?%Z.leb_le _]%andb_prop. done. }
  destruct (Z.ltb_spec a 128); [left; injection Hc as Hc; destruct c; [by eexists|done]|]. right.
  unfold cont, second in Hc.
  destruct c as [|b [|c [|d [|e l]]]]; cbn [lookup list_lookup length] in Hc; repeat (case_match; try done); try discriminate; (split; [|cbn; lia]);
    repeat match goal with H : between _ _ _ = true |- _ => apply Hb in H end; repeat constructor; lia.
Qed.

Lemma is_char_app c c' X X' : is_char c -> is_char c' -> c ++ X = c' ++ X' -> c = c' /\ X = X'.
Proof.
  intros H1 H2 E. pose proof (H1 X) as L1. pose proof (H2 X') as L2. rewrite E, L2 in L1. injection L1 as L1.
  by apply app_inj_1 in E.
Qed.

Lemma valid_chars s : valid_utf8 s = true -> Forall (fun c => is_char c /\ c <> []) (chars s).
Proof.
  intros Hv. pose proof (chars_loop_chars _ _ Hv : Forall is_char (chars s)) as H1. pose proof (chars_nonempty s) as H2.
  apply Forall_and. by split.
Qed.

(** ** Escapes *)

Lemma hex_digit_inj a b : 0 <= a < 16 -> 0 <= b < 16 -> hex_digit a = hex_digit b -> a = b.
Proof. unfold hex_digit. repeat case_match; lia. Qed.

Lemma hex4_inj a b : 0 <= a < 256 -> 0 <= b < 256 -> hex4 a = hex4 b -> a = b.
Proof.
  intros Ha Hb E. unfold hex4 in E. cbn [map] in E. injection E as _ _ E1 E0.
  change (16 ^ 1) with 16 in *. change (16 ^ 0) with 1 in *. rewrite !Z.div_1_r in E0.
  apply hex_digit_inj in E1; [|apply Z.mod_pos_bound; lia|apply Z.mod_pos_bound; lia].
  apply hex_digit_inj in E0; [|apply Z.mod_pos_bound; lia|apply Z.mod_pos_bound; lia].
  Z.div_mod_to_equations. lia.
Qed.

(** What an escape starts with. *)
Lemma escape_cases c : is_char c -> c <> [] -> Forall is_byte c ->
  (escape c = c /\ exists b l, c = b :: l /\ b <> 92 /\ b <> 34)
  \/ (exists x, escape c = [92; x] /\ x <> 117 /\ exists b, c = [b])
  \/ escape c = 92 :: 117 :: hex4 (control_point c) /\ is_control c = true.
Proof.
  intros Hc Hn Hb. unfold escape. repeat case_bool_decide; subst; try (right; left; eexists; split; [done|split; [done|by eexists]]).
  destruct (is_control c) eqn:E; [by right; right|]. left. split; [done|].
  destruct (is_char_cases c Hc Hn) as [(b & -> & Hlt)|[Hf Hl]].
  - exists b, []. split; [done|]. split; intros ->; done.
  - destruct c as [|b c]; [done|]. exists b, c. apply Forall_cons in Hf as [Hb1 _]. split; [done|lia].
Qed.

Lemma control_cases c : is_control c = true -> (exists b, c = [b] /\ (b < 32 \/ b = 127)) \/ exists b, c = [194; b] /\ 128 <= b <= 159.
Proof.
  unfold is_control. destruct c as [|a [|b [|? ?]]]; try done.
  - intros [?%Z.ltb_lt|?%Z.eqb_eq]%orb_prop; left; eexists; eauto.
  - intros [->%Z.eqb_eq [?%Z.leb_le ?%Z.leb_le]%andb_prop]%andb_prop. right. eexists. eauto.
Qed.

Lemma escape_inj c c' X X' : is_char c -> c <> [] -> Forall is_byte c -> is_char c' -> c' <> [] -> Forall is_byte c' ->
  escape c ++ X = escape c' ++ X' -> c = c' /\ X = X'.
Proof.
  intros Hc Hn Hb Hc' Hn' Hb' E.
  destruct (escape_cases c Hc Hn Hb) as [[E1 (b & l & -> & H1 & H2)]|[(x & E1 & Hx & b & ->)|[E1 H1]]];
    destruct (escape_cases c' Hc' Hn' Hb') as [[E2 (b' & l' & -> & H1' & H2')]|[(x' & E2 & Hx' & b' & ->)|[E2 H1']]];
    rewrite E1, E2 in E; cbn [app] in E; try (injection E; congruence).
  - by apply (is_char_app (b :: l) (b' :: l')).
  - injection E as Ex EX. split; [|exact EX]. rewrite <- Ex in E2. clear -E1 E2. unfold escape in E1, E2.
    repeat case_bool_decide; simplify_eq; cbn in *; repeat case_match; simplify_eq; done.
  - apply (f_equal (drop 2)) in E. cbn [drop] in E. apply app_inj_1 in E as [Eh ->]; [|done]. split; [|done].
    assert (forall c, is_control c = true -> Forall is_byte c -> 0 <= control_point c < 256) as Hp.
    { intros c0 Hc0 Hf. apply control_cases in Hc0 as [(b & -> & ?)|(b & -> & ?)]; unfold control_point; cbn [List.last].
      - apply Forall_cons in Hf as [Hf _]. unfold is_byte in Hf. lia.
      - lia. }
    apply hex4_inj in Eh; [|by apply Hp|by apply Hp].
    apply control_cases in H1 as [(b & -> & ?)|(b & -> & ?)], H1' as [(b' & -> & ?)|(b' & -> & ?)]; unfold control_point in Eh; cbn [List.last] in Eh; subst; try done; lia.
Qed.

Lemma escapes_inj cs cs' X X' :
  Forall (fun c => is_char c /\ c <> [] /\ Forall is_byte c) cs -> Forall (fun c => is_char c /\ c <> [] /\ Forall is_byte c) cs' ->
  concat (map escape cs) ++ 34 :: X = concat (map escape cs') ++ 34 :: X' -> cs = cs' /\ X = X'.
Proof.
  assert (forall c Y, is_char c -> c <> [] -> Forall is_byte c -> escape c ++ Y = 34 :: X -> False) as H1.
  { intros c Y Hc Hn Hb E. destruct (escape_cases c Hc Hn Hb) as [[E1 (b & l & -> & H1 & H2)]|[(x & E1 & Hx & b & ->)|[E1 H1]]];
      rewrite E1 in E; injection E; congruence. }
  assert (forall c Y, is_char c -> c <> [] -> Forall is_byte c -> escape c ++ Y = 34 :: X' -> False) as H2.
  { intros c Y Hc Hn Hb E. destruct (escape_cases c Hc Hn Hb) as [[E1 (b & l & -> & H3 & H2)]|[(x & E1 & Hx & b & ->)|[E1 H2]]];
      rewrite E1 in E; injection E; congruence. }
  intros Hcs. revert cs'. induction Hcs as [|c cs (Hc & Hn & Hb) _ IH]; intros [|c' cs'] Hcs' E; cbn [map concat] in E; rewrite <- ?app_assoc in E; cbn [app] in E.
  - by injection E as ->.
  - apply Forall_cons in Hcs' as [(Hc' & Hn' & Hb') _]. by exfalso; eapply (H1 c'); [..|symmetry; exact E].
  - by exfalso; eapply (H2 c).
  - apply Forall_cons in Hcs' as [(Hc' & Hn' & Hb') Hcs']. apply escape_inj in E as [-> E]; [|done..].
    by destruct (IH cs' Hcs' E) as [-> ->].
Qed.

(** ** Texts and what ends them *)

(** What a Rust string holds. *)
Definition text_ok (s : bytes) : Prop := valid_utf8 s = true /\ Forall is_byte s.

(** Nothing, or a byte no bare text holds. *)
Definition ended (t : bytes) : Prop := match t with [] => True | b :: _ => b ∈ SPECIAL end.
(** Nothing, or the separator. *)
Definition comma (t : bytes) : Prop := match t with [] => True | b :: _ => b = 44 end.

Lemma until_inj (P : Z -> Prop) s s' t t' :
  Forall P s -> Forall P s' -> match t with [] => True | b :: _ => ~ P b end -> match t' with [] => True | b :: _ => ~ P b end ->
  s ++ t = s' ++ t' -> s = s' /\ t = t'.
Proof.
  intros Hs. revert s'. induction Hs as [|b s Hb _ IH]; intros [|b' s'] Hs' Ht Ht' E; cbn in E.
  - done.
  - apply Forall_cons in Hs' as [Hb' _]. subst t. done.
  - subst t'. done.
  - apply Forall_cons in Hs' as [_ Hs']. injection E as -> E. by destruct (IH s' Hs' Ht Ht' E) as [-> ->].
Qed.

Section texts.
Context `{L : NumberTextLaws} `{Unicode}.
(** The space is white space. *)
Definition spaces : Prop := u_whitespace [32] = true.

(** A line starts with it and is not cut by it. *)
Record bare (s : bytes) : Prop := mkBare {
  ba_head : match s with [] => False | b :: _ => b <> 32 /\ b <> 34 end;
  ba_comma : Forall (fun b => b <> 44 /\ b <> 10) s;
}.

Record plain (s : bytes) : Prop := mkPlain {
  pl_bytes : Forall (fun b => (b ∉ SPECIAL) /\ b <> 10) s;
  pl_head : match s with [] => False | b :: _ => b <> 32 /\ b <> 45 end;
  pl_reserved : ~ (s = str "true" \/ s = str "false" \/ s = str "null");
  pl_numeric : looks_numeric s = false;
}.

Lemma trim_start_shorter cs : (length (concat (trim_start cs)) <= length (concat cs))%nat.
Proof. induction cs as [|c cs IH]; [done|]. cbn [trim_start]. destruct (u_whitespace c); [|done]. cbn [concat]. rewrite length_app. lia. Qed.

Lemma length_concat_rev (cs : list bytes) : length (concat (rev cs)) = length (concat cs).
Proof. induction cs as [|c cs IH]; [done|]. cbn [rev concat]. rewrite concat_app, !length_app, IH. cbn. rewrite app_nil_r. lia. Qed.

Lemma trim_head (space : spaces) s : s = trim s -> match s with b :: _ => b <> 32 | [] => True end.
Proof.
  destruct s as [|b s]; [done|]. intros E ->. apply (f_equal length) in E. revert E. unfold trim.
  set (cs := chars (32 :: s)). assert (cs = [32] :: chars s) as Hc.
  { unfold cs, chars. cbn [length chars_loop utf8_next]. change (take 1 (32 :: s)) with [32]. by change (drop 1 (32 :: s)) with s. }
  rewrite length_concat_rev. pose proof (trim_start_shorter (rev (trim_start cs))) as Hs1. rewrite length_concat_rev in Hs1.
  rewrite Hc in *. cbn [trim_start] in *. rewrite (space : u_whitespace [32] = true) in *. pose proof (trim_start_shorter (chars s)) as Hs2.
  rewrite chars_concat in Hs2. cbn [length]. lia.
Qed.

Lemma quote_shape (space : spaces) s : text_ok s ->
  quote_if_needed s = 34 :: concat (map escape (chars s)) ++ [34] \/ quote_if_needed s = s /\ plain s.
Proof.
  intros [Hv Hb]. unfold quote_if_needed. destruct (needs_quotes s) eqn:E; [by left|]. right. split; [done|].
  unfold needs_quotes in E. repeat (apply orb_false_elim in E as [E ?]).
  repeat match goal with H : bool_decide _ = false |- _ => apply bool_decide_eq_false in H end.
  assert (s = trim s) as Ht by (by destruct (decide (s = trim s))).
  split.
  - assert (Forall (fun c => is_special c || is_control c = false) (chars s)) as Hf.
    { apply Forall_forall. intros c Hc. apply not_true_iff_false. intros Ht'.
      assert (existsb (fun c => is_special c || is_control c) (chars s) = true) by (apply existsb_exists; exists c; split; [by apply list_elem_of_In|done]).
      congruence. }
    rewrite <- (chars_concat s). apply valid_chars in Hv. revert Hf Hv. generalize (chars s). clear.
    induction l as [|c l IH]; intros Hf Hv; [constructor|]. apply Forall_cons in Hf as [Hs Hf], Hv as [[Hc1 Hc2] Hv]. cbn [concat].
    apply Forall_app. split; [|by apply IH]. clear IH Hf Hv. apply orb_false_elim in Hs as [Hs Hc].
    destruct (is_char_cases c Hc1 Hc2) as [(b & -> & Hlt)|[Hf _]].
    + constructor; [|done]. unfold is_special in Hs. apply bool_decide_eq_false in Hs. split; [done|]. intros ->. done.
    + eapply Forall_impl; [exact Hf|]. intros b Hge. cbn in Hge. split; [|lia]. intros Hin. unfold SPECIAL in Hin.
      repeat (apply elem_of_cons in Hin as [->|Hin]; [lia|]). by apply elem_of_nil in Hin.
  - pose proof (trim_head space s Ht) as Hh. destruct s as [|b s]; [done|]. split; [done|]. intros ->. match goal with Hs : ~ (strip _ _ <> None) |- _ => by apply Hs end.
  - done.
  - done.
Qed.

Lemma special_not b : ~ ((b ∉ SPECIAL) /\ b <> 10) <-> b ∈ SPECIAL \/ b = 10.
Proof. destruct (decide (b ∈ SPECIAL)), (decide (b = 10)); naive_solver. Qed.

Lemma ended_not t : ended t -> match t with [] => True | b :: _ => ~ ((b ∉ SPECIAL) /\ b <> 10) end.
Proof. destruct t; [done|]. cbn. intros Hb [Hn _]. done. Qed.

Lemma text_chars s : text_ok s -> Forall (fun c => is_char c /\ c <> [] /\ Forall is_byte c) (chars s).
Proof.
  intros [Hv Hb]. apply valid_chars in Hv. rewrite <- (chars_concat s) in Hb. revert Hv Hb. generalize (chars s).
  induction l as [|c l IH]; intros Hv Hb; [constructor|]. cbn [concat] in Hb. apply Forall_app in Hb as [Hb1 Hb2].
  apply Forall_cons in Hv as [[Hc1 Hc2] Hv]. constructor; [done|]. by apply IH.
Qed.

Lemma quoted_inj s s' t t' : text_ok s -> text_ok s' ->
  (34 :: concat (map escape (chars s)) ++ [34]) ++ t = (34 :: concat (map escape (chars s')) ++ [34]) ++ t' -> s = s' /\ t = t'.
Proof.
  intros Hs Hs' E. cbn [app] in E. rewrite <- !app_assoc in E. cbn [app] in E. injection E as E.
  apply escapes_inj in E as [E ->]; [|by apply text_chars..]. split; [|done]. by rewrite <- (chars_concat s), E, chars_concat.
Qed.

Lemma plain_head_not s t l : plain s -> s ++ t <> 34 :: l.
Proof.
  intros [Hb Hh _ _] E. destruct s as [|b s]; [done|]. apply Forall_cons in Hb as [[Hb _] _]. injection E as -> _.
  apply Hb. unfold SPECIAL. set_solver.
Qed.

(** A quoted text is read back up to where it ends. *)
Lemma quote_delim (space : spaces) s s' t t' : text_ok s -> text_ok s' -> ended t -> ended t' ->
  quote_if_needed s ++ t = quote_if_needed s' ++ t' -> s = s' /\ t = t'.
Proof.
  intros Hs Hs' Ht Ht' E.
  destruct (quote_shape space s Hs) as [Q|[Q P]], (quote_shape space s' Hs') as [Q'|[Q' P']]; rewrite Q, Q' in E.
  - by apply quoted_inj.
  - by destruct (plain_head_not s' t' _ P' (eq_sym E)).
  - by destruct (plain_head_not s t _ P E).
  - eapply until_inj; [exact (pl_bytes _ P)|exact (pl_bytes _ P')|by apply ended_not|by apply ended_not|done].
Qed.

(** ** Numbers *)

Definition numeric_byte (b : Z) : Prop := is_ascii_digit b = true \/ b ∈ [43; 45; 46; 69; 101].

Lemma consume_digits_ok s : exists d, s = d ++ (consume_digits s).2 /\ Forall (fun b => is_ascii_digit b = true) d
  /\ ((consume_digits s).1 = true -> d <> []).
Proof.
  induction s as [|c s IH]; [by exists []|]. cbn [consume_digits]. destruct (is_ascii_digit c) eqn:E.
  - destruct IH as (d & E1 & E2 & _). exists (c :: d). cbn [fst snd]. split; [cbn; by rewrite <- E1|]. split; [by constructor|done].
  - by exists [].
Qed.

Lemma strip_some c s t : strip c s = Some t -> s = c :: t.
Proof. destruct s as [|b s]; [done|]. cbn. destruct (Z.eqb_spec b c) as [->|]; [|done]. by intros [= ->]. Qed.

Lemma default_strip c s (P : Z -> Prop) : P c -> Forall P (default s (strip c s)) -> Forall P s.
Proof. intros Hc. destruct (strip c s) as [t|] eqn:E; [|done]. apply strip_some in E as ->. cbn. by constructor. Qed.

Lemma consume_numeric s : Forall numeric_byte (consume_digits s).2 -> Forall numeric_byte s.
Proof.
  destruct (consume_digits_ok s) as (d & E & Hd & _). intros Hf. rewrite E. apply Forall_app. split; [|done].
  eapply Forall_impl; [exact Hd|]. intros b Hb. by left.
Qed.

Lemma numeric_mark b : b ∈ [43; 45; 46; 69; 101] -> numeric_byte b.
Proof. by right. Qed.
#[local] Hint Resolve numeric_mark : core.

Lemma exponent_numeric seen s : exponent_end seen s = true -> Forall numeric_byte s.
Proof.
  unfold exponent_end. intros E.
  assert (forall s', s = 101 :: s' \/ s = 69 :: s' -> Forall numeric_byte s' -> Forall numeric_byte s) as Hcons.
  { intros s' [-> | ->] Hf; constructor; try done; apply numeric_mark; set_solver. }
  destruct (match strip 101 s with Some s => Some s | None => strip 69 s end) as [s1|] eqn:E1;
    [|apply andb_prop in E as [_ E]; apply bool_decide_eq_true in E as ->; constructor].
  apply (Hcons s1).
  { destruct (strip 101 s) eqn:E2; [injection E1 as ->; apply strip_some in E2; by left|]. apply strip_some in E1. by right. }
  set (s2 := match strip 43 s1 with Some s => s | None => _ end) in *.
  assert (Forall numeric_byte s2) as Hf.
  { apply consume_numeric. destruct (consume_digits s2) as [d s3]. apply andb_prop in E as [_ E]. apply bool_decide_eq_true in E as ->. constructor. }
  subst s2. destruct (strip 43 s1) as [s2|] eqn:E2.
  - apply strip_some in E2 as ->. constructor; [apply numeric_mark; set_solver|done].
  - apply (default_strip 45); [apply numeric_mark; set_solver|done].
Qed.

Lemma numeric_bytes s : looks_numeric s = true -> Forall numeric_byte s.
Proof.
  unfold looks_numeric. intros E. apply (default_strip 45); [apply numeric_mark; set_solver|].
  apply consume_numeric. destruct (consume_digits _) as [d1 s1]. cbn [snd]. destruct (strip 46 s1) as [s2|] eqn:E1.
  - apply strip_some in E1 as ->. constructor; [apply numeric_mark; set_solver|]. apply consume_numeric.
    destruct (consume_digits s2) as [d2 s3]. by apply exponent_numeric in E.
  - by apply exponent_numeric in E.
Qed.
End texts.

Section scalars.
Context `{L : NumberTextLaws} `{Unicode}.

(** What a [serde_json::Value] holds: strings, and objects in key order. *)
Inductive json_ok : Json -> Prop :=
  | ok_null : json_ok JNull
  | ok_bool b : json_ok (JBool b)
  | ok_num n : json_ok (JNum n)
  | ok_str s : text_ok s -> json_ok (JStr s)
  | ok_arr l : Forall json_ok l -> json_ok (JArr l)
  | ok_obj m : StronglySorted blt (map fst m) -> Forall (fun p => text_ok p.1 /\ json_ok p.2) m -> json_ok (JObj m).

Lemma plain_bare s : plain s -> bare s.
Proof.
  intros [Hb Hh _ _]. split.
  - destruct s as [|b s]; [done|]. split; [by destruct Hh|]. apply Forall_cons in Hb as [[Hb _] _]. intros ->. apply Hb. unfold SPECIAL. set_solver.
  - eapply Forall_impl; [exact Hb|]. intros b [Hn H10]. split; [|done]. intros ->. apply Hn. unfold SPECIAL. set_solver.
Qed.

Lemma numeric_bare s : looks_numeric s = true -> bare s.
Proof.
  intros Hn. pose proof (numeric_bytes s Hn) as Hb.
  assert (forall b, numeric_byte b -> b <> 32 /\ b <> 34 /\ b <> 44 /\ b <> 10) as Hne.
  { intros b [Hd|Hin]; [by repeat split; intros ->|]. repeat split; intros ->; set_solver. }
  split.
  - destruct s as [|b s]; [done|]. apply Forall_cons in Hb as [Hb _]. by destruct (Hne b Hb) as (? & ? & _).
  - eapply Forall_impl; [exact Hb|]. intros b Hb'. by destruct (Hne b Hb') as (_ & _ & ? & ?).
Qed.

(** The text of a scalar is a quoted string or bare. *)
Lemma scalar_shape (space : spaces) v : is_scalar v = true -> json_ok v ->
  (exists s, v = JStr s /\ text_ok s /\ scalar v = 34 :: concat (map escape (chars s)) ++ [34])
  \/ bare (scalar v) /\ (forall s, v = JStr s -> scalar v = s /\ plain s).
Proof.
  intros Hs Hok. destruct v as [|[]|n|s|[|? ?]|[|? ?]]; try done; try (right; split; [split; [done|by repeat constructor]|done]).
  - right. split; [|done]. apply numeric_bare, num_text_numeric.
  - inversion_clear Hok. destruct (quote_shape space s) as [Q|[Q P]]; [done| |].
    + left. by exists s.
    + right. cbn [scalar]. rewrite Q. split; [by apply plain_bare|]. by intros ? [= ->].
Qed.

Lemma bare_head s t l : bare s -> s ++ t <> 34 :: l.
Proof. intros [Hh _] E. destruct s as [|b s]; [done|]. injection E as -> _. by destruct Hh. Qed.

Lemma reserved_bare v w : is_scalar v = true -> is_scalar w = true ->
  (forall s, v = JStr s -> scalar v = s /\ plain s) -> (forall s, w = JStr s -> scalar w = s /\ plain s) ->
  scalar v = scalar w -> v = w.
Proof.
  intros Hv Hw Pv Pw E.
  assert (forall n s, num_text n = s -> looks_numeric s = true) as Hn by (intros n s <-; apply num_text_numeric).
  destruct v as [|[]|n|s|[|? ?]|[|? ?]], w as [|[]|n'|s'|[|? ?]|[|? ?]]; try done;
    try (destruct (Pv _ eq_refl) as [E1 [P1 P2 P3 P4]]; rewrite E1 in E; clear E1);
    try (destruct (Pw _ eq_refl) as [E2 [Q1 Q2 Q3 Q4]]; rewrite E2 in E; clear E2);
    cbn [scalar] in E; try (apply Hn in E; discriminate E); try (symmetry in E; apply Hn in E; discriminate E);
    try (exfalso; subst; tauto); try (apply Hn in E; congruence); try (symmetry in E; apply Hn in E; congruence).
  - f_equal. by apply num_text_inj.
  - by subst.
  - subst s. apply Forall_cons in P1 as [[P1 _] _]. exfalso. apply P1. unfold SPECIAL. set_solver.
  - subst s. apply Forall_cons in P1 as [[P1 _] _]. exfalso. apply P1. unfold SPECIAL. set_solver.
  - subst s'. apply Forall_cons in Q1 as [[Q1 _] _]. exfalso. apply Q1. unfold SPECIAL. set_solver.
  - subst s'. apply Forall_cons in Q1 as [[Q1 _] _]. exfalso. apply Q1. unfold SPECIAL. set_solver.
Qed.

(** A scalar is read back up to the separator. *)
Lemma scalar_delim (space : spaces) v w t t' : is_scalar v = true -> is_scalar w = true -> json_ok v -> json_ok w -> comma t -> comma t' ->
  scalar v ++ t = scalar w ++ t' -> v = w /\ t = t'.
Proof.
  intros Hv Hw Kv Kw Ht Ht' E.
  destruct (scalar_shape space v Hv Kv) as [(s & -> & Hs & Q)|[B P]], (scalar_shape space w Hw Kw) as [(s' & -> & Hs' & Q')|[B' P']].
  - rewrite Q, Q' in E. by apply quoted_inj in E as [-> ->].
  - rewrite Q in E. by destruct (bare_head _ t' _ B' (eq_sym E)).
  - rewrite Q' in E. by destruct (bare_head _ t _ B E).
  - destruct (until_inj (fun b => b <> 44 /\ b <> 10) (scalar v) (scalar w) t t') as [E1 ->]; [apply B|apply B'| | |done|].
    + destruct t; [done|]. cbn in Ht. intros [? _]. done.
    + destruct t'; [done|]. cbn in Ht'. intros [? _]. done.
    + split; [|done]. by apply reserved_bare.
Qed.

(** ** Delimited lists *)

Lemma delimited_inj {A} (f : A -> bytes) (P : A -> Prop) (stop : bytes -> Prop) :
  (forall t, stop t -> match t with [] => True | b :: _ => b <> 44 end) ->
  (forall x y t t', P x -> P y -> stop t \/ head t = Some 44 -> stop t' \/ head t' = Some 44 -> f x ++ t = f y ++ t' -> x = y /\ t = t') ->
  forall xs ys t t', Forall P xs -> Forall P ys -> (xs = [] <-> ys = []) -> stop t -> stop t' ->
  push_delimited (map f xs) ++ t = push_delimited (map f ys) ++ t' -> xs = ys /\ t = t'.
Proof.
  intros Hstop Hf.
  assert (forall xs ys t t', Forall P xs -> Forall P ys -> stop t -> stop t' ->
    concat (map (fun q => 44 :: q) (map f xs)) ++ t = concat (map (fun q => 44 :: q) (map f ys)) ++ t' -> xs = ys /\ t = t') as Hgo.
  { intros xs ys t t' Hxs. revert ys. induction Hxs as [|x xs Hx Hxs IH]; intros [|y ys] Hys Ht Ht' E; [done| | |].
    { apply Hstop in Ht. cbn in E. by subst t. }
    { apply Hstop in Ht'. cbn in E. by subst t'. }
    apply Forall_cons in Hys as [Hy Hys]. cbn [map concat] in E. rewrite <- !app_assoc in E. cbn [app] in E. injection E as E.
    apply Hf in E as [-> E]; [|done|done| |].
    - by destruct (IH ys Hys Ht Ht' E) as [-> ->].
    - destruct xs; [left; done|by right].
    - destruct ys; [left; done|by right]. }
  intros [|x xs] [|y ys] t t' Hxs Hys Hl Ht Ht' E; [by cbn in E; subst t'|by pose proof (proj1 Hl eq_refl)|by pose proof (proj2 Hl eq_refl)|].
  apply Forall_cons in Hxs as [Hx Hxs], Hys as [Hy Hys]. cbn [map push_delimited] in E. rewrite <- !app_assoc in E.
  apply Hf in E as [-> E]; [|done|done| |].
  - by destruct (Hgo xs ys t t' Hxs Hys Ht Ht' E) as [-> ->].
  - destruct xs; [left; done|by right].
  - destruct ys; [left; done|by right].
Qed.

Lemma scalars_inj (space : spaces) xs ys : Forall (fun v => is_scalar v = true /\ json_ok v) xs -> Forall (fun v => is_scalar v = true /\ json_ok v) ys ->
  length xs = length ys -> push_delimited (map scalar xs) = push_delimited (map scalar ys) -> xs = ys.
Proof.
  intros Hx Hy Hl E.
  apply (delimited_inj scalar (fun v => is_scalar v = true /\ json_ok v) (fun t => t = [])) with (t := []) (t' := []); try done.
  - by intros ? ->.
  - intros x y t t' [? ?] [? ?] Ht Ht'. apply (scalar_delim space); try done.
    + destruct Ht as [->|Ht]; [done|]. destruct t; [done|]. by injection Ht.
    + destruct Ht' as [->|Ht']; [done|]. destruct t'; [done|]. by injection Ht'.
  - by destruct xs, ys.
  - by rewrite !app_nil_r.
Qed.
End scalars.

(** Appends to the right. *)
Ltac flat := repeat (progress (rewrite <- ?app_assoc; cbn [app])).

Section lines.
Context `{L : NumberTextLaws} `{Unicode}.

(** ** The lines of an encoding *)

Definition line : Type := nat * bytes.
Definition render (l : line) : bytes := indent l.1 ++ l.2 ++ [10].
Definition renders (ls : list line) : bytes := concat (map render ls).

Definition array_head (items : list Json) : bytes :=
  if forallb is_scalar items then count items ++ [58; 32] ++ push_delimited (map scalar items)
  else match uniform_object_fields items with
       | Some fields => count items ++ [123] ++ push_delimited (map quote_if_needed fields) ++ [125; 58]
       | None => count items ++ [58]
       end.
Definition key_head (v : Json) : bytes :=
  match v with JObj (_ :: _) => [58] | JArr ((_ :: _) as items) => array_head items | _ => 58 :: 32 :: scalar v end.
Definition item_head (v : Json) : bytes :=
  match v with JObj (_ :: _) => [45] | JArr ((_ :: _) as items) => 45 :: array_head items | _ => 45 :: 32 :: scalar v end.

Fixpoint lines (v : Json) (d : nat) : list line :=
  match v with
  | JObj m => concat (map (fun p => (S d, quote_key p.1 ++ key_head p.2) :: lines p.2 (S d)) m)
  | JArr items =>
      if forallb is_scalar items then []
      else match uniform_object_fields items with
           | Some fields => map (fun x => (S d, row fields x)) items
           | None => concat (map (fun x => (S d, item_head x) :: lines x (S d)) items)
           end
  | _ => []
  end.
Definition member_lines (m : list (bytes * Json)) (d : nat) : list line :=
  concat (map (fun p => (d, quote_key p.1 ++ key_head p.2) :: lines p.2 d) m).
Definition item_lines (items : list Json) (d : nat) : list line :=
  concat (map (fun x => (d, item_head x) :: lines x d) items).

Definition root_lines (v : Json) : list line :=
  match v with
  | JObj ((_ :: _) as m) => member_lines m 0
  | JArr ((_ :: _) as items) => (0%nat, array_head items) :: lines v 0
  | _ => [(0%nat, scalar v)]
  end.

Lemma renders_app a b : renders (a ++ b) = renders a ++ renders b.
Proof. unfold renders. by rewrite map_app, concat_app. Qed.
Lemma renders_cons l b : renders (l :: b) = indent l.1 ++ l.2 ++ 10 :: renders b.
Proof. unfold renders, render. cbn [map concat]. by rewrite <- !app_assoc. Qed.

Lemma nested_lines v d : write_nested v d =
  match v with JObj _ => renders (lines v d) | JArr items => array_head items ++ 10 :: renders (lines v d) | _ => [] end.
Proof.
  revert d. induction v as [| | | |l IH|m IH] using json_ind'; intros d; try done.
  - cbn [write_nested lines]. unfold array_head. destruct (forallb is_scalar l); [by rewrite <- !app_assoc|].
    destruct (uniform_object_fields l) as [fields|].
    + rewrite <- !app_assoc. cbn [app]. do 5 f_equal. unfold renders. rewrite map_map. done.
    + rewrite <- !app_assoc. cbn [app]. do 3 f_equal. induction IH as [|x l Hx _ IHl]; [done|].
      cbn [map concat]. rewrite renders_app, renders_cons, IHl. cbn [fst snd]. unfold item_head.
      destruct x as [| | | |[|y ys]|[|y ys]]; try (unfold renders; cbn [lines map concat app]; flat; done); rewrite Hx; flat; done.
  - cbn [write_nested lines]. induction IH as [|[k x] m Hx _ IHm]; [done|]. cbn [snd] in Hx.
    cbn [map concat fst snd]. rewrite renders_app, renders_cons, IHm. cbn [fst snd]. unfold key_head.
    destruct x as [| | | |[|y ys]|[|y ys]]; try (unfold renders; cbn [lines map concat app]; flat; done); rewrite Hx; flat; done.
Qed.

Lemma to_toon_lines v : to_toon v = renders (root_lines v).
Proof.
  assert (forall s, s ++ [10] = renders [(0%nat, s)]) as Hone by (intros s; unfold renders; cbn; by rewrite app_nil_r).
  destruct v as [| | | |[|x l]|[|p m]]; try apply Hone.
  - change (to_toon (JArr (x :: l))) with (write_nested (JArr (x :: l)) 0). rewrite nested_lines. cbn [root_lines]. by rewrite renders_cons.
  - unfold to_toon, root_lines, write_object, member_lines, renders. generalize (p :: m). clear. intros m.
    induction m as [|[k x] m IH]; [done|]. cbn [map concat fst snd]. rewrite map_app, concat_app, IH. f_equal. clear IH.
    unfold write_field, write_array_after_key, render, key_head. cbn [map concat fst snd]. rewrite <- !app_assoc.
    destruct x as [| | | |[|y ys]|[|y ys]]; try (cbn [map lines concat]; flat; done); rewrite nested_lines; flat; done.
Qed.

(** ** Reading the lines back *)

Record good (l : line) : Prop := mkGood {
  go_head : match l.2 with [] => False | b :: _ => b <> 32 end;
  go_line : Forall (fun b => b <> 10) l.2;
}.

Lemma renders_inj ls ls' : Forall good ls -> Forall good ls' -> renders ls = renders ls' -> ls = ls'.
Proof.
  intros Hls. revert ls'. induction Hls as [|[d c] ls [Hc Hn] _ IH]; intros [|[d' c'] ls'] Hls' E; try done.
  - rewrite renders_cons in E. cbn [fst snd] in E. apply Forall_cons in Hls' as [[Hc' _] _]. cbn in Hc'.
    destruct (indent d'); [|done]. by destruct c'.
  - rewrite renders_cons in E. cbn [fst snd] in *. destruct (indent d); [|done]. by destruct c.
  - apply Forall_cons in Hls' as [[Hc' Hn'] Hls']. rewrite !renders_cons in E. cbn [fst snd] in *.
    destruct c as [|b c]; [done|]. destruct c' as [|b' c']; [done|].
    destruct (until_inj (fun b => b = 32) (indent d) (indent d') ((b :: c) ++ 10 :: renders ls) ((b' :: c') ++ 10 :: renders ls') ltac:(by apply Forall_replicate) ltac:(by apply Forall_replicate) Hc Hc' E) as [E1 E2].
    apply (f_equal length) in E1. unfold indent in E1. rewrite !length_replicate in E1. replace d' with d by lia.
    destruct (until_inj (fun b => b <> 10) (b :: c) (b' :: c') (10 :: renders ls) (10 :: renders ls') Hn Hn' (fun f => f eq_refl) (fun f => f eq_refl) E2) as [E3 E4].
    injection E4 as E4. rewrite E3. f_equal. by apply IH.
Qed.

(** *** The heads *)

Definition nested (v : Json) : bool := match v with JObj (_ :: _) | JArr (_ :: _) => true | _ => false end.
Lemma nested_scalar v : is_scalar v = negb (nested v).
Proof. by destruct v as [| | | |[|? ?]|[|? ?]]. Qed.

Lemma array_head_start items : exists t, array_head items = 91 :: t.
Proof. unfold array_head, count. destruct (forallb _ _); [by eexists|]. destruct (uniform_object_fields items); by eexists. Qed.

Inductive same_head : Json -> Json -> Prop :=
  | sh_obj p m q m' : same_head (JObj (p :: m)) (JObj (q :: m'))
  | sh_arr x l y l' : array_head (x :: l) = array_head (y :: l') -> same_head (JArr (x :: l)) (JArr (y :: l'))
  | sh_scalar v w : is_scalar v = true -> is_scalar w = true -> scalar v = scalar w -> same_head v w.

Lemma key_head_same v w : key_head v = key_head w -> same_head v w.
Proof.
  intros E. destruct v as [| | | |[|? ?]|[|? ?]], w as [| | | |[|? ?]|[|? ?]]; cbn [key_head] in E;
    try (by apply sh_scalar; [| |injection E]); try by constructor.
  all: try match type of E with array_head (?x :: ?l) = _ => destruct (array_head_start (x :: l)) as [t Et]; rewrite Et in E end.
  all: try match type of E with _ = array_head (?x :: ?l) => destruct (array_head_start (x :: l)) as [t Et]; rewrite Et in E end.
  all: done.
Qed.

Lemma item_head_same v w : item_head v = item_head w -> same_head v w.
Proof.
  intros E. destruct v as [| | | |[|? ?]|[|? ?]], w as [| | | |[|? ?]|[|? ?]]; cbn [item_head] in E;
    try (by apply sh_scalar; [| |injection E]); try (by constructor); injection E as E; try by constructor.
  all: try match type of E with array_head (?x :: ?l) = _ => destruct (array_head_start (x :: l)) as [t Et]; rewrite Et in E end.
  all: try match type of E with _ = array_head (?x :: ?l) => destruct (array_head_start (x :: l)) as [t Et]; rewrite Et in E end.
  all: done.
Qed.

Lemma count_inj l l' t t' : count l ++ t = count l' ++ t' -> length l = length l' /\ t = t'.
Proof.
  unfold count. cbn [app]. rewrite <- !app_assoc. cbn [app]. intros [= E].
  apply app_sep_inj in E as [E ->].
  - split; [|done]. apply display_inj in E; lia.
  - eapply Forall_impl; [apply display_digits|]. by intros ? ? ->.
  - eapply Forall_impl; [apply display_digits|]. by intros ? ? ->.
Qed.
(** *** The forms of an array *)

Lemma sorted_nodup (l : list bytes) : StronglySorted blt l -> NoDup l.
Proof.
  induction 1 as [|x l _ IH Hf]; [constructor|]. constructor; [|done]. intros Hin. rewrite Forall_forall in Hf.
  by apply (irreflexivity blt x), Hf.
Qed.

Lemma sorted_keys_unique (a b : list bytes) :
  StronglySorted blt a -> StronglySorted blt b -> (forall x, x ∈ a -> x ∈ b) -> length b = length a -> a = b.
Proof.
  intros Ha Hb Hsub Hl.
  assert (a ≡ₚ b) as Hp.
  { apply submseteq_length_Permutation; [|lia]. apply NoDup_submseteq; [by apply sorted_nodup|done]. }
  assert (forall l, StronglySorted blt l -> StronglySorted ble l) as Hle.
  { induction 1 as [|x l _ IH Hf]; [constructor|]. constructor; [done|]. eapply Forall_impl; [exact Hf|]. intros y. apply blt_ble. }
  by apply (StronglySorted_unique ble); [apply Hle|apply Hle|].
Qed.

Lemma json_get_member k x m : NoDup (map fst m) -> (k, x) ∈ m -> json_get k (JObj m) = Some x.
Proof.
  intros Hn Hin. cbn [json_get]. destruct (list_find (fun p => p.1 = k) m) as [[i [k' y]]|] eqn:E.
  - apply list_find_Some in E as (E & Hk & _). cbn in Hk. subst k'. apply list_elem_of_lookup in Hin as [j Ej].
    assert (i = j) as ->. { change (map fst m) with (fst <$> m) in Hn. eapply (NoDup_lookup _ _ _ k Hn); rewrite list_lookup_fmap; by rewrite ?E, ?Ej. }
    congruence.
  - apply list_find_None in E. rewrite Forall_forall in E. by destruct (E _ Hin).
Qed.

(** A table: every item has the columns as its keys, over scalars. *)
Lemma uniform_items items fields : uniform_object_fields items = Some fields -> Forall json_ok items ->
  fields <> [] /\ Forall (fun x => exists m, x = JObj m /\ map fst m = fields /\ StronglySorted blt fields
                            /\ Forall (fun p => is_scalar p.2 = true /\ text_ok p.1 /\ json_ok p.2) m) items.
Proof.
  unfold uniform_object_fields. destruct items as [|[| | | | |first] items]; try done. case_bool_decide as Hne; [done|].
  destruct (forallb _ _) eqn:E; [|done]. intros [= <-] Hok. split; [done|].
  assert (StronglySorted blt (map fst first)) as Hfs by (apply Forall_cons in Hok as [Hok _]; by inversion Hok).
  apply Forall_forall. intros x Hx. rewrite Forall_forall in Hok. specialize (Hok x Hx).
  rewrite forallb_forall in E. specialize (E x (proj1 (list_elem_of_In _ _) Hx)). destruct x as [| | | | |m]; try done.
  apply andb_prop in E as [El Ef]. apply bool_decide_eq_true in El. inversion Hok as [| | | | |m' Hms Hm]; subst m'.
  assert (map fst first = map fst m) as Ek.
  { apply sorted_keys_unique; [done|done| |by rewrite !length_map in *].
    intros k Hk. rewrite forallb_forall in Ef. specialize (Ef k (proj1 (list_elem_of_In _ _) Hk)). cbn [json_get] in Ef.
    destruct (list_find _ _) as [[i [k' y]]|] eqn:E; [|done]. apply list_find_Some in E as (E & Hk' & _). cbn in Hk'. subst k'.
    apply list_elem_of_In, in_map_iff. exists (k, y). split; [done|]. apply list_elem_of_In. by eapply list_elem_of_lookup_2. }
  exists m. split_and!; [done|done|done|]. apply Forall_forall. intros [k y] Hin. rewrite Forall_forall in Hm. destruct (Hm _ Hin) as [Hk Hy].
  cbn [fst snd] in *. split_and!; [|done|done].
  rewrite forallb_forall in Ef. specialize (Ef k). rewrite Ek in Ef.
  rewrite (json_get_member k y m) in Ef; [apply Ef| |done].
  - apply in_map_iff. exists (k, y). split; [done|]. by apply list_elem_of_In.
  - by apply sorted_nodup.
Qed.
End lines.

Section read.
Context `{L : NumberTextLaws} `{Unicode}.

Lemma is_special_byte b : bool_decide (b ∈ SPECIAL) = true -> b ∈ SPECIAL.
Proof. apply bool_decide_eq_true_1. Qed.

(** After the name of a column comes the next one or the end of the head. *)
Lemma column_ended t : t = [125; 58] \/ head t = Some 44 -> ended t.
Proof. intros [->|Ht]; [by apply is_special_byte|]. destruct t; [done|]. injection Ht as ->. by apply is_special_byte. Qed.

Lemma array_head_same (space : spaces) xs ys : Forall json_ok xs -> Forall json_ok ys -> array_head xs = array_head ys ->
  length xs = length ys /\
  (forallb is_scalar xs = true /\ xs = ys
   \/ forallb is_scalar xs = false /\ forallb is_scalar ys = false /\ uniform_object_fields xs = uniform_object_fields ys).
Proof.
  intros Hx Hy E. unfold array_head in E.
  assert (forall l, Forall json_ok l -> forallb is_scalar l = true -> Forall (fun v => is_scalar v = true /\ json_ok v) l) as Hf.
  { intros l Hl Hs. apply Forall_and. split; [|done]. apply Forall_forall. intros v Hv. rewrite forallb_forall in Hs. by apply Hs, list_elem_of_In. }
  destruct (forallb is_scalar xs) eqn:Ex, (forallb is_scalar ys) eqn:Ey.
  - apply count_inj in E as [El E]. apply app_inv_head in E. split; [done|]. left. split; [done|]. apply (scalars_inj space); auto.
  - exfalso. destruct (uniform_object_fields ys); apply count_inj in E as [_ E]; discriminate E.
  - exfalso. destruct (uniform_object_fields xs); apply count_inj in E as [_ E]; discriminate E.
  - destruct (uniform_object_fields xs) as [f|] eqn:Ux, (uniform_object_fields ys) as [g|] eqn:Uy; apply count_inj in E as [El E]; try discriminate E;
      (split; [done|right; split_and!; [done|done|]]); [|done].
    f_equal. destruct (uniform_items _ _ Ux Hx) as [Hnf Hfx], (uniform_items _ _ Uy Hy) as [Hng Hgy].
    injection E as E. apply (delimited_inj quote_if_needed text_ok (fun t => t = [125; 58])) in E as [E _]; [done| | | | | |done|done].
    + by intros ? ->.
    + intros x y t t' Kx Ky Ht Ht'. apply (quote_delim space); [done|done| |].
      * by apply column_ended.
      * by apply column_ended.
    + destruct xs as [|x xs]; [done|]. apply Forall_cons in Hfx as [(m & _ & <- & _ & Hm) _].
      apply Forall_map. eapply Forall_impl; [exact Hm|]. by intros p (_ & ? & _).
    + destruct ys as [|x ys]; [done|]. apply Forall_cons in Hgy as [(m & _ & <- & _ & Hm) _].
      apply Forall_map. eapply Forall_impl; [exact Hm|]. by intros p (_ & ? & _).
    + split; intros ->; done.
Qed.

Lemma row_values m fields : map fst m = fields -> NoDup fields -> row fields (JObj m) = push_delimited (map scalar (map snd m)).
Proof.
  intros <- Hn. unfold row. f_equal. rewrite (map_map snd scalar).
  assert (forall l, (forall p, p ∈ l -> p ∈ m) -> map (cell (JObj m)) (map fst l) = map (fun p => scalar p.2) l) as Hl; [|by apply Hl].
  induction l as [|[k x] l IH]; intros Hin; [done|]. cbn [map fst snd]. rewrite IH by (intros p Hp; apply Hin; by right).
  f_equal. unfold cell. by rewrite (json_get_member k x m) by (auto; apply Hin; by left).
Qed.

Lemma rows_inj (space : spaces) fields xs ys d R R' :
  uniform_object_fields xs = Some fields -> uniform_object_fields ys = Some fields -> Forall json_ok xs -> Forall json_ok ys ->
  length xs = length ys ->
  map (fun x => (S d, row fields x)) xs ++ R = map (fun x => (S d, row fields x)) ys ++ R' -> xs = ys /\ R = R'.
Proof.
  intros Ux Uy Hx Hy Hl. apply uniform_items in Ux as [_ Fx], Uy as [_ Fy]; [|done|done]. clear Hx Hy. revert ys Fy Hl.
  induction Fx as [|x xs (m & -> & Hk & Hs & Hm) _ IH]; intros [|y ys] Fy Hl E; try done.
  apply Forall_cons in Fy as [(m' & -> & Hk' & _ & Hm') Fy]. cbn [map app] in E. injection E as E1 E2. injection Hl as Hl.
  destruct (IH ys Fy Hl E2) as [-> ->]. split; [|done]. do 2 f_equal.
  rewrite !row_values in E1 by (done || by apply sorted_nodup). apply (scalars_inj space) in E1.
  - clear -E1 Hk Hk'. revert m' E1 Hk'. rewrite <- Hk. clear. induction m as [|[k v] m IH]; intros [|[k' v'] m'] E1 E2; try done.
    cbn in E1, E2. injection E1 as -> E1. injection E2 as -> E2. f_equal. by apply IH.
  - apply Forall_map. eapply Forall_impl; [exact Hm|]. by intros p (? & _ & ?).
  - apply Forall_map. eapply Forall_impl; [exact Hm'|]. by intros p (? & _ & ?).
  - rewrite !length_map, <- (length_map fst m), <- (length_map fst m'). by rewrite Hk, Hk'.
Qed.

Definition shallow (d : nat) (R : list line) : Prop := match R with [] => True | l :: _ => (l.1 <= d)%nat end.

Lemma member_split k s k' s' (space : spaces) : text_ok k -> text_ok k' -> quote_key k ++ key_head s = quote_key k' ++ key_head s' ->
  k = k' /\ key_head s = key_head s'.
Proof.
  intros Hk Hk' E. unfold quote_key in E. apply (quote_delim space) in E; [done|done|done| |].
  - destruct s as [| | | |[|x l]|[|p m]]; try (cbn; unfold SPECIAL; set_solver). cbn [key_head].
    destruct (array_head_start (x :: l)) as [t ->]. cbn. unfold SPECIAL. set_solver.
  - destruct s' as [| | | |[|x l]|[|p m]]; try (cbn; unfold SPECIAL; set_solver). cbn [key_head].
    destruct (array_head_start (x :: l)) as [t ->]. cbn. unfold SPECIAL. set_solver.
Qed.

(** The members, or the items, that start at one depth. *)
Section blocks.
Context {A : Type} (val : A -> Json) (lead : A -> bytes) (ok : A -> Prop) (d : nat).
Hypothesis lead_inj : forall a b, ok a -> ok b -> lead a = lead b -> same_head (val a) (val b) /\ (val a = val b -> a = b).
Definition block_lines (l : list A) : list line := concat (map (fun a => (d, lead a) :: lines (val a) d) l).

Lemma blocks_inj l l' R R' :
  Forall (fun a => ok a /\ forall w R R', json_ok w -> same_head (val a) w -> lines (val a) d ++ R = lines w d ++ R' ->
                     shallow d R -> shallow d R' -> val a = w /\ R = R') l ->
  Forall (fun a => ok a /\ json_ok (val a)) l' ->
  match R with [] => True | r :: _ => (r.1 < d)%nat end -> match R' with [] => True | r :: _ => (r.1 < d)%nat end ->
  block_lines l ++ R = block_lines l' ++ R' -> l = l' /\ R = R'.
Proof.
  intros Hl. revert l'.
  assert (forall l R, match R with [] => True | r :: _ => (r.1 < d)%nat end -> shallow d (block_lines l ++ R)) as Hsh.
  { intros [|a l0] R0 HR; [|by cbn]. cbn. destruct R0; [done|]. cbn in *. lia. }
  induction Hl as [|a l [Ha IHa] _ IH]; intros [|b l'] Hl' HR HR' E.
  - done.
  - cbn in E. subst R. cbn in HR. lia.
  - cbn in E. subst R'. cbn in HR'. lia.
  - apply Forall_cons in Hl' as [[Hb Kb] Hl']. unfold block_lines in E. cbn [map concat app] in E. injection E as E1 E2.
    rewrite <- !app_assoc in E2. destruct (lead_inj a b Ha Hb E1) as [Hsame Hval].
    destruct (IHa (val b) _ _ Kb Hsame E2) as [Ev E3]; [by apply Hsh|by apply Hsh|].
    destruct (IH l' Hl' HR HR' E3) as [-> ->]. by rewrite (Hval Ev).
Qed.
End blocks.

Lemma members_inj (space : spaces) d m m' R R' :
  Forall (fun p => (text_ok p.1 /\ json_ok p.2) /\ forall w R R', json_ok w -> same_head p.2 w ->
    lines p.2 d ++ R = lines w d ++ R' -> shallow d R -> shallow d R' -> p.2 = w /\ R = R') m ->
  Forall (fun p => text_ok p.1 /\ json_ok p.2) m' ->
  match R with [] => True | r :: _ => (r.1 < d)%nat end -> match R' with [] => True | r :: _ => (r.1 < d)%nat end ->
  member_lines m d ++ R = member_lines m' d ++ R' -> m = m' /\ R = R'.
Proof.
  intros Hm Hm'. apply (blocks_inj snd (fun p => quote_key p.1 ++ key_head p.2) (fun p => text_ok p.1 /\ json_ok p.2) d); [|done|].
  - intros [k a] [k' b] [Hk _] [Hk' _] E. cbn [fst snd] in *. apply (member_split _ _ _ _ space) in E as [-> E]; [|done|done].
    split; [by apply key_head_same|]. by intros ->.
  - eapply Forall_impl; [exact Hm'|]. intros p [? ?]. done.
Qed.

Lemma lines_inj (space : spaces) v : json_ok v -> forall w d R R', json_ok w -> same_head v w ->
  lines v d ++ R = lines w d ++ R' -> shallow d R -> shallow d R' -> v = w /\ R = R'.
Proof.
  assert (forall v w d (R R' : list line), is_scalar v = true -> is_scalar w = true -> scalar v = scalar w -> json_ok v -> json_ok w ->
    lines v d ++ R = lines w d ++ R' -> v = w /\ R = R') as Hscalar.
  { intros v0 w d R R' Hv Hw E Kv Kw El. destruct (scalar_delim space v0 w [] []) as [-> _]; try done; [by rewrite !app_nil_r|].
    split; [done|]. by apply app_inv_head in El. }
  assert (forall d (R : list line), shallow d R -> match R with [] => True | r :: _ => (r.1 < S d)%nat end) as Hsh.
  { intros d [|r R]; [done|]. cbn. lia. }
  induction v as [| | | |l IH|m IH] using json_ind'; intros Kv w d R R' Kw Hsame El HR HR';
    inversion Hsame as [p1 m1 q2 m2 E1 E2|x1 l1 y2 l2 Eh E1 E2|v1 w1 Hv Hw Es E1 E2]; subst; try (by eapply Hscalar).
  - inversion Kv as [| | | |? Kl|]; inversion Kw as [| | | |? Kl'|]; subst. cbn [lines] in El.
    destruct (array_head_same space _ _ Kl Kl' Eh) as [Hlen [[Hs Heq]|(Hs & Hs' & Hu)]].
    + injection Heq as -> ->. split; [done|]. by apply app_inv_head in El.
    + rewrite Hs, Hs', <- Hu in El. destruct (uniform_object_fields (x1 :: l1)) as [fields|] eqn:Eu.
      * apply (rows_inj space fields) in El as [Heq ->]; [|done|done|done|done|done]. by rewrite Heq.
      * apply (blocks_inj id item_head json_ok (S d)) in El as [Heq ->]; [by rewrite Heq| | | |by apply Hsh|by apply Hsh].
        -- intros a b _ _ E. split; [by apply item_head_same|done].
        -- apply Forall_forall. intros a Ha. rewrite Forall_forall in IH, Kl. split; [by apply Kl|]. intros. apply (IH a Ha) with (d := S d); auto.
        -- eapply Forall_impl; [exact Kl'|]. done.
  - inversion Kv as [| | | | |? Sm Km]; inversion Kw as [| | | | |? Sm' Km']; subst. cbn [lines] in El.
    apply (members_inj space (S d)) in El as [Heq ->]; [by rewrite Heq| |done|by apply Hsh|by apply Hsh].
    apply Forall_forall. intros a Ha. rewrite Forall_forall in IH, Km. split; [by apply Km|]. intros. apply (IH a Ha) with (d := S d); auto. by apply Km.
Qed.

Lemma member_lines_inj (space : spaces) m m' d R R' :
  Forall (fun p => text_ok p.1 /\ json_ok p.2) m -> Forall (fun p => text_ok p.1 /\ json_ok p.2) m' ->
  match R with [] => True | r :: _ => (r.1 < d)%nat end -> match R' with [] => True | r :: _ => (r.1 < d)%nat end ->
  member_lines m d ++ R = member_lines m' d ++ R' -> m = m' /\ R = R'.
Proof.
  intros Km Km'. apply (members_inj space d); [|done]. eapply Forall_impl; [exact Km|]. intros p Hp. split; [done|].
  intros w R0 R0'. by apply lines_inj, Hp.
Qed.
End read.

Section good.
Context `{L : NumberTextLaws} `{Unicode}.

(** *** No line is cut or starts with a space *)

Abbreviation inline := (Forall (fun b : Z => b <> 10)).

Lemma quote_good (space : spaces) s t : text_ok s -> inline t -> good (0%nat, quote_if_needed s ++ t).
Proof.
  intros Hs Ht. destruct (quote_shape space s Hs) as [-> | [-> P]].
  - split; [done|]. cbn [snd app]. constructor; [done|]. rewrite <- app_assoc. apply Forall_app. split; [|by constructor].
    pose proof (text_chars s Hs) as Hc. revert Hc. generalize (chars s). induction l as [|c l IH]; intros Hc; [constructor|].
    apply Forall_cons in Hc as [(H1' & H2' & H3') Hc]. cbn [map concat]. apply Forall_app. split; [|by apply IH].
    destruct (escape_cases c H1' H2' H3') as [[E _]|[(x & E & _ & b & ->)|[E Hctl]]].
    + rewrite E. destruct (is_char_cases c H1' H2') as [(b & -> & _)|[Hf _]].
      * constructor; [|done]. by intros ->.
      * eapply Forall_impl; [exact Hf|]. cbn. lia.
    + unfold escape in E |- *. repeat case_bool_decide; repeat constructor; try done. destruct (is_control [b]); [done|].
      by constructor; [congruence|].
    + rewrite E. constructor; [done|]. constructor; [done|]. unfold hex4. apply Forall_map.
      apply Forall_forall. intros i _. unfold hex_digit. case_match; [|pose proof (Z.mod_pos_bound (control_point c / 16 ^ i) 16)]; 
        pose proof (Z.mod_pos_bound (control_point c / 16 ^ i) 16); lia.
  - destruct P as [Hb Hh _ _]. split; cbn [snd].
    + destruct s; [done|]. by destruct Hh.
    + apply Forall_app. split; [|done]. eapply Forall_impl; [exact Hb|]. by intros ? [].
Qed.

Lemma good_depth d d' c : good (d, c) -> good (d', c).
Proof. by intros []. Qed.
Lemma good_inline d c : good (d, c) -> inline c.
Proof. by intros []. Qed.

Lemma scalar_good (space : spaces) v t : is_scalar v = true -> json_ok v -> inline t -> good (0%nat, scalar v ++ t).
Proof.
  intros Hv Kv Ht. destruct v as [|[]|n|s|[|? ?]|[|? ?]]; try done; try (by split; [|repeat (constructor; [done|])]).
  - destruct (numeric_bare _ (num_text_numeric n)) as [Hh Hc]. split; cbn [snd].
    + cbn [scalar]. destruct (num_text n); [done|]. by destruct Hh.
    + apply Forall_app. split; [|done]. eapply Forall_impl; [exact Hc|]. by intros ? [].
  - inversion_clear Kv. by apply quote_good.
Qed.

Lemma delimited_good {A} (f : A -> bytes) l t : l <> [] -> inline t -> Forall (fun a => forall t, inline t -> good (0%nat, f a ++ t)) l ->
  good (0%nat, push_delimited (map f l) ++ t).
Proof.
  intros Hn Ht Hl. destruct l as [|a l]; [done|]. apply Forall_cons in Hl as [Ha Hl]. cbn [map push_delimited].
  rewrite <- app_assoc. apply Ha. clear Ha Hn. induction Hl as [|b l Hb _ IH]; [done|]. cbn [map concat]. rewrite <- app_assoc.
  cbn [app]. constructor; [done|]. eapply good_inline, Hb. exact IH.
Qed.

Lemma count_inline l t : inline t -> inline (count l ++ t).
Proof.
  intros Ht. unfold count. cbn [app]. constructor; [done|]. rewrite <- app_assoc. apply Forall_app. split; [|by constructor].
  eapply Forall_impl; [apply display_digits|]. by intros ? ? ->.
Qed.

Lemma array_head_inline (space : spaces) l : l <> [] -> Forall json_ok l -> inline (array_head l).
Proof.
  intros Hn Kl. unfold array_head. destruct (forallb is_scalar l) eqn:E.
  - apply count_inline. constructor; [done|]. constructor; [done|]. rewrite <- (app_nil_r (push_delimited _)).
    eapply good_inline, delimited_good; [done|done|]. apply Forall_forall. intros v Hv t Ht. rewrite forallb_forall in E. rewrite Forall_forall in Kl.
    apply scalar_good; [done|by apply E, list_elem_of_In|by apply Kl|done].
  - destruct (uniform_object_fields l) as [fields|] eqn:Eu; apply count_inline; [|by repeat constructor].
    constructor; [done|]. apply uniform_items in Eu as [Hnf Hf]; [|done]. eapply good_inline, delimited_good; [done|by repeat constructor|].
    destruct l as [|x l]; [done|]. apply Forall_cons in Hf as [(m & _ & <- & _ & Hm) _]. apply Forall_map.
    eapply Forall_impl; [exact Hm|]. intros p (_ & Hp & _) t Ht. by apply quote_good.
Qed.

Lemma key_head_inline (space : spaces) v : json_ok v -> inline (key_head v).
Proof.
  intros Kv. destruct v as [|b|n|s|[|x l]|[|p m]]; try (by repeat constructor); try (unfold key_head; constructor; [done|constructor; [done|]];
    rewrite <- (app_nil_r (scalar _)); eapply good_inline, scalar_good; done).
  cbn [key_head]. apply array_head_inline; [done|done|]. by inversion Kv.
Qed.

Lemma lines_good (space : spaces) v d : json_ok v -> Forall good (lines v d).
Proof.
  revert d. induction v as [| | | |l IH|m IH] using json_ind'; intros d Kv; try constructor.
  - inversion Kv as [| | | |? Kl|]; subst. cbn [lines]. destruct (forallb is_scalar l); [constructor|].
    destruct (uniform_object_fields l) as [fields|] eqn:Eu.
    + apply uniform_items in Eu as [Hnf Hf]; [|done]. apply Forall_map. eapply Forall_impl; [exact Hf|].
      intros x (m & -> & <- & Hs & Hm). rewrite row_values by (done || by apply sorted_nodup). apply (good_depth 0).
      rewrite <- (app_nil_r (push_delimited _)). apply delimited_good; [by destruct m|done|].
      apply Forall_map. eapply Forall_impl; [exact Hm|]. intros p (? & _ & ?) t Ht. by apply scalar_good.
    + clear Eu Kv. induction IH as [|x l Hx _ IHl]; [constructor|]. apply Forall_cons in Kl as [Kx Kl]. cbn [map concat]. apply Forall_app.
      split; [constructor; [|by apply Hx]|by apply IHl]. pose proof (key_head_inline space x Kx) as Hk.
      destruct x as [|b|n|s|[|y l0]|[|p m]]; cbn [key_head item_head] in *; try (apply Forall_cons in Hk as [_ Hk]); split; try done; by constructor.
  - inversion Kv as [| | | | |? Sm Km]; subst. cbn [lines]. clear Kv Sm.
    induction IH as [|[k x] m Hx _ IHm]; [constructor|]. apply Forall_cons in Km as [[Kk Kx] Km]. cbn [map concat fst snd]. apply Forall_app.
    split; [constructor; [|by apply Hx]|by apply IHm]. apply (good_depth 0). apply quote_good; [done|done|]. by apply key_head_inline.
Qed.

Lemma root_lines_good (space : spaces) v : json_ok v -> Forall good (root_lines v).
Proof.
  intros Kv. destruct v as [|b|n|s|[|x l]|[|p m]]; try (constructor; [|constructor]; rewrite <- (app_nil_r (scalar _)); by apply scalar_good).
  - pose proof (array_head_inline space (x :: l)) as Ha. destruct (array_head_start (x :: l)) as [t Et]. cbn [root_lines].
    constructor; [split; cbn [snd]; [by rewrite Et|apply Ha; [done|by inversion Kv]]|]. by apply lines_good.
  - inversion Kv as [| | | | |? Sm Km]; subst. cbn [root_lines]. clear Kv Sm. unfold member_lines.
    induction Km as [|[k x] m' [Kk Kx] _ IHm]; [constructor|]. cbn [map concat fst snd]. apply Forall_app. split; [|done].
    constructor; [|by apply lines_good]. apply (good_depth 0), quote_good; [done|done|]. by apply key_head_inline.
Qed.

(** *** Scalars, arrays and objects at the root *)

Lemma array_head_length l : (3 <= length (array_head l))%nat.
Proof.
  unfold array_head, count. destruct (forallb _ _); [|destruct (uniform_object_fields l)]; cbn [length app]; rewrite ?length_app; cbn [length]; lia.
Qed.

Lemma quote_start (space : spaces) s t : text_ok s -> exists b l, quote_if_needed s ++ t = b :: l /\ (b = 34 \/ b ∉ SPECIAL).
Proof.
  intros Hs. destruct (quote_shape space s Hs) as [-> | [-> [Hb Hh _ _]]]; [eexists _, _; split; [done|by left]|].
  destruct s as [|b s]; [done|]. apply Forall_cons in Hb as [[Hb _] _]. eexists _, _. split; [done|by right].
Qed.

Lemma number_special n b : b ∈ num_text n -> b ∉ SPECIAL.
Proof.
  intros Hb Hs. pose proof (numeric_bytes _ (num_text_numeric n)) as Hn. rewrite Forall_forall in Hn. destruct (Hn b Hb) as [Hd|Hm].
  - unfold SPECIAL in Hs. repeat (apply elem_of_cons in Hs as [->|Hs]; [done|]). by apply elem_of_nil in Hs.
  - unfold SPECIAL in Hs. repeat (apply elem_of_cons in Hs as [->|Hs]; [by apply (bool_decide_eq_true_2 _) in Hm|]). by apply elem_of_nil in Hs.
Qed.

Lemma scalar_not_array (space : spaces) v l : is_scalar v = true -> json_ok v -> scalar v <> array_head l.
Proof.
  intros Hv Kv E. pose proof (array_head_length l) as Hl. destruct (array_head_start l) as [t Et]. rewrite Et in E, Hl.
  destruct v as [|[]|n|s|[|? ?]|[|? ?]]; try done; cbn [scalar] in E.
  - apply (number_special n 91); [rewrite E; by left|by apply is_special_byte].
  - inversion_clear Kv. destruct (quote_start space s []) as (b & r & Eq & Hb); [done|]. rewrite app_nil_r, E in Eq. injection Eq as <- _.
    destruct Hb as [Hb|Hb]; [done|]. by apply Hb, is_special_byte.
  - injection E as <-. cbn in Hl. lia.
Qed.

Lemma key_head_start v : exists b t, key_head v = b :: t /\ b ∈ [58; 91].
Proof.
  destruct v as [| | | |[|x l]|[|p m]]; try (eexists _, _; split; [done|by left]). cbn [key_head].
  destruct (array_head_start (x :: l)) as [t ->]. eexists _, _. split; [done|by right; left].
Qed.

Lemma scalar_not_member (space : spaces) v k x : is_scalar v = true -> json_ok v -> text_ok k -> scalar v <> quote_key k ++ key_head x.
Proof.
  intros Hv Kv Kk E. destruct (key_head_start x) as (b & t & Et & Hb). rewrite Et in E.
  assert (b ∈ SPECIAL) as Hs by (apply elem_of_cons in Hb as [->|Hb]; [|apply list_elem_of_singleton in Hb as ->]; by apply is_special_byte).
  destruct (quote_start space k (b :: t) Kk) as (c & r & Eq & Hc). unfold quote_key in E.
  assert (b ∈ scalar v) as Hin by (rewrite E; apply elem_of_app; right; by left).
  destruct v as [|[]|n|s|[|? ?]|[|? ?]]; try done; cbn [scalar] in *.
  - by apply (bool_decide_eq_true_2 _) in Hin; apply elem_of_cons in Hb as [->|Hb]; [|apply list_elem_of_singleton in Hb as ->].
  - by apply (bool_decide_eq_true_2 _) in Hin; apply elem_of_cons in Hb as [->|Hb]; [|apply list_elem_of_singleton in Hb as ->].
  - by apply (bool_decide_eq_true_2 _) in Hin; apply elem_of_cons in Hb as [->|Hb]; [|apply list_elem_of_singleton in Hb as ->].
  - by apply (number_special n b).
  - inversion_clear Kv. rewrite <- (app_nil_r (quote_if_needed s)) in E. by apply (quote_delim space) in E as [_ E].
  - rewrite <- E in Eq. injection Eq as <- _. destruct Hc as [Hc|Hc]; [done|]. by apply Hc, is_special_byte.
  - rewrite <- E in Eq. injection Eq as <- _. destruct Hc as [Hc|Hc]; [done|]. by apply Hc, is_special_byte.
Qed.

Lemma array_not_member (space : spaces) l k x : text_ok k -> array_head l <> quote_key k ++ key_head x.
Proof.
  intros Kk E. destruct (array_head_start l) as [t Et]. destruct (quote_start space k (key_head x) Kk) as (c & r & Eq & Hc).
  unfold quote_key in E. rewrite Eq, Et in E. injection E as <- _. destruct Hc as [Hc|Hc]; [done|]. by apply Hc, is_special_byte.
Qed.

Lemma root_same (space : spaces) v w : json_ok v -> json_ok w -> root_lines v = root_lines w -> same_head v w.
Proof.
  intros Kv Kw E.
  assert (forall v, is_scalar v = true -> root_lines v = [(0%nat, scalar v)]) as Hs by (by intros [| | | |[]|[]]).
  assert (forall p m, json_ok (JObj (p :: m)) -> exists ls, root_lines (JObj (p :: m)) = (0%nat, quote_key p.1 ++ key_head p.2) :: ls /\ text_ok p.1) as Hm.
  { intros p m K. inversion K as [| | | | |? _ Km]; subst. apply Forall_cons in Km as [[Hp _] _]. by eexists. }
  destruct (is_scalar v) eqn:Ev, (is_scalar w) eqn:Ew.
  - rewrite (Hs v Ev), (Hs w Ew) in E. injection E as E. by apply sh_scalar.
  - exfalso. rewrite (Hs v Ev) in E. destruct w as [| | | |[|y l]|[|q m]]; try done.
    + injection E as E. by eapply scalar_not_array.
    + destruct (Hm q m Kw) as (ls & Er & Kq). rewrite Er in E. injection E as E _. by eapply scalar_not_member.
  - exfalso. rewrite (Hs w Ew) in E. destruct v as [| | | |[|y l]|[|q m]]; try done.
    + injection E as E. by eapply scalar_not_array.
    + destruct (Hm q m Kv) as (ls & Er & Kq). rewrite Er in E. injection E as E _. by eapply scalar_not_member.
  - destruct v as [| | | |[|x l]|[|p m]]; try done; destruct w as [| | | |[|y l']|[|q m']]; try done.
    + injection E as E. by constructor.
    + destruct (Hm q m' Kw) as (ls & Er & Kq). rewrite Er in E. injection E as E. exfalso. by eapply array_not_member.
    + destruct (Hm p m Kv) as (ls & Er & Kq). rewrite Er in E. injection E as E. exfalso. by eapply array_not_member.
    + constructor.
Qed.

(** C35: The encoding is lossless: distinct values have distinct texts. *)
Theorem toon_lossless (v w : Json) : u_whitespace [32] = true -> json_ok v -> json_ok w -> to_toon v = to_toon w -> v = w.
Proof.
  intros space Kv Kw E. rewrite !to_toon_lines in E. apply renders_inj in E; [|by apply root_lines_good..].
  pose proof (root_same space v w Kv Kw E) as Hsame.
  inversion Hsame as [p1 m1 q2 m2 E1 E2|x1 l1 y2 l2 Eh E1 E2|v1 w1 Hv Hw Es E1 E2]; subst.
  - inversion Kv as [| | | | |? Sm Km]; inversion Kw as [| | | | |? Sm' Km']; subst.
    destruct (member_lines_inj space (p1 :: m1) (q2 :: m2) 0 [] []) as [-> _]; try done. by rewrite !app_nil_r.
  - injection E as _ E. destruct (lines_inj space _ Kv _ 0 [] [] Kw Hsame) as [-> _]; try done. by rewrite !app_nil_r.
  - destruct (scalar_delim space v w [] []) as [-> _]; try done. by rewrite Es.
Qed.
End good.

(** ** One printer of numbers, to evaluate the encoder with *)

Section Printer.
#[local] Existing Instances plain_number ascii_unicode.

Lemma consume_digits_app s t : Forall (fun b => is_ascii_digit b = true) s ->
  match t with [] => True | b :: _ => is_ascii_digit b = false end -> consume_digits (s ++ t) = (bool_decide (s <> []), t).
Proof.
  intros Hs Ht. induction Hs as [|b s Hb _ IH]; cbn [app].
  - destruct t as [|b t]; [done|]. cbn. by rewrite Ht.
  - cbn [consume_digits]. by rewrite Hb, IH.
Qed.

Lemma pretty_go_nonempty x s : s <> EmptyString -> pretty.pretty_N_go x s <> EmptyString.
Proof.
  revert s. induction (N.lt_wf_0 x) as [x _ IH]; intros s Hs. destruct (decide (x = 0)%N) as [->|Hx]; [done|].
  rewrite pretty.pretty_N_go_step by lia. apply IH; [by apply N.div_lt; lia|done].
Qed.

Lemma display_nonempty n : display n <> [].
Proof.
  unfold display, pretty.pretty, pretty.pretty_N. case_decide as Hn; [done|]. rewrite pretty.pretty_N_go_step by lia.
  intros E. apply (pretty_go_nonempty (Z.to_N n `div` 10) (String (pretty.pretty_N_char (Z.to_N n `mod` 10)) "")); [done|].
  by apply str_inj.
Qed.

#[local] Instance plain_text : NumberText := fun n =>
  match `n with PosInt n => display n | NegInt n => 45 :: display (- n) | Float x => display (f64_to_bits x) ++ str ".0" end.

Lemma digits_numeric neg n frac : frac = [] \/ frac = str ".0" -> looks_numeric ((if neg : bool then [45] else []) ++ display n ++ frac) = true.
Proof.
  intros Hf. unfold looks_numeric. pose proof (display_digits n) as Hd. pose proof (display_nonempty n) as Hn.
  assert (default ((if neg then [45] else []) ++ display n ++ frac) (strip 45 ((if neg then [45] else []) ++ display n ++ frac)) = display n ++ frac) as ->.
  { destruct neg; [done|]. destruct (display n) as [|b l]; [done|]. apply Forall_cons in Hd as [Hb _]. cbn. by destruct (Z.eqb_spec b 45) as [->|]. }
  rewrite consume_digits_app; [|done|by destruct Hf as [->| ->]]. rewrite bool_decide_true by done. by destruct Hf as [->| ->].
Qed.

Lemma f64_to_bits_bounds x : f64_valid x = true -> 0 <= f64_to_bits x.
Proof.
  intros Hv. unfold f64_to_bits, to_bits. pose proof (fun H1 H2 H3 H4 => mag_bits_bounds 53 1024 52 11 H1 H2 H3 H4 x Hv) as Hm.
  unfold f64_prec, f64_emax. destruct Hm as [Hm _]; [lia..|]. destruct (sign_of x); lia.
Qed.

#[local] Instance plain_text_laws : NumberTextLaws.
Proof.
  split.
  - intros [a Ha] [b Hb] E. cut (a = b); [intros ->; f_equal; apply (proof_irrel Ha Hb)|].
    unfold num_text, plain_text in E. cbn [proj1_sig] in E.
    assert (forall n x t, Forall (fun c => is_ascii_digit c = true) t -> display n ++ x = 45 :: t -> False) as Hneg.
    { intros n x t _ E'. pose proof (display_digits n) as Hd. pose proof (display_nonempty n) as Hn.
      destruct (display n) as [|c l]; [done|]. injection E' as -> _. by apply Forall_cons in Hd as [Hd _]. }
    assert (forall n k, display n = display k ++ str ".0" -> False) as Hdot.
    { intros n k E'. pose proof (display_digits n) as Hd. rewrite E' in Hd. apply Forall_app in Hd as [_ Hd]. by apply Forall_cons in Hd as [Hd _]. }
    destruct a as [n|n|x], b as [m|m|y]; cbn in Ha, Hb; repeat match goal with H : _ && _ = true |- _ => apply andb_prop in H as [? ?] end.
    + f_equal. apply display_inj in E; lia.
    + rewrite <- (app_nil_r (display n)) in E. by destruct (Hneg n [] (display (- m)) (display_digits _) E).
    + by destruct (Hdot n (f64_to_bits y) E).
    + symmetry in E. rewrite <- (app_nil_r (display m)) in E. by destruct (Hneg m [] (display (- n)) (display_digits _) E).
    + injection E as E. f_equal. apply display_inj in E; lia.
    + symmetry in E. by destruct (Hneg _ _ _ (display_digits (- n)) E).
    + symmetry in E. by destruct (Hdot m (f64_to_bits x) E).
    + by destruct (Hneg _ _ _ (display_digits (- m)) E).
    + apply app_inv_tail, display_inj in E; [|by apply f64_to_bits_bounds..]. f_equal.
      rewrite <- (f64_from_to_bits x), <- (f64_from_to_bits y), E; try done; by destruct x, y.
  - intros [[n|n|x] Hn]; unfold num_text, plain_text; cbn [proj1_sig].
    + rewrite <- (app_nil_r (display n)). by apply (digits_numeric false); left.
    + rewrite <- (app_nil_r (display (- n))). by apply (digits_numeric true); left.
    + by apply (digits_numeric false); right.
Qed.

(** The tests of the encoder. *)
Definition num (n : Z) (Hn : plain_num_ok (PosInt n) = true) : Json := JNum (exist _ (PosInt n) Hn).
Definition user (id : Z) (Hid : plain_num_ok (PosInt id) = true) (name : string) : Json := JObj [(str "id", num id Hid); (str "name", JStr (str name))].
Definition users : Json := JObj [(str "users", JArr [user 1 eq_refl "Ada"; user 2 eq_refl "Linus"])].
Definition mixed : Json := JObj [(str "mixed", JArr [JObj [(str "id", num 1 eq_refl)]; num 7 eq_refl; JStr (str "x")])].

Example toon_table : to_toon users = str "users[2]{id,name}:" ++ [10] ++ str "  1,Ada" ++ [10] ++ str "  2,Linus" ++ [10].
Proof. vm_compute. reflexivity. Qed.
Example toon_list :
  to_toon mixed = str "mixed[3]:" ++ [10] ++ str "  -" ++ [10] ++ str "    id: 1" ++ [10] ++ str "  - 7" ++ [10] ++ str "  - x" ++ [10].
Proof. vm_compute. reflexivity. Qed.
Example toon_strings :
  map quote_if_needed [str "plain"; str "has: colon"; str "42"; str "-x"; str "true"; []]
  = [str "plain"; [34] ++ str "has: colon" ++ [34]; [34] ++ str "42" ++ [34]; [34] ++ str "-x" ++ [34]; [34] ++ str "true" ++ [34]; [34; 34]].
Proof. vm_compute. reflexivity. Qed.

Lemma users_ok : json_ok users.
Proof.
  assert (forall s, valid_utf8 s = true -> forallb (fun b => (0 <=? b) && (b <? 256)) s = true -> text_ok s) as Ht.
  { intros s Hv Hb. split; [done|]. apply Forall_forall. intros b Hin. rewrite forallb_forall in Hb. apply list_elem_of_In, Hb in Hin. unfold is_byte. lia. }
  assert (forall id Hid name, text_ok (str name) -> json_ok (user id Hid name)) as Hu.
  { intros id Hid name Hn. constructor; [repeat constructor; reflexivity|]. apply Forall_cons_2; [split; [by apply Ht|constructor]|].
    apply Forall_cons_2; [split; [by apply Ht|by constructor]|constructor]. }
  constructor; [repeat constructor|]. apply Forall_singleton. split; [by apply Ht|]. constructor.
  apply Forall_cons_2; [by apply Hu, Ht|]. apply Forall_cons_2; [by apply Hu, Ht|constructor].
Qed.

Lemma toon_lossless_witness : users = users.
Proof. apply (toon_lossless users users); [reflexivity|apply users_ok|apply users_ok|reflexivity]. Defined.
End Printer.
