(* ===== verification/GraphLife.v ===== *)
(** * The life of the vector graph (crates/connxism/src/estate.rs)

    Opening an estate loads the persisted graph when it is current and
    rebuilds it from the durable vectors otherwise; persisting, snapshots,
    shutdown and compaction write and replace it. Other threads write
    meanwhile: what the code reads of the store at each point is an argument,
    so a run without interference is one where the arguments agree. *)
From S2P Require Import Prelude Floats ByteOrder Utf8 Json Geo Query Quant Text Model Heap Keys.
From S2P Require Import KeysFacts.
From S2P Require Import Paged AnnStore Ann AnnFacts AnnInsert AnnSpec AnnBytes AnnDiskSpec.
From S2P Require Import Kv Pending Store StoreFacts StoreTx StoreSpec Fusion Searches SearchFacts.
From S2P Require Import SearchSpec FilterExec Estate EstateSpec.
#[local] Set Default Goal Selector "!".
#[local] Set Warnings "-clear-no-such-hyp".
Local Open Scope Z_scope.

(** The fields the storage engine alone reads are its tuning. *)
Record EstateConfig : Type := mkEstateConfig {
  ec_quantizer : Quantizer;
  fsync_writes : bool;
  ec_quotas : Quotas;
  ec_lexical_stats : bool;
  block_cache_bytes : Z;
  write_buffer_bytes : Z;
  background_jobs : Z;
  graph_cache_bytes : Z;
}.
Definition config_default : EstateConfig :=
  mkEstateConfig QNone false quotas_default true (256 * 1024 * 1024) (64 * 1024 * 1024) 4 (256 * 1024 * 1024).

Record GraphNodes : Type := mkGraphNodes { gn_total : nat; gn_tombstones : nat }.
Definition gn_live (n : GraphNodes) : nat := gn_total n - gn_tombstones n.
Record GraphCompaction : Type := mkCompaction { before : GraphNodes; after : GraphNodes }.
Definition reclaimed (c : GraphCompaction) : nat := gn_total (before c) - gn_total (after c).
Definition graph_nodes (g : AnnIndex) : GraphNodes := mkGraphNodes (node_count g) (tombstones g).

Definition GRAPH_ANN : bytes := str "ann".

(** [AnnConfig { quantizer, ..AnnConfig::default() }] *)
Definition ann_config (q : Quantizer) : AnnConfig :=
  mkAnnConfig (m default_config) (ef_construction default_config) (ef_search default_config) q.

Section graph.
Context `{SerdeNumber} `{Ln}.
Context {HC : BinaryHeap Scored reverse_key} {HR : BinaryHeap Scored scored_key}.

(** [None] is a panic of the insertion. *)
Definition rebuild_ann_from_vecs (db : Db) (c : AnnConfig) : option AnnIndex :=
  fold_opt (fun g p => insert g (from_utf8_lossy p.1) (vec_of p.2)) (ann_new c) (iter_all db CF_VECS).

(** The file beside the store, if there is one, and the budget of its cache. *)
Definition load_persisted_graph (db : Db) (c : AnnConfig) (sidecar : option bytes) (budget : nat) : result RroError (option AnnIndex) :=
  match get_cf db CF_GRAPH GRAPH_ANN with
  | Some (RBytes blob) =>
      if (length blob <? 8)%nat then Ok None
      else if negb (from_le_bytes (take 8 blob) =? get_u64 db META_FEED_SEQ) then Ok None
      else
        match sidecar with
        | None => Ok None
        | Some file =>
            match from_paged (drop 8 blob) file c budget with
            | Ok g => Ok (Some g)
            | Err Rejected => Ok None
            | Err CapacityOverflow => Err Panic
            end
        end
  | _ => Ok None
  end.

(** The graph an open serves from, and whether it was loaded. *)
Definition open_graph (db : Db) (c : AnnConfig) (sidecar : option bytes) (budget : nat) : result RroError (AnnIndex * bool) :=
  loaded ← load_persisted_graph db c sidecar budget;
  match loaded with
  | Some g => Ok (g, true)
  | None => match rebuild_ann_from_vecs db c with Some g => Ok (g, false) | None => Err Panic end
  end.

(** An open estate: the recall store, the info read when it was opened, and
    whether document frequencies are maintained. *)
Record OpenEstate : Type := mkEstate { oe_recall : ConnXRecall; oe_info : EstateInfo; oe_lexical_stats : bool }.
Definition oe_db (e : OpenEstate) : Db := db (oe_recall e).
Definition handle_of (e : OpenEstate) : Handle :=
  let s := oe_recall e in mkHandle (oe_info e) (Searches.quantizer s) (quotas s) (pending s) (ann s).

(** The estate's info, written with the marker of document frequencies when
    there is none yet; [id] is the id a fresh one gets. *)
Definition ensure_info (id name : bytes) (now : Z) (lexical_stats : bool) (db : Db) : Db * EstateInfo :=
  match get_info db with
  | Some existing => (db, existing)
  | None =>
      let fresh := mkEstateInfo id name now None ∅ in
      let db := put_cf db CF_META META_ESTATE (RInfo fresh) in
      (if lexical_stats then put_cf db CF_META META_LEXSTATS (u64_le 1) else db, fresh)
  end.

Definition open_with (id name : bytes) (now : Z) (config : EstateConfig) (db : Db) (sidecar : option bytes)
  : result RroError (OpenEstate * bool) :=
  let '(db, info) := ensure_info id name now (ec_lexical_stats config) db in
  '(ann, loaded) ← open_graph db (ann_config (ec_quantizer config)) sidecar (Z.to_nat (graph_cache_bytes config));
  let lexical_stats := ec_lexical_stats config && bool_decide (is_Some (get_cf db CF_META META_LEXSTATS)) in
  Ok (mkEstate (mkRecall db ann Pending.new (ec_quotas config) default_params (ec_quantizer config)) info lexical_stats, loaded).

(** ** Persisting

    [backlog], [tagged] and [checked] are the applier's backlog, the store
    where the feed position is read and the store where it is read again. *)

Record Persisted : Type := mkPersisted { p_graph : AnnIndex; p_sidecar : option bytes; p_db : Db }.

(** The streamed file replaces the old one when it is complete. *)
Definition flush_vectors (g : AnnIndex) (sidecar : option bytes) : result RroError (option bytes) :=
  if needs_vector_flush g then match write_vectors_to g with Some e => Ok (Some e) | None => Err (Message (str "io")) end
  else Ok sidecar.

Definition persist_graph (g : AnnIndex) (sidecar : option bytes) (backlog : nat) (tagged checked : Db) : option (Persisted * result RroError unit) :=
  g ← seal g;
  Some
    (if negb (backlog =? 0)%nat then (mkPersisted g sidecar checked, Ok tt)
     else
       let seq_before := get_u64 tagged META_FEED_SEQ in
       let structure := to_structure_bytes g in
       match flush_vectors g sidecar with
       | Err e => (mkPersisted g sidecar checked, Err e)
       | Ok sidecar =>
           if negb (get_u64 checked META_FEED_SEQ =? seq_before) then (mkPersisted g sidecar checked, Ok tt)
           else
             let blob := le_bytes 8 seq_before ++ structure in
             (mkPersisted g sidecar (put_cf checked CF_GRAPH GRAPH_ANN (RBytes blob)), Ok tt)
       end).

(** [Drop for Estate]: the error of the persist is logged. *)
Definition shut_down (persist_on_drop : bool) (g : AnnIndex) (sidecar : option bytes) (backlog : nat) (tagged checked : Db) : option (Db * option bytes) :=
  if persist_on_drop then '(p, _) ← persist_graph g sidecar backlog tagged checked; Some (p_db p, p_sidecar p)
  else Some (checked, sidecar).

(** ** Compaction *)

(** What happens around one attempt, in order: the store at its start and at
    the rebuild, the backlog and the store that the check reads; then, before
    the write lock of the swap is held, commits may still land and the applier
    may still work: the operations of those commits already applied to the
    graph being served, those waiting in the queue, the store, and the graph
    served by then. The code reads nothing after the check. *)
Record Attempt : Type := mkAttempt {
  at_start : Db;
  at_rebuild : Db;
  at_backlog : nat;
  at_check : Db;
  at_applied : list Store.GraphOp;
  at_waiting : list Store.GraphOp;
  at_swap : Db;
  at_served : AnnIndex;
}.
(** Nothing writes. *)
Definition quiet (db : Db) (g : AnnIndex) : Attempt := mkAttempt db db 0 db [] [] db g.

(** The check that nothing was written during the rebuild. *)
Definition unraced (a : Attempt) : bool :=
  (at_backlog a =? 0)%nat && (get_u64 (at_check a) META_FEED_SEQ =? get_u64 (at_start a) META_FEED_SEQ).

(** [served] is the graph being served. The swap comes after the check and puts
    the fresh graph in the place of whatever is served by then. *)
Fixpoint compact_loop (c : AnnConfig) (nodes : GraphNodes) (served : AnnIndex) (attempts : list Attempt)
  : AnnIndex * result RroError GraphCompaction :=
  match attempts with
  | [] => (served, Err CompactionRaced)
  | a :: attempts =>
      match (fresh ← rebuild_ann_from_vecs (at_rebuild a) c; seal fresh) with
      | None => (served, Err Panic)
      | Some fresh =>
          if unraced a then (fresh, Ok (mkCompaction nodes (graph_nodes fresh)))
          else compact_loop c nodes (at_served a) attempts
      end
  end.
Definition compact_graph (q : Quantizer) (g : AnnIndex) (attempts : nat -> Attempt) : AnnIndex * result RroError GraphCompaction :=
  compact_loop (ann_config q) (graph_nodes g) g (map attempts (seq 0 4)).

(** [Estate::cf_sizes] *)
Definition cf_sizes (cf_sst_bytes : CF -> Z) : list (CF * Z) := map (fun cf => (cf, cf_sst_bytes cf)) COLUMN_FAMILIES.
End graph.

(** ** Rebuilding *)

Section rebuild.
Context `{SerdeNumber} `{Libm} `{TextAnalyzer} `{Ln}.
Context {HC : BinaryHeap Scored reverse_key} {HR : BinaryHeap Scored scored_key}.
Context {LC : BinaryHeapLaws Scored reverse_key} {LR : BinaryHeapLaws Scored scored_key}.
Variable json_text : Json -> bytes.
Variable now_ms : Z -> Z.
Variable lexical_stats : bool.
Local Abbreviation refines := (Refines json_text now_ms lexical_stats).

(** The vectors of a map, as the graph holds them. *)
Definition graph_map (m : gmap bytes VectorRecord) : gmap bytes (list f32) := (fun r => normalized (vr_embedding r)) <$> m.

(** What the graph asks of the stored vectors: one dimension the quantizer
    fits, and 32-bit node numbers. *)
Record vectors_ok (c : AnnConfig) (d : nat) (m : gmap bytes VectorRecord) : Prop := {
  vo_fits : quantizer_fits (Ann.quantizer c) d;
  vo_dim : map_Forall (fun _ r => length (vr_embedding r) = d) m;
  vo_small : Z.of_nat (size m) < 2 ^ 32;
}.

(** A graph without dead nodes that holds the vectors of the map. *)
Definition exactly (c : AnnConfig) (d : nat) (g : AnnIndex) (m : gmap bytes VectorRecord) : Prop :=
  represents c d g (graph_map m) /\ node_count g = size m /\ tombstones g = 0%nat.

Lemma vec_rows db m log : refines db m log -> searchable m ->
  iter_all db CF_VECS = map (fun p => (p.1, RBytes (encode_vec (vr_embedding p.2)))) (btree_iter m).
Proof.
  intros HR' _. unfold iter_all. rewrite <- (btree_iter_fmap (fun r => RBytes (encode_vec (vr_embedding r)))). f_equal. apply map_eq. intros id. rewrite lookup_fmap.
  apply (vec_row json_text (indexed_fields db)); [apply HR'|apply HR'].
Qed.

Lemma fold_inserts {A} (f : A -> list f32) (l : list (bytes * A)) mp : NoDup l.*1 ->
  fold_left apply_map (map (fun p => OpInsert p.1 (f p.2)) l) mp = (list_to_map (map (fun p => (p.1, normalized (f p.2))) l)) ∪ mp.
Proof.
  revert mp. induction l as [|[id x] l IH]; intros mp Hn; cbn [map fold_left apply_map fst snd list_to_map foldr].
  - by rewrite (left_id_L ∅ (∪)).
  - cbn in Hn. apply NoDup_cons in Hn as [Hid Hn]. rewrite IH by done. cbn.
    rewrite <- insert_union_r; [by rewrite insert_union_l|]. apply not_elem_of_list_to_map. intros Hin. apply Hid.
    apply list_elem_of_fmap in Hin as ([i y] & -> & Hin). apply list_elem_of_fmap in Hin as ([i' x'] & [= -> ->] & Hin).
    apply list_elem_of_fmap. by exists (i', x').
Qed.

Lemma list_to_btree {A} (M : gmap bytes A) : list_to_map (btree_iter M) = M.
Proof. rewrite <- (list_to_map_to_list M) at 2. apply list_to_map_proper; [apply btree_iter_keys_NoDup|apply btree_iter_perm]. Qed.

Definition inserts (m : gmap bytes VectorRecord) : list AnnSpec.GraphOp := map (fun p => OpInsert p.1 (vr_embedding p.2)) (btree_iter m).

Lemma graph_map_inserts (m : gmap bytes VectorRecord) : fold_left apply_map (inserts m) ∅ = graph_map m.
Proof.
  unfold inserts. rewrite (fold_inserts vr_embedding) by apply btree_iter_keys_NoDup. rewrite (right_id_L ∅ (∪)). unfold graph_map.
  rewrite <- (btree_iter_fmap (fun r => normalized (vr_embedding r))). apply list_to_btree.
Qed.

Lemma rebuild_inserts c db m log : refines db m log -> searchable m ->
  rebuild_ann_from_vecs db c = fold_opt apply_graph (ann_new c) (inserts m).
Proof.
  intros HR' Hs. unfold rebuild_ann_from_vecs, inserts. rewrite (vec_rows db m log HR' Hs).
  assert (forall p, p ∈ btree_iter m -> from_utf8_lossy p.1 = p.1 /\ decode_vec (encode_vec (vr_embedding p.2)) = vr_embedding p.2) as Hp.
  { intros [id r] Hin%elem_of_btree_iter. split.
    - apply lossy_valid. pose proof (rf_ids _ _ _ _ _ _ HR' _ _ Hin) as [<- _]. apply (se_utf8 r (Hs _ _ Hin)).
    - apply decode_encode_vec, (se_vector r (Hs _ _ Hin)). }
  revert Hp. generalize (ann_new c). induction (btree_iter m) as [|[id r] l IH]; intros g Hp; [done|].
  cbn [map fold_opt apply_graph fst snd vec_of]. destruct (Hp (id, r)) as [E1 E2]; [by left|]. cbn [fst snd] in *. rewrite E1, E2.
  destruct (insert g id _) as [g'|]; [|done]. cbn. apply IH. intros p Hin. apply Hp. by right.
Qed.

(** The rebuilt graph holds the stored vectors and has no dead node. *)
Lemma rebuild_exact c d db m log : refines db m log -> searchable m -> vectors_ok c d m ->
  exists g, rebuild_ann_from_vecs db c = Some g /\ exactly c d g m.
Proof.
  intros HR' Hs [Hq Hd Hn]. rewrite (rebuild_inserts c db m log HR' Hs).
  assert (length (inserts m) = size m) as Hl by (unfold inserts; by rewrite length_map, btree_iter_length).
  destruct (run_represents c d (inserts m) (ann_new c) ∅ Hq (new_represents c d)) as (g & E & Hr & Hb & _).
  - unfold inserts. apply Forall_map, Forall_forall. intros [id r] Hin%elem_of_btree_iter. apply (Hd _ _ Hin).
  - cbn. rewrite Hl. lia.
  - exists g. split; [done|]. rewrite graph_map_inserts in Hr. pose proof (re_count _ _ _ _ Hr) as Hc. unfold graph_map in Hc. rewrite map_size_fmap in Hc.
    assert (live g <= length (ids g))%nat as Hle.
    { destruct (re_ok _ _ _ _ Hr) as [Hnodes _]. rewrite (ok_live g Hnodes). pose proof (live_nodes_le (deleted g)).
      pose proof (ok_deleted g Hnodes). lia. }
    cbn [length ids ann_new] in Hb. split_and!; [done|unfold node_count; lia|unfold tombstones; lia].
Qed.
End rebuild.

(** ** Sealing *)

Section seal.
Context `{SerdeNumber} `{Ln} {HC : BinaryHeap Scored reverse_key} {HR : BinaryHeap Scored scored_key}.

Lemma vector_of_store g s id : (Ann.quantizer (config g) = QNone -> s = store g) ->
  Ann.quantizer (config g) = QNone -> AnnSpec.vector_of (set_store g s) id = AnnSpec.vector_of g id.
Proof. intros Hs Hq. by rewrite (Hs Hq), set_store_id. Qed.

(** Training the codebook keeps the nodes and what is live. *)
Lemma seal_represents c d g mp : represents c d g mp ->
  exists s, seal g = Some (set_store g s) /\ represents c d (set_store g s) mp.
Proof.
  intros [Hok Hc Hd Hl Hn Hv Hst]. unfold seal.
  assert (exists s, seal_with_dim (store g) (dim0 g) = Some s /\ store_ok (dim0 g) (length (ids g)) s
    /\ store_quantizer s = store_quantizer (store g) /\ (dim g = None -> s = store g) /\ (Ann.quantizer (config g) = QNone -> s = store g)
    /\ exists early, stores_map early d (set_store g s) mp)
    as (s & E & Hs & Hq & Hfresh & Hnone & Hst').
  { assert (Ann.quantizer (config g) = QNone -> seal_with_dim (store g) (dim0 g) = Some (store g)) as Hqn.
    { intros Hqn. pose proof (ok_quantizer g Hok) as Hsq. rewrite Hqn in Hsq. by destruct (store g). }
    destruct (dim g) as [v|] eqn:Ed.
    - destruct (seal_ok (dim0 g) (length (ids g)) (store g) (ok_store g Hok)) as (s & E & Hs & Hq).
      { rewrite (ok_quantizer g Hok), (dim0_some g v Ed). by apply (ok_fits g Hok). }
      exists s. split_and!; try done; [intros Hqz; rewrite (Hqn Hqz) in E; by injection E|].
      destruct Hst as (early & vs & Hlv & Hfv & Hrv & Hmv). exists true, vs. split_and!; [done..| |done].
      rewrite (dim0_some g v Ed) in E. assert (v = d) as -> by (destruct Hd; congruence).
      apply (seal_rows early d (store g)); [rewrite Hlv; apply store_ok_dim; [apply Hok|by right]|done..].
    - exists (store g). assert (dim0 g = 0%nat) as Hz by (unfold dim0; by rewrite Ed).
      split_and!; try done; [|apply (ok_store g Hok)]. rewrite (ok_fresh g Hok Ed). rewrite Hz. by destruct (Ann.quantizer (config g)). }
  rewrite E. cbn [mbind option_bind]. exists s. split; [done|]. split.
  - destruct Hok as [Hnodes Hentry]. split; [|exact Hentry]. destruct Hnodes. split; try done.
    + cbn. intros Hdn. rewrite (Hfresh Hdn). by apply ok_fresh.
    + cbn. by rewrite Hq.
  - exact Hc.
  - exact Hd.
  - exact Hl.
  - exact Hn.
  - intros Hqn id. rewrite <- (Hv Hqn id). apply vector_of_store; [|by rewrite Hc]. rewrite Hc. exact (fun _ => Hnone ltac:(by rewrite Hc)).
  - exact Hst'.
Qed.

Lemma seal_exactly c d g m : exactly c d g m -> exists g', seal g = Some g' /\ exactly c d g' m.
Proof.
  intros (Hr & Hn & Ht). destruct (seal_represents c d g _ Hr) as (s & E & Hr'). exists (set_store g s). split_and!; done.
Qed.
End seal.

(** ** Opening *)

Section opening.
Context `{SerdeNumber} `{Libm} `{TextAnalyzer} `{Ln}.
Context {HC : BinaryHeap Scored reverse_key} {HR : BinaryHeap Scored scored_key}.
Context {LC : BinaryHeapLaws Scored reverse_key} {LR : BinaryHeapLaws Scored scored_key}.
Variable json_text : Json -> bytes.
Variable now_ms : Z -> Z.
Variable lexical_stats : bool.
Local Abbreviation refines := (Refines json_text now_ms lexical_stats).

(** The persisted graph is passed over when there is none, when the feed has
    moved since it was tagged, and when its vectors are gone or do not fit. *)
Lemma load_declined db c sidecar budget :
  match get_cf db CF_GRAPH GRAPH_ANN with
  | Some (RBytes blob) =>
      (length blob < 8)%nat \/ from_le_bytes (take 8 blob) <> get_u64 db META_FEED_SEQ \/ sidecar = None
      \/ exists file, sidecar = Some file /\ from_paged (drop 8 blob) file c budget = Err Rejected
  | _ => True
  end -> load_persisted_graph db c sidecar budget = Ok None.
Proof.
  unfold load_persisted_graph. destruct (get_cf _ _ _) as [[]|]; try done. intros Hb.
  destruct (Nat.ltb_spec (length b) 8); [done|]. destruct (Z.eqb_spec (from_le_bytes (take 8 b)) (get_u64 db META_FEED_SEQ)) as [He|He]; cbn [negb]; [|done].
  destruct Hb as [Hb|[Hb|[Hb|(file & Hb & Hp)]]]; [lia|done|by subst|]. subst. by rewrite Hp.
Qed.

(** C31: An estate without a current persisted graph opens: the documents are
    those of the store, and the graph is rebuilt as exactly their vectors, no
    dead node among them, whatever the graph was before. *)
Theorem open_recovers id name now config db sidecar info m log d :
  refines db m log -> searchable m -> vectors_ok (ann_config (ec_quantizer config)) d m -> get_info db = Some info ->
  load_persisted_graph db (ann_config (ec_quantizer config)) sidecar (Z.to_nat (graph_cache_bytes config)) = Ok None ->
  exists e, open_with id name now config db sidecar = Ok (e, false)
    /\ oe_db e = db /\ oe_info e = info /\ pending (oe_recall e) = Pending.new /\ quotas (oe_recall e) = ec_quotas config
    /\ exactly (ann_config (ec_quantizer config)) d (ann (oe_recall e)) m.
Proof.
  intros Hr Hs Hv Hi Hl. unfold open_with, ensure_info, open_graph. rewrite Hi, Hl. cbn [mbind result_bind].
  destruct (rebuild_exact json_text now_ms lexical_stats (ann_config (ec_quantizer config)) d db m log Hr Hs Hv) as (g & -> & Hg).
  eexists. split; [done|]. split_and!; [done..|exact Hg].
Qed.

(** ** A clean restart *)

Lemma refines_graph_row db m log row : refines db m log -> refines (put_cf db CF_GRAPH GRAPH_ANN row) m log.
Proof. apply (refines_other json_text now_ms lexical_stats CF_GRAPH); try done. intros cf Hcf. unfold put_cf, upd_cf. by rewrite decide_False. Qed.

(** A graph persisted while nothing writes is loaded by the next open, of the
    estate or of a snapshot of it, with any budget of its cache: the documents
    are the same and every search, filtered or not, gives the hits and scores
    of the graph that was sealed and persisted. *)
Theorem clean_restart id name now config db sidecar info m log g g' :
  refines db m log -> Z.of_nat (length log) < 2 ^ 64 -> get_info db = Some info ->
  seal g = Some g' -> graph_ok g' -> disk_fits g' -> ids g' <> [] -> Ann.config g' = ann_config (ec_quantizer config) ->
  (needs_vector_flush g' = false -> sidecar = write_vectors_to g') ->
  exists p, persist_graph g sidecar 0 db db = Some (p, Ok tt)
    /\ refines (p_db p) m log
    /\ exists e, open_with id name now config (p_db p) (p_sidecar p) = Ok (e, true) /\ oe_db e = p_db p
    /\ (forall q k ef, Ann.search (ann (oe_recall e)) q k ef = Ann.search g' q k ef)
    /\ (forall q k ef allow, Ann.search_filtered (ann (oe_recall e)) q k ef allow = Ann.search_filtered g' q k ef allow).
Proof.
  intros Hr Hlog Hi Hseal Hok Hf Hne Hc Hside. destruct (from_paged_ok g' (Z.to_nat (graph_cache_bytes config)) Hok Hf Hne) as (e & s & Ew & Ef & Hsame).
  assert (flush_vectors g' sidecar = Ok (Some e)) as Hflush.
  { unfold flush_vectors. destruct (needs_vector_flush g'); [by rewrite Ew|]. by rewrite Hside, Ew by done. }
  set (blob := le_bytes 8 (get_u64 db META_FEED_SEQ) ++ to_structure_bytes g'). set (db' := put_cf db CF_GRAPH GRAPH_ANN (RBytes blob)).
  exists (mkPersisted g' (Some e) db'). unfold persist_graph. rewrite Hseal. cbn [mbind option_bind Nat.eqb negb]. rewrite Hflush, Z.eqb_refl.
  split; [done|]. cbn [p_db p_sidecar]. split; [by apply refines_graph_row|].
  assert (forall k, get_cf db' CF_META k = get_cf db CF_META k) as Hmeta.
  { intros k. unfold get_cf, db', put_cf, upd_cf. by rewrite decide_False. }
  assert (get_cf db' CF_GRAPH GRAPH_ANN = Some (RBytes blob)) as Hblob.
  { unfold get_cf, db'. by rewrite lookup_put_cf, decide_True. }
  assert (load_persisted_graph db' (ann_config (ec_quantizer config)) (Some e) (Z.to_nat (graph_cache_bytes config)) = Ok (Some (set_store g' s))) as Hload.
  { unfold load_persisted_graph. rewrite Hblob. unfold blob at 1. rewrite length_app, length_le_bytes. cbn [Nat.add Nat.ltb Nat.leb].
    unfold get_u64 at 1. rewrite Hmeta. fold (get_u64 db META_FEED_SEQ). unfold blob. rewrite take_app_length', drop_app_length' by (by rewrite length_le_bytes).
    rewrite from_le_le_bytes; [|rewrite (rf_seq _ _ _ _ _ _ Hr); change (256 ^ Z.of_nat 8) with (2 ^ 64); lia].
    rewrite Z.eqb_refl. cbn [negb]. by rewrite <- Hc, Ef. }
  unfold open_with, ensure_info. assert (get_info db' = Some info) as -> by (unfold get_info; by rewrite Hmeta).
  unfold open_graph. rewrite Hload. cbn [mbind result_bind]. eexists. split; [done|]. split; [done|]. split.
  - intros q k ef. by apply set_store_searches with (allow := ∅).
  - intros q k ef allow. by apply set_store_searches.
Qed.
End opening.

(** ** Compaction *)

Section history.
Context `{SerdeNumber} `{Libm} `{TextAnalyzer}.

(** No change without a row of the feed. *)
Definition follows (s s' : gmap bytes VectorRecord * Log) : Prop := s.2 `prefix_of` s'.2 /\ (s'.2 = s.2 -> s' = s).

Lemma follows_refl s : follows s s.
Proof. by split. Qed.

Lemma follows_trans s1 s2 s3 : follows s1 s2 -> follows s2 s3 -> follows s1 s3.
Proof.
  intros [P1 E1] [P2 E2]. split; [by etrans|]. intros E. rewrite E in P2.
  assert (s2.2 = s1.2) as E' by (symmetry; apply prefix_length_eq; [done|by apply prefix_length]). rewrite <- (E1 E'). apply E2. by rewrite E, E'.
Qed.

(** Upserts and removals do. *)
Lemma spec_run_follows ops s : follows s (spec_run ops s).
Proof.
  revert s. induction ops as [|op ops IH]; intros s; [apply follows_refl|].
  change (spec_run (op :: ops) s) with (spec_run ops (spec_step s op)). eapply follows_trans; [|apply IH].
  destruct s as [m log]. destruct op as [r|id]; cbn [spec_step].
  - split; cbn [fst snd]; [by apply prefix_app_r|]. intros E. exfalso. apply (f_equal length) in E. rewrite length_app in E. cbn in E. lia.
  - destruct (m !! id); [|apply follows_refl]. split; cbn [fst snd]; [by apply prefix_app_r|].
    intros E. exfalso. apply (f_equal length) in E. rewrite length_app in E. cbn in E. lia.
Qed.

Lemma follows_same s1 s2 s3 : follows s1 s2 -> follows s2 s3 -> length s3.2 = length s1.2 -> s3 = s2 /\ s2 = s1.
Proof.
  intros [P1 E1] [P2 E2] Hl. pose proof (prefix_length _ _ P1). pose proof (prefix_length _ _ P2).
  split; [apply E2; symmetry|apply E1; symmetry]; apply prefix_length_eq; (done || lia).
Qed.
End history.

Section compaction.
Context `{SerdeNumber} `{Libm} `{TextAnalyzer} `{Ln}.
Context {HC : BinaryHeap Scored reverse_key} {HR : BinaryHeap Scored scored_key}.
Context {LC : BinaryHeapLaws Scored reverse_key} {LR : BinaryHeapLaws Scored scored_key}.
Variable json_text : Json -> bytes.
Variable now_ms : Z -> Z.
Variable lexical_stats : bool.
Local Abbreviation refines := (Refines json_text now_ms lexical_stats).

(** The operations of the queue as the applier applies them. *)
Definition op_of (op : Store.GraphOp) : AnnSpec.GraphOp :=
  match op with GUpsert id e => OpInsert id e | GRemove id => OpRemove id end.
Definition op_id (op : Store.GraphOp) : bytes := match op with GUpsert id _ | GRemove id => id end.
Definition drained (g : AnnIndex) (ops : list Store.GraphOp) : option AnnIndex := fold_opt apply_graph g (map op_of ops).

(** The points of an attempt are points of one history of the store, [s] at
    the check and [s'] at the swap; it holds vectors a graph can, and between
    the check and the swap it is changed by commits whose operations are the
    applied and the waiting ones. *)
Record attempt_ok (c : AnnConfig) (d : nat) (a : Attempt) (s s' : gmap bytes VectorRecord * Log) : Prop := {
  ao_check : refines (at_check a) s.1 s.2;
  ao_history : exists s0 s1, refines (at_start a) s0.1 s0.2 /\ refines (at_rebuild a) s1.1 s1.2 /\ follows s0 s1 /\ follows s1 s
    /\ searchable s1.1 /\ vectors_ok c d s1.1;
  ao_swap : refines (at_swap a) s'.1 s'.2;
  ao_later : follows s s';
  ao_window : graph_run (at_applied a ++ at_waiting a) (vr_embedding <$> s.1) = vr_embedding <$> s'.1;
  ao_waiting : Forall (op_fits d) (map op_of (at_waiting a));
  ao_room : Z.of_nat (size s.1) + Z.of_nat (length (at_waiting a)) < 2 ^ 32;
}.

Lemma graph_map_normalized m : graph_map m = normalized <$> (vr_embedding <$> m).
Proof. unfold graph_map. by rewrite <- map_fmap_compose. Qed.

Lemma run_normalized ops m : fold_left apply_map (map op_of ops) (normalized <$> m) = normalized <$> graph_run ops m.
Proof.
  revert m. induction ops as [|op ops IH]; intros m; [done|]. unfold graph_run in *. cbn [map fold_left]. rewrite <- IH. f_equal.
  destruct op as [id e|id]; cbn; [by rewrite fmap_insert|by rewrite fmap_delete].
Qed.

Lemma graph_run_lookup ops m1 m2 id : m1 !! id = m2 !! id -> graph_run ops m1 !! id = graph_run ops m2 !! id.
Proof.
  revert m1 m2. induction ops as [|op ops IH]; intros m1 m2 E; [done|]. apply IH.
  destruct op as [i e|i]; cbn; (destruct (decide (i = id)) as [->|Hi];
    [by rewrite ?lookup_insert_eq, ?lookup_delete_eq|by rewrite ?lookup_insert_ne, ?lookup_delete_ne by done]).
Qed.

(** A run changes the ids it names. *)
Lemma graph_run_other ops m id : id ∉ map op_id ops -> graph_run ops m !! id = m !! id.
Proof.
  revert m. induction ops as [|op ops IH]; intros m Hid; [done|]. cbn [map] in Hid. apply not_elem_of_cons in Hid as [Hne Hid].
  unfold graph_run in *. cbn [fold_left]. rewrite IH by done. destruct op as [i e|i]; cbn in *; [by rewrite lookup_insert_ne|by rewrite lookup_delete_ne].
Qed.

(** Applying the second part of a run alone differs at the ids of the first. *)
Lemma graph_run_suffix ops1 ops2 m id : id ∉ map op_id ops1 -> graph_run ops2 m !! id = graph_run (ops1 ++ ops2) m !! id.
Proof.
  intros Hid. unfold graph_run at 2. rewrite fold_left_app. apply (graph_run_lookup ops2). symmetry. by apply graph_run_other.
Qed.

(** The applier finishes the queue on a graph of exactly the checked vectors:
    what it then holds is the store of the swap, except for the ids written
    between the check and the swap and applied to the dropped graph. *)
Lemma drained_window c d a s s' g : quantizer_fits (Ann.quantizer c) d -> attempt_ok c d a s s' -> exactly c d g s.1 ->
  exists g' mp, drained g (at_waiting a) = Some g' /\ represents c d g' mp
    /\ forall id, id ∉ map op_id (at_applied a) -> mp !! id = graph_map s'.1 !! id.
Proof.
  intros Hq Ha (Hr & Hn & _). destruct (run_represents c d (map op_of (at_waiting a)) g _ Hq Hr (ao_waiting _ _ _ _ _ Ha)) as (g' & E & Hr' & _).
  { rewrite length_map. unfold node_count in Hn. rewrite Hn. apply (ao_room _ _ _ _ _ Ha). }
  eexists g', _. split; [exact E|]. split; [exact Hr'|]. intros id Hid.
  rewrite !graph_map_normalized, run_normalized, <- (ao_window _ _ _ _ _ Ha), !(lookup_fmap normalized).
  f_equal. by apply graph_run_suffix.
Qed.

(** An attempt that saw a write or left operations in the queue. *)
Definition raced (a : Attempt) : Prop :=
  at_backlog a <> 0%nat \/ get_u64 (at_check a) META_FEED_SEQ <> get_u64 (at_start a) META_FEED_SEQ.

Lemma unraced_spec a : if unraced a then get_u64 (at_check a) META_FEED_SEQ = get_u64 (at_start a) META_FEED_SEQ else raced a.
Proof.
  unfold unraced, raced. destruct (Nat.eqb_spec (at_backlog a) 0); cbn [andb]; [|by left].
  destruct (Z.eqb_spec (get_u64 (at_check a) META_FEED_SEQ) (get_u64 (at_start a) META_FEED_SEQ)); [done|by right].
Qed.

(** The fresh graph of an attempt, and the store it is exact for. *)
Lemma attempt_fresh c d a s s' : attempt_ok c d a s s' ->
  exists fresh s1, (fresh ← rebuild_ann_from_vecs (at_rebuild a) c; seal fresh) = Some fresh /\ exactly c d fresh s1.1
    /\ (unraced a = true -> s1 = s).
Proof.
  intros [Hc (s0 & s1 & H0' & H1' & F1 & F2 & Hs & Hv) _ _ _ _ _].
  destruct (rebuild_exact json_text now_ms lexical_stats c d _ _ _ H1' Hs Hv) as (fresh & E & Hf).
  destruct (seal_exactly c d fresh _ Hf) as (sealed & Es & He). exists sealed, s1. rewrite E. cbn [mbind option_bind]. split_and!; [done..|].
  intros Hu. pose proof (unraced_spec a) as Hx. rewrite Hu, (rf_seq _ _ _ _ _ _ Hc), (rf_seq _ _ _ _ _ _ H0') in Hx.
  destruct (follows_same s0 s1 s F1 F2) as [-> ->]; [lia|done].
Qed.

Lemma compact_loop_exact c d nodes g attempts : Forall (fun a => exists s s', attempt_ok c d a s s') attempts ->
  match compact_loop c nodes g attempts with
  | (g', Ok r) => exists a, a ∈ attempts /\
      forall s s', attempt_ok c d a s s' -> exactly c d g' s.1 /\ r = mkCompaction nodes (mkGraphNodes (size s.1) 0)
  | (g', Err e) => g' = default g (at_served <$> last attempts) /\ e = CompactionRaced /\ Forall raced attempts
  end.
Proof.
  revert g. induction attempts as [|a attempts IH]; intros g Hok; [by split_and!|]. apply Forall_cons in Hok as [(s0 & s0' & Ha0) Hok]. cbn [compact_loop].
  pose proof (fun s s' => attempt_fresh c d a s s') as Hf. destruct (Hf s0 s0' Ha0) as (fresh & _ & E & _). rewrite E in Hf |- *.
  pose proof (unraced_spec a) as Hu. destruct (unraced a).
  - exists a. split; [by left|]. intros s s' Ha. destruct (Hf s s' Ha) as (x & s1 & [= <-] & He & Hs1). rewrite Hs1 in He by done.
    split; [exact He|]. destruct He as (_ & Hn & Ht). unfold graph_nodes. by rewrite Hn, Ht.
  - specialize (IH (at_served a) Hok). destruct (compact_loop c nodes (at_served a) attempts) as [g' [r|e]].
    + destruct IH as (a' & Hin & ?). exists a'. by split; [right|].
    + destruct IH as (-> & -> & Hr). split_and!; [|done|by constructor]. rewrite last_cons. by destruct (last attempts).
Qed.

(** C32: Compaction ends after at most four attempts. When it succeeds, the graph
    it swaps in holds exactly the vectors of the store as it was when the
    attempt was checked, without a dead node, and the node counts of both
    graphs are reported. The check and the swap are two steps: if nothing is
    committed between them the graph is exactly the store's, and otherwise,
    once the applier has emptied its queue, it holds the vectors of the store
    except at the ids written between the two and already applied to the graph
    that is dropped. It gives up, and leaves the graph that is served, only
    when every one of the four attempts saw a write or operations still
    queued; where nothing writes it succeeds. [checked] and [swapped] are the
    documents and the log at the check and at the swap of each attempt. Vectors
    have one dimension the quantizer fits, and node numbers fit 32 bits. *)
Theorem compaction_exact (q : Quantizer) (d : nat) (g : AnnIndex) (attempts : nat -> Attempt) (checked swapped : nat -> gmap bytes VectorRecord * Log) :
  quantizer_fits q d ->
  (forall i, (i < 4)%nat -> attempt_ok (ann_config q) d (attempts i) (checked i) (swapped i)) ->
  match compact_graph q g attempts with
  | (g', Ok r) => exists i, (i < 4)%nat
      /\ r = mkCompaction (graph_nodes g) (mkGraphNodes (size (checked i).1) 0)
      /\ exactly (ann_config q) d g' (checked i).1
      /\ (get_u64 (at_swap (attempts i)) META_FEED_SEQ = get_u64 (at_check (attempts i)) META_FEED_SEQ -> exactly (ann_config q) d g' (swapped i).1)
      /\ exists g'' mp, drained g' (at_waiting (attempts i)) = Some g'' /\ represents (ann_config q) d g'' mp
         /\ forall id, id ∉ map op_id (at_applied (attempts i)) -> mp !! id = graph_map (swapped i).1 !! id
  | (g', Err e) => g' = at_served (attempts 3%nat) /\ e = CompactionRaced /\ forall i, (i < 4)%nat -> raced (attempts i)
  end
  /\ ((exists db g0, attempts 0%nat = quiet db g0) -> exists r, (compact_graph q g attempts).2 = Ok r).
Proof.
  intros Hq Hok. assert (Forall (fun a => exists s s', attempt_ok (ann_config q) d a s s') (map attempts (seq 0 4))) as Hall.
  { apply Forall_map, Forall_seq. intros i Hi. exists (checked i), (swapped i). apply Hok. lia. }
  pose proof (compact_loop_exact (ann_config q) d (graph_nodes g) g _ Hall) as Hl. unfold compact_graph.
  destruct (compact_loop _ _ _ _) as [g' [r|e]] eqn:E; cbn [snd].
  - split; [|by eexists]. destruct Hl as (a & Hin & Hx). apply list_elem_of_fmap in Hin as (i & -> & Hi%elem_of_seq).
    assert (i < 4)%nat as Hi4 by lia. pose proof (Hok i Hi4) as Ha. destruct (Hx _ _ Ha) as [He Hr].
    exists i. split_and!; [done..| |by apply (drained_window (ann_config q) d _ (checked i))].
    rewrite (rf_seq _ _ _ _ _ _ (ao_check _ _ _ _ _ Ha)), (rf_seq _ _ _ _ _ _ (ao_swap _ _ _ _ _ Ha)). intros Hf.
    destruct (follows_same _ _ _ (follows_refl (checked i)) (ao_later _ _ _ _ _ Ha)) as [-> _]; [lia|done].
  - destruct Hl as (-> & -> & Hr). rewrite Forall_map, Forall_seq in Hr. split; [split_and!; [done|done|]; intros i Hi; apply Hr; lia|].
    intros (db & g0 & Hq0). exfalso. destruct (Hr 0%nat) as [Hb|Hb]; [lia| |]; rewrite Hq0 in Hb; by apply Hb.
Qed.
End compaction.

(** ** Runs *)

Module Runs.
#[local] Existing Instances plain_number flat_libm one_token line_ln list_heap.

Definition upserted (db : Db) (rs : list VectorRecord) : Db := (upsert no_text (fun _ => 1) no_clock quotas_default true db rs).1.
Definition full : AnnConfig := ann_config QNone.

Lemma m1_vectors : vectors_ok full 2 m1.1.
Proof.
  split; [done| |vm_compute; reflexivity].
  change m1.1 with (<[str "dog" := dog]> (<[str "cat" := cat]> (∅ : gmap bytes VectorRecord))).
  repeat (apply map_Forall_insert_2; [reflexivity|]). apply map_Forall_empty.
Qed.

Lemma open_recovers_witness : exists e, open_with (str "e") (str "estate") 5 config_default db1 None = Ok (e, false)
  /\ exactly full 2 (ann (oe_recall e)) m1.1.
Proof.
  assert (exists info, get_info db1 = Some info) as [info Hi] by (eexists; vm_compute; reflexivity).
  destruct (open_recovers no_text no_clock true (str "e") (str "estate") 5 config_default db1 None info m1.1 m1.2 2
    db1_refines m1_searchable m1_vectors Hi) as (e & E & _ & _ & _ & _ & He).
  - apply load_declined. vm_compute. exact I.
  - exists e. split; [exact E|exact He].
Defined.

(** The cat is removed between the check and the swap; its removal waits in the
    queue at the swap. *)
Definition late_removal : Db * list Store.GraphOp := remove no_text no_clock true db1 (str "cat").
Definition late : Attempt := mkAttempt db1 db1 0 db1 [] late_removal.2 late_removal.1 (ann_new full).
Definition m2 : gmap bytes VectorRecord * Log := spec_run [ARemove (str "cat")] m1.

Lemma late_ok : attempt_ok no_text no_clock true full 2 late m1 m2.
Proof.
  pose proof (remove_outcome no_text no_clock true db1 m1.1 m1.2 (str "cat") late_removal.1 late_removal.2 db1_refines) as Ho.
  destruct Ho as [Hr Hg]; [repeat split; vm_compute; reflexivity|apply surjective_pairing|].
  split; [apply db1_refines| |exact Hr|apply (spec_run_follows [ARemove (str "cat")] m1)|exact Hg|vm_compute; by repeat constructor|vm_compute; reflexivity].
  exists m1, m1. split_and!; [apply db1_refines|apply db1_refines|apply follows_refl|apply follows_refl|apply m1_searchable|apply m1_vectors].
Qed.

(** The graph swapped in has both; when the queue is empty it has the dog. *)
Lemma compaction_exact_witness : exists g r g' mp, compact_graph QNone (ann_new full) (fun _ => late) = (g, Ok r)
  /\ exactly full 2 g m1.1 /\ drained g (at_waiting late) = Some g' /\ represents full 2 g' mp
  /\ mp !! str "cat" = None /\ is_Some (mp !! str "dog").
Proof.
  destruct (compaction_exact no_text no_clock true QNone 2 (ann_new full) (fun _ => late) (fun _ => m1) (fun _ => m2)) as [Hc _];
    [exact I|intros i _; exact late_ok|].
  destruct (compact_graph _ _ _) as [g [r|e]].
  - destruct Hc as (i & _ & _ & He & _ & g' & mp & E & Hr & Hmp). exists g, r, g', mp.
    assert (forall id, id ∉ ([] : list bytes)) as Hnil by (intros id; apply not_elem_of_nil).
    split_and!; [reflexivity|exact He|exact E|exact Hr|rewrite (Hmp _ (Hnil _)); vm_compute; reflexivity|rewrite (Hmp _ (Hnil _)); vm_compute; by eexists].
  - exfalso. destruct Hc as (_ & _ & Hr). destruct (Hr 0%nat) as [Hb|Hb]; [lia|by apply Hb|by apply Hb].
Defined.

(** The graph of a store that holds the cat. *)
Definition cat_db : Db := upserted db0 [cat].
Definition cat_graph : AnnIndex := default (ann_new full) (rebuild_ann_from_vecs cat_db full).
Definition cat_dog_db : Db := upserted cat_db [dog].

Definition small_cache : EstateConfig := mkEstateConfig QNone false quotas_default true 0 0 1 0.
Definition holds (db : Db) (id : bytes) : bool := match get_doc db id with Some _ => true | None => false end.

(** A commit whose operations are not queued yet is in the feed and not in the
    graph: persisting tags the graph with a position it is behind, and the
    next open loads a graph without the dog. *)
Theorem persist_mistags :
  match persist_graph cat_graph None 0 cat_dog_db cat_dog_db with
  | Some (p, Ok _) =>
      match open_with [] [] 0 small_cache (p_db p) (p_sidecar p) with
      | Ok (e, loaded) => (loaded, holds (oe_db e) (str "dog"), live_id (ann (oe_recall e)) (str "cat"), live_id (ann (oe_recall e)) (str "dog"))
      | Err _ => (false, false, false, false)
      end
  | _ => (false, false, false, false)
  end = (true, true, true, false).
Proof. vm_compute. reflexivity. Qed.

(** The check of an attempt and the swap are two steps: a write that commits
    and is applied to the old graph between them is in the store and not in
    the graph that is swapped in. *)
Theorem swap_forgets :
  let applied := default cat_graph (AnnSpec.apply_graph cat_graph (OpInsert (str "dog") (vr_embedding dog))) in
  let '(fresh, r) := compact_graph QNone cat_graph
    (fun _ => mkAttempt cat_db cat_db 0 cat_db [GUpsert (str "dog") (vr_embedding dog)] [] cat_dog_db applied) in
  (is_ok r, holds cat_dog_db (str "dog"), live_id applied (str "dog"), live_id fresh (str "dog")) = (true, true, true, false).
Proof. vm_compute. reflexivity. Qed.
End Runs.
