(* ===== verification/GraphQl.v ===== *)
(** * The GraphQL surface (crates/rro-engine/src/graphql.rs)

    The lexer, the parser of selection sets, and the executor that resolves
    each root field against the estate and projects what was asked for. *)
From S2P Require Import Prelude Floats ByteOrder Utf8 Json Geo Query Quant Text Model Heap Keys.
From S2P Require Import KeysFacts Kv Pending Store StoreFacts StoreTx StoreSpec Fusion.
From S2P Require QlLexer QlLexerFacts.
From stdpp Require Import pretty.
From S2P Require Import AnnStore Ann Searches FilterExec QueryExec ReplicationFacts Estate GraphLife.
From S2P Require Import StdRoutines Traits Flow Toon ToonFacts.
#[local] Set Default Goal Selector "!".
#[local] Set Warnings "-clear-no-such-hyp,-register-all".
Local Open Scope Z_scope.

(** ** Tokens *)

Module Tok.
Inductive Tok : Type :=
  | LBrace | RBrace | LParen | RParen | Colon
  | Name (n : bytes)
  | Str (s : bytes)
  | Int (i : Z)
  | Float (f : f64)
  | Bool (b : bool)
  | Eof.
End Tok.
Abbreviation Tok := Tok.Tok.

(** What an error message says; the text of a resolver's error is that of the
    error it carries. *)
Inductive GqlError : Type :=
  | UnterminatedString
  | BadNumber (text : bytes)
  | UnexpectedByte (c : Z)
  | ExpectedTok (t found : Tok)
  | TrailingTokens (found : Tok)
  | UnclosedSelection
  | ExpectedFieldName (found : Tok)
  | ExpectedArgName (found : Tok)
  | ExpectedArgValue (found : Tok)
  | RequiresString (field arg : bytes)
  | TopKNotAnInteger
  | UnknownField (name on : bytes)
  | Resolver (e : RroError)
  | OutOfFuel.

Abbreviation parsed := (result GqlError).

(** [b as char] in UTF-8: the Latin-1 character of that byte. *)
Definition latin1 (c : Z) : bytes := if c <? 128 then [c] else [192 + c / 64; 128 + c mod 64].

(** A string from behind its opening quote: its text and what follows the
    closing one. A backslash stands for the byte after it. *)
Fixpoint scan_str (s : bytes) : option (bytes * bytes) :=
  match s with
  | [] => None
  | c :: s' =>
      if c =? 34 then Some ([], s')
      else if c =? 92 then
        match s' with
        | e :: s'' => '(t, r) ← scan_str s''; Some (latin1 e ++ t, r)
        | [] => None
        end
      else '(t, r) ← scan_str s'; Some (latin1 c ++ t, r)
  end.

(** [text.parse::<i64>()] of an optional minus and digits *)
Definition parse_i64 (s : bytes) : option Z :=
  let '(neg, d) := match s with 45 :: d => (true, d) | _ => (false, s) end in
  if bool_decide (d = []) then None
  else
    let v := if neg then - digits_value d else digits_value d in
    if (- 2 ^ 63 <=? v) && (v <? 2 ^ 63) then Some v else None.

Definition punctuation (c : Z) : option Tok :=
  if c =? 123 then Some Tok.LBrace else if c =? 125 then Some Tok.RBrace
  else if c =? 40 then Some Tok.LParen else if c =? 41 then Some Tok.RParen
  else if c =? 58 then Some Tok.Colon else None.

Definition number_token (text : bytes) : parsed Tok :=
  if existsb (Z.eqb 46) text
  then match parse_f64 text with Some f => Ok (Tok.Float f) | None => Err (BadNumber text) end
  else match parse_i64 text with Some i => Ok (Tok.Int i) | None => Err (BadNumber text) end.

Definition word_token (word : bytes) : Tok :=
  if bool_decide (word = str "true") then Tok.Bool true
  else if bool_decide (word = str "false") then Tok.Bool false
  else Tok.Name word.

Definition skipped (c : Z) : bool := bool_decide (c ∈ [32; 9; 10; 13; 44]).
Definition number_byte (c : Z) : bool := is_ascii_digit c || (c =? 46).
Definition name_byte (c : Z) : bool := (c =? 95) || is_ascii_alphanumeric c.

(** One turn of the loop at a non-empty text: the token, if any, and the rest. *)
Definition lex_one (c : Z) (s : bytes) : parsed (option Tok * bytes) :=
  if skipped c then Ok (None, s)
  else if c =? 35 then Ok (None, drop (length (QlLexer.take_while (fun x => negb (x =? 10)) s)) s)
  else
    match punctuation c with
    | Some t => Ok (Some t, s)
    | None =>
        if c =? 34 then
          match scan_str s with Some (t, r) => Ok (Some (Tok.Str t), r) | None => Err UnterminatedString end
        else if (c =? 45) || is_ascii_digit c then
          let text := c :: QlLexer.take_while number_byte s in
          t ← number_token text; Ok (Some t, drop (length text - 1) s)
        else if (c =? 95) || is_ascii_alphabetic c then
          let word := c :: QlLexer.take_while name_byte s in Ok (Some (word_token word), drop (length word - 1) s)
        else Err (UnexpectedByte c)
    end.

(** Every turn consumes a byte, so their number bounds the turns. *)
Fixpoint lex_loop (fuel : nat) (s : bytes) : parsed (list Tok) :=
  match s, fuel with
  | [], _ => Ok [Tok.Eof]
  | _, O => Err OutOfFuel
  | c :: s, S fuel =>
      '(t, r) ← lex_one c s;
      ts ← lex_loop fuel r;
      Ok (match t with Some t => t :: ts | None => ts end)
  end.
Definition lex (src : bytes) : parsed (list Tok) := lex_loop (length src) src.

(** ** The parser, on the tokens that are left *)

Module Operation.
Inductive Operation : Type := Query | Mutation.
End Operation.
Module Value.
Inductive Value : Type := Str (s : bytes) | Int (i : Z) | Float (f : f64) | Bool (b : bool).
End Value.

Inductive Field : Type := mkField {
  f_name : bytes;
  f_args : gmap bytes Value.Value;
  f_selection : list Field;
}.

Definition peek (toks : list Tok) : Tok := default Tok.Eof (head toks).
Definition is_tok (t : Tok) (toks : list Tok) : bool :=
  match peek toks, t with
  | Tok.LBrace, Tok.LBrace | Tok.RBrace, Tok.RBrace | Tok.LParen, Tok.LParen | Tok.RParen, Tok.RParen
  | Tok.Colon, Tok.Colon | Tok.Eof, Tok.Eof => true
  | _, _ => false
  end.
Definition expect (t : Tok) (toks : list Tok) : parsed (list Tok) :=
  if is_tok t toks then Ok (tail toks) else Err (ExpectedTok t (peek toks)).

Definition arg_value (t : Tok) : parsed Value.Value :=
  match t with
  | Tok.Str s => Ok (Value.Str s)
  | Tok.Int i => Ok (Value.Int i)
  | Tok.Float f => Ok (Value.Float f)
  | Tok.Bool b => Ok (Value.Bool b)
  | other => Err (ExpectedArgValue other)
  end.

(** The arguments from behind the parenthesis, the closing one consumed. *)
Fixpoint arguments_loop (toks : list Tok) (args : gmap bytes Value.Value) : parsed (gmap bytes Value.Value * list Tok) :=
  match toks with
  | Tok.RParen :: toks => Ok (args, toks)
  | Tok.Name key :: toks =>
      match toks with
      | Tok.Colon :: toks =>
          v ← arg_value (peek toks);
          match toks with _ :: toks => arguments_loop toks (<[key := v]> args) | [] => Err (ExpectedArgValue Tok.Eof) end
      | _ => Err (ExpectedTok Tok.Colon (peek toks))
      end
  | _ => Err (ExpectedArgName (peek toks))
  end.
Definition arguments (toks : list Tok) : parsed (gmap bytes Value.Value * list Tok) :=
  if is_tok Tok.LParen toks then arguments_loop (tail toks) ∅ else Ok (∅, toks).

(** The fields of a selection set from behind the brace, the closing one
    consumed; a field consumes a token, so their number bounds the turns. *)
Fixpoint fields_loop (fuel : nat) (toks : list Tok) : parsed (list Field * list Tok) :=
  match fuel with
  | O => Err OutOfFuel
  | S fuel =>
      match peek toks with
      | Tok.RBrace => Ok ([], tail toks)
      | Tok.Eof => Err UnclosedSelection
      | Tok.Name name =>
          '(args, toks) ← arguments (tail toks);
          '(selection, toks) ← (if is_tok Tok.LBrace toks then fields_loop fuel (tail toks) else Ok ([], toks));
          '(rest, toks) ← fields_loop fuel toks;
          Ok (mkField name args selection :: rest, toks)
      | other => Err (ExpectedFieldName other)
      end
  end.
Definition selection_set (toks : list Tok) : parsed (list Field * list Tok) :=
  toks ← expect Tok.LBrace toks; fields_loop (S (length toks)) toks.

Definition document (toks : list Tok) : parsed (Operation.Operation * list Field) :=
  let '(op, toks) :=
    match toks with
    | Tok.Name n :: rest =>
        if bool_decide (n = str "query") then (Operation.Query, rest)
        else if bool_decide (n = str "mutation") then (Operation.Mutation, rest)
        else (Operation.Query, toks)
    | _ => (Operation.Query, toks)
    end in
  '(sel, toks) ← selection_set toks;
  if is_tok Tok.Eof toks then Ok (op, sel) else Err (TrailingTokens (peek toks)).

Definition parse (src : bytes) : parsed (Operation.Operation * list Field) := toks ← lex src; document toks.

Definition is_mutation (src : bytes) : bool := match parse src with Ok (Operation.Mutation, _) => true | _ => false end.

(** ** Projection *)

Section project.
Context `{SerdeNumber}.

(** [obj.get(name).cloned().unwrap_or(Null)] *)
Definition get_or_null (name : bytes) (obj : Json) : Json := default JNull (json_get name obj).

Fixpoint project_field (f : Field) (v : Json) : Json :=
  match f_selection f with
  | [] => v
  | sel => JObj (btree_iter (fold_left (fun out g => <[f_name g := project_field g (get_or_null (f_name g) v)]> out) sel (∅ : gmap bytes Json)))
  end.
(** A selection is what a field selects. *)
Definition project (selection : list Field) (obj : Json) : Json := project_field (mkField [] ∅ selection) obj.
End project.

(** ** Execution *)

(** The numbers serde_json makes of integers. *)
Class NumberOfInt `{SerdeNumber} := num_of_int : Z -> number.

(** [from_u64]... the envelope: [errors] alone for what does not parse. *)
Inductive GqlResponse `{SerdeNumber} : Type :=
  | ParseError (e : GqlError)
  | Data (data : gmap bytes Json) (errors : list (GqlError * bytes)).

Section exec.
Context `{SerdeNumber} `{Libm} `{TextAnalyzer} `{Ln32} `{LegacyPosting} `{Highlighter} `{!NumberOfInt}.
Context {HC : BinaryHeap Scored reverse_key} {HR : BinaryHeap Scored scored_key}.
Variable json_text : Json -> bytes.
Variable json_len : Metadata -> Z.
Variable now_ms : Z -> Z.
Variable cf_sst_bytes : CF -> Z.
(** The derived serialisation of the health report. *)
Variable health_json : HealthReport -> Json.

Definition with_db (s : ConnXRecall) (d : Db) : ConnXRecall := mkRecall d (ann s) (pending s) (quotas s) (params s) (quantizer s).

Definition set_db (e : OpenEstate) (d : Db) : OpenEstate := mkEstate (with_db (oe_recall e) d) (oe_info e) (oe_lexical_stats e).
Definition estate_health (e : OpenEstate) : HealthReport := health cf_sst_bytes (handle_of e) (oe_db e).

Definition resolved {A} (r : result RroError A) : parsed A := match r with Ok a => Ok a | Err e => Err (Resolver e) end.

Definition string_arg (field : Field) (arg : bytes) : parsed bytes :=
  match f_args field !! arg with Some (Value.Str s) => Ok s | _ => Err (RequiresString (f_name field) arg) end.

Definition eq_ignore_ascii_case (a b : bytes) : bool := bool_decide (map to_ascii_lowercase a = map to_ascii_lowercase b).

Definition collection_json (c : bytes * Z) : Json := JObj [(str "count", JNum (num_of_int c.2)); (str "name", JStr c.1)].
Definition document_json (d : StoredDoc) : Json :=
  JObj [(str "id", JStr (sd_id d)); (str "metadata", JObj (btree_iter (sd_metadata d))); (str "text", JStr (sd_text d))].
Definition hit_json (c : Candidate) : Json :=
  JObj [(str "id", JStr (c_id c)); (str "metadata", JObj (btree_iter (c_metadata c))); (str "score", json_of_f32 (c_score c));
        (str "text", JStr (c_text c))].

Definition search_query (text : bytes) (vector : Embedding) (top_k : Z) (mode : FusionMode) : EstateQuery :=
  mkEstateQuery (Some text) (Some vector) None None None None top_k ∅ None None None true 0 false false [] weights_default mode.

(** One root field of a query; it only reads. *)
Definition resolve_root {S} (o : ReasonReadyObject _ S) (e : OpenEstate) (field : Field) : parsed Json :=
  let name := f_name field in
  if bool_decide (name = str "health") then Ok (project (f_selection field) (health_json (estate_health e)))
  else if bool_decide (name = str "collections") then
    Ok (JArr (map (fun c => project (f_selection field) (collection_json c)) (collections (oe_db e))))
  else if bool_decide (name = str "document") then
    id ← string_arg field (str "id");
    Ok (match get_doc (oe_db e) id with Some d => project (f_selection field) (document_json d) | None => JNull end)
  else if bool_decide (name = str "search") then
    query ← string_arg field (str "query");
    top_k ← match f_args field !! str "topK" with
            | Some (Value.Int i) => Ok (Z.max i 0)
            | None => Ok 10
            | Some _ => Err TopKNotAnInteger
            end;
    let mode := match f_args field !! str "mode" with
                | Some (Value.Str s) => if eq_ignore_ascii_case s (str "dbsf") then Dbsf else Rrf
                | _ => Rrf
                end in
    vector ← resolved (embed_query o query);
    hits ← resolved (QueryExec.query json_text (oe_recall e) (search_query query vector top_k mode));
    Ok (JArr (map (fun c => project (f_selection field) (hit_json c)) hits))
  else Err (UnknownField name (str "Query")).

(** One root field of a mutation: the estate, the operations for the graph
    and the value. *)
Definition resolve_mutation {S} (o : ReasonReadyObject _ S) (e : OpenEstate) (field : Field) : OpenEstate * list GraphOp * parsed Json :=
  let name := f_name field in
  if bool_decide (name = str "upsert") then
    match (id ← string_arg field (str "id"); text ← string_arg field (str "text");
           rs ← resolved (embed_documents o [mkDocument id text ∅]); Ok (id, rs)) with
    | Err err => (e, [], Err err)
    | Ok (id, rs) =>
        let '(d, r) := Store.upsert json_text json_len now_ms (quotas (oe_recall e)) (oe_lexical_stats e) (oe_db e) rs in
        match r with
        | Ok gops =>
            (set_db e d, gops,
             Ok (project (f_selection field) (JObj [(str "id", JStr id); (str "indexed", JNum (num_of_int 1))])))
        | Err err => (set_db e d, [], Err (Resolver err))
        end
    end
  else if bool_decide (name = str "delete") then
    match string_arg field (str "id") with
    | Err err => (e, [], Err err)
    | Ok id =>
        let '(d, gops) := Store.remove json_text now_ms (oe_lexical_stats e) (oe_db e) id in
        (set_db e d, gops, Ok (project (f_selection field) (JObj [(str "deleted", JBool true); (str "id", JStr id)])))
    end
  else (e, [], Err (UnknownField name (str "Mutation"))).

(** The answer of one root field under its name, or null and an error. *)
Definition answer (data : gmap bytes Json) (errors : list (GqlError * bytes)) (field : Field) (r : parsed Json)
  : gmap bytes Json * list (GqlError * bytes) :=
  match r with
  | Ok v => (<[f_name field := v]> data, errors)
  | Err err => (<[f_name field := JNull]> data, errors ++ [(err, f_name field)])
  end.

Fixpoint run_queries {S} (o : ReasonReadyObject _ S) (e : OpenEstate) (roots : list Field) (data : gmap bytes Json) (errors : list (GqlError * bytes))
  : gmap bytes Json * list (GqlError * bytes) :=
  match roots with
  | [] => (data, errors)
  | field :: roots =>
      let '(data, errors) := answer data errors field (resolve_root o e field) in run_queries o e roots data errors
  end.

Fixpoint run_mutations {S} (o : ReasonReadyObject _ S) (e : OpenEstate) (gops : list GraphOp) (roots : list Field) (data : gmap bytes Json)
  (errors : list (GqlError * bytes)) : OpenEstate * list GraphOp * (gmap bytes Json * list (GqlError * bytes)) :=
  match roots with
  | [] => (e, gops, (data, errors))
  | field :: roots =>
      let '(e, ops, r) := resolve_mutation o e field in
      let '(data, errors) := answer data errors field r in
      run_mutations o e (gops ++ ops) roots data errors
  end.

Definition execute {S} (o : ReasonReadyObject _ S) (e : OpenEstate) (query : bytes) : OpenEstate * list GraphOp * GqlResponse :=
  match parse query with
  | Err err => (e, [], ParseError err)
  | Ok (Operation.Query, roots) => let '(data, errors) := run_queries o e roots ∅ [] in (e, [], Data data errors)
  | Ok (Operation.Mutation, roots) =>
      let '(e, gops, (data, errors)) := run_mutations o e [] roots ∅ [] in (e, gops, Data data errors)
  end.
End exec.

(** ** Every document is parsed or refused *)

Lemma scan_str_shorter s t r : scan_str s = Some (t, r) -> (length r <= length s)%nat.
Proof.
  remember (length s) as n eqn:E. assert (length s <= n)%nat as Hl by lia. clear E. revert s t r Hl.
  induction n as [|n IH]; intros [|c s] t r Hl Es; cbn in Hl; try done; [lia|]. cbn [scan_str] in Es.
  destruct (c =? 34); [injection Es as <- <-; lia|]. destruct (c =? 92).
  - destruct s as [|e s]; [done|]. destruct (scan_str s) as [[t' r']|] eqn:E; [|done]. injection Es as <- <-.
    apply IH in E; cbn in *; lia.
  - destruct (scan_str s) as [[t' r']|] eqn:E; [|done]. injection Es as <- <-. apply IH in E; lia.
Qed.

Lemma lex_one_ok c s : match lex_one c s with Ok (_, r) => (length r <= length s)%nat | Err e => e <> OutOfFuel end.
Proof.
  unfold lex_one. destruct (skipped c); [lia|]. destruct (c =? 35); [rewrite length_drop; lia|].
  destruct (punctuation c); [lia|]. destruct (c =? 34).
  { destruct (scan_str s) as [[t r]|] eqn:E; [by eapply scan_str_shorter|done]. }
  destruct ((c =? 45) || is_ascii_digit c).
  { unfold number_token. destruct (existsb _ _); [destruct (parse_f64 _)|destruct (parse_i64 _)]; cbn; try done; rewrite length_drop; lia. }
  destruct ((c =? 95) || is_ascii_alphabetic c); [cbn; rewrite length_drop; lia|done].
Qed.

Lemma lex_loop_total fuel s : (length s <= fuel)%nat -> lex_loop fuel s <> Err OutOfFuel.
Proof.
  revert s. induction fuel as [|fuel IH]; intros [|c s] Hl; cbn in Hl; try done; [lia|]. cbn [lex_loop].
  pose proof (lex_one_ok c s) as Ho. destruct (lex_one c s) as [[t r]|e]; cbn; [|congruence].
  specialize (IH r ltac:(lia)). destruct (lex_loop fuel r); cbn; [done|congruence].
Qed.

Lemma arguments_loop_ok toks args :
  match arguments_loop toks args with Ok (_, r) => (length r < length toks)%nat | Err e => e <> OutOfFuel end.
Proof.
  remember (length toks) as n eqn:E. assert (length toks <= n)%nat as Hl by lia. rewrite E. clear E. revert toks args Hl.
  induction n as [|n IH]; intros [|t toks] args Hl; cbn in Hl; try done; [lia|].
  destruct t; try done; [cbn; lia|]. cbn [arguments_loop]. destruct toks as [|[] toks]; try done.
  destruct toks as [|t toks]; [done|]. cbn [peek head default from_option id].
  destruct (arg_value t) eqn:Ev; cbn; [|destruct t; naive_solver].
  specialize (IH toks (<[n0:=a]> args) ltac:(cbn in *; lia)). destruct (arguments_loop toks _) as [[? r]|]; [|done]. cbn in *. lia.
Qed.

Lemma fields_loop_ok fuel toks : (length toks < fuel)%nat ->
  match fields_loop fuel toks with Ok (_, r) => (length r < length toks)%nat | Err e => e <> OutOfFuel end.
Proof.
  revert toks. induction fuel as [|fuel IH]; intros toks Hl; [lia|]. cbn [fields_loop]. destruct toks as [|t toks]; [done|].
  cbn [peek head default from_option id]. destruct t; try done; [cbn; lia|]. cbn [tail length] in *.
  assert (match arguments toks with Ok (_, r) => (length r <= length toks)%nat | Err e => e <> OutOfFuel end) as Ha.
  { unfold arguments. destruct (is_tok Tok.LParen toks); [|done]. pose proof (arguments_loop_ok (tail toks) ∅) as Ha.
    destruct (arguments_loop _ _) as [[? r]|]; [|done]. destruct toks; cbn in *; lia. }
  destruct (arguments toks) as [[args r]|]; cbn [mbind result_bind]; [|congruence].
  assert (match (if is_tok Tok.LBrace r then fields_loop fuel (tail r) else Ok ([], r)) with
          | Ok (_, r') => (length r' <= length r)%nat | Err e => e <> OutOfFuel end) as Hs.
  { destruct (is_tok Tok.LBrace r); [|done]. specialize (IH (tail r)). destruct r as [|? r]; cbn [tail length] in *.
    - specialize (IH ltac:(lia)). destruct (fields_loop fuel []) as [[? ?]|]; [lia|done].
    - specialize (IH ltac:(lia)). destruct (fields_loop fuel r) as [[? ?]|]; [lia|done]. }
  destruct (if is_tok Tok.LBrace r then _ else _) as [[sel r2]|]; cbn [mbind result_bind]; [|congruence].
  specialize (IH r2 ltac:(lia)). destruct (fields_loop fuel r2) as [[rest r3]|]; cbn; [lia|congruence].
Qed.

Lemma parse_total src : parse src <> Err OutOfFuel.
Proof.
  unfold parse, lex. pose proof (lex_loop_total (length src) src ltac:(lia)) as Hl. destruct (lex_loop _ _) as [toks|e]; cbn; [|congruence].
  unfold document. destruct (match toks with [] => _ | _ => _ end) as [op rest]. unfold selection_set, expect.
  destruct (is_tok Tok.LBrace rest); cbn [mbind result_bind]; [|done].
  pose proof (fields_loop_ok (S (length (tail rest))) (tail rest) ltac:(lia)) as Hf. revert Hf. generalize (fields_loop (S (length (tail rest))) (tail rest)).
  intros [[sel r]|e] Hf; cbn [mbind result_bind]; [by destruct (is_tok Tok.Eof r)|congruence].
Qed.

(** ** The canonical text of a document parses back *)

Definition name_ok (n : bytes) : Prop :=
  match n with
  | c :: n' => ((c =? 95) || is_ascii_alphabetic c) = true /\ Forall (fun b => name_byte b = true) n'
  | [] => False
  end /\ n <> str "true" /\ n <> str "false".

Inductive value_ok : Value.Value -> Prop :=
  | vok_str s : Forall (fun b => 0 <= b < 128) s -> value_ok (Value.Str s)
  | vok_int i : - 2 ^ 63 <= i < 2 ^ 63 -> value_ok (Value.Int i)
  | vok_bool b : value_ok (Value.Bool b).

Inductive field_ok : Field -> Prop :=
  | fok name args sel : name_ok name -> map_Forall (fun k v => name_ok k /\ value_ok v) args -> Forall field_ok sel ->
      field_ok (mkField name args sel).

(** The tokens of a document. *)
Definition value_tok (v : Value.Value) : Tok :=
  match v with Value.Str s => Tok.Str s | Value.Int i => Tok.Int i | Value.Float f => Tok.Float f | Value.Bool b => Tok.Bool b end.
Definition arg_toks (kv : bytes * Value.Value) : list Tok := [Tok.Name kv.1; Tok.Colon; value_tok kv.2].
Fixpoint field_toks (f : Field) : list Tok :=
  Tok.Name (f_name f)
  :: (if decide (f_args f = ∅) then [] else Tok.LParen :: concat (map arg_toks (map_to_list (f_args f))) ++ [Tok.RParen])
  ++ match f_selection f with [] => [] | sel => Tok.LBrace :: concat (map field_toks sel) ++ [Tok.RBrace] end.
Definition fields_toks (fs : list Field) : list Tok := concat (map field_toks fs).

Section field_ind.
Context (P : Field -> Prop).
Hypothesis HP : forall name args sel, Forall P sel -> P (mkField name args sel).
Fixpoint field_ind' (f : Field) : P f :=
  match f with
  | mkField name args sel =>
      HP name args sel ((fix go l := match l return Forall P l with
        | [] => Forall_nil_2 P | x :: l => Forall_cons_2 P x l (field_ind' x) (go l) end) sel)
  end.
End field_ind.

Lemma arguments_loop_toks kvs args rest : NoDup kvs.*1 -> (forall k, k ∈ kvs.*1 -> args !! k = None) ->
  arguments_loop (concat (map arg_toks kvs) ++ Tok.RParen :: rest) args = Ok (list_to_map kvs ∪ args, rest).
Proof.
  revert args. induction kvs as [|[k v] kvs IH]; intros args Hn Hd.
  - cbn. by rewrite (left_id_L ∅ (∪)).
  - cbn [map concat arg_toks fst snd app arguments_loop]. cbn [peek head default from_option id].
    assert (arg_value (value_tok v) = Ok v) as -> by (by destruct v). cbn [mbind result_bind].
    change (((k, v) :: kvs).*1) with (k :: kvs.*1) in *. apply NoDup_cons in Hn as [Hk Hn].
    rewrite IH; [|done|].
    + do 2 f_equal. cbn [list_to_map foldr uncurry]. cbn. rewrite <- insert_union_r; [by rewrite insert_union_l|]. by apply not_elem_of_list_to_map.
    + intros k' Hk'. rewrite lookup_insert_ne by (intros ->; done). apply Hd. by right.
Qed.

(** Nothing a field list is followed by looks like a part of its last field. *)
Definition closes (toks : list Tok) : Prop := is_tok Tok.LParen toks = false /\ is_tok Tok.LBrace toks = false.

Lemma fields_toks_closes fs rest : closes rest -> closes (fields_toks fs ++ rest).
Proof. intros Hr. by destruct fs as [|[] fs]. Qed.

Lemma fields_loop_toks fs : forall fuel rest, (length (fields_toks fs) < fuel)%nat ->
  fields_loop fuel (fields_toks fs ++ Tok.RBrace :: rest) = Ok (fs, rest).
Proof.
  (* by the number of tokens *)
  remember (length (fields_toks fs)) as n eqn:E. assert (length (fields_toks fs) <= n)%nat as Hl by lia. clear E.
  revert fs Hl. induction n as [|n IH]; intros fs Hl fuel rest Hf.
  - destruct fs as [|f fs]; [by destruct fuel; [lia|]|]. destruct f. cbn in Hl. lia.
  - destruct fuel as [|fuel]; [lia|]. destruct fs as [|[name args sel] fs]; [done|].
    unfold fields_toks in *. cbn [map concat field_toks f_name f_args f_selection] in *. rewrite <- !app_assoc in *. cbn [app] in *. rewrite <- ?app_assoc in *.
    cbn [fields_loop peek head default from_option id tail].
    set (after := concat (map field_toks fs) ++ Tok.RBrace :: rest).
    assert (closes after) as Hc by (by apply (fields_toks_closes fs)).
    set (body := match sel with [] => [] | _ => _ end) in *.
    assert (arguments ((if decide (args = ∅) then [] else Tok.LParen :: concat (map arg_toks (map_to_list args)) ++ [Tok.RParen]) ++ body ++ after)
            = Ok (args, body ++ after)) as ->.
    { unfold arguments. case_decide as Ha.
      - subst args. cbn [app]. assert (is_tok Tok.LParen (body ++ after) = false) as ->; [|done]. subst body. destruct sel; [by destruct Hc|done].
      - cbn [app is_tok peek head default from_option id tail]. rewrite <- app_assoc. cbn [app].
        rewrite arguments_loop_toks; [|apply NoDup_fst_map_to_list|by intros; apply lookup_empty].
        by rewrite list_to_map_to_list, (right_id_L ∅ (∪)). }
    cbn [mbind result_bind].
    assert (forall l, length (concat (map field_toks l)) = length (fields_toks l)) as Hft by done.
    cbn [length] in *. rewrite ?length_app in Hl, Hf.
    assert ((if is_tok Tok.LBrace (body ++ after) then fields_loop fuel (tail (body ++ after)) else Ok ([], body ++ after)) = Ok (sel, after)) as ->.
    { subst body. destruct sel as [|f sel]; [destruct Hc as [_ Hc]; cbn [app]; by rewrite Hc|].
      cbn [app is_tok peek head default from_option id tail]. rewrite <- app_assoc. cbn [app].
      change (concat (field_toks f :: map field_toks sel)) with (fields_toks (f :: sel)) in *. 
      change (concat (map field_toks (f :: sel))) with (fields_toks (f :: sel)) in *.
      cbn [length app] in Hl, Hf. repeat (rewrite length_app in Hl). repeat (rewrite length_app in Hf). cbn [length] in Hl, Hf.
      apply (IH (f :: sel)); [|lia]. cbn [map concat]. rewrite !length_app. rewrite !length_app in Hl. cbn [length] in Hl. lia. }
    cbn [mbind result_bind]. subst after. rewrite (IH fs); [done| |lia]. rewrite !length_app in Hl. lia.
Qed.

Definition op_tok (op : Operation.Operation) : Tok :=
  Tok.Name (match op with Operation.Query => str "query" | Operation.Mutation => str "mutation" end).
Definition document_toks (op : Operation.Operation) (fs : list Field) : list Tok :=
  op_tok op :: Tok.LBrace :: fields_toks fs ++ [Tok.RBrace].

Lemma document_of_toks op fs : document (document_toks op fs ++ [Tok.Eof]) = Ok (op, fs).
Proof.
  unfold document, document_toks, op_tok. cbn [app]. 
  assert (forall rest, selection_set (Tok.LBrace :: fields_toks fs ++ [Tok.RBrace] ++ rest) = Ok (fs, rest)) as Hs.
  { intros rest. unfold selection_set, expect. cbn [is_tok peek head default from_option id tail mbind result_bind].
    apply fields_loop_toks. rewrite length_app. lia. }
  destruct op.
  - rewrite bool_decide_true by done. rewrite <- app_assoc. by rewrite Hs.
  - rewrite bool_decide_false by done. rewrite bool_decide_true by done. rewrite <- app_assoc. by rewrite Hs.
Qed.

Lemma pretty_char_value d : (d < 10)%N -> ch (pretty_N_char d) - 48 = Z.of_N d.
Proof. intros Hd. destruct d as [|p]; [done|]. do 10 (destruct p as [p|p|]; try done; try lia). Qed.

Lemma pretty_value x s : fold_left (fun acc c => acc * 10 + (c - 48)) (str (pretty_N_go x s)) 0
  = fold_left (fun acc c => acc * 10 + (c - 48)) (str s) (Z.of_N x).
Proof.
  revert s. induction (N.lt_wf_0 x) as [x _ IH]; intros s. destruct (decide (x = 0)%N) as [->|Hx]; [done|].
  rewrite pretty_N_go_step by lia. rewrite IH by (apply N.div_lt; lia). unfold str at 1. cbn [list_ascii_of_string map fold_left].
  f_equal. pose proof (N.mod_lt x 10). rewrite pretty_char_value by lia. rewrite N2Z.inj_div, N2Z.inj_mod. Z.div_mod_to_equations. lia.
Qed.

(** Decimal digits read back as their number. *)
Lemma digits_value_display n : 0 <= n -> digits_value (display n) = n.
Proof.
  intros Hn. unfold digits_value, display, pretty, pretty_N. case_decide as E; [|rewrite pretty_value; cbn; lia].
  replace n with 0 by lia. done.
Qed.

Definition quoted (s : bytes) : bytes := 34 :: concat (map (fun c => if bool_decide (c = 34 \/ c = 92) then [92; c] else [c]) s) ++ [34].

Definition tok_text (t : Tok) : bytes :=
  match t with
  | Tok.LBrace => str "{" | Tok.RBrace => str "}" | Tok.LParen => str "(" | Tok.RParen => str ")" | Tok.Colon => str ":"
  | Tok.Name n => n
  | Tok.Str s => quoted s
  | Tok.Int i => (if i <? 0 then [45] else []) ++ display (Z.abs i)
  | Tok.Bool b => if b then str "true" else str "false"
  | Tok.Float _ | Tok.Eof => []
  end.
(** Every token with a space behind it. *)
Definition render_toks (ts : list Tok) : bytes := concat (map (fun t => tok_text t ++ [32]) ts).

Definition tok_ok (t : Tok) : Prop :=
  match t with
  | Tok.Name n => name_ok n
  | Tok.Str s => value_ok (Value.Str s)
  | Tok.Int i => value_ok (Value.Int i)
  | Tok.Float _ | Tok.Eof => False
  | _ => True
  end.

Lemma scan_str_quoted s r : Forall (fun b => 0 <= b < 128) s ->
  scan_str (concat (map (fun c => if bool_decide (c = 34 \/ c = 92) then [92; c] else [c]) s) ++ 34 :: r) = Some (s, r).
Proof.
  induction 1 as [|c s Hc _ IH]; [done|]. cbn [map concat]. rewrite <- app_assoc.
  assert (latin1 c = [c]) as Hl by (unfold latin1; rewrite (proj2 (Z.ltb_lt _ _)) by lia; done).
  case_bool_decide as Hq; cbn [app scan_str].
  - cbn [Z.eqb Pos.eqb]. rewrite IH. cbn. by rewrite Hl.
  - destruct (Z.eqb_spec c 34); [naive_solver|]. destruct (Z.eqb_spec c 92); [naive_solver|]. rewrite IH. cbn. by rewrite Hl.
Qed.

Lemma take_while_stop f s r : Forall (fun b => f b = true) s -> f 32 = false -> QlLexer.take_while f (s ++ 32 :: r) = s.
Proof. intros Hs Hf. by apply QlLexerFacts.take_while_app_stop. Qed.

Lemma digit_facts b : is_ascii_digit b = true -> 48 <= b <= 57.
Proof. unfold is_ascii_digit. intros H. repeat (apply andb_prop in H as [H ?]). lia. Qed.

Lemma punctuation_none c : c <> 123 -> c <> 125 -> c <> 40 -> c <> 41 -> c <> 58 -> punctuation c = None.
Proof. intros. unfold punctuation. by rewrite !(proj2 (Z.eqb_neq _ _)) by done. Qed.

Lemma lex_number neg n r : 0 <= n -> (if neg : bool then n <= 2 ^ 63 else n < 2 ^ 63) ->
  exists c s, (if neg then [45] else []) ++ display n = c :: s
    /\ lex_one c (s ++ 32 :: r) = Ok (Some (Tok.Int (if neg then - n else n)), 32 :: r).
Proof.
  intros H0 Hn. pose proof (display_digits n) as Hd. pose proof (display_nonempty n) as Hne. pose proof (digits_value_display n H0) as Hv.
  assert (exists c s, (if neg then [45] else []) ++ display n = c :: s /\ Forall (fun b => is_ascii_digit b = true) s
            /\ (c = 45 /\ neg = true /\ s = display n \/ neg = false /\ is_ascii_digit c = true /\ display n = c :: s)) as (c & s & E & Hs & Hc).
  { destruct neg; [eexists _, _; split; [done|]; split; [done|by left]|]. destruct (display n) as [|c s] eqn:Ed; [done|].
    apply Forall_cons in Hd as [Hc Hs]. eexists _, _. split; [done|]. split; [done|by right]. }
  exists c, s. split; [done|]. unfold lex_one.
  assert (c = 45 \/ 48 <= c <= 57) as Hr by (destruct Hc as [(-> & _)|(_ & Hc%digit_facts & _)]; [by left|by right]).
  assert (skipped c = false) as -> by (apply bool_decide_eq_false; intros Hin; repeat (apply elem_of_cons in Hin as [->|Hin]; [lia|]); by apply elem_of_nil in Hin).
  rewrite (proj2 (Z.eqb_neq c 35)) by lia. 
  assert (punctuation c = None) as -> by (apply punctuation_none; lia).
  rewrite (proj2 (Z.eqb_neq c 34)) by lia.
  assert ((c =? 45) || is_ascii_digit c = true) as -> by (destruct Hc as [(-> & _)|(_ & Hc & _)]; [done|by rewrite Hc, orb_true_r]).
  rewrite take_while_stop; [|eapply Forall_impl; [exact Hs|]; intros b Hb; unfold number_byte; by rewrite Hb|done].
  assert (number_token (c :: s) = Ok (Tok.Int (if neg then - n else n))) as ->.
  { unfold number_token. assert (existsb (Z.eqb 46) (c :: s) = false) as ->.
    { apply not_true_iff_false. intros (b & Hb & Eb)%existsb_exists. apply Z.eqb_eq in Eb. subst b. apply list_elem_of_In, elem_of_cons in Hb as [Hb|Hb]; [lia|].
      rewrite Forall_forall in Hs. apply Hs, digit_facts in Hb. lia. }
    unfold parse_i64. destruct Hc as [(-> & -> & ->)|(-> & Hc%digit_facts & Ed)].
    - rewrite bool_decide_false by done. rewrite Hv. rewrite (proj2 (Z.leb_le _ _)), (proj2 (Z.ltb_lt _ _)) by lia. done.
    - assert (match c :: s with 45 :: d => (true, d) | _ => (false, c :: s) end = (false, c :: s)) as ->.
      { destruct c as [|p|p]; try done. do 6 (destruct p as [p|p|]; try done; try lia). }
      rewrite bool_decide_false by done. rewrite <- Ed, Hv. rewrite (proj2 (Z.leb_le _ _)), (proj2 (Z.ltb_lt _ _)) by lia. done. }
  cbn [mbind result_bind length]. do 2 f_equal. rewrite Nat.sub_1_r. cbn [Nat.pred]. by rewrite drop_app_length.
Qed.

Lemma name_start c : (c =? 95) || is_ascii_alphabetic c = true ->
  skipped c = false /\ c <> 35 /\ punctuation c = None /\ c <> 34 /\ c <> 45 /\ is_ascii_digit c = false.
Proof.
  intros Hc. assert (c = 95 \/ 65 <= c <= 90 \/ 97 <= c <= 122) as Hr.
  { apply orb_prop in Hc as [Hc%Z.eqb_eq|Hc]; [by left|]. revert Hc. unfold is_ascii_alphabetic, is_ascii_lowercase, is_ascii_uppercase. lia. }
  split_and!; try lia.
  - apply bool_decide_eq_false. intros Hin. repeat (apply elem_of_cons in Hin as [->|Hin]; [lia|]). by apply elem_of_nil in Hin.
  - apply punctuation_none; lia.
  - apply not_true_iff_false. intros Hd%digit_facts. lia.
Qed.

Lemma lex_name n r : name_ok n -> exists c s, n = c :: s /\ lex_one c (s ++ 32 :: r) = Ok (Some (Tok.Name n), 32 :: r).
Proof.
  intros (Hn & Ht & Hf). destruct n as [|c s]; [done|]. destruct Hn as [Hc Hs]. exists c, s. split; [done|].
  destruct (name_start c Hc) as (E1 & E2 & E3 & E4 & E5 & E6). unfold lex_one. rewrite E1, E3, E6, Hc.
  rewrite (proj2 (Z.eqb_neq c 35)), (proj2 (Z.eqb_neq c 34)), (proj2 (Z.eqb_neq c 45)) by done. cbn [orb].
  rewrite take_while_stop by done. unfold word_token. rewrite !bool_decide_false by done.
  cbn [length]. rewrite Nat.sub_1_r. cbn [Nat.pred]. by rewrite drop_app_length.
Qed.

Lemma lex_one_text t r : tok_ok t -> exists c s, tok_text t = c :: s /\ lex_one c (s ++ 32 :: r) = Ok (Some t, 32 :: r).
Proof.
  destruct t as [| | | | |n|s|i|f|b|]; intros Ht; try done; try (eexists _, _; split; reflexivity).
  - by apply lex_name.
  - inversion Ht as [s' Hs| |]; subst. eexists _, _. split; [done|]. unfold lex_one. cbn [skipped].
    change (skipped 34) with false. change (34 =? 35) with false. change (punctuation 34) with (@None Tok). change (34 =? 34) with true. cbn iota.
    rewrite <- app_assoc. cbn [app]. by rewrite scan_str_quoted.
  - inversion Ht as [|i' Hi|]; subst. cbn [tok_text]. destruct (Z.ltb_spec i 0).
    + destruct (lex_number true (Z.abs i) r) as (c & s & E & El); [lia|lia|]. exists c, s. split; [done|]. rewrite El. repeat f_equal. lia.
    + destruct (lex_number false (Z.abs i) r) as (c & s & E & El); [lia|lia|]. exists c, s. split; [done|]. rewrite El. repeat f_equal. lia.
  - destruct b; eexists _, _; split; try reflexivity.
Qed.

Lemma gql_lex_render ts fuel : Forall tok_ok ts -> (length (render_toks ts) <= fuel)%nat -> lex_loop fuel (render_toks ts) = Ok (ts ++ [Tok.Eof]).
Proof.
  intros Hts. revert fuel. induction Hts as [|t ts Ht _ IH]; intros fuel Hl; [by destruct fuel|].
  unfold render_toks in *. cbn [map concat] in *. fold (render_toks ts) in *. rewrite <- app_assoc in *. cbn [app] in *.
  destruct (lex_one_text t (render_toks ts) Ht) as (c & s & E & El). rewrite E in *. cbn [app length] in *. rewrite length_app in Hl. cbn [length] in Hl.
  destruct fuel as [|[|fuel]]; [lia|lia|]. cbn [lex_loop]. rewrite El. cbn [mbind result_bind].
  change (lex_one 32 (render_toks ts)) with (Ok (None : option Tok, render_toks ts) : parsed _). cbn [mbind result_bind].
  rewrite IH by lia. done.
Qed.

(** A document as text. *)
Definition render_document (op : Operation.Operation) (fs : list Field) : bytes := render_toks (document_toks op fs).

Lemma field_toks_ok f : field_ok f -> Forall tok_ok (field_toks f).
Proof.
  induction f as [name args sel IH] using field_ind'. intros Hf. inversion Hf as [? ? ? Hn Ha Hs]; subst. cbn [field_toks f_name f_args f_selection].
  constructor; [done|]. apply Forall_app. split.
  - case_decide; [done|]. constructor; [done|]. apply Forall_app. split; [|by constructor]. apply Forall_concat, Forall_map, Forall_forall.
    intros [k v] Hin%elem_of_map_to_list. destruct (Ha k v Hin) as [Hk Hv]. constructor; [done|]. constructor; [done|]. constructor; [|constructor].
    destruct v; [done|done|inversion Hv|done].
  - destruct sel as [|g sel]; [done|]. constructor; [done|]. apply Forall_app. split; [|by constructor]. apply Forall_concat, Forall_map.
    rewrite Forall_forall in *. intros x Hx. by apply IH, Hs.
Qed.

(** C34: Every document of names, strings of ASCII, 64-bit integers and booleans
    has a text that parses back to it. *)
Theorem parse_render_document op fs : Forall field_ok fs -> parse (render_document op fs) = Ok (op, fs).
Proof.
  intros Hf. unfold parse, lex, render_document. rewrite gql_lex_render; [cbn [mbind result_bind]; apply document_of_toks| |done].
  unfold document_toks. constructor; [destruct op; cbn; split_and!; try done; repeat constructor|]. constructor; [done|].
  apply Forall_app. split; [|by constructor]. unfold fields_toks. apply Forall_concat, Forall_map. eapply Forall_impl; [exact Hf|]. apply field_toks_ok.
Qed.

(** ** Projection returns what was selected *)

Section projection.
Context `{SerdeNumber}.

Lemma list_find_btree {A} (m : gmap bytes A) k :
  match list_find (fun p => p.1 = k) (btree_iter m) with Some (_, (_, x)) => Some x | None => None end = m !! k.
Proof.
  destruct (list_find _ _) as [[i [k' x]]|] eqn:E.
  - apply list_find_Some in E as (Hi & Hk & _). cbn in Hk. subst k'. symmetry. apply elem_of_btree_iter.
    eapply list_elem_of_lookup_2. exact Hi.
  - apply list_find_None in E. symmetry. apply eq_None_not_Some. intros [x Hx]. apply elem_of_btree_iter in Hx.
    rewrite Forall_forall in E. by apply (E _ Hx).
Qed.

(** The last field of a name. *)
Definition selected (k : bytes) (sel : list Field) : option Field := snd <$> list_find (fun f => f_name f = k) (rev sel).

Lemma project_fold (k : bytes) (obj : Json) (sel : list Field) (out : gmap bytes Json) :
  fold_left (fun out g => <[f_name g := project_field g (get_or_null (f_name g) obj)]> out) sel out !! k
  = match selected k sel with Some g => Some (project_field g (get_or_null k obj)) | None => out !! k end.
Proof.
  revert out. induction sel as [|f sel IH] using rev_ind; intros out; [done|].
  unfold selected in *. rewrite fold_left_app, rev_app_distr. cbn [fold_left rev app list_find]. rewrite lookup_insert.
  destruct (decide (f_name f = k)) as [<-|Hk]; cbn; [done|]. rewrite IH. by destruct (list_find _ (rev sel)) as [[? ?]|].
Qed.

(** A projection has the selected fields and no other; each is the object's
    value of that name, null when it has none, projected in turn. *)
Lemma project_exact (sel : list Field) (obj : Json) (k : bytes) : sel <> [] ->
  json_get k (project sel obj)
  = (fun g => if decide (f_selection g = []) then get_or_null k obj else project (f_selection g) (get_or_null k obj)) <$> selected k sel.
Proof.
  intros Hs. unfold project. cbn [project_field f_selection]. destruct sel as [|f sel]; [done|]. unfold json_get.
  rewrite list_find_btree, project_fold, lookup_empty. destruct (selected k _) as [[n a s]|]; [|done]. cbn [fmap option_fmap option_map f_selection].
  f_equal. case_decide as E; [by subst s|]. by destruct s.
Qed.

(** Selecting below a value that is no object makes an object of nulls: the
    elements of an array and the text of a string are lost. *)
Lemma nested_selection_loses (sel : list Field) (v : Json) : sel <> [] -> (forall k, json_get k v = None) ->
  project sel v = project sel JNull.
Proof.
  intros Hs Hv. unfold project. cbn [project_field f_selection]. destruct sel as [|f sel]; [done|]. do 2 f_equal.
  revert Hs. generalize (∅ : gmap bytes Json). generalize (f :: sel) as l. induction l as [|g l IH]; intros out Hs; [done|].
  cbn [fold_left]. assert (get_or_null (f_name g) v = get_or_null (f_name g) JNull) as ->.
  { unfold get_or_null. by rewrite Hv. }
  destruct l; [done|]. by apply IH.
Qed.
End projection.

(** ** Mutations *)

Section mutations.
Context `{SerdeNumber} `{Libm} `{TextAnalyzer} `{Ln32} `{LegacyPosting} `{Highlighter} `{!NumberOfInt}.
Variable json_text : Json -> bytes.
Variable json_len : Metadata -> Z.
Variable now_ms : Z -> Z.
Variable cf_sst_bytes : CF -> Z.
Variable health_json : HealthReport -> Json.
Context {HC : BinaryHeap Scored reverse_key} {Hheap : BinaryHeap Scored scored_key}.
Context {St : Type} (o : ReasonReadyObject _ St).

Local Abbreviation refines e := (Refines json_text now_ms (oe_lexical_stats e) (oe_db e)).
Local Abbreviation resolve := (resolve_mutation json_text json_len now_ms o).

(** What a root field of a mutation asks of the store. *)
Definition root_ops (field : Field) : list AOp :=
  if decide (f_name field = str "upsert") then
    match string_arg field (str "id"), string_arg field (str "text") with
    | Ok id, Ok text => match embed_documents o [mkDocument id text ∅] with Ok rs => map AUpsert rs | Err _ => [] end
    | _, _ => []
    end
  else if decide (f_name field = str "delete") then
    match string_arg field (str "id") with Ok id => [ARemove id] | Err _ => [] end
  else [].

(** An id a key can hold. *)
Definition root_clean (field : Field) : Prop := forall id, string_arg field (str "id") = Ok id -> nul_free id.

Lemma one_record id text rs : embed_documents o [mkDocument id text ∅] = Ok rs ->
  (exists e, rs = [record_of (mkDocument id text ∅) e]) \/ rs = [].
Proof.
  unfold embed_documents. destruct (em_documents _ _) as [es|]; [|done]. cbn. intros [= <-]. destruct es as [|e es]; [by right|left]. by exists e.
Qed.

(** A root that answers did what it asks, one that does not changed nothing. *)
Lemma root_refines e field s e' gops r : refines e s.1 s.2 -> fits_more s 1 -> root_clean field ->
  resolve e field = (e', gops, r) ->
  let s' := match r with Ok _ => spec_run (root_ops field) s | Err _ => s end in
  refines e' s'.1 s'.2 /\ graph_run gops (vr_embedding <$> s.1) = vr_embedding <$> s'.1
  /\ (exists d, e' = set_db e d) /\ (length (root_ops field) <= 1)%nat.
Proof.
  intros HR Hfit Hc. unfold resolve_mutation, root_ops. destruct s as [m log]. cbn [fst snd] in *.
  assert (e = set_db e (oe_db e)) as Hself by (by destruct e as [[] ?]).
  assert (forall err, (e, [], Err err) = (e', gops, r) -> let s' := match r with Ok _ => (m, log) | Err _ => (m, log) end in
    refines e' s'.1 s'.2 /\ graph_run gops (vr_embedding <$> m) = vr_embedding <$> s'.1 /\ (exists d, e' = set_db e d)) as Hno.
  { intros err [= <- <- <-]. split_and!; [done..|by exists (oe_db e)]. }
  rewrite !bool_decide_decide.
  destruct (decide (f_name field = str "upsert")); [|destruct (decide (f_name field = str "delete"))].
  - destruct (string_arg field (str "id")) as [id|err] eqn:Ei; cbn [mbind result_bind];
      [|intros E; cbn [length]; destruct (Hno _ E) as (? & ? & ?); injection E as <- <- <-; split_and!; try done; lia].
    destruct (string_arg field (str "text")) as [text|err]; cbn [mbind result_bind];
      [|intros E; cbn [length]; destruct (Hno _ E) as (? & ? & ?); injection E as <- <- <-; split_and!; try done; lia].
    destruct (embed_documents o _) as [rs|err] eqn:Em; cbn [resolved mbind result_bind];
      [|intros E; cbn [length]; destruct (Hno _ E) as (? & ? & ?); injection E as <- <- <-; split_and!; try done; lia].
    apply one_record in Em. destruct (Store.upsert _ _ _ _ _ _ rs) as [d res] eqn:Eu.
    assert (ids_distinct (map AUpsert rs)) as Hd.
    { destruct Em as [[em ->]| ->]; (split; [|]); cbn; try apply NoDup_singleton; try apply NoDup_nil_2; intros x Hx.
      - apply list_elem_of_singleton in Hx as [= ->]. by apply Hc.
      - by apply elem_of_nil in Hx. }
    assert (length (map AUpsert rs) <= 1)%nat as Hl by (by destruct Em as [[em ->]| ->]; cbn; lia).
    eapply upsert_outcome in Eu; [|done|done|].
    2:{ apply fits_more_run. unfold fits_more in *. cbn [fst snd] in *. lia. }
    destruct res as [g|err]; intros [= <- <- <-]; cbn [outcome_ok] in Eu; cbn [fst snd].
    + destruct Eu as [HR' Hg']. split_and!; [done|done|by exists d|done].
    + split_and!; [done|done|by exists d|done].
  - destruct (string_arg field (str "id")) as [id|err] eqn:Ei;
      [|intros E; cbn [length]; destruct (Hno _ E) as (? & ? & ?); injection E as <- <- <-; split_and!; try done; lia].
    destruct (Store.remove _ _ _ _ id) as [d g] eqn:Er. eapply remove_outcome in Er; [|done|by apply fits_more_run].
    intros [= <- <- <-]. destruct Er as [HR' Hg']. split_and!; [done|done|by exists d|cbn; lia].
  - intros E. cbn [length]. destruct (Hno _ E) as (? & ? & ?). injection E as <- <- <-. split_and!; try done; lia.
Qed.

(** The operations of the roots that answered, and the errors of the others. *)
Definition answered_ops (outcomes : list (Field * option GqlError)) : list AOp :=
  concat (map (fun p => match p.2 with None => root_ops p.1 | Some _ => [] end) outcomes).
Definition refusals (outcomes : list (Field * option GqlError)) : list (GqlError * bytes) :=
  omap (fun p => (fun err => (err, f_name p.1)) <$> p.2) outcomes.

Lemma answered_cons (f : Field) (r : option GqlError) oc s :
  spec_run (answered_ops ((f, r) :: oc)) s = spec_run (answered_ops oc) (match r with None => spec_run (root_ops f) s | Some _ => s end).
Proof. unfold answered_ops, spec_run. cbn [map concat fst snd]. rewrite fold_left_app. by destruct r. Qed.

Lemma run_mutations_refine roots : forall e s gops data errors e' gops' data' errors',
  refines e s.1 s.2 -> fits_more s (Z.of_nat (length roots)) -> Forall root_clean roots ->
  run_mutations json_text json_len now_ms o e gops roots data errors = (e', gops', (data', errors')) ->
  exists outcomes more, outcomes.*1 = roots /\ errors' = errors ++ refusals outcomes /\ gops' = gops ++ more
    /\ (let s' := spec_run (answered_ops outcomes) s in
        refines e' s'.1 s'.2 /\ graph_run more (vr_embedding <$> s.1) = vr_embedding <$> s'.1)
    /\ (exists d, e' = set_db e d)
    /\ dom data' = dom data ∪ list_to_set (map f_name roots).
Proof.
  induction roots as [|f roots IH]; intros e s gops data errors e' gops' data' errors' HR Hfit Hc; cbn [run_mutations].
  - intros [= <- <- <- <-]. exists [], []. rewrite !app_nil_r. split_and!; try done; [|set_solver]. exists (oe_db e). by destruct e as [[] ?].
  - apply Forall_cons in Hc as [Hf Hc]. destruct (resolve e f) as [[e1 ops] r] eqn:Er.
    assert (fits_more s 1) as Hfit1 by (unfold fits_more in *; cbn [length] in *; lia).
    destruct (root_refines _ _ _ _ _ _ HR Hfit1 Hf Er) as (HR1 & Hg1 & [d1 ->] & Hl).
    set (s1 := match r with Ok _ => _ | Err _ => s end) in *.
    assert (fits_more s1 (Z.of_nat (length roots))) as Hfit2.
    { assert (fits_more s (Z.of_nat (length roots) + 1)) as Hm by (unfold fits_more in *; cbn [length] in *; lia).
      subst s1. destruct r; [|unfold fits_more in *; lia]. destruct (root_ops f) as [|op [|]]; cbn in Hl; [unfold fits_more in *; cbn; lia| |lia].
      by apply fits_more_step. }
    destruct (answer data errors f r) as [data1 errors1] eqn:Ea. intros Hrun.
    destruct (IH _ s1 _ _ _ _ _ _ _ HR1 Hfit2 Hc Hrun) as (oc & more & <- & -> & -> & [HR2 Hg2] & [d ->] & Hdom).
    exists ((f, match r with Ok _ => None | Err err => Some err end) :: oc), (ops ++ more). split_and!.
    + done.
    + destruct r; injection Ea as <- <-; cbn; [done|]. by rewrite <- app_assoc.
    + by rewrite app_assoc.
    + rewrite answered_cons. subst s1. destruct r; exact HR2.
    + rewrite answered_cons. subst s1. rewrite graph_run_app, Hg1. destruct r; exact Hg2.
    + by exists d.
    + rewrite Hdom. cbn [map]. destruct r; injection Ea as <- <-; rewrite dom_insert_L; set_solver.
Qed.

(** A mutation runs its roots one after the other: the roots that answer do
    what they ask, an upsert or a removal of one id, and every other root is
    an error under its name and changes nothing; the store stays the exact
    rows, counters and feed of the result, the graph is handed operations that
    leave its vectors, and every root has an entry in the answer. *)
Theorem mutations_refine e m log query roots e' gops data errors :
  parse query = Ok (Operation.Mutation, roots) -> refines e m log ->
  room (oe_db e) (Z.of_nat (length roots)) -> Forall root_clean roots ->
  execute json_text json_len now_ms cf_sst_bytes health_json o e query = (e', gops, Data data errors) ->
  exists outcomes, outcomes.*1 = roots /\ errors = refusals outcomes
    /\ (let s := spec_run (answered_ops outcomes) (m, log) in
        refines e' s.1 s.2 /\ graph_run gops (vr_embedding <$> m) = vr_embedding <$> s.1)
    /\ dom data = list_to_set (map f_name roots).
Proof.
  intros Hp Hr Hroom Hc. unfold execute. rewrite Hp. destruct (run_mutations _ _ _ _ _ _ _ _ _) as [[e1 g1] [d1 er1]] eqn:E. intros [= <- <- <- <-].
  destruct (run_mutations_refine roots e (m, log) _ _ _ _ _ _ _ Hr (room_fits json_text now_ms (oe_lexical_stats e) (oe_db e) m log _ Hr Hroom) Hc E)
    as (oc & more & Hoc & -> & -> & Href & _ & Hd).
  exists oc. destruct Href as [Hdb Hg]. split_and!; [done|done|exact Hdb|exact Hg|]. by rewrite Hd, dom_empty_L, (left_id_L ∅ (∪)).
Qed.
End mutations.

(** ** A run *)

Module Runs.
#[local] Existing Instances plain_number flat_libm one_token.

(** The fields of [mutation { upsert(id: .., n: -5, ok: true) { id indexed } }]. *)
Definition an_upsert : Field :=
  mkField (str "upsert")
    (<[str "id" := Value.Str [97; 34; 98]]> (<[str "n" := Value.Int (-5)]> (<[str "ok" := Value.Bool true]> ∅)))
    [mkField (str "id") ∅ []; mkField (str "indexed") ∅ []].

Lemma name_okb (n : bytes) : match n with c :: n' => ((c =? 95) || is_ascii_alphabetic c) && forallb name_byte n' | [] => false end
  && negb (bool_decide (n = str "true")) && negb (bool_decide (n = str "false")) = true -> name_ok n.
Proof.
  intros [[Hn Ht%negb_true_iff%bool_decide_eq_false]%andb_prop Hf%negb_true_iff%bool_decide_eq_false]%andb_prop. split; [|done].
  destruct n as [|c n]; [done|]. apply andb_prop in Hn as [Hc Hn]. split; [done|]. rewrite Forall_forall. intros x Hx.
  rewrite forallb_forall in Hn. apply Hn. by apply list_elem_of_In.
Qed.

Lemma parse_render_document_witness : Forall field_ok [an_upsert]
  /\ parse (render_document Operation.Mutation [an_upsert]) = Ok (Operation.Mutation, [an_upsert]).
Proof.
  assert (Forall field_ok [an_upsert]) as Hf.
  { constructor; [|constructor]. constructor.
    - apply name_okb. reflexivity.
    - repeat (apply map_Forall_insert_2; [split; [apply name_okb; reflexivity|]|]); [| | |apply map_Forall_empty].
      + apply vok_str. repeat constructor; done.
      + apply vok_int. lia.
      + apply vok_bool.
    - constructor; [|constructor; [|constructor]]; (constructor; [apply name_okb; reflexivity|apply map_Forall_empty|constructor]). }
  split; [exact Hf|]. by apply (parse_render_document Operation.Mutation [an_upsert]).
Defined.

(** Text outside ASCII arrives as one character per byte: the two bytes of an
    e acute are stored as four. *)
Theorem strings_garbled : lex [34; 195; 169; 34] = Ok [Tok.Str [195; 131; 194; 169]; Tok.Eof].
Proof. reflexivity. Qed.

(** Selecting a subfield of an array of objects gives null. *)
Theorem array_selection_lost :
  project [mkField (str "tags") ∅ [mkField (str "name") ∅ []]]
    (JObj [(str "tags", JArr [JObj [(str "name", JStr (str "x"))]])])
  = JObj [(str "tags", JObj [(str "name", JNull)])].
Proof. reflexivity. Qed.
End Runs.
