(* ===== verification/Handler.v ===== *)
(** * The node (crates/rro-engine/src/handler.rs)

    A flow, with its estate, behind the verbs of the network: authorization,
    dispatch, one definition per verb, and the push stream of changes. Events
    are emitted and not modelled. Replies are typed: what the code writes as a
    JSON object is a constructor with the object's members. *)
From S2P Require Import Prelude Floats ByteOrder Utf8 Json RroTime Geo Query Quant Text Model Heap.
From S2P Require Import Keys KeysFacts.
From S2P Require QlAst QlParser QlLower AnnSpec SearchSpec QuerySpec ToonFacts.
From S2P Require Import Kv Pending Rels Store StoreFacts StoreTx StoreSpec Fusion AnnStore.
From S2P Require Import Ann Searches SearchFacts PayloadIndex.
From S2P Require Import FilterExec QueryExec Strategies Replication ReplicationFacts Cluster Auth.
From S2P Require Import Estate EstateSpec SqlApply.
From S2P Require Import RrdShape RrdBaseline RrdGates Rrd Traits Connectome Flow FlowSpec Toon GraphLife.
From S2P Require Import GraphQl.
#[local] Set Default Goal Selector "!".
#[local] Set Warnings "-clear-no-such-hyp".
Local Open Scope Z_scope.

(** ** Messages *)

Section messages.
Context `{SerdeNumber}.

Record Message : Type := mkMessage {
  msg_id : bytes;
  msg_from : bytes;
  msg_to : bytes;
  verb : bytes;
  token : option bytes;
  body : Json;
}.

(** Why a request is turned down; the text of the reply names these values. *)
Inductive Refusal : Type :=
  | Unauthorized
  | NoEstate
  | MalformedQuery (why : bytes)
  | SqlNeedsText
  | Syntax (e : QlParser.perror) (detail : bytes)
  | NotReadable (e : QlParser.perror)
  | ReadOnly (keyword : bytes)
  | DiscoverNeedsText
  | RelateNeedsNames
  | TraverseNeedsStart
  | NotALeader (committed : Z)
  | NoQuorum (committed target : Z)
  | NotALive (keyword : bytes)
  | UnknownVerb (v : bytes)
  | Because (e : RroError).

Inductive Reply : Type :=
  | Refused (r : Refusal)
  | Pong (node : bytes)
  | Answer (result : RecallResult) (context : RenderedContext)
  | MapOf (graph : ConnectomeGraph)
  | Changes (changes : list Change) (next_seq : Z)
  | Entries (entries : list ReplEntry) (next_seq : Z)
  | Candidates (candidates : list Candidate)
  | Applied (outcome : SqlOutcome)
  | RelatedReply
  | Ids (ids : list bytes)
  | Total (n : Z)
  | Graph (response : GqlResponse)
  | Committed (n : Z) (quorum_seq : option Z)
  | Health (node : bytes) (uptime : Z) (estate : option (HealthReport * list Issue)) (followers : option (list (bytes * Z)))
  | Pairs (pairs : list (bytes * bytes * f32))
  | Docs (docs : list StoredDoc)
  | Info (info : EstateInfo) (health : HealthReport) (payload_indexes : list bytes) (collections : list (bytes * Z))
      (aliases : list (bytes * bytes)) (feed : FeedStats)
  | Done
  | Compacted (graph_reclaimed : Z) (cf_bytes : list (CF * Z))
  | Collections (collections : list (bytes * Z))
  | Dropped (count : Z)
  | Aliases (aliases : list (bytes * bytes)).

(** [Message::reply]: the peers swapped, the id kept, no token. *)
Record Response : Type := mkResponse {
  rp_id : bytes;
  rp_from : bytes;
  rp_to : bytes;
  rp_verb : bytes;
  payload : Reply;
}.
Definition reply (msg : Message) (r : Reply) : Response :=
  mkResponse (msg_id msg) (msg_to msg) (msg_from msg) (verb msg ++ str ".reply") r.
End messages.

(** ** Reading the body *)

(** [Number::as_u64] *)
Class NumberAsU64 `{SerdeNumber} := as_u64 : number -> option Z.

Section fields.
Context `{SerdeNumber} `{!NumberAsU64}.

Definition str_of (k : bytes) (b : Json) : option bytes := json_get k b ≫= json_as_str.
Definition u64_of (k : bytes) (b : Json) : option Z := match json_get k b with Some (JNum n) => as_u64 n | _ => None end.
Definition bool_of (k : bytes) (b : Json) : option bool := match json_get k b with Some (JBool x) => Some x | _ => None end.
Definition arr_of (k : bytes) (b : Json) : option (list Json) := match json_get k b with Some (JArr l) => Some l | _ => None end.
Definition obj_of (k : bytes) (b : Json) : option (list (bytes * Json)) := match json_get k b with Some (JObj m) => Some m | _ => None end.
(** The strings of an array, other elements passed over. *)
Definition strings_of (k : bytes) (b : Json) : list bytes := match arr_of k b with Some l => omap json_as_str l | None => [] end.
(** A count with its default and its cap. *)
Definition capped (k : bytes) (preset cap : Z) (b : Json) : Z := Z.min (default preset (u64_of k b)) cap.

Definition pair_of (p : Json) : option (bytes * bytes) :=
  match p with JArr (x :: y :: _) => a ← json_as_str x; b ← json_as_str y; Some (a, b) | _ => None end.
End fields.

(** ** The node *)

(** The estate inside the state of the flow's recall: how it is read, and
    what it becomes when a handler of the node changes it and hands
    operations to the graph's queue. *)
Record EstateRef `{SerdeNumber} {S : Type} : Type := mkEstateRef {
  get_estate : S -> OpenEstate;
  put_estate : S -> OpenEstate -> list GraphOp -> S;
}.
Arguments EstateRef {_} S.
Arguments mkEstateRef {_ _}.

Section node.
Context `{SerdeNumber} `{Libm} `{TextAnalyzer} `{Ln} `{Ln32} `{LegacyPosting} `{Highlighter} `{Unicode} `{HashOrder} `{Ln64} `{!NumberText} `{!NumberOfInt} `{!NumberAsU64}.
Context `{J : ClaimsJson}.
Context {HC : BinaryHeap Scored reverse_key} {HR : BinaryHeap Scored scored_key}.

(** [turns] is the turn counter of the process. *)
Record FlowNode {S : Type} : Type := mkNode {
  flow : ReasonReadyObject _ S;
  estate : option (EstateRef S);
  shared_token : option bytes;
  auth : option AuthPolicy;
  cluster : option Cluster;
  me : bytes;
  turns : Z;
}.
Arguments FlowNode : clear implicits.
Arguments FlowNode : clear implicits.

Definition node_new {S} (flow : ReasonReadyObject _ S) (me : bytes) : FlowNode S := mkNode S flow None None None None me 0.
Definition with_estate {S} (r : EstateRef S) (n : FlowNode S) : FlowNode S :=
  mkNode S (flow n) (Some r) (shared_token n) (auth n) (cluster n) (me n) (turns n).
Definition with_token {S} (t : bytes) (n : FlowNode S) : FlowNode S := mkNode S (flow n) (estate n) (Some t) (auth n) (cluster n) (me n) (turns n).
Definition with_auth {S} (p : AuthPolicy) (n : FlowNode S) : FlowNode S :=
  mkNode S (flow n) (estate n) (shared_token n) (Some p) (cluster n) (me n) (turns n).
Definition with_cluster {S} (c : Cluster) (n : FlowNode S) : FlowNode S :=
  mkNode S (flow n) (estate n) (shared_token n) (auth n) (Some c) (me n) (turns n).

Definition set_flow {S} (n : FlowNode S) (o : ReasonReadyObject _ S) (turns : Z) : FlowNode S :=
  mkNode S o (estate n) (shared_token n) (auth n) (cluster n) (me n) turns.
Definition write_estate {S} (n : FlowNode S) (r : EstateRef S) (e : OpenEstate) (gops : list GraphOp) : FlowNode S :=
  set_flow n (set_memory (flow n) (put_estate r (o_memory (flow n)) e gops)) (turns n).
Definition memory {S} (n : FlowNode S) : S := o_memory (flow n).

(** [now] is the clock of the tokens. *)
Definition authorize {S} (now : Z) (n : FlowNode S) (msg : Message) : option (option Role) :=
  if bool_decide (verb msg = str "ping") then Some None
  else
    match auth n with
    | Some policy => match Auth.authorize now policy (token msg) (verb msg) with Ok role => Some (Some role) | Err _ => None end
    | None =>
        match shared_token n with
        | Some required => if bool_decide (token msg = Some required) then Some None else None
        | None => Some None
        end
    end.

(** ** The verbs

    The new node and the reply, or the error that ends the exchange. *)
Section verbs.
Variable json_text : Json -> bytes.
Variable json_len : Metadata -> Z.
Variable now_ms : Z -> Z.
Variable cf_sst_bytes : CF -> Z.
Variable health_json : HealthReport -> Json.
(** The derived decoders, and the text of a parse error. *)
Variable decode_query : Json -> result bytes EstateQuery.
Variable decode_docs : Json -> result bytes (list Document).
Variable show_error : QlParser.QlError -> bytes.
Context {S : Type}.

Abbreviation outcome := (FlowNode S * result RroError Reply)%type.

Definition refuse (n : FlowNode S) (r : Refusal) : outcome := (n, Ok (Refused r)).
(** [Ok(v) => reply, Err(e) => an error reply] *)
Definition answered {A} (n : FlowNode S) (r : result RroError A) (f : A -> Reply) : outcome :=
  (n, Ok (match r with Ok a => f a | Err e => Refused (Because e) end)).
(** [?] *)
Definition decoded {A} (r : result bytes A) : result RroError A := match r with Ok a => Ok a | Err e => Err (Store.Message e) end.

Definition needs_estate (n : FlowNode S) (k : EstateRef S -> OpenEstate -> outcome) : outcome :=
  match estate n with None => refuse n NoEstate | Some r => k r (get_estate r (memory n)) end.

Definition ask_verb (n : FlowNode S) (b : Json) : outcome :=
  let query := default [] (str_of (str "query") b) in
  let fields : Metadata := match obj_of (str "fields") b with Some m => list_to_map m | None => ∅ end in
  let '(turns, o, _, res) := ask_with (turns n) (flow n) query fields in
  let n := set_flow n o turns in
  let accepts_toon :=
    match bool_of (str "accepts_toon") b with
    | Some x => x
    | None => bool_decide (str_of (str "format") b = Some (str "toon"))
    end in
  (n, result ← res; Ok (Answer result (render_candidates json_text (rs_candidates result) accepts_toon))).

Definition map_verb (n : FlowNode S) (b : Json) : outcome :=
  let '(turns, o, _, res) := ask (turns n) (flow n) (default [] (str_of (str "query") b)) in
  (set_flow n o turns, result ← res; Ok (MapOf (connectome result))).

(** [last().map(|c| c.seq + 1).unwrap_or(since)] *)
Definition next_cursor {A} (seq : A -> Z) (since : Z) (l : list A) : Z :=
  match last l with Some x => u64_add (seq x) 1 | None => since end.

Definition changes_verb (n : FlowNode S) (b : Json) : outcome :=
  needs_estate n (fun _ e =>
    let since := default 0 (u64_of (str "since_seq") b) in
    let cs := changes (oe_db e) since (capped (str "limit") 256 4096 b) in
    (n, Ok (Changes cs (next_cursor ch_seq since cs)))).

(** The poll is the acknowledgement of what precedes its cursor. *)
Definition replicate_verb (n : FlowNode S) (from : bytes) (b : Json) : outcome :=
  needs_estate n (fun _ e =>
    let since := default 0 (u64_of (str "since_seq") b) in
    let n := match cluster n with Some c => with_cluster (Cluster.observe c from since).1 n | None => n end in
    let entries := serve_replicate (oe_db e) since (default 256 (u64_of (str "limit") b)) in
    (n, Ok (Entries entries (next_cursor re_seq since entries)))).

Definition with_vector (q : EstateQuery) (v : Embedding) : EstateQuery :=
  mkEstateQuery (q_text q) (Some v) (q_sparse q) (q_using q) (q_collection q) (q_multi q) (q_top_k q) (q_filter q) (q_dsl q) (q_scope q)
    (q_score_threshold q) (q_with_payload q) (q_offset q) (q_with_vectors q) (q_highlight q) (q_prefetch q) (q_fusion q) (q_fusion_mode q).

(** A query by text alone is embedded by the flow. *)
Definition embedded (o : ReasonReadyObject _ S) (q : EstateQuery) : result RroError EstateQuery :=
  match q_vector q, q_text q with
  | None, Some text => v ← embed_query o text; Ok (with_vector q v)
  | _, _ => Ok q
  end.

Definition query_verb (n : FlowNode S) (b : Json) : outcome :=
  needs_estate n (fun _ e =>
    match decode_query b with
    | Err why => refuse n (MalformedQuery why)
    | Ok q =>
        match embedded (flow n) q with
        | Err err => (n, Err err)
        | Ok q => answered n (QueryExec.query json_text (oe_recall e) q) Candidates
        end
    end).

Definition recommend_verb (n : FlowNode S) (b : Json) : outcome :=
  needs_estate n (fun _ e =>
    answered n (recommend (oe_recall e) (strings_of (str "positive") b) (strings_of (str "negative") b) (capped (str "top_k") 10 1024 b))
      Candidates).

(** [e.caret(src)] panics where it cuts a character. *)
Definition syntax_error (n : FlowNode S) (e : QlParser.perror) (src : bytes) : outcome :=
  match e with
  | QlParser.Failed err =>
      match QlParser.caret show_error err src with
      | Some detail => refuse n (Syntax e detail)
      | None => (n, Err Panic)
      end
  | QlParser.OutOfFuel => (n, Err Panic)
  end.

Definition sql_verb (n : FlowNode S) (role : option Role) (b : Json) : outcome :=
  needs_estate n (fun r e =>
    match str_of (str "sql") b with
    | None => refuse n SqlNeedsText
    | Some src =>
        match QlParser.parse src with
        | Err err => syntax_error n err src
        | Ok stmt =>
            if bool_decide (role = Some Reader) && QlAst.Statement.is_write stmt then refuse n Unauthorized
            else if default false (bool_of (str "read_only") b) && QlAst.Statement.is_write stmt
            then refuse n (ReadOnly (QlAst.Statement.keyword stmt))
            else
              match stmt with
              | QlAst.Statement.Select _ =>
                  match QlLower.parse_query src with
                  | Err err => refuse n (NotReadable err)
                  | Ok q =>
                      answered n (v ← embed_query (flow n) (default [] (q_text q));
                                  QueryExec.query json_text (oe_recall e) (with_vector q v)) Candidates
                  end
              | _ =>
                  let '(d, gops, res) := SqlApply.apply json_text now_ms (oe_lexical_stats e) (oe_info e) (oe_db e) stmt in
                  answered (write_estate n r (set_db e d) gops) res Applied
              end
        end
    end).

Definition discover_verb (n : FlowNode S) (b : Json) : outcome :=
  needs_estate n (fun _ e =>
    match str_of (str "text") b with
    | None => refuse n DiscoverNeedsText
    | Some text =>
        let pairs := match arr_of (str "pairs") b with Some l => omap pair_of l | None => [] end in
        answered n (q ← embed_query (flow n) text; discover (oe_recall e) q pairs (capped (str "top_k") 10 1024 b)) Candidates
    end).

Definition relate_verb (n : FlowNode S) (b : Json) : outcome :=
  needs_estate n (fun r e =>
    match str_of (str "from") b, str_of (str "verb") b, str_of (str "to") b with
    | Some from, Some v, Some to => (write_estate n r (set_db e (Rels.relate (oe_db e) from v to)) [], Ok RelatedReply)
    | _, _, _ => refuse n RelateNeedsNames
    end).

Definition spec_of (b : Json) : TraversalSpec :=
  mkSpec (strings_of (str "verbs") b)
    (default (ts_outbound default_spec) (bool_of (str "outbound") b))
    (default (ts_inbound default_spec) (bool_of (str "inbound") b))
    (Z.to_nat (capped (str "depth") (Z.of_nat (ts_depth default_spec)) 64 b))
    (Z.to_nat (capped (str "limit") (Z.of_nat (ts_limit default_spec)) 10000 b)).

(** [None] of the walk is its fuel run out, which [walk_total] rules out. *)
Definition traverse_verb (n : FlowNode S) (b : Json) : outcome :=
  needs_estate n (fun _ e =>
    let start := strings_of (str "start") b in
    if bool_decide (start = []) then refuse n TraverseNeedsStart
    else match Rels.traverse (oe_db e) (spec_of b) start with Some ids => (n, Ok (Ids ids)) | None => (n, Err Panic) end).

(** The one verb that writes through the flow's recall. *)
Definition index_verb (n : FlowNode S) (b : Json) : outcome :=
  match (match json_get (str "docs") b with Some v => decoded (decode_docs v) | None => Ok [] end) with
  | Err e => (n, Err e)
  | Ok docs => let '(o, res) := index (flow n) docs in (set_flow n o (turns n), total ← res; Ok (Total total))
  end.

Definition graphql_verb (n : FlowNode S) (role : option Role) (b : Json) : outcome :=
  needs_estate n (fun r e =>
    let query := default [] (str_of (str "query") b) in
    if bool_decide (role = Some Reader) && is_mutation query then refuse n Unauthorized
    else
      let '(e', gops, response) := execute json_text json_len now_ms cf_sst_bytes health_json (flow n) e query in
      (write_estate n r e' gops, Ok (Graph response))).

(** ** Transactions *)

(** One operation of the body; upserts are embedded before anything is
    written. *)
Definition tx_op (o : ReasonReadyObject _ S) (op : Json) : result RroError WriteOp :=
  match json_get (str "upsert") op with
  | Some docs => docs ← decoded (decode_docs docs); records ← embed_documents o docs; Ok (WUpsert records)
  | None =>
      match str_of (str "remove") op with
      | Some id => Ok (WRemove id)
      | None => Err (Store.Message (str "each tx op must be an upsert or a remove"))
      end
  end.
Fixpoint tx_ops (o : ReasonReadyObject _ S) (ops : list Json) : result RroError (list WriteOp) :=
  match ops with
  | [] => Ok []
  | op :: ops => w ← tx_op o op; ws ← tx_ops o ops; Ok (w :: ws)
  end.

(** [Cluster::await_quorum] against the acknowledgements that arrive before
    the timeout, in order: the view after those that were needed, and whether
    the quorum was reached. *)
Fixpoint await_quorum (c : Cluster) (target : Z) (arrivals : list (bytes * Z)) : Cluster * bool :=
  if is_committed c target then (c, true)
  else
    match arrivals with
    | [] => (c, false)
    | (follower, cursor) :: arrivals => await_quorum (Cluster.observe c follower cursor).1 target arrivals
    end.

Definition tx_verb (arrivals : list (bytes * Z)) (n : FlowNode S) (b : Json) : outcome :=
  needs_estate n (fun r e =>
    match arr_of (str "ops") b with
    | None => (n, Err (Store.Message (str "tx body needs an ops array")))
    | Some ops_json =>
        match tx_ops (flow n) ops_json with
        | Err err => (n, Err err)
        | Ok ops =>
            let count := Z.of_nat (length ops) in
            let '(d, res) := Store.transaction json_text now_ms (oe_lexical_stats e) (oe_db e) ops in
            match res with
            | Err err => (write_estate n r (set_db e d) [], Err err)
            | Ok gops =>
                let n := write_estate n r (set_db e d) gops in
                if bool_decide (str_of (str "durability") b = Some (str "quorum")) then
                  match cluster n with
                  | None => refuse n (NotALeader count)
                  | Some c =>
                      let target := next_seq (feed_stats d) in
                      let '(c, reached) := await_quorum c target arrivals in
                      let n := with_cluster c n in
                      if reached then (n, Ok (Committed count (Some target))) else refuse n (NoQuorum count target)
                  end
                else (n, Ok (Committed count None))
            end
        end
    end).

(** ** Health and administration *)

Definition estate_report (e : OpenEstate) : HealthReport := health cf_sst_bytes (handle_of e) (oe_db e).

Definition health_verb (uptime : Z) (n : FlowNode S) (b : Json) : outcome :=
  let threshold := default 10000 (u64_of (str "backlog_threshold") b) in
  let report := (fun r => let h := estate_report (get_estate r (memory n)) in (h, issues h threshold)) <$> estate n in
  (n, Ok (Health (me n) uptime report (follower_cursors <$> cluster n))).

(** [quiesce] leaves the applier's queue empty. *)
Definition set_graph (e : OpenEstate) (g : AnnIndex) : OpenEstate :=
  let s := oe_recall e in
  mkEstate (mkRecall (db s) g (mkState [] ∅ ∅ false (stopped (pending s))) (quotas s) (params s) (Searches.quantizer s)) (oe_info e)
    (oe_lexical_stats e).

(** Compaction of the graph while nothing writes. *)
Definition compact_verb (n : FlowNode S) (r : EstateRef S) (e : OpenEstate) : outcome :=
  let '(g, res) := compact_graph (Searches.quantizer (oe_recall e)) (ann (oe_recall e)) (fun _ => quiet (oe_db e) (ann (oe_recall e))) in
  (write_estate n r (set_graph e g) [], c ← res; Ok (Compacted (Z.of_nat (reclaimed c)) (cf_sizes cf_sst_bytes))).

(** [serde_json::from_value::<Metadata>] *)
Definition metadata_of (b : Json) : result RroError Metadata :=
  match json_get (str "metadata") b with
  | None => Ok ∅
  | Some (JObj m) => Ok (list_to_map m)
  | Some _ => Err (Store.Message (str "invalid type: expected a map"))
  end.

(** What a payload verb does to the metadata of its document. *)
Definition payload_change (v : bytes) (b : Json) : result RroError (Metadata -> Metadata) :=
  if bool_decide (v = str "set_payload") then m ← metadata_of b; Ok (fun old => m ∪ old)
  else if bool_decide (v = str "overwrite_payload") then m ← metadata_of b; Ok (fun _ => m)
  else if bool_decide (v = str "delete_payload_keys") then Ok (fun old => fold_left (fun m k => delete k m) (strings_of (str "keys") b) old)
  else Ok (fun _ => ∅).

Definition payload_verb (v : bytes) (n : FlowNode S) (b : Json) (r : EstateRef S) (e : OpenEstate) : outcome :=
  match payload_change v b with
  | Err err => (n, Err err)
  | Ok f =>
      let '(d, res) := mutate_payload json_text now_ms f (oe_db e) (default [] (str_of (str "id") b)) in
      answered (write_estate n r (set_db e d) []) res (fun _ => Done)
  end.

Definition payload_verbs : list bytes := [str "set_payload"; str "overwrite_payload"; str "delete_payload_keys"; str "clear_payload"].
Definition estate_verbs : list bytes :=
  [str "info"; str "flush"; str "compact"; str "matrix"; str "sample"; str "collections"; str "drop_collection"; str "create_alias";
   str "aliases"; str "delete_alias"] ++ payload_verbs.

Definition estate_verb (v : bytes) (n : FlowNode S) (b : Json) : outcome :=
  needs_estate n (fun r e =>
    let name k := default [] (str_of k b) in
    if bool_decide (v = str "matrix") then (n, Ok (Pairs (similarity_matrix (oe_db e) (strings_of (str "ids") b))))
    else if bool_decide (v = str "sample") then
      (n, Ok (Docs (sample_docs (oe_db e) (Z.to_nat (capped (str "n") 10 4096 b)) (default 0 (u64_of (str "seed") b)))))
    else if bool_decide (v = str "info") then
      (n, Ok (Info (oe_info e) (estate_report e) (indexed_fields (oe_db e)) (collections (oe_db e)) (aliases (oe_db e)) (feed_stats (oe_db e))))
    else if bool_decide (v = str "flush") then (n, Ok Done)
    else if bool_decide (v = str "compact") then compact_verb n r e
    else if bool_decide (v = str "collections") then (n, Ok (Collections (collections (oe_db e))))
    else if bool_decide (v = str "drop_collection") then
      let '(d, gops, dropped) := drop_collection json_text now_ms (oe_lexical_stats e) (oe_db e) (name (str "name")) in
      (write_estate n r (set_db e d) gops, Ok (Dropped dropped))
    else if bool_decide (v = str "create_alias") then
      (write_estate n r (set_db e (create_alias (oe_db e) (name (str "alias")) (name (str "collection")))) [], Ok Done)
    else if bool_decide (v = str "aliases") then (n, Ok (Aliases (aliases (oe_db e))))
    else if bool_decide (v = str "delete_alias") then
      (write_estate n r (set_db e (delete_alias (oe_db e) (name (str "alias")))) [], Ok Done)
    else payload_verb v n b r e).

(** ** Dispatch *)

(** What the node meets of the world while it handles one message: the clock
    of the tokens, its uptime, the acknowledgements that arrive while it waits
    for a quorum. *)
Record Env : Type := mkEnv { now : Z; uptime : Z; arrivals : list (bytes * Z) }.

Definition dispatch (w : Env) (n : FlowNode S) (role : option Role) (msg : Message) : outcome :=
  let v := verb msg in
  let b := body msg in
  if bool_decide (v = str "ping") then (n, Ok (Pong (me n)))
  else if bool_decide (v = str "ask" \/ v = str "recall") then ask_verb n b
  else if bool_decide (v = str "map") then map_verb n b
  else if bool_decide (v = str "changes") then changes_verb n b
  else if bool_decide (v = str "replicate") then replicate_verb n (msg_from msg) b
  else if bool_decide (v = str "query") then query_verb n b
  else if bool_decide (v = str "recommend") then recommend_verb n b
  else if bool_decide (v = str "sql") then sql_verb n role b
  else if bool_decide (v = str "discover") then discover_verb n b
  else if bool_decide (v = str "relate") then relate_verb n b
  else if bool_decide (v = str "traverse") then traverse_verb n b
  else if bool_decide (v = str "index") then index_verb n b
  else if bool_decide (v = str "graphql") then graphql_verb n role b
  else if bool_decide (v = str "tx") then tx_verb (arrivals w) n b
  else if bool_decide (v = str "health") then health_verb (uptime w) n b
  else if bool_decide (v ∈ estate_verbs) then estate_verb v n b
  else refuse n (UnknownVerb v).

Definition handle (w : Env) (n : FlowNode S) (msg : Message) : FlowNode S * result RroError Response :=
  let '(n, r) :=
    match authorize (now w) n msg with
    | None => refuse n Unauthorized
    | Some role => dispatch w n role msg
    end in
  (n, r ← r; Ok (reply msg r)).
End verbs.
End node.
#[global] Arguments FlowNode {_} S.

(** ** An estate behind the flow

    The recall of the flow is a handle on the estate the node serves; what is
    handed to the graph's queue is kept in order. *)
Section shared.
Context `{SerdeNumber} `{Libm} `{TextAnalyzer} `{Ln} `{Ln32} `{LegacyPosting}.
Context {HC : BinaryHeap Scored reverse_key} {HR : BinaryHeap Scored scored_key}.
Variable json_text : Json -> bytes.
Variable json_len : Metadata -> Z.
Variable now_ms : Z -> Z.

Record Shared : Type := mkShared { sh_estate : OpenEstate; sh_handed : list GraphOp }.

Definition shared_ref : EstateRef Shared := mkEstateRef sh_estate (fun s e gops => mkShared e (sh_handed s ++ gops)).

Definition shared_upsert (s : Shared) (rs : list VectorRecord) : Shared * result RroError unit :=
  let e := sh_estate s in
  let '(d, res) := Store.upsert json_text json_len now_ms (quotas (oe_recall e)) (oe_lexical_stats e) (oe_db e) rs in
  (put_estate shared_ref s (set_db e d) (match res with Ok gops => gops | Err _ => [] end), _ ← res; Ok tt).
Definition shared_remove (s : Shared) (id : bytes) : Shared * result RroError unit :=
  let e := sh_estate s in
  let '(d, gops) := Store.remove json_text now_ms (oe_lexical_stats e) (oe_db e) id in (put_estate shared_ref s (set_db e d) gops, Ok tt).
Definition shared_recall : Recall Shared :=
  mkRecallOps _ shared_upsert (fun s => search (oe_recall (sh_estate s))) (fun s => hybrid_search (oe_recall (sh_estate s)))
    (fun s => estate_len (oe_recall (sh_estate s))) shared_remove.
End shared.

(** ** A reader changes nothing *)

(** Reading an estate back and putting it back as it was. *)
Class EstateRefLaws `{SerdeNumber} {S : Type} (r : EstateRef S) (handed : S -> list GraphOp) : Prop := {
  get_put s e gops : get_estate r (put_estate r s e gops) = e;
  put_get s : put_estate r s (get_estate r s) [] = s;
  handed_put s e gops : handed (put_estate r s e gops) = handed s ++ gops;
}.

Section reader.
Context `{SerdeNumber} `{Libm} `{TextAnalyzer} `{Ln} `{Ln32} `{LegacyPosting} `{Highlighter} `{Unicode} `{HashOrder} `{Ln64} `{!NumberText} `{!NumberOfInt} `{!NumberAsU64}.
Context `{J : ClaimsJson}.
Context {HC : BinaryHeap Scored reverse_key} {HR : BinaryHeap Scored scored_key}.
Variable json_text : Json -> bytes.
Variable json_len : Metadata -> Z.
Variable now_ms : Z -> Z.
Variable cf_sst_bytes : CF -> Z.
Variable health_json : HealthReport -> Json.
Variable decode_query : Json -> result bytes EstateQuery.
Variable decode_docs : Json -> result bytes (list Document).
Variable show_error : QlParser.QlError -> bytes.
Context {S : Type}.
Local Abbreviation handle := (handle json_text json_len now_ms cf_sst_bytes health_json decode_query decode_docs show_error).

Lemma authorized_allows now (n : FlowNode S) msg role : authorize now n msg = Some (Some role) -> allows role (verb msg) = true.
Proof.
  unfold authorize. case_bool_decide; [done|]. destruct (auth n) as [p|]; [|by destruct (shared_token n); [case_bool_decide|]].
  unfold Auth.authorize. destruct (token msg) as [t|]; [|done]. destruct (verify_hs256 t _) as [c|]; cbn [mbind result_bind]; [|done].
  destruct (exp c <=? now); [done|]. destruct (wrong_namespace _ _); [done|]. destruct (allows (c_role c) (verb msg)) eqn:E; [|done].
  by intros [= <-].
Qed.

Lemma set_db_same e : set_db e (oe_db e) = e.
Proof. by destruct e as [[]]. Qed.

(** The estate, the policy and the memory of the node are what they were. *)
Definition unchanged (n n' : FlowNode S) : Prop := estate n' = estate n /\ auth n' = auth n /\ memory n' = memory n.

Lemma unchanged_refl n : unchanged n n.
Proof. done. Qed.

Lemma unchanged_flow n o t : o_memory o = memory n -> unchanged n (set_flow n o t).
Proof. done. Qed.

Lemma unwritten (n : FlowNode S) r : (exists handed, EstateRefLaws r handed) ->
  unchanged n (write_estate n r (get_estate r (memory n)) []).
Proof. intros [handed Hl]. apply unchanged_flow. apply (put_get (EstateRefLaws := Hl)). Qed.

(** A statement that is no write leaves the store and the graph alone. *)
Lemma apply_reads ls info d stmt : QlAst.Statement.is_write stmt = false ->
  (SqlApply.apply json_text now_ms ls info d stmt).1 = (d, []).
Proof. by destruct stmt. Qed.

Lemma execute_reads (o : ReasonReadyObject _ S) e q : is_mutation q = false ->
  (execute json_text json_len now_ms cf_sst_bytes health_json o e q).1 = (e, []).
Proof.
  unfold is_mutation, execute. destruct (parse q) as [[[] roots]|]; try done. intros _. by destruct (run_queries _ _ _ _ _ _ _ _).
Qed.

(** The verbs a reader may use. *)
Lemma reader_verbs v : allows Reader v = true -> v <> str "relate" /\ v <> str "index" /\ v <> str "tx" /\
  v <> str "compact" /\ v <> str "drop_collection" /\ v <> str "create_alias" /\ v <> str "delete_alias" /\ v ∉ payload_verbs.
Proof.
  intros [Ha Hw]%allows_reader. unfold admin_verbs, writer_verbs, payload_verbs in *. rewrite !not_elem_of_cons in *. tauto.
Qed.

Lemma ask_memory turns (o : ReasonReadyObject _ S) query fields : o_memory (ask_with turns o query fields).1.1.2 = o_memory o.
Proof.
  unfold ask_with. destruct (o_rrd o) as [r|]; [destruct (distill_stamped _ _) as [r' rro]; case_bool_decide; [done|]|];
    by destruct (after_gate _ _ _).
Qed.

Lemma ask_verb_unchanged (n : FlowNode S) b : unchanged n (ask_verb json_text n b).1.
Proof.
  unfold ask_verb. cbv zeta. match goal with |- context [ask_with ?t ?o ?q ?f] => pose proof (ask_memory t o q f) as Hm end.
  destruct (ask_with _ _ _ _) as [[[t o] s] res]. by apply unchanged_flow.
Qed.

Lemma map_verb_unchanged (n : FlowNode S) b : unchanged n (map_verb n b).1.
Proof.
  unfold map_verb, ask. match goal with |- context [ask_with ?t ?o ?q ?f] => pose proof (ask_memory t o q f) as Hm end.
  destruct (ask_with _ _ _ _) as [[[t o] s] res]. by apply unchanged_flow.
Qed.

Lemma replicate_verb_unchanged (n : FlowNode S) from b : unchanged n (replicate_verb n from b).1.
Proof. unfold replicate_verb, needs_estate. destruct (estate n); [|done]. by destruct (cluster n). Qed.

Lemma query_verb_unchanged (n : FlowNode S) b : unchanged n (query_verb json_text decode_query n b).1.
Proof.
  unfold query_verb, needs_estate. destruct (estate n); [|done]. destruct (decode_query b); [|done]. by destruct (embedded _ _).
Qed.

Lemma traverse_verb_unchanged (n : FlowNode S) b : unchanged n (traverse_verb n b).1.
Proof.
  unfold traverse_verb, needs_estate. destruct (estate n); [|done]. case_bool_decide; [done|]. by destruct (Rels.traverse _ _ _).
Qed.

Lemma discover_verb_unchanged (n : FlowNode S) b : unchanged n (discover_verb n b).1.
Proof. unfold discover_verb, needs_estate. destruct (estate n); [|done]. by destruct (str_of _ b). Qed.

Section estate.
Context (n : FlowNode S).
Hypothesis Hlaws : forall r, estate n = Some r -> exists handed, EstateRefLaws r handed.

(** A reader's statement, and one under [read_only]. *)
Lemma sql_reader_unchanged b : unchanged n (sql_verb json_text now_ms show_error n (Some Reader) b).1.
Proof.
  unfold sql_verb, needs_estate. destruct (estate n) as [r|] eqn:Er; [|done]. destruct (str_of _ b) as [src|]; [|done].
  destruct (QlParser.parse src) as [stmt|err]; [|unfold syntax_error; destruct err; [destruct (QlParser.caret _ _ _)|]; done].
  rewrite bool_decide_true by done. cbn [andb]. destruct (QlAst.Statement.is_write stmt) eqn:Ew; [done|].
  destruct (_ && _); [done|].
  pose proof (apply_reads (oe_lexical_stats (get_estate r (memory n))) (oe_info (get_estate r (memory n))) (oe_db (get_estate r (memory n))) stmt Ew) as Ha.
  destruct stmt; [by destruct (QlLower.parse_query src)|..];
    (destruct (SqlApply.apply _ _ _ _ _ _) as [[db' gops] res]; cbn in Ha; injection Ha as -> ->; cbn [answered fst]; rewrite set_db_same; by apply unwritten, Hlaws).
Qed.

Lemma graphql_reader_unchanged b :
  unchanged n (graphql_verb json_text json_len now_ms cf_sst_bytes health_json n (Some Reader) b).1.
Proof.
  unfold graphql_verb, needs_estate. destruct (estate n) as [r|] eqn:Er; [|done]. rewrite bool_decide_true by done. cbn [andb].
  set (q := default [] _). destruct (is_mutation q) eqn:Em; [done|]. pose proof (execute_reads (flow n) (get_estate r (memory n)) q Em) as He.
  destruct (execute _ _ _ _ _ _ _ q) as [[e gops] response]. cbn in He. injection He as -> ->. by apply unwritten, Hlaws.
Qed.

Lemma estate_verb_reader v b : allows Reader v = true -> v ∈ estate_verbs ->
  unchanged n (estate_verb json_text now_ms cf_sst_bytes v n b).1.
Proof.
  intros (N1 & N2 & N3 & N4 & N5 & N6 & N7 & N8)%reader_verbs Hv. unfold estate_verb, needs_estate. destruct (estate n); [|done].
  repeat (case_bool_decide; [done|]). exfalso. apply elem_of_app in Hv as [Hv|Hv]; [|done]. repeat (apply elem_of_cons in Hv as [->|Hv]; [contradiction|]). by apply elem_of_nil in Hv.
Qed.
End estate.

(** C6: Whatever a caller with a reader's token sends, the memory of the node, the
    estate in it included, and its policy stay as they are: the verbs that change it need a
    higher role, and the two languages are refused when the text would
    write. *)
Theorem reader_changes_nothing w (n : FlowNode S) msg :
  authorize (now w) n msg = Some (Some Reader) ->
  (forall r, estate n = Some r -> exists handed, EstateRefLaws r handed) ->
  unchanged n (handle w n msg).1.
Proof.
  intros Ha Hl. unfold handle. rewrite Ha. pose proof (authorized_allows _ _ _ _ Ha) as Hv.
  pose proof (reader_verbs _ Hv) as (N1 & N2 & N3 & N4 & N5 & N6 & N7 & N8).
  enough (unchanged n (dispatch json_text json_len now_ms cf_sst_bytes health_json decode_query decode_docs show_error w n (Some Reader) msg).1) as Hd.
  { by destruct (dispatch _ _ _ _ _ _ _ _ _ _ _ _) as [n' r]. }
  unfold dispatch. cbv zeta.
  case_bool_decide; [done|]. case_bool_decide; [apply ask_verb_unchanged|]. case_bool_decide; [apply map_verb_unchanged|].
  case_bool_decide; [by unfold changes_verb, needs_estate; destruct (estate n)|]. case_bool_decide; [apply replicate_verb_unchanged|].
  case_bool_decide; [apply query_verb_unchanged|]. case_bool_decide; [by unfold recommend_verb, needs_estate; destruct (estate n)|].
  case_bool_decide; [by apply sql_reader_unchanged|]. case_bool_decide; [apply discover_verb_unchanged|]. case_bool_decide; [done|].
  case_bool_decide; [apply traverse_verb_unchanged|]. case_bool_decide; [done|]. case_bool_decide; [by apply graphql_reader_unchanged|].
  case_bool_decide; [done|]. case_bool_decide; [done|]. case_bool_decide; [by apply estate_verb_reader|done].
Qed.
End reader.

(** ** The node keeps its store refined *)

(** The flow's recall writes the estate the node serves. *)
Class WritesThrough `{SerdeNumber} `{TextAnalyzer} (json_text : Json -> bytes) (json_len : Metadata -> Z) (now_ms : Z -> Z) {S : Type}
  (R : Recall S) (r : EstateRef S) : Prop := {
  writes_through s rs : rc_upsert (Recall := R) s rs =
    let e := get_estate r s in
    let '(d, res) := Store.upsert json_text json_len now_ms (quotas (oe_recall e)) (oe_lexical_stats e) (oe_db e) rs in
    (put_estate r s (set_db e d) (match res with Ok gops => gops | Err _ => [] end), _ ← res; Ok tt);
}.

Section refined.
Context `{SerdeNumber} `{Libm} `{TextAnalyzer} `{Ln} `{Ln32} `{LegacyPosting} `{Highlighter} `{Unicode} `{HashOrder} `{Ln64} `{!NumberText} `{!NumberOfInt} `{!NumberAsU64}.
Context `{J : ClaimsJson}.
Context {HC : BinaryHeap Scored reverse_key} {HR : BinaryHeap Scored scored_key}.
Variable json_text : Json -> bytes.
Variable json_len : Metadata -> Z.
Variable now_ms : Z -> Z.
Variable cf_sst_bytes : CF -> Z.
Variable health_json : HealthReport -> Json.
Variable decode_query : Json -> result bytes EstateQuery.
Variable decode_docs : Json -> result bytes (list Document).
Variable show_error : QlParser.QlError -> bytes.
Context {S : Type} (r : EstateRef S) (handed : S -> list GraphOp).
Context {HE : EstateRefLaws r handed}.

Definition estate_of (n : FlowNode S) : OpenEstate := get_estate r (memory n).

(** The node serves an estate that holds a map and the log that made it, and
    what it handed to the graph made the vectors of that map. *)
Record node_holds (n : FlowNode S) (s : gmap bytes VectorRecord * Log) : Prop := {
  nh_estate : estate n = Some r;
  nh_refines : Refines json_text now_ms (oe_lexical_stats (estate_of n)) (oe_db (estate_of n)) s.1 s.2;
  nh_graph : graph_run (handed (memory n)) ∅ = vr_embedding <$> s.1;
}.

(** What follows the state of the store and no more than that. *)
Definition advances (n : FlowNode S) (s : gmap bytes VectorRecord * Log) : Prop := exists s', node_holds n s' /\ follows s s'.

Lemma unchanged_advances n n' s : node_holds n s -> unchanged n n' -> advances n' s.
Proof.
  intros [He Hr Hg] (E1 & _ & E2). exists s. split; [|apply follows_refl]. split; [by rewrite E1|unfold estate_of; by rewrite E2|by rewrite E2].
Qed.

Lemma written_holds n s e' gops s' : node_holds n s ->
  Refines json_text now_ms (oe_lexical_stats e') (oe_db e') s'.1 s'.2 -> graph_run gops (vr_embedding <$> s.1) = vr_embedding <$> s'.1 ->
  node_holds (write_estate n r e' gops) s'.
Proof.
  intros [He Hr Hg] Hr' Hg'. unfold write_estate. split.
  - exact He.
  - unfold estate_of, memory. cbn. rewrite get_put. exact Hr'.
  - unfold memory in *. cbn. by rewrite handed_put, graph_run_app, Hg, Hg'.
Qed.

(** A document change that leaves the vectors and hands nothing over. *)
Lemma quiet_holds n s e' s' : node_holds n s -> Refines json_text now_ms (oe_lexical_stats e') (oe_db e') s'.1 s'.2 ->
  vr_embedding <$> s'.1 = vr_embedding <$> s.1 -> node_holds (write_estate n r e' []) s'.
Proof. intros Hn Hr He. by apply (written_holds n s). Qed.

Lemma meaning_follows stmt s : follows s (meaning stmt s).
Proof.
  assert (forall f id, follows s (remeta f id s)) as Hre.
  { intros f id. unfold remeta. destruct (s.1 !! id); [|apply follows_refl]. split; cbn [snd]; [by apply prefix_app_r|].
    intros E. exfalso. apply (f_equal length) in E. rewrite length_app in E. cbn in E. lia. }
  destruct stmt as [q|d|[a|name|f c]|u|d|rl|t|l|]; cbn [meaning]; try apply follows_refl; [| |].
  - split; cbn [fst snd]; [by apply prefix_app_r|]. intros E. apply (f_equal length) in E. rewrite length_app, length_map in E.
    destruct (members_of s.1 name) as [|x l] eqn:Em; [|cbn in E; lia]. destruct s as [m log]. cbn [fst snd map] in *. rewrite app_nil_r. f_equal.
    apply map_filter_id. intros id rec Hrec Hc. assert (id ∈ members_of m name) as Hin by (apply elem_of_members_of; by exists rec).
    rewrite Em in Hin. by apply elem_of_nil in Hin.
  - apply Hre.
  - destruct (QlAst.del_payload_only d); [apply Hre|]. exact (spec_run_follows [ARemove (QlAst.del_id d)] s).
Qed.

Lemma sql_advances n role b s : node_holds n s -> searchable s.1 -> room (oe_db (estate_of n)) (Z.of_nat (size s.1) + 1) ->
  (forall src stmt, str_of (str "sql") b = Some src -> QlParser.parse src = Ok stmt -> clean_statement stmt) ->
  advances (sql_verb json_text now_ms show_error n role b).1 s.
Proof.
  intros Hn Hs Hroom Hc. pose proof (unchanged_advances n n s Hn (unchanged_refl n)) as Hsame.
  unfold sql_verb, needs_estate. rewrite (nh_estate n s Hn). destruct (str_of _ b) as [src|] eqn:Esrc; [|done].
  destruct (QlParser.parse src) as [stmt|err] eqn:Ep; [|unfold syntax_error; destruct err; [destruct (QlParser.caret _ _ _)|]; done].
  destruct (_ && _); [done|]. destruct (_ && _); [done|]. specialize (Hc src stmt eq_refl Ep). destruct s as [m log].
  assert (advances (let '(d, gops, res) := SqlApply.apply json_text now_ms (oe_lexical_stats (estate_of n)) (oe_info (estate_of n)) (oe_db (estate_of n)) stmt in
    answered (write_estate n r (set_db (estate_of n) d) gops) res Applied).1 (m, log)) as Hw.
  { pose proof (statement_as_meant json_text now_ms (oe_lexical_stats (estate_of n)) (oe_info (estate_of n)) (oe_db (estate_of n)) m log stmt
      (nh_refines _ _ Hn) Hs Hroom Hc) as Hm.
    destruct (SqlApply.apply _ _ _ _ _ _) as [[d gops] res]. destruct Hm as (Hr' & Hg' & _). cbn [answered fst].
    exists (meaning stmt (m, log)). split; [by apply (written_holds n (m, log))|apply meaning_follows]. }
  destruct stmt; [by destruct (QlLower.parse_query src)|exact Hw..].
Qed.

(** ** Transactions *)

(** The followers that acknowledged a target: those the leader knew at it, and
    those an acknowledgement of which arrived in time. *)
Definition acknowledged (c : Cluster.Cluster) (target : Z) (arrivals : list (bytes * Z)) : gset bytes :=
  holding c target ∪ list_to_set (filter (fun a => target <= a.2) arrivals).*1.

Lemma acknowledged_observe c target f x arrivals : 0 <= target -> 0 <= x ->
  acknowledged (Cluster.observe c f x).1 target arrivals = acknowledged c target ((f, x) :: arrivals).
Proof.
  intros Ht Hx. apply set_eq. intros g. unfold acknowledged. rewrite !elem_of_union, !elem_of_list_to_set, !elem_of_holding.
  rewrite observe_lookup, filter_cons. cbn [snd]. case_decide as Hg; case_decide as Hc; cbn [fmap list_fmap fst]; rewrite ?elem_of_cons.
  - subst g. split; [|intros _; left; exists (Z.max (default 0 (followers c !! f)) x); split; [done|lia]]. auto.
  - subst g. split; (intros [Hin|Hin]; [left|by right]).
    + destruct Hin as (y & [= <-] & Hy). destruct (followers c !! f) as [e|]; cbn [default] in Hy; [exists e; split; [done|]|]; cbn in Hy; lia.
    + destruct Hin as (y & Hy & Hty). rewrite Hy. cbn. eexists. split; [done|]. lia.
  - tauto.
  - done.
Qed.

(** A wait for the quorum succeeds exactly when enough followers acknowledge
    the target in time; the node itself is one of the quorum. *)
Lemma await_quorum_reached c target arrivals : 0 <= target -> Forall (fun a => 0 <= a.2) arrivals ->
  (await_quorum c target arrivals).2 = bool_decide (quorum c <= 1 + Z.of_nat (size (acknowledged c target arrivals))).
Proof.
  intros Ht Ha. revert c. induction Ha as [|[f x] arrivals Hx _ IH]; intros c; cbn [await_quorum];
    (destruct (is_committed c target) eqn:E; unfold is_committed in E; rewrite holders_size in E; cbn [snd]; [apply Z.leb_le in E|apply Z.leb_gt in E]).
  - symmetry. apply bool_decide_eq_true. unfold acknowledged. cbn. by rewrite union_empty_r_L.
  - symmetry. apply bool_decide_eq_false. unfold acknowledged. cbn. rewrite union_empty_r_L. lia.
  - symmetry. apply bool_decide_eq_true. pose proof (subseteq_size (holding c target) (acknowledged c target ((f, x) :: arrivals)) ltac:(unfold acknowledged; set_solver)). lia.
  - rewrite IH, acknowledged_observe, observe_quorum by done. done.
Qed.

(** Whether a transaction asks for the quorum. *)
Definition wants_quorum (b : Json) : bool := bool_decide (str_of (str "durability") b = Some (str "quorum")).

(** What the reply to a transaction of [ops] says, and what is stored then;
    [quorate] says of the cluster it waited on whether its members hold a
    position. *)
Definition tx_reply_ok (quorate : Cluster.Cluster -> Z -> bool) (n n' : FlowNode S) (s : gmap bytes VectorRecord * Log) (b : Json) (ops : list WriteOp) (res : result RroError Reply) : Prop :=
  let done := spec_run (statements ops) s in
  let count := Z.of_nat (length ops) in
  let target := Z.of_nat (length done.2) in
  match res with
  | Err _ => node_holds n' s
  | Ok (Committed k None) => k = count /\ wants_quorum b = false /\ node_holds n' done
  | Ok (Committed k (Some t)) => k = count /\ t = target /\ wants_quorum b = true /\ node_holds n' done
      /\ exists c, cluster n = Some c /\ quorate c target = true
  | Ok (Refused (NoQuorum k t)) => k = count /\ t = target /\ wants_quorum b = true /\ node_holds n' done
      /\ exists c, cluster n = Some c /\ quorate c target = false
  | Ok (Refused (NotALeader k)) => k = count /\ wants_quorum b = true /\ cluster n = None /\ node_holds n' done
  | Ok _ => False
  end.

(** The quorum of a cluster holds a position: the node, and the followers that
    acknowledged it. *)
Definition quorum_acknowledged (arrivals : list (bytes * Z)) (c : Cluster.Cluster) (target : Z) : bool :=
  bool_decide (quorum c <= 1 + Z.of_nat (size (acknowledged c target arrivals))).

Lemma holds_with_cluster n s c : node_holds n s -> node_holds (with_cluster c n) s.
Proof. by intros [A B C]. Qed.

Lemma tx_outcome n s b arrivals ops_json ops :
  node_holds n s -> arr_of (str "ops") b = Some ops_json -> tx_ops decode_docs (flow n) ops_json = Ok ops ->
  ids_distinct (statements ops) -> room (oe_db (estate_of n)) (Z.of_nat (length (statements ops))) ->
  let '(n', res) := tx_verb json_text now_ms decode_docs arrivals n b in
  tx_reply_ok (fun c target => (await_quorum c target arrivals).2) n n' s b ops res.
Proof.
  intros Hn Ho Ht Hd Hroom. unfold tx_verb, needs_estate. rewrite (nh_estate n s Hn), Ho, Ht. destruct s as [m log].
  change (get_estate r (memory n)) with (estate_of n) in *. destruct (Store.transaction _ _ _ _ _) as [d res] eqn:E.
  eapply transaction_outcome in E; [|apply (nh_refines n _ Hn)|done|by apply (room_run_fits json_text now_ms (oe_lexical_stats (estate_of n)) (oe_db (estate_of n)));
    [apply (nh_refines n _ Hn)|]].
  destruct res as [gops|err]; cbn [outcome_ok] in E.
  - destruct E as [Hr' Hg']. pose proof (written_holds n (m, log) (set_db (estate_of n) d) gops _ Hn Hr' Hg') as Hw.
    assert (next_seq (feed_stats d) = Z.of_nat (length (spec_run (statements ops) (m, log)).2)) as Hseq.
    { pose proof (rf_seq _ _ _ _ _ _ Hr') as Hq. cbn [fst snd] in Hq. rewrite <- Hq. unfold feed_stats. by destruct (feed_scan _ _ _). }
    fold (wants_quorum b). destruct (wants_quorum b) eqn:Eq; [|by split_and!]. cbn [cluster write_estate set_flow].
    destruct (cluster n) as [c|] eqn:Ec; [|by split_and!]. rewrite Hseq.
    destruct (await_quorum _ _ _) as [c' []] eqn:Ew; cbn [refuse tx_reply_ok];
      (split_and!; [done|done|done|by apply holds_with_cluster|exists c; by rewrite Ew]).
  - cbn. by apply (quiet_holds n (m, log)).
Qed.

(** C7: A committed transaction of distinct ids is in the store whole, and a
    quorum is reported exactly when it was asked for and the node, the
    followers it knew at the feed position past the transaction and those an
    acknowledgement of which arrived before the timeout are as many as the
    quorum; it is refused for want of a quorum exactly when they are fewer, and
    for want of a cluster when the node leads none. Both refusals say that the
    transaction is stored all the same; any error means that nothing of it is.
    The counters have room for the operations. *)
Theorem transaction_replies_truthfully n s b arrivals ops_json ops :
  node_holds n s -> arr_of (str "ops") b = Some ops_json -> tx_ops decode_docs (flow n) ops_json = Ok ops ->
  ids_distinct (statements ops) -> room (oe_db (estate_of n)) (Z.of_nat (length (statements ops))) ->
  Forall (fun a => 0 <= a.2) arrivals ->
  let '(n', res) := tx_verb json_text now_ms decode_docs arrivals n b in tx_reply_ok (quorum_acknowledged arrivals) n n' s b ops res.
Proof.
  intros Hn Ho Ht Hd Hroom Ha. pose proof (tx_outcome n s b arrivals ops_json ops Hn Ho Ht Hd Hroom) as Hr.
  destruct (tx_verb _ _ _ _ _ _) as [n' res]. revert Hr. unfold tx_reply_ok. cbv zeta.
  destruct res as [[[]| | | | | | | | | | | |k [t|]| | | | | | | | |]|]; try done;
    intros (Hk & Ht' & Hw & Hs & c & Hc & Hq); (split_and!; [done..|exists c; split; [done|]]);
    (rewrite await_quorum_reached in Hq; [exact Hq|apply Nat2Z.is_nonneg|exact Ha]).
Qed.

Lemma tx_advances n s b arrivals :
  node_holds n s ->
  (forall ops_json ops, arr_of (str "ops") b = Some ops_json -> tx_ops decode_docs (flow n) ops_json = Ok ops ->
    ids_distinct (statements ops) /\ room (oe_db (estate_of n)) (Z.of_nat (length (statements ops)))) ->
  advances (tx_verb json_text now_ms decode_docs arrivals n b).1 s.
Proof.
  intros Hn Hc. pose proof (unchanged_advances n n s Hn (unchanged_refl n)) as Hsame.
  destruct (arr_of (str "ops") b) as [ops_json|] eqn:Ho; [|unfold tx_verb, needs_estate; by rewrite (nh_estate n s Hn), Ho].
  destruct (tx_ops decode_docs (flow n) ops_json) as [ops|err] eqn:Et;
    [|unfold tx_verb, needs_estate; by rewrite (nh_estate n s Hn), Ho, Et].
  destruct (Hc ops_json ops eq_refl Et) as [Hd Hroom]. pose proof (tx_outcome n s b arrivals ops_json ops Hn Ho Et Hd Hroom) as Hr.
  assert (follows s (spec_run (statements ops) s)) as Hf by apply spec_run_follows.
  destruct (tx_verb _ _ _ _ _ _) as [n' res]. cbn [fst]. unfold tx_reply_ok in Hr. destruct res as [rep|err]; [|exists s; split; [done|apply follows_refl]].
  exists (spec_run (statements ops) s). split; [|done]. destruct rep as [[]| | | | | | | | | | | |k [t|]| | | | | | | | |]; try done; tauto.
Qed.

(** ** The other writes *)

Lemma index_advances n s b : node_holds n s -> WritesThrough json_text json_len now_ms (o_recall (flow n)) r ->
  (forall docs rs, match json_get (str "docs") b with Some v => decoded (decode_docs v) | None => Ok [] end = Ok docs ->
    embed_documents (flow n) docs = Ok rs -> ids_distinct (map AUpsert rs) /\ room (oe_db (estate_of n)) (Z.of_nat (length rs))) ->
  advances (index_verb decode_docs n b).1 s.
Proof.
  intros Hn Hw Hc. pose proof (unchanged_advances n n s Hn (unchanged_refl n)) as Hsame.
  unfold index_verb. destruct (match json_get _ b with Some v => _ | None => _ end) as [docs|err]; [|done]. unfold index.
  case_bool_decide; [by apply (unchanged_advances n)|]. destruct (embed_documents (flow n) docs) as [rs|err] eqn:Em; [|by apply (unchanged_advances n)].
  destruct (Hc docs rs eq_refl Em) as [Hd Hroom]. rewrite (writes_through (WritesThrough := Hw)). cbv zeta.
  change (get_estate r (o_memory (flow n))) with (estate_of n).
  destruct (Store.upsert _ _ _ _ _ _ rs) as [d res] eqn:E. destruct s as [m log].
  eapply upsert_outcome in E; [|apply (nh_refines n _ Hn)|done|apply (room_run_fits json_text now_ms (oe_lexical_stats (estate_of n)) (oe_db (estate_of n)));
    [apply (nh_refines n _ Hn)|by rewrite length_map]].
  cbn [fst]. destruct res as [gops|err]; cbn [outcome_ok] in E.
  - destruct E as [Hr' Hg']. exists (spec_run (map AUpsert rs) (m, log)). split; [|apply spec_run_follows].
    exact (written_holds n (m, log) (set_db (estate_of n) d) gops _ Hn Hr' Hg').
  - exists (m, log). split; [|apply follows_refl]. exact (quiet_holds n (m, log) (set_db (estate_of n) d) (m, log) Hn E eq_refl).
Qed.

Lemma graphql_advances n role b s : node_holds n s ->
  (forall roots, parse (default [] (str_of (str "query") b)) = Ok (Operation.Mutation, roots) ->
    Forall root_clean roots /\ room (oe_db (estate_of n)) (Z.of_nat (length roots))) ->
  advances (graphql_verb json_text json_len now_ms cf_sst_bytes health_json n role b).1 s.
Proof.
  intros Hn Hc. pose proof (unchanged_advances n n s Hn (unchanged_refl n)) as Hsame.
  unfold graphql_verb, needs_estate. rewrite (nh_estate n s Hn). change (get_estate r (memory n)) with (estate_of n).
  set (q := default [] _) in *. destruct (_ && _); [done|]. unfold execute.
  assert (advances (write_estate n r (estate_of n) []) s) as Hq.
  { apply (unchanged_advances n); [done|]. apply unwritten. by exists handed. }
  destruct (parse q) as [[[] roots]|err]; [by destruct (run_queries _ _ _ _ _ _ _ _)| |done].
  destruct (Hc roots eq_refl) as [Hcl Hroom].
  destruct (run_mutations _ _ _ _ _ _ _ _ _) as [[e' gops] [data errors]] eqn:E.
  destruct (run_mutations_refine json_text json_len now_ms (flow n) roots (estate_of n) s _ _ _ _ _ _ _ (nh_refines n s Hn)
    (room_fits json_text now_ms _ (oe_db (estate_of n)) s.1 s.2 _ (nh_refines n s Hn) Hroom) Hcl E)
    as (oc & more & _ & _ & -> & [Hr' Hg'] & _ & _).
  exists (spec_run (answered_ops (flow n) oc) s). split; [|apply spec_run_follows]. by apply (written_holds n s).
Qed.

Lemma relate_advances n s b : node_holds n s -> advances (relate_verb n b).1 s.
Proof.
  intros Hn. pose proof (unchanged_advances n n s Hn (unchanged_refl n)) as Hsame. unfold relate_verb, needs_estate. rewrite (nh_estate n s Hn).
  destruct (str_of (str "from") b) as [from|]; [|done]. destruct (str_of (str "verb") b) as [v|]; [|done]. destruct (str_of (str "to") b) as [to|]; [|done].
  exists s. split; [|apply follows_refl]. apply (quiet_holds n s); [done| |done].
  refine (refines_rels json_text now_ms (oe_lexical_stats (estate_of n)) (oe_db (estate_of n)) _ s.1 s.2 _ (nh_refines n s Hn)).
  intros cf Hcf. cbn [oe_db set_db oe_recall with_db db]. unfold Rels.relate. rewrite db_write_plain by done.
  apply map_eq. intros k. apply apply_ops_other. repeat constructor; intros [Hop _]; by apply Hcf.
Qed.

Lemma payload_advances n s v b : node_holds n s -> room (oe_db (estate_of n)) 1 ->
  advances (payload_verb json_text now_ms v n b r (estate_of n)).1 s.
Proof.
  intros Hn Hroom. unfold payload_verb. destruct (payload_change v b) as [f|err]; [|by apply (unchanged_advances n)].
  set (id := default [] _). destruct s as [m log].
  pose proof (mutate_as_meant json_text now_ms (oe_lexical_stats (estate_of n)) (oe_db (estate_of n)) m log f id (nh_refines n _ Hn) Hroom) as Hm.
  destruct (mutate_payload _ _ _ _ _) as [d res]. destruct Hm as [Hr' _]. cbn [answered fst].
  exists (remeta f id (m, log)). split.
  - apply (quiet_holds n (m, log)); [done|exact Hr'|by rewrite remeta_embedding].
  - unfold remeta. cbn [fst snd]. destruct (m !! id); [|apply follows_refl]. split; cbn [fst snd]; [by apply prefix_app_r|].
    intros E. exfalso. apply (f_equal length) in E. rewrite length_app in E. cbn in E. lia.
Qed.

Lemma estate_verb_advances n s v b : node_holds n s -> searchable s.1 -> room (oe_db (estate_of n)) (Z.of_nat (size s.1) + 1) ->
  (v = str "drop_collection" -> nul_free (default [] (str_of (str "name") b))) ->
  advances (estate_verb json_text now_ms cf_sst_bytes v n b).1 s.
Proof.
  intros Hn Hs Hroom Hc. pose proof (unchanged_advances n n s Hn (unchanged_refl n)) as Hsame.
  assert (room (oe_db (estate_of n)) 1) as Hroom1 by (eapply room_less; [|exact Hroom]; lia).
  unfold estate_verb, needs_estate. rewrite (nh_estate n s Hn). change (get_estate r (memory n)) with (estate_of n).
  do 4 (case_bool_decide; [done|]). case_bool_decide.
  { unfold compact_verb. destruct (compact_graph _ _ _) as [g res]. cbn [fst]. exists s. split; [|apply follows_refl].
    apply (quiet_holds n s); [done|exact (nh_refines n s Hn)|done]. }
  case_bool_decide; [done|]. case_bool_decide as Hd.
  { set (name := default [] _) in *. destruct s as [m log].
    destruct (drop_collection_outcome json_text now_ms (oe_lexical_stats (estate_of n)) (oe_db (estate_of n)) m log name (nh_refines n _ Hn) Hs (Hc Hd))
      as (d & gops & -> & Hr' & Hg' & _).
    { apply (room_run_fits json_text now_ms (oe_lexical_stats (estate_of n)) (oe_db (estate_of n)) m log _ (nh_refines n _ Hn)).
      eapply room_less; [|exact Hroom]. cbn [fst]. rewrite length_map. pose proof (members_count m name). lia. }
    cbn [fst]. exists (meaning (QlAst.Statement.Remove (QlAst.Remove.Collection name)) (m, log)). split; [|apply meaning_follows].
    by apply (written_holds n (m, log)). }
  destruct s as [m log]. pose proof (fun a c => alias_exact json_text now_ms _ _ m log a c a (nh_refines n _ Hn)) as Ha.
  case_bool_decide; [exists (m, log); split; [apply (quiet_holds n (m, log)); [done|apply Ha|done]|apply follows_refl]|].
  case_bool_decide; [done|].
  case_bool_decide; [exists (m, log); split; [apply (quiet_holds n (m, log)); [done|by apply (Ha _ [])|done]|apply follows_refl]|].
  by apply payload_advances.
Qed.

(** What a message owes the store: ids and names without the separator, no id
    twice in one batch, and room in the counters for what it writes. *)
Record message_ok (n : FlowNode S) (m : gmap bytes VectorRecord) (msg : Message) : Prop := {
  mo_room : room (oe_db (estate_of n)) (Z.of_nat (size m) + 1);
  mo_sql : forall src stmt, str_of (str "sql") (body msg) = Some src -> QlParser.parse src = Ok stmt -> clean_statement stmt;
  mo_index : verb msg = str "index" -> forall docs rs,
    match json_get (str "docs") (body msg) with Some v => decoded (decode_docs v) | None => Ok [] end = Ok docs ->
    embed_documents (flow n) docs = Ok rs -> ids_distinct (map AUpsert rs) /\ room (oe_db (estate_of n)) (Z.of_nat (length rs));
  mo_tx : verb msg = str "tx" -> forall ops_json ops, arr_of (str "ops") (body msg) = Some ops_json -> tx_ops decode_docs (flow n) ops_json = Ok ops ->
    ids_distinct (statements ops) /\ room (oe_db (estate_of n)) (Z.of_nat (length (statements ops)));
  mo_graphql : verb msg = str "graphql" -> forall roots, parse (default [] (str_of (str "query") (body msg))) = Ok (Operation.Mutation, roots) ->
    Forall root_clean roots /\ room (oe_db (estate_of n)) (Z.of_nat (length roots));
  mo_drop : verb msg = str "drop_collection" -> nul_free (default [] (str_of (str "name") (body msg)));
}.

Lemma dispatch_advances w n role msg s : node_holds n s -> searchable s.1 -> message_ok n s.1 msg ->
  WritesThrough json_text json_len now_ms (o_recall (flow n)) r ->
  advances (dispatch json_text json_len now_ms cf_sst_bytes health_json decode_query decode_docs show_error w n role msg).1 s.
Proof.
  intros Hn Hs [M1 M2 M3 M4 M5 M6] Hw. pose proof (fun n' => unchanged_advances n n' s Hn) as Hu. pose proof (Hu n (unchanged_refl n)) as Hsame.
  unfold dispatch. cbv zeta.
  case_bool_decide; [done|]. case_bool_decide; [apply Hu, ask_verb_unchanged|]. case_bool_decide; [apply Hu, map_verb_unchanged|].
  case_bool_decide; [by unfold changes_verb, needs_estate; destruct (estate n)|]. case_bool_decide; [apply Hu, replicate_verb_unchanged|].
  case_bool_decide; [apply Hu, query_verb_unchanged|]. case_bool_decide; [by unfold recommend_verb, needs_estate; destruct (estate n)|].
  case_bool_decide; [by apply sql_advances|]. case_bool_decide; [apply Hu, discover_verb_unchanged|]. case_bool_decide; [by apply relate_advances|].
  case_bool_decide; [apply Hu, traverse_verb_unchanged|]. case_bool_decide as Hv; [by apply index_advances; [done|done|apply M3]|].
  case_bool_decide; [by apply graphql_advances; [done|apply M5]|]. case_bool_decide; [by apply tx_advances; [done|apply M4]|].
  case_bool_decide; [done|]. case_bool_decide; [by apply estate_verb_advances|done].
Qed.

(** C5: Whatever the verb, its caller and its outcome, handling a message leaves a
    node whose store holds a map and its log exactly: the state after no, one
    or several complete writes, each with its row in the feed, and what was
    handed to the graph made the vectors of that map. *)
Theorem node_stays_refined w n msg s : node_holds n s -> searchable s.1 -> message_ok n s.1 msg ->
  WritesThrough json_text json_len now_ms (o_recall (flow n)) r ->
  exists s', node_holds (handle json_text json_len now_ms cf_sst_bytes health_json decode_query decode_docs show_error w n msg).1 s' /\ follows s s'.
Proof.
  intros Hn Hs Hm Hw. unfold handle. destruct (authorize (now w) n msg) as [role|]; [|by apply (unchanged_advances n n s Hn)].
  pose proof (dispatch_advances w n role msg s Hn Hs Hm Hw) as Hd.
  by destruct (dispatch _ _ _ _ _ _ _ _ _ _ _ _) as [n' res].
Qed.
End refined.

(** ** The push stream

    [handle_stream]: a subscription is refused, closed with an answer, or
    opened at a cursor. *)
Inductive Subscription `{SerdeNumber} : Type :=
  | NotAStream
  | Closed (answer : Reply)
  | Subscribed (since : Z).

(** A frame: the change and the cursor past it. *)
Definition Frame : Type := Change * Z.
Definition frame (c : Change) : Frame := (c, u64_add (ch_seq c) 1).

Section subscribe.
Context `{SerdeNumber} `{Libm} `{TextAnalyzer} `{!NumberAsU64} `{J : ClaimsJson}.

Definition live_cursor (d : Db) (src : bytes) : Subscription :=
  match QlParser.parse src with
  | Ok (QlAst.Statement.Live live) => Subscribed (default (next_seq (feed_stats d)) (QlAst.live_since live))
  | Ok other => Closed (Refused (NotALive (QlAst.Statement.keyword other)))
  | Err e => Closed (Refused (NotReadable e))
  end.

Definition subscribe {S} (now : Z) (n : FlowNode S) (msg : Message) : Subscription :=
  if negb (bool_decide (verb msg = str "watch") || bool_decide (verb msg = str "live")) then NotAStream
  else
    match authorize now n msg, estate n with
    | None, _ => Closed (Refused Unauthorized)
    | Some _, None => Closed (Refused NoEstate)
    | Some _, Some r =>
        if bool_decide (verb msg = str "live") then live_cursor (oe_db (get_estate r (memory n))) (default (str "LIVE") (str_of (str "sql") (body msg)))
        else Subscribed (default 0 (u64_of (str "since_seq") (body msg)))
    end.
End subscribe.

(** The task behind a subscription. [notified()] is armed before the feed is
    read and wakes on every later [notify_waiters]; [epoch] counts those, and
    a committed write of the recall owes one ([owed]). *)
Inductive StreamPc : Type :=
  | PArm
  | PRead (armed : nat)
  | PSend (page : list Change)
  | PAwait (armed : nat)
  | PGone.

Section stream_state.
Context `{SerdeNumber}.
Record Stream : Type := mkStream {
  st_db : Db;
  st_epoch : nat;
  st_owed : nat;
  st_since : Z;
  st_sent : list Frame;
  st_pc : StreamPc;
}.
(** The feed of the store: its log, and how much of it the writes that notify
    have announced or are about to. *)
Record Feed : Type := mkFeed { fd_log : Log; fd_told : nat }.
Definition told (f : Feed) : Log := take (fd_told f) (fd_log f).
End stream_state.

Section stream.
Context `{SerdeNumber} `{Libm} `{TextAnalyzer}.
Variable now_ms : Z -> Z.
(** The rows of the feed a log stands for. *)
Local Abbreviation rows := (imap (log_change now_ms)).

(** The turns of the task, and the wake-up a write owes it. *)
Inductive stream_turn : Stream -> Stream -> Prop :=
  | st_arm d ep ow q s : stream_turn (mkStream d ep ow q s PArm) (mkStream d ep ow q s (PRead ep))
  | st_read d ep ow q s a :
      stream_turn (mkStream d ep ow q s (PRead a))
        (mkStream d ep ow q s (if bool_decide (changes d q 256 = []) then PAwait a else PSend (changes d q 256)))
  | st_send d ep ow q s c page :
      stream_turn (mkStream d ep ow q s (PSend (c :: page))) (mkStream d ep ow (u64_add (ch_seq c) 1) (s ++ [frame c]) (PSend page))
  | st_page_done d ep ow q s : stream_turn (mkStream d ep ow q s (PSend [])) (mkStream d ep ow q s PArm)
  | st_wake d ep ow q s a : (a < ep)%nat -> stream_turn (mkStream d ep ow q s (PAwait a)) (mkStream d ep ow q s PArm)
  | st_notify d ep ow q s pc : stream_turn (mkStream d ep (S ow) q s pc) (mkStream d (S ep) ow q s pc).

(** What else happens: a write of the recall appends to the feed and will
    notify; a dropped collection appends to it and notifies nobody; the peer
    hangs up. The log is what the feed of the store holds. *)
Inductive stream_step : Stream * Feed -> Stream * Feed -> Prop :=
  | ss_turn s s' f : stream_turn s s' -> stream_step (s, f) (s', f)
  | ss_write d d' ep ow q s pc log n more :
      feed_ok now_ms d' (log ++ more) -> Z.of_nat (length (log ++ more)) < 2 ^ 64 ->
      stream_step (mkStream d ep ow q s pc, mkFeed log n) (mkStream d' ep (S ow) q s pc, mkFeed (log ++ more) (length (log ++ more)))
  | ss_drop d d' ep ow q s pc log n more :
      feed_ok now_ms d' (log ++ more) -> Z.of_nat (length (log ++ more)) < 2 ^ 64 ->
      stream_step (mkStream d ep ow q s pc, mkFeed log n) (mkStream d' ep ow q s pc, mkFeed (log ++ more) n)
  | ss_hang_up d ep ow q s page f : stream_step (mkStream d ep ow q s (PSend page), f) (mkStream d ep ow q s PGone, f).

(** A task that begins at a cursor. *)
Definition begins (since : Z) (x : Stream * Feed) : Prop :=
  feed_ok now_ms (st_db x.1) (fd_log x.2) /\ Z.of_nat (length (fd_log x.2)) < 2 ^ 64 /\ (fd_told x.2 <= length (fd_log x.2))%nat
  /\ st_since x.1 = since /\ st_sent x.1 = [] /\ st_pc x.1 = PArm.

(** The frames of the rows from a cursor on. *)
Definition frames_from (since : Z) (log : Log) : list Frame := map frame (drop (Z.to_nat since) (rows log)).

(** Asleep, and no wake-up on its way. *)
Definition sleeps (x : Stream) : Prop := exists a, st_pc x = PAwait a /\ (st_epoch x <= a)%nat /\ st_owed x = 0%nat.

Record stream_inv (since : Z) (x : Stream * Feed) : Prop := {
  si_feed : feed_ok now_ms (st_db x.1) (fd_log x.2);
  si_small : Z.of_nat (length (fd_log x.2)) < 2 ^ 64;
  si_told : (fd_told x.2 <= length (fd_log x.2))%nat;
  si_sent : st_sent x.1 = take (length (st_sent x.1)) (frames_from since (fd_log x.2));
  si_since : st_since x.1 = since + Z.of_nat (length (st_sent x.1));
  si_page : match st_pc x.1 with
            | PSend page => map frame page = take (length page) (drop (length (st_sent x.1)) (frames_from since (fd_log x.2)))
            | PRead a => (a <= st_epoch x.1)%nat
            | PAwait a => (a <= st_epoch x.1)%nat
                /\ ((a < st_epoch x.1)%nat \/ (0 < st_owed x.1)%nat \/ frames_from since (told x.2) `prefix_of` st_sent x.1)
            | _ => True
            end;
}.

Lemma frames_from_app since log more : exists ext, frames_from since (log ++ more) = frames_from since log ++ ext.
Proof.
  unfold frames_from. rewrite imap_app, drop_app, map_app. by eexists.
Qed.

Lemma frames_from_told since f : frames_from since (told f) `prefix_of` frames_from since (fd_log f).
Proof.
  unfold told. rewrite <- (take_drop (fd_told f) (fd_log f)) at 2. destruct (frames_from_app since (take (fd_told f) (fd_log f)) (drop (fd_told f) (fd_log f))) as [ext ->].
  by exists ext.
Qed.

Lemma told_app log n more : (n <= length log)%nat -> told (mkFeed (log ++ more) n) = told (mkFeed log n).
Proof. intros Hn. unfold told. cbn. by rewrite take_app_le. Qed.

Lemma length_taken {A} (s l : list A) : s = take (length s) l -> (length s <= length l)%nat.
Proof. intros E. apply (f_equal length) in E. rewrite length_take in E. lia. Qed.

(** The page read at the cursor is the next rows. *)
Lemma page_at since d log (sent : list Frame) : feed_ok now_ms d log -> Z.of_nat (length log) < 2 ^ 64 -> 0 <= since -> since + Z.of_nat (length sent) < 2 ^ 64 ->
  map frame (changes d (since + Z.of_nat (length sent)) 256) = take 256 (drop (length sent) (frames_from since log)).
Proof.
  intros Hf Hl Hs Hb. rewrite (changes_window now_ms d log) by (done || lia). unfold window, frames_from.
  rewrite List.skipn_map, List.firstn_map, drop_drop. do 3 f_equal. lia.
Qed.

Lemma frame_at since log k f : frames_from since log !! k = Some f -> 0 <= since -> Z.of_nat (length log) < 2 ^ 64 ->
  f.2 = since + Z.of_nat k + 1 /\ f.2 <= Z.of_nat (length log).
Proof.
  unfold frames_from. rewrite list_lookup_fmap, lookup_drop, list_lookup_imap. destruct (log !! _) as [c|] eqn:E; [|done].
  intros [= <-] Hs Hl. apply lookup_lt_Some in E. cbn [frame snd log_change ch_seq]. rewrite u64_add_small; lia.
Qed.

Lemma sent_bound since x : 0 <= since < 2 ^ 64 -> stream_inv since x -> 0 <= st_since x.1 < 2 ^ 64.
Proof.
  intros Hs [_ Hl _ Hsent -> _]. apply length_taken in Hsent. unfold frames_from in Hsent. rewrite length_map, length_drop, length_imap in Hsent. lia.
Qed.

Lemma begins_inv since x : begins since x -> stream_inv since x.
Proof. intros (Hf & Hl & Ht & Hs & He & Hp). split; [done|done|done|by rewrite He|rewrite He; cbn; lia|by rewrite Hp]. Qed.

Lemma take_own {A} (l r : list A) k : l = take k r -> l = take (length l) r.
Proof.
  intros ->. rewrite length_take. destruct (Nat.le_ge_cases k (length r)); [by rewrite Nat.min_l|]. by rewrite Nat.min_r, !take_ge.
Qed.

Lemma next_frame (c : Change) page (F : list Frame) n :
  map frame (c :: page) = take (length (c :: page)) (drop n F) ->
  F !! n = Some (frame c) /\ map frame page = take (length page) (drop (Datatypes.S n) F).
Proof.
  intros E. destruct (drop n F) as [|f rest] eqn:Ed; [done|]. cbn in E. injection E as Ef Er. split.
  - rewrite <- (Nat.add_0_r n), <- lookup_drop, Ed. cbn. congruence.
  - rewrite Er. f_equal. replace (Datatypes.S n) with (n + 1)%nat by lia. by rewrite <- drop_drop, Ed.
Qed.

Local Ltac fields := cbn [fst snd st_db st_epoch st_owed st_since st_sent st_pc fd_log fd_told] in *.

(** An empty page is the end of the feed. *)
Lemma nothing_left since d ep ow q s a f : 0 <= since < 2 ^ 64 -> stream_inv since (mkStream d ep ow q s (PRead a), f) ->
  changes d q 256 = [] -> s = frames_from since (fd_log f).
Proof.
  intros Hs Hi He. pose proof (sent_bound since _ Hs Hi) as Hb. destruct Hi as [Hf Hl _ Hsent Hsince _]. fields. subst q.
  pose proof (page_at since d (fd_log f) s Hf Hl ltac:(lia) ltac:(lia)) as Hpage. rewrite He in Hpage. rewrite Hsent. apply take_ge.
  apply (f_equal length) in Hpage. rewrite length_take, length_drop in Hpage. cbn [map length] in Hpage. lia.
Qed.

Lemma turn_inv since s s' f : 0 <= since < 2 ^ 64 -> stream_turn s s' -> stream_inv since (s, f) -> stream_inv since (s', f).
Proof.
  intros Hs Ht Hi. pose proof (sent_bound since _ Hs Hi) as Hb. pose proof Hi as [Hf Hl Hto Hsent Hsince Hp].
  destruct Ht; fields; try (split; fields; (done || lia)).
  - split; fields; try done. case_bool_decide as He.
    + split; [done|]. right. right. rewrite (nothing_left since d ep ow q s a f Hs Hi He). apply frames_from_told.
    + subst q. pose proof (page_at since d (fd_log f) s Hf Hl ltac:(lia) ltac:(lia)) as Hpage. rewrite <- (length_map frame (changes d _ 256)). by eapply take_own.
  - destruct (next_frame c page _ _ Hp) as [Hc Hpage]. destruct (frame_at since (fd_log f) _ _ Hc) as [Hq _]; [lia|done|].
    split; fields; rewrite ?length_app; cbn [length]; try done.
    + rewrite Nat.add_1_r, (take_S_r _ _ (frame c)) by done. by rewrite <- Hsent.
    + cbn [frame snd] in Hq. lia.
    + by rewrite Nat.add_1_r.
  - split; fields; try done. destruct pc; try done; [lia|]. split; [lia|left; lia].
Qed.

(** A longer feed keeps what was sent and the page on its way. *)
Lemma grows_inv since d d' ep ow ow' q s pc log more n n' :
  feed_ok now_ms d' (log ++ more) -> Z.of_nat (length (log ++ more)) < 2 ^ 64 -> (n' <= length (log ++ more))%nat ->
  (ow' = Datatypes.S ow \/ ow' = ow /\ n' = n) ->
  stream_inv since (mkStream d ep ow q s pc, mkFeed log n) -> stream_inv since (mkStream d' ep ow' q s pc, mkFeed (log ++ more) n').
Proof.
  intros Hf' Hl' Hn' Hcase [Hf Hl Hto Hsent Hsince Hp]. fields.
  destruct (frames_from_app since log more) as [ext Hext]. pose proof (length_taken _ _ Hsent) as Hlen. split; fields; try done.
  - rewrite Hext, take_app_le by done. exact Hsent.
  - destruct pc as [|a|page|a|]; try done.
    + rewrite Hext, drop_app_le by done.
      pose proof (f_equal length Hp) as Hpl. rewrite length_map, length_take in Hpl. rewrite take_app_le by lia. exact Hp.
    + destruct Hp as [Ha Hp]. split; [done|]. destruct Hcase as [->|[-> ->]]; [right; left; lia|]. by rewrite told_app.
Qed.

Lemma step_inv since x x' : 0 <= since < 2 ^ 64 -> stream_step x x' -> stream_inv since x -> stream_inv since x'.
Proof.
  intros Hs Ht Hi. destruct Ht as [s s' f Ht|d d' ep ow q s pc log n more Hf' Hl'|d d' ep ow q s pc log n more Hf' Hl'|d ep ow q s page f].
  - by eapply turn_inv.
  - eapply grows_inv; [done|done|done|by left|exact Hi].
  - eapply grows_inv; [done|done| |by right|exact Hi]. pose proof (si_told _ _ Hi). fields. rewrite length_app. lia.
  - destruct Hi as [Hf Hl Hto Hsent Hsince Hp]. by split.
Qed.

Lemma stream_reachable_inv since x0 x : 0 <= since < 2 ^ 64 -> begins since x0 -> rtc stream_step x0 x -> stream_inv since x.
Proof. intros Hs Hb Hr. pose proof (begins_inv since x0 Hb) as Hi. clear Hb. induction Hr as [|x y z Hst Hr IH]; [done|]. apply IH. by eapply step_inv. Qed.

(** Left to itself the task sends what is there and goes to sleep. *)
Lemma send_page d ep ow q s page f since : 0 <= since < 2 ^ 64 -> stream_inv since (mkStream d ep ow q s (PSend page), f) ->
  exists q' s', rtc stream_turn (mkStream d ep ow q s (PSend page)) (mkStream d ep ow q' s' PArm)
    /\ stream_inv since (mkStream d ep ow q' s' PArm, f) /\ length s' = (length s + length page)%nat.
Proof.
  intros Hs. revert q s. induction page as [|c page IH]; intros q s Hi.
  - exists q, s. split_and!; [apply rtc_once, st_page_done|by eapply turn_inv; [|apply st_page_done|]|cbn; lia].
  - destruct (IH (u64_add (ch_seq c) 1) (s ++ [frame c])) as (q' & s' & Hr & Hi' & Hl'); [by eapply turn_inv; [|apply st_send|]|].
    exists q', s'. split_and!; [by eapply rtc_l; [apply st_send|]|done|]. rewrite Hl', length_app. cbn. lia.
Qed.

Lemma drain_armed since f k : 0 <= since < 2 ^ 64 -> forall d ep ow q s,
  stream_inv since (mkStream d ep ow q s PArm, f) -> (length (frames_from since (fd_log f)) - length s <= k)%nat ->
  exists q', rtc stream_turn (mkStream d ep ow q s PArm) (mkStream d ep ow q' (frames_from since (fd_log f)) (PAwait ep)).
Proof.
  intros Hs. induction k as [k IH] using lt_wf_ind. intros d ep ow q s Hi Hk.
  assert (stream_inv since (mkStream d ep ow q s (PRead ep), f)) as Hi1 by (by eapply turn_inv; [|apply st_arm|]).
  pose proof (turn_inv since _ _ f Hs (st_read d ep ow q s ep) Hi1) as Hi2.
  destruct (decide (changes d q 256 = [])) as [He|He].
  - exists q. eapply rtc_l; [apply st_arm|]. eapply rtc_l; [apply st_read|]. rewrite bool_decide_true by done.
    rewrite <- (nothing_left since d ep ow q s ep f Hs Hi1 He). apply rtc_refl.
  - rewrite bool_decide_false in Hi2 by done. destruct (send_page _ _ _ _ _ _ _ _ Hs Hi2) as (q1 & s1 & Hr & Hi3 & Hl3).
    assert (0 < length (changes d q 256))%nat by (destruct (changes d q 256); [done|cbn; lia]).
    pose proof (length_taken _ _ (si_sent _ _ Hi3)) as Hlt. fields.
    destruct (IH (length (frames_from since (fd_log f)) - length s1)%nat ltac:(lia) d ep ow q1 s1 Hi3 ltac:(lia)) as [q' Hr']. exists q'.
    eapply rtc_l; [apply st_arm|]. eapply rtc_l; [apply st_read|]. rewrite bool_decide_false by done. by etrans.
Qed.

(** Unless it sleeps on, the task sends the whole feed. *)
Lemma stream_drains since x : 0 <= since < 2 ^ 64 -> stream_inv since x -> st_pc x.1 <> PGone -> ~ sleeps x.1 ->
  exists s', rtc stream_turn x.1 s' /\ st_sent s' = frames_from since (fd_log x.2).
Proof.
  intros Hs Hi Hpc Hsl. destruct x as [[d ep ow q s pc] f]. fields.
  assert (forall ep ow q s, stream_inv since (mkStream d ep ow q s PArm, f) ->
    exists s', rtc stream_turn (mkStream d ep ow q s PArm) s' /\ st_sent s' = frames_from since (fd_log f)) as Harm.
  { intros ep' ow' q' s' Hi'. destruct (drain_armed since f _ Hs d ep' ow' q' s' Hi' (le_n _)) as [q2 Hr]. eexists. split; [exact Hr|done]. }
  assert (forall page, stream_inv since (mkStream d ep ow q s (PSend page), f) ->
    exists s', rtc stream_turn (mkStream d ep ow q s (PSend page)) s' /\ st_sent s' = frames_from since (fd_log f)) as Hsend.
  { intros page Hi'. destruct (send_page _ _ _ _ _ _ _ _ Hs Hi') as (q1 & s1 & Hr & Hi3 & _). destruct (Harm _ _ _ _ Hi3) as (x' & Hr' & Hx). exists x'. split; [by etrans|done]. }
  assert (forall ep ow a, stream_inv since (mkStream d ep ow q s (PAwait a), f) -> (a < ep)%nat ->
    exists s', rtc stream_turn (mkStream d ep ow q s (PAwait a)) s' /\ st_sent s' = frames_from since (fd_log f)) as Hwake.
  { intros ep' ow' a Hi' Ha. destruct (Harm ep' ow' q s) as (x' & Hr & Hx); [by eapply turn_inv; [|by apply st_wake|]|].
    exists x'. split; [|done]. eapply rtc_l; [by apply st_wake|done]. }
  destruct pc as [|a|page|a|]; [by apply Harm| |by apply Hsend| |done].
  - pose proof (turn_inv since _ _ f Hs (st_read d ep ow q s a) Hi) as Hi2. case_bool_decide as He.
    + rewrite <- (nothing_left since d ep ow q s a f Hs Hi He). eexists. split; [apply rtc_once, st_read|done].
    + destruct (Hsend _ Hi2) as (x' & Hr & Hx). exists x'. split; [|done]. eapply rtc_l; [apply st_read|]. by rewrite bool_decide_false.
  - destruct (Nat.lt_ge_cases a ep) as [Ha|Ha]; [by apply Hwake|]. destruct ow as [|ow]; [destruct Hsl; by exists a|].
    pose proof (si_page _ _ Hi) as [Hle _]. fields.
    destruct (Hwake (Datatypes.S ep) ow a) as (x' & Hr & Hx); [by eapply turn_inv; [|apply st_notify|]|lia|].
    exists x'. split; [|done]. eapply rtc_l; [apply st_notify|done].
Qed.

(** C8: A stream opened at a cursor has, at every moment and however writes and
    drops of collections fall between its steps, sent the rows of the feed from
    the cursor on, each once, in order, with the cursor past it, and none it
    does not hold. While it sleeps with no wake-up on its way it has sent every
    row up to the last write of the recall: what it may still owe is rows that
    dropped collections appended after that, which notify nobody. In any other
    state, while the peer has not hung up, its own turns alone send the whole
    feed. *)
Theorem stream_delivers since x0 x : 0 <= since < 2 ^ 64 -> begins since x0 -> rtc stream_step x0 x ->
  st_sent x.1 `prefix_of` frames_from since (fd_log x.2)
  /\ (sleeps x.1 -> frames_from since (told x.2) `prefix_of` st_sent x.1)
  /\ (~ sleeps x.1 -> st_pc x.1 <> PGone -> exists s', rtc stream_turn x.1 s' /\ st_sent s' = frames_from since (fd_log x.2)).
Proof.
  intros Hs Hb Hr. pose proof (stream_reachable_inv since x0 x Hs Hb Hr) as Hi. split_and!.
  - rewrite (si_sent _ _ Hi). apply prefix_take.
  - intros (a & Hpc & He & Ho). pose proof (si_page _ _ Hi) as Hp. rewrite Hpc in Hp. destruct Hp as [_ [Hp|[Hp|Hp]]]; [lia|lia|done].
  - intros Hsl Hpc. by apply stream_drains.
Qed.
End stream.

(** ** Runs *)

Section shared_laws.
Context `{SerdeNumber} `{Libm} `{TextAnalyzer} `{Ln} `{Ln32} `{LegacyPosting}.
Context {HC : BinaryHeap Scored reverse_key} {HR : BinaryHeap Scored scored_key}.
#[export] Instance shared_ref_laws : EstateRefLaws shared_ref sh_handed.
Proof. split; [done| |done]. intros [e h]. cbn. by rewrite app_nil_r. Qed.
#[export] Instance shared_writes json_text json_len now_ms :
  WritesThrough json_text json_len now_ms (shared_recall json_text json_len now_ms) shared_ref.
Proof. by split. Qed.
End shared_laws.

Module Runs.
Import PlainClaims.
#[local] Existing Instances plain_number flat_libm one_token AnnSpec.line_ln SearchSpec.tangent_ln SearchSpec.no_legacy QuerySpec.ascii_highlights ascii_unicode plain_order unlogged ToonFacts.plain_text plain_claims list_heap.

Definition num (z : Z) : number :=
  match bool_dec (plain_num_ok (PosInt z)) true with left H => exist _ (PosInt z) H | right _ => exist _ (PosInt 0) eq_refl end.
#[local] Instance plain_of_int : NumberOfInt := num.
#[local] Instance plain_u64 : NumberAsU64 := fun n => match `n with PosInt z => Some z | _ => None end.

Definition demo_recall : ConnXRecall := mkRecall db1 (ann_new (ann_config QNone)) Pending.new quotas_default default_params QNone.
Definition demo_handed : list GraphOp := match (upsert no_text (fun _ => 1) no_clock quotas_default true db0 [cat; dog]).2 with Ok g => g | Err _ => [] end.
Definition demo_memory : Shared := mkShared (mkEstate demo_recall (mkEstateInfo [] [] 0 None ∅) true) demo_handed.
Definition demo_flow : ReasonReadyObject _ Shared := build_with builder_new (shared_recall no_text (fun _ => 1) no_clock) demo_memory.
Definition demo : FlowNode Shared := with_auth demo_node (with_cluster (cluster_new 2) (with_estate shared_ref (node_new demo_flow (str "n1")))).
Definition demo_env : Env := mkEnv 2000 7 [(str "f1", 3)].
Definition reader_token : bytes := issue_for 1000 (auth_new demo_key) (str "bob") Reader (Some (str "acme")) 3600.
Definition writer_token : bytes := issue_for 1000 (auth_new demo_key) (str "alice") Writer (Some (str "acme")) 3600.
Definition say (token : bytes) (v : bytes) (b : list (bytes * Json)) : Message := mkMessage (str "1") (str "c") (str "n1") v (Some token) (JObj b).
Definition no_query : Json -> result bytes EstateQuery := fun _ => Err [].
Definition no_docs : Json -> result bytes (list Document) := fun _ => Err [].
Local Abbreviation handled := (handle no_text (fun _ => 1) no_clock (fun _ => 0) (fun _ => JNull) no_query no_docs (fun _ => [])).

Lemma reader_changes_nothing_witness :
  let msg := say reader_token (str "sql") [(str "sql", JStr (str "DELETE cat"))] in
  authorize 2000 demo msg = Some (Some Reader) /\ unchanged demo (handled demo_env demo msg).1.
Proof.
  cbv zeta. assert (authorize 2000 demo (say reader_token (str "sql") [(str "sql", JStr (str "DELETE cat"))]) = Some (Some Reader)) as Ha
    by (vm_compute; reflexivity).
  split; [exact Ha|]. apply (reader_changes_nothing no_text (fun _ => 1) no_clock (fun _ => 0) (fun _ => JNull) no_query no_docs (fun _ => []) demo_env demo _ Ha).
  intros r [= <-]. exists sh_handed. apply shared_ref_laws.
Defined.

Lemma demo_holds : node_holds no_text no_clock shared_ref sh_handed demo m1.
Proof.
  split; [reflexivity|exact db1_refines|].
  change (graph_run demo_handed ∅ = vr_embedding <$> m1.1). unfold demo_handed.
  destruct (upsert _ _ _ _ _ _ _) as [db res] eqn:E.
  assert (is_ok res = true) as Hok by (change res with (db, res).2; rewrite <- E; vm_compute; reflexivity).
  eapply upsert_outcome in E; [|apply db0_refines|apply cat_dog_distinct|repeat split; vm_compute; reflexivity].
  destruct res as [g|e]; [|done]. destruct E as [_ Hg]. exact Hg.
Qed.

Definition remove_cat : list (bytes * Json) :=
  [(str "durability", JStr (str "quorum")); (str "ops", JArr [JObj [(str "remove", JStr (str "cat"))]])].

Lemma remove_cat_ops : arr_of (str "ops") (JObj remove_cat) = Some [JObj [(str "remove", JStr (str "cat"))]]
  /\ tx_ops no_docs demo_flow [JObj [(str "remove", JStr (str "cat"))]] = Ok [WRemove (str "cat")].
Proof. split; reflexivity. Qed.

Lemma cat_removable : ids_distinct (statements [WRemove (str "cat")]) /\ room db1 (Z.of_nat (length (statements [WRemove (str "cat")]))).
Proof.
  split; [|split_and!; vm_compute; reflexivity]. split; [apply NoDup_singleton|]. intros x Hx. by apply list_elem_of_singleton in Hx.
Qed.

Lemma transaction_replies_truthfully_witness :
  let '(n', res) := tx_verb no_text no_clock no_docs [(str "f1", 3)] demo (JObj remove_cat) in
  tx_reply_ok no_text no_clock shared_ref sh_handed (quorum_acknowledged [(str "f1", 3)]) demo n' m1 (JObj remove_cat) [WRemove (str "cat")] res.
Proof.
  destruct remove_cat_ops as [Ho Ht]. destruct cat_removable as [Hd Hr].
  exact (transaction_replies_truthfully no_text no_clock no_docs shared_ref sh_handed demo m1 (JObj remove_cat) [(str "f1", 3)] _ _ demo_holds Ho Ht Hd Hr
    ltac:(repeat constructor; discriminate)).
Defined.

Lemma node_stays_refined_witness :
  exists s', node_holds no_text no_clock shared_ref sh_handed (handled demo_env demo (say writer_token (str "tx") remove_cat)).1 s' /\ follows m1 s'.
Proof.
  apply (node_stays_refined no_text (fun _ => 1) no_clock (fun _ => 0) (fun _ => JNull) no_query no_docs (fun _ => []) shared_ref sh_handed
    demo_env demo (say writer_token (str "tx") remove_cat) m1 demo_holds m1_searchable); [|apply shared_writes].
  split.
  - split_and!; vm_compute; reflexivity.
  - intros src stmt E. vm_compute in E. discriminate E.
  - intros E. vm_compute in E. discriminate E.
  - intros _ ops_json ops E Eo. destruct remove_cat_ops as [Ho Ht]. cbn [body say] in E. rewrite Ho in E. injection E as <-.
    assert (ops = [WRemove (str "cat")]) as -> by (change (flow demo) with demo_flow in Eo; rewrite Ht in Eo; by injection Eo as <-).
    exact cat_removable.
  - intros E. vm_compute in E. discriminate E.
  - intros E. vm_compute in E. discriminate E.
Defined.

Lemma opens_at_start : begins no_clock 0 (mkStream db1 0 0 0 [] PArm, mkFeed m1.2 (length m1.2)).
Proof. split; [apply (rf_feed _ _ _ _ _ _ db1_refines)|]. by split_and!. Qed.

Lemma stream_delivers_witness : let x := (mkStream db1 0 0 0 [] PArm, mkFeed m1.2 (length m1.2)) in
  begins no_clock 0 x /\ exists s', rtc stream_turn x.1 s' /\ st_sent s' = frames_from no_clock 0 m1.2 /\ length (st_sent s') = 2%nat.
Proof.
  cbv zeta. split; [exact opens_at_start|].
  destruct (stream_delivers no_clock 0 _ _ ltac:(lia) opens_at_start (rtc_refl _ _)) as (_ & _ & Hd).
  destruct Hd as (s' & Hr & Hs); [by intros (a & Ha & _)|discriminate|].
  exists s'. split; [exact Hr|]. split; [exact Hs|]. rewrite Hs. vm_compute. reflexivity.
Defined.

(** A collection dropped while a stream sleeps: the rows of its removals are in
    the feed, and the stream sleeps on without having sent them. *)
Definition db_dropped : Db := (drop_collection no_text no_clock true db1 (str "docs")).1.1.
Definition dropped_log : Log := m1.2 ++ map (fun id => (Remove, id)) (members_of m1.1 (str "docs")).

Theorem drop_leaves_stream_asleep : exists s,
  rtc (stream_step no_clock) (mkStream db1 0 0 0 [] PArm, mkFeed m1.2 (length m1.2)) (s, mkFeed dropped_log (length m1.2))
  /\ sleeps s /\ st_sent s <> frames_from no_clock 0 dropped_log.
Proof.
  assert (feed_ok no_clock db_dropped dropped_log) as Hf.
  { destruct (drop_collection_outcome no_text no_clock true db1 m1.1 m1.2 (str "docs") db1_refines m1_searchable) as (db' & gops & E & HR & _).
    - refine (bool_decide_eq_true_1 _ _). vm_compute. reflexivity.
    - assert (members_of m1.1 (str "docs") = [str "cat"; str "dog"]) as -> by (vm_compute; reflexivity). repeat split; vm_compute; reflexivity.
    - unfold db_dropped. rewrite E. apply (rf_feed _ _ _ _ _ _ HR). }
  destruct (drain_armed no_clock 0 (mkFeed m1.2 (length m1.2)) 2 ltac:(lia) db1 0%nat 0%nat 0 [] (begins_inv _ _ _ opens_at_start)) as [q Hr]; [by vm_compute|].
  exists (mkStream db_dropped 0 0 q (frames_from no_clock 0 m1.2) (PAwait 0)). split_and!.
  - eapply rtc_r; [|by apply ss_drop with (d := db1)]. apply (rtc_congruence (fun s => (s, mkFeed m1.2 (length m1.2)))) with (2 := Hr). intros. by apply ss_turn.
  - by exists 0%nat.
  - intros E. apply (f_equal length) in E. vm_compute in E. discriminate E.
Qed.

(** ** What the node lets through *)

(** Dropping a collection takes an administrator; the statement that drops it
    takes a writer. *)
Theorem writer_drops_collection :
  allows Writer (str "drop_collection") = false
  /\ match (handled demo_env demo (say writer_token (str "sql") [(str "sql", JStr (str "REMOVE COLLECTION docs"))])).2 with
     | Ok res => match payload res with Applied (Removed _ (Some k)) => k =? 2 | _ => false end
     | Err _ => false
     end = true.
Proof. split; [reflexivity|]. vm_compute. reflexivity. Qed.

(** A poll acknowledges whatever cursor it names, under whatever name: a
    reader makes a quorum for writes no follower has, of the future too. *)
Theorem forged_quorum :
  let n := (handled demo_env demo (say reader_token (str "replicate") [(str "since_seq", JNum (num 1000000))])).1 in
  match cluster demo, cluster n with
  | Some c, Some c' => negb (is_committed c 3) && is_committed c' 1000000
  | _, _ => false
  end = true.
Proof. vm_compute. reflexivity. Qed.

(** Every call of [recall()] makes a writer lock of its own, so the writes of
    two handlers are not serialized: both read the counters before either
    commits, and of two documents stored one is counted and one is in the
    feed. *)
Theorem handles_lose_updates :
  let '(d1, t1) := upsert_into no_text no_clock true db0 (begin db0) [cat] in
  let '(d2, t2) := upsert_into no_text no_clock true db0 (begin db0) [dog] in
  match t1, t2 with
  | Ok t1, Ok t2 =>
      let d := (commit (commit d1 t1).1 t2).1 in
      (is_ok (match get_doc d (str "cat") with Some x => Ok x | None => Err tt end), is_ok (match get_doc d (str "dog") with Some x => Ok x | None => Err tt end),
       get_u64 d META_DOC_COUNT, length (changes d 0 10))
  | _, _ => (false, false, 0, 0%nat)
  end = (true, true, 1, 1%nat).
Proof. vm_compute. reflexivity. Qed.
End Runs.
