(* ===== verification/Connectors.v ===== *)
(** * Connectors (crates/connectors)

    The sync engine of [lib.rs], over any driver, with the drivers of a
    line-oriented feed ([jsonl.rs]) and of a directory ([fs.rs]). A sync is a
    computation over the world of the estate that keeps every store it has
    passed through, the registrations an upsert commits before its batch
    included: a crash leaves one of them behind. *)
From S2P Require Import Prelude Floats ByteOrder Utf8 Json RroTime Geo Query Quant Text Model Heap.
From S2P Require Import Keys KeysFacts.
From S2P Require Import Kv Pending Rels Store StoreFacts StoreTx StoreSpec Fusion AnnStore Ann Searches.
From S2P Require Import FilterExec.
From S2P Require Import QueryExec ReplicationFacts Estate EstateSpec RrdShape RrdBaseline RrdGates.
From S2P Require Import Rrd StdRoutines Traits Connectome Flow FlowSpec GraphLife GraphQl.
From S2P Require Toon ToonFacts.
From stdpp Require Import sorting.
#[local] Set Default Goal Selector "!".
#[local] Set Warnings "-clear-no-such-hyp".
Local Open Scope Z_scope.

(** ** Drivers *)

Section driver.
Context `{SerdeNumber}.

Record Batch : Type := mkBatch { b_docs : list Document; b_next : option bytes }.

(** [pull] answers what the source holds at that pull: the [i]-th of a run. *)
Record Driver : Type := mkDriver { dr_provider : bytes; dr_pull : nat -> option bytes -> result RroError Batch }.

Record SyncReport : Type := mkReport { sr_ingested : Z; sr_blocked : Z; sr_batches : Z; sr_cursor : option bytes }.
End driver.

Definition BASELINE_KEY : bytes := str "rrd:baseline".

(** ** The sync engine *)

Section sync.
Context `{SerdeNumber} `{Libm} `{TextAnalyzer} `{Unicode} `{HashOrder} `{Ln64}.
Variable json_text : Json -> bytes.
Variable json_len : Metadata -> Z.
Variable now_ms : Z -> Z.
(** The JSON text of a snapshot and its decoder. *)
Variable snapshot_text : BaselineSnapshot -> bytes.
Variable snapshot_of : bytes -> result bytes BaselineSnapshot.
(** The clock, in milliseconds and nanoseconds. *)
Variable clock_ms clock_ns : Z.
Variable q : Quotas.
Variable lexical_stats : bool.
Variable embedder : Embedder.
Variable driver : Driver.
Variable connector_id : bytes.

Record World : Type := mkWorld { w_db : Db; w_handed : list GraphOp; w_rrd : Rrd; w_past : list Db }.

Definition Sync (A : Type) : Type := World -> World * result RroError A.
#[local] Instance sync_ret : MRet Sync := fun A a w => (w, Ok a).
#[local] Instance sync_bind : MBind Sync := fun A B k m w =>
  let '(w, r) := m w in match r with Ok a => k a w | Err e => (w, Err e) end.

Definition lift {A} (r : result RroError A) : Sync A := fun w => (w, r).
(** A committed write: the store before it is a store of the past. *)
Definition moved (d : Db) (gops : list GraphOp) (w : World) : World :=
  mkWorld d (w_handed w ++ gops) (w_rrd w) (w_past w ++ [w_db w]).
Definition written (f : Db -> Db) : Sync unit := fun w => (moved (f (w_db w)) [] w, Ok tt).
Definition attempted (f : Db -> Db * result RroError unit) : Sync unit := fun w =>
  let '(d, r) := f (w_db w) in (moved d [] w, r).

Definition connector : Sync ConnectorInfo := fun w =>
  (w, match get_conn (w_db w) connector_id with Some c => Ok c | None => Err (NoSuchConnector connector_id) end).

(** [get_component_json], [put_component_json] *)
Definition component_key (key : bytes) : bytes := str "x:" ++ key.
Definition stored_baseline (d : Db) : result RroError (option BaselineSnapshot) :=
  match get_cf d CF_META (component_key BASELINE_KEY) with
  | Some (RBytes text) => match snapshot_of text with Ok s => Ok (Some s) | Err e => Err (Message e) end
  | _ => Ok None
  end.
Definition restore_if_fresh : Sync unit := fun w =>
  if b_observations (r_baseline (w_rrd w)) =? 0 then
    match stored_baseline (w_db w) with
    | Err e => (w, Err e)
    | Ok None => (w, Ok tt)
    | Ok (Some s) => (mkWorld (w_db w) (w_handed w) (restore_baseline (w_rrd w) s) (w_past w), Ok tt)
    end
  else (w, Ok tt).
Definition store_baseline : Sync unit := fun w =>
  let '(r, s) := baseline_snapshot (w_rrd w) in
  let d := put_cf (w_db w) CF_META (component_key BASELINE_KEY) (RBytes (snapshot_text s)) in
  (mkWorld d (w_handed w) r (w_past w ++ [w_db w]), Ok tt).

(** The daemon sees every document first. *)
Definition payload_of (d : Document) : Payload :=
  mkPayload (dc_id d) (dc_text d) (dc_metadata d) None (mkStamp None None None None (Some connector_id) (Some (dc_id d))).
Definition distilled (d : Document) : Sync Rro := fun w =>
  let '(r, rro) := distill_stamped (w_rrd w) (payload_of d) in (mkWorld (w_db w) (w_handed w) r (w_past w), Ok rro).
Fixpoint shape_docs (docs : list Document) : Sync (list (Document * Rro) * Z) :=
  match docs with
  | [] => mret ([], 0)
  | d :: docs =>
      rro ← distilled d; '(kept, blocked) ← shape_docs docs;
      mret (if bool_decide (rro_gate rro = Block) then (kept, blocked + 1) else ((d, rro) :: kept, blocked))
  end.

(** The tags of a document: its routes and its mode. *)
Definition tags_of (r : Rrd) (rro : Rro) (e : Embedding) : list bytes :=
  map rd_tag (route_tags r e) ++ [str "mode:" ++ mode_name (rro_mode rro)].
Definition post_of (r : Rrd) (kept : list (Document * Rro)) (embeddings : list Embedding) : list (bytes * list bytes) :=
  zip_with (fun p e => (dc_id p.1, tags_of r p.2 e)) kept embeddings.
Definition records_of (kept : list (Document * Rro)) (embeddings : list Embedding) : list VectorRecord :=
  zip_with (fun p e => record_of p.1 e) kept embeddings.

(** The writes of [upsert_into] before the batch, each committed on its own:
    the stores after the dimension, the names of collections and the
    dimensions of named spaces. *)
Definition registrations (d : Db) (rs : list VectorRecord) : list Db :=
  let '(d1, info) := register_dim d rs in
  match (info ← info; _ ← check_dims (default 0 (ei_dim info)) rs; _ ← check_schema (get_schema d1) rs; Ok info) with
  | Err _ => [d1]
  | Ok info =>
      let d2 := register_collections d1 rs in
      [d1; d2] ++
      match register_named rs (ei_named_dims info) with
      | Ok dims =>
          if bool_decide (dims = ei_named_dims info) then []
          else [put_info d2 (mkEstateInfo (ei_id info) (ei_name info) (ei_created_at info) (ei_dim info) dims)]
      | Err _ => []
      end
  end.
Definition upsert_stores (d : Db) (rs : list VectorRecord) : list Db :=
  match (_ ← check_batch q rs;
         _ ← (match max_payload_bytes q with Some cap => check_payloads json_len cap rs | None => Ok tt end); check_docs q d rs) with
  | Ok _ => registrations d rs
  | Err _ => []
  end.
Definition upserted (rs : list VectorRecord) : Sync unit := fun w =>
  let '(d, r) := upsert json_text json_len now_ms q lexical_stats (w_db w) rs in
  let w := fold_left (fun w d => moved d [] w) (upsert_stores (w_db w) rs) w in
  match r with Ok gops => (moved d gops w, Ok tt) | Err e => (moved d [] w, Err e) end.

Fixpoint tag_each (id : bytes) (ts : list bytes) : Sync unit :=
  match ts with [] => mret tt | t :: ts => written (fun d => tag d id [t]) ;; tag_each id ts end.
Fixpoint map_docs (post : list (bytes * list bytes)) : Sync unit :=
  match post with
  | [] => mret tt
  | (id, ts) :: post => written (fun d => relate d connector_id (str "contains") id) ;; tag_each id ts ;; map_docs post
  end.

Record Progress : Type := mkProgress { p_cursor : option bytes; p_synced : Z; p_ingested : Z; p_blocked : Z; p_batches : nat }.

Definition update (cursor : option bytes) (synced : Z) (last : option Z) (st : SyncStatus) : Sync unit :=
  attempted (fun d => update_sync d connector_id (mkSyncState cursor synced last st)).

(** One batch that is not empty. *)
Definition sync_batch (b : Batch) (p : Progress) : Sync Progress :=
  '(kept, blocked) ← shape_docs (b_docs b);
  let all_blocked := u64_add (p_blocked p) blocked in
  let batches := S (p_batches p) in
  if bool_decide (kept = []) then mret (mkProgress (b_next b) (p_synced p) (p_ingested p) all_blocked batches)
  else
    embeddings ← lift (em_documents embedder (map (fun k => dc_text k.1) kept));
    r ← (fun w => (w, Ok (w_rrd w)));
    let post := post_of r kept embeddings in
    let n := Z.of_nat (length post) in
    upserted (records_of kept embeddings) ;;
    map_docs post ;;
    let synced := u64_add (p_synced p) n in
    update (b_next b) synced (Some clock_ms) Syncing ;;
    mret (mkProgress (b_next b) synced (u64_add (p_ingested p) n) all_blocked batches).

(** The loop; [None] is its fuel run out. *)
Fixpoint sync_loop (fuel : nat) (p : Progress) : Sync (option Progress) :=
  match fuel with
  | O => mret None
  | S fuel =>
      b ← lift (dr_pull driver (p_batches p) (p_cursor p));
      if bool_decide (b_docs b = []) then mret (Some p)
      else
        p ← sync_batch b p;
        if bool_decide (p_cursor p = None) then mret (Some p) else sync_loop fuel p
  end.

Definition metric (what : bytes) : bytes := str "connector." ++ connector_id ++ what.

(** What follows the loop. *)
Definition finish (p : Progress) : Sync SyncReport :=
  update (p_cursor p) (p_synced p) (Some clock_ms) Model.Idle ;;
  written (fun d => record_trend clock_ns d (metric (str ".docs_synced")) (f64_of_u64 (p_synced p))) ;;
  r ← (fun w => (w, Ok (w_rrd w)));
  written (fun d => record_trend clock_ns d (metric (str ".predictability")) (predictability (r_baseline r) connector_id)) ;;
  store_baseline ;;
  mret (mkReport (p_ingested p) (p_blocked p) (Z.of_nat (p_batches p)) (p_cursor p)).

Definition sync (fuel : nat) : Sync (option SyncReport) :=
  conn ← connector;
  restore_if_fresh ;;
  let st := Model.sync conn in
  update (sync_cursor st) (docs_synced st) (last_sync st) Syncing ;;
  p ← sync_loop fuel (mkProgress (sync_cursor st) (docs_synced st) 0 0 0);
  match p with Some p => report ← finish p; mret (Some report) | None => mret None end.
End sync.

(** ** The feed of lines *)

(** [str::lines]: a line ends with a line feed, a carriage return before it
    belongs to the ending. *)
Definition strip_cr (rev_line : bytes) : bytes := rev (match rev_line with 13 :: l => l | l => l end).
Fixpoint lines_from (rev_line : bytes) (s : bytes) : list bytes :=
  match s with
  | [] => if bool_decide (rev_line = []) then [] else [rev rev_line]
  | c :: s => if c =? 10 then strip_cr rev_line :: lines_from [] s else lines_from (c :: rev_line) s
  end.
Definition lines (s : bytes) : list bytes := lines_from [] s.

(** [str::parse::<usize>] *)
Definition parse_usize (s : bytes) : option Z :=
  let d := default s (Toon.strip 43 s) in
  if bool_decide (d = []) || negb (forallb is_ascii_digit d) then None
  else if digits_value d <? 2 ^ 64 then Some (digits_value d) else None.

Section jsonl.
Context `{SerdeNumber} `{Unicode}.
(** [serde_json::from_str] *)
Variable parse_json : bytes -> result bytes Json.

Definition text_member (k : bytes) (v : Json) : option bytes := json_get k v ≫= json_as_str.

Definition jsonl_doc (line_no : nat) (line : bytes) : result RroError Document :=
  match parse_json line with
  | Err e => Err (Message e)
  | Ok (JObj m as v) =>
      let id := default (str "line" ++ display (Z.of_nat line_no)) (text_member (str "id") v) in
      let text := default [] (text_member (str "text") v) in
      Ok (mkDocument (str "jsonl:" ++ id) text (delete (str "text") (delete (str "id") (list_to_map m))))
  | Ok _ => Err (Message (str "line " ++ display (Z.of_nat line_no) ++ str ": not a JSON object"))
  end.

(** [l.trim().is_empty()] *)
Definition blank_line (l : bytes) : bool := bool_decide (trim l = []).

Fixpoint jsonl_loop (start batch_size line_no : nat) (docs : list Document) (ls : list bytes) : result RroError Batch :=
  match ls with
  | [] => Ok (mkBatch docs None)
  | line :: ls =>
      let line_no := S line_no in
      if (line_no <=? start)%nat || blank_line line then jsonl_loop start batch_size line_no docs ls
      else
        d ← jsonl_doc line_no line;
        let docs := docs ++ [d] in
        if (batch_size <=? length docs)%nat then Ok (mkBatch docs (Some (display (Z.of_nat line_no))))
        else jsonl_loop start batch_size line_no docs ls
  end.

Definition jsonl_start (cursor : option bytes) : nat := Z.to_nat (default 0 (cursor ≫= parse_usize)).
(** [read] is what the file holds at each pull. *)
Definition jsonl_driver (read : nat -> result RroError bytes) (batch_size : nat) : Driver :=
  mkDriver (str "jsonl") (fun i cursor => content ← read i; jsonl_loop (jsonl_start cursor) (Nat.max batch_size 1) 0 [] (lines content)).
End jsonl.

(** ** The directory *)

Section fs.
Context `{SerdeNumber} `{!NumberOfInt}.

(** A file below the root, a path without a closing slash: the components of its path, its text unless it is
    not UTF-8, its modification time and its size. *)
Record File : Type := mkFile { f_path : list bytes; f_text : option bytes; f_modified : Z; f_size : Z }.

(** [Path] compares component by component. *)
Fixpoint path_cmp (a b : list bytes) : comparison :=
  match a, b with
  | [], [] => Eq
  | [], _ :: _ => Lt
  | _ :: _, [] => Gt
  | x :: a, y :: b => match bcmp x y with Eq => path_cmp a b | c => c end
  end.
Definition file_le (a b : File) : Prop := path_cmp (f_path a) (f_path b) <> Gt.
#[local] Instance file_le_dec : RelDecision file_le.
Proof. intros a b. unfold file_le. apply _. Defined.

(** The listing of the tree, by path. *)
Definition listing (files : list File) : list File := merge_sort file_le files.

Definition key_of (root : bytes) (f : File) : bytes := root ++ concat (map (fun c => 47 :: c) (f_path f)).
Definition fs_doc (root : bytes) (f : File) (text : bytes) : Document :=
  let key := key_of root f in
  mkDocument (str "fs:" ++ key) text
    (<[str "size_bytes" := JNum (num_of_int (f_size f))]> (<[str "modified_at" := JNum (num_of_int (f_modified f))]>
       (<[str "source_path" := JStr key]> (<[str "title" := JStr (default key (last (f_path f)))]> ∅)))).

Fixpoint fs_loop (root : bytes) (cursor : option bytes) (batch_size : nat) (docs : list Document) (files : list File) : Batch :=
  match files with
  | [] => mkBatch docs None
  | f :: files =>
      let key := key_of root f in
      if (match cursor with Some cur => bool_decide (ble key cur) | None => false end) then fs_loop root cursor batch_size docs files
      else
        match f_text f with
        | None => fs_loop root cursor batch_size docs files
        | Some text =>
            let docs := docs ++ [fs_doc root f text] in
            if (batch_size <=? length docs)%nat then mkBatch docs (Some key) else fs_loop root cursor batch_size docs files
        end
  end.

Definition fs_driver (root : bytes) (read : nat -> result RroError (list File)) (batch_size : nat) : Driver :=
  mkDriver (str "fs") (fun i cursor => files ← read i; Ok (fs_loop root cursor (Nat.max batch_size 1) [] (listing files))).
End fs.

(** ** What a driver promises *)

(** The documents a source holds, in the order they are pulled, and the place
    a cursor stands for. *)
Class DriverLaws `{SerdeNumber} (d : Driver) (src : list Document) (pos : option bytes -> nat) : Prop := {
  pos_start : pos None = 0%nat;
  pulls_next i cursor b : dr_pull d i cursor = Ok b ->
    b_docs b = take (length (b_docs b)) (drop (pos cursor) src)
    /\ (pos cursor + length (b_docs b) <= length src)%nat
    /\ match b_next b with
       | Some c => pos (Some c) = (pos cursor + length (b_docs b))%nat
       | None => (pos cursor + length (b_docs b) = length src)%nat
       end;
  pulls_drained i cursor b : dr_pull d i cursor = Ok b -> b_docs b = [] -> pos cursor = length src;
}.

(** ** A store after an upsert *)

Section upserts.
Context `{SerdeNumber} `{Libm} `{TextAnalyzer}.
Variable json_text : Json -> bytes.
Variable json_len : Metadata -> Z.
Variable now_ms : Z -> Z.
Variable lexical_stats : bool.
Variable q : Quotas.
Local Abbreviation refines := (Refines json_text now_ms lexical_stats).

(** An upsert writes the rows of its documents, the feed and the meta family. *)
Lemma upsert_keeps_cf db m log rs db' res cf :
  refines db m log -> ids_distinct (map AUpsert rs) -> run_fits (map AUpsert rs) (m, log) ->
  upsert json_text json_len now_ms q lexical_stats db rs = (db', res) ->
  data_cf cf = false -> cf <> CF_META -> cf <> CF_FEED -> cf <> CF_TDF -> db' cf = db cf.
Proof.
  intros HR [Hnd Hnul] Hf Hu Hd Hm Hfeed Htdf. destruct rs as [|r rs']; [cbn in Hu; by injection Hu as <- <-|].
  unfold upsert in Hu. set (rs := r :: rs') in *. destruct (_ ≫= _) as [[]|e]; [|by injection Hu as <- <-].
  destruct (upsert_into json_text now_ms lexical_stats db (begin db) rs) as [db1 r1] eqn:Eu.
  eapply upsert_into_inv in Eu as [[S1 _] Hw]; [|by apply tx_inv_begin|by rewrite <- aop_ids_upserts| |done].
  2: { intros x Hx. split; [set_solver|]. apply Hnul, list_elem_of_fmap. by exists x. }
  destruct r1 as [tx|e]; [|injection Hu as <- <-; by apply S1].
  destruct (Hw tx eq_refl) as (m' & log' & T & _ & HI & _). destruct (commit db1 tx) as [db2 gops] eqn:Ec. injection Hu as <- <-.
  change db2 with (db2, gops).1. rewrite <- Ec, (commit_not_meta _ _ _ _ _ _ _ _ _ _ _ HI) by done.
  rewrite (apply_ops_frame (batch tx)); [by apply S1|]. intros op Hop Hcf Hno.
  pose proof (ti_ops _ _ _ _ _ _ _ _ _ _ HI op Hop) as Ht. destruct op; cbn in *; [| |done];
    (destruct Ht as [Ht|Ht]; [congruence|by subst]).
Qed.

(** A registration writes nothing of the documents. *)
Lemma registrations_same d rs : Forall (reg_same d) (registrations d rs).
Proof.
  unfold registrations. destruct (register_dim d rs) as [d1 info] eqn:E. apply register_dim_reg in E.
  destruct info as [info|e]; cbn [mbind result_bind]; [|by constructor].
  destruct (check_dims _ _) as [_u|e]; cbn [mbind result_bind]; [|by constructor].
  destruct (check_schema _ _) as [_v|e]; cbn [mbind result_bind]; [|by constructor].
  pose proof (reg_same_trans _ _ _ E (register_collections_reg d1 rs)) as E2.
  constructor; [exact E|]. constructor; [exact E2|]. destruct (register_named _ _) as [dims|]; [|constructor].
  case_bool_decide; [constructor|]. apply Forall_singleton. eapply reg_same_trans; [exact E2|]. apply reg_same_put. auto.
Qed.
Lemma upsert_stores_same d rs : Forall (reg_same d) (upsert_stores json_len q d rs).
Proof. unfold upsert_stores. destruct (_ ≫= _); [apply registrations_same|constructor]. Qed.

Lemma spec_run_upserts rs m log id : (spec_run (map AUpsert rs) (m, log)).1 !! id
  = match last (filter (fun r => vr_id r = id) rs) with Some r => Some r | None => m !! id end.
Proof.
  induction rs as [|r rs IH] using rev_ind; [done|]. rewrite map_app. unfold spec_run in *. rewrite fold_left_app. cbn [map fold_left].
  destruct (fold_left spec_step (map AUpsert rs) (m, log)) as [m1 log1]. cbn [fst spec_step] in *. rewrite filter_app, filter_cons. cbn [filter list_filter].
  destruct (decide (vr_id r = id)) as [<-|Hne].
  - by rewrite last_snoc, lookup_insert_eq.
  - by rewrite app_nil_r, lookup_insert_ne.
Qed.

Lemma fits_more_upserts rs s n : fits_more s (n + Z.of_nat (length rs)) -> fits_more (spec_run (map AUpsert rs) s) n.
Proof.
  revert s n. induction rs as [|r rs IH]; intros s n Hs; cbn [map spec_run fold_left].
  - by replace n with (n + Z.of_nat (@length VectorRecord [])) by (cbn; lia).
  - apply (IH (spec_step s (AUpsert r))), fits_more_step. cbn [length] in Hs. by replace (n + Z.of_nat (length rs) + 1) with (n + Z.of_nat (S (length rs))) by lia.
Qed.
End upserts.

(** ** What a sync keeps *)

Section keeps.
Context `{SerdeNumber} `{Libm} `{TextAnalyzer} `{Unicode} `{HashOrder} `{Ln64}.
Variable json_text : Json -> bytes.
Variable json_len : Metadata -> Z.
Variable now_ms : Z -> Z.
Variable snapshot_text : BaselineSnapshot -> bytes.
Variable snapshot_of : bytes -> result bytes BaselineSnapshot.
Variable clock_ms clock_ns : Z.
Variable q : Quotas.
Variable lexical_stats : bool.
Variable embedder : Embedder.
Variable driver : Driver.
Variable connector_id : bytes.
Variable l0 : L0Config.
Variable src : list Document.
Variable pos : option bytes -> nat.
Local Abbreviation refines := (Refines json_text now_ms lexical_stats).

(** What the gate ladder blocks. *)
Definition gated (x : Document) : Prop := l0_gate l0 (payload_of connector_id x) = Block.
(** A document is in the store with its text and metadata, *)
Definition held (m : gmap bytes VectorRecord) (x : Document) : Prop :=
  exists r, m !! dc_id x = Some r /\ vr_text r = dc_text x /\ vr_metadata r = dc_metadata x.
(** and on the map: the edge from its connector and the tag of its mode. *)
Definition mapped (d : Db) (x : Document) : Prop :=
  is_Some (d CF_RELS !! rel_key REL_OUT connector_id (str "contains") (dc_id x))
  /\ is_Some (d CF_TAGS !! tag_key (str "mode:" ++ mode_name (identify (dc_metadata x))) (dc_id x)).
Definition ingested (d : Db) (m : gmap bytes VectorRecord) (x : Document) : Prop := gated x \/ held m x /\ mapped d x.
Definition ingested_to (d : Db) (m : gmap bytes VectorRecord) (n : nat) : Prop := Forall (ingested d m) (take n src).

(** The stored cursor is never past a document that is not ingested. *)
Definition covers (d : Db) (m : gmap bytes VectorRecord) : Prop :=
  forall c, get_conn d connector_id = Some c -> ci_id c = connector_id /\ ingested_to d m (pos (sync_cursor (Model.sync c))).
(** The documents of others stay. *)
Definition others_kept (m0 m : gmap bytes VectorRecord) : Prop := forall id, id ∉ map dc_id src -> m !! id = m0 !! id.
Definition safe (m0 : gmap bytes VectorRecord) (d : Db) : Prop :=
  exists m log, refines d m log /\ covers d m /\ others_kept m0 m.

Variable m0 : gmap bytes VectorRecord.

(** The world while a sync runs, its store at [m] with room for [n] more. *)
Record going (m : gmap bytes VectorRecord) (n : Z) (w : World) : Prop := {
  go_refines : exists log, refines (w_db w) m log /\ fits_more (m, log) n;
  go_graph : graph_run (w_handed w) (vr_embedding <$> m0) = vr_embedding <$> m;
  go_l0 : r_l0 (w_rrd w) = l0;
  go_conn : is_Some (get_conn (w_db w) connector_id);
  go_covers : covers (w_db w) m;
  go_others : others_kept m0 m;
  go_past : Forall (safe m0) (w_past w);
}.

Lemma going_safe m n w : going m n w -> safe m0 (w_db w).
Proof. intros [(log & Hr & _) _ _ _ Hc Ho _]. by exists m, log. Qed.

Lemma going_less m n n' w : n' <= n -> 0 <= n' -> going m n w -> going m n' w.
Proof.
  intros Hn H0n [(log & Hr & F1 & F2 & F3) ? ? ? ? ? ?]. split; try done. exists log. split; [done|]. unfold fits_more. cbn [fst snd] in *.
  assert (n' * 2 ^ 32 <= n * 2 ^ 32) by lia. lia.
Qed.

Lemma ingested_to_le d m n n' : (n' <= n)%nat -> ingested_to d m n -> ingested_to d m n'.
Proof. unfold ingested_to. intros Hn Hi. replace n' with (n' `min` n)%nat by lia. rewrite <- take_take. by apply Forall_take. Qed.

Lemma ingested_mono d d' m m' x : (held m x -> held m' x) -> (mapped d x -> mapped d' x) -> ingested d m x -> ingested d' m' x.
Proof. unfold ingested. intros Hh Hm [Hg|[? ?]]; [by left|right; auto]. Qed.

Lemma ingested_to_mono d d' m m' n : (forall x, x ∈ src -> held m x -> held m' x) -> (forall x, mapped d x -> mapped d' x) ->
  ingested_to d m n -> ingested_to d' m' n.
Proof.
  unfold ingested_to. rewrite !Forall_forall. intros Hh Hm Hi x Hx. apply (ingested_mono d d' m m'); [|auto|by apply Hi].
  apply Hh. by eapply elem_of_take in Hx as (i & Hx%list_elem_of_lookup_2 & _).
Qed.

(** A write outside the store's refinement, that takes no edge or tag away. *)
Lemma written_going cf0 d' m n w : cf0 ∈ [CF_RELS; CF_TAGS; CF_TRENDS] -> (forall cf, cf <> cf0 -> d' cf = w_db w cf) ->
  (forall x, mapped (w_db w) x -> mapped d' x) -> going m n w -> going m n (moved d' [] w).
Proof.
  intros Hcf0 Hcf Hm Hw. assert (data_cf cf0 = false /\ cf0 <> CF_META /\ cf0 <> CF_FEED /\ cf0 <> CF_TDF /\ cf0 <> CF_CONNS) as (N1 & N2 & N3 & N4 & N5).
  { repeat (apply elem_of_cons in Hcf0 as [->|Hcf0]; [done|]). by apply elem_of_nil in Hcf0. }
  assert (get_conn d' connector_id = get_conn (w_db w) connector_id) as Hconn by (unfold get_conn, get_cf; by rewrite Hcf by done).
  pose proof (going_safe m n w Hw) as Hsafe. destruct Hw as [(log & Hr & Hf) Hg Hl Hc Hcov Ho Hp]. split; cbn.
  - exists log. split; [|done]. by apply (refines_other json_text now_ms lexical_stats cf0 (w_db w)).
  - by rewrite app_nil_r.
  - done.
  - by rewrite Hconn.
  - intros c Hcc. rewrite Hconn in Hcc. destruct (Hcov c Hcc) as [Hid Hi]. split; [done|]. by eapply ingested_to_mono.
  - done.
  - apply Forall_app. split; [done|]. by constructor.
Qed.

(** ** The map *)

(** Edges and tags are only added. *)
Definition grows (d d' : Db) : Prop :=
  (forall k, is_Some (d CF_RELS !! k) -> is_Some (d' CF_RELS !! k)) /\ (forall k, is_Some (d CF_TAGS !! k) -> is_Some (d' CF_TAGS !! k)).

#[local] Instance grows_preorder : PreOrder grows.
Proof. split; [by intros d|]. intros a b c [R1 T1] [R2 T2]. split; auto. Qed.

Lemma mapped_grows d d' x : grows d d' -> mapped d x -> mapped d' x.
Proof. intros [Hr Ht] [? ?]. split; auto. Qed.

Lemma put_grows cf d k v : grows d (put_cf d cf k v).
Proof. split; intros k'; rewrite lookup_put_cf; by case_decide. Qed.

(** A written row of the three families of the map. *)
Lemma row_going cf0 (f : Db -> Db) m n w : cf0 ∈ [CF_RELS; CF_TAGS; CF_TRENDS] -> (forall cf, cf <> cf0 -> f (w_db w) cf = w_db w cf) ->
  grows (w_db w) (f (w_db w)) -> going m n w -> going m n (written f w).1.
Proof. intros Hcf0 Hcf Hg. apply (written_going cf0); [done|done|]. intros x. by apply mapped_grows. Qed.

Lemma put_other d cf k v cf' : cf' <> cf -> put_cf d cf k v cf' = d cf'.
Proof. intros Hne. unfold put_cf, upd_cf. by rewrite decide_False. Qed.

Lemma tag_each_ok m n id ts w : going m n w ->
  exists w', tag_each id ts w = (w', Ok tt) /\ going m n w' /\ w_rrd w' = w_rrd w /\ grows (w_db w) (w_db w')
    /\ Forall (fun t => is_Some (w_db w' CF_TAGS !! tag_key t id)) ts.
Proof.
  revert w. induction ts as [|t ts IH]; intros w Hw; [by exists w|]. cbn [tag_each].
  destruct (IH (written (fun d => tag d id [t]) w).1) as (w' & E & Hw' & Er & Hg & Ht).
  { apply (row_going CF_TAGS); [by repeat (first [left|right])| |apply put_grows|done]. intros cf. apply put_other. }
  exists w'. split; [exact E|]. split; [done|]. split; [done|]. split; [exact (transitivity (put_grows _ _ _ _) Hg)|].
  constructor; [|done]. apply Hg. cbn. rewrite lookup_put_cf, decide_True by done. done.
Qed.

Lemma relate_rows d a v b : relate d a v b CF_RELS !! rel_key REL_OUT a v b = Some (RBytes []).
Proof.
  unfold relate. rewrite db_write_plain by done. cbn. rewrite !lookup_put_cf. case_decide; [done|]. by rewrite decide_True.
Qed.

Lemma relate_other d a v b cf : cf <> CF_RELS -> relate d a v b cf = d cf.
Proof. intros Hcf. unfold relate. rewrite db_write_plain by done. cbn. by rewrite !put_other. Qed.

Lemma relate_grows d a v b : grows d (relate d a v b).
Proof.
  split; intros k Hk; [|by rewrite relate_other]. unfold relate. rewrite db_write_plain by done. cbn. rewrite !lookup_put_cf. by repeat case_decide.
Qed.

Lemma map_docs_ok m n post w : going m n w ->
  exists w', map_docs connector_id post w = (w', Ok tt) /\ going m n w' /\ w_rrd w' = w_rrd w /\ grows (w_db w) (w_db w')
    /\ Forall (fun p => is_Some (w_db w' CF_RELS !! rel_key REL_OUT connector_id (str "contains") p.1)
                     /\ Forall (fun t => is_Some (w_db w' CF_TAGS !! tag_key t p.1)) p.2) post.
Proof.
  revert w. induction post as [|[id ts] post IH]; intros w Hw; [by exists w|]. cbn [map_docs].
  set (f := fun d => relate d connector_id (str "contains") id).
  assert (going m n (written f w).1) as G1.
  { apply (row_going CF_RELS); [by repeat (first [left|right])| |apply relate_grows|done]. intros cf. apply relate_other. }
  destruct (tag_each_ok m n id ts _ G1) as (w2 & E2 & K2 & R2 & G2 & T2).
  destruct (IH w2 K2) as (w3 & E3 & K3 & R3 & G3 & T3). exists w3. split; [|split; [done|]].
  { unfold mbind, sync_bind. change (written f w) with ((written f w).1, @Ok RroError unit tt). cbn beta iota. rewrite E2. exact E3. }
  split; [by rewrite R3, R2|]. split; [exact (transitivity (relate_grows _ _ _ id) (transitivity G2 G3))|]. constructor; [|done]. cbn [fst snd]. split.
  - apply G3, G2. cbn. unfold f. by rewrite relate_rows.
  - eapply Forall_impl; [exact T2|]. intros t. apply G3.
Qed.

(** ** The daemon *)

Definition with_rrd (w : World) (r : Rrd) : World := mkWorld (w_db w) (w_handed w) r (w_past w).

Lemma with_rrd_going m n w r : r_l0 r = l0 -> going m n w -> going m n (with_rrd w r).
Proof. intros Hl [? ? ? ? ? ? ?]. by split. Qed.

Lemma distill_keeps_l0 r p : r_l0 (distill_stamped r p).1 = r_l0 r.
Proof.
  unfold distill_stamped. case_bool_decide; [done|]. unfold identify_shape. destruct (registry_observe _ _ _) as [reg [id new]].
  unfold plan_for. destruct new; [done|]. by destruct (_ !! id).
Qed.

Lemma distill_mode r p : l0_gate (r_l0 r) p <> Block -> rro_mode (distill_stamped r p).2 = identify (py_metadata p).
Proof.
  intros Hb. unfold distill_stamped. rewrite bool_decide_eq_false_2 by done. destruct (identify_shape r p) as [r1 [id new]].
  destruct (plan_for _ _ _ _) as [r2 plan]. cbn [snd]. unfold assemble. by destruct (Rrd.execute _ _ _).
Qed.

#[local] Instance gated_dec x : Decision (gated x).
Proof. unfold gated. apply _. Defined.

Lemma shape_docs_ok docs w : r_l0 (w_rrd w) = l0 ->
  exists r kept blocked, shape_docs connector_id docs w = (with_rrd w r, Ok (kept, blocked)) /\ r_l0 r = l0
    /\ map fst kept = filter (fun x => ~ gated x) docs /\ Forall (fun k => rro_mode k.2 = identify (dc_metadata k.1)) kept.
Proof.
  revert w. induction docs as [|x docs IH]; intros w Hl; [exists (w_rrd w), [], 0; by destruct w|]. cbn [shape_docs].
  pose proof (distill_gate (w_rrd w) (payload_of connector_id x)) as Hgate. pose proof (distill_mode (w_rrd w) (payload_of connector_id x)) as Hmode.
  pose proof (distill_keeps_l0 (w_rrd w) (payload_of connector_id x)) as Hl1. rewrite Hl in Hgate, Hmode, Hl1.
  unfold mbind at 1, sync_bind at 1, distilled. destruct (distill_stamped _ _) as [r1 rro] eqn:Ed. cbn [fst snd] in *.
  destruct (IH (with_rrd w r1) Hl1) as (r2 & kept & blocked & E & Hl2 & Hk & Hm).
  unfold mbind, sync_bind. change (mkWorld (w_db w) (w_handed w) r1 (w_past w)) with (with_rrd w r1). rewrite E. cbn beta iota.
  rewrite filter_cons. case_bool_decide as Hb.
  - exists r2, kept, (blocked + 1). split_and!; try done. rewrite decide_False; [done|]. intros Hn. by apply Hn, Hgate.
  - exists r2, ((x, rro) :: kept), blocked. rewrite decide_True by (intros Hg; by apply Hb, Hgate). split_and!; try done.
    + by rewrite <- Hk.
    + constructor; [|done]. apply Hmode. intros Hg. by apply Hb, Hgate.
Qed.

(** ** One batch *)

Context {HD : DriverLaws driver src pos} {HE : EmbedderLaws embedder}.
Hypothesis src_ids : NoDup (map dc_id src).
Hypothesis src_nul_free : Forall (fun x => nul_free (dc_id x)) src.

Lemma src_id_inj x y : x ∈ src -> y ∈ src -> dc_id x = dc_id y -> x = y.
Proof.
  intros [i Hi]%list_elem_of_lookup [j Hj]%list_elem_of_lookup E. assert (i = j) as ->; [|by simplify_eq].
  eapply (NoDup_lookup (map dc_id src)); [done| |].
  - rewrite list_lookup_fmap, Hi. reflexivity.
  - rewrite list_lookup_fmap, Hj. cbn. by rewrite E.
Qed.

Lemma records_ids kept embs : length embs = length kept -> map vr_id (records_of kept embs) = map (fun k => dc_id k.1) kept.
Proof.
  revert embs. induction kept as [|k kept IH]; intros [|e embs] Hl; [done..|]. unfold records_of in *. cbn. f_equal. apply IH. cbn in Hl. lia.
Qed.

Lemma elem_of_records r kept embs : r ∈ records_of kept embs -> exists k e, k ∈ kept /\ r = record_of k.1 e.
Proof. unfold records_of. intros (i & k & e & -> & Hk%list_elem_of_lookup_2 & _)%elem_of_lookup_zip_with_1. by exists k, e. Qed.

(** What the store holds of the source after an upsert of some of it. *)
Lemma upserts_held kept embs m log x : length embs = length kept -> Forall (fun k => k.1 ∈ src) kept -> x ∈ src ->
  x ∈ map fst kept \/ held m x -> held (spec_run (map AUpsert (records_of kept embs)) (m, log)).1 x.
Proof.
  intros Hl Hk Hx Hor. unfold held. rewrite spec_run_upserts. destruct (last _) as [r|] eqn:E.
  - apply last_Some_elem_of in E. apply list_elem_of_filter in E as [Eid (k & e & Hin & ->)%elem_of_records].
    rewrite Forall_forall in Hk. assert (k.1 = x) as <- by (apply src_id_inj; [by apply Hk|done|done]). by eexists.
  - apply last_None in E. destruct Hor as [Hin|Hh]; [|done]. exfalso. apply list_elem_of_fmap in Hin as (k & -> & Hin).
    assert (dc_id k.1 ∈ map vr_id (records_of kept embs)) as Hid by (rewrite records_ids by done; apply list_elem_of_fmap; by exists k).
    apply list_elem_of_fmap in Hid as (r & Er & Hr). assert (r ∈ filter (fun r => vr_id r = dc_id k.1) (records_of kept embs)) as Hf by (by apply list_elem_of_filter).
    rewrite E in Hf. by apply elem_of_nil in Hf.
Qed.

Lemma fits_more_less s n n' : n' <= n -> fits_more s n -> fits_more s n'.
Proof. unfold fits_more. intros Hn (F1 & F2 & F3). assert (n' * 2 ^ 32 <= n * 2 ^ 32) by lia. lia. Qed.

(** A store of another state, the map as it was. *)
Lemma replaced_going m m' n n' w d gops log' :
  going m n w -> refines d m' log' -> fits_more (m', log') n' ->
  graph_run gops (vr_embedding <$> m) = vr_embedding <$> m' ->
  (forall cf, cf ∈ [CF_RELS; CF_TAGS; CF_CONNS] -> d cf = w_db w cf) ->
  (forall x, x ∈ src -> held m x -> held m' x) -> others_kept m m' -> going m' n' (moved d gops w).
Proof.
  intros Hw Hr Hf Hg Hcf Hh Ho. pose proof (going_safe m n w Hw) as Hsafe. destruct Hw as [_ Hg0 Hl Hc Hcov Ho0 Hp].
  assert (get_conn d connector_id = get_conn (w_db w) connector_id) as Hconn.
  { unfold get_conn, get_cf. rewrite Hcf; [done|]. by repeat (first [left|right]). }
  split; cbn.
  - by exists log'.
  - by rewrite graph_run_app, Hg0.
  - done.
  - by rewrite Hconn.
  - intros c Hcc. rewrite Hconn in Hcc. destruct (Hcov c Hcc) as [Hid Hi]. split; [done|]. eapply ingested_to_mono; [exact Hh| |exact Hi].
    intros x. unfold mapped. rewrite !Hcf by (by repeat (first [left; done|right])). done.
  - intros id Hid. by rewrite Ho, Ho0.
  - apply Forall_app. split; [done|]. by constructor.
Qed.

(** The registrations leave the world going. *)
Lemma registered_going m n w ds : going m n w -> Forall (reg_same (w_db w)) ds ->
  let w' := fold_left (fun w d => moved d [] w) ds w in
  going m n w' /\ reg_same (w_db w) (w_db w') /\ w_rrd w' = w_rrd w.
Proof.
  intros Hw Hds. revert w Hw Hds. induction ds as [|d ds IH]; intros w Hw Hds; cbn [fold_left]; [split_and!; [done|apply reg_same_refl|done]|].
  apply Forall_cons in Hds as [Hd Hds]. assert (Forall (reg_same d) ds) as Hds'.
  { eapply Forall_impl; [exact Hds|]. intros d' Hd'. by eapply reg_same_trans; [apply reg_same_sym|]. }
  destruct (go_refines _ _ _ Hw) as (log & Hr & Hfit).
  assert (going m n (moved d [] w)) as Hw'.
  { eapply replaced_going; [exact Hw|by eapply refines_reg|exact Hfit|done| |done|done].
    intros cf Hin. apply (proj1 Hd). intros ->. repeat (apply elem_of_cons in Hin as [Hin|Hin]; [done|]). by apply elem_of_nil in Hin. }
  destruct (IH (moved d [] w) Hw' Hds') as (Hg & Hs & Hrr). split_and!; [done|by eapply reg_same_trans|done].
Qed.

Lemma upserted_ok m n kept embs w : 0 <= n -> going m (n + Z.of_nat (length kept)) w ->
  length embs = length kept -> Forall (fun k => k.1 ∈ src) kept -> NoDup (map (fun k => dc_id k.1) kept) ->
  let '(w', r) := upserted json_text json_len now_ms q lexical_stats (records_of kept embs) w in
  match r with
  | Ok _ => exists m', going m' n w' /\ w_rrd w' = w_rrd w /\ grows (w_db w) (w_db w')
      /\ (forall x, x ∈ src -> x ∈ map fst kept \/ held m x -> held m' x)
  | Err _ => going m n w'
  end.
Proof.
  intros Hn Hw Hl Hsrc Hnd. set (rs := records_of kept embs). destruct (go_refines _ _ _ Hw) as (log & Hr & Hfit).
  assert (length rs = length kept) as Hlen by (unfold rs, records_of; rewrite length_zip_with; lia).
  assert (ids_distinct (map AUpsert rs)) as Hd.
  { split; [rewrite aop_ids_upserts; unfold rs; by rewrite records_ids|]. intros r (r' & [= ->] & Hin)%list_elem_of_fmap.
    apply elem_of_records in Hin as (k & e & Hk & ->). rewrite Forall_forall in Hsrc. by apply (proj1 (Forall_forall _ _) src_nul_free), Hsrc. }
  assert (run_fits (map AUpsert rs) (m, log)) as Hf by (apply fits_more_run; eapply fits_more_less; [|exact Hfit]; rewrite length_map; lia).
  unfold upserted. destruct (upsert _ _ _ _ _ _ _) as [d r] eqn:Eu.
  destruct (registered_going m _ w _ Hw (upsert_stores_same json_len q (w_db w) rs)) as (Hw1 & [Hs1 _] & Hrrd).
  set (w1 := fold_left _ _ w) in *.
  pose proof (fun cf => upsert_keeps_cf _ _ _ _ _ _ _ _ _ _ _ cf Hr Hd Hf Eu) as Hcf.
  assert (forall cf, cf ∈ [CF_RELS; CF_TAGS; CF_CONNS] -> d cf = w_db w cf) as Hsame0.
  { intros cf Hin. repeat (apply elem_of_cons in Hin as [->|Hin]; [by apply Hcf|]). by apply elem_of_nil in Hin. }
  assert (forall cf, cf ∈ [CF_RELS; CF_TAGS; CF_CONNS] -> d cf = w_db w1 cf) as Hsame.
  { intros cf Hin. rewrite Hsame0 by done. symmetry. apply Hs1. intros ->. repeat (apply elem_of_cons in Hin as [Hin|Hin]; [done|]). by apply elem_of_nil in Hin. }
  eapply upsert_outcome in Eu; [|done..]. destruct r as [gops|e]; cbn in Eu.
  - destruct Eu as [Hr' Hg']. assert (forall x, x ∈ src -> x ∈ map fst kept \/ held m x -> held (spec_run (map AUpsert rs) (m, log)).1 x) as Hh
      by (intros x; by apply upserts_held).
    exists (spec_run (map AUpsert rs) (m, log)).1. split; [|split; [exact Hrrd|split; [|exact Hh]]].
    + eapply replaced_going; [exact Hw1|exact Hr'| |exact Hg'|exact Hsame|by intros x Hx Hm; apply Hh; [|right]|].
      * rewrite <- surjective_pairing. apply fits_more_upserts. by rewrite Hlen.
      * intros id Hid. rewrite spec_run_upserts. destruct (last _) as [r|] eqn:E; [|done].
        apply last_Some_elem_of in E. apply list_elem_of_filter in E as [Eid (k & e & Hin & ->)%elem_of_records].
        exfalso. apply Hid. rewrite Forall_forall in Hsrc. rewrite <- Eid. apply list_elem_of_fmap. exists k.1. by split; [|apply Hsrc].
    + cbn. split; intros k; by rewrite Hsame0 by (by repeat (first [left; done|right])).
  - eapply replaced_going; [exact Hw1|exact Eu| | |exact Hsame|done|done]; [|done]. eapply fits_more_less; [|exact Hfit]. lia.
Qed.

Lemma update_ok m n w cursor synced last_at st : going m n w -> ingested_to (w_db w) m (pos cursor) ->
  exists w', update connector_id cursor synced last_at st w = (w', Ok tt) /\ going m n w' /\ w_rrd w' = w_rrd w
    /\ (forall cf, cf <> CF_CONNS -> w_db w' cf = w_db w cf)
    /\ (Model.sync <$> get_conn (w_db w') connector_id) = Some (mkSyncState cursor synced last_at st).
Proof.
  intros Hw Hi. pose proof (going_safe m n w Hw) as Hsafe. destruct Hw as [(log & Hr & Hf) Hg Hl [c Hc] Hcov Ho Hp].
  destruct (Hcov c Hc) as [Hid _]. unfold update, attempted, update_sync. rewrite Hc. eexists. split; [reflexivity|].
  set (d := register_connector _ _). assert (forall cf, cf <> CF_CONNS -> d cf = w_db w cf) as Hcf by (intros cf; apply put_other).
  assert (get_conn d connector_id = Some (mkConnectorInfo (ci_id c) (ci_name c) (kind c) (provider c) (uri c) (mkSyncState cursor synced last_at st) (registered_at c))) as Hconn.
  { unfold get_conn, get_cf, d, register_connector. cbn [ci_id]. rewrite Hid, lookup_put_cf, decide_True by done. done. }
  split; [|split; [done|split; [exact Hcf|cbn; by rewrite Hconn]]]. split; cbn.
  - exists log. split; [|done]. by apply (refines_other json_text now_ms lexical_stats CF_CONNS (w_db w)).
  - by rewrite app_nil_r.
  - done.
  - by rewrite Hconn.
  - intros c' Hc'. rewrite Hconn in Hc'. injection Hc' as <-. cbn. split; [done|]. eapply ingested_to_mono; [done| |exact Hi].
    intros x. unfold mapped. by rewrite !Hcf.
  - done.
  - apply Forall_app. split; [done|]. by constructor.
Qed.

Lemma ingested_more d m n k : ingested_to d m n -> Forall (ingested d m) (take k (drop n src)) -> ingested_to d m (n + k).
Proof. intros Hi Hd. unfold ingested_to in *. rewrite Forall_lookup in *. intros i x Hx. apply lookup_take_Some in Hx as [Hx Hlt].
  destruct (decide (i < n)%nat) as [Hin|Hin]; [apply (Hi i); by rewrite lookup_take_lt|].
  apply (Hd (i - n)%nat). rewrite lookup_take_lt by lia. rewrite lookup_drop. by replace (n + (i - n))%nat with i by lia.
Qed.

Lemma sync_batch_ok m b p w : going m (Z.of_nat (length src - pos (p_cursor p))) w -> ingested_to (w_db w) m (pos (p_cursor p)) ->
  (exists i, dr_pull driver i (p_cursor p) = Ok b) ->
  let '(w', r) := sync_batch json_text json_len now_ms clock_ms q lexical_stats embedder connector_id b p w in
  let n := (pos (p_cursor p) + length (b_docs b))%nat in
  match r with
  | Ok p' => exists m', going m' (Z.of_nat (length src - n)) w' /\ ingested_to (w_db w') m' n /\ p_cursor p' = b_next b
  | Err _ => exists m', going m' 0 w'
  end.
Proof.
  intros Hw Hi (i & Hpull). pose proof (pulls_next i _ b Hpull) as (Hdocs & Hlen & Hnext). set (n := (pos (p_cursor p) + length (b_docs b))%nat) in *.
  destruct (shape_docs_ok (b_docs b) w (go_l0 _ _ _ Hw)) as (r & kept & blocked & E & Hl0 & Hkept & Hmode).
  assert (going m (Z.of_nat (length src - n) + Z.of_nat (length kept)) (with_rrd w r)) as G1.
  { apply with_rrd_going; [done|]. eapply going_less; [| |exact Hw]; [|lia]. rewrite <- (length_map fst kept), Hkept.
    pose proof (length_filter (fun x => ~ gated x) (b_docs b)). lia. }
  assert (forall x, x ∈ b_docs b -> gated x \/ x ∈ map fst kept) as Hor.
  { intros x Hx. destruct (decide (gated x)); [by left|]. right. rewrite Hkept. by apply list_elem_of_filter. }
  assert (Forall (fun k => k.1 ∈ src) kept) as Hsrc.
  { apply Forall_forall. intros k Hk. assert (k.1 ∈ map fst kept) as Hin by (apply list_elem_of_fmap; by exists k).
    rewrite Hkept in Hin. apply list_elem_of_filter in Hin as [_ Hin]. rewrite Hdocs in Hin.
    eapply elem_of_take in Hin as (j & Hj & _). rewrite lookup_drop in Hj. by eapply list_elem_of_lookup_2. }
  assert (NoDup (map (fun k => dc_id k.1) kept)) as Hnd.
  { change (map (fun k => dc_id k.1) kept) with (map (fun k : Document * Rro => dc_id (fst k)) kept). rewrite <- (map_map fst dc_id), Hkept.
    eapply sublist_NoDup; [exact src_ids|]. apply fmap_sublist. etrans; [apply sublist_filter|]. rewrite Hdocs. etrans; [apply sublist_take|apply sublist_drop]. }
  unfold sync_batch, mbind, sync_bind. rewrite E. cbn beta iota zeta. case_bool_decide as Hk0.
  { subst kept. exists m. split; [eapply going_less; [| |exact G1]; cbn; lia|]. split; [|done]. apply ingested_more; [exact Hi|].
    rewrite <- Hdocs. apply Forall_forall. intros x Hx. left. destruct (Hor x Hx) as [?|Hin]; [done|]. by apply elem_of_nil in Hin. }
  cbn [lift]. destruct (em_documents embedder _) as [embs|err] eqn:Ee; [|exists m; eapply going_less; [| |exact G1]; lia].
  assert (length embs = length kept) as Hle by (pose proof (Forall2_length _ _ _ (documents_each _ _ Ee)) as Hl; by rewrite length_map in Hl).
  pose proof (upserted_ok m (Z.of_nat (length src - n)) kept embs _ ltac:(lia) G1 Hle Hsrc Hnd) as Hup.
  destruct (upserted _ _ _ _ _ _ _) as [w1 [[]|err]]; [|exists m; eapply going_less; [| |exact Hup]; lia].
  destruct Hup as (m' & G2 & R2 & Gr2 & Hh). destruct (map_docs_ok m' _ (post_of (w_rrd (with_rrd w r)) kept embs) w1 G2) as (w2 & -> & G3 & R3 & Gr3 & Hmap).
  assert (grows (w_db w) (w_db w2)) as Gr by exact (transitivity Gr2 Gr3).
  assert (ingested_to (w_db w2) m' n) as Hin.
  { apply ingested_more.
    - eapply ingested_to_mono; [|by intros x; apply mapped_grows|exact Hi]. intros x Hx Hm. apply Hh; [done|by right].
    - rewrite <- Hdocs. apply Forall_forall. intros x Hx. destruct (Hor x Hx) as [Hg|Hin]; [by left|]. right.
      apply list_elem_of_fmap in Hin as (k & -> & Hin). rewrite Forall_forall in Hsrc. rewrite Forall_forall in Hmap. rewrite Forall_forall in Hmode. split.
      { apply Hh; [by apply Hsrc|]. left. apply list_elem_of_fmap. by exists k. }
      pose proof Hin as [j Hj]%list_elem_of_lookup. destruct (lookup_lt_is_Some_2 embs j) as [e He]; [apply lookup_lt_Some in Hj; lia|].
      destruct (Hmap (dc_id k.1, tags_of (w_rrd (with_rrd w r)) k.2 e)) as [Hr Ht].
      { unfold post_of. apply elem_of_lookup_zip_with. exists j, k, e. by split_and!. }
      split; [exact Hr|]. rewrite Forall_forall in Ht. cbn [fst snd] in Ht. rewrite <- (Hmode k Hin). apply Ht. apply elem_of_app. right. by apply list_elem_of_singleton. }
  assert (ingested_to (w_db w2) m' (pos (b_next b))) as Hcur.
  { eapply ingested_to_le; [|exact Hin]. destruct (b_next b); [by rewrite Hnext|]. rewrite pos_start. lia. }
  destruct (update_ok m' _ w2 (b_next b) (u64_add (p_synced p) (Z.of_nat (length (post_of (w_rrd (with_rrd w r)) kept embs)))) (Some clock_ms) Model.Syncing G3 Hcur) as (w3 & Eu & G4 & R4 & Hcf & _).
  change (w_rrd (with_rrd w r)) with r in *. rewrite Eu. exists m'. split; [done|]. split; [|done].
  eapply ingested_to_mono; [done| |exact Hin]. intros x. unfold mapped. by rewrite !Hcf.
Qed.

(** ** A whole run *)

Lemma sync_loop_ok fuel m p w : going m (Z.of_nat (length src - pos (p_cursor p))) w -> ingested_to (w_db w) m (pos (p_cursor p)) ->
  let '(w', r) := sync_loop json_text json_len now_ms clock_ms q lexical_stats embedder driver connector_id fuel p w in
  exists m', going m' 0 w' /\
  match r with
  | Ok (Some p') => ingested_to (w_db w') m' (length src) /\ (pos (p_cursor p') <= length src)%nat
  | Ok None => (fuel <= length src - pos (p_cursor p))%nat
  | Err _ => True
  end.
Proof.
  revert m p w. induction fuel as [|fuel IH]; intros m p w Hw Hi; cbn [sync_loop].
  { exists m. split; [eapply going_less; [| |exact Hw]; lia|]. cbn. lia. }
  unfold mbind, sync_bind. cbn [lift]. destruct (dr_pull driver _ _) as [b|err] eqn:Ep; [|exists m; split; [eapply going_less; [| |exact Hw]; lia|done]].
  case_bool_decide as Hb.
  { exists m. split; [eapply going_less; [| |exact Hw]; lia|]. pose proof (pulls_drained _ _ _ Ep Hb) as Hd. cbn. rewrite <- Hd at 1. by split; [|lia]. }
  pose proof (pulls_next _ _ _ Ep) as (_ & Hlen & Hnext).
  pose proof (sync_batch_ok m b p w Hw Hi (ex_intro _ _ Ep)) as Hsb. destruct (sync_batch _ _ _ _ _ _ _ _ _ _ _) as [w1 [p1|err]]; [|destruct Hsb as (m' & Hg); by exists m'].
  destruct Hsb as (m' & G1 & I1 & E1). case_bool_decide as Hc.
  - exists m'. split; [eapply going_less; [| |exact G1]; lia|]. rewrite <- E1, Hc in Hnext. rewrite Hnext in I1. cbn. split; [done|]. rewrite Hc, pos_start. lia.
  - destruct (b_next b) as [c|] eqn:Ec; [|by rewrite E1 in Hc]. rewrite <- Hnext in G1, I1. rewrite <- E1 in G1, I1. specialize (IH m' p1 w1 G1 I1).
    destruct (sync_loop _ _ _ _ _ _ _ _ _ _ _ _) as [w2 r]. destruct IH as (m2 & G2 & Hr). exists m2. split; [done|].
    destruct r as [[p2|]|err]; [done| |done]. rewrite E1, Hnext in Hr. destruct (b_docs b); [done|cbn in *; lia].
Qed.

Lemma store_baseline_ok m n w : going m n w ->
  exists w', store_baseline snapshot_text w = (w', Ok tt) /\ going m n w' /\ (forall cf, cf <> CF_META -> w_db w' cf = w_db w cf).
Proof.
  intros Hw. pose proof (going_safe m n w Hw) as Hsafe. destruct Hw as [(log & Hr & Hf) Hg Hl Hc Hcov Ho Hp].
  unfold store_baseline, baseline_snapshot. destruct (snapshot _) as [b s]. eexists. split; [reflexivity|].
  set (d := put_cf _ _ _ _). assert (forall cf, cf <> CF_META -> d cf = w_db w cf) as Hcf by (intros cf; apply put_other).
  assert (get_conn d connector_id = get_conn (w_db w) connector_id) as Hconn by (unfold get_conn, get_cf; by rewrite Hcf).
  split; [|exact Hcf]. split; cbn.
  - exists log. split; [|done]. apply refines_put_meta; [|done]. refine (bool_decide_eq_false_1 _ _). vm_compute. reflexivity.
  - done.
  - done.
  - by rewrite Hconn.
  - intros c Hcc. rewrite Hconn in Hcc. destruct (Hcov c Hcc) as [Hid Hi]. split; [done|]. eapply ingested_to_mono; [done| |exact Hi].
    intros x. unfold mapped. by rewrite !Hcf.
  - done.
  - apply Forall_app. split; [done|]. by constructor.
Qed.

Lemma finish_ok m p w : going m 0 w -> ingested_to (w_db w) m (length src) -> (pos (p_cursor p) <= length src)%nat ->
  exists w', finish snapshot_text clock_ms clock_ns connector_id p w = (w', Ok (mkReport (p_ingested p) (p_blocked p) (Z.of_nat (p_batches p)) (p_cursor p)))
    /\ going m 0 w' /\ ingested_to (w_db w') m (length src)
    /\ (Model.sync <$> get_conn (w_db w') connector_id) = Some (mkSyncState (p_cursor p) (p_synced p) (Some clock_ms) Model.Idle).
Proof.
  intros Hw Hi Hpos. destruct (update_ok m 0 w (p_cursor p) (p_synced p) (Some clock_ms) Model.Idle Hw (ingested_to_le _ _ _ _ Hpos Hi)) as (w1 & E1 & G1 & R1 & C1 & S1).
  unfold finish, mbind, sync_bind. rewrite E1. cbn beta iota zeta. match goal with |- context [written ?f w1] => set (w2 := (written f w1).1); change (written f w1) with (w2, @Ok RroError unit tt) end. cbn beta iota zeta.
  assert (going m 0 w2) as G2.
  { apply (row_going CF_TRENDS); [by repeat (first [left|right])| |apply put_grows|done]. intros cf. apply put_other. }
  match goal with |- context [written ?f w2] => set (w3 := (written f w2).1); change (written f w2) with (w3, @Ok RroError unit tt) end. cbn beta iota zeta.
  assert (going m 0 w3) as G3.
  { apply (row_going CF_TRENDS); [by repeat (first [left|right])| |apply put_grows|done]. intros cf. apply put_other. }
  destruct (store_baseline_ok m 0 w3 G3) as (w4 & E4 & G4 & C4). rewrite E4. exists w4. split; [done|]. split; [done|].
  assert (forall cf, cf <> CF_META -> cf <> CF_TRENDS -> w_db w4 cf = w_db w1 cf) as Hcf.
  { intros cf Hm Ht. rewrite C4 by done. unfold w3, w2, written, moved, record_trend. cbn [fst w_db]. by rewrite !put_other. }
  split.
  - eapply ingested_to_mono; [done| |exact Hi]. intros x. unfold mapped. by rewrite !Hcf, !C1.
  - unfold get_conn, get_cf in *. by rewrite Hcf.
Qed.

Lemma sync_run fuel r d log : refines d m0 log -> room d (Z.of_nat (length src)) -> covers d m0 -> r_l0 r = l0 ->
  let '(w, res) := sync json_text json_len now_ms snapshot_text snapshot_of clock_ms clock_ns q lexical_stats embedder driver connector_id fuel (mkWorld d [] r []) in
  Forall (safe m0) (w_past w ++ [w_db w]) /\
  exists m log', refines (w_db w) m log' /\ graph_run (w_handed w) (vr_embedding <$> m0) = vr_embedding <$> m /\ others_kept m0 m /\
  match res with
  | Ok (Some report) => ingested_to (w_db w) m (length src)
      /\ exists synced, (Model.sync <$> get_conn (w_db w) connector_id) = Some (mkSyncState (sr_cursor report) synced (Some clock_ms) Model.Idle)
  | Ok None => (fuel <= length src)%nat
  | Err _ => True
  end.
Proof.
  intros Hr Hroom Hc Hl. set (w0 := mkWorld d [] r []).
  assert (forall m w (P : Prop), going m 0 w -> P -> Forall (safe m0) (w_past w ++ [w_db w]) /\
    exists m log', refines (w_db w) m log' /\ graph_run (w_handed w) (vr_embedding <$> m0) = vr_embedding <$> m /\ others_kept m0 m /\ P) as Hout.
  { intros m w P Hw HP. split; [apply Forall_app; split; [apply Hw|constructor; [by eapply going_safe|done]]|].
    destruct (go_refines _ _ _ Hw) as (log' & Hr' & _). exists m, log'. split_and!; [done|apply Hw|apply Hw|done]. }
  unfold sync, mbind, sync_bind, mret, sync_ret, connector. cbn [w_db w0]. destruct (get_conn d connector_id) as [c|] eqn:Ec.
  2: { split; [constructor; [|done]; by exists m0, log|]. by exists m0, log. }
  assert (going m0 (Z.of_nat (length src)) w0) as G0.
  { split; cbn; [exists log; split; [done|by eapply room_fits]|done|done|by rewrite Ec|done|done|done]. }
  assert (exists w1 res1, restore_if_fresh snapshot_of w0 = (w1, res1) /\ going m0 (Z.of_nat (length src)) w1 /\ w_db w1 = d) as (w1 & res1 & E1 & G1 & D1).
  { unfold restore_if_fresh. destruct (_ =? 0); [|by eexists _, _]. destruct (stored_baseline _ _) as [[s|]|e]; [|by eexists _, _..].
    eexists _, _. split; [reflexivity|]. split; [by apply (with_rrd_going m0 _ w0)|done]. }
  rewrite E1. destruct res1 as [[]|e]; [|split; [apply Forall_app; split; [apply G1|constructor; [by eapply going_safe|done]]|]].
  2: { destruct (go_refines _ _ _ G1) as (log' & Hr' & _). exists m0, log'. split_and!; [done|apply G1|apply G1|done]. }
  destruct (Hc c Ec) as [Hid Hi]. rewrite <- D1 in Hi.
  destruct (update_ok m0 _ w1 (sync_cursor (Model.sync c)) (docs_synced (Model.sync c)) (last_sync (Model.sync c)) Model.Syncing G1 Hi) as (w2 & E2 & G2 & R2 & C2 & S2).
  rewrite E2. set (p := mkProgress _ _ _ _ _).
  assert (ingested_to (w_db w2) m0 (pos (p_cursor p))) as I2.
  { eapply ingested_to_mono; [done| |exact Hi]. intros x. unfold mapped. by rewrite !C2. }
  assert (going m0 (Z.of_nat (length src - pos (p_cursor p))) w2) as G2' by (eapply going_less; [| |exact G2]; lia).
  pose proof (sync_loop_ok fuel m0 p w2 G2' I2) as Hloop.
  destruct (sync_loop _ _ _ _ _ _ _ _ _ _ _ _) as [w3 [[p3|]|e]]; destruct Hloop as (m' & G3 & Hres); [|apply (Hout m' w3); [done|lia]|by apply (Hout m' w3)].
  destruct Hres as [I3 Hpos]. destruct (finish_ok m' p3 w3 G3 I3 Hpos) as (w4 & E4 & G4 & I4 & S4). rewrite E4. cbn beta iota.
  split; [apply Forall_app; split; [apply G4|constructor; [by eapply going_safe|done]]|].
  destruct (go_refines _ _ _ G4) as (log' & Hr' & _). exists m', log'. split_and!; [done|apply G4|apply G4|done|]. eexists. exact S4.
Qed.
End keeps.

(** ** Any number of interrupted runs *)

Section crashes.
Context `{SerdeNumber} `{Libm} `{TextAnalyzer} `{Unicode} `{HashOrder} `{Ln64}.
Variable json_text : Json -> bytes.
Variable json_len : Metadata -> Z.
Variable now_ms : Z -> Z.
Variable snapshot_text : BaselineSnapshot -> bytes.
Variable snapshot_of : bytes -> result bytes BaselineSnapshot.
Variable q : Quotas.
Variable lexical_stats : bool.
Variable connector_id : bytes.
Variable l0 : L0Config.
Variable src : list Document.
Variable pos : option bytes -> nat.
Local Abbreviation refines := (Refines json_text now_ms lexical_stats).

(** A process, with what is outside it: its daemon, its clock, the embedder
    and the source, either of which may fail at any call. *)
Record Process : Type := mkProcess { pr_rrd : Rrd; pr_ms : Z; pr_ns : Z; pr_embedder : Embedder; pr_driver : Driver }.
Record process_ok (p : Process) : Prop := {
  po_l0 : r_l0 (pr_rrd p) = l0;
  po_embedder : EmbedderLaws (pr_embedder p);
  po_driver : DriverLaws (pr_driver p) src pos;
}.
Definition run (fuel : nat) (p : Process) (d : Db) : World * result RroError (option SyncReport) :=
  sync json_text json_len now_ms snapshot_text snapshot_of (pr_ms p) (pr_ns p) q lexical_stats (pr_embedder p) (pr_driver p) connector_id fuel
    (mkWorld d [] (pr_rrd p) []).

(** A run that is cut off leaves one of the stores it went through. *)
Definition stores (w : World) : list Db := w_past w ++ [w_db w].
Definition cut (d d' : Db) : Prop :=
  exists fuel p, process_ok p /\ room d (Z.of_nat (length src)) /\ d' ∈ stores (run fuel p d).1.

Definition safe_from (m0 : gmap bytes VectorRecord) : Db -> Prop := safe json_text now_ms lexical_stats connector_id l0 src pos m0.

Hypothesis src_ids : NoDup (map dc_id src).
Hypothesis src_nul_free : Forall (fun x => nul_free (dc_id x)) src.

Lemma run_from m0 d fuel p : safe_from m0 d -> process_ok p -> room d (Z.of_nat (length src)) ->
  let '(w, res) := run fuel p d in
  Forall (safe_from m0) (stores w) /\
  match res with
  | Ok (Some report) => exists m log, refines (w_db w) m log /\ others_kept src m0 m
      /\ Forall (ingested connector_id l0 (w_db w) m) src
      /\ exists synced, (Model.sync <$> get_conn (w_db w) connector_id) = Some (mkSyncState (sr_cursor report) synced (Some (pr_ms p)) Model.Idle)
  | Ok None => (fuel <= length src)%nat
  | Err _ => True
  end.
Proof.
  intros (m1 & log & Hr & Hc & Ho) [Hl He Hd] Hroom. unfold run.
  pose proof (sync_run json_text json_len now_ms snapshot_text snapshot_of (pr_ms p) (pr_ns p) q lexical_stats (pr_embedder p) (pr_driver p) connector_id
    l0 src pos m1 src_ids src_nul_free fuel (pr_rrd p) d log Hr Hroom Hc Hl) as Hs.
  destruct (sync _ _ _ _ _ _ _ _ _ _ _ _ _ _) as [w res]. destruct Hs as (Hsafe & m & log' & Hr' & _ & Ho' & Hres). split.
  - eapply Forall_impl; [exact Hsafe|]. intros d' (m2 & log2 & ? & ? & Ho2). exists m2, log2. split_and!; [done|done|]. intros id Hid. by rewrite Ho2, Ho.
  - destruct res as [[report|]|]; [|done|done]. destruct Hres as [Hi Hs]. unfold ingested_to in Hi. rewrite take_ge in Hi by done.
    exists m, log'. split_and!; [done| |done|done]. intros id Hid. by rewrite Ho', Ho.
Qed.

Lemma cut_safe m0 d d' : cut d d' -> safe_from m0 d -> safe_from m0 d'.
Proof.
  intros (fuel & p & Hp & Hroom & Hin) Hs. pose proof (run_from m0 d fuel p Hs Hp Hroom) as Hr. destruct (run _ _ _) as [w res].
  destruct Hr as [Hr _]. rewrite Forall_forall in Hr. by apply Hr.
Qed.

(** C11: The sync of a source that stays the same, its documents of distinct ids
    free of the separator byte, pulled by a driver whose cursors resume it
    ([DriverLaws]: the feed of lines is one, a directory is one when its keys
    sort as its paths do): however often it is cut off, by a crash between any
    two committed writes (the registrations before an upsert's batch are writes
    of their own), an outage of the source or a failure of the embedder, the
    store stays whole and its cursor is never past a document that is not
    stored, related to its connector and tagged, unless the gate blocks it;
    documents of others are as they were. A run that then ends well leaves the
    whole source ingested and the connector idle, and one step per document is
    enough for a run to end. The counters have room for the source before each
    run. *)
Theorem sync_survives_crashes m0 log0 d0 d fuel p :
  refines d0 m0 log0 -> covers connector_id l0 src pos d0 m0 -> rtc cut d0 d ->
  process_ok p -> room d (Z.of_nat (length src)) ->
  safe_from m0 d /\
  let '(w, res) := run fuel p d in
  Forall (safe_from m0) (stores w) /\
  match res with
  | Ok (Some report) => exists m log, refines (w_db w) m log /\ others_kept src m0 m
      /\ Forall (ingested connector_id l0 (w_db w) m) src
      /\ exists synced, (Model.sync <$> get_conn (w_db w) connector_id) = Some (mkSyncState (sr_cursor report) synced (Some (pr_ms p)) Model.Idle)
  | Ok None => (fuel <= length src)%nat
  | Err _ => True
  end.
Proof.
  intros Hr Hc Hcuts Hp Hroom. assert (safe_from m0 d) as Hs.
  { assert (safe_from m0 d0) as H0s by (by exists m0, log0). clear -Hcuts H0s src_ids src_nul_free. induction Hcuts; [done|]. apply IHHcuts. by eapply cut_safe. }
  split; [done|]. by apply run_from.
Qed.
End crashes.

(** ** The drivers keep their promise *)

(** What the three numbers of a pull must satisfy, for a suffix of a source. *)
Definition pulled `{SerdeNumber} (rest : list Document) (p : nat) (at_cursor : bytes -> nat) (docs : list Document) (b : Batch) : Prop :=
  exists k, b_docs b = docs ++ take k (drop p rest) /\ (p + k <= length rest)%nat
  /\ match b_next b with Some c => at_cursor c = (p + k)%nat /\ (0 < k)%nat | None => (p + k)%nat = length rest end.

Lemma pulled_laws `{SerdeNumber} (d : Driver) src (pos : option bytes -> nat) : pos None = 0%nat ->
  (forall i cursor b, dr_pull d i cursor = Ok b -> pulled src (pos cursor) (fun c => pos (Some c)) [] b) -> DriverLaws d src pos.
Proof.
  intros H0s Hp. assert (forall i cursor b, dr_pull d i cursor = Ok b -> exists k, b_docs b = take k (drop (pos cursor) src) /\ length (b_docs b) = k
    /\ (pos cursor + k <= length src)%nat /\ match b_next b with Some c => pos (Some c) = (pos cursor + k)%nat /\ (0 < k)%nat | None => (pos cursor + k)%nat = length src end) as Hk.
  { intros i cursor b (k & E & Hl & Hn)%Hp. exists k. split_and!; [done| |done|done]. rewrite E. cbn. rewrite length_take, length_drop. lia. }
  split; [done| |].
  - intros i cursor b (k & E & <- & Hl & Hn)%Hk. split_and!; [done|done|]. destruct (b_next b); [apply Hn|done].
  - intros i cursor b (k & E & Hlk & Hl & Hn)%Hk Hd. rewrite Hd in Hlk. cbn in Hlk. subst k. destruct (b_next b); [lia|]. lia.
Qed.

(** A document that is pulled, and one that is passed over. *)
Lemma pulled_skip `{SerdeNumber} rest p (at_c at_c' : bytes -> nat) docs b (x : list Document) : (length x <= p)%nat ->
  pulled rest (p - length x) at_c docs b -> (forall c, b_next b = Some c -> at_c' c = (length x + at_c c)%nat) ->
  pulled (x ++ rest) p at_c' docs b.
Proof.
  intros Hx (k & E & Hl & Hn) Hc. exists k. rewrite drop_app_ge by done. rewrite length_app. split; [done|]. split; [lia|].
  destruct (b_next b) as [c|]; [|lia]. rewrite (Hc c eq_refl). lia.
Qed.

Lemma pulled_take `{SerdeNumber} rest (at_c at_c' : bytes -> nat) docs b (x : Document) :
  pulled rest 0 at_c (docs ++ [x]) b -> (forall c, b_next b = Some c -> at_c' c = S (at_c c)) -> pulled (x :: rest) 0 at_c' docs b.
Proof.
  intros (k & E & Hl & Hn) Hc. exists (S k). cbn [drop take length] in *. rewrite E, <- app_assoc. cbn. split; [done|]. split; [lia|].
  destruct (b_next b) as [c|]; [|lia]. rewrite (Hc c eq_refl). lia.
Qed.

Section jsonl_laws.
Context `{SerdeNumber} `{Unicode}.
Variable parse_json : bytes -> result bytes Json.

(** The documents of the lines after the [n]-th; a line that does not parse
    stands for a document no pull returns. *)
Fixpoint feed (n : nat) (ls : list bytes) : list Document :=
  match ls with
  | [] => []
  | l :: ls =>
      (if blank_line l then [] else [match jsonl_doc parse_json (S n) l with Ok d => d | Err _ => mkDocument [] [] ∅ end]) ++ feed (S n) ls
  end.

Definition line_pos (ls : list bytes) (cursor : option bytes) : nat := length (feed 0 (take (jsonl_start cursor) ls)).

Lemma parse_display n : 0 <= n < 2 ^ 64 -> parse_usize (display n) = Some n.
Proof.
  intros Hn. pose proof (display_digits n) as Hd. pose proof (ToonFacts.display_nonempty n) as Hne. unfold parse_usize.
  assert (default (display n) (Toon.strip 43 (display n)) = display n) as ->.
  { destruct (display n) as [|c d]; [done|]. apply Forall_cons in Hd as [Hc _]. cbn. by destruct (Z.eqb_spec c 43) as [->|]. }
  rewrite bool_decide_eq_false_2 by done. replace (forallb is_ascii_digit (display n)) with true.
  - cbn. rewrite digits_value_display by lia. by rewrite (proj2 (Z.ltb_lt n (2 ^ 64))) by lia.
  - symmetry. apply forallb_forall. intros c Hc. rewrite Forall_forall in Hd. by apply Hd, list_elem_of_In.
Qed.

Lemma jsonl_loop_pulled start batch_size n docs ls b : (length docs < batch_size)%nat -> Z.of_nat (n + length ls) < 2 ^ 64 ->
  jsonl_loop parse_json start batch_size n docs ls = Ok b ->
  pulled (feed n ls) (length (feed n (take (start - n) ls))) (fun c => length (feed n (take (jsonl_start (Some c) - n) ls))) docs b
  /\ forall c, b_next b = Some c -> (n < jsonl_start (Some c))%nat.
Proof.
  revert n docs. induction ls as [|l ls IH]; intros n docs Hdocs Hsmall; cbn [jsonl_loop].
  { intros [= <-]. split; [|done]. exists 0%nat. rewrite !take_nil. cbn. by rewrite app_nil_r. }
  cbn [length] in Hsmall. destruct ((S n <=? start)%nat || blank_line l) eqn:Es.
  - intros E. destruct (IH (S n) docs Hdocs ltac:(lia) E) as [Hp Hc]. split; [|intros c Ec; specialize (Hc c Ec); lia].
    cbn [feed]. set (x := if blank_line l then [] else _).
    assert (forall k, (n < k)%nat -> feed n (take (k - n) (l :: ls)) = x ++ feed (S n) (take (k - S n) ls)) as Htake.
    { intros k Hk. replace (k - n)%nat with (S (k - S n)) by lia. done. }
    assert (length (feed n (take (start - n) (l :: ls))) = (length x + length (feed (S n) (take (start - S n) ls)))%nat) as Hs.
    { destruct (Nat.leb_spec (S n) start) as [Hle|Hgt]; [rewrite Htake by lia; by rewrite length_app|]. cbn [orb] in Es.
      unfold x. rewrite Es. by replace (start - n)%nat with 0%nat by lia; replace (start - S n)%nat with 0%nat by lia. }
    eapply pulled_skip; [rewrite Hs; lia| |].
    + rewrite Hs. replace (length x + _ - length x)%nat with (length (feed (S n) (take (start - S n) ls))) by lia. exact Hp.
    + intros c Ec. specialize (Hc c Ec). cbn beta. rewrite Htake by lia. by rewrite length_app.
  - apply orb_false_iff in Es as [Hle Hb]. apply Nat.leb_gt in Hle. destruct (jsonl_doc parse_json (S n) l) as [d|e] eqn:Ed; [|done]. cbn [mbind result_bind].
    cbn [feed]. rewrite Hb, Ed. cbn [app]. replace (start - n)%nat with 0%nat by lia. cbn [take feed length].
    assert (forall k, (n < k)%nat -> length (feed n (take (k - n) (l :: ls))) = S (length (feed (S n) (take (k - S n) ls)))) as Htake.
    { intros k Hk. replace (k - n)%nat with (S (k - S n)) by lia. cbn [take feed]. by rewrite Hb, Ed. }
    destruct (Nat.leb_spec batch_size (length (docs ++ [d]))) as [Hfull|Hmore].
    + intros [= <-]. assert (jsonl_start (Some (display (Z.of_nat (S n)))) = S n) as Hst.
      { unfold jsonl_start. cbn [mbind option_bind]. rewrite parse_display by lia. cbn. lia. }
      split; [|intros c [= <-]; rewrite Hst; lia]. exists 1%nat. cbn [b_docs b_next drop take length]. rewrite Hst. split; [done|]. split; [lia|]. split; [|lia].
      rewrite Htake by lia. by rewrite Nat.sub_diag.
    + intros E. destruct (IH (S n) (docs ++ [d]) Hmore ltac:(lia) E) as [Hp Hc]. split; [|intros c Ec; specialize (Hc c Ec); lia].
      replace (start - S n)%nat with 0%nat in Hp by lia. eapply pulled_take; [exact Hp|]. intros c Ec. specialize (Hc c Ec). cbn beta. by apply Htake; lia.
Qed.

(** A feed whose file, whenever it can be read, holds [content]. *)
Lemma jsonl_laws read batch_size content : (forall i c, read i = Ok c -> c = content) -> Z.of_nat (length (lines content)) < 2 ^ 64 ->
  DriverLaws (jsonl_driver parse_json read batch_size) (feed 0 (lines content)) (line_pos (lines content)).
Proof.
  intros Hread Hsmall. apply pulled_laws; [done|]. intros i cursor b. cbn [dr_pull jsonl_driver]. destruct (read i) as [c|] eqn:Er; [|done].
  cbn [mbind result_bind]. rewrite (Hread i c Er). intros Hl. apply jsonl_loop_pulled in Hl as [Hp _]; [|cbn; lia|lia].
  unfold line_pos. rewrite Nat.sub_0_r in Hp. destruct Hp as (k & E & Hk & Hn). exists k. split; [done|]. split; [done|].
  destruct (b_next b) as [x|]; [|done]. by rewrite Nat.sub_0_r in Hn.
Qed.
End jsonl_laws.

Section fs_laws.
Context `{SerdeNumber} `{!NumberOfInt}.
Variable root : bytes.

(** The documents of the readable files, and those up to a key. *)
Definition fs_docs (files : list File) : list Document := omap (fun f => fs_doc root f <$> f_text f) files.
Definition up_to (cursor : option bytes) (files : list File) : list File :=
  match cursor with Some cur => filter (fun f => ble (key_of root f) cur) files | None => [] end.
Definition path_pos (files : list File) (cursor : option bytes) : nat := length (fs_docs (up_to cursor files)).

Definition one_doc (f : File) : list Document := match f_text f with Some text => [fs_doc root f text] | None => [] end.
Lemma fs_docs_cons f files : fs_docs (f :: files) = one_doc f ++ fs_docs files.
Proof. unfold fs_docs, one_doc. cbn. by destruct (f_text f). Qed.

Lemma up_to_nil cur files : Forall (fun f => blt cur (key_of root f)) files -> up_to (Some cur) files = [].
Proof.
  induction 1 as [|f files Hf _ IH]; [done|]. unfold up_to in *. rewrite filter_cons, IH, decide_False; [done|].
  intros [Hlt|E]%ble_lteq; [|rewrite E in Hf]; eapply (irreflexivity blt cur); [by etrans|done].
Qed.

Lemma path_pos_cons f files cur : ble (key_of root f) cur -> path_pos (f :: files) (Some cur) = (length (one_doc f) + path_pos files (Some cur))%nat.
Proof. intros Hf. unfold path_pos, up_to. rewrite filter_cons, decide_True by done. by rewrite fs_docs_cons, length_app. Qed.

Lemma fs_loop_pulled cursor batch_size docs files : (length docs < batch_size)%nat -> StronglySorted blt (map (key_of root) files) ->
  let b := fs_loop root cursor batch_size docs files in
  pulled (fs_docs files) (path_pos files cursor) (fun c => path_pos files (Some c)) docs b
  /\ forall c, b_next b = Some c -> c ∈ map (key_of root) files.
Proof.
  revert docs. induction files as [|f files IH]; intros docs Hdocs Hs; cbn [fs_loop].
  { split; [|done]. exists 0%nat. unfold path_pos. destruct cursor; cbn; by rewrite app_nil_r. }
  cbn [map] in Hs. apply StronglySorted_inv in Hs as [Hs Hall]. rewrite fs_docs_cons.
  assert (forall c, c ∈ map (key_of root) files -> path_pos (f :: files) (Some c) = (length (one_doc f) + path_pos files (Some c))%nat) as Hnext.
  { intros c Hc. apply path_pos_cons. apply ble_lteq. left. rewrite Forall_forall in Hall. by apply Hall. }
  assert (forall p, path_pos (f :: files) cursor = (length (one_doc f) + p)%nat -> path_pos files cursor = p ->
    pulled (fs_docs files) p (fun c => path_pos files (Some c)) docs (fs_loop root cursor batch_size docs files)
    /\ (forall c, b_next (fs_loop root cursor batch_size docs files) = Some c -> c ∈ map (key_of root) files) ->
    pulled (one_doc f ++ fs_docs files) (path_pos (f :: files) cursor) (fun c => path_pos (f :: files) (Some c)) docs (fs_loop root cursor batch_size docs files)
    /\ (forall c, b_next (fs_loop root cursor batch_size docs files) = Some c -> c ∈ map (key_of root) (f :: files))) as Hskip.
  { intros p E1 E2 [Hp Hc]. split; [|intros c Ec; right; by apply Hc]. rewrite E1. eapply pulled_skip; [lia| |intros c Ec; apply Hnext, Hc, Ec].
    by replace (length (one_doc f) + p - length (one_doc f))%nat with p by lia. }
  destruct (match cursor with Some cur => _ | None => _ end) eqn:Ecur.
  { destruct cursor as [cur|]; [|done]. apply bool_decide_eq_true in Ecur. eapply Hskip; [by apply path_pos_cons|done|]. by apply IH. }
  assert (path_pos (f :: files) cursor = 0%nat /\ path_pos files cursor = 0%nat) as [P1 P2].
  { destruct cursor as [cur|]; [|done]. apply bool_decide_eq_false in Ecur. assert (blt cur (key_of root f)) as Hlt.
    { destruct (total ble cur (key_of root f)) as [Hle|Hle]; [|done]. apply ble_lteq in Hle as [?|E]; [done|]. rewrite E in Ecur. by destruct Ecur. }
    unfold path_pos. rewrite !up_to_nil; [done| |constructor; [done|]]; apply Forall_forall; intros g Hg; rewrite Forall_forall in Hall;
      (etrans; [exact Hlt|]; apply Hall, list_elem_of_fmap; by exists g). }
  destruct (f_text f) as [text|] eqn:Et.
  - assert (one_doc f = [fs_doc root f text]) as Ef by (unfold one_doc; by rewrite Et). rewrite P1, Ef. cbn [app].
    destruct (Nat.leb_spec batch_size (length (docs ++ [fs_doc root f text]))) as [Hfull|Hmore].
    + split; [|intros c [= <-]; by left]. exists 1%nat. cbn [b_docs b_next drop take length]. split; [done|]. split; [lia|]. split; [|lia].
      rewrite path_pos_cons by (by apply ble_lteq; right). rewrite Ef. cbn [length]. unfold path_pos. rewrite up_to_nil; [done|]. apply Forall_forall. intros g Hg. rewrite Forall_forall in Hall. apply Hall, list_elem_of_fmap. by exists g.
    + destruct (IH (docs ++ [fs_doc root f text]) Hmore Hs) as [Hp Hc]. split; [|intros c Ec; right; by apply Hc]. rewrite P2 in Hp.
      eapply pulled_take; [exact Hp|]. intros c Ec. cbn beta. rewrite Hnext by (by apply Hc). by rewrite Ef.
  - assert (length (one_doc f) = 0%nat) as Ef by (unfold one_doc; by rewrite Et). apply (Hskip (path_pos files cursor)); [lia|done|by apply IH].
Qed.

(** A directory that stays as it is, provided the byte order of the keys is
    the order of the paths. *)
Lemma fs_laws read batch_size files : (forall i fs, read i = Ok fs -> fs = files) -> StronglySorted blt (map (key_of root) (listing files)) ->
  DriverLaws (fs_driver root read batch_size) (fs_docs (listing files)) (path_pos (listing files)).
Proof.
  intros Hread Hs. apply pulled_laws; [done|]. intros i cursor b. cbn [dr_pull fs_driver]. destruct (read i) as [fs|] eqn:Er; [|done].
  cbn [mbind result_bind]. rewrite (Hread i fs Er). intros [= <-]. apply fs_loop_pulled; [cbn; lia|done].
Qed.
End fs_laws.

(** ** Runs *)

Module Runs.
#[local] Existing Instances plain_number flat_libm one_token ascii_unicode plain_order unlogged.
#[local] Instance zero_int : NumberOfInt := fun _ => exist _ (PosInt 0) eq_refl.

Definition feed_text : bytes := str "a" ++ [10] ++ str "b" ++ [10].
(** A parser that takes a line for the id and the text of its document. *)
Definition line_json (l : bytes) : result bytes Json := Ok (JObj [(str "id", JStr l); (str "text", JStr l)]).
Definition line_embedder : Embedder := symmetric_embedder 1 (fun texts => Ok (map (fun _ => [f32_one]) texts)) (str "line").
Definition feed_conn : ConnectorInfo := mkConnectorInfo (str "c") (str "feed") Custom (str "jsonl") (str "feed") sync_state_default 0.
Definition feed_db : Db := register_connector db0 feed_conn.
Definition whole (_ : nat) : result RroError bytes := Ok feed_text.
Definition outage (i : nat) : result RroError bytes := match i with O => Ok feed_text | _ => Err (Message (str "outage")) end.
Definition feed_process (read : nat -> result RroError bytes) (batch_size : nat) : Process :=
  mkProcess rrd_new 7 7 line_embedder (jsonl_driver line_json read batch_size).
Definition snapshot_blob (_ : BaselineSnapshot) : bytes := [].
Definition no_snapshot (_ : bytes) : result bytes BaselineSnapshot := Ok snapshot_default.
Definition ran (p : Process) (d : Db) : World * result RroError (option SyncReport) :=
  run no_text (fun _ => 1) no_clock snapshot_blob no_snapshot quotas_default true (str "c") 9 p d.
Definition feed_src : list Document := feed line_json 0 (lines feed_text).
Definition interrupted : Db := w_db (ran (feed_process outage 1) feed_db).1.

Lemma line_embedder_laws : EmbedderLaws line_embedder.
Proof.
  split; intros texts out [= <-]; (apply Forall2_fmap_r, Forall_Forall2_diag, Forall_forall; done).
Qed.

Lemma feed_process_ok read batch_size : (forall i c, read i = Ok c -> c = feed_text) ->
  process_ok l0_default feed_src (line_pos line_json (lines feed_text)) (feed_process read batch_size).
Proof.
  intros Hread. split; [done|apply line_embedder_laws|]. apply jsonl_laws; [done|]. vm_compute. reflexivity.
Qed.

Lemma sync_survives_crashes_witness :
  let cutting := cut no_text (fun _ => 1) no_clock snapshot_blob no_snapshot quotas_default true (str "c") l0_default feed_src (line_pos line_json (lines feed_text)) in
  cutting feed_db interrupted /\
  exists w report, ran (feed_process whole 1) interrupted = (w, Ok (Some report)) /\ sr_ingested report = 1 /\
  exists m log, Refines no_text no_clock true (w_db w) m log /\ Forall (ingested (str "c") l0_default (w_db w) m) feed_src.
Proof.
  cbv zeta.
  assert (forall d, bool_decide (get_u64 d META_DOC_COUNT + 2 < 2 ^ 63) && bool_decide (get_u64 d META_TOTAL_TOKENS + 2 * 2 ^ 32 < 2 ^ 64)
    && bool_decide (get_u64 d META_FEED_SEQ + 2 < 2 ^ 64) = true -> room d (Z.of_nat (length feed_src))) as Hroom.
  { intros d [[H1%bool_decide_eq_true H2%bool_decide_eq_true]%andb_true_iff H3%bool_decide_eq_true]%andb_true_iff. split_and!; assumption. }
  assert (NoDup (map dc_id feed_src)) as Hids by (refine (bool_decide_eq_true_1 _ _); vm_compute; reflexivity).
  assert (Forall (fun x => nul_free (dc_id x)) feed_src) as Hnul.
  { repeat constructor; refine (bool_decide_eq_true_1 _ _); vm_compute; reflexivity. }
  assert (cut no_text (fun _ => 1) no_clock snapshot_blob no_snapshot quotas_default true (str "c") l0_default feed_src (line_pos line_json (lines feed_text))
    feed_db interrupted) as Hcut.
  { exists 9%nat, (feed_process outage 1). split; [apply feed_process_ok; by intros [|i] c [= <-]|]. split; [apply Hroom; vm_compute; reflexivity|].
    unfold stores. apply elem_of_app. right. apply list_elem_of_singleton. reflexivity. }
  split; [exact Hcut|].
  assert (match (ran (feed_process whole 1) interrupted).2 with Ok (Some r) => sr_ingested r = 1 | _ => False end) as Hres by (vm_compute; reflexivity).
  pose proof (sync_survives_crashes no_text (fun _ => 1) no_clock snapshot_blob no_snapshot quotas_default true (str "c") l0_default feed_src
    (line_pos line_json (lines feed_text)) Hids Hnul ∅ [] feed_db interrupted 9 (feed_process whole 1)) as Hs.
  fold (ran (feed_process whole 1) interrupted) in Hs.
  revert Hs Hres. generalize (ran (feed_process whole 1) interrupted). intros [w res] Hs Hres. cbn [snd] in Hres.
  destruct res as [[report|]|e]; [|destruct Hres..]. exists w, report. split; [reflexivity|]. split; [exact Hres|].
  destruct Hs as (_ & _ & m & log & Hr & _ & Hi & _); [| | | | |exists m, log; split; [exact Hr|exact Hi]].
  - apply (refines_other no_text no_clock true CF_CONNS db0); [vm_compute; reflexivity|refine (bool_decide_eq_false_1 _ _); vm_compute; reflexivity..| |apply db0_refines].
    intros cf Hcf. by apply put_other.
  - intros c Hc. vm_compute in Hc. injection Hc as <-. split; [reflexivity|]. apply Forall_nil_2.
  - apply rtc_once. exact Hcut.
  - apply feed_process_ok. by intros i c [= <-].
  - apply Hroom. vm_compute. reflexivity.
Defined.

(** A feed that was drained is pulled from its beginning by the next run and
    written again; unless its last batch was full, for then the cursor stays
    behind the last line and the next run finds nothing to do. *)
Theorem drained_sync_replays :
  let again n := ran (feed_process whole n) (w_db (ran (feed_process whole n) feed_db).1) in
  match (again 256%nat).2, (again 2%nat).2 with
  | Ok (Some short), Ok (Some full) => sr_ingested short = 2 /\ sr_ingested full = 0
  | _, _ => False
  end
  /\ get_u64 (w_db (again 256%nat).1) META_FEED_SEQ = 4
  /\ option_map (fun c => docs_synced (Model.sync c)) (get_conn (w_db (again 256%nat).1) (str "c")) = Some 4.
Proof. split; [vm_compute; split; reflexivity|]. split; vm_compute; reflexivity. Qed.

(** A run that an outage ends leaves its connector syncing. *)
Theorem failed_sync_stays_syncing :
  (ran (feed_process outage 1) feed_db).2 = Err (Message (str "outage"))
  /\ option_map (fun c => status (Model.sync c)) (get_conn interrupted (str "c")) = Some Model.Syncing.
Proof. split; vm_compute; reflexivity. Qed.

(** The listing orders paths by their components, the cursor compares bytes:
    after the file [a/b] the file [a.txt] counts as ingested and is never
    pulled. *)
Theorem directory_skips_file :
  let files := [mkFile [str "a"; str "b"] (Some (str "one")) 0 3; mkFile [str "a.txt"] (Some (str "two")) 0 3] in
  let d := fs_driver (str "/r") (fun _ => Ok files) 1 in
  listing files = files
  /\ match dr_pull d 0 None with
     | Ok b => map dc_text (b_docs b) = [str "one"] /\ dr_pull d 1 (b_next b) = Ok (mkBatch [] None)
     | Err _ => False
     end.
Proof.
  cbv zeta. assert (listing [mkFile [str "a"; str "b"] (Some (str "one")) 0 3; mkFile [str "a.txt"] (Some (str "two")) 0 3] =
    [mkFile [str "a"; str "b"] (Some (str "one")) 0 3; mkFile [str "a.txt"] (Some (str "two")) 0 3]) as E by (vm_compute; reflexivity).
  split; [exact E|]. unfold fs_driver. cbn [dr_pull mbind result_bind]. rewrite E. cbn [fs_loop f_text]. split; reflexivity.
Qed.
End Runs.
